(* ===== verification/_CoqProject ===== *)
-Q . S2P
Prelude.v
CircuitBreaker.v
GoText.v
Utf8.v
Cache.v
TieredCache.v
DiskCache.v
Sha256.v
HashRing.v
PeerCache.v
ReadAhead.v
Backend.v
Coalescer.v
RateLimiter.v
LogqlScanner.v
LogqlAst.v
LogqlFilter.v
LogqlPipeline.v
LogqlParser.v
LogqlLexing.v
Translator.v
LogqlRoundtrip.v
TimeUtils.v
Windowing.v
ColdStore.v
LogqlValidate.v
JsonText.v
BinaryMatch.v
RangeMetrics.v
Budgets.v
SampleOps.v
LogsqlAst.v
LogsqlScanner.v
LogsqlParser.v
LogsqlReading.v
LogsqlRoundtrip.v
LogsqlQuery.v
LogsqlBridge.v
LabelIndex.v
LogLine.v
Tenants.v
Fanout.v
Burst.v
PostAgg.v
Regroup.v
Compress.v
