(* ===== verification/Prelude.v ===== *)
(** * loki-vl-proxy: verification development

    The proxy speaks the Loki API to Grafana and VictoriaLogs to its backend.  A
    request is validated and parsed (LogQL), translated to LogsQL, answered from a
    chain of caches or from the backend behind a circuit breaker, coalescer and
    budgets, and what the backend cannot compute, pipelines with templates, range
    metrics, operations between metrics, long ranges in windows, data in cold
    storage, is computed by the proxy on the rows it gets back.

    ** Conventions

    Definitions keep the names of the Go functions; each file names its sources.  Go
    integers are [Z] with [wrap64] after every operation that can overflow; a
    [time.Time] is an unbounded [Z] of nanoseconds whose differences saturate
    ([time_sub]); strings are byte strings; maps are [gmap]s.  A function that returns
    an error returns [result]; a panic is an outcome of its own.  State is threaded
    explicitly.  Methods that lock are functions on the protected record; where
    goroutines interleave, an inductive [step] relation has one constructor per
    critical section or atomic operation, and invariants are proved over its
    reflexive transitive closure.

    ** Files, in dependency order

    Shared: this file (integers, [result], [SliceStable], tactics, the hint database
    [goproxy]); [GoText] (strings, strconv); [Utf8] (runes, quoting, [Unicode] tables);
    [Sha256]; [JsonText] (encoding/json texts).

    Infrastructure, src/internal/middleware and src/internal/cache:
    - [CircuitBreaker] ([CB]): circuitbreaker.go, refinement of an abstract breaker that
      remembers every failure, invariant under interleaving.
    - [Cache] ([L1]): the memory tier of cache.go: a hit is the last write and fresh,
      limits hold, eviction is least recently used.
    - [TieredCache] ([Tiered]): the chain memory, disk, peers of cache.go against the
      interfaces [L2Store], [L2Laws] and [L3Store].
    - [DiskCache] ([Disk]): disk.go over the parameters [Bolt] and [Gzip]: hits were
      written, flushing is transparent, the sweep takes only expired entries wherever
      bbolt's cursor goes after a deletion.
    - [HashRing] ([Ring]): the ring of peer.go: the owner is the successor on the circle.
    - [PeerCache] ([Peer]) and [ReadAhead]: client and server of peer.go and its read-ahead
      cycle, an instance of [L3Store]; what a peer stored, a peer gets.
    - [Backend]: error classes and breaker bookkeeping of proxy/backend.go and http_utils.go.
    - [Coalescer] ([Co]): coalescer.go over [Singleflight]: one backend call per key.
    - [RateLimiter] ([RL]): the concurrency limit of ratelimiter.go.
    - [Budgets] ([Scan], [Permits], [Limits]): the sample pool, the backend permits and the
      limits of a query, proxy/manual_scan_budget.go, backend_budget.go,
      metric_eval_limits.go and limits_enforcement.go.

    LogQL, src/internal/logql:
    - [LogqlScanner], [LogqlAst], [LogqlParser]: scanner.go, ast.go, parser.go, ip_filter.go;
      every input is parsed or refused within the fuel given.
    - [LogqlLexing], [LogqlRoundtrip]: parsing a printed expression gives it back, for the
      trees [printable] describes.
    - [LogqlFilter] ([Filter]): label filters of pipeline.go, with their round trip.
    - [LogqlPipeline] ([Pipe]): the stages of pipeline.go: parsers keep stream labels (but
      for the exemptions of [parsers_keep_stream_labels]), patterns and logfmt extract what
      was filled in, sanitised names are Prometheus label names.
    - [LogqlValidate] ([Validate]): validate.go, semantic.go, stage_validate.go: what is
      accepted can be run; validation ends; the JSON expression automaton accepts its
      grammar, the logfmt one nothing outside its grammar.

    LogsQL, src/internal/logsql:
    - [LogsqlAst] ([LAst]), [LogsqlScanner] ([LScan]), [LogsqlParser] ([LParse]): ast.go,
      capabilities.go, scanner.go, parser.go and the stats check of
      proxy/stream_processing.go; every text is parsed or refused within the fuel given.
    - [LogsqlReading], [LogsqlRoundtrip] ([LRound]), [LogsqlQuery] ([LQuery]): a printed
      filter or query is read back up to the grouping of its chains, for the filters of
      [filter_ok] and the pipes of [pipe_ok].
    - [LogsqlBridge] ([LBridge]): what the translator writes for a matcher, under this parser.

    Translation and evaluation, src/internal/translator and src/internal/proxy:
    - [Translator] ([Tr]): selectors, matchers, line filters and markers of translator.go.
    - [TimeUtils] ([Times]): time_utils.go, step_grid.go.
    - [Windowing] ([Win]): query_range_windowing.go: windows tile the range; the handler,
      its batches and fetches with cache and breaker answer as the unsplit query; the
      adaptive parallelism stays in bounds.
    - [ColdStore] ([Cold]): cold_routing.go, cold_dispatch.go.
    - [BinaryMatch] ([Binary]): binary_matching.go and its budget, encoding and cardinality
      files: joins, set operations, exact encoding.
    - [RangeMetrics]: the evaluators of range_metric_compat.go and manual_metric_budget.go:
      the matrix is LogQL's, two pointers follow the windows, buckets count the rows.
    - [SampleOps]: comparison_semantics.go and the sample functions of metric_binary.go.
    - [LabelIndex] ([LIdx]): label_index.go and the label values handlers: reads follow the
      ranking, the bound keeps the best, peers merge in any order, the file round trip.
    - [LogLine] ([Line]): log_line.go, loki_record.go, translator/record.go: the rebuilt line
      is read back, both counts of a stored line agree, duplicates are dropped once.
    - [Tenants] ([Tenants], [TenantLaws]): the tenant checks of middleware.go, request_scope.go
      and the tenant matchers of multitenant.go: the documented resolution order and the
      headers each backend is sent, the tenants a selector chooses.
    - [Fanout] ([Fanout], [FanoutLaws]): the rest of multitenant.go: answers depend on no
      tenant outside the header, one failure fails the request on every endpoint, the merge
      keeps each tenant's answer.
    - [Burst] ([Burst], [BurstLaws]): drilldown_burst_coalescer.go: every caller gets the
      count of its own field from one fused query.
    - [PostAgg] ([PostAgg], [PostAggLaws]): metric_agg.go, the topk functions of
      metric_binary.go and the range resolution of proxy.go: topk keeps the best at every
      step, sorting, constant vectors and or vector(N).
    - [Regroup] ([Regroup], [RegroupLaws]): vector_matching.go without its matching, and the
      ends of the query handlers: without() sums each group, what is cached is what is sent.
    - [Compress] ([Compress], [CompressLaws]): middleware/compress.go: compression changes
      no answer of a handler that gives headers, status and body in this order, pooled
      buffers and writers go back once.

    ** Fuel

    Loops that are not structural carry fuel.  Scanners and parsers get the length of
    their input, since every round consumes a byte or a token ([parse_total],
    [logsql_parse_total] and [validate_total] show that it is enough); [sort.Search] gets the length of the
    interval; evaluation grids get the number of their steps (the theorems on
    [evaluateMatrix], [bareLoop] and [constantPoints] show that all are produced); the
    grid of or vector(N) gets a round for each of the 100,001 points the code allows
    ([grid_complete]); the
    greatest common divisor of two durations takes at most 127 rounds; pattern and
    template limits are the code's own constants.

    ** Parameters

    Code that is not in the repository enters through classes, with laws only where a
    theorem needs them, and every theorem that uses one has a witness with a concrete
    instance: Unicode tables ([Unicode]), float64 ([Floats], [Numbers], [Arithmetic],
    [Roots], [ExactIntegers]: sums of integers below 2^53 are exact; [Lenient] and
    [LenientLaws]: reading back a printed number, and strings.ToLower), package time
    ([Clock]), regular expressions ([Regexps], [Captures], [Checks]), encoding/json decoding
    ([Json], [Responses]), text/template ([Templates]), net/netip ([Netip]), bbolt, gzip,
    singleflight, the peers' wire ([Wire]), strings.ToLower ([Casing]) and encoding/json
    on index snapshots ([SnapshotJson], [SnapshotJsonLaws]), the pipes of
    VictoriaLogs a record's size is computed with ([VictoriaPipes], [PipeLaws]: what its
    documentation says of them), and encoding/json on the responses of tenants ([Bodies]).
    The single-tenant handlers under the fan-out are arguments of its definitions, functions
    of the request: the theorems hold for whatever they answer, and say nothing of the
    entries they themselves read from and put into the cache.  The answers a
    post-aggregation decodes and encodes ([Answers], [LabelAnswers]), sort.Slice ([Sorter],
    [SorterLaws]: some sorted rearrangement), the order of float64 ([FloatOrder]), the order of
    a range over a map ([MapOrder], [MapOrderLaws]), ReplaceAllString ([Replacing]) and the
    gzip writer of a response ([GzipStream], [GzipStreamLaws]: it is read back whatever the
    flushes) are parameters too.

    ** Not modelled

    HTTP handlers and routing, header forwarding, response decoding with fastjson and
    the conversion of rows to streams (stream_processing.go, postprocess.go); the
    template engine; the CIDR filters of logsql/builder.go; the rest of translator.go
    (level and mapping rules), of metric_binary.go (nested markers) and of
    range_metric_compat.go (routing, row collectors, reductions across series); label
    discovery, the rest of Drilldown, patterns, volume, tailing and alerting;
    cache warming; metrics, logging and the entry points.  These are either I/O
    around the modelled parts or left out for their size. *)

From stdpp Require Export base tactics numbers list gmap strings sorting relations.
From Stdlib Require Export ZArith Lia.
From Stdlib Require Export Ascii.

(** ** Go integers

    [int] and [int64] are both 64-bit two's complement on every platform the
    proxy ships for.  Values are [Z]; [wrap64] is the reduction Go performs
    after every arithmetic operation. *)

#[local] Open Scope Z_scope.

Definition MaxInt64 : Z := 9223372036854775807.
Definition MinInt64 : Z := -9223372036854775808.

Definition in_int64 (z : Z) : Prop := MinInt64 ≤ z ≤ MaxInt64.

Definition wrap64 (z : Z) : Z :=
  (z - MinInt64) mod (2 ^ 64) + MinInt64.

(** [a.Sub(b)] of package time: the difference of two instants, saturated to
    the range of [time.Duration]. *)
Definition time_sub (a b : Z) : Z :=
  Z.max MinInt64 (Z.min MaxInt64 (a - b)).

(** Nanoseconds per unit of package time. *)
Definition Millisecond : Z := 1000000.
Definition Second : Z := 1000000000.
Definition Minute : Z := 60 * Second.
Definition Hour : Z := 60 * Minute.

(** ** Fallible code: a Go [(T, error)] return. *)
Inductive result (A : Type) : Type :=
| Ok (a : A)
| Err (msg : string).
Arguments Ok {A} a.
Arguments Err {A} msg.

Definition rbind {A B} (f : A → result B) (r : result A) : result B :=
  match r with
  | Ok a => f a
  | Err e => Err e
  end.

Definition is_ok {A} (r : result A) : bool :=
  match r with
  | Ok _ => true
  | Err _ => false
  end.

Declare Scope go_scope.
Delimit Scope go_scope with go.
Notation "'let!' x ':=' c 'in' k" :=
  (rbind (fun x => k) c)
  (at level 10, x pattern, c at level 100, k at level 200) : go_scope.

(** ** Tactics *)

(** Split on the boolean integer comparison nearest to the root of the goal or
    of a hypothesis and turn it into the order fact it decides. *)
Ltac zcase_in t :=
  match t with
  | context [ ?x <? ?y ] => destruct (Z.ltb_spec x y)
  | context [ ?x <=? ?y ] => destruct (Z.leb_spec x y)
  | context [ ?x =? ?y ] => destruct (Z.eqb_spec x y)
  end.

Ltac zcase :=
  match goal with
  | |- ?g => zcase_in g
  | H : ?h |- _ => zcase_in h
  end.

Ltac zcases := repeat (zcase; simpl in *; try lia); try lia.

(** Destruct the innermost [match] scrutinee found in hypothesis [H]. *)
Ltac dmatch H :=
  match type of H with
  | context [ match ?e with _ => _ end ] =>
      lazymatch e with
      | context [ match _ with _ => _ end ] => fail
      | _ => destruct e eqn:?
      end
  end.

Ltac dmatches H := repeat (dmatch H; simplify_eq).

Create HintDb goproxy.

(** ** Shared lemmas *)

Lemma wrap64_id (z : Z) : in_int64 z → wrap64 z = z.
Proof.
  unfold in_int64, wrap64, MinInt64, MaxInt64. intros H.
  rewrite Z.mod_small; lia.
Qed.

Lemma wrap64_range (z : Z) : in_int64 (wrap64 z).
Proof.
  unfold in_int64, wrap64, MinInt64, MaxInt64.
  pose proof (Z.mod_pos_bound (z - -9223372036854775808) (2 ^ 64)). lia.
Qed.

Lemma wrap64_add (a b : Z) : wrap64 (wrap64 a + b) = wrap64 (a + b).
Proof.
  unfold wrap64. f_equal. replace ((a - MinInt64) mod 2 ^ 64 + MinInt64 + b - MinInt64)
    with ((a - MinInt64) mod 2 ^ 64 + b) by lia.
  rewrite Zplus_mod_idemp_l. f_equal. lia.
Qed.

Lemma time_sub_pos (a b : Z) : 0 < time_sub a b ↔ b < a.
Proof. unfold time_sub, MinInt64, MaxInt64. lia. Qed.

Lemma time_sub_nonpos (a b : Z) : time_sub a b ≤ 0 ↔ a ≤ b.
Proof. unfold time_sub, MinInt64, MaxInt64. lia. Qed.

Lemma filter_all {A} (P : A → Prop) `{∀ x, Decision (P x)} (l : list A) :
  Forall P l → filter P l = l.
Proof. induction 1; [done|]. rewrite filter_cons_True by done. by f_equal. Qed.

Lemma filter_none {A} (P : A → Prop) `{∀ x, Decision (P x)} (l : list A) :
  Forall (λ x, ¬ P x) l → filter P l = [].
Proof. induction 1; [done|]. by rewrite filter_cons_False. Qed.

Lemma Forall_filter_mono {A} (P Q : A → Prop) `{∀ x, Decision (P x)} (l : list A) :
  Forall Q l → Forall Q (filter P l).
Proof.
  intros HF. apply Forall_forall. intros x [_ Hx]%list_elem_of_filter.
  by eapply Forall_forall in HF.
Qed.

Lemma sorted_filter {A} (R : A → A → Prop) (P : A → Prop) `{∀ x, Decision (P x)} (l : list A) :
  StronglySorted R l → StronglySorted R (filter P l).
Proof.
  induction 1 as [|x l Hs IH Hall]; [constructor|].
  rewrite filter_cons. case_decide; [|done].
  constructor; [done|]. by apply Forall_filter_mono.
Qed.

(** What is cut off a sorted list is no better than what stays. *)
Lemma sorted_take_drop {A} (R : A → A → Prop) (n : nat) l x y : StronglySorted R l → x ∈ take n l → y ∈ drop n l → R x y.
Proof.
  intros Hs. revert n. induction Hs as [|z l Hs IH Hz]; intros n Hx Hy.
  - rewrite take_nil in Hx. by apply elem_of_nil in Hx.
  - destruct n as [|n]; [by apply elem_of_nil in Hx|]. cbn in *. apply elem_of_cons in Hx as [->|Hx]; [|by eapply IH].
    rewrite Forall_forall in Hz. apply Hz. rewrite <- (take_drop n l). apply elem_of_app. by right.
Qed.

(** Steps that commute can be taken in any order. *)
Lemma foldl_comm {A B} (f : A → B → A) (l1 l2 : list B) : (∀ a x y, f (f a x) y = f (f a y) x) →
  l1 ≡ₚ l2 → ∀ a, foldl f a l1 = foldl f a l2.
Proof.
  intros Hf. induction 1 as [|x l1 l2 _ IH|x y l|l1 l2 l3 _ IH1 _ IH2]; intros a; cbn; [done|apply IH| |].
  - by rewrite Hf.
  - by rewrite IH1.
Qed.

(** ** [sort.SliceStable]

    The stable sort of a slice is unique, so insertion from the right computes it. *)

Section Sorting.
Context {A : Type} (less : A → A → bool).

Fixpoint insertStable (x : A) (l : list A) : list A :=
  match l with
  | [] => [x]
  | y :: l' => if less y x then y :: insertStable x l' else x :: l
  end.

Definition SliceStable (l : list A) : list A := foldr insertStable [] l.

Lemma insertStable_perm x l : insertStable x l ≡ₚ x :: l.
Proof.
  induction l as [|y l IH]; [done|]. cbn. destruct (less y x); [|done]. rewrite IH. constructor.
Qed.

Lemma SliceStable_perm l : SliceStable l ≡ₚ l.
Proof. induction l as [|x l IH]; [done|]. cbn [SliceStable foldr]. fold (SliceStable l). by rewrite insertStable_perm, IH. Qed.

(** Nothing sorted before an element is greater than it. *)
Definition no_greater (x y : A) : Prop := less y x = false.

Hypothesis less_asym : ∀ x y, less x y = true → less y x = false.
Hypothesis no_greater_trans : Transitive no_greater.

Lemma insertStable_sorted x l : StronglySorted no_greater l → StronglySorted no_greater (insertStable x l).
Proof.
  induction 1 as [|y l Hs IH Hy]; [repeat constructor|]. cbn. destruct (less y x) eqn:E.
  - constructor; [done|]. rewrite insertStable_perm. constructor; [by apply less_asym|done].
  - constructor; [by constructor|]. constructor; [done|]. eapply Forall_impl; [exact Hy|].
    intros z Hz. by eapply no_greater_trans.
Qed.

Lemma SliceStable_sorted l : StronglySorted no_greater (SliceStable l).
Proof. induction l as [|x l IH]; [constructor|]. by apply insertStable_sorted. Qed.

(** The sort of a part of a slice is that part of the sorted slice. *)
Lemma insertStable_filter (P : A → Prop) `{!∀ x, Decision (P x)} x l : StronglySorted no_greater l →
  filter P (insertStable x l) = if decide (P x) then insertStable x (filter P l) else filter P l.
Proof.
  induction 1 as [|y l Hs IH Hy]; cbn [insertStable].
  { rewrite filter_cons, filter_nil. by destruct (decide (P x)). }
  destruct (less y x) eqn:E.
  - rewrite !filter_cons, IH. destruct (decide (P y)); [|done]. destruct (decide (P x)); [|done].
    cbn. by rewrite E.
  - rewrite (filter_cons P x). destruct (decide (P x)); [|done]. symmetry.
    assert (Forall (λ z, less z x = false) (y :: l)) as Hz.
    { constructor; [done|]. eapply Forall_impl; [exact Hy|]. intros z Hz. by apply (no_greater_trans x y z). }
    revert Hz. generalize (y :: l). intros l' Hl. destruct (filter P l') as [|z l2] eqn:Ef; [done|].
    cbn. rewrite Forall_forall in Hl. rewrite Hl; [done|].
    apply (list_elem_of_filter P). rewrite Ef. left.
Qed.

Lemma SliceStable_filter (P : A → Prop) `{!∀ x, Decision (P x)} l :
  filter P (SliceStable l) = SliceStable (filter P l).
Proof.
  induction l as [|x l IH]; [done|]. cbn [SliceStable foldr]. fold (SliceStable l).
  rewrite insertStable_filter by apply SliceStable_sorted. rewrite IH, filter_cons. by destruct (decide (P x)).
Qed.

End Sorting.

#[export] Hint Resolve wrap64_range : goproxy.
