(* ===== verification/CircuitBreaker.v ===== *)
(** * The circuit breaker (src/internal/middleware/circuitbreaker.go)

    [CB.breaker] is the struct, one function per method, [CB.step] the
    interleaving of calls by concurrent goroutines (each method is a lock-free
    read of the shadow state followed by a critical section).  The abstract
    breaker [CB.spec] remembers every failure since it was last closed and
    opens when enough of them fall inside the sliding window; the concrete
    breaker, which prunes its slice, refines it. *)

From S2P Require Import Prelude.

#[local] Open Scope Z_scope.

Module CB.

(** ** Data *)

Inductive cbState : Type :=
| cbClosed
| cbOpen
| cbHalfOpen.

#[export] Instance cbState_eq_dec : EqDecision cbState.
Proof. solve_decision. Defined.

Record breaker : Type := mkBreaker {
  atomicState : cbState;
  state : cbState;
  failureTimes : list Z;
  successes : Z;
  halfOpenProbes : Z;
  openUntil : Z;
  failureThreshold : Z;
  windowDuration : Z;
  successThreshold : Z;
  openDuration : Z;
  TripsTotal : Z
}.

(** The assignments [cb.state = s; cb.atomicState.Store(int32(s))]. *)
Definition set_state (s : cbState) (cb : breaker) : breaker :=
  mkBreaker s s (failureTimes cb) (successes cb) (halfOpenProbes cb)
    (openUntil cb) (failureThreshold cb) (windowDuration cb)
    (successThreshold cb) (openDuration cb) (TripsTotal cb).

Definition set_failureTimes (l : list Z) (cb : breaker) : breaker :=
  mkBreaker (atomicState cb) (state cb) l (successes cb) (halfOpenProbes cb)
    (openUntil cb) (failureThreshold cb) (windowDuration cb)
    (successThreshold cb) (openDuration cb) (TripsTotal cb).

Definition set_probes (succ probes : Z) (cb : breaker) : breaker :=
  mkBreaker (atomicState cb) (state cb) (failureTimes cb) succ probes
    (openUntil cb) (failureThreshold cb) (windowDuration cb)
    (successThreshold cb) (openDuration cb) (TripsTotal cb).

(** [cb.openUntil = ...; cb.TripsTotal.Add(1)]. *)
Definition set_trip (until : Z) (cb : breaker) : breaker :=
  mkBreaker (atomicState cb) (state cb) (failureTimes cb) (successes cb)
    (halfOpenProbes cb) until (failureThreshold cb) (windowDuration cb)
    (successThreshold cb) (openDuration cb) (TripsTotal cb + 1).

(** ** Operations *)

Definition NewCircuitBreaker
    (failureThr successThr openDur windowDur : Z) : breaker :=
  let windowDur := if windowDur <=? 0 then 30 * Second else windowDur in
  mkBreaker cbClosed cbClosed [] 0 0 0
    failureThr windowDur successThr openDur 0.

(** The part of [Allow] under the mutex; [now] is [time.Now()]. *)
Definition Allow_locked (now : Z) (cb : breaker) : bool * breaker :=
  match state cb with
  | cbClosed => (true, cb)
  | cbOpen =>
      if openUntil cb <? now
      then (true, set_probes 0 1 (set_state cbHalfOpen cb))
      else (false, cb)
  | cbHalfOpen =>
      if halfOpenProbes cb <? successThreshold cb
      then (true, set_probes (successes cb) (halfOpenProbes cb + 1) cb)
      else (false, cb)
  end.

Definition Allow (now : Z) (cb : breaker) : bool * breaker :=
  if decide (atomicState cb = cbClosed) then (true, cb)
  else Allow_locked now cb.

Definition RecordSuccess_locked (cb : breaker) : breaker :=
  match state cb with
  | cbHalfOpen =>
      let cb1 := set_probes (successes cb + 1) (halfOpenProbes cb) cb in
      if successThreshold cb1 <=? successes cb1
      then set_failureTimes [] (set_state cbClosed cb1)
      else cb1
  | cbClosed | cbOpen => cb
  end.

Definition RecordSuccess (cb : breaker) : breaker :=
  if decide (atomicState cb = cbClosed) then cb
  else RecordSuccess_locked cb.

(** The scan of [pruneWindow]: skip the leading timestamps before the cutoff. *)
Fixpoint pruneBefore (cutoff : Z) (ts : list Z) : list Z :=
  match ts with
  | [] => []
  | t :: rest => if t <? cutoff then pruneBefore cutoff rest else ts
  end.

Definition pruneWindow (now : Z) (cb : breaker) : breaker :=
  set_failureTimes
    (pruneBefore (now - windowDuration cb) (failureTimes cb)) cb.

(** The three [time.Now()] readings of one [RecordFailure], in program order:
    in [pruneWindow], for the appended timestamp, for [openUntil]. *)
Record readings : Type := mkReadings {
  r_prune : Z;
  r_append : Z;
  r_open : Z
}.

Definition RecordFailure (r : readings) (cb : breaker) : breaker :=
  match state cb with
  | cbClosed =>
      let cb1 := pruneWindow (r_prune r) cb in
      let cb2 := set_failureTimes (failureTimes cb1 ++ [r_append r]) cb1 in
      if failureThreshold cb2 <=? Z.of_nat (length (failureTimes cb2))
      then set_trip (r_open r + openDuration cb2) (set_state cbOpen cb2)
      else cb2
  | cbHalfOpen =>
      set_trip (r_open r + openDuration cb) (set_state cbOpen cb)
  | cbOpen => cb
  end.

Definition State (cb : breaker) : string :=
  match state cb with
  | cbClosed => "closed"
  | cbOpen => "open"
  | cbHalfOpen => "half_open"
  end.

(** ** Calls and their interleaving

    One goroutine performs one call at a time.  [Allow] and [RecordSuccess]
    first read [atomicState]; when it is not closed they take the mutex in a
    later step, with other goroutines' steps possibly in between.  The clock is
    part of the configuration and never runs backwards. *)

Inductive phase : Type :=
| PIdle
| PAllowSlow
| PSuccessSlow.

#[export] Instance phase_eq_dec : EqDecision phase.
Proof. solve_decision. Defined.

Record config : Type := mkConfig {
  cb_of : breaker;
  clock : Z;
  phases : list phase
}.

(** What a step lets an observer see: an admitted or rejected [Allow]. *)
Inductive event : Type :=
| EAllow (ok : bool)
| ETau.

Inductive step : config → event → config → Prop :=
| step_tick cb c c' ps :
    c ≤ c' →
    step (mkConfig cb c ps) ETau (mkConfig cb c' ps)
| step_allow_fast cb c ps i :
    ps !! i = Some PIdle →
    atomicState cb = cbClosed →
    step (mkConfig cb c ps) (EAllow true) (mkConfig cb c ps)
| step_allow_enter cb c ps i :
    ps !! i = Some PIdle →
    atomicState cb ≠ cbClosed →
    step (mkConfig cb c ps) ETau (mkConfig cb c (<[i:=PAllowSlow]> ps))
| step_allow_locked cb c ps i ok cb' :
    ps !! i = Some PAllowSlow →
    Allow_locked c cb = (ok, cb') →
    step (mkConfig cb c ps) (EAllow ok) (mkConfig cb' c (<[i:=PIdle]> ps))
| step_success_fast cb c ps i :
    ps !! i = Some PIdle →
    atomicState cb = cbClosed →
    step (mkConfig cb c ps) ETau (mkConfig cb c ps)
| step_success_enter cb c ps i :
    ps !! i = Some PIdle →
    atomicState cb ≠ cbClosed →
    step (mkConfig cb c ps) ETau (mkConfig cb c (<[i:=PSuccessSlow]> ps))
| step_success_locked cb c ps i :
    ps !! i = Some PSuccessSlow →
    step (mkConfig cb c ps) ETau
      (mkConfig (RecordSuccess_locked cb) c (<[i:=PIdle]> ps))
| step_failure cb c ps i r :
    ps !! i = Some PIdle →
    c ≤ r_prune r ≤ r_append r → r_append r ≤ r_open r →
    step (mkConfig cb c ps) ETau
      (mkConfig (RecordFailure r cb) (r_open r) ps).

Inductive steps : config → list event → config → Prop :=
| steps_refl c : steps c [] c
| steps_cons c1 e c2 es c3 :
    step c1 e c2 → steps c2 es c3 → steps c1 (e :: es) c3.

(** Configurations reachable from a fresh breaker used by [n] goroutines. *)
Definition reachable
    (failureThr successThr openDur windowDur : Z) (n : nat) (c : config) : Prop :=
  ∃ t0 es,
    steps (mkConfig (NewCircuitBreaker failureThr successThr openDur windowDur)
             t0 (replicate n PIdle)) es c.

(** Admitted calls of a trace. *)
Fixpoint admitted (es : list event) : Z :=
  match es with
  | [] => 0
  | EAllow true :: es => 1 + admitted es
  | _ :: es => admitted es
  end.

(** Probe slots taken in the current half-open episode. *)
Definition probes_of (cb : breaker) : Z :=
  match state cb with
  | cbHalfOpen => halfOpenProbes cb
  | _ => 0
  end.

(** Clock readings of a series of failures, none before the previous one. *)
Fixpoint chained (t0 : Z) (rs : list readings) : Prop :=
  match rs with
  | [] => True
  | r :: rs =>
      t0 ≤ r_prune r ∧ r_prune r ≤ r_append r ∧ r_append r ≤ r_open r ∧
      chained (r_open r) rs
  end.

(** ** Invariant *)

Definition wf (c : config) : Prop :=
  let cb := cb_of c in
  atomicState cb = state cb ∧
  0 < windowDuration cb ∧
  StronglySorted Z.le (failureTimes cb) ∧
  Forall (λ t, t ≤ clock c) (failureTimes cb) ∧
  (state cb = cbClosed →
     failureTimes cb = [] ∨
     Z.of_nat (length (failureTimes cb)) < failureThreshold cb) ∧
  (state cb = cbHalfOpen →
     1 ≤ halfOpenProbes cb ≤ Z.max 1 (successThreshold cb)) ∧
  (state cb = cbHalfOpen → 0 ≤ successes cb) ∧
  0 ≤ TripsTotal cb.

(** ** Abstract breaker

    [spec_closed hist]: closed, with every failure time since the breaker was
    last closed, never pruned. *)

Record spec : Type := mkSpec {
  sp_state : cbState;
  sp_hist : list Z
}.

(** The number of remembered failures that are not older than [cutoff]. *)
Definition in_window (cutoff : Z) (ts : list Z) : nat :=
  length (filter (λ t, cutoff ≤ t) ts).

(** A failure opens the abstract breaker exactly when the failures of the
    window ending now, this one included, reach the threshold. *)
Definition spec_failure (thr window : Z) (r : readings) (s : spec) : spec :=
  match sp_state s with
  | cbClosed =>
      let hist := sp_hist s ++ [r_append r] in
      if thr <=? Z.of_nat (in_window (r_prune r - window) hist)
      then mkSpec cbOpen hist
      else mkSpec cbClosed hist
  | cbHalfOpen => mkSpec cbOpen (sp_hist s)
  | cbOpen => s
  end.

(** The concrete slice is what the window still covers of the history: some
    earlier cutoff [k] separates them. *)
Definition refines (k : Z) (cb : breaker) (s : spec) : Prop :=
  state cb = sp_state s ∧
  (sp_state s = cbClosed →
     failureTimes cb = filter (λ t, k ≤ t) (sp_hist s) ∧
     StronglySorted Z.le (sp_hist s)).

(** ** Lemmas *)

Lemma pruneBefore_sorted cutoff ts :
  StronglySorted Z.le ts →
  pruneBefore cutoff ts = filter (λ t, cutoff ≤ t) ts.
Proof.
  induction 1 as [|t ts Hs IH Hall]; simpl; [done|].
  rewrite filter_cons. zcase.
  - rewrite decide_False by lia. done.
  - rewrite decide_True by lia. f_equal.
    symmetry. apply filter_all.
    eapply Forall_impl; [exact Hall|]. simpl. lia.
Qed.

Lemma sorted_snoc ts t :
  StronglySorted Z.le ts → Forall (λ x, x ≤ t) ts →
  StronglySorted Z.le (ts ++ [t]).
Proof.
  induction 1 as [|x ts Hs IH Hall]; simpl; intros Ht.
  - constructor; constructor.
  - inversion_clear Ht. constructor; [by apply IH|].
    apply Forall_app; split; [done|]. by constructor.
Qed.

Lemma filter_filter_mono k c (ts : list Z) :
  k ≤ c → filter (λ t, c ≤ t) (filter (λ t, k ≤ t) ts) = filter (λ t, c ≤ t) ts.
Proof.
  intros. rewrite list_filter_filter. apply list_filter_iff. intros; lia.
Qed.

Lemma prune_sorted now cb :
  StronglySorted Z.le (failureTimes cb) →
  StronglySorted Z.le (failureTimes (pruneWindow now cb)) ∧
  (∀ P, Forall P (failureTimes cb) → Forall P (failureTimes (pruneWindow now cb))).
Proof.
  intros Hs. simpl. rewrite pruneBefore_sorted by done. split.
  - by apply sorted_filter.
  - intros P. by apply Forall_filter_mono.
Qed.

(** Close the conjuncts of [wf] after a step has been computed. *)
Ltac wf_solve :=
  unfold wf; simpl;
  repeat match goal with |- _ ∧ _ => split end;
  intros; try done; try lia; try congruence;
  eauto using SSorted_nil, Forall_nil_2.

(** The whole critical section of [RecordFailure] keeps the invariant. *)
Lemma wf_failure cb c ps r :
  wf (mkConfig cb c ps) →
  c ≤ r_prune r ≤ r_append r → r_append r ≤ r_open r →
  wf (mkConfig (RecordFailure r cb) (r_open r) ps).
Proof.
  intros (Ha & Hw & Hs & Hle & Hcl & Hho & Hsu & Htr) Hr1 Hr2.
  assert (Forall (λ t, t ≤ r_append r) (failureTimes cb)) as Hle'
    by (eapply Forall_impl; [exact Hle|]; simpl; lia).
  assert (Forall (λ t, t ≤ r_open r) (failureTimes cb)) as Hle''
    by (eapply Forall_impl; [exact Hle|]; simpl; lia).
  destruct (prune_sorted (r_prune r) cb Hs) as [Hps Hpf].
  assert (StronglySorted Z.le
            (failureTimes (pruneWindow (r_prune r) cb) ++ [r_append r])) as Hsn
    by (apply sorted_snoc; eauto).
  assert (Forall (λ t, t ≤ r_open r)
            (failureTimes (pruneWindow (r_prune r) cb) ++ [r_append r])) as Hfn
    by (apply Forall_app; split; [eauto|]; repeat constructor; lia).
  unfold RecordFailure. destruct (state cb) eqn:Hst; simpl in *; try zcase; wf_solve.
Qed.

Lemma wf_allow cb c ps ps' ok cb' :
  wf (mkConfig cb c ps) → Allow_locked c cb = (ok, cb') →
  wf (mkConfig cb' c ps').
Proof.
  intros (Ha & Hw & Hs & Hle & Hcl & Hho & Hsu & Htr). unfold Allow_locked.
  destruct (state cb) eqn:Hst; simpl in *; try zcase; intros [= <- <-];
    try specialize (Hho Hst); try specialize (Hsu Hst); wf_solve.
Qed.

Lemma wf_success cb c ps ps' :
  wf (mkConfig cb c ps) → wf (mkConfig (RecordSuccess_locked cb) c ps').
Proof.
  intros (Ha & Hw & Hs & Hle & Hcl & Hho & Hsu & Htr). unfold RecordSuccess_locked.
  destruct (state cb) eqn:Hst; simpl in *; try zcase;
    try specialize (Hho Hst); try specialize (Hsu Hst); wf_solve.
Qed.

Lemma wf_step c e c' : wf c → step c e c' → wf c'.
Proof.
  intros Hwf Hstep. destruct Hstep; try exact Hwf.
  - destruct Hwf as (Ha & Hw & Hs & Hle & Hrest). repeat split; try tauto.
    eapply Forall_impl; [exact Hle|]. simpl. lia.
  - eapply wf_allow; eauto.
  - eapply wf_success; eauto.
  - eapply wf_failure; eauto.
Qed.

Lemma wf_steps c es c' : wf c → steps c es c' → wf c'.
Proof. induction 2; eauto using wf_step. Qed.

Lemma wf_init fthr sthr od wd t0 ps :
  wf (mkConfig (NewCircuitBreaker fthr sthr od wd) t0 ps).
Proof.
  unfold NewCircuitBreaker. unfold Second. zcase; wf_solve.
Qed.

(** *** Refinement helpers *)

Lemma in_window_snoc cutoff ts t :
  cutoff ≤ t →
  in_window cutoff (ts ++ [t]) = S (in_window cutoff ts).
Proof.
  intros. unfold in_window. rewrite filter_app, length_app, filter_cons_True by done.
  simpl. lia.
Qed.

Lemma refine_failure k cb s r :
  0 ≤ windowDuration cb →
  k ≤ r_prune r - windowDuration cb →
  r_prune r ≤ r_append r →
  Forall (λ t, t ≤ r_append r) (sp_hist s) →
  refines k cb s →
  refines (r_prune r - windowDuration cb) (RecordFailure r cb)
    (spec_failure (failureThreshold cb) (windowDuration cb) r s).
Proof.
  intros Hw Hk Hr Hf [Hst Hcl]. unfold refines, RecordFailure, spec_failure.
  rewrite Hst. destruct (sp_state s) eqn:Hs.
  - destruct (Hcl eq_refl) as [Hft Hsort]. cbn [failureThreshold set_failureTimes pruneWindow].
    set (cut := r_prune r - windowDuration cb) in *.
    assert (failureTimes (pruneWindow (r_prune r) cb) = filter (λ t, cut ≤ t) (sp_hist s)) as Hp.
    { simpl. rewrite Hft, pruneBefore_sorted by (by apply sorted_filter).
      by apply filter_filter_mono. }
    cbn [failureTimes set_failureTimes] in *. rewrite Hp, in_window_snoc by lia.
    rewrite length_app. unfold in_window. cbn [length].
    rewrite Nat.add_1_r.
    zcase; simpl; (split; [done|]); [congruence|]. intros _. split.
    + rewrite filter_app. f_equal. rewrite filter_cons_True by lia. done.
    + by apply sorted_snoc.
  - by rewrite Hst, Hs.
  - simpl. split; [done|congruence].
Qed.

Lemma config_failure r cb :
  windowDuration (RecordFailure r cb) = windowDuration cb ∧
  failureThreshold (RecordFailure r cb) = failureThreshold cb.
Proof. unfold RecordFailure. destruct (state cb); simpl; try zcase; done. Qed.

Lemma spec_hist_bound thr w r s t :
  Forall (λ x, x ≤ t) (sp_hist s) → r_append r ≤ t →
  Forall (λ x, x ≤ t) (sp_hist (spec_failure thr w r s)).
Proof.
  intros. unfold spec_failure.
  destruct (sp_state s); try zcase; simpl; try done;
    apply Forall_app; auto.
Qed.

Lemma refine_failures fthr w cb s k t0 rs :
  refines k cb s → windowDuration cb = w → failureThreshold cb = fthr →
  0 ≤ w → k ≤ t0 - w → Forall (λ t, t ≤ t0) (sp_hist s) → chained t0 rs →
  state (foldl (λ cb r, RecordFailure r cb) cb rs) =
  sp_state (foldl (λ s r, spec_failure fthr w r s) s rs).
Proof.
  revert cb s k t0.
  induction rs as [|r rs IH]; intros cb s k t0 Href Hwd Hthr Hw Hk Hf Hch; simpl.
  { apply Href. }
  destruct Hch as (H1 & H2 & H3 & Hch). destruct (config_failure r cb) as [E1 E2].
  assert (Forall (λ t, t ≤ r_append r) (sp_hist s)) as Hf'
    by (eapply Forall_impl; [exact Hf|]; simpl; lia).
  subst fthr w.
  eapply (IH _ _ (r_prune r - windowDuration cb) (r_open r));
    [|congruence|congruence|lia|lia| |done].
  - eapply refine_failure; eauto; lia.
  - apply spec_hist_bound; [|lia]. eapply Forall_impl; [exact Hf|]; simpl; lia.
Qed.

(** *** Step helpers *)

Lemma trips_step c e c' :
  step c e c' → TripsTotal (cb_of c) ≤ TripsTotal (cb_of c').
Proof.
  destruct 1 as [ | | |cb c ps i ok cb' _ Hal| | |cb c ps i Hps|cb c ps i r Hps _ _];
    simpl; try lia.
  - revert Hal. unfold Allow_locked.
    destruct (state cb); try zcase; intros [= <- <-]; simpl; lia.
  - unfold RecordSuccess_locked. destruct (state cb); simpl; try zcase; simpl; lia.
  - unfold RecordFailure. destruct (state cb); simpl; try zcase; simpl; lia.
Qed.

Lemma trips_steps c es c' :
  steps c es c' → TripsTotal (cb_of c) ≤ TripsTotal (cb_of c').
Proof. induction 1; [lia|]. apply trips_step in H. lia. Qed.

Lemma clock_step c e c' : step c e c' → clock c ≤ clock c'.
Proof. destruct 1; simpl; lia. Qed.

Lemma clock_steps c es c' : steps c es c' → clock c ≤ clock c'.
Proof. induction 1; [lia|]. apply clock_step in H. lia. Qed.

(** Leaving the closed state costs a trip. *)
Lemma leave_closed_step c e c' :
  step c e c' → state (cb_of c) = cbClosed → state (cb_of c') ≠ cbClosed →
  TripsTotal (cb_of c) < TripsTotal (cb_of c').
Proof.
  destruct 1 as [ | | |cb c ps i ok cb' _ Hal| | |cb c ps i Hps|cb c ps i r Hps _ _];
    simpl; intros Hc Hn; try congruence.
  - revert Hal. unfold Allow_locked. rewrite Hc. intros [= <- <-]. congruence.
  - revert Hn. unfold RecordSuccess_locked. rewrite Hc. congruence.
  - revert Hn. unfold RecordFailure. rewrite Hc. simpl. zcase; simpl; [lia|congruence].
Qed.

Lemma leave_closed_steps c es c' :
  steps c es c' → state (cb_of c) = cbClosed → state (cb_of c') ≠ cbClosed →
  TripsTotal (cb_of c) < TripsTotal (cb_of c').
Proof.
  induction 1 as [|c1 e c2 es c3 H1 H2 IH]; intros Hc Hn; [congruence|].
  destruct (decide (state (cb_of c2) = cbClosed)) as [H|H].
  - apply trips_step in H1. specialize (IH H Hn). lia.
  - pose proof (leave_closed_step _ _ _ H1 Hc H). apply trips_steps in H2. lia.
Qed.

Lemma probes_step c e c' :
  wf c → step c e c' →
  state (cb_of c) ≠ cbClosed → state (cb_of c') ≠ cbClosed →
  TripsTotal (cb_of c) = TripsTotal (cb_of c') →
  probes_of (cb_of c) + admitted [e] = probes_of (cb_of c').
Proof.
  intros (Ha & _) Hstep Hn Hn' Ht.
  destruct Hstep as [ | | |cb c ps i ok cb' _ Hal| | |cb c ps i Hps|cb c ps i r Hps _ _];
    simpl in *; try lia; try congruence.
  - revert Hal. unfold Allow_locked, probes_of in *.
    destruct (state cb) eqn:Hst; try zcase; intros [= <- <-]; simpl in *;
      rewrite ?Hst; lia || congruence.
  - revert Hn' Ht. unfold RecordSuccess_locked, probes_of.
    destruct (state cb) eqn:Hst; try zcase; simpl in *; rewrite ?Hst; intros; lia || congruence.
  - revert Hn' Ht. unfold RecordFailure, probes_of.
    destruct (state cb) eqn:Hst; simpl in *; try zcase; simpl; rewrite ?Hst;
      intros; lia || congruence.
Qed.

Lemma admitted_cons e es : admitted (e :: es) = admitted [e] + admitted es.
Proof. destruct e as [[]|]; simpl; lia. Qed.

Lemma probes_steps c es c' :
  steps c es c' → wf c →
  state (cb_of c) ≠ cbClosed → state (cb_of c') ≠ cbClosed →
  TripsTotal (cb_of c) = TripsTotal (cb_of c') →
  probes_of (cb_of c) + admitted es = probes_of (cb_of c').
Proof.
  induction 1 as [|c1 e c2 es c3 H1 H2 IH]; intros Hwf Hc Hn Ht; [simpl; lia|].
  pose proof (trips_step _ _ _ H1). pose proof (trips_steps _ _ _ H2).
  destruct (decide (state (cb_of c2) = cbClosed)) as [Hc2|Hc2].
  - pose proof (leave_closed_steps _ _ _ H2 Hc2 Hn). lia.
  - rewrite admitted_cons.
    pose proof (probes_step _ _ _ Hwf H1 Hc Hc2 ltac:(lia)).
    pose proof (IH (wf_step _ _ _ Hwf H1) Hc2 Hn ltac:(lia)). lia.
Qed.

Lemma open_step c e c' :
  wf c → step c e c' → state (cb_of c) = cbOpen →
  clock c' ≤ openUntil (cb_of c) →
  cb_of c' = cb_of c ∧ e ≠ EAllow true.
Proof.
  intros (Ha & _) Hstep Ho Ht.
  destruct Hstep as [ | | |cb c ps i ok cb' _ Hal| | |cb c ps i Hps|cb c ps i r Hps _ _];
    simpl in *; try (split; [done|congruence]).
  - revert Hal. unfold Allow_locked. rewrite Ho. zcase; [lia|].
    intros [= <- <-]. split; [done|congruence].
  - unfold RecordSuccess_locked. rewrite Ho. split; [done|congruence].
  - unfold RecordFailure. rewrite Ho. split; [done|congruence].
Qed.

(** ** Properties *)

(** C1 In every configuration that any interleaving of [Allow],
    [RecordSuccess] and [RecordFailure] calls by any number of goroutines can
    reach, the lock-free shadow equals the locked state, the failure
    timestamps are sorted and not in the future, a closed breaker holds fewer
    failures than its threshold, and a half-open one has handed out between
    one and [max 1 successThreshold] probe slots. *)
Theorem breaker_invariant fthr sthr od wd n c :
  reachable fthr sthr od wd n c → wf c.
Proof. intros (t0 & es & H). eauto using wf_steps, wf_init. Qed.

(** C22 From a fresh breaker, any series of failures leaves the pruned slice
    implementation in exactly the state of the abstract breaker that keeps
    every failure and opens when the window ending at a failure contains at
    least [failureThreshold] of them. *)
Theorem failures_refine_window_spec fthr sthr od wd t0 rs :
  chained t0 rs →
  let init := NewCircuitBreaker fthr sthr od wd in
  state (foldl (λ cb r, RecordFailure r cb) init rs) =
  sp_state (foldl (λ s r, spec_failure fthr (windowDuration init) r s)
              (mkSpec cbClosed []) rs).
Proof.
  intros Hch init.
  assert (0 < windowDuration init) as Hw by (unfold init; simpl; unfold Second; zcase; lia).
  apply (refine_failures _ _ init (mkSpec cbClosed []) (t0 - windowDuration init) t0);
    try done; try lia; try apply Forall_nil_2.
  split; [done|]. split; [done|constructor].
Qed.

(** While the clock has not passed [openUntil], no step of any goroutine
    changes an open breaker and no [Allow] call is admitted. *)
Theorem open_rejects_until_deadline c es c' :
  wf c → steps c es c' → state (cb_of c) = cbOpen →
  clock c' ≤ openUntil (cb_of c) →
  cb_of c' = cb_of c ∧ EAllow true ∉ es.
Proof.
  intros Hwf Hs. induction Hs as [c|c1 e c2 es c3 H1 H2 IH]; intros Ho Ht.
  - split; [done|]. apply not_elem_of_nil.
  - pose proof (clock_steps _ _ _ H2).
    destruct (open_step _ _ _ Hwf H1 Ho ltac:(lia)) as [E He].
    destruct (IH (wf_step _ _ _ Hwf H1)) as [E' Hes]; [congruence|congruence|].
    split; [congruence|]. rewrite not_elem_of_cons. auto.
Qed.

(** Between a trip and the next trip or closing, at most
    [max 1 successThreshold] calls are admitted, whatever the interleaving. *)
Theorem half_open_admission_bound c es c' :
  wf c → steps c es c' →
  state (cb_of c) = cbOpen → state (cb_of c') ≠ cbClosed →
  TripsTotal (cb_of c) = TripsTotal (cb_of c') →
  admitted es ≤ Z.max 1 (successThreshold (cb_of c')).
Proof.
  intros Hwf Hs Ho Hn Ht.
  pose proof (probes_steps _ _ _ Hs Hwf ltac:(congruence) Hn Ht) as Hp.
  destruct (wf_steps _ _ _ Hwf Hs) as (_ & _ & _ & _ & _ & Hh & _).
  unfold probes_of in Hp. rewrite Ho in Hp.
  destruct (state (cb_of c')) eqn:E; [congruence|lia|]. specialize (Hh eq_refl). lia.
Qed.

(** Recovery: once the deadline of an open breaker has passed, one [Allow]
    is admitted and [successThreshold] recorded successes (at least one) then
    close it, forget the old failures and make every later [Allow] succeed. *)
Theorem recovery_closes now cb :
  atomicState cb = state cb → state cb = cbOpen → openUntil cb < now →
  ∃ cb1, Allow now cb = (true, cb1) ∧ state cb1 = cbHalfOpen ∧
  let cb2 := Nat.iter (Z.to_nat (Z.max 1 (successThreshold cb))) RecordSuccess cb1 in
  state cb2 = cbClosed ∧ failureTimes cb2 = [] ∧
  ∀ later, Allow later cb2 = (true, cb2).
Proof.
  intros Ha Ho Hn. unfold Allow, Allow_locked. rewrite Ha, Ho.
  rewrite decide_False by done. rewrite (proj2 (Z.ltb_lt _ _)) by done.
  eexists; split; [reflexivity|]. split; [done|].
  set (cb1 := set_probes 0 1 (set_state cbHalfOpen cb)).
  assert (∀ k : nat, Z.of_nat k < Z.max 1 (successThreshold cb) →
    Nat.iter k RecordSuccess cb1 = set_probes (Z.of_nat k) 1 (set_state cbHalfOpen cb)) as Hk.
  { induction k as [|k IH]; intros Hlt; [done|].
    rewrite Nat.iter_succ, IH by lia. unfold RecordSuccess, RecordSuccess_locked.
    rewrite decide_False by done. cbn [state set_probes set_state successThreshold successes].
    zcase; [lia|]. unfold set_probes; simpl. do 2 f_equal. lia. }
  remember (Z.to_nat (Z.max 1 (successThreshold cb))) as m eqn:Hm.
  destruct m as [|m]; [lia|]. rewrite Nat.iter_succ, Hk by lia.
  unfold RecordSuccess, RecordSuccess_locked. rewrite decide_False by done.
  simpl. rewrite (Zle_imp_le_bool (successThreshold cb)) by lia.
  simpl. split; [done|]. split; [done|]. done.
Qed.

(** ** Witnesses *)

(** A breaker that opens on its first failure (at time 5, until 15) and wants
    two successful probes. *)
Definition demo : breaker := NewCircuitBreaker 1 2 10 100.
Definition demo_open : breaker := RecordFailure (mkReadings 5 5 5) demo.
Definition demo_conf : config := mkConfig demo_open 5 [PIdle].

Lemma demo_opens : steps (mkConfig demo 0 [PIdle]) [ETau] demo_conf.
Proof.
  econstructor; [|constructor].
  apply (step_failure demo 0 [PIdle] 0 (mkReadings 5 5 5)); simpl; done || lia.
Qed.

(** One rejected [Allow] at time 5. *)
Lemma demo_rejected : steps demo_conf [ETau; EAllow false] demo_conf.
Proof.
  econstructor; [apply (step_allow_enter demo_open 5 [PIdle] 0); done|].
  econstructor; [|constructor].
  apply (step_allow_locked demo_open 5 [PAllowSlow] 0 false demo_open); done.
Qed.

Definition demo_probing : config :=
  mkConfig (snd (Allow 16 demo_open)) 16 [PIdle].

(** The clock passes the deadline and one call is admitted. *)
Lemma demo_probe : steps demo_conf [ETau; ETau; EAllow true] demo_probing.
Proof.
  econstructor; [apply (step_tick demo_open 5 16 [PIdle]); lia|].
  econstructor; [apply (step_allow_enter demo_open 16 [PIdle] 0); done|].
  econstructor; [|constructor].
  apply (step_allow_locked demo_open 16 [PAllowSlow] 0 true (snd (Allow 16 demo_open))); done.
Qed.

Lemma demo_wf : wf demo_conf.
Proof. exact (wf_steps _ _ _ (wf_init 1 2 10 100 0 [PIdle]) demo_opens). Qed.

Lemma breaker_invariant_witness :
  reachable 1 2 10 100 1 demo_conf ∧ wf demo_conf.
Proof.
  assert (reachable 1 2 10 100 1 demo_conf) as H by (exists 0, [ETau]; exact demo_opens).
  split; [exact H|]. exact (breaker_invariant 1 2 10 100 1 demo_conf H).
Defined.

Lemma failures_refine_window_spec_witness :
  state (foldl (λ cb r, RecordFailure r cb) (NewCircuitBreaker 2 1 10 100)
           [mkReadings 5 5 5; mkReadings 200 200 200; mkReadings 250 250 251]) =
  sp_state (foldl (λ s r, spec_failure 2 100 r s) (mkSpec cbClosed [])
           [mkReadings 5 5 5; mkReadings 200 200 200; mkReadings 250 250 251]).
Proof.
  apply (failures_refine_window_spec 2 1 10 100 0
           [mkReadings 5 5 5; mkReadings 200 200 200; mkReadings 250 250 251]).
  simpl. lia.
Defined.

Lemma open_rejects_until_deadline_witness :
  cb_of demo_conf = cb_of demo_conf ∧ EAllow true ∉ [ETau; EAllow false].
Proof.
  apply (open_rejects_until_deadline demo_conf _ demo_conf demo_wf demo_rejected);
    vm_compute; congruence.
Defined.

Lemma half_open_admission_bound_witness : admitted [ETau; ETau; EAllow true] ≤ 2.
Proof.
  apply (half_open_admission_bound demo_conf _ demo_probing demo_wf demo_probe);
    vm_compute; congruence.
Defined.

Lemma recovery_closes_witness :
  ∃ cb1, Allow 16 demo_open = (true, cb1) ∧ state cb1 = cbHalfOpen ∧
  let cb2 := Nat.iter (Z.to_nat (Z.max 1 (successThreshold demo_open))) RecordSuccess cb1 in
  state cb2 = cbClosed ∧ failureTimes cb2 = [] ∧
  ∀ later, Allow later cb2 = (true, cb2).
Proof. apply (recovery_closes 16 demo_open); reflexivity. Defined.

End CB.
