(* ===== verification/GoText.v ===== *)
(** * Text functions of Go's standard library

    The parts of packages strings, strconv and fmt that the modelled code
    calls, on byte strings.  A Go string is a sequence of bytes and so is
    [string]; runes appear only where the library function decodes them. *)

From S2P Require Import Prelude.

#[local] Open Scope Z_scope.

Module Text.

Definition byte_of (a : Ascii.ascii) : nat := Ascii.nat_of_ascii a.

Definition ch (n : nat) : string := String (Ascii.ascii_of_nat n) "".

(** The double quote. *)
Definition dquote : Ascii.ascii := Ascii.ascii_of_nat 34.

(** The backslash. *)
Definition bslash : Ascii.ascii := Ascii.ascii_of_nat 92.

Definition str_of (ns : list nat) : string :=
  foldr (λ n s, String (Ascii.ascii_of_nat n) s) "" ns.

Definition len (s : string) : Z := Z.of_nat (String.length s).

(** Remove [p] from the front of [s], if it is there. *)
Fixpoint strip_prefix (p s : string) : option string :=
  match p, s with
  | "", _ => Some s
  | String a p, String b s => if Ascii.eqb a b then strip_prefix p s else None
  | _, _ => None
  end.

Definition HasPrefix (s p : string) : bool :=
  match strip_prefix p s with
  | Some _ => true
  | None => false
  end.

Fixpoint rev_onto (s acc : string) : string :=
  match s with
  | "" => acc
  | String a s => rev_onto s (String a acc)
  end.

Definition rev (s : string) : string := rev_onto s "".

Definition HasSuffix (s p : string) : bool := HasPrefix (rev s) (rev p).

Definition TrimPrefix (s p : string) : string := default s (strip_prefix p s).

Definition TrimSuffix (s p : string) : string :=
  match strip_prefix (rev p) (rev s) with
  | Some r => rev r
  | None => s
  end.

(** ** White space

    The encodings of the runes with Unicode property White_Space.  A string
    starts (ends) with such a rune exactly when one of these is a prefix
    (suffix) of it, whatever follows. *)
Definition spaces : list string :=
  map str_of ([[9]; [10]; [11]; [12]; [13]; [32]; [194; 133]; [194; 160]; [225; 154; 128]]
    ++ map (λ k, [226; 128; 128 + k]) (seq 0 11)
    ++ [[226; 128; 168]; [226; 128; 169]; [226; 128; 175]; [226; 129; 159]; [227; 128; 128]])%nat.

Fixpoint strip_any (ps : list string) (s : string) : option string :=
  match ps with
  | [] => None
  | p :: ps =>
      match strip_prefix p s with
      | Some r => Some r
      | None => strip_any ps s
      end
  end.

(** Each round removes at least one byte, so the length is enough fuel. *)
Fixpoint strip_all (fuel : nat) (ps : list string) (s : string) : string :=
  match fuel with
  | O => s
  | S fuel =>
      match strip_any ps s with
      | Some r => strip_all fuel ps r
      | None => s
      end
  end.

Definition TrimLeftSpace (s : string) : string := strip_all (String.length s) spaces s.

Definition TrimRightSpace (s : string) : string :=
  rev (strip_all (String.length s) (map rev spaces) (rev s)).

Definition TrimSpace (s : string) : string := TrimRightSpace (TrimLeftSpace s).

Lemma length_rev_onto s acc : String.length (rev_onto s acc) = (String.length s + String.length acc)%nat.
Proof. revert acc. induction s as [|a s IH]; intros acc; cbn; [done|]. rewrite IH. cbn. lia. Qed.

Lemma length_rev s : String.length (rev s) = String.length s.
Proof. unfold rev. rewrite length_rev_onto. cbn. lia. Qed.

Lemma length_strip_prefix p s r : strip_prefix p s = Some r → (String.length r ≤ String.length s)%nat.
Proof.
  revert s. induction p as [|a p IH]; intros [|b s]; cbn; intros E; try (injection E as <-; cbn; lia); try done.
  destruct (Ascii.eqb a b); [|done]. apply IH in E. lia.
Qed.

Lemma length_strip_all fuel ps s : (String.length (strip_all fuel ps s) ≤ String.length s)%nat.
Proof.
  revert s. induction fuel as [|fuel IH]; intros s; cbn [strip_all]; [done|].
  destruct (strip_any ps s) as [r|] eqn:E; [|done]. etrans; [apply IH|]. clear IH.
  induction ps as [|p ps IHp]; cbn in E; [done|]. destruct (strip_prefix p s) eqn:Ep; [|by apply IHp].
  injection E as <-. by eapply length_strip_prefix.
Qed.

Lemma length_TrimSpace s : (String.length (TrimSpace s) ≤ String.length s)%nat.
Proof.
  unfold TrimSpace, TrimRightSpace, TrimLeftSpace. rewrite length_rev. etrans; [apply length_strip_all|].
  rewrite length_rev. apply length_strip_all.
Qed.

(** ** Searching and splitting *)

Fixpoint IndexByte (c : Ascii.ascii) (s : string) : option nat :=
  match s with
  | "" => None
  | String a s => if Ascii.eqb a c then Some 0%nat else S <$> IndexByte c s
  end.

Definition ContainsByte (c : Ascii.ascii) (s : string) : bool :=
  match IndexByte c s with
  | Some _ => true
  | None => false
  end.

Fixpoint Contains (s sub : string) : bool :=
  HasPrefix s sub ||
  match s with
  | "" => false
  | String _ s => Contains s sub
  end.

(** [strings.Split(s, sep)] for a one-byte separator: never empty. *)
Fixpoint Split (sep : Ascii.ascii) (s : string) : list string :=
  match s with
  | "" => [""]
  | String a s =>
      if Ascii.eqb a sep then "" :: Split sep s
      else match Split sep s with
           | [] => [String a ""]
           | w :: ws => String a w :: ws
           end
  end.

(** [strings.SplitN(s, sep, 2)]: the parts before and after the first [sep]. *)
Fixpoint Cut (sep : Ascii.ascii) (s : string) : option (string * string) :=
  match s with
  | "" => None
  | String a s =>
      if Ascii.eqb a sep then Some ("", s)
      else match Cut sep s with
           | Some (l, r) => Some (String a l, r)
           | None => None
           end
  end.

Fixpoint Join (sep : string) (l : list string) : string :=
  match l with
  | [] => ""
  | [x] => x
  | x :: l => x +:+ sep +:+ Join sep l
  end.

(** [strings.ToLower], exact wherever the result is compared with an ASCII
    word: the only non-ASCII runes whose lower case is ASCII are U+0130 (i) and
    U+212A (k); every other non-ASCII rune lowers to a non-ASCII one and is
    left as it is. *)
Definition lower_byte (a : Ascii.ascii) : Ascii.ascii :=
  let n := byte_of a in
  if ((65 <=? n) && (n <=? 90))%nat then Ascii.ascii_of_nat (n + 32) else a.

Fixpoint ToLower (s : string) : string :=
  match s with
  | "" => ""
  | String a s' =>
      match s' with
      | String b s'' =>
          match s'' with
          | String c s''' =>
              if Ascii.eqb a (Ascii.ascii_of_nat 226) && Ascii.eqb b (Ascii.ascii_of_nat 132)
                 && Ascii.eqb c (Ascii.ascii_of_nat 170)
              then String "k" (ToLower s''')
              else if Ascii.eqb a (Ascii.ascii_of_nat 196) && Ascii.eqb b (Ascii.ascii_of_nat 176)
              then String "i" (ToLower s'')
              else String (lower_byte a) (ToLower s')
          | "" =>
              if Ascii.eqb a (Ascii.ascii_of_nat 196) && Ascii.eqb b (Ascii.ascii_of_nat 176)
              then String "i" ""
              else String (lower_byte a) (ToLower s')
          end
      | "" => String (lower_byte a) ""
      end
  end.

(** ** Decimal numbers *)

Definition digit_of (a : Ascii.ascii) : option Z :=
  let n := Z.of_nat (byte_of a) in
  if (48 <=? n) && (n <=? 57) then Some (n - 48) else None.

(** The longest run of digits, its value and the rest. *)
Fixpoint scan_digits (acc : Z) (s : string) : Z * string :=
  match s with
  | "" => (acc, "")
  | String a s' =>
      match digit_of a with
      | Some d => scan_digits (acc * 10 + d) s'
      | None => (acc, s)
      end
  end.

Definition starts_digit (s : string) : bool :=
  match s with
  | String a _ => match digit_of a with Some _ => true | None => false end
  | "" => false
  end.

Definition split_sign (s : string) : bool * string :=
  match s with
  | String "-" r => (true, r)
  | String "+" r => (false, r)
  | _ => (false, s)
  end.

(** [strconv.ParseInt] on a token that is a sign and a digit run. *)
Definition signed (neg : bool) (v : Z) : option Z :=
  let z := if neg then - v else v in
  if (MinInt64 <=? z) && (z <=? MaxInt64) then Some z else None.

(** [strconv.Atoi] / [strconv.ParseInt(s, 10, 64)]. *)
Definition Atoi (s : string) : option Z :=
  let '(neg, r) := split_sign s in
  if starts_digit r then
    match scan_digits 0 r with
    | (v, "") => signed neg v
    | _ => None
    end
  else None.

(** The blanks [fmt] skips before a number; a newline is an error. *)
Fixpoint skip_blank (fuel : nat) (s : string) : option string :=
  match fuel with
  | O => Some s
  | S fuel =>
      match s with
      | String a _ =>
          if Ascii.eqb a (Ascii.ascii_of_nat 10) then None
          else match strip_any spaces s with
               | Some r => skip_blank fuel r
               | None => Some s
               end
      | "" => Some ""
      end
  end.

(** [fmt.Sscanf(s, "%d", &v)]: a signed decimal prefix after blanks. *)
Definition Sscanf_d (s : string) : option Z :=
  match skip_blank (String.length s) s with
  | None => None
  | Some r =>
      let '(neg, r) := split_sign r in
      if starts_digit r then signed neg (fst (scan_digits 0 r)) else None
  end.

(** [strconv.Itoa] / [%d]. *)
Definition digit_char (d : Z) : Ascii.ascii := Ascii.ascii_of_nat (Z.to_nat (48 + d)).

Fixpoint itoa_onto (fuel : nat) (n : Z) (acc : string) : string :=
  match fuel with
  | O => acc
  | S fuel =>
      let acc := String (digit_char (n mod 10)) acc in
      if n <? 10 then acc else itoa_onto fuel (n / 10) acc
  end.

(** A number of [k] bits has at most [k + 1] digits. *)
Definition itoa_pos (n : Z) : string := itoa_onto (S (Z.to_nat (Z.log2 n))) n "".

Definition Itoa (n : Z) : string :=
  if n <? 0 then String "-" (itoa_pos (- n)) else itoa_pos n.

(** ** Lemmas *)

Lemma digit_of_char d : 0 ≤ d < 10 → digit_of (digit_char d) = Some d.
Proof.
  intros H. assert (d = 0 ∨ d = 1 ∨ d = 2 ∨ d = 3 ∨ d = 4 ∨ d = 5 ∨ d = 6 ∨ d = 7 ∨ d = 8 ∨ d = 9)
    as Hd by lia.
  by destruct Hd as [->|[->|[->|[->|[->|[->|[->|[->|[->| ->]]]]]]]]].
Qed.

(** Scanning the digits of [n] in front of [acc] starting from [a] reaches [acc]
    with [n] appended to [a] in base ten. *)
Lemma scan_itoa fuel n acc a :
  0 ≤ n → (Z.to_nat (Z.log2 n) < fuel)%nat →
  ∃ k, 0 ≤ k ∧ n < 10 ^ k ∧
    scan_digits a (itoa_onto fuel n acc) = scan_digits (a * 10 ^ k + n) acc.
Proof.
  revert n acc a. induction fuel as [|fuel IH]; intros n acc a Hn Hf; [lia|].
  cbn [itoa_onto]. destruct (Z.ltb_spec n 10) as [Hs|Hb].
  - exists 1. split; [lia|]. split; [lia|]. cbn [scan_digits].
    rewrite digit_of_char by (apply Z.mod_pos_bound; lia).
    by rewrite Z.mod_small, Z.pow_1_r by lia.
  - assert (0 < n / 10) by (apply Z.div_str_pos; lia).
    assert (Z.log2 (n / 10) < Z.log2 n) as Hlog.
    { destruct (Z.log2_spec (n / 10)) as [H1 _]; [done|].
      destruct (Z.log2_spec n) as [_ H2]; [lia|].
      pose proof (Z.log2_nonneg (n / 10)). pose proof (Z.log2_nonneg n).
      destruct (Z.lt_ge_cases (Z.log2 (n / 10)) (Z.log2 n)) as [|Hge]; [done|].
      assert (n / 10 * 2 ≤ n) by (pose proof (Z.mul_div_le n 10); lia).
      rewrite Z.pow_succ_r in H2 by done.
      pose proof (Z.pow_le_mono_r 2 _ _ ltac:(lia) Hge). lia. }
    pose proof (Z.log2_nonneg (n / 10)).
    destruct (IH (n / 10) (String (digit_char (n mod 10)) acc) a) as (k & Hk & Hkb & Heq);
      [lia|lia|].
    exists (k + 1). pose proof (Z.div_mod n 10 ltac:(lia)).
    pose proof (Z.mod_pos_bound n 10 ltac:(lia)).
    split; [lia|]. rewrite Z.pow_add_r, Z.pow_1_r by lia. split; [nia|].
    rewrite Heq. cbn [scan_digits].
    rewrite digit_of_char by done. f_equal. nia.
Qed.

Lemma itoa_starts_digit fuel n acc :
  0 ≤ n → fuel ≠ 0%nat → starts_digit (itoa_onto fuel n acc) = true.
Proof.
  revert n acc. induction fuel as [|fuel IH]; intros n acc Hn Hf; [done|].
  cbn [itoa_onto].
  assert (starts_digit (String (digit_char (n mod 10)) acc) = true) as Hd.
  { cbn. rewrite digit_of_char; [done|apply Z.mod_pos_bound; lia]. }
  destruct (n <? 10); [done|]. destruct fuel; [done|].
  apply IH; [apply Z.div_pos; lia|done].
Qed.

(** The digits of [n] scan back to [n]. *)
Lemma scan_itoa_pos n : 0 ≤ n → scan_digits 0 (itoa_pos n) = (n, "").
Proof.
  intros Hn. unfold itoa_pos.
  destruct (scan_itoa (S (Z.to_nat (Z.log2 n))) n "" 0) as (k & _ & _ & ->); [done|lia|].
  by rewrite Z.mul_0_l, Z.add_0_l.
Qed.

Lemma digit_head s :
  starts_digit s = true → split_sign s = (false, s) ∧ strip_any spaces s = None ∧
  ∀ f, skip_blank f s = Some s.
Proof.
  destruct s as [|a s]; [done|]. intros H.
  assert (byte_of a ∈ seq 48 10) as Ha.
  { apply list_elem_of_In, in_seq. cbn in H. unfold digit_of in H.
    destruct ((48 <=? Z.of_nat (byte_of a)) && (Z.of_nat (byte_of a) <=? 57)) eqn:E; [|done].
    apply andb_true_iff in E as [E1%Z.leb_le E2%Z.leb_le]. lia. }
  assert (∃ n, a = Ascii.ascii_of_nat n ∧ n ∈ seq 48 10) as (n & -> & Hn).
  { exists (byte_of a). split; [by rewrite Ascii.ascii_nat_embedding|done]. }
  clear H Ha. cbn [seq] in Hn.
  repeat (apply elem_of_cons in Hn as [->|Hn]; [repeat split; intros []; reflexivity|]).
  by apply not_elem_of_nil in Hn.
Qed.

(** A printed non-negative number reads back, with [Atoi] and with [%d]. *)
Lemma Itoa_pos_starts n : 0 ≤ n → starts_digit (Itoa n) = true.
Proof.
  intros Hn. unfold Itoa. rewrite (proj2 (Z.ltb_ge _ _)) by lia. by apply itoa_starts_digit.
Qed.

Lemma Sscanf_Itoa n : 0 ≤ n ≤ MaxInt64 → Sscanf_d (Itoa n) = Some n.
Proof.
  intros Hn. pose proof (Itoa_pos_starts n ltac:(lia)) as Hs.
  destruct (digit_head _ Hs) as (Hsg & _ & Hb).
  unfold Sscanf_d. rewrite Hb, Hsg, Hs. unfold Itoa.
  rewrite (proj2 (Z.ltb_ge _ _)) by lia. rewrite scan_itoa_pos by lia. simpl.
  unfold signed. by rewrite (Zle_imp_le_bool MinInt64 n) by (unfold MinInt64; lia);
    rewrite (Zle_imp_le_bool n MaxInt64) by lia.
Qed.

Lemma Atoi_Itoa n : 0 ≤ n ≤ MaxInt64 → Atoi (Itoa n) = Some n.
Proof.
  intros Hn. pose proof (Itoa_pos_starts n ltac:(lia)) as Hs.
  destruct (digit_head _ Hs) as (Hsg & _ & _).
  unfold Atoi. rewrite Hsg, Hs. unfold Itoa.
  rewrite (proj2 (Z.ltb_ge _ _)) by lia. rewrite scan_itoa_pos by lia.
  unfold signed. by rewrite (Zle_imp_le_bool MinInt64 n) by (unfold MinInt64; lia);
    rewrite (Zle_imp_le_bool n MaxInt64) by lia.
Qed.

(** Digit strings have no white space at either end. *)
Fixpoint all_digits (s : string) : bool :=
  match s with
  | "" => true
  | String a s => starts_digit (String a "") && all_digits s
  end.

Lemma all_digits_onto s acc :
  all_digits (rev_onto s acc) = all_digits s && all_digits acc.
Proof.
  revert acc. induction s as [|a s IH]; intros acc; [done|].
  cbn [rev_onto all_digits]. rewrite IH. cbn [all_digits].
  rewrite !andb_assoc. f_equal. apply andb_comm.
Qed.

Lemma rev_onto_onto s t acc : rev_onto (rev_onto s t) acc = rev_onto t (s +:+ acc).
Proof.
  revert t acc. induction s as [|a s IH]; intros t acc; [done|]. cbn [rev_onto]. by rewrite IH.
Qed.

Lemma append_nil_r (s : string) : s +:+ "" = s.
Proof. induction s as [|a s IH]; [done|]. change (String a (s +:+ "") = String a s). by rewrite IH. Qed.

Lemma rev_rev s : rev (rev s) = s.
Proof. unfold rev. rewrite rev_onto_onto. cbn [rev_onto]. apply append_nil_r. Qed.

Lemma append_assoc (a b c : string) : (a +:+ b) +:+ c = a +:+ (b +:+ c).
Proof.
  induction a as [|x a IH]; [done|].
  change (String x ((a +:+ b) +:+ c) = String x (a +:+ (b +:+ c))). by rewrite IH.
Qed.

Lemma strip_prefix_app p s : strip_prefix p (p +:+ s) = Some s.
Proof.
  induction p as [|a p IH]; [done|].
  change (strip_prefix (String a p) (String a (p +:+ s)) = Some s).
  cbn [strip_prefix]. by rewrite Ascii.eqb_refl.
Qed.

Lemma itoa_all_digits fuel n acc :
  0 ≤ n → all_digits acc = true → all_digits (itoa_onto fuel n acc) = true.
Proof.
  revert n acc. induction fuel as [|fuel IH]; intros n acc Hn Ha; [done|].
  cbn [itoa_onto].
  assert (all_digits (String (digit_char (n mod 10)) acc) = true) as Hd.
  { cbn. rewrite digit_of_char, Ha; [done|apply Z.mod_pos_bound; lia]. }
  destruct (n <? 10); [done|]. apply IH; [apply Z.div_pos; lia|done].
Qed.

Lemma digit_byte a : starts_digit (String a "") = true → (48 ≤ byte_of a ≤ 57)%nat.
Proof.
  cbn. unfold digit_of. destruct (_ && _) eqn:E; [|done]. intros _.
  apply andb_true_iff in E as [E1%Z.leb_le E2%Z.leb_le]. lia.
Qed.

Lemma strip_any_digits ps s :
  forallb (λ p, match p with String b _ => negb (starts_digit (String b "")) | "" => false end) ps = true →
  all_digits s = true → strip_any ps s = None.
Proof.
  intros Hps Hs. induction ps as [|p ps IH]; [done|]. cbn [strip_any].
  cbn [forallb] in Hps. apply andb_true_iff in Hps as [Hp Hps]. specialize (IH Hps).
  destruct p as [|b p]; [done|]. destruct s as [|a s]; [done|]. cbn [strip_prefix].
  destruct (Ascii.eqb_spec b a) as [->|_]; [|done].
  cbn [all_digits] in Hs. apply negb_true_iff in Hp. by rewrite Hp in Hs.
Qed.

Lemma strip_all_none fuel ps s : strip_any ps s = None → strip_all fuel ps s = s.
Proof. intros H. destruct fuel; [done|]. cbn. by rewrite H. Qed.

Lemma TrimSpace_digits s : all_digits s = true → TrimSpace s = s.
Proof.
  intros Hs. unfold TrimSpace, TrimLeftSpace, TrimRightSpace.
  rewrite (strip_all_none _ spaces s).
  - rewrite strip_all_none; [apply rev_rev|]. apply strip_any_digits.
    + vm_compute. reflexivity.
    + unfold rev. by rewrite all_digits_onto, Hs.
  - apply strip_any_digits; [|done].
    vm_compute. reflexivity.
Qed.

Lemma TrimSpace_Itoa n : 0 ≤ n → TrimSpace (Itoa n) = Itoa n.
Proof.
  intros Hn. apply TrimSpace_digits. unfold Itoa.
  rewrite (proj2 (Z.ltb_ge _ _)) by lia. by apply itoa_all_digits.
Qed.

Lemma trim_examples :
  TrimSpace (" 	a b" +:+ str_of [194; 160; 226; 128; 131]%nat) = "a b" ∧
  Split "," "a,,b" = ["a"; ""; "b"] ∧ Itoa (-120) = "-120" ∧ Sscanf_d " 42x" = Some 42 ∧
  ToLower "GZip" = "gzip".
Proof. repeat split; vm_compute; reflexivity. Qed.

Lemma rev_onto_app a b acc : rev_onto (a +:+ b) acc = rev_onto b (rev_onto a acc).
Proof. revert acc. induction a as [|x a IH]; intros acc; [done|]. apply (IH (String x acc)). Qed.

Lemma rev_onto_rev a acc : rev_onto a acc = rev a +:+ acc.
Proof.
  unfold rev. revert acc. induction a as [|x a IH]; intros acc; [done|]. cbn [rev_onto].
  rewrite IH, (IH (String x "")), append_assoc. done.
Qed.

Lemma TrimSuffix_app v p : TrimSuffix (v +:+ p) p = v.
Proof.
  unfold TrimSuffix. unfold rev at 2. rewrite rev_onto_app, (rev_onto_rev p), strip_prefix_app.
  apply rev_rev.
Qed.

Lemma TrimPrefix_app p v : TrimPrefix (p +:+ v) p = v.
Proof. unfold TrimPrefix. by rewrite strip_prefix_app. Qed.

(** ** Byte loops: the longest run of bytes satisfying [p], and the rest. *)

Fixpoint span (p : Ascii.ascii → bool) (s : string) : string * string :=
  match s with
  | "" => ("", "")
  | String a t => if p a then let '(w, r) := span p t in (String a w, r) else ("", s)
  end.

Lemma span_cons p a t : span p (String a t) = if p a then let '(w, r) := span p t in (String a w, r) else ("", String a t).
Proof. done. Qed.

Definition starts_with (p : Ascii.ascii → bool) (s : string) : bool :=
  match s with
  | "" => false
  | String a _ => p a
  end.

Fixpoint all_bytes_of (p : Ascii.ascii → bool) (s : string) : bool :=
  match s with
  | "" => true
  | String a s => p a && all_bytes_of p s
  end.

Lemma span_join p s : (span p s).1 +:+ (span p s).2 = s.
Proof.
  induction s as [|a s IH]; [done|]. cbn [span]. destruct (p a); [|done].
  destruct (span p s) as [w r]. cbn [fst snd] in *. change (String a (w +:+ r) = String a s). by rewrite IH.
Qed.

Lemma span_app p w t : all_bytes_of p w = true → starts_with p t = false → span p (w +:+ t) = (w, t).
Proof.
  intros Hw Ht. induction w as [|a w IH].
  - change ("" +:+ t) with t. destruct t as [|b t]; [done|]. cbn in Ht |- *. by rewrite Ht.
  - cbn in Hw. apply andb_true_iff in Hw as [Ha Hw].
    change (String a w +:+ t) with (String a (w +:+ t)). cbn [span]. by rewrite Ha, IH.
Qed.

Lemma span_fst p s : all_bytes_of p (span p s).1 = true.
Proof.
  induction s as [|a s IH]; [done|]. cbn [span]. destruct (p a) eqn:Ha; [|done].
  destruct (span p s) as [w r]. cbn in *. by rewrite Ha.
Qed.

Lemma span_snd p s : starts_with p (span p s).2 = false.
Proof.
  induction s as [|a s IH]; [done|]. cbn [span]. destruct (p a) eqn:Ha; [|done].
  by destruct (span p s) as [w r].
Qed.

Lemma span_length p s : (String.length (span p s).2 ≤ String.length s)%nat.
Proof.
  induction s as [|a s IH]; [done|]. cbn [span]. destruct (p a); [|done].
  destruct (span p s) as [w r]. cbn in *. lia.
Qed.

(** The shorter of two prefixes of a text is a prefix of the longer. *)
Lemma app_str_cut (p s q t : string) : p +:+ s = q +:+ t → (String.length q ≤ String.length p)%nat →
  ∃ r, p = q +:+ r.
Proof.
  revert p. induction q as [|a q IH]; intros p E Hl; [by exists p|].
  destruct p as [|b p]; [cbn in Hl; lia|].
  change (String b (p +:+ s) = String a (q +:+ t)) in E. injection E as -> E.
  destruct (IH p E) as [r ->]; [cbn in Hl; lia|]. by exists r.
Qed.

Lemma strip_prefix_spec p s t : strip_prefix p s = Some t → s = p +:+ t.
Proof.
  revert s. induction p as [|a p IH]; intros s; cbn; [by intros [= ->]|].
  destruct s as [|b s]; [done|]. destruct (Ascii.eqb_spec a b) as [->|]; [|done].
  intros Hs. change (String b p +:+ t) with (String b (p +:+ t)). by rewrite <- (IH s Hs).
Qed.

(** ** Text without surrounding white space *)

(** A visible ASCII byte: no encoding of a space starts or ends with one. *)
Definition solid (c : Ascii.ascii) : bool := ((33 <=? byte_of c) && (byte_of c <=? 126))%nat.

Definition soft_start (s : string) : bool := starts_with (λ c, negb (solid c)) s.

Lemma strip_any_solid ps s :
  forallb (λ p, match p with String b _ => negb (solid b) | "" => false end) ps = true →
  soft_start s = false → strip_any ps s = None.
Proof.
  intros Hps Hs. induction ps as [|p ps IH]; [done|]. cbn [strip_any].
  cbn [forallb] in Hps. apply andb_true_iff in Hps as [Hp Hps]. specialize (IH Hps).
  destruct p as [|b p]; [done|]. destruct s as [|a s]; [done|]. cbn [strip_prefix].
  destruct (Ascii.eqb_spec b a) as [->|_]; [|done]. cbn in Hs. by rewrite Hp in Hs.
Qed.

Lemma TrimSpace_solid s : soft_start s = false → soft_start (rev s) = false → TrimSpace s = s.
Proof.
  intros Hs Hr. unfold TrimSpace, TrimLeftSpace, TrimRightSpace.
  rewrite (strip_all_none _ spaces s) by (apply strip_any_solid; [vm_compute; reflexivity|done]).
  rewrite strip_all_none; [apply rev_rev|]. apply strip_any_solid; [vm_compute; reflexivity|done].
Qed.

Lemma rev_app_str a b : rev (a +:+ b) = rev b +:+ rev a.
Proof. unfold rev. by rewrite rev_onto_app, rev_onto_rev. Qed.

Lemma soft_app a b : a ≠ "" → soft_start (a +:+ b) = soft_start a.
Proof. by destruct a. Qed.

Lemma rev_nil_iff s : rev s = "" → s = "".
Proof. intros E. apply (f_equal String.length) in E. rewrite length_rev in E. by destruct s. Qed.

(** One leading space goes. *)
Lemma TrimSpace_blank s : TrimSpace (String " " s) = TrimSpace s.
Proof.
  unfold TrimSpace, TrimLeftSpace. cbn [String.length strip_all].
  assert (strip_any spaces (String " " s) = Some s) as -> by reflexivity. done.
Qed.

Lemma rev_snoc s c : rev (s +:+ String c "") = String c (rev s).
Proof. unfold rev. by rewrite rev_onto_app. Qed.

Lemma HasSuffix_app s t : HasSuffix (s +:+ t) t = true.
Proof.
  unfold HasSuffix, HasPrefix. unfold rev at 2. rewrite rev_onto_app, rev_onto_rev.
  by rewrite strip_prefix_app.
Qed.

(** ** Splitting what was joined *)

Lemma all_bytes_of_impl p q s : (∀ c, p c = true → q c = true) → all_bytes_of p s = true → all_bytes_of q s = true.
Proof.
  intros Hpq. induction s as [|c s IH]; [done|]. cbn. rewrite !andb_true_iff. intros [Hc Hs]. auto.
Qed.

Lemma all_bytes_of_app p a b : all_bytes_of p (a +:+ b) = all_bytes_of p a && all_bytes_of p b.
Proof. induction a as [|c a IH]; [done|]. change (String c a +:+ b) with (String c (a +:+ b)). cbn [all_bytes_of]. by rewrite IH, andb_assoc. Qed.

Lemma Split_one sep x t : all_bytes_of (λ a, negb (Ascii.eqb a sep)) x = true →
  Split sep (x +:+ String sep t) = x :: Split sep t.
Proof.
  induction x as [|a x IH]; [intros _; change ("" +:+ ?z) with z; cbn [Split]; by rewrite Ascii.eqb_refl|].
  cbn [all_bytes_of]. intros [Ha%negb_true_iff Hx]%andb_true_iff. change (String a x +:+ ?z) with (String a (x +:+ z)). cbn [Split]. by rewrite Ha, IH.
Qed.

Lemma Split_last sep x : all_bytes_of (λ a, negb (Ascii.eqb a sep)) x = true → Split sep x = [x].
Proof.
  induction x as [|a x IH]; [done|]. cbn [all_bytes_of]. intros [Ha%negb_true_iff Hx]%andb_true_iff.
  cbn [Split]. by rewrite Ha, IH.
Qed.

Lemma Split_Join sep x l : Forall (λ x, all_bytes_of (λ a, negb (Ascii.eqb a sep)) x = true) (x :: l) →
  Split sep (Join (String sep "") (x :: l)) = x :: l.
Proof.
  revert x. induction l as [|y l IH]; intros x [Hx Hl]%Forall_cons; [by apply Split_last|].
  change (Join (String sep "") (x :: y :: l)) with (x +:+ String sep (Join (String sep "") (y :: l))). rewrite Split_one by done. by rewrite IH.
Qed.

(** ** Byte order *)

Definition key_lt (a c : string) : Prop := String.ltb a c = true.

Lemma ltb_cons a s c t :
  String.ltb (String a s) (String c t) =
    match Ascii.compare a c with Lt => true | Eq => String.ltb s t | Gt => false end.
Proof. unfold String.ltb. cbn [String.compare]. by destruct (Ascii.compare a c). Qed.

Lemma key_lt_trans : Transitive key_lt.
Proof.
  intros s. unfold key_lt. induction s as [|a s IH]; intros [|c t] [|e u]; try done.
  rewrite !ltb_cons. unfold Ascii.compare.
  destruct (N.compare_spec (N_of_ascii a) (N_of_ascii c)) as [E1|E1|E1]; [|..|done];
  destruct (N.compare_spec (N_of_ascii c) (N_of_ascii e)) as [E2|E2|E2]; try done; intros Ha Hb.
  - rewrite E1, E2, N.compare_refl. by eapply IH.
  - by rewrite E1, (proj2 (N.compare_lt_iff _ _)).
  - by rewrite <- E2, (proj2 (N.compare_lt_iff _ _)).
  - by rewrite (proj2 (N.compare_lt_iff _ _)) by (by etrans).
Qed.

Lemma ltb_irrefl s : String.ltb s s = false.
Proof. induction s as [|a s IH]; [done|]. rewrite ltb_cons. unfold Ascii.compare. by rewrite N.compare_refl. Qed.

Lemma ltb_trichotomy s t : String.ltb s t = false → String.ltb t s = false → s = t.
Proof.
  unfold String.ltb. rewrite (String.compare_antisym t s).
  destruct (String.compare s t) eqn:E; try done. intros _ _. by apply String.compare_eq_iff.
Qed.

Lemma ltb_asym s t : String.ltb s t = true → String.ltb t s = false.
Proof.
  intros Hst. destruct (String.ltb t s) eqn:Hts; [|done]. pose proof (key_lt_trans s t s Hst Hts) as Hss.
  unfold key_lt in Hss. by rewrite ltb_irrefl in Hss.
Qed.

(** [sort.Strings]: equal strings are the same, so the stable sort is the sort. *)
Definition sortStrings (l : list string) : list string := SliceStable String.ltb l.

Lemma not_ltb_trans : Transitive (no_greater String.ltb).
Proof.
  intros x y z. unfold no_greater. intros Hxy Hyz. destruct (String.ltb z x) eqn:Hzx; [|done].
  destruct (String.ltb x y) eqn:Hxy'.
  - pose proof (key_lt_trans z x y Hzx Hxy') as Hzy. unfold key_lt in Hzy. congruence.
  - by rewrite (ltb_trichotomy x y Hxy' Hxy) in Hzx; rewrite Hzx in Hyz.
Qed.

Lemma sortStrings_perm l : sortStrings l ≡ₚ l.
Proof. apply SliceStable_perm. Qed.

Lemma sortStrings_sorted l : StronglySorted (no_greater String.ltb) (sortStrings l).
Proof. apply SliceStable_sorted; [apply ltb_asym|apply not_ltb_trans]. Qed.

(** Sorting forgets the order. *)
Lemma sortStrings_unique l1 l2 : l1 ≡ₚ l2 → sortStrings l1 = sortStrings l2.
Proof.
  intros Hp. apply (StronglySorted_unique_strong (no_greater String.ltb)).
  - intros x y _ _ Hx Hy. by apply ltb_trichotomy.
  - apply sortStrings_sorted.
  - apply sortStrings_sorted.
  - by rewrite !sortStrings_perm.
Qed.

End Text.
