(* ===== verification/Utf8.v ===== *)
(** * UTF-8 and Go string literals (unicode/utf8 and strconv of the standard library)

    Byte-exact [DecodeRune], [EncodeRune], [strconv.Quote] and [strconv.Unquote],
    with the round trip of quoting.  The Unicode classes of runes beyond ASCII are
    large generated tables; they enter through the class [Unicode] with their
    documented values on ASCII. *)

From S2P Require Import Prelude GoText.

#[local] Open Scope Z_scope.

(** ** Rune classes *)

Class Unicode : Type := {
  IsLetter : Z → bool;
  IsDigit : Z → bool;
  IsPrint : Z → bool
}.

(** On ASCII the classes are the familiar ranges; a rune has one category. *)
Class UnicodeLaws `{Unicode} : Prop := {
  IsLetter_ascii r : 0 ≤ r < 128 →
    IsLetter r = ((65 <=? r) && (r <=? 90)) || ((97 <=? r) && (r <=? 122));
  IsDigit_ascii r : 0 ≤ r < 128 → IsDigit r = (48 <=? r) && (r <=? 57);
  IsPrint_ascii r : 0 ≤ r < 128 → IsPrint r = (32 <=? r) && (r <=? 126);
  letter_not_digit r : IsLetter r = true → IsDigit r = false
}.

Module Utf8.
Import Text.

(** ** Bytes *)

Definition b2z (a : Ascii.ascii) : Z := Z.of_N (Ascii.N_of_ascii a).
Definition z2b (z : Z) : Ascii.ascii := Ascii.ascii_of_N (Z.to_N z).

Fixpoint bytes (l : list Z) : string :=
  match l with
  | [] => ""
  | z :: l => String (z2b z) (bytes l)
  end.

(** [s[n:]], the empty string when [n] is beyond the end. *)
Fixpoint suffix (n : nat) (s : string) : string :=
  match n, s with
  | O, _ => s
  | S n, String _ s => suffix n s
  | S _, "" => ""
  end.

(** [s[:n]]. *)
Fixpoint prefix (n : nat) (s : string) : string :=
  match n, s with
  | O, _ => ""
  | S n, String a s => String a (prefix n s)
  | S _, "" => ""
  end.

(** ** Decoding and encoding *)

Definition RuneError : Z := 0xFFFD.

Definition within (lo hi : Z) (a : Ascii.ascii) : bool := (lo <=? b2z a) && (b2z a <=? hi).

Definition cont (a : Ascii.ascii) : bool := within 0x80 0xBF a.

(** [utf8.DecodeRuneInString]: the first rune and its width. *)
Definition DecodeRune (s : string) : Z * nat :=
  match s with
  | "" => (RuneError, 0%nat)
  | String a s1 =>
      let b0 := b2z a in
      if b0 <? 0x80 then (b0, 1%nat)
      else if b0 <? 0xC2 then (RuneError, 1%nat)
      else if b0 <? 0xE0 then
        match s1 with
        | String b _ =>
            if cont b then ((b0 - 0xC0) * 64 + (b2z b - 0x80), 2%nat) else (RuneError, 1%nat)
        | "" => (RuneError, 1%nat)
        end
      else if b0 <? 0xF0 then
        match s1 with
        | String b (String c _) =>
            if within (if b0 =? 0xE0 then 0xA0 else 0x80) (if b0 =? 0xED then 0x9F else 0xBF) b
               && cont c
            then ((b0 - 0xE0) * 4096 + (b2z b - 0x80) * 64 + (b2z c - 0x80), 3%nat)
            else (RuneError, 1%nat)
        | _ => (RuneError, 1%nat)
        end
      else if b0 <? 0xF5 then
        match s1 with
        | String b (String c (String d _)) =>
            if within (if b0 =? 0xF0 then 0x90 else 0x80) (if b0 =? 0xF4 then 0x8F else 0xBF) b
               && cont c && cont d
            then ((b0 - 0xF0) * 262144 + (b2z b - 0x80) * 4096 + (b2z c - 0x80) * 64 + (b2z d - 0x80),
                  4%nat)
            else (RuneError, 1%nat)
        | _ => (RuneError, 1%nat)
        end
      else (RuneError, 1%nat)
  end.

Definition ValidRune (r : Z) : bool :=
  ((0 <=? r) && (r <? 0xD800)) || ((0xDFFF <? r) && (r <=? 0x10FFFF)).

(** [utf8.AppendRune] / [string(r)]. *)
Definition EncodeRune (r : Z) : string :=
  let r := if ValidRune r then r else RuneError in
  if r <? 0x80 then bytes [r]
  else if r <? 0x800 then bytes [0xC0 + r / 64; 0x80 + r mod 64]
  else if r <? 0x10000 then bytes [0xE0 + r / 4096; 0x80 + r / 64 mod 64; 0x80 + r mod 64]
  else bytes [0xF0 + r / 262144; 0x80 + r / 4096 mod 64; 0x80 + r / 64 mod 64; 0x80 + r mod 64].

(** [utf8.ValidString]: no step of the decoding is an error of width one. *)
Fixpoint valid_loop (fuel : nat) (s : string) : bool :=
  match fuel with
  | O => true
  | S fuel =>
      match s with
      | "" => true
      | _ =>
          let '(r, w) := DecodeRune s in
          if (r =? RuneError) && (w =? 1)%nat then false else valid_loop fuel (suffix w s)
      end
  end.

Definition ValidString (s : string) : bool := valid_loop (String.length s) s.

(** ** Lemmas: bytes *)

Lemma b2z_range a : 0 ≤ b2z a < 256.
Proof. unfold b2z. pose proof (Ascii.N_ascii_bounded a). lia. Qed.

Lemma b2z_z2b z : 0 ≤ z < 256 → b2z (z2b z) = z.
Proof.
  intros Hz. unfold b2z, z2b. rewrite Ascii.N_ascii_embedding by lia. lia.
Qed.

Lemma z2b_b2z a : z2b (b2z a) = a.
Proof. unfold b2z, z2b. rewrite N2Z.id. apply Ascii.ascii_N_embedding. Qed.

Lemma z2b_eq z a : z = b2z a → z2b z = a.
Proof. intros ->. apply z2b_b2z. Qed.

Lemma str_app_nil_r (s : string) : s +:+ "" = s.
Proof. apply append_nil_r. Qed.

Lemma suffix_app (p s : string) : suffix (String.length p) (p +:+ s) = s.
Proof. induction p as [|a p IH]; [done|exact IH]. Qed.

Lemma prefix_app (p s : string) : prefix (String.length p) (p +:+ s) = p.
Proof.
  induction p as [|a p IH]; [done|].
  change (String a (prefix (String.length p) (p +:+ s)) = String a p). by rewrite IH.
Qed.

Lemma prefix_suffix n s : prefix n s +:+ suffix n s = s.
Proof.
  revert s. induction n as [|n IH]; intros [|a s]; try done.
  change (String a (prefix n s +:+ suffix n s) = String a s). by rewrite IH.
Qed.

Lemma suffix_suffix n m s : suffix n (suffix m s) = suffix (m + n) s.
Proof. revert s. induction m as [|m IH]; intros [|a s]; try done; [by destruct n|apply IH]. Qed.

Lemma length_app_str (a b : string) :
  String.length (a +:+ b) = (String.length a + String.length b)%nat.
Proof.
  induction a as [|x a IH]; [done|].
  change (S (String.length (a +:+ b)) = (S (String.length a) + String.length b)%nat). lia.
Qed.

Lemma len_append a b : len (a +:+ b) = len a + len b.
Proof. unfold len. rewrite length_app_str. lia. Qed.

Lemma len_nonneg s : 0 ≤ len s.
Proof. unfold len. lia. Qed.

Lemma length_suffix n s : String.length (suffix n s) = (String.length s - n)%nat.
Proof. revert s. induction n as [|n IH]; intros [|a s]; try done. apply IH. Qed.

Lemma length_prefix n s : (String.length (prefix n s) ≤ n)%nat.
Proof. revert s. induction n as [|n IH]; intros [|a s]; cbn; [lia..|]. specialize (IH s). lia. Qed.

Lemma within_spec lo hi a : within lo hi a = true ↔ lo ≤ b2z a ≤ hi.
Proof. unfold within. rewrite andb_true_iff, !Z.leb_le. lia. Qed.

(** ** Lemmas: decoding inverts encoding *)

Lemma DecodeRune_width s : s ≠ "" → (1 ≤ (DecodeRune s).2 ≤ 4)%nat ∧ ((DecodeRune s).2 ≤ String.length s)%nat.
Proof.
  destruct s as [|a [|b [|c [|d s]]]]; intros Hs; [done|..]; unfold DecodeRune; cbv zeta;
    repeat (case_match; try (cbn; lia)).
Qed.

(** The rune of a well-formed encoding encodes to exactly the bytes read. *)
Lemma encode_decode s r w :
  DecodeRune s = (r, w) → s ≠ "" → ¬ (r = RuneError ∧ w = 1%nat) →
  ValidRune r = true ∧ EncodeRune r +:+ suffix w s = s.
Proof.
  intros Hd Hs Hok. destruct s as [|a s]; [done|]. clear Hs. unfold DecodeRune in Hd. cbv zeta in Hd.
  pose proof (b2z_range a) as Ha.
  destruct (Z.ltb_spec (b2z a) 0x80) as [H0|H0].
  { injection Hd as <- <-. assert (ValidRune (b2z a) = true) as Hv
      by (unfold ValidRune; apply orb_true_iff; left; apply andb_true_iff; rewrite Z.leb_le, Z.ltb_lt; lia).
    split; [done|]. unfold EncodeRune. rewrite Hv. cbv zeta. rewrite (proj2 (Z.ltb_lt _ _)) by done.
    cbn [bytes suffix]. rewrite z2b_b2z. done. }
  destruct (Z.ltb_spec (b2z a) 0xC2) as [H1|H1]; [injection Hd as <- <-; by destruct Hok|].
  destruct (Z.ltb_spec (b2z a) 0xE0) as [H2|H2].
  { destruct s as [|b s]; [injection Hd as <- <-; by destruct Hok|].
    destruct (cont b) eqn:Hb; [|injection Hd as <- <-; by destruct Hok].
    apply within_spec in Hb. injection Hd as Hr <-.
    assert (ValidRune r = true) as Hv
      by (unfold ValidRune; apply orb_true_iff; left; apply andb_true_iff; rewrite Z.leb_le, Z.ltb_lt; lia).
    split; [done|]. unfold EncodeRune. rewrite Hv. cbv zeta.
    rewrite (proj2 (Z.ltb_ge r 0x80)) by lia. rewrite (proj2 (Z.ltb_lt r 0x800)) by lia.
    cbn [bytes suffix]. rewrite (z2b_eq _ a), (z2b_eq _ b); [done|..];
      subst r; Z.div_mod_to_equations; lia. }
  destruct (Z.ltb_spec (b2z a) 0xF0) as [H3|H3].
  { destruct s as [|b [|c s]]; try (injection Hd as <- <-; by destruct Hok).
    destruct (_ && cont c) eqn:Hb; [|injection Hd as <- <-; by destruct Hok].
    apply andb_true_iff in Hb as [Hb Hc]. apply within_spec in Hb. apply within_spec in Hc.
    injection Hd as Hr <-.
    assert (0x800 ≤ r < 0xD800 ∨ 0xDFFF < r < 0x10000) as Hrange.
    { destruct (Z.eqb_spec (b2z a) 0xE0), (Z.eqb_spec (b2z a) 0xED); lia. }
    assert (0x80 ≤ b2z b ≤ 0xBF) as Hb' by (destruct (b2z a =? 0xE0), (b2z a =? 0xED); lia). clear Hb.
    assert (ValidRune r = true) as Hv.
    { unfold ValidRune. apply orb_true_iff. rewrite !andb_true_iff, !Z.leb_le, !Z.ltb_lt. lia. }
    split; [done|]. unfold EncodeRune. rewrite Hv. cbv zeta.
    rewrite (proj2 (Z.ltb_ge r 0x80)), (proj2 (Z.ltb_ge r 0x800)) by lia.
    rewrite (proj2 (Z.ltb_lt r 0x10000)) by lia.
    cbn [bytes suffix]. rewrite (z2b_eq _ a), (z2b_eq _ b), (z2b_eq _ c); [done|..];
      subst r; Z.div_mod_to_equations; lia. }
  destruct (Z.ltb_spec (b2z a) 0xF5) as [H4|H4]; [|injection Hd as <- <-; by destruct Hok].
  destruct s as [|b [|c [|d s]]]; try (injection Hd as <- <-; by destruct Hok).
  destruct (_ && cont c && cont d) eqn:Hb; [|injection Hd as <- <-; by destruct Hok].
  apply andb_true_iff in Hb as [[Hb Hc]%andb_true_iff Hdd].
  apply within_spec in Hb. apply within_spec in Hc. apply within_spec in Hdd.
  injection Hd as Hr <-.
  assert (0x10000 ≤ r ≤ 0x10FFFF) as Hrange.
  { destruct (Z.eqb_spec (b2z a) 0xF0), (Z.eqb_spec (b2z a) 0xF4); lia. }
  assert (0x80 ≤ b2z b ≤ 0xBF) as Hb' by (destruct (b2z a =? 0xF0), (b2z a =? 0xF4); lia). clear Hb.
  assert (ValidRune r = true) as Hv.
  { unfold ValidRune. apply orb_true_iff. rewrite !andb_true_iff, !Z.leb_le, !Z.ltb_lt. lia. }
  split; [done|]. unfold EncodeRune. rewrite Hv. cbv zeta.
  rewrite (proj2 (Z.ltb_ge r 0x80)), (proj2 (Z.ltb_ge r 0x800)), (proj2 (Z.ltb_ge r 0x10000)) by lia.
  cbn [bytes suffix]. rewrite (z2b_eq _ a), (z2b_eq _ b), (z2b_eq _ c), (z2b_eq _ d); [done|..];
    subst r; Z.div_mod_to_equations; lia.
Qed.

Lemma ValidRune_spec r : ValidRune r = true ↔ 0 ≤ r < 0xD800 ∨ 0xDFFF < r ≤ 0x10FFFF.
Proof. unfold ValidRune. rewrite orb_true_iff, !andb_true_iff, !Z.leb_le, !Z.ltb_lt. lia. Qed.

Lemma within_z2b lo hi z : 0 ≤ z < 256 → within lo hi (z2b z) = (lo <=? z) && (z <=? hi).
Proof. intros Hz. unfold within. by rewrite b2z_z2b. Qed.

(** Rewrite every boolean comparison that [lia] decides. *)
Ltac decide_comparisons :=
  repeat match goal with
  | |- context [?x <? ?y] =>
      first [rewrite (proj2 (Z.ltb_lt x y)) by lia | rewrite (proj2 (Z.ltb_ge x y)) by lia]
  | |- context [?x <=? ?y] =>
      first [rewrite (proj2 (Z.leb_le x y)) by lia | rewrite (proj2 (Z.leb_gt x y)) by lia]
  | |- context [?x =? ?y] =>
      first [rewrite (proj2 (Z.eqb_eq x y)) by lia | rewrite (proj2 (Z.eqb_neq x y)) by lia]
  end.

Lemma decode_encode r t :
  ValidRune r = true → DecodeRune (EncodeRune r +:+ t) = (r, String.length (EncodeRune r)).
Proof.
  intros Hv. pose proof Hv as Hr. rewrite ValidRune_spec in Hr. unfold EncodeRune. rewrite Hv. cbv zeta.
  destruct (Z.ltb_spec r 0x80) as [H0|H0].
  { cbn [bytes String.length]. change (String (z2b r) "" +:+ t) with (String (z2b r) t).
    unfold DecodeRune. cbv zeta. rewrite b2z_z2b by lia. by decide_comparisons. }
  destruct (Z.ltb_spec r 0x800) as [H1|H1].
  { pose proof (Z.div_mod r 64 ltac:(lia)). pose proof (Z.mod_pos_bound r 64 ltac:(lia)).
    cbn [bytes String.length].
    change (?x +:+ t) with (String (z2b (0xC0 + r / 64)) (String (z2b (0x80 + r mod 64)) t)).
    unfold DecodeRune, cont. cbv zeta. rewrite !within_z2b, !b2z_z2b by lia. decide_comparisons.
    cbn [andb]. f_equal. lia. }
  destruct (Z.ltb_spec r 0x10000) as [H2|H2].
  { pose proof (Z.div_mod r 64 ltac:(lia)). pose proof (Z.mod_pos_bound r 64 ltac:(lia)).
    pose proof (Z.div_mod (r / 64) 64 ltac:(lia)). pose proof (Z.mod_pos_bound (r / 64) 64 ltac:(lia)).
    assert (r / 4096 = r / 64 / 64) as E by (rewrite Z.div_div by lia; done).
    cbn [bytes String.length]. rewrite E. set (x := r / 64 / 64) in *. set (y := r / 64 mod 64) in *.
    set (z := r mod 64) in *.
    change (?u +:+ t) with (String (z2b (0xE0 + x)) (String (z2b (0x80 + y)) (String (z2b (0x80 + z)) t))).
    unfold DecodeRune, cont. cbv zeta. rewrite !b2z_z2b by lia.
    rewrite !within_z2b by lia. decide_comparisons.
    destruct (Z.eqb_spec (0xE0 + x) 0xE0), (Z.eqb_spec (0xE0 + x) 0xED); try lia;
      decide_comparisons; cbn [andb]; f_equal; lia. }
  pose proof (Z.div_mod r 64 ltac:(lia)). pose proof (Z.mod_pos_bound r 64 ltac:(lia)).
  pose proof (Z.div_mod (r / 64) 64 ltac:(lia)). pose proof (Z.mod_pos_bound (r / 64) 64 ltac:(lia)).
  pose proof (Z.div_mod (r / 64 / 64) 64 ltac:(lia)). pose proof (Z.mod_pos_bound (r / 64 / 64) 64 ltac:(lia)).
  assert (r / 4096 = r / 64 / 64) as E by (rewrite Z.div_div by lia; done).
  assert (r / 262144 = r / 64 / 64 / 64) as E' by (rewrite !Z.div_div by lia; done).
  cbn [bytes String.length]. rewrite E, E'. set (x := r / 64 / 64 / 64) in *.
  set (y := r / 64 / 64 mod 64) in *. set (z := r / 64 mod 64) in *. set (w := r mod 64) in *.
  change (?u +:+ t) with (String (z2b (0xF0 + x)) (String (z2b (0x80 + y))
    (String (z2b (0x80 + z)) (String (z2b (0x80 + w)) t)))).
  unfold DecodeRune, cont. cbv zeta. rewrite !b2z_z2b by lia.
  rewrite !within_z2b by lia. decide_comparisons.
  destruct (Z.eqb_spec (0xF0 + x) 0xF0), (Z.eqb_spec (0xF0 + x) 0xF4); try lia;
    decide_comparisons; cbn [andb]; f_equal; lia.
Qed.

(** ** [strconv.Quote] *)

Definition hexd (z : Z) : Ascii.ascii := z2b (if z <? 10 then 48 + z else 87 + z).

(** The [n] low hexadecimal digits of [z]. *)
Fixpoint hex (n : nat) (z : Z) : string :=
  match n with
  | O => ""
  | S n => String (hexd (z / 16 ^ Z.of_nat n mod 16)) (hex n z)
  end.

Definition escape (s : string) : string := String bslash s.

Section Literals.
Context `{Unicode}.

(** [appendEscapedRune] for a double-quoted literal. *)
Definition escapedRune (r : Z) : string :=
  if (r =? 34) || (r =? 92) then escape (bytes [r])
  else if IsPrint r then EncodeRune r
  else if r =? 7 then escape "a"
  else if r =? 8 then escape "b"
  else if r =? 12 then escape "f"
  else if r =? 10 then escape "n"
  else if r =? 13 then escape "r"
  else if r =? 9 then escape "t"
  else if r =? 11 then escape "v"
  else if (r <? 32) || (r =? 127) then escape (String "x" (hex 2 r))
  else
    let r := if ValidRune r then r else RuneError in
    if r <? 0x10000 then escape (String "u" (hex 4 r)) else escape (String "U" (hex 8 r)).

(** One round of the loop: the text for the first rune and its width. *)
Definition quoteRune (s : string) : string * nat :=
  let '(r, w) := DecodeRune s in
  if (w =? 1)%nat && (r =? RuneError)
  then (match s with String a _ => escape (String "x" (hex 2 (b2z a))) | "" => "" end, 1%nat)
  else (escapedRune r, w).

Fixpoint quote_loop (fuel : nat) (s : string) : string :=
  match fuel with
  | O => ""
  | S fuel =>
      match s with
      | "" => ""
      | _ => let '(q, w) := quoteRune s in q +:+ quote_loop fuel (suffix w s)
      end
  end.

(** Every round consumes a byte, so the length is enough fuel. *)
Definition Quote (s : string) : string :=
  String dquote (quote_loop (String.length s) s +:+ String dquote "").

(** [strconv.CanBackquote]. *)
Fixpoint backquote_loop (fuel : nat) (s : string) : bool :=
  match fuel with
  | O => true
  | S fuel =>
      match s with
      | "" => true
      | _ =>
          let '(r, w) := DecodeRune s in
          if (1 <? w)%nat then
            if r =? 0xFEFF then false else backquote_loop fuel (suffix w s)
          else if r =? RuneError then false
          else if ((r <? 32) && negb (r =? 9)) || (r =? 96) || (r =? 127) then false
          else backquote_loop fuel (suffix w s)
      end
  end.

Definition CanBackquote (s : string) : bool := backquote_loop (String.length s) s.

End Literals.

(** ** [strconv.Unquote] of a double-quoted literal *)

Definition unhex (a : Ascii.ascii) : option Z :=
  let b := b2z a in
  if (48 <=? b) && (b <=? 57) then Some (b - 48)
  else if (97 <=? b) && (b <=? 102) then Some (b - 97 + 10)
  else if (65 <=? b) && (b <=? 70) then Some (b - 65 + 10)
  else None.

Fixpoint unhexes (n : nat) (acc : Z) (s : string) : option (Z * string) :=
  match n with
  | O => Some (acc, s)
  | S n =>
      match s with
      | "" => None
      | String a s => match unhex a with Some x => unhexes n (acc * 16 + x) s | None => None end
      end
  end.

Definition octal (a : Ascii.ascii) : option Z :=
  let b := b2z a in
  if (48 <=? b) && (b <=? 55) then Some (b - 48) else None.

(** [UnquoteChar] after a backslash: the value, whether it is a rune, the rest. *)
Definition unescape (s : string) : option (Z * bool * string) :=
  match s with
  | "" => None
  | String c s =>
      let b := b2z c in
      if b =? 97 then Some (7, false, s)
      else if b =? 98 then Some (8, false, s)
      else if b =? 102 then Some (12, false, s)
      else if b =? 110 then Some (10, false, s)
      else if b =? 114 then Some (13, false, s)
      else if b =? 116 then Some (9, false, s)
      else if b =? 118 then Some (11, false, s)
      else if b =? 120 then
        match unhexes 2 0 s with
        | Some (v, s) => Some (v, false, s)
        | None => None
        end
      else if (b =? 117) || (b =? 85) then
        match unhexes (if b =? 117 then 4%nat else 8%nat) 0 s with
        | Some (v, s) => if ValidRune v then Some (v, true, s) else None
        | None => None
        end
      else if b =? 92 then Some (92, false, s)
      else if b =? 34 then Some (34, false, s)
      else match octal c with
           | Some o1 =>
               match s with
               | String c2 (String c3 s) =>
                   match octal c2, octal c3 with
                   | Some o2, Some o3 =>
                       let v := o1 * 64 + o2 * 8 + o3 in
                       if 255 <? v then None else Some (v, false, s)
                   | _, _ => None
                   end
               | _ => None
               end
           | None => None
           end
  end.

(** [UnquoteChar] of a literal in double quotes. *)
Definition UnquoteChar (s : string) : option (Z * bool * string) :=
  match s with
  | "" => None
  | String c rest =>
      let b := b2z c in
      if b =? 34 then None
      else if 0x80 <=? b then let '(r, w) := DecodeRune s in Some (r, true, suffix w s)
      else if negb (b =? 92) then Some (b, false, rest)
      else unescape rest
  end.

(** The loop of [unquote], on what follows the opening quote. *)
Fixpoint unquote_loop (fuel : nat) (s : string) : option (string * string) :=
  match fuel with
  | O => None
  | S fuel =>
      match s with
      | "" => None
      | String c rest =>
          if b2z c =? 34 then Some ("", rest)
          else if b2z c =? 10 then None
          else
            match UnquoteChar s with
            | None => None
            | Some (r, multibyte, rest) =>
                match unquote_loop fuel rest with
                | None => None
                | Some (v, after) =>
                    Some ((if (r <? 0x80) || negb multibyte then bytes [r mod 256] else EncodeRune r) +:+ v,
                          after)
                end
            end
      end
  end.

Definition Unquote (s : string) : option string :=
  match s with
  | String c rest =>
      if b2z c =? 34 then
        match unquote_loop (String.length rest) rest with
        | Some (v, "") => Some v
        | _ => None
        end
      else None
  | "" => None
  end.

(** ** Lemmas: quoting *)

Lemma app_str_cons (a : Ascii.ascii) (s t : string) : String a s +:+ t = String a (s +:+ t).
Proof. done. Qed.

Lemma unhex_hexd z : 0 ≤ z < 16 → unhex (hexd z) = Some z.
Proof.
  intros Hz. unfold unhex, hexd. destruct (Z.ltb_spec z 10).
  - rewrite b2z_z2b by lia. decide_comparisons. cbn [andb]. f_equal. lia.
  - rewrite b2z_z2b by lia. decide_comparisons. cbn [andb]. f_equal. lia.
Qed.

Lemma unhexes_hex n acc z t :
  unhexes n acc (hex n z +:+ t) = Some (acc * 16 ^ Z.of_nat n + z mod 16 ^ Z.of_nat n, t).
Proof.
  revert acc. induction n as [|n IH]; intros acc.
  { cbn [unhexes hex]. rewrite Z.mod_1_r, Z.mul_1_r, Z.add_0_r. done. }
  cbn [unhexes hex]. rewrite app_str_cons, unhex_hexd by (apply Z.mod_pos_bound; lia).
  rewrite IH. do 2 f_equal. rewrite Nat2Z.inj_succ, Z.pow_succ_r by lia.
  set (k := 16 ^ Z.of_nat n). assert (0 < k) by (apply Z.pow_pos_nonneg; lia).
  rewrite (Z.mul_comm 16 k), Z.rem_mul_r by lia. lia.
Qed.

Lemma unescape_x z t : 0 ≤ z < 256 →
  unescape (String "x" (hex 2 z) +:+ t) = Some (z, false, t).
Proof.
  intros Hz. rewrite app_str_cons.
  change (unescape (String "x" (hex 2 z +:+ t))) with
    (match unhexes 2 0 (hex 2 z +:+ t) with Some (v, s) => Some (v, false, s) | None => None end).
  rewrite unhexes_hex, Z.mod_small by (cbn; lia). by rewrite Z.mul_0_l, Z.add_0_l.
Qed.

Lemma unescape_u z t : ValidRune z = true → z < 0x10000 →
  unescape (String "u" (hex 4 z) +:+ t) = Some (z, true, t).
Proof.
  intros Hv Hz. pose proof (proj1 (ValidRune_spec z) Hv). rewrite app_str_cons.
  change (unescape (String "u" (hex 4 z +:+ t))) with
    (match unhexes 4 0 (hex 4 z +:+ t) with
     Some (v, s) => if ValidRune v then Some (v, true, s) else None | None => None end).
  rewrite unhexes_hex, Z.mod_small by (cbn; lia). by rewrite Z.mul_0_l, Z.add_0_l, Hv.
Qed.

Lemma unescape_U z t : ValidRune z = true →
  unescape (String "U" (hex 8 z) +:+ t) = Some (z, true, t).
Proof.
  intros Hv. pose proof (proj1 (ValidRune_spec z) Hv). rewrite app_str_cons.
  change (unescape (String "U" (hex 8 z +:+ t))) with
    (match unhexes 8 0 (hex 8 z +:+ t) with
     Some (v, s) => if ValidRune v then Some (v, true, s) else None | None => None end).
  rewrite unhexes_hex, Z.mod_small by (cbn; lia). by rewrite Z.mul_0_l, Z.add_0_l, Hv.
Qed.

Lemma EncodeRune_ascii r : 0 ≤ r < 0x80 → EncodeRune r = bytes [r].
Proof.
  intros Hr. unfold EncodeRune. rewrite (proj2 (ValidRune_spec r)) by lia. cbv zeta.
  by decide_comparisons.
Qed.

(** A rune beyond ASCII starts with a byte above the ASCII range. *)
Lemma EncodeRune_high r : 0x80 ≤ r → ∃ c s, EncodeRune r = String c s ∧ 0x80 ≤ b2z c.
Proof.
  intros Hr. unfold EncodeRune. cbv zeta. set (r' := if ValidRune r then r else RuneError).
  assert (0x80 ≤ r' ≤ 0x10FFFF) as Hr'.
  { subst r'. destruct (ValidRune r) eqn:Hv; [|unfold RuneError; lia].
    apply ValidRune_spec in Hv. lia. }
  rewrite (proj2 (Z.ltb_ge r' 0x80)) by lia.
  destruct (Z.ltb_spec r' 0x800); [|destruct (Z.ltb_spec r' 0x10000)];
    cbn [bytes]; eexists _, _; (split; [reflexivity|]);
    rewrite b2z_z2b; Z.div_mod_to_equations; lia.
Qed.

Section Roundtrip.
Context `{UnicodeLaws}.

(** What one round of [unquote_loop] makes of a decoded character. *)
Definition emit (r : Z) (multibyte : bool) : string :=
  if (r <? 0x80) || negb multibyte then bytes [r mod 256] else EncodeRune r.

Definition prepend (p : string) (x : option (string * string)) : option (string * string) :=
  match x with
  | Some (v, after) => Some (p +:+ v, after)
  | None => None
  end.

Lemma loop_escape f e t r mb :
  unescape (e +:+ t) = Some (r, mb, t) →
  unquote_loop (S f) (escape e +:+ t) = prepend (emit r mb) (unquote_loop f t).
Proof. intros He. unfold escape. rewrite app_str_cons. cbn [unquote_loop]. cbn. rewrite He. done. Qed.

Lemma loop_char f r t :
  32 ≤ r < 0x80 → r ≠ 34 → r ≠ 92 →
  unquote_loop (S f) (bytes [r] +:+ t) = prepend (bytes [r]) (unquote_loop f t).
Proof.
  intros Hr H1 H2. cbn [bytes]. rewrite app_str_cons. cbn [unquote_loop UnquoteChar].
  rewrite b2z_z2b by lia. decide_comparisons. cbn [negb]. decide_comparisons.
  change ("" +:+ t) with t. destruct (unquote_loop f t) as [[v after]|]; [|done].
  cbn [orb negb prepend]. rewrite Z.mod_small by lia. done.
Qed.

Lemma loop_rune f r t :
  ValidRune r = true → 0x80 ≤ r →
  unquote_loop (S f) (EncodeRune r +:+ t) = prepend (EncodeRune r) (unquote_loop f t).
Proof.
  intros Hv Hr. pose proof (decode_encode r t Hv) as Hd.
  destruct (EncodeRune_high r Hr) as (c & s & He & Hc). rewrite He in Hd |- *.
  rewrite app_str_cons in Hd |- *. cbn [unquote_loop].
  unfold UnquoteChar. rewrite Hd. decide_comparisons.
  change (suffix (String.length (String c s)) (String c (s +:+ t)))
    with (suffix (String.length s) (s +:+ t)). rewrite suffix_app.
  destruct (unquote_loop f t) as [[v after]|]; [|done].
  cbn [orb negb]. by rewrite He.
Qed.

Lemma escapedRune_unquotes f r t :
  ValidRune r = true →
  unquote_loop (S f) (escapedRune r +:+ t) = prepend (EncodeRune r) (unquote_loop f t).
Proof.
  intros Hv. pose proof (proj1 (ValidRune_spec r) Hv) as Hr. unfold escapedRune.
  assert (∀ z, r = z → 0 ≤ z < 0x80 → emit z false = EncodeRune r) as Hemit.
  { intros z -> Hz. rewrite EncodeRune_ascii by done. unfold emit. rewrite orb_true_r.
    by rewrite Z.mod_small by lia. }
  destruct (Z.eqb_spec r 34) as [->|N34].
  { cbn [orb]. rewrite (loop_escape f _ t 34 false); [by rewrite (Hemit 34)|reflexivity]. }
  destruct (Z.eqb_spec r 92) as [->|N92].
  { cbn [orb]. rewrite (loop_escape f _ t 92 false); [by rewrite (Hemit 92)|reflexivity]. }
  cbn [orb]. destruct (IsPrint r) eqn:Hp.
  { destruct (Z.lt_ge_cases r 0x80) as [Hlo|Hhi]; [|by apply loop_rune].
    rewrite EncodeRune_ascii by lia. rewrite IsPrint_ascii in Hp by lia.
    apply andb_true_iff in Hp as [Hp1%Z.leb_le Hp2%Z.leb_le]. apply loop_char; lia. }
  destruct (Z.eqb_spec r 7) as [->|N7]; [by rewrite (loop_escape f _ t 7 false), (Hemit 7)|].
  destruct (Z.eqb_spec r 8) as [->|N8]; [by rewrite (loop_escape f _ t 8 false), (Hemit 8)|].
  destruct (Z.eqb_spec r 12) as [->|N12]; [by rewrite (loop_escape f _ t 12 false), (Hemit 12)|].
  destruct (Z.eqb_spec r 10) as [->|N10]; [by rewrite (loop_escape f _ t 10 false), (Hemit 10)|].
  destruct (Z.eqb_spec r 13) as [->|N13]; [by rewrite (loop_escape f _ t 13 false), (Hemit 13)|].
  destruct (Z.eqb_spec r 9) as [->|N9]; [by rewrite (loop_escape f _ t 9 false), (Hemit 9)|].
  destruct (Z.eqb_spec r 11) as [->|N11]; [by rewrite (loop_escape f _ t 11 false), (Hemit 11)|].
  destruct ((r <? 32) || (r =? 127)) eqn:Hctl.
  { assert (0 ≤ r < 0x80) by (apply orb_true_iff in Hctl as [?%Z.ltb_lt|?%Z.eqb_eq]; lia).
    rewrite (loop_escape f _ t r false); [by rewrite (Hemit r)|]. apply unescape_x. lia. }
  apply orb_false_iff in Hctl as [Hctl1%Z.ltb_ge Hctl2%Z.eqb_neq].
  assert (0x80 ≤ r) as Hhi.
  { destruct (Z.lt_ge_cases r 0x80) as [Hlo|]; [|done].
    rewrite IsPrint_ascii in Hp by lia. apply andb_false_iff in Hp as [?%Z.leb_gt|?%Z.leb_gt]; lia. }
  rewrite Hv. cbv zeta.
  assert (emit r true = EncodeRune r) as Hm.
  { unfold emit. rewrite (proj2 (Z.ltb_ge r 0x80)) by lia. done. }
  destruct (Z.ltb_spec r 0x10000).
  - rewrite (loop_escape f _ t r true); [by rewrite Hm|]. by apply unescape_u.
  - rewrite (loop_escape f _ t r true); [by rewrite Hm|]. by apply unescape_U.
Qed.

(** One rune of the source comes back, whether it was well formed or not. *)
Lemma quoteRune_unquotes f s q w t :
  s ≠ "" → quoteRune s = (q, w) →
  unquote_loop (S f) (q +:+ t) = prepend (prefix w s) (unquote_loop f t).
Proof.
  intros Hs Hq. unfold quoteRune in Hq. destruct (DecodeRune s) as [r w0] eqn:Hd.
  destruct ((w0 =? 1)%nat && (r =? RuneError)) eqn:Hbad.
  - destruct s as [|a s]; [done|]. injection Hq as <- <-. pose proof (b2z_range a).
    rewrite (loop_escape f _ t (b2z a) false).
    + unfold emit. rewrite orb_true_r. cbn [prefix bytes]. rewrite Z.mod_small by lia.
      by rewrite z2b_b2z.
    + by apply unescape_x.
  - injection Hq as <- <-. destruct (encode_decode s r w0 Hd Hs) as [Hv He].
    { intros [-> ->]. done. }
    assert (w0 = String.length (EncodeRune r)) as ->.
    { pose proof (decode_encode r (suffix w0 s) Hv) as Hd'. rewrite He, Hd in Hd'. by injection Hd'. }
    assert (prefix (String.length (EncodeRune r)) s = EncodeRune r) as ->.
    { transitivity (prefix (String.length (EncodeRune r))
        (EncodeRune r +:+ suffix (String.length (EncodeRune r)) s)); [by rewrite He|].
      apply prefix_app. }
    by apply escapedRune_unquotes.
Qed.

Lemma escape_nonempty e : (1 ≤ String.length (escape e))%nat.
Proof. cbn. lia. Qed.

Lemma quoteRune_length s : s ≠ "" →
  (1 ≤ String.length (quoteRune s).1)%nat ∧ (1 ≤ (quoteRune s).2)%nat.
Proof.
  intros Hs. pose proof (DecodeRune_width s Hs) as [Hw _]. unfold quoteRune.
  destruct (DecodeRune s) as [r w]. cbn [snd] in Hw. destruct (_ && _).
  { destruct s; [done|]. cbn. lia. }
  cbn [fst snd]. split; [|lia]. unfold escapedRune, EncodeRune. cbv zeta.
  repeat case_match; cbn; lia.
Qed.

Lemma quote_loop_unquotes n s f t :
  (String.length s ≤ n)%nat → (String.length (quote_loop n s) < f)%nat →
  unquote_loop f (quote_loop n s +:+ String dquote t) = Some (s, t).
Proof.
  revert s f. induction n as [|n IH]; intros s f Hn Hf.
  { destruct s; [|cbn in Hn; lia]. destruct f; [lia|]. done. }
  destruct (decide (s = "")) as [->|Hs]; [destruct f; [lia|done]|].
  pose proof (quoteRune_length s Hs) as [Hl Hw].
  assert (quote_loop (S n) s = (quoteRune s).1 +:+ quote_loop n (suffix (quoteRune s).2 s)) as Hq.
  { cbn [quote_loop]. destruct s; [done|]. by destruct (quoteRune _). }
  rewrite Hq in Hf |- *. destruct (quoteRune s) as [q w] eqn:E. cbn [fst snd] in *.
  rewrite length_app_str in Hf. destruct f as [|f]; [lia|].
  rewrite append_assoc, (quoteRune_unquotes f s q w _ Hs E).
  rewrite IH; [|rewrite length_suffix; lia|lia].
  cbn [prepend]. by rewrite prefix_suffix.
Qed.

(** Unquoting a quoted string gives the string back, whatever its bytes. *)
Lemma Unquote_Quote s : Unquote (Quote s) = Some s.
Proof.
  unfold Quote, Unquote. change (b2z dquote =? 34) with true. cbv iota.
  rewrite quote_loop_unquotes; [done|done|]. rewrite length_app_str. cbn. lia.
Qed.

End Roundtrip.

End Utf8.
