(* ===== verification/Cache.v ===== *)
(** * The in-memory cache tier and its fallback chain
      (src/internal/cache/cache.go)

    [L1.mem] is the mutex-protected part of the [Cache] struct: the entry map,
    the byte counter, the LRU list with its index and the hot-key index.
    [TieredCache.Cache] adds the configuration, the promotion buffer, the
    counters and the two lower tiers, which are reached through the classes
    [L2Store] (disk) and [L3Store] (peers).  Every operation receives the clock
    readings it takes as arguments. *)

From S2P Require Import Prelude.

#[local] Open Scope Z_scope.

Module L1.

(** ** Data *)

Record entry : Type := mkEntry {
  value : string;
  expiresAt : Z;
  sizeBytes : Z
}.

#[export] Instance entry_eq_dec : EqDecision entry.
Proof. solve_decision. Defined.

Record hotStat : Type := mkHot {
  score : Z;
  lastAccess : Z;
  tenant : string
}.

Record tierStats : Type := mkTier {
  requests : Z;
  hits : Z;
  misses : Z;
  staleHits : Z
}.

(** [lruList] is kept front (most recently used) to back; [lruIndex] is the
    key set of the map from keys to list elements. *)
Record mem : Type := mkMem {
  entries : gmap string entry;
  curBytes : Z;
  lruList : list string;
  lruIndex : gset string;
  hot : gmap string hotStat;
  Evictions : Z;
  l0Stats : tierStats
}.

Record limits : Type := mkLimits {
  maxEntries : Z;
  maxBytes : Z;
  hotMax : Z;
  hotOn : bool
}.

Definition empty_mem : mem :=
  mkMem ∅ 0 [] ∅ ∅ 0 (mkTier 0 0 0 0).

Definition byte_len (v : string) : Z := Z.of_nat (String.length v).

Definition num_entries (m : mem) : Z := Z.of_nat (size (entries m)).

(** ** Recency list *)

(** [lruList.Remove(elem)] for the element of [k]. *)
Definition lru_remove (k : string) (l : list string) : list string :=
  filter (λ k', k' ≠ k) l.

(** [if elem, found := lruIndex[k]; found { lruList.MoveToFront(elem) }]. *)
Definition moveToFront (k : string) (m : mem) : mem :=
  if decide (k ∈ lruIndex m)
  then mkMem (entries m) (curBytes m) (k :: lru_remove k (lruList m))
         (lruIndex m) (hot m) (Evictions m) (l0Stats m)
  else m.

(** [if _, found := lruIndex[k]; !found { lruIndex[k] = lruList.PushFront(..) }]. *)
Definition pushFront (k : string) (m : mem) : mem :=
  if decide (k ∈ lruIndex m) then m
  else mkMem (entries m) (curBytes m) (k :: lruList m)
         ({[k]} ∪ lruIndex m) (hot m) (Evictions m) (l0Stats m).

(** ** Removal *)

(** The body shared by [Invalidate], [InvalidatePrefix], [cleanup] and the
    first pass of [evictIfNeeded]: give back the bytes and forget the key in
    the map, the hot index and the recency list. *)
Definition dropEntry (k : string) (e : entry) (m : mem) : mem :=
  if decide (k ∈ lruIndex m)
  then mkMem (delete k (entries m)) (curBytes m - sizeBytes e)
         (lru_remove k (lruList m)) (lruIndex m ∖ {[k]})
         (delete k (hot m)) (Evictions m) (l0Stats m)
  else mkMem (delete k (entries m)) (curBytes m - sizeBytes e)
         (lruList m) (lruIndex m) (delete k (hot m)) (Evictions m) (l0Stats m).

Definition countEviction (m : mem) : mem :=
  mkMem (entries m) (curBytes m) (lruList m) (lruIndex m) (hot m)
    (Evictions m + 1) (l0Stats m).

Definition Invalidate (k : string) (m : mem) : mem :=
  match entries m !! k with
  | Some e => dropEntry k e m
  | None => m
  end.

(** [for k, e := range c.entries { if p(k, e) { drop } }]: the range visits a
    snapshot of the entries in [order]. *)
Definition rangeDrop (p : string → entry → bool) (count : bool)
    (order : list (string * entry)) (m : mem) : mem :=
  foldl (λ m ke,
    if p ke.1 ke.2
    then let m' := dropEntry ke.1 ke.2 m in
         if count then countEviction m' else m'
    else m) m order.

Definition hasPrefix (p : string) (k : string) : bool :=
  (String.length p <=? String.length k)%nat &&
  String.eqb (String.substring 0 (String.length p) k) p.

Definition InvalidatePrefix (prefix : string) (m : mem) : mem :=
  rangeDrop (λ k _, hasPrefix prefix k) false (map_to_list (entries m)) m.

(** One tick of the [cleanup] goroutine. *)
Definition cleanup (now : Z) (m : mem) : mem :=
  rangeDrop (λ _ e, expiresAt e <? now) false (map_to_list (entries m)) m.

(** ** Eviction *)

Definition overLimit (lim : limits) (incomingSize : Z) (m : mem) : bool :=
  (maxEntries lim <=? num_entries m) ||
  (maxBytes lim <? curBytes m + incomingSize).

(** First pass: drop what has expired, when over a limit. *)
Definition evictExpired (lim : limits) (now incomingSize : Z) (m : mem) : mem :=
  if overLimit lim incomingSize m
  then rangeDrop (λ _ e, expiresAt e <? now) true (map_to_list (entries m)) m
  else m.

(** One iteration of the second pass on the back element [k]. *)
Definition evictBack (k : string) (m : mem) : mem :=
  let m1 :=
    match entries m !! k with
    | Some e =>
        mkMem (delete k (entries m)) (curBytes m - sizeBytes e)
          (lruList m) (lruIndex m) (delete k (hot m)) (Evictions m + 1) (l0Stats m)
    | None => m
    end in
  mkMem (entries m1) (curBytes m1) (removelast (lruList m1))
    (lruIndex m1 ∖ {[k]}) (hot m1) (Evictions m1) (l0Stats m1).

(** Second pass: evict from the back while over a limit.  Each iteration
    shortens the list and an empty list ends the loop, so the length of the
    list bounds the iterations. *)
Fixpoint evictLRU (fuel : nat) (lim : limits) (incomingSize : Z) (m : mem) : mem :=
  match fuel with
  | O => m
  | S fuel =>
      if overLimit lim incomingSize m then
        match last (lruList m) with
        | None => m
        | Some k => evictLRU fuel lim incomingSize (evictBack k m)
        end
      else m
  end.

Definition evictIfNeeded (lim : limits) (now incomingSize : Z) (m : mem) : mem :=
  let m1 := evictExpired lim now incomingSize m in
  evictLRU (length (lruList m1)) lim incomingSize m1.

(** ** Insertion *)

(** The start of a store: uncharge the value being replaced and mark the key
    as most recently used. *)
Definition beginStore (key : string) (m : mem) : mem :=
  match entries m !! key with
  | Some old =>
      moveToFront key
        (mkMem (entries m) (curBytes m - sizeBytes old) (lruList m)
           (lruIndex m) (hot m) (Evictions m) (l0Stats m))
  | None => m
  end.

(** [storeLocalLocked]; [t_evict] and [t_store] are the two clock readings
    (in [evictIfNeeded] and for [expiresAt]). *)
Definition storeLocalLocked (lim : limits) (t_evict t_store : Z)
    (key val : string) (ttl size : Z) (m : mem) : mem :=
  let m2 := evictIfNeeded lim t_evict size (beginStore key m) in
  let m3 := mkMem (<[key := mkEntry val (t_store + ttl) size]> (entries m2))
              (curBytes m2 + size) (lruList m2) (lruIndex m2) (hot m2)
              (Evictions m2) (l0Stats m2) in
  pushFront key m3.

(** ** Lookup *)

(** [GetWithTTL]/[getL1WithTTL]: a hit needs a positive remaining lifetime. *)
Definition lookupTTL (now : Z) (key : string) (m : mem) : option (string * Z) :=
  match entries m !! key with
  | Some e =>
      let remaining := time_sub (expiresAt e) now in
      if 0 <? remaining then Some (value e, remaining) else None
  | None => None
  end.

(** The first lookup of [Get]: [ok && !clockNow().After(e.expiresAt)]. *)
Definition lookupFresh (now : Z) (key : string) (m : mem) : option string :=
  match entries m !! key with
  | Some e => if expiresAt e <? now then None else Some (value e)
  | None => None
  end.

Definition GetStaleWithTTL (now : Z) (key : string) (m : mem) : option (string * Z) :=
  match entries m !! key with
  | Some e => Some (value e, time_sub (expiresAt e) now)
  | None => None
  end.

Definition Size (m : mem) : Z * Z := (num_entries m, curBytes m).

(** ** The guarded store and the hot-key index *)

(** [SetLocalOnlyWithTTL]: values above a tenth of the byte budget are not
    cached (Go's [/] truncates). *)
Definition SetLocalOnlyWithTTL (lim : limits) (t_evict t_store : Z)
    (key val : string) (ttl : Z) (m : mem) : mem :=
  if Z.quot (maxBytes lim) 10 <? byte_len val then m
  else storeLocalLocked lim t_evict t_store key val ttl (byte_len val) m.

(** Split at the first occurrence of [c]. *)
Fixpoint cut (c : Ascii.ascii) (s : string) : option (string * string) :=
  match s with
  | EmptyString => None
  | String a rest =>
      if Ascii.eqb a c then Some (EmptyString, rest)
      else match cut c rest with
           | Some (l, r) => Some (String a l, r)
           | None => None
           end
  end.

(** [strings.SplitN(key, ":", 3)] has three parts: the first two of them. *)
Definition splitTenantKey (key : string) : option (string * string) :=
  match cut ":"%char key with
  | Some (kind, rest) =>
      match cut ":"%char rest with
      | Some (tn, _) => Some (kind, tn)
      | None => None
      end
  | None => None
  end.

Definition tenantKeyKinds : list string :=
  ["query_range"; "query_range_window"; "query_range_window_has_hits"; "query";
   "series"; "labels"; "label_values"; "volume"; "volume_range";
   "detected_fields"; "detected_labels"; "detected_field_values"; "patterns";
   "label_inventory"].

Definition tenantFromCacheKey (key : string) : string :=
  if hasPrefix "__" key then ""
  else match splitTenantKey key with
       | Some (kind, tn) => if decide (kind ∈ tenantKeyKinds) then tn else ""
       | None => ""
       end.

Definition set_hot (h : gmap string hotStat) (st : tierStats) (m : mem) : mem :=
  mkMem (entries m) (curBytes m) (lruList m) (lruIndex m) h (Evictions m) st.

(** Coldest first: by score, then by last access. *)
Definition colder (a b : string * hotStat) : Prop :=
  score a.2 < score b.2 ∨ score a.2 = score b.2 ∧ lastAccess a.2 ≤ lastAccess b.2.

#[export] Instance colder_dec a b : Decision (colder a b).
Proof. unfold colder. apply _. Defined.

Definition pruneHotLocked (drop : Z) (m : mem) : mem :=
  if (drop <=? 0) || (Z.of_nat (size (hot m)) =? 0) then m
  else
    let cands := merge_sort colder (map_to_list (hot m)) in
    let victims := take (Z.to_nat drop) cands in
    set_hot (foldl (λ h kv, delete kv.1 h) (hot m) victims) (l0Stats m) m.

Definition recordHotLocked (lim : limits) (now : Z) (key : string) (m : mem) : mem :=
  let existed := hot m !! key in
  let st := l0Stats m in
  let st' := mkTier (requests st + 1)
               (match existed with Some _ => hits st + 1 | None => hits st end)
               (match existed with Some _ => misses st | None => misses st + 1 end)
               (staleHits st) in
  let hs := default (mkHot 0 0 "") existed in
  let hs' := mkHot ((score hs + 1) mod 2 ^ 64) now
               (if decide (tenant hs = "") then tenantFromCacheKey key else tenant hs) in
  let m' := set_hot (<[key := hs']> (hot m)) st' m in
  let n := Z.of_nat (size (hot m')) in
  if n <=? hotMax lim then m' else pruneHotLocked (n - hotMax lim) m'.

(** [applyKey] of the promoter goroutine. *)
Definition applyPromotion (lim : limits) (now : Z) (key : string) (m : mem) : mem :=
  let m1 := moveToFront key m in
  if hotOn lim then recordHotLocked lim now key m1 else m1.

Record hotKey : Type := mkHotKey {
  hk_key : string;
  hk_tenant : string;
  hk_score : Z;
  hk_size : Z;
  hk_ttl_ms : Z
}.

Definition hotter (a b : hotKey) : Prop :=
  hk_score b < hk_score a ∨ hk_score a = hk_score b ∧ hk_ttl_ms b ≤ hk_ttl_ms a.

#[export] Instance hotter_dec a b : Decision (hotter a b).
Proof. unfold hotter. apply _. Defined.

(** The candidate a hot key contributes to [TopHotKeys], if any; [now] is read
    once before the loop, [now'] for each key. *)
Definition hotCandidate (now now' minTTL maxObj : Z) (m : mem)
    (kv : string * hotStat) : option hotKey :=
  match entries m !! kv.1 with
  | None => None
  | Some e =>
      let remaining := time_sub (expiresAt e) now' in
      if (remaining <=? 0) || (expiresAt e <? now) then None
      else if (0 <? minTTL) && (remaining <? minTTL) then None
      else if (0 <? maxObj) && (maxObj <? sizeBytes e) then None
      else Some (mkHotKey kv.1 (tenant kv.2) (score kv.2) (sizeBytes e)
                   (Z.quot remaining Millisecond))
  end.

Definition maxHotIndexQueryLimit : Z := 2000.

Definition TopHotKeys (lim : limits) (now now' limit minTTL maxObj : Z) (m : mem)
    : list hotKey :=
  if limit <=? 0 then []
  else if negb (hotOn lim) then []
  else
    let limit := Z.min limit maxHotIndexQueryLimit in
    take (Z.to_nat limit)
      (merge_sort hotter
         (omap (hotCandidate now now' minTTL maxObj m) (map_to_list (hot m)))).

(** ** Operation sequences and the abstract cache

    The abstract cache never evicts: it maps every key to the last value
    stored under it and that value's expiry. *)

Inductive op : Type :=
| OpStore (t_evict t_store : Z) (key val : string) (ttl : Z)
| OpInvalidate (key : string)
| OpInvalidatePrefix (prefix : string)
| OpCleanup (now : Z)
| OpPromote (now : Z) (key : string).

Definition run (lim : limits) (o : op) (m : mem) : mem :=
  match o with
  | OpStore te ts key val ttl => SetLocalOnlyWithTTL lim te ts key val ttl m
  | OpInvalidate key => Invalidate key m
  | OpInvalidatePrefix p => InvalidatePrefix p m
  | OpCleanup now => cleanup now m
  | OpPromote now key => applyPromotion lim now key m
  end.

Definition run_all (lim : limits) (os : list op) (m : mem) : mem :=
  foldl (λ m o, run lim o m) m os.

Definition spec_run (lim : limits) (o : op) (a : gmap string (string * Z))
    : gmap string (string * Z) :=
  match o with
  | OpStore _ ts key val ttl =>
      if Z.quot (maxBytes lim) 10 <? byte_len val then a
      else <[key := (val, ts + ttl)]> a
  | OpInvalidate key => delete key a
  | OpInvalidatePrefix p => filter (λ kv, hasPrefix p kv.1 = false) a
  | OpCleanup _ | OpPromote _ _ => a
  end.

Definition spec_all (lim : limits) (os : list op) : gmap string (string * Z) :=
  foldl (λ a o, spec_run lim o a) ∅ os.

(** ** Invariant and accounting *)

(** The recency list enumerates exactly the cached keys, once each, and every
    entry is charged its real length. *)
Definition wf (m : mem) : Prop :=
  NoDup (lruList m) ∧
  lruIndex m = list_to_set (lruList m) ∧
  dom (entries m) = lruIndex m ∧
  map_Forall (λ _ e, sizeBytes e = byte_len (value e)) (entries m).

(** Bytes really held. *)
Definition total (m : mem) : Z :=
  map_fold (λ _ e acc, sizeBytes e + acc) 0 (entries m).

(** How far the counter lags behind the bytes really held. *)
Definition debt (m : mem) : Z := total m - curBytes m.

(** ** Lemmas *)

Lemma total_delete (es : gmap string entry) k e :
  es !! k = Some e →
  map_fold (λ _ e acc, sizeBytes e + acc) 0 es =
  sizeBytes e + map_fold (λ _ e acc, sizeBytes e + acc) 0 (delete k es).
Proof.
  intros Hk. apply (map_fold_delete_L (λ _ e acc, sizeBytes e + acc)); [|done].
  intros; lia.
Qed.

Lemma total_insert (es : gmap string entry) k e :
  map_fold (λ _ e acc, sizeBytes e + acc) 0 (<[k:=e]> es) =
  sizeBytes e + map_fold (λ _ e acc, sizeBytes e + acc) 0 (delete k es).
Proof.
  rewrite (total_delete _ k e) by apply lookup_insert_eq.
  by rewrite delete_insert_eq.
Qed.

Lemma total_nonneg m : wf m → 0 ≤ total m.
Proof.
  intros (_ & _ & _ & Hsz). unfold total. revert Hsz.
  induction (entries m) as [|k e es Hk IH] using map_ind; intros Hsz; [done|].
  rewrite total_insert, delete_id by done.
  apply map_Forall_insert in Hsz as [He Hsz]; [|done].
  specialize (IH Hsz). rewrite He. unfold byte_len. lia.
Qed.

Lemma lru_remove_elem k k' l : k' ∈ lru_remove k l ↔ k' ≠ k ∧ k' ∈ l.
Proof. unfold lru_remove. by rewrite list_elem_of_filter. Qed.

Lemma lru_remove_set k l :
  list_to_set (lru_remove k l) =@{gset string} list_to_set l ∖ {[k]}.
Proof.
  apply set_eq. intros x.
  rewrite elem_of_difference, !elem_of_list_to_set, lru_remove_elem, elem_of_singleton.
  tauto.
Qed.

Lemma lru_remove_last l k :
  NoDup l → last l = Some k → removelast l = lru_remove k l.
Proof.
  intros Hnd Hl. apply last_Some in Hl as [l' ->].
  rewrite removelast_last. unfold lru_remove.
  apply NoDup_app in Hnd as (_ & Hd & _).
  rewrite filter_app, filter_cons_False, filter_nil, app_nil_r by (intros ?; done).
  symmetry. apply filter_all, Forall_forall. intros x Hx ->.
  apply (Hd k Hx). by apply list_elem_of_singleton.
Qed.

Lemma wf_in m k : wf m → k ∈ lruIndex m ↔ is_Some (entries m !! k).
Proof. intros (_ & _ & Hd & _). by rewrite <- Hd, elem_of_dom. Qed.

(** What removing one cached key does, whichever loop removes it. *)
Definition removes (k : string) (e : entry) (m m' : mem) : Prop :=
  entries m' = delete k (entries m) ∧
  curBytes m' = curBytes m - sizeBytes e ∧
  lruList m' = lru_remove k (lruList m) ∧
  lruIndex m' = lruIndex m ∖ {[k]}.

Lemma removes_wf k e m m' :
  wf m → entries m !! k = Some e → removes k e m m' → wf m' ∧ debt m' = debt m.
Proof.
  intros (Hnd & Hix & Hd & Hsz) Hk (He & Hc & Hl & Hi). split.
  - unfold wf. rewrite He, Hl, Hi. repeat split.
    + by apply NoDup_filter.
    + by rewrite lru_remove_set, Hix.
    + by rewrite dom_delete_L, Hd.
    + by apply map_Forall_delete.
  - unfold debt, total. rewrite He, Hc, (total_delete (entries m) k e) by done. lia.
Qed.

Lemma dropEntry_removes k e m :
  wf m → entries m !! k = Some e → removes k e m (dropEntry k e m).
Proof.
  intros Hwf Hk. unfold dropEntry.
  rewrite decide_True by (apply wf_in; [done|by eexists]). done.
Qed.

Lemma evictBack_removes k m :
  wf m → last (lruList m) = Some k →
  ∃ e, entries m !! k = Some e ∧ removes k e m (evictBack k m).
Proof.
  intros Hwf Hl. pose proof Hwf as (Hnd & Hix & Hd & _).
  assert (k ∈ lruIndex m) as Hin.
  { rewrite Hix, elem_of_list_to_set. by apply last_Some_elem_of. }
  apply wf_in in Hin as [e He]; [|done]. exists e. split; [done|].
  unfold evictBack, removes. rewrite He. simpl. by rewrite (lru_remove_last _ k).
Qed.

(** Removing several cached keys in sequence. *)
Inductive removed : mem → mem → Prop :=
| removed_refl m m' :
    entries m' = entries m → curBytes m' = curBytes m →
    lruList m' = lruList m → lruIndex m' = lruIndex m → removed m m'
| removed_step k e m m1 m2 :
    entries m !! k = Some e → removes k e m m1 → removed m1 m2 → removed m m2.

Lemma removed_wf m m' : removed m m' → wf m → wf m' ∧ debt m' = debt m.
Proof.
  induction 1 as [m m' He Hc Hl Hi|k e m m1 m2 Hk Hr _ IH]; intros Hwf.
  - unfold wf, debt, total in *. rewrite He, Hc, Hl, Hi. done.
  - destruct (removes_wf _ _ _ _ Hwf Hk Hr) as [Hwf1 Hd1].
    destruct (IH Hwf1). split; [done|lia].
Qed.

Lemma removed_sub m m' : removed m m' → entries m' ⊆ entries m.
Proof.
  induction 1 as [m m' He|k e m m1 m2 Hk Hr _ IH]; [by rewrite He|].
  destruct Hr as (He & _). rewrite He in IH.
  etrans; [exact IH|]. apply delete_subseteq.
Qed.

Lemma removed_lru m m' : removed m m' → sublist (lruList m') (lruList m).
Proof.
  induction 1 as [m m' _ _ Hl _|k e m m1 m2 Hk Hr _ IH]; [by rewrite Hl|].
  destruct Hr as (_ & _ & Hl & _). etrans; [exact IH|]. rewrite Hl. apply sublist_filter.
Qed.

Lemma removed_trans m1 m2 m3 : removed m1 m2 → removed m2 m3 → removed m1 m3.
Proof.
  induction 1 as [m m' He Hc Hl Hi|k e m m1 m2 Hk Hr _ IH]; intros H.
  - destruct H as [m2 m3 He' Hc' Hl' Hi'|k e m2 m3 m4 Hk Hr Hrest].
    + apply removed_refl; congruence.
    + destruct Hr as (R1 & R2 & R3 & R4).
      eapply removed_step; [by rewrite <- He| |exact Hrest].
      repeat split; congruence.
  - eapply removed_step; eauto.
Qed.

Lemma rangeDrop_removed p count order m :
  wf m → NoDup order.*1 → (∀ k e, (k, e) ∈ order → entries m !! k = Some e) →
  removed m (rangeDrop p count order m) ∧
  ∀ k, entries (rangeDrop p count order m) !! k =
    match entries m !! k with
    | Some e => if p k e && bool_decide ((k, e) ∈ order) then None else Some e
    | None => None
    end.
Proof.
  revert m. induction order as [|[k e] order IH]; intros m Hwf Hnd Hin; simpl.
  { split; [by apply removed_refl|]. intros k.
    destruct (entries m !! k) as [e|]; [|done]. by destruct (p k e). }
  apply NoDup_cons in Hnd as [Hnk Hnd].
  assert (entries m !! k = Some e) as Hk by (apply Hin; left).
  assert (∀ e', (k, e') ∉ order) as Hko.
  { intros e' He'. apply Hnk. apply list_elem_of_fmap. by exists (k, e'). }
  assert (∀ k' e', k ≠ k' → (k', e') ∈ order ↔ (k', e') ∈ (k, e) :: order) as Hskip
    by (intros k' e' Hne; rewrite elem_of_cons; split; [by right|];
        intros [[= <- _]|?]; [by destruct Hne|done]).
  destruct (p k e) eqn:Hp.
  - set (m1 := if count then countEviction (dropEntry k e m) else dropEntry k e m).
    assert (removes k e m m1) as Hr.
    { destruct (dropEntry_removes k e m Hwf Hk) as (R1 & R2 & R3 & R4).
      unfold m1. destruct count; done. }
    destruct (removes_wf _ _ _ _ Hwf Hk Hr) as [Hwf1 _].
    pose proof Hr as (R1 & _).
    destruct (IH m1) as [IH1 IH2]; [done|done| |].
    { intros k' e' Hin'. rewrite R1, lookup_delete_ne; [apply Hin; by right|].
      intros ->. by apply (Hko e'). }
    split; [by eapply removed_step|]. intros k'. rewrite IH2, R1.
    destruct (decide (k = k')) as [<-|Hne].
    + rewrite lookup_delete_eq, Hk, Hp, bool_decide_eq_true_2 by left. done.
    + rewrite lookup_delete_ne by done. destruct (entries m !! k') as [e'|]; [|done].
      by rewrite (bool_decide_ext _ _ (Hskip k' e' Hne)).
  - destruct (IH m) as [IH1 IH2]; [done|done|intros; apply Hin; by right|].
    split; [done|]. intros k'. rewrite IH2. destruct (entries m !! k') as [e'|] eqn:Hk'; [|done].
    destruct (decide (k = k')) as [<-|Hne].
    + assert (e' = e) as -> by congruence. by rewrite Hp.
    + by rewrite (bool_decide_ext _ _ (Hskip k' e' Hne)).
Qed.

(** The result of a range loop does not depend on the order of the visit. *)
Lemma rangeDrop_entries p count order m :
  wf m → order ≡ₚ map_to_list (entries m) →
  removed m (rangeDrop p count order m) ∧
  entries (rangeDrop p count order m) =
    filter (λ ke, p ke.1 ke.2 = false) (entries m).
Proof.
  intros Hwf Hperm.
  destruct (rangeDrop_removed p count order m Hwf) as [Hr Hl].
  { rewrite Hperm. apply NoDup_fst_map_to_list. }
  { intros k e Hin. rewrite Hperm in Hin. by apply elem_of_map_to_list. }
  split; [done|]. apply map_eq. intros k. rewrite Hl. symmetry.
  destruct (entries m !! k) as [e|] eqn:Hk; [|by apply map_lookup_filter_None; left].
  rewrite bool_decide_eq_true_2 by (rewrite Hperm; by apply elem_of_map_to_list).
  destruct (p k e) eqn:Hp; simpl.
  - apply map_lookup_filter_None. right. intros e' He'. simpl. congruence.
  - by apply map_lookup_filter_Some.
Qed.

Lemma evictLRU_removed fuel lim sz m :
  wf m → removed m (evictLRU fuel lim sz m).
Proof.
  revert m. induction fuel as [|fuel IH]; intros m Hwf; simpl; [by apply removed_refl|].
  destruct (overLimit lim sz m); [|by apply removed_refl].
  destruct (last (lruList m)) as [k|] eqn:Hl; [|by apply removed_refl].
  destruct (evictBack_removes k m Hwf Hl) as (e & He & Hr).
  eapply removed_step; [done..|]. apply IH. by eapply removes_wf.
Qed.

(** With the list length as fuel the loop runs to its exit condition. *)
Lemma evictLRU_done fuel lim sz m :
  wf m → (length (lruList m) ≤ fuel)%nat →
  overLimit lim sz (evictLRU fuel lim sz m) = false ∨
  lruList (evictLRU fuel lim sz m) = [].
Proof.
  revert m. induction fuel as [|fuel IH]; intros m Hwf Hf; simpl.
  { right. destruct (lruList m); [done|simpl in Hf; lia]. }
  destruct (overLimit lim sz m) eqn:Ho; [|by left].
  destruct (last (lruList m)) as [k|] eqn:Hl.
  - destruct (evictBack_removes k m Hwf Hl) as (e & He & Hr).
    apply IH; [by eapply removes_wf|].
    destruct Hr as (_ & _ & Hlru & _). rewrite Hlru.
    enough (length (lru_remove k (lruList m)) < length (lruList m))%nat by lia.
    unfold lru_remove. apply (length_filter_lt _ _ k); [by apply last_Some_elem_of|naive_solver].
  - right. by apply last_None.
Qed.

(** The back of the recency list goes first: what survives is a prefix. *)
Lemma evictLRU_prefix fuel lim sz m :
  wf m → lruList (evictLRU fuel lim sz m) `prefix_of` lruList m.
Proof.
  revert m. induction fuel as [|fuel IH]; intros m Hwf; simpl; [done|].
  destruct (overLimit lim sz m); [|done].
  destruct (last (lruList m)) as [k|] eqn:Hl; [|done].
  destruct (evictBack_removes k m Hwf Hl) as (e & He & Hr).
  etrans; [apply IH; by eapply removes_wf|].
  pose proof Hl as [l' Hl']%last_Some.
  unfold evictBack. rewrite He. simpl. rewrite Hl', removelast_last.
  by apply prefix_app_r.
Qed.

Lemma evictExpired_removed lim now sz m :
  wf m → removed m (evictExpired lim now sz m).
Proof.
  intros. unfold evictExpired. destruct (overLimit lim sz m); [|by apply removed_refl].
  by apply rangeDrop_entries.
Qed.

Lemma evictIfNeeded_removed lim now sz m :
  wf m → removed m (evictIfNeeded lim now sz m).
Proof.
  intros Hwf. pose proof (evictExpired_removed lim now sz m Hwf) as Hr.
  eapply removed_trans; [exact Hr|]. apply evictLRU_removed. by eapply removed_wf.
Qed.

Lemma evictIfNeeded_done lim now sz m :
  wf m →
  overLimit lim sz (evictIfNeeded lim now sz m) = false ∨
  lruList (evictIfNeeded lim now sz m) = [].
Proof.
  intros Hwf. apply evictLRU_done; [|done].
  by eapply removed_wf; [apply evictExpired_removed|].
Qed.

Lemma moveToFront_wf k m :
  wf m →
  wf (moveToFront k m) ∧ entries (moveToFront k m) = entries m ∧
  curBytes (moveToFront k m) = curBytes m.
Proof.
  intros Hwf. unfold moveToFront. case_decide as Hin; [|done].
  split; [|done]. destruct Hwf as (Hnd & Hix & Hd & Hsz).
  repeat split; simpl; try done.
  - constructor; [|by apply NoDup_filter]. rewrite lru_remove_elem. tauto.
  - rewrite lru_remove_set, Hix. rewrite Hix in Hin.
    apply set_eq. intros x. rewrite elem_of_union, elem_of_difference, elem_of_singleton.
    destruct (decide (x = k)) as [->|]; tauto.
Qed.

Lemma pushFront_wf k m :
  NoDup (lruList m) → lruIndex m = list_to_set (lruList m) →
  dom (entries m) = {[k]} ∪ lruIndex m →
  map_Forall (λ _ e, sizeBytes e = byte_len (value e)) (entries m) →
  wf (pushFront k m) ∧ entries (pushFront k m) = entries m ∧
  curBytes (pushFront k m) = curBytes m.
Proof.
  intros Hnd Hix Hd Hsz. unfold pushFront. case_decide as Hin.
  - split; [|done]. repeat split; try done. rewrite Hd.
    apply subseteq_union_1_L. by apply singleton_subseteq_l.
  - split; [|done]. repeat split; simpl; try done.
    + constructor; [|done]. by rewrite Hix, elem_of_list_to_set in Hin.
    + by rewrite Hix.
Qed.

Lemma beginStore_spec key m :
  wf m →
  wf (beginStore key m) ∧ entries (beginStore key m) = entries m ∧
  debt (beginStore key m) =
    debt m + match entries m !! key with Some old => sizeBytes old | None => 0 end.
Proof.
  intros Hwf. unfold beginStore. destruct (entries m !! key) as [old|] eqn:Hk.
  - set (m0 := mkMem (entries m) (curBytes m - sizeBytes old) (lruList m)
                 (lruIndex m) (hot m) (Evictions m) (l0Stats m)).
    destruct (moveToFront_wf key m0 Hwf) as (Hwf' & He & Hc).
    split; [done|]. split; [done|]. unfold debt, total. rewrite He, Hc. simpl. lia.
  - split; [done|]. split; [done|lia].
Qed.

(** Whether the replaced entry of [key] is itself evicted while room is made. *)
Definition self_evicted (lim : limits) (te size : Z) (key : string) (m : mem) : bool :=
  bool_decide (entries (evictIfNeeded lim te size (beginStore key m)) !! key = None).

Lemma store_spec lim te ts key val ttl m :
  wf m →
  let m' := storeLocalLocked lim te ts key val ttl (byte_len val) m in
  wf m' ∧
  entries m' !! key = Some (mkEntry val (ts + ttl) (byte_len val)) ∧
  (∀ k e, k ≠ key → entries m' !! k = Some e → entries m !! k = Some e) ∧
  debt m' = debt m +
    match entries m !! key with
    | Some old => if self_evicted lim te (byte_len val) key m then sizeBytes old else 0
    | None => 0
    end.
Proof.
  intros Hwf m'. subst m'. unfold storeLocalLocked, self_evicted.
  destruct (beginStore_spec key m Hwf) as (Hwf1 & He1 & Hd1).
  pose proof (evictIfNeeded_removed lim te (byte_len val) _ Hwf1) as Hr.
  destruct (removed_wf _ _ Hr Hwf1) as [Hwf2 Hd2].
  pose proof (removed_sub _ _ Hr) as Hsub. rewrite He1 in Hsub.
  set (m2 := evictIfNeeded lim te (byte_len val) (beginStore key m)) in *.
  destruct Hwf2 as (Hnd & Hix & Hdom & Hsz).
  set (m3 := mkMem (<[key := mkEntry val (ts + ttl) (byte_len val)]> (entries m2))
               (curBytes m2 + byte_len val) (lruList m2) (lruIndex m2) (hot m2)
               (Evictions m2) (l0Stats m2)).
  destruct (pushFront_wf key m3) as (Hwf3 & He3 & Hc3); simpl; try done.
  { by rewrite dom_insert_L, Hdom. }
  { by apply map_Forall_insert_2. }
  split; [done|]. split; [rewrite He3; apply lookup_insert_eq|]. split.
  - intros k e Hne. rewrite He3. simpl. rewrite lookup_insert_ne by done.
    intros Hk. by eapply lookup_weaken.
  - unfold debt, total. rewrite He3, Hc3. simpl. rewrite total_insert. simpl.
    unfold debt, total in Hd2, Hd1.
    destruct (entries m2 !! key) as [e2|] eqn:Hk2.
    + rewrite (lookup_weaken _ _ _ _ Hk2 Hsub) in *.
      rewrite bool_decide_eq_false_2 by done.
      rewrite (total_delete (entries m2) key e2) in Hd2 by done. lia.
    + rewrite bool_decide_eq_true_2 by done. rewrite delete_id by done.
      destruct (entries m !! key); lia.
Qed.

Lemma store_capacity lim te ts key val ttl m :
  wf m → 0 ≤ debt m → 1 ≤ maxEntries lim → byte_len val ≤ maxBytes lim →
  let m' := storeLocalLocked lim te ts key val ttl (byte_len val) m in
  num_entries m' ≤ maxEntries lim ∧ curBytes m' ≤ maxBytes lim.
Proof.
  intros Hwf Hdebt Hme Hmb m'. subst m'. unfold storeLocalLocked.
  destruct (beginStore_spec key m Hwf) as (Hwf1 & He1 & Hd1).
  pose proof (evictIfNeeded_removed lim te (byte_len val) _ Hwf1) as Hr.
  destruct (removed_wf _ _ Hr Hwf1) as [Hwf2 Hd2].
  pose proof (evictIfNeeded_done lim te (byte_len val) _ Hwf1) as Hdone.
  set (m2 := evictIfNeeded lim te (byte_len val) (beginStore key m)) in *.
  set (m3 := mkMem (<[key := mkEntry val (ts + ttl) (byte_len val)]> (entries m2))
               (curBytes m2 + byte_len val) (lruList m2) (lruIndex m2) (hot m2)
               (Evictions m2) (l0Stats m2)).
  assert (entries (pushFront key m3) = entries m3 ∧ curBytes (pushFront key m3) = curBytes m3)
    as [E1 E2] by (unfold pushFront; by case_decide).
  unfold num_entries. rewrite E1, E2. simpl.
  assert (size (<[key := mkEntry val (ts + ttl) (byte_len val)]> (entries m2)) ≤
          S (size (entries m2)))%nat as Hs.
  { rewrite map_size_insert. destruct (entries m2 !! key); simpl; lia. }
  destruct Hdone as [Hno|Hnil].
  - unfold overLimit, num_entries in Hno. apply orb_false_iff in Hno as [H1 H2].
    apply Z.leb_gt in H1. apply Z.ltb_ge in H2. lia.
  - destruct Hwf2 as (_ & Hix & Hdom & _). rewrite Hnil in Hix. simpl in Hix.
    rewrite Hix in Hdom. apply dom_empty_iff_L in Hdom.
    unfold debt, total in Hd2. rewrite Hdom in Hd2, Hs |- *. rewrite map_size_empty in Hs.
    rewrite map_fold_empty in Hd2.
    assert (0 ≤ debt (beginStore key m)).
    { rewrite Hd1. destruct (entries m !! key) as [old|] eqn:Hk; [|lia].
      destruct Hwf as (_ & _ & _ & Hsz). rewrite (Hsz _ _ Hk). unfold byte_len. lia. }
    unfold debt, total in *. lia.
Qed.

(** *** Every operation preserves the invariant *)

Lemma Invalidate_removed k m : wf m → removed m (Invalidate k m) ∧
  entries (Invalidate k m) = delete k (entries m).
Proof.
  intros Hwf. unfold Invalidate. destruct (entries m !! k) as [e|] eqn:Hk.
  - pose proof (dropEntry_removes k e m Hwf Hk) as Hr. split; [|apply Hr].
    eapply removed_step; [done|exact Hr|by apply removed_refl].
  - split; [by apply removed_refl|]. by rewrite delete_id.
Qed.

Lemma recordHot_mem lim now key m :
  entries (recordHotLocked lim now key m) = entries m ∧
  curBytes (recordHotLocked lim now key m) = curBytes m ∧
  lruList (recordHotLocked lim now key m) = lruList m ∧
  lruIndex (recordHotLocked lim now key m) = lruIndex m.
Proof.
  unfold recordHotLocked, pruneHotLocked.
  repeat match goal with |- context [if ?b then _ else _] => destruct b end; done.
Qed.

Lemma promote_spec lim now key m :
  wf m →
  wf (applyPromotion lim now key m) ∧
  entries (applyPromotion lim now key m) = entries m ∧
  debt (applyPromotion lim now key m) = debt m.
Proof.
  intros Hwf. destruct (moveToFront_wf key m Hwf) as (H1 & H2 & H3).
  unfold applyPromotion. destruct (hotOn lim).
  - destruct (recordHot_mem lim now key (moveToFront key m)) as (R1 & R2 & R3 & R4).
    unfold wf, debt, total in *. rewrite R1, R2, R3, R4, H2, H3 in *. done.
  - unfold debt, total. by rewrite H2, H3.
Qed.

(** The entries after one operation are all in the map the abstract cache
    keeps, and the byte debt never shrinks. *)
Lemma run_spec lim o m :
  wf m →
  wf (run lim o m) ∧
  debt m ≤ debt (run lim o m) ∧
  (∀ a, (∀ k e, entries m !! k = Some e → a !! k = Some (value e, expiresAt e)) →
        ∀ k e, entries (run lim o m) !! k = Some e →
               spec_run lim o a !! k = Some (value e, expiresAt e)).
Proof.
  intros Hwf. destruct o as [te ts key val ttl|key|pre|now|now key]; simpl.
  - unfold SetLocalOnlyWithTTL. zcase; [split; [done|]; split; [lia|]; auto|].
    destruct (store_spec lim te ts key val ttl m Hwf) as (H1 & H2 & H3 & H4).
    split; [done|]. split.
    + rewrite H4. destruct (entries m !! key) as [old|] eqn:Hk; [|lia].
      destruct Hwf as (_ & _ & _ & Hsz). rewrite (Hsz _ _ Hk).
      destruct (self_evicted _ _ _ _ _); unfold byte_len; lia.
    + intros a Ha k e Hk. destruct (decide (k = key)) as [->|Hne].
      * rewrite lookup_insert_eq. rewrite H2 in Hk. by simplify_eq.
      * rewrite lookup_insert_ne by done. eauto.
  - destruct (Invalidate_removed key m Hwf) as [Hr He].
    destruct (removed_wf _ _ Hr Hwf) as [H1 H2]. split; [done|]. split; [lia|].
    intros a Ha k e Hk. rewrite He in Hk.
    apply lookup_delete_Some in Hk as [Hne Hk]. rewrite lookup_delete_ne by done. auto.
  - destruct (rangeDrop_entries (λ k _, hasPrefix pre k) false _ m Hwf (reflexivity _)) as [Hr He].
    destruct (removed_wf _ _ Hr Hwf) as [H1 H2]. split; [done|]. split; [unfold InvalidatePrefix; lia|].
    intros a Ha k e Hk. unfold InvalidatePrefix in Hk. rewrite He in Hk.
    apply map_lookup_filter_Some in Hk as [Hk Hp]. apply map_lookup_filter_Some. auto.
  - destruct (rangeDrop_entries (λ _ e, expiresAt e <? now) false _ m Hwf (reflexivity _)) as [Hr He].
    destruct (removed_wf _ _ Hr Hwf) as [H1 H2]. split; [done|]. split; [unfold cleanup; lia|].
    intros a Ha k e Hk. unfold cleanup in Hk. rewrite He in Hk.
    apply map_lookup_filter_Some in Hk as [Hk Hp]. auto.
  - destruct (promote_spec lim now key m Hwf) as (H1 & H2 & H3).
    split; [done|]. split; [lia|]. intros a Ha k e. rewrite H2. auto.
Qed.

Lemma run_all_spec lim os m a :
  wf m →
  (∀ k e, entries m !! k = Some e → a !! k = Some (value e, expiresAt e)) →
  wf (run_all lim os m) ∧ debt m ≤ debt (run_all lim os m) ∧
  ∀ k e, entries (run_all lim os m) !! k = Some e →
    foldl (λ a o, spec_run lim o a) a os !! k = Some (value e, expiresAt e).
Proof.
  revert m a. induction os as [|o os IH]; intros m a Hwf Ha; simpl.
  { split; [done|]. split; [lia|done]. }
  destruct (run_spec lim o m Hwf) as (H1 & H2 & H3).
  destruct (IH (run lim o m) (spec_run lim o a) H1 (H3 a Ha)) as (I1 & I2 & I3).
  split; [done|]. split; [|done]. unfold run_all in *. simpl. lia.
Qed.

Lemma wf_empty : wf empty_mem.
Proof. repeat split; simpl; [constructor|apply map_Forall_empty]. Qed.

(** *** Capacity *)

Lemma removed_shrinks m m' :
  removed m m' → wf m → num_entries m' ≤ num_entries m ∧ curBytes m' ≤ curBytes m.
Proof.
  intros Hr Hwf. split.
  { unfold num_entries. pose proof (map_subseteq_size _ _ (removed_sub _ _ Hr)). lia. }
  induction Hr as [m m' He Hc Hl Hi|k e m m1 m2 Hk Hr _ IH]; [lia|].
  destruct (removes_wf _ _ _ _ Hwf Hk Hr) as [Hwf1 _]. specialize (IH Hwf1).
  destruct Hr as (_ & Hc & _). destruct Hwf as (_ & _ & _ & Hsz).
  specialize (Hsz _ _ Hk). simpl in Hsz. unfold byte_len in Hsz. lia.
Qed.

Lemma run_capacity lim o m :
  wf m → 0 ≤ debt m → 1 ≤ maxEntries lim → 0 ≤ maxBytes lim →
  num_entries m ≤ maxEntries lim → curBytes m ≤ maxBytes lim →
  num_entries (run lim o m) ≤ maxEntries lim ∧ curBytes (run lim o m) ≤ maxBytes lim.
Proof.
  intros Hwf Hd Hme Hmb Hn Hc.
  assert (∀ m', removed m m' →
    num_entries m' ≤ maxEntries lim ∧ curBytes m' ≤ maxBytes lim) as Hshr.
  { intros m' Hr. pose proof (removed_shrinks _ _ Hr Hwf). lia. }
  destruct o as [te ts key val ttl|key|pre|now|now key]; simpl.
  - unfold SetLocalOnlyWithTTL. zcase; [done|]. apply store_capacity; try done.
    pose proof (Z.quot_le_upper_bound (maxBytes lim) 10 (maxBytes lim)). lia.
  - apply Hshr. by apply Invalidate_removed.
  - apply Hshr. by apply rangeDrop_entries.
  - apply Hshr. by apply rangeDrop_entries.
  - destruct (promote_spec lim now key m Hwf) as (_ & H2 & H3).
    unfold num_entries, debt, total in *. rewrite H2 in *. lia.
Qed.

Lemma run_all_capacity lim os m :
  wf m → 0 ≤ debt m → 1 ≤ maxEntries lim → 0 ≤ maxBytes lim →
  num_entries m ≤ maxEntries lim → curBytes m ≤ maxBytes lim →
  num_entries (run_all lim os m) ≤ maxEntries lim ∧
  curBytes (run_all lim os m) ≤ maxBytes lim.
Proof.
  revert m. induction os as [|o os IH]; intros m Hwf Hd Hme Hmb Hn Hc; [done|].
  unfold run_all. simpl. destruct (run_spec lim o m Hwf) as (H1 & H2 & _).
  destruct (run_capacity lim o m Hwf Hd Hme Hmb Hn Hc). apply IH; lia || done.
Qed.

(** No store of the sequence evicts the very entry it replaces. *)
Fixpoint no_self_eviction (lim : limits) (os : list op) (m : mem) : Prop :=
  match os with
  | [] => True
  | o :: os =>
      match o with
      | OpStore te _ key val _ =>
          entries m !! key = None ∨ self_evicted lim te (byte_len val) key m = false
      | _ => True
      end ∧ no_self_eviction lim os (run lim o m)
  end.

Lemma run_debt_exact lim o m :
  wf m →
  match o with
  | OpStore te _ key val _ =>
      entries m !! key = None ∨ self_evicted lim te (byte_len val) key m = false
  | _ => True
  end →
  debt (run lim o m) = debt m.
Proof.
  intros Hwf Ho. destruct o as [te ts key val ttl|key|pre|now|now key]; simpl.
  - unfold SetLocalOnlyWithTTL. zcase; [done|].
    destruct (store_spec lim te ts key val ttl m Hwf) as (_ & _ & _ & ->).
    destruct Ho as [->|Hs]; [lia|]. destruct (entries m !! key); [rewrite Hs|]; lia.
  - eapply removed_wf; [by apply Invalidate_removed|done].
  - eapply removed_wf; [by apply rangeDrop_entries|done].
  - eapply removed_wf; [by apply rangeDrop_entries|done].
  - by apply promote_spec.
Qed.

(** ** Properties *)

(** After any sequence of stores, invalidations, expiry sweeps and LRU
    promotions on a new cache, the recency list enumerates exactly the cached
    keys without repetition, its index agrees with it, and every entry is
    charged its length. *)
Theorem cache_invariant lim os : wf (run_all lim os empty_mem).
Proof.
  apply (run_all_spec lim os empty_mem ∅); [apply wf_empty|].
  intros k e. by rewrite lookup_empty.
Qed.

(** C2 A hit is never stale and never foreign: whatever was evicted, swept or
    promoted in between, the value a lookup returns is the last one stored
    under the key and not invalidated since, the lookup happens before its
    expiry, and the reported lifetime is what is left of it. *)
Theorem cache_hit_is_last_write lim os now key v rem :
  lookupTTL now key (run_all lim os empty_mem) = Some (v, rem) →
  ∃ exp, spec_all lim os !! key = Some (v, exp) ∧ now < exp ∧ rem = time_sub exp now.
Proof.
  unfold lookupTTL. intros H.
  destruct (entries (run_all lim os empty_mem) !! key) as [e|] eqn:Hk; [|done].
  destruct (0 <? time_sub (expiresAt e) now) eqn:Ht; [|done].
  injection H as <- <-. apply Z.ltb_lt, (proj1 (time_sub_pos _ _)) in Ht.
  exists (expiresAt e). split; [|by split].
  destruct (run_all_spec lim os empty_mem ∅) as (_ & _ & H); [apply wf_empty| |by apply H].
  intros k e'. by rewrite lookup_empty.
Qed.

(** The entry count and the byte counter stay within the configured limits
    after every operation sequence. *)
Theorem cache_within_limits lim os :
  1 ≤ maxEntries lim → 0 ≤ maxBytes lim →
  num_entries (run_all lim os empty_mem) ≤ maxEntries lim ∧
  curBytes (run_all lim os empty_mem) ≤ maxBytes lim.
Proof.
  intros. apply run_all_capacity; try done; try apply wf_empty.
  change (num_entries empty_mem) with 0. lia.
Qed.

(** A store that is not oversized is readable until its expiry: whatever
    the cache had to evict for it, an immediately following lookup at any
    instant before [t_store + ttl] hits and returns the stored value. *)
Theorem store_then_lookup lim os te ts key val ttl now :
  byte_len val ≤ Z.quot (maxBytes lim) 10 → now < ts + ttl →
  lookupTTL now key
    (SetLocalOnlyWithTTL lim te ts key val ttl (run_all lim os empty_mem)) =
  Some (val, time_sub (ts + ttl) now).
Proof.
  intros Hsz Hnow. unfold SetLocalOnlyWithTTL, lookupTTL.
  rewrite (proj2 (Z.ltb_ge _ _)) by done.
  assert (wf (run_all lim os empty_mem)) as Hwf.
  { apply (run_all_spec lim os empty_mem ∅); [apply wf_empty|].
    intros k e. by rewrite lookup_empty. }
  destruct (store_spec lim te ts key val ttl _ Hwf) as (_ & -> & _). simpl.
  by rewrite (proj2 (Z.ltb_lt _ _)) by (by apply (proj2 (time_sub_pos _ _))).
Qed.

(** Eviction order: the second pass of [evictIfNeeded] removes least
    recently used keys first, so a surviving key implies that every key used
    more recently survives too. *)
Theorem eviction_is_lru lim sz m i j k k' :
  wf m →
  let m' := evictLRU (length (lruList m)) lim sz m in
  lruList m !! i = Some k → lruList m !! j = Some k' → (i ≤ j)%nat →
  is_Some (entries m' !! k') → is_Some (entries m' !! k).
Proof.
  intros Hwf m' Hi Hj Hij Hk'. subst m'.
  pose proof (evictLRU_removed (length (lruList m)) lim sz m Hwf) as Hr.
  destruct (removed_wf _ _ Hr Hwf) as [Hwf' _].
  pose proof (evictLRU_prefix (length (lruList m)) lim sz m Hwf) as [suf Hpre].
  set (m' := evictLRU (length (lruList m)) lim sz m) in *.
  assert (∀ x, is_Some (entries m' !! x) ↔ x ∈ lruList m') as Hin.
  { intros x. destruct Hwf' as (_ & Hix & Hd & _).
    by rewrite <- elem_of_dom, Hd, Hix, elem_of_list_to_set. }
  apply Hin. apply Hin in Hk'. apply list_elem_of_lookup in Hk' as [j' Hj'].
  pose proof Hwf as (Hnd & _).
  assert (j' = j) as ->.
  { eapply NoDup_lookup; [exact Hnd| |exact Hj]. rewrite Hpre. by apply lookup_app_l_Some. }
  apply lookup_lt_Some in Hj'. rewrite Hpre, lookup_app_l in Hi by lia.
  by eapply list_elem_of_lookup_2.
Qed.

(** The byte counter is exact, hence the bytes really held stay within
    [maxBytes], for every sequence in which no store evicts the very entry it
    is replacing. *)
Theorem bytes_exact_without_self_eviction lim os :
  1 ≤ maxEntries lim → 0 ≤ maxBytes lim → no_self_eviction lim os empty_mem →
  total (run_all lim os empty_mem) = curBytes (run_all lim os empty_mem) ∧
  total (run_all lim os empty_mem) ≤ maxBytes lim.
Proof.
  intros Hme Hmb Hno.
  assert (∀ m, wf m → no_self_eviction lim os m → debt (run_all lim os m) = debt m) as Hd.
  { clear Hno. induction os as [|o os IH]; intros m Hwf Hno; [done|].
    destruct Hno as [Ho Hno]. unfold run_all. simpl.
    rewrite <- (run_debt_exact lim o m) by done. apply IH; [by apply run_spec|done]. }
  specialize (Hd _ wf_empty Hno). change (debt empty_mem) with 0 in Hd.
  destruct (run_all_capacity lim os empty_mem) as [_ Hc];
    try done; try apply wf_empty; [change (num_entries empty_mem) with 0; lia|].
  unfold debt in Hd. lia.
Qed.

(** *** The byte counter can fall behind

    Twelve slots and one hundred bytes.  [k0] expires quickly; whenever it is
    stored again while the cache is full, the expired old entry is uncharged
    twice: once before making room and once by the expiry pass. *)

Definition drift_limits : limits := mkLimits 12 100 50000 false.

Definition key_of (i : nat) : string := String (Ascii.ascii_of_nat (97 + i)) "".

Definition drift_ops : list op :=
  OpStore 0 0 (key_of 0) "0123456789" 1
    :: map (λ i, OpStore 0 0 (key_of i) "01234567" 1000) (seq 1 11) ++
  map (λ t, OpStore t t (key_of 0) "0123456789" 1) [5; 10; 15; 20] ++
  concat (map (λ i, [OpStore 30 30 (key_of i) "0123456789" 1000;
                     OpStore 30 25 (key_of 0) "0123456789" 1]) (seq 1 11)).

(** The sequence [drift_ops] of ordinary stores, none of them oversized,
    leaves the cache holding more bytes than [maxBytes] while its counter says
    it is within budget: re-storing an expired key of a full cache subtracts
    the old size twice. *)
Theorem byte_budget_can_be_exceeded :
  maxBytes drift_limits < total (run_all drift_limits drift_ops empty_mem) ∧
  curBytes (run_all drift_limits drift_ops empty_mem) ≤ maxBytes drift_limits.
Proof. vm_compute. split; congruence. Qed.

(** Exactly how far: a store moves the counter away from the bytes really
    held by the size of the entry it replaces when that entry is evicted while
    room is made, and not at all otherwise. *)
Theorem store_debt lim te ts key val ttl m :
  wf m →
  debt (storeLocalLocked lim te ts key val ttl (byte_len val) m) =
  debt m +
    match entries m !! key with
    | Some old => if self_evicted lim te (byte_len val) key m then sizeBytes old else 0
    | None => 0
    end.
Proof. intros Hwf. by apply store_spec. Qed.

(** *** Hot-key index *)

#[export] Instance colder_total : Total colder.
Proof. intros a b. unfold colder. lia. Qed.

#[export] Instance colder_trans : Transitive colder.
Proof. intros a b c. unfold colder. lia. Qed.

(** Deleting the first keys of an enumeration leaves the map of the rest. *)
Lemma delete_prefix {V} (l : list (string * V)) n :
  NoDup l.*1 →
  foldl (λ h kv, delete kv.1 h) (list_to_map l : gmap string V) (take n l) =
  list_to_map (drop n l).
Proof.
  revert n. induction l as [|[k v] l IH]; intros n Hnd; [by destruct n|].
  apply NoDup_cons in Hnd as [Hk Hnd]. destruct n as [|n]; [done|].
  simpl. rewrite delete_insert_id by (by apply not_elem_of_list_to_map_1). by apply IH.
Qed.

Lemma prune_hot_eq d m :
  0 < d → ∃ cands : list (string * hotStat),
  NoDup cands.*1 ∧ StronglySorted colder cands ∧
  hot m = list_to_map cands ∧
  hot (pruneHotLocked d m) = list_to_map (drop (Z.to_nat d) cands).
Proof.
  intros Hd. exists (merge_sort colder (map_to_list (hot m))).
  assert (merge_sort colder (map_to_list (hot m)) ≡ₚ map_to_list (hot m)) as Hperm
    by apply merge_sort_Permutation.
  assert (NoDup (merge_sort colder (map_to_list (hot m))).*1) as Hnd
    by (rewrite Hperm; apply NoDup_fst_map_to_list).
  assert (hot m = list_to_map (merge_sort colder (map_to_list (hot m)))) as Hm.
  { rewrite <- (list_to_map_to_list (hot m)) at 1.
    apply list_to_map_proper; [apply NoDup_fst_map_to_list|by symmetry]. }
  split; [done|]. split; [by apply StronglySorted_merge_sort; apply _|]. split; [done|].
  unfold pruneHotLocked. rewrite (proj2 (Z.leb_gt d 0)) by done. simpl.
  destruct (Z.of_nat (size (hot m)) =? 0) eqn:Hz.
  - apply Z.eqb_eq in Hz. assert (hot m = ∅) as -> by (apply map_size_empty_inv; lia).
    rewrite map_to_list_empty. change (merge_sort colder []) with (@nil (string * hotStat)).
    by rewrite drop_nil.
  - simpl. rewrite Hm at 1. by apply delete_prefix.
Qed.

(** Trimming the hot index by [d] keeps every key that is strictly hotter
    than a dropped one, and drops exactly [d] keys, or all of them when there
    are fewer. *)
Theorem prune_drops_coldest d m :
  0 < d →
  (∀ k v k' v', hot m !! k = Some v → hot (pruneHotLocked d m) !! k = None →
     hot (pruneHotLocked d m) !! k' = Some v' → colder (k, v) (k', v')) ∧
  Z.of_nat (size (hot (pruneHotLocked d m))) = Z.max 0 (Z.of_nat (size (hot m)) - d).
Proof.
  intros Hd. destruct (prune_hot_eq d m Hd) as (l & Hnd & Hs & -> & ->).
  assert (NoDup (drop (Z.to_nat d) l).*1) as Hnd'.
  { rewrite <- (take_drop (Z.to_nat d) l), fmap_app in Hnd. by apply NoDup_app in Hnd as (_ & _ & ?). }
  split.
  - intros k v k' v' Hk Hn Hk'. apply elem_of_list_to_map in Hk, Hk'; [|done..].
    apply (sorted_take_drop colder (Z.to_nat d) l); [done| |done].
    rewrite <- (take_drop (Z.to_nat d) l), elem_of_app in Hk. destruct Hk as [Hk|Hk]; [done|].
    apply (elem_of_list_to_map (M := gmap string)) in Hk; [congruence|done].
  - rewrite !map_size_list_to_map by done. rewrite length_drop. lia.
Qed.

(** ** Witnesses *)

Definition small : limits := mkLimits 2 100 1 true.

Definition small_ops : list op :=
  [OpStore 0 0 "a" "xx" 10; OpStore 0 0 "b" "yyy" 10; OpPromote 1 "a"; OpPromote 1 "b";
   OpPromote 1 "a"; OpStore 2 2 "c" "z" 10].

Lemma cache_hit_is_last_write_witness :
  ∃ exp, spec_all small small_ops !! "a" = Some ("xx", exp) ∧ 3 < exp ∧ 7 = time_sub exp 3.
Proof.
  apply (cache_hit_is_last_write small small_ops 3 "a" "xx" 7). vm_compute. reflexivity.
Defined.

Lemma cache_within_limits_witness :
  num_entries (run_all small small_ops empty_mem) ≤ 2 ∧
  curBytes (run_all small small_ops empty_mem) ≤ 100.
Proof. apply (cache_within_limits small small_ops); vm_compute; congruence. Defined.

Lemma store_then_lookup_witness :
  lookupTTL 7 "a" (SetLocalOnlyWithTTL small 5 5 "a" "new" 10 (run_all small small_ops empty_mem)) =
  Some ("new", 8).
Proof.
  apply (store_then_lookup small small_ops 5 5 "a" "new" 10 7); vm_compute; congruence.
Defined.

Definition lru_demo : mem := run_all small [OpStore 0 0 "a" "xx" 10; OpStore 0 0 "b" "yyy" 10] empty_mem.

Lemma lru_demo_wf : wf lru_demo.
Proof. apply (run_all_spec small _ empty_mem ∅); [apply wf_empty|]. intros k e. by rewrite lookup_empty. Qed.

Lemma eviction_is_lru_witness :
  is_Some (entries (evictLRU (length (lruList lru_demo)) (mkLimits 5 100 1 true) 1 lru_demo) !! "b").
Proof.
  apply (eviction_is_lru (mkLimits 5 100 1 true) 1 lru_demo 0 1 "b" "a" lru_demo_wf);
    [reflexivity|reflexivity|lia|]. vm_compute. eexists. reflexivity.
Defined.

Lemma bytes_exact_without_self_eviction_witness :
  total (run_all small small_ops empty_mem) = curBytes (run_all small small_ops empty_mem) ∧
  total (run_all small small_ops empty_mem) ≤ 100.
Proof.
  apply (bytes_exact_without_self_eviction small small_ops);
    [vm_compute; congruence|vm_compute; congruence|].
  repeat split; left; reflexivity.
Defined.

Lemma store_debt_witness :
  debt (storeLocalLocked (mkLimits 2 100 1 true) 20 20 "a" "x" 10 1 lru_demo) = 2.
Proof.
  exact (store_debt (mkLimits 2 100 1 true) 20 20 "a" "x" 10 lru_demo lru_demo_wf).
Defined.

Definition hot_demo : mem :=
  set_hot (<["a" := mkHot 5 1 ""]> (<["b" := mkHot 2 9 ""]> ∅)) (mkTier 0 0 0 0) empty_mem.

Lemma prune_drops_coldest_witness :
  (∀ k v k' v', hot hot_demo !! k = Some v → hot (pruneHotLocked 1 hot_demo) !! k = None →
     hot (pruneHotLocked 1 hot_demo) !! k' = Some v' → colder (k, v) (k', v')) ∧
  Z.of_nat (size (hot (pruneHotLocked 1 hot_demo))) = 1.
Proof. apply (prune_drops_coldest 1 hot_demo). lia. Defined.

End L1.
