(* ===== verification/TieredCache.v ===== *)
(** * The lookup chain L1 memory, L2 disk, L3 peers
      (src/internal/cache/cache.go)

    What the cache needs from its lower tiers is stated by two classes: the
    operations ([L2Store], [L3Store]) and the one promise the chain relies on
    ([L2Laws]: a fresh disk hit has lifetime left).  [DiskCache.v] and
    [PeerCache.v] supply instances. *)

From S2P Require Import Prelude Cache.

#[local] Open Scope Z_scope.

(** ** Interfaces of the lower tiers *)

Class L2Store (D : Type) : Type := {
  l2_GetWithTTL : Z → string → D → option (string * Z) * D;
  l2_GetStaleWithTTL : Z → string → D → option (string * Z) * D;
  l2_Set : Z → string → string → Z → D → D;
  l2_Purge : D → D
}.

Class L2Laws (D : Type) `{L2Store D} : Prop := {
  l2_fresh now k d v ttl d' :
    l2_GetWithTTL now k d = (Some (v, ttl), d') → 0 < ttl
}.

Class L3Store (P : Type) : Type := {
  l3_Get : Z → string → P → option (string * Z) * P;
  l3_IsOwner : string → P → bool;
  l3_WriteThroughEnabled : P → bool;
  l3_SetWithTTL : Z → string → string → Z → P → P
}.

Module Tiered.
Import L1.

Section Tiers.
Context {D P : Type} `{L2Store D} `{L3Store P}.

(** ** Data *)

Record counters : Type := mkCounters {
  Hits : Z;
  Misses : Z;
  l1Stats : tierStats;
  l2Stats : tierStats;
  l3Stats : tierStats;
  backendFallthrough : Z
}.

Record Cache : Type := mkCache {
  defaultTTL : Z;
  disabled : bool;
  lim : limits;
  l1 : mem;
  promoteBuf : list string;
  stats : counters;
  l2 : option D;
  l3 : option P
}.

(** The clock readings of one call, in the order the code takes them. *)
Record reads : Type := mkReads {
  at_l1 : Z;
  at_l2 : Z;
  at_l3 : Z;
  at_evict : Z;
  at_store : Z;
  at_l2set : Z
}.

Definition promoteCap : nat := 512.

Definition with_l1 (m : mem) (c : Cache) : Cache :=
  mkCache (defaultTTL c) (disabled c) (lim c) m (promoteBuf c) (stats c) (l2 c) (l3 c).

Definition with_buf (b : list string) (c : Cache) : Cache :=
  mkCache (defaultTTL c) (disabled c) (lim c) (l1 c) b (stats c) (l2 c) (l3 c).

Definition with_stats (s : counters) (c : Cache) : Cache :=
  mkCache (defaultTTL c) (disabled c) (lim c) (l1 c) (promoteBuf c) s (l2 c) (l3 c).

Definition with_l2 (d : option D) (c : Cache) : Cache :=
  mkCache (defaultTTL c) (disabled c) (lim c) (l1 c) (promoteBuf c) (stats c) d (l3 c).

Definition with_l3 (p : option P) (c : Cache) : Cache :=
  mkCache (defaultTTL c) (disabled c) (lim c) (l1 c) (promoteBuf c) (stats c) (l2 c) p.

(** ** Counters *)

Definition bump_hits (s : counters) : counters :=
  mkCounters (Hits s + 1) (Misses s) (l1Stats s) (l2Stats s) (l3Stats s) (backendFallthrough s).

Definition bump_misses (s : counters) : counters :=
  mkCounters (Hits s) (Misses s + 1) (l1Stats s) (l2Stats s) (l3Stats s) (backendFallthrough s).

Definition bump_fallthrough (s : counters) : counters :=
  mkCounters (Hits s) (Misses s) (l1Stats s) (l2Stats s) (l3Stats s) (backendFallthrough s + 1).

Inductive tier : Type := TL1 | TL2 | TL3.

Definition tier_name (t : tier) : string :=
  match t with
  | TL1 => "l1_memory"
  | TL2 => "l2_disk"
  | TL3 => "l3_peer"
  end.

Definition on_tier (t : tier) (f : tierStats → tierStats) (s : counters) : counters :=
  match t with
  | TL1 => mkCounters (Hits s) (Misses s) (f (l1Stats s)) (l2Stats s) (l3Stats s) (backendFallthrough s)
  | TL2 => mkCounters (Hits s) (Misses s) (l1Stats s) (f (l2Stats s)) (l3Stats s) (backendFallthrough s)
  | TL3 => mkCounters (Hits s) (Misses s) (l1Stats s) (l2Stats s) (f (l3Stats s)) (backendFallthrough s)
  end.

Definition recordTierRequest (t : tier) : counters → counters :=
  on_tier t (λ x, mkTier (requests x + 1) (hits x) (misses x) (staleHits x)).

Definition recordTierHit (t : tier) : counters → counters :=
  on_tier t (λ x, mkTier (requests x) (hits x + 1) (misses x) (staleHits x)).

Definition recordTierMiss (t : tier) : counters → counters :=
  on_tier t (λ x, mkTier (requests x) (hits x) (misses x + 1) (staleHits x)).

Definition recordTierStaleHit (t : tier) : counters → counters :=
  on_tier t (λ x, mkTier (requests x) (hits x) (misses x) (staleHits x + 1)).

Definition count (f : counters → counters) (c : Cache) : Cache :=
  with_stats (f (stats c)) c.

(** ** Operations *)

Definition MaxEntrySizeBytes (c : Cache) : Z :=
  if disabled c || (maxBytes (lim c) <=? 0) then 0 else Z.quot (maxBytes (lim c)) 10.

(** [select { case c.promoteBuf <- key: default: }]. *)
Definition enqueuePromotion (key : string) (c : Cache) : Cache :=
  if (length (promoteBuf c) <? promoteCap)%nat
  then with_buf (promoteBuf c ++ [key]) c else c.

(** The promoter goroutine takes one key off the buffer and applies it. *)
Definition runPromoter (now : Z) (c : Cache) : Cache :=
  match promoteBuf c with
  | [] => c
  | key :: rest => with_buf rest (with_l1 (applyPromotion (lim c) now key (l1 c)) c)
  end.

Definition getL1WithTTL (now : Z) (key : string) (c : Cache) : option (string * Z) * Cache :=
  match lookupTTL now key (l1 c) with
  | Some r => (Some r, enqueuePromotion key c)
  | None => (None, c)
  end.

Definition GetWithTTL (now : Z) (key : string) (c : Cache) : option (string * Z) * Cache :=
  if disabled c then (None, c)
  else match lookupTTL now key (l1 c) with
       | Some r => (Some r, enqueuePromotion key (count bump_hits c))
       | None => (None, c)
       end.

Definition SetLocalOnly (r : reads) (key val : string) (ttl : Z) (c : Cache) : Cache :=
  if disabled c then c
  else with_l1 (SetLocalOnlyWithTTL (lim c) (at_evict r) (at_store r) key val ttl (l1 c)) c.

Definition nonOwnerShadowMaxTTL : Z := 30 * Second.

(** The lifetime used for a copy of a peer's value. *)
Definition shadowTTL (remaining : Z) : Z :=
  if remaining <=? 0 then 30 * Second else remaining.

Definition GetShared_l3 (r : reads) (key : string) (c : Cache)
    : option (string * Z * tier) * Cache :=
  let miss c := (None, count (λ s, bump_misses (bump_fallthrough s)) c) in
  match l3 c with
  | None => miss c
  | Some p =>
      let c := count (recordTierRequest TL3) c in
      let '(res, p') := l3_Get (at_l3 r) key p in
      let c := with_l3 (Some p') c in
      match res with
      | Some (v, remaining) =>
          let ttl := shadowTTL remaining in
          (Some (v, ttl, TL3),
           count (λ s, bump_hits (recordTierHit TL3 s)) (SetLocalOnly r key v ttl c))
      | None => miss (count (recordTierMiss TL3) c)
      end
  end.

Definition GetSharedWithTTL (r : reads) (key : string) (c : Cache)
    : option (string * Z * tier) * Cache :=
  if disabled c then (None, c)
  else
    match getL1WithTTL (at_l1 r) key c with
    | (Some (v, ttl), c) =>
        (Some (v, ttl, TL1),
         count (λ s, bump_hits (recordTierHit TL1 (recordTierRequest TL1 s))) c)
    | (None, c) =>
        let c := count (λ s, recordTierMiss TL1 (recordTierRequest TL1 s)) c in
        match l2 c with
        | None => GetShared_l3 r key c
        | Some d =>
            let c := count (recordTierRequest TL2) c in
            let '(res, d') := l2_GetWithTTL (at_l2 r) key d in
            let c := with_l2 (Some d') c in
            match res with
            | Some (v, ttl) =>
                (Some (v, ttl, TL2),
                 count (λ s, bump_hits (recordTierHit TL2 s)) (SetLocalOnly r key v ttl c))
            | None => GetShared_l3 r key (count (recordTierMiss TL2) c)
            end
        end
    end.

Definition GetStale (now : Z) (key : string) (c : Cache) : option (string * Z) :=
  if disabled c then None else GetStaleWithTTL now key (l1 c).

(** [usable = None] is Go's nil predicate. *)
Definition accepts (usable : option (string → bool)) (v : string) : bool :=
  match usable with
  | None => true
  | Some f => f v
  end.

Definition GetRecoverableStaleWithTTLMatching (r : reads) (key : string)
    (usable : option (string → bool)) (c : Cache) : option (string * Z * tier) * Cache :=
  let disk c :=
    match l2 c with
    | None => (None, c)
    | Some d =>
        let '(res, d') := l2_GetStaleWithTTL (at_l2 r) key d in
        let c := with_l2 (Some d') c in
        match res with
        | Some (v, ttl) =>
            if accepts usable v
            then (Some (v, ttl, TL2), count (recordTierStaleHit TL2) c)
            else (None, c)
        | None => (None, c)
        end
    end in
  if disabled c then (None, c)
  else match GetStale (at_l1 r) key c with
       | Some (v, ttl) =>
           if accepts usable v
           then (Some (v, ttl, TL1), count (recordTierStaleHit TL1) c)
           else disk c
       | None => disk c
       end.

Definition skipL2WriteForKey (key : string) : bool := hasPrefix "patterns:" key.

Definition writeL2 (r : reads) (key val : string) (ttl : Z) (c : Cache) : Cache :=
  match l2 c with
  | Some d => with_l2 (Some (l2_Set (at_l2set r) key val ttl d)) c
  | None => c
  end.

Definition storeL1 (r : reads) (key val : string) (ttl : Z) (c : Cache) : Cache :=
  with_l1 (storeLocalLocked (lim c) (at_evict r) (at_store r) key val ttl (byte_len val) (l1 c)) c.

Definition SetLocalAndDiskWithTTL (r : reads) (key val : string) (ttl : Z) (c : Cache) : Cache :=
  if disabled c then c
  else if Z.quot (maxBytes (lim c)) 10 <? byte_len val then c
  else
    let c := storeL1 r key val ttl c in
    if skipL2WriteForKey key then c else writeL2 r key val ttl c.

Definition setWithTTL (r : reads) (key val : string) (ttl : Z) (propagateL3 : bool)
    (c : Cache) : Cache :=
  if Z.quot (maxBytes (lim c)) 10 <? byte_len val then c
  else
    let ownerLocal := match l3 c with Some p => l3_IsOwner key p | None => true end in
    let writeThrough := match l3 c with Some p => l3_WriteThroughEnabled p | None => false end in
    let ttl := if writeThrough && negb ownerLocal && (nonOwnerShadowMaxTTL <? ttl)
               then nonOwnerShadowMaxTTL else ttl in
    let c := storeL1 r key val ttl c in
    let shouldWriteL2 := negb (skipL2WriteForKey key) && negb (writeThrough && negb ownerLocal) in
    let c := if shouldWriteL2 then writeL2 r key val ttl c else c in
    if propagateL3 then
      match l3 c with
      | Some p => with_l3 (Some (l3_SetWithTTL (at_l3 r) key val ttl p)) c
      | None => c
      end
    else c.

Definition SetWithTTL (r : reads) (key val : string) (ttl : Z) (c : Cache) : Cache :=
  if disabled c then c else setWithTTL r key val ttl true c.

Definition SetShadowWithTTL (r : reads) (key val : string) (ttl : Z) (c : Cache) : Cache :=
  if disabled c then c else setWithTTL r key val ttl false c.

Definition Set_ (r : reads) (key val : string) (c : Cache) : Cache :=
  if disabled c then c else SetWithTTL r key val (defaultTTL c) c.

Definition Get_l3 (r : reads) (key : string) (c : Cache) : option string * Cache :=
  match l3 c with
  | None => (None, count bump_misses c)
  | Some p =>
      let '(res, p') := l3_Get (at_l3 r) key p in
      let c := with_l3 (Some p') c in
      match res with
      | Some (v, remaining) =>
          (Some v, count bump_hits (SetWithTTL r key v (shadowTTL remaining) c))
      | None => (None, count bump_misses c)
      end
  end.

Definition Get (r : reads) (key : string) (c : Cache) : option string * Cache :=
  if disabled c then (None, c)
  else
    match lookupFresh (at_l1 r) key (l1 c) with
    | Some v => (Some v, enqueuePromotion key (count bump_hits c))
    | None =>
        match l2 c with
        | None => Get_l3 r key c
        | Some d =>
            let '(res, d') := l2_GetWithTTL (at_l2 r) key d in
            let c := with_l2 (Some d') c in
            match res with
            | Some (v, _) => (Some v, count bump_hits (Set_ r key v c))
            | None => Get_l3 r key c
            end
        end
    end.

Definition PurgeAll (c : Cache) : Cache :=
  let c := with_l1 (InvalidatePrefix "" (l1 c)) c in
  match l2 c with
  | Some d => with_l2 (Some (l2_Purge d)) c
  | None => c
  end.

Definition newStats : counters :=
  mkCounters 0 0 (mkTier 0 0 0 0) (mkTier 0 0 0 0) (mkTier 0 0 0 0) 0.

(** [NewWithMaxBytes] followed by [SetL2]/[SetL3]. *)
Definition NewWithMaxBytes (ttl maxE maxB : Z) (hotEnabled : bool)
    (d : option D) (p : option P) : Cache :=
  mkCache ttl false (mkLimits maxE maxB 50000 hotEnabled) empty_mem [] newStats d p.

(** ** Lemmas *)

(** Every counted lookup of a tier is a hit or a miss. *)
Definition balanced (s : counters) : Prop :=
  requests (l1Stats s) = hits (l1Stats s) + misses (l1Stats s) ∧
  requests (l2Stats s) = hits (l2Stats s) + misses (l2Stats s) ∧
  requests (l3Stats s) = hits (l3Stats s) + misses (l3Stats s).

Definition lookups (s : counters) : Z := Hits s + Misses s.

Lemma stats_SetLocalOnly r k v ttl c : stats (SetLocalOnly r k v ttl c) = stats c.
Proof. unfold SetLocalOnly. by destruct (disabled c). Qed.

Lemma SetLocalOnly_entry r k v ttl c :
  disabled c = false → wf (l1 c) → byte_len v ≤ Z.quot (maxBytes (lim c)) 10 →
  entries (l1 (SetLocalOnly r k v ttl c)) !! k =
    Some (mkEntry v (at_store r + ttl) (byte_len v)).
Proof.
  intros Hd Hwf Hs. unfold SetLocalOnly, SetLocalOnlyWithTTL. rewrite Hd. simpl.
  rewrite (proj2 (Z.ltb_ge _ _)) by done. by apply store_spec.
Qed.

Lemma SetLocalOnly_wf r k v ttl c : wf (l1 c) → wf (l1 (SetLocalOnly r k v ttl c)).
Proof.
  intros. unfold SetLocalOnly, SetLocalOnlyWithTTL. destruct (disabled c); simpl; [done|].
  zcase; [done|by apply store_spec].
Qed.

Lemma setWithTTL_l1 r k v ttl b c :
  l1 (setWithTTL r k v ttl b c) = l1 c ∨
  ∃ ttl', ttl' ≤ ttl ∧
  l1 (setWithTTL r k v ttl b c) =
    storeLocalLocked (lim c) (at_evict r) (at_store r) k v ttl' (byte_len v) (l1 c).
Proof.
  unfold setWithTTL. destruct (_ <? byte_len v); [by left|]. right.
  set (wt := match l3 c with Some p => l3_WriteThroughEnabled p | None => false end).
  set (ow := match l3 c with Some p => l3_IsOwner k p | None => true end).
  exists (if wt && negb ow && (nonOwnerShadowMaxTTL <? ttl)
          then nonOwnerShadowMaxTTL else ttl). split.
  - destruct (wt && negb ow); simpl; [zcase; lia|lia].
  - destruct (negb (skipL2WriteForKey k) && negb (wt && negb ow)), b;
      unfold writeL2; simpl; repeat (case_match; simpl); done.
Qed.

Ltac tier_counters :=
  unfold balanced, lookups, count, bump_hits, bump_misses, bump_fallthrough,
    recordTierRequest, recordTierHit, recordTierMiss in *;
  simpl in *; try rewrite !stats_SetLocalOnly; simpl; try lia.

(** ** Properties *)

(** A disabled cache is inert: every lookup misses, every store is dropped
    and nothing changes. *)
Theorem disabled_is_inert r k v ttl now usable c :
  disabled c = true →
  GetWithTTL now k c = (None, c) ∧ GetSharedWithTTL r k c = (None, c) ∧
  Get r k c = (None, c) ∧ GetRecoverableStaleWithTTLMatching r k usable c = (None, c) ∧
  Set_ r k v c = c ∧ SetWithTTL r k v ttl c = c ∧ SetShadowWithTTL r k v ttl c = c ∧
  SetLocalOnly r k v ttl c = c ∧ SetLocalAndDiskWithTTL r k v ttl c = c ∧
  MaxEntrySizeBytes c = 0.
Proof.
  intros Hd. unfold GetWithTTL, GetSharedWithTTL, Get, GetRecoverableStaleWithTTLMatching,
    Set_, SetWithTTL, SetShadowWithTTL, SetLocalOnly, SetLocalAndDiskWithTTL, MaxEntrySizeBytes.
  by rewrite Hd.
Qed.

(** The full-stack lookup never reports a non-positive lifetime, so it never
    serves an expired value, from whichever tier the value comes. *)
Theorem shared_hit_is_fresh `{!L2Laws D} r k c v ttl t c' :
  GetSharedWithTTL r k c = (Some (v, ttl, t), c') → 0 < ttl.
Proof.
  unfold GetSharedWithTTL, getL1WithTTL, lookupTTL, GetShared_l3. intros H1.
  destruct (disabled c); [done|].
  destruct (entries (l1 c) !! k) as [e|] eqn:He;
    [destruct (0 <? time_sub (expiresAt e) (at_l1 r)) eqn:Ht|].
  1: by simplify_eq; apply Z.ltb_lt.
  all: simpl in H1; destruct (l2 c) as [d|];
    [destruct (l2_GetWithTTL (at_l2 r) k d) as [[[v2 ttl2]|] d'] eqn:Hl2;
       [simplify_eq; by eapply l2_fresh|]|];
    simpl in H1; destruct (l3 c) as [p|]; simpl in H1; try done;
    destruct (l3_Get (at_l3 r) k p) as [[[v3 ttl3]|] p']; simplify_eq;
    unfold shadowTTL, Second; zcase; lia.
Qed.

(** Counting: each full-stack lookup of an enabled cache adds exactly one to
    hits plus misses, adds one to the backend fall-through counter exactly when
    it misses, and keeps requests = hits + misses on every tier. *)
Theorem shared_get_counts r k c res c' :
  disabled c = false → balanced (stats c) →
  GetSharedWithTTL r k c = (res, c') →
  balanced (stats c') ∧
  lookups (stats c') = lookups (stats c) + 1 ∧
  backendFallthrough (stats c') =
    backendFallthrough (stats c) + match res with None => 1 | Some _ => 0 end.
Proof.
  intros Hd Hb. unfold GetSharedWithTTL, getL1WithTTL, GetShared_l3. rewrite Hd.
  destruct (lookupTTL (at_l1 r) k (l1 c)) as [[v ttl]|].
  { intros [= <- <-]. unfold enqueuePromotion. destruct (_ <? promoteCap)%nat; tier_counters. }
  simpl. destruct (l2 c) as [d|];
    [destruct (l2_GetWithTTL (at_l2 r) k d) as [[[v ttl]|] d'];
       [intros [= <- <-]; tier_counters|]|];
    simpl; destruct (l3 c) as [p|]; simpl;
    try (destruct (l3_Get (at_l3 r) k p) as [[[v ttl]|] p']);
    intros [= <- <-]; tier_counters.
Qed.

(** Promotion without extension: when memory misses and disk hits, the
    lookup answers with the disk copy's remaining lifetime, leaves the peers
    alone, and the memory copy it creates expires exactly that much later. *)
Theorem shared_disk_hit_promotes r k c d v ttl d' :
  disabled c = false → wf (l1 c) → l2 c = Some d →
  lookupTTL (at_l1 r) k (l1 c) = None →
  l2_GetWithTTL (at_l2 r) k d = (Some (v, ttl), d') →
  byte_len v ≤ Z.quot (maxBytes (lim c)) 10 →
  ∃ c', GetSharedWithTTL r k c = (Some (v, ttl, TL2), c') ∧
    l3 c' = l3 c ∧ l2 c' = Some d' ∧ wf (l1 c') ∧
    entries (l1 c') !! k = Some (mkEntry v (at_store r + ttl) (byte_len v)).
Proof.
  intros Hd Hwf Hl2 Hmiss Hget Hsz. unfold GetSharedWithTTL, getL1WithTTL.
  rewrite Hd, Hmiss. simpl. rewrite Hl2, Hget. eexists. split; [reflexivity|].
  set (c0 := with_l2 (Some d') (count (recordTierRequest TL2)
              (count (λ s, recordTierMiss TL1 (recordTierRequest TL1 s)) c))).
  assert (l3 (SetLocalOnly r k v ttl c0) = l3 c ∧ l2 (SetLocalOnly r k v ttl c0) = Some d')
    as [E1 E2] by (unfold SetLocalOnly; simpl; by rewrite Hd).
  simpl. split; [done|]. split; [done|]. split.
  - by apply SetLocalOnly_wf.
  - by apply SetLocalOnly_entry.
Qed.

(** A non-owner replica with write-through enabled keeps its own copy for at
    most [nonOwnerShadowMaxTTL] and does not write it to disk. *)
Theorem non_owner_keeps_short_shadow r k v ttl b c p :
  wf (l1 c) → l3 c = Some p → l3_WriteThroughEnabled p = true → l3_IsOwner k p = false →
  byte_len v ≤ Z.quot (maxBytes (lim c)) 10 →
  let c' := setWithTTL r k v ttl b c in
  l2 c' = l2 c ∧
  entries (l1 c') !! k =
    Some (mkEntry v (at_store r + Z.min ttl nonOwnerShadowMaxTTL) (byte_len v)).
Proof.
  intros Hwf Hp Hwt How Hsz c'. subst c'. unfold setWithTTL.
  rewrite (proj2 (Z.ltb_ge _ _)), Hp, Hwt, How by done. simpl. rewrite andb_false_r.
  assert ((if nonOwnerShadowMaxTTL <? ttl then nonOwnerShadowMaxTTL else ttl) =
          Z.min ttl nonOwnerShadowMaxTTL) as -> by (zcase; lia).
  destruct b; simpl; rewrite ?Hp; simpl; split; try done; by apply store_spec.
Qed.

(** What the owner peer is sent: a write of a non-owner replica reaches the
    owner with the lifetime already cut to [nonOwnerShadowMaxTTL], not with
    the lifetime the caller asked for. *)
Theorem owner_receives_clamped_ttl r k v ttl c p :
  l3 c = Some p → disabled c = false →
  l3_WriteThroughEnabled p = true → l3_IsOwner k p = false →
  byte_len v ≤ Z.quot (maxBytes (lim c)) 10 → nonOwnerShadowMaxTTL < ttl →
  l3 (SetWithTTL r k v ttl c) =
    Some (l3_SetWithTTL (at_l3 r) k v nonOwnerShadowMaxTTL p).
Proof.
  intros Hp Hd Hwt How Hsz Httl. unfold SetWithTTL, setWithTTL.
  rewrite Hd, (proj2 (Z.ltb_ge _ _)), Hp, Hwt, How by done. simpl. rewrite andb_false_r.
  rewrite (proj2 (Z.ltb_lt _ _)) by done. simpl. by rewrite Hp.
Qed.

(** [Get] restarts the lifetime of a disk hit: the memory copy it creates
    lives for the default TTL from now on, however little the disk copy had
    left. *)
Theorem get_disk_hit_restarts_ttl r k c d v ttl d' :
  disabled c = false → wf (l1 c) → l2 c = Some d → l3 c = None →
  lookupFresh (at_l1 r) k (l1 c) = None →
  l2_GetWithTTL (at_l2 r) k d = (Some (v, ttl), d') →
  byte_len v ≤ Z.quot (maxBytes (lim c)) 10 →
  ∃ c', Get r k c = (Some v, c') ∧
    entries (l1 c') !! k = Some (mkEntry v (at_store r + defaultTTL c) (byte_len v)).
Proof.
  intros Hd Hwf Hl2 Hl3 Hmiss Hget Hsz. unfold Get. rewrite Hd, Hmiss, Hl2, Hget.
  eexists. split; [reflexivity|]. unfold Set_, SetWithTTL, setWithTTL. simpl.
  rewrite Hd, Hl3, (proj2 (Z.ltb_ge _ _)) by done. simpl.
  rewrite andb_true_r. destruct (negb (skipL2WriteForKey k)); simpl; rewrite ?Hl3;
    by apply store_spec.
Qed.

(** Degraded reads: a memory value the caller rejects does not shadow a disk
    value it accepts, and neither path consults the peers. *)
Theorem stale_fallback_reaches_disk r k f c d v ttl d' :
  disabled c = false → l2 c = Some d →
  (∀ m, GetStaleWithTTL (at_l1 r) k (l1 c) = Some m → f m.1 = false) →
  l2_GetStaleWithTTL (at_l2 r) k d = (Some (v, ttl), d') → f v = true →
  ∃ c', GetRecoverableStaleWithTTLMatching r k (Some f) c = (Some (v, ttl, TL2), c') ∧
    l3 c' = l3 c ∧ l1 c' = l1 c.
Proof.
  intros Hd Hl2 Hrej Hget Hf. unfold GetRecoverableStaleWithTTLMatching, GetStale.
  rewrite Hd, Hl2, Hget. simpl. rewrite Hf.
  destruct (GetStaleWithTTL (at_l1 r) k (l1 c)) as [[v1 ttl1]|] eqn:Hg.
  - specialize (Hrej _ eq_refl). simpl in Hrej. rewrite Hrej. by eexists.
  - by eexists.
Qed.

(** No operation of the tiered cache breaks the in-memory invariant. *)
Theorem tier_operations_preserve_wf r k v ttl c :
  wf (l1 c) →
  wf (l1 (snd (GetSharedWithTTL r k c))) ∧ wf (l1 (snd (Get r k c))) ∧
  wf (l1 (SetWithTTL r k v ttl c)) ∧ wf (l1 (SetShadowWithTTL r k v ttl c)) ∧
  wf (l1 (SetLocalAndDiskWithTTL r k v ttl c)) ∧ wf (l1 (PurgeAll c)) ∧
  wf (l1 (runPromoter (at_l1 r) c)).
Proof.
  intros Hwf.
  assert (∀ v ttl b c, wf (l1 c) → wf (l1 (setWithTTL r k v ttl b c))) as Hset.
  { intros v0 ttl0 b c0 Hc0. destruct (setWithTTL_l1 r k v0 ttl0 b c0) as [->|(? & _ & ->)];
      [done|by apply store_spec]. }
  assert (∀ c, l1 (enqueuePromotion k c) = l1 c) as Henq
    by (intros; unfold enqueuePromotion; by destruct (_ <? promoteCap)%nat).
  split_and!.
  - unfold GetSharedWithTTL, getL1WithTTL, GetShared_l3.
    repeat (case_match; simplify_eq; simpl in *);
      rewrite ?Henq; try done; by apply SetLocalOnly_wf.
  - unfold Get, Get_l3, Set_, SetWithTTL.
    repeat (case_match; simplify_eq; simpl in *); rewrite ?Henq; try done; by apply Hset.
  - unfold SetWithTTL. case_match; auto.
  - unfold SetShadowWithTTL. case_match; auto.
  - unfold SetLocalAndDiskWithTTL, writeL2. repeat (case_match; simpl); try done; by apply store_spec.
  - unfold PurgeAll. case_match; simpl; by apply (run_spec (lim c) (OpInvalidatePrefix "")).
  - unfold runPromoter. case_match; [done|]. simpl. by apply promote_spec.
Qed.

End Tiers.
End Tiered.

(** ** Witnesses

    A disk tier that is a plain map with expiry times and a peer tier that
    records what is pushed to it. *)

Module TierDemo.
Import L1 Tiered.

Definition disk : Type := gmap string (string * Z).

Definition disk_get (allowStale : bool) (now : Z) (k : string) (d : disk)
    : option (string * Z) * disk :=
  match d !! k with
  | Some (v, exp) =>
      if (0 <? exp - now) || allowStale then (Some (v, exp - now), d) else (None, d)
  | None => (None, d)
  end.

#[export] Instance disk_store : L2Store disk := {|
  l2_GetWithTTL := disk_get false;
  l2_GetStaleWithTTL := disk_get true;
  l2_Set now k v ttl d := <[k := (v, now + ttl)]> d;
  l2_Purge _ := ∅
|}.

#[export] Instance disk_laws : L2Laws disk.
Proof.
  constructor. intros now k d v ttl d'. simpl. unfold disk_get.
  destruct (d !! k) as [[v0 exp]|]; [|done]. rewrite orb_false_r.
  destruct (0 <? exp - now) eqn:E; [|done]. intros [= <- <- <-]. by apply Z.ltb_lt.
Qed.

(** Pushed values with their lifetimes; every key belongs to another replica. *)
Definition fleet : Type := list (string * Z).

#[export] Instance fleet_store : L3Store fleet := {|
  l3_Get _ _ p := (None, p);
  l3_IsOwner _ _ := false;
  l3_WriteThroughEnabled _ := true;
  l3_SetWithTTL _ k _ ttl p := p ++ [(k, ttl)]
|}.

Definition t : reads := mkReads 10 10 10 10 10 10.
Definition on_disk : disk := {[ "k" := ("v", 15) ]}.
Definition with_disk : @Cache disk fleet := NewWithMaxBytes (60 * Second) 10 1000 false (Some on_disk) None.
Definition with_fleet : @Cache disk fleet := NewWithMaxBytes 60 10 1000 false (Some ∅) (Some []).
Definition off : @Cache disk fleet :=
  mkCache 60 true (mkLimits 0 0 0 false) empty_mem [] newStats None None.

Lemma disabled_is_inert_witness : Get t "k" off = (None, off).
Proof. apply (disabled_is_inert t "k" "v" 5 3 None off). reflexivity. Defined.

Lemma shared_hit_is_fresh_witness : 0 < 5.
Proof.
  apply (shared_hit_is_fresh t "k" with_disk "v" 5 TL2
           (snd (GetSharedWithTTL t "k" with_disk))). vm_compute. reflexivity.
Defined.

Lemma shared_get_counts_witness :
  balanced (stats (snd (GetSharedWithTTL t "k" with_disk))) ∧
  lookups (stats (snd (GetSharedWithTTL t "k" with_disk))) = 1 ∧
  backendFallthrough (stats (snd (GetSharedWithTTL t "k" with_disk))) = 0.
Proof.
  apply (shared_get_counts t "k" with_disk (Some ("v", 5, TL2)));
    [reflexivity|vm_compute; auto|vm_compute; reflexivity].
Defined.

Lemma shared_disk_hit_promotes_witness :
  ∃ c', GetSharedWithTTL t "k" with_disk = (Some ("v", 5, TL2), c') ∧
    l3 c' = None ∧ l2 c' = Some on_disk ∧ wf (l1 c') ∧
    entries (l1 c') !! "k" = Some (mkEntry "v" 15 1).
Proof.
  apply (shared_disk_hit_promotes t "k" with_disk on_disk "v" 5 on_disk);
    try reflexivity; [apply wf_empty|vm_compute; congruence].
Defined.

Lemma non_owner_keeps_short_shadow_witness :
  l2 (setWithTTL t "k" "v" (60 * Second) true with_fleet) = Some ∅ ∧
  entries (l1 (setWithTTL t "k" "v" (60 * Second) true with_fleet)) !! "k" =
    Some (mkEntry "v" (10 + 30 * Second) 1).
Proof.
  apply (non_owner_keeps_short_shadow t "k" "v" (60 * Second) true with_fleet []);
    try reflexivity; [apply wf_empty|vm_compute; congruence].
Defined.

Lemma owner_receives_clamped_ttl_witness :
  l3 (SetWithTTL t "k" "v" (3600 * Second) with_fleet) = Some [("k", 30 * Second)].
Proof.
  refine (eq_trans (owner_receives_clamped_ttl t "k" "v" (3600 * Second) with_fleet []
                      _ _ _ _ _ _) _); try reflexivity; vm_compute; congruence.
Defined.

Lemma get_disk_hit_restarts_ttl_witness :
  ∃ c', Get t "k" with_disk = (Some "v", c') ∧
    entries (l1 c') !! "k" = Some (mkEntry "v" (10 + 60 * Second) 1).
Proof.
  apply (get_disk_hit_restarts_ttl t "k" with_disk on_disk "v" 5 on_disk);
    try reflexivity; [apply wf_empty|vm_compute; congruence].
Defined.

Lemma stale_fallback_reaches_disk_witness :
  ∃ c', GetRecoverableStaleWithTTLMatching t "k" (Some (λ _, true)) with_disk =
      (Some ("v", 5, TL2), c') ∧ l3 c' = None ∧ l1 c' = empty_mem.
Proof.
  apply (stale_fallback_reaches_disk t "k" (λ _, true) with_disk on_disk "v" 5 on_disk);
    try reflexivity. intros m Hm. vm_compute in Hm. congruence.
Defined.

Lemma tier_operations_preserve_wf_witness : wf (l1 (snd (Get t "k" with_disk))).
Proof.
  exact (proj1 (proj2 (tier_operations_preserve_wf t "k" "v" 5 with_disk wf_empty))).
Defined.

End TierDemo.
