(* ===== verification/DiskCache.v ===== *)
(** * The disk cache, L2 (src/internal/cache/disk.go)

    Writes go to a buffer, [Flush] moves the buffer into a bbolt bucket in one
    transaction and sweeps a bounded slice of the bucket for expired entries.
    bbolt and gzip are parameters ([Bolt], [Gzip]) with their documented
    behaviour as laws.  [Disk.step] interleaves the critical sections of
    concurrent calls: the write buffer has its own lock, transactions are
    serialised, and an expired read deletes the key from a goroutine of its own. *)

From S2P Require Import Prelude GoText Utf8 Cache TieredCache.

#[local] Open Scope Z_scope.

(** ** go.etcd.io/bbolt, as far as the cache uses it *)

Definition bolt_accepts (k v : string) : bool :=
  (0 <? Text.len k) && (Text.len k <=? 32768) && (Text.len v <=? 2147483646).

(** One bucket: its pairs, [Get], [Put], [Delete] (of the bucket or of a cursor), the
    pairs on which a cursor lands, and the leaf bytes reported by [Stats].  [b_Next] is
    the pair behind a key.  [b_NextDeleted] is where [Next] goes from a pair that was just
    deleted: bbolt asks its users to reposition such a cursor, so this may be any pair of
    the bucket, or none. *)
Class Bolt (B : Type) : Type := {
  b_empty : B;
  b_entries : B → list (string * string);
  b_Get : string → B → option string;
  b_Put : string → string → B → result B;
  b_Delete : string → B → B;
  b_First : B → option (string * string);
  b_Seek : string → B → option (string * string);
  b_Next : string → B → option (string * string);
  b_NextDeleted : string → B → option (string * string);
  b_LeafInuse : B → Z
}.

Definition pair_bytes (kv : string * string) : Z := Text.len kv.1 + Text.len kv.2.
Definition sum_with {A} (f : A → Z) (l : list A) : Z := foldr (λ a n, f a + n) 0 l.

Lemma sum_with_Permutation {A} (f : A → Z) l l' : l ≡ₚ l' → sum_with f l = sum_with f l'.
Proof. unfold sum_with. induction 1; cbn [foldr] in *; lia. Qed.

Lemma sum_with_split {A} (f : A → Z) (P : A → Prop) `{∀ x, Decision (P x)} l :
  sum_with f l = sum_with f (filter P l) + sum_with f (filter (λ x, ¬ P x) l).
Proof.
  induction l as [|x l IH]; [done|]. rewrite !filter_cons. cbn [sum_with foldr] in *.
  fold (sum_with f l). rewrite IH. destruct (decide (P x)); [rewrite decide_False by tauto|rewrite decide_True by tauto];
    cbn [sum_with foldr]; fold (sum_with f (filter P l)) (sum_with f (filter (λ x, ¬ P x) l)); lia.
Qed.

Lemma sum_with_nonneg {A} (f : A → Z) l : (∀ x, 0 ≤ f x) → 0 ≤ sum_with f l.
Proof. intros Hf. induction l as [|x l IH]; cbn; [lia|]. specialize (Hf x). unfold sum_with in IH. lia. Qed.

Lemma sum_with_filter {A} (f : A → Z) (P : A → Prop) `{∀ x, Decision (P x)} l :
  (∀ x, 0 ≤ f x) → sum_with f (filter P l) ≤ sum_with f l.
Proof.
  intros Hf. rewrite (sum_with_split f P l). pose proof (sum_with_nonneg f (filter (λ x, ¬ P x) l) Hf). lia.
Qed.

Lemma sum_with_mono {A} (f g : A → Z) l : (∀ x, f x ≤ g x) → sum_with f l ≤ sum_with g l.
Proof. intros Hf. induction l as [|x l IH]; cbn; [lia|]. specialize (Hf x). unfold sum_with in IH. lia. Qed.

Class BoltLaws (B : Type) `{Bolt B} : Prop := {
  b_entries_empty : b_entries b_empty = [];
  b_entries_NoDup b : NoDup (b_entries b).*1;
  b_Get_spec k b v : b_Get k b = Some v ↔ (k, v) ∈ b_entries b;
  b_Put_ok k v b : bolt_accepts k v = true →
    ∃ b', b_Put k v b = Ok b' ∧ b_entries b' ≡ₚ (k, v) :: filter (λ kv, kv.1 ≠ k) (b_entries b);
  b_Put_err k v b : bolt_accepts k v = false → ∃ e, b_Put k v b = Err e;
  b_Delete_spec k b : b_entries (b_Delete k b) = filter (λ kv, kv.1 ≠ k) (b_entries b);
  b_First_entry b kv : b_First b = Some kv → kv ∈ b_entries b;
  b_Seek_entry c b kv : b_Seek c b = Some kv → kv ∈ b_entries b;
  b_Next_entry c b kv : b_Next c b = Some kv → kv ∈ b_entries b;
  b_NextDeleted_entry c b kv : b_NextDeleted c b = Some kv → kv ∈ b_entries b;
  b_LeafInuse_spec b : sum_with pair_bytes (b_entries b) ≤ b_LeafInuse b
}.

(** ** klauspost gzip: whole streams, and the first eight bytes of one *)
Class Gzip : Type := {
  gz_compress : string → result string;
  gz_decompress : string → result string;
  gz_header : string → option string
}.

Class GzipLaws `{Gzip} : Prop := {
  gz_roundtrip d c : gz_compress d = Ok c → gz_decompress c = Ok d;
  gz_header_spec d c : gz_compress d = Ok c → (8 ≤ String.length d)%nat →
    gz_header c = Some (Utf8.prefix 8 d)
}.

Module Disk.
Import Text Utf8.

(** ** Big-endian 64-bit words *)

Fixpoint be (n : nat) (z : Z) : string :=
  match n with
  | O => ""
  | S n => String (z2b ((z / 256 ^ Z.of_nat n) mod 256)) (be n z)
  end.

Definition PutUint64 (z : Z) : string := be 8 (z mod 2 ^ 64).

Fixpoint of_be (acc : Z) (s : string) : Z :=
  match s with
  | "" => acc
  | String a s => of_be (acc * 256 + b2z a) s
  end.

(** [int64(binary.BigEndian.Uint64(s))]. *)
Definition Int64 (s : string) : Z := wrap64 (of_be 0 s).

Section Store.
Context {B : Type} `{Bolt B} `{Gzip}.

Record diskEntry : Type := mkEntry {
  Value : string;
  ExpiresAt : Z
}.

Record DiskCache : Type := mkDC {
  compression : bool;
  flushSize : Z;
  minTTL : Z;
  maxBytes : Z;
  db : B;
  writeBuf : gmap string diskEntry;
  sweepCursor : string;
  deleting : list string;   (* goroutines that will delete an expired key *)
  Hits : Z;
  Misses : Z;
  Writes : Z;
  Evictions : Z;
  FlushCount : Z
}.

Definition NewDiskCache (comp : bool) (size minttl maxb : Z) : DiskCache :=
  mkDC comp (if size =? 0 then 100 else size) minttl maxb b_empty ∅ "" [] 0 0 0 0 0.

Definition with_db (b : B) (d : DiskCache) : DiskCache :=
  mkDC (compression d) (flushSize d) (minTTL d) (maxBytes d) b (writeBuf d) (sweepCursor d)
    (deleting d) (Hits d) (Misses d) (Writes d) (Evictions d) (FlushCount d).

Definition with_buffer (m : gmap string diskEntry) (d : DiskCache) : DiskCache :=
  mkDC (compression d) (flushSize d) (minTTL d) (maxBytes d) (db d) m (sweepCursor d)
    (deleting d) (Hits d) (Misses d) (Writes d) (Evictions d) (FlushCount d).

Definition with_cursor (c : string) (d : DiskCache) : DiskCache :=
  mkDC (compression d) (flushSize d) (minTTL d) (maxBytes d) (db d) (writeBuf d) c
    (deleting d) (Hits d) (Misses d) (Writes d) (Evictions d) (FlushCount d).

Definition with_deleting (l : list string) (d : DiskCache) : DiskCache :=
  mkDC (compression d) (flushSize d) (minTTL d) (maxBytes d) (db d) (writeBuf d) (sweepCursor d)
    l (Hits d) (Misses d) (Writes d) (Evictions d) (FlushCount d).

(** Add to the counters: hits, misses, writes, evictions, flushes. *)
Definition count (h m w e f : Z) (d : DiskCache) : DiskCache :=
  mkDC (compression d) (flushSize d) (minTTL d) (maxBytes d) (db d) (writeBuf d) (sweepCursor d)
    (deleting d) (Hits d + h) (Misses d + m) (Writes d + w) (Evictions d + e) (FlushCount d + f).

(** ** Reading *)

(** The stored bytes: the payload and its expiry. *)
Definition decodeRaw (comp : bool) (raw : string) : option (string * Z) :=
  match (if comp then gz_decompress raw else Ok raw) with
  | Err _ => None
  | Ok raw => if len raw <? 8 then None else Some (suffix 8 raw, Int64 (prefix 8 raw))
  end.

Definition getWithTTL (now : Z) (key : string) (allowStale : bool) (d : DiskCache)
    : option (string * Z) * DiskCache :=
  match writeBuf d !! key with
  | Some e =>
      let remaining := time_sub (ExpiresAt e) now in
      if (remaining <=? 0) && negb allowStale then (None, count 0 1 0 0 0 d)
      else (Some (Value e, remaining), count 1 0 0 0 0 d)
  | None =>
      match b_Get key (db d) with
      | None => (None, count 0 1 0 0 0 d)
      | Some raw =>
          match decodeRaw (compression d) raw with
          | None => (None, count 0 1 0 0 0 d)
          | Some (v, expiresAt) =>
              let remaining := time_sub expiresAt now in
              if (remaining <=? 0) && negb allowStale
              then (None, with_deleting (deleting d ++ [key]) (count 0 1 0 1 0 d))
              else (Some (v, remaining), count 1 0 0 0 0 d)
          end
      end
  end.

Definition GetWithTTL (now : Z) (key : string) (d : DiskCache) := getWithTTL now key false d.
Definition GetStaleWithTTL (now : Z) (key : string) (d : DiskCache) := getWithTTL now key true d.

Definition Get (now : Z) (key : string) (d : DiskCache) : option string * DiskCache :=
  let '(r, d) := GetWithTTL now key d in (fst <$> r, d).

(** The goroutine of an expired read. *)
Definition runDelete (i : nat) (key : string) (d : DiskCache) : DiskCache :=
  with_deleting (delete i (deleting d)) (with_db (b_Delete key (db d)) d).

(** ** Writing *)

(** The part of [Set] under the lock; a write below the thresholds is dropped. *)
Definition bufferWrite (now : Z) (key value : string) (ttl : Z) (d : DiskCache) : DiskCache :=
  if (ttl <=? 0) || ((0 <? minTTL d) && (ttl <? minTTL d)) then d
  else with_buffer (<[key := mkEntry value (wrap64 (now + ttl))]> (writeBuf d)) d.

Definition shouldFlush (d : DiskCache) : bool := flushSize d <=? Z.of_nat (size (writeBuf d)).

Definition encodeDiskEntry (e : diskEntry) : option string :=
  if MaxInt64 - 8 <? len (Value e) then None
  else Some (PutUint64 (ExpiresAt e) +:+ Value e).

(** The bytes [Flush] stores for an entry, if it can be encoded. *)
Definition stored (comp : bool) (e : diskEntry) : option string :=
  match encodeDiskEntry e with
  | None => None
  | Some enc =>
      if comp then match gz_compress enc with Ok c => Some c | Err _ => None end else Some enc
  end.

(** Whether the sweep removes a pair: no readable expiry, or an expiry that has
    passed. *)
Definition swept (comp : bool) (now : Z) (kv : string * string) : bool :=
  match (if comp then gz_header kv.2 else if 8 <=? len kv.2 then Some (prefix 8 kv.2) else None) with
  | None => true
  | Some h => Int64 h <=? now
  end.

(** Where a sweep starts: at the saved cursor, or at the first key. *)
Definition sweepFrom (cursor : string) (b : B) : option (string * string) :=
  if 0 <? len cursor then
    match b_Seek cursor b with
    | None => b_First b
    | Some kv => Some kv
    end
  else b_First b.

Definition maxSweep : nat := 1024.

(** The loop over the pairs: the bucket, the bytes reclaimed, the deletions, the new
    cursor. *)
Fixpoint sweepLoop (fuel : nat) (now : Z) (comp : bool) (cur : option (string * string)) (b : B) (reclaimed gone : Z)
    : B * Z * Z * string :=
  match cur with
  | None => (b, reclaimed, gone, "")
  | Some kv =>
      match fuel with
      | O => (b, reclaimed, gone, kv.1)
      | S fuel =>
          if swept comp now kv then
            let b := b_Delete kv.1 b in
            sweepLoop fuel now comp (b_NextDeleted kv.1 b) b (reclaimed + pair_bytes kv) (gone + 1)
          else sweepLoop fuel now comp (b_Next kv.1 b) b reclaimed gone
      end
  end.

(** The sweep looks at up to [n] pairs ([n] is where its 10 ms deadline falls) and at
    most 1024. *)
Definition sweepExpired (n : nat) (now : Z) (comp : bool) (cursor : string) (b : B)
    : B * Z * Z * string :=
  sweepLoop (Nat.min n maxSweep) now comp (sweepFrom cursor b) b 0 0.

(** The transaction's state: bucket, tracked bytes, writes, evictions. *)
Definition txn : Type := B * Z * Z * Z.

(** One buffered entry; [None] is an error of [Put], which aborts the
    transaction. *)
Definition putEntry (comp : bool) (maxb : Z) (ke : string * diskEntry) (t : txn) : option txn :=
  let '(b, current, w, e) := t in
  match stored comp ke.2 with
  | None => Some t
  | Some enc =>
      let candidate :=
        if 0 <? maxb then
          current - match b_Get ke.1 b with Some old => len old | None => 0 end
        else current in
      if (0 <? maxb) && (maxb <? candidate + len enc) then Some (b, current, w, e + 1)
      else
        match b_Put ke.1 enc b with
        | Err _ => None
        | Ok b => Some (b, candidate + len enc, w + 1, e)
        end
  end.

(** The loop over the batch: the last transaction state, and whether it ran to
    the end.  The counters are not part of the transaction. *)
Fixpoint putAll (comp : bool) (maxb : Z) (order : list (string * diskEntry)) (t : txn) : txn * bool :=
  match order with
  | [] => (t, true)
  | ke :: order =>
      match putEntry comp maxb ke t with
      | None => (t, false)
      | Some t => putAll comp maxb order t
      end
  end.

(** [Flush] after it took the buffer: one transaction over the batch in the order
    the map iteration gave. *)
Definition commit (now : Z) (n : nat) (order : list (string * diskEntry)) (d : DiskCache) : DiskCache :=
  let '(b, reclaimed, gone, cursor) := sweepExpired n now (compression d) (sweepCursor d) (db d) in
  let start := if 0 <? maxBytes d then b_LeafInuse (db d) else 0 in
  let current := Z.max 0 (start - reclaimed) in
  let '((b', _, w, e), ok) := putAll (compression d) (maxBytes d) order (b, current, 0, gone) in
  count 0 0 w e 1 (with_cursor cursor (if ok then with_db b' d else d)).

(** Taking the buffer. *)
Definition takeBuffer (d : DiskCache) : DiskCache := with_buffer ∅ d.

Definition Flush (now : Z) (n : nat) (order : list (string * diskEntry)) (d : DiskCache) : DiskCache :=
  commit now n order (takeBuffer d).

Definition Set_ (now : Z) (key value : string) (ttl : Z) (n : nat)
    (order : gmap string diskEntry → list (string * diskEntry)) (d : DiskCache) : DiskCache :=
  let d' := bufferWrite now key value ttl d in
  if (ttl <=? 0) || ((0 <? minTTL d) && (ttl <? minTTL d)) then d
  else if shouldFlush d' then Flush now n (order (writeBuf d')) d' else d'.

Definition Purge (d : DiskCache) : DiskCache := with_db b_empty (with_buffer ∅ d).

End Store.

(** ** Words *)

Lemma be_length n z : String.length (be n z) = n.
Proof. induction n as [|n IH]; [done|]. cbn [be String.length]. by rewrite IH. Qed.

Lemma of_be_be n z acc : 0 ≤ z → of_be acc (be n z) = acc * 256 ^ Z.of_nat n + z mod 256 ^ Z.of_nat n.
Proof.
  intros Hz. revert acc. induction n as [|n IH]; intros acc.
  - cbn. rewrite Z.mod_1_r. lia.
  - cbn [be of_be]. rewrite b2z_z2b by (apply Z.mod_pos_bound; lia). rewrite IH.
    rewrite Nat2Z.inj_succ, Z.pow_succ_r by lia. set (p := 256 ^ Z.of_nat n).
    assert (0 < p) as Hp by (apply Z.pow_pos_nonneg; lia).
    rewrite (Z.mul_comm 256 p), (Z.rem_mul_r z p 256) by lia. lia.
Qed.

Lemma PutUint64_length z : String.length (PutUint64 z) = 8%nat.
Proof. apply be_length. Qed.

(** The word survives the conversion to uint64 and back. *)
Lemma Int64_PutUint64 z : in_int64 z → Int64 (PutUint64 z) = z.
Proof.
  intros Hz. unfold Int64, PutUint64. rewrite of_be_be by (apply Z.mod_pos_bound; lia).
  change (256 ^ Z.of_nat 8) with (2 ^ 64). rewrite Z.mod_mod by lia.
  unfold wrap64, in_int64, MinInt64, MaxInt64 in *. cbn [Z.mul]. rewrite Z.add_0_l.
  rewrite Zminus_mod_idemp_l. rewrite Z.mod_small by lia. lia.
Qed.

(** ** Stored pairs *)

Section Laws.
Context {B : Type} `{BL : BoltLaws B} `{GL : GzipLaws}.

Implicit Types (d : DiskCache (B := B)) (b : B) (e : diskEntry).

Lemma stored_decodes comp e raw : in_int64 (ExpiresAt e) → stored comp e = Some raw →
  decodeRaw comp raw = Some (Value e, ExpiresAt e).
Proof.
  intros He. unfold stored, encodeDiskEntry. destruct (MaxInt64 - 8 <? len (Value e)); [done|].
  set (enc := PutUint64 (ExpiresAt e) +:+ Value e).
  assert (∀ r : result string, r = Ok enc → match r with Err _ => None | Ok raw =>
    if len raw <? 8 then None else Some (suffix 8 raw, Int64 (prefix 8 raw)) end
    = Some (Value e, ExpiresAt e)) as Hdec.
  { intros r ->. unfold enc. rewrite len_append. unfold len at 1. rewrite PutUint64_length.
    rewrite (proj2 (Z.ltb_ge _ _)) by (unfold len; lia).
    rewrite <- (PutUint64_length (ExpiresAt e)), suffix_app, prefix_app, Int64_PutUint64; done. }
  unfold decodeRaw. destruct comp.
  - destruct (gz_compress enc) as [c|] eqn:Hc; [|done]. intros [= <-].
    apply Hdec. by apply gz_roundtrip.
  - intros [= <-]. exact (Hdec (Ok enc) eq_refl).
Qed.

(** The sweep takes exactly what has expired. *)
Lemma stored_swept comp now k e raw : in_int64 (ExpiresAt e) → stored comp e = Some raw →
  swept comp now (k, raw) = (ExpiresAt e <=? now).
Proof.
  intros He. unfold stored, encodeDiskEntry, swept. cbn [snd].
  destruct (MaxInt64 - 8 <? len (Value e)); [done|]. set (enc := PutUint64 (ExpiresAt e) +:+ Value e).
  assert (prefix 8 enc = PutUint64 (ExpiresAt e)) as Hp.
  { unfold enc. rewrite <- (PutUint64_length (ExpiresAt e)) at 1. apply prefix_app. }
  assert (8 ≤ String.length enc)%nat as Hl
    by (unfold enc; rewrite length_app_str, PutUint64_length; lia).
  destruct comp.
  - destruct (gz_compress enc) as [c|] eqn:Hc; [|done]. intros [= <-].
    rewrite (gz_header_spec enc c Hc Hl), Hp, Int64_PutUint64; done.
  - intros [= <-]. rewrite (proj2 (Z.leb_le 8 (len enc))) by (unfold len; lia).
    rewrite Hp, Int64_PutUint64; done.
Qed.

(** Every stored pair was written by a flush, and expiries are int64. *)
Definition wf (d : DiskCache) : Prop :=
  (∀ k raw, b_Get k (db d) = Some raw →
     ∃ e, stored (compression d) e = Some raw ∧ in_int64 (ExpiresAt e)) ∧
  (∀ k e, writeBuf d !! k = Some e → in_int64 (ExpiresAt e)).

(** ** The bucket *)

Lemma get_Put k v b b' k' : b_Put k v b = Ok b' →
  b_Get k' b' = if decide (k' = k) then Some v else b_Get k' b.
Proof.
  intros Hput. destruct (bolt_accepts k v) eqn:Hacc.
  2:{ destruct (b_Put_err k v b Hacc) as [msg E]. congruence. }
  destruct (b_Put_ok k v b Hacc) as (b1 & E & Hperm). rewrite Hput in E. injection E as <-.
  apply option_eq. intros w. rewrite b_Get_spec, Hperm, elem_of_cons, list_elem_of_filter, <- b_Get_spec.
  cbn [fst]. destruct (decide (k' = k)) as [->|Hne].
  - split; [intros [[= ->]|[? _]]; done|intros [= ->]; by left].
  - split; [intros [[= -> ->]|[_ Hg]]; done|intros Hg; right; done].
Qed.

Lemma get_Delete k b k' : b_Get k' (b_Delete k b) = if decide (k' = k) then None else b_Get k' b.
Proof.
  apply option_eq. intros w. rewrite b_Get_spec, b_Delete_spec, list_elem_of_filter, <- b_Get_spec. cbn [fst].
  destruct (decide (k' = k)); naive_solver.
Qed.

Lemma sweepFrom_sub cursor b kv : sweepFrom cursor b = Some kv → kv ∈ b_entries b.
Proof.
  unfold sweepFrom. destruct (0 <? len cursor); [|apply b_First_entry].
  destruct (b_Seek cursor b) eqn:E; [|apply b_First_entry]. intros [= <-]. by eapply b_Seek_entry.
Qed.

(** What the deletions of expired pairs keep, the sweep keeps. *)
Lemma sweepLoop_ind (P : B → Z → Prop) now comp :
  (∀ b r kv, kv ∈ b_entries b → swept comp now kv = true → P b r → P (b_Delete kv.1 b) (r + pair_bytes kv)) →
  ∀ fuel cur b r g, (∀ kv, cur = Some kv → kv ∈ b_entries b) → P b r →
  let '(b', r', _, _) := sweepLoop fuel now comp cur b r g in P b' r'.
Proof.
  intros Hstep. induction fuel as [|fuel IH]; intros [kv|] b r g Hcur HP; cbn [sweepLoop]; try done.
  destruct (swept comp now kv) eqn:Es.
  - apply IH; [intros kv'; apply b_NextDeleted_entry|]. apply Hstep; [by apply Hcur|done|done].
  - apply IH; [intros kv'; apply b_Next_entry|done].
Qed.

Lemma sweep_ind (P : B → Z → Prop) now comp :
  (∀ b r kv, kv ∈ b_entries b → swept comp now kv = true → P b r → P (b_Delete kv.1 b) (r + pair_bytes kv)) →
  ∀ n cursor b b' r g c, sweepExpired n now comp cursor b = (b', r, g, c) → P b 0 → P b' r.
Proof.
  intros Hstep n cursor b b' r g c Hs HP. unfold sweepExpired in Hs.
  pose proof (sweepLoop_ind P now comp Hstep (Nat.min n maxSweep) _ b 0 0 (sweepFrom_sub cursor b) HP) as Hl.
  by rewrite Hs in Hl.
Qed.

(** What is left after a sweep: every pair that was not expired, and nothing new. *)
Lemma sweep_get n now comp cursor b b' r g c k : sweepExpired n now comp cursor b = (b', r, g, c) →
  (∀ raw, b_Get k b = Some raw → swept comp now (k, raw) = false → b_Get k b' = Some raw) ∧
  (∀ raw, b_Get k b' = Some raw → b_Get k b = Some raw).
Proof.
  intros Hs. refine (sweep_ind (λ b' _, (∀ raw, b_Get k b = Some raw → swept comp now (k, raw) = false → b_Get k b' = Some raw) ∧
    (∀ raw, b_Get k b' = Some raw → b_Get k b = Some raw)) now comp _ n cursor b b' r g c Hs (conj _ _)); [|done|done].
  intros b1 r1 [k1 v1] Hin%b_Get_spec Hsw [Hkeep Hsub]. cbn [fst]. split; intros raw.
  - intros Hg Hlive. rewrite get_Delete. case_decide as Hk; [|by apply Hkeep]. subst k1. specialize (Hkeep raw Hg Hlive). congruence.
  - rewrite get_Delete. case_decide; [done|]. apply Hsub.
Qed.

(** ** The batch *)

(** What [Flush] can store: it encodes, and bbolt takes the pair. *)
Definition storable (comp : bool) (ke : string * diskEntry) : Prop :=
  ∃ raw, stored comp ke.2 = Some raw ∧ bolt_accepts ke.1 raw = true.

Lemma putEntry_ok comp maxb ke b cur w ev : maxb ≤ 0 → storable comp ke →
  ∃ raw b' cur', stored comp ke.2 = Some raw ∧ b_Put ke.1 raw b = Ok b' ∧
    putEntry comp maxb ke (b, cur, w, ev) = Some (b', cur', w + 1, ev).
Proof.
  intros Hm (raw & Hst & Hacc). destruct (b_Put_ok ke.1 raw b Hacc) as (b' & Hput & _).
  exists raw, b'. eexists. split_and!; [done..|]. unfold putEntry.
  rewrite Hst, (proj2 (Z.ltb_ge 0 maxb)) by lia. cbn [andb]. by rewrite Hput.
Qed.

(** Without a size cap the batch is stored in full: each key of the batch holds
    its entry, the others are as they were. *)
Lemma putAll_stores comp maxb order : maxb ≤ 0 → Forall (storable comp) order → NoDup order.*1 →
  ∀ b cur w ev, ∃ b' cur', putAll comp maxb order (b, cur, w, ev) =
    ((b', cur', w + Z.of_nat (length order), ev), true) ∧
    (∀ k x, (k, x) ∈ order → b_Get k b' = stored comp x) ∧
    (∀ k, k ∉ order.*1 → b_Get k b' = b_Get k b).
Proof.
  intros Hm. induction order as [|ke order IH]; intros Hs Hnd b cur w ev.
  - exists b, cur. split_and!; [by rewrite Z.add_0_r|by intros ?? ?%not_elem_of_nil|done].
  - apply Forall_cons in Hs as [Hke Hs]. cbn [fmap list_fmap] in Hnd.
    apply NoDup_cons in Hnd as [Hfresh Hnd].
    destruct (putEntry_ok comp maxb ke b cur w ev Hm Hke) as (raw & b1 & cur1 & Hst & Hput & E).
    destruct (IH Hs Hnd b1 cur1 (w + 1) ev) as (b' & cur' & E' & Hin & Hout).
    exists b', cur'. cbn [putAll]. rewrite E, E'. split_and!.
    + do 3 f_equal. cbn [length]. lia.
    + intros k x [<-|Hx]%elem_of_cons; [|by apply Hin]. cbn [fst snd] in *.
      rewrite Hout by done. rewrite (get_Put _ _ _ _ _ Hput), decide_True; done.
    + intros k [Hne Hk]%not_elem_of_cons. rewrite Hout, (get_Put _ _ _ _ _ Hput), decide_False; done.
Qed.

Lemma commit_db now n order d b' :
  ∀ b r g c cur w ev ok, sweepExpired n now (compression d) (sweepCursor d) (db d) = (b, r, g, c) →
  putAll (compression d) (maxBytes d) order
    (b, Z.max 0 ((if 0 <? maxBytes d then b_LeafInuse (db d) else 0) - r), 0, g) = ((b', cur, w, ev), ok) →
  commit now n order d = count 0 0 w ev 1 (with_cursor c (if ok then with_db b' d else d)).
Proof. intros b r g c cur w ev ok Hs Hp. unfold commit. by rewrite Hs, Hp. Qed.

(** What a read answers, from the entry it finds. *)
Definition answer (now : Z) (stale : bool) (ve : string * Z) : option (string * Z) :=
  let remaining := time_sub ve.2 now in
  if (remaining <=? 0) && negb stale then None else Some (ve.1, remaining).

Definition found (key : string) (d : DiskCache) : option (string * Z) :=
  match writeBuf d !! key with
  | Some e => Some (Value e, ExpiresAt e)
  | None => b_Get key (db d) ≫= decodeRaw (compression d)
  end.

Lemma get_found now key stale d :
  fst (getWithTTL now key stale d) = found key d ≫= answer now stale.
Proof.
  unfold getWithTTL, found, answer. destruct (writeBuf d !! key) as [e|]; cbn.
  - by case_match.
  - destruct (b_Get key (db d)) as [raw|]; [|done]. cbn.
    destruct (decodeRaw (compression d) raw) as [[v x]|]; [|done]. cbn. by case_match.
Qed.

(** C24 Flushing is invisible to readers: a flush that no other call interleaves with, and
    that sweeps however many pairs wherever bbolt's cursor takes it, changes no fresh
    lookup from then on: what was buffered is found on disk with the lifetime it had, and
    the sweep takes only pairs that have expired.  No cap on the bytes is configured and
    every buffered pair can be stored (one that cannot is [rejected_key_loses_batch]). *)
Theorem flush_transparent now n order d now' key :
  wf d → maxBytes d ≤ 0 → order ≡ₚ map_to_list (writeBuf d) →
  Forall (storable (compression d)) order → now ≤ now' →
  fst (GetWithTTL now' key (Flush now n order d)) = fst (GetWithTTL now' key d).
Proof.
  intros [Hdb Hbuf] Hm Hperm Hs Hnow. unfold GetWithTTL. rewrite !get_found.
  destruct (sweepExpired n now (compression d) (sweepCursor d) (db d)) as [[[b r] g] c] eqn:Hsw.
  assert (NoDup order.*1) as Hnd by (rewrite Hperm; apply NoDup_fst_map_to_list).
  destruct (putAll_stores (compression d) (maxBytes d) order Hm Hs Hnd b
    (Z.max 0 ((if 0 <? maxBytes d then b_LeafInuse (db d) else 0) - r)) 0 g)
    as (b' & cur & Hput & Hin & Hout).
  unfold Flush. rewrite (commit_db now n order (takeBuffer d) b' b r g c cur _ _ true Hsw Hput).
  unfold found. cbn. rewrite lookup_empty. destruct (writeBuf d !! key) as [e|] eqn:He.
  - assert ((key, e) ∈ order) as Hord by (rewrite Hperm; by apply elem_of_map_to_list).
    pose proof (proj1 (Forall_forall _ _) Hs _ Hord) as (raw & Hraw & _).
    rewrite (Hin _ _ Hord). cbn [snd] in Hraw. rewrite Hraw. cbn.
    by rewrite (stored_decodes _ _ _ (Hbuf _ _ He) Hraw).
  - assert (key ∉ order.*1) as Hnot.
    { rewrite Hperm. intros ([k x] & -> & Hx%elem_of_map_to_list)%list_elem_of_fmap. cbn in He. congruence. }
    rewrite (Hout key Hnot). destruct (sweep_get n now _ _ _ _ _ _ _ key Hsw) as [Hkeep Hsub].
    destruct (b_Get key (db d)) as [raw|] eqn:Hraw.
    + destruct (Hdb _ _ Hraw) as (e & Hst & Hint).
      pose proof (stored_swept (compression d) now key e raw Hint Hst) as Hx.
      destruct (Z.leb_spec (ExpiresAt e) now) as [Hle|Hgt].
      * cbn. rewrite (stored_decodes _ _ _ Hint Hst). unfold answer. cbn.
        rewrite (proj2 (Z.leb_le _ 0)) by (apply time_sub_nonpos; lia). cbn.
        destruct (b_Get key b) as [raw'|]; [|done]. pose proof (Hsub _ eq_refl) as [= <-]. cbn.
        rewrite (stored_decodes _ _ _ Hint Hst). cbn.
        by rewrite (proj2 (Z.leb_le _ 0)) by (apply time_sub_nonpos; lia).
      * by rewrite (Hkeep raw eq_refl Hx).
    + destruct (b_Get key b) as [raw'|]; [|done]. by pose proof (Hsub _ eq_refl).
Qed.

(** ** Concurrent calls

    [inflight] holds the batches of flushes that took the buffer and have not
    committed; [log] is a ghost: every write the buffer accepted. *)

Record conf : Type := mkConf {
  cache : DiskCache (B := B);
  inflight : list (list (string * diskEntry));
  log : list (string * diskEntry)
}.

Inductive step : conf → conf → Prop :=
| step_set now k v ttl d fl lg :
    0 < ttl → (0 < minTTL d → minTTL d ≤ ttl) →
    step (mkConf d fl lg)
      (mkConf (bufferWrite now k v ttl d) fl ((k, mkEntry v (wrap64 (now + ttl))) :: lg))
| step_take order d fl lg :
    order ≡ₚ map_to_list (writeBuf d) →
    step (mkConf d fl lg) (mkConf (takeBuffer d) (order :: fl) lg)
| step_commit i now n order d fl lg :
    fl !! i = Some order → (1 ≤ n)%nat →
    step (mkConf d fl lg) (mkConf (commit now n order d) (delete i fl) lg)
(* the buffer was checked before the read transaction: it saw [m] *)
| step_get now k stale m d fl lg :
    m ⊆ writeBuf d →
    step (mkConf d fl lg)
      (mkConf (with_buffer (writeBuf d) (snd (getWithTTL now k stale (with_buffer m d)))) fl lg)
| step_delete i k d fl lg :
    deleting d !! i = Some k →
    step (mkConf d fl lg) (mkConf (runDelete i k d) fl lg)
| step_purge_buffer d fl lg :
    step (mkConf d fl lg) (mkConf (takeBuffer d) fl lg)
| step_purge_bucket d fl lg :
    step (mkConf d fl lg) (mkConf (with_db b_empty d) fl lg).

Definition reachable (comp : bool) (size minttl maxb : Z) (s : conf) : Prop :=
  rtc step (mkConf (NewDiskCache comp size minttl maxb) [] []) s.

Lemma get_db_same now k stale d :
  let d' := snd (getWithTTL now k stale d) in
  db d' = db d ∧ writeBuf d' = writeBuf d ∧ compression d' = compression d ∧ maxBytes d' = maxBytes d.
Proof.
  unfold getWithTTL. destruct (writeBuf d !! k) as [e|].
  - by case_match.
  - destruct (b_Get k (db d)) as [raw|]; [|done].
    destruct (decodeRaw (compression d) raw) as [[v x]|]; [|done]. cbn. by case_match.
Qed.

(** Pairs of a batch, or of the bucket, that were written. *)
Definition logged (comp : bool) (lg : list (string * diskEntry)) (b : B) : Prop :=
  ∀ k raw, b_Get k b = Some raw →
    ∃ e, (k, e) ∈ lg ∧ stored comp e = Some raw ∧ in_int64 (ExpiresAt e).

Lemma logged_sub comp lg lg' b b' : (∀ k raw, b_Get k b' = Some raw → b_Get k b = Some raw) →
  lg ⊆ lg' → logged comp lg b → logged comp lg' b'.
Proof. intros Hb Hl HL k raw Hg. destruct (HL k raw (Hb _ _ Hg)) as (e & ? & ?). exists e. split; [by apply Hl|done]. Qed.

Lemma putEntry_cases comp maxb ke b cur w ev t' : putEntry comp maxb ke (b, cur, w, ev) = Some t' →
  (∃ ev', t' = (b, cur, w, ev')) ∨
  ∃ enc b' cand, stored comp ke.2 = Some enc ∧ b_Put ke.1 enc b = Ok b' ∧
    t' = (b', cand + len enc, w + 1, ev) ∧
    (0 < maxb → cand + len enc ≤ maxb ∧
       cand = cur - match b_Get ke.1 b with Some old => len old | None => 0 end).
Proof.
  unfold putEntry. destruct (stored comp ke.2) as [enc|]; [|intros [= <-]; left; eauto].
  case_match eqn:Hc; [intros [= <-]; left; eauto|].
  destruct (b_Put ke.1 enc b) as [b'|] eqn:Hp; [|done]. intros [= <-]. right.
  exists enc, b'. eexists. split_and!; [done..|]. intros Hm.
  apply andb_false_iff in Hc as [Hc%Z.ltb_ge|Hc%Z.ltb_ge]; [lia|].
  revert Hc. rewrite (proj2 (Z.ltb_lt 0 maxb)) by done. lia.
Qed.

Lemma putAll_ind (I : B → Z → Prop) comp maxb order :
  (∀ ke b b' cur cur' w ev w' ev', ke ∈ order → putEntry comp maxb ke (b, cur, w, ev) = Some (b', cur', w', ev') →
     I b cur → I b' cur') →
  ∀ b cur w ev b' cur' w' ev' ok,
    putAll comp maxb order (b, cur, w, ev) = ((b', cur', w', ev'), ok) → I b cur → I b' cur'.
Proof.
  induction order as [|ke order IH]; intros Hstep b cur w ev b' cur' w' ev' ok; cbn [putAll].
  - by intros [= <- <- _ _ _].
  - destruct (putEntry comp maxb ke (b, cur, w, ev)) as [[[[b1 cur1] w1] ev1]|] eqn:E; [|by intros [= <- <- _ _ _]].
    intros Hp HI. eapply IH; [|exact Hp|eapply Hstep; [left|exact E|done]].
    intros ke' * Hin. apply Hstep. by right.
Qed.

Lemma commit_cases now n order d :
  ∃ b r g c b' cur w ev ok, sweepExpired n now (compression d) (sweepCursor d) (db d) = (b, r, g, c) ∧
    putAll (compression d) (maxBytes d) order
      (b, Z.max 0 ((if 0 <? maxBytes d then b_LeafInuse (db d) else 0) - r), 0, g) = ((b', cur, w, ev), ok) ∧
    commit now n order d = count 0 0 w ev 1 (with_cursor c (if ok : bool then with_db b' d else d)).
Proof.
  destruct (sweepExpired n now (compression d) (sweepCursor d) (db d)) as [[[b r] g] c] eqn:Hs.
  destruct (putAll (compression d) (maxBytes d) order
    (b, Z.max 0 ((if 0 <? maxBytes d then b_LeafInuse (db d) else 0) - r), 0, g)) as [[[[b' cur] w] ev] ok] eqn:Hp.
  exists b, r, g, c, b', cur, w, ev, ok. split_and!; [done|done|by eapply commit_db].
Qed.

(** Every pair held anywhere was written. *)
Definition inv (comp : bool) (s : conf) : Prop :=
  compression (cache s) = comp ∧
  (∀ k e, (k, e) ∈ log s → in_int64 (ExpiresAt e)) ∧
  (∀ k e, writeBuf (cache s) !! k = Some e → (k, e) ∈ log s) ∧
  Forall (λ order, order ⊆ log s) (inflight s) ∧
  logged comp (log s) (db (cache s)).

Lemma commit_logged now n order d lg : order ⊆ lg → (∀ k e, (k, e) ∈ lg → in_int64 (ExpiresAt e)) →
  logged (compression d) lg (db d) → logged (compression d) lg (db (commit now n order d)).
Proof.
  intros Ho Hint HI. destruct (commit_cases now n order d) as (b & r & g & c & b' & cur & w & ev & ok & Hs & Hp & ->).
  cbn. destruct ok; [|done]. cbn.
  refine (putAll_ind (λ b _, logged (compression d) lg b) _ _ _ _ _ _ _ _ _ _ _ _ _ Hp _).
  - intros ke b0 b1 cur0 cur1 w0 ev0 w1 ev1 Hin [[ev' [= <- _ _ _]]|(enc & b2 & cand & Hst & Hput & [= <- _ _ _] & _)]%putEntry_cases HL; [done|].
    intros k raw. rewrite (get_Put _ _ _ _ _ Hput). destruct (decide (k = ke.1)) as [->|Hne]; [|apply HL].
    intros [= <-]. destruct ke as [k e]. exists e. specialize (Ho _ Hin). eauto.
  - refine (logged_sub _ lg lg (db d) b _ _ HI); [|done]. intros k raw. by apply (sweep_get _ _ _ _ _ _ _ _ _ k Hs).
Qed.

Lemma step_keeps_inv comp s s' : step s s' → inv comp s → inv comp s'.
Proof.
  destruct 1 as [now k v ttl d fl lg Ht Hmin|order d fl lg Hperm|i now n order d fl lg Hi Hn|now k stale m d fl lg Hsub
    |i k d fl lg Hi|d fl lg|d fl lg]; intros (Hc & Hint & Hbuf & Hfl & Hdb); unfold inv; cbn [cache inflight log] in *.
  - unfold bufferWrite. case_match eqn:Hx.
    { exfalso. apply orb_true_iff in Hx as [Hx%Z.leb_le|[H1%Z.ltb_lt H2%Z.ltb_lt]%andb_true_iff]; lia. }
    cbn. split_and!; [done|..].
    + intros k' e [[= -> ->]|?]%elem_of_cons; [apply wrap64_range|by eapply Hint].
    + intros k' e. rewrite lookup_insert_Some. intros [[<- <-]|[_ He]]; [left|right; by apply Hbuf].
    + eapply Forall_impl; [exact Hfl|]. intros o Ho x Hx'. right. by apply Ho.
    + eapply logged_sub; [done| |exact Hdb]. intros x ?. by right.
  - cbn. split_and!; [done|done|by intros k e ?%lookup_empty_Some| |done].
    constructor; [|done]. intros [k e]. rewrite Hperm, elem_of_map_to_list. apply Hbuf.
  - destruct (commit_cases now n order d) as (b & r & g & c & b' & cur & w & ev & ok & _ & _ & E).
    rewrite <- Hc in Hdb |- *. split_and!; [by rewrite E; destruct ok|done|by rewrite E; destruct ok| |].
    + by apply Forall_delete.
    + apply commit_logged; [|done|done]. by eapply (Forall_lookup_1 _ _ _ _ Hfl Hi).
  - destruct (get_db_same now k stale (with_buffer m d)) as (Ed & _ & Ec & _). cbn.
    by rewrite Ed, Ec.
  - cbn. split_and!; [done|done|done|done|]. refine (logged_sub _ lg lg (db d) _ _ _ Hdb); [|done].
    intros k' raw. rewrite get_Delete. by case_decide.
  - cbn. split_and!; [done|done|by intros k e ?%lookup_empty_Some|done|done].
  - cbn. split_and!; [done..|]. intros k raw Hg. apply b_Get_spec in Hg. rewrite b_entries_empty in Hg.
    by apply not_elem_of_nil in Hg.
Qed.

Lemma disk_reachable_inv comp size minttl maxb s : reachable comp size minttl maxb s → inv comp s.
Proof.
  intros Hr. refine (rtc_ind_r (λ s, inv comp s) _ _ _ s Hr).
  - unfold inv. cbn. split_and!; [done|by intros k e ?%not_elem_of_nil|by intros k e ?%lookup_empty_Some|constructor|].
    intros k raw Hg. apply b_Get_spec in Hg. rewrite b_entries_empty in Hg. by apply not_elem_of_nil in Hg.
  - intros y z _ Hyz. by apply step_keeps_inv.
Qed.

(** C23 Under any interleaving of writes, flushes, reads, asynchronous deletions
    and purges, a disk hit returns bytes that were written under that very key,
    with the lifetime of that write; a hit that does not allow stale entries has
    lifetime left. *)
Theorem disk_hit_was_written comp size minttl maxb s now k stale m v ttl :
  reachable comp size minttl maxb s → m ⊆ writeBuf (cache s) →
  fst (getWithTTL now k stale (with_buffer m (cache s))) = Some (v, ttl) →
  ∃ e, (k, e) ∈ log s ∧ v = Value e ∧ ttl = time_sub (ExpiresAt e) now ∧
    (stale = false → now < ExpiresAt e).
Proof.
  intros (Hc & Hint & Hbuf & _ & Hdb)%disk_reachable_inv Hm. rewrite get_found, bind_Some.
  intros ([v' x] & Hf & Ha).
  assert (∃ e, (k, e) ∈ log s ∧ v' = Value e ∧ x = ExpiresAt e) as (e & He & -> & ->).
  { revert Hf. unfold found. cbn. destruct (m !! k) as [e|] eqn:Hk.
    - intros [= <- <-]. exists e. split; [|done]. apply Hbuf. by eapply lookup_weaken.
    - rewrite bind_Some. intros (raw & Hraw & Hd). destruct (Hdb _ _ Hraw) as (e & He & Hst & Hx).
      rewrite <- Hc in Hst. rewrite (stored_decodes _ _ _ Hx Hst) in Hd. injection Hd as <- <-. by exists e. }
  exists e. unfold answer in Ha. cbn in Ha.
  destruct (Z.leb_spec (time_sub (ExpiresAt e) now) 0) as [Hle|Hgt]; destruct stale; cbn in Ha; simplify_eq;
    split_and!; try done; intros _; by apply time_sub_pos.
Qed.

(** ** The byte cap *)

(** The value bytes the bucket holds. *)
Definition value_bytes (b : B) : Z := sum_with (λ kv, len kv.2) (b_entries b).

Lemma NoDup_entries b : NoDup (b_entries b).
Proof. eapply NoDup_fmap_1, b_entries_NoDup. Qed.

Lemma value_bytes_Put k v b b' : b_Put k v b = Ok b' →
  value_bytes b' = value_bytes b - match b_Get k b with Some old => len old | None => 0 end + len v.
Proof.
  intros Hput. destruct (bolt_accepts k v) eqn:Hacc.
  2:{ destruct (b_Put_err k v b Hacc) as [msg E]. congruence. }
  destruct (b_Put_ok k v b Hacc) as (b1 & E & Hperm). rewrite Hput in E. injection E as <-.
  unfold value_bytes. rewrite (sum_with_Permutation _ _ _ Hperm). cbn [sum_with foldr snd].
  rewrite (sum_with_split (λ kv : string * string, len kv.2) (λ kv, kv.1 ≠ k) (b_entries b)).
  fold (sum_with (λ kv : string * string, len kv.2) (filter (λ kv, kv.1 ≠ k) (b_entries b))).
  assert (sum_with (λ kv : string * string, len kv.2) (filter (λ kv, ¬ kv.1 ≠ k) (b_entries b))
    = match b_Get k b with Some old => len old | None => 0 end) as ->; [|lia].
  destruct (b_Get k b) as [old|] eqn:Hg.
  - rewrite (sum_with_Permutation _ _ [(k, old)]); [cbn; lia|].
    apply NoDup_Permutation; [apply NoDup_filter, NoDup_entries|apply NoDup_singleton|].
    intros [k' v']. rewrite list_elem_of_filter, list_elem_of_singleton, <- b_Get_spec. cbn.
    split; [intros [->%dec_stable Hv]; congruence|by intros [= -> ->]; split; [tauto|]].
  - rewrite filter_none; [done|]. apply Forall_forall. intros [k' v'] Hin%b_Get_spec Hne. cbn in Hne.
    apply Hne. intros ->. congruence.
Qed.

Lemma sum_delete f k v b : (k, v) ∈ b_entries b →
  sum_with f (b_entries b) = sum_with f (b_entries (b_Delete k b)) + f (k, v).
Proof.
  intros Hin. rewrite b_Delete_spec, (sum_with_split f (λ kv, kv.1 ≠ k) (b_entries b)). f_equal.
  rewrite (sum_with_Permutation f _ [(k, v)]); [cbn; lia|].
  apply NoDup_Permutation; [apply NoDup_filter, NoDup_entries|apply NoDup_singleton|].
  intros [k' v']. rewrite list_elem_of_filter, list_elem_of_singleton. cbn. split.
  - intros [->%dec_stable Hin']. apply b_Get_spec in Hin, Hin'. congruence.
  - intros [= -> ->]. split; [tauto|done].
Qed.

Lemma sweep_bytes n now comp cursor b b' r g c : sweepExpired n now comp cursor b = (b', r, g, c) →
  sum_with pair_bytes (b_entries b) = sum_with pair_bytes (b_entries b') + r.
Proof.
  intros Hs. refine (sweep_ind (λ b' r, sum_with pair_bytes (b_entries b) = sum_with pair_bytes (b_entries b') + r)
    now comp _ n cursor b b' r g c Hs _); [|lia].
  intros b1 r1 [k v] Hin _ ->. rewrite (sum_delete pair_bytes k v b1 Hin). cbn [fst]. lia.
Qed.

Lemma sweep_values n now comp cursor b b' r g c : sweepExpired n now comp cursor b = (b', r, g, c) → value_bytes b' ≤ value_bytes b.
Proof.
  intros Hs. refine (sweep_ind (λ b' _, value_bytes b' ≤ value_bytes b) now comp _ n cursor b b' r g c Hs _); [|lia].
  intros b1 r1 [k v] Hin _ Hle. unfold value_bytes in *. rewrite (sum_delete (λ kv : string * string, len kv.2) k v b1 Hin) in Hle.
  cbn [fst snd] in Hle |- *. pose proof (Zle_0_nat (String.length v)). unfold len in *. lia.
Qed.

Lemma value_bytes_le_pairs b : value_bytes b ≤ sum_with pair_bytes (b_entries b).
Proof. apply sum_with_mono. intros kv. unfold pair_bytes, len. lia. Qed.

Lemma commit_cap now n order d : 0 < maxBytes d → value_bytes (db d) ≤ maxBytes d →
  value_bytes (db (commit now n order d)) ≤ maxBytes d.
Proof.
  intros Hm Hv. destruct (commit_cases now n order d) as (b & r & g & c & b' & cur & w & ev & ok & Hs & Hp & ->).
  cbn. destruct ok; [|done]. cbn. rewrite (proj2 (Z.ltb_lt 0 (maxBytes d))) in Hp by done.
  pose proof (sweep_values _ _ _ _ _ _ _ _ _ Hs) as Hle.
  apply (putAll_ind (λ b cur, value_bytes b ≤ cur ∧ value_bytes b ≤ maxBytes d) _ _ _) in Hp as [_ ?]; [done| |].
  - intros ke b0 b1 cur0 cur1 w0 ev0 w1 ev1 _ [[ev' [= -> -> _ _]]|(enc & b2 & cand & _ & Hput & [= -> -> _ _] & Hcap)]%putEntry_cases [H1 H2]; [done|].
    destruct (Hcap Hm) as [Hc1 Hc2]. rewrite (value_bytes_Put _ _ _ _ Hput). lia.
  - split; [|lia]. pose proof (sweep_bytes _ _ _ _ _ _ _ _ _ Hs). pose proof (b_LeafInuse_spec (db d)).
    pose proof (value_bytes_le_pairs b). lia.
Qed.

(** With a cap configured, the value bytes on disk never exceed it, under any
    interleaving of flushes with the other calls. *)
Theorem disk_within_cap comp size minttl maxb s :
  reachable comp size minttl maxb s → 0 < maxb → value_bytes (db (cache s)) ≤ maxb.
Proof.
  intros Hr Hm. refine (proj2 (rtc_ind_r (λ s, maxBytes (cache s) = maxb ∧ value_bytes (db (cache s)) ≤ maxb) _ _ _ s Hr)).
  - cbn. unfold value_bytes. rewrite b_entries_empty. cbn. lia.
  - intros y z _ Hyz [Emax Hv].
    destruct Hyz as [now k v ttl d fl lg Ht Hmin|order d fl lg Hperm|i now n order d fl lg Hi Hn|now k stale m d fl lg Hsub
      |i k d fl lg Hi|d fl lg|d fl lg]; cbn [cache] in *; try done.
    + unfold bufferWrite. by case_match.
    + split; [|rewrite <- Emax in Hm, Hv |- *; by apply commit_cap].
      destruct (commit_cases now n order d) as (b & r & g & c & b' & cur & w & ev & ok & _ & _ & ->). by destruct ok.
    + destruct (get_db_same now k stale (with_buffer m d)) as (Ed & _ & _ & Em). cbn. by rewrite Ed, Em.
    + split; [done|]. cbn. unfold value_bytes. rewrite b_Delete_spec.
      etrans; [|exact Hv]. apply sum_with_filter. intros kv. unfold len. lia.
    + split; [done|]. cbn. unfold value_bytes. rewrite b_entries_empty. cbn. lia.
Qed.

(** ** Failed transactions *)

Lemma putAll_aborts comp maxb k e raw order : maxb ≤ 0 → (k, e) ∈ order → stored comp e = Some raw →
  bolt_accepts k raw = false → ∀ t, (putAll comp maxb order t).2 = false.
Proof.
  intros Hm Hin Hst Hrej. induction order as [|ke order IH]; [by apply not_elem_of_nil in Hin|].
  intros [[[b cur] w] ev]. cbn [putAll]. apply elem_of_cons in Hin as [<-|Hin].
  - unfold putEntry. cbn [fst snd]. rewrite Hst, (proj2 (Z.ltb_ge 0 maxb)) by lia. cbn [andb].
    destruct (b_Put_err k raw b Hrej) as [msg ->]. done.
  - destruct (putEntry comp maxb ke (b, cur, w, ev)); [by apply IH|done].
Qed.

(** A single key that bbolt does not take (an empty one, or one longer than
    32768 bytes) costs the whole batch: the buffer is emptied and nothing of it
    reaches the bucket. *)
Theorem rejected_key_loses_batch now n order d k e raw :
  maxBytes d ≤ 0 → (k, e) ∈ order → stored (compression d) e = Some raw → bolt_accepts k raw = false →
  writeBuf (Flush now n order d) = ∅ ∧ db (Flush now n order d) = db d.
Proof.
  intros Hm Hin Hst Hrej. unfold Flush.
  destruct (commit_cases now n order (takeBuffer d)) as (b & r & g & c & b' & cur & w & ev & ok & _ & Hp & ->).
  pose proof (putAll_aborts (compression d) (maxBytes d) k e raw order Hm Hin Hst Hrej) as Hab.
  specialize (Hab (b, Z.max 0 ((if 0 <? maxBytes d then b_LeafInuse (db d) else 0) - r), 0, g)).
  change (maxBytes (takeBuffer d)) with (maxBytes d) in Hp.
  change (compression (takeBuffer d)) with (compression d) in Hp.
  change (db (takeBuffer d)) with (db d) in Hp. rewrite Hp in Hab. cbn in Hab. by subst ok.
Qed.

End Laws.

(** ** The promise to the lookup chain *)

Section Tier.
Context {B : Type} `{BL : BoltLaws B} `{GL : GzipLaws}.
(** Where the sweep's deadline falls, and the order of the map iteration. *)
Context (n : nat) (order : gmap string diskEntry → list (string * diskEntry)).

#[local] Instance disk_l2 : L2Store (DiskCache (B := B)) := {|
  l2_GetWithTTL := GetWithTTL;
  l2_GetStaleWithTTL := GetStaleWithTTL;
  l2_Set now k v ttl d := Set_ now k v ttl n order d;
  l2_Purge := Purge
|}.

#[local] Instance disk_l2_laws : L2Laws (DiskCache (B := B)).
Proof.
  constructor. intros now k d v ttl d' Hg. cbn in Hg.
  assert (fst (getWithTTL now k false d) = Some (v, ttl)) as Hf by (unfold GetWithTTL in Hg; by rewrite Hg).
  rewrite get_found, bind_Some in Hf. destruct Hf as ([v' x] & _ & Ha). unfold answer in Ha. cbn in Ha.
  destruct (Z.leb_spec (time_sub x now) 0); cbn in Ha; by simplify_eq.
Qed.


End Tier.
End Disk.

(** ** Witnesses *)

(** A bucket as a list of pairs, read in key order. *)
Module DiskDemo.
Import Text Disk.

Definition pair_lt (x y : string * string) : Prop := key_lt x.1 y.1.

Fixpoint ins (kv : string * string) (l : list (string * string)) : list (string * string) :=
  match l with
  | [] => [kv]
  | x :: l' =>
      if String.ltb kv.1 x.1 then kv :: l
      else if String.ltb x.1 kv.1 then x :: ins kv l'
      else kv :: l'
  end.

Fixpoint seek (c : string) (l : list (string * string)) : list (string * string) :=
  match l with
  | [] => []
  | x :: l' => if String.ltb x.1 c then seek c l' else l
  end.

Definition accepted (kv : string * string) : Prop := bolt_accepts kv.1 kv.2 = true.
Definition norm (l : list (string * string)) : list (string * string) := foldr ins [] (filter accepted l).

Lemma pair_lt_trans : Transitive pair_lt.
Proof. intros x y z. apply key_lt_trans. Qed.

Lemma ins_spec kv l : StronglySorted pair_lt l →
  StronglySorted pair_lt (ins kv l) ∧ ins kv l ≡ₚ kv :: filter (λ x, x.1 ≠ kv.1) l.
Proof.
  induction 1 as [|x l Hs IH Hx]; [split; [by repeat constructor|done]|].
  destruct IH as [IHs IHp]. cbn [ins].
  assert (∀ z, pair_lt z x → Forall (pair_lt z) l) as Hall.
  { intros z Hz. eapply Forall_impl; [exact Hx|]. intros y. by apply pair_lt_trans. }
  assert (∀ z, Forall (pair_lt z) l → filter (λ y, y.1 ≠ z.1) l = l) as Hid.
  { intros z Hz. apply filter_all. eapply Forall_impl; [exact Hz|]. intros y Hy E.
    unfold pair_lt, key_lt in Hy. rewrite E, ltb_irrefl in Hy. done. }
  destruct (String.ltb kv.1 x.1) eqn:E1; [|destruct (String.ltb x.1 kv.1) eqn:E2].
  - split; [repeat constructor; [done|done|done|by apply Hall]|].
    rewrite filter_cons_True, Hid; [done|by apply Hall|].
    intros E. rewrite E, ltb_irrefl in E1. done.
  - split.
    + constructor; [done|]. rewrite IHp. constructor; [done|]. by apply Forall_filter_mono.
    + rewrite filter_cons_True, IHp; [constructor|]. intros E. rewrite E, ltb_irrefl in E2. done.
  - pose proof (ltb_trichotomy _ _ E1 E2) as E.
    assert (∀ y, pair_lt x y → pair_lt kv y) as Hxy by (intros y; unfold pair_lt; by rewrite E).
    split; [constructor; [done|by eapply Forall_impl]|]. rewrite filter_cons_False by (by intros []).
    rewrite (Hid kv) by (by eapply Forall_impl). done.
Qed.

Lemma norm_sorted l : StronglySorted pair_lt (norm l) ∧ Forall accepted (norm l).
Proof.
  unfold norm. induction l as [|x l [IHs IHa]]; [by split; constructor|].
  rewrite filter_cons. destruct (decide (accepted x)); [|done]. cbn [foldr].
  destruct (ins_spec x _ IHs) as [Hs Hp]. split; [done|]. rewrite Hp. constructor; [done|]. by apply Forall_filter_mono.
Qed.

Lemma norm_fix l : StronglySorted pair_lt l → Forall accepted l → norm l = l.
Proof.
  intros Hs Ha. unfold norm. rewrite filter_all by done. clear Ha.
  induction Hs as [|x l Hs IH Hx]; [done|]. cbn [foldr]. rewrite IH.
  destruct l as [|y l]; [done|]. cbn [ins]. apply Forall_cons in Hx as [Hxy _].
  unfold pair_lt, key_lt in Hxy. by rewrite Hxy.
Qed.

Lemma sorted_NoDup l : StronglySorted pair_lt l → NoDup l.*1.
Proof.
  induction 1 as [|x l Hs IH Hx]; [constructor|]. cbn. constructor; [|done].
  intros (y & E & Hy)%list_elem_of_fmap. rewrite Forall_forall in Hx. specialize (Hx y Hy).
  unfold pair_lt, key_lt in Hx. rewrite <- E, ltb_irrefl in Hx. done.
Qed.

Definition lookup_pair (k : string) (l : list (string * string)) : option string :=
  snd <$> head (filter (λ kv, kv.1 = k) l).

#[local] Instance pairs : Bolt (list (string * string)) := {|
  b_empty := [];
  b_entries := norm;
  b_Get k l := lookup_pair k (norm l);
  b_Put k v l := if bolt_accepts k v then Ok ((k, v) :: l) else Err "key or value";
  b_Delete k l := filter (λ kv, kv.1 ≠ k) (norm l);
  b_First l := head (norm l);
  b_Seek c l := head (seek c (norm l));
  b_Next c l := head (filter (λ kv, String.ltb c kv.1 = true) (norm l));
  b_NextDeleted c l := head (filter (λ kv, String.ltb c kv.1 = true) (norm l));
  b_LeafInuse l := sum_with pair_bytes (norm l)
|}.

Lemma NoDup_fst_inj (l : list (string * string)) k v v' : NoDup l.*1 → (k, v) ∈ l → (k, v') ∈ l → v = v'.
Proof.
  intros Hnd [i Hi]%list_elem_of_lookup [j Hj]%list_elem_of_lookup.
  assert (i = j) as <-; [|congruence].
  eapply (NoDup_lookup l.*1); [done|..]; rewrite list_lookup_fmap; [by rewrite Hi|by rewrite Hj].
Qed.

Lemma lookup_pair_spec k l v : NoDup l.*1 → lookup_pair k l = Some v ↔ (k, v) ∈ l.
Proof.
  intros Hnd. unfold lookup_pair. split.
  - destruct (filter (λ kv, kv.1 = k) l) as [|[k' v'] r] eqn:E; [done|]. intros [= <-].
    assert ((k', v') ∈ filter (λ kv, kv.1 = k) l) as [<- Hin]%list_elem_of_filter by (rewrite E; left). done.
  - intros Hin. destruct (filter (λ kv, kv.1 = k) l) as [|[k' v'] r] eqn:E.
    + assert ((k, v) ∈ filter (λ kv, kv.1 = k) l) as Hx by (by apply list_elem_of_filter).
      rewrite E in Hx. by apply not_elem_of_nil in Hx.
    + assert ((k', v') ∈ filter (λ kv, kv.1 = k) l) as [Ek Hin']%list_elem_of_filter by (rewrite E; left).
      cbn in Ek. subst k'. cbn. f_equal. by eapply NoDup_fst_inj.
Qed.

Lemma head_elem {A} (l : list A) x : head l = Some x → x ∈ l.
Proof. destruct l; [done|]. intros [= ->]. by left. Qed.

#[local] Instance pairs_laws : BoltLaws (list (string * string)).
Proof.
  constructor; cbn.
  - done.
  - intros b. apply sorted_NoDup, norm_sorted.
  - intros k b v. apply lookup_pair_spec, sorted_NoDup, norm_sorted.
  - intros k v b Hacc. rewrite Hacc. eexists. split; [done|]. unfold norm at 1.
    rewrite filter_cons_True by done. cbn [foldr]. apply (ins_spec (k, v)), norm_sorted.
  - intros k v b ->. by eexists.
  - intros k b. destruct (norm_sorted b) as [Hs Ha].
    apply norm_fix; [by apply sorted_filter|by apply Forall_filter_mono].
  - intros b kv. apply head_elem.
  - intros c b kv Hs%head_elem. revert Hs. induction (norm b) as [|x l IH]; [done|]. cbn [seek].
    destruct (String.ltb x.1 c); [|done]. intros Hkv. right. by apply IH.
  - intros c b kv Hs%head_elem. by apply list_elem_of_filter in Hs as [_ Hs].
  - intros c b kv Hs%head_elem. by apply list_elem_of_filter in Hs as [_ Hs].
  - done.
Qed.

(** Gzip without compression. *)
#[local] Instance stored_blocks : Gzip := {|
  gz_compress d := Ok d;
  gz_decompress d := Ok d;
  gz_header d := if (8 <=? String.length d)%nat then Some (Utf8.prefix 8 d) else None
|}.

#[local] Instance stored_blocks_laws : GzipLaws.
Proof.
  constructor; [by intros d c [= <-]|]. intros d c [= <-] Hl. unfold gz_header, stored_blocks.
  by rewrite (proj2 (Nat.leb_le _ _) Hl).
Qed.

#[local] Notation bucket := (list (string * string)).
#[local] Notation disk := (DiskCache (B := bucket)).

Definition fresh (maxb : Z) : disk := NewDiskCache true 100 0 maxb.

(** One write buffered, nothing stored. *)
Definition one : disk := bufferWrite 5 "k" "old" 100 (fresh 0).
Definition entry_old : diskEntry := mkEntry "old" 105.
Definition entry_new : diskEntry := mkEntry "new" 107.

(** Two flushes in flight may commit in the other order, and the older value of
    a key then replaces the newer one on disk for the rest of its lifetime. *)
Theorem older_flush_can_win :
  ∃ s : conf, reachable true 100 0 0 s ∧ inflight s = [] ∧
    log s = [("k", entry_new); ("k", entry_old)] ∧
    fst (GetWithTTL 10 "k" (cache s)) = Some ("old", 95).
Proof.
  eexists. split_and!.
  - unfold reachable.
    eapply rtc_l; [apply (step_set 5 "k" "old" 100); cbn; lia|].
    eapply rtc_l; [apply (step_take [("k", entry_old)]); vm_compute; reflexivity|].
    eapply rtc_l; [apply (step_set 7 "k" "new" 100); cbn; lia|].
    eapply rtc_l; [apply (step_take [("k", entry_new)]); vm_compute; reflexivity|].
    eapply rtc_l; [apply (step_commit 0 8 1); [reflexivity|lia]|].
    eapply rtc_l; [apply (step_commit 0 9 1); [reflexivity|lia]|].
    apply rtc_refl.
  - vm_compute. reflexivity.
  - vm_compute. reflexivity.
  - vm_compute. reflexivity.
Qed.

Lemma one_wf : wf one.
Proof.
  split.
  - intros k raw Hg. vm_compute in Hg. done.
  - intros k e He. unfold one in He. cbn in He. apply lookup_insert_Some in He as [[_ <-]|[_ He]].
    + apply wrap64_range.
    + by apply lookup_empty_Some in He.
Qed.

Lemma flush_transparent_witness :
  fst (GetWithTTL 9 "k" (Flush 8 1 [("k", entry_old)] one)) = Some ("old", 96).
Proof.
  transitivity (fst (GetWithTTL 9 "k" one)); [|vm_compute; reflexivity].
  refine (flush_transparent 8 1 [("k", entry_old)] one 9 "k" one_wf _ _ _ _);
    [vm_compute; discriminate|vm_compute; reflexivity| |lia].
  constructor; [|constructor]. exists (PutUint64 105 +:+ "old"). split; vm_compute; reflexivity.
Defined.

Lemma disk_hit_was_written_witness :
  ∃ e, ("k", e) ∈ [("k", entry_old)] ∧ "old" = Value e ∧ 95 = time_sub (ExpiresAt e) 10 ∧
    (false = false → 10 < ExpiresAt e).
Proof.
  refine (disk_hit_was_written true 100 0 0 (mkConf one [] [("k", entry_old)]) 10 "k" false
    (writeBuf one) "old" 95 _ (reflexivity _) _); [|vm_compute; reflexivity].
  eapply rtc_l; [apply (step_set 5 "k" "old" 100); cbn; lia|]. apply rtc_refl.
Defined.

(** A cap of 40 bytes and a pair of 12. *)
Definition capped : conf :=
  mkConf (commit 6 1 [("k", entry_old)] (takeBuffer (bufferWrite 5 "k" "old" 100 (fresh 40)))) []
    [("k", entry_old)].

Lemma disk_within_cap_witness : value_bytes (db (cache capped)) ≤ 40.
Proof.
  refine (disk_within_cap true 100 0 40 capped _ _); [|lia].
  eapply rtc_l; [apply (step_set 5 "k" "old" 100); cbn; lia|].
  eapply rtc_l; [apply (step_take [("k", entry_old)]); vm_compute; reflexivity|].
  eapply rtc_l; [apply (step_commit 0 6 1); [reflexivity|lia]|]. apply rtc_refl.
Defined.

Lemma rejected_key_loses_batch_witness :
  writeBuf (Flush 6 1 [("a", entry_old); ("", entry_new)] (fresh 0)) = ∅ ∧
  db (Flush 6 1 [("a", entry_old); ("", entry_new)] (fresh 0)) = [].
Proof.
  refine (rejected_key_loses_batch 6 1 [("a", entry_old); ("", entry_new)] (fresh 0) "" entry_new
    (PutUint64 107 +:+ "new") _ _ _ _);
    [cbn; lia|right; left|vm_compute; reflexivity|vm_compute; reflexivity].
Defined.

End DiskDemo.
