(* ===== verification/Sha256.v ===== *)
(** * SHA-256 (crypto/sha256 of Go's standard library)

    Executable, on byte strings, because the ring position of a key
    ([hashKey], src/internal/cache/peer.go) and the coalescing key of a request
    ([RequestKey], src/internal/middleware/coalescer.go) are prefixes of it. *)

From S2P Require Import Prelude.

#[local] Open Scope Z_scope.

Module Sha256.

Definition add32 (a b : Z) : Z := (a + b) mod 2 ^ 32.

Definition rotr (n x : Z) : Z :=
  Z.lor (Z.shiftr x n) (Z.shiftl x (32 - n) mod 2 ^ 32).

Definition not32 (x : Z) : Z := 2 ^ 32 - 1 - x.

(** ** Constants

    The round constants are the first 32 fractional bits of the cube roots of the
    first 64 primes, the initial state those of the square roots of the first 8. *)

Definition is_prime (n : nat) : bool :=
  (1 <? n)%nat && forallb (λ d, negb (Nat.modulo n d =? 0)%nat) (seq 2 (n - 2)).

Definition primes : list Z := map Z.of_nat (base.filter (λ n, is_prime n = true) (seq 2 310)).

(** The largest [r] with [r ^ 3 <= n] and [r < acc + 2 ^ bits], bit by bit. *)
Fixpoint cube_root (bits : nat) (n acc : Z) : Z :=
  match bits with
  | O => acc
  | S bits =>
      let r := acc + 2 ^ Z.of_nat bits in
      cube_root bits n (if r * r * r <=? n then r else acc)
  end.

Definition K : list Z :=
  Eval vm_compute in map (λ p, cube_root 36 (p * 2 ^ 96) 0 mod 2 ^ 32) primes.

Definition H0 : list Z :=
  Eval vm_compute in map (λ p, Z.sqrt (p * 2 ^ 64) mod 2 ^ 32) (take 8 primes).

(** ** Padding *)

Fixpoint bytes_of (s : string) : list Z :=
  match s with
  | EmptyString => []
  | String c rest => Z.of_N (Ascii.N_of_ascii c) :: bytes_of rest
  end.

(** The [n] low bytes of [z], most significant first. *)
Fixpoint big_endian (n : nat) (z : Z) : list Z :=
  match n with
  | O => []
  | S n => Z.shiftr z (8 * Z.of_nat n) mod 256 :: big_endian n z
  end.

Definition padding (len : Z) : list Z :=
  0x80 :: replicate (Z.to_nat ((55 - len) mod 64)) 0 ++ big_endian 8 (8 * len).

Fixpoint words_of (bs : list Z) : list Z :=
  match bs with
  | a :: b :: c :: d :: rest =>
      (Z.shiftl a 24 + Z.shiftl b 16 + Z.shiftl c 8 + d) :: words_of rest
  | _ => []
  end.

(** ** Compression *)

(** Message schedule, newest word first: 48 words are derived from the 16 of
    the block. *)
Fixpoint extend (n : nat) (w : list Z) : list Z :=
  match n with
  | O => w
  | S n =>
      let at_ i := nth i w 0 in
      let w15 := at_ 14%nat in
      let w2 := at_ 1%nat in
      let s0 := Z.lxor (Z.lxor (rotr 7 w15) (rotr 18 w15)) (Z.shiftr w15 3) in
      let s1 := Z.lxor (Z.lxor (rotr 17 w2) (rotr 19 w2)) (Z.shiftr w2 10) in
      extend n (add32 (add32 (at_ 15%nat) s0) (add32 (at_ 6%nat) s1) :: w)
  end.

Definition round (st : list Z) (kw : Z * Z) : list Z :=
  match st with
  | [a; b; c; d; e; f; g; h] =>
      let S1 := Z.lxor (Z.lxor (rotr 6 e) (rotr 11 e)) (rotr 25 e) in
      let ch := Z.lxor (Z.land e f) (Z.land (not32 e) g) in
      let t1 := add32 (add32 (add32 h S1) (add32 ch kw.1)) kw.2 in
      let S0 := Z.lxor (Z.lxor (rotr 2 a) (rotr 13 a)) (rotr 22 a) in
      let maj := Z.lxor (Z.lxor (Z.land a b) (Z.land a c)) (Z.land b c) in
      [add32 t1 (add32 S0 maj); a; b; c; add32 d t1; e; f; g]
  | _ => st
  end.

Definition compress (h : list Z) (block : list Z) : list Z :=
  let w := rev (extend 48 (rev block)) in
  zip_with add32 h (foldl round h (zip K w)).

Fixpoint blocks (n : nat) (ws : list Z) (h : list Z) : list Z :=
  match n with
  | O => h
  | S n => blocks n (drop 16 ws) (compress h (take 16 ws))
  end.

(** [sha256.Sum256] as eight 32-bit words. *)
Definition sum_words (s : string) : list Z :=
  let bs := bytes_of s in
  let ws := words_of (bs ++ padding (Z.of_nat (length bs))) in
  blocks (Nat.div (length ws) 16) ws H0.

(** FIPS 180-4, the one-block example "abc" and the two-block example. *)
Example sha256_abc :
  sum_words "abc" =
  [0xba7816bf; 0x8f01cfea; 0x414140de; 0x5dae2223; 0xb00361a3; 0x96177a9c; 0xb410ff61; 0xf20015ad].
Proof. vm_compute. reflexivity. Qed.

Example sha256_two_blocks :
  sum_words "abcdbcdecdefdefgefghfghighijhijkijkljklmklmnlmnomnopnopq" =
  [0x248d6a61; 0xd20638b8; 0xe5c02693; 0x0c3e6039; 0xa33ce459; 0x64ff2167; 0xf6ecedd4; 0x19db06c1].
Proof. vm_compute. reflexivity. Qed.

(** ** Hexadecimal rendering *)

Definition hex_digit (z : Z) : Ascii.ascii :=
  Ascii.ascii_of_N (Z.to_N (if z <? 10 then 48 + z else 87 + z)).

Fixpoint hex_digits (n : nat) (z : Z) : string :=
  match n with
  | O => EmptyString
  | S n => String (hex_digit (Z.shiftr z (4 * Z.of_nat n) mod 16)) (hex_digits n z)
  end.

(** [fmt.Sprintf("%x", h.Sum(nil))]. *)
Definition hex_of (s : string) : string :=
  String.concat "" (map (hex_digits 8) (sum_words s)).

End Sha256.
