(* ===== verification/HashRing.v ===== *)
(** * Consistent hashing of cache keys to peers
      (src/internal/cache/peer.go, [hashRing])

    [Ring.add] and [Ring.get] follow the code, with the binary search of
    [sort.Search] spelled out.  [is_succ] is the reference: the owner of a key
    is the node of the first ring point at or after the key's hash, wrapping
    around.  The ring is generic in the hash; [hashKey] is the one in use. *)

From S2P Require Import Prelude GoText Sha256.


#[local] Open Scope Z_scope.

Module Ring.

(** [binary.BigEndian.Uint32(sha256.Sum256(key)[:4])]. *)
Definition hashKey (key : string) : Z := nth 0 (Sha256.sum_words key) 0.

(** The loop of [sort.Search]: halve [i, j) keeping [f(i-1) = false] and
    [f(j) = true]. *)
Fixpoint search_loop (fuel : nat) (f : nat → bool) (i j : nat) : nat :=
  match fuel with
  | O => i
  | S fuel =>
      if (i <? j)%nat then
        let h := Nat.div (i + j) 2 in
        if f h then search_loop fuel f i h else search_loop fuel f (S h) j
      else i
  end.

(** Every iteration shortens the interval, so its length is enough fuel. *)
Definition Search (n : nat) (f : nat → bool) : nat := search_loop n f 0 n.

Section Hashed.
Context (hash : string → Z).

Record hashRing : Type := mkRing {
  vnodes : nat;
  ring : list Z;
  nodeMap : gmap Z string
}.

Definition newHashRing (n : nat) : hashRing := mkRing n [] ∅.

(** The virtual node [i] of a peer: [hashKey(fmt.Sprintf("%s#%d", addr, i))]. *)
Definition vnode (addr : string) (i : nat) : Z :=
  hash (addr +:+ "#" +:+ Text.Itoa (Z.of_nat i)).

Definition add (addr : string) (hr : hashRing) : hashRing :=
  let hs := map (vnode addr) (seq 0 (vnodes hr)) in
  mkRing (vnodes hr)
    (merge_sort Z.le (ring hr ++ hs))
    (foldl (λ m h, <[h := addr]> m) (nodeMap hr) hs).

Definition get (key : string) (hr : hashRing) : string :=
  match ring hr with
  | [] => ""
  | _ =>
      let h := hash key in
      let n := length (ring hr) in
      let idx := Search n (λ i, h <=? nth i (ring hr) 0) in
      let idx := if (idx =? n)%nat then 0%nat else idx in
      default "" (nodeMap hr !! nth idx (ring hr) 0)
  end.

(** [updatePeers]: a new ring with every peer added in list order. *)
Definition updateRing (n : nat) (peers : list string) : hashRing :=
  foldl (λ hr p, add p hr) (newHashRing n) peers.

(** ** Reference *)

(** [x] is the first point of [S] at or after [h], wrapping around. *)
Definition is_succ (h : Z) (S : Z → Prop) (x : Z) : Prop :=
  S x ∧ ((h ≤ x ∧ ∀ y, S y → h ≤ y → x ≤ y) ∨
         ((∀ y, S y → y < h) ∧ ∀ y, S y → x ≤ y)).

(** Points are sorted and all have a node. *)
Definition wf (hr : hashRing) : Prop :=
  StronglySorted Z.le (ring hr) ∧
  ∀ h, h ∈ ring hr ↔ is_Some (nodeMap hr !! h).

(** ** Lemmas *)

Lemma search_loop_spec fuel f i j n :
  (i ≤ j ≤ n)%nat → (j - i ≤ fuel)%nat →
  (∀ a b, (a ≤ b)%nat → (b < n)%nat → f a = true → f b = true) →
  (∀ a, (a < i)%nat → f a = false) → (∀ a, (j ≤ a)%nat → (a < n)%nat → f a = true) →
  let r := search_loop fuel f i j in
  (r ≤ n)%nat ∧ (∀ a, (a < r)%nat → f a = false) ∧ (∀ a, (r ≤ a)%nat → (a < n)%nat → f a = true).
Proof.
  revert i j. induction fuel as [|fuel IH]; intros i j Hij Hfuel Hmono Hlo Hhi; cbn [search_loop]; cbv zeta.
  { assert (i = j) as -> by lia. split; [lia|done]. }
  destruct (Nat.ltb_spec i j) as [Hlt|Hge].
  - assert (i ≤ Nat.div (i + j) 2 < j)%nat as Hm.
    { split; [apply Nat.div_le_lower_bound; lia|apply Nat.Div0.div_lt_upper_bound; lia]. }
    set (h := Nat.div (i + j) 2) in *. destruct (f h) eqn:Hf.
    + apply IH; try lia; try done. intros a Ha Hn. by apply (Hmono h).
    + apply IH; try lia; try done. intros a Ha.
      destruct (f a) eqn:Ea; [|done]. rewrite (Hmono a h) in Hf; [done|lia|lia|done].
  - assert (i = j) as -> by lia. split; [lia|done].
Qed.

Lemma Search_spec n f :
  (∀ a b, (a ≤ b)%nat → (b < n)%nat → f a = true → f b = true) →
  (Search n f ≤ n)%nat ∧ (∀ a, (a < Search n f)%nat → f a = false) ∧
  (∀ a, (Search n f ≤ a)%nat → (a < n)%nat → f a = true).
Proof. intros. apply search_loop_spec; lia || done. Qed.

Lemma sorted_nth (l : list Z) a b :
  StronglySorted Z.le l → (a ≤ b)%nat → (b < length l)%nat → nth a l 0 ≤ nth b l 0.
Proof.
  intros Hs. revert a b. induction Hs as [|x l Hs IH Hall]; intros a b Hab Hb; simpl in *; [lia|].
  destruct a as [|a], b as [|b]; try lia.
  - eapply Forall_forall; [exact Hall|]. apply list_elem_of_In, nth_In. lia.
  - apply IH; lia.
Qed.

Lemma elem_nth (l : list Z) x : x ∈ l ↔ ∃ i, (i < length l)%nat ∧ nth i l 0 = x.
Proof.
  rewrite list_elem_of_In. split; [apply In_nth|]. intros (i & Hi & <-). by apply nth_In.
Qed.

Lemma is_succ_unique h S x y : is_succ h S x → is_succ h S y → x = y.
Proof.
  intros (Sx & [[Hx Mx]|[Nx Mx]]) (Sy & [[Hy My]|[Ny My]]).
  - pose proof (Mx y Sy Hy). pose proof (My x Sx Hx). lia.
  - pose proof (Ny x Sx). lia.
  - pose proof (Nx y Sy). lia.
  - pose proof (Mx y Sy). pose proof (My x Sx). lia.
Qed.

Lemma is_succ_ext h (S S' : Z → Prop) x :
  (∀ y, S y ↔ S' y) → is_succ h S x → is_succ h S' x.
Proof. unfold is_succ. firstorder. Qed.

(** The binary search finds the reference point. *)
Lemma get_is_succ key hr :
  wf hr → ring hr ≠ [] →
  ∃ x, is_succ (hash key) (λ y, y ∈ ring hr) x ∧
       nodeMap hr !! x = Some (get key hr).
Proof.
  intros [Hs Hn] Hne. unfold get. destruct (ring hr) as [|z0 zs] eqn:Hr; [done|].
  set (l := z0 :: zs) in *. set (h := hash key).
  set (idx := Search (length l) (λ i, h <=? nth i l 0)).
  destruct (Search_spec (length l) (λ i, h <=? nth i l 0)) as (Hle & Hlo & Hhi).
  { intros a b Hab Hb Ha%Z.leb_le. apply Z.leb_le. pose proof (sorted_nth l a b Hs Hab Hb). lia. }
  fold idx in Hle, Hlo, Hhi.
  assert (∀ i, (i < length l)%nat → ∃ p, nodeMap hr !! nth i l 0 = Some p) as Hp.
  { intros i Hi. apply Hn, elem_nth. by exists i. }
  destruct (Nat.eqb_spec idx (length l)) as [He|He].
  - exists (nth 0 l 0). split; [|destruct (Hp 0%nat) as [p ->]; [simpl; lia|done]].
    split; [apply elem_nth; exists 0%nat; simpl; split; [lia|done]|]. right. split.
    + intros y (i & Hi & <-)%elem_nth. apply Z.leb_gt, Hlo. lia.
    + intros y (i & Hi & <-)%elem_nth. apply (sorted_nth l); [done|apply Nat.le_0_l|done].
  - exists (nth idx l 0). split; [|destruct (Hp idx) as [p ->]; [lia|done]].
    split; [apply elem_nth; exists idx; split; [lia|done]|]. left. split.
    + apply Z.leb_le, Hhi; lia.
    + intros y (i & Hi & <-)%elem_nth Hy. destruct (decide (idx ≤ i)%nat).
      * apply sorted_nth; [done|lia|done].
      * specialize (Hlo i ltac:(lia)). cbv beta in Hlo. apply Z.leb_gt in Hlo. lia.
Qed.

Lemma insert_all_lookup (addr : string) (hs : list Z) (m : gmap Z string) h :
  foldl (λ m h, <[h := addr]> m) m hs !! h =
  if decide (h ∈ hs) then Some addr else m !! h.
Proof.
  revert m. induction hs as [|x hs IH]; intros m; cbn [foldl].
  { case_decide as H; [by apply not_elem_of_nil in H|done]. }
  rewrite IH. destruct (decide (h = x)) as [->|Hne].
  - rewrite (decide_True (P := x ∈ x :: hs)) by left. rewrite lookup_insert_eq. by case_decide.
  - rewrite lookup_insert_ne by done.
    case_decide as H1; case_decide as H2; try done; rewrite elem_of_cons in H2; tauto.
Qed.

Lemma add_points addr hr h :
  h ∈ ring (add addr hr) ↔ h ∈ ring hr ∨ h ∈ map (vnode addr) (seq 0 (vnodes hr)).
Proof.
  unfold add. cbn [ring]. rewrite merge_sort_Permutation, elem_of_app. done.
Qed.

Lemma add_lookup addr hr h :
  nodeMap (add addr hr) !! h =
  if decide (h ∈ map (vnode addr) (seq 0 (vnodes hr))) then Some addr else nodeMap hr !! h.
Proof. unfold add. cbn [nodeMap]. apply insert_all_lookup. Qed.

Lemma add_wf addr hr : wf hr → wf (add addr hr).
Proof.
  intros [Hs Hn]. split.
  - cbn [add ring]. apply StronglySorted_merge_sort; apply _.
  - intros h. rewrite add_points, add_lookup, Hn.
    case_decide; [split; [by eexists|by right]|tauto].
Qed.

Lemma update_wf n peers : wf (updateRing n peers) ∧ vnodes (updateRing n peers) = n.
Proof.
  unfold updateRing.
  assert (wf (newHashRing n) ∧ vnodes (newHashRing n) = n) as H.
  { split; [|done]. split; [constructor|]. intros h. simpl. rewrite lookup_empty.
    split; [intros []%not_elem_of_nil|intros [? [=]]]. }
  revert H. generalize (newHashRing n). induction peers as [|p ps IH]; intros hr [H1 H2]; [done|].
  simpl. apply IH. split; [by apply add_wf|done].
Qed.

(** The map of a ring names a peer that was added and hashes to the point. *)
Lemma update_lookup n peers h p :
  nodeMap (updateRing n peers) !! h = Some p →
  p ∈ peers ∧ ∃ i, (i < n)%nat ∧ vnode p i = h.
Proof.
  induction peers as [|q qs IH] using rev_ind; intros Hl.
  { change ((∅ : gmap Z string) !! h = Some p) in Hl. by rewrite lookup_empty in Hl. }
  unfold updateRing in *. rewrite foldl_app in Hl. cbn [foldl] in Hl.
  rewrite add_lookup, (proj2 (update_wf n qs) : vnodes (foldl _ _ _) = n) in Hl.
  case_decide as Hd.
  - injection Hl as <-. split; [apply elem_of_app; right; left|].
    apply list_elem_of_In, in_map_iff in Hd as (i & Hi & Hseq).
    apply in_seq in Hseq. exists i. split; [lia|done].
  - destruct (IH Hl). split; [apply elem_of_app; by left|done].
Qed.

Lemma update_points n peers h :
  h ∈ ring (updateRing n peers) ↔ ∃ p i, p ∈ peers ∧ (i < n)%nat ∧ vnode p i = h.
Proof.
  induction peers as [|q qs IH] using rev_ind.
  { split; [intros []%not_elem_of_nil|intros (? & ? & []%not_elem_of_nil & _)]. }
  unfold updateRing in *. rewrite foldl_app. cbn [foldl]. rewrite add_points, IH.
  rewrite (proj2 (update_wf n qs) : vnodes (foldl _ _ _) = n).
  rewrite (list_elem_of_In (map _ _)), in_map_iff. setoid_rewrite elem_of_app.
  setoid_rewrite list_elem_of_singleton. setoid_rewrite in_seq. split.
  - intros [(p & i & ? & ? & ?)|(i & ? & ?)]; [by exists p, i; auto|].
    exists q, i. split; [by right|]. split; [lia|done].
  - intros (p & i & [Hp| ->] & Hi & Hv); [left; by exists p, i|].
    right. exists i. split; [done|lia].
Qed.

Lemma update_nonempty n peers : (0 < n)%nat → peers ≠ [] → ring (updateRing n peers) ≠ [].
Proof.
  intros Hn Hp He. destruct peers as [|p ps]; [done|].
  apply (not_elem_of_nil (vnode p 0)). rewrite <- He. apply update_points.
  exists p, 0%nat. split; [left|done].
Qed.

(** No two peers share a ring point. *)
Definition collision_free (n : nat) (peers : list string) : Prop :=
  ∀ p q i j, p ∈ peers → q ∈ peers → (i < n)%nat → (j < n)%nat →
  vnode p i = vnode q j → p = q.

Definition collision_freeb (n : nat) (peers : list string) : bool :=
  let points := flat_map (λ p, map (λ i, (p, vnode p i)) (seq 0 n)) peers in
  forallb (λ a, forallb (λ b, negb (a.2 =? b.2) || String.eqb a.1 b.1) points) points.

Lemma collision_freeb_sound n peers : collision_freeb n peers = true → collision_free n peers.
Proof.
  unfold collision_freeb. intros H p q i j Hp Hq Hi Hj Hv.
  rewrite forallb_forall in H.
  assert (∀ r k, r ∈ peers → (k < n)%nat →
    In (r, vnode r k) (flat_map (λ p, map (λ i, (p, vnode p i)) (seq 0 n)) peers)) as Hin.
  { intros r k Hr Hk. apply in_flat_map. exists r. split; [by apply list_elem_of_In|].
    apply in_map_iff. exists k. split; [done|]. apply in_seq. lia. }
  specialize (H _ (Hin p i Hp Hi)). rewrite forallb_forall in H.
  specialize (H _ (Hin q j Hq Hj)). simpl in H. rewrite Hv, Z.eqb_refl in H.
  by apply String.eqb_eq.
Qed.

(** The owner of a key is some peer of the ring, at the reference point. *)
Lemma get_owner n peers key :
  (0 < n)%nat → peers ≠ [] →
  ∃ i, (i < n)%nat ∧ get key (updateRing n peers) ∈ peers ∧
    is_succ (hash key) (λ h, ∃ p j, p ∈ peers ∧ (j < n)%nat ∧ vnode p j = h)
      (vnode (get key (updateRing n peers)) i).
Proof.
  intros Hn Hp. destruct (get_is_succ key (updateRing n peers)) as (x & Hx & Hl).
  - apply update_wf.
  - by apply update_nonempty.
  - destruct (update_lookup _ _ _ _ Hl) as (Hin & i & Hi & Hv). exists i.
    split; [done|]. split; [done|]. rewrite Hv.
    eapply is_succ_ext; [|exact Hx]. intros y. apply update_points.
Qed.

(** A point of the larger set that is not new is still the successor in the
    smaller one. *)
Lemma is_succ_shrink h (S S' : Z → Prop) x :
  (∀ y, S y → S' y) → S x → is_succ h S' x → is_succ h S x.
Proof. unfold is_succ. firstorder. Qed.

(** C5 Ring ownership.  On a ring built from a non-empty peer list, [get]
    returns one of the peers, and one of that peer's virtual nodes is the first
    ring point at or after the key's hash (wrapping): the binary search over the
    sorted slice implements the reference successor. *)
Theorem ring_owner_is_successor n peers key :
  (0 < n)%nat → peers ≠ [] →
  ∃ i, (i < n)%nat ∧ get key (updateRing n peers) ∈ peers ∧
    is_succ (hash key) (λ h, ∃ p j, p ∈ peers ∧ (j < n)%nat ∧ vnode p j = h)
      (vnode (get key (updateRing n peers)) i).
Proof. apply get_owner. Qed.

(** Minimal disruption.  When a peer joins (anywhere in the list, the other
    peers in any order) and no two peers share a ring point, every key either
    moves to the new peer or keeps its owner; read backwards, when a peer leaves
    only its own keys move. *)
Theorem ring_minimal_disruption n peers peers' new key :
  (0 < n)%nat → peers ≠ [] →
  (∀ q, q ∈ peers' ↔ q = new ∨ q ∈ peers) → collision_free n peers' →
  get key (updateRing n peers') = new ∨
  get key (updateRing n peers') = get key (updateRing n peers).
Proof.
  intros Hn Hne Hset Hfree.
  assert (peers' ≠ []) as Hne'.
  { intros ->. apply (not_elem_of_nil new), Hset. by left. }
  destruct (get_owner n peers key Hn Hne) as (i & Hi & Hin & Hs).
  destruct (get_owner n peers' key Hn Hne') as (i' & Hi' & Hin' & Hs').
  destruct (proj1 (Hset _) Hin') as [Heq|Hold]; [by left|right].
  apply (Hfree _ _ i' i); [done|apply Hset; by right|done|done|].
  eapply is_succ_unique; [|exact Hs]. eapply is_succ_shrink; [|by eauto|exact Hs'].
  intros y (p & j & Hp & Hj & Hv). exists p, j. split; [apply Hset; by right|done].
Qed.

End Hashed.

(** ** Witnesses, with SHA-256 as the hash *)

Definition demo_peers : list string := ["10.0.0.1:3100"; "10.0.0.2:3100"; "10.0.0.3:3100"].

Lemma ring_owner_is_successor_witness :
  ∃ i, (i < 3)%nat ∧ get hashKey "k" (updateRing hashKey 3 demo_peers) ∈ demo_peers ∧
    is_succ (hashKey "k")
      (λ h, ∃ p j, p ∈ demo_peers ∧ (j < 3)%nat ∧ vnode hashKey p j = h)
      (vnode hashKey (get hashKey "k" (updateRing hashKey 3 demo_peers)) i).
Proof. apply (ring_owner_is_successor hashKey 3 demo_peers "k"); [lia|done]. Defined.

Lemma ring_minimal_disruption_witness :
  let old := ["10.0.0.1:3100"; "10.0.0.3:3100"] in
  get hashKey "k" (updateRing hashKey 3 demo_peers) = "10.0.0.2:3100" ∨
  get hashKey "k" (updateRing hashKey 3 demo_peers) = get hashKey "k" (updateRing hashKey 3 old).
Proof.
  apply (ring_minimal_disruption hashKey 3 _ demo_peers "10.0.0.2:3100" "k"); [lia|done| |].
  - intros q. unfold demo_peers. rewrite !elem_of_cons. tauto.
  - apply collision_freeb_sound. vm_compute. reflexivity.
Defined.

End Ring.
