(* ===== verification/PeerCache.v ===== *)
(** * The peer cache tier (L3)
      (src/internal/cache/peer.go)

    [Peer.PeerCache] is the state of one replica's peer client: the peer list
    with its hash ring, the per-peer breakers, the advertised set-encodings and
    the counters.  The network and the compressors are parameters; the server
    side ([serveGet], [serveSet], [serveHas], [serveHotIndex]) runs on the
    replica's own cache chain of [TieredCache.v].  [peer_l3] makes the peer cache an
    instance of the tier interface that chain expects. *)

From S2P Require Import Prelude GoText Cache TieredCache Sha256 HashRing.

#[local] Open Scope Z_scope.

Module Peer.
Import Text.

(** ** Readers and codecs *)

(** What an [io.Reader] yields: its bytes, then EOF or an error. *)
Record reader : Type := mkReader {
  data : string;
  fails : bool
}.

(** Compression and JSON: [None] where the library call returns an error. *)
Class Wire : Type := {
  gunzip : string → option reader;
  zstd_compress : string → option string;
  gzip_compress : string → option string;
  unzstd : string → option reader;
  json_has : gmap string (option Z) → option string;
  json_hot : string → list L1.hotKey → option string;
  unjson_hot : string → option (list L1.hotKey)
}.

(** Decompressing what was compressed gives it back. *)
Class WireLaws `{Wire} : Prop := {
  zstd_roundtrip b z : zstd_compress b = Some z → unzstd z = Some (mkReader b false);
  gzip_roundtrip b z : gzip_compress b = Some z → gunzip z = Some (mkReader b false);
  hot_roundtrip o es j : json_hot o es = Some j → unjson_hot j = Some es
}.

(** ** Constants *)

Definition maxPeerResponseBytes : Z := 33554432.
Definition maxPeerDecodedBodyBytes : Z := 33554432.
Definition maxPeerHotIndexBytes : Z := 4194304.
Definition maxPeerSetBodyBytes : Z := 8388608.
Definition peerCompressionMinBytes : Z := 1024.
Definition MinUsableTTL : Z := 5 * Second.
Definition ring_vnodes : nat := 150.

(** ** State *)

(** [threshold] and [cooldown] are the same for every breaker. *)
Record peerBreaker : Type := mkPB {
  failures : Z;
  lastFail : Z
}.

Definition threshold : Z := 5.
Definition cooldown : Z := 10 * Second.

Record config : Type := mkConfig {
  selfAddr : string;
  authToken : string;
  writeThrough : bool;
  wtMinTTL : Z;
  readAheadTopN : Z;
  readAheadMaxKeysPerTick : Z;
  readAheadMaxBytesPerTick : Z;
  readAheadMinTTL : Z;
  readAheadMaxObjectBytes : Z;
  readAheadTenantFairShare : Z;
  readAheadErrorBackoff : Z
}.

Record counters : Type := mkStats {
  PeerHits : Z;
  PeerMisses : Z;
  PeerErrors : Z;
  WTPushes : Z;
  WTErrors : Z;
  RAHotReq : Z;
  RAHotErr : Z;
  RAPrefetch : Z;
  RABytes : Z;
  RABudget : Z;
  RATenant : Z
}.

(** A write-through push handed to its own goroutine. *)
Record push : Type := mkPush {
  push_owner : string;
  push_key : string;
  push_val : string;
  push_ttl : Z
}.

Record PeerCache : Type := mkPC {
  cfg : config;
  peers : list string;
  peerHosts : gset string;
  ring : Ring.hashRing;
  breakers : gmap string peerBreaker;
  peerSetEncodings : gmap string string;
  peerErrorReasons : gmap string Z;
  stats : counters;
  pushes : list push
}.

Definition with_breakers (b : gmap string peerBreaker) (p : PeerCache) : PeerCache :=
  mkPC (cfg p) (peers p) (peerHosts p) (ring p) b (peerSetEncodings p)
    (peerErrorReasons p) (stats p) (pushes p).

Definition with_encodings (e : gmap string string) (p : PeerCache) : PeerCache :=
  mkPC (cfg p) (peers p) (peerHosts p) (ring p) (breakers p) e
    (peerErrorReasons p) (stats p) (pushes p).

Definition with_reasons (r : gmap string Z) (p : PeerCache) : PeerCache :=
  mkPC (cfg p) (peers p) (peerHosts p) (ring p) (breakers p) (peerSetEncodings p)
    r (stats p) (pushes p).

Definition with_stats (s : counters) (p : PeerCache) : PeerCache :=
  mkPC (cfg p) (peers p) (peerHosts p) (ring p) (breakers p) (peerSetEncodings p)
    (peerErrorReasons p) s (pushes p).

Definition with_pushes (q : list push) (p : PeerCache) : PeerCache :=
  mkPC (cfg p) (peers p) (peerHosts p) (ring p) (breakers p) (peerSetEncodings p)
    (peerErrorReasons p) (stats p) q.

Definition add_stats (d : counters) (p : PeerCache) : PeerCache :=
  let s := stats p in
  with_stats (mkStats (PeerHits s + PeerHits d) (PeerMisses s + PeerMisses d)
    (PeerErrors s + PeerErrors d) (WTPushes s + WTPushes d) (WTErrors s + WTErrors d)
    (RAHotReq s + RAHotReq d) (RAHotErr s + RAHotErr d) (RAPrefetch s + RAPrefetch d)
    (RABytes s + RABytes d) (RABudget s + RABudget d) (RATenant s + RATenant d)) p.

Definition count_hit := add_stats (mkStats 1 0 0 0 0 0 0 0 0 0 0).
Definition count_miss := add_stats (mkStats 0 1 0 0 0 0 0 0 0 0 0).
Definition count_error := add_stats (mkStats 0 0 1 0 0 0 0 0 0 0 0).
Definition count_push := add_stats (mkStats 0 0 0 1 0 0 0 0 0 0 0).
Definition count_wt_error := add_stats (mkStats 0 0 0 0 1 0 0 0 0 0 0).

(** ** Construction *)

(** The defaults and clamps of [NewPeerCache], in its order. *)
Definition clampConfig (c : config) : config :=
  let dflt x d := if x <=? 0 then d else x in
  let share := dflt (readAheadTenantFairShare c) 50 in
  mkConfig (selfAddr c) (TrimSpace (authToken c)) (writeThrough c)
    (dflt (wtMinTTL c) (30 * Second))
    (dflt (readAheadTopN c) 256)
    (dflt (readAheadMaxKeysPerTick c) 64)
    (dflt (readAheadMaxBytesPerTick c) 8388608)
    (dflt (readAheadMinTTL c) (30 * Second))
    (dflt (readAheadMaxObjectBytes c) 262144)
    (if 100 <? share then 100 else share)
    (dflt (readAheadErrorBackoff c) (15 * Second)).

Definition no_stats : counters := mkStats 0 0 0 0 0 0 0 0 0 0 0.

(** A replica with discovery disabled: no peers. *)
Definition NewPeerCache (c : config) : PeerCache :=
  mkPC (clampConfig c) [] ∅ (Ring.newHashRing ring_vnodes) ∅ ∅ ∅ no_stats [].

(** ** Peer list *)

(** [net.SplitHostPort], the host part; [None] where it returns an error. *)
Definition last_index (c : Ascii.ascii) (s : string) : option nat :=
  (λ i, String.length s - S i)%nat <$> IndexByte c (Text.rev s).

Definition from (i : nat) (s : string) : string := String.substring i (String.length s - i) s.

Definition SplitHost (hp : string) : option string :=
  match last_index ":" hp with
  | None => None
  | Some i =>
      if HasPrefix hp "[" then
        match IndexByte "]" hp with
        | None => None
        | Some e =>
            if (S e =? i)%nat then
              if ContainsByte "[" (from 1 hp) || ContainsByte "]" (from (S e) hp) then None
              else Some (String.substring 1 (e - 1) hp)
            else None
        end
      else
        let host := String.substring 0 i hp in
        if ContainsByte ":" host || ContainsByte "[" hp || ContainsByte "]" hp then None
        else Some host
  end.

Definition updatePeers (ps : list string) (p : PeerCache) : PeerCache :=
  mkPC (cfg p) ps
    (list_to_set (map (λ a, default a (SplitHost a)) ps))
    (Ring.updateRing Ring.hashKey ring_vnodes ps)
    (breakers p) (peerSetEncodings p) (peerErrorReasons p) (stats p) (pushes p).

Definition parsePeerList (s : string) : list string :=
  filter (λ p, p ≠ "") (map TrimSpace (Split "," s)).

(** [sort.Strings] orders by bytes. *)
Definition sort_Strings : list string → list string := merge_sort String.le.

Definition filterValidPeers (ps : list string) : list string :=
  sort_Strings (filter (λ p, p ≠ "" ∧ ContainsByte ":" p = true) (map TrimSpace ps)).

(** [discoverDNS] once the lookup has answered. *)
Definition discoverDNS (lookup : option (list string)) (port : Z) : option (list string) :=
  ips ← lookup; Some (sort_Strings (map (λ ip, ip +:+ ":" +:+ Itoa port) ips)).

(** The service, protocol and domain [discoverSRV] asks for. *)
Definition srvParts (name : string) : option (string * string * string) :=
  n ← strip_prefix "_" name;
  '(service, r) ← Cut "." n;
  r ← strip_prefix "_" r;
  '(proto, domain) ← Cut "." r;
  Some (service, proto, domain).

Definition discoverSRV (lookup : string → string → string → option (list (string * Z)))
    (name : string) : option (list string) :=
  '(service, proto, domain) ← srvParts name;
  addrs ← lookup service proto domain;
  Some (sort_Strings (map (λ a, TrimSuffix a.1 "." +:+ ":" +:+ Itoa a.2) addrs)).

(** One tick of [discoveryLoop]: a failed discovery keeps the peers. *)
Definition discoveryTick (answer : option (list string)) (p : PeerCache) : PeerCache :=
  match answer with
  | None => p
  | Some ps => updatePeers ps p
  end.

Definition PeerCount (p : PeerCache) : Z :=
  Z.of_nat (length (filter (λ a, a ≠ selfAddr (cfg p)) (peers p))).

Definition HasPeerHost (host : string) (p : PeerCache) : bool :=
  bool_decide (host ∈ peerHosts p).

Definition WriteThroughEnabled (p : PeerCache) : bool := writeThrough (cfg p).

Definition WriteThroughMinTTL (p : PeerCache) : Z :=
  if negb (writeThrough (cfg p)) then 0 else wtMinTTL (cfg p).

Definition owner_of (key : string) (p : PeerCache) : string :=
  Ring.get Ring.hashKey key (ring p).

Definition IsOwner (key : string) (p : PeerCache) : bool :=
  match peers p with
  | [] => true
  | _ => String.eqb (owner_of key p) (selfAddr (cfg p))
  end.

(** ** Per-peer breaker *)

Definition UnixMilli (t : Z) : Z := t / Millisecond.

Definition loadBreaker (addr : string) (p : PeerCache) : peerBreaker :=
  default (mkPB 0 0) (breakers p !! addr).

Definition peerAllowed (now : Z) (addr : string) (p : PeerCache) : bool * PeerCache :=
  let pb := loadBreaker addr p in
  if threshold <=? failures pb then
    if time_sub now (lastFail pb * Millisecond) <? cooldown
    then (false, with_breakers (<[addr := pb]> (breakers p)) p)
    else (true, with_breakers (<[addr := mkPB 0 (lastFail pb)]> (breakers p)) p)
  else (true, with_breakers (<[addr := pb]> (breakers p)) p).

Definition recordPeerFailure (now : Z) (addr : string) (p : PeerCache) : PeerCache :=
  let pb := loadBreaker addr p in
  with_breakers (<[addr := mkPB (failures pb + 1) (UnixMilli now)]> (breakers p)) p.

Definition recordPeerSuccess (addr : string) (p : PeerCache) : PeerCache :=
  match breakers p !! addr with
  | None => p
  | Some pb => with_breakers (<[addr := mkPB 0 (lastFail pb)]> (breakers p)) p
  end.

Definition RecordPeerErrorReason (reason : string) (p : PeerCache) : PeerCache :=
  let reason := TrimSpace reason in
  if String.eqb reason "" then p
  else with_reasons
    (<[reason := default 0 (peerErrorReasons p !! reason) + 1]> (peerErrorReasons p)) p.

Definition recordPeerSetEncoding (addr encoding : string) (p : PeerCache) : PeerCache :=
  if String.eqb (TrimSpace addr) "" then p
  else if String.eqb (ToLower (TrimSpace encoding)) "zstd"
  then with_encodings (<[addr := "zstd"]> (peerSetEncodings p)) p
  else with_encodings (<[addr := ""]> (peerSetEncodings p)) p.

Definition peerPreferredSetEncoding (addr : string) (p : PeerCache) : option string :=
  if String.eqb (TrimSpace addr) "" then None
  else match peerSetEncodings p !! addr with
       | Some e => if String.eqb (TrimSpace e) "" then None else Some e
       | None => None
       end.

(** ** Bodies *)

Definition readPeerBodyLimited (r : reader) (limit : Z) : option string :=
  if limit <=? 0 then (if fails r then None else Some (data r))
  else if limit <? len (data r) then None
  else if fails r then None else Some (data r).

Fixpoint accepts_parts (encoding : string) (parts : list string) : bool :=
  match parts with
  | [] => false
  | part :: parts =>
      let token := TrimSpace (match Cut ";" part with Some (l, _) => l | None => part end) in
      String.eqb token encoding || String.eqb token "*" || accepts_parts encoding parts
  end.

Definition acceptsPeerEncoding (header encoding : string) : bool :=
  accepts_parts encoding (Split "," (ToLower header)).

Section Wired.
Context `{Wire}.

Definition decodePeerResponseBody (contentEncoding body : string) (limit : Z) : option string :=
  let e := ToLower (TrimSpace contentEncoding) in
  if String.eqb e "" || String.eqb e "identity" then Some body
  else if String.eqb e "gzip" || String.eqb e "x-gzip"
  then r ← gunzip body; readPeerBodyLimited r limit
  else if String.eqb e "zstd"
  then r ← unzstd body; readPeerBodyLimited r limit
  else Some body.

Definition encodePeerRequestBody (body encoding : string) : option string :=
  let e := ToLower (TrimSpace encoding) in
  if String.eqb e "" || String.eqb e "identity" then Some body
  else if String.eqb e "zstd" then zstd_compress body
  else if String.eqb e "gzip" then gzip_compress body
  else None.

(** ** HTTP messages: the parts the peer protocol uses *)

Record request : Type := mkReq {
  Method : string;
  Path : string;
  Query : string → string;
  AcceptEncoding : string;
  rqContentEncoding : string;
  rqBody : reader
}.

Record response : Type := mkResp {
  StatusCode : Z;
  ContentEncoding : string;
  CacheTTLMs : string;
  PeerSetEncoding : string;
  Body : reader
}.

Definition errorResp (code : Z) (msg : string) : response :=
  mkResp code "" "" "" (mkReader msg false).

(** [writePeerEncodedResponse] on a response whose headers are set already. *)
Definition writePeerEncodedResponse (accept ttlMs body : string) : response :=
  if (peerCompressionMinBytes <=? len body) && acceptsPeerEncoding accept "zstd" then
    match zstd_compress body with
    | Some z => mkResp 200 "zstd" ttlMs "zstd" (mkReader z false)
    | None => mkResp 500 "zstd" ttlMs "zstd" (mkReader "compression error" false)
    end
  else if (peerCompressionMinBytes <=? len body) && acceptsPeerEncoding accept "gzip" then
    match gzip_compress body with
    | Some z => mkResp 200 "gzip" ttlMs "zstd" (mkReader z false)
    | None => mkResp 500 "gzip" ttlMs "zstd" (mkReader "compression error" false)
    end
  else mkResp 200 "" ttlMs "zstd" (mkReader body false).

(** ** Client side *)

(** How one round trip ended, and when. *)
Inductive outcome : Type :=
| BuildError
| TransportError (timeout : bool)
| Replied (r : response).

Record reply : Type := mkReply {
  done_at : Z;
  what : outcome
}.

Definition classifyPeerFetchError (timeout : bool) : string :=
  if timeout then "timeout" else "transport".

Definition peerStatusReason (code : Z) : string := "status_" +:+ Itoa code.

Definition fetchFailed (t : Z) (owner reason : string) (p : PeerCache) : PeerCache :=
  count_error (RecordPeerErrorReason reason (recordPeerFailure t owner p)).

(** The header's milliseconds as a duration; absent or unreadable is zero. *)
Definition parseTTLMs (h : string) : Z :=
  if String.eqb h "" then 0
  else match Sscanf_d h with
       | Some ms => wrap64 (ms * Millisecond)
       | None => 0
       end.

(** The goroutine that fetches: everything after the singleflight entry. *)
Definition Get_fetch (rp : reply) (owner : string) (p : PeerCache)
    : option (string * Z) * PeerCache :=
  let t := done_at rp in
  match what rp with
  | BuildError => (None, fetchFailed t owner "request_build" p)
  | TransportError timeout => (None, fetchFailed t owner (classifyPeerFetchError timeout) p)
  | Replied r =>
      if StatusCode r =? 404 then
        (None, count_miss
           (recordPeerSetEncoding owner (PeerSetEncoding r) (recordPeerSuccess owner p)))
      else if negb (StatusCode r =? 200) then
        (None, fetchFailed t owner (peerStatusReason (StatusCode r)) p)
      else
        match readPeerBodyLimited (Body r) maxPeerResponseBytes with
        | None => (None, fetchFailed t owner "body_read" p)
        | Some raw =>
            match decodePeerResponseBody (ContentEncoding r) raw maxPeerDecodedBodyBytes with
            | None => (None, fetchFailed t owner "decode" p)
            | Some body =>
                (Some (body, parseTTLMs (CacheTTLMs r)),
                 count_hit
                   (recordPeerSetEncoding owner (PeerSetEncoding r) (recordPeerSuccess owner p)))
            end
        end
  end.

(** A goroutine that found a fetch of the same key in flight. *)
Definition Get_follow (inf : option (string * Z)) (p : PeerCache)
    : option (string * Z) * PeerCache :=
  (inf, match inf with Some _ => count_hit p | None => count_miss p end).

(** The guards before the fetch: the owner to ask, if any. *)
Definition Get_target (now : Z) (key : string) (p : PeerCache) : option string * PeerCache :=
  match peers p with
  | [] => (None, p)
  | _ =>
      let owner := owner_of key p in
      if String.eqb owner (selfAddr (cfg p)) || String.eqb owner "" then (None, p)
      else
        match peerAllowed now owner p with
        | (true, p) => (Some owner, p)
        | (false, p) => (None, count_error (RecordPeerErrorReason "breaker_open" p))
        end
  end.

(** The round trip of a get and of a set, as the network answers it. *)
Context (net_get : Z → string → string → reply).
Context (net_set : Z → push → string → string → reply).

Definition Get (now : Z) (key : string) (p : PeerCache) : option (string * Z) * PeerCache :=
  match Get_target now key p with
  | (None, p) => (None, p)
  | (Some owner, p) => Get_fetch (net_get now owner key) owner p
  end.

Definition SetWithTTL (now : Z) (key value : string) (ttl : Z) (p : PeerCache) : PeerCache :=
  if negb (writeThrough (cfg p)) || (len value =? 0) then p
  else if (0 <? ttl) && (ttl <? wtMinTTL (cfg p)) then p
  else
    match peers p with
    | [] => p
    | _ =>
        let owner := owner_of key p in
        if String.eqb owner "" || String.eqb owner (selfAddr (cfg p)) then p
        else
          match peerAllowed now owner p with
          | (false, p) => count_wt_error p
          | (true, p) => with_pushes (pushes p ++ [mkPush owner key value ttl]) p
          end
    end.

Definition Set_ (now : Z) (key value : string) (p : PeerCache) : PeerCache :=
  SetWithTTL now key value 0 p.

(** The value of the [ttl_ms] query parameter of a push. *)
Definition pushTTLMs (ttl : Z) : Z := if 0 <? ttl then Z.quot ttl Millisecond else 0.

(** The body a push carries and its encoding; [None] when encoding failed. *)
Definition pushBody (q : push) (p : PeerCache) : option (string * string) :=
  if peerCompressionMinBytes <=? len (push_val q) then
    match peerPreferredSetEncoding (push_owner q) p with
    | Some enc =>
        if String.eqb enc "zstd" then
          body ← encodePeerRequestBody (push_val q) enc; Some (body, enc)
        else Some (push_val q, "")
    | None => Some (push_val q, "")
    end
  else Some (push_val q, "").

Definition pushFailed (t : Z) (owner : string) (p : PeerCache) : PeerCache :=
  count_wt_error (recordPeerFailure t owner p).

Definition pushToOwner (now : Z) (q : push) (p : PeerCache) : PeerCache :=
  match pushBody q p with
  | None =>
      count_wt_error (RecordPeerErrorReason "encode" (recordPeerFailure now (push_owner q) p))
  | Some (body, enc) =>
      let rp := net_set now q body enc in
      match what rp with
      | BuildError | TransportError _ => pushFailed (done_at rp) (push_owner q) p
      | Replied r =>
          if negb (StatusCode r =? 204) then pushFailed (done_at rp) (push_owner q) p
          else count_push (recordPeerSuccess (push_owner q) p)
      end
  end.

(** ** Server side *)

Section Serve.
Context {D P : Type} `{L2Store D} `{L3Store P}.

Definition serveGet (now : Z) (rq : request) (c : @Tiered.Cache D P)
    : response * @Tiered.Cache D P :=
  let key := Query rq "key" in
  if String.eqb key "" then (errorResp 400 "missing key", c)
  else
    match Tiered.GetWithTTL now key c with
    | (None, c) => (errorResp 404 "", c)
    | (Some (value, remaining), c) =>
        if remaining <? MinUsableTTL then (errorResp 404 "", c)
        else (writePeerEncodedResponse (AcceptEncoding rq)
                (Itoa (Z.quot remaining Millisecond)) value, c)
    end.

Definition serveSet (rd : Tiered.reads) (rq : request) (c : @Tiered.Cache D P)
    : response * @Tiered.Cache D P :=
  let key := TrimSpace (Query rq "key") in
  if String.eqb key "" then (errorResp 400 "missing key", c)
  else
    let raw := TrimSpace (Query rq "ttl_ms") in
    let ttl :=
      if String.eqb raw "" then 0
      else match Sscanf_d raw with
           | Some ms => if 0 <? ms then wrap64 (ms * Millisecond) else 0
           | None => 0
           end in
    let ttl := if ttl <=? 0 then 30 * Second else ttl in
    match readPeerBodyLimited (rqBody rq) maxPeerSetBodyBytes with
    | None => (errorResp 400 "read body failed", c)
    | Some raw =>
        match decodePeerResponseBody (rqContentEncoding rq) raw maxPeerSetBodyBytes with
        | None => (errorResp 400 "decode body failed", c)
        | Some body =>
            if len body =? 0 then (errorResp 400 "empty value", c)
            else (mkResp 204 "" "" "zstd" (mkReader "" false),
                  Tiered.SetWithTTL rd key body ttl c)
        end
    end.

(** The loop of [serveHas]: each key asked, in order. *)
Fixpoint has_loop (now : Z) (parts : list string) (res : gmap string (option Z))
    (c : @Tiered.Cache D P) : gmap string (option Z) * @Tiered.Cache D P :=
  match parts with
  | [] => (res, c)
  | raw :: parts =>
      let key := TrimSpace raw in
      if String.eqb key "" then has_loop now parts res c
      else
        let '(got, c) := Tiered.GetWithTTL now key c in
        let presence :=
          match got with
          | Some (_, remaining) =>
              if MinUsableTTL <=? remaining then Some (Z.quot remaining Millisecond) else None
          | None => None
          end in
        has_loop now parts (<[key := presence]> res) c
  end.

Definition serveHas (now : Z) (rq : request) (c : @Tiered.Cache D P)
    : response * @Tiered.Cache D P :=
  if negb (String.eqb (Method rq) "GET") then (errorResp 405 "method not allowed", c)
  else
    let rawKeys := TrimSpace (Query rq "keys") in
    if String.eqb rawKeys "" then (errorResp 400 "missing keys", c)
    else
      let parts := Split "," rawKeys in
      if (200 <? length parts)%nat then (errorResp 400 "too many keys (max 200)", c)
      else
        let '(res, c) := has_loop now parts ∅ c in
        match json_has res with
        | None => (errorResp 500 "encode failed", c)
        | Some body => (writePeerEncodedResponse (AcceptEncoding rq) "" body, c)
        end.

Definition hotLimit (topN : Z) (raw : string) : Z :=
  let raw := TrimSpace raw in
  let limit :=
    if String.eqb raw "" then topN
    else match Atoi raw with
         | Some n => if 0 <? n then n else topN
         | None => topN
         end in
  if 2000 <? limit then 2000 else limit.

Definition serveHotIndex (now now' : Z) (pc : PeerCache) (rq : request)
    (c : @Tiered.Cache D P) : response :=
  if negb (String.eqb (Method rq) "GET") then errorResp 405 "method not allowed"
  else
    let limit := hotLimit (readAheadTopN (cfg pc)) (Query rq "limit") in
    let es := L1.TopHotKeys (Tiered.lim c) now now' limit (readAheadMinTTL (cfg pc))
                (readAheadMaxObjectBytes (cfg pc)) (Tiered.l1 c) in
    match json_hot (selfAddr (cfg pc)) es with
    | None => errorResp 500 "encode hot index failed"
    | Some body => writePeerEncodedResponse (AcceptEncoding rq) "" body
    end.

(** Which handler answers; the peer-list diagnostic is not modelled. *)
Inductive route : Type := RHot | RHas | RPeers | RSet | RGet | RNotAllowed.

Definition routeOf (rq : request) : route :=
  if String.eqb (Path rq) "/_cache/hot" then RHot
  else if String.eqb (Path rq) "/_cache/has" then RHas
  else if String.eqb (Path rq) "/_cache/peers" then RPeers
  else if String.eqb (Method rq) "POST" then RSet
  else if negb (String.eqb (Method rq) "GET") then RNotAllowed
  else RGet.

End Serve.

(** The peer cache as the third tier of the chain. *)
#[export] Instance peer_l3 : L3Store PeerCache := {
  l3_Get := Get;
  l3_IsOwner := IsOwner;
  l3_WriteThroughEnabled := WriteThroughEnabled;
  l3_SetWithTTL := SetWithTTL
}.

(** ** Peer list: lemmas *)

Lemma sort_Strings_Permutation (a b : list string) :
  a ≡ₚ b → sort_Strings a = sort_Strings b.
Proof.
  intros Hp. apply (StronglySorted_unique String.le).
  - apply StronglySorted_merge_sort; apply _.
  - apply StronglySorted_merge_sort; apply _.
  - unfold sort_Strings. by rewrite !merge_sort_Permutation.
Qed.

Lemma filterValidPeers_Permutation a b : a ≡ₚ b → filterValidPeers a = filterValidPeers b.
Proof.
  intros Hp. unfold filterValidPeers. apply sort_Strings_Permutation.
  by rewrite Hp.
Qed.

Lemma owner_in_peers key ps pc :
  ps ≠ [] → owner_of key (updatePeers ps pc) ∈ ps.
Proof.
  intros Hne. unfold owner_of, updatePeers. cbn [ring].
  destruct (Ring.get_owner Ring.hashKey ring_vnodes ps key) as (i & _ & Hin & _); [|done|done].
  unfold ring_vnodes. lia.
Qed.

(** Fleet agreement.  Replicas whose discovery returned the same peers, in
    whatever order, agree on one owner for every key: it is one of the peers, and
    a replica answers [IsOwner] exactly when it is that peer. *)
Theorem fleet_agrees_on_owner key ps :
  filterValidPeers ps ≠ [] →
  ∃ o, o ∈ filterValidPeers ps ∧
    ∀ ps' pc, ps' ≡ₚ ps →
      IsOwner key (updatePeers (filterValidPeers ps') pc) = true ↔ selfAddr (cfg pc) = o.
Proof.
  intros Hne. exists (owner_of key (updatePeers (filterValidPeers ps)
    (NewPeerCache (mkConfig "" "" false 0 0 0 0 0 0 0 0)))).
  split; [by apply owner_in_peers|].
  intros ps' pc Hp. rewrite (filterValidPeers_Permutation ps' ps Hp).
  unfold IsOwner, owner_of, updatePeers. cbn [peers ring cfg].
  destruct (filterValidPeers ps) as [|q qs]; [done|].
  rewrite String.eqb_eq. done.
Qed.

(** ** Per-peer breaker: lemmas *)

Lemma failures_after addr ts pc :
  ts ≠ [] →
  loadBreaker addr (foldl (λ p t, recordPeerFailure t addr p) pc ts) =
  mkPB (failures (loadBreaker addr pc) + Z.of_nat (length ts))
       (UnixMilli (List.last ts 0)).
Proof.
  revert pc. induction ts as [|t ts IH]; intros pc Hne; [done|]. cbn [foldl].
  assert (loadBreaker addr (recordPeerFailure t addr pc) =
          mkPB (failures (loadBreaker addr pc) + 1) (UnixMilli t)) as H1.
  { unfold loadBreaker at 1, recordPeerFailure, with_breakers. cbn [breakers].
    by rewrite lookup_insert_eq. }
  destruct ts as [|t' ts].
  - cbn [foldl length List.last]. rewrite H1. f_equal.
  - rewrite IH by done. rewrite H1. cbn [failures length List.last]. f_equal. lia.
Qed.

Lemma recordPeerFailure_frame t addr b pc :
  addr ≠ b → loadBreaker b (recordPeerFailure t addr pc) = loadBreaker b pc.
Proof.
  intros Hne. unfold loadBreaker, recordPeerFailure, with_breakers. cbn [breakers].
  by rewrite lookup_insert_ne.
Qed.

Lemma peerAllowed_eq now addr pc :
  (peerAllowed now addr pc).1 =
  (failures (loadBreaker addr pc) <? threshold) ||
  (cooldown <=? time_sub now (lastFail (loadBreaker addr pc) * Millisecond)).
Proof. unfold peerAllowed. cbv zeta. zcases; done. Qed.

(** Per-peer breaker.  After a run of failures that brings a peer's counter
    to five, calls to that peer are refused exactly until ten seconds after the
    last failure (to the millisecond), the counter is then cleared so the peer is
    tried again, and no other peer is affected. *)
Theorem peer_breaker_cooldown addr ts now pc :
  ts ≠ [] → threshold ≤ failures (loadBreaker addr pc) + Z.of_nat (length ts) →
  let pc' := foldl (λ p t, recordPeerFailure t addr p) pc ts in
  let until := UnixMilli (List.last ts 0) * Millisecond + cooldown in
  (now < until → peerAllowed now addr pc' =
     (false, with_breakers (<[addr := loadBreaker addr pc']> (breakers pc')) pc')) ∧
  (until ≤ now →
     (peerAllowed now addr pc').1 = true ∧
     failures (loadBreaker addr (peerAllowed now addr pc').2) = 0) ∧
  (∀ b, b ≠ addr → (peerAllowed now b pc').1 = (peerAllowed now b pc).1).
Proof.
  intros Hne Hth pc' until. subst pc' until.
  pose proof (failures_after addr ts pc Hne) as Hl.
  set (pc' := foldl _ _ _) in *. split_and!.
  - intros Hnow. unfold peerAllowed. rewrite Hl. cbn [failures lastFail].
    rewrite (Zle_imp_le_bool _ _ Hth).
    rewrite (proj2 (Z.ltb_lt _ _)); [done|].
    unfold time_sub, cooldown, Second, MaxInt64, MinInt64 in *. lia.
  - intros Hnow. unfold peerAllowed. rewrite Hl. cbn [failures lastFail].
    rewrite (Zle_imp_le_bool _ _ Hth).
    rewrite (proj2 (Z.ltb_ge _ _)) by (unfold time_sub, cooldown, Second, MaxInt64, MinInt64 in *; lia).
    split; [done|]. cbn [snd]. unfold loadBreaker, with_breakers. cbn [breakers].
    by rewrite lookup_insert_eq.
  - intros b Hb. rewrite !peerAllowed_eq.
    enough (loadBreaker b pc' = loadBreaker b pc) as -> by done.
    subst pc'. clear Hl Hth Hne. revert pc. induction ts as [|t ts IH]; intros pc; [done|].
    cbn [foldl]. rewrite IH. by apply recordPeerFailure_frame.
Qed.

(** ** Protocol: lemmas *)

Lemma read_whole b limit : 0 < limit → len b ≤ limit →
  readPeerBodyLimited (mkReader b false) limit = Some b.
Proof.
  intros H0 H1. unfold readPeerBodyLimited. cbn [data fails].
  rewrite (proj2 (Z.leb_gt _ _)) by lia. by rewrite (proj2 (Z.ltb_ge _ _)) by lia.
Qed.

(** The wire form of [v] fits the limit of the reading side. *)
Definition fits (limit : Z) (v : string) : Prop :=
  len v ≤ limit ∧ (∀ z, zstd_compress v = Some z → len z ≤ limit) ∧
  (∀ z, gzip_compress v = Some z → len z ≤ limit).

Definition compressible (v : string) : Prop :=
  is_Some (zstd_compress v) ∧ is_Some (gzip_compress v).

Lemma parseTTLMs_Itoa ms :
  0 ≤ ms → ms * Millisecond ≤ MaxInt64 → parseTTLMs (Itoa ms) = ms * Millisecond.
Proof.
  intros H0 H1. unfold parseTTLMs.
  pose proof (Itoa_pos_starts ms H0) as Hs.
  destruct (String.eqb_spec (Itoa ms) "") as [He|_]; [by rewrite He in Hs|].
  rewrite Sscanf_Itoa by (unfold Millisecond in *; lia). apply wrap64_id.
  unfold in_int64, Millisecond, MinInt64 in *. lia.
Qed.

Lemma decode_zstd z limit r :
  unzstd z = Some r → decodePeerResponseBody "zstd" z limit = readPeerBodyLimited r limit.
Proof. intros Hz. unfold decodePeerResponseBody. by rewrite Hz. Qed.

Lemma decode_gzip z limit r :
  gunzip z = Some r → decodePeerResponseBody "gzip" z limit = readPeerBodyLimited r limit.
Proof. intros Hz. unfold decodePeerResponseBody. by rewrite Hz. Qed.

(** Any way [writePeerEncodedResponse] sends a body, the client reads it. *)
Lemma written_body_read `{!WireLaws} accept ttlMs v owner t pc :
  compressible v → fits maxPeerResponseBytes v →
  Get_fetch (mkReply t (Replied (writePeerEncodedResponse accept ttlMs v))) owner pc =
  (Some (v, parseTTLMs ttlMs),
   count_hit (recordPeerSetEncoding owner "zstd" (recordPeerSuccess owner pc))).
Proof.
  intros [[z Hz] [g Hg]] (Hv & Hfz & Hfg). unfold writePeerEncodedResponse.
  assert (∀ b, len b ≤ maxPeerResponseBytes →
    readPeerBodyLimited (mkReader b false) maxPeerResponseBytes = Some b) as Hread.
  { intros b Hb. by apply read_whole. }
  destruct (_ && _).
  { rewrite Hz. unfold Get_fetch. cbn [what StatusCode Body ContentEncoding done_at CacheTTLMs PeerSetEncoding].
    change (200 =? 404) with false. change (200 =? 200) with true. cbn [negb].
    rewrite Hread by auto.
    rewrite (decode_zstd _ _ _ (zstd_roundtrip _ _ Hz)).
    change maxPeerDecodedBodyBytes with maxPeerResponseBytes. by rewrite (Hread v Hv). }
  destruct (_ && _).
  { rewrite Hg. unfold Get_fetch. cbn [what StatusCode Body ContentEncoding done_at CacheTTLMs PeerSetEncoding].
    change (200 =? 404) with false. change (200 =? 200) with true. cbn [negb].
    rewrite Hread by auto.
    rewrite (decode_gzip _ _ _ (gzip_roundtrip _ _ Hg)).
    change maxPeerDecodedBodyBytes with maxPeerResponseBytes. by rewrite (Hread v Hv). }
  unfold Get_fetch. cbn [what StatusCode Body ContentEncoding done_at CacheTTLMs PeerSetEncoding].
  change (200 =? 404) with false. change (200 =? 200) with true. cbn [negb].
  by rewrite Hread.
Qed.

Section RoundTrip.
Context {D P : Type} `{L2Store D} `{L3Store P} `{!WireLaws}.

(** C10 Get protocol round trip.  What an owner's handler answers to a peer's
    get is read back by that peer exactly: an entry with at least
    [MinUsableTTL] left arrives with the same bytes, whichever compression was
    negotiated, and with the owner's remaining lifetime rounded down to the
    millisecond, never extended; anything else is a clean miss that does not
    count against the owner's breaker. *)
Theorem peer_get_roundtrip now t rq owner pc (c : @Tiered.Cache D P) v remaining c' :
  Query rq "key" ≠ "" → remaining ≤ MaxInt64 → compressible v → fits maxPeerResponseBytes v →
  Tiered.GetWithTTL now (Query rq "key") c = (Some (v, remaining), c') →
  let got := Get_fetch (mkReply t (Replied (fst (serveGet now rq c)))) owner pc in
  (MinUsableTTL ≤ remaining →
     ∃ ttl, got.1 = Some (v, ttl) ∧ remaining - Millisecond < ttl ≤ remaining) ∧
  (remaining < MinUsableTTL →
     got = (None, count_miss (recordPeerSetEncoding owner "" (recordPeerSuccess owner pc)))).
Proof.
  intros Hkey Hmax Hc Hf Hgot got. subst got. unfold serveGet.
  destruct (String.eqb_spec (Query rq "key") "") as [|_]; [done|]. rewrite Hgot.
  split; intros Hr.
  - rewrite (proj2 (Z.ltb_ge _ _)) by done. cbn [fst].
    rewrite written_body_read by done. cbn [fst].
    assert (0 ≤ Z.quot remaining Millisecond ∧
            Z.quot remaining Millisecond * Millisecond ≤ remaining ∧
            remaining - Millisecond < Z.quot remaining Millisecond * Millisecond) as (Hq1 & Hq2 & Hq3).
    { unfold MinUsableTTL, Second, Millisecond in *.
      rewrite Z.quot_div_nonneg by lia.
      pose proof (Z.div_mod remaining 1000000). pose proof (Z.mod_pos_bound remaining 1000000).
      lia. }
    rewrite parseTTLMs_Itoa by lia. eexists. split; [done|lia].
  - by rewrite (proj2 (Z.ltb_lt _ _)).
Qed.

(** The set request a push sends. *)
Definition pushRequest (q : push) (body enc : string) : request :=
  mkReq "POST" "/_cache/set"
    (λ k, if String.eqb k "key" then push_key q
          else if String.eqb k "ttl_ms" then Itoa (pushTTLMs (push_ttl q)) else "")
    "" enc (mkReader body false).

(** The lifetime the owner gives a pushed value. *)
Definition pushedTTL (ttl : Z) : Z :=
  if Millisecond <=? ttl then Z.quot ttl Millisecond * Millisecond else 30 * Second.

Lemma pushBody_decodes q pc :
  compressible (push_val q) → fits maxPeerSetBodyBytes (push_val q) →
  ∃ body enc, pushBody q pc = Some (body, enc) ∧ len body ≤ maxPeerSetBodyBytes ∧
    decodePeerResponseBody enc body maxPeerSetBodyBytes = Some (push_val q).
Proof.
  intros [[z Hz] _] (Hv & Hfz & _). unfold pushBody.
  destruct (_ <=? _); [|by eexists _, _].
  destruct (peerPreferredSetEncoding _ _) as [e|]; [|by eexists _, _].
  destruct (String.eqb_spec e "zstd") as [->|_]; [|by eexists _, _].
  unfold encodePeerRequestBody. change (ToLower (TrimSpace "zstd")) with "zstd". cbn [String.eqb orb].
  cbn. rewrite Hz. eexists _, _. split; [done|]. split; [by auto|].
  rewrite (decode_zstd _ _ _ (zstd_roundtrip _ _ Hz)). by apply read_whole.
Qed.

Lemma pushTTL_read ttl :
  ttl ≤ MaxInt64 →
  let raw := TrimSpace (Itoa (pushTTLMs ttl)) in
  let t := if String.eqb raw "" then 0
           else match Sscanf_d raw with
                | Some ms => if 0 <? ms then wrap64 (ms * Millisecond) else 0
                | None => 0
                end in
  (if t <=? 0 then 30 * Second else t) = pushedTTL ttl.
Proof.
  intros Hmax. cbv zeta.
  assert (0 ≤ pushTTLMs ttl ∧ pushTTLMs ttl * Millisecond ≤ MaxInt64) as [Hp1 Hp2].
  { unfold pushTTLMs. destruct (Z.ltb_spec 0 ttl) as [Hpos|_]; [|unfold Millisecond, MaxInt64; lia].
    rewrite Z.quot_div_nonneg by (unfold Millisecond; lia). unfold Millisecond.
    pose proof (Z.div_pos ttl 1000000). pose proof (Z.mul_div_le ttl 1000000). lia. }
  rewrite TrimSpace_Itoa by done.
  pose proof (Itoa_pos_starts _ Hp1) as Hs.
  destruct (String.eqb_spec (Itoa (pushTTLMs ttl)) "") as [He|_]; [by rewrite He in Hs|].
  rewrite Sscanf_Itoa by (unfold Millisecond in *; lia).
  rewrite wrap64_id by (unfold in_int64, MinInt64, Millisecond in *; lia).
  unfold pushTTLMs, pushedTTL in *. destruct (Z.ltb_spec 0 ttl) as [Hpos|Hneg].
  - rewrite Z.quot_div_nonneg in * by (unfold Millisecond; lia). unfold Millisecond, Second in *.
    destruct (Z.leb_spec 1000000 ttl) as [Hge|Hlt].
    + assert (1 ≤ ttl / 1000000) by (apply Z.div_le_lower_bound; lia).
      rewrite (proj2 (Z.ltb_lt 0 _)) by lia. by rewrite (proj2 (Z.leb_gt _ _)) by lia.
    + by rewrite Z.div_small by lia.
  - unfold Millisecond in *. rewrite (proj2 (Z.leb_gt 1000000 ttl)) by lia. done.
Qed.

(** Write-through round trip.  A value pushed to its owner is stored there
    under the same key with exactly the pushed bytes, compressed or not, and with
    the pushed lifetime rounded down to the millisecond (30 s when the push
    carries none), and the owner answers 204. *)
Theorem peer_push_roundtrip rd q pc (c : @Tiered.Cache D P) :
  push_val q ≠ "" → push_key q ≠ "" → TrimSpace (push_key q) = push_key q →
  push_ttl q ≤ MaxInt64 →
  compressible (push_val q) → fits maxPeerSetBodyBytes (push_val q) →
  ∃ body enc, pushBody q pc = Some (body, enc) ∧
    serveSet rd (pushRequest q body enc) c =
    (mkResp 204 "" "" "zstd" (mkReader "" false),
     Tiered.SetWithTTL rd (push_key q) (push_val q) (pushedTTL (push_ttl q)) c).
Proof.
  intros Hv Hk Htrim Hmax Hc Hf.
  destruct (pushBody_decodes q pc Hc Hf) as (body & enc & Hb & Hlen & Hdec).
  exists body, enc. split; [done|]. unfold serveSet. cbn [Query rqBody rqContentEncoding pushRequest].
  cbn [String.eqb Ascii.eqb Bool.eqb]. rewrite Htrim.
  destruct (String.eqb_spec (push_key q) "") as [|_]; [done|].
  pose proof (pushTTL_read (push_ttl q) Hmax) as Hp. cbv zeta in Hp |- *. rewrite Hp.
  rewrite read_whole by done. rewrite Hdec.
  destruct (Z.eqb_spec (len (push_val q)) 0) as [Hz|_]; [|done].
  destruct (push_val q); [done|]. unfold len in Hz. cbn [String.length] in Hz. lia.
Qed.

(** The set-encoding negotiation is lost on every miss: the 404 of the
    owner's own get handler carries no X-Peer-Set-Encoding header, the client
    records the empty encoding for that owner, and the push that follows the
    miss is sent uncompressed whatever the owner advertised before. *)
Theorem miss_forgets_set_encoding now t rq owner pc (c : @Tiered.Cache D P) key v ttl :
  Query rq "key" = key → key ≠ "" → TrimSpace owner ≠ "" →
  fst (Tiered.GetWithTTL now key c) = None →
  let pc' := snd (Get_fetch (mkReply t (Replied (fst (serveGet now rq c)))) owner pc) in
  pushBody (mkPush owner key v ttl) pc' = Some (v, "").
Proof.
  intros <- Hk Ho Hmiss pc'. subst pc'. unfold serveGet.
  destruct (String.eqb_spec (Query rq "key") "") as [|_]; [done|].
  destruct (Tiered.GetWithTTL now (Query rq "key") c) as [got c']. cbn [fst] in Hmiss. subst got.
  cbn [fst]. unfold Get_fetch, errorResp. cbn [what StatusCode PeerSetEncoding].
  change (404 =? 404) with true. cbn [snd]. unfold recordPeerSetEncoding.
  destruct (String.eqb_spec (TrimSpace owner) "") as [|_]; [done|].
  change (ToLower (TrimSpace "")) with "". cbn [String.eqb].
  unfold pushBody, peerPreferredSetEncoding. cbn [push_val push_owner].
  destruct (String.eqb_spec (TrimSpace owner) "") as [|_]; [done|].
  unfold count_miss, add_stats, with_stats, with_encodings. cbn [peerSetEncodings].
  rewrite lookup_insert_eq. change (TrimSpace "") with "". cbn [String.eqb].
  by destruct (_ <=? _).
Qed.

End RoundTrip.

(** A write-through threshold above the shadow lifetime disables pushes: on a
    replica that does not own the key, a write of any positive TTL through the
    cache chain leaves the push queue as it was, because the chain hands the
    peer tier the TTL after clamping it to 30 s. *)
Theorem high_threshold_never_pushes {D} `{L2Store D} rd key v ttl (c : @Tiered.Cache D PeerCache) pc :
  Tiered.l3 c = Some pc → 0 < ttl → 30 * Second < wtMinTTL (cfg pc) →
  IsOwner key pc = false → writeThrough (cfg pc) = true →
  Tiered.l3 (Tiered.SetWithTTL rd key v ttl c) = Some pc.
Proof.
  intros Hl3 Hpos Hmin Hown Hwt. unfold Tiered.SetWithTTL.
  destruct (Tiered.disabled c); [done|]. unfold Tiered.setWithTTL.
  destruct (_ <? L1.byte_len v); [done|]. rewrite Hl3. cbn [l3_IsOwner l3_WriteThroughEnabled peer_l3].
  unfold WriteThroughEnabled. rewrite Hown, Hwt. cbn [negb andb]. rewrite andb_false_r.
  cbn [Tiered.storeL1 Tiered.with_l1 Tiered.l3]. rewrite Hl3. cbn [Tiered.with_l3 Tiered.l3].
  f_equal. cbn [l3_SetWithTTL peer_l3]. unfold SetWithTTL. rewrite Hwt. cbn [negb orb].
  destruct (len v =? 0); [done|]. unfold Tiered.nonOwnerShadowMaxTTL.
  destruct (Z.ltb_spec (30 * Second) ttl) as [Hlt|Hge].
  - rewrite (proj2 (Z.ltb_lt 0 _)) by (unfold Second; lia). by rewrite (proj2 (Z.ltb_lt _ _)).
  - rewrite (proj2 (Z.ltb_lt 0 ttl)) by done. by rewrite (proj2 (Z.ltb_lt _ _)) by lia.
Qed.

End Wired.
End Peer.

(** ** Witnesses *)

Module PeerDemo.
Import Text Peer TierDemo.

(** Compressors that frame the bytes with one tag. *)
Definition unframe (tag : string) (z : string) : option reader :=
  (λ b, mkReader b false) <$> strip_prefix tag z.

#[export] Instance framed : Wire := {
  gunzip := unframe "g";
  zstd_compress b := Some ("z" +:+ b);
  gzip_compress b := Some ("g" +:+ b);
  unzstd := unframe "z";
  json_has _ := Some "{}";
  json_hot _ _ := None;
  unjson_hot _ := None
}.

#[export] Instance framed_laws : WireLaws.
Proof. split; [by intros b z [= <-]|by intros b z [= <-]|done]. Qed.

Definition two : list string := ["10.0.0.2:3100"; "10.0.0.1:3100"].

Definition conf : config := mkConfig "10.0.0.1:3100" "" true (60 * Second) 0 0 0 0 0 0 0.

(** A replica whose only known peer is another one, which owns every key. *)
Definition node : PeerCache := updatePeers ["10.0.0.2:3100"] (NewPeerCache conf).

Lemma node_owns_nothing key : IsOwner key node = false.
Proof.
  pose proof (owner_in_peers key ["10.0.0.2:3100"] (NewPeerCache conf) ltac:(discriminate)) as Ho.
  apply list_elem_of_singleton in Ho. unfold IsOwner. fold node in Ho. rewrite Ho. reflexivity.
Qed.

Definition bare : PeerCache := NewPeerCache conf.

Definition cached : @Tiered.Cache TierDemo.disk TierDemo.fleet :=
  Tiered.SetLocalOnly (Tiered.mkReads 0 0 0 0 0 0) "k" "value" (60 * Second)
    (Tiered.NewWithMaxBytes (60 * Second) 10 1000 false None None).

Definition ask : request :=
  mkReq "GET" "/_cache/get" (λ q, if String.eqb q "key" then "k" else "") "zstd" "" (mkReader "" false).

Lemma fleet_agrees_on_owner_witness :
  ∃ o, o ∈ filterValidPeers two ∧
    ∀ ps' pc, ps' ≡ₚ two →
      IsOwner "k" (updatePeers (filterValidPeers ps') pc) = true ↔ selfAddr (cfg pc) = o.
Proof. refine (fleet_agrees_on_owner "k" two _). vm_compute. discriminate. Defined.

Lemma peer_breaker_cooldown_witness :
  (peerAllowed (20 * Second) "p" (foldl (λ p t, recordPeerFailure t "p" p) bare [1;2;3;4;5])).1 = true.
Proof.
  refine (proj1 (proj1 (proj2 (peer_breaker_cooldown "p" [1;2;3;4;5] (20 * Second) bare _ _)) _)).
  - discriminate.
  - vm_compute. discriminate.
  - vm_compute. discriminate.
Defined.

Lemma peer_get_roundtrip_witness :
  ∃ ttl, (Get_fetch (mkReply 9 (Replied (fst (serveGet 7 ask cached)))) "p" bare).1 =
         Some ("value", ttl) ∧ 60 * Second - 7 - Millisecond < ttl ≤ 60 * Second - 7.
Proof.
  refine (proj1 (peer_get_roundtrip 7 9 ask "p" bare cached "value" (60 * Second - 7)
    (snd (Tiered.GetWithTTL 7 "k" cached)) _ _ _ _ _) _).
  - discriminate.
  - vm_compute. discriminate.
  - by split; eexists.
  - split; [vm_compute; discriminate|]. split; intros z [= <-]; vm_compute; discriminate.
  - vm_compute. reflexivity.
  - vm_compute. discriminate.
Defined.

Lemma peer_push_roundtrip_witness :
  ∃ body enc, pushBody (mkPush "p" "k" "value" (45 * Second)) bare = Some (body, enc) ∧
    serveSet TierDemo.t (pushRequest (mkPush "p" "k" "value" (45 * Second)) body enc) cached =
    (mkResp 204 "" "" "zstd" (mkReader "" false),
     Tiered.SetWithTTL TierDemo.t "k" "value" (45 * Second) cached).
Proof.
  apply (peer_push_roundtrip TierDemo.t (mkPush "p" "k" "value" (45 * Second)) bare cached).
  - discriminate.
  - discriminate.
  - vm_compute. reflexivity.
  - vm_compute. discriminate.
  - by split; eexists.
  - split; [vm_compute; discriminate|]. split; intros z [= <-]; vm_compute; discriminate.
Defined.

(** A long value, an owner that had advertised zstd, and an empty owner cache. *)
Definition long : string := Nat.iter 1100 (String "x") "".

Lemma miss_forgets_set_encoding_witness :
  pushBody (mkPush "p" "k" long (45 * Second)) (recordPeerSetEncoding "p" "zstd" bare) =
    Some ("z" +:+ long, "zstd") ∧
  pushBody (mkPush "p" "k" long (45 * Second))
    (snd (Get_fetch (mkReply 9 (Replied (fst (serveGet (61 * Second) ask cached)))) "p"
            (recordPeerSetEncoding "p" "zstd" bare))) = Some (long, "").
Proof.
  split; [vm_compute; reflexivity|].
  apply (miss_forgets_set_encoding (61 * Second) 9 ask "p" (recordPeerSetEncoding "p" "zstd" bare)
    cached "k" long (45 * Second)).
  - reflexivity.
  - discriminate.
  - vm_compute. discriminate.
  - vm_compute. reflexivity.
Defined.

Definition silent_get (_ : Z) (_ _ : string) : reply := mkReply 0 BuildError.

Lemma high_threshold_never_pushes_witness :
  Tiered.l3 (@Tiered.SetWithTTL _ _ _ (peer_l3 silent_get) TierDemo.t "k" "value" Hour
    (Tiered.NewWithMaxBytes (60 * Second) 10 1000 false (None : option TierDemo.disk) (Some node))) = Some node.
Proof.
  refine (high_threshold_never_pushes silent_get TierDemo.t "k" "value" Hour _ node _ _ _ _ _).
  - reflexivity.
  - reflexivity.
  - reflexivity.
  - apply node_owns_nothing.
  - reflexivity.
Defined.

End PeerDemo.
