(* ===== verification/ReadAhead.v ===== *)
(** * Hot-key read-ahead between peers
      (src/internal/cache/peer.go, the read-ahead loop)

    One cycle asks every other peer for its hot index, selects candidates under
    the key, byte and per-tenant budgets, and prefetches them as shadows. *)

From S2P Require Import Prelude GoText Cache TieredCache Sha256 HashRing PeerCache.

#[local] Open Scope Z_scope.

Module ReadAhead.
Import Text Peer L1.

(** ** Backoff *)

Record pacing : Type := mkPacing {
  errorStreak : Z;
  backoffUntil : Z
}.

Definition applyReadAheadBackoff (now runErrs : Z) (c : config) (s : pacing) : pacing :=
  if runErrs <=? 0 then mkPacing 0 0
  else
    let streak := errorStreak s + 1 in
    let mult := if 4 <? streak then 4 else streak in
    mkPacing streak (now + mult * readAheadErrorBackoff c).

(** The test at the top of the loop: run the cycle at [now]? *)
Definition cycleDue (now : Z) (s : pacing) : bool := negb (now <? backoffUntil s).

(** ** Selection *)

(** The variables the two passes share. *)
Record selection : Type := mkSel {
  remainingKeys : Z;
  remainingBytes : Z;
  selected : list hotKey;
  seen : gset string;
  perTenant : gmap string Z;
  budgetDrops : Z;
  tenantSkips : Z
}.

Definition perTenantCap (c : config) : Z :=
  let cap := Z.quot (wrap64 (readAheadMaxKeysPerTick c * readAheadTenantFairShare c)) 100 in
  if cap <? 1 then 1 else cap.

Definition budget_drop (s : selection) : selection :=
  mkSel (remainingKeys s) (remainingBytes s) (selected s) (seen s) (perTenant s)
    (budgetDrops s + 1) (tenantSkips s).

Definition tenant_skip (s : selection) : selection :=
  mkSel (remainingKeys s) (remainingBytes s) (selected s) (seen s) (perTenant s)
    (budgetDrops s) (tenantSkips s + 1).

Definition taken (t : string) (s : selection) : Z := default 0 (perTenant s !! t).

Definition accept (e : hotKey) (s : selection) : selection :=
  mkSel (remainingKeys s - 1) (remainingBytes s - hk_size e) (selected s ++ [e])
    ({[ hk_key e ]} ∪ seen s)
    (if String.eqb (hk_tenant e) "" then perTenant s
     else <[hk_tenant e := taken (hk_tenant e) s + 1]> (perTenant s))
    (budgetDrops s) (tenantSkips s).

Definition tryAdd (c : config) (enforceFair : bool) (e : hotKey) (s : selection)
    : bool * selection :=
  if String.eqb (hk_key e) "" then (false, s)
  else if bool_decide (hk_key e ∈ seen s) then (false, s)
  else if hk_ttl_ms e <? Z.quot (readAheadMinTTL c) Millisecond then (false, s)
  else if (0 <? readAheadMaxObjectBytes c) && (readAheadMaxObjectBytes c <? hk_size e)
  then (false, budget_drop s)
  else if (hk_size e <=? 0) || (remainingBytes s <? hk_size e)
  then (false, budget_drop s)
  else if enforceFair && negb (String.eqb (hk_tenant e) "")
          && (perTenantCap c <=? taken (hk_tenant e) s)
  then (false, tenant_skip s)
  else (true, accept e s).

Definition exhausted (s : selection) : bool :=
  (remainingKeys s <=? 0) || (remainingBytes s <=? 0).

(** First pass: fair, collecting what was turned away. *)
Fixpoint fairPass (c : config) (es : list hotKey) (s : selection) : list hotKey * selection :=
  match es with
  | [] => ([], s)
  | e :: es =>
      if exhausted s then ([], s)
      else
        let '(added, s) := tryAdd c true e s in
        let '(deferred, s) := fairPass c es s in
        (if added then deferred else e :: deferred, s)
  end.

Fixpoint fillPass (c : config) (es : list hotKey) (s : selection) : selection :=
  match es with
  | [] => s
  | e :: es => if exhausted s then s else fillPass c es ((tryAdd c false e s).2)
  end.

Definition emptySelection (c : config) : selection :=
  mkSel (readAheadMaxKeysPerTick c) (readAheadMaxBytesPerTick c) [] ∅ ∅ 0 0.

Definition selectReadAheadCandidates (c : config) (es : list hotKey) : selection :=
  match es with
  | [] => emptySelection c
  | _ =>
      if readAheadMaxKeysPerTick c <=? 0 then emptySelection c
      else
        let '(deferred, s) := fairPass c es (emptySelection c) in
        fillPass c deferred s
  end.

(** ** Prefetch *)

Definition count_budget := add_stats (mkStats 0 0 0 0 0 0 0 0 0 1 0).

Section Prefetch.
Context `{Wire} {D P : Type} `{L2Store D} `{L3Store P}.
Context (net_get : Z → string → string → reply).

(** [true] is "no error"; the prefetched value goes into the local shadow tier. *)
Definition prefetchHotKey (now : Z) (rd : Tiered.reads) (e : hotKey)
    (local : @Tiered.Cache D P) (p : PeerCache) : bool * @Tiered.Cache D P * PeerCache :=
  if String.eqb (hk_key e) "" then (false, local, p)
  else
    let minTTL := readAheadMinTTL (cfg p) in
    let '(have, local) := Tiered.GetWithTTL now (hk_key e) local in
    let warm := match have with Some (_, ttl) => minTTL <=? ttl | None => false end in
    if warm then (true, local, p)
    else
      match Get net_get now (hk_key e) p with
      | (None, p) => (false, local, p)
      | (Some (val, ttl), p) =>
          let ttl := if ttl <=? 0 then wrap64 (hk_ttl_ms e * Millisecond) else ttl in
          if ttl <? minTTL then (false, local, p)
          else if (0 <? readAheadMaxObjectBytes (cfg p)) &&
                  (readAheadMaxObjectBytes (cfg p) <? len val)
          then (false, local, count_budget p)
          else (true, Tiered.SetShadowWithTTL rd (hk_key e) val ttl local,
                add_stats (mkStats 0 0 0 0 0 0 0 1 (len val) 0 0) p)
      end.

(** [fetchPeerHotIndex] once the round trip ended: the entries, or an error. *)
Definition fetchPeerHotIndex (rp : reply) (addr : string) (p : PeerCache)
    : option (list hotKey) * PeerCache :=
  let p := add_stats (mkStats 0 0 0 0 0 1 0 0 0 0 0) p in
  let failed := recordPeerFailure (done_at rp) addr in
  match what rp with
  | BuildError | TransportError _ => (None, failed p)
  | Replied r =>
      if negb (StatusCode r =? 200) then (None, failed p)
      else
        let p := recordPeerSetEncoding addr (PeerSetEncoding r) p in
        match
          raw ← readPeerBodyLimited (Body r) maxPeerHotIndexBytes;
          body ← decodePeerResponseBody (ContentEncoding r) raw maxPeerHotIndexBytes;
          unjson_hot body
        with
        | None => (None, failed p)
        | Some es => (Some es, recordPeerSuccess addr p)
        end
  end.

(** The peers a cycle asks: not itself, breaker closed. *)
Fixpoint collect (now : Z) (net_hot : Z → string → reply) (ps : list string)
    (p : PeerCache) : list hotKey * Z * PeerCache :=
  match ps with
  | [] => ([], 0, p)
  | a :: ps =>
      if String.eqb a "" || String.eqb a (selfAddr (cfg p)) then collect now net_hot ps p
      else
        match peerAllowed now a p with
        | (false, p) => collect now net_hot ps p
        | (true, p) =>
            match fetchPeerHotIndex (net_hot now a) a p with
            | (None, p) =>
                let '(es, errs, p) :=
                  collect now net_hot ps (add_stats (mkStats 0 0 0 0 0 0 1 0 0 0 0) p) in
                (es, errs + 1, p)
            | (Some got, p) =>
                let '(es, errs, p) := collect now net_hot ps p in (got ++ es, errs, p)
            end
        end
  end.

(** Hottest first; the hot indexes arrive in peer order here. *)
Definition collectHotCandidates (now : Z) (net_hot : Z → string → reply) (p : PeerCache)
    : list hotKey * Z * PeerCache :=
  let '(es, errs, p) := collect now net_hot (peers p) p in
  (merge_sort hotter es, errs, p).

End Prefetch.

(** ** Specification of a selection *)

(** What a candidate needs on its own. *)
Definition eligible (c : config) (e : hotKey) : Prop :=
  hk_key e ≠ "" ∧ Z.quot (readAheadMinTTL c) Millisecond ≤ hk_ttl_ms e ∧
  0 < hk_size e ∧ (0 < readAheadMaxObjectBytes c → hk_size e ≤ readAheadMaxObjectBytes c).

Definition sum_sizes (es : list hotKey) : Z := foldr (λ e n, hk_size e + n) 0 es.

Definition count_tenant (t : string) (es : list hotKey) : Z :=
  Z.of_nat (length (filter (λ e, hk_tenant e = t) es)).

(** What both passes keep true. *)
Record sel_inv (c : config) (s : selection) : Prop := {
  inv_keys : remainingKeys s = readAheadMaxKeysPerTick c - Z.of_nat (length (selected s));
  inv_bytes : remainingBytes s = readAheadMaxBytesPerTick c - sum_sizes (selected s);
  inv_keys_pos : 0 ≤ remainingKeys s;
  inv_bytes_pos : 0 ≤ remainingBytes s;
  inv_seen : ∀ k, k ∈ seen s ↔ k ∈ map hk_key (selected s);
  inv_nodup : NoDup (map hk_key (selected s));
  inv_eligible : Forall (eligible c) (selected s);
  inv_tenant : ∀ t, t ≠ "" → taken t s = count_tenant t (selected s)
}.

(** ** Lemmas *)

Lemma sum_sizes_app a b : sum_sizes (a ++ b) = sum_sizes a + sum_sizes b.
Proof.
  induction a as [|e a IH]; [done|].
  change (hk_size e + sum_sizes (a ++ b) = hk_size e + sum_sizes a + sum_sizes b). lia.
Qed.

Lemma count_tenant_snoc t es e :
  count_tenant t (es ++ [e]) = count_tenant t es + (if decide (hk_tenant e = t) then 1 else 0).
Proof.
  unfold count_tenant. rewrite filter_app, length_app. destruct (decide (hk_tenant e = t)).
  - rewrite filter_cons_True by done. cbn [filter list_filter length]. simpl. lia.
  - rewrite filter_cons_False by done. simpl. lia.
Qed.

(** Everything [tryAdd] can do: accept an eligible, unseen candidate that fits,
    or leave the selection alone. *)
Lemma tryAdd_cases c fair e s :
  (tryAdd c fair e s = (true, accept e s) ∧ eligible c e ∧ (hk_key e ∉ seen s) ∧
   hk_size e ≤ remainingBytes s ∧
   (fair = true → hk_tenant e ≠ "" → taken (hk_tenant e) s < perTenantCap c)) ∨
  (∃ s', tryAdd c fair e s = (false, s') ∧
     remainingKeys s' = remainingKeys s ∧ remainingBytes s' = remainingBytes s ∧
     selected s' = selected s ∧ seen s' = seen s ∧ perTenant s' = perTenant s ∧
     (fair = false → eligible c e → hk_size e ≤ remainingBytes s → hk_key e ∈ seen s)).
Proof.
  unfold tryAdd.
  destruct (String.eqb_spec (hk_key e) "") as [Hk|Hk].
  { right. exists s. repeat split; try done. intros _ [? _]. done. }
  case_bool_decide as Hseen.
  { right. by exists s. }
  destruct (Z.ltb_spec (hk_ttl_ms e) (Z.quot (readAheadMinTTL c) Millisecond)) as [Ht|Ht].
  { right. exists s. repeat split; try done. intros _ (_ & ? & _). lia. }
  destruct ((0 <? readAheadMaxObjectBytes c) && (readAheadMaxObjectBytes c <? hk_size e)) eqn:Ho.
  { right. exists (budget_drop s). repeat split; try done. intros _ (_ & _ & _ & He).
    apply andb_true_iff in Ho as [Ho1%Z.ltb_lt Ho2%Z.ltb_lt]. specialize (He Ho1). lia. }
  destruct ((hk_size e <=? 0) || (remainingBytes s <? hk_size e)) eqn:Hs.
  { right. exists (budget_drop s). repeat split; try done. intros _ (_ & _ & Hp & _) Hle.
    apply orb_true_iff in Hs as [Hs%Z.leb_le|Hs%Z.ltb_lt]; lia. }
  apply orb_false_iff in Hs as [Hs1%Z.leb_gt Hs2%Z.ltb_ge].
  assert (eligible c e) as Hel.
  { repeat split; try done. intros Hp. apply andb_false_iff in Ho as [Ho%Z.ltb_ge|Ho%Z.ltb_ge]; lia. }
  destruct (fair && negb (String.eqb (hk_tenant e) "") && (perTenantCap c <=? taken (hk_tenant e) s))
    eqn:Hf.
  { right. exists (tenant_skip s). repeat split; try done. intros ->. done. }
  left. repeat split; try done; try apply Hel. intros -> Hten.
  destruct (String.eqb_spec (hk_tenant e) "") as [|_]; [done|].
  cbn [andb negb] in Hf. apply Z.leb_gt in Hf. lia.
Qed.

Lemma sel_inv_frame c s s' :
  remainingKeys s' = remainingKeys s → remainingBytes s' = remainingBytes s →
  selected s' = selected s → seen s' = seen s → perTenant s' = perTenant s →
  sel_inv c s → sel_inv c s'.
Proof.
  intros Hk Hb Hs Hn Ht [? ? ? ? ? ? ? Hten]. split; rewrite ?Hk, ?Hb, ?Hs, ?Hn; try done.
  intros t Hne. unfold taken. rewrite Ht. by apply Hten.
Qed.

Lemma accept_inv c e s :
  sel_inv c s → eligible c e → hk_key e ∉ seen s → hk_size e ≤ remainingBytes s →
  0 < remainingKeys s → sel_inv c (accept e s).
Proof.
  intros [Hk Hb Hkp Hbp Hseen Hnd Hel Hten] He Hnew Hfit Hroom.
  split; cbn [accept remainingKeys remainingBytes selected seen]; try lia.
  - rewrite length_app. simpl. lia.
  - rewrite sum_sizes_app. unfold sum_sizes at 2. simpl. lia.
  - intros k. rewrite map_app, elem_of_union, elem_of_singleton, elem_of_app, Hseen. simpl.
    rewrite list_elem_of_singleton. tauto.
  - rewrite map_app. apply NoDup_app. split; [done|]. split.
    + intros k Hin Hk'. simpl in Hk'. apply list_elem_of_singleton in Hk' as ->.
      apply Hnew. by apply Hseen.
    + apply NoDup_singleton.
  - apply Forall_app. split; [done|]. by constructor.
  - intros t Hne. rewrite count_tenant_snoc, <- (Hten t Hne). unfold taken, accept. cbn [perTenant].
    destruct (String.eqb_spec (hk_tenant e) "") as [He0|He0].
    + rewrite decide_False by congruence. lia.
    + destruct (decide (hk_tenant e = t)) as [<-|Hd].
      * rewrite lookup_insert_eq. done.
      * rewrite lookup_insert_ne by done. lia.
Qed.

Lemma tryAdd_inv c fair e s :
  sel_inv c s → exhausted s = false → sel_inv c (snd (tryAdd c fair e s)).
Proof.
  intros Hi Hx. apply orb_false_iff in Hx as [Hx%Z.leb_gt _].
  destruct (tryAdd_cases c fair e s) as [(-> & ? & ? & ? & _)|(s' & -> & ? & ? & ? & ? & ? & _)].
  - by apply accept_inv.
  - by eapply sel_inv_frame.
Qed.

(** Selections only grow, and with them the budget used. *)
Definition grows (s s' : selection) : Prop :=
  (∃ more, selected s' = selected s ++ more) ∧ seen s ⊆ seen s' ∧
  remainingBytes s' ≤ remainingBytes s ∧ remainingKeys s' ≤ remainingKeys s.

#[export] Instance grows_preorder : PreOrder grows.
Proof.
  split.
  - intros s. split; [exists []; by rewrite app_nil_r|]. split; [done|lia].
  - intros a b d ([m1 H1] & S1 & B1 & K1) ([m2 H2] & S2 & B2 & K2).
    split; [exists (m1 ++ m2); by rewrite H2, H1, app_assoc|]. split; [by etrans|lia].
Qed.

Lemma tryAdd_grows c fair e s : grows s (tryAdd c fair e s).2.
Proof.
  destruct (tryAdd_cases c fair e s)
    as [(-> & (_ & _ & Hp & _) & _)|(s' & -> & Hk & Hb & Hs & Hn & _)]; cbn [snd].
  - split; [by exists [e]|]. cbn [accept seen remainingBytes remainingKeys].
    split; [apply union_subseteq_r|lia].
  - split; [exists []; by rewrite Hs, app_nil_r|]. rewrite Hn. split; [done|lia].
Qed.

Lemma exhausted_mono s s' : grows s s' → exhausted s' = false → exhausted s = false.
Proof.
  intros (_ & _ & Hb & Hk) [H1%Z.leb_gt H2%Z.leb_gt]%orb_false_iff.
  apply orb_false_iff. split; apply Z.leb_gt; lia.
Qed.

Lemma fillPass_inv c es s :
  sel_inv c s → sel_inv c (fillPass c es s) ∧ grows s (fillPass c es s).
Proof.
  revert s. induction es as [|e es IH]; intros s Hi; cbn [fillPass]; [by split|].
  destruct (exhausted s) eqn:Hx; [by split|].
  destruct (IH _ (tryAdd_inv c false e s Hi Hx)) as [H1 H2].
  split; [done|]. etrans; [apply tryAdd_grows|done].
Qed.

(** A tenant's share of the first pass is within the cap. *)
Definition fair (c : config) (s : selection) : Prop :=
  ∀ t, t ≠ "" → taken t s ≤ perTenantCap c.

Lemma tryAdd_fair c e s : fair c s → fair c (tryAdd c true e s).2.
Proof.
  intros Hf t Hne.
  destruct (tryAdd_cases c true e s)
    as [(-> & _ & _ & _ & Hc)|(s' & -> & _ & _ & _ & _ & Ht & _)]; cbn [snd].
  - unfold taken, accept. cbn [perTenant].
    destruct (String.eqb_spec (hk_tenant e) "") as [|He0]; [by apply Hf|].
    specialize (Hc eq_refl He0). destruct (decide (hk_tenant e = t)) as [<-|Hd].
    + rewrite lookup_insert_eq. simpl. unfold taken in *. lia.
    + rewrite lookup_insert_ne by done. by apply Hf.
  - unfold taken. rewrite Ht. by apply Hf.
Qed.

Lemma fairPass_inv c es s :
  sel_inv c s → fair c s →
  let r := fairPass c es s in
  sel_inv c r.2 ∧ grows s r.2 ∧ fair c r.2.
Proof.
  revert s. induction es as [|e es IH]; intros s Hi Hf; cbn [fairPass]; [done|].
  destruct (exhausted s) eqn:Hx; [done|].
  pose proof (tryAdd_inv c true e s Hi Hx) as H1.
  pose proof (tryAdd_grows c true e s) as H2. pose proof (tryAdd_fair c e s Hf) as H3.
  destruct (tryAdd c true e s) as [added s1]. cbn [snd] in *.
  specialize (IH s1 H1 H3). destruct (fairPass c es s1) as [deferred s2]. cbn [snd] in *.
  destruct IH as (I1 & I2 & I3). split; [done|]. split; [by etrans|done].
Qed.

Lemma fairPass_covers c es s :
  sel_inv c s → exhausted (fairPass c es s).2 = false → fair c s →
  ∀ e, e ∈ es → hk_key e ∈ seen (fairPass c es s).2 ∨ e ∈ (fairPass c es s).1.
Proof.
  revert s. induction es as [|e0 es IH]; intros s Hi Hx Hf e He; [by apply not_elem_of_nil in He|].
  cbn [fairPass] in Hx |- *.
  destruct (exhausted s) eqn:Hxs; [cbn [snd] in Hx; congruence|].
  pose proof (tryAdd_inv c true e0 s Hi Hxs) as H1. pose proof (tryAdd_fair c e0 s Hf) as H3.
  pose proof (tryAdd_cases c true e0 s) as Hcases.
  destruct (tryAdd c true e0 s) as [added s1]. cbn [snd] in *.
  specialize (IH s1 H1). pose proof (fairPass_inv c es s1 H1 H3) as (_ & Hg & _).
  destruct (fairPass c es s1) as [deferred s2]. cbn [fst snd] in *.
  specialize (IH Hx H3). apply elem_of_cons in He as [->|He].
  - destruct Hcases as [([= -> ->] & _)|(s' & [= -> ->] & _)]; [left|right; left].
    apply Hg. cbn [accept seen]. apply elem_of_union. left. by apply elem_of_singleton.
  - destruct (IH e He) as [|Hd]; [by left|right]. destruct added; [done|by right].
Qed.

Lemma fillPass_covers c es s :
  sel_inv c s → exhausted (fillPass c es s) = false →
  ∀ e, e ∈ es → eligible c e → hk_size e ≤ remainingBytes (fillPass c es s) →
  hk_key e ∈ seen (fillPass c es s).
Proof.
  revert s. induction es as [|e0 es IH]; intros s Hi Hx e He Hel Hfit;
    [by apply not_elem_of_nil in He|].
  cbn [fillPass] in *. destruct (exhausted s) eqn:Hxs; [congruence|].
  pose proof (tryAdd_inv c false e0 s Hi Hxs) as H1.
  destruct (fillPass_inv c es _ H1) as [_ (_ & Hseen & Hb & _)].
  apply elem_of_cons in He as [->|He]; [|by apply IH].
  apply Hseen. destruct (tryAdd_cases c false e0 s)
    as [(-> & _)|(s' & Heq & _ & Hb' & _ & Hn & _ & Hin)].
  - cbn [snd accept seen]. apply elem_of_union. left. by apply elem_of_singleton.
  - rewrite Heq in *. cbn [snd] in *. rewrite Hn. apply Hin; [done|done|]. lia.
Qed.

Lemma empty_inv c :
  0 ≤ readAheadMaxKeysPerTick c → 0 ≤ readAheadMaxBytesPerTick c → sel_inv c (emptySelection c).
Proof.
  intros Hk Hb. split; unfold emptySelection; cbn [remainingKeys remainingBytes selected seen length sum_sizes foldr map];
    try lia; try done.
  - intros k. rewrite elem_of_empty, elem_of_nil. done.
  - constructor.
Qed.

Lemma select_inv c es :
  0 ≤ readAheadMaxKeysPerTick c → 0 ≤ readAheadMaxBytesPerTick c →
  sel_inv c (selectReadAheadCandidates c es).
Proof.
  intros Hk Hb. pose proof (empty_inv c Hk Hb) as H0. unfold selectReadAheadCandidates.
  destruct es as [|e es]; [done|]. destruct (_ <=? 0); [done|].
  pose proof (fairPass_inv c (e :: es) _ H0) as H1.
  destruct (fairPass c (e :: es) (emptySelection c)) as [deferred s].
  apply fillPass_inv, H1. intros t _. unfold taken, emptySelection. cbn [perTenant].
  rewrite lookup_empty. simpl. unfold perTenantCap. cbv zeta. zcases.
Qed.

(** Read-ahead budgets.  Whatever hot indexes the peers sent (they are
    untrusted input), a cycle selects at most the configured number of keys and
    bytes, no key twice, and only entries with a key, a positive size within the
    object limit and enough lifetime left. *)
Theorem selection_within_budgets c es :
  0 ≤ readAheadMaxKeysPerTick c → 0 ≤ readAheadMaxBytesPerTick c →
  let s := selected (selectReadAheadCandidates c es) in
  Z.of_nat (length s) ≤ readAheadMaxKeysPerTick c ∧
  sum_sizes s ≤ readAheadMaxBytesPerTick c ∧
  NoDup (map hk_key s) ∧ Forall (eligible c) s.
Proof.
  intros Hk Hb. destruct (select_inv c es Hk Hb). repeat split; try done; lia.
Qed.

(** Read-ahead is work conserving.  When a cycle ends with key and byte
    budget to spare, every eligible candidate that would still fit was selected:
    the per-tenant cap only reorders the choice, it never leaves budget unused. *)
Theorem selection_work_conserving c es e :
  0 < readAheadMaxKeysPerTick c → 0 ≤ readAheadMaxBytesPerTick c →
  exhausted (selectReadAheadCandidates c es) = false →
  e ∈ es → eligible c e → hk_size e ≤ remainingBytes (selectReadAheadCandidates c es) →
  hk_key e ∈ map hk_key (selected (selectReadAheadCandidates c es)).
Proof.
  intros Hk Hb Hx He Hel Hfit. apply (inv_seen c); [apply select_inv; lia|].
  pose proof (empty_inv c ltac:(lia) Hb) as H0. unfold selectReadAheadCandidates in *.
  destruct es as [|e0 es]; [by apply not_elem_of_nil in He|].
  rewrite (proj2 (Z.leb_gt _ _)) in * by lia.
  assert (fair c (emptySelection c)) as Hf.
  { intros t _. unfold taken, emptySelection. cbn [perTenant]. rewrite lookup_empty. simpl.
    unfold perTenantCap. cbv zeta. zcases. }
  pose proof (fairPass_inv c (e0 :: es) _ H0 Hf) as (H1 & _ & _).
  pose proof (fairPass_covers c (e0 :: es) _ H0) as Hcov.
  destruct (fairPass c (e0 :: es) (emptySelection c)) as [deferred s]. cbn [fst snd] in *.
  destruct (fillPass_inv c deferred s H1) as [_ Hg].
  destruct (Hcov (exhausted_mono _ _ Hg Hx) Hf e He) as [Hs|Hd].
  - by apply Hg.
  - by apply fillPass_covers.
Qed.

(** Tenant fairness.  The selection starts with a part in which no tenant
    holds more than its cap; what follows it is budget the fair pass left over. *)
Theorem selection_tenant_fair c es :
  0 ≤ readAheadMaxKeysPerTick c → 0 ≤ readAheadMaxBytesPerTick c →
  ∃ first rest, selected (selectReadAheadCandidates c es) = first ++ rest ∧
    (∀ t, t ≠ "" → count_tenant t first ≤ perTenantCap c) ∧
    (rest ≠ [] → exhausted (fairPass c es (emptySelection c)).2 = false).
Proof.
  intros Hk Hb. pose proof (empty_inv c Hk Hb) as H0. unfold selectReadAheadCandidates.
  assert (fair c (emptySelection c)) as Hf.
  { intros t _. unfold taken, emptySelection. cbn [perTenant]. rewrite lookup_empty. simpl.
    unfold perTenantCap. cbv zeta. zcases. }
  assert (∀ t, t ≠ "" → count_tenant t [] ≤ perTenantCap c) as Hnil.
  { intros t Ht. specialize (Hf t Ht). by rewrite (inv_tenant c _ H0 t Ht) in Hf. }
  destruct es as [|e es]; [exists [], []; split; [done|split; [done|done]]|].
  destruct (readAheadMaxKeysPerTick c <=? 0) eqn:Hz.
  { exists [], []. split; [done|split; [done|done]]. }
  pose proof (fairPass_inv c (e :: es) _ H0 Hf) as (H1 & _ & H3).
  destruct (fairPass c (e :: es) (emptySelection c)) as [deferred s]. cbn [snd] in *.
  destruct (fillPass_inv c deferred s H1) as [_ ([more Hm] & _)].
  exists (selected s), more. split; [done|]. split.
  - intros t Ht. rewrite <- (inv_tenant c _ H1 t Ht). by apply H3.
  - intros Hne. destruct deferred as [|d ds].
    + cbn [fillPass] in Hm. apply (f_equal length) in Hm. rewrite length_app in Hm.
      destruct more; [done|simpl in Hm; lia].
    + cbn [fillPass] in Hm. destruct (exhausted s); [|done].
      apply (f_equal length) in Hm. rewrite length_app in Hm. destruct more; [done|simpl in Hm; lia].
Qed.

(** ** Witnesses *)

Definition ra_conf : config := mkConfig "me" "" false 0 256 4 1000 (30 * Second) 500 50 15.

Definition cand (k t : string) (size : Z) : hotKey := mkHotKey k t 10 size 60000.

Definition cands : list hotKey :=
  [cand "a" "x" 100; cand "b" "x" 100; cand "c" "x" 100; cand "a" "y" 100; cand "d" "y" 600].

Lemma selection_within_budgets_witness :
  Z.of_nat (length (selected (selectReadAheadCandidates ra_conf cands))) ≤ 4.
Proof. refine (proj1 (selection_within_budgets ra_conf cands _ _)); vm_compute; discriminate. Defined.

Lemma selection_work_conserving_witness :
  map hk_key (selected (selectReadAheadCandidates ra_conf cands)) = ["a"; "b"; "c"] ∧
  hk_key (cand "c" "x" 100) ∈ map hk_key (selected (selectReadAheadCandidates ra_conf cands)).
Proof.
  split; [vm_compute; reflexivity|].
  refine (selection_work_conserving ra_conf cands (cand "c" "x" 100) _ _ _ _ _ _).
  - reflexivity.
  - vm_compute. discriminate.
  - vm_compute. reflexivity.
  - unfold cands. rewrite !elem_of_cons. tauto.
  - repeat split; vm_compute; discriminate.
  - vm_compute. discriminate.
Defined.

Lemma selection_tenant_fair_witness :
  ∃ first rest, selected (selectReadAheadCandidates ra_conf cands) = first ++ rest ∧
    (∀ t, t ≠ "" → count_tenant t first ≤ perTenantCap ra_conf) ∧
    (rest ≠ [] → exhausted (fairPass ra_conf cands (emptySelection ra_conf)).2 = false).
Proof. refine (selection_tenant_fair ra_conf cands _ _); vm_compute; discriminate. Defined.

End ReadAhead.
