(* ===== verification/Backend.v ===== *)
(** * Backend calls: error classification and the circuit breaker
      (src/internal/proxy/http_utils.go, src/internal/proxy/backend.go)

    [goerr] is what the code can see of an error through [errors.Is],
    [errors.As] and [Error()].  [vlGet], [vlPost] and their inner forms thread the
    breaker of [CircuitBreaker.v] exactly as the client does; [serve] runs a
    sequence of calls.  The echo scanner of the error classifier is modelled byte
    by byte. *)

From S2P Require Import Prelude GoText CircuitBreaker.

#[local] Open Scope Z_scope.

Module Backend.
Import Text CB.

(** ** Errors *)

Inductive vlErrorClass : Type :=
| vlErrorUnclassified
| vlErrorQueryRejected
| vlErrorResourceLimit
| vlErrorUnsupportedPath.

#[export] Instance vlErrorClass_eq_dec : EqDecision vlErrorClass.
Proof. solve_decision. Defined.

(** A non-nil error: the targets its chain answers to. *)
Record goerr : Type := mkErr {
  as_status : option (Z * vlErrorClass);
  as_parse : bool;
  as_vector_match : bool;
  as_unknown_func : bool;
  is_metric_unsupported : bool;
  is_guard_rejected : bool;
  is_canceled : bool;
  is_deadline : bool;
  net_timeout : bool;
  text : string
}.

(** [fmt.Errorf] without wrapping. *)
Definition plain (s : string) : goerr :=
  mkErr None false false false false false false false false s.

(** [fmt.Errorf(prefix + "%w", e)]: the chain of [e] under a longer text. *)
Definition wrap (prefix : string) (e : goerr) : goerr :=
  mkErr (as_status e) (as_parse e) (as_vector_match e) (as_unknown_func e)
    (is_metric_unsupported e) (is_guard_rejected e) (is_canceled e) (is_deadline e)
    (net_timeout e) (prefix +:+ text e).

(** Whether the context of a call is done, and why. *)
Inductive ctxErr : Type := CtxLive | CtxCanceled | CtxDeadline.

Definition ctx_done (c : ctxErr) : bool :=
  match c with
  | CtxLive => false
  | CtxCanceled | CtxDeadline => true
  end.

Definition isUpstreamQueryRejected (err : option goerr) : bool :=
  match err with
  | None => false
  | Some e =>
      match as_status e with
      | Some (_, class) => bool_decide (class = vlErrorQueryRejected)
      | None => as_parse e
      end
  end.

Definition isCanceledErr (err : option goerr) : bool :=
  match err with
  | None => false
  | Some e => is_canceled e || Contains (ToLower (text e)) "context canceled"
  end.

Definition statusFromUpstreamErr (err : option goerr) : Z :=
  if isUpstreamQueryRejected err then 400
  else
    match err with
    | None => 502
    | Some e =>
        if as_vector_match e then 500
        else if as_unknown_func e || is_metric_unsupported e then 400
        else if is_guard_rejected e then 503
        else if isCanceledErr err then 499
        else if is_deadline e then 504
        else if net_timeout e then 504
        else
          let lower := ToLower (text e) in
          if Contains lower "deadline exceeded" || Contains lower "timeout" then 504
          else if Contains lower "circuit breaker" then 503
          else 502
    end.

Definition upstreamErrorStatus (ctx : option ctxErr) (err : option goerr) : Z :=
  match ctx with
  | Some CtxDeadline => 504
  | Some CtxCanceled => 499
  | Some CtxLive | None => statusFromUpstreamErr err
  end.

Definition statusFromBackendErr (err : option goerr) : Z :=
  if isUpstreamQueryRejected err then 400
  else
    match err with
    | Some e =>
        match as_status e with
        | Some (status, _) => status
        | None => statusFromUpstreamErr err
        end
    | None => statusFromUpstreamErr err
    end.

Definition badRequestStatusOr (err : option goerr) (fallback : Z) : Z :=
  if isUpstreamQueryRejected err then 400 else fallback.

Definition shouldRecordBreakerFailure (ctx : option ctxErr) (err : option goerr) : bool :=
  match err with
  | None => false
  | Some e =>
      if match ctx with Some c => ctx_done c | None => false end then false
      else if match as_status e with Some _ => true | None => false end then false
      else if isCanceledErr err || is_deadline e then false
      else if net_timeout e then false
      else
        let lower := ToLower (text e) in
        negb (Contains lower "context canceled" || Contains lower "deadline exceeded"
              || Contains lower "timeout")
  end.

(** ** The query echo of a VictoriaLogs parse error *)

Definition vlParseEchoPrefixes : list string :=
  ["cannot parse `query` arg ["; "cannot parse query arg ["].

(** The loop over the echo: what follows the closing bracket, if it is found. *)
Fixpoint echo_scan (depth : nat) (quote : option Ascii.ascii) (s : string) : option string :=
  match s with
  | "" => None
  | String c rest =>
      match quote with
      | Some q =>
          if Ascii.eqb c bslash && negb (Ascii.eqb q "`") then
            match rest with
            | "" => None
            | String _ rest => echo_scan depth quote rest
            end
          else if Ascii.eqb c q then echo_scan depth None rest
          else echo_scan depth quote rest
      | None =>
          if Ascii.eqb c dquote || Ascii.eqb c "'" || Ascii.eqb c "`" then echo_scan depth (Some c) rest
          else if Ascii.eqb c "[" then echo_scan (S depth) None rest
          else if Ascii.eqb c "]" && (0 <? depth)%nat then echo_scan (pred depth) None rest
          else if Ascii.eqb c "]" && HasPrefix rest ": " then Some rest
          else echo_scan depth None rest
      end
  end.

Fixpoint strip_echo (prefixes : list string) (msg : string) : option string :=
  match prefixes with
  | [] => None
  | p :: ps =>
      match strip_prefix p msg with
      | None => strip_echo ps msg
      | Some rest => Some (default ":" (echo_scan 0 None rest))
      end
  end.

Definition stripVLParseEcho (msg : string) : option string :=
  strip_echo vlParseEchoPrefixes msg.

Definition hasAnyPrefix (s : string) (ps : list string) : bool := existsb (HasPrefix s) ps.

Definition containsAny (s : string) (ms : list string) : bool := existsb (Contains s) ms.

(** ** Calls *)

(** How the round trip of one call ended; a transport error as it is after its
    URL was redacted, which keeps the chain. *)
Inductive roundtrip : Type :=
| RTBuild (e : goerr)
| RTTransport (e : goerr)
| RTDecode (e : goerr)
| RTResponse (status : Z) (body : string).

(** A call: the clock at [Allow], the context when it ended, the round trip and
    the clock readings of [RecordFailure]. *)
Record call : Type := mkCall {
  at_allow : Z;
  ctx_end : ctxErr;
  rt : roundtrip;
  at_record : readings
}.

Definition vlGetInner (c : call) (cb : breaker) : (Z * string + goerr) * breaker :=
  match rt c with
  | RTBuild e => (inr e, cb)
  | RTTransport e =>
      (inr e, if shouldRecordBreakerFailure (Some (ctx_end c)) (Some e)
              then RecordFailure (at_record c) cb else cb)
  | RTDecode e => (inr (wrap "decode backend response: " e), cb)
  | RTResponse status body => (inl (status, body), RecordSuccess cb)
  end.

Definition breaker_open_err : goerr :=
  plain ("circuit breaker open " +:+ str_of [226; 128; 148]%nat +:+ " backend unavailable").

Definition vlGet (c : call) (cb : breaker) : (Z * string + goerr) * breaker :=
  match Allow (at_allow c) cb with
  | (false, cb) => (inr breaker_open_err, cb)
  | (true, cb) => vlGetInner c cb
  end.

(** [vlPostHTTP] does not touch the breaker. *)
Definition vlPostHTTP (c : call) : Z * string + goerr :=
  match rt c with
  | RTBuild e | RTTransport e => inr e
  | RTDecode e => inr (wrap "decode backend response: " e)
  | RTResponse status body => inl (status, body)
  end.

Definition vlPostInner (c : call) (cb : breaker) : (Z * string + goerr) * breaker :=
  match vlPostHTTP c with
  | inr e =>
      (inr e, if shouldRecordBreakerFailure (Some (ctx_end c)) (Some e)
              then RecordFailure (at_record c) cb else cb)
  | inl r => (inl r, RecordSuccess cb)
  end.

Definition vlPost (c : call) (cb : breaker) : (Z * string + goerr) * breaker :=
  match Allow (at_allow c) cb with
  | (false, cb) => (inr breaker_open_err, cb)
  | (true, cb) => vlPostInner c cb
  end.

(** A sequence of GETs and POSTs, one after the other. *)
Definition do_call (mc : bool * call) (cb : breaker) : (Z * string + goerr) * breaker :=
  if mc.1 then vlPost mc.2 cb else vlGet mc.2 cb.

Fixpoint serve (cs : list (bool * call)) (cb : breaker)
    : list (Z * string + goerr) * breaker :=
  match cs with
  | [] => ([], cb)
  | c :: cs =>
      let '(r, cb) := do_call c cb in
      let '(rs, cb) := serve cs cb in
      (r :: rs, cb)
  end.

(** ** What a call records *)

(** The outcome reported to the breaker: success, failure or nothing. *)
Definition recorded (mc : bool * call) : option bool :=
  let c := mc.2 in
  let fail e := if shouldRecordBreakerFailure (Some (ctx_end c)) (Some e) then Some false else None in
  match rt c with
  | RTResponse _ _ => Some true
  | RTTransport e => fail e
  | RTBuild e => if mc.1 then fail e else None
  | RTDecode e => if mc.1 then fail (wrap "decode backend response: " e) else None
  end.

Definition inner (mc : bool * call) (cb : breaker) : (Z * string + goerr) * breaker :=
  if mc.1 then vlPostInner mc.2 cb else vlGetInner mc.2 cb.

Lemma inner_breaker mc cb :
  (inner mc cb).2 =
  match recorded mc with
  | Some true => RecordSuccess cb
  | Some false => RecordFailure (at_record mc.2) cb
  | None => cb
  end.
Proof.
  destruct mc as [post c]. unfold inner, recorded, vlPostInner, vlPostHTTP, vlGetInner. cbn [fst snd].
  destruct post; destruct (rt c); cbn [snd]; try done;
    by destruct (shouldRecordBreakerFailure _ _).
Qed.

Lemma do_call_eq mc cb :
  do_call mc cb =
  match Allow (at_allow mc.2) cb with
  | (false, cb) => (inr breaker_open_err, cb)
  | (true, cb) => inner mc cb
  end.
Proof. destruct mc as [[] c]; reflexivity. Qed.

(** ** The half-open wedge *)

(** Half-open, all probe slots handed out. *)
Definition wedged (cb : breaker) : Prop :=
  state cb = cbHalfOpen ∧ atomicState cb = cbHalfOpen ∧ successThreshold cb ≤ halfOpenProbes cb.

Lemma wedged_forever later cb :
  wedged cb → serve later cb = (map (λ _, inr breaker_open_err) later, cb).
Proof.
  intros (Hs & Ha & Hp). induction later as [|c later IH]; [done|].
  cbn [serve map]. rewrite do_call_eq. unfold Allow. rewrite decide_False by (rewrite Ha; done).
  unfold Allow_locked. rewrite Hs, (proj2 (Z.ltb_ge _ _)) by lia. by rewrite IH.
Qed.

(** Half-open probes that record nothing use up the slots one by one. *)
Lemma probes_use_slots probes cb :
  state cb = cbHalfOpen → atomicState cb = cbHalfOpen →
  halfOpenProbes cb + Z.of_nat (length probes) = successThreshold cb →
  Forall (λ mc, recorded mc = None) probes → wedged (serve probes cb).2.
Proof.
  revert cb. induction probes as [|mc probes IH]; intros cb Hs Ha Hn Hr.
  { cbn [serve snd]. simpl in Hn. repeat split; [done|done|lia]. }
  inversion_clear Hr as [|? ? Hr1 Hr2]. cbn [serve length] in *. rewrite do_call_eq. unfold Allow.
  rewrite decide_False by (rewrite Ha; done). unfold Allow_locked.
  rewrite Hs, (proj2 (Z.ltb_lt _ _)) by lia.
  set (cb1 := set_probes _ _ _). pose proof (inner_breaker mc cb1) as Hi. rewrite Hr1 in Hi.
  destruct (inner mc cb1) as [r cb2]. cbn [snd] in Hi. subst cb2.
  specialize (IH cb1). destruct (serve probes cb1) as [rs cb3]. cbn [snd] in *.
  apply IH; try done. subst cb1. cbn [set_probes halfOpenProbes successThreshold]. lia.
Qed.

(** The half-open wedge.  An open breaker whose deadline has passed admits
    [successThreshold] calls; when all of them end without an outcome being
    recorded (client cancelled, timed out, or the response could not be decoded),
    the breaker stays half-open with no slot left, and every call ever after is
    refused without reaching the backend, at any time and however healthy the
    backend is. *)
Theorem half_open_wedge cb probes :
  state cb = cbOpen → atomicState cb = cbOpen → 1 ≤ successThreshold cb →
  Z.of_nat (length probes) = successThreshold cb →
  Forall (λ mc, recorded mc = None ∧ openUntil cb < at_allow mc.2) probes →
  let cb' := (serve probes cb).2 in
  state cb' = cbHalfOpen ∧
  ∀ later, serve later cb' = (map (λ _, inr breaker_open_err) later, cb').
Proof.
  intros Hs Ha H1 Hlen Hr. destruct probes as [|mc probes]; [simpl in Hlen; lia|].
  inversion_clear Hr as [|? ? [Hr1 Ht] Hr2]. cbn [serve]. rewrite do_call_eq. unfold Allow.
  rewrite decide_False by (rewrite Ha; done). unfold Allow_locked.
  rewrite Hs, (proj2 (Z.ltb_lt _ _)) by done.
  set (cb1 := set_probes _ _ _). pose proof (inner_breaker mc cb1) as Hi. rewrite Hr1 in Hi.
  destruct (inner mc cb1) as [r cb2]. cbn [snd] in Hi. subst cb2.
  assert (wedged (serve probes cb1).2) as Hw.
  { apply probes_use_slots; try done.
    - subst cb1. cbn [set_probes set_state halfOpenProbes successThreshold length] in *. lia.
    - eapply Forall_impl; [exact Hr2|]. by intros ? []. }
  destruct (serve probes cb1) as [rs cb3]. cbn [snd] in *. split; [apply Hw|].
  intros later. by apply wedged_forever.
Qed.

(** Only transport failures trip.  From a closed breaker, any sequence of
    calls in which no failure is recorded (HTTP responses of any status, client
    cancellations, timeouts) reaches the backend call for call and leaves the
    breaker exactly as it was. *)
Theorem responses_never_trip cs cb :
  atomicState cb = cbClosed → Forall (λ mc, recorded mc ≠ Some false) cs →
  serve cs cb = (map (λ mc, (inner mc cb).1) cs, cb).
Proof.
  intros Ha Hr. induction Hr as [|mc cs Hr _ IH]; [done|]. cbn [serve map].
  rewrite do_call_eq. unfold Allow. rewrite decide_True by done.
  pose proof (inner_breaker mc cb) as Hi.
  assert ((inner mc cb).2 = cb) as Hcb.
  { rewrite Hi. destruct (recorded mc) as [[]|]; try done.
    unfold RecordSuccess. by rewrite decide_True. }
  clear Hi.
  destruct (inner mc cb) as [r cb1]. cbn [fst snd] in *. subst cb1. by rewrite IH.
Qed.

(** ** Query echo: specification *)

Definition is_quote (c : Ascii.ascii) : bool :=
  Ascii.eqb c dquote || Ascii.eqb c "'" || Ascii.eqb c "`".

(** The rest of a literal opened by [q], up to and including its end. *)
Inductive literal (q : Ascii.ascii) : string → Prop :=
| lit_end : literal q (String q "")
| lit_esc c s : q ≠ "`"%char → literal q s → literal q (String bslash (String c s))
| lit_char c s : c ≠ q → c ≠ bslash ∨ q = "`"%char → literal q s → literal q (String c s).

(** LogsQL as the proxy writes it: quotes closed, brackets balanced outside. *)
Inductive balanced : string → Prop :=
| bal_nil : balanced ""
| bal_char c s : is_quote c = false → c ≠ "["%char → c ≠ "]"%char →
    balanced s → balanced (String c s)
| bal_quoted q body s : is_quote q = true → literal q body → balanced s →
    balanced (String q (body +:+ s))
| bal_group s t : balanced s → balanced t →
    balanced (String "[" (s +:+ String "]" t)).

Lemma app_cons (a : Ascii.ascii) s t : String a s +:+ t = String a (s +:+ t).
Proof. done. Qed.

Lemma literal_scan q body depth rest :
  is_quote q = true → literal q body →
  echo_scan depth (Some q) (body +:+ rest) = echo_scan depth None rest.
Proof.
  intros Hq Hl. induction Hl as [|c s Hb _ IH|c s Hc Hb _ IH].
  - rewrite app_cons. cbn [echo_scan]. rewrite Ascii.eqb_refl.
    destruct (Ascii.eqb_spec q bslash) as [->|_]; [done|]. done.
  - rewrite !app_cons. cbn [echo_scan]. change (Ascii.eqb bslash bslash) with true.
    destruct (Ascii.eqb_spec q "`") as [|_]; [done|]. cbn [andb negb]. exact IH.
  - rewrite app_cons. cbn [echo_scan].
    assert (Ascii.eqb c bslash && negb (Ascii.eqb q "`") = false) as ->.
    { destruct Hb as [Hb| ->]; [|apply andb_false_r].
      destruct (Ascii.eqb_spec c bslash); done. }
    destruct (Ascii.eqb_spec c q); [done|]. exact IH.
Qed.

Lemma balanced_scan s depth rest :
  balanced s → echo_scan depth None (s +:+ rest) = echo_scan depth None rest.
Proof.
  intros Hb. revert depth rest.
  induction Hb as [|c s Hq Ho Hc _ IH|q body s Hq Hl _ IH|s t _ IHs _ IHt]; intros depth rest.
  - done.
  - rewrite app_cons. cbn [echo_scan]. fold (is_quote c). unfold is_quote in Hq |- *. rewrite Hq.
    destruct (Ascii.eqb_spec c "["); [done|]. destruct (Ascii.eqb_spec c "]"); [done|].
    cbn [andb]. apply IH.
  - rewrite app_cons, append_assoc. cbn [echo_scan]. fold (is_quote q). unfold is_quote in Hq |- *.
    rewrite Hq. rewrite literal_scan by done. apply IH.
  - rewrite app_cons, append_assoc, app_cons. cbn [echo_scan].
    change (Ascii.eqb "[" dquote || Ascii.eqb "[" "'" || Ascii.eqb "[" "`") with false.
    change (Ascii.eqb "[" "[") with true. cbv iota. rewrite IHs. cbn [echo_scan].
    change (Ascii.eqb "]" dquote || Ascii.eqb "]" "'" || Ascii.eqb "]" "`") with false.
    change (Ascii.eqb "]" "[") with false. change (Ascii.eqb "]" "]") with true.
    change (0 <? S depth)%nat with true. cbn [andb Nat.pred]. cbv iota. apply IHt.
Qed.

(** The echoed query is cut exactly.  For both spellings VictoriaLogs uses,
    when the echoed query has closed quotes and balanced brackets outside them
    (whatever its literals contain, "]: " included), what remains of the message
    is the reason alone, whatever the reason contains. *)
Theorem echo_is_stripped prefix query reason :
  prefix ∈ vlParseEchoPrefixes → balanced query →
  stripVLParseEcho (prefix +:+ query +:+ "]: " +:+ reason) = Some (": " +:+ reason).
Proof.
  intros Hp Hq.
  assert (echo_scan 0 None (query +:+ "]: " +:+ reason) = Some (": " +:+ reason)) as He.
  { rewrite balanced_scan by done. reflexivity. }
  unfold stripVLParseEcho, vlParseEchoPrefixes in *.
  apply elem_of_cons in Hp as [->|Hp].
  - cbn [strip_echo]. by rewrite strip_prefix_app, He.
  - apply list_elem_of_singleton in Hp as ->. cbn [strip_echo].
    rewrite strip_prefix_app, He. reflexivity.
Qed.

(** ** Witnesses *)

Definition tripped : breaker :=
  mkBreaker cbOpen cbOpen [5] 0 0 100 1 (30 * Second) 2 50 1.

Definition gone : call :=
  mkCall 200 CtxCanceled (RTTransport (plain "client went away")) (mkReadings 201 201 201).

Definition healthy : call := mkCall 300 CtxLive (RTResponse 200 "ok") (mkReadings 301 301 301).

Lemma half_open_wedge_witness :
  serve [(false, healthy); (true, healthy)]
    (serve [(false, gone); (true, gone)] tripped).2 =
  ([inr breaker_open_err; inr breaker_open_err], (serve [(false, gone); (true, gone)] tripped).2).
Proof.
  refine (proj2 (half_open_wedge tripped [(false, gone); (true, gone)] _ _ _ _ _)
            [(false, healthy); (true, healthy)]); try reflexivity.
  - vm_compute. discriminate.
  - repeat constructor.
Defined.

Lemma responses_never_trip_witness :
  serve [(false, gone); (true, healthy)] (NewCircuitBreaker 1 1 50 50) =
  ([inr (plain "client went away"); inl (200, "ok")], NewCircuitBreaker 1 1 50 50).
Proof.
  refine (responses_never_trip [(false, gone); (true, healthy)] (NewCircuitBreaker 1 1 50 50) _ _).
  - reflexivity.
  - repeat constructor; vm_compute; discriminate.
Defined.

Lemma echo_is_stripped_witness :
  stripVLParseEcho ("cannot parse query arg [" +:+ "a in [x] '] : ]: '" +:+ "]: " +:+ "bad [y]: z") =
  Some (": " +:+ "bad [y]: z").
Proof.
  refine (echo_is_stripped _ _ _ _ _).
  - unfold vlParseEchoPrefixes. rewrite !elem_of_cons. auto.
  - repeat (apply bal_char; [reflexivity|discriminate|discriminate|]).
    refine (bal_group "x" " '] : ]: '" _ _).
    + apply bal_char; [reflexivity|discriminate|discriminate|apply bal_nil].
    + apply bal_char; [reflexivity|discriminate|discriminate|].
      refine (bal_quoted "'" "] : ]: '" "" _ _ bal_nil); [reflexivity|].
      repeat (apply lit_char; [discriminate|left; discriminate|]). apply lit_end.
Defined.

End Backend.
