(* ===== verification/Coalescer.v ===== *)
(** * Request coalescing with a breaker guard
      (src/internal/middleware/coalescer.go)

    [Co.step] interleaves goroutines inside [DoWithGuard]: the critical section
    that reads and counts [inflight], the singleflight group, the backend call and
    the final decrement are separate steps.  The group is golang.org/x/sync's and
    enters through the interface [Singleflight], which states what its
    documentation promises. *)

From S2P Require Import Prelude GoText Sha256.

#[local] Open Scope Z_scope.

(** ** The singleflight group *)

(** Which keys have a call in flight.  [sf_start] is the caller that becomes the
    leader of a key, [sf_finish] the end of its call. *)
Class Singleflight (G : Type) : Type := {
  sf_new : G;
  sf_running : G → string → bool;
  sf_start : string → G → G;
  sf_finish : string → G → G;
  sf_running_new k : sf_running sf_new k = false;
  sf_running_start k k' g :
    sf_running (sf_start k g) k' = bool_decide (k = k') || sf_running g k';
  sf_running_finish k k' g :
    sf_running (sf_finish k g) k' = negb (bool_decide (k = k')) && sf_running g k'
}.

Module Co.
Import Text.

(** ** Bodies and keys *)

(** [readBodyPooled]: the bytes of a stream that ends with EOF or an error. *)
Definition readBodyPooled (body : string) (fails : bool) (limit : Z) : result string :=
  if limit <? len body then Err ("upstream response exceeds " +:+ Itoa limit +:+ " bytes")
  else if fails then Err "read error" else Ok body.

Definition maxCoalescedBody : Z := 268435456.

(** What the backend function of a call returned. *)
Inductive fetched : Type :=
| FnError (msg : string)
| FnResponse (status : Z) (body : string) (fails : bool).

(** The closure run by the leader, and [callDirect]: status and body. *)
Definition callDirect (f : fetched) : result (Z * string) :=
  match f with
  | FnError e => Err e
  | FnResponse status body fails =>
      rbind (λ b, Ok (status, b)) (readBodyPooled body fails maxCoalescedBody)
  end.

Definition RequestKey (method path rawQuery tenant : string) : string :=
  String.substring 0 16
    (Sha256.hex_of (method +:+ ":" +:+ path +:+ ":" +:+ rawQuery +:+ ":" +:+ tenant)).

Definition ErrGuardRejected : string := "guard rejected: no in-flight call to join".

(** ** Goroutines *)

(** Where one goroutine is inside [DoWithGuard].  [vetted] says whether the
    guard approved this goroutine. *)
Inductive pc : Type :=
| Start
| Entered (vetted : bool)
| Leading (vetted : bool)
| Waiting
| Returning (r : result (Z * string)) (shared : bool)
| Finished (r : result (Z * string)).

Definition inside (p : pc) : bool :=
  match p with
  | Start | Finished _ => false
  | Entered _ | Leading _ | Waiting | Returning _ _ => true
  end.

(** [DoWithGuard] of a disabled coalescer: guard, then the call itself. *)
Definition doDisabled (ok : bool) (f : fetched) : result (Z * string) :=
  if negb ok then Err ErrGuardRejected else callDirect f.

Section Group.
Context {G : Type} `{Singleflight G}.

Record Coalescer : Type := mkCo {
  group : G;
  inflight : gmap string nat;
  ActiveShared : Z;
  CoalescedTotal : Z;
  goroutines : gmap nat (string * pc)
}.

Definition NewCoalescer : Coalescer := mkCo sf_new ∅ 0 0 ∅.

Definition set_pc (t : nat) (k : string) (p : pc) (c : Coalescer) : Coalescer :=
  mkCo (group c) (inflight c) (ActiveShared c) (CoalescedTotal c)
    (<[t := (k, p)]> (goroutines c)).

Definition set_group (g : G) (c : Coalescer) : Coalescer :=
  mkCo g (inflight c) (ActiveShared c) (CoalescedTotal c) (goroutines c).

Definition set_inflight (m : gmap string nat) (c : Coalescer) : Coalescer :=
  mkCo (group c) m (ActiveShared c) (CoalescedTotal c) (goroutines c).

Definition count_of (k : string) (c : Coalescer) : nat := default 0%nat (inflight c !! k).

(** The first critical section of [DoWithGuard]; [ok] is the guard's answer, which
    is consulted only when no goroutine is inside for the key. *)
Definition enter (ok : bool) (t : nat) (k : string) (c : Coalescer) : Coalescer :=
  let count := count_of k c in
  if (count =? 0)%nat && negb ok
  then set_pc t k (Finished (Err ErrGuardRejected)) c
  else set_pc t k (Entered (count =? 0)%nat)
         (set_inflight (<[k := S count]> (inflight c)) c).

(** The second one: the reference count drops, and the key goes with the last. *)
Definition leave (t : nat) (k : string) (r : result (Z * string)) (c : Coalescer) : Coalescer :=
  let n := pred (count_of k c) in
  set_pc t k (Finished r)
    (set_inflight (if (n =? 0)%nat then delete k (inflight c) else <[k := n]> (inflight c)) c).

(** Whether a goroutine waits for the call of [k]. *)
Definition waits (k : string) (kp : string * pc) : bool :=
  String.eqb kp.1 k && match kp.2 with Waiting => true | _ => false end.

Definition has_followers (k : string) (c : Coalescer) : bool :=
  negb (bool_decide (filter (λ x, waits k x.2 = true) (map_to_list (goroutines c)) = [])).

(** The leader's call ends: the group forgets the key and every goroutine that
    waits for it gets the same result. *)
Definition wake (k : string) (r : result (Z * string)) (kp : string * pc) : string * pc :=
  if waits k kp then (kp.1, Returning r true) else kp.

Definition complete (t : nat) (k : string) (r : result (Z * string)) (c : Coalescer) : Coalescer :=
  let shared := has_followers k c in
  mkCo (sf_finish k (group c)) (inflight c) (ActiveShared c) (CoalescedTotal c)
    (<[t := (k, Returning r shared)]> (wake k r <$> goroutines c)).

(** After [group.Do]: a shared, successful result is counted. *)
Definition count_shared (r : result (Z * string)) (shared : bool) (c : Coalescer) : Coalescer :=
  if shared && is_ok r
  then mkCo (group c) (inflight c) (ActiveShared c) (CoalescedTotal c + 1) (goroutines c)
  else c.

(** One step while the guard would answer [ok]. *)
Inductive step (ok : bool) : Coalescer → Coalescer → Prop :=
| step_arrive t k c :
    goroutines c !! t = None →
    step ok c (set_pc t k Start c)
| step_enter t k c :
    goroutines c !! t = Some (k, Start) →
    step ok c (enter ok t k c)
| step_lead t k v c :
    goroutines c !! t = Some (k, Entered v) → sf_running (group c) k = false →
    step ok c (set_pc t k (Leading v) (set_group (sf_start k (group c)) c))
| step_follow t k v c :
    goroutines c !! t = Some (k, Entered v) → sf_running (group c) k = true →
    step ok c (set_pc t k Waiting c)
| step_complete t k v f c :
    goroutines c !! t = Some (k, Leading v) →
    step ok c (complete t k (callDirect f) c)
| step_leave t k r s c :
    goroutines c !! t = Some (k, Returning r s) →
    step ok c (leave t k r (count_shared r s c)).

Definition reachable (c : Coalescer) : Prop :=
  rtc (λ c c', ∃ ok, step ok c c') NewCoalescer c.

(** ** Invariant *)

Definition inside_for (k : string) (c : Coalescer) : gmap nat (string * pc) :=
  filter (λ x, x.2.1 = k ∧ inside x.2.2 = true) (goroutines c).

Definition leads (k : string) (c : Coalescer) (t : nat) : Prop :=
  ∃ v, goroutines c !! t = Some (k, Leading v).

Record inv (c : Coalescer) : Prop := {
  inv_count : ∀ k, count_of k c = size (inside_for k c);
  inv_present : ∀ k n, inflight c !! k = Some n → n ≠ 0%nat;
  inv_running : ∀ k, sf_running (group c) k = true → ∃ t, leads k c t;
  inv_leader : ∀ k t, leads k c t → sf_running (group c) k = true;
  inv_unique : ∀ k t t', leads k c t → leads k c t' → t = t';
  inv_waiting : ∀ t k, goroutines c !! t = Some (k, Waiting) → sf_running (group c) k = true
}.

(** ** Lemmas *)

Lemma size_filter_insert {A} (P : nat * A → Prop) `{∀ x, Decision (P x)} (m : gmap nat A) t x :
  (size (filter P (<[t := x]> m)) +
     match m !! t with Some y => if decide (P (t, y)) then 1 else 0 | None => 0 end =
   size (filter P m) + (if decide (P (t, x)) then 1 else 0))%nat.
Proof.
  assert (filter P m !! t = match m !! t with
            Some y => if decide (P (t, y)) then Some y else None | None => None end) as Hl.
  { destruct (m !! t) as [y|] eqn:Hy.
    - destruct (decide (P (t, y))); [by apply map_lookup_filter_Some|].
      apply map_lookup_filter_None. right. naive_solver.
    - apply map_lookup_filter_None. by left. }
  set (old := match m !! t with Some y => if decide (P (t, y)) then 1%nat else 0%nat | None => 0%nat end).
  assert ((filter P m !! t = None ∧ old = 0%nat) ∨ (is_Some (filter P m !! t) ∧ old = 1%nat)) as Hold.
  { subst old. rewrite Hl. destruct (m !! t) as [y|]; [|by left].
    destruct (decide (P (t, y))); [right; by eauto|by left]. }
  clear Hl. destruct (decide (P (t, x))) as [Hx|Hx].
  - rewrite map_filter_insert_True by done. destruct Hold as [[Hn ->]|[[y Hy] ->]].
    + rewrite map_size_insert_None by done. lia.
    + rewrite map_size_insert_Some by (by rewrite Hy). lia.
  - rewrite map_filter_insert_False, map_filter_delete by done.
    destruct Hold as [[Hn ->]|[[y Hy] ->]].
    + rewrite delete_id by done. lia.
    + rewrite map_size_delete_Some by (by rewrite Hy).
      assert (size (filter P m) ≠ 0%nat) by (intros He%map_size_empty_inv; by rewrite He in Hy). lia.
Qed.

(** Whether a goroutine counts for [k], as a number. *)
Definition weight (k : string) (kp : option (string * pc)) : nat :=
  match kp with
  | Some (k', p) => if decide (k' = k ∧ inside p = true) then 1 else 0
  | None => 0
  end.

Lemma inside_set_pc c k k0 t p :
  (size (filter (λ x : nat * (string * pc), x.2.1 = k ∧ inside x.2.2 = true)
           (<[t := (k0, p)]> (goroutines c))) + weight k (goroutines c !! t) =
   size (inside_for k c) + weight k (Some (k0, p)))%nat.
Proof.
  pose proof (size_filter_insert (λ x : nat * (string * pc), x.2.1 = k ∧ inside x.2.2 = true)
    (goroutines c) t (k0, p)) as Hs.
  unfold weight. destruct (goroutines c !! t) as [[k1 p1]|]; exact Hs.
Qed.

Lemma weight_outside k k' p : inside p = false → weight k (Some (k', p)) = 0%nat.
Proof. intros Hp. unfold weight. rewrite decide_False; [done|]. by rewrite Hp; intros []. Qed.

Lemma weight_inside k k' p :
  inside p = true → weight k (Some (k', p)) = if decide (k' = k) then 1%nat else 0%nat.
Proof.
  intros Hp. unfold weight. destruct (decide (k' = k)) as [->|Hne].
  - by rewrite decide_True.
  - rewrite decide_False; [done|]. by intros [].
Qed.

Lemma inside_wake c k k' r :
  size (filter (λ x : nat * (string * pc), x.2.1 = k ∧ inside x.2.2 = true) (wake k' r <$> goroutines c)) =
  size (inside_for k c).
Proof.
  rewrite map_filter_fmap, map_size_fmap. unfold inside_for. f_equal.
  apply map_filter_ext. intros t [k1 p] _. unfold wake, waits. cbn [fst snd].
  destruct (String.eqb k1 k'), p; done.
Qed.

Lemma wake_lookup c k r t k' p :
  (wake k r <$> goroutines c) !! t = Some (k', p) →
  goroutines c !! t = Some (k', p) ∨
  (k' = k ∧ p = Returning r true ∧ goroutines c !! t = Some (k, Waiting)).
Proof.
  rewrite lookup_fmap. destruct (goroutines c !! t) as [[k1 p1]|] eqn:E; [|done].
  simpl. intros [= Hw]. unfold wake, waits in Hw. cbn [fst snd] in Hw.
  destruct (String.eqb_spec k1 k) as [->|_]; destruct p1; simplify_eq/=; auto.
Qed.

Lemma wake_other c k r t k' p :
  goroutines c !! t = Some (k', p) → (p = Waiting → k' ≠ k) →
  (wake k r <$> goroutines c) !! t = Some (k', p).
Proof.
  intros Hl Hp. rewrite lookup_fmap, Hl. simpl. unfold wake, waits. cbn [fst snd].
  destruct (String.eqb_spec k' k) as [->|_]; [|by destruct p].
  destruct p; try done. by specialize (Hp eq_refl).
Qed.

(** Moving one goroutine that neither leads before nor after. *)
Lemma leads_set_pc c c' t k p :
  (∀ v, p ≠ Leading v) → (∀ k' v, goroutines c !! t ≠ Some (k', Leading v)) →
  goroutines c' = <[t := (k, p)]> (goroutines c) →
  ∀ k' t', leads k' c' t' ↔ leads k' c t'.
Proof.
  intros Hp Hold Hg k' t'. unfold leads. rewrite Hg.
  destruct (decide (t = t')) as [->|Hne].
  - setoid_rewrite lookup_insert_eq. split.
    + intros [v [= _ ->]]. by destruct (Hp v).
    + intros [v Hv]. by destruct (Hold k' v).
  - by setoid_rewrite lookup_insert_ne.
Qed.

(** The parts of the invariant about leaders, kept by any step that moves one
    goroutine without touching the group. *)
Lemma leaders_frame c c' t k p :
  inv c → goroutines c' = <[t := (k, p)]> (goroutines c) → group c' = group c →
  (∀ v, p ≠ Leading v) → (∀ k' v, goroutines c !! t ≠ Some (k', Leading v)) →
  (p = Waiting → sf_running (group c) k = true) →
  (∀ k, sf_running (group c') k = true → ∃ t, leads k c' t) ∧
  (∀ k t, leads k c' t → sf_running (group c') k = true) ∧
  (∀ k t t', leads k c' t → leads k c' t' → t = t') ∧
  (∀ t k, goroutines c' !! t = Some (k, Waiting) → sf_running (group c') k = true).
Proof.
  intros [_ _ Hrun Hlead Huniq Hwait] Hg Hgr Hp Hold Hw.
  pose proof (leads_set_pc c c' t k p Hp Hold Hg) as Hl. rewrite Hgr. split_and!.
  - intros k' Hk'. destruct (Hrun k' Hk') as [t' Ht']. exists t'. by apply Hl.
  - intros k' t' Ht'. apply (Hlead k' t'). by apply Hl.
  - intros k' t1 t2 H1%Hl H2%Hl. by eapply Huniq.
  - intros t' k' Hk'. rewrite Hg in Hk'. destruct (decide (t = t')) as [->|Hne].
    + rewrite lookup_insert_eq in Hk'. injection Hk' as -> ->. by apply Hw.
    + rewrite lookup_insert_ne in Hk' by done. by apply (Hwait t').
Qed.

Lemma step_arrive_inv c t k : inv c → goroutines c !! t = None → inv (set_pc t k Start c).
Proof.
  intros Hi Ht.
  destruct (leaders_frame c (set_pc t k Start c) t k Start) as (H1 & H2 & H3 & H4);
    try done; [intros k' v; rewrite Ht; done|].
  split; try done; [|apply Hi]. intros k'.
  pose proof (inside_set_pc c k' k t Start) as Hs. rewrite Ht, weight_outside in Hs by done.
  change (count_of k' (set_pc t k Start c)) with (count_of k' c). rewrite (inv_count c Hi).
  unfold inside_for at 2. cbn [set_pc goroutines]. cbn [weight] in Hs. lia.
Qed.

Lemma count_set_inflight k' k n c :
  n ≠ 0%nat →
  count_of k' (set_inflight (<[k := n]> (inflight c)) c) =
  if decide (k = k') then n else count_of k' c.
Proof.
  intros Hn. unfold count_of, set_inflight. cbn [inflight]. destruct (decide (k = k')) as [->|Hne].
  - by rewrite lookup_insert_eq.
  - by rewrite lookup_insert_ne.
Qed.

Lemma step_enter_inv c t k ok :
  inv c → goroutines c !! t = Some (k, Start) → inv (enter ok t k c).
Proof.
  intros Hi Ht. unfold enter. destruct (_ && _) eqn:Hguard.
  - set (p := Finished _).
    destruct (leaders_frame c (set_pc t k p c) t k p) as (H1 & H2 & H3 & H4);
      try done; [intros k' v; rewrite Ht; done|].
    split; try done; [|apply Hi]. intros k'.
    pose proof (inside_set_pc c k' k t p) as Hs. rewrite Ht, !weight_outside in Hs by done.
    change (count_of k' (set_pc t k p c)) with (count_of k' c). rewrite (inv_count c Hi).
    unfold inside_for at 2. cbn [set_pc goroutines]. lia.
  - set (p := Entered _). set (c1 := set_inflight _ c).
    destruct (leaders_frame c (set_pc t k p c1) t k p) as (H1 & H2 & H3 & H4);
      try done; [intros k' v; rewrite Ht; done|].
    split; try done.
    + intros k'. pose proof (inside_set_pc c k' k t p) as Hs.
      rewrite Ht, weight_outside, weight_inside in Hs by done.
      change (count_of k' (set_pc t k p c1)) with (count_of k' c1). subst c1.
      rewrite count_set_inflight by done. unfold inside_for at 1. cbn [set_pc set_inflight goroutines].
      pose proof (inv_count c Hi k') as Hc. pose proof (inv_count c Hi k) as Hc0.
      destruct (decide (k = k')) as [->|Hne]; lia.
    + intros k' n. subst c1. cbn [set_pc set_inflight inflight].
      rewrite lookup_insert_Some. intros [[-> <-]|[_ Hn]]; [done|by eapply (inv_present c Hi)].
Qed.

Lemma step_lead_inv c t k v :
  inv c → goroutines c !! t = Some (k, Entered v) → sf_running (group c) k = false →
  inv (set_pc t k (Leading v) (set_group (sf_start k (group c)) c)).
Proof.
  intros [Hcount Hpres Hrun Hlead Huniq Hwait] Ht Hfree.
  set (c' := set_pc _ _ _ _).
  assert (∀ k' t', leads k' c' t' ↔ (t' = t ∧ k' = k) ∨ (t' ≠ t ∧ leads k' c t')) as Hl.
  { intros k' t'. unfold leads. subst c'. cbn [set_pc set_group goroutines].
    destruct (decide (t = t')) as [<-|Hne].
    - setoid_rewrite lookup_insert_eq. split; [|intros [[_ ->]|[[] _]]; by eauto].
      intros [v' [= -> _]]. by left.
    - setoid_rewrite lookup_insert_ne; [|done]. split; [right; by eauto|].
      intros [[-> _]|[_ ?]]; done. }
  assert (∀ k', sf_running (group c') k' = bool_decide (k = k') || sf_running (group c) k') as Hr
    by (intros k'; apply sf_running_start).
  split.
  - intros k'. pose proof (inside_set_pc c k' k t (Leading v)) as Hs.
    rewrite Ht, !weight_inside in Hs by done.
    change (count_of k' c') with (count_of k' c). rewrite Hcount.
    unfold inside_for at 2. subst c'. cbn [set_pc set_group goroutines]. lia.
  - exact Hpres.
  - intros k'. rewrite Hr. intros [Hk%bool_decide_eq_true|Hk]%orb_true_iff.
    + subst. exists t. apply Hl. by left.
    + destruct (Hrun k' Hk) as [t' Ht']. exists t'. apply Hl. right. split; [|done].
      intros ->. destruct Ht' as [v' Hv']. congruence.
  - intros k' t' [[_ ->]|[_ Hold]]%Hl; rewrite Hr; apply orb_true_iff.
    + left. by apply bool_decide_eq_true.
    + right. by eapply Hlead.
  - intros k' t1 t2 [[-> Hk1]|[_ H1]]%Hl [[-> Hk2]|[_ H2]]%Hl; try done.
    + subst k'. apply Hlead in H2. congruence.
    + subst k'. apply Hlead in H1. congruence.
    + by eapply Huniq.
  - intros t' k'. subst c'. cbn [set_pc set_group goroutines].
    rewrite lookup_insert_Some. intros [[_ [=]]|[_ Hw]]. rewrite Hr, (Hwait t' k' Hw).
    apply orb_true_r.
Qed.

Lemma step_follow_inv c t k v :
  inv c → goroutines c !! t = Some (k, Entered v) → sf_running (group c) k = true →
  inv (set_pc t k Waiting c).
Proof.
  intros Hi Ht Hbusy.
  destruct (leaders_frame c (set_pc t k Waiting c) t k Waiting) as (H1 & H2 & H3 & H4);
    try done; [intros k' v'; rewrite Ht; done|].
  split; try done; [|apply Hi]. intros k'.
  pose proof (inside_set_pc c k' k t Waiting) as Hs. rewrite Ht, !weight_inside in Hs by done.
  change (count_of k' (set_pc t k Waiting c)) with (count_of k' c). rewrite (inv_count c Hi).
  unfold inside_for at 2. cbn [set_pc goroutines]. lia.
Qed.

Lemma step_complete_inv c t k v r :
  inv c → goroutines c !! t = Some (k, Leading v) → inv (complete t k r c).
Proof.
  intros [Hcount Hpres Hrun Hlead Huniq Hwait] Ht. set (c' := complete _ _ _ _).
  assert (∀ k' t', leads k' c' t' ↔ t' ≠ t ∧ leads k' c t') as Hl.
  { intros k' t'. unfold leads. subst c'. cbn [complete goroutines].
    destruct (decide (t = t')) as [<-|Hne].
    - setoid_rewrite lookup_insert_eq. split; [by intros [v' [=]]|by intros []].
    - setoid_rewrite lookup_insert_ne; [|done]. split.
      + intros [v' [Hv'|(_ & [=] & _)]%wake_lookup]. by eauto.
      + intros [_ [v' Hv']]. exists v'. by apply wake_other. }
  assert (∀ k', sf_running (group c') k' = negb (bool_decide (k = k')) && sf_running (group c) k') as Hr
    by (intros k'; apply sf_running_finish).
  split.
  - intros k'. change (count_of k' c') with (count_of k' c). rewrite Hcount.
    pose proof (inside_set_pc (mkCo (group c) (inflight c) 0 0 (wake k r <$> goroutines c))
      k' k t (Returning r (has_followers k c))) as Hs.
    cbn [goroutines] in Hs.
    rewrite (wake_other c k r t k (Leading v) Ht ltac:(done)), !weight_inside in Hs by done.
    unfold inside_for in Hs. cbn [goroutines] in Hs. rewrite inside_wake in Hs. unfold inside_for at 2. subst c'. cbn [complete goroutines]. lia.
  - exact Hpres.
  - intros k'. rewrite Hr. intros [Hne Hk]%andb_true_iff.
    apply negb_true_iff, bool_decide_eq_false in Hne.
    destruct (Hrun k' Hk) as [t' Ht']. exists t'. apply Hl. split; [|done].
    intros ->. destruct Ht' as [v' Hv']. congruence.
  - intros k' t' [Hne Hold]%Hl. rewrite Hr, (Hlead k' t' Hold), andb_true_r.
    apply negb_true_iff, bool_decide_eq_false. intros ->. apply Hne.
    eapply Huniq; [exact Hold|by exists v].
  - intros k' t1 t2 [_ H1]%Hl [_ H2]%Hl. by eapply Huniq.
  - intros t' k'. subst c'. cbn [complete goroutines].
    rewrite lookup_insert_Some. intros [[_ [=]]|[_ Hw]].
    assert (goroutines c !! t' = Some (k', Waiting) ∧ k' ≠ k) as [Hw' Hne].
    { rewrite lookup_fmap in Hw. destruct (goroutines c !! t') as [[k1 p1]|]; [|done].
      cbn in Hw. unfold wake, waits in Hw. cbn [fst snd] in Hw.
      destruct (String.eqb_spec k1 k); destruct p1; simplify_eq/=; done. }
    rewrite Hr, (Hwait t' k' Hw'), andb_true_r.
    apply negb_true_iff, bool_decide_eq_false. done.
Qed.

Lemma count_shared_parts r s c :
  group (count_shared r s c) = group c ∧ inflight (count_shared r s c) = inflight c ∧
  goroutines (count_shared r s c) = goroutines c.
Proof. unfold count_shared. by destruct (_ && _). Qed.

Lemma count_after_leave k' k c :
  (∀ k n, inflight c !! k = Some n → n ≠ 0%nat) →
  default 0%nat ((if (pred (count_of k c) =? 0)%nat then delete k (inflight c)
                  else <[k := pred (count_of k c)]> (inflight c)) !! k') =
  if decide (k = k') then pred (count_of k c) else count_of k' c.
Proof.
  intros Hpres. destruct (Nat.eqb_spec (pred (count_of k c)) 0) as [He|He];
    destruct (decide (k = k')) as [<-|Hne].
  - rewrite lookup_delete_eq. simpl. lia.
  - by rewrite lookup_delete_ne.
  - by rewrite lookup_insert_eq.
  - by rewrite lookup_insert_ne.
Qed.

Lemma step_leave_inv c t k r s :
  inv c → goroutines c !! t = Some (k, Returning r s) → inv (leave t k r (count_shared r s c)).
Proof.
  intros Hi Ht. destruct (count_shared_parts r s c) as (Eg & Ei & Et).
  set (c1 := count_shared r s c) in *. set (c' := leave t k r c1).
  assert (goroutines c' = <[t := (k, Finished r)]> (goroutines c)) as Hg
    by (subst c'; cbn [leave set_pc set_inflight goroutines]; by rewrite Et).
  destruct (leaders_frame c c' t k (Finished r)) as (H1 & H2 & H3 & H4); try done.
  { intros k' v'. rewrite Ht. done. }
  assert (∀ k', count_of k' c1 = count_of k' c) as Hc1 by (intros; unfold count_of; by rewrite Ei).
  split; try done.
  - intros k'. pose proof (inside_set_pc c k' k t (Finished r)) as Hs.
    rewrite Ht, weight_inside, weight_outside in Hs by done.
    unfold inside_for. rewrite Hg. pose proof (inv_count c Hi k') as Hck.
    unfold count_of at 1. subst c'. cbn [leave set_pc set_inflight inflight].
    rewrite (count_after_leave k' k c1) by (rewrite Ei; apply Hi). rewrite !Hc1.
    destruct (decide (k = k')) as [<-|Hne]; lia.
  - intros k' n. subst c'. cbn [leave set_pc set_inflight inflight].
    destruct (Nat.eqb_spec (pred (count_of k c1)) 0) as [He|He]; rewrite Ei.
    + rewrite lookup_delete_Some. intros [_ Hn]. by eapply (inv_present c Hi).
    + rewrite lookup_insert_Some. intros [[_ <-]|[_ Hn]]; [done|by eapply (inv_present c Hi)].
Qed.

Lemma step_inv ok c c' : step ok c c' → inv c → inv c'.
Proof.
  intros [] Hi; [by apply step_arrive_inv|by apply step_enter_inv|by apply step_lead_inv|
    by eapply step_follow_inv|by eapply step_complete_inv|by eapply step_leave_inv].
Qed.

Lemma new_inv : inv NewCoalescer.
Proof.
  split.
  - intros k. unfold count_of, inside_for, NewCoalescer. cbn [inflight goroutines].
    by rewrite lookup_empty, map_filter_empty, map_size_empty.
  - intros k n. unfold NewCoalescer. cbn [inflight]. by rewrite lookup_empty.
  - intros k. cbn [NewCoalescer group]. by rewrite sf_running_new.
  - intros k t [v Hv]. cbn [NewCoalescer goroutines] in Hv. by rewrite lookup_empty in Hv.
  - intros k t t' [v Hv]. cbn [NewCoalescer goroutines] in Hv. by rewrite lookup_empty in Hv.
  - intros t k. cbn [NewCoalescer goroutines]. by rewrite lookup_empty.
Qed.

Lemma reachable_inv c : reachable c → inv c.
Proof.
  intros Hr. pose proof new_inv as H0. unfold reachable in Hr.
  induction Hr as [|c c1 c2 [ok Hs] _ IH]; [done|]. apply IH. by eapply step_inv.
Qed.

(** C11 Coalescing.  Under any interleaving of any number of goroutines, at most
    one backend call per key is running, the reference count of a key is exactly
    the number of goroutines between the two critical sections of [DoWithGuard],
    and once all of them have returned the in-flight table is empty again. *)
Theorem one_backend_call_per_key c :
  reachable c →
  (∀ k t t', leads k c t → leads k c t' → t = t') ∧
  (∀ k, count_of k c = size (inside_for k c)) ∧
  ((∀ t k p, goroutines c !! t = Some (k, p) → inside p = false) → inflight c = ∅).
Proof.
  intros Hi%reachable_inv. split; [apply Hi|]. split; [apply Hi|].
  intros Hout. apply map_empty. intros k. destruct (inflight c !! k) as [n|] eqn:Hk; [|done].
  exfalso. pose proof (inv_count c Hi k) as Hc. unfold count_of in Hc. rewrite Hk in Hc. simpl in Hc.
  apply (inv_present c Hi k n Hk). rewrite Hc. unfold inside_for.
  apply map_size_empty_iff, map_empty. intros t. apply map_lookup_filter_None. right.
  intros [k' p] Ht [_ Hin]. cbn [fst snd] in Hin. by rewrite (Hout t k' p Ht) in Hin.
Qed.

(** ** The guard can be bypassed *)

(** One goroutine is running the call of [k] and is the only one inside. *)
Definition solo (k : string) (t : nat) (v : bool) (c : Coalescer) : Prop :=
  goroutines c !! t = Some (k, Leading v) ∧ count_of k c = 1%nat ∧
  (∀ t', (t < t')%nat → goroutines c !! t' = None) ∧
  (∀ t' k', goroutines c !! t' ≠ Some (k', Waiting)) ∧
  (∀ k', sf_running (group c) k' = bool_decide (k = k')).

(** The late comer's order: the leader's call ends, the next goroutine arrives
    and is counted while the leader has not left yet, the leader leaves, and the
    newcomer finds no call in flight. *)
Lemma takeover k t v (f : fetched) c :
  solo k t v c → ∃ c', rtc (step false) c c' ∧ solo k (S t) false c'.
Proof.
  intros (Hl & Hc & Hnew & Hnw & Hr).
  set (r := callDirect f). set (c1 := complete t k r c).
  assert (goroutines c1 !! t = Some (k, Returning r (has_followers k c))) as H1.
  { cbn [c1 complete goroutines]. apply lookup_insert_eq. }
  assert (∀ t', (t < t')%nat → goroutines c1 !! t' = None) as Hnew1.
  { intros t' Ht'. cbn [c1 complete goroutines]. rewrite lookup_insert_ne by lia.
    by rewrite lookup_fmap, Hnew. }
  assert (∀ t' k', goroutines c1 !! t' ≠ Some (k', Waiting)) as Hnw1.
  { intros t' k'. cbn [c1 complete goroutines]. rewrite lookup_insert_Some.
    intros [[_ [=]]|[_ [Hw|(_ & [=] & _)]%wake_lookup]]. by destruct (Hnw t' k'). }
  assert (∀ k', sf_running (group c1) k' = false) as Hr1.
  { intros k'. cbn [c1 complete group]. rewrite sf_running_finish, Hr. by case_bool_decide. }
  set (c2 := set_pc (S t) k Start c1). set (c3 := enter false (S t) k c2).
  assert (count_of k c2 = 1%nat) as Hc2 by exact Hc.
  assert (c3 = set_pc (S t) k (Entered false) (set_inflight (<[k := 2%nat]> (inflight c2)) c2)) as E3.
  { subst c3. unfold enter. rewrite Hc2. done. }
  set (s := has_followers k c) in *. set (c4 := leave t k r (count_shared r s c3)).
  destruct (count_shared_parts r s c3) as (Eg & Ei & Et).
  assert (goroutines c4 = <[t := (k, Finished r)]> (<[S t := (k, Entered false)]>
    (<[S t := (k, Start)]> (goroutines c1)))) as G4.
  { subst c4. unfold leave. cbn [set_pc set_inflight goroutines]. by rewrite Et, E3. }
  assert (group c4 = group c1) as R4.
  { subst c4. unfold leave. cbn [set_pc set_inflight group]. by rewrite Eg, E3. }
  assert (inflight c4 = <[k := 1%nat]> (<[k := 2%nat]> (inflight c1))) as I4.
  { subst c4. unfold leave. cbn [set_pc set_inflight inflight]. unfold count_of.
    rewrite Ei, E3. cbn [set_pc set_inflight inflight]. by rewrite lookup_insert_eq. }
  set (c5 := set_pc (S t) k (Leading false) (set_group (sf_start k (group c4)) c4)).
  exists c5. split.
  - eapply rtc_l; [exact (step_complete false t k v f c Hl)|]. fold r c1.
    eapply rtc_l; [exact (step_arrive false (S t) k c1 (Hnew1 (S t) ltac:(lia)))|]. fold c2.
    eapply rtc_l; [apply (step_enter false (S t) k c2); apply lookup_insert_eq|]. fold c3.
    eapply rtc_l.
    { apply (step_leave false t k r s c3). rewrite E3. cbn [set_pc set_inflight goroutines c2].
      rewrite !lookup_insert_ne by lia. exact H1. }
    fold c4. eapply rtc_l; [|apply rtc_refl].
    apply (step_lead false (S t) k false c4).
    + rewrite G4, lookup_insert_ne by lia. apply lookup_insert_eq.
    + by rewrite R4.
  - unfold solo. cbn [c5 set_pc set_group goroutines group]. rewrite G4, R4. split_and!.
    + apply lookup_insert_eq.
    + unfold count_of. cbn [c5 set_pc set_group inflight]. by rewrite I4, lookup_insert_eq.
    + intros t' Ht'. rewrite !lookup_insert_ne by lia. apply Hnew1. lia.
    + intros t' k'. rewrite !lookup_insert_Some.
      intros [[_ [=]]|[_ [[_ [=]]|[_ [[_ [=]]|[_ [[_ [=]]|[_ Hw]]]]]]]]. by apply Hnw1 in Hw.
    + intros k'. by rewrite sf_running_start, Hr1, orb_false_r.
Qed.

(** Guard bypass.  Whenever one goroutine is running a backend call, an
    execution exists in which the guard refuses throughout and yet any number [n]
    of further goroutines, one after the other, each run their own backend call:
    each is counted as joining a call that has already ended.  The guard is
    skipped for them and there is nothing left to join. *)
Theorem guard_can_be_bypassed k t v (f : fetched) n c :
  solo k t v c → (0 < n)%nat →
  ∃ c', rtc (step false) c c' ∧ solo k (t + n) false c'.
Proof.
  intros Hs Hn. destruct n as [|n]; [lia|]. clear Hn. revert t v c Hs.
  induction n as [|n IH]; intros t v c Hs.
  - destruct (takeover k t v f c Hs) as (c' & H1 & H2). exists c'.
    replace (t + 1)%nat with (S t) by lia. done.
  - destruct (takeover k t v f c Hs) as (c1 & H1 & H2).
    destruct (IH (S t) false c1 H2) as (c' & H3 & H4). exists c'.
    split; [by etrans|]. by replace (t + S (S n))%nat with (S t + S n)%nat by lia.
Qed.

End Group.

(** ** Witnesses *)

(** The set of keys in flight is a singleflight group. *)
#[export] Instance keyset : Singleflight (gset string).
Proof.
  refine {| sf_new := ∅; sf_running g k := bool_decide (k ∈ g);
            sf_start k g := {[ k ]} ∪ g; sf_finish k g := g ∖ {[ k ]} |}.
  - intros k. by apply bool_decide_eq_false_2, not_elem_of_empty.
  - intros k k' g. destruct (decide (k = k')) as [->|Hne].
    + rewrite (bool_decide_eq_true_2 (k' = k')) by done. apply bool_decide_eq_true_2.
      apply elem_of_union_l, elem_of_singleton_2. done.
    + rewrite (bool_decide_eq_false_2 (k = k')) by done. apply bool_decide_ext.
      rewrite elem_of_union, elem_of_singleton. intuition congruence.
  - intros k k' g. destruct (decide (k = k')) as [->|Hne].
    + rewrite (bool_decide_eq_true_2 (k' = k')) by done. apply bool_decide_eq_false_2.
      rewrite elem_of_difference, elem_of_singleton. intuition.
    + rewrite (bool_decide_eq_false_2 (k = k')) by done. apply bool_decide_ext.
      rewrite elem_of_difference, elem_of_singleton. intuition congruence.
Defined.

(** One goroutine, approved by the guard, is running the call of [q]. *)
Definition running_one : Coalescer :=
  set_pc 0 "q" (Leading true)
    (set_group (sf_start "q" sf_new)
       (enter true 0 "q" (set_pc 0 "q" Start (NewCoalescer (G := gset string))))).

Lemma running_one_reachable : reachable running_one.
Proof.
  eapply rtc_l; [exists true; by apply (step_arrive true 0 "q")|].
  eapply rtc_l; [exists true; by apply (step_enter true 0 "q")|].
  eapply rtc_l; [|apply rtc_refl]. exists true. apply (step_lead true 0 "q" true); reflexivity.
Qed.

Lemma running_one_solo : solo "q" 0 true running_one.
Proof.
  assert (goroutines running_one = {[ 0%nat := ("q", Leading true) ]}) as E by (vm_compute; reflexivity).
  split; [reflexivity|]. split; [reflexivity|]. rewrite E. split_and!.
  - intros t' Ht'. apply lookup_singleton_ne. lia.
  - intros t' k'. rewrite lookup_singleton_Some. by intros [_ [=]].
  - intros k'. unfold running_one. cbn [set_pc set_group group].
    rewrite sf_running_start, sf_running_new. apply orb_false_r.
Qed.

Lemma one_backend_call_per_key_witness : count_of "q" running_one = size (inside_for "q" running_one).
Proof. apply (proj1 (proj2 (one_backend_call_per_key running_one running_one_reachable))). Defined.

Lemma guard_can_be_bypassed_witness :
  ∃ c', rtc (step false) running_one c' ∧ solo "q" 3 false c'.
Proof.
  refine (guard_can_be_bypassed "q" 0 true (FnError "down") 3 running_one running_one_solo _). lia.
Defined.

End Co.
