(* ===== verification/RateLimiter.v ===== *)
(** * Concurrency limit of the rate limiter
      (src/internal/middleware/ratelimiter.go)

    [AcquireConcurrent] is an atomic increment followed, when the limit is
    exceeded, by a separate atomic decrement, so other goroutines can see the
    counter in between.  [RL.step] interleaves them.  The token bucket works on
    float64 and is not modelled. *)

From S2P Require Import Prelude GoText.

#[local] Open Scope Z_scope.

Module RL.

(** Reduction to int32, the type of [active]. *)
Definition wrap32 (z : Z) : Z := (z + 2 ^ 31) mod 2 ^ 32 - 2 ^ 31.

(** One request: not started, past the increment and turned away, admitted,
    finished. *)
Inductive phase : Type :=
| Idle
| Backing
| Holding
| Done (admitted : bool).

#[export] Instance phase_eq_dec : EqDecision phase.
Proof. solve_decision. Defined.

Record RateLimiter : Type := mkRL {
  maxConcurrent : Z;
  active : Z;
  ThrottledTotal : Z;
  requests : list phase
}.

Definition NewRateLimiter (maxC : Z) (n : nat) : RateLimiter :=
  mkRL maxC 0 0 (replicate n Idle).

Definition set_phase (i : nat) (p : phase) (r : RateLimiter) : RateLimiter :=
  mkRL (maxConcurrent r) (active r) (ThrottledTotal r) (<[i := p]> (requests r)).

Definition add_active (d : Z) (r : RateLimiter) : RateLimiter :=
  mkRL (maxConcurrent r) (wrap32 (active r + d)) (ThrottledTotal r) (requests r).

Definition throttled (r : RateLimiter) : RateLimiter :=
  mkRL (maxConcurrent r) (active r) (ThrottledTotal r + 1) (requests r).

(** [AcquireConcurrent] up to the test of the limit. *)
Definition AcquireConcurrent (i : nat) (r : RateLimiter) : RateLimiter :=
  if maxConcurrent r <=? 0 then set_phase i Holding r
  else
    let r := add_active 1 r in
    if maxConcurrent r <? active r then set_phase i Backing r else set_phase i Holding r.

(** Its second atomic operation, when the limit was exceeded. *)
Definition AcquireConcurrent_back (i : nat) (r : RateLimiter) : RateLimiter :=
  set_phase i (Done false) (throttled (add_active (-1) r)).

Definition ReleaseConcurrent (i : nat) (r : RateLimiter) : RateLimiter :=
  set_phase i (Done true) (add_active (-1) r).

(** The middleware: requests acquire, run and release in any order. *)
Inductive step : RateLimiter → RateLimiter → Prop :=
| step_acquire i r : requests r !! i = Some Idle → step r (AcquireConcurrent i r)
| step_back i r : requests r !! i = Some Backing → step r (AcquireConcurrent_back i r)
| step_release i r : requests r !! i = Some Holding → step r (ReleaseConcurrent i r).

Definition count_phase (p : phase) (r : RateLimiter) : Z :=
  Z.of_nat (length (filter (λ q, q = p) (requests r))).

Record inv (r : RateLimiter) : Prop := {
  inv_active : active r = count_phase Holding r + count_phase Backing r;
  inv_limit : count_phase Holding r ≤ maxConcurrent r;
  inv_pos : 0 < maxConcurrent r
}.

(** ** Lemmas *)

Lemma wrap32_id z : - 2 ^ 31 ≤ z < 2 ^ 31 → wrap32 z = z.
Proof. intros Hz. unfold wrap32. rewrite Z.mod_small; lia. Qed.

Lemma count_insert (l : list phase) i old new p :
  l !! i = Some old →
  Z.of_nat (length (filter (λ q, q = p) (<[i := new]> l))) =
  Z.of_nat (length (filter (λ q, q = p) l)) - (if decide (old = p) then 1 else 0)
  + (if decide (new = p) then 1 else 0).
Proof.
  revert i. induction l as [|x l IH]; intros i Hi; [done|]. destruct i as [|i]; simpl in Hi.
  - injection Hi as ->. cbn [insert list_insert]. rewrite !filter_cons.
    destruct (decide (new = p)), (decide (old = p)); cbn [length]; lia.
  - change (<[S i := new]> (x :: l)) with (x :: <[i := new]> l). rewrite !filter_cons.
    specialize (IH i Hi). destruct (decide (x = p)); cbn [length]; lia.
Qed.

Lemma count_set_phase i old new p r :
  requests r !! i = Some old →
  count_phase p (set_phase i new r) =
  count_phase p r - (if decide (old = p) then 1 else 0) + (if decide (new = p) then 1 else 0).
Proof. apply count_insert. Qed.

Lemma count_bound p q r :
  p ≠ q → count_phase p r + count_phase q r ≤ Z.of_nat (length (requests r)).
Proof.
  intros Hne. unfold count_phase. induction (requests r) as [|x l IH]; [done|].
  rewrite !filter_cons. destruct (decide (x = p)), (decide (x = q)); cbn [length]; try lia. congruence.
Qed.

Lemma step_length r r' : step r r' → length (requests r') = length (requests r).
Proof.
  intros [i s Hi|i s Hi|i s Hi].
  - unfold AcquireConcurrent. destruct (_ <=? _); [apply length_insert|].
    destruct (_ <? _); apply length_insert.
  - apply length_insert.
  - apply length_insert.
Qed.

Lemma step_max r r' : step r r' → maxConcurrent r' = maxConcurrent r.
Proof.
  intros [i s Hi|i s Hi|i s Hi]; [|done|done].
  unfold AcquireConcurrent. destruct (_ <=? _); [done|]. by destruct (_ <? _).
Qed.

(** How one request's move changes the two counts. *)
Lemma move_counts i old new r :
  requests r !! i = Some old →
  let d p := (if decide (new = p) then 1 else 0) - (if decide (old = p) then 1 else 0) in
  count_phase Holding (set_phase i new r) = count_phase Holding r + d Holding ∧
  count_phase Backing (set_phase i new r) = count_phase Backing r + d Backing.
Proof.
  intros Hi d. rewrite !(count_set_phase i old new _ r Hi). subst d. cbv beta. lia.
Qed.

Lemma limiter_step_inv r r' :
  Z.of_nat (length (requests r)) < 2 ^ 31 - 1 → inv r → step r r' → inv r'.
Proof.
  intros Hlen [Ha Hl Hp] Hs. pose proof (count_bound Holding Backing r ltac:(done)) as Hb.
  assert (0 ≤ count_phase Holding r ∧ 0 ≤ count_phase Backing r) as [H0 H1]
    by (unfold count_phase; lia).
  destruct Hs as [i r Hi|i r Hi|i r Hi].
  - unfold AcquireConcurrent. rewrite (proj2 (Z.leb_gt _ _)) by done.
    assert (active (add_active 1 r) = active r + 1) as Ea by (apply wrap32_id; lia).
    change (maxConcurrent (add_active 1 r)) with (maxConcurrent r).
    destruct (Z.ltb_spec (maxConcurrent r) (active (add_active 1 r))) as [Hx|Hx].
    + destruct (move_counts i Idle Backing (add_active 1 r) Hi) as [Ch Cb]. simpl in Ch, Cb.
      split; [rewrite Ch, Cb|rewrite Ch|done].
      * change (active (add_active 1 r) = count_phase Holding r + 0 + (count_phase Backing r + 1)). lia.
      * change (count_phase Holding r + 0 ≤ maxConcurrent r). lia.
    + destruct (move_counts i Idle Holding (add_active 1 r) Hi) as [Ch Cb]. simpl in Ch, Cb.
      split; [rewrite Ch, Cb|rewrite Ch|done].
      * change (active (add_active 1 r) = count_phase Holding r + 1 + (count_phase Backing r + 0)). lia.
      * change (count_phase Holding r + 1 ≤ maxConcurrent r). lia.
  - assert (active (add_active (-1) r) = active r - 1) as Ea by (apply wrap32_id; lia).
    destruct (move_counts i Backing (Done false) (throttled (add_active (-1) r)) Hi) as [Ch Cb].
    simpl in Ch, Cb. unfold AcquireConcurrent_back. split; [rewrite Ch, Cb|rewrite Ch|done].
    + change (active (add_active (-1) r) = count_phase Holding r + 0 + (count_phase Backing r + -1)). lia.
    + change (count_phase Holding r + 0 ≤ maxConcurrent r). lia.
  - assert (active (add_active (-1) r) = active r - 1) as Ea by (apply wrap32_id; lia).
    destruct (move_counts i Holding (Done true) (add_active (-1) r) Hi) as [Ch Cb].
    simpl in Ch, Cb. unfold ReleaseConcurrent. split; [rewrite Ch, Cb|rewrite Ch|done].
    + change (active (add_active (-1) r) = count_phase Holding r + -1 + (count_phase Backing r + 0)). lia.
    + change (count_phase Holding r + -1 ≤ maxConcurrent r). lia.
Qed.

Lemma limiter_new_inv maxC n : 0 < maxC → inv (NewRateLimiter maxC n).
Proof.
  intros Hm.
  assert (∀ p, p ≠ Idle → count_phase p (NewRateLimiter maxC n) = 0) as Hz.
  { intros p Hp. unfold count_phase, NewRateLimiter. cbn [requests].
    induction n as [|n IH]; [done|]. cbn [replicate]. by rewrite filter_cons_False. }
  split; rewrite ?(Hz Holding), ?(Hz Backing) by done; cbn [NewRateLimiter active maxConcurrent]; lia.
Qed.

(** Concurrency limit.  For any number of requests below 2^31, under any
    interleaving of the two atomic operations of an acquire and of releases, the
    requests being served never exceed the limit, and the counter is exactly the
    requests served plus those about to give their increment back. *)
Theorem concurrency_limit_holds maxC n r :
  0 < maxC → Z.of_nat n < 2 ^ 31 - 1 → rtc step (NewRateLimiter maxC n) r →
  count_phase Holding r ≤ maxC ∧ active r = count_phase Holding r + count_phase Backing r.
Proof.
  intros Hm Hn Hr.
  assert (inv r ∧ maxConcurrent r = maxC ∧ Z.of_nat (length (requests r)) < 2 ^ 31 - 1)
    as ([Ha Hl _] & <- & _); [|done].
  assert (inv (NewRateLimiter maxC n) ∧ maxConcurrent (NewRateLimiter maxC n) = maxC ∧
    Z.of_nat (length (requests (NewRateLimiter maxC n))) < 2 ^ 31 - 1) as H0.
  { split; [by apply limiter_new_inv|]. split; [done|]. cbn [NewRateLimiter requests]. by rewrite length_replicate. }
  induction Hr as [|a b c Hs _ IH]; [done|]. apply IH. destruct H0 as (H1 & H2 & H3).
  split; [by eapply limiter_step_inv|]. rewrite (step_max a b Hs), (step_length a b Hs). done.
Qed.

Lemma concurrency_limit_holds_witness :
  count_phase Holding (AcquireConcurrent 1 (AcquireConcurrent 0 (NewRateLimiter 1 3))) ≤ 1.
Proof.
  refine (proj1 (concurrency_limit_holds 1 3 _ _ _ _)); [lia|lia|].
  eapply rtc_l; [by apply (step_acquire 0)|]. eapply rtc_l; [by apply (step_acquire 1)|apply rtc_refl].
Defined.

End RL.
