(* ===== verification/LogqlScanner.v ===== *)
(** * The LogQL scanner (src/internal/logql/scanner.go)

    [Scanner.scanner] is the cursor (source, byte position, brace depth) and
    [Scanner.next] the whole of [next], rune by rune.  Every loop runs with the
    number of bytes left as fuel; each of its rounds consumes at least one. *)

From S2P Require Import Prelude GoText Utf8.

#[local] Open Scope Z_scope.

Module Scanner.
Import Text Utf8.

(** ** Tokens *)

Inductive TokType : Type :=
| TokEOF
| TokError
| TokLBrace
| TokRBrace
| TokLParen
| TokRParen
| TokLBracket
| TokRBracket
| TokComma
| TokPipe
| TokAt
| TokEq
| TokNeq
| TokReMatch
| TokReNotMatch
| TokPipeEq
| TokBangEq
| TokPipeTilde
| TokBangTilde
| TokPipeGt
| TokBangGt
| TokIdent
| TokString
| TokRawString
| TokDuration
| TokNumber
| TokPlus
| TokMinus
| TokStar
| TokSlash
| TokPercent
| TokCaret
| TokLt
| TokGt
| TokLtEq
| TokGtEq
| TokEqEq
| TokBy
| TokWithout
| TokOn
| TokIgnoring
| TokGroupLeft
| TokGroupRight
| TokAnd
| TokOr
| TokUnless.

#[export] Instance TokType_eq_dec : EqDecision TokType.
Proof. solve_decision. Defined.

Definition TokType_String (t : TokType) : string :=
  match t with
  | TokEOF => "EOF"
  | TokError => "ERROR"
  | TokLBrace => "{"
  | TokRBrace => "}"
  | TokLParen => "("
  | TokRParen => ")"
  | TokLBracket => "["
  | TokRBracket => "]"
  | TokComma => ","
  | TokPipe => "|"
  | TokAt => "@"
  | TokEq => "="
  | TokNeq => "!="
  | TokReMatch => "=~"
  | TokReNotMatch => "!~"
  | TokPipeEq => "|="
  | TokBangEq => "!="
  | TokPipeTilde => "|~"
  | TokBangTilde => "!~"
  | TokPipeGt => "|>"
  | TokBangGt => "!>"
  | TokIdent => "IDENT"
  | TokString => "STRING"
  | TokRawString => "RAWSTRING"
  | TokDuration => "DURATION"
  | TokNumber => "NUMBER"
  | TokPlus => "+"
  | TokMinus => "-"
  | TokStar => "*"
  | TokSlash => "/"
  | TokPercent => "%"
  | TokCaret => "^"
  | TokLt => "<"
  | TokGt => ">"
  | TokLtEq => "<="
  | TokGtEq => ">="
  | TokEqEq => "=="
  | TokBy => "by"
  | TokWithout => "without"
  | TokOn => "on"
  | TokIgnoring => "ignoring"
  | TokGroupLeft => "group_left"
  | TokGroupRight => "group_right"
  | TokAnd => "and"
  | TokOr => "or"
  | TokUnless => "unless"
  end.

Record Token : Type := mkTok {
  Typ : TokType;
  Val : string
}.

(** ** Cursor *)

Record scanner : Type := mkScanner {
  src : string;
  pos : nat;
  braceDepth : nat
}.

Definition newScanner (s : string) : scanner := mkScanner s 0 0.

(** What is left to read. *)
Definition rest (s : scanner) : string := suffix (pos s) (src s).

(** The next rune and its width; [(0, 0)] at the end. *)
Definition peek_at (r : string) : Z * nat :=
  match r with
  | "" => (0, 0%nat)
  | _ => DecodeRune r
  end.

Definition peek (s : scanner) : Z * nat := peek_at (rest s).

Definition skip (n : nat) (s : scanner) : scanner := mkScanner (src s) (pos s + n) (braceDepth s).

Definition read (s : scanner) : Z * scanner :=
  let '(r, w) := peek s in (r, skip w s).

Definition set_depth (d : nat) (s : scanner) : scanner := mkScanner (src s) (pos s) d.

(** [unicode.IsSpace]: the runes with property White_Space. *)
Definition IsSpace (r : Z) : bool :=
  existsb (Z.eqb r) [9; 10; 11; 12; 13; 32; 0x85; 0xA0; 0x1680; 0x2028; 0x2029; 0x202F; 0x205F; 0x3000]
  || ((0x2000 <=? r) && (r <=? 0x200A)).

(** The loop [for size != 0 && p(r) { s.pos += size }]: how far it gets. *)
Fixpoint span (fuel : nat) (p : Z → bool) (t : string) : nat :=
  match fuel with
  | O => 0
  | S fuel =>
      let '(r, w) := peek_at t in
      if (w =? 0)%nat || negb (p r) then 0%nat else (w + span fuel p (suffix w t))%nat
  end.

Definition while (p : Z → bool) (s : scanner) : scanner :=
  skip (span (String.length (rest s)) p (rest s)) s.

Definition skipWS (s : scanner) : scanner := while IsSpace s.

Section Lexer.
Context `{Unicode}.

(** The source between two cursors. *)
Definition slice (a b : scanner) : string := prefix (pos b - pos a) (rest a).

(** ** Literals *)

(** The loop of [scanQuotedString]: the bytes up to and including the closing
    quote, if there is one. *)
Fixpoint quoted_span (fuel : nat) (t : string) : option nat :=
  match fuel with
  | O => None
  | S fuel =>
      match t with
      | "" => None
      | _ =>
          let '(r, w) := peek_at t in
          if r =? 92 then
            let '(_, w') := peek_at (suffix w t) in
            option_map (λ n, w + w' + n)%nat (quoted_span fuel (suffix (w + w') t))
          else if r =? 34 then Some w
          else option_map (λ n, w + n)%nat (quoted_span fuel (suffix w t))
      end
  end.

Definition scanQuotedString (s : scanner) : Token * scanner :=
  let start := s in
  let s := snd (read s) in
  match quoted_span (String.length (rest s)) (rest s) with
  | Some n =>
      let s := skip n s in
      let literal := slice start s in
      match Unquote literal with
      | Some value =>
          if ValidString literal then (mkTok TokString value, s)
          else (mkTok TokError "invalid quoted string", s)
      | None => (mkTok TokError "invalid quoted string", s)
      end
  | None => (mkTok TokError "unterminated quoted string", skip (String.length (rest s)) s)
  end.

Definition scanRawString (s : scanner) : Token * scanner :=
  let start := snd (read s) in
  let s := while (λ r, negb (r =? 96)) start in
  (mkTok TokRawString (slice start s), snd (read s)).

Definition ident_rune (r : Z) : bool := IsLetter r || IsDigit r || (r =? 95) || (r =? 46).

Definition keyword (val : string) : TokType :=
  if String.eqb val "by" then TokBy
  else if String.eqb val "without" then TokWithout
  else if String.eqb val "on" then TokOn
  else if String.eqb val "ignoring" then TokIgnoring
  else if String.eqb val "group_left" then TokGroupLeft
  else if String.eqb val "group_right" then TokGroupRight
  else if String.eqb val "and" then TokAnd
  else if String.eqb val "or" then TokOr
  else if String.eqb val "unless" then TokUnless
  else TokIdent.

Definition scanIdent (s : scanner) : Token * scanner :=
  let s' := while ident_rune s in
  let val := slice s s' in
  (mkTok (keyword val) val, s').

Definition digit_rune (r : Z) : bool := IsDigit r || (r =? 46).

(** Value and unit pairs, until one of the two is missing. *)
Fixpoint number_loop (fuel : nat) (sawUnit : bool) (s : scanner) : bool * scanner :=
  match fuel with
  | O => (sawUnit, s)
  | S fuel =>
      let s1 := while digit_rune s in
      if (pos s1 =? pos s)%nat then (sawUnit, s1)
      else
        let s2 := while IsLetter s1 in
        if (pos s2 =? pos s1)%nat then (sawUnit, s2) else number_loop fuel true s2
  end.

Definition scanNumberOrDuration (s : scanner) : Token * scanner :=
  let '(sawUnit, s') := number_loop (S (String.length (rest s))) false s in
  let val := slice s s' in
  (mkTok (if sawUnit then TokDuration else TokNumber) val, s').

(** ** The token dispatch *)

Definition next (s : scanner) : Token * scanner :=
  let s := skipWS s in
  let '(r, w) := peek s in
  if (w =? 0)%nat then (mkTok TokEOF "", s)
  else if r =? 123 then
    (mkTok TokLBrace "{", set_depth (S (braceDepth s)) (snd (read s)))
  else if r =? 125 then
    (mkTok TokRBrace "}", set_depth (pred (braceDepth s)) (snd (read s)))
  else if r =? 40 then (mkTok TokLParen "(", snd (read s))
  else if r =? 41 then (mkTok TokRParen ")", snd (read s))
  else if r =? 91 then (mkTok TokLBracket "[", snd (read s))
  else if r =? 93 then (mkTok TokRBracket "]", snd (read s))
  else if r =? 44 then (mkTok TokComma ",", snd (read s))
  else if r =? 64 then (mkTok TokAt "@", snd (read s))
  else if r =? 124 then
    let s := snd (read s) in
    let '(r2, _) := peek s in
    if r2 =? 61 then (mkTok TokPipeEq "|=", snd (read s))
    else if r2 =? 126 then (mkTok TokPipeTilde "|~", snd (read s))
    else if r2 =? 62 then (mkTok TokPipeGt "|>", snd (read s))
    else (mkTok TokPipe "|", s)
  else if r =? 33 then
    let s := snd (read s) in
    let '(r2, _) := peek s in
    if r2 =? 61 then
      (mkTok (if (0 <? braceDepth s)%nat then TokNeq else TokBangEq) "!=", snd (read s))
    else if r2 =? 126 then
      (mkTok (if (0 <? braceDepth s)%nat then TokReNotMatch else TokBangTilde) "!~", snd (read s))
    else if r2 =? 62 then (mkTok TokBangGt "!>", snd (read s))
    else (mkTok TokError "!", s)
  else if r =? 43 then (mkTok TokPlus "+", snd (read s))
  else if r =? 45 then (mkTok TokMinus "-", snd (read s))
  else if r =? 42 then (mkTok TokStar "*", snd (read s))
  else if r =? 47 then (mkTok TokSlash "/", snd (read s))
  else if r =? 37 then (mkTok TokPercent "%", snd (read s))
  else if r =? 94 then (mkTok TokCaret "^", snd (read s))
  else if r =? 60 then
    let s := snd (read s) in
    if fst (peek s) =? 61 then (mkTok TokLtEq "<=", snd (read s)) else (mkTok TokLt "<", s)
  else if r =? 62 then
    let s := snd (read s) in
    if fst (peek s) =? 61 then (mkTok TokGtEq ">=", snd (read s)) else (mkTok TokGt ">", s)
  else if r =? 61 then
    let s := snd (read s) in
    let '(r2, _) := peek s in
    if r2 =? 126 then (mkTok TokReMatch "=~", snd (read s))
    else if r2 =? 61 then (mkTok TokEqEq "==", snd (read s))
    else (mkTok TokEq "=", s)
  else if r =? 34 then scanQuotedString s
  else if r =? 96 then scanRawString s
  else if IsLetter r || (r =? 95) then scanIdent s
  else if IsDigit r then scanNumberOrDuration s
  else (mkTok TokError (EncodeRune r), snd (read s)).

(** ** Progress *)

Definition wf (s : scanner) : Prop := (pos s ≤ String.length (src s))%nat.

Definition remaining (s : scanner) : nat := String.length (rest s).

(** [s'] is [s] moved on by at least [k] bytes, not past the end. *)
Definition moves (k : nat) (s s' : scanner) : Prop :=
  src s' = src s ∧ (pos s + k ≤ pos s')%nat ∧ wf s'.

Lemma remaining_eq s : remaining s = (String.length (src s) - pos s)%nat.
Proof. apply length_suffix. Qed.

Lemma moves_trans k1 k2 a b c : moves k1 a b → moves k2 b c → moves (k1 + k2) a c.
Proof. intros (E1 & P1 & _) (E2 & P2 & W2). split; [congruence|]. split; [lia|done]. Qed.

Lemma moves_weaken k1 k2 a b : (k2 ≤ k1)%nat → moves k1 a b → moves k2 a b.
Proof. intros Hk (E & P & W). split; [done|]. split; [lia|done]. Qed.

Lemma moves_refl s : wf s → moves 0 s s.
Proof. intros Hw. split; [done|]. split; [lia|done]. Qed.

Lemma moves_remaining k a b : moves k a b → wf a → (remaining b + k ≤ remaining a)%nat.
Proof. intros (E & P & W) Ha. rewrite !remaining_eq, E. unfold wf in *. rewrite E in W. lia. Qed.

Lemma moves_skip n s : wf s → (n ≤ remaining s)%nat → moves n s (skip n s).
Proof.
  intros Hw Hn. rewrite remaining_eq in Hn. unfold moves, wf, skip in *. cbn [src pos].
  split; [done|lia].
Qed.

Lemma peek_at_width t : (snd (peek_at t) ≤ String.length t)%nat ∧
  (t ≠ "" → 1 ≤ snd (peek_at t))%nat.
Proof.
  destruct t as [|a t]; [cbn; split; [lia|done]|]. unfold peek_at.
  destruct (DecodeRune_width (String a t)) as [H1 H2]; [done|]. split; lia.
Qed.

Lemma moves_read s : wf s → moves 0 s (snd (read s)).
Proof.
  intros Hw. unfold read. pose proof (peek_at_width (rest s)) as [H1 _]. unfold peek.
  destruct (peek_at (rest s)) as [r w]. cbn [snd] in *.
  eapply moves_weaken; [|by apply moves_skip]. lia.
Qed.

Lemma moves_read1 s : wf s → rest s ≠ "" → moves 1 s (snd (read s)).
Proof.
  intros Hw Hne. unfold read. pose proof (peek_at_width (rest s)) as [H1 H2]. unfold peek.
  destruct (peek_at (rest s)) as [r w]. cbn [snd] in *. specialize (H2 Hne).
  eapply moves_weaken; [|by apply moves_skip]. lia.
Qed.

Lemma span_le fuel p t : (span fuel p t ≤ String.length t)%nat.
Proof.
  revert t. induction fuel as [|fuel IH]; intros t; cbn [span]; [lia|].
  pose proof (peek_at_width t) as [H1 _]. destruct (peek_at t) as [r w]. cbn [snd] in H1.
  destruct (_ || _); [lia|]. specialize (IH (suffix w t)). rewrite length_suffix in IH. lia.
Qed.

Lemma moves_while p s : wf s → moves 0 s (while p s).
Proof.
  intros Hw. eapply moves_weaken; [|apply moves_skip; [done|apply span_le]]. lia.
Qed.

(** The first rune satisfies [p]: the loop consumes it. *)
Lemma moves_while1 p s : wf s → rest s ≠ "" → p (fst (peek s)) = true → moves 1 s (while p s).
Proof.
  intros Hw Hne Hp. unfold while. pose proof (peek_at_width (rest s)) as [H1 H2]. specialize (H2 Hne).
  assert (1 ≤ span (String.length (rest s)) p (rest s))%nat.
  { destruct (rest s) as [|a t] eqn:E; [done|]. cbn [String.length span]. unfold peek in Hp.
    rewrite E in Hp. destruct (peek_at (String a t)) as [r w]. cbn [fst snd] in *.
    rewrite Hp. destruct (Nat.eqb_spec w 0); [lia|]. cbn. lia. }
  eapply moves_weaken; [|apply moves_skip; [done|apply span_le]]. lia.
Qed.

Lemma moves_set_depth k d a b : moves k a b → moves k a (set_depth d b).
Proof. done. Qed.

Lemma quoted_span_le fuel t n : quoted_span fuel t = Some n → (n ≤ String.length t)%nat.
Proof.
  revert t n. induction fuel as [|fuel IH]; intros t n; cbn [quoted_span]; [done|].
  destruct t as [|a t]; [done|].
  pose proof (peek_at_width (String a t)) as [H1 _]. destruct (peek_at (String a t)) as [r w].
  cbn [snd] in H1. destruct (r =? 92).
  - pose proof (peek_at_width (suffix w (String a t))) as [H2 _].
    destruct (peek_at (suffix w (String a t))) as [r' w']. cbn [snd] in H2.
    rewrite length_suffix in H2.
    destruct (quoted_span fuel _) as [m|] eqn:E; [|done]. intros [= <-].
    apply IH in E. rewrite length_suffix in E. lia.
  - destruct (r =? 34); [intros [= <-]; lia|].
    destruct (quoted_span fuel _) as [m|] eqn:E; [|done]. intros [= <-].
    apply IH in E. rewrite length_suffix in E. lia.
Qed.

Lemma moves_quoted s : wf s → rest s ≠ "" → moves 1 s (snd (scanQuotedString s)).
Proof.
  intros Hw Hne. pose proof (moves_read1 s Hw Hne) as Hr. unfold scanQuotedString.
  set (s1 := snd (read s)) in *. cbv zeta. pose proof Hr as (_ & _ & Hw1).
  destruct (quoted_span _ _) as [n|] eqn:E.
  - apply quoted_span_le in E.
    assert (moves 1 s (skip n s1)) as Hm.
    { eapply moves_weaken; [|eapply moves_trans; [exact Hr|by apply moves_skip]]. lia. }
    destruct (Unquote _); [destruct (ValidString _)|]; exact Hm.
  - eapply moves_weaken; [|eapply moves_trans; [exact Hr|by apply moves_skip]]. lia.
Qed.

Lemma moves_raw s : wf s → rest s ≠ "" → moves 1 s (snd (scanRawString s)).
Proof.
  intros Hw Hne. pose proof (moves_read1 s Hw Hne) as Hr. unfold scanRawString. cbn [snd].
  set (s1 := snd (read s)) in *. pose proof Hr as (_ & _ & Hw1).
  pose proof (moves_while (λ r, negb (r =? 96)) s1 Hw1) as H2. pose proof H2 as (_ & _ & Hw2).
  pose proof (moves_read _ Hw2) as H3.
  exact (moves_trans _ _ _ _ _ (moves_trans _ _ _ _ _ Hr H2) H3).
Qed.

Lemma moves_number fuel b s : wf s → moves 0 s (snd (number_loop fuel b s)).
Proof.
  revert b s. induction fuel as [|fuel IH]; intros b s Hw; cbn [number_loop]; [by apply moves_refl|].
  pose proof (moves_while digit_rune s Hw) as H1. pose proof H1 as (_ & _ & Hw1).
  destruct (_ =? _)%nat; [done|].
  pose proof (moves_while IsLetter _ Hw1) as H2. pose proof H2 as (_ & _ & Hw2).
  destruct (_ =? _)%nat; [exact (moves_trans _ _ _ _ _ H1 H2)|].
  exact (moves_trans _ _ _ _ _ (moves_trans _ _ _ _ _ H1 H2) (IH true _ Hw2)).
Qed.

Lemma moves_number1 s : wf s → rest s ≠ "" → IsDigit (fst (peek s)) = true →
  moves 1 s (snd (scanNumberOrDuration s)).
Proof.
  intros Hw Hne Hd. unfold scanNumberOrDuration. cbn [number_loop].
  pose proof (moves_while1 digit_rune s Hw Hne) as H1.
  assert (digit_rune (fst (peek s)) = true) as Hp by (unfold digit_rune; by rewrite Hd).
  specialize (H1 Hp). pose proof H1 as (_ & Hpos & Hw1).
  destruct (Nat.eqb_spec (pos (while digit_rune s)) (pos s)) as [He|_]; [lia|].
  pose proof (moves_while IsLetter _ Hw1) as H2. pose proof H2 as (_ & _ & Hw2).
  destruct (_ =? _)%nat; [exact (moves_trans _ _ _ _ _ H1 H2)|].
  destruct (number_loop _ true _) as [b s'] eqn:E. cbn [snd].
  pose proof (moves_number (String.length (rest s)) true _ Hw2) as H3. rewrite E in H3.
  exact (moves_trans _ _ _ _ _ (moves_trans _ _ _ _ _ H1 H2) H3).
Qed.

(** One or two single-rune reads. *)
Lemma moves_read2 s : wf s → rest s ≠ "" → moves 1 s (snd (read (snd (read s)))).
Proof.
  intros Hw Hne. pose proof (moves_read1 s Hw Hne) as H1. pose proof H1 as (_ & _ & Hw1).
  exact (moves_trans _ _ _ _ _ H1 (moves_read _ Hw1)).
Qed.

(** A token other than EOF consumed at least one byte. *)
Lemma next_moves s : wf s →
  (Typ (fst (next s)) = TokEOF ∧ moves 0 s (snd (next s)) ∧ remaining (snd (next s)) = 0%nat) ∨
  (Typ (fst (next s)) ≠ TokEOF ∧ moves 1 s (snd (next s))).
Proof.
  intros Hw. pose proof (moves_while IsSpace s Hw) as H0. fold (skipWS s) in H0.
  unfold next. set (s0 := skipWS s) in *. pose proof H0 as (_ & _ & Hw0).
  assert (∀ s', moves 1 s0 s' → moves 1 s s') as Hfrom
    by (intros s' Hs'; exact (moves_trans _ _ _ _ _ H0 Hs')).
  pose proof (peek_at_width (rest s0)) as [_ Hwid].
  destruct (peek s0) as [r w] eqn:Hpk. unfold peek in Hpk. rewrite Hpk in Hwid. cbn [snd] in Hwid.
  destruct (Nat.eqb_spec w 0) as [Hz|Hz].
  { left. split; [done|]. split; [done|]. cbn [snd]. unfold remaining.
    destruct (rest s0) as [|a t]; [done|]. specialize (Hwid ltac:(done)). lia. }
  assert (rest s0 ≠ "") as Hne by (intros E; rewrite E in Hpk; injection Hpk as <- <-; done).
  pose proof (moves_read1 s0 Hw0 Hne) as R1. pose proof (moves_read2 s0 Hw0 Hne) as R2.
  right. set (s1 := snd (read s0)) in *.
  assert (IsLetter r || (r =? 95) = true → moves 1 s0 (snd (scanIdent s0)) ∧
          Typ (fst (scanIdent s0)) ≠ TokEOF) as Hid.
  { intros Hl. split.
    - apply moves_while1; [done|done|]. unfold peek. rewrite Hpk. unfold ident_rune. cbn [fst].
      apply orb_true_iff in Hl as [->| ->]; [done|by rewrite !orb_true_r].
    - unfold scanIdent, keyword. cbn [fst Typ]. repeat case_match; done. }
  assert (IsDigit r = true → moves 1 s0 (snd (scanNumberOrDuration s0)) ∧
          Typ (fst (scanNumberOrDuration s0)) ≠ TokEOF) as Hnum.
  { intros Hd. split; [apply moves_number1; [done|done|unfold peek; by rewrite Hpk]|].
    unfold scanNumberOrDuration. destruct (number_loop _ _ _) as [[] ?]; done. }
  pose proof (moves_quoted s0 Hw0 Hne) as Hq. pose proof (moves_raw s0 Hw0 Hne) as Hr.
  assert (Typ (fst (scanQuotedString s0)) ≠ TokEOF) as Hqt.
  { unfold scanQuotedString. cbv zeta. destruct (quoted_span _ _); [|done].
    destruct (Unquote _); [|done]. by destruct (ValidString _). }
  repeat match goal with
  | |- context [if ?b then _ else _] =>
      lazymatch b with
      | (_ =? _) => destruct b
      | IsLetter _ || _ => destruct b eqn:?
      | IsDigit _ => destruct b eqn:?
      end
  | |- context [let '(_, _) := peek s1 in _] => destruct (peek s1)
  end; try (split; [|by apply Hfrom; apply Hid || apply Hnum]; by apply Hid || apply Hnum);
    try (split; [done|by apply Hfrom]).
  all: split; [by destruct (_ <? _)%nat|by apply Hfrom].
Qed.

(** Only [scanIdent] makes an identifier, whose text is what it consumed. *)
Lemma next_ident s : wf s → Typ (fst (next s)) = TokIdent →
  (remaining (snd (next s)) + String.length (Val (fst (next s))) ≤ remaining s)%nat.
Proof.
  intros Hw. pose proof (moves_while IsSpace s Hw) as H0. fold (skipWS s) in H0.
  pose proof (moves_remaining _ _ _ H0 Hw) as Hr. unfold next. set (s0 := skipWS s) in *.
  pose proof H0 as (_ & _ & Hw0). destruct (peek s0) as [r w]. destruct (w =? 0)%nat; [done|].
  assert (remaining (snd (scanIdent s0)) + String.length (Val (fst (scanIdent s0))) ≤ remaining s)%nat as Hid.
  { pose proof (moves_while ident_rune s0 Hw0) as (E & Hp & Hw1). unfold scanIdent. cbn [fst snd Val].
    unfold slice. pose proof (length_prefix (pos (while ident_rune s0) - pos s0) (rest s0)).
    rewrite !remaining_eq in *. rewrite E in *.
    unfold wf in Hw1. rewrite E in Hw1. lia. }
  assert (Typ (fst (scanNumberOrDuration s0)) ≠ TokIdent) as Hnum
    by (unfold scanNumberOrDuration; by destruct (number_loop _ _ _) as [[] ?]).
  assert (Typ (fst (scanQuotedString s0)) ≠ TokIdent) as Hq.
  { unfold scanQuotedString. cbv zeta. destruct (quoted_span _ _); [|done].
    destruct (Unquote _); [|done]. by destruct (ValidString _). }
  repeat match goal with
  | |- context [if ?b then _ else _] =>
      lazymatch b with
      | (_ =? _) => destruct b
      | IsLetter _ || _ => destruct b
      | IsDigit _ => destruct b
      end
  | |- context [let '(_, _) := peek ?s in _] => destruct (peek s)
  end; try done; by destruct (_ <? _)%nat.
Qed.

End Lexer.
End Scanner.
