(* ===== verification/LogqlAst.v ===== *)
(** * The LogQL syntax tree and its printer (src/internal/logql/ast.go)

    The Go interfaces [Expr] and [Stage] are inductive types with one constructor
    per implementing struct; every [String] method is a function. Numeric literals
    are opaque float64 values behind [Floats]. *)

From S2P Require Import Prelude GoText Utf8.

#[local] Open Scope Z_scope.

(** float64 as the front end uses it: read by [strconv.ParseFloat], negated,
    converted from an int and printed with [%g]. *)
Class Floats : Type := {
  F : Type;
  ParseFloat : string → result F;
  Fneg : F → F;
  Fof_int : Z → F;
  Format_g : F → string
}.

Module Ast.
Import Text Utf8.

Section Trees.
Context `{Floats} `{Unicode}.

Inductive MatchOp : Type := MatchEq | MatchNeq | MatchRe | MatchNotRe.

Record LabelMatcher : Type := mkLM {
  lm_Name : string;
  lm_Op : MatchOp;
  lm_Value : string
}.

Definition MatchOp_String (o : MatchOp) : string :=
  match o with
  | MatchEq => "="
  | MatchNeq => "!="
  | MatchRe => "=~"
  | MatchNotRe => "!~"
  end.

Definition LabelMatcher_String (m : LabelMatcher) : string :=
  lm_Name m +:+ MatchOp_String (lm_Op m) +:+ Quote (lm_Value m).

Definition StreamSelector : Type := list LabelMatcher.

Definition StreamSelector_String (s : StreamSelector) : string :=
  "{" +:+ Join ", " (map LabelMatcher_String s) +:+ "}".

Inductive LineFilterOp : Type :=
| LineFilterContains
| LineFilterExcludes
| LineFilterMatchRe
| LineFilterExcludeRe
| LineFilterContainsPat
| LineFilterExcludePat.

Definition LineFilterOp_String (o : LineFilterOp) : string :=
  match o with
  | LineFilterContains => "|="
  | LineFilterExcludes => "!="
  | LineFilterMatchRe => "|~"
  | LineFilterExcludeRe => "!~"
  | LineFilterContainsPat => "|>"
  | LineFilterExcludePat => "!>"
  end.

Inductive ParserType : Type :=
| ParserJSON
| ParserLogfmt
| ParserRegexp
| ParserPattern
| ParserUnpack.

Record ExtractionField : Type := mkField {
  ef_Name : string;
  ef_Expression : string
}.

Record DropMatcher : Type := mkDM {
  dm_Name : string;
  dm_Op : string;
  dm_Value : string
}.

Record LabelFormat : Type := mkFormat {
  lf_Name : string;
  lf_Value : string;
  lf_Rename : bool
}.

Inductive Stage : Type :=
| LineFilterStage (Op : LineFilterOp) (Value : string) (IP : bool) (Or : list string)
| ParserStage (Type_ : ParserType) (Param : string) (Fields : list ExtractionField)
| LabelFilterStage (Raw : string)
| DropStage (Labels : list string) (Matchers : list DropMatcher)
| KeepStage (Labels : list string) (Matchers : list DropMatcher)
| DecolorizeStage
| UnwrapStage (Label Converter : string)
| LineFormatStage (Template : string)
| LabelFormatStage (Raw : string) (Formats : list LabelFormat).

(** [LineFilterStage.Values]. *)
Definition Values (Value : string) (Or : list string) : list string := Value :: Or.

Definition LineFilterStage_String (op : LineFilterOp) (v : string) (ip : bool) (alts : list string)
    : string :=
  if ip then LineFilterOp_String op +:+ " ip(" +:+ Quote v +:+ ")"
  else
    foldl (λ out alt, out +:+ " or " +:+ Quote alt) (LineFilterOp_String op +:+ " " +:+ Quote v) alts.

Definition quoteParserArgument (value : string) : string :=
  if CanBackquote value then "`" +:+ value +:+ "`" else Quote value.

Definition ParserStage_String (t : ParserType) (param : string) : string :=
  match t with
  | ParserJSON => TrimSpace ("| json " +:+ param)
  | ParserLogfmt => TrimSpace ("| logfmt " +:+ param)
  | ParserRegexp => "| regexp " +:+ quoteParserArgument param
  | ParserPattern => "| pattern " +:+ quoteParserArgument param
  | ParserUnpack => "| unpack"
  end.

Definition DropMatcher_String (m : DropMatcher) : string :=
  dm_Name m +:+ dm_Op m +:+ Quote (dm_Value m).

Definition dropItems (labels : list string) (ms : list DropMatcher) : string :=
  Join ", " (labels ++ map DropMatcher_String ms).

Definition UnwrapStage_String (label converter : string) : string :=
  if String.eqb converter "" then "| unwrap " +:+ label
  else "| unwrap " +:+ converter +:+ "(" +:+ label +:+ ")".

Definition Stage_String (s : Stage) : string :=
  match s with
  | LineFilterStage op v ip alts => LineFilterStage_String op v ip alts
  | ParserStage t param _ => ParserStage_String t param
  | LabelFilterStage raw => "| " +:+ raw
  | DropStage labels ms => "| drop " +:+ dropItems labels ms
  | KeepStage labels ms => "| keep " +:+ dropItems labels ms
  | DecolorizeStage => "| decolorize"
  | UnwrapStage label conv => UnwrapStage_String label conv
  | LineFormatStage tmpl => "| line_format " +:+ Quote tmpl
  | LabelFormatStage raw _ => "| label_format " +:+ raw
  end.

Record LogQuery : Type := mkLQ {
  Selector : StreamSelector;
  Pipeline : list Stage
}.

Definition LogQuery_String (q : LogQuery) : string :=
  foldl (λ b s, b +:+ " " +:+ Stage_String s) (StreamSelector_String (Selector q)) (Pipeline q).

Record Grouping : Type := mkGrouping {
  Without : bool;
  g_Labels : list string
}.

Definition Grouping_String (g : Grouping) : string :=
  (if Without g then "without" else "by") +:+ " (" +:+ Join ", " (g_Labels g) +:+ ")".

Record VectorMatching : Type := mkVM {
  Card : string;
  MatchLabels : list string;
  GroupSide : string;
  Include : list string
}.

Definition VectorMatching_String (vm : option VectorMatching) : string :=
  match vm with
  | None => ""
  | Some vm =>
      let a := if String.eqb (Card vm) "" then ""
               else Card vm +:+ "(" +:+ Join ", " (MatchLabels vm) +:+ ")" in
      if String.eqb (GroupSide vm) "" then a
      else a +:+ (if String.eqb a "" then "" else " ") +:+ GroupSide vm +:+ "("
             +:+ Join ", " (Include vm) +:+ ")"
  end.

(** The operations are Go strings ([RangeOp], [VectorOp], the operator). *)
Inductive Expr : Type :=
| LogQueryExpr (q : LogQuery)
| RangeAggregation (Op : string) (Inner : Expr) (Range Offset : string) (Param : F)
    (HasParam : bool) (G : option Grouping)
| VectorAggregation (Op : string) (G : option Grouping) (Param : F) (HasParam : bool) (Inner : Expr)
| BinOpExpr (Left_ Right_ : Expr) (Op : string) (ReturnBool : bool) (VM : option VectorMatching)
| LiteralExpr (Value : F)
| OpaqueMetricExpr (Raw : string).

Definition isBinOp (e : Expr) : bool :=
  match e with
  | BinOpExpr _ _ _ _ _ => true
  | _ => false
  end.

Definition optGrouping (g : option Grouping) : string :=
  match g with
  | Some g => " " +:+ Grouping_String g
  | None => ""
  end.

Fixpoint Expr_String (e : Expr) : string :=
  match e with
  | LogQueryExpr q => LogQuery_String q
  | RangeAggregation op inner range offset param hasParam g =>
      let rangeStr := "[" +:+ range +:+ "]" +:+
        (if String.eqb offset "" then "" else " offset " +:+ offset) in
      let body := Expr_String inner +:+ rangeStr in
      let body := if hasParam then Format_g param +:+ "," +:+ body else body in
      op +:+ "(" +:+ body +:+ ")" +:+ optGrouping g
  | VectorAggregation op g param hasParam inner =>
      op +:+ optGrouping g +:+ " (" +:+ (if hasParam then Format_g param +:+ "," else "")
      +:+ Expr_String inner +:+ ")"
  | BinOpExpr l r op returnBool vm =>
      let paren e := if isBinOp e then "(" +:+ Expr_String e +:+ ")" else Expr_String e in
      let m := VectorMatching_String vm in
      paren l +:+ " " +:+ op +:+ (if returnBool then " bool" else "")
      +:+ (if String.eqb m "" then "" else " " +:+ m) +:+ " " +:+ paren r
  | LiteralExpr v => Format_g v
  | OpaqueMetricExpr raw => raw
  end.

Definition isStub (s : Stage) : bool :=
  match s with
  | UnwrapStage label _ => String.eqb label ""
  | _ => false
  end.

Definition StripIncompleteUnwrapStubs (lq : LogQuery) : LogQuery :=
  if existsb isStub (Pipeline lq)
  then mkLQ (Selector lq) (base.filter (λ s, isStub s = false) (Pipeline lq))
  else lq.

(** ** Constant tables (parser.go) *)

Definition vectorOps : list string :=
  ["sum"; "avg"; "min"; "max"; "count"; "stddev"; "stdvar"; "bottomk"; "topk"; "sort"; "sort_desc"].

Definition rangeOps : list string :=
  ["rate"; "count_over_time"; "bytes_rate"; "bytes_over_time"; "avg_over_time"; "sum_over_time";
   "min_over_time"; "max_over_time"; "stdvar_over_time"; "stddev_over_time"; "quantile_over_time";
   "first_over_time"; "last_over_time"; "absent_over_time"; "rate_counter"].

Definition isVectorOp (s : string) : bool := existsb (String.eqb s) vectorOps.
Definition isRangeOp (s : string) : bool := existsb (String.eqb s) rangeOps.

(** Stripping stubs keeps exactly the other stages, in order, and is idempotent. *)
Lemma strip_stubs_spec lq :
  Pipeline (StripIncompleteUnwrapStubs lq) = base.filter (λ s, isStub s = false) (Pipeline lq).
Proof.
  unfold StripIncompleteUnwrapStubs. destruct (existsb isStub (Pipeline lq)) eqn:E; [done|].
  symmetry. apply filter_all, Forall_forall. intros s Hs.
  destruct (isStub s) eqn:Hb; [|done].
  assert (existsb isStub (Pipeline lq) = true) as Ht; [|congruence].
  apply existsb_exists. exists s. split; [by apply list_elem_of_In|done].
Qed.

End Trees.
End Ast.
