(* ===== verification/LogqlFilter.v ===== *)
(** * Label-filter expressions (src/internal/logql/pipeline.go, from
      "label filter expressions" on)

    The proxy keeps a label filter as the raw text of its stage and parses it
    with a recursive-descent parser of its own.  [Filter.parseExpr] works on the
    rest of the text where the code works on a position; [src] is the whole text,
    which the error messages quote.  float64 arithmetic, [time.ParseDuration] and
    regular expressions are parameters. *)

From S2P Require Import Prelude GoText Utf8 LogqlAst.

#[local] Open Scope Z_scope.

(** float64 comparison and multiplication, and [time.ParseDuration] in seconds. *)
Class Numbers `{Floats} : Type := {
  Fmul : F → F → F;
  Flt : F → F → bool;
  Fle : F → F → bool;
  Feq : F → F → bool;
  ParseSeconds : string → option F
}.

(** Package regexp. *)
Class Regexps : Type := {
  RE : Type;
  re_compile : string → result RE;
  re_match : RE → string → bool
}.

Module Filter.
Import Text Utf8.

#[local] Open Scope string_scope.

(** ** Numbers *)

Section Filters.
Context `{Numbers} `{Regexps} `{Unicode}.

Definition byteUnitFactors : list (string * Z) :=
  [("KiB", 2 ^ 10); ("MiB", 2 ^ 20); ("GiB", 2 ^ 30); ("TiB", 2 ^ 40);
   ("kB", 1000); ("KB", 1000); ("MB", 1000000); ("GB", 1000000000); ("TB", 1000000000000);
   ("B", 1)].

Fixpoint byteSize (units : list (string * Z)) (s : string) : option F :=
  match units with
  | [] => None
  | (u, factor) :: units =>
      if HasSuffix s u then
        match ParseFloat (TrimSpace (TrimSuffix s u)) with
        | Ok f => Some (Fmul f (Fof_int factor))
        | Err _ => byteSize units s
        end
      else byteSize units s
  end.

Definition parseNumericLabel (s : string) : result F :=
  let s := TrimSpace s in
  if String.eqb s "" then Err "empty numeric value"
  else
    match ParseFloat s with
    | Ok f => Ok f
    | Err _ =>
        match byteSize byteUnitFactors s with
        | Some f => Ok f
        | None =>
            match ParseSeconds s with
            | Some f => Ok f
            | None => Err ("not a number, duration or byte size: " +:+ Quote s)
            end
        end
    end.

(** ** The tree and its meaning *)

Inductive labelFilter : Type :=
| labelFilterBinary (or : bool) (lhs rhs : labelFilter)
| labelFilterPred (name op str : string) (num : F) (numeric : bool).

(** [matchAnchored]: label-matcher regular expressions match the whole value. *)
Definition matchAnchored (pattern val : string) : bool :=
  match re_compile ("^(?:" +:+ pattern +:+ ")$") with
  | Ok re => re_match re val
  | Err _ => false
  end.

Definition evalNumeric (op : string) (got num : F) : bool :=
  if String.eqb op ">" then Flt num got
  else if String.eqb op ">=" then Fle num got
  else if String.eqb op "<" then Flt got num
  else if String.eqb op "<=" then Fle got num
  else if String.eqb op "==" || String.eqb op "=" then Feq got num
  else if String.eqb op "!=" then negb (Feq got num)
  else false.

Definition evalString (op val str : string) : bool :=
  if String.eqb op "=" || String.eqb op "==" then String.eqb val str
  else if String.eqb op "!=" then negb (String.eqb val str)
  else if String.eqb op "=~" then matchAnchored str val
  else if String.eqb op "!~" then negb (matchAnchored str val)
  else false.

Fixpoint eval (f : labelFilter) (l : gmap string string) : bool :=
  match f with
  | labelFilterBinary or lhs rhs =>
      if or then eval lhs l || eval rhs l else eval lhs l && eval rhs l
  | labelFilterPred name op str num numeric =>
      if numeric then
        match parseNumericLabel (default "" (l !! name)), l !! name with
        | Ok got, Some _ => evalNumeric op got num
        | _, _ => false
        end
      else evalString op (default "" (l !! name)) str
  end.

(** ** The parser *)

Inductive outcome (A : Type) : Type :=
| Done (a : A) (rest : string)
| Fail (msg : string)
| NoFuel.

Definition blank (a : Ascii.ascii) : bool := Ascii.eqb a " " || Ascii.eqb a "009".

Definition skipSpace (s : string) : string := (span blank s).2.

(** [hasWord] at the start of the rest, and what follows the word. *)
Definition hasWord (w s : string) : option string :=
  match strip_prefix w s with
  | None => None
  | Some r =>
      match r with
      | "" => Some r
      | String c _ => if blank c || Ascii.eqb c "(" then Some r else None
      end
  end.

Definition unescapeByte (c : Ascii.ascii) : Ascii.ascii :=
  if Ascii.eqb c "n" then "010"%char
  else if Ascii.eqb c "t" then "009"%char
  else if Ascii.eqb c "r" then "013"%char
  else c.

Fixpoint readQuoted (q : Ascii.ascii) (s : string) : option (string * string) :=
  match s with
  | "" => None
  | String c s' =>
      if Ascii.eqb c q then Some ("", s')
      else
        match s' with
        | String e s'' =>
            if Ascii.eqb q dquote && Ascii.eqb c bslash then
              match readQuoted q s'' with
              | Some (b, r) => Some (String (unescapeByte e) b, r)
              | None => None
              end
            else
              match readQuoted q s' with
              | Some (b, r) => Some (String c b, r)
              | None => None
              end
        | "" => None
        end
  end.

Definition isIdentByte (c : Ascii.ascii) : bool :=
  Ascii.eqb c "_" || within 97 122 c || within 65 90 c || within 48 57 c.

Definition name_byte (c : Ascii.ascii) : bool := isIdentByte c || Ascii.eqb c ".".

Definition lfOps : list string := [">="; "<="; "=="; "!="; "=~"; "!~"; ">"; "<"; "="].

Fixpoint find_op (ops : list string) (s : string) : option (string * string) :=
  match ops with
  | [] => None
  | op :: ops =>
      match strip_prefix op s with
      | Some r => Some (op, r)
      | None => find_op ops s
      end
  end.

Definition literal_byte (c : Ascii.ascii) : bool :=
  negb (Ascii.eqb c " " || Ascii.eqb c "," || Ascii.eqb c ")").

Arguments Done {A} a rest.
Arguments Fail {A} msg.
Arguments NoFuel {A}.

Section Text.
Context (src : string).

Definition parsePredicate (s : string) : outcome labelFilter :=
  let '(name, s) := span name_byte (skipSpace s) in
  if String.eqb name "" then Fail ("expected label name in label filter " +:+ Quote src)
  else
    match find_op lfOps (skipSpace s) with
    | None => Fail ("expected comparison operator after " +:+ Quote name +:+ " in label filter " +:+ Quote src)
    | Some (op, s) =>
        match skipSpace s with
        | "" => Fail ("missing value after " +:+ Quote op +:+ " in label filter " +:+ Quote src)
        | String q r =>
            if Ascii.eqb q dquote || Ascii.eqb q "`" then
              match readQuoted q r with
              | Some (val, r) => Done (labelFilterPred name op val (Fof_int 0) false) r
              | None => Fail ("unterminated string in label filter " +:+ Quote src)
              end
            else
              let '(lit, r) := span literal_byte (String q r) in
              match parseNumericLabel lit with
              | Ok num => Done (labelFilterPred name op "" num true) r
              | Err _ => Fail ("unsupported literal " +:+ Quote lit +:+ " in label filter " +:+ Quote src)
              end
        end
    end.

(** The connective at the start of the rest: whether it is [or], and what follows. *)
Definition connective (s : string) : option (bool * string) :=
  match strip_prefix "," s with
  | Some r => Some (false, r)
  | None =>
      match hasWord "and" s with
      | Some r => Some (false, r)
      | None =>
          match hasWord "or" s with
          | Some r => Some (true, r)
          | None => None
          end
      end
  end.

(** One round of the loop of [parseExpr] and one of [parseTerm], with the functions they call
    as arguments. *)
Section Rounds.
Context (rExpr rTerm : string → outcome labelFilter)
  (rLoop : labelFilter → string → outcome labelFilter).

Definition exprLoopRound (lhs : labelFilter) (s : string) : outcome labelFilter :=
  let s := skipSpace s in
  match connective s with
  | None => Done lhs s
  | Some (or, s) =>
      match rTerm s with
      | Done rhs s => rLoop (labelFilterBinary or lhs rhs) s
      | Fail msg => Fail msg
      | NoFuel => NoFuel
      end
  end.

Definition parseTermRound (s : string) : outcome labelFilter :=
  let s := skipSpace s in
  match strip_prefix "(" s with
  | Some s =>
      match rExpr s with
      | Done inner s =>
          match strip_prefix ")" (skipSpace s) with
          | Some s => Done inner s
          | None => Fail ("unbalanced parenthesis in label filter " +:+ Quote src)
          end
      | Fail msg => Fail msg
      | NoFuel => NoFuel
      end
  | None => parsePredicate s
  end.

End Rounds.

Fixpoint parseExpr (fuel : nat) (s : string) : outcome labelFilter :=
  match fuel with
  | O => NoFuel
  | S fuel =>
      match parseTerm fuel s with
      | Done lhs s => exprLoop fuel lhs s
      | Fail msg => Fail msg
      | NoFuel => NoFuel
      end
  end
with exprLoop (fuel : nat) (lhs : labelFilter) (s : string) : outcome labelFilter :=
  match fuel with
  | O => NoFuel
  | S fuel => exprLoopRound (parseTerm fuel) (exprLoop fuel) lhs s
  end
with parseTerm (fuel : nat) (s : string) : outcome labelFilter :=
  match fuel with
  | O => NoFuel
  | S fuel => parseTermRound (parseExpr fuel) s
  end.

End Text.

(** Three rounds per byte of the text are enough. *)
Definition filterFuel (raw : string) : nat := 3 * String.length raw + 3.

Definition parseLabelFilter (raw : string) : outcome labelFilter :=
  match parseExpr raw (filterFuel raw) raw with
  | Done f s =>
      let s := skipSpace s in
      if String.eqb s "" then Done f s
      else Fail ("unsupported label filter expression: " +:+ TrimSpace raw)
  | Fail msg => Fail msg
  | NoFuel => NoFuel
  end.

End Filters.

#[global] Arguments Done {A} a rest.
#[global] Arguments Fail {A} msg.
#[global] Arguments NoFuel {A}.

(** ** Termination *)

Section Total.
Context `{Numbers} `{Regexps} `{Unicode}.

Lemma skipSpace_length s : (String.length (skipSpace s) ≤ String.length s)%nat.
Proof. apply span_length. Qed.

Lemma strip_prefix_length p s t : strip_prefix p s = Some t →
  String.length s = (String.length p + String.length t)%nat.
Proof. intros ->%strip_prefix_spec. apply length_app_str. Qed.

Lemma connective_length s or r : connective s = Some (or, r) → (String.length r < String.length s)%nat.
Proof.
  unfold connective, hasWord. intros Hc.
  destruct (strip_prefix "," s) eqn:E1; [apply strip_prefix_length in E1; simplify_eq; cbn in E1; lia|].
  destruct (strip_prefix "and" s) as [r1|] eqn:E2;
    [apply strip_prefix_length in E2|]; destruct (strip_prefix "or" s) as [r2|] eqn:E3;
    try apply strip_prefix_length in E3; cbn [String.length] in *;
    repeat case_match; simplify_eq; cbn [String.length] in *; lia.
Qed.

Definition consed (c : Ascii.ascii) (x : option (string * string)) : option (string * string) :=
  match x with
  | Some (b, r) => Some (String c b, r)
  | None => None
  end.

Lemma readQuoted_cons q c s : readQuoted q (String c s) =
  if Ascii.eqb c q then Some ("", s)
  else
    match s with
    | "" => None
    | String e t =>
        if Ascii.eqb q dquote && Ascii.eqb c bslash then consed (unescapeByte e) (readQuoted q t)
        else consed c (readQuoted q s)
    end.
Proof. by destruct s. Qed.

Lemma readQuoted_length q s : ∀ v r, readQuoted q s = Some (v, r) → (String.length r < String.length s)%nat.
Proof.
  induction s as [s IH] using (well_founded_induction (well_founded_ltof string String.length)).
  unfold ltof in IH.
  destruct s as [|c s]; intros v r; [done|]. rewrite readQuoted_cons.
  destruct (Ascii.eqb c q); [intros [= <- <-]; cbn; lia|]. destruct s as [|e s]; [done|].
  case_match; unfold consed; case_match; [|done| |done]; case_match; intros [= <- <-];
    subst; match goal with E : readQuoted q ?x = _ |- _ => apply (IH x) in E; cbn in *; lia end.
Qed.

Lemma find_op_length ops s op r : find_op ops s = Some (op, r) → (String.length r ≤ String.length s)%nat.
Proof.
  induction ops as [|o ops IH]; [done|]. cbn [find_op]. destruct (strip_prefix o s) eqn:E; [|done].
  intros [= <- <-]. apply strip_prefix_length in E. lia.
Qed.

Lemma span_nonempty p s w r : span p s = (w, r) → w ≠ "" → (String.length r < String.length s)%nat.
Proof.
  intros E Hw. pose proof (span_join p s) as Hj. rewrite E in Hj. cbn [fst snd] in Hj.
  rewrite <- Hj, length_app_str. destruct w; [done|cbn; lia].
Qed.

(** A predicate ends, and consumes at least its label. *)
Lemma parsePredicate_ends src s : parsePredicate src s ≠ NoFuel ∧
  ∀ f r, parsePredicate src s = Done f r → (String.length r < String.length s)%nat.
Proof.
  unfold parsePredicate. destruct (span name_byte (skipSpace s)) as [name s1] eqn:E1.
  destruct (String.eqb_spec name "") as [|Hn]; [done|]. apply span_nonempty in E1; [|done].
  destruct (find_op lfOps (skipSpace s1)) as [[op s2]|] eqn:E2; [|done].
  apply find_op_length in E2. pose proof (skipSpace_length s). pose proof (skipSpace_length s1).
  pose proof (skipSpace_length s2). destruct (skipSpace s2) as [|q s3] eqn:E3; [done|].
  destruct (Ascii.eqb q dquote || Ascii.eqb q "`").
  - destruct (readQuoted q s3) as [[v s4]|] eqn:E4; [|done]. apply readQuoted_length in E4.
    split; [done|]. intros f r [= _ <-]. cbn in *. lia.
  - destruct (span literal_byte (String q s3)) as [lit s4] eqn:E4.
    pose proof (span_length literal_byte (String q s3)) as Hl. rewrite E4 in Hl. cbn [snd] in Hl.
    destruct (parseNumericLabel lit); [|done]. split; [done|]. intros f r [= _ <-]. lia.
Qed.

(** One round of each function. *)
Lemma parseExpr_S src fuel s : parseExpr src (S fuel) s =
  match parseTerm src fuel s with
  | Done lhs s => exprLoop src fuel lhs s
  | Fail msg => Fail msg
  | NoFuel => NoFuel
  end.
Proof. done. Qed.

Lemma exprLoop_S src fuel lhs s : exprLoop src (S fuel) lhs s =
  match connective (skipSpace s) with
  | None => Done lhs (skipSpace s)
  | Some (or, s) =>
      match parseTerm src fuel s with
      | Done rhs s => exprLoop src fuel (labelFilterBinary or lhs rhs) s
      | Fail msg => Fail msg
      | NoFuel => NoFuel
      end
  end.
Proof. done. Qed.

Lemma parseTerm_S src fuel s : parseTerm src (S fuel) s =
  match strip_prefix "(" (skipSpace s) with
  | Some s =>
      match parseExpr src fuel s with
      | Done inner s =>
          match strip_prefix ")" (skipSpace s) with
          | Some s => Done inner s
          | None => Fail ("unbalanced parenthesis in label filter " +:+ Quote src)
          end
      | Fail msg => Fail msg
      | NoFuel => NoFuel
      end
  | None => parsePredicate src (skipSpace s)
  end.
Proof. done. Qed.

Lemma filter_parse_ends src fuel :
  (∀ s, (3 * String.length s + 2 ≤ fuel)%nat → parseExpr src fuel s ≠ NoFuel ∧
     ∀ f r, parseExpr src fuel s = Done f r → (String.length r < String.length s)%nat) ∧
  (∀ l s, (3 * String.length s + 1 ≤ fuel)%nat → exprLoop src fuel l s ≠ NoFuel ∧
     ∀ f r, exprLoop src fuel l s = Done f r → (String.length r ≤ String.length s)%nat) ∧
  (∀ s, (3 * String.length s + 1 ≤ fuel)%nat → parseTerm src fuel s ≠ NoFuel ∧
     ∀ f r, parseTerm src fuel s = Done f r → (String.length r < String.length s)%nat).
Proof.
  induction fuel as [|fuel (IHe & IHl & IHt)]; [split_and!; intros; lia|]. split_and!.
  - intros s Hf. rewrite parseExpr_S. destruct (IHt s) as [Hn Hd]; [lia|].
    destruct (parseTerm src fuel s) as [x s1| |]; [|by split|by destruct Hn]. specialize (Hd _ _ eq_refl).
    destruct (IHl x s1) as [Hn' Hd']; [lia|]. split; [done|]. intros f r Hr. apply Hd' in Hr. lia.
  - intros l s Hf. rewrite exprLoop_S. pose proof (skipSpace_length s) as Hs.
    destruct (connective (skipSpace s)) as [[or s1]|] eqn:E.
    + apply connective_length in E. destruct (IHt s1) as [Hn Hd]; [lia|].
      destruct (parseTerm src fuel s1) as [x s2| |]; [|by split|by destruct Hn]. specialize (Hd _ _ eq_refl).
      destruct (IHl (labelFilterBinary or l x) s2) as [Hn' Hd']; [lia|].
      split; [done|]. intros f r Hr. apply Hd' in Hr. lia.
    + split; [done|]. intros f r [= _ <-]. done.
  - intros s Hf. rewrite parseTerm_S. pose proof (skipSpace_length s) as Hs.
    destruct (strip_prefix "(" (skipSpace s)) as [s1|] eqn:E.
    + apply strip_prefix_length in E. cbn in E. destruct (IHe s1) as [Hn Hd]; [lia|].
      destruct (parseExpr src fuel s1) as [x s2| |]; [|by split|by destruct Hn]. specialize (Hd _ _ eq_refl).
      pose proof (skipSpace_length s2). destruct (strip_prefix ")" (skipSpace s2)) as [s3|] eqn:E2; [|done].
      apply strip_prefix_length in E2. cbn in E2. split; [done|]. intros f r [= _ <-]. lia.
    + destruct (parsePredicate_ends src (skipSpace s)) as [Hn Hd]. split; [done|].
      intros f r Hr. apply Hd in Hr. lia.
Qed.

(** The label-filter parser ends on every text with a tree or an error message:
    its recursion needs at most three rounds per byte. *)
Theorem label_filter_total raw : parseLabelFilter raw ≠ NoFuel.
Proof.
  unfold parseLabelFilter, filterFuel. destruct (filter_parse_ends raw (3 * String.length raw + 3)) as (He & _).
  destruct (He raw) as [Hn _]; [lia|]. destruct (parseExpr _ _ raw) as [f s| |]; [|done..]. by case_match.
Qed.

End Total.

(** ** Round trip *)

(** A filter as written: quoted values as [strconv.Quote] writes them, numeric
    literals by their text. *)
Section Syntax.
Context `{Numbers} `{Regexps} `{Unicode}.

Inductive syn : Type :=
| Str (name op v : string)
| Num (name op lit : string) (num : F)
| Bin (or : bool) (x y : syn).

Fixpoint tree (x : syn) : labelFilter :=
  match x with
  | Str name op v => labelFilterPred name op v (Fof_int 0) false
  | Num name op lit num => labelFilterPred name op "" num true
  | Bin or x y => labelFilterBinary or (tree x) (tree y)
  end.

(** Printing without redundant parentheses: the connectives associate to the left
    at one precedence level. *)
Fixpoint text (x : syn) : string :=
  match x with
  | Str name op v => name +:+ op +:+ Quote v
  | Num name op lit _ => name +:+ op +:+ lit
  | Bin or x y =>
      text x +:+ (if or then " or " else " and ") +:+
        match y with
        | Bin _ _ _ => "(" +:+ text y +:+ ")"
        | _ => text y
        end
  end.

Definition term (y : syn) : string :=
  match y with
  | Bin _ _ _ => "(" +:+ text y +:+ ")"
  | _ => text y
  end.

(** Bytes that [strconv.Quote] writes as themselves or with one of the escapes
    that [readQuoted] undoes. *)
Definition plain_byte (a : Ascii.ascii) : bool :=
  within 32 126 a || Ascii.eqb a "009" || Ascii.eqb a "010" || Ascii.eqb a "013".

Definition good_name (n : string) : Prop := n ≠ "" ∧ all_bytes_of name_byte n = true.

Definition good_literal (lit : string) (num : F) : Prop :=
  lit ≠ "" ∧ all_bytes_of literal_byte lit = true ∧ parseNumericLabel lit = Ok num ∧
  starts_with (λ c, blank c || Ascii.eqb c dquote || Ascii.eqb c "`" || Ascii.eqb c "=" || Ascii.eqb c "~") lit = false.

Fixpoint good (x : syn) : Prop :=
  match x with
  | Str name op v => good_name name ∧ op ∈ lfOps ∧ all_bytes_of plain_byte v = true
  | Num name op lit num => good_name name ∧ op ∈ lfOps ∧ good_literal lit num
  | Bin _ x y => good x ∧ good y
  end.

End Syntax.

Section Roundtrip.
Context `{Numbers} `{Regexps} `{UnicodeLaws}.

Lemma skipSpace_id s : starts_with blank s = false → skipSpace s = s.
Proof. intros Hs. unfold skipSpace. change s with ("" +:+ s) at 1. by rewrite span_app. Qed.

Lemma skipSpace_blank s : skipSpace (" " +:+ s) = skipSpace s.
Proof.
  unfold skipSpace. change (" " +:+ s) with (String " " s). cbn [span].
  change (blank " ") with true. by destruct (span blank s).
Qed.

Lemma DecodeRune_ascii a s : (b2z a < 128)%Z → DecodeRune (String a s) = (b2z a, 1%nat).
Proof. intros Ha. unfold DecodeRune. cbv zeta. rewrite (proj2 (Z.ltb_lt _ _)); [done|lia]. Qed.

Lemma b2z_eqb a c : Ascii.eqb a c = (b2z a =? b2z c)%Z.
Proof.
  destruct (Ascii.eqb_spec a c) as [->|Hne]; [by rewrite Z.eqb_refl|].
  symmetry. apply Z.eqb_neq. intros E. apply Hne. by rewrite <- (z2b_b2z a), E, z2b_b2z.
Qed.

Lemma readQuoted_verbatim c t : c ≠ dquote → c ≠ bslash →
  readQuoted dquote (String c t) = consed c (readQuoted dquote t).
Proof.
  intros Hv1 Hv2. rewrite readQuoted_cons. rewrite (proj2 (Ascii.eqb_neq c dquote) Hv1).
  destruct t as [|e t]; [done|]. by rewrite (proj2 (Ascii.eqb_neq c bslash) Hv2), andb_false_r.
Qed.

Lemma readQuoted_escaped e t :
  readQuoted dquote (String bslash (String e t)) = consed (unescapeByte e) (readQuoted dquote t).
Proof. by rewrite readQuoted_cons. Qed.

Lemma plain_escape a t : plain_byte a = true →
  readQuoted dquote (escapedRune (b2z a) +:+ t) = consed a (readQuoted dquote t).
Proof.
  intros Ha. unfold plain_byte in Ha. rewrite !orb_true_iff, within_spec, !b2z_eqb, !Z.eqb_eq in Ha.
  change (b2z "009") with 9 in Ha. change (b2z "010") with 10 in Ha. change (b2z "013") with 13 in Ha.
  pose proof (b2z_range a) as Hr. unfold escapedRune.
  destruct (Z.eqb_spec (b2z a) 34) as [E|N1]; [|destruct (Z.eqb_spec (b2z a) 92) as [E|N2]]; cbn [orb].
  1,2: rewrite E; cbn [bytes]; unfold escape; rewrite !app_str_cons; change ("" +:+ t) with t;
    rewrite readQuoted_escaped; f_equal; rewrite <- (z2b_b2z a), E; done.
  assert (a ≠ dquote) as Hq by (by intros ->). assert (a ≠ bslash) as Hb by (by intros ->).
  rewrite IsPrint_ascii by lia.
  destruct ((32 <=? b2z a)%Z && (b2z a <=? 126)%Z) eqn:Hp.
  { apply andb_true_iff in Hp as [?%Z.leb_le ?%Z.leb_le]. rewrite EncodeRune_ascii by lia. cbn [bytes].
    rewrite z2b_b2z, app_str_cons. change ("" +:+ t) with t. by apply readQuoted_verbatim. }
  apply andb_false_iff in Hp as [?%Z.leb_gt|?%Z.leb_gt]; destruct Ha as [[[Ha|Ha]|Ha]|Ha]; try lia;
    rewrite Ha; cbn [Z.eqb Pos.eqb]; unfold escape; rewrite !app_str_cons; change ("" +:+ t) with t;
    rewrite readQuoted_escaped; f_equal; rewrite <- (z2b_b2z a), Ha; done.
Qed.

Lemma quoteRune_plain a s : plain_byte a = true → quoteRune (String a s) = (escapedRune (b2z a), 1%nat).
Proof.
  intros Ha. unfold plain_byte in Ha. rewrite !orb_true_iff, within_spec, !b2z_eqb, !Z.eqb_eq in Ha.
  change (b2z "009") with 9 in Ha. change (b2z "010") with 10 in Ha. change (b2z "013") with 13 in Ha.
  unfold quoteRune. rewrite DecodeRune_ascii by lia.
  rewrite (proj2 (Z.eqb_neq (b2z a) RuneError)) by (unfold RuneError; lia). done.
Qed.

(** What [strconv.Quote] writes for a plain value reads back. *)
Lemma readQuoted_Quote v t : all_bytes_of plain_byte v = true → ∀ n, (String.length v ≤ n)%nat →
  readQuoted dquote (quote_loop n v +:+ String dquote t) = Some (v, t).
Proof.
  induction v as [|a v IH]; intros Hv n Hn.
  - destruct n; cbn [quote_loop]; change ("" +:+ String dquote t) with (String dquote t); by rewrite readQuoted_cons.
  - destruct n as [|n]; [cbn in Hn; lia|]. cbn [all_bytes_of] in Hv. apply andb_true_iff in Hv as [Ha Hv].
    cbn [quote_loop]. rewrite (quoteRune_plain a v Ha). cbn [suffix]. rewrite append_assoc, plain_escape by done.
    rewrite IH; [done|done|cbn in Hn; lia].
Qed.

Lemma Quote_app v t : Quote v +:+ t = String dquote (quote_loop (String.length v) v +:+ String dquote t).
Proof. unfold Quote. by rewrite app_str_cons, append_assoc. Qed.

(** ** Predicates *)

Lemma name_no_blank n t : good_name n → starts_with blank (n +:+ t) = false.
Proof.
  intros [Hn Ha]. destruct n as [|a n]; [done|]. rewrite app_str_cons. cbn in *.
  apply andb_true_iff in Ha as [Ha _]. unfold blank. destruct (Ascii.eqb_spec a " ") as [->|]; [done|].
  by destruct (Ascii.eqb_spec a "009") as [->|].
Qed.

Lemma name_no_paren n t : good_name n → strip_prefix "(" (n +:+ t) = None.
Proof.
  intros [Hn Ha]. destruct n as [|a n]; [done|]. rewrite app_str_cons. cbn in Ha.
  apply andb_true_iff in Ha as [Ha _]. cbn [strip_prefix]. by destruct (Ascii.eqb_spec "(" a) as [<-|].
Qed.

Lemma op_find op t : op ∈ lfOps → starts_with (λ c, Ascii.eqb c "=" || Ascii.eqb c "~") t = false →
  find_op lfOps (op +:+ t) = Some (op, t) ∧ starts_with name_byte (op +:+ t) = false ∧
  starts_with blank (op +:+ t) = false.
Proof.
  intros Hop Ht. split_and!.
  - unfold lfOps in *. rewrite !elem_of_cons, elem_of_nil in Hop. destruct t as [|c t].
    { destruct_or! Hop; subst; done. }
    cbn in Ht. apply orb_false_iff in Ht as [Ht1 Ht2]. rewrite Ascii.eqb_sym in Ht1, Ht2.
    destruct_or! Hop; subst op;
      rewrite ?app_str_cons; change ("" +:+ ?x) with x; cbn [find_op strip_prefix];
      rewrite ?Ht1, ?Ht2; reflexivity.
  - unfold lfOps in Hop. rewrite !elem_of_cons, elem_of_nil in Hop. destruct_or! Hop; subst; done.
  - unfold lfOps in Hop. rewrite !elem_of_cons, elem_of_nil in Hop. destruct_or! Hop; subst; done.
Qed.

Lemma predicate_value src name op val t : good_name name → op ∈ lfOps →
  starts_with (λ c, Ascii.eqb c "=" || Ascii.eqb c "~") val = false → starts_with blank val = false → val ≠ "" →
  parsePredicate src (name +:+ op +:+ val +:+ t) =
    match val +:+ t with
    | "" => Fail ("missing value after " +:+ Quote op +:+ " in label filter " +:+ Quote src)
    | String q r =>
        if Ascii.eqb q dquote || Ascii.eqb q "`" then
          match readQuoted q r with
          | Some (val, r) => Done (labelFilterPred name op val (Fof_int 0) false) r
          | None => Fail ("unterminated string in label filter " +:+ Quote src)
          end
        else
          let '(lit, r) := span literal_byte (String q r) in
          match parseNumericLabel lit with
          | Ok num => Done (labelFilterPred name op "" num true) r
          | Err _ => Fail ("unsupported literal " +:+ Quote lit +:+ " in label filter " +:+ Quote src)
          end
    end.
Proof.
  intros Hn Hop Hv1 Hv2 Hv3. unfold parsePredicate. rewrite skipSpace_id by (by apply name_no_blank).
  assert (starts_with (λ c, Ascii.eqb c "=" || Ascii.eqb c "~") (val +:+ t) = false) as Hv1' by (by destruct val).
  destruct (op_find op (val +:+ t) Hop Hv1') as (Hf & Hb & Hs).
  rewrite span_app by (done || apply Hn). destruct Hn as [Hn _].
  rewrite (proj2 (String.eqb_neq name "") Hn), (skipSpace_id _ Hs), Hf.
  rewrite (skipSpace_id (val +:+ t)) by (by destruct val). done.
Qed.

(** Where a literal ends. *)
Definition stops (t : string) : Prop := starts_with literal_byte t = false.

Definition is_leaf (x : syn) : bool := match x with Bin _ _ _ => false | _ => true end.

Lemma leaf_reads src x t : is_leaf x = true → good x → stops t → parsePredicate src (text x +:+ t) = Done (tree x) t.
Proof.
  destruct x as [name op v|name op lit num|]; [..|done]; intros _; cbn [good text tree].
  - intros (Hn & Hop & Hpv) _. rewrite !append_assoc, predicate_value by done.
    rewrite Quote_app. by rewrite readQuoted_Quote.
  - intros (Hn & Hop & Hne & Hl & Hp & Hs) Ht. rewrite !append_assoc.
    assert (starts_with blank lit = false ∧ starts_with (λ c, Ascii.eqb c "=" || Ascii.eqb c "~") lit = false ∧
      starts_with (λ c, Ascii.eqb c dquote || Ascii.eqb c "`") lit = false) as (Hb1 & Hb2 & Hb3).
    { destruct lit as [|c lit]; [done|]. cbn [starts_with] in Hs |- *.
      rewrite !orb_false_iff in Hs. destruct Hs as [[[[Hs1 Hs2] Hs3] Hs4] Hs5].
      by rewrite Hs1, Hs2, Hs3, Hs4, Hs5. }
    rewrite predicate_value by done. destruct lit as [|c lit]; [done|]. rewrite app_str_cons. cbn [starts_with] in Hb3. rewrite Hb3.
    change (String c (lit +:+ t)) with (String c lit +:+ t). rewrite span_app by done. by rewrite Hp.
Qed.

Lemma leaf_head x t : good x → starts_with blank (text x +:+ t) = false ∧ strip_prefix "(" (text x +:+ t) = None.
Proof.
  intros Hx. revert t. induction x as [name op v|name op lit num|or x IHx y IHy]; intros t; cbn [text good] in *.
  3: rewrite append_assoc; apply IHx, Hx.
  all: rewrite append_assoc; destruct Hx as (Hn & _); split; [by apply name_no_blank|by apply name_no_paren].
Qed.

(** The rounds a filter needs. *)
Fixpoint cost (x : syn) : nat :=
  match x with
  | Bin _ x y => cost x + cost y + 3
  | _ => 3
  end.

Definition expr_reads (src : string) (x : syn) : Prop := ∀ fuel t, (cost x ≤ fuel)%nat → stops t →
  ∃ fuel', (fuel ≤ fuel' + cost x)%nat ∧ (1 ≤ fuel')%nat ∧
    parseExpr src fuel (text x +:+ t) = exprLoop src fuel' (tree x) t.

Lemma leaf_term src x t fuel s : is_leaf x = true → good x → stops t → (1 ≤ fuel)%nat →
  skipSpace s = text x +:+ t → parseTerm src fuel s = Done (tree x) t.
Proof.
  intros Hl Hx Ht Hf Hs. destruct fuel as [|fuel]; [lia|]. rewrite parseTerm_S, Hs.
  destruct (leaf_head x t Hx) as [_ ->]. by apply leaf_reads.
Qed.

Lemma term_reads src y fuel t s : good y → expr_reads src y → (cost y + 2 ≤ fuel)%nat → stops t →
  skipSpace s = term y +:+ t → parseTerm src fuel s = Done (tree y) t.
Proof.
  intros Hy HE Hf Ht Hs. destruct (is_leaf y) eqn:Hl.
  { apply leaf_term; [done..|lia|]. by destruct y. }
  destruct y as [| |or x y]; [done..|]. unfold term in Hs. destruct fuel as [|fuel]; [lia|].
  rewrite parseTerm_S, Hs, !append_assoc, app_str_cons. change ("" +:+ ?z) with z. cbn [strip_prefix Ascii.eqb Bool.eqb].
  destruct (HE fuel (")" +:+ t)) as (fuel' & _ & Hf' & ->); [lia|done|].
  destruct fuel' as [|fuel']; [lia|]. rewrite exprLoop_S, skipSpace_id by done.
  change (connective (")" +:+ t)) with (@None (bool * string)). cbv iota beta.
  rewrite skipSpace_id by done. done.
Qed.

Lemma text_reads src x : good x → expr_reads src x.
Proof.
  assert (∀ x, is_leaf x = true → good x → expr_reads src x) as Hleaf.
  { intros z Hl Hz fuel t Hf Ht. assert (cost z = 3)%nat by (by destruct z). destruct fuel as [|fuel]; [lia|].
    exists fuel. split_and!; [lia..|]. rewrite parseExpr_S. rewrite (leaf_term src z t); [done..|lia|].
    apply skipSpace_id. by apply leaf_head. }
  induction x as [| |or x IHx y IHy]; [by apply Hleaf..|]. intros [Hx Hy] fuel t Hf Ht. cbn [cost] in Hf.
  specialize (IHx Hx). specialize (IHy Hy).
  set (conn := if or then " or " else " and ").
  assert (text (Bin or x y) +:+ t = text x +:+ (conn +:+ term y +:+ t)) as ->
    by (cbn [text]; by rewrite !append_assoc).
  destruct (IHx fuel (conn +:+ term y +:+ t)) as (f1 & Hf1 & _ & ->); [lia|by destruct or|].
  destruct f1 as [|f1]; [lia|]. exists f1. split_and!; [cbn [cost]; lia|lia|].
  rewrite exprLoop_S. unfold conn.
  assert (skipSpace ((if or then " or " else " and ") +:+ term y +:+ t) =
    (if or then "or " else "and ") +:+ term y +:+ t) as -> by (by destruct or).
  assert (connective ((if or then "or " else "and ") +:+ term y +:+ t) = Some (or, " " +:+ term y +:+ t)) as ->
    by (by destruct or).
  rewrite (term_reads src y f1 t); [done|done|done|lia|done|].
  rewrite skipSpace_blank. apply skipSpace_id.
  destruct y; [apply (leaf_head (Str _ _ _) t Hy)|apply (leaf_head (Num _ _ _ _) t Hy)|done].
Qed.

Lemma text_length x : good x → (cost x ≤ String.length (text x))%nat.
Proof.
  induction x as [name op v|name op lit num|or x IHx y IHy]; cbn [good text cost]; rewrite ?length_app_str.
  - intros ([Hn _] & Hop & _). unfold Quote. cbn [String.length]. rewrite length_app_str.
    destruct name; [done|]. cbn [String.length]. lia.
  - intros ([Hn _] & Hop & Hl & _). destruct name; [done|]. destruct lit; [done|].
    assert (op ≠ "") by (intros ->; unfold lfOps in Hop; rewrite !elem_of_cons, elem_of_nil in Hop; naive_solver).
    destruct op; [done|]. cbn [String.length]. lia.
  - intros [Hx Hy]. specialize (IHx Hx). specialize (IHy Hy).
    destruct or, y; rewrite ?length_app_str; cbn [String.length cost] in *; lia.
Qed.

Lemma filter_reads x s : good x → s = text x → parseLabelFilter s = Done (tree x) "".
Proof.
  intros Hx ->. unfold parseLabelFilter, filterFuel. pose proof (text_length x Hx) as Hl.
  destruct (text_reads (text x) x Hx (3 * String.length (text x) + 3)%nat "") as (f' & _ & Hf' & E); [lia|done|].
  rewrite append_nil_r in E. rewrite E. destruct f' as [|f']; [lia|]. done.
Qed.

Lemma filter_single raw f : starts_with blank raw = false → strip_prefix "(" raw = None →
  parsePredicate raw raw = Done f "" → parseLabelFilter raw = Done f "".
Proof.
  intros Hb Hs Hp. unfold parseLabelFilter, filterFuel. rewrite Nat.add_comm. cbn [Nat.add].
  rewrite parseExpr_S, parseTerm_S, skipSpace_id, Hs, Hp by done. done.
Qed.


(** The connectives have one precedence level: in [p or q and r] the code
    evaluates [(p or q) and r], where LogQL binds [and] tighter. *)
Theorem and_does_not_bind_tighter p q r l :
  is_leaf p = true → is_leaf q = true → is_leaf r = true → good p → good q → good r →
  ∃ f, parseLabelFilter (text p +:+ " or " +:+ text q +:+ " and " +:+ text r) = Done f "" ∧
    eval f l = (eval (tree p) l || eval (tree q) l) && eval (tree r) l.
Proof.
  intros Lp Lq Lr Hp Hq Hr. exists (tree (Bin false (Bin true p q) r)). split; [|done].
  apply filter_reads; [done|].
  cbn [text]. rewrite !append_assoc. destruct q, r; done.
Qed.

(** A control character in a quoted value is compared as the letter of its
    escape: the LogQL parser hands the value on as [strconv.Quote] writes it, and
    [readQuoted] does not undo [\a], [\b], [\f], [\v], [\x] or [\u]. *)
Theorem control_character_garbled name : good_name name →
  parseLabelFilter (name +:+ "=" +:+ Quote (String "007" "")) =
    Done (labelFilterPred name "=" "a" (Fof_int 0) false) "".
Proof.
  intros Hn. assert (Quote (String "007" "") = String dquote (String bslash (String "a" (String dquote "")))) as ->.
  { unfold Quote. cbn [String.length quote_loop]. unfold quoteRune. rewrite DecodeRune_ascii by done.
    change (b2z "007") with 7%Z. unfold escapedRune. rewrite IsPrint_ascii by lia. reflexivity. }
  set (val := String dquote _). assert ("=" ∈ lfOps) as Hop by (unfold lfOps; set_solver).
  apply filter_single.
  - by apply name_no_blank.
  - by apply name_no_paren.
  - rewrite <- (append_nil_r val) at 2. by rewrite predicate_value.
Qed.

End Roundtrip.

(** ** Witnesses: integers for floats, no regular expressions. *)

Module FilterDemo.

#[local] Instance ascii_tables : Unicode := {|
  IsLetter r := ((65 <=? r)%Z && (r <=? 90)%Z) || ((97 <=? r)%Z && (r <=? 122)%Z);
  IsDigit r := (48 <=? r)%Z && (r <=? 57)%Z;
  IsPrint r := (32 <=? r)%Z && (r <=? 126)%Z
|}.

#[local] Instance ascii_laws : UnicodeLaws.
Proof.
  split; try done. intros r. cbn.
  rewrite orb_true_iff, !andb_true_iff, !Z.leb_le, andb_false_iff, !Z.leb_gt. lia.
Qed.

#[local] Instance integers : Floats := {|
  F := Z;
  ParseFloat s := match Atoi s with Some z => Ok z | None => Err "invalid syntax" end;
  Fneg := Z.opp;
  Fof_int z := z;
  Format_g z := Itoa z
|}.

#[local] Instance integer_order : Numbers := {|
  Fmul := Z.mul;
  Flt := Z.ltb;
  Fle := Z.leb;
  Feq := Z.eqb;
  ParseSeconds s := None
|}.

#[local] Instance no_regexps : Regexps := {|
  RE := unit;
  re_compile _ := Err "unsupported";
  re_match _ _ := false
|}.

Definition a1 : syn := Str "a" "=" "1".
Definition b2 : syn := Str "b" "!=" (String dquote (String "010" "")).
Definition c3 : @syn integers := @Num integers "c.d" ">=" "3KB" 3000%Z.

Lemma leaves_good : good a1 ∧ good b2 ∧ good c3.
Proof. vm_compute. split_and!; try done; repeat constructor. Qed.


(** At a = 1 and nothing else, [a="1" or b!=x and c>=3KB] is false here. *)
Lemma and_does_not_bind_tighter_witness :
  ∃ f, parseLabelFilter (text a1 +:+ " or " +:+ text b2 +:+ " and " +:+ text c3) = Done f "" ∧
    eval f {[ "a" := "1" ]} = false.
Proof.
  destruct leaves_good as (Ha & Hb & Hc).
  refine (and_does_not_bind_tighter a1 b2 c3 {[ "a" := "1" ]} _ _ _ Ha Hb Hc); reflexivity.
Defined.

Lemma control_character_garbled_witness :
  parseLabelFilter ("x" +:+ "=" +:+ Quote (String "007" "")) =
    Done (labelFilterPred "x" "=" "a" 0%Z false) "".
Proof. refine (control_character_garbled "x" _). by vm_compute. Defined.

End FilterDemo.

End Filter.
