(* ===== verification/LogqlPipeline.v ===== *)
(** * Log pipelines evaluated by the proxy (src/internal/logql/pipeline.go)

    An entry is a line with labels; [Pipe.Process] runs the stages over it and says
    whether it survives.  Label maps are [gmap]s; where the code ranges over a Go
    map, [map_to_list] is one of the orders the runtime may choose, and the
    functions that depend on the order take the list.  The Go template engine,
    encoding/json and regexp are parameters; label filters are [LogqlFilter.v]. *)

From S2P Require Import Prelude GoText Utf8 LogqlAst LogqlFilter.

#[local] Open Scope Z_scope.

(** encoding/json values, objects as their members. *)
Inductive json `{Floats} : Type :=
| JNull
| JBool (b : bool)
| JNumber (f : F)
| JString (s : string)
| JArray (l : list json)
| JObject (l : list (string * json)).

Class Json `{Floats} : Type := {
  Unmarshal : string → result json;
  Marshal : json → string;
  FormatFloat_f : F → string
}.

(** Groups of a regular expression: the names and the groups of a match. *)
Class Captures `{Regexps} : Type := {
  re_names : RE → list string;
  re_submatch : RE → string → option (list string)
}.

(** Compiled templates; a template that does not compile fails the query
    ([Fatal]: an unknown function, or a constant over budget) or only its stage
    ([Malformed]). *)
Inductive compiled (T : Type) : Type :=
| Compiled (t : T)
| Fatal (msg : string)
| Malformed.
Arguments Compiled {T} t.
Arguments Fatal {T} msg.
Arguments Malformed {T}.

Class Templates : Type := {
  Tmpl : Type;
  ParseTemplate : string → compiled Tmpl;
  tmpl_Exec : Tmpl → gmap string string → string → Z → result string
}.

Module Pipe.
Import Text Utf8 Ast Filter.

(** ** Compile caches *)

Definition compileCacheMaxEntries : nat := 1024.

Section Cache.
Context {T : Type}.

Definition cache_get (key : string) (m : gmap string T) : option T := m !! key.

Definition cache_put (key : string) (v : T) (m : gmap string T) : gmap string T :=
  if (compileCacheMaxEntries <=? size m)%nat then m else <[key := v]> m.

(** The pattern of use: look up, compile on a miss, keep what compiled. *)
Definition cached (compile : string → result T) (key : string) (m : gmap string T)
    : result T * gmap string T :=
  match cache_get key m with
  | Some v => (Ok v, m)
  | None =>
      match compile key with
      | Ok v => (Ok v, cache_put key v m)
      | Err e => (Err e, m)
      end
  end.

End Cache.

(** ** Label names *)

Definition letter_byte (c : Ascii.ascii) : bool :=
  Ascii.eqb c "_" || within 97 122 c || within 65 90 c.

Definition digit_byte (c : Ascii.ascii) : bool := within 48 57 c.

(** The first loop: [first] at index 0. *)
Fixpoint legal_loop (first : bool) (s : string) : bool :=
  match s with
  | "" => true
  | String c s => (letter_byte c || (digit_byte c && negb first)) && legal_loop false s
  end.

(** The second loop: [start] while nothing has been written. *)
Fixpoint replace_loop (start : bool) (s : string) : string :=
  match s with
  | "" => ""
  | String c s =>
      String (if letter_byte c then c else if digit_byte c && negb start then c else "_"%char)
        (replace_loop false s)
  end.

Definition sanitizeLabel (s : string) : string :=
  if legal_loop true s && negb (String.eqb s "") then s else replace_loop true s.

(** ** logfmt *)

Definition key_byte (c : Ascii.ascii) : bool :=
  negb (Ascii.eqb c "=" || blank c).

(** The quoted value up to its closing quote, or to the end of the line. *)
Fixpoint logfmtQuoted (s : string) : string * string :=
  match s with
  | "" => ("", "")
  | String c s' =>
      if Ascii.eqb c dquote then ("", s')
      else
        match s' with
        | "" => (String c "", "")
        | String e s'' =>
            if Ascii.eqb c bslash then
              let '(b, r) := logfmtQuoted s'' in (String (unescapeByte e) b, r)
            else
              let '(b, r) := logfmtQuoted s' in (String c b, r)
        end
  end.

Definition tail (s : string) : string := match s with "" => "" | String _ s => s end.

Fixpoint logfmtLoop (fuel : nat) (line : string) (out : gmap string string) : gmap string string :=
  match fuel with
  | O => out
  | S fuel =>
      match line with
      | "" => out
      | _ =>
          let '(key, s) := span key_byte (skipSpace line) in
          if String.eqb key "" then logfmtLoop fuel (tail s) out
          else
            match strip_prefix "=" s with
            | None => logfmtLoop fuel s (<[key := ""]> out)
            | Some s =>
                match strip_prefix (String dquote "") s with
                | Some s =>
                    let '(v, s) := logfmtQuoted s in logfmtLoop fuel s (<[key := v]> out)
                | None =>
                    let '(v, s) := span (λ c, negb (blank c)) s in
                    logfmtLoop fuel s (<[key := v]> out)
                end
            end
      end
  end.

(** Every round consumes a byte. *)
Definition parseLogfmt (line : string) : gmap string string :=
  logfmtLoop (String.length line) line ∅.

(** ** Patterns *)

(** One element of a compiled [| pattern]; the capture [<_>] has no name. *)
Inductive patternPart : Type :=
| PLiteral (literal : string)
| PCapture (capture : string).

(** A capture at the start of the text, [<name>], and what follows it. *)
Definition captureAt (s : string) : option (string * string) :=
  match strip_prefix "<" s with
  | None => None
  | Some s =>
      let '(name, s) := span isIdentByte s in
      if starts_with letter_byte name then
        match strip_prefix ">" s with
        | Some s => Some (name, s)
        | None => None
        end
      else None
  end.

(** [patternCaptureRE.FindAllStringSubmatchIndex]: the text before the first
    capture, its name, and the text after it. *)
Fixpoint nextCapture (s : string) : option (string * string * string) :=
  match captureAt s with
  | Some (name, r) => Some ("", name, r)
  | None =>
      match s with
      | "" => None
      | String c s =>
          match nextCapture s with
          | Some (lit, name, r) => Some (String c lit, name, r)
          | None => None
          end
      end
  end.

Definition last_is_capture (parts : list patternPart) : bool :=
  match last parts with
  | Some (PCapture _) => true
  | _ => false
  end.

(** The loop over the captures; [seen] are the names so far. *)
Fixpoint patternLoop (fuel : nat) (pat s : string) (parts : list patternPart) (seen : list string)
    : result (list patternPart) :=
  match fuel with
  | O => Err "fuel"
  | S fuel =>
      match nextCapture s with
      | None =>
          let parts := if String.eqb s "" then parts else parts ++ [PLiteral s] in
          match seen with
          | [] => Err ("invalid pattern " +:+ pat +:+ ": at least one capture is required")
          | _ => Ok parts
          end
      | Some (lit, name, r) =>
          if String.eqb lit "" && last_is_capture parts
          then Err ("invalid pattern " +:+ pat +:+ ": consecutive captures are not allowed")
          else
            let parts := if String.eqb lit "" then parts else parts ++ [PLiteral lit] in
            if String.eqb name "_" then patternLoop fuel pat r (parts ++ [PCapture ""]) seen
            else if bool_decide (name ∈ seen)
            then Err ("invalid pattern " +:+ pat +:+ ": duplicate capture name (" +:+ name +:+ ")")
            else patternLoop fuel pat r (parts ++ [PCapture name]) (name :: seen)
      end
  end.

(** [strings.Index]: the text before the first occurrence and the text after it. *)
Fixpoint cutAt (lit s : string) : option (string * string) :=
  match strip_prefix lit s with
  | Some r => Some ("", r)
  | None =>
      match s with
      | "" => None
      | String c s =>
          match cutAt lit s with
          | Some (b, r) => Some (String c b, r)
          | None => None
          end
      end
  end.

Definition setCapture (name v : string) (out : gmap string string) : gmap string string :=
  if String.eqb name "" then out else <[name := v]> out.

(** The loop of [match]: a capture and the literal after it per round. *)
Fixpoint matchLoop (parts : list patternPart) (inp : string) (out : gmap string string) : gmap string string :=
  match parts with
  | [] => out
  | [PCapture name] => setCapture name inp out
  | PCapture name :: PLiteral lit :: parts =>
      match cutAt lit inp with
      | None => setCapture name inp out
      | Some (v, inp) => matchLoop parts inp (setCapture name v out)
      end
  | _ => out
  end.

Definition patternMatch (parts : list patternPart) (inp : string) (out : gmap string string)
    : gmap string string :=
  match parts with
  | PLiteral lit :: parts =>
      match strip_prefix lit inp with
      | None => out
      | Some inp => matchLoop parts inp out
      end
  | _ => matchLoop parts inp out
  end.

Section Evaluator.
Context `{Numbers} `{!Json} `{Regexps} `{!Captures} `{Unicode} `{Templates}.

Definition compilePattern (pat : string) : result (list patternPart) :=
  patternLoop (S (String.length pat)) (Quote pat) pat [] [].

(** ** Entries *)

Record Entry : Type := mkEntry {
  TS : Z;
  Line : string;
  Labels : gmap string string;
  SplitJSON : bool
}.

Definition with_line (l : string) (split : bool) (e : Entry) : Entry := mkEntry (TS e) l (Labels e) split.
Definition with_labels (m : gmap string string) (e : Entry) : Entry :=
  mkEntry (TS e) (Line e) m (SplitJSON e).

Definition errorLabel : string := "__error__".
Definition errorDetailsLabel : string := "__error_details__".

Definition setError (kind details : string) (labels : gmap string string) : gmap string string :=
  <[errorDetailsLabel := details]> (<[errorLabel := kind]> labels).

(** ** json and unpack *)

Definition scalarString (v : json) : string :=
  match v with
  | JNull => ""
  | JString s => s
  | JBool b => if b then "true" else "false"
  | JNumber f => FormatFloat_f f
  | _ => Marshal v
  end.

Fixpoint flattenJSON (prefix : string) (v : json) (out : gmap string string) : gmap string string :=
  match v with
  | JObject l =>
      (fix members l out :=
         match l with
         | [] => out
         | (k, sub) :: l =>
             let key := sanitizeLabel k in
             let key := if String.eqb prefix "" then key else prefix +:+ "_" +:+ key in
             members l (flattenJSON key sub out)
         end) l out
  | JArray l =>
      (fix elements i l out :=
         match l with
         | [] => out
         | sub :: l => elements (i + 1)%Z l (flattenJSON (prefix +:+ "_" +:+ Itoa i) sub out)
         end) 0%Z l out
  | _ => if String.eqb prefix "" then out else <[prefix := scalarString v]> out
  end.

Definition trim_quotes (s : string) : string :=
  let q c := Ascii.eqb c dquote || Ascii.eqb c "'" in
  rev (span q (rev (span q s).2)).2.

Definition flush (cur : string) (segs : list string) : list string :=
  if String.eqb cur "" then segs else segs ++ [cur].

Fixpoint splitJSONPathLoop (fuel : nat) (path cur : string) (segs : list string) : list string :=
  match fuel with
  | O => segs
  | S fuel =>
      match path with
      | "" => flush cur segs
      | String c r =>
          if Ascii.eqb c "." then splitJSONPathLoop fuel r "" (flush cur segs)
          else if Ascii.eqb c "[" then
            let segs := flush cur segs in
            match Cut "]" r with
            | None => segs
            | Some (seg, r) => splitJSONPathLoop fuel r "" (segs ++ [trim_quotes seg])
            end
          else splitJSONPathLoop fuel r (cur +:+ String c "") segs
      end
  end.

Definition splitJSONPath (path : string) : list string :=
  splitJSONPathLoop (S (String.length path)) path "" [].

Definition member (k : string) (l : list (string * json)) : option json :=
  snd <$> list_find (λ kv, kv.1 = k) l ≫= λ x, Some x.2.

Fixpoint walkJSON (segs : list string) (v : json) : option json :=
  match segs with
  | [] => Some v
  | seg :: segs =>
      match v with
      | JObject l =>
          match member seg l with
          | Some v => walkJSON segs v
          | None => None
          end
      | JArray l =>
          match Atoi seg with
          | Some i =>
              if (i <? 0)%Z then None
              else
                match l !! Z.to_nat i with
                | Some v => walkJSON segs v
                | None => None
                end
          | None => None
          end
      | _ => None
      end
  end.

Definition lookupJSONPath (v : json) (path : string) : option string :=
  scalarString <$> walkJSON (splitJSONPath path) v.

Definition source_of (f : ExtractionField) : string :=
  if String.eqb (ef_Expression f) "" then ef_Name f else ef_Expression f.

(** The entry (a failure is recorded on it) and what was extracted. *)
Definition parseJSONInto (params : list ExtractionField) (e : Entry) : Entry * gmap string string :=
  match Unmarshal (Line e) with
  | Err msg =>
      (if SplitJSON e then e else with_labels (setError "JSONParserErr" msg (Labels e)) e, ∅)
  | Ok v =>
      (e, match params with
          | [] => flattenJSON "" v ∅
          | _ =>
              foldl (λ out f,
                match lookupJSONPath v (source_of f) with
                | Some got => <[sanitizeLabel (ef_Name f) := got]> out
                | None => out
                end) ∅ params
          end)
  end.

Definition parseLogfmtInto (params : list ExtractionField) (e : Entry) : gmap string string :=
  let fields := parseLogfmt (Line e) in
  match params with
  | [] => foldl (λ out kv, <[sanitizeLabel kv.1 := kv.2]> out) ∅ (map_to_list fields)
  | _ =>
      foldl (λ out f,
        match fields !! source_of f with
        | Some v => <[sanitizeLabel (ef_Name f) := v]> out
        | None => out
        end) ∅ params
  end.

Definition unpackMember (kv : string * json) (x : Entry * gmap string string) : Entry * gmap string string :=
  let '(e, out) := x in
  if String.eqb kv.1 "_entry" then
    match kv.2 with
    | JString s => (with_line s false e, out)
    | _ => (e, out)
    end
  else
    match kv.2 with
    | JString s => (e, <[sanitizeLabel kv.1 := s]> out)
    | _ => (e, out)
    end.

Definition jsonKind (v : json) : string :=
  match v with
  | JBool _ => "bool"
  | JNumber _ => "number"
  | JString _ => "string"
  | JArray _ => "array"
  | _ => "object"
  end.

(** Unmarshalling into a map accepts an object, or null. *)
Definition parseUnpackInto (e : Entry) : Entry * gmap string string :=
  match Unmarshal (Line e) with
  | Ok (JObject l) => foldl (λ x kv, unpackMember kv x) (e, ∅) l
  | Ok JNull => (e, ∅)
  | Ok v =>
      let msg := "json: cannot unmarshal " +:+ jsonKind v +:+ " into Go value of type map[string]interface {}" in
      (with_labels (setError "JSONParserErr" msg (Labels e)) e, ∅)
  | Err msg => (with_labels (setError "JSONParserErr" msg (Labels e)) e, ∅)
  end.

(** ** Filters *)

Record Pipeline : Type := mkPipeline {
  stages : list Stage;
  LineFilterFields : list string;
  DerivedLevelFields : list string;
  UnwrapLabel : string;
  UnwrapConv : string
}.

(** The labels one line-filter field names: itself, its sanitised spelling, or
    every label with its prefix. *)
Definition fieldTexts (labels : gmap string string) (f : string) : list string :=
  if String.eqb f "_msg" then []
  else if HasSuffix f "*" then
    let prefix := TrimSuffix f "*" in
    let sanitised := sanitizeLabel prefix in
    snd <$> filter (λ kv, HasPrefix kv.1 prefix || HasPrefix kv.1 sanitised = true) (map_to_list labels)
  else
    match labels !! f with
    | Some v => [v]
    | None =>
        match labels !! sanitizeLabel f with
        | Some v => [v]
        | None => []
        end
    end.

Definition lineFilterTexts (p : Pipeline) (e : Entry) : list string :=
  LineFilterFields p ≫= fieldTexts (Labels e).

Definition anyContains (values texts : list string) : bool :=
  existsb (λ v, existsb (λ text, Contains text v) texts) values.

(** A value that does not compile counts as a match. *)
Definition anyMatchesRe (values texts : list string) : bool :=
  existsb (λ v,
    match re_compile v with
    | Err _ => true
    | Ok re => existsb (re_match re) texts
    end) values.

Definition matchLineFilter (op : LineFilterOp) (values : list string) (line : string) (extra : list string)
    : bool :=
  let texts := line :: extra in
  match op with
  | LineFilterContains => anyContains values texts
  | LineFilterExcludes => negb (anyContains values texts)
  | LineFilterMatchRe => anyMatchesRe values texts
  | LineFilterExcludeRe => negb (anyMatchesRe values texts)
  | _ => true
  end.

Definition matchDropMatcher (m : DropMatcher) (val : string) : bool :=
  if String.eqb (dm_Op m) "=" then String.eqb val (dm_Value m)
  else if String.eqb (dm_Op m) "!=" then negb (String.eqb val (dm_Value m))
  else if String.eqb (dm_Op m) "=~" then matchAnchored (dm_Value m) val
  else if String.eqb (dm_Op m) "!~" then negb (matchAnchored (dm_Value m) val)
  else false.

(** The labels a drop or keep stage names. *)
Definition dropHits (labels : gmap string string) (names : list string) (ms : list DropMatcher) : gset string :=
  list_to_set names ∪
  list_to_set (dm_Name <$> filter (λ m, matchDropMatcher m (default "" (labels !! dm_Name m)) = true) ms).

Definition applyDropKeep (names : list string) (ms : list DropMatcher) (drop : bool)
    (labels : gmap string string) : gmap string string :=
  let hit := dropHits labels names ms in
  if drop then filter (λ kv, kv.1 ∉ hit) labels else filter (λ kv, kv.1 ∈ hit) labels.

(** ** decolorize: [ansiRE] is ESC, an opening bracket, digits and semicolons, a letter. *)

Definition ansiAt (s : string) : option string :=
  match strip_prefix (String "027" "[") s with
  | None => None
  | Some s =>
      match (span (λ c, digit_byte c || Ascii.eqb c ";") s).2 with
      | String c s => if within 97 122 c || within 65 90 c then Some s else None
      | "" => None
      end
  end.

Fixpoint decolorizeLoop (fuel : nat) (s : string) : string :=
  match fuel with
  | O => s
  | S fuel =>
      match s with
      | "" => ""
      | String c r =>
          match ansiAt s with
          | Some r => decolorizeLoop fuel r
          | None => String c (decolorizeLoop fuel r)
          end
      end
  end.

Definition decolorize (s : string) : string := decolorizeLoop (String.length s) s.

(** ** Parser stages *)

(** [mergeParsed], over the extracted labels in the order of the range loop. *)
Definition mergedName (base : gset string) (k : string) : string :=
  if bool_decide (k ∈ base) then k +:+ "_extracted" else k.

Definition mergeParsed (base : gset string) (parsed : list (string * string)) (labels : gmap string string)
    : gmap string string :=
  foldl (λ m kv, <[mergedName base kv.1 := kv.2]> m) labels parsed.

(** The loop over the group names: group 0 has no name. *)
Fixpoint namedGroups (names groups : list string) (out : gmap string string) : gmap string string :=
  match names, groups with
  | n :: names, g :: groups => namedGroups names groups (if String.eqb n "" then out else <[n := g]> out)
  | _, _ => out
  end.

Definition compileExtractor (t : ParserType) (param : string) : result RE :=
  match re_compile param with
  | Ok re => Ok re
  | Err e => Err ("invalid " +:+ ParserStage_String t param +:+ " expression " +:+ Quote param +:+ ": " +:+ e)
  end.

(** The base labels and the entry: the pipeline's per-entry state. *)
Definition pstate : Type := gset string * Entry.

(** Parsers other than json and unpack forget the levels the proxy derived. *)
Definition dropDerived (p : Pipeline) (t : ParserType) (st : pstate) : pstate :=
  let '(base, e) := st in
  match t with
  | ParserJSON | ParserUnpack => st
  | _ =>
      (foldl (λ b f, b ∖ {[ f ]}) base (DerivedLevelFields p),
       with_labels (foldl (λ m f, delete f m) (Labels e) (DerivedLevelFields p)) e)
  end.

Definition extract (t : ParserType) (param : string) (fields : list ExtractionField) (e : Entry)
    : Entry * gmap string string :=
  match t with
  | ParserJSON => parseJSONInto fields e
  | ParserLogfmt => (e, parseLogfmtInto fields e)
  | ParserUnpack => parseUnpackInto e
  | ParserPattern =>
      (e, match compilePattern param with
          | Ok parts => patternMatch parts (Line e) ∅
          | Err _ => ∅
          end)
  | ParserRegexp =>
      (e, match compileExtractor t param with
          | Ok re =>
              match re_submatch re (Line e) with
              | Some groups => namedGroups (re_names re) groups ∅
              | None => ∅
              end
          | Err _ => ∅
          end)
  end.

Definition applyParser (p : Pipeline) (t : ParserType) (param : string) (fields : list ExtractionField)
    (st : pstate) : pstate :=
  let '(base, e) := dropDerived p t st in
  let '(e, parsed) := extract t param fields e in
  (base, with_labels (mergeParsed base (map_to_list parsed) (Labels e)) e).

(** ** Format stages *)

Definition compileStageTemplate (src : string) : result (option Tmpl) :=
  match ParseTemplate src with
  | Compiled t => Ok (Some t)
  | Fatal msg => Err msg
  | Malformed => Ok None
  end.

(** The compiled template of a stage, if it has one. *)
Definition template (src : string) : option Tmpl :=
  match compileStageTemplate src with
  | Ok t => t
  | Err _ => None
  end.

(** One assignment of a label_format stage: [out] collects, errors go to the entry. *)
Definition applyAssignment (e0 : Entry) (a : LabelFormat) (x : gmap string string * gmap string string)
    : gmap string string * gmap string string :=
  let '(labels, out) := x in
  if lf_Rename a then (labels, <[lf_Name a := default "" (labels !! lf_Value a)]> out)
  else
    match template (lf_Value a) with
    | None => (setError "TemplateFormatErr" ("invalid template: " +:+ lf_Value a) labels, out)
    | Some t =>
        match tmpl_Exec t labels (Line e0) (TS e0) with
        | Err msg => (setError "TemplateFormatErr" msg labels, out)
        | Ok v => (labels, <[lf_Name a := v]> out)
        end
    end.

Definition applyLabelFormat (formats : list LabelFormat) (e : Entry) : Entry :=
  let '(labels, out) := foldl (λ x a, applyAssignment e a x) (Labels e, ∅) formats in
  with_labels (out ∪ labels) e.

(** ** The pipeline *)

(** One stage: whether the entry survives, and the new state. *)
Definition apply (p : Pipeline) (s : Stage) (st : pstate) : bool * pstate :=
  let '(base, e) := st in
  match s with
  | LineFilterStage op v _ alts =>
      (matchLineFilter op (Values v alts) (Line e) (lineFilterTexts p e), st)
  | ParserStage t param fields => (true, applyParser p t param fields st)
  | LabelFilterStage raw =>
      (match parseLabelFilter raw with
       | Done f _ => eval f (Labels e)
       | _ => true
       end, st)
  | DropStage names ms => (true, (base, with_labels (applyDropKeep names ms true (Labels e)) e))
  | KeepStage names ms => (true, (base, with_labels (applyDropKeep names ms false (Labels e)) e))
  | DecolorizeStage => (true, (base, with_line (decolorize (Line e)) (SplitJSON e) e))
  | LineFormatStage tmpl =>
      (true, (base,
        match template tmpl with
        | None => with_labels (setError "TemplateFormatErr" ("invalid template: " +:+ tmpl) (Labels e)) e
        | Some t =>
            match tmpl_Exec t (Labels e) (Line e) (TS e) with
            | Err msg => with_labels (setError "TemplateFormatErr" msg (Labels e)) e
            | Ok out => with_line out false e
            end
        end))
  | LabelFormatStage _ formats => (true, (base, applyLabelFormat formats e))
  | UnwrapStage _ _ => (true, st)
  end.

Fixpoint runStages (p : Pipeline) (l : list Stage) (st : pstate) : bool * pstate :=
  match l with
  | [] => (true, st)
  | s :: l =>
      let '(ok, st) := apply p s st in
      if ok then runStages p l st else (false, st)
  end.

Definition Process (p : Pipeline) (e : Entry) : bool * Entry :=
  let '(ok, (_, e)) := runStages p (stages p) (dom (Labels e), e) in (ok, e).

(** ** Compiling *)

Fixpoint checkFormats (formats : list LabelFormat) : result unit :=
  match formats with
  | [] => Ok tt
  | a :: formats =>
      if lf_Rename a then checkFormats formats
      else
        match compileStageTemplate (lf_Value a) with
        | Err e => Err e
        | Ok _ => checkFormats formats
        end
  end.

Definition checkStage (s : Stage) : result unit :=
  match s with
  | LineFormatStage tmpl =>
      match compileStageTemplate tmpl with Err e => Err e | Ok _ => Ok tt end
  | LabelFormatStage raw formats =>
      match formats with
      | [] =>
          if String.eqb (TrimSpace raw) "" then Ok tt
          else Err ("unsupported label_format expression: " +:+ TrimSpace raw)
      | _ => checkFormats formats
      end
  | LabelFilterStage raw =>
      match parseLabelFilter raw with
      | Done _ _ => Ok tt
      | Fail msg => Err msg
      | NoFuel => Err "fuel"
      end
  | ParserStage ParserRegexp param _ =>
      match compileExtractor ParserRegexp param with Err e => Err e | Ok _ => Ok tt end
  | ParserStage ParserPattern param _ =>
      match compilePattern param with Err e => Err e | Ok _ => Ok tt end
  | _ => Ok tt
  end.

Fixpoint compileStages (l : list Stage) (unwrap : string * string) : result (string * string) :=
  match l with
  | [] => Ok unwrap
  | s :: l =>
      match checkStage s with
      | Err e => Err e
      | Ok _ => compileStages l (match s with UnwrapStage label conv => (label, conv) | _ => unwrap end)
      end
  end.

Definition NewPipeline (l : list Stage) : result Pipeline :=
  match compileStages l ("", "") with
  | Ok (label, conv) => Ok (mkPipeline l [] [] label conv)
  | Err e => Err e
  end.

Definition Clone (p : Pipeline) : result Pipeline :=
  match NewPipeline (stages p) with
  | Ok c => Ok (mkPipeline (stages c) (LineFilterFields p) (DerivedLevelFields p) (UnwrapLabel c) (UnwrapConv c))
  | Err e => Err e
  end.

End Evaluator.

(** ** What is pushed down to the backend *)

Definition HasErrorLabelFilter (l : list Stage) : bool :=
  existsb (λ s,
    match s with
    | LabelFilterStage raw => Contains raw errorLabel || Contains raw errorDetailsLabel
    | _ => false
    end) l.

(** [\s] of package regexp. *)
Definition re_space (c : Ascii.ascii) : bool :=
  Ascii.eqb c " " || Ascii.eqb c "009" || Ascii.eqb c "010" || Ascii.eqb c "012" || Ascii.eqb c "013".

(** [pureFieldRefRE]: the field a template consisting of one reference names. *)
Definition pureFieldRef (s : string) : option string :=
  match strip_prefix "{{" (span re_space s).2 with
  | None => None
  | Some s =>
      match strip_prefix "." (span re_space s).2 with
      | None => None
      | Some s =>
          let '(name, s) := span name_byte s in
          if String.eqb name "" then None
          else
            match strip_prefix "}}" (span re_space s).2 with
            | None => None
            | Some s => if String.eqb (span re_space s).2 "" then Some name else None
            end
      end
  end.

Definition labelFormatPushable (formats : list LabelFormat) : bool :=
  forallb (λ a,
    if lf_Rename a || negb (Contains (lf_Value a) "{{") then true
    else
      match pureFieldRef (lf_Value a) with
      | None => false
      | Some f => negb (bool_decide (f ∈ lf_Name <$> formats))
      end) formats.

Definition HasTemplateStage (l : list Stage) : bool :=
  existsb (λ s,
    match s with
    | LineFormatStage tmpl => Contains tmpl "{{"
    | LabelFormatStage raw [] => Contains raw "{{"
    | LabelFormatStage _ formats => negb (labelFormatPushable formats)
    | _ => false
    end) l.

Definition NeedsProxyEvaluation (l : list Stage) : bool := HasTemplateStage l || HasErrorLabelFilter l.

(** ** Label names *)

Lemma replace_legal s start : legal_loop start (replace_loop start s) = true.
Proof.
  revert start. induction s as [|c s IH]; intros start; [done|]. cbn [replace_loop legal_loop].
  rewrite IH, andb_true_r. destruct (letter_byte c) eqn:Hl; [by rewrite Hl|].
  destruct (digit_byte c && negb start) eqn:Hd; [by rewrite Hd, orb_true_r|done].
Qed.

Lemma sanitize_of_legal s : legal_loop true s = true → sanitizeLabel s = s.
Proof.
  intros Hs. unfold sanitizeLabel. rewrite Hs. destruct (String.eqb_spec s "") as [->|Hne]; done.
Qed.

Lemma sanitize_is_legal s : legal_loop true (sanitizeLabel s) = true.
Proof. unfold sanitizeLabel. case_match eqn:Hc; [by apply andb_true_iff in Hc as [? _]|apply replace_legal]. Qed.

Lemma replace_length s start : String.length (replace_loop start s) = String.length s.
Proof. revert start. induction s as [|c s IH]; intros start; [done|]. cbn. by rewrite IH. Qed.

(** Label names of the Prometheus data model: [a-zA-Z_][a-zA-Z0-9_]*. *)
Definition nameStart (c : Ascii.ascii) : Prop := 97 ≤ b2z c ≤ 122 ∨ 65 ≤ b2z c ≤ 90 ∨ b2z c = 95.

Definition namePart (c : Ascii.ascii) : Prop := nameStart c ∨ 48 ≤ b2z c ≤ 57.

Inductive nameRest : string → Prop :=
| rest_nil : nameRest ""
| rest_cons c s : namePart c → nameRest s → nameRest (String c s).

Inductive labelName : string → Prop :=
| label_name c s : nameStart c → nameRest s → labelName (String c s).

Lemma letter_start c : letter_byte c = true ↔ nameStart c.
Proof.
  unfold letter_byte, nameStart. rewrite !orb_true_iff, !within_spec. split.
  - intros [[->%Ascii.eqb_eq|?]|?]; tauto.
  - intros [?|[?|E]]; [tauto|tauto|]. left. left. by rewrite b2z_eqb, E.
Qed.

Lemma legal_rest s : legal_loop false s = true ↔ nameRest s.
Proof.
  induction s as [|c s IH]; [split; [constructor|done]|]. cbn [legal_loop]. rewrite andb_true_r, andb_true_iff, orb_true_iff, letter_start, IH.
  unfold digit_byte. rewrite within_spec. split; [intros [? ?]; by constructor|by inversion 1].
Qed.

Lemma legal_name s : labelName s ↔ legal_loop true s = true ∧ s ≠ "".
Proof.
  destruct s as [|c s]; [split; [by inversion 1|by intros [_ []]]|]. cbn [legal_loop].
  rewrite andb_false_r, orb_false_r, andb_true_iff, letter_start, legal_rest.
  split; [by inversion 1|intros [[? ?] _]; by constructor].
Qed.

(** What becomes of the byte at an index. *)
Definition sanitizedByte (i : nat) (c : Ascii.ascii) : Ascii.ascii :=
  if letter_byte c || (digit_byte c && negb (i =? 0)%nat) then c else "_"%char.

Lemma replace_bytes s start k i c : (start = (k =? 0)%nat) → String.get i s = Some c →
  String.get i (replace_loop start s) = Some (sanitizedByte (k + i) c).
Proof.
  revert start k i. induction s as [|d s IH]; intros start k i ->; [done|]. destruct i as [|i]; cbn [String.get replace_loop].
  - intros [= ->]. unfold sanitizedByte. rewrite Nat.add_0_r. destruct (letter_byte c); [done|]. cbn [orb].
    by destruct (digit_byte c && _).
  - intros Hc. rewrite (IH false (S k) i eq_refl Hc). do 2 f_equal. lia.
Qed.

Lemma legal_bytes s start k i c : (start = (k =? 0)%nat) → legal_loop start s = true → String.get i s = Some c → sanitizedByte (k + i) c = c.
Proof.
  revert start k i. induction s as [|d s IH]; intros start k i ->; [done|]. cbn [legal_loop]. intros [Hd Hs]%andb_true_iff.
  destruct i as [|i]; cbn [String.get].
  - intros [= ->]. unfold sanitizedByte. by rewrite Nat.add_0_r, Hd.
  - intros Hc. rewrite <- (IH false (S k) i eq_refl Hs Hc) at 2. f_equal. lia.
Qed.

(** C27 The sanitised form of a name that is not empty is a label name of the Prometheus
    data model of the same length: a letter or underscore stays, a digit stays except at
    the front, and every other byte becomes an underscore.  A label name is left alone,
    so sanitising twice changes nothing.  The empty name stays empty, which is no label
    name. *)
Theorem sanitized_label_legal s :
  (s ≠ "" → labelName (sanitizeLabel s)) ∧ String.length (sanitizeLabel s) = String.length s ∧
  (∀ i c, String.get i s = Some c → String.get i (sanitizeLabel s) =
     Some (if decide (nameStart c ∨ (48 ≤ b2z c ≤ 57 ∧ i ≠ 0%nat)) then c else "_"%char)) ∧
  (labelName s → sanitizeLabel s = s) ∧ sanitizeLabel (sanitizeLabel s) = sanitizeLabel s ∧ sanitizeLabel "" = "".
Proof.
  assert (String.length (sanitizeLabel s) = String.length s) as Hlen
    by (unfold sanitizeLabel; case_match; [done|apply replace_length]).
  split_and!; [|done| |by intros [? _]%legal_name; apply sanitize_of_legal|apply sanitize_of_legal, sanitize_is_legal|done].
  - intros Hne. apply legal_name. split; [apply sanitize_is_legal|]. intros E. rewrite E in Hlen. by destruct s.
  - intros i c Hc. transitivity (Some (sanitizedByte (0 + i) c)).
    + unfold sanitizeLabel. case_match eqn:El; [|by apply replace_bytes]. apply andb_true_iff in El as [El _].
      by rewrite (legal_bytes s true 0 i c eq_refl El Hc).
    + unfold sanitizedByte. cbn [plus]. f_equal. pose proof (letter_start c) as Hl. pose proof (within_spec 48 57 c) as Hd.
      fold (digit_byte c) in Hd. destruct (letter_byte c), (digit_byte c), (Nat.eqb_spec i 0), (decide _) as [Hx|Hx]; cbn; try done; naive_solver.
Qed.

(** ** Caches *)

Section Memo.
Context {T : Type} (compile : string → result T).

Definition memo (m : gmap string T) : Prop :=
  (size m ≤ compileCacheMaxEntries)%nat ∧ ∀ k v, m !! k = Some v → compile k = Ok v.

(** The compile caches are transparent and bounded: whatever was looked up
    before, a cached lookup returns what compiling returns, and no cache holds more
    than 1024 entries. *)
Theorem compile_cache_transparent keys k :
  let m := foldl (λ m k, (cached compile k m).2) ∅ keys in
  (cached compile k m).1 = compile k ∧ (size m ≤ compileCacheMaxEntries)%nat.
Proof.
  assert (∀ m k, memo m → memo (cached compile k m).2 ∧ (cached compile k m).1 = compile k) as Hstep.
  { intros m k' [Hs Hm]. unfold cached, cache_get. destruct (m !! k') as [v|] eqn:E; [by rewrite (Hm _ _ E)|].
    destruct (compile k') as [v|] eqn:Ec; [|done]. split; [|done]. cbn [snd]. unfold cache_put.
    destruct (Nat.leb_spec compileCacheMaxEntries (size m)); [done|]. split.
    - rewrite map_size_insert_None by done. lia.
    - intros k1 v1. rewrite lookup_insert_Some. intros [[<- <-]|[_ Hv]]; [done|by apply Hm]. }
  assert (memo (foldl (λ m k, (cached compile k m).2) ∅ keys)) as Hmemo.
  { assert (memo ∅) as H0 by (split; [rewrite map_size_empty; unfold compileCacheMaxEntries; lia|by intros ?? ?%lookup_empty_Some]).
    revert H0. generalize (∅ : gmap string T). induction keys as [|k' keys IH]; intros m Hm; [done|].
    cbn [foldl]. apply IH. by apply Hstep. }
  split; [by apply Hstep|by apply Hmemo].
Qed.

End Memo.

(** ** Merging extracted labels *)

Lemma mergeParsed_cons base kv parsed labels :
  mergeParsed base (kv :: parsed) labels = mergeParsed base parsed (<[mergedName base kv.1 := kv.2]> labels).
Proof. done. Qed.

Lemma mergeParsed_other base parsed labels k : k ∉ mergedName base <$> parsed.*1 →
  mergeParsed base parsed labels !! k = labels !! k.
Proof.
  revert labels. induction parsed as [|kv parsed IH]; intros labels Hk; [done|].
  cbn in Hk. apply not_elem_of_cons in Hk as [Hk1 Hk2]. rewrite mergeParsed_cons, IH by done. by rewrite lookup_insert_ne.
Qed.

Lemma mergeParsed_in base parsed labels k v : NoDup (mergedName base <$> parsed.*1) → (k, v) ∈ parsed →
  mergeParsed base parsed labels !! mergedName base k = Some v.
Proof.
  revert labels. induction parsed as [|kv parsed IH]; intros labels Hnd Hin.
  { by apply not_elem_of_nil in Hin. }
  cbn in Hnd. apply NoDup_cons in Hnd as [Hfresh Hnd]. rewrite mergeParsed_cons.
  apply elem_of_cons in Hin as [<-|Hin]; [|by apply IH]. rewrite mergeParsed_other by done.
  by rewrite lookup_insert_eq.
Qed.

(** When no two extracted labels end up under one name, the order in which the
    runtime ranges over the extracted map does not matter. *)
Theorem merge_order_irrelevant base parsed parsed' labels :
  NoDup (mergedName base <$> parsed.*1) → parsed ≡ₚ parsed' →
  mergeParsed base parsed labels = mergeParsed base parsed' labels.
Proof.
  intros Hnd Hp. apply map_eq. intros k.
  assert (NoDup (mergedName base <$> parsed'.*1)) as Hnd' by (by rewrite <- Hp).
  destruct (decide (k ∈ mergedName base <$> parsed.*1)) as [Hin|Hout].
  - apply list_elem_of_fmap in Hin as (k' & -> & Hin). apply list_elem_of_fmap in Hin as ([k1 v] & -> & Hin). cbn.
    rewrite (mergeParsed_in base parsed labels k1 v) by done.
    symmetry. apply mergeParsed_in; [done|]. by rewrite <- Hp.
  - rewrite !mergeParsed_other; [done| |done]. by rewrite <- Hp.
Qed.

(** When they do, it matters: a line whose JSON has both [ns] and [ns_extracted]
    gives the stream label [ns] one or the other value. *)
Theorem merge_depends_on_order :
  let base : gset string := {[ "ns" ]} in
  let parsed := [("ns", "1"); ("ns_extracted", "2")] in
  mergeParsed base parsed ∅ !! "ns_extracted" = Some "2" ∧
  mergeParsed base (reverse parsed) ∅ !! "ns_extracted" = Some "1".
Proof. vm_compute. done. Qed.

(** ** Stages *)

(** What text/template does with the two kinds of template that are pushed down:
    one reference to a label, and text without actions. *)
Class TemplateLaws `{Templates} : Prop := {
  tmpl_reference s f labels line ts : pureFieldRef s = Some f → legal_loop true f = true →
    ∃ t, ParseTemplate s = Compiled t ∧ tmpl_Exec t labels line ts = Ok (default "" (labels !! f));
  tmpl_constant s labels line ts : Contains s "{{" = false →
    ∃ t, ParseTemplate s = Compiled t ∧ tmpl_Exec t labels line ts = Ok s
}.

Section Stages.
Context `{Numbers} `{!Json} `{Regexps} `{!Captures} `{Unicode} `{Templates}.

Implicit Types (e : Entry) (st : pstate).

Definition bookkeeping (k : string) : Prop := k = errorLabel ∨ k = errorDetailsLabel.

Lemma setError_other kind details labels k : ¬ bookkeeping k →
  setError kind details labels !! k = labels !! k.
Proof. unfold bookkeeping, setError. intros Hk. rewrite !lookup_insert_ne by naive_solver. done. Qed.

Lemma unpack_labels l x : Labels (foldl (λ x kv, unpackMember kv x) x l).1 = Labels x.1.
Proof.
  revert x. induction l as [|[k v] l IH]; intros [e out]; [done|]. cbn [foldl]. rewrite IH.
  unfold unpackMember. cbn [fst snd]. by destruct (String.eqb k "_entry"), v.
Qed.

(** Extraction touches no label of the entry but the error labels. *)
Lemma extract_labels t param fields e k : ¬ bookkeeping k →
  Labels (extract t param fields e).1 !! k = Labels e !! k.
Proof.
  intros Hk. destruct t; cbn [extract fst]; [|done..|].
  - unfold parseJSONInto. destruct (Unmarshal (Line e)); [done|]. cbn [fst].
    destruct (SplitJSON e); [done|]. by apply setError_other.
  - unfold parseUnpackInto. destruct (Unmarshal (Line e)) as [[| | | | |l]|]; cbn [fst];
      try (by apply setError_other); [done|]. by rewrite unpack_labels.
Qed.

Lemma dropDerived_keeps p t base e k : k ∉ DerivedLevelFields p →
  (k ∈ base → k ∈ (dropDerived p t (base, e)).1) ∧
  Labels (dropDerived p t (base, e)).2 !! k = Labels e !! k.
Proof.
  intros Hk. assert ((k ∈ base → k ∈ foldl (λ (b : gset string) f, b ∖ {[ f ]}) base (DerivedLevelFields p)) ∧
    foldl (λ m f, delete f m) (Labels e) (DerivedLevelFields p) !! k = Labels e !! k) as [Hb Hl].
  { revert Hk. generalize (Labels e). revert base. induction (DerivedLevelFields p) as [|f l IH]; intros base m Hk; [done|].
    apply not_elem_of_cons in Hk as [Hne Hk]. cbn [foldl].
    destruct (IH (base ∖ {[ f ]}) (delete f m) Hk) as [IH1 IH2]. split.
    - intros Hin. apply IH1. set_solver.
    - rewrite IH2. by rewrite lookup_delete_ne. }
  by destruct t.
Qed.

Lemma append_cancel_r (a b c : string) : a +:+ c = b +:+ c → a = b.
Proof.
  intros E. assert (String.length a = String.length b) as Hl
    by (apply (f_equal String.length) in E; rewrite !length_app_str in E; lia).
  apply (f_equal (prefix (String.length a))) in E. rewrite prefix_app in E. by rewrite Hl, prefix_app in E.
Qed.

Lemma mergeParsed_extracted base (parsed : gmap string string) labels k v : k ∈ base →
  parsed !! k = Some v → parsed !! (k +:+ "_extracted") = None →
  mergeParsed base (map_to_list parsed) labels !! (k +:+ "_extracted") = Some v.
Proof.
  intros Hb Hk Hx. pose proof (NoDup_fst_map_to_list parsed) as Hnd. apply elem_of_map_to_list in Hk.
  assert ((k +:+ "_extracted") ∉ (map_to_list parsed).*1) as Hout.
  { intros ([k' v'] & E & Hin)%list_elem_of_fmap. cbn in E. subst k'. apply elem_of_map_to_list in Hin. congruence. }
  revert labels Hnd Hk Hout. generalize (map_to_list parsed). induction l as [|[k1 v1] l IH]; intros labels Hnd Hk Hout.
  { by apply not_elem_of_nil in Hk. }
  cbn [fmap list_fmap fst] in Hnd, Hout. apply NoDup_cons in Hnd as [Hf Hnd]. apply not_elem_of_cons in Hout as [Hne Hout].
  rewrite mergeParsed_cons. apply elem_of_cons in Hk as [[= <- <-]|Hk]; [|by apply IH].
  cbn [fst snd]. unfold mergedName. rewrite bool_decide_eq_true_2 by done. rewrite mergeParsed_other, lookup_insert_eq; [done|].
  intros (k2 & E & Hin)%list_elem_of_fmap. unfold mergedName in E. case_bool_decide; [|by subst].
  apply append_cancel_r in E. by subst.
Qed.

(** C26 A parser stage keeps a label the entry arrived with, whatever the line contains,
    and puts what it extracts under that name into [name_extracted] (unless the line
    has a field of that name too).  Exempt are the error labels, which the stage sets;
    the derived level fields, which the stages other than json and unpack delete; and a
    label that is itself [name_extracted] for another label the entry arrived with, which
    the value extracted for that one replaces. *)
Theorem parsers_keep_stream_labels p t param fields base e k :
  k ∈ base → ¬ bookkeeping k → k ∉ DerivedLevelFields p →
  let after := Labels (applyParser p t param fields (base, e)).2 in
  let parsed := (extract t param fields (dropDerived p t (base, e)).2).2 in
  ((∀ k', k = k' +:+ "_extracted" → k' ∉ base) → after !! k = Labels e !! k) ∧
  (∀ v, parsed !! k = Some v → parsed !! (k +:+ "_extracted") = None → after !! (k +:+ "_extracted") = Some v).
Proof.
  intros Hb Hk Hd. unfold applyParser.
  destruct (dropDerived_keeps p t base e k Hd) as [Hb' Hl]. specialize (Hb' Hb).
  assert ((dropDerived p t (base, e)).1 ⊆ base) as Hsub.
  { destruct t; cbn; try done; clear; (induction (DerivedLevelFields p) as [|f l IH] in base |- *; [done|]; cbn;
      etrans; [apply IH|set_solver]). }
  destruct (dropDerived p t (base, e)) as [base' e']. cbn [fst snd] in *.
  pose proof (extract_labels t param fields e' k Hk) as He.
  destruct (extract t param fields e') as [e'' parsed]. cbn [fst snd with_labels Labels] in *. split.
  - intros Hx. rewrite mergeParsed_other; [congruence|]. intros (k' & E & _)%list_elem_of_fmap. unfold mergedName in E.
    case_bool_decide as Hin; [|by subst]. by apply (Hx k' E), Hsub.
  - intros v. by apply mergeParsed_extracted.
Qed.

(** ** label_format *)

Lemma assign_labels e a x : lf_Rename a = true → applyAssignment e a x =
  (x.1, <[lf_Name a := default "" (x.1 !! lf_Value a)]> x.2).
Proof. intros Hr. destruct x. unfold applyAssignment. by rewrite Hr. Qed.

Lemma renames_collect e formats : Forall (λ a, lf_Rename a = true) formats → ∀ labels out,
  foldl (λ x a, applyAssignment e a x) (labels, out) formats =
    (labels, foldl (λ m a, <[lf_Name a := default "" (labels !! lf_Value a)]> m) out formats).
Proof.
  induction 1 as [|a formats Ha _ IH]; intros labels out; [done|]. cbn [foldl].
  rewrite assign_labels by done. cbn [fst snd]. apply IH.
Qed.

Lemma collect_lookup (val : LabelFormat → string) formats : NoDup (lf_Name <$> formats) → ∀ out k,
  foldl (λ (m : gmap string string) a, <[lf_Name a := val a]> m) out formats !! k =
    match list_find (λ a, lf_Name a = k) formats with
    | Some (_, a) => Some (val a)
    | None => out !! k
    end.
Proof.
  induction formats as [|a formats IH]; intros Hnd out k; [done|]. cbn in Hnd.
  apply NoDup_cons in Hnd as [Hfresh Hnd]. cbn [foldl list_find]. rewrite IH by done.
  case_decide as Ha.
  - subst k. destruct (list_find (λ b, lf_Name b = lf_Name a) formats) as [[i b]|] eqn:E.
    + apply list_find_Some in E as (Hi & Hb & _). exfalso. apply Hfresh. rewrite <- Hb.
      by eapply list_elem_of_fmap_2, list_elem_of_lookup_2.
    + by rewrite lookup_insert_eq.
  - destruct (list_find (λ b, lf_Name b = k) formats) as [[i b]|]; cbn; [done|]. by rewrite lookup_insert_ne.
Qed.

(** The renames of one label_format stage happen at once: every target gets the
    value its source had before the stage, so [a=b, b=a] swaps, and no other label
    changes. *)
Theorem renames_are_simultaneous formats e :
  Forall (λ a, lf_Rename a = true) formats → NoDup (lf_Name <$> formats) →
  (∀ a, a ∈ formats →
     Labels (applyLabelFormat formats e) !! lf_Name a = Some (default "" (Labels e !! lf_Value a))) ∧
  (∀ k, k ∉ lf_Name <$> formats → Labels (applyLabelFormat formats e) !! k = Labels e !! k).
Proof.
  intros Hr Hnd. unfold applyLabelFormat. rewrite renames_collect by done. cbn [with_labels Labels].
  set (val a := default "" (Labels e !! lf_Value a)).
  split.
  - intros a Ha. apply lookup_union_Some_l. rewrite (collect_lookup val formats Hnd).
    destruct (list_find (λ b, lf_Name b = lf_Name a) formats) as [[i b]|] eqn:E.
    + apply list_find_Some in E as (Hi & Hb & _). apply list_elem_of_lookup in Ha as [j Hj].
      assert (i = j) as <-.
      { eapply (NoDup_lookup (lf_Name <$> formats)); [done|..]; rewrite list_lookup_fmap; [by rewrite Hi|].
        rewrite Hj. cbn. congruence. }
      rewrite Hi in Hj. by injection Hj as ->.
    + apply list_find_None in E. rewrite Forall_forall in E. by destruct (E a Ha).
  - intros k Hk. rewrite lookup_union_r; [done|]. rewrite (collect_lookup val formats Hnd).
    destruct (list_find (λ b, lf_Name b = k) formats) as [[i b]|] eqn:E; [|done].
    apply list_find_Some in E as (Hi & Hb & _). exfalso. apply Hk. rewrite <- Hb.
    by eapply list_elem_of_fmap_2, list_elem_of_lookup_2.
Qed.

(** ** Pushing a label_format stage down

    The backend runs one [format] pipe per assignment, each on the labels the
    previous one left. *)
Definition pushedValue (a : LabelFormat) (labels : gmap string string) : string :=
  match pureFieldRef (lf_Value a) with
  | Some f => default "" (labels !! f)
  | None => lf_Value a
  end.

Definition pushed (formats : list LabelFormat) (labels : gmap string string) : gmap string string :=
  foldl (λ m a, <[lf_Name a := pushedValue a m]> m) labels formats.

Lemma no_action_no_ref s : Contains s "{{" = false → pureFieldRef s = None.
Proof.
  intros Hc. unfold pureFieldRef. destruct (strip_prefix "{{" (span re_space s).2) as [r|] eqn:E; [|done].
  exfalso. apply strip_prefix_spec in E. pose proof (span_join re_space s) as Hj. rewrite E in Hj.
  rewrite <- Hj in Hc. revert Hc. generalize (span re_space s).1. intros w. clear.
  induction w as [|c w IH]; [done|]. rewrite app_str_cons. cbn [Contains].
  intros [_ Hc]%orb_false_iff. by apply IH.
Qed.

Section Pushdown.
Context `{!TemplateLaws}.

(** One assignment of a pushable stage, evaluated by the proxy. *)
Lemma pushable_assignment e labels out a formats :
  lf_Rename a = false → a ∈ formats → labelFormatPushable formats = true →
  (∀ f, pureFieldRef (lf_Value a) = Some f → legal_loop true f = true) →
  applyAssignment e a (labels, out) = (labels, <[lf_Name a := pushedValue a labels]> out) ∧
  ∀ f, pureFieldRef (lf_Value a) = Some f → f ∉ lf_Name <$> formats.
Proof.
  intros Hr Ha Hp Hlegal. unfold labelFormatPushable in Hp. rewrite forallb_forall in Hp.
  specialize (Hp a). rewrite <- list_elem_of_In in Hp. specialize (Hp Ha). rewrite Hr in Hp. cbn [orb] in Hp.
  unfold applyAssignment, pushedValue, template, compileStageTemplate. rewrite Hr.
  destruct (Contains (lf_Value a) "{{") eqn:Hc; cbn [negb] in Hp.
  - destruct (pureFieldRef (lf_Value a)) as [f|] eqn:Hf; [|done].
    destruct (tmpl_reference (lf_Value a) f labels (Line e) (TS e) Hf (Hlegal f eq_refl)) as (t & -> & ->).
    split; [done|]. intros f' [= <-]. by apply negb_true_iff, bool_decide_eq_false in Hp.
  - rewrite (no_action_no_ref _ Hc).
    destruct (tmpl_constant (lf_Value a) labels (Line e) (TS e) Hc) as (t & -> & ->). done.
Qed.

(** The stages the proxy calls pushable are: without renames, running the
    assignments of the stage one after the other, as the backend does, gives the
    labels that evaluating them all at once gives. *)
Theorem pushable_format_agrees formats e :
  labelFormatPushable formats = true → Forall (λ a, lf_Rename a = false) formats →
  (∀ a f, a ∈ formats → pureFieldRef (lf_Value a) = Some f → legal_loop true f = true) →
  Labels (applyLabelFormat formats e) = pushed formats (Labels e).
Proof.
  intros Hp Hr Hlegal. unfold applyLabelFormat, pushed.
  assert (∀ done_ todo out m, formats = done_ ++ todo →
    (∀ k, k ∉ lf_Name <$> formats → m !! k = Labels e !! k) → m = out ∪ Labels e →
    foldl (λ x a, applyAssignment e a x) (Labels e, out) todo =
      (Labels e, foldl (λ x a, (applyAssignment e a (Labels e, x)).2) out todo) ∧
    foldl (λ m a, <[lf_Name a := pushedValue a m]> m) m todo =
      foldl (λ x a, (applyAssignment e a (Labels e, x)).2) out todo ∪ Labels e) as Hloop.
  { intros done_ todo. revert done_. induction todo as [|a todo IH]; intros done_ out m Hf Hm ->; [done|].
    assert (a ∈ formats) as Ha by (rewrite Hf; apply elem_of_app; right; left).
    pose proof (proj1 (Forall_forall _ _) Hr a Ha) as Hra.
    destruct (pushable_assignment e (Labels e) out a formats Hra Ha Hp (λ f, Hlegal a f Ha)) as [Eq Hfree].
    cbn [foldl]. rewrite Eq. cbn [snd].
    assert (pushedValue a (out ∪ Labels e) = pushedValue a (Labels e)) as ->.
    { unfold pushedValue. destruct (pureFieldRef (lf_Value a)) as [f|]; [|done]. by rewrite Hm by (by apply Hfree). }
    apply (IH (done_ ++ [a])).
    - by rewrite Hf, <- app_assoc.
    - intros k Hk. rewrite lookup_insert_ne; [by apply Hm|]. intros <-. apply Hk. by apply list_elem_of_fmap_2.
    - by rewrite insert_union_l. }
  destruct (Hloop [] formats ∅ (Labels e)) as [E1 E2]; [done|done|by rewrite (left_id_L ∅ (∪))|].
  rewrite E1. cbn [with_labels Labels]. by rewrite E2.
Qed.

(** With renames they are not: the swap [a=b, b=a] is called pushable, and one
    after the other its assignments alias instead. *)
Theorem rename_swap_called_pushable :
  labelFormatPushable [mkFormat "a" "b" true; mkFormat "b" "a" true] = true ∧
  ∀ e, Labels e !! "a" = Some "1" → Labels e !! "b" = Some "2" →
    Labels (applyLabelFormat [mkFormat "a" "b" true; mkFormat "b" "a" true] e) !! "b" = Some "1" ∧
    foldl (λ m a, <[lf_Name a := default "" (m !! lf_Value a)]> m) (Labels e)
      [mkFormat "a" "b" true; mkFormat "b" "a" true] !! "b" = Some "2".
Proof.
  split; [vm_compute; reflexivity|]. intros e Ha Hb. unfold applyLabelFormat. cbn. rewrite Ha, Hb. split.
  - apply lookup_union_Some_l. by rewrite lookup_insert_eq.
  - by rewrite !lookup_insert_eq.
Qed.

End Pushdown.
(** ** Patterns *)

Definition part_text (p : patternPart) : string :=
  match p with
  | PLiteral l => l
  | PCapture n => "<" +:+ (if String.eqb n "" then "_" else n) +:+ ">"
  end.

Definition parts_text (l : list patternPart) : string := foldr (λ p s, part_text p +:+ s) "" l.

Definition capture_names (l : list patternPart) : list string :=
  omap (λ p, match p with PCapture "" => None | PCapture n => Some n | _ => None end) l.

(** Literals are not empty and do not meet, and neither do captures. *)
Fixpoint alternating (l : list patternPart) : Prop :=
  match l with
  | [] => True
  | p :: l =>
      match p, l with
      | PLiteral x, PLiteral _ :: _ => False
      | PCapture _, PCapture _ :: _ => False
      | PLiteral x, _ => x ≠ ""
      | _, _ => True
      end ∧ alternating l
  end.

Lemma captureAt_spec s n r : captureAt s = Some (n, r) → s = "<" +:+ n +:+ ">" +:+ r ∧ n ≠ "".
Proof.
  unfold captureAt. destruct (strip_prefix "<" s) as [s1|] eqn:E1; [|done]. apply strip_prefix_spec in E1.
  pose proof (span_join isIdentByte s1) as Hj. destruct (span isIdentByte s1) as [name s2]. cbn [fst snd] in Hj.
  destruct (starts_with letter_byte name) eqn:El; [|done].
  destruct (strip_prefix ">" s2) as [s3|] eqn:E2; [|done]. apply strip_prefix_spec in E2.
  intros [= <- <-]. subst. split; [done|]. by destruct name.
Qed.

Lemma nextCapture_spec s lit n r : nextCapture s = Some (lit, n, r) →
  s = lit +:+ "<" +:+ n +:+ ">" +:+ r ∧ n ≠ "" ∧ (String.length r < String.length s)%nat.
Proof.
  revert lit. induction s as [|c s IH]; intros lit; cbn [nextCapture].
  - done.
  - destruct (captureAt (String c s)) as [[n' r']|] eqn:E.
    + intros [= <- <- <-]. apply captureAt_spec in E as [E Hn]. split_and!; [done|done|].
      rewrite E, !length_app_str. cbn. lia.
    + destruct (nextCapture s) as [[[l' n'] r']|]; [|done]. intros [= <- <- <-].
      destruct (IH l' eq_refl) as (-> & Hn & Hl). split_and!; [done|done|cbn; lia].
Qed.

Lemma parts_text_app l p : parts_text (l ++ [p]) = parts_text l +:+ part_text p.
Proof.
  induction l as [|q l IH]; cbn [app parts_text foldr].
  - by rewrite append_nil_r.
  - fold (parts_text (l ++ [p])). by rewrite IH, append_assoc.
Qed.

Lemma capture_names_app l p : capture_names (l ++ [p]) = capture_names l ++ capture_names [p].
Proof. apply omap_app. Qed.

Lemma alternating_snoc l p : alternating l →
  match p, last l with
  | PLiteral x, Some (PLiteral _) => False
  | PCapture _, Some (PCapture _) => False
  | PLiteral x, _ => x ≠ ""
  | _, _ => True
  end → alternating (l ++ [p]).
Proof.
  induction l as [|q l IH]; intros Hl Hp; [by destruct p|].
  cbn [app alternating] in Hl |- *. destruct Hl as [Hq Hl]. split.
  - destruct l as [|q' l]; [|done]. cbn in *. by destruct p, q.
  - apply IH; [done|]. destruct l; [cbn in *; by destruct p, q|done].
Qed.

Lemma last_capture l : last_is_capture l = true ↔ ∃ n, last l = Some (PCapture n).
Proof. unfold last_is_capture. destruct (last l) as [[]|]; naive_solver. Qed.

(** The state of the loop over the captures of [pat]. *)
Definition compiled_so_far (parts : list patternPart) (seen : list string) : Prop :=
  alternating parts ∧ (last parts = None ∨ ∃ n, last parts = Some (PCapture n)) ∧
  capture_names parts ≡ₚ seen ∧ NoDup seen.

Lemma add_literal parts seen lit : compiled_so_far parts seen → lit ≠ "" →
  alternating (parts ++ [PLiteral lit]) ∧ capture_names (parts ++ [PLiteral lit]) ≡ₚ seen.
Proof.
  intros (Ha & Hl & Hn & _) Hlit. split.
  - apply alternating_snoc; [done|]. by destruct Hl as [->|[n ->]].
  - rewrite capture_names_app. cbn. by rewrite app_nil_r.
Qed.

Lemma add_capture parts seen parts' n seen' :
  (parts' = parts ∧ last parts = None ∨ ∃ lit, lit ≠ "" ∧ parts' = parts ++ [PLiteral lit]) →
  compiled_so_far parts seen →
  (n = "" ∧ seen' = seen ∨ n ≠ "" ∧ n ∉ seen ∧ seen' = n :: seen) →
  compiled_so_far (parts' ++ [PCapture n]) seen'.
Proof.
  intros Hparts Hc Hn. pose proof Hc as (Ha & Hl & Hns & Hnd).
  assert (alternating parts' ∧ capture_names parts' ≡ₚ seen ∧
    match last parts' with Some (PCapture _) => False | _ => True end) as (Ha' & Hn' & Hlast).
  { destruct Hparts as [[-> E]|(lit & Hne & ->)]; [by rewrite E|].
    destruct (add_literal parts seen lit Hc Hne) as [Ha1 Hn1]. by rewrite last_snoc. }
  split_and!.
  - apply alternating_snoc; [done|]. by destruct (last parts') as [[]|].
  - right. rewrite last_snoc. by eexists.
  - rewrite capture_names_app. destruct Hn as [[-> ->]|(Hne & _ & ->)]; cbn.
    + by rewrite app_nil_r.
    + destruct n; [done|]. cbn. rewrite Hn'. by rewrite Permutation_app_comm.
  - destruct Hn as [[_ ->]|(_ & Hf & ->)]; [done|by constructor].
Qed.

Lemma names_perm (l seen : list string) n : l ≡ₚ n :: seen → NoDup (n :: seen) → NoDup l ∧ l ≠ [].
Proof. intros Hp Hnd. split; [by rewrite Hp|]. intros ->. by apply Permutation_nil_cons in Hp. Qed.

Lemma patternLoop_spec fuel msg s : ∀ parts seen out, compiled_so_far parts seen →
  patternLoop fuel msg s parts seen = Ok out →
  parts_text out = parts_text parts +:+ s ∧ alternating out ∧ NoDup (capture_names out) ∧ capture_names out ≠ [].
Proof.
  revert s. induction fuel as [|fuel IH]; intros s parts seen out Hc; [done|]. cbn [patternLoop].
  destruct (nextCapture s) as [[[lit n] r]|] eqn:E.
  - apply nextCapture_spec in E as (-> & Hn & _).
    destruct (String.eqb_spec lit "") as [->|Hlit]; cbn [andb].
    + destruct (last_is_capture parts) eqn:Hlc; [done|].
      assert (last parts = None) as Hlast.
      { destruct Hc as (_ & [?|Hx] & _); [done|]. apply last_capture in Hx. congruence. }
      destruct (String.eqb_spec n "_") as [->|Hn_].
      * intros Hp. eapply IH in Hp; [|by eapply (add_capture parts seen parts); eauto].
        rewrite parts_text_app, append_assoc in Hp. by cbn in Hp.
      * case_bool_decide; [done|]. intros Hp.
        eapply IH in Hp; [|by eapply (add_capture parts seen parts); eauto].
        rewrite parts_text_app, append_assoc in Hp. cbn [part_text] in Hp.
        rewrite (proj2 (String.eqb_neq n "") Hn), !append_assoc in Hp. done.
    + destruct (String.eqb_spec n "_") as [->|Hn_].
      * intros Hp. eapply IH in Hp; [|by eapply (add_capture parts seen (parts ++ [PLiteral lit])); eauto].
        rewrite !parts_text_app, !append_assoc in Hp. by cbn in Hp.
      * case_bool_decide; [done|]. intros Hp.
        eapply IH in Hp; [|by eapply (add_capture parts seen (parts ++ [PLiteral lit])); eauto].
        rewrite !parts_text_app, !append_assoc in Hp. cbn [part_text] in Hp.
        rewrite (proj2 (String.eqb_neq n "") Hn), !append_assoc in Hp. done.
  - destruct seen as [|n0 seen]; [done|]. intros [= <-]. pose proof Hc as (Ha & _ & Hns & Hnd).
    destruct (String.eqb_spec s "") as [->|Hs].
    + rewrite append_nil_r. by destruct (names_perm _ _ _ Hns Hnd).
    + destruct (add_literal parts _ s Hc Hs) as [Ha' Hn']. rewrite parts_text_app.
      by destruct (names_perm _ _ _ Hn' Hnd).
Qed.

(** The loop does not run out of rounds. *)
Lemma patternLoop_ends fuel msg s parts seen : (String.length s < fuel)%nat →
  patternLoop fuel msg s parts seen ≠ Err "fuel".
Proof.
  revert s parts seen. induction fuel as [|fuel IH]; intros s parts seen Hf; [lia|]. cbn [patternLoop].
  destruct (nextCapture s) as [[[lit n] r]|] eqn:E.
  - apply nextCapture_spec in E as (_ & _ & Hl).
    destruct (String.eqb lit "" && last_is_capture parts); [done|].
    destruct (String.eqb n "_"); [apply IH; lia|]. case_bool_decide; [done|apply IH; lia].
  - by destruct seen.
Qed.

(** A compiled pattern is its text cut at the captures: joined again, its parts
    give the pattern; literals are not empty, captures and literals alternate, no
    name occurs twice and there is at least one. *)
Theorem compiled_pattern_is_its_text pat parts : compilePattern pat = Ok parts →
  parts_text parts = pat ∧ alternating parts ∧ NoDup (capture_names parts) ∧ capture_names parts ≠ [].
Proof.
  intros Hc. unfold compilePattern in Hc. apply patternLoop_spec in Hc; [done|].
  split_and!; [done|by left|done|constructor].
Qed.

(** ** Matching *)

(** The first occurrence of [lit] in [v ++ lit] is the last one. *)
Definition ends_at_first (v lit : string) : Prop := ∀ b r, v +:+ lit = b +:+ lit +:+ r → r = "".

Lemma cutAt_first v lit r : ends_at_first v lit → lit ≠ "" → cutAt lit (v +:+ lit +:+ r) = Some (v, r).
Proof.
  intros Hf Hne. induction v as [|c v IH].
  - change ("" +:+ ?x) with x. destruct lit as [|a lit]; [done|]. rewrite app_str_cons. cbn [cutAt].
    change (String a (lit +:+ r)) with (String a lit +:+ r). by rewrite strip_prefix_app.
  - rewrite app_str_cons. cbn [cutAt].
    destruct (strip_prefix lit (String c (v +:+ lit +:+ r))) as [x|] eqn:E.
    + exfalso. apply strip_prefix_spec in E.
      change (String c (v +:+ lit +:+ r)) with (String c v +:+ lit +:+ r) in E.
      rewrite <- append_assoc in E.
      destruct (app_str_cut (String c v +:+ lit) r lit x E) as [y Hy].
      { rewrite !length_app_str. lia. }
      assert (y = "") as -> by (apply (Hf "" y); by change ("" +:+ ?z) with z).
      rewrite append_nil_r in Hy. apply (f_equal String.length) in Hy. rewrite length_app_str in Hy. cbn in Hy. lia.
    + rewrite IH; [done|]. intros b r' Hb. apply (Hf (String c b) r').
      by rewrite !app_str_cons, Hb.
Qed.

(** A value without the first byte of the literal ends at it. *)
Lemma ends_at_first_byte v c lit : all_bytes_of (λ a, negb (Ascii.eqb a c)) v = true →
  ends_at_first v (String c lit).
Proof.
  intros Hv b r. revert v Hv. induction b as [|x b IH]; intros v Hv.
  - change ("" +:+ ?z) with z. destruct v as [|a v].
    + intros E. apply (f_equal String.length) in E. change ("" +:+ ?z) with z in E.
      rewrite length_app_str in E. destruct r; [done|cbn in E; lia].
    + rewrite !app_str_cons. intros [= -> _]. cbn in Hv. by rewrite Ascii.eqb_refl in Hv.
  - destruct v as [|a v].
    + intros E. apply (f_equal String.length) in E. change ("" +:+ ?z) with z in E.
      rewrite app_str_cons in E. cbn [String.length] in E. rewrite !length_app_str in E. cbn in E. lia.
    + rewrite !app_str_cons. intros [= _ E]. cbn in Hv. apply andb_true_iff in Hv as [_ Hv]. by apply (IH v).
Qed.

(** A line made from a pattern and one value per capture. *)
Fixpoint fill (parts : list patternPart) (vs : list string) : string :=
  match parts, vs with
  | [], _ => ""
  | PLiteral l :: parts, vs => l +:+ fill parts vs
  | PCapture _ :: parts, v :: vs => v +:+ fill parts vs
  | PCapture _ :: parts, [] => fill parts []
  end.

(** The named captures with their values. *)
Fixpoint named (parts : list patternPart) (vs : list string) : list (string * string) :=
  match parts, vs with
  | PLiteral _ :: parts, vs => named parts vs
  | PCapture n :: parts, v :: vs => (if String.eqb n "" then [] else [(n, v)]) ++ named parts vs
  | _, _ => []
  end.

Fixpoint capture_count (parts : list patternPart) : nat :=
  match parts with
  | [] => 0
  | PLiteral _ :: parts => capture_count parts
  | PCapture _ :: parts => S (capture_count parts)
  end.

(** No value runs past the literal that follows its capture. *)
Fixpoint separated (parts : list patternPart) (vs : list string) : Prop :=
  match parts, vs with
  | PLiteral _ :: parts, vs => separated parts vs
  | PCapture _ :: parts, v :: vs =>
      match parts with
      | PLiteral lit :: _ => ends_at_first v lit
      | _ => True
      end ∧ separated parts vs
  | _, _ => True
  end.

Definition starts_literal (parts : list patternPart) : bool :=
  match parts with
  | PLiteral _ :: _ => true
  | _ => false
  end.

Lemma matchLoop_fill k : ∀ parts vs out, (length parts ≤ k)%nat → alternating parts → starts_literal parts = false →
  length vs = capture_count parts → separated parts vs →
  matchLoop parts (fill parts vs) out = foldl (λ m nv, <[nv.1 := nv.2]> m) out (named parts vs).
Proof.
  induction k as [|k IH]; intros parts vs out Hk Ha Hs Hv Hsep.
  { destruct parts; [done|cbn in Hk; lia]. }
  destruct parts as [|[l|n] parts]; [done|done|]. cbn [capture_count] in Hv.
  destruct vs as [|v vs]; [done|]. cbn in Hv. injection Hv as Hv.
  destruct parts as [|[lit|n'] parts].
  - cbn. rewrite append_nil_r. unfold setCapture. by destruct (String.eqb n "").
  - cbn [alternating] in Ha. destruct Ha as (_ & Hlit & Ha). cbn [separated] in Hsep. destruct Hsep as [Hf Hsep].
    cbn [fill matchLoop named capture_count] in *. rewrite cutAt_first; [|done|by destruct parts as [|[] ?]].
    rewrite IH; [|cbn in Hk; lia|done| |done|done].
    + rewrite foldl_app. unfold setCapture. by destruct (String.eqb n "").
    + by destruct parts as [|[] ?].
  - by destruct Ha.
Qed.

Lemma named_fst parts vs : length vs = capture_count parts → (named parts vs).*1 = capture_names parts.
Proof.
  revert vs. induction parts as [|[l|n] parts IH]; intros vs Hv; [done|by apply IH|].
  destruct vs as [|v vs]; [done|]. cbn in Hv. injection Hv as Hv. cbn [named].
  rewrite fmap_app, IH by done. by destruct n.
Qed.

Lemma inserts_list_to_map (l : list (string * string)) : NoDup l.*1 → ∀ out : gmap string string,
  foldl (λ m nv, <[nv.1 := nv.2]> m) out l = list_to_map l ∪ out.
Proof.
  induction l as [|[k v] l IH]; intros Hnd out; [cbn; by rewrite (left_id_L ∅ (∪))|].
  cbn in Hnd. apply NoDup_cons in Hnd as [Hk Hnd]. cbn [foldl fst snd]. rewrite IH by done.
  rewrite list_to_map_cons, <- insert_union_l. apply map_eq. intros j. rewrite lookup_insert, lookup_union.
  case_decide as Hj; [subst j|].
  - rewrite lookup_insert_eq, not_elem_of_list_to_map_1 by done. done.
  - by rewrite lookup_insert_ne, lookup_union.
Qed.

(** Matching inverts filling in: for every pattern that compiles and every value
    per capture that does not run past the literal after it, matching the filled-in
    line extracts exactly the values of the named captures. *)
Theorem pattern_extracts_what_was_filled_in pat parts vs :
  compilePattern pat = Ok parts → length vs = capture_count parts → separated parts vs →
  patternMatch parts (fill parts vs) ∅ = list_to_map (named parts vs).
Proof.
  intros Hc Hv Hs. unfold compilePattern in Hc. apply patternLoop_spec in Hc as (_ & Ha & Hnd & _);
    [|split_and!; [done|by left|done|constructor]].
  assert (∀ parts', parts' = parts ∨ (∃ l, parts = PLiteral l :: parts') → starts_literal parts' = false →
    matchLoop parts' (fill parts' vs) ∅ = list_to_map (named parts vs)) as Hloop.
  { intros parts' Hp Hsl. assert (alternating parts' ∧ length vs = capture_count parts' ∧ separated parts' vs ∧
      named parts' vs = named parts vs) as (Ha' & Hv' & Hs' & En).
    { destruct Hp as [->|[l ->]]; [done|]. destruct Ha as [_ Ha]. done. }
    rewrite (matchLoop_fill (length parts')) by done. rewrite En, inserts_list_to_map; [by rewrite (right_id_L ∅ (∪))|].
    by rewrite named_fst. }
  destruct parts as [|[l|n] parts]; cbn [patternMatch fill].
  - by apply Hloop; [left|].
  - rewrite strip_prefix_app. apply Hloop; [right; by eexists|]. by destruct Ha, parts as [|[] ?].
  - by apply (Hloop (PCapture n :: parts)); [left|].
Qed.

(** ** logfmt *)

Lemma logfmtQuoted_of_readQuoted s : ∀ v r, readQuoted dquote s = Some (v, r) → logfmtQuoted s = (v, r).
Proof.
  induction s as [s IH] using (well_founded_induction (well_founded_ltof string String.length)).
  unfold ltof in IH. destruct s as [|c s]; intros v r; [done|]. rewrite readQuoted_cons. cbn [logfmtQuoted].
  destruct (Ascii.eqb c dquote); [by intros [= <- <-]|]. destruct s as [|e s]; [done|].
  change (Ascii.eqb dquote dquote) with true. cbn [andb]. destruct (Ascii.eqb c bslash).
  - destruct (readQuoted dquote s) as [[b r']|] eqn:E; [|done]. intros [= <- <-].
    rewrite (IH s) with (v := b) (r := r'); [done|cbn; lia|done].
  - destruct (readQuoted dquote (String e s)) as [[b r']|] eqn:E; [|done]. intros [= <- <-].
    rewrite (IH (String e s)) with (v := b) (r := r'); [done|cbn; lia|done].
Qed.

Definition bare_byte (c : Ascii.ascii) : bool := negb (blank c || Ascii.eqb c dquote).

(** A pair as logfmt encoders write it: the value is quoted when it has to be. *)
Definition pair_text (kv : string * string) : string :=
  kv.1 +:+ "=" +:+ (if all_bytes_of bare_byte kv.2 then kv.2 else Quote kv.2).

Fixpoint logfmt_text (kvs : list (string * string)) : string :=
  match kvs with
  | [] => ""
  | [kv] => pair_text kv
  | kv :: kvs => pair_text kv +:+ " " +:+ logfmt_text kvs
  end.

Definition good_pair (kv : string * string) : Prop :=
  kv.1 ≠ "" ∧ all_bytes_of key_byte kv.1 = true ∧ all_bytes_of plain_byte kv.2 = true.

Context `{!UnicodeLaws}.

(** One round of the loop. *)
Lemma logfmt_round fuel line k v t out : skipSpace line = pair_text (k, v) +:+ t → good_pair (k, v) →
  starts_with (λ c, negb (blank c)) t = false →
  logfmtLoop (S fuel) line out = logfmtLoop fuel t (<[k := v]> out).
Proof.
  intros Hl (Hk & Hkb & Hv) Ht. cbn [fst snd] in *. unfold pair_text in Hl. cbn [fst snd] in Hl.
  destruct line as [|c line].
  { exfalso. cbn in Hl. apply (f_equal String.length) in Hl. rewrite !length_app_str in Hl.
    destruct k; [done|]. cbn in Hl. lia. }
  cbn [logfmtLoop]. rewrite Hl, !append_assoc. rewrite span_app by done.
  rewrite (proj2 (String.eqb_neq k "") Hk). rewrite strip_prefix_app.
  destruct (all_bytes_of bare_byte v) eqn:Hb.
  - assert (strip_prefix (String dquote "") (v +:+ t) = None) as ->.
    { destruct v as [|a v].
      - change ("" +:+ t) with t. destruct t as [|a t]; [done|]. cbn in Ht |- *.
        apply negb_false_iff in Ht. unfold blank in Ht. by destruct (Ascii.eqb_spec dquote a) as [<-|].
      - rewrite app_str_cons. cbn in Hb |- *. apply andb_true_iff in Hb as [Hb _]. unfold bare_byte in Hb.
        apply negb_true_iff, orb_false_iff in Hb as [_ Hb]. rewrite Ascii.eqb_sym in Hb. by rewrite Hb. }
    rewrite span_app; [done| |done]. clear -Hb. induction v as [|a v IH]; [done|]. cbn in Hb |- *.
    apply andb_true_iff in Hb as [Ha Hb]. rewrite IH by done. unfold bare_byte in Ha.
    apply negb_true_iff, orb_false_iff in Ha as [-> _]. done.
  - rewrite Quote_app. change (String dquote ?x) with (String dquote "" +:+ x). rewrite strip_prefix_app.
    rewrite (logfmtQuoted_of_readQuoted _ v t); [done|]. by apply readQuoted_Quote.
Qed.

Lemma pair_text_length kv : good_pair kv → (1 ≤ String.length (pair_text kv))%nat.
Proof. intros [Hk _]. unfold pair_text. rewrite length_app_str. destruct kv.1; [done|]. cbn. lia. Qed.

Lemma pair_text_head kv t : good_pair kv → starts_with blank (pair_text kv +:+ t) = false.
Proof.
  intros (Hk & Hb & _). unfold pair_text. rewrite append_assoc. destruct kv.1 as [|a k]; [done|].
  rewrite app_str_cons. cbn in Hb |- *. apply andb_true_iff in Hb as [Hb _]. unfold key_byte in Hb.
  by apply negb_true_iff, orb_false_iff in Hb as [_ ->].
Qed.

Lemma logfmt_rounds kvs : Forall good_pair kvs → ∀ fuel line out,
  skipSpace line = logfmt_text kvs → (String.length (logfmt_text kvs) ≤ fuel)%nat →
  (kvs = [] → line = "") →
  logfmtLoop fuel line out = foldl (λ m kv, <[kv.1 := kv.2]> m) out kvs.
Proof.
  induction 1 as [|[k v] kvs Hkv Hkvs IH]; intros fuel line out Hl Hf He.
  { rewrite He by done. by destruct fuel. }
  pose proof (pair_text_length _ Hkv) as Hlen. destruct kvs as [|kv2 kvs].
  - cbn [logfmt_text] in *. destruct fuel as [|fuel]; [lia|].
    rewrite (logfmt_round fuel line k v "") by (done || by rewrite append_nil_r).
    by destruct fuel.
  - change (logfmt_text ((k, v) :: kv2 :: kvs)) with (pair_text (k, v) +:+ " " +:+ logfmt_text (kv2 :: kvs)) in *.
    rewrite !length_app_str in Hf. destruct fuel as [|fuel]; [lia|].
    rewrite (logfmt_round fuel line k v _ out Hl Hkv) by done. apply IH; [|cbn in Hf |- *; lia|done].
    rewrite skipSpace_blank. apply skipSpace_id. apply Forall_cons in Hkvs as [Hkv2 _].
    destruct kvs as [|kv3 kvs]; [|by apply pair_text_head].
    cbn [logfmt_text]. rewrite <- (append_nil_r (pair_text kv2)). by apply pair_text_head.
Qed.

(** Parsing inverts logfmt encoding: a line of [key=value] pairs, values quoted
    where needed, is read back as exactly those pairs, a later duplicate of a key
    winning. *)
Theorem logfmt_roundtrip kvs : Forall good_pair kvs →
  parseLogfmt (logfmt_text kvs) = foldl (λ m kv, <[kv.1 := kv.2]> m) ∅ kvs.
Proof.
  intros Hg. unfold parseLogfmt. apply logfmt_rounds; [done| |done|by intros ->].
  destruct kvs as [|kv kvs]; [done|]. apply Forall_cons in Hg as [Hkv _]. apply skipSpace_id.
  destruct kvs as [|kv2 kvs]; [|by apply pair_text_head].
  cbn [logfmt_text]. rewrite <- (append_nil_r (pair_text kv)). by apply pair_text_head.
Qed.

End Stages.

(** ** Witnesses *)

Module PipeDemo.
Import Filter.FilterDemo.
#[local] Existing Instance ascii_tables.
#[local] Existing Instance ascii_laws.
#[local] Existing Instance integers.
#[local] Existing Instance integer_order.
#[local] Existing Instance no_regexps.

#[local] Instance no_json : Json := {|
  Unmarshal _ := Err "unsupported";
  Marshal _ := "";
  FormatFloat_f := Itoa
|}.

#[local] Instance no_captures : Captures := {|
  re_names _ := [];
  re_submatch _ _ := None
|}.

(** Templates without functions: a label reference, or text. *)
Inductive simple : Type := Reference (f : string) | Constant (s : string).

#[local] Instance simple_templates : Templates := {|
  Tmpl := simple;
  ParseTemplate s :=
    match pureFieldRef s with
    | Some f => Compiled (Reference f)
    | None => if Contains s "{{" then Fatal "function not defined" else Compiled (Constant s)
    end;
  tmpl_Exec t labels _ _ :=
    match t with
    | Reference f => Ok (default "" (labels !! f))
    | Constant s => Ok s
    end
|}.

#[local] Instance simple_laws : TemplateLaws.
Proof.
  constructor.
  - intros s f labels line ts Hf _. exists (Reference f). cbn. by rewrite Hf.
  - intros s labels line ts Hc. exists (Constant s). cbn. by rewrite (no_action_no_ref _ Hc), Hc.
Qed.

Definition entry : Entry := mkEntry 0 "ns=body level=warn" {[ "ns" := "prod"; "a" := "1"; "b" := "2" ]} false.
Definition pipeline : Pipeline := mkPipeline [] [] ["level"] "" "".

Lemma parsers_keep_stream_labels_witness :
  Labels (applyParser pipeline ParserLogfmt "" [] ({[ "ns" ]}, entry)).2 !! "ns" = Some "prod" ∧
  Labels (applyParser pipeline ParserLogfmt "" [] ({[ "ns" ]}, entry)).2 !! "ns_extracted" = Some "body".
Proof.
  destruct (parsers_keep_stream_labels pipeline ParserLogfmt "" [] {[ "ns" ]} entry "ns") as [Hkeep Hext];
    [set_solver|by intros [|]|cbn; set_solver|]. split.
  - apply Hkeep. intros k' E. apply (f_equal String.length) in E. rewrite length_app_str in E. cbn in E. lia.
  - apply Hext; vm_compute; reflexivity.
Defined.

Definition swap : list LabelFormat := [mkFormat "a" "b" true; mkFormat "b" "a" true].

Lemma renames_are_simultaneous_witness :
  Labels (applyLabelFormat swap entry) !! "a" = Some "2" ∧
  Labels (applyLabelFormat swap entry) !! "b" = Some "1" ∧
  Labels (applyLabelFormat swap entry) !! "ns" = Some "prod".
Proof.
  assert (Forall (λ a, lf_Rename a = true) swap) as Hr by (repeat constructor).
  assert (NoDup (lf_Name <$> swap)) as Hnd by (apply (bool_decide_unpack _); vm_compute; exact I).
  destruct (renames_are_simultaneous swap entry Hr Hnd) as [Hin Hout]. split_and!.
  - apply (Hin (mkFormat "a" "b" true)). left.
  - apply (Hin (mkFormat "b" "a" true)). right. left.
  - apply (Hout "ns"). apply (bool_decide_unpack _). vm_compute. exact I.
Defined.

Definition formats : list LabelFormat := [mkFormat "lvl" "{{ .a }}" false; mkFormat "env" "prod" false].

Lemma pushable_format_agrees_witness :
  Labels (applyLabelFormat formats entry) = pushed formats (Labels entry) ∧
  pushed formats (Labels entry) !! "lvl" = Some "1".
Proof.
  split; [|vm_compute; reflexivity]. refine (pushable_format_agrees formats entry _ _ _).
  - vm_compute. reflexivity.
  - repeat constructor.
  - intros a f Ha Hf. unfold formats in Ha. rewrite !elem_of_cons, elem_of_nil in Ha.
    destruct Ha as [->|[->|[]]]; vm_compute in Hf; [injection Hf as <-; vm_compute; reflexivity|discriminate].
Defined.

Lemma rename_swap_called_pushable_witness :
  Labels (applyLabelFormat swap entry) !! "b" = Some "1".
Proof.
  refine (proj1 (proj2 rename_swap_called_pushable entry _ _)); vm_compute; reflexivity.
Defined.

Lemma merge_order_irrelevant_witness :
  mergeParsed {[ "ns" ]} [("ns", "1"); ("x", "2")] ∅ = mergeParsed {[ "ns" ]} [("x", "2"); ("ns", "1")] ∅.
Proof.
  refine (merge_order_irrelevant {[ "ns" ]} [("ns", "1"); ("x", "2")] [("x", "2"); ("ns", "1")] ∅ _ _).
  - apply (bool_decide_unpack _). vm_compute. exact I.
  - apply Permutation_swap.
Defined.

Definition pat : string := "<ip> - <_> [<ts>]".
Definition pat_parts : list patternPart :=
  [PCapture "ip"; PLiteral " - "; PCapture ""; PLiteral " ["; PCapture "ts"; PLiteral "]"].

Lemma pat_compiles : compilePattern pat = Ok pat_parts.
Proof. vm_compute. reflexivity. Qed.

Lemma compiled_pattern_is_its_text_witness : parts_text pat_parts = pat.
Proof. apply (compiled_pattern_is_its_text pat pat_parts pat_compiles). Defined.

Lemma pattern_extracts_what_was_filled_in_witness :
  patternMatch pat_parts "10.0.0.1 - bob [noon]" ∅ = {[ "ip" := "10.0.0.1"; "ts" := "noon" ]}.
Proof.
  refine (pattern_extracts_what_was_filled_in pat pat_parts ["10.0.0.1"; "bob"; "noon"] pat_compiles _ _).
  - reflexivity.
  - cbn. split_and!; try exact I; apply ends_at_first_byte; reflexivity.
Defined.

Lemma logfmt_roundtrip_witness :
  parseLogfmt (logfmt_text [("level", "warn"); ("msg", "a b"); ("level", "x")]) =
    {[ "level" := "x"; "msg" := "a b" ]}.
Proof.
  transitivity (foldl (λ m kv, <[kv.1 := kv.2]> m) (∅ : gmap string string)
    [("level", "warn"); ("msg", "a b"); ("level", "x")]).
  - refine (logfmt_roundtrip [("level", "warn"); ("msg", "a b"); ("level", "x")] _).
    repeat constructor; done.
  - vm_compute. reflexivity.
Defined.

Lemma sanitized_label_legal_witness : sanitizeLabel "9.x-y" = "__x_y" ∧ labelName (sanitizeLabel "9.x-y").
Proof. split; [vm_compute; reflexivity|]. exact (proj1 (sanitized_label_legal "9.x-y") ltac:(discriminate)). Defined.

End PipeDemo.
End Pipe.
