(* ===== verification/LogqlParser.v ===== *)
(** * The LogQL parser (src/internal/logql/parser.go, ip_filter.go)

    A state monad over the parser struct with three outcomes: a value, a Go
    error, or fuel exhausted.  The recursive functions carry fuel; [Parse] gives
    them enough for any input, which [parse_total] proves. *)

From S2P Require Import Prelude GoText Utf8 LogqlScanner LogqlAst.

#[local] Open Scope Z_scope.

(** package net/netip, as [validIPPattern] uses it. *)
Class Netip : Type := {
  Addr : Type;
  ParseAddr : string → option Addr;
  ParsePrefixOk : string → bool;
  BitLen : Addr → Z;
  CompareNoZone : Addr → Addr → Z
}.

Module Parser.
Import Text Utf8 Scanner Ast.

Section Parsing.
Context `{Floats} `{Unicode} `{Netip}.

(** ** The monad *)

Record parser : Type := mkP {
  sc : scanner;
  cur : Token;
  input : string
}.

Inductive outcome (A : Type) : Type :=
| Done (a : A) (p : parser)
| Fail (msg : string)
| NoFuel.
Arguments Done {A} a p.
Arguments Fail {A} msg.
Arguments NoFuel {A}.

Definition P (A : Type) : Type := parser → outcome A.

#[local] Instance P_ret : MRet P := λ A a p, Done a p.

#[local] Instance P_bind : MBind P := λ A B f m p,
  match m p with
  | Done a p => f a p
  | Fail msg => Fail msg
  | NoFuel => NoFuel
  end.

Definition fail {A} (msg : string) : P A := λ _, Fail msg.
Definition no_fuel {A} : P A := λ _, NoFuel.
Definition get : P parser := λ p, Done p p.
Definition tok : P Token := λ p, Done (cur p) p.
Definition typ : P TokType := λ p, Done (Typ (cur p)) p.

(** [fmt.Errorf("...: %w", err)]. *)
Definition errorf {A} (f : string → string) (m : P A) : P A := λ p,
  match m p with
  | Fail msg => Fail (f msg)
  | o => o
  end.

Definition is_typ (a b : TokType) : bool := bool_decide (a = b).

(** ** Messages *)

Definition newParseError (line col : Z) (msg : string) : string :=
  if (line =? 0) && (col =? 0) then "parse error : " +:+ msg
  else "parse error at line " +:+ Itoa line +:+ ", col " +:+ Itoa col +:+ ": " +:+ msg.

(** [strings.ToUpper] on the ASCII operation names. *)
Fixpoint upper (s : string) : string :=
  match s with
  | "" => ""
  | String a s =>
      String (if ((97 <=? byte_of a) && (byte_of a <=? 122))%nat
              then Ascii.ascii_of_nat (byte_of a - 32) else a) (upper s)
  end.

Definition lokiTokenName (t : Token) : string :=
  match Typ t with
  | TokEOF => "$end"
  | TokNumber => "NUMBER"
  | TokString | TokRawString => "STRING"
  | TokDuration => "RANGE"
  | TokIdent =>
      if String.eqb (Val t) "label_replace" then Val t
      else if isRangeOp (Val t) then upper (Val t)
      else if isVectorOp (Val t) || String.eqb (Val t) "vector" then upper (Val t)
      else "IDENTIFIER"
  | other => TokType_String other
  end.

Definition syntaxError {A} (expecting : string) : P A := λ p,
  let msg := "syntax error: unexpected " +:+ lokiTokenName (cur p) in
  let msg := if String.eqb expecting "" then msg else msg +:+ ", expecting " +:+ expecting in
  if is_typ (Typ (cur p)) TokEOF
  then Fail (newParseError 1 (len (input p) + 1) msg)
  else Fail (newParseError 0 0 msg).

Definition got (t : Token) : string :=
  TokType_String (Typ t) +:+ " (" +:+ Quote (Val t) +:+ ")".

(** ** Token level *)

Definition advance : P Token := λ p,
  let '(t, s) := next (sc p) in Done (cur p) (mkP s t (input p)).

Definition peekTyp (p : parser) : TokType := Typ (fst (next (sc p))).

Definition expect (t : TokType) : P Token :=
  c ← tok;
  if is_typ (Typ c) t then advance
  else fail ("logql: expected " +:+ TokType_String t +:+ ", got " +:+ got c).

Definition validIPPattern (pattern : string) : bool :=
  match ParseAddr pattern with
  | Some _ => true
  | None =>
      if ParsePrefixOk pattern then true
      else
        match Cut "-" pattern with
        | None => false
        | Some (from, to) =>
            match ParseAddr from, ParseAddr to with
            | Some lo, Some hi => (BitLen lo =? BitLen hi) && (CompareNoZone lo hi <=? 0)
            | _, _ => false
            end
        end
  end.

Definition isLineFilterOperator (t : TokType) : bool :=
  match t with
  | TokPipeEq | TokBangEq | TokPipeTilde | TokBangTilde | TokPipeGt | TokBangGt => true
  | _ => false
  end.

(** A string, a raw string or [name(string)]. *)
Fixpoint expectStringOrRaw (fuel : nat) : P string :=
  match fuel with
  | O => no_fuel
  | S fuel =>
      c ← tok;
      match Typ c with
      | TokString | TokRawString => t ← advance; mret (Val t)
      | TokIdent =>
          name ← advance;
          c ← typ;
          if is_typ c TokLParen then
            _ ← advance;
            val ← expectStringOrRaw fuel;
            _ ← expect TokRParen;
            if String.eqb (Val name) "ip" && negb (validIPPattern val)
            then fail ("ip: invalid pattern: " +:+ Quote val)
            else mret (Val name +:+ "(" +:+ val +:+ ")")
          else fail ("logql: expected STRING or RAWSTRING, got IDENT (" +:+ Quote (Val name) +:+ ")")
      | _ => fail ("logql: expected STRING or RAWSTRING, got " +:+ got c)
      end
  end.

(** Labels separated by optional commas, as in groupings and label lists. *)
Fixpoint labelLoop (fuel : nat) (acc : list string) : P (list string) :=
  match fuel with
  | O => no_fuel
  | S fuel =>
      c ← typ;
      if is_typ c TokIdent then
        l ← advance;
        c ← typ;
        if is_typ c TokComma then _ ← advance; labelLoop fuel (acc ++ [Val l])
        else labelLoop fuel (acc ++ [Val l])
      else mret acc
  end.

Definition parseLabelList (fuel : nat) : P (list string) :=
  c ← typ;
  if negb (is_typ c TokLParen) then mret []
  else
    _ ← advance;
    labels ← labelLoop fuel [];
    _ ← expect TokRParen;
    mret labels.

Definition parseGrouping (fuel : nat) : P Grouping :=
  c ← typ;
  _ ← advance;
  _ ← expect TokLParen;
  labels ← labelLoop fuel [];
  _ ← expect TokRParen;
  mret (mkGrouping (is_typ c TokWithout) labels).

(** ** Stream selector *)

Definition matchOp (t : TokType) : option MatchOp :=
  match t with
  | TokEq => Some MatchEq
  | TokNeq => Some MatchNeq
  | TokReMatch => Some MatchRe
  | TokReNotMatch => Some MatchNotRe
  | _ => None
  end.

Definition parseLabelMatcher (fuel : nat) : P LabelMatcher :=
  name ← errorf (λ e, "logql: expected label name: " +:+ e) (expect TokIdent);
  c ← tok;
  match matchOp (Typ c) with
  | None => fail ("logql: expected label operator, got " +:+ got c)
  | Some op =>
      _ ← advance;
      v ← errorf (λ e, "logql: expected label value after " +:+ Quote (Val name) +:+ ": " +:+ e)
            (expectStringOrRaw fuel);
      mret (mkLM (Val name) op v)
  end.

Fixpoint matcherLoop (fuel : nat) (acc : list LabelMatcher) : P (list LabelMatcher) :=
  match fuel with
  | O => no_fuel
  | S fuel' =>
      m ← parseLabelMatcher fuel;
      c ← typ;
      if is_typ c TokComma then _ ← advance; matcherLoop fuel' (acc ++ [m])
      else mret (acc ++ [m])
  end.

Definition parseStreamSelector (fuel : nat) : P StreamSelector :=
  _ ← expect TokLBrace;
  c ← typ;
  if is_typ c TokRBrace then _ ← advance; mret []
  else
    ms ← matcherLoop fuel [];
    _ ← expect TokRBrace;
    mret ms.

(** ** Pipeline stages *)

Fixpoint parseLineFilterOrList (fuel : nat) (acc : list string) : P (list string) :=
  match fuel with
  | O => no_fuel
  | S fuel' =>
      p ← get;
      if is_typ (Typ (cur p)) TokOr then
        match peekTyp p with
        | TokString | TokRawString =>
            _ ← advance;
            v ← expectStringOrRaw fuel;
            parseLineFilterOrList fuel' (acc ++ [v])
        | _ => mret acc
        end
      else mret acc
  end.

Definition lineFilterOp (t : TokType) : LineFilterOp :=
  match t with
  | TokBangEq => LineFilterExcludes
  | TokPipeTilde => LineFilterMatchRe
  | TokBangTilde => LineFilterExcludeRe
  | TokPipeGt => LineFilterContainsPat
  | TokBangGt => LineFilterExcludePat
  | _ => LineFilterContains
  end.

Definition parseLineFilterStage (fuel : nat) : P Stage :=
  t ← advance;
  c ← tok;
  let isIP := is_typ (Typ c) TokIdent && String.eqb (Val c) "ip" in
  if isIP && negb (is_typ (Typ t) TokPipeEq) && negb (is_typ (Typ t) TokBangEq)
  then fail "ip: invalid operation"
  else
    value ← expectStringOrRaw fuel;
    if isIP then
      mret (LineFilterStage (lineFilterOp (Typ t))
              (TrimSuffix (TrimPrefix value "ip(") ")") true [])
    else
      alts ← parseLineFilterOrList fuel [];
      mret (LineFilterStage (lineFilterOp (Typ t)) value false alts).

Definition startsLabelFilterOperand (t : Token) : bool :=
  match Typ t with
  | TokLParen | TokComma | TokAnd | TokOr => true
  | TokEOF => String.eqb (Val t) ""
  | _ => false
  end.

Definition isAlphanumeric (a : Ascii.ascii) : bool :=
  let c := b2z a in
  ((97 <=? c) && (c <=? 122)) || ((65 <=? c) && (c <=? 90)) || ((48 <=? c) && (c <=? 57)) || (c =? 95).

Definition tokenRaw (t : Token) : string :=
  match Typ t with
  | TokString => Quote (Val t)
  | TokRawString => quoteParserArgument (Val t)
  | TokEq => "="
  | TokNeq | TokBangEq => "!="
  | TokReMatch => "=~"
  | TokReNotMatch | TokBangTilde => "!~"
  | TokComma => ", "
  | TokLParen => "("
  | TokRParen => ")"
  | TokLBrace => "{"
  | TokRBrace => "}"
  | _ => Val t
  end.

Fixpoint last_byte (s : string) : option Ascii.ascii :=
  match s with
  | "" => None
  | String a "" => Some a
  | String _ s => last_byte s
  end.

Definition appendStageToken (b : string) (t : Token) : string :=
  let raw := tokenRaw t in
  match last_byte b, raw with
  | Some prev, String c _ =>
      if isAlphanumeric c &&
         (isAlphanumeric prev || Ascii.eqb prev dquote || Ascii.eqb prev "`")
      then b +:+ " " +:+ raw else b +:+ raw
  | _, _ => b +:+ raw
  end.

Definition zeroTok : Token := mkTok TokEOF "".

Fixpoint restLoop (fuel : nat) (b : string) (depth : nat) (prev prevPrev : Token) : P string :=
  match fuel with
  | O => no_fuel
  | S fuel =>
      c ← tok;
      let consume d := t ← advance; restLoop fuel (appendStageToken b t) d c prev in
      match Typ c with
      | TokEOF | TokPipe | TokPipeEq | TokPipeTilde | TokPipeGt | TokBangGt | TokLBracket => mret b
      | TokLParen => consume (S depth)
      | TokRParen => if (depth =? 0)%nat then mret b else consume (pred depth)
      | TokBangEq | TokBangTilde =>
          if negb (String.eqb b "") &&
             (negb (is_typ (Typ prev) TokIdent) || negb (startsLabelFilterOperand prevPrev))
          then mret b else consume depth
      | _ => consume depth
      end
  end.

Definition consumeRestOfStage (fuel : nat) : P string := restLoop fuel "" 0 zeroTok zeroTok.

Fixpoint rangeLoop (fuel : nat) : P unit :=
  match fuel with
  | O => no_fuel
  | S fuel =>
      c ← typ;
      if is_typ c TokRBracket || is_typ c TokEOF then mret tt
      else _ ← advance; rangeLoop fuel
  end.

Definition consumeRange (fuel : nat) : P unit :=
  c ← typ;
  if negb (is_typ c TokLBracket) then mret tt
  else
    _ ← advance;
    _ ← rangeLoop fuel;
    c ← typ;
    if is_typ c TokRBracket then _ ← advance; mret tt else mret tt.

Definition parseUnwrap (fuel : nat) : P Stage :=
  c ← typ;
  if is_typ c TokLBracket then _ ← consumeRange fuel; mret (UnwrapStage "" "")
  else if negb (is_typ c TokIdent) then fail "logql: expected label name after unwrap"
  else
    name ← advance;
    c ← typ;
    if is_typ c TokLParen then
      _ ← advance;
      c ← typ;
      if is_typ c TokRParen then
        _ ← advance;
        _ ← consumeRange fuel;
        mret (UnwrapStage "" (Val name))
      else
        label ← expect TokIdent;
        _ ← expect TokRParen;
        mret (UnwrapStage (Val label) (Val name))
    else mret (UnwrapStage (Val name) "").

(** The operator of a drop/keep matcher outside braces. *)
Definition dropOp (t : TokType) : option string :=
  match t with
  | TokEq => Some "="
  | TokBangEq => Some "!="
  | TokReMatch => Some "=~"
  | TokBangTilde => Some "!~"
  | _ => None
  end.

(** One item: a matcher when an operator follows the name, else a bare label. *)
Definition dropItem (fuel : nat) (name : string) (labels : list string) (ms : list DropMatcher)
    : P (list string * list DropMatcher) :=
  c ← typ;
  match dropOp c with
  | Some op => _ ← advance; v ← expectStringOrRaw fuel; mret (labels, ms ++ [mkDM name op v])
  | None => mret (labels ++ [name], ms)
  end.

Fixpoint dropLoop (fuel : nat) (labels : list string) (ms : list DropMatcher)
    : P (list string * list DropMatcher) :=
  match fuel with
  | O => no_fuel
  | S fuel' =>
      c ← typ;
      if is_typ c TokIdent then
        name ← advance;
        '(labels, ms) ← dropItem fuel (Val name) labels ms;
        c ← typ;
        if is_typ c TokComma then _ ← advance; dropLoop fuel' labels ms
        else mret (labels, ms)
      else mret (labels, ms)
  end.

Definition parseDropKeepList (fuel : nat) : P (list string * list DropMatcher) :=
  c ← typ;
  if negb (is_typ c TokIdent)
  then fail "logql: expected at least one label name or matcher after drop/keep"
  else dropLoop fuel [] [].

(** The optional [= "expression"] after a field name; [end1] is where the name
    ended. *)
Definition fieldItem (name : string) (end1 : nat) : P (nat * ExtractionField) :=
  c ← typ;
  if is_typ c TokEq then
    _ ← advance;
    p ← get;
    if negb (is_typ (Typ (cur p)) TokString) && negb (is_typ (Typ (cur p)) TokRawString)
    then syntaxError "STRING"
    else v ← advance; mret (pos (sc p), mkField name (Val v))
  else mret (end1, mkField name name).

(** The field loop: the end of the list in the input and the fields. *)
Fixpoint fieldLoop (fuel : nat) (end_ : nat) (fields : list ExtractionField)
    : P (nat * list ExtractionField) :=
  match fuel with
  | O => no_fuel
  | S fuel =>
      p ← get;
      if is_typ (Typ (cur p)) TokIdent then
        let end1 := pos (sc p) in
        name ← advance;
        '(end2, field) ← fieldItem (Val name) end1;
        p ← get;
        if negb (is_typ (Typ (cur p)) TokComma) then mret (end2, fields ++ [field])
        else
          let end3 := pos (sc p) in
          _ ← advance;
          c ← typ;
          if negb (is_typ c TokIdent) then syntaxError "IDENTIFIER"
          else fieldLoop fuel end3 (fields ++ [field])
      else mret (end_, fields)
  end.

Definition consumeExplicitFieldList (fuel start : nat) : P (string * list ExtractionField) :=
  '(end_, fields) ← fieldLoop fuel start [];
  p ← get;
  mret (TrimSpace (prefix (end_ - start) (suffix start (input p))), fields).

Fixpoint labelFormatLoop (fuel : nat) (raw : string) (fs : list LabelFormat) : P Stage :=
  match fuel with
  | O => no_fuel
  | S fuel =>
      c ← typ;
      if negb (is_typ c TokIdent) then syntaxError "IDENTIFIER"
      else
        name ← advance;
        c ← typ;
        if negb (is_typ c TokEq) then syntaxError "="
        else
          eq ← advance;
          c ← typ;
          match c with
          | TokString | TokRawString | TokIdent =>
              v ← advance;
              let raw := appendStageToken (appendStageToken (appendStageToken raw name) eq) v in
              let fs := fs ++ [mkFormat (Val name) (Val v) (is_typ c TokIdent)] in
              c ← typ;
              if negb (is_typ c TokComma) then mret (LabelFormatStage raw fs)
              else
                comma ← advance;
                labelFormatLoop fuel (appendStageToken raw comma) fs
          | _ => syntaxError "IDENTIFIER or STRING"
          end
  end.

Definition parseLabelFormat (fuel : nat) : P Stage := labelFormatLoop fuel "" [].

(** What follows the stage name [kw], which ends at byte [start]. *)
Definition stageBody (fuel : nat) (kw : string) (start : nat) : P Stage :=
  if String.eqb kw "json" then
    '(param, fields) ← consumeExplicitFieldList fuel start;
    mret (ParserStage ParserJSON param fields)
  else if String.eqb kw "logfmt" then
    '(param, fields) ← consumeExplicitFieldList fuel start;
    mret (ParserStage ParserLogfmt param fields)
  else if String.eqb kw "regexp" then
    param ← expectStringOrRaw fuel;
    mret (ParserStage ParserRegexp param [])
  else if String.eqb kw "pattern" then
    param ← expectStringOrRaw fuel;
    mret (ParserStage ParserPattern param [])
  else if String.eqb kw "unpack" then mret (ParserStage ParserUnpack "" [])
  else if String.eqb kw "drop" then
    '(labels, ms) ← parseDropKeepList fuel;
    mret (DropStage labels ms)
  else if String.eqb kw "keep" then
    '(labels, ms) ← parseDropKeepList fuel;
    mret (KeepStage labels ms)
  else if String.eqb kw "decolorize" then mret DecolorizeStage
  else if String.eqb kw "unwrap" then parseUnwrap fuel
  else if String.eqb kw "line_format" then
    v ← expectStringOrRaw fuel;
    mret (LineFormatStage v)
  else if String.eqb kw "label_format" then parseLabelFormat fuel
  else
    c ← tok;
    if is_typ (Typ c) TokIdent
    then fail ("logql: parse error: unexpected identifier " +:+ Quote (Val c) +:+ " after "
               +:+ Quote kw +:+ " in pipeline stage")
    else if is_typ (Typ c) TokLParen
    then fail ("logql: parse error: unexpected " +:+ kw)
    else
      raw ← consumeRestOfStage fuel;
      mret (LabelFilterStage (kw +:+ raw)).

Definition parsePipeBody (fuel : nat) : P Stage :=
  p ← get;
  let c := cur p in
  if is_typ (Typ c) TokLParen then
    raw ← consumeRestOfStage fuel;
    mret (LabelFilterStage raw)
  else if negb (is_typ (Typ c) TokIdent)
  then fail ("logql: expected stage name after |, got " +:+ TokType_String (Typ c))
  else
    let kw := Val c in
    let start := pos (sc p) in
    _ ← advance;
    stageBody fuel kw start.

(** [None] when no stage follows. *)
Definition parsePipelineStage (fuel : nat) : P (option Stage) :=
  c ← typ;
  if isLineFilterOperator c then s ← parseLineFilterStage fuel; mret (Some s)
  else if is_typ c TokPipe then _ ← advance; s ← parsePipeBody fuel; mret (Some s)
  else mret None.

Fixpoint pipelineLoop (fuel : nat) (acc : list Stage) : P (list Stage) :=
  match fuel with
  | O => no_fuel
  | S fuel' =>
      s ← parsePipelineStage fuel;
      match s with
      | None => mret acc
      | Some s => pipelineLoop fuel' (acc ++ [s])
      end
  end.

Definition parseLogQuery (fuel : nat) : P LogQuery :=
  sel ← parseStreamSelector fuel;
  stages ← pipelineLoop fuel [];
  mret (mkLQ sel stages).

(** ** Metric expressions *)

Definition binaryPrecedence (t : TokType) : nat :=
  match t with
  | TokOr => 1
  | TokAnd | TokUnless => 2
  | TokEqEq | TokBangEq | TokLt | TokLtEq | TokGt | TokGtEq => 3
  | TokPlus | TokMinus => 4
  | TokStar | TokSlash | TokPercent => 5
  | TokCaret => 6
  | _ => 0
  end.

(** The byte position after the closing parenthesis, if it is reached. *)
Fixpoint balancedLoop (fuel : nat) (depth endPos : nat) : P (option nat) :=
  match fuel with
  | O => no_fuel
  | S fuel =>
      p ← get;
      if (depth =? 0)%nat then mret (Some endPos)
      else
        match Typ (cur p) with
        | TokEOF => mret None
        | TokLParen => _ ← advance; balancedLoop fuel (S depth) endPos
        | TokRParen =>
            _ ← advance;
            balancedLoop fuel (pred depth)
              (if (depth =? 1)%nat then pos (sc p) else endPos)
        | _ => _ ← advance; balancedLoop fuel depth endPos
        end
  end.

Definition consumeBalancedParens (fuel : nat) : P (option nat) := balancedLoop fuel 1 0.

Definition durationUnit (d : string) : string :=
  let fix trailing (s acc : string) : string :=
    match s with
    | "" => acc
    | String a s =>
        match digit_of a with
        | Some _ => acc
        | None => trailing s (String a acc)
        end
    end in
  trailing (Text.rev d) "".

(** Loki's error for an argument that is not a log selector; [None] is accepted. *)
Fixpoint probeParens (fuel : nat) (expecting : string) (p : parser) : option (string * parser) :=
  match fuel with
  | O => None
  | S fuel =>
      if is_typ (Typ (cur p)) TokLParen then
        let '(t, s) := next (sc p) in probeParens fuel "{ or (" (mkP s t (input p))
      else Some (expecting, p)
  end.

Definition checkRangeAggregationArgument (fuel : nat) (numberAllowed : bool) : P unit := λ p,
  match probeParens fuel (if numberAllowed then "NUMBER or { or (" else "{ or (") p with
  | None => NoFuel
  | Some (expecting, probe) =>
      if is_typ (Typ (cur probe)) TokLBrace then Done tt p
      else
        let msg := "syntax error: unexpected " +:+ lokiTokenName (cur probe)
                   +:+ ", expecting " +:+ expecting in
        match Typ (cur probe) with
        | TokEOF => Fail (newParseError 1 (len (input p) + 1) msg)
        | TokIdent | TokNumber =>
            Fail (newParseError 1
              (Z.of_nat (pos (sc probe)) - len (Val (cur probe)) + 1) msg)
        | _ => Fail (newParseError 0 0 msg)
        end
  end.

(** The phi of [quantile_over_time], when it is there. *)
Definition parseQuantileParam : P (option F) :=
  c ← tok;
  match Typ c with
  | TokNumber =>
      match ParseFloat (Val c) with
      | Err e => fail ("logql: invalid phi: " +:+ e)
      | Ok phi => _ ← advance; _ ← expect TokComma; mret (Some phi)
      end
  | TokMinus =>
      _ ← advance;
      c ← tok;
      if negb (is_typ (Typ c) TokNumber)
      then fail "logql: expected number after '-' in quantile_over_time"
      else
        match ParseFloat (Val c) with
        | Err e => fail ("logql: invalid phi: " +:+ e)
        | Ok phi => _ ← advance; _ ← expect TokComma; mret (Some (Fneg phi))
        end
  | _ => mret None
  end.

Definition optOffset : P string :=
  c ← tok;
  if is_typ (Typ c) TokIdent && String.eqb (Val c) "offset" then
    _ ← advance;
    off ← errorf (λ e, "logql: expected duration after offset: " +:+ e) (expect TokDuration);
    mret (Val off)
  else mret "".

(** The @ modifier is parsed and dropped. *)
Definition optAt : P unit :=
  c ← typ;
  if is_typ c TokAt then
    _ ← advance;
    c ← tok;
    if is_typ (Typ c) TokNumber then _ ← advance; mret tt
    else if is_typ (Typ c) TokIdent && (String.eqb (Val c) "start" || String.eqb (Val c) "end") then
      _ ← advance;
      _ ← errorf (λ _, "logql: expected '(' after start/end in @ modifier") (expect TokLParen);
      _ ← errorf (λ _, "logql: expected ')' after start/end in @ modifier") (expect TokRParen);
      mret tt
    else fail ("logql: expected unix timestamp or start()/end() after @, got " +:+ Val c)
  else mret tt.

(** From the bracket to the closing parenthesis: range and offset. *)
Definition parseRangeTail : P (string * string) :=
  p ← get;
  let bracketCol := Z.of_nat (pos (sc p)) in
  _ ← errorf (λ _, "logql: expected '[' for range, got " +:+ got (cur p)) (expect TokLBracket);
  dur ← errorf (λ e, "logql: expected duration: " +:+ e) (expect TokDuration);
  c ← tok;
  if is_typ (Typ c) TokError && String.eqb (Val c) ":" then
    _ ← advance;
    c ← tok;
    let literal := Val dur +:+ ":" +:+ (if is_typ (Typ c) TokDuration then Val c else "") in
    fail (newParseError 0 bracketCol
      ("unknown unit " +:+ Quote (durationUnit (Val dur) +:+ ":") +:+ " in duration "
       +:+ Quote literal))
  else
    _ ← expect TokRBracket;
    offset ← optOffset;
    _ ← optAt;
    _ ← expect TokRParen;
    mret (Val dur, offset).

(** The on/ignoring and group modifiers of a binary operator. *)
Definition parseVectorMatching (fuel : nat) : P (option VectorMatching) :=
  c ← typ;
  if is_typ c TokOn || is_typ c TokIgnoring then
    card ← advance;
    labels ← parseLabelList fuel;
    c ← typ;
    if is_typ c TokGroupLeft || is_typ c TokGroupRight then
      side ← advance;
      include ← parseLabelList fuel;
      mret (Some (mkVM (Val card) labels (Val side) include))
    else mret (Some (mkVM (Val card) labels "" []))
  else mret None.

Definition optBool : P bool :=
  c ← tok;
  if is_typ (Typ c) TokIdent && String.eqb (Val c) "bool"
  then _ ← advance; mret true else mret false.

Definition optGroupingP (fuel : nat) : P (option Grouping) :=
  c ← typ;
  if is_typ c TokBy || is_typ c TokWithout then g ← parseGrouping fuel; mret (Some g)
  else mret None.

(** The k of topk and bottomk. *)
Definition parseK (op : string) : P (option F) :=
  if String.eqb op "topk" || String.eqb op "bottomk" then
    t ← errorf (λ _, "logql: " +:+ op +:+ " requires a numeric k parameter") (expect TokNumber);
    match Atoi (Val t) with
    | None => fail (newParseError 0 0 ("invalid parameter " +:+ op +:+ "(" +:+ Val t +:+ ","))
    | Some k =>
        if k <=? 0 then
          fail (newParseError 0 0
            ("invalid parameter (must be greater than 0) " +:+ op +:+ "(" +:+ Val t))
        else
          _ ← errorf (λ _, "logql: expected ',' after k in " +:+ op) (expect TokComma);
          mret (Some (Fof_int k))
    end
  else mret None.

Definition zeroF : F := Fof_int 0.

Definition parseNumber (f : F → F) : P Expr :=
  c ← tok;
  match ParseFloat (Val c) with
  | Err _ => fail ("logql: invalid number " +:+ Quote (Val c))
  | Ok v => _ ← advance; mret (LiteralExpr (f v))
  end.

(** A metric function the parser does not know: its source text. *)
Definition parseOpaque (fuel : nat) : P Expr :=
  p ← get;
  let startPos := (pos (sc p) - String.length (Val (cur p)))%nat in
  name ← advance;
  c ← typ;
  if is_typ c TokLParen then
    _ ← advance;
    r ← consumeBalancedParens fuel;
    match r with
    | None => fail ("logql: unterminated '(' after " +:+ Quote (Val name))
    | Some endPos =>
        if (endPos <? startPos)%nat
        then fail ("logql: unterminated '(' after " +:+ Quote (Val name))
        else
          mret (OpaqueMetricExpr
            (TrimSpace (prefix (endPos - startPos) (suffix startPos (input p)))))
    end
  else fail ("logql: unexpected identifier " +:+ Quote (Val name)).

(** One round of each function of the grammar that recurs, with the functions it calls as
    arguments; [fuel] bounds the loops of its own. *)
Section Rounds.
Context (rExpr rPrimary : P Expr) (rBinaryRHS : Expr → nat → P Expr)
  (rRange : string → P (Expr * string * string * option F)) (rVector : string → P Expr).

Definition parsePrimaryRound (fuel : nat) : P Expr :=
  c ← tok;
  match Typ c with
  | TokEOF => fail "logql: empty expression"
  | TokNumber => parseNumber (λ v, v)
  | TokMinus =>
      _ ← advance;
      c ← typ;
      if negb (is_typ c TokNumber) then fail "logql: expected number after '-'"
      else parseNumber Fneg
  | TokIdent =>
      if isVectorOp (Val c) then rVector (Val c)
      else if isRangeOp (Val c) then
        '(inner, range, offset, param) ← rRange (Val c);
        g ← optGroupingP fuel;
        mret (RangeAggregation (Val c) inner range offset (default zeroF param)
                (match param with Some _ => true | None => false end) g)
      else parseOpaque fuel
  | TokLParen =>
      _ ← advance;
      inner ← rExpr;
      _ ← expect TokRParen;
      mret inner
  | TokLBrace => q ← parseLogQuery fuel; mret (LogQueryExpr q)
  | _ => fail ("logql: unexpected token " +:+ got c)
  end.

Definition parseBinaryRHSRound (fuel : nat) (lhs : Expr) (minPrecedence : nat) : P Expr :=
  c ← typ;
  let precedence := binaryPrecedence c in
  if (precedence <? minPrecedence)%nat then mret lhs
  else
    op ← advance;
    returnBool ← optBool;
    vm ← parseVectorMatching fuel;
    rhs ← rPrimary;
    let nextPrecedence :=
      if String.eqb (Val op) "^" then precedence else S precedence in
    rhs ← rBinaryRHS rhs nextPrecedence;
    rBinaryRHS (BinOpExpr lhs rhs (Val op) returnBool vm) minPrecedence.

Definition parseRangeAggregationRound (fuel : nat) (op : string) : P (Expr * string * string * option F) :=
  _ ← advance;
  _ ← expect TokLParen;
  param ← (if String.eqb op "quantile_over_time" then parseQuantileParam else mret None);
  _ ← checkRangeAggregationArgument fuel
        (match param with Some _ => false | None => true end);
  c ← typ;
  inner ←
    (if is_typ c TokLBrace then q ← parseLogQuery fuel; mret (LogQueryExpr q)
     else
       e ← rPrimary;
       match e with
       | LogQueryExpr _ => mret e
       | _ => fail (newParseError 0 0
                "syntax error: unexpected expression in range aggregation, expecting { or (")
       end);
  '(range, offset) ← parseRangeTail;
  mret (inner, range, offset, param).

Definition parseVectorAggregationRound (fuel : nat) (op : string) : P Expr :=
  _ ← advance;
  g ← optGroupingP fuel;
  _ ← expect TokLParen;
  k ← parseK op;
  inner ← rExpr;
  _ ← expect TokRParen;
  g ← (match g with Some _ => mret g | None => optGroupingP fuel end);
  mret (VectorAggregation op g (default zeroF k)
          (match k with Some _ => true | None => false end) inner).

End Rounds.

Fixpoint parseExpr (fuel : nat) : P Expr :=
  match fuel with
  | O => no_fuel
  | S fuel => lhs ← parsePrimary fuel; parseBinaryRHS fuel lhs 1
  end
with parsePrimary (fuel : nat) : P Expr :=
  match fuel with
  | O => no_fuel
  | S fuel => parsePrimaryRound (parseExpr fuel) (parseRangeAggregation fuel) (parseVectorAggregation fuel) fuel
  end
with parseBinaryRHS (fuel : nat) (lhs : Expr) (minPrecedence : nat) : P Expr :=
  match fuel with
  | O => no_fuel
  | S fuel => parseBinaryRHSRound (parsePrimary fuel) (parseBinaryRHS fuel) fuel lhs minPrecedence
  end
with parseRangeAggregation (fuel : nat) (op : string) : P (Expr * string * string * option F) :=
  match fuel with
  | O => no_fuel
  | S fuel => parseRangeAggregationRound (parsePrimary fuel) fuel op
  end
with parseVectorAggregation (fuel : nat) (op : string) : P Expr :=
  match fuel with
  | O => no_fuel
  | S fuel => parseVectorAggregationRound (parseExpr fuel) fuel op
  end.

(** Four rounds of fuel per byte left cover the deepest nesting. *)
Definition fuelFor (s : string) : nat := 4 * String.length s + 8.

Definition start (s : string) : parser :=
  let '(t, sc) := next (newScanner s) in mkP sc t s.

Definition Parse (s : string) : outcome Expr :=
  match parseExpr (fuelFor s) (start s) with
  | Done e p =>
      if is_typ (Typ (cur p)) TokEOF then Done e p
      else Fail ("logql: unexpected token " +:+ Quote (Val (cur p)) +:+ " at position "
                 +:+ Itoa (Z.of_nat (pos (sc p))))
  | o => o
  end.

Definition typeName (e : Expr) : string :=
  match e with
  | LogQueryExpr _ => "*logql.LogQuery"
  | RangeAggregation _ _ _ _ _ _ _ => "*logql.RangeAggregation"
  | VectorAggregation _ _ _ _ _ => "*logql.VectorAggregation"
  | BinOpExpr _ _ _ _ _ => "*logql.BinOpExpr"
  | LiteralExpr _ => "*logql.LiteralExpr"
  | OpaqueMetricExpr _ => "*logql.OpaqueMetricExpr"
  end.

Definition ParseLogQuery (s : string) : outcome LogQuery :=
  match Parse s with
  | Done (LogQueryExpr q) p => Done q p
  | Done e _ => Fail ("logql: expression is not a log query: " +:+ typeName e)
  | Fail msg => Fail msg
  | NoFuel => NoFuel
  end.

(** ** Totality *)

(** Bytes left to scan, and the token in hand: the bytes of an identifier, one for
    any other token. *)
Definition tokenSize (t : Token) : nat :=
  match Typ t with
  | TokEOF => 0
  | TokIdent => Nat.max 1 (String.length (Val t))
  | _ => 1
  end.

Definition left_ (p : parser) : nat := (remaining (sc p) + tokenSize (cur p))%nat.

Definition pwf (p : parser) : Prop := Scanner.wf (sc p).

(** The outcome is not fuel exhaustion and leaves at most [n]. *)
Definition ends {A} (n : nat) (o : outcome A) : Prop :=
  match o with
  | Done _ p => pwf p ∧ (left_ p ≤ n)%nat
  | Fail _ => True
  | NoFuel => False
  end.

Lemma ends_bind {A B} (f : A → P B) (m : P A) p n1 n :
  ends n1 (m p) → (∀ a p', pwf p' → (left_ p' ≤ n1)%nat → ends n (f a p')) →
  ends n (mbind f m p).
Proof.
  unfold mbind, P_bind, ends. destruct (m p) as [a p'|msg|]; [|done|done].
  intros [Hw Hl] Hf. by apply Hf.
Qed.

Lemma ends_ret {A} (a : A) p n : pwf p → (left_ p ≤ n)%nat → ends n (mret (M := P) a p).
Proof. done. Qed.

Lemma ends_errorf {A} f (m : P A) p n : ends n (m p) → ends n (errorf f m p).
Proof. unfold errorf, ends. by destruct (m p). Qed.

Lemma ends_weaken {A} (o : outcome A) n1 n : (n1 ≤ n)%nat → ends n1 o → ends n o.
Proof. unfold ends. destruct o; [|done|done]. intros Hn [Hw Hl]. split; [done|lia]. Qed.

Lemma is_typ_true a b : is_typ a b = true → a = b.
Proof. apply bool_decide_eq_true_1. Qed.

Lemma next_left s : Scanner.wf s →
  Scanner.wf (snd (next s)) ∧ (remaining (snd (next s)) + tokenSize (fst (next s)) ≤ remaining s)%nat.
Proof.
  intros Hw. pose proof (next_ident s Hw) as Hi.
  destruct (next_moves s Hw) as [(He & Hm & _)|(He & Hm)]; pose proof (moves_remaining _ _ _ Hm Hw);
    (split; [apply Hm|]); unfold tokenSize.
  - rewrite He. lia.
  - destruct (Typ (fst (next s))) eqn:E; first [specialize (Hi eq_refl)|clear Hi]; done || lia.
Qed.

Lemma tokenSize_pos t : Typ t ≠ TokEOF → (1 ≤ tokenSize t)%nat.
Proof. unfold tokenSize. destruct (Typ t); [done|lia..]. Qed.

Lemma advance_any p : pwf p → ends (left_ p) (advance p).
Proof.
  intros Hw. unfold advance. pose proof (next_left (sc p) Hw) as [Hw' Hn].
  destruct (next (sc p)) as [t s]. cbn [fst snd] in *. unfold ends, left_, pwf. cbn [sc cur].
  split; [done|lia].
Qed.

Lemma left_pos p : Typ (cur p) ≠ TokEOF → (1 ≤ left_ p)%nat.
Proof. intros He%tokenSize_pos. unfold left_. lia. Qed.

Lemma advance_tok p : pwf p → Typ (cur p) ≠ TokEOF → ends (left_ p - 1) (advance p).
Proof.
  intros Hw Hc%tokenSize_pos. unfold advance. pose proof (next_left (sc p) Hw) as [Hw' Hn].
  destruct (next (sc p)) as [t s]. cbn [fst snd] in *. unfold ends, left_, pwf. cbn [sc cur].
  split; [done|lia].
Qed.

Lemma expect_ends t p : pwf p → t ≠ TokEOF → ends (left_ p - 1) (expect t p).
Proof.
  intros Hw Ht. unfold expect. unfold mbind, P_bind, tok.
  destruct (is_typ (Typ (cur p)) t) eqn:E; [|done].
  apply is_typ_true in E. apply advance_tok; [done|congruence].
Qed.

Lemma bind_typ {B} (f : TokType → P B) p : mbind f typ p = f (Typ (cur p)) p.
Proof. done. Qed.

Lemma bind_tok {B} (f : Token → P B) p : mbind f tok p = f (cur p) p.
Proof. done. Qed.

Lemma bind_get {B} (f : parser → P B) p : mbind f get p = f p p.
Proof. done. Qed.

Lemma is_typ_ne p t : is_typ (Typ (cur p)) t = true → t ≠ TokEOF → Typ (cur p) ≠ TokEOF.
Proof. intros ->%is_typ_true. done. Qed.

Lemma syntaxError_ends {A} s p n : ends n (syntaxError (A := A) s p).
Proof. unfold syntaxError. cbv zeta. by destruct (is_typ (Typ (cur p)) TokEOF). Qed.

Create HintDb ends.
#[local] Hint Resolve ends_errorf expect_ends : ends.
#[local] Hint Extern 1 (pwf _) => assumption : ends.
#[local] Hint Extern 1 (_ < _)%nat => lia : ends.
#[local] Hint Extern 1 (_ ≠ _) => discriminate : ends.

(** One step of a totality proof: read the token, branch, or run a call whose
    bound is in the [ends] database. *)
Ltac end_step :=
  match goal with
  | |- ends _ (mbind ?f typ ?p) => rewrite (bind_typ f p)
  | |- ends _ (mbind ?f tok ?p) => rewrite (bind_tok f p)
  | |- ends _ (mbind ?f get ?p) => rewrite (bind_get f p)
  | |- ends _ (mret _ _) => apply ends_ret; [assumption|try lia]
  | |- ends _ (fail _ _) => exact I
  | |- ends _ (syntaxError _ _) => apply syntaxError_ends
  | |- ends _ ((if ?b then _ else _) _) => destruct b eqn:?
  | |- ends _ ((match ?t with TokEOF => _ | _ => _ end) _) => destruct t eqn:?
  | |- ends _ ((let '(_, _) := ?x in _) _) => destruct x
  | |- ends _ ((match ?x with Some _ => _ | None => _ end) _) => destruct x
  | |- ends _ ((match ?x with Ok _ => _ | Err _ => _ end) _) => destruct x
  | |- ends _ (mbind _ advance ?p) =>
      let Hc := fresh "Hc" in
      assert (Typ (cur p) ≠ TokEOF) as Hc
        by solve [congruence | eapply is_typ_ne; [eassumption|discriminate]];
      pose proof (left_pos p Hc);
      eapply ends_bind; [apply (advance_tok p); assumption|intros ? ? ? ?]
  | |- ends _ (mbind _ advance ?p) =>
      eapply ends_bind; [apply (advance_any p); assumption|intros ? ? ? ?]
  | |- ends _ (mbind _ _ _) =>
      eapply ends_bind; [solve [eauto with ends nocore]|intros ? ? ? ?]
  | |- ends _ _ => eapply ends_weaken; [|solve [eauto with ends nocore]]; try lia
  end.

Ltac end_steps := repeat (end_step; cbv beta zeta); try done; try lia.

Lemma expectStringOrRaw_ends fuel p :
  pwf p → (left_ p < fuel)%nat → ends (left_ p - 1) (expectStringOrRaw fuel p).
Proof.
  revert p. induction fuel as [|fuel IH]; intros p Hw Hf; [lia|]. cbn [expectStringOrRaw]. end_steps.
Qed.
#[local] Hint Resolve expectStringOrRaw_ends : ends.

Lemma labelLoop_ends fuel acc p :
  pwf p → (left_ p < fuel)%nat → ends (left_ p) (labelLoop fuel acc p).
Proof.
  revert acc p. induction fuel as [|fuel IH]; intros acc p Hw Hf; [lia|]. cbn [labelLoop]. end_steps.
Qed.
#[local] Hint Resolve labelLoop_ends : ends.

Lemma parseLabelList_ends fuel p :
  pwf p → (left_ p < fuel)%nat → ends (left_ p) (parseLabelList fuel p).
Proof. intros Hw Hf. unfold parseLabelList. end_steps. Qed.
#[local] Hint Resolve parseLabelList_ends : ends.

Lemma parseGrouping_ends fuel p :
  pwf p → (left_ p < fuel)%nat → ends (left_ p - 1) (parseGrouping fuel p).
Proof. intros Hw Hf. unfold parseGrouping. end_steps. Qed.
#[local] Hint Resolve parseGrouping_ends : ends.

Lemma parseLabelMatcher_ends fuel p :
  pwf p → (left_ p < fuel)%nat → ends (left_ p - 1) (parseLabelMatcher fuel p).
Proof. intros Hw Hf. unfold parseLabelMatcher. end_steps. Qed.
#[local] Hint Resolve parseLabelMatcher_ends : ends.

Lemma matcherLoop_ends fuel acc p :
  pwf p → (left_ p < fuel)%nat → ends (left_ p - 1) (matcherLoop fuel acc p).
Proof.
  revert acc p. induction fuel as [|fuel IH]; intros acc p Hw Hf; [lia|]. cbn [matcherLoop]. end_steps.
Qed.
#[local] Hint Resolve matcherLoop_ends : ends.

Lemma parseStreamSelector_ends fuel p :
  pwf p → (left_ p < fuel)%nat → ends (left_ p - 1) (parseStreamSelector fuel p).
Proof. intros Hw Hf. unfold parseStreamSelector. end_steps. Qed.
#[local] Hint Resolve parseStreamSelector_ends : ends.

Lemma parseLineFilterOrList_ends fuel acc p :
  pwf p → (left_ p < fuel)%nat → ends (left_ p) (parseLineFilterOrList fuel acc p).
Proof.
  revert acc p. induction fuel as [|fuel IH]; intros acc p Hw Hf; [lia|].
  cbn [parseLineFilterOrList]. end_steps.
Qed.
#[local] Hint Resolve parseLineFilterOrList_ends : ends.

Lemma parseLineFilterStage_ends fuel p :
  pwf p → (left_ p < fuel)%nat → isLineFilterOperator (Typ (cur p)) = true →
  ends (left_ p - 1) (parseLineFilterStage fuel p).
Proof.
  intros Hw Hf Ho. assert (Typ (cur p) ≠ TokEOF) by (intros E; by rewrite E in Ho).
  unfold parseLineFilterStage. end_steps.
Qed.
#[local] Hint Resolve parseLineFilterStage_ends : ends.

Lemma restLoop_ends fuel b depth prev prevPrev p :
  pwf p → (left_ p < fuel)%nat → ends (left_ p) (restLoop fuel b depth prev prevPrev p).
Proof.
  revert b depth prev prevPrev p. induction fuel as [|fuel IH]; intros b depth prev prevPrev p Hw Hf; [lia|].
  cbn [restLoop]. end_steps.
Qed.
#[local] Hint Resolve restLoop_ends : ends.

Lemma consumeRestOfStage_ends fuel p :
  pwf p → (left_ p < fuel)%nat → ends (left_ p) (consumeRestOfStage fuel p).
Proof. apply restLoop_ends. Qed.
#[local] Hint Resolve consumeRestOfStage_ends : ends.

Lemma rangeLoop_ends fuel p :
  pwf p → (left_ p < fuel)%nat → ends (left_ p) (rangeLoop fuel p).
Proof.
  revert p. induction fuel as [|fuel IH]; intros p Hw Hf; [lia|]. cbn [rangeLoop].
  rewrite bind_typ. destruct (_ || _) eqn:E; [end_steps|].
  apply orb_false_iff in E as [_ E]. apply bool_decide_eq_false_1 in E. end_steps.
Qed.
#[local] Hint Resolve rangeLoop_ends : ends.

Lemma consumeRange_ends fuel p :
  pwf p → (left_ p < fuel)%nat → ends (left_ p) (consumeRange fuel p).
Proof. intros Hw Hf. unfold consumeRange. end_steps. Qed.
#[local] Hint Resolve consumeRange_ends : ends.

Lemma negb_is_typ p t : negb (is_typ (Typ (cur p)) t) = false → t ≠ TokEOF → Typ (cur p) ≠ TokEOF.
Proof. rewrite negb_false_iff. intros ->%is_typ_true. done. Qed.

Lemma parseUnwrap_ends fuel p :
  pwf p → (left_ p < fuel)%nat → ends (left_ p) (parseUnwrap fuel p).
Proof. intros Hw Hf. unfold parseUnwrap. end_steps. Qed.
#[local] Hint Resolve parseUnwrap_ends : ends.

Lemma dropItem_ends fuel name labels ms p :
  pwf p → (left_ p < fuel)%nat → ends (left_ p) (dropItem fuel name labels ms p).
Proof. intros Hw Hf. unfold dropItem. end_steps. Qed.
#[local] Hint Resolve dropItem_ends : ends.

Lemma dropLoop_ends fuel labels ms p :
  pwf p → (left_ p < fuel)%nat → ends (left_ p) (dropLoop fuel labels ms p).
Proof.
  revert labels ms p. induction fuel as [|fuel IH]; intros labels ms p Hw Hf; [lia|].
  cbn [dropLoop]. end_steps.
Qed.
#[local] Hint Resolve dropLoop_ends : ends.

Lemma parseDropKeepList_ends fuel p :
  pwf p → (left_ p < fuel)%nat → ends (left_ p) (parseDropKeepList fuel p).
Proof. intros Hw Hf. unfold parseDropKeepList. end_steps. Qed.
#[local] Hint Resolve parseDropKeepList_ends : ends.

Lemma fieldItem_ends name end1 p : pwf p → ends (left_ p) (fieldItem name end1 p).
Proof.
  intros Hw. unfold fieldItem. rewrite bind_typ. destruct (is_typ _ _) eqn:E; [|end_steps].
  end_step. rewrite bind_get. destruct (_ && _); end_steps.
Qed.
#[local] Hint Resolve fieldItem_ends : ends.

Lemma fieldLoop_ends fuel end_ fields p :
  pwf p → (left_ p < fuel)%nat → ends (left_ p) (fieldLoop fuel end_ fields p).
Proof.
  revert end_ fields p. induction fuel as [|fuel IH]; intros end_ fields p Hw Hf; [lia|].
  cbn [fieldLoop]. end_steps.
Qed.
#[local] Hint Resolve fieldLoop_ends : ends.

Lemma consumeExplicitFieldList_ends fuel start p :
  pwf p → (left_ p < fuel)%nat → ends (left_ p) (consumeExplicitFieldList fuel start p).
Proof. intros Hw Hf. unfold consumeExplicitFieldList. end_steps. Qed.
#[local] Hint Resolve consumeExplicitFieldList_ends : ends.

Lemma labelFormatLoop_ends fuel raw fs p :
  pwf p → (left_ p < fuel)%nat → ends (left_ p) (labelFormatLoop fuel raw fs p).
Proof.
  revert raw fs p. induction fuel as [|fuel IH]; intros raw fs p Hw Hf; [lia|].
  cbn [labelFormatLoop]. end_steps.
Qed.
#[local] Hint Resolve labelFormatLoop_ends : ends.

Lemma parseLabelFormat_ends fuel p :
  pwf p → (left_ p < fuel)%nat → ends (left_ p) (parseLabelFormat fuel p).
Proof. apply labelFormatLoop_ends. Qed.
#[local] Hint Resolve parseLabelFormat_ends : ends.

Lemma stageBody_ends fuel kw start p :
  pwf p → (left_ p < fuel)%nat → ends (left_ p) (stageBody fuel kw start p).
Proof. intros Hw Hf. unfold stageBody. end_steps. Qed.
#[local] Hint Resolve stageBody_ends : ends.

Lemma parsePipeBody_ends fuel p :
  pwf p → (left_ p < fuel)%nat → ends (left_ p) (parsePipeBody fuel p).
Proof. intros Hw Hf. unfold parsePipeBody. end_steps. Qed.
#[local] Hint Resolve parsePipeBody_ends : ends.

Lemma parsePipelineStage_ends fuel p :
  pwf p → (left_ p < fuel)%nat →
  match parsePipelineStage fuel p with
  | Done (Some _) p' => pwf p' ∧ (left_ p' < left_ p)%nat
  | Done None p' => p' = p
  | Fail _ => True
  | NoFuel => False
  end.
Proof.
  intros Hw Hf. unfold parsePipelineStage. rewrite bind_typ.
  destruct (isLineFilterOperator (Typ (cur p))) eqn:Ho.
  - assert (1 ≤ left_ p)%nat by (apply left_pos; intros E; by rewrite E in Ho).
    pose proof (parseLineFilterStage_ends fuel p Hw Hf Ho) as He. unfold mbind, P_bind, mret, P_ret.
    destruct (parseLineFilterStage fuel p) as [s p'|msg|]; [|done|done].
    destruct He. split; [done|lia].
  - destruct (is_typ (Typ (cur p)) TokPipe) eqn:E; [|done].
    assert (Typ (cur p) ≠ TokEOF) as Hc by (eapply is_typ_ne; [exact E|discriminate]).
    pose proof (left_pos p Hc). pose proof (advance_tok p Hw Hc) as Ha.
    unfold mbind, P_bind, mret, P_ret. destruct (advance p) as [a p1|msg|]; [|done|done].
    destruct Ha as [Hw1 Hl1]. pose proof (parsePipeBody_ends fuel p1 Hw1 ltac:(lia)) as He.
    destruct (parsePipeBody fuel p1) as [s p'|msg|]; [|done|done].
    destruct He. split; [done|lia].
Qed.

Lemma pipelineLoop_ends fuel acc p :
  pwf p → (left_ p < fuel)%nat → ends (left_ p) (pipelineLoop fuel acc p).
Proof.
  revert acc p. induction fuel as [|fuel IH]; intros acc p Hw Hf; [lia|]. cbn [pipelineLoop].
  pose proof (parsePipelineStage_ends (S fuel) p Hw Hf) as Hs. unfold mbind, P_bind.
  destruct (parsePipelineStage (S fuel) p) as [[s|] p'|msg|]; try done.
  - destruct Hs. eapply ends_weaken; [|apply IH; [done|lia]]. lia.
  - subst p'. split; [done|lia].
Qed.
#[local] Hint Resolve pipelineLoop_ends : ends.

Lemma parseLogQuery_ends fuel p :
  pwf p → (left_ p < fuel)%nat → ends (left_ p - 1) (parseLogQuery fuel p).
Proof. intros Hw Hf. unfold parseLogQuery. end_steps. Qed.
#[local] Hint Resolve parseLogQuery_ends : ends.

Lemma balancedLoop_ends fuel depth endPos p :
  pwf p → (left_ p < fuel)%nat → ends (left_ p) (balancedLoop fuel depth endPos p).
Proof.
  revert depth endPos p. induction fuel as [|fuel IH]; intros depth endPos p Hw Hf; [lia|].
  cbn [balancedLoop]. end_steps.
Qed.

Lemma consumeBalancedParens_ends fuel p :
  pwf p → (left_ p < fuel)%nat → ends (left_ p) (consumeBalancedParens fuel p).
Proof. apply balancedLoop_ends. Qed.
#[local] Hint Resolve consumeBalancedParens_ends : ends.

Lemma probeParens_some fuel s p :
  pwf p → (left_ p < fuel)%nat → is_Some (probeParens fuel s p).
Proof.
  revert s p. induction fuel as [|fuel IH]; intros s p Hw Hf; [lia|]. cbn [probeParens].
  destruct (is_typ (Typ (cur p)) TokLParen) eqn:E; [|by eexists].
  assert (Typ (cur p) ≠ TokEOF) as Hc by (eapply is_typ_ne; [exact E|discriminate]).
  pose proof (left_pos p Hc). pose proof (advance_tok p Hw Hc) as Ha. unfold advance in Ha.
  destruct (next (sc p)) as [t s']. destruct Ha. apply IH; [done|lia].
Qed.

Lemma checkRangeAggregationArgument_ends fuel b p :
  pwf p → (left_ p < fuel)%nat → ends (left_ p) (checkRangeAggregationArgument fuel b p).
Proof.
  intros Hw Hf. unfold checkRangeAggregationArgument.
  destruct (probeParens_some fuel (if b then "NUMBER or { or (" else "{ or (") p Hw Hf) as [[e q] ->].
  destruct (is_typ (Typ (cur q)) TokLBrace); [split; [done|lia]|].
  cbv zeta. by destruct (Typ (cur q)).
Qed.
#[local] Hint Resolve checkRangeAggregationArgument_ends : ends.

Lemma parseQuantileParam_ends p : pwf p → ends (left_ p) (parseQuantileParam p).
Proof. intros Hw. unfold parseQuantileParam. end_steps. Qed.
#[local] Hint Resolve parseQuantileParam_ends : ends.

Lemma quantile_ends op p :
  pwf p → ends (left_ p) ((if String.eqb op "quantile_over_time" then parseQuantileParam else mret None) p).
Proof. intros Hw. destruct (String.eqb _ _); [by apply parseQuantileParam_ends|end_steps]. Qed.
#[local] Hint Resolve quantile_ends : ends.

Lemma optOffset_ends p : pwf p → ends (left_ p) (optOffset p).
Proof.
  intros Hw. unfold optOffset. rewrite bind_tok. destruct (_ && _); end_steps.
Qed.
#[local] Hint Resolve optOffset_ends : ends.

Lemma optAt_ends p : pwf p → ends (left_ p) (optAt p).
Proof.
  intros Hw. unfold optAt. end_steps.
Qed.
#[local] Hint Resolve optAt_ends : ends.

Lemma parseRangeTail_ends p : pwf p → ends (left_ p) (parseRangeTail p).
Proof. intros Hw. unfold parseRangeTail. end_steps. Qed.
#[local] Hint Resolve parseRangeTail_ends : ends.

Lemma parseVectorMatching_ends fuel p :
  pwf p → (left_ p < fuel)%nat → ends (left_ p) (parseVectorMatching fuel p).
Proof. intros Hw Hf. unfold parseVectorMatching. end_steps. Qed.
#[local] Hint Resolve parseVectorMatching_ends : ends.

Lemma optBool_ends p : pwf p → ends (left_ p) (optBool p).
Proof. intros Hw. unfold optBool. end_steps. Qed.
#[local] Hint Resolve optBool_ends : ends.

Lemma optGroupingP_ends fuel p :
  pwf p → (left_ p < fuel)%nat → ends (left_ p) (optGroupingP fuel p).
Proof. intros Hw Hf. unfold optGroupingP. end_steps. Qed.
#[local] Hint Resolve optGroupingP_ends : ends.

Lemma trailing_ends fuel g p :
  pwf p → (left_ p < fuel)%nat →
  ends (left_ p) ((match g with Some _ => mret g | None => optGroupingP fuel end) p).
Proof. intros Hw Hf. destruct g; [end_steps|by apply optGroupingP_ends]. Qed.
#[local] Hint Resolve trailing_ends : ends.

Lemma parseK_ends op p : pwf p → ends (left_ p) (parseK op p).
Proof. intros Hw. unfold parseK. end_steps. Qed.
#[local] Hint Resolve parseK_ends : ends.

Lemma parseNumber_ends f p : pwf p → Typ (cur p) ≠ TokEOF → ends (left_ p - 1) (parseNumber f p).
Proof. intros Hw Hc. unfold parseNumber. end_steps. Qed.

Lemma parseOpaque_ends fuel p :
  pwf p → (left_ p < fuel)%nat → Typ (cur p) ≠ TokEOF → ends (left_ p - 1) (parseOpaque fuel p).
Proof. intros Hw Hf Hc. unfold parseOpaque. end_steps. Qed.

(** Enough fuel for each recursive function, in terms of what is left. *)
Definition enough (fuel : nat) : Prop :=
  (∀ p, pwf p → (4 * left_ p + 3 ≤ fuel)%nat → ends (left_ p - 1) (parseExpr fuel p)) ∧
  (∀ p, pwf p → (4 * left_ p + 2 ≤ fuel)%nat → ends (left_ p - 1) (parsePrimary fuel p)) ∧
  (∀ lhs m p, pwf p → (1 ≤ m)%nat → (4 * left_ p + 2 ≤ fuel)%nat →
     ends (left_ p) (parseBinaryRHS fuel lhs m p)) ∧
  (∀ op p, pwf p → Typ (cur p) ≠ TokEOF → (4 * left_ p + 1 ≤ fuel)%nat →
     ends (left_ p - 1) (parseRangeAggregation fuel op p)) ∧
  (∀ op p, pwf p → Typ (cur p) ≠ TokEOF → (4 * left_ p + 1 ≤ fuel)%nat →
     ends (left_ p - 1) (parseVectorAggregation fuel op p)).

Lemma enough_primary fuel p :
  enough fuel → pwf p → (4 * left_ p + 2 ≤ S fuel)%nat → ends (left_ p - 1) (parsePrimary (S fuel) p).
Proof.
  intros (HE & HP & HB & HR & HV) Hw Hf. cbn [parsePrimary]; unfold parsePrimaryRound. rewrite bind_tok.
  destruct (Typ (cur p)) eqn:Ht; try exact I;
    assert (Typ (cur p) ≠ TokEOF) as Hc by congruence; pose proof (left_pos p Hc).
  - (* { *) end_steps.
  - (* ( *) end_step. eapply ends_bind; [apply HE; [done|lia]|intros ? ? ? ?]. end_steps.
  - (* identifier *) destruct (isVectorOp _); [apply HV; [done|done|lia]|].
    destruct (isRangeOp _); [|apply parseOpaque_ends; [done|lia|done]].
    eapply ends_bind; [apply HR; [done|done|lia]|]. intros [[[inner range] offset] param] p' Hw' Hl'.
    end_steps.
  - (* number *) by apply parseNumber_ends.
  - (* minus *) end_step. rewrite bind_typ. destruct (negb _) eqn:E; [exact I|].
    eapply ends_weaken; [|apply parseNumber_ends; [done|by eapply negb_is_typ]]. lia.
Qed.

Lemma binary_prec_ge_1 t : (1 ≤ binaryPrecedence t)%nat → t ≠ TokEOF.
Proof. intros Hp ->. simpl in Hp. lia. Qed.

Lemma enough_binary fuel lhs m p :
  enough fuel → pwf p → (1 ≤ m)%nat → (4 * left_ p + 2 ≤ S fuel)%nat →
  ends (left_ p) (parseBinaryRHS (S fuel) lhs m p).
Proof.
  intros (HE & HP & HB & HR & HV) Hw Hm Hf. cbn [parseBinaryRHS]; unfold parseBinaryRHSRound. rewrite bind_typ. cbv zeta.
  destruct (Nat.ltb_spec (binaryPrecedence (Typ (cur p))) m) as [Hlt|Hge]; [end_steps|].
  assert (Typ (cur p) ≠ TokEOF) as Hc by (apply binary_prec_ge_1; lia). end_step.
  end_step. end_step.
  eapply ends_bind; [apply HP; [done|lia]|intros ? ? ? ?].
  eapply ends_bind; [apply HB; [done| |lia]|intros ? ? ? ?].
  { destruct (String.eqb _ _); lia. }
  eapply ends_weaken; [|apply HB; [done|done|lia]]. lia.
Qed.

Lemma enough_range fuel op p :
  enough fuel → pwf p → Typ (cur p) ≠ TokEOF → (4 * left_ p + 1 ≤ S fuel)%nat →
  ends (left_ p - 1) (parseRangeAggregation (S fuel) op p).
Proof.
  intros (HE & HP & HB & HR & HV) Hw Hc Hf. cbn [parseRangeAggregation]; unfold parseRangeAggregationRound.
  pose proof (left_pos p Hc). end_step. end_step. end_step. end_step.
  rewrite bind_typ.
  eapply (ends_bind _ _ _ (left_ p - 1)); [|intros ? ? ? ?; end_steps].
  match goal with |- ends _ ((if ?b then _ else _) _) => destruct b end.
  - end_steps.
  - eapply ends_bind; [apply HP; [done|lia]|]. intros e ? ? ?. destruct e; end_steps.
Qed.

Lemma enough_vector fuel op p :
  enough fuel → pwf p → Typ (cur p) ≠ TokEOF → (4 * left_ p + 1 ≤ S fuel)%nat →
  ends (left_ p - 1) (parseVectorAggregation (S fuel) op p).
Proof.
  intros (HE & HP & HB & HR & HV) Hw Hc Hf. cbn [parseVectorAggregation]; unfold parseVectorAggregationRound.
  pose proof (left_pos p Hc). end_step. end_step. end_step. end_step.
  eapply ends_bind; [apply HE; [done|lia]|intros ? ? ? ?]. end_steps.
Qed.

Lemma enough_all fuel : enough fuel.
Proof.
  induction fuel as [|fuel IH].
  - repeat split; intros; lia.
  - split_and!.
    + intros p Hw Hf. cbn [parseExpr]. destruct IH as (_ & HP & HB & _).
      eapply ends_bind; [apply HP; [done|lia]|intros ? ? ? ?].
      eapply ends_weaken; [|apply HB; [done|lia|lia]]. lia.
    + intros p Hw Hf. by apply enough_primary.
    + intros lhs m p Hw Hm Hf. by apply enough_binary.
    + intros op p Hw Hc Hf. by apply enough_range.
    + intros op p Hw Hc Hf. by apply enough_vector.
Qed.

Lemma start_ends s : pwf (start s) ∧ (left_ (start s) ≤ String.length s)%nat.
Proof.
  unfold start. assert (Scanner.wf (newScanner s)) as Hw by (unfold Scanner.wf, newScanner; cbn; lia).
  pose proof (next_left (newScanner s) Hw) as [Hw' Hn]. destruct (next (newScanner s)) as [t sc'].
  unfold pwf, left_. cbn [sc cur fst snd] in *. split; [done|].
  rewrite (remaining_eq (newScanner s)) in Hn. cbn in Hn. lia.
Qed.

(** ** Opaque calls are bounded by their query *)

(** Every opaque call in the tree is at most [n] bytes long. *)
Fixpoint opaque_le (n : nat) (e : Expr) : Prop :=
  match e with
  | LogQueryExpr _ | LiteralExpr _ => True
  | RangeAggregation _ inner _ _ _ _ _ | VectorAggregation _ _ _ _ inner => opaque_le n inner
  | BinOpExpr l r _ _ _ => opaque_le n l ∧ opaque_le n r
  | OpaqueMetricExpr raw => (String.length raw ≤ n)%nat
  end.

Lemma opaque_le_mono n m e : (n ≤ m)%nat → opaque_le n e → opaque_le m e.
Proof. intros Hn. induction e; cbn; try tauto. lia. Qed.

Definition bounded (n : nat) (o : outcome Expr) : Prop :=
  match o with
  | Done e _ => opaque_le n e
  | _ => True
  end.

(** Runs a call whose bound is known and then the rest. *)
Lemma bounded_bind {A} n1 n (f : A → P Expr) (m : P A) p :
  ends n1 (m p) → (∀ a p', m p = Done a p' → pwf p' → (left_ p' ≤ n1)%nat → bounded n (f a p')) →
  bounded n (mbind f m p).
Proof.
  unfold mbind, P_bind, ends. destruct (m p) as [a p'|msg|] eqn:E; [|done|done].
  intros [Hw Hl] Hf. by apply Hf.
Qed.

Lemma bounded_weaken o n1 n : (n1 ≤ n)%nat → bounded n1 o → bounded n o.
Proof. destruct o; cbn; [apply opaque_le_mono|done|done]. Qed.

Lemma balancedLoop_pos fuel depth endPos p k q : pwf p → (endPos ≤ String.length (src (sc p)))%nat →
  balancedLoop fuel depth endPos p = Done (Some k) q → (k ≤ String.length (src (sc p)))%nat.
Proof.
  revert depth endPos p. induction fuel as [|fuel IH]; intros d e p Hw He; cbn [balancedLoop]; [done|].
  rewrite bind_get. destruct (d =? 0)%nat; [intros [= <- <-]; done|].
  assert (Scanner.wf (snd (next (sc p))) ∧ src (snd (next (sc p))) = src (sc p)) as [Hw' Hs].
  { destruct (next_moves (sc p) Hw) as [(_ & (E & _ & W) & _)|(_ & E & _ & W)]; done. }
  assert (∀ d e, (e ≤ String.length (src (sc p)))%nat → mbind (λ _, balancedLoop fuel d e) advance p = Done (Some k) q →
    (k ≤ String.length (src (sc p)))%nat) as Hnext.
  { intros d' e' He' Hb. unfold mbind, P_bind, advance in Hb. destruct (next (sc p)) as [t s].
    cbn [fst snd] in *. rewrite <- Hs in *. by apply (IH _ _ (mkP s t (input p))) in Hb. }
  destruct (Typ (cur p)); try by apply Hnext.
  - done.
  - apply Hnext. unfold pwf, Scanner.wf in Hw. destruct (d =? 1)%nat; lia.
Qed.

Lemma parseOpaque_bounded fuel p : pwf p → Typ (cur p) = TokIdent → bounded (left_ p) (parseOpaque fuel p).
Proof.
  intros Hw Ht. unfold parseOpaque. rewrite bind_get. cbv zeta.
  unfold mbind at 1, P_bind at 1. destruct (advance p) as [name p1|m|] eqn:Ea; [|done|done].
  assert (src (sc p1) = src (sc p) ∧ pwf p1) as [Es1 Hw1].
  { unfold advance in Ea. destruct (next_moves (sc p) Hw) as [(_ & (E & _ & W) & _)|(_ & E & _ & W)];
    destruct (next (sc p)) as [t s]; injection Ea as <- <-; done. }
  rewrite bind_typ. destruct (is_typ _ _); [|done].
  unfold mbind at 1, P_bind at 1. destruct (advance p1) as [t2 p2|m|] eqn:Ea2; [|done|done].
  assert (src (sc p2) = src (sc p) ∧ pwf p2) as [Es2 Hw2].
  { unfold advance in Ea2. destruct (next_moves (sc p1) Hw1) as [(_ & (E & _ & W) & _)|(_ & E & _ & W)];
    destruct (next (sc p1)) as [t s]; injection Ea2 as <- <-; cbn in *; split; congruence || done. }
  unfold mbind at 1, P_bind at 1. destruct (consumeBalancedParens fuel p2) as [[k|] q|m|] eqn:Eb; try done.
  apply balancedLoop_pos in Eb; [|done|lia]. destruct (_ <? _)%nat; [done|]. cbn [bounded opaque_le mret P_ret].
  etrans; [apply length_TrimSpace|]. etrans; [apply length_prefix|].
  rewrite Es2 in Eb. unfold left_, tokenSize. rewrite Ht, remaining_eq. lia.
Qed.

Lemma bind_done {A B} (f : A → P B) (m : P A) p b q :
  mbind f m p = Done b q → ∃ a p', m p = Done a p' ∧ f a p' = Done b q.
Proof. unfold mbind, P_bind. destruct (m p) as [a p'|msg|]; [|done|done]. intros E. by exists a, p'. Qed.

Ltac done_step H :=
  let a := fresh "a" in let p := fresh "p" in let E := fresh "E" in
  apply bind_done in H as (a & p & E & H).

(** The operand of a range aggregation is a log query. *)
Lemma range_inner fuel op p inner r o k q :
  parseRangeAggregation fuel op p = Done (inner, r, o, k) q → ∃ lq, inner = LogQueryExpr lq.
Proof.
  destruct fuel as [|fuel]; [done|]. cbn [parseRangeAggregation]; unfold parseRangeAggregationRound.
  intros E. do 6 done_step E. done_step E. destruct a5 as [range offset]. injection E as <- <- <- <- <-.
  destruct (is_typ _ _).
  - done_step E5. injection E5 as <- <-. by eexists.
  - done_step E5. destruct a5; try done. injection E5 as <- <-. by eexists.
Qed.

Definition bounded_all (fuel : nat) : Prop :=
  (∀ p, pwf p → (4 * left_ p + 3 ≤ fuel)%nat → bounded (left_ p) (parseExpr fuel p)) ∧
  (∀ p, pwf p → (4 * left_ p + 2 ≤ fuel)%nat → bounded (left_ p) (parsePrimary fuel p)) ∧
  (∀ lhs m p n, pwf p → (1 ≤ m)%nat → (4 * left_ p + 2 ≤ fuel)%nat → (left_ p ≤ n)%nat → opaque_le n lhs →
     bounded n (parseBinaryRHS fuel lhs m p)) ∧
  (∀ op p, pwf p → Typ (cur p) ≠ TokEOF → (4 * left_ p + 1 ≤ fuel)%nat →
     bounded (left_ p) (parseVectorAggregation fuel op p)).

(** One step of a proof of [bounded]: a call that returns no tree. *)
Ltac bounded_step :=
  match goal with
  | |- bounded _ (mbind ?f typ ?p) => rewrite (bind_typ f p)
  | |- bounded _ (mbind ?f tok ?p) => rewrite (bind_tok f p)
  | |- bounded _ (mbind _ advance ?p) =>
      let Hc := fresh "Hc" in
      assert (Typ (cur p) ≠ TokEOF) as Hc
        by solve [congruence | eapply is_typ_ne; [eassumption|discriminate]];
      pose proof (left_pos p Hc);
      eapply bounded_bind; [apply (advance_tok p); assumption|intros ? ? ? ? ?]
  | |- bounded _ (mbind _ _ _) =>
      eapply bounded_bind; [solve [eauto with ends nocore]|intros ? ? ? ? ?]
  end.

Lemma bounded_done n (o : outcome Expr) e p : bounded n o → o = Done e p → opaque_le n e.
Proof. by intros Hb ->. Qed.

Lemma bounded_primary fuel p : bounded_all fuel → pwf p → (4 * left_ p + 2 ≤ S fuel)%nat →
  bounded (left_ p) (parsePrimary (S fuel) p).
Proof.
  intros (HE & HP & HB & HV) Hw Hf. destruct (enough_all fuel) as (NE & NP & NB & NR & NV).
  cbn [parsePrimary]; unfold parsePrimaryRound. rewrite bind_tok.
  destruct (Typ (cur p)) eqn:Ht; try exact I;
    assert (Typ (cur p) ≠ TokEOF) as Hc by congruence; pose proof (left_pos p Hc).
  - (* { *) bounded_step. done.
  - (* ( *) bounded_step. eapply bounded_bind; [apply NE; [done|lia]|intros ? ? Hr ? ?].
    bounded_step. cbn. eapply opaque_le_mono; [|eapply bounded_done; [|exact Hr]; apply HE; [done|lia]]. lia.
  - (* identifier *) destruct (isVectorOp _); [apply HV; [done|done|lia]|].
    destruct (isRangeOp _); [|by apply parseOpaque_bounded].
    eapply bounded_bind; [apply NR; [done|done|lia]|]. intros [[[inner range] offset] param] p' Hr Hw' Hl'.
    apply range_inner in Hr as [lq ->]. bounded_step. done.
  - (* number *) unfold parseNumber. bounded_step. destruct (ParseFloat _); [by bounded_step|done].
  - (* minus *) bounded_step. rewrite bind_typ. destruct (negb _) eqn:E; [exact I|].
    assert (Typ (cur p') ≠ TokEOF) by (by eapply negb_is_typ).
    unfold parseNumber. bounded_step. destruct (ParseFloat _); [by bounded_step|done].
Qed.

Lemma bounded_binary fuel lhs m p n : bounded_all fuel → pwf p → (1 ≤ m)%nat → (4 * left_ p + 2 ≤ S fuel)%nat →
  (left_ p ≤ n)%nat → opaque_le n lhs → bounded n (parseBinaryRHS (S fuel) lhs m p).
Proof.
  intros (HE & HP & HB & HV) Hw Hm Hf Hn Hlhs. destruct (enough_all fuel) as (NE & NP & NB & NR & NV).
  cbn [parseBinaryRHS]; unfold parseBinaryRHSRound. rewrite bind_typ. cbv zeta.
  destruct (Nat.ltb_spec (binaryPrecedence (Typ (cur p))) m) as [Hlt|Hge]; [done|].
  assert (Typ (cur p) ≠ TokEOF) as Hc by (apply binary_prec_ge_1; lia). do 3 bounded_step.
  eapply bounded_bind; [apply NP; [done|lia]|intros rhs ? Hr ? ?].
  assert (opaque_le n rhs) as Hrhs.
  { eapply opaque_le_mono; [|eapply bounded_done; [|exact Hr]; apply HP; [done|lia]]. lia. }
  eapply bounded_bind; [apply NB; [done| |lia]|intros rhs' ? Hr' ? ?].
  { destruct (String.eqb _ _); lia. }
  apply HB; [done|done|lia|lia|]. split; [done|].
  eapply bounded_done; [|exact Hr']. apply HB; [done| |lia|lia|done]. destruct (String.eqb _ _); lia.
Qed.

Lemma bounded_everywhere fuel : bounded_all fuel.
Proof.
  induction fuel as [|fuel IH]; [repeat split; intros; lia|]. pose proof IH as (HE & HP & HB & HV).
  destruct (enough_all fuel) as (NE & NP & NB & NR & NV). split_and!.
  - intros p Hw Hf. cbn [parseExpr]. eapply bounded_bind; [apply NP; [done|lia]|intros lhs ? Hr ? ?].
    apply HB; [done|lia|lia|lia|]. eapply bounded_done; [|exact Hr]. apply HP; [done|lia].
  - intros p Hw Hf. by apply bounded_primary.
  - intros lhs m p n Hw Hm Hf Hn Hl. by apply bounded_binary.
  - intros op p Hw Hc Hf. cbn [parseVectorAggregation]; unfold parseVectorAggregationRound.
    pose proof (left_pos p Hc). do 4 bounded_step.
    eapply bounded_bind; [apply NE; [done|lia]|intros inner ? Hr ? ?]. do 2 bounded_step. cbn.
    eapply opaque_le_mono; [|eapply bounded_done; [|exact Hr]; apply HE; [done|lia]]. lia.
Qed.

(** No opaque call of a parsed query is longer than the query. *)
Lemma parse_opaque_le s e p : Parse s = Done e p → opaque_le (String.length s) e.
Proof.
  unfold Parse. destruct (start_ends s) as [Hw Hl]. destruct (bounded_everywhere (fuelFor s)) as (HE & _).
  assert (bounded (left_ (start s)) (parseExpr (fuelFor s) (start s))) as Hb
    by (apply HE; [done|unfold fuelFor; lia]).
  destruct (parseExpr _ _) as [e' p'|msg|]; [|done|done]. destruct (is_typ _ _); [|done].
  intros [= -> ->]. by eapply opaque_le_mono.
Qed.

(** The fuel [Parse] gives is enough. *)
Lemma parse_ends s : Parse s ≠ NoFuel.
Proof.
  destruct (start_ends s) as [Hw Hl]. destruct (enough_all (fuelFor s)) as (HE & _).
  assert (ends (left_ (start s) - 1) (parseExpr (fuelFor s) (start s))) as He
    by (apply HE; [done|unfold fuelFor; lia]).
  unfold Parse. destruct (parseExpr _ _) as [e p|msg|]; [|done|done].
  by destruct (is_typ _ _).
Qed.

(** C6 The parser terminates on every input.  For any byte string the recursive
    descent returns a tree or an error within the fuel [Parse] gives it, so the
    Go parser neither loops nor recurses without bound (its recursion is no deeper
    than the input is long). *)
Theorem parse_total s : Parse s ≠ NoFuel.
Proof. apply parse_ends. Qed.

End Parsing.

#[global] Arguments Done {A} a p.
#[global] Arguments Fail {A} msg.
#[global] Arguments NoFuel {A}.

End Parser.
