(* ===== verification/LogqlLexing.v ===== *)
(** * Scanning what the printer writes

    Lemmas that relate the scanner to concrete source text: white space,
    punctuation, ASCII identifiers, durations, numbers and the quoted literals
    [strconv.Quote] produces. They carry the print/parse round trip. *)

From S2P Require Import Prelude GoText Utf8 LogqlScanner.

#[local] Open Scope Z_scope.

Module Lexing.
Import Text Utf8 Scanner.

(** ** Well-formed text *)

(** UTF-8 text: a sequence of encoded runes. *)
Inductive utext : string → Prop :=
| utext_nil : utext ""
| utext_rune r s : ValidRune r = true → utext s → utext (EncodeRune r +:+ s).

(** The inside of a double-quoted literal: runes other than the quote and the
    backslash, and two-rune escapes. *)
Inductive qbody : string → Prop :=
| qbody_nil : qbody ""
| qbody_rune r s : ValidRune r = true → r ≠ 34 → r ≠ 92 → qbody s → qbody (EncodeRune r +:+ s)
| qbody_esc c s : 0 ≤ c < 128 → qbody s → qbody (String bslash (EncodeRune c +:+ s)).

Lemma ascii_valid c : 0 ≤ c < 128 → ValidRune c = true.
Proof. intros Hc. apply ValidRune_spec. lia. Qed.

Lemma encode_b2z a : b2z a < 128 → EncodeRune (b2z a) = String a "".
Proof.
  intros Ha. pose proof (b2z_range a). rewrite EncodeRune_ascii by lia. cbn [bytes].
  by rewrite z2b_b2z.
Qed.

Lemma bslash_rune : EncodeRune 92 = String bslash "".
Proof. reflexivity. Qed.

Lemma dquote_rune : EncodeRune 34 = String dquote "".
Proof. reflexivity. Qed.

Lemma utext_app a b : utext a → utext b → utext (a +:+ b).
Proof.
  intros Ha Hb. induction Ha as [|r s Hv _ IH]; [done|]. rewrite append_assoc. by constructor.
Qed.

Lemma utext_qbody s : qbody s → utext s.
Proof.
  induction 1 as [|r s Hv _ _ _ IH|c s Hc _ IH]; [constructor|by constructor|].
  change (utext (String bslash "" +:+ (EncodeRune c +:+ s))). rewrite <- bslash_rune.
  apply utext_rune; [done|]. apply utext_rune; [by apply ascii_valid|done].
Qed.

Lemma qbody_app a b : qbody a → qbody b → qbody (a +:+ b).
Proof.
  intros Ha Hb. induction Ha as [|r s Hv H1 H2 _ IH|c s Hc _ IH]; [done| |].
  - rewrite append_assoc. by constructor.
  - rewrite app_str_cons, append_assoc. by constructor.
Qed.

Lemma encode_length r : ValidRune r = true →
  (1 ≤ String.length (EncodeRune r) ≤ 4)%nat.
Proof.
  intros _. unfold EncodeRune. cbv zeta. repeat case_match; cbn; lia.
Qed.

(** ** Hexadecimal digits and quoted text *)

Lemma hexd_ascii z : 0 ≤ z < 16 → 48 ≤ b2z (hexd z) < 103 ∧ b2z (hexd z) ≠ 92.
Proof.
  intros Hz. unfold hexd. destruct (Z.ltb_spec z 10); rewrite b2z_z2b by lia; lia.
Qed.

Lemma qbody_hex n z : qbody (hex n z).
Proof.
  induction n as [|n IH]; [constructor|]. cbn [hex].
  set (d := z / _ mod 16). assert (0 ≤ d < 16) as Hd by (apply Z.mod_pos_bound; lia).
  pose proof (hexd_ascii d Hd) as [H1 H2].
  change (qbody (String (hexd d) "" +:+ hex n z)). rewrite <- encode_b2z by lia.
  apply qbody_rune; [apply ascii_valid; lia|lia|lia|done].
Qed.

Lemma qbody_escape c s : b2z c < 128 → qbody s → qbody (escape (String c s)).
Proof.
  intros Hc Hs. unfold escape. pose proof (b2z_range c).
  change (String c s) with (String c "" +:+ s). rewrite <- encode_b2z by done.
  apply qbody_esc; [lia|done].
Qed.

Section Quoted.
Context `{Unicode}.

Lemma qbody_escapedRune r : ValidRune r = true → qbody (escapedRune r).
Proof.
  intros Hv. unfold escapedRune. destruct ((r =? 34) || (r =? 92)) eqn:E.
  { apply orb_true_iff in E as [->%Z.eqb_eq| ->%Z.eqb_eq];
      (apply qbody_escape; [reflexivity|constructor]). }
  apply orb_false_iff in E as [H1%Z.eqb_neq H2%Z.eqb_neq].
  destruct (IsPrint r).
  { rewrite <- (str_app_nil_r (EncodeRune r)). by apply qbody_rune; try constructor. }
  rewrite Hv. cbv zeta.
  repeat (match goal with |- qbody (if ?b then _ else _) => destruct b end;
          [apply qbody_escape; [reflexivity|apply qbody_hex || constructor]|]).
  apply qbody_escape; [reflexivity|apply qbody_hex].
Qed.

Lemma qbody_quoteRune s : s ≠ "" → qbody (quoteRune s).1.
Proof.
  intros Hs. unfold quoteRune. destruct (DecodeRune s) as [r w] eqn:Hd.
  destruct ((w =? 1)%nat && (r =? RuneError)) eqn:E.
  - destruct s as [|a s]; [done|]. apply qbody_escape; [reflexivity|apply qbody_hex].
  - apply qbody_escapedRune. destruct (encode_decode s r w Hd Hs) as [Hv _]; [|done].
    intros [-> ->]. done.
Qed.

Lemma qbody_quote n s : qbody (quote_loop n s).
Proof.
  revert s. induction n as [|n IH]; intros s; [constructor|]. cbn [quote_loop].
  destruct s as [|a s]; [constructor|].
  pose proof (qbody_quoteRune (String a s) ltac:(done)) as Hq.
  destruct (quoteRune (String a s)) as [q w]. by apply qbody_app.
Qed.

End Quoted.

(** ** Decoding text *)

Lemma peek_rune r t : ValidRune r = true →
  peek_at (EncodeRune r +:+ t) = (r, String.length (EncodeRune r)).
Proof.
  intros Hv. pose proof (encode_length r Hv). pose proof (decode_encode r t Hv) as Hd.
  unfold peek_at. destruct (EncodeRune r +:+ t) eqn:E; [|done].
  apply (f_equal String.length) in E. rewrite length_app_str in E. cbn in E. lia.
Qed.

Lemma peek_ascii a t : b2z a < 128 → peek_at (String a t) = (b2z a, 1%nat).
Proof.
  intros Ha. pose proof (b2z_range a). change (String a t) with (String a "" +:+ t).
  rewrite <- encode_b2z by done. rewrite peek_rune by (apply ascii_valid; lia).
  by rewrite encode_b2z.
Qed.

Lemma ValidString_utext s : utext s → ValidString s = true.
Proof.
  intros Hs. unfold ValidString.
  assert (∀ n, (String.length s ≤ n)%nat → valid_loop n s = true) as Hall; [|by apply Hall].
  induction Hs as [|r s Hv _ IH]; intros n Hn.
  - by destruct n.
  - pose proof (encode_length r Hv) as Hl. rewrite length_app_str in Hn.
    destruct n as [|n]; [lia|]. cbn [valid_loop].
    pose proof (decode_encode r s Hv) as Hd.
    destruct (EncodeRune r +:+ s) eqn:E.
    { apply (f_equal String.length) in E. rewrite length_app_str in E. cbn in E. lia. }
    rewrite Hd. destruct ((r =? RuneError) && _) eqn:Eb.
    { apply andb_true_iff in Eb as [->%Z.eqb_eq Hw%Nat.eqb_eq]. discriminate Hw. }
    rewrite <- E, suffix_app. apply IH. lia.
Qed.

(** ** The end of a quoted literal *)

Lemma quoted_span_body s t f :
  qbody s → (String.length s < f)%nat →
  quoted_span f (s +:+ String dquote t) = Some (S (String.length s)).
Proof.
  intros Hs. revert f. induction Hs as [|r s Hv H1 H2 _ IH|c s Hc _ IH]; intros f Hf.
  - destruct f as [|f]; [lia|]. reflexivity.
  - rewrite length_app_str in Hf |- *. pose proof (encode_length r Hv) as Hl.
    destruct f as [|f]; [lia|]. cbn [quoted_span]. rewrite append_assoc.
    pose proof (peek_rune r (s +:+ String dquote t) Hv) as Hp.
    destruct (EncodeRune r +:+ (s +:+ String dquote t)) eqn:E.
    { apply (f_equal String.length) in E. rewrite length_app_str in E. cbn in E. lia. }
    rewrite Hp. rewrite (proj2 (Z.eqb_neq r 92)), (proj2 (Z.eqb_neq r 34)) by done.
    rewrite <- E, suffix_app, IH by lia. cbn [option_map]. f_equal. lia.
  - cbn [String.length] in Hf |- *. rewrite length_app_str in Hf |- *.
    pose proof (encode_length c (ascii_valid c Hc)) as Hl.
    destruct f as [|f]; [lia|]. rewrite app_str_cons. cbn [quoted_span].
    rewrite peek_ascii by reflexivity. change (b2z bslash =? 92) with true. cbv iota.
    change (suffix 1 (String bslash ?x)) with x. rewrite append_assoc.
    rewrite peek_rune by (by apply ascii_valid).
    change (suffix (1 + ?n) (String bslash ?x)) with (suffix n x).
    rewrite suffix_app, IH by lia. cbn [option_map]. f_equal. lia.
Qed.

(** ** Spans of ASCII text *)

Fixpoint all_bytes (p : Z → bool) (s : string) : bool :=
  match s with
  | "" => true
  | String a s => (b2z a <? 128) && p (b2z a) && all_bytes p s
  end.

(** [t] does not go on with a rune of class [p]. *)
Definition stops (p : Z → bool) (t : string) : Prop :=
  match t with
  | "" => True
  | String a _ => b2z a < 128 ∧ p (b2z a) = false
  end.

Lemma span_text p n t f :
  all_bytes p n = true → stops p t → (String.length n < f)%nat →
  span f p (n +:+ t) = String.length n.
Proof.
  revert f. induction n as [|a n IH]; intros f Hn Ht Hf.
  - destruct f as [|f]; [cbn in Hf; lia|]. cbn [span]. change ("" +:+ t) with t.
    destruct t as [|b t]; [done|]. destruct Ht as [Hb Hp]. rewrite peek_ascii by done.
    by rewrite Hp.
  - cbn [all_bytes] in Hn. apply andb_true_iff in Hn as [[Ha%Z.ltb_lt Hp]%andb_true_iff Hn].
    cbn [String.length] in Hf |- *. destruct f as [|f]; [lia|]. rewrite app_str_cons. cbn [span].
    rewrite peek_ascii by done. rewrite Hp. cbn [negb orb Nat.eqb suffix].
    rewrite IH by (done || lia). done.
Qed.

Lemma while_text p n t s :
  rest s = n +:+ t → all_bytes p n = true → stops p t → while p s = skip (String.length n) s.
Proof.
  intros Hr Hn Ht. unfold while. rewrite Hr. destruct t as [|b t].
  - rewrite str_app_nil_r in *. destruct n as [|a n]; [done|].
    assert (∀ m f, all_bytes p m = true → (String.length m ≤ f)%nat → span f p m = String.length m) as Hs.
    { clear. induction m as [|c m IH]; intros f Hm Hf; [destruct f; done|].
      cbn [all_bytes] in Hm. apply andb_true_iff in Hm as [[Ha%Z.ltb_lt Hp]%andb_true_iff Hm].
      cbn [String.length] in *. destruct f as [|f]; [lia|]. cbn [span].
      rewrite peek_ascii by done. rewrite Hp. cbn [negb orb Nat.eqb suffix].
      rewrite IH by (done || lia). done. }
    by rewrite Hs.
  - rewrite (span_text p n (String b t)); [done|done|done|].
    rewrite length_app_str. cbn. lia.
Qed.

Lemma rest_skip n s : rest (skip n s) = suffix n (rest s).
Proof. unfold rest, skip. cbn [pos src]. by rewrite suffix_suffix. Qed.

Lemma rest_skip_text n t s : rest s = n +:+ t → rest (skip (String.length n) s) = t.
Proof. intros Hr. by rewrite rest_skip, Hr, suffix_app. Qed.

Lemma skip_skip n m s : skip n (skip m s) = skip (m + n) s.
Proof. unfold skip. cbn [src pos braceDepth]. f_equal. lia. Qed.

Lemma skip_0 s : skip 0 s = s.
Proof. unfold skip. rewrite Nat.add_0_r. by destruct s. Qed.

Lemma slice_skip n t s : rest s = n +:+ t → slice s (skip (String.length n) s) = n.
Proof.
  intros Hr. unfold slice, skip. cbn [pos]. rewrite Nat.add_comm, Nat.add_sub, Hr. apply prefix_app.
Qed.

(** White space before a token does not change it. *)
Lemma skipWS_none a t s : rest s = String a t → b2z a < 128 → IsSpace (b2z a) = false → skipWS s = s.
Proof.
  intros Hr Ha Hs. unfold skipWS. rewrite (while_text IsSpace "" (String a t)); try done.
  apply skip_0.
Qed.

Lemma skipWS_space a t s :
  rest s = String " " (String a t) → b2z a < 128 → IsSpace (b2z a) = false →
  skipWS s = skip 1 s.
Proof.
  intros Hr Ha Hs. unfold skipWS. by rewrite (while_text IsSpace " " (String a t)).
Qed.

(** ** Tokens *)

Section Tokens.
Context `{UnicodeLaws}.

Lemma next_skipWS s s' : skipWS s = skipWS s' → next s = next s'.
Proof. intros E. unfold next. by rewrite E. Qed.

(** A blank before the token. *)
Lemma next_space a t s :
  rest s = String " " (String a t) → b2z a < 128 → IsSpace (b2z a) = false →
  next s = next (skip 1 s).
Proof.
  intros Hr Ha Hs. apply next_skipWS. rewrite (skipWS_space a t s Hr Ha Hs).
  symmetry. apply (skipWS_none a t); [|done|done]. by rewrite rest_skip, Hr.
Qed.

Lemma peek_text a t s : rest s = String a t → b2z a < 128 → peek s = (b2z a, 1%nat).
Proof. intros Hr Ha. unfold peek. rewrite Hr. by apply peek_ascii. Qed.

Lemma read_text a t s : rest s = String a t → b2z a < 128 → snd (read s) = skip 1 s.
Proof. intros Hr Ha. unfold read. by rewrite (peek_text a t s). Qed.

Lemma rest_text a t s : rest s = String a t → rest (skip 1 s) = t.
Proof. intros Hr. by rewrite rest_skip, Hr. Qed.

(** Scan a token that starts with the known character [a]. *)
Ltac scan_char a t :=
  match goal with
  | Hr : rest ?s = String a t |- _ =>
      unfold next; rewrite (skipWS_none a t s Hr) by reflexivity;
      rewrite (peek_text a t s Hr) by reflexivity;
      rewrite ?(read_text a t s Hr) by reflexivity
  end.

Lemma next_eof s : rest s = "" → next s = (mkTok TokEOF "", s).
Proof.
  intros Hr. unfold next.
  assert (skipWS s = s) as -> by (unfold skipWS, while; rewrite Hr; apply skip_0).
  unfold peek. by rewrite Hr.
Qed.

Lemma next_lbrace t s : rest s = String "{" t →
  next s = (mkTok TokLBrace "{", set_depth (S (braceDepth s)) (skip 1 s)).
Proof. intros Hr. scan_char "{"%char t. reflexivity. Qed.

Lemma next_rbrace t s : rest s = String "}" t →
  next s = (mkTok TokRBrace "}", set_depth (pred (braceDepth s)) (skip 1 s)).
Proof. intros Hr. scan_char "}"%char t. reflexivity. Qed.

Lemma next_lparen t s : rest s = String "(" t → next s = (mkTok TokLParen "(", skip 1 s).
Proof. intros Hr. scan_char "("%char t. reflexivity. Qed.

Lemma next_rparen t s : rest s = String ")" t → next s = (mkTok TokRParen ")", skip 1 s).
Proof. intros Hr. scan_char ")"%char t. reflexivity. Qed.

Lemma next_lbracket t s : rest s = String "[" t → next s = (mkTok TokLBracket "[", skip 1 s).
Proof. intros Hr. scan_char "["%char t. reflexivity. Qed.

Lemma next_rbracket t s : rest s = String "]" t → next s = (mkTok TokRBracket "]", skip 1 s).
Proof. intros Hr. scan_char "]"%char t. reflexivity. Qed.

Lemma next_comma t s : rest s = String "," t → next s = (mkTok TokComma ",", skip 1 s).
Proof. intros Hr. scan_char ","%char t. reflexivity. Qed.

(** Operators of two characters. *)
Ltac scan_second b t :=
  match goal with
  | Hr : rest ?s = String _ (String b t) |- _ =>
      let H1 := fresh in
      assert (rest (skip 1 s) = String b t) as H1 by (by rewrite rest_skip, Hr);
      rewrite ?(peek_text b t (skip 1 s) H1) by reflexivity;
      rewrite ?(read_text b t (skip 1 s) H1) by reflexivity;
      rewrite ?skip_skip
  end.

Lemma next_pipe_op b tk t s :
  (b, tk) ∈ [("="%char, TokPipeEq); ("~"%char, TokPipeTilde); (">"%char, TokPipeGt)] →
  rest s = String "|" (String b t) →
  next s = (mkTok tk (String "|" (String b "")), skip 2 s).
Proof.
  intros Hb Hr. scan_char "|"%char (String b t).
  rewrite !elem_of_cons in Hb. destruct Hb as [[= -> ->]|[[= -> ->]|[[= -> ->]|Hb]]];
    [..|by apply not_elem_of_nil in Hb].
  - scan_second "="%char t. reflexivity.
  - scan_second "~"%char t. reflexivity.
  - scan_second ">"%char t. reflexivity.
Qed.

(** A pipe before a stage name is followed by a blank. *)
Lemma next_pipe t s : rest s = String "|" (String " " t) → next s = (mkTok TokPipe "|", skip 1 s).
Proof. intros Hr. scan_char "|"%char (String " " t). scan_second " "%char t. reflexivity. Qed.

Lemma next_bang_out b tk t s :
  (b, tk) ∈ [("="%char, TokBangEq); ("~"%char, TokBangTilde); (">"%char, TokBangGt)] →
  braceDepth s = 0%nat → rest s = String "!" (String b t) →
  next s = (mkTok tk (String "!" (String b "")), skip 2 s).
Proof.
  intros Hb Hd Hr. scan_char "!"%char (String b t).
  rewrite !elem_of_cons in Hb. destruct Hb as [[= -> ->]|[[= -> ->]|[[= -> ->]|Hb]]];
    [..|by apply not_elem_of_nil in Hb].
  - scan_second "="%char t. cbn [skip braceDepth]. rewrite Hd. reflexivity.
  - scan_second "~"%char t. cbn [skip braceDepth]. rewrite Hd. reflexivity.
  - scan_second ">"%char t. reflexivity.
Qed.

Lemma next_bang_in b tk t s :
  (b, tk) ∈ [("="%char, TokNeq); ("~"%char, TokReNotMatch)] →
  braceDepth s = 1%nat → rest s = String "!" (String b t) →
  next s = (mkTok tk (String "!" (String b "")), skip 2 s).
Proof.
  intros Hb Hd Hr. scan_char "!"%char (String b t).
  rewrite !elem_of_cons in Hb. destruct Hb as [[= -> ->]|[[= -> ->]|Hb]];
    [..|by apply not_elem_of_nil in Hb].
  - scan_second "="%char t. cbn [skip braceDepth]. rewrite Hd. reflexivity.
  - scan_second "~"%char t. cbn [skip braceDepth]. rewrite Hd. reflexivity.
Qed.

Lemma next_rematch t s : rest s = String "=" (String "~" t) → next s = (mkTok TokReMatch "=~", skip 2 s).
Proof. intros Hr. scan_char "="%char (String "~" t). scan_second "~"%char t. reflexivity. Qed.

(** The equals sign before a quoted value. *)
Lemma next_eq t s : rest s = String "=" (String dquote t) → next s = (mkTok TokEq "=", skip 1 s).
Proof. intros Hr. scan_char "="%char (String dquote t). scan_second dquote t. reflexivity. Qed.

(** Or before any other ASCII character that does not make it a longer operator. *)
Lemma next_eq_other b t s : rest s = String "=" (String b t) → b2z b < 128 → b2z b ≠ 126 → b2z b ≠ 61 →
  next s = (mkTok TokEq "=", skip 1 s).
Proof.
  intros Hr Hb H1 H2. scan_char "="%char (String b t).
  assert (rest (skip 1 s) = String b t) as Hr1 by (by rewrite rest_skip, Hr).
  rewrite (peek_text b t (skip 1 s) Hr1) by done.
  rewrite (proj2 (Z.eqb_neq (b2z b) 126)), (proj2 (Z.eqb_neq (b2z b) 61)) by done. reflexivity.
Qed.

(** *** Quoted literals *)

Lemma length_Quote v :
  String.length (Quote v) = (2 + String.length (quote_loop (String.length v) v))%nat.
Proof. unfold Quote. cbn [String.length]. rewrite length_app_str. cbn. lia. Qed.

Lemma utext_Quote v : utext (Quote v).
Proof.
  unfold Quote. change (String dquote ?x) with (String dquote "" +:+ x). rewrite <- dquote_rune.
  apply utext_rune; [done|]. apply utext_app; [apply utext_qbody, qbody_quote|].
  rewrite dquote_rune. change (String dquote "") with (EncodeRune 34 +:+ "").
  apply utext_rune; [done|constructor].
Qed.

(** Quoted values survive scanning.  Scanning the literal [strconv.Quote]
    writes for any byte string, in any context, gives a STRING token with exactly
    that byte string and stops right after the closing quote. *)
Theorem scan_quoted v t s :
  rest s = Quote v +:+ t →
  next s = (mkTok TokString v, skip (String.length (Quote v)) s).
Proof.
  intros Hr. set (q := quote_loop (String.length v) v).
  assert (rest s = String dquote (q +:+ String dquote t)) as Hr1.
  { rewrite Hr. unfold Quote. rewrite app_str_cons, append_assoc. done. }
  scan_char dquote (q +:+ String dquote t).
  change (b2z dquote) with 34. cbn [Z.eqb Pos.eqb Nat.eqb].
  unfold scanQuotedString. rewrite (read_text dquote _ s Hr1) by reflexivity. cbv zeta.
  rewrite (rest_text dquote _ s Hr1).
  rewrite (quoted_span_body q t); [|apply qbody_quote|rewrite length_app_str; cbn; lia].
  rewrite skip_skip.
  assert (1 + S (String.length q) = String.length (Quote v))%nat as -> by (rewrite length_Quote; done).
  rewrite (slice_skip (Quote v) t s Hr), Unquote_Quote, ValidString_utext by apply utext_Quote.
  reflexivity.
Qed.

(** *** Identifiers *)

(** A word of ASCII letters, digits, underscores and dots that starts with a
    letter or an underscore. *)
Definition word (n : string) : bool :=
  match n with
  | "" => false
  | String a _ =>
      (b2z a <? 128) && (IsLetter (b2z a) || (b2z a =? 95)) && all_bytes ident_rune n
  end.

(** Which first characters of an ASCII word are not one of the other cases of
    [next]. *)
Lemma letter_code r : 0 ≤ r < 128 → IsLetter r || (r =? 95) = true →
  65 ≤ r ≤ 90 ∨ 97 ≤ r ≤ 122 ∨ r = 95.
Proof.
  intros Hr. rewrite IsLetter_ascii by done.
  rewrite !orb_true_iff, !andb_true_iff, !Z.leb_le, Z.eqb_eq. lia.
Qed.

Lemma IsSpace_low r : 33 ≤ r < 128 → IsSpace r = false.
Proof.
  intros Hr. unfold IsSpace. cbn [existsb]. by decide_comparisons.
Qed.

Lemma next_word n t s :
  rest s = n +:+ t → word n = true → stops ident_rune t →
  next s = (mkTok (keyword n) n, skip (String.length n) s).
Proof.
  intros Hr Hw Ht. destruct n as [|a n]; [done|]. cbn [word] in Hw.
  apply andb_true_iff in Hw as [[Ha%Z.ltb_lt Hl]%andb_true_iff Hall].
  pose proof (b2z_range a) as Hb. pose proof (letter_code (b2z a) ltac:(lia) Hl) as Hc.
  assert (rest s = String a (n +:+ t)) as Hr1 by (by rewrite Hr).
  assert (scanIdent s = (mkTok (keyword (String a n)) (String a n), skip (String.length (String a n)) s)) as Hid.
  { unfold scanIdent. rewrite (while_text ident_rune (String a n) t s Hr Hall Ht).
    by rewrite (slice_skip (String a n) t s Hr). }
  unfold next. rewrite (skipWS_none a _ s Hr1 Ha) by (apply IsSpace_low; lia).
  rewrite (peek_text a _ s Hr1 Ha). cbv zeta. cbn [Nat.eqb]. rewrite Hl, Hid.
  decide_comparisons. done.
Qed.

(** *** Numbers and durations *)

Lemma digit_code r : 0 ≤ r < 128 → IsDigit r = true → 48 ≤ r ≤ 57.
Proof. intros Hr. rewrite IsDigit_ascii by done. rewrite andb_true_iff, !Z.leb_le. lia. Qed.

Definition number_text (n : string) : bool :=
  match n with
  | "" => false
  | String a _ => (b2z a <? 128) && IsDigit (b2z a) && all_bytes digit_rune n
  end.

Lemma next_digits n t s tok s' :
  rest s = n +:+ t → (match n with String a _ => (b2z a <? 128) && IsDigit (b2z a) | "" => false end) = true →
  scanNumberOrDuration s = (tok, s') → next s = (tok, s').
Proof.
  intros Hr Hn Hscan. destruct n as [|a n]; [done|].
  apply andb_true_iff in Hn as [Ha%Z.ltb_lt Hd]. pose proof (b2z_range a) as Hb.
  pose proof (digit_code (b2z a) ltac:(lia) Hd) as Hc.
  assert (rest s = String a (n +:+ t)) as Hr1 by (by rewrite Hr).
  unfold next. rewrite (skipWS_none a _ s Hr1 Ha) by (apply IsSpace_low; lia).
  rewrite (peek_text a _ s Hr1 Ha). cbv zeta. cbn [Nat.eqb].
  rewrite (IsLetter_ascii (b2z a)) by lia. rewrite Hd, Hscan. decide_comparisons. done.
Qed.

Lemma next_number n t s :
  rest s = n +:+ t → number_text n = true → stops digit_rune t → stops IsLetter t →
  next s = (mkTok TokNumber n, skip (String.length n) s).
Proof.
  intros Hr Hn Hd Hl. destruct n as [|a n]; [done|]. cbn [number_text] in Hn.
  apply andb_true_iff in Hn as [Hn Hall].
  eapply next_digits; [exact Hr|exact Hn|]. set (m := String a n) in *.
  unfold scanNumberOrDuration. cbn [number_loop].
  rewrite (while_text digit_rune m t s Hr Hall Hd).
  destruct (Nat.eqb_spec (pos (skip (String.length m) s)) (pos s)) as [He|_].
  { subst m. cbn [skip pos String.length] in He. lia. }
  rewrite (while_text IsLetter "" t _ (rest_skip_text m t s Hr) eq_refl Hl).
  cbn [String.length]. rewrite skip_0, Nat.eqb_refl.
  by rewrite (slice_skip m t s Hr).
Qed.

(** A duration: value and unit pairs. *)
Inductive duration_text : string → Prop :=
| dur_one d u : d ≠ "" → u ≠ "" → all_bytes digit_rune d = true → all_bytes IsLetter u = true →
    duration_text (d +:+ u)
| dur_more d u rest : d ≠ "" → u ≠ "" → all_bytes digit_rune d = true → all_bytes IsLetter u = true →
    duration_text rest → duration_text (d +:+ u +:+ rest).

Lemma stops_class (p q : Z → bool) (d t : string) :
  d ≠ "" → all_bytes p d = true → (∀ r, 0 ≤ r < 128 → p r = true → q r = false) → stops q (d +:+ t).
Proof.
  destruct d as [|a d]; [done|]. intros _ Ha Hpq. cbn [all_bytes] in Ha.
  apply andb_true_iff in Ha as [[Ha%Z.ltb_lt Hp]%andb_true_iff _]. pose proof (b2z_range a).
  split; [done|]. apply Hpq; [lia|done].
Qed.

Lemma digit_not_letter r : 0 ≤ r < 128 → digit_rune r = true → IsLetter r = false.
Proof.
  intros Hr. unfold digit_rune. rewrite IsDigit_ascii, IsLetter_ascii by done.
  rewrite orb_true_iff, andb_true_iff, !Z.leb_le, Z.eqb_eq. intros Hd. by decide_comparisons.
Qed.

Lemma letter_not_digit_rune r : 0 ≤ r < 128 → IsLetter r = true → digit_rune r = false.
Proof.
  intros Hr Hl. destruct (digit_rune r) eqn:E; [|done].
  by rewrite (digit_not_letter r Hr E) in Hl.
Qed.

Lemma app_nonempty (a b : string) : a ≠ "" → a +:+ b ≠ "".
Proof. by destruct a. Qed.

Lemma duration_nonempty d : duration_text d → d ≠ "".
Proof. intros [? ? ?|? ? ? ?]; by apply app_nonempty. Qed.

Lemma duration_head d t : duration_text d → stops IsLetter (d +:+ t) ∧
  (1 ≤ String.length d)%nat.
Proof.
  intros Hd. split.
  - destruct Hd as [d u Hd Hu Ha _|d u r Hd Hu Ha _ _]; rewrite append_assoc;
      eapply stops_class; eauto using digit_not_letter.
  - pose proof (duration_nonempty d Hd). destruct d; [done|cbn; lia].
Qed.

(** One value and unit pair. *)
Lemma number_pair f b d u t s :
  rest s = d +:+ u +:+ t → d ≠ "" → u ≠ "" →
  all_bytes digit_rune d = true → all_bytes IsLetter u = true → stops IsLetter t →
  number_loop (S f) b s = number_loop f true (skip (String.length (d +:+ u)) s).
Proof.
  intros Hr Hd Hu Had Hau Ht. cbn [number_loop].
  rewrite (while_text digit_rune d (u +:+ t) s Hr Had)
    by (eapply stops_class; eauto using letter_not_digit_rune).
  destruct (Nat.eqb_spec (pos (skip (String.length d) s)) (pos s)) as [He|_].
  { destruct d; [done|]. cbn [skip pos String.length] in He. lia. }
  rewrite (while_text IsLetter u t _ (rest_skip_text d (u +:+ t) s Hr) Hau Ht), skip_skip.
  destruct (Nat.eqb_spec (pos (skip (String.length d + String.length u) s)) (pos (skip (String.length d) s))) as [He|_].
  { destruct u; [done|]. cbn [skip pos String.length] in He. lia. }
  by rewrite length_app_str.
Qed.

Lemma number_duration f d t s :
  duration_text d → rest s = d +:+ t → (String.length d < f)%nat →
  stops IsLetter t → stops digit_rune t →
  ∀ b, number_loop f b s = (true, skip (String.length d) s).
Proof.
  intros Hd. revert f s. induction Hd as [d u Hd Hu Ha Hb|d u r Hd Hu Ha Hb Hr IH]; intros f s Hs Hf Hl Hdg b.
  - rewrite append_assoc in Hs. destruct f as [|f]; [lia|].
    rewrite (number_pair f b d u t s) by done.
    assert (1 ≤ String.length (d +:+ u))%nat by (rewrite length_app_str; destruct d; [done|cbn [String.length]; lia]).
    destruct f as [|f]; [lia|]. cbn [number_loop].
    assert (rest (skip (String.length (d +:+ u)) s) = t) as Hr
      by (apply rest_skip_text; by rewrite append_assoc).
    rewrite (while_text digit_rune "" t _ Hr eq_refl Hdg). cbn [String.length].
    by rewrite skip_0, Nat.eqb_refl.
  - rewrite !append_assoc in Hs. destruct f as [|f]; [lia|].
    rewrite (number_pair f b d u (r +:+ t) s) by (done || apply (duration_head r t Hr)).
    assert (1 ≤ String.length (d +:+ u))%nat by (rewrite length_app_str; destruct d; [done|cbn [String.length]; lia]).
    rewrite !length_app_str in *.
    rewrite IH; try done.
    + by rewrite skip_skip, Nat.add_assoc.
    + rewrite <- length_app_str. apply rest_skip_text. by rewrite append_assoc.
    + lia.
Qed.

Lemma digits_first d : d ≠ "" → all_bytes digit_rune d = true →
  (match d with String a _ => (b2z a =? 46) = false | "" => True end) →
  (match d with String a _ => (b2z a <? 128) && IsDigit (b2z a) | "" => false end) = true.
Proof.
  destruct d as [|a d]; [done|]. intros _ Ha Hdot. cbn [all_bytes] in Ha.
  apply andb_true_iff in Ha as [[Ha Hd]%andb_true_iff _]. unfold digit_rune in Hd.
  rewrite Hdot, orb_false_r in Hd. by rewrite Ha, Hd.
Qed.

(** A duration literal that starts with a digit. *)
Definition duration_ok (d : string) : Prop :=
  duration_text d ∧ (match d with String a _ => (b2z a <? 128) && IsDigit (b2z a) | "" => false end) = true.

Lemma next_duration d t s :
  rest s = d +:+ t → duration_ok d → stops IsLetter t → stops digit_rune t →
  next s = (mkTok TokDuration d, skip (String.length d) s).
Proof.
  intros Hr [Hd Hf] Hl Hdg. eapply next_digits; [exact Hr|exact Hf|].
  unfold scanNumberOrDuration. rewrite (number_duration _ d t s Hd Hr); [|rewrite Hr, length_app_str; lia|done|done].
  by rewrite (slice_skip d t s Hr).
Qed.

(** *** Raw literals *)

(** The inside of a raw literal: runes other than the back quote. *)
Inductive btext : string → Prop :=
| btext_nil : btext ""
| btext_rune r s : ValidRune r = true → r ≠ 96 → btext s → btext (EncodeRune r +:+ s).

Lemma encode_width s r w :
  DecodeRune s = (r, w) → s ≠ "" → EncodeRune r +:+ suffix w s = s → w = String.length (EncodeRune r).
Proof.
  intros Hd Hs He. pose proof (DecodeRune_width s Hs) as [_ Hw]. rewrite Hd in Hw. cbn [snd] in Hw.
  apply (f_equal String.length) in He. rewrite length_app_str, length_suffix in He. lia.
Qed.

Lemma backquote_btext n v : (String.length v ≤ n)%nat → backquote_loop n v = true → btext v.
Proof.
  revert v. induction n as [|n IH]; intros v Hn Hv.
  { destruct v; [constructor|cbn in Hn; lia]. }
  destruct v as [|a v]; [constructor|]. set (s := String a v) in *. assert (s ≠ "") as Hs by done.
  assert ((let '(r, w) := DecodeRune s in
     if (1 <? w)%nat then if r =? 0xFEFF then false else backquote_loop n (suffix w s)
     else if r =? RuneError then false
     else if ((r <? 32) && negb (r =? 9)) || (r =? 96) || (r =? 127) then false
     else backquote_loop n (suffix w s)) = true) as Hb by exact Hv.
  pose proof (DecodeRune_width s Hs) as [Hw1 Hw2].
  destruct (DecodeRune s) as [r w] eqn:Hd. cbn [snd] in Hw1, Hw2.
  assert (¬ (r = RuneError ∧ w = 1%nat)) as Hok by (intros [-> ->]; done).
  destruct (encode_decode s r w Hd Hs Hok) as [Hvr He]. rewrite <- He.
  assert (backquote_loop n (suffix w s) = true ∧ r ≠ 96) as [Hr Hne].
  { destruct (Nat.ltb_spec 1 w).
    - destruct (r =? 0xFEFF); [done|]. split; [done|]. intros ->.
      pose proof (encode_width s 96 w Hd Hs He) as Hl. change 96 with (b2z "`") in Hl.
      rewrite encode_b2z in Hl by done. cbn in Hl. lia.
    - destruct (r =? RuneError); [done|]. destruct (Z.eqb_spec r 96) as [->|Hne]; [done|].
      destruct (_ || false || _); [done|]. done. }
  apply btext_rune; [done|done|]. apply IH; [|done]. rewrite length_suffix. lia.
Qed.

Lemma raw_span v t f :
  btext v → (String.length v < f)%nat →
  span f (λ r, negb (r =? 96)) (v +:+ String "`" t) = String.length v.
Proof.
  intros Hv. revert f. induction Hv as [|r v Hr Hne _ IH]; intros f Hf; (destruct f as [|f]; [lia|]).
  - reflexivity.
  - pose proof (encode_length r Hr). rewrite length_app_str in Hf |- *. rewrite append_assoc.
    cbn [span]. rewrite peek_rune by done.
    rewrite (proj2 (Z.eqb_neq r 96)), (proj2 (Nat.eqb_neq _ 0)) by (done || lia). cbn [negb orb].
    by rewrite suffix_app, IH by lia.
Qed.

Lemma next_raw v t s :
  rest s = String "`" (v +:+ String "`" t) → CanBackquote v = true →
  next s = (mkTok TokRawString v, skip (2 + String.length v) s).
Proof.
  intros Hr Hc. pose proof (backquote_btext _ v (Nat.le_refl _) Hc) as Hv.
  scan_char "`"%char (v +:+ String "`" t). change (b2z "`") with 96. cbn [Z.eqb Pos.eqb Nat.eqb].
  unfold scanRawString. rewrite (read_text "`" _ s Hr) by reflexivity. cbv zeta.
  pose proof (rest_text "`" _ s Hr) as Hr1.
  assert (while (λ r, negb (r =? 96)) (skip 1 s) = skip (String.length v) (skip 1 s)) as ->.
  { unfold while. rewrite Hr1, raw_span; [done|done|]. rewrite length_app_str. cbn. lia. }
  rewrite (slice_skip v (String "`" t)) by done.
  rewrite (read_text "`" t) by (reflexivity || by rewrite (rest_skip_text v (String "`" t))).
  rewrite !skip_skip. cbn. repeat f_equal. lia.
Qed.

(** *** Operators between operands *)

(** The binary operators and their tokens outside braces. *)
Definition symbols : list (string * TokType) :=
  [("+", TokPlus); ("-", TokMinus); ("*", TokStar); ("/", TokSlash); ("%", TokPercent);
   ("^", TokCaret); ("==", TokEqEq); ("!=", TokBangEq); ("<", TokLt); ("<=", TokLtEq);
   (">", TokGt); (">=", TokGtEq)].

Lemma next_symbol op tk t s :
  (op, tk) ∈ symbols → braceDepth s = 0%nat → rest s = op +:+ String " " t →
  next s = (mkTok tk op, skip (String.length op) s).
Proof.
  intros Hop Hd Hr. unfold symbols in Hop. rewrite !elem_of_cons in Hop.
  repeat (destruct Hop as [[= -> ->]|Hop]); [..|by apply not_elem_of_nil in Hop].
  all: match type of Hr with rest _ = String ?a (String ?b ?c) +:+ _ =>
         change (rest s = String a (String b (c +:+ String " " t))) in Hr
       | rest _ = String ?a ?c +:+ _ => change (rest s = String a (c +:+ String " " t)) in Hr end.
  all: repeat match type of Hr with context ["" +:+ ?x] => change ("" +:+ x) with x in Hr end.
  all: match type of Hr with rest _ = String ?a ?r => scan_char a r end.
  all: match type of Hr with rest _ = String _ (String ?b ?r) => scan_second b r end.
  all: cbn [skip braceDepth]; rewrite ?Hd; reflexivity.
Qed.

Lemma next_minus_number t s :
  rest s = String "-" t → next s = (mkTok TokMinus "-", skip 1 s).
Proof. intros Hr. scan_char "-"%char t. reflexivity. Qed.

End Tokens.
End Lexing.
