(* ===== verification/Translator.v ===== *)
(** * From LogQL text to LogsQL text
      (src/internal/translator/translator.go, mapping.go; src/internal/logsql)

    The translator works on text: quote-aware scanners cut the query into a stream
    selector, its matchers and the pipeline stages, and each piece is rewritten.
    [Tr.passes] is what all the scanners share, a walk over text that keeps track
    of quoting.  Modelled are the scanners, stream matchers with fallback chains,
    line filters, format stages, drop and keep matchers and the markers for the
    proxy's own post-processing. *)

From S2P Require Import Prelude GoText Utf8 LogqlAst LogqlFilter LogqlPipeline LogqlScanner LogqlLexing.

#[local] Open Scope Z_scope.

(** ** LogsQL literals and filters (src/internal/logsql) *)

Module Logsql.
Import Text Utf8.

(** [strings.ReplaceAll] of one byte by a text. *)
Fixpoint replaceByte (old : Ascii.ascii) (new s : string) : string :=
  match s with
  | "" => ""
  | String c s =>
      (if Ascii.eqb c old then new else String c "") +:+ replaceByte old new s
  end.

Definition quoteLogsQL (s : string) : string :=
  let s := replaceByte bslash (String bslash (String bslash "")) s in
  let s := replaceByte dquote (String bslash (String dquote "")) s in
  String dquote (s +:+ String dquote "").

(** The inline flags of [leadingRegexFlagsRE] at the start of a pattern. *)
Definition flag_byte (c : Ascii.ascii) : bool :=
  Ascii.eqb c "i" || Ascii.eqb c "m" || Ascii.eqb c "s" || Ascii.eqb c "U".

Definition closeFlags (flags s : string) : option (string * string) :=
  match strip_prefix ")" s with
  | Some r => Some (flags, r)
  | None => None
  end.

Definition minusFlags (s : string) : option (string * string) :=
  match strip_prefix "-" s with
  | Some r =>
      let '(f, r) := span flag_byte r in
      if String.eqb f "" then None else closeFlags ("-" +:+ f) r
  | None => None
  end.

Definition leadingRegexFlags (s : string) : option (string * string) :=
  match strip_prefix "(?" s with
  | None => None
  | Some s =>
      let '(f, r) := span flag_byte s in
      if String.eqb f "" then minusFlags r
      else
        match minusFlags r with
        | Some (g, r) => Some (f +:+ g, r)
        | None => closeFlags f r
        end
  end.

(** Every group found is at least three bytes long. *)
Fixpoint splitLeadingRegexFlags (fuel : nat) (s : string) : list string * string :=
  match fuel with
  | O => ([], s)
  | S fuel =>
      match leadingRegexFlags s with
      | None => ([], s)
      | Some (f, r) => let '(fs, body) := splitLeadingRegexFlags fuel r in (f :: fs, body)
      end
  end.

Definition AnchorLabelMatcherRegex (pattern : string) : string :=
  let '(flags, body) := splitLeadingRegexFlags (String.length pattern) pattern in
  "^(?:" +:+ foldr (λ f inner, "(?" +:+ f +:+ ":" +:+ inner +:+ ")") body flags +:+ ")$".

Inductive FieldOp : Type :=
| FieldOpExact | FieldOpRegexp | FieldOpPrefix | FieldOpSubstring | FieldOpEmpty | FieldOpAny
| FieldOpGT | FieldOpGTE | FieldOpLT | FieldOpLTE | FieldOpRange | FieldOpIn
| FieldOpIPv4Range | FieldOpIPv6Range | FieldOpExactPrefix | FieldOpEqField | FieldOpLeField
| FieldOpStringRange | FieldOpValueType | FieldOpJSONArrayContainsAny
| FieldOpContainsCommonCase | FieldOpEqualsCommonCase.

Section Filters.
Context `{Unicode}.

Definition quoteLogsQLPattern (s : string) : string := Quote s.

Record FieldFilter : Type := mkFF {
  Field : string;
  Op : FieldOp;
  Value : string;
  Negate : bool
}.

Definition FieldFilter_String (f : FieldFilter) : string :=
  let call name := Field f +:+ ":" +:+ name +:+ "(" +:+ Value f +:+ ")" in
  let core :=
    match Op f with
    | FieldOpExact => Field f +:+ ":=" +:+ quoteLogsQL (Value f)
    | FieldOpRegexp => Field f +:+ ":~" +:+ quoteLogsQLPattern (Value f)
    | FieldOpPrefix => Field f +:+ ":" +:+ Value f +:+ "*"
    | FieldOpSubstring => Field f +:+ ":*" +:+ Value f +:+ "*"
    | FieldOpEmpty => Field f +:+ ":" +:+ String dquote (String dquote "")
    | FieldOpAny => Field f +:+ ":*"
    | FieldOpGT => Field f +:+ ":>" +:+ Value f
    | FieldOpGTE => Field f +:+ ":>=" +:+ Value f
    | FieldOpLT => Field f +:+ ":<" +:+ Value f
    | FieldOpLTE => Field f +:+ ":<=" +:+ Value f
    | FieldOpRange => call "range"
    | FieldOpIn => call "in"
    | FieldOpIPv4Range => call "ipv4_range"
    | FieldOpIPv6Range => call "ipv6_range"
    | FieldOpExactPrefix => Field f +:+ ":=" +:+ quoteLogsQL (Value f) +:+ "*"
    | FieldOpEqField => call "eq_field"
    | FieldOpLeField => call "le_field"
    | FieldOpStringRange => call "string_range"
    | FieldOpValueType => call "value_type"
    | FieldOpJSONArrayContainsAny => call "json_array_contains_any"
    | FieldOpContainsCommonCase => call "contains_common_case"
    | FieldOpEqualsCommonCase => call "equals_common_case"
    end in
  if Negate f then "NOT " +:+ core else core.

Definition PipeFormat_String (template result : string) : string :=
  "| format " +:+ Quote template +:+ " as " +:+ result.

End Filters.
End Logsql.

Module Tr.
Import Text Utf8 Ast Logsql.

(** ** Quote-aware scanners

    [q] is the open quote, if any. *)

Definition quote_byte (c : Ascii.ascii) : bool := Ascii.eqb c dquote || Ascii.eqb c "`".

Definition is_open (q : option Ascii.ascii) (c : Ascii.ascii) : bool :=
  match q with
  | Some d => Ascii.eqb d c
  | None => false
  end.

(** [inQuote] after byte [c]. *)
Definition toggle (q : option Ascii.ascii) (c : Ascii.ascii) : option Ascii.ascii :=
  if quote_byte c then
    match q with
    | None => Some c
    | Some d => if Ascii.eqb d c then None else q
    end
  else q.

(** Whether the byte starts an escape pair. *)
Definition escapes (q : option Ascii.ascii) (c : Ascii.ascii) : bool :=
  Ascii.eqb c bslash && is_open q dquote.

(** The position of the brace that closes the first one. *)
Fixpoint findBrace (q : option Ascii.ascii) (depth : Z) (i : nat) (s : string) : option nat :=
  match s with
  | "" => None
  | String c r =>
      let next :=
        let q := toggle q c in
        match q with
        | Some _ => findBrace q depth (S i) r
        | None =>
            let depth := if Ascii.eqb c "{" then depth + 1 else depth in
            if Ascii.eqb c "}" then
              if depth - 1 =? 0 then Some i else findBrace q (depth - 1) (S i) r
            else findBrace q depth (S i) r
        end in
      match r with
      | String _ r' => if escapes q c then findBrace q depth (S (S i)) r' else next
      | "" => next
      end
  end.

Definition findMatchingBrace (s : string) : option nat := findBrace None 0 0 s.

(** Where the stage at the start of the text ends. *)
Fixpoint stageEnd (q : option Ascii.ascii) (i : nat) (s : string) : option nat :=
  match s with
  | "" => None
  | String c r =>
      let next :=
        let q := toggle q c in
        match q with
        | Some _ => stageEnd q (S i) r
        | None =>
            if Ascii.eqb c "|" then Some i
            else if Ascii.eqb c "!" && HasPrefix r ">" then Some i
            else stageEnd q (S i) r
        end in
      match r with
      | String _ r' => if escapes q c then stageEnd q (S (S i)) r' else next
      | "" => next
      end
  end.

Definition extractPipelineStage (s : string) : string * string :=
  match stageEnd None 0 s with
  | Some i => (TrimSpace (prefix i s), suffix i s)
  | None => (TrimSpace s, "")
  end.

(** The pieces between the commas outside quotes; [cur] is the piece so far. *)
Fixpoint commaPieces (q : option Ascii.ascii) (cur s : string) : list string :=
  match s with
  | "" => [cur]
  | String c r =>
      let next :=
        let q := toggle q c in
        match q with
        | Some _ => commaPieces q (cur +:+ String c "") r
        | None => if Ascii.eqb c "," then cur :: commaPieces q "" r else commaPieces q (cur +:+ String c "") r
        end in
      match r with
      | String e r' => if escapes q c then commaPieces q (cur +:+ String c (String e "")) r' else next
      | "" => next
      end
  end.

Definition nonempty (s : string) : Prop := s ≠ "".

Definition splitStreamMatchers (s : string) : list string :=
  filter nonempty (map TrimSpace (commaPieces None "" s)).

(** The last piece is kept only if there is one. *)
Definition splitDropItems (s : string) : list string :=
  let l := commaPieces None "" s in
  match last l with
  | Some "" => removelast l
  | _ => l
  end.

(** ** Literals *)

(** The end of a double-quoted literal: its body with the closing quote, and the rest. *)
Fixpoint quotedBody (s : string) : option (string * string) :=
  match s with
  | "" => None
  | String c r =>
      if Ascii.eqb c bslash then
        match r with
        | "" => None
        | String e r' =>
            match quotedBody r' with
            | Some (b, t) => Some (String c (String e b), t)
            | None => None
            end
        end
      else if Ascii.eqb c dquote then Some (String c "", r)
      else
        match quotedBody r with
        | Some (b, t) => Some (String c b, t)
        | None => None
        end
  end.

(** [strings.IndexAny(s, " |")]. *)
Definition bare_end (c : Ascii.ascii) : bool := negb (Ascii.eqb c " " || Ascii.eqb c "|").

Section Text.
Context `{Unicode}.

Definition extractQuotedValue (s : string) : string * string :=
  let s := TrimSpace s in
  match strip_prefix (String dquote "") s with
  | Some r =>
      match quotedBody r with
      | Some (b, t) => (String dquote b, TrimSpace t)
      | None => (s, "")
      end
  | None =>
      match strip_prefix "`" s with
      | Some r =>
          match Cut "`" r with
          | Some (v, t) => (Quote v, TrimSpace t)
          | None => (Quote r, "")
          end
      | None =>
          let '(v, t) := span bare_end s in
          (String dquote (v +:+ String dquote ""), TrimSpace t)
      end
  end.

(** The alternatives after the first: [or "b" or "c"]. *)
Fixpoint orValues (fuel : nat) (rest : string) : list string * string :=
  match fuel with
  | O => ([], rest)
  | S fuel =>
      match strip_prefix "or" (TrimSpace rest) with
      | None => ([], rest)
      | Some after =>
          let after := TrimSpace after in
          if starts_with quote_byte after then
            let '(v, rest) := extractQuotedValue after in
            let '(vs, rest) := orValues fuel rest in (v :: vs, rest)
          else ([], rest)
      end
  end.

Definition extractLineFilterValues (s : string) : list string * string :=
  let '(v, rest) := extractQuotedValue s in
  let '(vs, rest) := orValues (String.length s) rest in
  (v :: vs, TrimSpace rest).

Definition trimDquotes (s : string) : string :=
  let q c := Ascii.eqb c dquote in rev (span q (rev (span q s).2)).2.

(** [regexp.QuoteMeta]. *)
Definition metaBytes : list Ascii.ascii :=
  map Ascii.ascii_of_nat [92; 46; 43; 42; 63; 40; 41; 124; 91; 93; 123; 125; 94; 36]%nat.

Fixpoint QuoteMeta (s : string) : string :=
  match s with
  | "" => ""
  | String c s =>
      if existsb (Ascii.eqb c) metaBytes then String bslash (String c (QuoteMeta s)) else String c (QuoteMeta s)
  end.

Definition quoteLineFilterLiteral (quoted : string) : string :=
  let decoded := match Unquote quoted with Some d => d | None => trimDquotes quoted end in
  quoteLogsQLPattern (QuoteMeta decoded).

(** ** Field names *)

(** [fieldDotSpacingRE.ReplaceAllString(label, ".")]. *)
Fixpoint dotSpacing (fuel : nat) (s : string) : string :=
  match fuel with
  | O => s
  | S fuel =>
      let '(ws, r) := span Pipe.re_space s in
      match r with
      | "" => ws
      | String c r =>
          if Ascii.eqb c "." then String "." (dotSpacing fuel (span Pipe.re_space r).2)
          else ws +:+ String c (dotSpacing fuel r)
      end
  end.

Definition normalizeFieldIdentifier (label : string) : string :=
  let label := TrimSpace label in
  if String.eqb label "" then ""
  else
    let label := replaceByte "`" "" label in
    let label := replaceByte dquote "" label in
    TrimSpace (dotSpacing (String.length label) label).

(** [strings.ReplaceAll(label, "..", ".")]. *)
Fixpoint dotdot (s : string) : string :=
  match s with
  | String "." (String "." r) => String "." (dotdot r)
  | String c r => String c (dotdot r)
  | "" => ""
  end.

Fixpoint undot (fuel : nat) (s : string) : string :=
  match fuel with
  | O => s
  | S fuel => if Contains s ".." then undot fuel (dotdot s) else s
  end.

Definition trimDots (s : string) : string :=
  let q c := Ascii.eqb c "." in rev (span q (rev (span q s).2)).2.

Definition sanitizeFieldIdentifier (label : string) : string :=
  let label := normalizeFieldIdentifier label in
  if String.eqb label "" then ""
  else
    let label := trimDots label in
    TrimSpace (undot (String.length label) label).

Definition quoteVLField (field : string) : string :=
  if String.eqb field "" || HasPrefix field (String dquote "") then field
  else if Pipe.legal_loop true field then field
  else String dquote (replaceByte dquote (String bslash (String dquote "")) field +:+ String dquote "").

Definition quoteDotted (label : string) : string :=
  if Contains label "." then String dquote (label +:+ String dquote "") else label.

(** ** Line filters *)

Definition lineFilterFieldName (field : string) : string :=
  if HasSuffix field "*" then field else quoteVLField field.

Definition alternatives (literal : bool) (fields : list string) (v : string) : list string :=
  let v := if literal then quoteLineFilterLiteral v else v in
  ("~" +:+ v) :: map (λ f, lineFilterFieldName f +:+ ":~" +:+ v) fields.

Definition lineFilterAlternation (values : list string) (negated literal : bool) (fields : list string) : string :=
  let alts := values ≫= alternatives literal fields in
  let joined := Join " OR " alts in
  let joined := if (1 <? length alts)%nat then "(" +:+ joined +:+ ")" else joined in
  if negated then "NOT " +:+ joined else joined.

(** ** Stream matchers *)

Definition unquoteLogQLValue (value : string) : string :=
  let value := TrimSpace value in
  let inner := prefix (String.length value - 2) (suffix 1 value) in
  if (2 <=? String.length value)%nat then
    if HasPrefix value (String dquote "") && HasSuffix value (String dquote "") then
      match Unquote value with Some u => u | None => inner end
    else if HasPrefix value "`" && HasSuffix value "`" then inner
    else value
  else value.

Definition buildFieldFilterStr (field : string) (op : FieldOp) (value : string) (negate : bool) : string :=
  let core := FieldFilter_String (mkFF field op value false) in
  if negate then "-" +:+ core else core.

(** [field:!""]: the field is there and not empty. *)
Definition notEmptyFilter (field : string) : string := field +:+ ":!" +:+ String dquote (String dquote "").

Definition wrapAll (or : bool) (parts : list string) : string :=
  match parts with
  | [] => ""
  | [p] => p
  | _ => "(" +:+ Join (if or then " OR " else " ") parts +:+ ")"
  end.

Definition chainFilter (fields : list string) (op : FieldOp) (value : string) (negate : bool) : string :=
  wrapAll (negb negate) (map (λ f, buildFieldFilterStr (quoteVLField f) op value negate) fields).

Definition chainEmptyFilter (fields : list string) (negate : bool) : string :=
  wrapAll negate
    (map (λ f, if negate then notEmptyFilter (quoteVLField f) else "-" +:+ quoteVLField f +:+ ":*") fields).

Definition syntheticServiceNameFields : list string :=
  ["service_name"; "service.name"; "service"; "app"; "application"; "app_name"; "name";
   "app_kubernetes_io_name"; "container"; "container_name"; "k8s.container.name"; "k8s_container_name";
   "component"; "workload"; "job"; "k8s.job.name"; "k8s_job_name"].

Definition serviceNameMatcherFilter (value : string) (neg isRegex : bool) : string :=
  let part field :=
    let name := quoteDotted field in
    if isRegex then buildFieldFilterStr name FieldOpRegexp value neg
    else if String.eqb value "" then
      if neg then notEmptyFilter name else buildFieldFilterStr name FieldOpExact "" false
    else buildFieldFilterStr name FieldOpExact value neg in
  let parts := map part syntheticServiceNameFields in
  if String.eqb value "" && negb isRegex then
    if neg then "(" +:+ Join " OR " parts +:+ ")" else Join " " parts
  else if neg then Join " " parts
  else "(" +:+ Join " OR " parts +:+ ")".

(** The label functions of a request: [labelFn], and the fallback chain of
    [MappingOptions.Expand]; both may be absent. *)
Record naming : Type := mkNaming {
  labelFn : option (string → string);
  Expand : option (string → list string)
}.

Definition expand (nm : naming) (label : string) : list string :=
  match Expand nm with
  | None => []
  | Some f => filter nonempty (map sanitizeFieldIdentifier (f label))
  end.

(** The operators in the order they are tried: text, field operator, negated, regexp. *)
Definition streamMatcherOps : list (string * FieldOp * bool * bool) :=
  [("!~", FieldOpRegexp, true, true); ("=~", FieldOpRegexp, false, true);
   ("!=", FieldOpExact, true, false); ("=", FieldOpExact, false, false)].

(** The filter for one matcher, once its parts are known. *)
Definition matcherFilter (nm : naming) (label0 value : string) (op : FieldOp) (negate isRe : bool) : string :=
  let origLabel := sanitizeFieldIdentifier label0 in
  let value := unquoteLogQLValue value in
  let value := if isRe then AnchorLabelMatcherRegex value else value in
  if String.eqb origLabel "" then ""
  else
    match expand nm origLabel with
    | (_ :: _) as chain =>
        if String.eqb value "" && negb isRe then chainEmptyFilter chain negate
        else chainFilter chain op value negate
    | [] =>
        if String.eqb origLabel "service_name" then serviceNameMatcherFilter value negate isRe
        else
          let label := if String.eqb origLabel "detected_level" then "level" else origLabel in
          let label := match labelFn nm with Some f => sanitizeFieldIdentifier (f label) | None => label end in
          if String.eqb label "" then ""
          else
            let label := quoteDotted label in
            if String.eqb value "" && negb isRe then
              if String.eqb label "level" && negb negate then "-level:*"
              else if negate then notEmptyFilter label
              else buildFieldFilterStr label FieldOpExact "" false
            else buildFieldFilterStr label op value negate
    end.

(** The first operator found anywhere after the first byte decides. *)
Fixpoint matchOps (nm : naming) (ops : list (string * FieldOp * bool * bool)) (matcher : string) : string :=
  match ops with
  | [] => ""
  | (text, op, negate, isRe) :: ops =>
      match Pipe.cutAt text matcher with
      | Some (label, value) =>
          if String.eqb label "" then matchOps nm ops matcher
          else matcherFilter nm label (TrimSpace value) op negate isRe
      | None => matchOps nm ops matcher
      end
  end.

Definition streamMatcherToFieldFilter (nm : naming) (matcher : string) : string :=
  matchOps nm streamMatcherOps (TrimSpace matcher).

Definition canUseStreamSelector (nm : naming) (streamFields : gset string) (matcher : string) : bool :=
  let matcher := TrimSpace matcher in
  if Contains matcher "!~" || Contains matcher "=~" || Contains matcher "!=" then false
  else
    match Cut "=" matcher with
    | None => false
    | Some (l, _) =>
        if String.eqb l "" then false
        else
          let label := sanitizeFieldIdentifier l in
          if String.eqb label "" || String.eqb label "service_name" then false
          else
            let label := match labelFn nm with Some f => sanitizeFieldIdentifier (f label) | None => label end in
            if String.eqb label "" then false else bool_decide (label ∈ streamFields)
    end.

(** ** drop and keep matchers *)

Definition unquoteDropValue (val : string) : string :=
  let inner := prefix (String.length val - 2) (suffix 1 val) in
  if HasPrefix val (String dquote "") && HasSuffix val (String dquote "") && (2 <=? String.length val)%nat then
    match Unquote val with Some u => u | None => inner end
  else if HasPrefix val "`" && HasSuffix val "`" && (2 <=? String.length val)%nat then inner
  else val.

Fixpoint dropOps (ops : list string) (s : string) : option (string * string * string) :=
  match ops with
  | [] => None
  | o :: ops =>
      match Pipe.cutAt o s with
      | None => dropOps ops s
      | Some (f, v) =>
          if String.eqb o "!=~" then None
          else Some (TrimSpace f, o, unquoteDropValue (TrimSpace v))
      end
  end.

Definition parseDropMatcher (s : string) : option (string * string * string) :=
  dropOps ["!=~"; "=~"; "!~"; "!="; "="] s.

(** ** Format stages *)

(** [goTemplateRE] at the start of the text: the field, and what follows. *)
Definition templateRefAt (s : string) : option (string * string) :=
  match strip_prefix "{{" s with
  | None => None
  | Some s =>
      match strip_prefix "." (span Pipe.re_space s).2 with
      | None => None
      | Some s =>
          let '(name, s) := span Filter.name_byte s in
          if String.eqb name "" then None
          else
            match strip_prefix "}}" (span Pipe.re_space s).2 with
            | Some s => Some (name, s)
            | None => None
            end
      end
  end.

Fixpoint replaceRefs (fuel : nat) (s : string) : string :=
  match fuel with
  | O => s
  | S fuel =>
      match s with
      | "" => ""
      | String c r =>
          match templateRefAt s with
          | Some (name, r) => "<" +:+ name +:+ ">" +:+ replaceRefs fuel r
          | None => String c (replaceRefs fuel r)
          end
      end
  end.

(** One character between single quotes. *)
Definition unquoteChar1 (s : string) : option string :=
  match s with
  | String c (String e r as r') =>
      if Ascii.eqb c bslash then
        if Ascii.eqb e dquote then None
        else if Ascii.eqb e "'" then if String.eqb r "" then Some "'" else None
        else
          match unescape r' with
          | Some (x, mb, "") => Some (emit x mb)
          | _ => None
          end
      else
        let '(x, w) := DecodeRune s in
        if (w =? String.length s)%nat && negb ((x =? RuneError) && (w =? 1)%nat) then Some s else None
  | _ => if String.eqb s "'" || String.eqb s (String bslash "") || String.eqb s (ch 10) then None
         else if String.eqb s "" then None
         else let '(x, w) := DecodeRune s in Some (if x =? RuneError then EncodeRune RuneError else s)
  end.

(** [strconv.Unquote] of a literal in any of the three quotes. *)
Definition UnquoteAny (s : string) : option string :=
  let inner := prefix (String.length s - 2) (suffix 1 s) in
  if (String.length s <? 2)%nat then None
  else if HasPrefix s "`" then
    if HasSuffix s "`" && negb (Contains inner "`") then Some (replaceByte "013" "" inner) else None
  else if HasPrefix s "'" then if HasSuffix s "'" then unquoteChar1 inner else None
  else Unquote s.

Definition convertGoTemplate (tmpl : string) : string :=
  let tmpl := match UnquoteAny (TrimSpace tmpl) with Some u => u | None => tmpl end in
  Quote (replaceRefs (String.length tmpl) tmpl).

Definition formatPipe (assign : string) : option string :=
  match Cut "=" assign with
  | None => None
  | Some (l, t) =>
      let converted := convertGoTemplate (TrimSpace t) in
      Some (PipeFormat_String (default "" (Unquote converted)) (TrimSpace l))
  end.

Definition translateLabelFormat (expr : string) : string :=
  match omap formatPipe (splitDropItems expr) with
  | [] => "| " +:+ expr
  | pipes => Join " " pipes
  end.

(** ** Markers for the proxy *)

Definition groupMarker : string := "__lvp_group__".
Definition WithoutMarkerSuffix : string := "__without__:".

Definition ParseGroupMarker (query : string) : string * bool :=
  if HasSuffix query groupMarker then (TrimSuffix query groupMarker, true) else (query, false).

Definition appendWithoutMarker (query : string) (labels : list string) : string :=
  match labels with
  | [] => query
  | _ => query +:+ WithoutMarkerSuffix +:+ Join "," labels
  end.

(** [strings.LastIndex]: the text before the last occurrence, and after it. *)
Fixpoint cutLast (sep s : string) : option (string * string) :=
  match s with
  | "" => if String.eqb sep "" then Some ("", "") else None
  | String c r =>
      match cutLast sep r with
      | Some (b, t) => Some (String c b, t)
      | None =>
          match strip_prefix sep s with
          | Some t => Some ("", t)
          | None => None
          end
      end
  end.

Definition ParseWithoutMarker (query : string) : string * list string :=
  match cutLast WithoutMarkerSuffix query with
  | None => (query, [])
  | Some (clean, labels) => (clean, filter nonempty (map TrimSpace (Split "," labels)))
  end.

End Text.

(** ** Walking over text

    [passes sep q s q'] : a scanner in state [q] goes over [s] to state [q'] and meets
    no byte of [sep] outside quotes. *)

Inductive passes (sep : Ascii.ascii → bool) : option Ascii.ascii → string → option Ascii.ascii → Prop :=
| passes_nil q : passes sep q "" q
| passes_esc e s q : passes sep (Some dquote) s q →
    passes sep (Some dquote) (String bslash (String e s)) q
| passes_open c s q : quote_byte c = true → passes sep (Some c) s q → passes sep None (String c s) q
| passes_close c s q : quote_byte c = true → passes sep None s q → passes sep (Some c) (String c s) q
| passes_in c d s q : c ≠ d → ¬ (d = dquote ∧ c = bslash) →
    passes sep (Some d) s q → passes sep (Some d) (String c s) q
| passes_out c s q : quote_byte c = false → sep c = false → passes sep None s q → passes sep None (String c s) q.

Lemma passes_app sep q1 s q2 t q3 : passes sep q1 s q2 → passes sep q2 t q3 → passes sep q1 (s +:+ t) q3.
Proof. induction 1; intros Ht; rewrite ?app_str_cons; [done|by constructor; auto..]. Qed.

Lemma passes_bytes sep s : all_bytes_of (λ c, negb (quote_byte c) && negb (sep c)) s = true → passes sep None s None.
Proof.
  induction s as [|c s IH]; [constructor|]. cbn [all_bytes_of]. intros [Hc Hs]%andb_true_iff.
  apply andb_true_iff in Hc as [Hq%negb_true_iff Hsep%negb_true_iff]. apply passes_out; auto.
Qed.

(** Bytes of a rune other than the quote and the backslash. *)
Definition inert (c : Ascii.ascii) : bool := negb (Ascii.eqb c dquote) && negb (Ascii.eqb c bslash).

Lemma inert_z2b z : 0 ≤ z < 256 → z ≠ 34 → z ≠ 92 → inert (z2b z) = true.
Proof.
  intros Hz H1 H2. unfold inert. rewrite !Filter.b2z_eqb, b2z_z2b by done.
  change (b2z dquote) with 34. change (b2z bslash) with 92.
  by rewrite (proj2 (Z.eqb_neq z 34)), (proj2 (Z.eqb_neq z 92)).
Qed.

Lemma EncodeRune_inert r : ValidRune r = true → r ≠ 34 → r ≠ 92 → all_bytes_of inert (EncodeRune r) = true.
Proof.
  intros Hv H1 H2. unfold EncodeRune. rewrite Hv. cbv zeta. apply ValidRune_spec in Hv.
  pose proof (Z.mod_pos_bound r 64). pose proof (Z.mod_pos_bound (r / 64) 64).
  pose proof (Z.mod_pos_bound (r / 4096) 64).
  assert (0 ≤ r / 64 ∧ 0 ≤ r / 4096 ∧ 0 ≤ r / 262144) as (? & ? & ?) by (split_and!; apply Z.div_pos; lia).
  destruct (Z.ltb_spec r 0x80); [|destruct (Z.ltb_spec r 0x800); [|destruct (Z.ltb_spec r 0x10000)]];
    cbn [bytes all_bytes_of]; rewrite ?andb_true_iff; split_and!; try done; apply inert_z2b; try lia.
  all: try (pose proof (Z.div_lt_upper_bound r 64 32); lia).
  all: try (pose proof (Z.div_lt_upper_bound r 4096 16); lia).
  all: pose proof (Z.div_lt_upper_bound r 262144 8); lia.
Qed.

Lemma passes_inert sep s t q : all_bytes_of inert s = true → passes sep (Some dquote) t q →
  passes sep (Some dquote) (s +:+ t) q.
Proof.
  intros Hs Ht. induction s as [|c s IH]; [done|]. cbn [all_bytes_of] in Hs. apply andb_true_iff in Hs as [Hc Hs].
  unfold inert in Hc. apply andb_true_iff in Hc as [Hd%negb_true_iff Hb%negb_true_iff].
  rewrite app_str_cons. apply passes_in; [by intros ->|by intros [_ ->]|auto].
Qed.

Lemma passes_body sep s t q : Lexing.qbody s → passes sep (Some dquote) t q → passes sep (Some dquote) (s +:+ t) q.
Proof.
  intros Hs Ht. induction Hs as [|r s Hv H1 H2 _ IH|c s Hc _ IH]; [done| |].
  - rewrite append_assoc. apply passes_inert; [by apply EncodeRune_inert|done].
  - rewrite app_str_cons, append_assoc, EncodeRune_ascii by lia. cbn [bytes]. rewrite app_str_cons.
    by apply passes_esc.
Qed.

Section Scanning.
Context `{Unicode}.

Lemma passes_Quote sep v : passes sep None (Quote v) None.
Proof.
  unfold Quote. apply passes_open; [done|]. apply passes_body; [apply Lexing.qbody_quote|].
  apply passes_close; [done|constructor].
Qed.

(** How the scanners go over such text. *)

Lemma toggle_open c : quote_byte c = true → toggle None c = Some c.
Proof. unfold toggle. by intros ->. Qed.

Lemma toggle_close c : quote_byte c = true → toggle (Some c) c = None.
Proof. unfold toggle. intros ->. by rewrite Ascii.eqb_refl. Qed.

Lemma toggle_in c d : c ≠ d → toggle (Some d) c = Some d.
Proof. intros Hne. unfold toggle. destruct (quote_byte c); [|done]. by rewrite (proj2 (Ascii.eqb_neq d c)). Qed.

Lemma toggle_out c q : quote_byte c = false → toggle q c = q.
Proof. unfold toggle. by intros ->. Qed.

Lemma escapes_in c d : ¬ (d = dquote ∧ c = bslash) → escapes (Some d) c = false.
Proof.
  intros Hn. unfold escapes, is_open. destruct (Ascii.eqb_spec c bslash); [|done].
  destruct (Ascii.eqb_spec d dquote); [|done]. tauto.
Qed.

Lemma escapes_close c : quote_byte c = true → escapes (Some c) c = false.
Proof. intros Hc. apply escapes_in. by intros [-> ?]. Qed.

Lemma escapes_none c : escapes None c = false.
Proof. unfold escapes. cbn. by rewrite andb_false_r. Qed.

(** One round of each scanner on a byte that does not start an escape. *)
Lemma findBrace_cons q depth i c r : escapes q c = false →
  findBrace q depth i (String c r) =
    match toggle q c with
    | Some d => findBrace (Some d) depth (S i) r
    | None =>
        let depth := if Ascii.eqb c "{" then depth + 1 else depth in
        if Ascii.eqb c "}" then if depth - 1 =? 0 then Some i else findBrace None (depth - 1) (S i) r
        else findBrace None depth (S i) r
    end.
Proof. intros He. cbn [findBrace]. rewrite He. by destruct r, (toggle q c). Qed.

Lemma commaPieces_cons q cur c r : escapes q c = false →
  commaPieces q cur (String c r) =
    match toggle q c with
    | Some d => commaPieces (Some d) (cur +:+ String c "") r
    | None => if Ascii.eqb c "," then cur :: commaPieces None "" r else commaPieces None (cur +:+ String c "") r
    end.
Proof. intros He. cbn [commaPieces]. rewrite He. by destruct r, (toggle q c). Qed.

Definition brace_byte (c : Ascii.ascii) : bool := Ascii.eqb c "{" || Ascii.eqb c "}".

Lemma findBrace_passes q s q' : passes brace_byte q s q' → ∀ depth i t,
  findBrace q depth i (s +:+ t) = findBrace q' depth (i + String.length s) t.
Proof.
  induction 1 as [q|e s q _ IH|c s q Hc _ IH|c s q Hc _ IH|c d s q Hne He _ IH|c s q Hq Hs _ IH]; intros depth i t;
    rewrite ?app_str_cons; cbn [String.length].
  - by rewrite Nat.add_0_r.
  - transitivity (findBrace (Some dquote) depth (S (S i)) (s +:+ t)); [done|]. rewrite IH. f_equal. lia.
  - rewrite findBrace_cons, toggle_open, IH by (done || apply escapes_none). f_equal. lia.
  - rewrite findBrace_cons, toggle_close by (done || by apply escapes_close). cbv zeta.
    destruct (Ascii.eqb_spec c "{") as [->|_]; [done|]. destruct (Ascii.eqb_spec c "}") as [->|_]; [done|].
    rewrite IH. f_equal. lia.
  - rewrite findBrace_cons, toggle_in, IH by (done || by apply escapes_in). f_equal. lia.
  - rewrite findBrace_cons, toggle_out by (done || apply escapes_none). cbv zeta.
    unfold brace_byte in Hs. apply orb_false_iff in Hs as [-> ->]. rewrite IH. f_equal. lia.
Qed.

Definition comma_byte (c : Ascii.ascii) : bool := Ascii.eqb c ",".

Lemma commaPieces_passes q s q' : passes comma_byte q s q' → ∀ cur t,
  commaPieces q cur (s +:+ t) = commaPieces q' (cur +:+ s) t.
Proof.
  induction 1 as [q|e s q _ IH|c s q Hc _ IH|c s q Hc _ IH|c d s q Hne He _ IH|c s q Hq Hs _ IH]; intros cur t;
    rewrite ?app_str_cons.
  - by rewrite append_nil_r.
  - transitivity (commaPieces (Some dquote) (cur +:+ String bslash (String e "")) (s +:+ t)); [done|].
    by rewrite IH, append_assoc.
  - by rewrite commaPieces_cons, toggle_open, IH, append_assoc by (done || apply escapes_none).
  - rewrite commaPieces_cons, toggle_close by (done || by apply escapes_close).
    destruct (Ascii.eqb_spec c ",") as [->|_]; [done|]. by rewrite IH, append_assoc.
  - by rewrite commaPieces_cons, toggle_in, IH, append_assoc by (done || by apply escapes_in).
  - rewrite commaPieces_cons, toggle_out by (done || apply escapes_none).
    unfold comma_byte in Hs. rewrite Hs. by rewrite IH, append_assoc.
Qed.

(** ** The stream selector *)

Lemma name_byte_plain c : Filter.name_byte c = true → quote_byte c = false ∧ brace_byte c = false ∧ comma_byte c = false ∧ solid c = true.
Proof.
  intros Hc. split_and!.
  - unfold quote_byte. destruct (Ascii.eqb_spec c dquote) as [->|_]; [done|]. by destruct (Ascii.eqb_spec c "`") as [->|_].
  - unfold brace_byte. destruct (Ascii.eqb_spec c "{") as [->|_]; [done|]. by destruct (Ascii.eqb_spec c "}") as [->|_].
  - unfold comma_byte. by destruct (Ascii.eqb_spec c ",") as [->|_].
  - unfold Filter.name_byte, Filter.isIdentByte in Hc. rewrite !orb_true_iff, !within_spec, !Filter.b2z_eqb, !Z.eqb_eq in Hc.
    change (b2z "_") with 95 in Hc. change (b2z ".") with 46 in Hc.
    assert (33 ≤ b2z c ≤ 126) as Hr by (destruct_or! Hc; lia). unfold solid, byte_of.
    unfold b2z in Hr. rewrite <- N_nat_Z in Hr. change (N.to_nat (N_of_ascii c)) with (nat_of_ascii c) in Hr.
    apply andb_true_iff. rewrite !Nat.leb_le. lia.
Qed.

Lemma name_passes sep n : (∀ c, Filter.name_byte c = true → sep c = false) →
  all_bytes_of Filter.name_byte n = true → passes sep None n None.
Proof.
  intros Hsep Hn. apply passes_bytes. induction n as [|c n IH]; [done|]. cbn in Hn |- *.
  apply andb_true_iff in Hn as [Hc Hn]. destruct (name_byte_plain c Hc) as (Hq & _). by rewrite Hq, (Hsep c Hc), IH.
Qed.

Definition op_free (sep : Ascii.ascii → bool) : Prop :=
  sep "="%char = false ∧ sep "!"%char = false ∧ sep "~"%char = false ∧ ∀ c, Filter.name_byte c = true → sep c = false.

Lemma matcher_passes sep m : op_free sep → Filter.good_name (lm_Name m) →
  passes sep None (LabelMatcher_String m) None.
Proof.
  intros (H1 & H2 & H3 & Hn) [_ Hname]. unfold LabelMatcher_String.
  eapply passes_app; [by apply name_passes|]. eapply passes_app; [|apply passes_Quote].
  destruct (lm_Op m); cbn [MatchOp_String]; repeat (apply passes_out; [done|done|]); constructor.
Qed.

Lemma brace_op_free : op_free brace_byte.
Proof. split_and!; [done..|]. intros c Hc. by apply name_byte_plain. Qed.

Lemma comma_op_free : op_free comma_byte.
Proof. split_and!; [done..|]. intros c Hc. by apply name_byte_plain. Qed.

Lemma passes_join sep l : passes sep None ", " None → Forall (λ x, passes sep None x None) l →
  passes sep None (Join ", " l) None.
Proof.
  intros Hs. induction 1 as [|x l Hx Hl IH]; [constructor|]. destruct l as [|y l]; [done|].
  change (Join ", " (x :: y :: l)) with (x +:+ ", " +:+ Join ", " (y :: l)).
  eapply passes_app; [done|]. by eapply passes_app.
Qed.

Lemma commaPieces_join l x cur : Forall (λ x, passes comma_byte None x None) (x :: l) →
  commaPieces None cur (Join ", " (x :: l)) = (cur +:+ x) :: map (λ y, " " +:+ y) l.
Proof.
  revert x cur. induction l as [|y l IH]; intros x cur Hl; apply Forall_cons in Hl as [Hx Hl].
  - change (Join ", " [x]) with x. rewrite <- (append_nil_r x) at 1. by rewrite (commaPieces_passes _ _ _ Hx).
  - change (Join ", " (x :: y :: l)) with (x +:+ ", " +:+ Join ", " (y :: l)).
    rewrite (commaPieces_passes _ _ _ Hx), app_str_cons, commaPieces_cons by done.
    change (toggle None ",") with (@None ascii). cbv iota. change (Ascii.eqb "," ",") with true. cbv iota. f_equal.
    change (" " +:+ Join ", " (y :: l)) with (String " " (Join ", " (y :: l))). rewrite commaPieces_cons by done.
    change (toggle None " ") with (@None ascii). cbv iota. change (Ascii.eqb " " ",") with false. cbv iota.
    by rewrite IH.
Qed.

(** A text with solid ends. *)
Lemma matcher_trim m : Filter.good_name (lm_Name m) → TrimSpace (LabelMatcher_String m) = LabelMatcher_String m.
Proof.
  intros [Hn Ha]. apply TrimSpace_solid; unfold LabelMatcher_String, soft_start.
  - destruct (lm_Name m) as [|c n]; [done|]. rewrite app_str_cons. cbn in Ha |- *. apply andb_true_iff in Ha as [Hc _].
    by rewrite (proj2 (proj2 (proj2 (name_byte_plain c Hc)))).
  - unfold Quote. rewrite <- !append_assoc. change (String dquote (?a +:+ ?b)) with ((String dquote a) +:+ b).
    rewrite <- !append_assoc, rev_snoc. done.
Qed.

(** The scanners find a printed stream selector again, whatever the values
    contain: the closing brace is the last byte of the selector, and the text
    between the braces splits into exactly its matchers. *)
Theorem selector_scanned_back ms t : Forall (λ m, Filter.good_name (lm_Name m)) ms →
  findMatchingBrace (StreamSelector_String ms +:+ t) = Some (String.length (StreamSelector_String ms) - 1)%nat ∧
  splitStreamMatchers (Join ", " (map LabelMatcher_String ms)) = map LabelMatcher_String ms.
Proof.
  intros Hms. split.
  - unfold findMatchingBrace, StreamSelector_String. rewrite !append_assoc, app_str_cons.
    change ("" +:+ ?z) with z. rewrite findBrace_cons by done. change (toggle None "{") with (@None ascii). cbv iota zeta.
    change (Ascii.eqb "{" "{") with true. change (Ascii.eqb "{" "}") with false. cbv iota. cbn [Z.add].
    assert (passes brace_byte None (Join ", " (map LabelMatcher_String ms)) None) as Hp.
    { apply passes_join; [repeat (apply passes_out; [done|done|]); constructor|].
      apply Forall_map. eapply Forall_impl; [exact Hms|]. intros m Hm. by apply matcher_passes; [apply brace_op_free|]. }
    rewrite (findBrace_passes _ _ _ Hp), app_str_cons, findBrace_cons by done.
    change (toggle None "}") with (@None ascii). cbv iota zeta. change (Ascii.eqb "}" "{") with false.
    change (Ascii.eqb "}" "}") with true. cbv iota. change (1 - 1 =? 0) with true. cbv iota.
    f_equal. rewrite ?app_str_cons, ?length_app_str. cbn [String.length]. rewrite ?length_app_str. cbn. lia.
  - unfold splitStreamMatchers. destruct ms as [|m ms]; [done|]. cbn [map].
    rewrite commaPieces_join.
    2:{ apply Forall_forall. intros x Hx. change (LabelMatcher_String m :: map LabelMatcher_String ms) with
          (map LabelMatcher_String (m :: ms)) in Hx. apply list_elem_of_fmap in Hx as (y & -> & Hy).
        rewrite Forall_forall in Hms. apply matcher_passes; [apply comma_op_free|by apply Hms]. }
    apply Forall_cons in Hms as [Hm Hms]. change ("" +:+ ?z) with z. cbn [map]. rewrite matcher_trim by done.
    assert (map TrimSpace (map (λ y, " " +:+ y) (map LabelMatcher_String ms)) = map LabelMatcher_String ms) as ->.
    { induction Hms as [|x l Hx Hl IH]; [done|]. cbn [map]. rewrite IH. f_equal.
      change (" " +:+ ?z) with (String " " z). by rewrite TrimSpace_blank, matcher_trim. }
    apply filter_all. apply Forall_forall. intros x Hx.
    change (LabelMatcher_String m :: map LabelMatcher_String ms) with (map LabelMatcher_String (m :: ms)) in Hx.
    apply list_elem_of_fmap in Hx as (y & -> & _). unfold nonempty, LabelMatcher_String, Quote.
    intros E. apply (f_equal String.length) in E. rewrite !length_app_str in E. cbn in E. lia.
Qed.

(** ** Stream matchers *)

Lemma cutAt_none lit s : Contains s lit = false → Pipe.cutAt lit s = None.
Proof.
  induction s as [|c s IH]; cbn [Contains Pipe.cutAt]; intros [Hp Hc]%orb_false_iff; unfold HasPrefix in Hp;
    destruct (strip_prefix lit _); try done. by rewrite IH.
Qed.

Lemma Contains_skip c s lit : HasPrefix (String c s) lit = false → Contains (String c s) lit = Contains s lit.
Proof. intros Hp. cbn [Contains]. by rewrite Hp. Qed.

(** Plain labels: letters, digits and underscores. *)
Definition plain_name (n : string) : Prop := n ≠ "" ∧ all_bytes_of Filter.isIdentByte n = true.

Lemma ident_byte c : Filter.isIdentByte c = true →
  Filter.name_byte c = true ∧ c ≠ "."%char ∧ Pipe.re_space c = false ∧ c ≠ "="%char ∧ c ≠ "!"%char.
Proof.
  intros Hc. split_and!; [unfold Filter.name_byte; by rewrite Hc|by intros ->| |by intros ->|by intros ->].
  unfold Pipe.re_space. destruct c as [[] [] [] [] [] [] [] []]; vm_compute in Hc; first [discriminate Hc|reflexivity].
Qed.

Lemma Contains_name n t lit : all_bytes_of Filter.isIdentByte n = true →
  (∃ r, lit = String "!" r ∨ lit = String "=" r) → Contains (n +:+ t) lit = Contains t lit.
Proof.
  intros Hn Hlit. induction n as [|c n IH]; [done|]. cbn in Hn. apply andb_true_iff in Hn as [Hc Hn].
  rewrite app_str_cons, Contains_skip; [by apply IH|]. destruct (ident_byte c Hc) as (_ & _ & _ & He & Hb).
  unfold HasPrefix. destruct Hlit as [r [->| ->]]; cbn [strip_prefix];
    [rewrite (proj2 (Ascii.eqb_neq "!" c)) by done|rewrite (proj2 (Ascii.eqb_neq "=" c)) by done]; done.
Qed.

Lemma starts_rev p s : all_bytes_of (λ c, negb (p c)) s = true → starts_with p s = false ∧ starts_with p (rev s) = false.
Proof.
  intros Hs. split; [destruct s as [|c s]; [done|]; cbn in Hs |- *; by apply andb_true_iff in Hs as [->%negb_true_iff _]|].
  assert (∀ acc, starts_with p acc = false → starts_with p (rev_onto s acc) = false) as Hgen; [|by apply Hgen].
  induction s as [|c s IH]; intros acc Ha; [done|]. cbn in Hs. apply andb_true_iff in Hs as [Hc%negb_true_iff Hs].
  cbn [rev_onto]. by apply IH.
Qed.

Lemma span_none p s : starts_with p s = false → span p s = ("", s).
Proof. intros Hs. change s with ("" +:+ s) at 1. by apply span_app. Qed.

Lemma replaceByte_none b new s : all_bytes_of (λ c, negb (Ascii.eqb c b)) s = true → replaceByte b new s = s.
Proof.
  induction s as [|c s IH]; [done|]. cbn [all_bytes_of replaceByte]. intros [->%negb_true_iff Hs]%andb_true_iff.
  by rewrite IH.
Qed.

Lemma dotSpacing_plain n : all_bytes_of Filter.isIdentByte n = true → ∀ fuel, dotSpacing fuel n = n.
Proof.
  induction n as [|c n IH]; intros Hn fuel; [by destruct fuel|]. destruct fuel as [|fuel]; [done|].
  cbn [all_bytes_of] in Hn. apply andb_true_iff in Hn as [Hc Hn]. destruct (ident_byte c Hc) as (_ & Hd & Hs & _).
  cbn [dotSpacing]. rewrite span_none by done. rewrite (proj2 (Ascii.eqb_neq c ".") Hd). by rewrite IH.
Qed.

Lemma Contains_dots n : all_bytes_of Filter.isIdentByte n = true → Contains n ".." = false ∧ Contains n "." = false.
Proof.
  induction n as [|c n IH]; [done|]. cbn [all_bytes_of]. intros [Hc Hn]%andb_true_iff.
  destruct (ident_byte c Hc) as (_ & Hd & _). destruct (IH Hn) as [IH1 IH2].
  split; rewrite Contains_skip; try done; unfold HasPrefix; cbn [strip_prefix];
    by rewrite (proj2 (Ascii.eqb_neq "." c)).
Qed.

Lemma plain_trim n : all_bytes_of Filter.isIdentByte n = true → TrimSpace n = n.
Proof.
  intros Hn. apply TrimSpace_solid; unfold soft_start; apply starts_rev; eapply all_bytes_of_impl; [|exact Hn| |exact Hn];
    intros c Hc; destruct (ident_byte c Hc) as (Hb & _); destruct (name_byte_plain c Hb) as (_ & _ & _ & ->); done.
Qed.

Lemma sanitize_plain n : plain_name n → sanitizeFieldIdentifier n = n.
Proof.
  intros [Hne Hn]. unfold sanitizeFieldIdentifier, normalizeFieldIdentifier. rewrite plain_trim by done.
  rewrite (proj2 (String.eqb_neq n "") Hne).
  assert (∀ b new, Filter.isIdentByte b = false → replaceByte b new n = n) as Hrep.
  { intros b new Hb. apply replaceByte_none. eapply all_bytes_of_impl; [|exact Hn]. intros c Hc.
    destruct (Ascii.eqb_spec c b) as [->|_]; [congruence|done]. }
  rewrite !Hrep by done. rewrite dotSpacing_plain, plain_trim by done. rewrite (proj2 (String.eqb_neq n "") Hne).
  assert (trimDots n = n) as ->.
  { unfold trimDots. assert (starts_with (λ c, Ascii.eqb c ".") n = false ∧ starts_with (λ c, Ascii.eqb c ".") (rev n) = false) as [H1 H2].
    { apply starts_rev. eapply all_bytes_of_impl; [|exact Hn]. intros c Hc. destruct (ident_byte c Hc) as (_ & Hd & _).
      by rewrite (proj2 (Ascii.eqb_neq c ".") Hd). }
    cbv zeta. rewrite (span_none _ n H1). cbn [snd]. rewrite (span_none _ _ H2). apply rev_rev. }
  destruct (Contains_dots n Hn) as [Hd _]. destruct (String.length n); cbn [undot]; rewrite ?Hd; by apply plain_trim.
Qed.

Context `{!UnicodeLaws}.

Lemma unquote_value v : unquoteLogQLValue (Quote v) = v ∧ TrimSpace (Quote v) = Quote v.
Proof.
  assert (TrimSpace (Quote v) = Quote v) as Ht.
  { apply TrimSpace_solid; [done|]. unfold Quote, soft_start.
    change (String dquote (?a +:+ ?b)) with ((String dquote a) +:+ b). by rewrite rev_snoc. }
  split; [|done]. unfold unquoteLogQLValue. rewrite Ht.
  assert (2 <= String.length (Quote v))%nat as Hl by (unfold Quote; cbn [String.length]; rewrite length_app_str; cbn; lia).
  rewrite (proj2 (Nat.leb_le _ _) Hl).
  assert (HasSuffix (Quote v) (String dquote "") = true) as ->.
  { unfold Quote. change (String dquote (?a +:+ ?b)) with ((String dquote a) +:+ b). apply HasSuffix_app. }
  change (HasPrefix (Quote v) (String dquote "")) with true. cbn [andb]. by rewrite Unquote_Quote.
Qed.

(** The operator texts that must not occur in the quoted value. *)
Definition shadowing (op : MatchOp) : list string :=
  match op with
  | MatchEq => ["!~"; "=~"; "!="]
  | MatchNeq => ["!~"; "=~"]
  | MatchRe => ["!~"]
  | MatchNotRe => []
  end.

Definition unshadowed (m : LabelMatcher) : Prop :=
  Forall (λ o, Contains (Quote (lm_Value m)) o = false) (shadowing (lm_Op m)).

(** Labels the translator treats specially. *)
Definition ordinary (n : string) : Prop :=
  plain_name n ∧ n ≠ "service_name" ∧ n ≠ "detected_level" ∧ n ≠ "level".

(** The field filter for one matcher. *)
Definition fieldFilter (m : LabelMatcher) : string :=
  let n := lm_Name m in
  let v := lm_Value m in
  match lm_Op m with
  | MatchEq => n +:+ ":=" +:+ quoteLogsQL v
  | MatchNeq => if String.eqb v "" then notEmptyFilter n else "-" +:+ n +:+ ":=" +:+ quoteLogsQL v
  | MatchRe => n +:+ ":~" +:+ Quote (AnchorLabelMatcherRegex v)
  | MatchNotRe => "-" +:+ n +:+ ":~" +:+ Quote (AnchorLabelMatcherRegex v)
  end.

Definition plain_naming : naming := mkNaming None None.

Lemma matcherFilter_plain n v op negate isRe : ordinary n →
  matcherFilter plain_naming n (Quote v) op negate isRe =
    (let value := if isRe then AnchorLabelMatcherRegex v else v in
     if String.eqb value "" && negb isRe then
       if negate then notEmptyFilter n else buildFieldFilterStr n FieldOpExact "" false
     else buildFieldFilterStr n op value negate).
Proof.
  intros (Hp & Hs & Hd & Hl). unfold matcherFilter. rewrite (proj1 (unquote_value v)), sanitize_plain by done.
  pose proof Hp as [Hne Hn]. rewrite (proj2 (String.eqb_neq n "") Hne). cbn [expand plain_naming Expand labelFn].
  rewrite (proj2 (String.eqb_neq n "service_name") Hs), (proj2 (String.eqb_neq n "detected_level") Hd).
  rewrite (proj2 (String.eqb_neq n "") Hne). unfold quoteDotted. rewrite (proj2 (Contains_dots n Hn)).
  rewrite (proj2 (String.eqb_neq n "level") Hl). done.
Qed.

Lemma cut_name n c o t : plain_name n → c = "="%char ∨ c = "!"%char →
  Pipe.cutAt (String c o) (n +:+ String c o +:+ t) = Some (n, t).
Proof.
  intros [_ Hn] Hc. apply Pipe.cutAt_first; [|done]. apply Pipe.ends_at_first_byte.
  eapply all_bytes_of_impl; [|exact Hn]. intros a Ha. destruct (ident_byte a Ha) as (_ & _ & _ & He & Hb).
  apply negb_true_iff, Ascii.eqb_neq. destruct Hc as [->| ->]; done.
Qed.

Lemma matcher_field_filter m : ordinary (lm_Name m) → unshadowed m →
  streamMatcherToFieldFilter plain_naming (LabelMatcher_String m) = fieldFilter m.
Proof.
  intros Ho Hu. pose proof Ho as (Hp & _). pose proof Hp as [Hne Hn]. unfold streamMatcherToFieldFilter.
  assert (Filter.good_name (lm_Name m)) as Hg.
  { split; [done|]. eapply all_bytes_of_impl; [|exact Hn]. intros c Hc. apply (ident_byte c Hc). }
  rewrite matcher_trim by done. unfold LabelMatcher_String, unshadowed in *. destruct m as [n op v]. cbn [lm_Name lm_Op lm_Value] in *.
  assert (∀ o, (∃ r, o = String "!" r ∨ o = String "=" r) → Contains (MatchOp_String op +:+ Quote v) o = false →
    Pipe.cutAt o (n +:+ MatchOp_String op +:+ Quote v) = None) as Hno.
  { intros o Hshape Hc. apply cutAt_none. by rewrite Contains_name. }
  unfold streamMatcherOps, fieldFilter. cbn [lm_Op lm_Value lm_Name].
  destruct op; cbn [MatchOp_String shadowing] in *; cbn [matchOps].
  - repeat (apply Forall_cons in Hu as [? Hu]).
    rewrite !Hno by (eauto || (rewrite app_str_cons, Contains_skip by done; done)).
    rewrite cut_name by auto. rewrite (proj2 (String.eqb_neq n "") Hne), (proj2 (unquote_value v)), matcherFilter_plain by done.
    cbn [negb]. rewrite andb_true_r. unfold buildFieldFilterStr, FieldFilter_String. cbn. destruct (String.eqb_spec v "") as [->|]; done.
  - repeat (apply Forall_cons in Hu as [? Hu]).
    rewrite !Hno by (eauto || (rewrite !app_str_cons, !Contains_skip by done; done)).
    rewrite cut_name by auto. rewrite (proj2 (String.eqb_neq n "") Hne), (proj2 (unquote_value v)), matcherFilter_plain by done.
    cbn [negb]. rewrite andb_true_r. unfold buildFieldFilterStr, FieldFilter_String. cbn. destruct (String.eqb_spec v "") as [->|]; done.
  - repeat (apply Forall_cons in Hu as [? Hu]).
    rewrite !Hno by (eauto || (rewrite !app_str_cons, !Contains_skip by done; done)).
    rewrite cut_name by auto. rewrite (proj2 (String.eqb_neq n "") Hne), (proj2 (unquote_value v)), matcherFilter_plain by done.
    cbn [negb]. rewrite andb_false_r. done.
  - rewrite cut_name by auto. rewrite (proj2 (String.eqb_neq n "") Hne), (proj2 (unquote_value v)), matcherFilter_plain by done.
    cbn [negb]. rewrite andb_false_r. done.
Qed.

(** A stream matcher whose quoted value contains no operator text becomes the
    field filter for the same field, operator and value; a regular expression is
    anchored on both sides. *)
Theorem matcher_becomes_field_filter m : ordinary (lm_Name m) → unshadowed m →
  streamMatcherToFieldFilter plain_naming (LabelMatcher_String m) = fieldFilter m.
Proof. apply matcher_field_filter. Qed.

(** ** Value literals *)

(** Text of whole runes, without a line feed. *)
Inductive one_line : string → Prop :=
| one_line_nil : one_line ""
| one_line_rune r s : ValidRune r = true → r ≠ 10 → one_line s → one_line (EncodeRune r +:+ s).

Lemma replaceByte_app b new s t : replaceByte b new (s +:+ t) = replaceByte b new s +:+ replaceByte b new t.
Proof. induction s as [|c s IH]; [done|]. rewrite app_str_cons. cbn [replaceByte]. by rewrite IH, append_assoc. Qed.

Definition escapeValue (s : string) : string :=
  replaceByte dquote (String bslash (String dquote "")) (replaceByte bslash (String bslash (String bslash "")) s).

Lemma escapeValue_app s t : escapeValue (s +:+ t) = escapeValue s +:+ escapeValue t.
Proof. unfold escapeValue. by rewrite !replaceByte_app. Qed.

Lemma escapeValue_rune r : ValidRune r = true →
  escapeValue (EncodeRune r) = if (r =? 34) || (r =? 92) then escape (EncodeRune r) else EncodeRune r.
Proof.
  intros Hv. destruct (Z.eqb_spec r 34) as [->|H1]; [done|]. destruct (Z.eqb_spec r 92) as [->|H2]; [done|]. cbn [orb].
  pose proof (EncodeRune_inert r Hv H1 H2) as Hi. unfold escapeValue.
  rewrite !replaceByte_none; [done|..]; try (eapply all_bytes_of_impl; [|exact Hi]; intros c Hc; unfold inert in Hc;
    by apply andb_true_iff in Hc as [? ?]).
  rewrite replaceByte_none; [|eapply all_bytes_of_impl; [|exact Hi]]; [eapply all_bytes_of_impl; [|exact Hi]|];
    intros c Hc; unfold inert in Hc; by apply andb_true_iff in Hc as [? ?].
Qed.

Lemma unquote_value_rune f r t : ValidRune r = true → r ≠ 10 →
  unquote_loop (S f) (escapeValue (EncodeRune r) +:+ t) = prepend (EncodeRune r) (unquote_loop f t).
Proof.
  intros Hv Hr. rewrite escapeValue_rune by done. pose proof (proj1 (ValidRune_spec r) Hv) as Hrange.
  destruct (Z.eqb_spec r 34) as [->|H1]; [apply (loop_escape f _ t 34 false); done|].
  destruct (Z.eqb_spec r 92) as [->|H2]; [apply (loop_escape f _ t 92 false); done|]. cbn [orb].
  destruct (Z.ltb_spec r 128); [|by apply loop_rune].
  rewrite EncodeRune_ascii by lia. cbn [bytes]. rewrite app_str_cons. cbn [unquote_loop UnquoteChar].
  rewrite b2z_z2b by lia. decide_comparisons. cbn [negb]. decide_comparisons.
  change ("" +:+ t) with t. destruct (unquote_loop f t) as [[v after]|]; [|done].
  cbn [orb negb prepend]. rewrite Z.mod_small by lia. done.
Qed.

Lemma unquote_value_loop s f t : one_line s → (String.length (escapeValue s) ≤ f)%nat →
  unquote_loop (S f) (escapeValue s +:+ String dquote t) = Some (s, t).
Proof.
  intros Hs. revert f. induction Hs as [|r s Hv Hr Hs IH]; intros f Hf; [done|].
  rewrite escapeValue_app in Hf |- *. rewrite length_app_str in Hf. rewrite append_assoc.
  rewrite unquote_value_rune by done.
  assert (1 ≤ String.length (escapeValue (EncodeRune r)))%nat as Hpos.
  { rewrite escapeValue_rune by done. pose proof (Lexing.encode_length r Hv).
    destruct (_ || _); unfold escape; cbn [String.length]; lia. }
  destruct f as [|f]; [lia|]. rewrite IH by lia. done.
Qed.

(** A value of whole runes without a line feed comes back from the literal
    the translator writes for it. *)
Theorem value_literal_roundtrip v : one_line v → Unquote (quoteLogsQL v) = Some v.
Proof.
  intros Hv. unfold quoteLogsQL, Unquote. fold (escapeValue v). change (b2z dquote =? 34) with true. cbv iota.
  rewrite length_app_str. cbn [String.length]. rewrite Nat.add_1_r. by rewrite (unquote_value_loop v).
Qed.

(** A value with a line feed in it gives a text that is no literal. *)
Lemma newline_literal_rejected a b : one_line a → Unquote (quoteLogsQL (a +:+ String "010" b)) = None.
Proof.
  intros Ha. unfold quoteLogsQL, Unquote. fold (escapeValue (a +:+ String "010" b)).
  change (b2z dquote =? 34) with true. cbv iota. set (n := String.length _). clearbody n.
  rewrite escapeValue_app, append_assoc. change (escapeValue (String "010" b)) with (String "010" (escapeValue b)).
  rewrite app_str_cons. generalize (escapeValue b +:+ String dquote "") as z. intros z.
  assert (unquote_loop n (escapeValue a +:+ String "010" z) = None) as ->; [|done].
  revert n. induction Ha as [|r s Hv Hr Hs IH]; intros [|n]; [done..|].
  rewrite escapeValue_app, append_assoc, unquote_value_rune by done. by rewrite IH.
Qed.

(** ** Line filters *)

Definition prepend_body (w : string) (o : option (string * string)) : option (string * string) :=
  match o with
  | Some (b, t) => Some (w +:+ b, t)
  | None => None
  end.

Lemma quotedBody_inert w z : all_bytes_of inert w = true → quotedBody (w +:+ z) = prepend_body w (quotedBody z).
Proof.
  intros Hw. induction w as [|c w IH]; [change ("" +:+ z) with z; by destruct (quotedBody z) as [[? ?]|]|].
  cbn [all_bytes_of] in Hw. apply andb_true_iff in Hw as [Hc Hw]. unfold inert in Hc.
  apply andb_true_iff in Hc as [Hd%negb_true_iff Hb%negb_true_iff]. rewrite app_str_cons. cbn [quotedBody].
  rewrite Hd, Hb, (IH Hw). by destruct (quotedBody z) as [[]|].
Qed.

Lemma quotedBody_body s t : Lexing.qbody s → quotedBody (s +:+ String dquote t) = Some (s +:+ String dquote "", t).
Proof.
  induction 1 as [|r s Hv H1 H2 _ IH|c s Hc _ IH]; [done| |].
  - rewrite append_assoc, (quotedBody_inert _ _ (EncodeRune_inert r Hv H1 H2)), IH. cbn [prepend_body]. by rewrite append_assoc.
  - rewrite EncodeRune_ascii by lia. cbn [bytes]. rewrite !app_str_cons. change ("" +:+ ?z) with z. cbn [quotedBody].
    change (Ascii.eqb bslash bslash) with true. cbv iota. by rewrite IH.
Qed.

Lemma solid_end_app a c t : solid c = true → soft_start (rev t) = false → soft_start (rev ((a +:+ String c "") +:+ t)) = false.
Proof.
  intros Hc Ht. unfold rev. rewrite rev_onto_app, rev_onto_rev. rewrite rev_onto_app. cbn [rev_onto].
  unfold soft_start in *. destruct (rev t); [|done]. change ("" +:+ ?z) with z. cbn. by rewrite Hc.
Qed.

Lemma quoted_end v t : soft_start (rev t) = false → soft_start (rev (Quote v +:+ t)) = false.
Proof.
  intros Ht. unfold Quote. change (String dquote (?a +:+ String dquote "")) with (String dquote a +:+ String dquote "").
  by apply solid_end_app.
Qed.

Lemma extractQuotedValue_Quote v t : soft_start (rev t) = false →
  extractQuotedValue (Quote v +:+ t) = (Quote v, TrimSpace t).
Proof.
  intros Ht. unfold extractQuotedValue. rewrite TrimSpace_solid by (done || by apply quoted_end).
  unfold Quote at 1. rewrite app_str_cons. cbn [strip_prefix]. change (Ascii.eqb dquote dquote) with true. cbv iota.
  rewrite append_assoc, app_str_cons. change ("" +:+ t) with t. by rewrite quotedBody_body by apply Lexing.qbody_quote.
Qed.

(** What follows the alternatives of a line filter. *)
Definition stage_end (r : string) : Prop :=
  soft_start (rev r) = false ∧ TrimSpace (TrimSpace r) = TrimSpace r ∧ HasPrefix (TrimSpace r) "or" = false.

Definition orTail (vs : list string) (r : string) : string :=
  foldr (λ v t, " or " +:+ Quote v +:+ t) r vs.

Lemma orTail_end vs r : soft_start (rev r) = false → soft_start (rev (orTail vs r)) = false.
Proof.
  intros Hr. induction vs as [|v vs IH]; [done|]. cbn [orTail foldr]. fold (orTail vs r).
  rewrite <- append_assoc. unfold Quote. change (" or " +:+ String dquote (?a +:+ String dquote ""))
    with ((" or " +:+ String dquote a) +:+ String dquote ""). by apply solid_end_app.
Qed.

Lemma orTail_trim v vs r : soft_start (rev r) = false →
  TrimSpace (orTail (v :: vs) r) = "or " +:+ Quote v +:+ orTail vs r.
Proof.
  intros Hr. cbn [orTail foldr]. fold (orTail vs r). change (" or " +:+ ?z) with (String " " ("or " +:+ z)).
  rewrite TrimSpace_blank. apply TrimSpace_solid; [done|].
  rewrite <- append_assoc. unfold Quote. change ("or " +:+ String dquote (?a +:+ String dquote ""))
    with (("or " +:+ String dquote a) +:+ String dquote ""). apply solid_end_app; [done|by apply orTail_end].
Qed.

Lemma orValues_tail vs r fuel : stage_end r → (length vs ≤ fuel)%nat →
  orValues fuel (TrimSpace (orTail vs r)) = (map Quote vs, TrimSpace r).
Proof.
  intros (Hr & Hi & Ho). revert fuel. induction vs as [|v vs IH]; intros fuel Hf.
  - cbn [orTail foldr map]. destruct fuel; [done|]. cbn [orValues]. rewrite Hi. unfold HasPrefix in Ho.
    by destruct (strip_prefix "or" (TrimSpace r)).
  - destruct fuel as [|fuel]; [cbn in Hf; lia|]. cbn [length] in Hf. rewrite orTail_trim by done. cbn [orValues].
    rewrite <- (orTail_trim v vs r Hr) at 1.
    assert (TrimSpace (TrimSpace (orTail (v :: vs) r)) = "or " +:+ Quote v +:+ orTail vs r) as ->.
    { rewrite orTail_trim by done. apply TrimSpace_solid; [done|].
      rewrite <- append_assoc. unfold Quote. change ("or " +:+ String dquote (?a +:+ String dquote ""))
        with (("or " +:+ String dquote a) +:+ String dquote ""). apply solid_end_app; [done|by apply orTail_end]. }
    change (strip_prefix "or" ("or " +:+ ?z)) with (Some (String " " z)). cbv iota zeta.
    rewrite TrimSpace_blank, TrimSpace_solid by (done || apply quoted_end, orTail_end, Hr).
    change (starts_with quote_byte (Quote v +:+ orTail vs r)) with true. cbv iota.
    rewrite extractQuotedValue_Quote by (by apply orTail_end). by rewrite IH by lia.
Qed.

(** The text a regular expression made of literal bytes and escaped
    metacharacters stands for. *)
Fixpoint literalText (s : string) : option string :=
  match s with
  | "" => Some ""
  | String c r =>
      if Ascii.eqb c bslash then
        match r with
        | "" => None
        | String d r => if existsb (Ascii.eqb d) metaBytes then String d <$> literalText r else None
        end
      else if existsb (Ascii.eqb c) metaBytes then None
      else String c <$> literalText r
  end.

Lemma literalText_QuoteMeta s : literalText (QuoteMeta s) = Some s.
Proof.
  induction s as [|c s IH]; [done|]. cbn [QuoteMeta]. destruct (existsb (Ascii.eqb c) metaBytes) eqn:E.
  - cbn [literalText]. change (Ascii.eqb bslash bslash) with true. cbv iota. by rewrite E, IH.
  - cbn [literalText]. destruct (Ascii.eqb_spec c bslash) as [->|_]; [done|]. by rewrite E, IH.
Qed.

(** The alternatives of a line filter are read back in order, up to the next
    stage, and each becomes a regular expression that stands for exactly the
    text it was written for, whatever bytes that text has. *)
Theorem line_filter_is_literal v vs r : stage_end r →
  extractLineFilterValues (Quote v +:+ orTail vs r) = (map Quote (v :: vs), TrimSpace r) ∧
  ∀ x, (Unquote (quoteLineFilterLiteral (Quote x)) ≫= literalText) = Some x.
Proof.
  intros Hr. split.
  - unfold extractLineFilterValues. rewrite extractQuotedValue_Quote by (apply orTail_end, Hr).
    rewrite orValues_tail; [|done|]. { by destruct Hr as (_ & -> & _). }
    rewrite length_app_str. unfold orTail. clear Hr.
    assert (length vs ≤ String.length (foldr (λ v t, " or " +:+ Quote v +:+ t) r vs))%nat; [|lia].
    induction vs as [|w vs IH]; [cbn; lia|]. cbn [foldr length]. rewrite !length_app_str. cbn [String.length]. lia.
  - intros x. unfold quoteLineFilterLiteral, quoteLogsQLPattern. rewrite !Unquote_Quote. cbn [mbind option_bind].
    apply literalText_QuoteMeta.
Qed.

(** ** Markers *)

Lemma cutLast_none c sep s : all_bytes_of (λ a, negb (Ascii.eqb a c)) s = true → cutLast (sep +:+ String c "") s = None.
Proof.
  induction s as [|a s IH]; [by destruct sep|]. cbn [all_bytes_of]. intros [Ha Hs]%andb_true_iff. cbn [cutLast].
  rewrite IH by done. destruct (strip_prefix (sep +:+ String c "") (String a s)) as [t|] eqn:E; [|done]. exfalso.
  apply strip_prefix_spec in E. assert (all_bytes_of (λ a, negb (Ascii.eqb a c)) (String a s) = true) as Hall
    by (cbn [all_bytes_of]; by rewrite Ha). rewrite E, !all_bytes_of_app in Hall. cbn [all_bytes_of] in Hall.
  rewrite Ascii.eqb_refl in Hall. cbn [negb andb] in Hall. by rewrite andb_false_r in Hall.
Qed.

Lemma cutLast_marker q t : all_bytes_of (λ a, negb (Ascii.eqb a ":")) t = true →
  cutLast WithoutMarkerSuffix (q +:+ WithoutMarkerSuffix +:+ t) = Some (q, t).
Proof.
  intros Ht. induction q as [|c q IH]; [|rewrite app_str_cons; cbn [cutLast]; by rewrite IH].
  change ("" +:+ ?z) with z. unfold WithoutMarkerSuffix at 2.
  assert (cutLast WithoutMarkerSuffix t = None) as Hn by exact (cutLast_none ":" "__without__" t Ht).
  rewrite !app_str_cons. change ("" +:+ t) with t. cbn [cutLast]. by rewrite Hn.
Qed.

Lemma join_free ls : Forall (λ l, all_bytes_of Filter.isIdentByte l = true) ls →
  all_bytes_of (λ a, negb (Ascii.eqb a ":")) (Join "," ls) = true.
Proof.
  assert (∀ l, all_bytes_of Filter.isIdentByte l = true → all_bytes_of (λ a, negb (Ascii.eqb a ":")) l = true) as Hone.
  { intros l. apply all_bytes_of_impl. intros c Hc. by destruct (Ascii.eqb_spec c ":") as [->|]. }
  induction 1 as [|x l Hx Hl IH]; [done|]. destruct l as [|y l]; [by apply Hone|].
  change (Join "," (x :: y :: l)) with (x +:+ "," +:+ Join "," (y :: l)).
  rewrite !all_bytes_of_app, (Hone x Hx), IH. done.
Qed.

Lemma plain_no_comma ls : Forall (λ l, all_bytes_of Filter.isIdentByte l = true) ls →
  Forall (λ x, all_bytes_of (λ a, negb (Ascii.eqb a ",")) x = true) ls.
Proof.
  intros Hl. eapply Forall_impl; [exact Hl|]. intros l. apply all_bytes_of_impl. intros c Hc.
  by destruct (Ascii.eqb_spec c ",") as [->|].
Qed.

(** The labels of a [without] clause come back from the marker the translator
    leaves behind the query, and the query comes back unchanged. *)
Theorem without_marker_roundtrip q ls : ls ≠ [] → Forall plain_name ls →
  ParseWithoutMarker (appendWithoutMarker q ls) = (q, ls).
Proof.
  intros Hne Hls. unfold ParseWithoutMarker, appendWithoutMarker. destruct ls as [|l ls]; [done|].
  assert (Forall (λ l, all_bytes_of Filter.isIdentByte l = true) (l :: ls)) as Hb
    by (eapply Forall_impl; [exact Hls|]; by intros ? [_ ?]).
  rewrite cutLast_marker by (by apply join_free). cbv iota beta.
  rewrite Split_Join by (by apply plain_no_comma). f_equal.
  assert (map TrimSpace (l :: ls) = l :: ls) as ->.
  { revert Hb. generalize (l :: ls). induction 1 as [|x xs Hx _ IH]; [done|]. cbn [map]. by rewrite IH, plain_trim. }
  apply filter_all. eapply Forall_impl; [exact Hls|]. by intros ? [? _].
Qed.

End Scanning.
End Tr.

(** ** Instances *)

Module TrDemo.
Import Text Utf8 Ast Logsql Tr Filter.FilterDemo.
#[local] Existing Instances ascii_tables ascii_laws.

Definition selector : list LabelMatcher :=
  [mkLM "app" MatchEq "a}b"; mkLM "env" MatchNotRe "x, y"].

Lemma selector_scanned_back_witness :
  findMatchingBrace (StreamSelector_String selector +:+ " | json") = Some 23%nat ∧
  splitStreamMatchers (Join ", " (map LabelMatcher_String selector)) = map LabelMatcher_String selector.
Proof. refine (selector_scanned_back selector " | json" _). repeat constructor; discriminate. Defined.

Lemma matcher_becomes_field_filter_witness :
  streamMatcherToFieldFilter plain_naming (LabelMatcher_String (mkLM "app" MatchRe "a.*")) =
  fieldFilter (mkLM "app" MatchRe "a.*").
Proof.
  refine (matcher_becomes_field_filter (mkLM "app" MatchRe "a.*") _ _).
  - split_and!; [split; [discriminate|vm_compute; reflexivity]|discriminate..].
  - repeat constructor.
Defined.

Lemma value_literal_roundtrip_witness : Unquote (quoteLogsQL (String dquote "")) = Some (String dquote "").
Proof.
  refine (value_literal_roundtrip (String dquote "") _).
  refine (one_line_rune 34 "" _ _ one_line_nil); [vm_compute; reflexivity|discriminate].
Defined.

Lemma line_filter_is_literal_witness :
  extractLineFilterValues (Quote "a.b" +:+ orTail ["c"] " | json") = ([Quote "a.b"; Quote "c"], "| json") ∧
  ∀ x, (Unquote (quoteLineFilterLiteral (Quote x)) ≫= literalText) = Some x.
Proof. refine (line_filter_is_literal "a.b" ["c"] " | json" _). split_and!; vm_compute; reflexivity. Defined.

Lemma without_marker_roundtrip_witness :
  ParseWithoutMarker (appendWithoutMarker "q | stats count()" ["app"; "env"]) = ("q | stats count()", ["app"; "env"]).
Proof.
  refine (without_marker_roundtrip "q | stats count()" ["app"; "env"] _ _); [discriminate|].
  repeat constructor; discriminate.
Defined.

(** The operator is searched for in the whole matcher, its quoted value included:
    [app="a!=b"] is taken for a [!=] matcher on a field [app=a]. *)
Lemma operator_in_value_misread :
  streamMatcherToFieldFilter plain_naming (LabelMatcher_String (mkLM "app" MatchEq "a!=b")) =
    "-app=a:=" +:+ quoteLogsQL (String "b" (String dquote "")).
Proof. vm_compute. reflexivity. Qed.

(** A bare rename is pushed down as a constant text. *)
Lemma rename_pushed_as_constant :
  translateLabelFormat "new=old" = "| format " +:+ Quote "old" +:+ " as new".
Proof. vm_compute. reflexivity. Qed.

End TrDemo.
