(* ===== verification/LogqlRoundtrip.v ===== *)
(** * Printing and parsing LogQL (src/internal/logql/ast.go, parser.go)

    Expressions printed by the [String] methods are parsed again when a nested
    operand is executed.  This file proves that for the expressions described by
    [metric_ok] and [query_ok] parsing what was printed gives the same tree.

    A parser run is described by the text it reads: [runs m d t a d' t'] says that
    [m], started on text [t] with [d] open braces, returns [a] and stops on
    text [t']. *)

From S2P Require Import Prelude GoText Utf8 LogqlScanner LogqlAst LogqlParser LogqlLexing.

#[local] Open Scope Z_scope.

Module Roundtrip.
Import Text Utf8 Scanner Ast Parser Lexing.

Section Printing.
Context `{FL : Floats} `{UL : UnicodeLaws} `{NI : Netip}.

#[local] Existing Instance P_ret.
#[local] Existing Instance P_bind.

(** ** Runs of the parser on text *)

(** The scanner is on text [t] inside [d] braces. *)
Definition view (d : nat) (t : string) (s : scanner) : Prop := rest s = t ∧ braceDepth s = d.

(** The first token of [t] and the text after it. *)
Definition token (d : nat) (t : string) (k : Token) (d' : nat) (t' : string) : Prop :=
  ∀ s, view d t s → ∃ s', next s = (k, s') ∧ view d' t' s'.

(** The parser holds the first token of [t]. *)
Definition at_ (d : nat) (t : string) (p : parser) : Prop :=
  ∃ s, view d t s ∧ next s = (cur p, sc p).

Definition runs {A} (m : P A) (d : nat) (t : string) (a : A) (d' : nat) (t' : string) : Prop :=
  ∀ p, at_ d t p → ∃ p', m p = Done a p' ∧ at_ d' t' p'.

Lemma at_cur d t p k d' t' : at_ d t p → token d t k d' t' → cur p = k ∧ view d' t' (sc p).
Proof.
  intros (s & Hv & Hn) Ht. destruct (Ht s Hv) as (s' & Hn' & Hv'). rewrite Hn in Hn'.
  by simplify_eq.
Qed.

Lemma runs_ret {A} (a : A) d t : runs (mret a) d t a d t.
Proof. intros p Hp. by exists p. Qed.

Lemma runs_bind {A B} (f : A → P B) (m : P A) d t a d1 t1 b d2 t2 :
  runs m d t a d1 t1 → runs (f a) d1 t1 b d2 t2 → runs (mbind f m) d t b d2 t2.
Proof.
  intros Hm Hf p Hp. destruct (Hm p Hp) as (p1 & E1 & Hp1).
  unfold mbind, P_bind. rewrite E1. by apply Hf.
Qed.

Lemma runs_tok {B} (f : Token → P B) d t k d1 t1 b d2 t2 :
  token d t k d1 t1 → runs (f k) d t b d2 t2 → runs (mbind f tok) d t b d2 t2.
Proof.
  intros Hk Hf p Hp. destruct (at_cur _ _ _ _ _ _ Hp Hk) as [Hc _].
  rewrite bind_tok, Hc. by apply Hf.
Qed.

Lemma runs_typ {B} (f : TokType → P B) d t k d1 t1 b d2 t2 :
  token d t k d1 t1 → runs (f (Typ k)) d t b d2 t2 → runs (mbind f typ) d t b d2 t2.
Proof.
  intros Hk Hf p Hp. destruct (at_cur _ _ _ _ _ _ Hp Hk) as [Hc _].
  rewrite bind_typ, Hc. by apply Hf.
Qed.

(** The whole parser state: its token, and the one behind it. *)
Lemma runs_get {B} (f : parser → P B) d t k d1 t1 b d2 t2 :
  token d t k d1 t1 →
  (∀ p, cur p = k → (∀ k2 d3 t3, token d1 t1 k2 d3 t3 → peekTyp p = Typ k2) →
    runs (f p) d t b d2 t2) →
  runs (mbind f get) d t b d2 t2.
Proof.
  intros Hk Hf p Hp. destruct (at_cur _ _ _ _ _ _ Hp Hk) as [Hc Hv].
  rewrite bind_get. apply Hf; [done| |done].
  intros k2 d3 t3 Hk2. destruct (Hk2 _ Hv) as (s' & Hn & _). unfold peekTyp. by rewrite Hn.
Qed.

Lemma runs_advance d t k d' t' : token d t k d' t' → runs advance d t k d' t'.
Proof.
  intros Hk p Hp. destruct (at_cur _ _ _ _ _ _ Hp Hk) as [Hc Hv]. unfold advance.
  destruct (next (sc p)) as [k' s'] eqn:Hn. rewrite Hc. eexists. split; [done|].
  exists (sc p). by split.
Qed.

Lemma runs_expect d t k d' t' : token d t k d' t' → runs (expect (Typ k)) d t k d' t'.
Proof.
  intros Hk. unfold expect. eapply runs_tok; [exact Hk|]. unfold is_typ.
  rewrite bool_decide_true by done. by apply runs_advance.
Qed.

Lemma runs_errorf {A} f (m : P A) d t a d' t' : runs m d t a d' t' → runs (errorf f m) d t a d' t'.
Proof.
  intros Hm p Hp. destruct (Hm p Hp) as (p' & E & Hp'). unfold errorf. rewrite E. by exists p'.
Qed.

(** ** Tokens of text *)

Lemma view_skip d n t s : view d (n +:+ t) s → view d t (skip (String.length n) s).
Proof. intros [Hr Hd]. split; [by apply rest_skip_text|done]. Qed.

Lemma next_blank t s : rest s = " " +:+ t → next s = next (skip 1 s).
Proof.
  intros Hr. apply next_skipWS. unfold skipWS, while. rewrite rest_skip, Hr.
  change (suffix 1 (" " +:+ t)) with t. change (" " +:+ t) with (String " " t).
  cbn [String.length span]. rewrite peek_ascii by done. change (IsSpace (b2z " ")) with true.
  cbn [negb orb Nat.eqb]. change (suffix 1 (String " " t)) with t. by rewrite skip_skip.
Qed.

Lemma token_space d t k d' t' : token d t k d' t' → token d (" " +:+ t) k d' t'.
Proof.
  intros Hk s Hv. destruct Hv as [Hr Hd]. rewrite (next_blank t s Hr). apply Hk.
  by apply (view_skip d " ").
Qed.

Lemma runs_space {A} (m : P A) d t a d' t' : runs m d t a d' t' → runs m d (" " +:+ t) a d' t'.
Proof.
  intros Hm p (s & [Hr Hd] & Hn). apply Hm. exists (skip 1 s).
  rewrite (next_blank t s Hr) in Hn. split; [|done]. by apply (view_skip d " ").
Qed.

(** [t] does not continue a word or a number. *)
Definition plain_char (a : Ascii.ascii) : bool :=
  let r := b2z a in
  (r <? 128) && negb (((65 <=? r) && (r <=? 90)) || ((97 <=? r) && (r <=? 122))
                      || ((48 <=? r) && (r <=? 57)) || (r =? 95) || (r =? 46)).

Definition breaks (t : string) : Prop :=
  match t with
  | "" => True
  | String a _ => plain_char a = true
  end.

Lemma breaks_stops t : breaks t → stops ident_rune t ∧ stops digit_rune t ∧ stops IsLetter t.
Proof.
  destruct t as [|a t]; [done|]. cbn [breaks stops]. unfold plain_char. cbv zeta. intros Hp.
  apply andb_true_iff in Hp as [Ha%Z.ltb_lt Hn%negb_true_iff]. pose proof (b2z_range a) as Hb.
  rewrite !orb_false_iff in Hn. destruct Hn as [[[[H1 H2] H3] H4] H5].
  unfold ident_rune, digit_rune. rewrite IsLetter_ascii, IsDigit_ascii by lia.
  by rewrite H1, H2, H3, H4, H5.
Qed.

Lemma token_of (n : string) d t k s :
  view d (n +:+ t) s → next s = (k, skip (String.length n) s) →
  ∃ s', next s = (k, s') ∧ view d t s'.
Proof. intros Hv Hn. eexists. split; [exact Hn|]. by apply view_skip. Qed.

Lemma token_word n d t :
  word n = true → breaks t → token d (n +:+ t) (mkTok (keyword n) n) d t.
Proof.
  intros Hn Ht s Hv. apply (token_of n); [done|]. destruct Hv as [Hr Hd].
  apply next_word with t; [done|done|]. by apply breaks_stops.
Qed.

(** A word that is not a keyword. *)
Definition name (n : string) : Prop := word n = true ∧ keyword n = TokIdent.

Lemma token_name n d t : name n → breaks t → token d (n +:+ t) (mkTok TokIdent n) d t.
Proof. intros [Hw Hk] Ht. rewrite <- Hk. by apply token_word. Qed.

Lemma token_quote v d t : token d (Quote v +:+ t) (mkTok TokString v) d t.
Proof. intros s Hv. apply (token_of (Quote v)); [done|]. apply scan_quoted with t, Hv. Qed.

Lemma token_raw v d t : CanBackquote v = true →
  token d (("`" +:+ v +:+ "`") +:+ t) (mkTok TokRawString v) d t.
Proof.
  intros Hc s Hv. apply (token_of ("`" +:+ v +:+ "`")); [done|].
  rewrite !length_app_str. cbn [String.length].
  replace (1 + (String.length v + 1))%nat with (2 + String.length v)%nat by lia.
  apply next_raw with t; [|done]. destruct Hv as [-> _]. by rewrite !append_assoc.
Qed.

Lemma token_number n d t :
  number_text n = true → breaks t → token d (n +:+ t) (mkTok TokNumber n) d t.
Proof.
  intros Hn Ht s Hv. apply (token_of n); [done|]. apply breaks_stops in Ht as (_ & Hd & Hl).
  by apply next_number with t; [apply Hv|..].
Qed.

Lemma token_duration n d t :
  duration_ok n → breaks t → token d (n +:+ t) (mkTok TokDuration n) d t.
Proof.
  intros Hn Ht s Hv. apply (token_of n); [done|]. apply breaks_stops in Ht as (_ & Hd & Hl).
  by apply next_duration with t; [apply Hv|..].
Qed.

Lemma token_eof d : token d "" (mkTok TokEOF "") d "".
Proof. intros s [Hr Hd]. eexists. split; [by apply next_eof|done]. Qed.

Lemma token_lbrace t : token 0 ("{" +:+ t) (mkTok TokLBrace "{") 1 t.
Proof.
  intros s [Hr Hd]. eexists. split; [by apply next_lbrace with t|].
  split; [by apply rest_skip_text with (n := "{")|cbn; by rewrite Hd].
Qed.

Lemma token_rbrace t : token 1 ("}" +:+ t) (mkTok TokRBrace "}") 0 t.
Proof.
  intros s [Hr Hd]. eexists. split; [by apply next_rbrace with t|].
  split; [by apply rest_skip_text with (n := "}")|cbn; by rewrite Hd].
Qed.

Ltac char_token n lem := intros s Hv; apply (token_of n); [done|]; eapply lem; apply Hv.

Lemma token_lparen d t : token d ("(" +:+ t) (mkTok TokLParen "(") d t.
Proof. char_token "(" next_lparen. Qed.
Lemma token_rparen d t : token d (")" +:+ t) (mkTok TokRParen ")") d t.
Proof. char_token ")" next_rparen. Qed.
Lemma token_lbracket d t : token d ("[" +:+ t) (mkTok TokLBracket "[") d t.
Proof. char_token "[" next_lbracket. Qed.
Lemma token_rbracket d t : token d ("]" +:+ t) (mkTok TokRBracket "]") d t.
Proof. char_token "]" next_rbracket. Qed.
Lemma token_comma d t : token d ("," +:+ t) (mkTok TokComma ",") d t.
Proof. char_token "," next_comma. Qed.
Lemma token_pipe d t : token d ("|" +:+ " " +:+ t) (mkTok TokPipe "|") d (" " +:+ t).
Proof. char_token "|" next_pipe. Qed.
Lemma token_minus d t : token d ("-" +:+ t) (mkTok TokMinus "-") d t.
Proof. char_token "-" next_minus_number. Qed.

(** Find the first token of the text in the goal. *)
Ltac brk := first [reflexivity | exact I | assumption].
Ltac tokens :=
  lazymatch goal with
  | |- token _ (" " +:+ _) _ _ _ => apply token_space; tokens
  | |- token _ (String " " _) _ _ _ => apply token_space; tokens
  | |- token _ (Quote _ +:+ _) _ _ _ => apply token_quote
  | |- _ => first
      [ eassumption | apply token_eof | apply token_lbrace | apply token_rbrace | apply token_lparen
      | apply token_rparen | apply token_lbracket | apply token_rbracket | apply token_comma
      | apply token_pipe
      | apply token_name; [first [assumption | by split]|brk]
      | apply token_duration; [assumption|brk] ]
  end.


(** Decide comparisons of known token types. *)
Ltac types :=
  cbn [Typ Val];
  repeat match goal with
  | |- context [is_typ ?a ?b] =>
      let v := eval vm_compute in (is_typ a b) in
      lazymatch v with true => idtac | false => idtac end;
      change (is_typ a b) with v
  end;
  cbn [negb andb orb].

(** One step of a run whose next token is determined by the text. *)
Ltac step :=
  lazymatch goal with
  | |- runs (mbind _ typ) _ _ _ _ _ => eapply runs_typ; [tokens|]; types
  | |- runs (mbind _ tok) _ _ _ _ _ => eapply runs_tok; [tokens|]; types
  | |- runs (mbind _ advance) _ _ _ _ _ => eapply runs_bind; [apply runs_advance; tokens|]; types
  | |- runs (mbind _ (expect _)) _ _ _ _ _ =>
      eapply runs_bind; [refine (runs_expect _ _ (mkTok _ _) _ _ _); tokens|]; types
  | |- runs (mbind _ (errorf _ (expect _))) _ _ _ _ _ =>
      eapply runs_bind; [apply runs_errorf; refine (runs_expect _ _ (mkTok _ _) _ _ _); tokens|]; types
  | |- runs (mret _) _ _ _ _ _ => apply runs_ret
  end.

(** ** Label lists *)

Lemma runs_labels ls : Forall name ls → ∀ fuel acc d t, (length ls < fuel)%nat →
  runs (labelLoop fuel acc) d (Join ", " ls +:+ ")" +:+ t) (acc ++ ls) d (")" +:+ t).
Proof.
  induction 1 as [|l ls Hl Hls IH]; intros fuel acc d t Hf; (destruct fuel as [|fuel]; [cbn in Hf; lia|]).
  - rewrite app_nil_r. cbn [labelLoop Join]. change ("" +:+ ?x) with x. step. step.
  - cbn [length] in Hf. rewrite (cons_middle l acc ls), app_assoc. cbn [labelLoop].
    destruct ls as [|l' ls]; cbn [Join].
    + step. step. step. apply (IH fuel (acc ++ [l]) d t). lia.
    + rewrite !append_assoc. step. step. step. step.
      change (String " " ("" +:+ ?x)) with (" " +:+ x). apply runs_space.
      apply (IH fuel (acc ++ [l]) d t). lia.
Qed.

(** ** Stream selectors *)

Lemma Quote_text v t :
  Quote v +:+ t = String dquote (quote_loop (String.length v) v +:+ String dquote t).
Proof. unfold Quote. by rewrite app_str_cons, append_assoc. Qed.

Lemma breaks_quote v t : breaks (Quote v +:+ t).
Proof. by rewrite Quote_text. Qed.

Lemma token_eq d v t : token d ("=" +:+ Quote v +:+ t) (mkTok TokEq "=") d (Quote v +:+ t).
Proof.
  intros s Hv. apply (token_of "="); [done|]. eapply next_eq. destruct Hv as [-> _].
  by rewrite Quote_text.
Qed.

Lemma token_rematch d t : token d ("=~" +:+ t) (mkTok TokReMatch "=~") d t.
Proof. char_token "=~" next_rematch. Qed.

Lemma token_match op v t : ∃ k,
  token 1 (MatchOp_String op +:+ Quote v +:+ t) k 1 (Quote v +:+ t) ∧ matchOp (Typ k) = Some op.
Proof.
  destruct op.
  - eexists. split; [apply token_eq|done].
  - exists (mkTok TokNeq "!="). split; [|done]. intros s Hv. apply (token_of "!="); [done|].
    eapply (next_bang_in "=" TokNeq); [set_solver|apply Hv..].
  - eexists. split; [apply token_rematch|done].
  - exists (mkTok TokReNotMatch "!~"). split; [|done]. intros s Hv. apply (token_of "!~"); [done|].
    eapply (next_bang_in "~" TokReNotMatch); [set_solver|apply Hv..].
Qed.

(** [=], [!=], [=~] and [!~] outside braces. *)
Definition compare_ops : list (string * TokType) :=
  [("=", TokEq); ("!=", TokBangEq); ("=~", TokReMatch); ("!~", TokBangTilde)].

Lemma token_compare op tk v t : (op, tk) ∈ compare_ops →
  token 0 (op +:+ Quote v +:+ t) (mkTok tk op) 0 (Quote v +:+ t).
Proof.
  unfold compare_ops. rewrite !elem_of_cons.
  intros [[= -> ->]|[[= -> ->]|[[= -> ->]|[[= -> ->]|Hb%not_elem_of_nil]]]]; [..|done].
  - apply token_eq.
  - intros s Hv. apply (token_of "!="); [done|].
    eapply (next_bang_out "=" TokBangEq); [set_solver|apply Hv..].
  - apply token_rematch.
  - intros s Hv. apply (token_of "!~"); [done|].
    eapply (next_bang_out "~" TokBangTilde); [set_solver|apply Hv..].
Qed.

Lemma runs_string fuel d v t : (0 < fuel)%nat →
  runs (expectStringOrRaw fuel) d (Quote v +:+ t) v d t.
Proof.
  intros Hf. destruct fuel as [|fuel]; [lia|]. cbn [expectStringOrRaw]. step. step. step.
Qed.

Lemma runs_argument fuel d v t : (0 < fuel)%nat →
  runs (expectStringOrRaw fuel) d (quoteParserArgument v +:+ t) v d t.
Proof.
  intros Hf. unfold quoteParserArgument. destruct (CanBackquote v) eqn:Hc; [|by apply runs_string].
  destruct fuel as [|fuel]; [lia|]. cbn [expectStringOrRaw].
  eapply runs_tok; [by apply token_raw|]. cbn [Typ].
  eapply runs_bind; [by apply runs_advance, token_raw|]. step.
Qed.

Lemma breaks_matchop op t : breaks (MatchOp_String op +:+ t).
Proof. by destruct op. Qed.

Lemma runs_matcher fuel m t : name (lm_Name m) → (0 < fuel)%nat →
  runs (parseLabelMatcher fuel) 1 (LabelMatcher_String m +:+ t) m 1 t.
Proof.
  intros Hn Hf. destruct m as [n op v]. cbn [lm_Name] in Hn. unfold LabelMatcher_String.
  cbn [lm_Name lm_Op lm_Value]. rewrite !append_assoc. unfold parseLabelMatcher.
  pose proof (breaks_matchop op (Quote v +:+ t)). step.
  destruct (token_match op v t) as (k & Hk & Hop).
  eapply runs_tok; [exact Hk|]. rewrite Hop.
  eapply runs_bind; [by apply runs_advance|].
  eapply runs_bind; [apply runs_errorf; by apply runs_string|]. apply runs_ret.
Qed.

Definition selector_ok (s : StreamSelector) : Prop := Forall (λ m, name (lm_Name m)) s.

Lemma runs_matchers ms m : Forall (λ m, name (lm_Name m)) (m :: ms) →
  ∀ fuel acc t, (S (length ms) ≤ fuel)%nat →
  runs (matcherLoop fuel acc) 1 (Join ", " (map LabelMatcher_String (m :: ms)) +:+ "}" +:+ t)
    (acc ++ m :: ms) 1 ("}" +:+ t).
Proof.
  revert m. induction ms as [|m' ms IH]; intros m [Hm Hms]%Forall_cons fuel acc t Hf;
    (destruct fuel as [|fuel]; [lia|]); cbn [matcherLoop].
  - cbn [map Join]. eapply runs_bind; [apply runs_matcher; [done|lia]|]. step. step.
  - cbn [map Join]. rewrite !append_assoc.
    eapply runs_bind; [apply runs_matcher; [done|lia]|]. step. step.
    change (String " " ("" +:+ ?x)) with (" " +:+ x). apply runs_space.
    rewrite (cons_middle m acc (m' :: ms)), app_assoc.
    apply (IH m' Hms fuel (acc ++ [m]) t). cbn in Hf; lia.
Qed.

Lemma token_first_matcher ms m t : name (lm_Name m) →
  ∃ t', token 1 (Join ", " (map LabelMatcher_String (m :: ms)) +:+ t) (mkTok TokIdent (lm_Name m)) 1 t'.
Proof.
  intros Hn. assert (∃ r, Join ", " (map LabelMatcher_String (m :: ms)) +:+ t
    = lm_Name m +:+ (MatchOp_String (lm_Op m) +:+ r)) as [r ->].
  { destruct ms as [|m' ms]; cbn [map Join]; unfold LabelMatcher_String at 1; rewrite !append_assoc; eauto. }
  eexists. apply token_name; [done|apply breaks_matchop].
Qed.

Lemma runs_selector fuel s t : selector_ok s → (length s ≤ fuel)%nat →
  runs (parseStreamSelector fuel) 0 (StreamSelector_String s +:+ t) s 0 t.
Proof.
  intros Hs Hf. unfold StreamSelector_String, parseStreamSelector. rewrite !append_assoc. step.
  destruct s as [|m ms].
  - cbn [map Join]. change ("" +:+ ?x) with x. step. step. step.
  - pose proof Hs as [Hm Hms]%Forall_cons. destruct (token_first_matcher ms m ("}" +:+ t) Hm) as [t' Ht'].
    eapply runs_typ; [exact Ht'|]. types.
    eapply runs_bind; [apply (runs_matchers ms m Hs fuel []); cbn in Hf; lia|]. cbn [app].
    step. step.
Qed.

(** ** Pipeline stages *)

(** Words written with ASCII letters, digits and underscores. *)
Definition aletter (r : Z) : bool :=
  ((65 <=? r) && (r <=? 90)) || ((97 <=? r) && (r <=? 122)) || (r =? 95).

Definition aword (n : string) : bool :=
  match n with
  | "" => false
  | String a _ => (b2z a <? 128) && aletter (b2z a) &&
      all_bytes (λ r, aletter r || ((48 <=? r) && (r <=? 57))) n
  end.

Lemma all_bytes_impl (p q : Z → bool) s :
  (∀ r, 0 ≤ r < 128 → p r = true → q r = true) → all_bytes p s = true → all_bytes q s = true.
Proof.
  intros Hpq. induction s as [|a s IH]; [done|]. cbn [all_bytes].
  rewrite !andb_true_iff, Z.ltb_lt. intros [[Ha Hp] Hs]. pose proof (b2z_range a).
  split; [split; [done|apply Hpq; [lia|done]]|by apply IH].
Qed.

Lemma aletter_letter r : 0 ≤ r < 128 → aletter r = IsLetter r || (r =? 95).
Proof. intros Hr. by rewrite IsLetter_ascii. Qed.

Lemma aword_word n : aword n = true → word n = true.
Proof.
  destruct n as [|a n]; [done|]. cbn [aword word]. pose proof (b2z_range a).
  rewrite !andb_true_iff, !Z.ltb_lt. intros [[Ha Hl] Hall].
  rewrite aletter_letter in Hl by lia. split; [done|]. revert Hall. apply all_bytes_impl.
  intros r Hr. unfold ident_rune. rewrite aletter_letter, <- IsDigit_ascii by done.
  destruct (IsLetter r), (IsDigit r), (r =? 95); done.
Qed.

(** A fixed word of the grammar. *)
Lemma token_fixed n k d t :
  aword n = true → keyword n = k → breaks t → token d (n +:+ t) (mkTok k n) d t.
Proof. intros Hw <- Ht. by apply token_word; [apply aword_word|]. Qed.

(** The tokens that may follow a stage. *)
Definition stage_end (k : TokType) : bool :=
  match k with
  | TokEOF | TokPipe | TokPipeEq | TokBangEq | TokPipeTilde | TokBangTilde | TokPipeGt | TokBangGt
  | TokLBracket | TokRParen => true
  | _ => false
  end.

Definition texts {A} (g : A → string) (l : list A) : string :=
  foldr (λ a r, g a +:+ r) "" l.

Lemma foldl_texts {A} (g : A → string) l b : foldl (λ b a, b +:+ g a) b l = b +:+ texts g l.
Proof.
  revert b. induction l as [|a l IH]; intros b; cbn [foldl texts foldr].
  - by rewrite str_app_nil_r.
  - rewrite IH, append_assoc. done.
Qed.

Definition filterTok (op : LineFilterOp) : TokType :=
  match op with
  | LineFilterContains => TokPipeEq
  | LineFilterExcludes => TokBangEq
  | LineFilterMatchRe => TokPipeTilde
  | LineFilterExcludeRe => TokBangTilde
  | LineFilterContainsPat => TokPipeGt
  | LineFilterExcludePat => TokBangGt
  end.

Lemma token_filter op t :
  token 0 (LineFilterOp_String op +:+ " " +:+ t) (mkTok (filterTok op) (LineFilterOp_String op))
    0 (" " +:+ t).
Proof.
  intros s Hv. apply (token_of (LineFilterOp_String op)); [done|].
  destruct op; (eapply next_pipe_op || eapply next_bang_out); try apply Hv; set_solver.
Qed.

Lemma runs_orlist alts k d1 t1 t : token 0 t k d1 t1 → Typ k ≠ TokOr →
  ∀ fuel acc, (length alts < fuel)%nat →
  runs (parseLineFilterOrList fuel acc) 0 (texts (λ a, " or " +:+ Quote a) alts +:+ t) (acc ++ alts) 0 t.
Proof.
  intros Hk Hor. induction alts as [|a alts IH]; intros fuel acc Hf; (destruct fuel as [|fuel]; [cbn in Hf; lia|]);
    cbn [parseLineFilterOrList texts foldr].
  - change ("" +:+ t) with t. rewrite app_nil_r. eapply runs_get; [exact Hk|]. intros p Hc _. rewrite Hc.
    unfold is_typ. rewrite bool_decide_false by done. step.
  - rewrite !append_assoc. change (" or " +:+ ?x) with (" " +:+ "or" +:+ " " +:+ x).
    fold (texts (λ a, " or " +:+ Quote a) alts). set (r := texts _ alts +:+ t).
    assert (token 0 (" " +:+ "or" +:+ " " +:+ Quote a +:+ r) (mkTok TokOr "or") 0 (" " +:+ Quote a +:+ r)) as Ht
      by (apply token_space, token_fixed; done).
    eapply runs_get; [exact Ht|]. intros p Hc Hp. rewrite Hc. types.
    rewrite (Hp (mkTok TokString a) 0%nat r) by tokens. cbn [Typ].
    eapply runs_bind; [apply runs_advance; exact Ht|]. apply runs_space.
    eapply runs_bind; [apply runs_string; lia|].
    rewrite (cons_middle a acc alts), app_assoc. apply IH. cbn in Hf. lia.
Qed.

Ltac keywords :=
  repeat match goal with
  | |- context [String.eqb ?a ?b] =>
      let v := eval vm_compute in (String.eqb a b) in
      lazymatch v with true => idtac | false => idtac end;
      change (String.eqb a b) with v
  end; cbn [negb andb orb].

Lemma runs_lineFilter fuel op v alts k d1 t1 t :
  token 0 t k d1 t1 → Typ k ≠ TokOr → (length alts < fuel)%nat →
  runs (parseLineFilterStage fuel) 0 (LineFilterStage_String op v false alts +:+ t)
    (LineFilterStage op v false alts) 0 t.
Proof.
  intros Hk Hor Hf. unfold LineFilterStage_String. rewrite foldl_texts, !append_assoc.
  set (r := texts _ _ +:+ t). unfold parseLineFilterStage.
  eapply runs_bind; [apply runs_advance, token_filter|]. step. cbn [andb].
  apply runs_space. eapply runs_bind; [apply runs_string; lia|].
  eapply runs_bind; [by apply (runs_orlist alts k d1 t1 t Hk Hor fuel [])|].
  cbn [app Typ]. assert (lineFilterOp (filterTok op) = op) as -> by (by destruct op). step.
Qed.

Definition ip_op (op : LineFilterOp) : bool :=
  match op with
  | LineFilterContains | LineFilterExcludes => true
  | _ => false
  end.

Lemma runs_ipFilter fuel op v t :
  ip_op op = true → validIPPattern v = true → (1 < fuel)%nat →
  runs (parseLineFilterStage fuel) 0 (LineFilterStage_String op v true [] +:+ t)
    (LineFilterStage op v true []) 0 t.
Proof.
  intros Hop Hip Hf. unfold LineFilterStage_String, parseLineFilterStage. rewrite !append_assoc.
  change (" ip(" +:+ ?x) with (" " +:+ "ip" +:+ "(" +:+ x).
  assert (∀ x, token 0 ("ip" +:+ "(" +:+ x) (mkTok TokIdent "ip") 0 ("(" +:+ x)) as Hname
    by (intros x; by apply token_fixed).
  eapply runs_bind; [apply runs_advance, token_filter|].
  eapply runs_tok; [apply token_space, Hname|]. types. keywords.
  assert (negb (is_typ (filterTok op) TokPipeEq) && negb (is_typ (filterTok op) TokBangEq) = false) as ->
    by (by destruct op).
  apply runs_space. eapply runs_bind.
  { destruct fuel as [|[|fuel]]; [lia|lia|]. cbn [expectStringOrRaw].
    eapply runs_tok; [apply Hname|]. types. eapply runs_bind; [apply runs_advance, Hname|].
    step. step. eapply runs_bind; [apply (runs_string (S fuel)); lia|]. step. keywords.
    rewrite Hip. cbn [negb andb]. step. }
  assert (lineFilterOp (filterTok op) = op) as -> by (by destruct op).
  change ("ip" +:+ "(" +:+ ?x) with ("ip(" +:+ x). rewrite TrimPrefix_app, TrimSuffix_app. step.
Qed.

(** *** Drop and keep *)

Definition matcher_ok (m : DropMatcher) : Prop :=
  name (dm_Name m) ∧ ∃ tk, (dm_Op m, tk) ∈ compare_ops.

Lemma dropOp_compare op tk : (op, tk) ∈ compare_ops → dropOp tk = Some op.
Proof.
  unfold compare_ops. rewrite !elem_of_cons.
  by intros [[= -> ->]|[[= -> ->]|[[= -> ->]|[[= -> ->]|Hb%not_elem_of_nil]]]].
Qed.

Lemma breaks_compare op tk t : (op, tk) ∈ compare_ops → breaks (op +:+ t).
Proof.
  unfold compare_ops. rewrite !elem_of_cons.
  by intros [[= -> ->]|[[= -> ->]|[[= -> ->]|[[= -> ->]|Hb%not_elem_of_nil]]]].
Qed.

(** One item of the list, before the text [t]. *)
Definition item : Type := string + DropMatcher.

Definition item_text (i : item) : string :=
  match i with
  | inl l => l
  | inr m => DropMatcher_String m
  end.

Definition item_ok (i : item) : Prop :=
  match i with
  | inl l => name l
  | inr m => matcher_ok m
  end.

Definition put (i : item) (acc : list string * list DropMatcher) : list string * list DropMatcher :=
  match i with
  | inl l => (acc.1 ++ [l], acc.2)
  | inr m => (acc.1, acc.2 ++ [m])
  end.

Definition item_name (i : item) : string :=
  match i with
  | inl l => l
  | inr m => dm_Name m
  end.

Lemma token_item i t : item_ok i → breaks t →
  ∃ t', token 0 (item_text i +:+ t) (mkTok TokIdent (item_name i)) 0 t' ∧
  ∀ fuel acc k d1 t1, token 0 t k d1 t1 → dropOp (Typ k) = None ∨ (∃ m, i = inr m) → (0 < fuel)%nat →
    runs (dropItem fuel (item_name i) acc.1 acc.2) 0 t' (put i acc) 0 t.
Proof.
  intros Hi Ht. destruct i as [l|[n op v]]; cbn [item_text item_name item_ok] in *.
  - exists t. split; [by apply token_name|]. intros fuel acc k d1 t1 Hk [Hd|[m [=]]] Hf. unfold dropItem.
    eapply runs_typ; [exact Hk|]. rewrite Hd. apply runs_ret.
  - destruct Hi as [Hn [tk Hop]]. cbn [dm_Name dm_Op] in *. unfold DropMatcher_String.
    cbn [dm_Name dm_Op dm_Value]. rewrite !append_assoc. exists (op +:+ Quote v +:+ t).
    split; [apply token_name; [done|by eapply breaks_compare]|].
    intros fuel acc k d1 t1 Hk _ Hf. unfold dropItem.
    eapply runs_typ; [by apply token_compare|]. cbn [Typ]. rewrite (dropOp_compare op tk Hop).
    eapply runs_bind; [by apply runs_advance, token_compare|].
    eapply runs_bind; [by apply runs_string|]. apply runs_ret.
Qed.

Lemma runs_items items : ∀ i k d1 t1 t, Forall item_ok (i :: items) →
  token 0 t k d1 t1 → breaks t → stage_end (Typ k) = true →
  dropOp (Typ k) = None ∨ (∃ m, last (i :: items) = Some (inr m)) →
  ∀ fuel acc, (length items < fuel)%nat →
  runs (dropLoop fuel acc.1 acc.2) 0 (Join ", " (map item_text (i :: items)) +:+ t)
    (foldl (λ acc i, put i acc) acc (i :: items)) 0 t.
Proof.
  induction items as [|i' items IH]; intros i k d1 t1 t [Hi Hits]%Forall_cons Hk Ht Hse Hlast fuel acc Hf;
    (destruct fuel as [|fuel]; [lia|]); cbn [dropLoop].
  - cbn [map Join foldl]. destruct (token_item i t Hi Ht) as (t' & Htok & Hrun).
    eapply runs_typ; [exact Htok|]. types.
    eapply runs_bind; [apply runs_advance, Htok|]. cbn [Val].
    eapply runs_bind; [apply (Hrun (S fuel) acc k d1 t1 Hk); [|lia]|].
    { destruct Hlast as [Hd|[m [= ->]]]; [by left|right; by exists m]. }
    destruct (put i acc) as [ls ms]. eapply runs_typ; [exact Hk|].
    assert (is_typ (Typ k) TokComma = false) as -> by (destruct k as [[] ?]; done). step.
  - cbn [map Join]. rewrite !append_assoc.
    set (r := Join ", " (item_text i' :: map item_text items) +:+ t).
    destruct (token_item i (", " +:+ r) Hi) as (t' & Htok & Hrun); [done|].
    eapply runs_typ; [exact Htok|]. types.
    eapply runs_bind; [apply runs_advance, Htok|]. cbn [Val].
    eapply runs_bind; [eapply (Hrun (S fuel) acc); [apply token_comma|by left|lia]|].
    destruct (put i acc) as [ls ms] eqn:Hput. step. step.
    change (String " " ("" +:+ ?x)) with (" " +:+ x). apply runs_space.
    cbn [foldl]. rewrite Hput. eapply (IH i' k d1 t1 t Hits Hk Ht Hse Hlast fuel (ls, ms)).
    cbn in Hf. lia.
Qed.

Definition items_of (ls : list string) (ms : list DropMatcher) : list item := map inl ls ++ map inr ms.

Lemma put_all ls ms acc :
  foldl (λ acc i, put i acc) acc (items_of ls ms) = (acc.1 ++ ls, acc.2 ++ ms).
Proof.
  unfold items_of. rewrite foldl_app.
  assert (foldl (λ acc i, put i acc) acc (map inl ls) = (acc.1 ++ ls, acc.2)) as ->.
  { revert acc. induction ls as [|l ls IH]; intros [a b]; cbn [map foldl put fst snd].
    - by rewrite app_nil_r.
    - rewrite IH. cbn [fst snd]. by rewrite <- app_assoc. }
  generalize (acc.1 ++ ls). intros a. generalize (acc.2). intros b. revert b.
  induction ms as [|m ms IH]; intros b; cbn [map foldl put fst snd].
  - by rewrite app_nil_r.
  - rewrite IH. by rewrite <- app_assoc.
Qed.

(** A list is written labels first; it is not empty. *)
Definition droplist_ok (ls : list string) (ms : list DropMatcher) : Prop :=
  Forall name ls ∧ Forall matcher_ok ms ∧ (ls ≠ [] ∨ ms ≠ []).

Lemma runs_droplist ls ms k d1 t1 t fuel :
  droplist_ok ls ms → token 0 t k d1 t1 → breaks t → stage_end (Typ k) = true →
  (ms = [] → dropOp (Typ k) = None) → (length ls + length ms ≤ fuel)%nat →
  runs (parseDropKeepList fuel) 0 (dropItems ls ms +:+ t) (ls, ms) 0 t.
Proof.
  intros (Hls & Hms & Hne) Hk Ht Hse Hbare Hf. unfold dropItems, parseDropKeepList.
  assert (ls ++ map DropMatcher_String ms = map item_text (items_of ls ms)) as ->.
  { unfold items_of. rewrite map_app, !map_map. f_equal. symmetry. apply map_id. }
  pose proof (put_all ls ms ([], [])) as Hput.
  assert (Forall item_ok (items_of ls ms)) as Hall.
  { apply Forall_app. split; apply Forall_map; done. }
  assert (length (items_of ls ms) = (length ls + length ms)%nat) as Hlen.
  { unfold items_of. by rewrite length_app, !length_map. }
  assert (dropOp (Typ k) = None ∨ ∃ m, last (items_of ls ms) = Some (inr m)) as Hlast.
  { destruct ms as [|m0 ms] using rev_ind; [left; by apply Hbare|right].
    exists m0. unfold items_of. rewrite map_app, app_assoc. apply last_snoc. }
  destruct (items_of ls ms) as [|i items] eqn:Hits.
  { destruct ls; [|discriminate]. destruct ms; [|discriminate]. by destruct Hne. }
  assert (∃ t', token 0 (Join ", " (map item_text (i :: items)) +:+ t) (mkTok TokIdent (item_name i)) 0 t')
    as [t' Htok].
  { apply Forall_cons in Hall as [Hi _]. destruct items as [|i' items]; cbn [map Join].
    - destruct (token_item i t Hi Ht) as (t' & Htok & _). eauto.
    - rewrite !append_assoc. destruct (token_item i (", " +:+ Join ", " (item_text i' :: map item_text items) +:+ t) Hi)
        as (t' & Htok & _); [done|]. eauto. }
  eapply runs_typ; [exact Htok|]. types. cbn [fst snd app] in Hput.
  rewrite <- Hput. eapply (runs_items items i k d1 t1 t Hall Hk Ht Hse Hlast fuel ([], [])).
  cbn [length] in Hlen. lia.
Qed.

(** *** Label formats *)

Definition format_text (f : LabelFormat) : string :=
  lf_Name f +:+ "=" +:+ (if lf_Rename f then lf_Value f else Quote (lf_Value f)).

Definition formats_text (fs : list LabelFormat) : string := Join ", " (map format_text fs).

Definition format_ok (f : LabelFormat) : Prop :=
  name (lf_Name f) ∧ (lf_Rename f = true → name (lf_Value f)).

Lemma last_byte_app b s : s ≠ "" → last_byte (b +:+ s) = last_byte s.
Proof.
  intros Hs. induction b as [|a b IH]; [done|]. rewrite app_str_cons. cbn [last_byte].
  destruct (b +:+ s) eqn:E; [|done].
  apply (f_equal String.length) in E. rewrite length_app_str in E. destruct s; [done|cbn in E; lia].
Qed.

(** Tokens that need no blank before them. *)
Lemma append_joined b k :
  (match tokenRaw k with String c _ => isAlphanumeric c = false | "" => True end) ∨
  (match last_byte b with
   | Some p => isAlphanumeric p || Ascii.eqb p dquote || Ascii.eqb p "`" = false
   | None => True
   end) →
  appendStageToken b k = b +:+ tokenRaw k.
Proof.
  unfold appendStageToken. cbv zeta. destruct (last_byte b) as [p|]; [|done].
  destruct (tokenRaw k) as [|c r]; [done|]. intros [-> | ->]; [done|by rewrite andb_false_r].
Qed.

Lemma token_eq_word d n t : name n → token d ("=" +:+ n +:+ t) (mkTok TokEq "=") d (n +:+ t).
Proof.
  intros [Hw _] s Hv. apply (token_of "="); [done|]. destruct n as [|a n]; [done|].
  cbn [word] in Hw. apply andb_true_iff in Hw as [[Ha%Z.ltb_lt Hl]%andb_true_iff _].
  pose proof (b2z_range a). pose proof (letter_code (b2z a) ltac:(lia) Hl).
  eapply next_eq_other; [|done|lia|lia]. destruct Hv as [-> _]. by rewrite app_str_cons.
Qed.

(** One entry, after a text that ends in a blank or nothing. *)
Lemma runs_format f raw t :
  format_ok f → breaks t →
  (raw = "" ∨ last_byte raw = Some " "%char) →
  let k1 := mkTok TokIdent (lf_Name f) in
  let k2 := mkTok TokEq "=" in
  let k3 := mkTok (if lf_Rename f then TokIdent else TokString) (lf_Value f) in
  ∃ t1 t2, token 0 (format_text f +:+ t) k1 0 t1 ∧ token 0 t1 k2 0 t2 ∧ token 0 t2 k3 0 t ∧
  appendStageToken (appendStageToken (appendStageToken raw k1) k2) k3 = raw +:+ format_text f.
Proof.
  intros [Hn Hv] Ht Hraw k1 k2 k3. destruct f as [n v r]. unfold format_text.
  cbn [lf_Name lf_Value lf_Rename] in *. rewrite !append_assoc.
  set (val := if r then v else Quote v). exists ("=" +:+ val +:+ t), (val +:+ t).
  split; [apply token_name; done|]. split; [|split]; subst val.
  - destruct r; [by apply token_eq_word, Hv|apply token_eq].
  - destruct r; [apply token_name; [by apply Hv|done]|apply token_quote].
  - rewrite (append_joined raw k1). 2:{ right. by destruct Hraw as [-> | ->]. }
    rewrite (append_joined _ k2) by (by left).
    rewrite (append_joined _ k3). 2:{ right. by rewrite last_byte_app. }
    rewrite !append_assoc. by destruct r.
Qed.

Lemma runs_formats fs : ∀ f raw acc fuel k d1 t1 t, Forall format_ok (f :: fs) →
  token 0 t k d1 t1 → breaks t → stage_end (Typ k) = true → (length fs < fuel)%nat →
  (raw = "" ∨ last_byte raw = Some " "%char) →
  runs (labelFormatLoop fuel raw acc) 0 (formats_text (f :: fs) +:+ t)
    (LabelFormatStage (raw +:+ formats_text (f :: fs)) (acc ++ f :: fs)) 0 t.
Proof.
  induction fs as [|f' fs IH]; intros f raw acc fuel k d1 t1 t [Hfo Hfs]%Forall_cons Hk Ht Hse Hf Hraw;
    (destruct fuel as [|fuel]; [lia|]); cbn [labelFormatLoop].
  - unfold formats_text. cbn [map Join].
    destruct (runs_format f raw t Hfo Ht Hraw) as (t2 & t3 & H1 & H2 & H3 & Happ).
    eapply runs_typ; [exact H1|]. types. eapply runs_bind; [apply runs_advance, H1|].
    eapply runs_typ; [exact H2|]. types. eapply runs_bind; [apply runs_advance, H2|].
    eapply runs_typ; [exact H3|]. cbn [Typ].
    destruct f as [n v []]; cbn [lf_Name lf_Value lf_Rename] in *;
    (eapply runs_bind; [apply runs_advance, H3|]; cbv zeta; rewrite Happ;
     eapply runs_typ; [exact Hk|];
     assert (is_typ (Typ k) TokComma = false) as -> by (destruct k as [[] ?]; done); cbn [negb]; step).
  - assert (formats_text (f :: f' :: fs) = format_text f +:+ ", " +:+ formats_text (f' :: fs)) as -> by done.
    rewrite !append_assoc. set (r := formats_text (f' :: fs) +:+ t).
    destruct (runs_format f raw (", " +:+ r) Hfo ltac:(done) Hraw) as (t2 & t3 & H1 & H2 & H3 & Happ).
    eapply runs_typ; [exact H1|]. types. eapply runs_bind; [apply runs_advance, H1|].
    eapply runs_typ; [exact H2|]. types. eapply runs_bind; [apply runs_advance, H2|].
    eapply runs_typ; [exact H3|]. cbn [Typ].
    assert (runs (labelFormatLoop fuel (raw +:+ format_text f +:+ ", ") (acc ++ [f])) 0 (String " " r)
      (LabelFormatStage (raw +:+ format_text f +:+ ", " +:+ formats_text (f' :: fs)) (acc ++ f :: f' :: fs)) 0 t)
      as Hrest.
    { apply (runs_space _ 0 r). rewrite (cons_middle f acc (f' :: fs)), app_assoc.
      replace (raw +:+ format_text f +:+ ", " +:+ formats_text (f' :: fs))
        with ((raw +:+ format_text f +:+ ", ") +:+ formats_text (f' :: fs)) by (by rewrite !append_assoc).
      apply (IH f' _ _ fuel k d1 t1 t Hfs Hk Ht Hse); [cbn in Hf; lia|].
      right. rewrite last_byte_app; [by rewrite last_byte_app|].
      destruct (format_text f); done. }
    destruct f as [n v []]; cbn [lf_Name lf_Value lf_Rename] in *;
    (eapply runs_bind; [apply runs_advance, H3|]; cbv zeta; rewrite Happ;
     step; step; rewrite append_joined by (by left); rewrite append_assoc; exact Hrest).
Qed.

(** *** Label filters and unwrap *)

Definition stage_names : list string :=
  ["json"; "logfmt"; "regexp"; "pattern"; "unpack"; "drop"; "keep"; "decolorize"; "unwrap";
   "line_format"; "label_format"].

(** A comparison of a label with a string. *)
Definition filter_ok (raw : string) : Prop := ∃ n op tk v,
  raw = n +:+ op +:+ Quote v ∧ name n ∧ existsb (String.eqb n) stage_names = false ∧
  (op, tk) ∈ compare_ops.

Lemma append_first k : appendStageToken "" k = tokenRaw k.
Proof. by rewrite append_joined by (by right). Qed.

Lemma tokenRaw_compare op tk : (op, tk) ∈ compare_ops → tokenRaw (mkTok tk op) = op.
Proof.
  unfold compare_ops. rewrite !elem_of_cons.
  by intros [[= -> ->]|[[= -> ->]|[[= -> ->]|[[= -> ->]|Hb%not_elem_of_nil]]]].
Qed.

Lemma rest_end fuel b pv pp k d1 t1 t :
  token 0 t k d1 t1 → stage_end (Typ k) = true → b ≠ "" → Typ pv = TokString →
  runs (restLoop (S fuel) b 0 pv pp) 0 t b 0 t.
Proof.
  intros Hk Hse Hb Hpv. cbn [restLoop]. eapply runs_tok; [exact Hk|].
  apply String.eqb_neq in Hb. rewrite Hb, Hpv.
  destruct k as [[] kv]; try discriminate Hse; types; apply runs_ret.
Qed.

Lemma rest_value fuel op v pv pp k d1 t1 t :
  token 0 t k d1 t1 → stage_end (Typ k) = true →
  runs (restLoop (S (S fuel)) op 0 pv pp) 0 (Quote v +:+ t) (op +:+ Quote v) 0 t.
Proof.
  intros Hk Hse. remember (S fuel) as f1 eqn:Hf1. cbn [restLoop]. step. step.
  rewrite append_joined by (by left). subst f1. eapply rest_end; [exact Hk|done| |done].
  intros E. apply (f_equal String.length) in E.
  rewrite length_app_str in E. cbn [tokenRaw Typ Val] in E. rewrite length_Quote in E. cbn in E. lia.
Qed.

(** The operator right after the label is taken. *)
Lemma rest_open fuel p op : (op, Typ (cur p)) ∈ compare_ops →
  restLoop (S fuel) "" 0 zeroTok zeroTok p
  = mbind (λ t, restLoop fuel (appendStageToken "" t) 0 (cur p) zeroTok) advance p.
Proof.
  intros Hop. cbn [restLoop]. rewrite bind_tok. cbv zeta. unfold compare_ops in Hop.
  rewrite !elem_of_cons in Hop.
  destruct Hop as [[= _ ->]|[[= _ ->]|[[= _ ->]|[[= _ ->]|Hb%not_elem_of_nil]]]]; done.
Qed.

Lemma runs_rest op tk v k d1 t1 t fuel :
  (op, tk) ∈ compare_ops → token 0 t k d1 t1 → stage_end (Typ k) = true → (3 ≤ fuel)%nat →
  runs (consumeRestOfStage fuel) 0 (op +:+ Quote v +:+ t) (op +:+ Quote v) 0 t.
Proof.
  intros Hop Hk Hse Hf p Hp. destruct fuel as [|[|[|fuel]]]; [lia..|]. unfold consumeRestOfStage.
  destruct (at_cur _ _ _ _ _ _ Hp (token_compare op tk v t Hop)) as [Hc _].
  rewrite (rest_open _ p op) by (by rewrite Hc). revert p Hp Hc.
  pose proof (rest_value fuel op v (mkTok tk op) zeroTok k d1 t1 t Hk Hse) as Hval.
  intros p Hp ->. revert p Hp. eapply runs_bind; [by apply runs_advance, token_compare|].
  rewrite append_first, (tokenRaw_compare op tk Hop). exact Hval.
Qed.

Lemma runs_unwrap l c k d1 t1 t fuel :
  name l → c = "" ∨ name c → token 0 t k d1 t1 → breaks t → stage_end (Typ k) = true →
  runs (parseUnwrap fuel) 0 ((if String.eqb c "" then l else c +:+ "(" +:+ l +:+ ")") +:+ t)
    (UnwrapStage l c) 0 t.
Proof.
  intros Hl Hc Hk Ht Hse. unfold parseUnwrap. destruct (String.eqb_spec c "") as [->|Hne].
  - step. step. eapply runs_typ; [exact Hk|].
    assert (is_typ (Typ k) TokLParen = false) as -> by (destruct k as [[] ?]; done). step.
  - destruct Hc as [->|Hc]; [done|]. rewrite !append_assoc.
    step. step. step. step. step. step. step. step.
Qed.

(** *** One stage *)

Definition stage_ok (s : Stage) : Prop :=
  match s with
  | LineFilterStage op v true alts => alts = [] ∧ ip_op op = true ∧ validIPPattern v = true
  | LineFilterStage _ _ false _ => True
  | ParserStage (ParserJSON | ParserLogfmt | ParserUnpack) param fields => param = "" ∧ fields = []
  | ParserStage (ParserRegexp | ParserPattern) _ fields => fields = []
  | LabelFilterStage raw => filter_ok raw
  | DropStage ls ms | KeepStage ls ms => droplist_ok ls ms
  | DecolorizeStage | LineFormatStage _ => True
  | UnwrapStage l c => name l ∧ (c = "" ∨ name c)
  | LabelFormatStage raw fs => raw = formats_text fs ∧ Forall format_ok fs ∧ fs ≠ []
  end.

(** A bare list of labels, which a following [!=] or [!~] would extend. *)
Definition bare (s : Stage) : bool :=
  match s with
  | DropStage _ [] | KeepStage _ [] => true
  | _ => false
  end.

Definition stage_size (s : Stage) : nat :=
  match s with
  | LineFilterStage _ _ _ alts => 4 + length alts
  | DropStage ls ms | KeepStage ls ms => 4 + length ls + length ms
  | LabelFormatStage _ fs => 4 + length fs
  | _ => 4
  end.

Lemma runs_named fuel n t b t' : name n → breaks t →
  (∀ start, runs (stageBody fuel n start) 0 t b 0 t') →
  runs (parsePipelineStage fuel) 0 ("| " +:+ n +:+ t) (Some b) 0 t'.
Proof.
  intros Hn Ht Hb. change ("| " +:+ ?x) with ("|" +:+ " " +:+ x). unfold parsePipelineStage.
  step. cbn [isLineFilterOperator]. step. apply runs_space.
  eapply runs_bind; [|apply runs_ret]. unfold parsePipeBody.
  eapply runs_get; [tokens|]. intros p Hc _. cbv zeta. rewrite Hc. types. step. apply Hb.
Qed.

(** The same with a stage name of the grammar. *)
Lemma fixed_name n : aword n = true → keyword n = TokIdent → name n.
Proof. split; [by apply aword_word|done]. Qed.

Lemma runs_nofields fuel start k d1 t1 t :
  token 0 t k d1 t1 → stage_end (Typ k) = true → (0 < fuel)%nat →
  runs (consumeExplicitFieldList fuel start) 0 t ("", []) 0 t.
Proof.
  intros Hk Hse Hf. unfold consumeExplicitFieldList. destruct fuel as [|fuel]; [lia|]. cbn [fieldLoop].
  eapply runs_bind with (a := (start, [])) (d1 := 0%nat) (t1 := t).
  - eapply runs_get; [exact Hk|]. intros p Hc _. rewrite Hc.
    assert (is_typ (Typ k) TokIdent = false) as -> by (destruct k as [[] ?]; done). apply runs_ret.
  - cbv beta iota. eapply runs_get; [exact Hk|]. intros p _ _. rewrite Nat.sub_diag.
    change (TrimSpace (prefix 0 ?x)) with "". apply runs_ret.
Qed.

(** A stage whose name is [n]: go to its body. *)
Ltac named := apply runs_named; [by apply fixed_name|done|]; intros ?; unfold stageBody; keywords.

Section Followed.
Context (k : Token) (d1 : nat) (t1 t : string).
Hypothesis (Hk : token 0 t k d1 t1) (Ht : breaks t) (Hse : stage_end (Typ k) = true).

Lemma runs_line_stage fuel op v ip alts :
  stage_ok (LineFilterStage op v ip alts) → (2 + length alts ≤ fuel)%nat →
  runs (parsePipelineStage fuel) 0 (LineFilterStage_String op v ip alts +:+ t)
    (Some (LineFilterStage op v ip alts)) 0 t.
Proof.
  intros Hok Hf. unfold parsePipelineStage.
  assert (∃ r, LineFilterStage_String op v ip alts +:+ t = LineFilterOp_String op +:+ " " +:+ r) as [r Hr].
  { unfold LineFilterStage_String. destruct ip; [eexists; by rewrite !append_assoc|].
    rewrite foldl_texts, !append_assoc. by eexists. }
  rewrite Hr. eapply runs_typ; [apply token_filter|]. cbn [Typ].
  assert (isLineFilterOperator (filterTok op) = true) as -> by (by destruct op). rewrite <- Hr.
  eapply runs_bind; [|apply runs_ret]. destruct ip.
  - destruct Hok as (-> & Hop & Hip). apply runs_ipFilter; [done|done|lia].
  - eapply runs_lineFilter; [exact Hk|by intros E; rewrite E in Hse|lia].
Qed.

Lemma runs_parser_stage fuel ty param fields :
  stage_ok (ParserStage ty param fields) → (0 < fuel)%nat →
  runs (parsePipelineStage fuel) 0 (ParserStage_String ty param +:+ t)
    (Some (ParserStage ty param fields)) 0 t.
Proof.
  intros Hok Hf. unfold ParserStage_String. destruct ty; cbn [stage_ok] in Hok.
  - destruct Hok as [-> ->]. change (TrimSpace ("| json " +:+ "")) with ("| " +:+ "json").
    rewrite append_assoc. named. eapply runs_bind; [by eapply runs_nofields|]. apply runs_ret.
  - destruct Hok as [-> ->]. change (TrimSpace ("| logfmt " +:+ "")) with ("| " +:+ "logfmt").
    rewrite append_assoc. named. eapply runs_bind; [by eapply runs_nofields|]. apply runs_ret.
  - subst fields. rewrite append_assoc. change ("| regexp " +:+ ?x) with ("| " +:+ "regexp" +:+ " " +:+ x).
    named. apply runs_space. eapply runs_bind; [by apply runs_argument|]. step.
  - subst fields. rewrite append_assoc. change ("| pattern " +:+ ?x) with ("| " +:+ "pattern" +:+ " " +:+ x).
    named. apply runs_space. eapply runs_bind; [by apply runs_argument|]. step.
  - destruct Hok as [-> ->]. change "| unpack" with ("| " +:+ "unpack"). rewrite append_assoc. named. step.
Qed.

Lemma runs_label_filter fuel raw : filter_ok raw → (3 ≤ fuel)%nat →
  runs (parsePipelineStage fuel) 0 (("| " +:+ raw) +:+ t) (Some (LabelFilterStage raw)) 0 t.
Proof.
  intros (n & op & tk & v & -> & Hn & Hex & Hop) Hf. rewrite !append_assoc.
  apply runs_named; [done|by eapply breaks_compare|]. intros start. unfold stageBody.
  cbn [stage_names existsb] in Hex. rewrite !orb_false_iff in Hex.
  destruct Hex as (-> & -> & -> & -> & -> & -> & -> & -> & -> & -> & -> & _).
  eapply runs_tok; [by apply token_compare|]. cbn [Typ].
  assert (is_typ tk TokIdent = false ∧ is_typ tk TokLParen = false) as [-> ->].
  { unfold compare_ops in Hop. rewrite !elem_of_cons in Hop.
    by destruct Hop as [[= -> ->]|[[= -> ->]|[[= -> ->]|[[= -> ->]|Hb%not_elem_of_nil]]]]. }
  eapply runs_bind; [by eapply runs_rest|]. apply runs_ret.
Qed.

Lemma runs_stage fuel s :
  stage_ok s → (bare s = true → dropOp (Typ k) = None) → (stage_size s ≤ fuel)%nat →
  runs (parsePipelineStage fuel) 0 (Stage_String s +:+ t) (Some s) 0 t.
Proof.
  intros Hok Hbare Hf. destruct s as [op v ip alts|ty param fields|raw|ls ms|ls ms| |l c|tmpl|raw fs];
    cbn [Stage_String stage_size bare] in *.
  - apply runs_line_stage; [done|lia].
  - apply runs_parser_stage; [done|lia].
  - apply runs_label_filter; [done|lia].
  - change ("| drop " +:+ ?x) with ("| " +:+ "drop" +:+ " " +:+ x). rewrite !append_assoc.
    named. apply runs_space. eapply runs_bind; [eapply (runs_droplist ls ms); [done|exact Hk|done|done| |lia]|].
    { intros ->. by apply Hbare. } apply runs_ret.
  - change ("| keep " +:+ ?x) with ("| " +:+ "keep" +:+ " " +:+ x). rewrite !append_assoc.
    named. apply runs_space. eapply runs_bind; [eapply (runs_droplist ls ms); [done|exact Hk|done|done| |lia]|].
    { intros ->. by apply Hbare. } apply runs_ret.
  - change "| decolorize" with ("| " +:+ "decolorize"). rewrite append_assoc. named. step.
  - destruct Hok as [Hl Hc].
    assert (UnwrapStage_String l c +:+ t = "| " +:+ "unwrap" +:+ " " +:+
      ((if String.eqb c "" then l else c +:+ "(" +:+ l +:+ ")") +:+ t)) as ->
      by (unfold UnwrapStage_String; destruct (String.eqb c ""); by rewrite !append_assoc).
    named. apply runs_space. by eapply runs_unwrap.
  - rewrite append_assoc. change ("| line_format " +:+ ?x) with ("| " +:+ "line_format" +:+ " " +:+ x).
    named. apply runs_space. eapply runs_bind; [apply runs_string; lia|]. step.
  - destruct Hok as (-> & Hfs & Hne). rewrite append_assoc.
    change ("| label_format " +:+ ?x) with ("| " +:+ "label_format" +:+ " " +:+ x). named. apply runs_space.
    destruct fs as [|f fs]; [done|]. unfold parseLabelFormat.
    eapply (runs_formats fs f "" [] fuel k d1 t1 t); [done..|cbn in Hf; lia|by left].
Qed.

End Followed.

(** ** Log queries *)

Definition negated (s : Stage) : bool :=
  match s with
  | LineFilterStage (LineFilterExcludes | LineFilterExcludeRe) _ _ _ => true
  | _ => false
  end.

(** A negated line filter right after a bare drop or keep list would be read as
    a matcher of its last label. *)
Fixpoint pipeline_ok (pl : list Stage) : Prop :=
  match pl with
  | [] => True
  | s :: pl =>
      stage_ok s ∧ pipeline_ok pl ∧
      (bare s = true → match pl with s' :: _ => negated s' = false | [] => True end)
  end.

Definition query_ok (q : LogQuery) : Prop := selector_ok (Selector q) ∧ pipeline_ok (Pipeline q).

Definition stages_text (pl : list Stage) : string := texts (λ s, " " +:+ Stage_String s) pl.

Lemma LogQuery_text q :
  LogQuery_String q = StreamSelector_String (Selector q) +:+ stages_text (Pipeline q).
Proof. apply foldl_texts. Qed.

Definition pipeline_size (pl : list Stage) : nat := foldr (λ s n, stage_size s + n)%nat 1%nat pl.

(** The first token of a stage. *)
Lemma stage_first s t : stage_ok s → ∃ k d1 t1,
  token 0 (Stage_String s +:+ t) k d1 t1 ∧ stage_end (Typ k) = true ∧
  (negated s = false → dropOp (Typ k) = None).
Proof.
  intros Hok.
  assert ((∃ r, Stage_String s +:+ t = "|" +:+ " " +:+ r) ∨
    ∃ op v ip alts, s = LineFilterStage op v ip alts) as [[r ->]|(op & v & ip & alts & ->)].
  { destruct s as [op v ip alts|ty param fields|raw|ls ms|ls ms| |l c|tmpl|raw fs];
      [right; eauto|left..]; cbn [Stage_String]; try (eexists; reflexivity).
    - destruct ty; cbn [stage_ok] in Hok; 
        lazymatch type of Hok with _ ∧ _ => destruct Hok as [-> _] | _ => idtac end; eexists; reflexivity.
    - unfold UnwrapStage_String. destruct (String.eqb c ""); eexists; reflexivity. }
  - eexists _, _, _. split; [apply token_pipe|done].
  - cbn [Stage_String].
    assert (∃ r, LineFilterStage_String op v ip alts +:+ t = LineFilterOp_String op +:+ " " +:+ r) as [r ->].
    { unfold LineFilterStage_String. destruct ip; [eexists; by rewrite !append_assoc|].
      rewrite foldl_texts, !append_assoc. by eexists. }
    eexists _, _, _. split; [apply token_filter|]. by destruct op.
Qed.

(** What may follow a log query. *)
Definition query_end (k : TokType) : bool :=
  match k with
  | TokEOF | TokLBracket | TokRParen => true
  | _ => false
  end.

Lemma stage_size_pos s : (4 ≤ stage_size s)%nat.
Proof. destruct s; cbn; lia. Qed.

Section QueryFollowed.
Context (k : Token) (d1 : nat) (t1 t : string).
Hypothesis (Hk : token 0 t k d1 t1) (Ht : breaks t) (Hqe : query_end (Typ k) = true).

Lemma stages_follow pl : pipeline_ok pl → ∃ k' d' t',
  token 0 (stages_text pl +:+ t) k' d' t' ∧ breaks (stages_text pl +:+ t) ∧ stage_end (Typ k') = true ∧
  (match pl with s :: _ => negated s = false | [] => True end → dropOp (Typ k') = None).
Proof.
  destruct pl as [|s pl]; cbn [stages_text texts foldr pipeline_ok].
  - intros _. exists k, d1, t1. repeat split; [done|done| |]; destruct k as [[] ?]; done.
  - intros (Hs & _ & _). rewrite append_assoc.
    destruct (stage_first s (stages_text pl +:+ t) Hs) as (k' & d' & t' & Hk' & Hse & Hd).
    exists k', d', t'. rewrite append_assoc. split; [by apply token_space|done].
Qed.

Lemma runs_pipeline pl : pipeline_ok pl → ∀ fuel acc, (pipeline_size pl ≤ fuel)%nat →
  runs (pipelineLoop fuel acc) 0 (stages_text pl +:+ t) (acc ++ pl) 0 t.
Proof.
  pose proof stage_size_pos as H4. induction pl as [|s pl IH]; cbn [pipeline_size foldr pipeline_ok]; intros Hok fuel acc Hf;
    [|specialize (H4 s)]; (destruct fuel as [|fuel]; [lia|]); cbn [pipelineLoop].
  - change (stages_text [] +:+ t) with t. rewrite app_nil_r.
    eapply runs_bind with (a := None) (d1 := 0%nat) (t1 := t); [|apply runs_ret].
    unfold parsePipelineStage. eapply runs_typ; [exact Hk|].
    assert (isLineFilterOperator (Typ k) = false ∧ is_typ (Typ k) TokPipe = false) as [-> ->]
      by (destruct k as [[] ?]; done). apply runs_ret.
  - destruct Hok as (Hs & Hpl & Hbare).
    change (stages_text (s :: pl)) with ((" " +:+ Stage_String s) +:+ stages_text pl).
    rewrite !append_assoc. apply runs_space.
    destruct (stages_follow pl Hpl) as (k' & d' & t' & Hk' & Hb & Hse & Hd).
    eapply runs_bind.
    { apply (runs_stage k' d' t' _ Hk' Hb Hse (S fuel) s Hs); [intros ?; by apply Hd, Hbare|lia]. }
    rewrite (cons_middle s acc pl), app_assoc. apply IH; [done|]. fold (pipeline_size pl) in Hf. lia.
Qed.

Lemma runs_query fuel q : query_ok q →
  (length (Selector q) ≤ fuel)%nat → (pipeline_size (Pipeline q) ≤ fuel)%nat →
  runs (parseLogQuery fuel) 0 (LogQuery_String q +:+ t) q 0 t.
Proof.
  intros [Hsel Hpl] Hf1 Hf2. rewrite LogQuery_text, append_assoc. unfold parseLogQuery.
  eapply runs_bind; [by apply runs_selector|].
  eapply runs_bind; [by apply (runs_pipeline _ Hpl fuel [])|]. destruct q. apply runs_ret.
Qed.

End QueryFollowed.

(** ** Metric expressions *)

(** A literal whose text is read back as the same value. *)
Definition literal_ok (v : F) : Prop :=
  (number_text (Format_g v) = true ∧ ParseFloat (Format_g v) = Ok v) ∨
  (∃ n w, Format_g v = "-" +:+ n ∧ number_text n = true ∧ ParseFloat n = Ok w ∧ Fneg w = v).

Definition grouping_ok (g : option Grouping) : Prop :=
  match g with
  | Some g => Forall name (g_Labels g)
  | None => True
  end.

Definition matching_ok (vm : option VectorMatching) : Prop :=
  match vm with
  | None => True
  | Some vm =>
      (Card vm = "on" ∨ Card vm = "ignoring") ∧ Forall name (MatchLabels vm) ∧ Forall name (Include vm) ∧
      ((GroupSide vm = "" ∧ Include vm = []) ∨ GroupSide vm = "group_left" ∨ GroupSide vm = "group_right")
  end.

Definition binops : list (string * TokType) :=
  symbols ++ [("and", TokAnd); ("or", TokOr); ("unless", TokUnless)].

(** Metric expressions over the log queries of [query_ok]. *)
Fixpoint metric_ok (e : Expr) : Prop :=
  match e with
  | LogQueryExpr _ | OpaqueMetricExpr _ => False
  | LiteralExpr v => literal_ok v
  | RangeAggregation op inner range offset param hasParam g =>
      isRangeOp op = true ∧ (∃ q, inner = LogQueryExpr q ∧ query_ok q) ∧
      duration_ok range ∧ (offset = "" ∨ duration_ok offset) ∧ grouping_ok g ∧
      (if hasParam then op = "quantile_over_time" ∧ literal_ok param else param = zeroF)
  | VectorAggregation op g param hasParam inner =>
      isVectorOp op = true ∧ metric_ok inner ∧ grouping_ok g ∧
      (if hasParam then
         (String.eqb op "topk" || String.eqb op "bottomk" = true) ∧
         ∃ k, 0 < k ∧ param = Fof_int k ∧ number_text (Format_g param) = true ∧
              Atoi (Format_g param) = Some k
       else String.eqb op "topk" || String.eqb op "bottomk" = false ∧ param = zeroF)
  | BinOpExpr l r op _ vm =>
      metric_ok l ∧ metric_ok r ∧ matching_ok vm ∧ ∃ tk, (op, tk) ∈ binops
  end.

(** What may follow an expression, and an operand. *)
Definition expr_end (k : TokType) : bool :=
  match k with
  | TokEOF | TokRParen => true
  | _ => false
  end.

Definition operand_end (k : TokType) : bool := expr_end k || (0 <? binaryPrecedence k)%nat.

Lemma token_binop op tk t : (op, tk) ∈ binops →
  token 0 (op +:+ " " +:+ t) (mkTok tk op) 0 (" " +:+ t).
Proof.
  unfold binops. rewrite elem_of_app. intros [Hs|Hs].
  - intros s Hv. apply (token_of op); [done|]. apply next_symbol with t; [done|apply Hv|apply Hv].
  - rewrite !elem_of_cons in Hs.
    destruct Hs as [[= -> ->]|[[= -> ->]|[[= -> ->]|Hb%not_elem_of_nil]]]; [..|done]; by apply token_fixed.
Qed.

Lemma binop_precedence op tk : (op, tk) ∈ binops → (1 ≤ binaryPrecedence tk)%nat.
Proof.
  unfold binops, symbols. cbn [app]. rewrite !elem_of_cons. intros Hop.
  repeat (destruct Hop as [[= -> ->]|Hop]); [..|by apply not_elem_of_nil in Hop]; cbn; lia.
Qed.

(** *** Groupings and matchings *)

Lemma runs_labellist fuel ls t : Forall name ls → (length ls < fuel)%nat →
  runs (parseLabelList fuel) 0 ("(" +:+ Join ", " ls +:+ ")" +:+ t) ls 0 t.
Proof.
  intros Hls Hf. unfold parseLabelList. step. step.
  eapply runs_bind; [by apply (runs_labels ls Hls fuel [])|]. step. step.
Qed.

Lemma runs_grouping fuel g t : Forall name (g_Labels g) → (length (g_Labels g) < fuel)%nat →
  runs (optGroupingP fuel) 0 (Grouping_String g +:+ t) (Some g) 0 t.
Proof.
  intros Hls Hf. destruct g as [w ls]. cbn [g_Labels] in *. unfold Grouping_String, optGroupingP.
  cbn [Without g_Labels]. rewrite !append_assoc. change (" (" +:+ ?x) with (" " +:+ "(" +:+ x).
  assert (∀ x, token 0 ((if w then "without" else "by") +:+ " " +:+ x)
    (mkTok (if w then TokWithout else TokBy) (if w then "without" else "by")) 0 (" " +:+ x)) as Hkw
    by (intros x; destruct w; by apply token_fixed).
  eapply runs_typ; [apply Hkw|]. assert (is_typ (Typ (mkTok (if w then TokWithout else TokBy)
    (if w then "without" else "by"))) TokBy || is_typ (Typ (mkTok (if w then TokWithout else TokBy)
    (if w then "without" else "by"))) TokWithout = true) as -> by (by destruct w).
  eapply runs_bind; [|apply runs_ret]. unfold parseGrouping.
  eapply runs_typ; [apply Hkw|]. eapply runs_bind; [apply runs_advance, Hkw|].
  step. eapply runs_bind; [by apply (runs_labels ls Hls fuel [])|]. step.
  cbn [app]. assert (is_typ (if w then TokWithout else TokBy) TokWithout = w) as -> by (by destruct w). step.
Qed.

Lemma runs_nogrouping fuel k d1 t1 t : token 0 t k d1 t1 → is_typ (Typ k) TokBy || is_typ (Typ k) TokWithout = false →
  runs (optGroupingP fuel) 0 t None 0 t.
Proof.
  intros Hk Hn. unfold optGroupingP. eapply runs_typ; [exact Hk|]. rewrite Hn. apply runs_ret.
Qed.

(** The tokens an operand starts with. *)
Definition starts (k : Token) : bool :=
  match Typ k with
  | TokNumber | TokMinus | TokLParen => true
  | TokIdent => isVectorOp (Val k) || isRangeOp (Val k)
  | _ => false
  end.

(** A modifier with its label list: [on (...)], [group_left (...)]. *)
Lemma runs_modifier {A} fuel n tk ls t (f : Token → list string → P A) b d2 t2 :
  aword n = true → keyword n = tk → Forall name ls → (length ls < fuel)%nat →
  runs (f (mkTok tk n) ls) 0 t b d2 t2 →
  runs (card ← advance; labels ← parseLabelList fuel; f card labels) 0
    ((n +:+ "(" +:+ Join ", " ls +:+ ")") +:+ t) b d2 t2.
Proof.
  intros Hn Hk Hls Hf Hr. rewrite !append_assoc.
  eapply runs_bind; [by apply runs_advance, token_fixed|].
  eapply runs_bind; [by apply runs_labellist|]. exact Hr.
Qed.

Lemma token_modifier n tk ls t : aword n = true → keyword n = tk →
  ∃ t', token 0 ((n +:+ "(" +:+ Join ", " ls +:+ ")") +:+ t) (mkTok tk n) 0 t'.
Proof. intros Hn Hk. rewrite !append_assoc. eexists. by apply token_fixed. Qed.

(** The matching clause as it is written before the right operand. *)
Definition matching_text (vm : option VectorMatching) : string :=
  if String.eqb (VectorMatching_String vm) "" then "" else VectorMatching_String vm +:+ " ".

Lemma matching_shape vm : matching_ok (Some vm) →
  matching_text (Some vm) = (Card vm +:+ "(" +:+ Join ", " (MatchLabels vm) +:+ ")") +:+
    (if String.eqb (GroupSide vm) "" then ""
     else " " +:+ (GroupSide vm +:+ "(" +:+ Join ", " (Include vm) +:+ ")")) +:+ " ".
Proof.
  destruct vm as [card ls side inc]. intros (Hcard & _). cbn [Card MatchLabels GroupSide Include] in *.
  unfold matching_text. cbn [VectorMatching_String Card MatchLabels GroupSide Include].
  destruct Hcard as [-> | ->]; destruct (String.eqb side ""); cbn [String.eqb];
    rewrite ?append_assoc; done.
Qed.

Lemma runs_matching fuel vm k d1 t1 t :
  matching_ok vm → token 0 t k d1 t1 → starts k = true →
  (match vm with Some vm => length (MatchLabels vm) + length (Include vm) | None => 0 end < fuel)%nat →
  runs (parseVectorMatching fuel) 0 (matching_text vm +:+ t) vm 0 t.
Proof.
  intros Hok Hk Hst Hf. unfold parseVectorMatching. destruct vm as [vm|].
  2:{ cbn. eapply runs_typ; [exact Hk|].
      assert (is_typ (Typ k) TokOn || is_typ (Typ k) TokIgnoring = false) as -> by (destruct k as [[] ?]; done).
      apply runs_ret. }
  rewrite (matching_shape vm Hok). destruct vm as [card ls side inc].
  cbn [matching_ok Card MatchLabels GroupSide Include] in *. destruct Hok as (Hcard & Hls & Hinc & Hside).
  rewrite append_assoc. set (r := ((if _ : bool then _ else _) +:+ " ") +:+ t).
  assert (∃ tk, aword card = true ∧ keyword card = tk ∧ is_typ tk TokOn || is_typ tk TokIgnoring = true)
    as (tk & Hw & Hkw & Htk) by (destruct Hcard as [-> | ->]; eexists; done).
  destruct (token_modifier card tk ls r Hw Hkw) as [t' Ht'].
  eapply runs_typ; [exact Ht'|]. cbn [Typ]. rewrite Htk.
  eapply (runs_modifier fuel card tk ls r); [done..|lia|]. subst r.
  destruct Hside as [[-> ->]|Hside].
  - apply (runs_space _ 0 t). eapply runs_typ; [exact Hk|].
    assert (is_typ (Typ k) TokGroupLeft || is_typ (Typ k) TokGroupRight = false) as ->
      by (destruct k as [[] ?]; done). apply runs_ret.
  - assert (String.eqb side "" = false) as -> by (by destruct Hside as [-> | ->]).
    rewrite (append_assoc " "), (append_assoc " "). apply runs_space. rewrite append_assoc.
    assert (∃ tk, aword side = true ∧ keyword side = tk ∧ is_typ tk TokGroupLeft || is_typ tk TokGroupRight = true)
      as (tk' & Hw' & Hkw' & Htk') by (destruct Hside as [-> | ->]; eexists; done).
    destruct (token_modifier side tk' inc (" " +:+ t) Hw' Hkw') as [t2 Ht2].
    eapply runs_typ; [exact Ht2|]. cbn [Typ]. rewrite Htk'.
    eapply (runs_modifier fuel side tk' inc (" " +:+ t)); [done..|lia|].
    apply runs_space, runs_ret.
Qed.

(** *** Literals and parameters *)

Lemma runs_literal fuel v t : literal_ok v → breaks t →
  runs (parsePrimary (S fuel)) 0 (Format_g v +:+ t) (LiteralExpr v) 0 t.
Proof.
  intros [[Hn Hp]|(n & w & Hv & Hn & Hp & Hneg)] Ht; cbn [parsePrimary]; unfold parsePrimaryRound.
  - assert (token 0 (Format_g v +:+ t) (mkTok TokNumber (Format_g v)) 0 t) as Htok by (by apply token_number).
    eapply runs_tok; [exact Htok|]. cbn [Typ]. unfold parseNumber. eapply runs_tok; [exact Htok|].
    cbn [Val]. rewrite Hp. eapply runs_bind; [apply runs_advance, Htok|]. apply runs_ret.
  - rewrite Hv, append_assoc. eapply runs_tok; [apply token_minus|]. cbn [Typ].
    eapply runs_bind; [apply runs_advance, token_minus|].
    assert (token 0 (n +:+ t) (mkTok TokNumber n) 0 t) as Htok by (by apply token_number).
    eapply runs_typ; [exact Htok|]. types. unfold parseNumber. eapply runs_tok; [exact Htok|].
    cbn [Val]. rewrite Hp. eapply runs_bind; [apply runs_advance, Htok|]. rewrite Hneg. apply runs_ret.
Qed.

Lemma runs_phi v t : literal_ok v →
  runs parseQuantileParam 0 (Format_g v +:+ "," +:+ t) (Some v) 0 t.
Proof.
  intros [[Hn Hp]|(n & w & Hv & Hn & Hp & Hneg)]; unfold parseQuantileParam.
  - assert (token 0 (Format_g v +:+ "," +:+ t) (mkTok TokNumber (Format_g v)) 0 ("," +:+ t)) as Htok
      by (by apply token_number).
    eapply runs_tok; [exact Htok|]. cbn [Typ Val]. rewrite Hp.
    eapply runs_bind; [apply runs_advance, Htok|]. step. apply runs_ret.
  - rewrite Hv, append_assoc. eapply runs_tok; [apply token_minus|]. cbn [Typ].
    eapply runs_bind; [apply runs_advance, token_minus|].
    assert (token 0 (n +:+ "," +:+ t) (mkTok TokNumber n) 0 ("," +:+ t)) as Htok by (by apply token_number).
    eapply runs_tok; [exact Htok|]. types. cbn [Val]. rewrite Hp.
    eapply runs_bind; [apply runs_advance, Htok|]. step. rewrite Hneg. apply runs_ret.
Qed.

Lemma runs_k op v t k : String.eqb op "topk" || String.eqb op "bottomk" = true → 0 < k →
  number_text (Format_g v) = true → Atoi (Format_g v) = Some k → v = Fof_int k →
  runs (parseK op) 0 (Format_g v +:+ "," +:+ t) (Some v) 0 t.
Proof.
  intros Hop Hk Hn Ha Hv. unfold parseK. rewrite Hop.
  assert (token 0 (Format_g v +:+ "," +:+ t) (mkTok TokNumber (Format_g v)) 0 ("," +:+ t)) as Htok
    by (by apply token_number).
  eapply runs_bind; [apply runs_errorf; refine (runs_expect _ _ (mkTok _ _) _ _ _); exact Htok|].
  cbn [Val]. rewrite Ha, (proj2 (Z.leb_gt k 0)) by lia. step. rewrite Hv. apply runs_ret.
Qed.

(** *** Range aggregations *)

Lemma op_name op : isVectorOp op || isRangeOp op = true → name op.
Proof.
  intros Hop. apply fixed_name; revert op Hop.
  all: assert (∀ p : string → bool, forallb p (vectorOps ++ rangeOps) = true →
    ∀ op, isVectorOp op || isRangeOp op = true → p op = true) as Hall.
  1,3: intros p Hp op; unfold isVectorOp, isRangeOp; rewrite <- existsb_app;
    intros (x & Hx & ->%String.eqb_eq)%existsb_exists; by apply (proj1 (forallb_forall _ _) Hp).
  - by apply Hall.
  - intros op Hop. apply (is_typ_true _ TokIdent). revert op Hop. by apply (Hall (λ op, is_typ (keyword op) TokIdent)).
Qed.

Lemma range_not_vector op : isRangeOp op = true → isVectorOp op = false.
Proof.
  unfold isRangeOp. intros (x & Hx & ->%String.eqb_eq)%existsb_exists.
  apply negb_true_iff. by apply (proj1 (forallb_forall (λ x, negb (isVectorOp x)) rangeOps)).
Qed.

Lemma runs_check fuel b t t1 : token 0 t (mkTok TokLBrace "{") 1 t1 → (0 < fuel)%nat →
  runs (checkRangeAggregationArgument fuel b) 0 t tt 0 t.
Proof.
  intros Htok Hf p Hp. destruct (at_cur _ _ _ _ _ _ Hp Htok) as [Hc _]. exists p. split; [|done].
  unfold checkRangeAggregationArgument. destruct fuel as [|fuel]; [lia|]. cbn [probeParens].
  rewrite Hc. types. by rewrite Hc.
Qed.

Definition range_text (range offset : string) : string :=
  "[" +:+ range +:+ "]" +:+ (if String.eqb offset "" then "" else " offset " +:+ offset).

Lemma runs_tail range offset t : duration_ok range → offset = "" ∨ duration_ok offset →
  runs parseRangeTail 0 (range_text range offset +:+ ")" +:+ t) (range, offset) 0 t.
Proof.
  intros Hr Ho. unfold range_text, parseRangeTail. rewrite !append_assoc.
  eapply runs_get; [tokens|]. intros p _ _. step. step. step. step. unfold optOffset.
  assert (runs optAt 0 (")" +:+ t) tt 0 (")" +:+ t)) as Hat by (unfold optAt; step; step).
  destruct (String.eqb_spec offset "") as [->|Hne].
  - change ("" +:+ ?x) with x. eapply runs_bind; [step; step|].
    eapply runs_bind; [exact Hat|]. step. step.
  - destruct Ho as [->|Ho]; [done|].
    rewrite !append_assoc. change (" offset " +:+ ?x) with (" " +:+ "offset" +:+ " " +:+ x).
    apply runs_space.
    assert (∀ x, token 0 ("offset" +:+ " " +:+ x) (mkTok TokIdent "offset") 0 (" " +:+ x)) as Hoff
      by (intros x; by apply token_fixed).
    eapply runs_bind.
    { eapply runs_tok; [apply Hoff|]. types. keywords. eapply runs_bind; [apply runs_advance, Hoff|].
      apply runs_space. step. step. }
    eapply runs_bind; [exact Hat|]. step. step.
Qed.

Lemma query_first q t : ∃ t1, token 0 (LogQuery_String q +:+ t) (mkTok TokLBrace "{") 1 t1.
Proof.
  rewrite LogQuery_text. unfold StreamSelector_String. rewrite !append_assoc. eexists. apply token_lbrace.
Qed.

(** The parameter before the argument. *)
Definition param_text (param : F) (hasParam : bool) : string :=
  if hasParam then Format_g param +:+ "," else "".

Lemma runs_param op param (hasParam : bool) t t1 :
  (if hasParam then op = "quantile_over_time" ∧ literal_ok param else param = zeroF) →
  token 0 t (mkTok TokLBrace "{") 1 t1 →
  runs (if String.eqb op "quantile_over_time" then parseQuantileParam else mret None) 0
    (param_text param hasParam +:+ t) (if hasParam then Some param else None) 0 t.
Proof.
  intros Hp Htok. unfold param_text. destruct hasParam.
  - destruct Hp as [-> Hp]. keywords. rewrite append_assoc. by apply runs_phi.
  - change ("" +:+ t) with t. destruct (String.eqb op "quantile_over_time"); [|apply runs_ret].
    unfold parseQuantileParam. eapply runs_tok; [exact Htok|]. apply runs_ret.
Qed.

Lemma runs_rangeagg fuel op q range offset param (hasParam : bool) t :
  isRangeOp op = true → query_ok q → duration_ok range → offset = "" ∨ duration_ok offset →
  (if hasParam then op = "quantile_over_time" ∧ literal_ok param else param = zeroF) →
  (length (Selector q) ≤ fuel)%nat → (pipeline_size (Pipeline q) ≤ fuel)%nat →
  runs (parseRangeAggregation (S fuel) op) 0
    (op +:+ "(" +:+ param_text param hasParam +:+ LogQuery_String q +:+ range_text range offset +:+ ")" +:+ t)
    (LogQueryExpr q, range, offset, if hasParam then Some param else None) 0 t.
Proof.
  intros Hop Hq Hr Ho Hp Hf1 Hf2. cbn [parseRangeAggregation]; unfold parseRangeAggregationRound.
  assert (name op) as Hname by (apply op_name; by rewrite Hop, orb_true_r).
  pose proof (runs_tail range offset t Hr Ho) as Htail.
  assert (∃ x, range_text range offset +:+ ")" +:+ t = "[" +:+ x) as [x Hx]
    by (unfold range_text; rewrite !append_assoc; by eexists).
  rewrite Hx in *. destruct (query_first q ("[" +:+ x)) as [t1 Hfirst].
  step. step. eapply runs_bind; [by apply (runs_param op param hasParam _ t1)|].
  eapply runs_bind; [eapply runs_check; [exact Hfirst|]|].
  { unfold pipeline_size in Hf2. destruct (Pipeline q); cbn in Hf2; [lia|].
    pose proof (stage_size_pos s). lia. }
  eapply runs_typ; [exact Hfirst|]. types.
  eapply runs_bind with (a := LogQueryExpr q).
  { eapply runs_bind; [|apply runs_ret].
    by eapply (runs_query (mkTok TokLBracket "[")); [apply token_lbracket|..]. }
  eapply runs_bind; [exact Htail|]. apply runs_ret.
Qed.

Lemma operand_end_nogroup k : operand_end (Typ k) = true →
  is_typ (Typ k) TokBy || is_typ (Typ k) TokWithout = false.
Proof. by destruct k as [[] ?]. Qed.

Lemma runs_range fuel op q range offset param (hasParam : bool) g k d1 t1 t :
  metric_ok (RangeAggregation op (LogQueryExpr q) range offset param hasParam g) →
  token 0 t k d1 t1 → operand_end (Typ k) = true →
  (length (Selector q) ≤ fuel)%nat → (pipeline_size (Pipeline q) ≤ fuel)%nat →
  (match g with Some g => length (g_Labels g) | None => 0 end ≤ fuel)%nat →
  runs (parsePrimary (S (S fuel))) 0
    (Expr_String (RangeAggregation op (LogQueryExpr q) range offset param hasParam g) +:+ t)
    (RangeAggregation op (LogQueryExpr q) range offset param hasParam g) 0 t.
Proof.
  intros (Hop & (q' & [= <-] & Hq) & Hr & Ho & Hg & Hp) Hk Hend Hf1 Hf2 Hf3.
  assert (Expr_String (RangeAggregation op (LogQueryExpr q) range offset param hasParam g) +:+ t =
    op +:+ "(" +:+ param_text param hasParam +:+ LogQuery_String q +:+ range_text range offset +:+ ")"
      +:+ (optGrouping g +:+ t)) as ->.
  { cbn [Expr_String]. cbv zeta. fold (range_text range offset). unfold param_text.
    destruct hasParam; by rewrite !append_assoc. }
  remember (S fuel) as f1 eqn:Hf. cbn [parsePrimary]; unfold parsePrimaryRound.
  assert (name op) as Hname by (apply op_name; by rewrite Hop, orb_true_r).
  step. rewrite (range_not_vector op Hop), Hop. subst f1.
  eapply runs_bind; [by apply runs_rangeagg|].
  eapply runs_bind with (a := g) (d1 := 0%nat) (t1 := t).
  - unfold optGrouping. destruct g as [g|].
    + rewrite append_assoc. apply runs_space. apply runs_grouping; [done|lia].
    + eapply runs_nogrouping; [exact Hk|by apply operand_end_nogroup].
  - destruct hasParam; [apply runs_ret|]. subst param. apply runs_ret.
Qed.

(** *** Vector aggregations *)

Lemma runs_vector fuel op g param (hasParam : bool) inner k d1 t1 t :
  metric_ok (VectorAggregation op g param hasParam inner) →
  token 0 t k d1 t1 → operand_end (Typ k) = true →
  (match g with Some g => length (g_Labels g) | None => 0 end < fuel)%nat →
  runs (parseExpr fuel) 0 (Expr_String inner +:+ ")" +:+ t) inner 0 (")" +:+ t) →
  runs (parsePrimary (S (S fuel))) 0 (Expr_String (VectorAggregation op g param hasParam inner) +:+ t)
    (VectorAggregation op g param hasParam inner) 0 t.
Proof.
  intros (Hop & _ & Hg & Hp) Hk Hend Hf Hinner.
  set (r := param_text param hasParam +:+ Expr_String inner +:+ ")" +:+ t).
  assert (Expr_String (VectorAggregation op g param hasParam inner) +:+ t =
    op +:+ (optGrouping g +:+ " " +:+ "(" +:+ r)) as ->
    by (cbn [Expr_String]; unfold r, param_text; by rewrite !append_assoc).
  assert (name op) as Hname by (apply op_name; by rewrite Hop).
  assert (∀ x, breaks (optGrouping g +:+ " " +:+ x)) as Hb by (by destruct g).
  specialize (Hb ("(" +:+ r)).
  remember (S fuel) as f1 eqn:Hf1. cbn [parsePrimary]; unfold parsePrimaryRound. step. rewrite Hop. subst f1.
  cbn [parseVectorAggregation]; unfold parseVectorAggregationRound. step.
  eapply runs_bind with (a := g) (d1 := 0%nat) (t1 := " " +:+ "(" +:+ r).
  { unfold optGrouping. destruct g as [g|].
    - rewrite append_assoc. apply runs_space. by apply runs_grouping.
    - eapply runs_nogrouping; [tokens|done]. }
  step. eapply runs_bind with (a := if hasParam then Some param else None) (d1 := 0%nat)
    (t1 := Expr_String inner +:+ ")" +:+ t).
  { subst r. unfold param_text. destruct hasParam.
    - destruct Hp as (Hop' & kk & Hkk & Hv & Hn & Ha). rewrite append_assoc. by eapply runs_k.
    - destruct Hp as [Hop' _]. unfold parseK. rewrite Hop'. apply runs_ret. }
  eapply runs_bind; [exact Hinner|]. step.
  eapply runs_bind with (a := g) (d1 := 0%nat) (t1 := t).
  { destruct g; [apply runs_ret|]. eapply runs_nogrouping; [exact Hk|by apply operand_end_nogroup]. }
  destruct hasParam; [apply runs_ret|]. destruct Hp as [_ ->]. apply runs_ret.
Qed.

(** *** Binary operations *)

Definition paren (e : Expr) : string :=
  if isBinOp e then "(" +:+ Expr_String e +:+ ")" else Expr_String e.

Lemma BinOp_text l r op (b : bool) vm t :
  Expr_String (BinOpExpr l r op b vm) +:+ t =
  paren l +:+ " " +:+ op +:+ " " +:+ (if b then "bool " else "") +:+ matching_text vm +:+ paren r +:+ t.
Proof.
  cbn [Expr_String]. unfold matching_text. destruct (String.eqb (VectorMatching_String vm) "");
    fold (paren l) (paren r); destruct b; rewrite ?append_assoc; try done.
Qed.

Lemma rhs_end fuel e m k d1 t1 t : token 0 t k d1 t1 → expr_end (Typ k) = true → (1 ≤ m)%nat →
  runs (parseBinaryRHS (S fuel) e m) 0 t e 0 t.
Proof.
  intros Hk He Hm. cbn [parseBinaryRHS]; unfold parseBinaryRHSRound. eapply runs_typ; [exact Hk|]. cbv zeta.
  assert (binaryPrecedence (Typ k) = 0%nat) as -> by (destruct k as [[] ?]; done).
  rewrite (proj2 (Nat.ltb_lt 0 m)) by lia. apply runs_ret.
Qed.

Lemma runs_optbool (b : bool) vm k d1 t1 t : matching_ok vm → token 0 t k d1 t1 → starts k = true →
  runs optBool 0 ((if b then "bool " else "") +:+ matching_text vm +:+ t) b 0 (matching_text vm +:+ t).
Proof.
  intros Hvm Hk Hst. unfold optBool. destruct b.
  - change ("bool " +:+ ?x) with ("bool" +:+ " " +:+ x).
    assert (∀ x, token 0 ("bool" +:+ " " +:+ x) (mkTok TokIdent "bool") 0 (" " +:+ x)) as Hb
      by (intros x; by apply token_fixed).
    eapply runs_tok; [apply Hb|]. types. keywords. eapply runs_bind; [apply runs_advance, Hb|].
    apply runs_space, runs_ret.
  - change ("" +:+ ?x) with x.
    assert (∃ k' d' t', token 0 (matching_text vm +:+ t) k' d' t' ∧
      is_typ (Typ k') TokIdent && String.eqb (Val k') "bool" = false) as (k' & d' & t' & Hk' & Hn).
    { destruct vm as [vm|].
      - rewrite (matching_shape vm Hvm). rewrite append_assoc.
        destruct Hvm as ([Hc|Hc] & _); rewrite Hc.
        + destruct (token_modifier "on" TokOn (MatchLabels vm) (((if String.eqb (GroupSide vm) "" then ""
            else " " +:+ GroupSide vm +:+ "(" +:+ Join ", " (Include vm) +:+ ")") +:+ " ") +:+ t)) as [t' Ht'];
            [done..|]. by eexists _, _, _.
        + destruct (token_modifier "ignoring" TokIgnoring (MatchLabels vm) (((if String.eqb (GroupSide vm) "" then ""
            else " " +:+ GroupSide vm +:+ "(" +:+ Join ", " (Include vm) +:+ ")") +:+ " ") +:+ t)) as [t' Ht'];
            [done..|]. by eexists _, _, _.
      - exists k, d1, t1. split; [done|]. destruct k as [ty v]. unfold starts in Hst. cbn [Typ Val] in *.
        destruct (String.eqb_spec v "bool") as [->|]; [|apply andb_false_r]. by destruct ty. }
    eapply runs_tok; [exact Hk'|]. rewrite Hn. apply runs_ret.
Qed.

Lemma runs_binop fuel l r op (b : bool) vm k d1 t1 t :
  matching_ok vm → (∃ tk, (op, tk) ∈ binops) →
  token 0 t k d1 t1 → expr_end (Typ k) = true → (0 < fuel)%nat →
  (match vm with Some vm => length (MatchLabels vm) + length (Include vm) | None => 0 end < fuel)%nat →
  (∃ k2 d2 t2, token 0 (paren r +:+ t) k2 d2 t2 ∧ starts k2 = true) →
  (∀ k2 d2 t2 x, token 0 x k2 d2 t2 → breaks x → operand_end (Typ k2) = true →
     runs (parsePrimary (S fuel)) 0 (paren l +:+ x) l 0 x) →
  runs (parsePrimary fuel) 0 (paren r +:+ t) r 0 t →
  runs (parseExpr (S (S fuel))) 0 (Expr_String (BinOpExpr l r op b vm) +:+ t) (BinOpExpr l r op b vm) 0 t.
Proof.
  intros Hvm [tk Hop] Hk Hend Hf0 Hf (k2 & d2 & t2 & Hk2 & Hst) Hl Hr. rewrite BinOp_text.
  set (x := (if b then "bool " else "") +:+ matching_text vm +:+ paren r +:+ t).
  pose proof (token_space _ _ _ _ _ (token_binop op tk x Hop)) as Htok.
  pose proof (binop_precedence op tk Hop) as Hprec.
  remember (S fuel) as f1 eqn:Hf1. cbn [parseExpr]. eapply runs_bind.
  { eapply Hl; [exact Htok|done|]. unfold operand_end. cbn [Typ].
    rewrite (proj2 (Nat.ltb_lt _ _)) by lia. apply orb_true_r. }
  subst f1. cbn [parseBinaryRHS]; unfold parseBinaryRHSRound. eapply runs_typ; [exact Htok|]. cbv zeta. cbn [Typ].
  rewrite (proj2 (Nat.ltb_ge _ _)) by lia.
  eapply runs_bind; [apply runs_advance, Htok|]. apply runs_space. cbn [Val].
  eapply runs_bind; [by eapply runs_optbool|]. eapply runs_bind; [by eapply runs_matching|].
  eapply runs_bind; [exact Hr|]. destruct fuel as [|fuel]; [lia|].
  eapply runs_bind; [eapply rhs_end; [exact Hk|done|]|].
  { destruct (String.eqb op "^"); lia. }
  by eapply rhs_end.
Qed.

(** ** Fuel

    The loops of the parser make at most one round per byte of what is printed. *)

Ltac lengths := rewrite ?length_app_str; cbn [String.length length].

Lemma join_length ls : (length ls ≤ S (String.length (Join ", " ls)))%nat.
Proof.
  induction ls as [|l [|l' ls] IH]; [cbn; lia|cbn; lia|].
  change (Join ", " (l :: l' :: ls)) with (l +:+ ", " +:+ Join ", " (l' :: ls)).
  rewrite !length_app_str. cbn [length String.length] in *. lia.
Qed.

Lemma texts_length {A} (g : A → string) l : (∀ a, 1 ≤ String.length (g a))%nat →
  (length l ≤ String.length (texts g l))%nat.
Proof.
  intros Hg. induction l as [|a l IH]; [cbn; lia|]. cbn [texts foldr length].
  rewrite length_app_str. specialize (Hg a). fold (texts g l). lia.
Qed.

Lemma stage_length s : stage_ok s → (stage_size s ≤ 1 + String.length (Stage_String s))%nat.
Proof.
  destruct s as [op v ip alts|ty param fields|raw|ls ms|ls ms| |l c|tmpl|raw fs];
    cbn [Stage_String stage_size stage_ok]; intros Hok.
  - assert (String.length (LineFilterOp_String op) = 2%nat) as Hop by (by destruct op).
    unfold LineFilterStage_String. destruct ip.
    + destruct Hok as [-> _]. lengths. rewrite Hop. lia.
    + rewrite foldl_texts. lengths. rewrite Hop, length_Quote.
      pose proof (texts_length (λ a, " or " +:+ Quote a) alts ltac:(intros; cbv beta; lengths; lia)). lia.
  - destruct ty; cbn [ParserStage_String]; [destruct Hok as [-> _]; vm_compute; lia|destruct Hok as [-> _]; vm_compute; lia|lengths; lia|lengths; lia|].
    vm_compute; lia.
  - destruct Hok as (n & op & tk & v & -> & _). lengths. rewrite length_Quote. lia.
  - unfold dropItems. lengths. pose proof (join_length (ls ++ map DropMatcher_String ms)) as Hj.
    rewrite length_app, length_map in Hj. lia.
  - unfold dropItems. lengths. pose proof (join_length (ls ++ map DropMatcher_String ms)) as Hj.
    rewrite length_app, length_map in Hj. lia.
  - cbn. lia.
  - unfold UnwrapStage_String. destruct (String.eqb c ""); lengths; lia.
  - lengths. lia.
  - destruct Hok as [-> _]. unfold formats_text. lengths.
    pose proof (join_length (map format_text fs)) as Hj. rewrite length_map in Hj. lia.
Qed.

Lemma pipeline_length pl : pipeline_ok pl → (pipeline_size pl ≤ 1 + String.length (stages_text pl))%nat.
Proof.
  induction pl as [|s pl IH]; cbn [pipeline_ok]; [cbn; lia|]. intros (Hs & Hpl & _).
  change (pipeline_size (s :: pl)) with (stage_size s + pipeline_size pl)%nat.
  change (stages_text (s :: pl)) with ((" " +:+ Stage_String s) +:+ stages_text pl). lengths.
  pose proof (stage_length s Hs). specialize (IH Hpl). lia.
Qed.

Lemma query_length q : query_ok q →
  (length (Selector q) ≤ String.length (LogQuery_String q) ∧
   pipeline_size (Pipeline q) ≤ String.length (LogQuery_String q))%nat.
Proof.
  intros [_ Hpl]. rewrite LogQuery_text. unfold StreamSelector_String. lengths.
  pose proof (join_length (map LabelMatcher_String (Selector q))) as Hj. rewrite length_map in Hj.
  pose proof (pipeline_length _ Hpl). lia.
Qed.

Lemma grouping_length g :
  (match g with Some g => length (g_Labels g) | None => 0 end ≤ String.length (optGrouping g))%nat.
Proof.
  destruct g as [[w ls]|]; [|lia]. unfold optGrouping, Grouping_String. cbn [g_Labels Without]. lengths.
  pose proof (join_length ls). lia.
Qed.

Lemma matching_length vm : matching_ok vm →
  (match vm with Some vm => length (MatchLabels vm) + length (Include vm) | None => 0 end
   ≤ String.length (matching_text vm))%nat.
Proof.
  destruct vm as [vm|]; [|lia]. intros Hok. rewrite (matching_shape vm Hok).
  destruct Hok as (_ & _ & _ & Hside). lengths.
  pose proof (join_length (MatchLabels vm)). pose proof (join_length (Include vm)).
  destruct Hside as [[-> ->]|Hside]; [cbn; lia|].
  assert (String.eqb (GroupSide vm) "" = false) as -> by (by destruct Hside as [-> | ->]). lengths. lia.
Qed.

(** ** Whole expressions *)

Lemma operand_first e t : metric_ok e → breaks t → ∃ k d1 t1,
  token 0 (paren e +:+ t) k d1 t1 ∧ starts k = true.
Proof.
  intros He Ht. destruct e as [q|op inner range offset param hasParam g|op g param hasParam inner|l r op b vm|v|raw];
    unfold paren; cbn [isBinOp metric_ok] in *; try done.
  - destruct He as (Hop & _). assert (name op) as Hn by (apply op_name; by rewrite Hop, orb_true_r).
    cbn [Expr_String]. cbv zeta. rewrite append_assoc. eexists _, _, _. split; [by apply token_name|].
    unfold starts. cbn [Typ Val]. by rewrite Hop, orb_true_r.
  - destruct He as (Hop & _). assert (name op) as Hn by (apply op_name; by rewrite Hop).
    cbn [Expr_String]. rewrite !append_assoc. eexists _, _, _. split; [apply token_name; [done|by destruct g]|].
    unfold starts. cbn [Typ Val]. by rewrite Hop.
  - rewrite append_assoc. eexists _, _, _. split; [apply token_lparen|done].
  - cbn [Expr_String]. destruct He as [[Hn _]|(n & w & -> & _)].
    + eexists _, _, _. split; [by apply token_number|done].
    + rewrite append_assoc. eexists _, _, _. split; [apply token_minus|done].
Qed.

Definition expr_runs (e : Expr) : Prop := ∀ fuel k d1 t1 t,
  token 0 t k d1 t1 → breaks t → expr_end (Typ k) = true →
  (2 * String.length (Expr_String e) + 5 ≤ fuel)%nat →
  runs (parseExpr fuel) 0 (Expr_String e +:+ t) e 0 t.

Definition operand_runs (e : Expr) : Prop := ∀ fuel k d1 t1 t,
  token 0 t k d1 t1 → breaks t → operand_end (Typ k) = true →
  (2 * String.length (paren e) + 4 ≤ fuel)%nat →
  runs (parsePrimary fuel) 0 (paren e +:+ t) e 0 t.

Lemma expr_of_operand e : isBinOp e = false → operand_runs e → expr_runs e.
Proof.
  unfold expr_runs, operand_runs, paren. intros -> Ho fuel k d1 t1 t Hk Ht He Hf.
  destruct fuel as [|[|fuel]]; [lia..|]. set (f1 := S fuel). cbn [parseExpr]. eapply runs_bind.
  - eapply Ho; [exact Hk|done|by unfold operand_end; rewrite He|subst f1; lia].
  - by eapply rhs_end.
Qed.

Lemma operand_of_expr e : isBinOp e = true → expr_runs e → operand_runs e.
Proof.
  unfold expr_runs, operand_runs, paren. intros -> He fuel k d1 t1 t Hk Ht Hend Hf.
  rewrite !length_app_str in Hf. cbn [String.length] in Hf. destruct fuel as [|fuel]; [lia|].
  rewrite !append_assoc. cbn [parsePrimary]; unfold parsePrimaryRound. step. step.
  eapply runs_bind; [eapply He; [apply token_rparen|done|done|lia]|]. step. step.
Qed.

Lemma runs_metric e : metric_ok e → expr_runs e ∧ operand_runs e.
Proof.
  induction e as [q|op inner IH range offset param hasParam g|op g param hasParam inner IH|l IHl r IHr op b vm|v|raw];
    intros He; try done.
  - assert (operand_runs (RangeAggregation op inner range offset param hasParam g)) as Ho;
      [|by split; [apply expr_of_operand|]].
    intros fuel k d1 t1 t Hk Ht Hend Hf. pose proof He as (_ & (q & -> & Hq) & _).
    pose proof (query_length q Hq) as [Hl1 Hl2]. pose proof (grouping_length g) as Hl3.
    unfold paren in Hf |- *. cbn [isBinOp] in Hf |- *. destruct fuel as [|[|fuel]]; [lia..|].
    assert (String.length (LogQuery_String q) + String.length (optGrouping g) ≤
      String.length (Expr_String (RangeAggregation op (LogQueryExpr q) range offset param hasParam g)))%nat
      by (cbn [Expr_String]; cbv zeta; destruct hasParam; lengths; lia).
    eapply runs_range; [done|exact Hk|done|lia..].
  - assert (operand_runs (VectorAggregation op g param hasParam inner)) as Ho;
      [|by split; [apply expr_of_operand|]].
    intros fuel k d1 t1 t Hk Ht Hend Hf. pose proof He as (_ & Hin & _). destruct (IH Hin) as [IHe _].
    pose proof (grouping_length g) as Hl3.
    unfold paren in Hf |- *. cbn [isBinOp] in Hf |- *. destruct fuel as [|[|fuel]]; [lia..|].
    assert (String.length (Expr_String inner) + String.length (optGrouping g) + 3 ≤
      String.length (Expr_String (VectorAggregation op g param hasParam inner)))%nat
      by (cbn [Expr_String]; destruct hasParam; lengths; lia).
    eapply runs_vector; [done|exact Hk|done|lia|].
    eapply IHe; [apply token_rparen|done|done|lia].
  - assert (expr_runs (BinOpExpr l r op b vm)) as Hex; [|by split; [|apply operand_of_expr]].
    intros fuel k d1 t1 t Hk Ht Hend Hf. destruct He as (Hl & Hr & Hvm & Hop).
    destruct (IHl Hl) as [_ IHlo], (IHr Hr) as [_ IHro]. pose proof (matching_length vm Hvm) as Hl3.
    destruct fuel as [|[|fuel]]; [lia..|].
    assert (String.length (paren l) + String.length (paren r) + String.length (matching_text vm) + 2 ≤
      String.length (Expr_String (BinOpExpr l r op b vm)))%nat.
    { pose proof (BinOp_text l r op b vm "") as E. apply (f_equal String.length) in E.
      rewrite !length_app_str in E. cbn [String.length] in E. lia. }
    apply runs_binop with k d1 t1; try done; [lia|lia| | |].
    + by apply operand_first.
    + intros. eapply IHlo; [done..|lia].
    + eapply IHro; [exact Hk|done|by unfold operand_end; rewrite Hend|lia].
  - assert (operand_runs (LiteralExpr v)) as Ho; [|by split; [apply expr_of_operand|]].
    intros fuel k d1 t1 t Hk Ht Hend Hf. destruct fuel as [|fuel]; [lia|]. by apply runs_literal.
Qed.

(** Expressions whose printed form is read back. *)
Definition printable (e : Expr) : Prop :=
  match e with
  | LogQueryExpr q => query_ok q
  | e => metric_ok e
  end.

Lemma runs_printable e fuel : printable e → (2 * String.length (Expr_String e) + 5 ≤ fuel)%nat →
  runs (parseExpr fuel) 0 (Expr_String e) e 0 "".
Proof.
  intros He Hf. rewrite <- (str_app_nil_r (Expr_String e)).
  destruct e as [q|op inner range offset param hasParam g|op g param hasParam inner|l r op b vm|v|raw];
    [|by eapply (proj1 (runs_metric _ He)); [apply token_eof|..]..].
  pose proof (query_length q He) as [Hl1 Hl2]. cbn [Expr_String] in *.
  destruct fuel as [|[|fuel]]; [lia..|]. set (f1 := S fuel). cbn [parseExpr].
  destruct (query_first q "") as [t1 Hfirst]. eapply runs_bind.
  - cbn [parsePrimary f1]; unfold parsePrimaryRound. eapply runs_tok; [exact Hfirst|]. cbn [Typ].
    eapply runs_bind; [|apply runs_ret]. eapply (runs_query (mkTok TokEOF "")); [apply token_eof|done..|lia|lia].
  - by eapply rhs_end; [apply token_eof|..].
Qed.

(** C3 Printing and parsing are inverse on the trees [printable] describes: parsing what
    the [String] methods print succeeds and gives back exactly the same tree.  These are
    log queries whose label names are words that are no keywords, with line filters (the
    ip ones with an address), json, logfmt and unpack stages without arguments, regexp
    and pattern stages, label filters that compare one label with a string, drop and keep
    lists that are not empty, unwrap, line_format, label_format and decolorize, where no
    [!=] or [!~] line filter stands right behind a drop or keep list of labels alone; and
    metric expressions over such queries: range and vector aggregations with their
    durations, groupings and parameters, binary operations with their matching clauses,
    and literals whose %g text is digits and points and is read back as the same value.
    Stages with arguments, numeric and compound label filters, opaque calls and literals
    with an exponent ([large_literal_rejected]) are not among them. *)
Theorem parse_print e : printable e → ∃ p, Parse (Expr_String e) = Done e p.
Proof.
  intros He. set (s := Expr_String e).
  assert (at_ 0 s (start s)) as Hat.
  { exists (newScanner s). split; [done|]. unfold start. by destruct (next (newScanner s)). }
  destruct (runs_printable e (fuelFor s) He) with (start s) as (p & Hp & Hend); [unfold fuelFor; fold s; lia|done|].
  exists p. unfold Parse. rewrite Hp. destruct (at_cur _ _ _ _ _ _ Hend (token_eof 0)) as [-> _]. done.
Qed.

(** ** Literals that are not read back *)

Definition fails {A} (m : P A) (d : nat) (t : string) : Prop :=
  ∀ p, at_ d t p → ∃ msg, m p = Fail msg.

Lemma fails_bind {A B} (f : A → P B) (m : P A) d t a d1 t1 :
  runs m d t a d1 t1 → fails (f a) d1 t1 → fails (mbind f m) d t.
Proof.
  intros Hm Hf p Hp. destruct (Hm p Hp) as (p1 & E1 & Hp1). unfold mbind, P_bind. rewrite E1. by apply Hf.
Qed.

Lemma fails_now {A B} (f : A → P B) (m : P A) d t : fails m d t → fails (mbind f m) d t.
Proof. intros Hm p Hp. destruct (Hm p Hp) as [msg E]. exists msg. unfold mbind, P_bind. by rewrite E. Qed.

Lemma fails_typ {B} (f : TokType → P B) d t k d1 t1 :
  token d t k d1 t1 → fails (f (Typ k)) d t → fails (mbind f typ) d t.
Proof.
  intros Hk Hf p Hp. destruct (at_cur _ _ _ _ _ _ Hp Hk) as [Hc _]. rewrite bind_typ, Hc. by apply Hf.
Qed.

Lemma fails_space {A} (m : P A) d t : fails m d t → fails m d (" " +:+ t).
Proof.
  intros Hm p (s & [Hr Hd] & Hn). apply Hm. exists (skip 1 s).
  rewrite (next_blank t s Hr) in Hn. split; [|done]. by apply (view_skip d " ").
Qed.

(** A number with an exponent, as [%g] writes magnitudes from 1000000 up and
    below 0.0001: digits, the letter e, a sign and digits. *)
Definition exponent_text (s : string) : Prop :=
  ∃ m r, s = (m +:+ "e") +:+ r ∧ number_text m = true ∧ breaks r.

(** The part up to the letter is scanned as a duration, which starts no operand. *)
Lemma exponent_token m r : number_text m = true → breaks r →
  token 0 ((m +:+ "e") +:+ r) (mkTok TokDuration (m +:+ "e")) 0 r.
Proof.
  intros Hm Hr. apply token_duration; [|done]. destruct m as [|a m]; [done|].
  cbn [number_text] in Hm. apply andb_true_iff in Hm as [Ha Hall]. split; [|exact Ha].
  apply dur_one; [done|done|done|]. cbn [all_bytes]. by rewrite IsLetter_ascii by done.
Qed.

Lemma exponent_fails fuel s : exponent_text s → fails (parsePrimary (S fuel)) 0 s.
Proof.
  intros (m & r & -> & Hm & Hr) p Hp. destruct (at_cur _ _ _ _ _ _ Hp (exponent_token m r Hm Hr)) as [Hc _].
  cbn [parsePrimary]; unfold parsePrimaryRound. rewrite bind_tok, Hc. eexists. reflexivity.
Qed.

(** Large literals are not read back.  [%g] prints 1000000 as 1e+06, so the
    printed form of any binary operation with such a literal on its right is
    rejected by the parser although the tree came from an accepted query. *)
Theorem large_literal_rejected e op v :
  metric_ok e → (∃ tk, (op, tk) ∈ binops) → exponent_text (Format_g v) →
  ∃ msg, Parse (Expr_String (BinOpExpr e (LiteralExpr v) op false None)) = Fail msg.
Proof.
  intros He [tk Hop] Hv. set (s := Expr_String (BinOpExpr e (LiteralExpr v) op false None)).
  assert (at_ 0 s (start s)) as Hat.
  { exists (newScanner s). split; [done|]. unfold start. by destruct (next (newScanner s)). }
  cut (fails (parseExpr (fuelFor s)) 0 s).
  { intros Hf. destruct (Hf _ Hat) as [msg E]. exists msg. unfold Parse. by rewrite E. }
  clear Hat. assert (s = paren e +:+ " " +:+ op +:+ " " +:+ Format_g v) as Hs.
  { pose proof (BinOp_text e (LiteralExpr v) op false None "") as E. rewrite str_app_nil_r in E.
    unfold s. rewrite E. unfold paren at 2. cbn [isBinOp Expr_String]. by rewrite str_app_nil_r. }
  assert (∃ f, fuelFor s = S (S (S f)) ∧ (2 * String.length (paren e) + 4 ≤ S (S f)))%nat as (f & -> & Hfuel).
  { exists (fuelFor s - 3)%nat. unfold fuelFor. rewrite Hs, !length_app_str. cbn [String.length]. lia. }
  rewrite Hs. clear s Hs. pose proof (token_space _ _ _ _ _ (token_binop op tk (Format_g v) Hop)) as Htok.
  pose proof (binop_precedence op tk Hop) as Hprec.
  remember (S (S f)) as f2 eqn:Hf2. cbn [parseExpr]. eapply fails_bind.
  { eapply (proj2 (runs_metric e He)); [exact Htok|done| |done]. unfold operand_end. cbn [Typ].
    rewrite (proj2 (Nat.ltb_lt _ _)) by lia. apply orb_true_r. }
  subst f2. remember (S f) as f1 eqn:Hf1. cbn [parseBinaryRHS]; unfold parseBinaryRHSRound.
  eapply fails_typ; [exact Htok|]. cbv zeta. cbn [Typ]. rewrite (proj2 (Nat.ltb_ge _ _)) by lia.
  eapply fails_bind; [apply runs_advance, Htok|]. apply fails_space.
  assert (∃ w r, token 0 (Format_g v) (mkTok TokDuration w) 0 r) as (w & r & Hw).
  { destruct Hv as (m & r & -> & Hm & Hr). eexists _, _. by apply exponent_token. }
  eapply fails_bind; [eapply runs_tok; [exact Hw|apply runs_ret]|].
  eapply fails_bind; [eapply runs_typ; [exact Hw|apply runs_ret]|].
  apply fails_now. subst f1. by apply exponent_fails.
Qed.

End Printing.
End Roundtrip.

(** ** Concrete instances

    The ASCII part of the Unicode tables, integers printed the way [%g] prints
    them, and a parser of addresses that accepts one. *)

Module RoundtripDemo.
Import Text Utf8 Scanner Ast Parser Lexing Roundtrip.

#[local] Instance ascii_tables : Unicode := {|
  IsLetter r := ((65 <=? r) && (r <=? 90)) || ((97 <=? r) && (r <=? 122));
  IsDigit r := (48 <=? r) && (r <=? 57);
  IsPrint r := (32 <=? r) && (r <=? 126)
|}.

#[local] Instance ascii_laws : UnicodeLaws.
Proof.
  split; try done. intros r. cbn.
  rewrite orb_true_iff, !andb_true_iff, !Z.leb_le, andb_false_iff, !Z.leb_gt. lia.
Qed.

#[local] Instance integers : Floats := {|
  F := Z;
  ParseFloat s := match Atoi s with Some z => Ok z | None => Err "invalid syntax" end;
  Fneg := Z.opp;
  Fof_int z := z;
  Format_g z := if z =? 1000000 then "1e+06" else Itoa z
|}.

#[local] Instance loopback : Netip := {|
  Addr := unit;
  ParseAddr s := if String.eqb s "127.0.0.1" then Some tt else None;
  ParsePrefixOk s := String.eqb s "10.0.0.0/8";
  BitLen _ := 32;
  CompareNoZone _ _ := 0
|}.

(** A query with every kind of stage. *)
Definition stages : list Stage :=
  [LineFilterStage LineFilterContains "err" false ["warn"];
   LineFilterStage LineFilterExcludes "10.0.0.0/8" true [];
   ParserStage ParserJSON "" [];
   LabelFilterStage ("level" +:+ "=" +:+ Quote "error");
   ParserStage ParserRegexp "(?P<code>[0-9]+)" [];
   DropStage ["pod"] [mkDM "node" "=~" "gke.*"];
   KeepStage ["app"; "code"] [];
   LineFormatStage "{{.code}}";
   LabelFormatStage (formats_text [mkFormat "a" "b" true; mkFormat "c" "x y" false])
     [mkFormat "a" "b" true; mkFormat "c" "x y" false];
   DecolorizeStage;
   UnwrapStage "bytes" "duration"].

Definition query : LogQuery := mkLQ [mkLM "app" MatchEq "a"; mkLM "env" MatchNotRe "dev.*"] stages.

(** [sum by (app) (quantile_over_time(2,... [5m] offset 1h30m))
    > bool on(app) group_left() (topk (3,rate(...)) * -7)]. *)
Definition tree : Expr :=
  BinOpExpr
    (VectorAggregation "sum" (Some (mkGrouping false ["app"])) 0 false
       (RangeAggregation "quantile_over_time" (LogQueryExpr query) "5m" "1h30m" 2 true None))
    (BinOpExpr
       (VectorAggregation "topk" None 3 true
          (RangeAggregation "rate" (LogQueryExpr (mkLQ [] [])) "5m" "" 0 false
             (Some (mkGrouping true ["pod"; "node"]))))
       (LiteralExpr (-7)) "*" false None)
    ">" true (Some (mkVM "on" ["app"] "group_left" [])).

(** Discharge the decidable parts of [printable]. *)
Ltac ok :=
  cbn [query_ok pipeline_ok stage_ok selector_ok metric_ok matching_ok grouping_ok bare negated
       query stages tree Selector Pipeline Card MatchLabels GroupSide Include g_Labels];
  repeat first
    [ exact I | reflexivity | discriminate
    | lazymatch goal with
      | |- name _ => split; reflexivity
      | |- _ ∧ _ => split
      | |- Forall _ [] => apply Forall_nil_2
      | |- Forall _ (_ :: _) => apply Forall_cons_2
      | |- droplist_ok _ _ => split
      | |- matcher_ok _ => split
      | |- format_ok _ => split
      | |- _ = _ → _ => intros _
      end ].

Lemma dur_5m : duration_ok "5m".
Proof. split; [|reflexivity]. by apply (dur_one "5" "m"). Qed.

Lemma dur_1h30m : duration_ok "1h30m".
Proof. split; [|reflexivity]. apply (dur_more "1" "h" "30m"); try done. by apply (dur_one "30" "m"). Qed.

Lemma query_printable : query_ok query.
Proof.
  unfold query, stages. split; ok.
  - unfold selector_ok. ok.
  - exists "level", "=", TokEq, "error". ok. set_solver.
  - exists TokReMatch. cbn. set_solver.
  - by left.
  - by left.
  - right. ok.
Qed.

Lemma tree_printable : printable tree.
Proof.
  unfold printable, tree. ok.
  - exists query. split; [done|apply query_printable].
  - apply dur_5m.
  - right. apply dur_1h30m.
  - by left.
  - eexists. split; [reflexivity|]. split; [apply Forall_nil_2|exact I].
  - apply dur_5m.
  - by left.
  - by exists 3.
  - right. by exists "7", 7.
  - exists TokStar. set_solver.
  - by left.
  - right. by left.
  - exists TokGt. set_solver.
Qed.

Lemma parse_print_witness : ∃ p, Parse (Expr_String tree) = Done tree p.
Proof. apply (parse_print tree). apply tree_printable. Defined.

Definition product : Expr := BinOpExpr (@LiteralExpr integers 5) (@LiteralExpr integers 1000000) "*" false None.

Lemma large_literal_rejected_witness : ∃ msg, Parse (Expr_String product) = Fail msg.
Proof.
  apply (large_literal_rejected (@LiteralExpr integers 5) "*" (1000000 : @F integers)).
  - by left.
  - exists TokStar. set_solver.
  - by exists "1", "+06".
Defined.

Lemma scan_quoted_witness :
  next (newScanner (Quote "a b" +:+ "x"))
  = (mkTok TokString "a b", skip (String.length (Quote "a b")) (newScanner (Quote "a b" +:+ "x"))).
Proof. refine (scan_quoted "a b" "x" _ _). reflexivity. Defined.

End RoundtripDemo.
