(* ===== verification/TimeUtils.v ===== *)
(** * Timestamps, steps and the evaluation grid
      (src/internal/proxy/time_utils.go, step_grid.go; the time parsers of
      query_range_windowing.go and cold_routing.go)

    Requests carry instants and steps as text in several units.  Modelled are the
    parsers that guess the unit, the grid a range request is moved onto, the
    buckets of a volume response and the duration tokens of dashboards.  Integers
    wrap at 64 bits as Go's do; calendar parsing and float64 arithmetic are the
    [Clock] parameter. *)

From S2P Require Import Prelude GoText Utf8 LogqlAst LogqlFilter LogqlScanner LogqlParser.

#[local] Open Scope Z_scope.

(** Package time and float64: [time.Parse] by layout gives seconds and
    nanoseconds, [to_int64] is the conversion of a float to an integer. *)
Class Clock `{Numbers} : Type := {
  time_Parse : string → string → option (Z * Z);
  ParseDuration : string → option Z;
  Fadd : F → F → F;
  Fdiv : F → F → F;
  Fabs : F → F;
  to_int64 : F → Z;
  Format_f : F → string
}.

(** [time.Parse] takes no plain number for an RFC 3339 instant. *)
Class ClockLaws `{Clock} : Prop := {
  time_Parse_number layout n : 0 ≤ n → time_Parse layout (Text.Itoa n) = None
}.

Module Times.
Import Text Utf8.

(** [strings.ReplaceAll] for a non-empty [old]; every round consumes a byte. *)
Fixpoint ReplaceAll (fuel : nat) (old new s : string) : string :=
  match fuel with
  | O => s
  | S fuel =>
      match s with
      | "" => ""
      | String c r =>
          match strip_prefix old s with
          | Some t => new +:+ ReplaceAll fuel old new t
          | None => String c (ReplaceAll fuel old new r)
          end
      end
  end.

Definition replaceAll (old new s : string) : string := ReplaceAll (String.length s) old new s.

Definition abs64 (v : Z) : Z := if v <? 0 then wrap64 (- v) else v.

(** ** Units guessed from the magnitude *)

Definition normalizeUnixSeconds (v : Z) : Z :=
  let abs := abs64 v in
  if 1000000000000000000 <=? abs then Z.quot v 1000000000
  else if 1000000000000000 <=? abs then Z.quot v 1000000
  else if 1000000000000 <=? abs then Z.quot v 1000
  else v.

Definition normalizeUnixNanos (v : Z) : Z :=
  let abs := abs64 v in
  if 1000000000000000000 <=? abs then v
  else if 1000000000000000 <=? abs then wrap64 (v * 1000)
  else if 1000000000000 <=? abs then wrap64 (v * 1000000)
  else wrap64 (v * Second).

Definition normalizeLokiIntTimeToUnixNano (v : Z) : Z :=
  let abs := abs64 v in
  if abs <? 100000000000 then wrap64 (v * Second)
  else if abs <? 100000000000000 then wrap64 (v * Millisecond)
  else if abs <? 100000000000000000 then wrap64 (v * 1000)
  else v.

Definition nanosToVLTimestamp (nanos : Z) : string := Itoa (Z.quot nanos Second).

(** ** Text *)

Section Parsers.
Context `{Clock}.

Definition RFC3339Nano : string := "2006-01-02T15:04:05.999999999Z07:00".
Definition RFC3339 : string := "2006-01-02T15:04:05Z07:00".

Definition parseRFC3339 (value : string) : option (Z * Z) :=
  match time_Parse RFC3339Nano value with
  | Some t => Some t
  | None => time_Parse RFC3339 value
  end.

Definition UnixNano (t : Z * Z) : Z := wrap64 (t.1 * Second + t.2).

Definition ofInt (z : Z) : F := Fof_int z.

Definition parseFlexibleUnixSeconds (raw : string) : option Z :=
  let value := TrimSpace raw in
  if String.eqb value "" then None
  else
    match parseRFC3339 value with
    | Some t => Some t.1
    | None =>
        match Atoi value with
        | Some v => Some (normalizeUnixSeconds v)
        | None =>
            match ParseFloat value with
            | Err _ => None
            | Ok x =>
                let abs := Fabs x in
                Some (to_int64
                  (if Fle (ofInt 1000000000000000000) abs then Fdiv x (ofInt 1000000000)
                   else if Fle (ofInt 1000000000000000) abs then Fdiv x (ofInt 1000000)
                   else if Fle (ofInt 1000000000000) abs then Fdiv x (ofInt 1000)
                   else x))
            end
        end
    end.

Definition parseFlexibleUnixNanos (raw : string) : option Z :=
  let value := TrimSpace raw in
  if String.eqb value "" then None
  else
    match parseRFC3339 value with
    | Some t => Some (UnixNano t)
    | None =>
        match Atoi value with
        | Some v => Some (normalizeUnixNanos v)
        | None =>
            match ParseFloat value with
            | Err _ => None
            | Ok x =>
                let abs := Fabs x in
                Some (to_int64
                  (if Fle (ofInt 1000000000000000000) abs then x
                   else if Fle (ofInt 1000000000000000) abs then Fmul x (ofInt 1000)
                   else if Fle (ofInt 1000000000000) abs then Fmul x (ofInt 1000000)
                   else Fmul x (ofInt Second)))
            end
        end
    end.

Definition normalizeLokiNumericTimeToUnixNano (v : F) : Z :=
  let abs := Fabs v in
  to_int64
    (if Flt abs (ofInt 100000000000) then Fmul v (ofInt Second)
     else if Flt abs (ofInt 100000000000000) then Fmul v (ofInt Millisecond)
     else if Flt abs (ofInt 100000000000000000) then Fmul v (ofInt 1000)
     else v).

(** [now], [now-5m] and [now+5m]. *)
Definition relativeTime (now : Z) (raw : string) : option Z :=
  if String.eqb raw "now" then Some now
  else
    match strip_prefix "now-" raw, strip_prefix "now+" raw with
    | Some d, _ => option_map (λ d, wrap64 (now - d)) (ParseDuration d)
    | None, Some d => option_map (λ d, wrap64 (now + d)) (ParseDuration d)
    | None, None => None
    end.

Definition parseLokiTimeToUnixNano (now : Z) (raw : string) : option Z :=
  let raw := TrimSpace raw in
  if String.eqb raw "" then None
  else
    match parseRFC3339 raw with
    | Some t => Some (UnixNano t)
    | None =>
        match relativeTime now raw with
        | Some z => Some z
        | None =>
            match Atoi raw with
            | Some v => Some (normalizeLokiIntTimeToUnixNano v)
            | None =>
                match ParseFloat raw with
                | Ok x => Some (normalizeLokiNumericTimeToUnixNano x)
                | Err _ => None
                end
            end
        end
    end.

Definition parseLokiTimeRangeToUnixNano (now1 now2 : Z) (startRaw endRaw : string) : option (Z * Z) :=
  match parseLokiTimeToUnixNano now1 startRaw with
  | None => None
  | Some startNs =>
      match parseLokiTimeToUnixNano now2 endRaw with
      | None => None
      | Some endNs => if endNs <? startNs then None else Some (startNs, endNs)
      end
  end.

Definition formatVLStatsTimestamp (now : Z) (raw : string) : string :=
  match parseLokiTimeToUnixNano now raw with
  | None => raw
  | Some nanos => nanosToVLTimestamp nanos
  end.

(** [parseFlexTimestamp] of the cold router. *)
Definition parseFlexTimestamp (s : string) : option Z :=
  match Atoi s with
  | Some n =>
      Some (if 1000000000000000000 <? n then n
            else if 1000000000000000 <? n then wrap64 (n * 1000)
            else if 1000000000000 <? n then wrap64 (n * 1000000)
            else wrap64 (n * 1000000000))
  | None => option_map UnixNano (parseRFC3339 s)
  end.

(** ** Durations *)

Definition is_digit (c : Ascii.ascii) : bool := match digit_of c with Some _ => true | None => false end.

(** The numeral of [prometheusDurationPartRE] at the start of [s]. *)
Definition numeral (s : string) : option (string * string) :=
  let '(i, r) := span is_digit s in
  match strip_prefix "." r with
  | Some r' =>
      let '(f, r'') := span is_digit r' in
      if String.eqb f "" then (if String.eqb i "" then None else Some (i, r))
      else Some (i +:+ "." +:+ f, r'')
  | None => if String.eqb i "" then None else Some (i, r)
  end.

(** The units in the order of the expression, with what they multiply by and
    divide by. *)
Definition durationUnits : list (string * (list Z * Z)) :=
  [("ns", ([], 1000000000)); ("us", ([], 1000000)); (String "194" (String "181" "s"), ([], 1000000));
   ("ms", ([], 1000)); ("s", ([], 1)); ("m", ([60], 1)); ("h", ([3600], 1)); ("d", ([86400], 1));
   ("w", ([7; 86400], 1)); ("y", ([365; 86400], 1))].

Fixpoint findUnit (us : list (string * (list Z * Z))) (s : string) : option (list Z * Z * string) :=
  match us with
  | [] => None
  | (u, (m, d)) :: us =>
      match strip_prefix u (ToLower s) with
      | Some _ => Some (m, d, suffix (String.length u) s)
      | None => findUnit us s
      end
  end.

(** The parts of a value that consists of nothing else; each is at least two bytes. *)
Fixpoint durationParts (fuel : nat) (s : string) : option (list (string * (list Z * Z))) :=
  match fuel with
  | O => None
  | S fuel =>
      match s with
      | "" => Some []
      | _ =>
          match numeral s with
          | None => None
          | Some (n, r) =>
              match findUnit durationUnits r with
              | None => None
              | Some (m, d, r) => option_map (cons (n, (m, d))) (durationParts fuel r)
              end
          end
      end
  end.

Definition partSeconds (x : F) (m : list Z) (d : Z) : F :=
  let x := foldl (λ x k, Fmul x (ofInt k)) x m in
  if d =? 1 then x else Fdiv x (ofInt d).

Fixpoint sumParts (total : F) (parts : list (string * (list Z * Z))) : option F :=
  match parts with
  | [] => Some total
  | (n, (m, d)) :: parts =>
      match ParseFloat n with
      | Err _ => None
      | Ok x => if Fle x (ofInt 0) then None else sumParts (Fadd total (partSeconds x m d)) parts
      end
  end.

Definition positiveDuration (nanos : F) : option Z :=
  if Flt (ofInt MaxInt64) nanos then None
  else let d := to_int64 nanos in if d <=? 0 then None else Some d.

Definition parsePrometheusStyleDuration (value : string) : option Z :=
  match durationParts (S (String.length value)) value with
  | None | Some [] => None
  | Some parts =>
      match sumParts (ofInt 0) parts with
      | None => None
      | Some total =>
          let nanos := Fmul total (ofInt Second) in
          if Fle nanos (ofInt 0) then None else positiveDuration nanos
      end
  end.

Definition secondsDuration (value : string) : option Z :=
  match ParseFloat value with
  | Err _ => None
  | Ok seconds => if Fle seconds (ofInt 0) then None else positiveDuration (Fmul seconds (ofInt Second))
  end.

Definition parsePositiveStepDuration (step : string) : option Z :=
  let value := TrimSpace step in
  if String.eqb value "" then None
  else
    match ParseDuration value with
    | Some d =>
        if 0 <? d then Some d
        else match parsePrometheusStyleDuration value with Some d => Some d | None => secondsDuration value end
    | None => match parsePrometheusStyleDuration value with Some d => Some d | None => secondsDuration value end
    end.

Definition parseStepToNanos (step : string) : option Z :=
  match parsePositiveStepDuration step with
  | Some d => Some d
  | None =>
      match Atoi (TrimSpace step) with
      | Some n => if 0 <? n then Some n else None
      | None => None
      end
  end.

Definition parseStepSeconds (step : string) : option Z :=
  match parsePositiveStepDuration step with
  | Some d => if d <? Second then None else Some (Z.quot d Second)
  | None => None
  end.

Definition formatLogQLDuration (d : Z) : string :=
  if d <=? 0 then "1s"
  else if Z.rem d Hour =? 0 then Itoa (Z.quot d Hour) +:+ "h"
  else if Z.rem d Minute =? 0 then Itoa (Z.quot d Minute) +:+ "m"
  else if Z.rem d Second =? 0 then Itoa (Z.quot d Second) +:+ "s"
  else if Z.rem d Millisecond =? 0 then Itoa (Z.quot d Millisecond) +:+ "ms"
  else Format_f (Fadd (ofInt (Z.quot d Second)) (Fdiv (ofInt (Z.rem d Second)) (ofInt 1000000000))) +:+ "s".

(** ** Dashboard tokens *)

Definition grafanaRangeTokens : list string :=
  ["$__rate_interval_ms"; "$__interval_ms"; "$__range_ms"; "$__rate_interval"; "$__range_s"; "$__interval";
   "$__range"; "$__auto_interval_step"; "$__auto_interval"; "$__auto"].

Definition canonicalGrafanaRangeToken (token : string) : option string :=
  let normalized := ToLower (TrimSpace token) in
  if String.eqb normalized "" then None
  else
    let normalized :=
      if HasPrefix normalized "${" && HasSuffix normalized "}"
      then "$" +:+ TrimSuffix (TrimPrefix normalized "${") "}" else normalized in
    let normalized := if HasPrefix normalized "__" then "$" +:+ normalized else normalized in
    if existsb (String.eqb normalized) grafanaRangeTokens then Some normalized else None.

Definition rateTokens : list string := ["$__rate_interval"; "$__rate_interval_ms"].
Definition rangeTokens : list string := ["$__range"; "$__range_s"; "$__range_ms"].

Definition resolveGrafanaTemplateTokenDuration (token start end_ step : string) : option Z :=
  match canonicalGrafanaRangeToken token with
  | None => None
  | Some token =>
      let stepDur := default Minute (parsePositiveStepDuration step) in
      let rangeDur :=
        match parseFlexibleUnixNanos start, parseFlexibleUnixNanos end_ with
        | Some s, Some e => if s <? e then wrap64 (e - s) else stepDur
        | _, _ => stepDur
        end in
      let rangeDur := if rangeDur <=? 0 then stepDur else rangeDur in
      if existsb (String.eqb token) rateTokens then
        let rateInterval := wrap64 (stepDur * 4) in
        Some (if rateInterval <? Minute then Minute else rateInterval)
      else if existsb (String.eqb token) rangeTokens then Some rangeDur
      else Some stepDur
  end.

Definition substituteToken (start end_ step : string) (query token : string) : string :=
  match resolveGrafanaTemplateTokenDuration token start end_ step with
  | None => query
  | Some d =>
      let replacement := formatLogQLDuration d in
      let braced := "${" +:+ TrimPrefix token "$" +:+ "}" in
      replaceAll token replacement (replaceAll braced replacement query)
  end.

Definition resolveGrafanaRangeTemplateTokens (query start end_ step : string) : string :=
  if negb (Contains query "$__") && negb (Contains query "${__") then query
  else foldl (substituteToken start end_ step) query grafanaRangeTokens.

(** ** Buckets *)

Definition maxZeroFillBuckets : Z := 32768.
Definition maxPatternResponseLimit : Z := 1000.
Definition maxPatternBackendQueryLimit : Z := 20000.

Record requestedBucketRange : Type := mkBuckets {
  br_start : Z;
  br_end : Z;
  br_step : Z;
  br_count : Z
}.

Definition parseRequestedBucketRange (start end_ step : string) : option requestedBucketRange :=
  match parseFlexibleUnixSeconds start with
  | None => None
  | Some s =>
      match parseFlexibleUnixSeconds end_ with
      | None => None
      | Some e =>
          if e <? s then None
          else
            match parseStepSeconds step with
            | None => None
            | Some k =>
                if k <=? 0 then None
                else
                  let count := wrap64 (Z.quot (wrap64 (e - s)) k + 1) in
                  if (count <=? 0) || (maxZeroFillBuckets <? count) then None
                  else Some (mkBuckets s e k count)
            end
      end
  end.

Definition bucketFor (br : requestedBucketRange) (ts : Z) : option Z :=
  if (ts <? br_start br) || (br_end br <? ts) then None
  else
    let offset := wrap64 (ts - br_start br) in
    Some (wrap64 (br_start br + wrap64 (Z.quot offset (br_step br) * br_step br))).

Definition patternBackendQueryLimit (start end_ step : string) (patternLimit : Z) : Z :=
  let patternLimit := if patternLimit <=? 0 then 50 else patternLimit in
  let patternLimit := if maxPatternResponseLimit <? patternLimit then maxPatternResponseLimit else patternLimit in
  let factor :=
    match parseRequestedBucketRange start end_ step with
    | Some br =>
        let f := br_count br in
        let f := if f <? 20 then 20 else f in
        if 200 <? f then 200 else f
    | None => 20
    end in
  let limit := patternLimit * factor in
  let limit := if limit <? 1000 then 1000 else limit in
  if maxPatternBackendQueryLimit <? limit then maxPatternBackendQueryLimit else limit.

(** ** The evaluation grid *)

(** [url.Values]: every key with its list of values. *)
Notation Values := (gmap string (list string)).
Definition vget (key : string) (v : Values) : string := default "" (v !! key ≫= head).
Definition vset (key value : string) (v : Values) : Values := <[key := [value]]> v.

(** A parsed request: the merged form, the body form if there is one, the query of
    the URL. *)
Record formRequest : Type := mkForm {
  Form : Values;
  PostForm : option Values;
  URLQuery : Values
}.

Definition setForm (key value : string) (r : formRequest) : formRequest :=
  mkForm (vset key value (Form r))
    (match PostForm r with
     | Some f => Some (if String.eqb (vget key f) "" then f else vset key value f)
     | None => None
     end)
    (if String.eqb (vget key (URLQuery r)) "" then URLQuery r else vset key value (URLQuery r)).

(** The multiple of the step at or before an instant, [None] when it is one. *)
Definition alignedNs (stepNs ns : Z) : option Z :=
  let rem := Z.rem ns stepNs in
  let rem := if rem <? 0 then rem + stepNs else rem in
  if rem =? 0 then None else Some (wrap64 (ns - rem)).

Definition alignField (now stepNs : Z) (key : string) (r : formRequest) : formRequest :=
  match parseLokiTimeToUnixNano now (vget key (Form r)) with
  | None => r
  | Some ns =>
      match alignedNs stepNs ns with
      | Some v => setForm key (Itoa v) r
      | None => r
      end
  end.

Definition isMetricRangeExpr `{Unicode} `{Netip} (logqlQuery : string) : bool :=
  match Parser.Parse logqlQuery with
  | Parser.Done (Ast.LogQueryExpr _) _ => false
  | Parser.Done _ _ => true
  | _ => false
  end.

Definition alignRangeRequestToStepGrid `{Unicode} `{Netip} (now1 now2 : Z) (logqlQuery : string) (r : formRequest)
    : formRequest :=
  match parsePositiveStepDuration (vget "step" (Form r)) with
  | None => r
  | Some step =>
      if step <=? 0 then r
      else if negb (isMetricRangeExpr logqlQuery) then r
      else alignField now2 step "end" (alignField now1 step "start" r)
  end.

(** ** Theorems *)

Lemma abs64_abs v : MinInt64 < v ≤ MaxInt64 → abs64 v = Z.abs v.
Proof. intros Hv. unfold abs64. zcase; [|lia]. rewrite wrap64_id; unfold in_int64, MinInt64, MaxInt64 in *; lia. Qed.

(** The unit an integer instant is taken to be in. *)
Definition unitOf (v : Z) : Z :=
  if Z.abs v <? 10 ^ 11 then Second
  else if Z.abs v <? 10 ^ 14 then Millisecond
  else if Z.abs v <? 10 ^ 17 then 1000
  else 1.

(** An integer instant is read as seconds, milliseconds, microseconds or
    nanoseconds by its magnitude, and the result is exact precisely when the
    instant lies in the range of 64-bit nanoseconds (1677 to 2262). *)
Theorem int_time_exact v : MinInt64 < v ≤ MaxInt64 →
  normalizeLokiIntTimeToUnixNano v = v * unitOf v ↔ in_int64 (v * unitOf v).
Proof.
  intros Hv. unfold normalizeLokiIntTimeToUnixNano, unitOf. rewrite abs64_abs by done.
  change (10 ^ 11) with 100000000000. change (10 ^ 14) with 100000000000000. change (10 ^ 17) with 100000000000000000.
  assert (∀ u, wrap64 (v * u) = v * u ↔ in_int64 (v * u)) as Hu.
  { intros u. split; [intros <-; apply wrap64_range|apply wrap64_id]. }
  repeat zcase; [apply Hu..|]. rewrite Z.mul_1_r. split; [|done]. intros _. unfold in_int64. lia.
Qed.

Lemma aligned_spec step ns : 0 < step → in_int64 ns → MinInt64 + step ≤ ns →
  let a := default ns (alignedNs step ns) in (step | a) ∧ a ≤ ns < a + step ∧ in_int64 a.
Proof.
  intros Hs Hn Hlo. unfold alignedNs. cbv zeta.
  set (rem := if Z.rem ns step <? 0 then _ else _).
  assert (rem = ns mod step ∧ 0 ≤ rem < step) as [Hrem Hb].
  { pose proof (Z.quot_rem' ns step) as Hq. pose proof (Z.mod_pos_bound ns step Hs).
    assert (- step < Z.rem ns step < step) by (pose proof (Z.rem_bound_abs ns step); lia).
    unfold rem. zcase.
    - split; [|lia]. apply (Z.mod_unique_pos ns step (Z.quot ns step - 1)); lia.
    - split; [|lia]. apply (Z.mod_unique_pos ns step (Z.quot ns step)); lia. }
  clearbody rem. subst rem. pose proof (Z.mod_divide ns step ltac:(lia)) as Hd. destruct (Z.eqb_spec (ns mod step) 0) as [E|E]; cbn [default from_option id].
  - split; [by apply Hd|]. split; [lia|done].
  - rewrite wrap64_id by (unfold in_int64 in *; lia). split; [|unfold in_int64 in *; lia].
    exists (ns / step). pose proof (Z.div_mod ns step ltac:(lia)). lia.
Qed.

(** A bucket is on the grid of the requested range, at or before the instant
    and less than a step before it. *)
Theorem bucket_on_grid start end_ step br ts b : parseRequestedBucketRange start end_ step = Some br →
  in_int64 (br_end br - br_start br) → in_int64 (br_start br) → in_int64 (br_end br) → bucketFor br ts = Some b →
  br_start br ≤ b ≤ ts ∧ ts < b + br_step br ∧ (br_step br | b - br_start br) ∧
  (b - br_start br) / br_step br < br_count br.
Proof.
  unfold parseRequestedBucketRange, bucketFor. intros Hp Hi Hs He Hb.
  destruct (parseFlexibleUnixSeconds start) as [s|]; [|done]. destruct (parseFlexibleUnixSeconds end_) as [e|]; [|done].
  destruct (Z.ltb_spec e s) as [|Hse]; [done|]. destruct (parseStepSeconds step) as [k|]; [|done].
  destruct (Z.leb_spec k 0) as [|Hk]; [done|]. cbv zeta in Hp.
  destruct (_ || _) eqn:Hc in Hp; [done|]. apply orb_false_iff in Hc as [Hc _]. injection Hp as <-. cbn [br_start br_end br_step br_count] in *.
  destruct ((ts <? s) || (e <? ts)) eqn:Hts; [done|]. apply orb_false_iff in Hts as [Hlo%Z.ltb_ge Hhi%Z.ltb_ge].
  cbv zeta in Hb. injection Hb as <-. rewrite (wrap64_id (ts - s)) by (unfold in_int64, MinInt64, MaxInt64 in *; lia).
  rewrite (wrap64_id (e - s)) by done. rewrite !Z.quot_div_nonneg by lia.
  pose proof (Z.div_mod (ts - s) k ltac:(lia)). pose proof (Z.mod_pos_bound (ts - s) k Hk).
  assert (0 ≤ (ts - s) / k) by (apply Z.div_pos; lia).
  rewrite (wrap64_id ((ts - s) / k * k)), (wrap64_id (s + (ts - s) / k * k)) by (unfold in_int64, MinInt64, MaxInt64 in *; nia).
  assert ((ts - s) / k ≤ (e - s) / k) by (apply Z.div_le_mono; lia).
  assert (wrap64 ((e - s) / k + 1) = (e - s) / k + 1) as ->.
  { apply wrap64_id. assert ((e - s) / k ≤ e - s) by (apply Z.div_le_upper_bound; nia).
    destruct (Z.eq_dec ((e - s) / k) MaxInt64) as [E|]; [|unfold in_int64, MinInt64, MaxInt64 in *; nia].
    rewrite (wrap64_id (e - s)), Z.quot_div_nonneg, E in Hc by (done || lia). done. }
  split; [lia|]. split; [lia|]. split; [exists ((ts - s) / k); lia|].
  replace (s + (ts - s) / k * k - s) with ((ts - s) / k * k) by lia. rewrite Z.div_mul by lia. lia.
Qed.

(** The limit sent to the backend for a pattern query is between 1000 and
    20000 lines, whatever the request asks for. *)
Theorem pattern_limit_bounded start end_ step limit : 1000 ≤ patternBackendQueryLimit start end_ step limit ≤ 20000.
Proof. unfold patternBackendQueryLimit, maxPatternBackendQueryLimit. cbv zeta. repeat zcase; lia. Qed.

Lemma relativeTime_number now n : 0 ≤ n → relativeTime now (Itoa n) = None.
Proof.
  intros Hn. pose proof (Itoa_pos_starts n Hn) as Hs. unfold relativeTime.
  destruct (Itoa n) as [|c r]; [done|]. destruct (Ascii.eqb_spec c "n") as [->|Hc]; [done|].
  rewrite (proj2 (String.eqb_neq (String c r) "now")) by congruence. cbn [strip_prefix].
  by rewrite (proj2 (Ascii.eqb_neq "n" c)).
Qed.

Lemma parse_number `{!ClockLaws} now n : 0 ≤ n ≤ MaxInt64 →
  parseLokiTimeToUnixNano now (Itoa n) = Some (normalizeLokiIntTimeToUnixNano n).
Proof.
  intros Hn. unfold parseLokiTimeToUnixNano, parseRFC3339. rewrite TrimSpace_Itoa by lia.
  rewrite (proj2 (String.eqb_neq (Itoa n) "")) by (intros E; pose proof (Itoa_pos_starts n ltac:(lia)); by rewrite E in *).
  by rewrite !time_Parse_number, relativeTime_number, Atoi_Itoa by lia.
Qed.

Lemma vget_same key value v : vget key (vset key value v) = value.
Proof. unfold vget, vset. by rewrite lookup_insert_eq. Qed.

Lemma vget_other key key' value v : key ≠ key' → vget key' (vset key value v) = vget key' v.
Proof. intros Hk. unfold vget, vset. by rewrite lookup_insert_ne. Qed.

Lemma alignField_other now step key key' r : key ≠ key' →
  vget key' (Form (alignField now step key r)) = vget key' (Form r).
Proof.
  intros Hk. unfold alignField. destruct (parseLokiTimeToUnixNano _ _); [|done].
  destruct (alignedNs _ _); [|done]. by apply vget_other.
Qed.

Lemma alignField_same `{!ClockLaws} now now' step key r ns : 0 < step →
  parseLokiTimeToUnixNano now (vget key (Form r)) = Some ns → 10 ^ 17 + step ≤ ns ≤ MaxInt64 →
  (∀ n m, parseLokiTimeToUnixNano n (vget key (Form r)) = parseLokiTimeToUnixNano m (vget key (Form r))) →
  ∃ a, parseLokiTimeToUnixNano now' (vget key (Form (alignField now step key r))) = Some a ∧
    (step | a) ∧ a ≤ ns < a + step.
Proof.
  intros Hs Hp Hr Habs. change (10 ^ 17) with 100000000000000000 in Hr. unfold alignField. rewrite Hp.
  destruct (aligned_spec step ns Hs) as (Hd & Hle & Hi);
    [unfold in_int64, MinInt64 in *; lia|unfold MinInt64; lia|].
  destruct (alignedNs step ns) as [a|] eqn:Ha; cbn [default from_option id] in *.
  - exists a. cbn [setForm Form]. rewrite vget_same, parse_number by (unfold MaxInt64 in *; lia). split; [|done].
    unfold normalizeLokiIntTimeToUnixNano. rewrite abs64_abs by (unfold MinInt64, MaxInt64 in *; lia).
    rewrite Z.abs_eq by lia. repeat zcase; done || lia.
  - exists ns. rewrite (Habs now' now). done.
Qed.

(** A metric range request with absolute bounds after 1973 is moved onto the
    step grid: both bounds read back as multiples of the step, less than a step
    before the requested ones. *)
Theorem request_moved_to_grid `{Unicode} `{Netip} `{!ClockLaws} now q r step s e : 0 < step →
  isMetricRangeExpr q = true → parsePositiveStepDuration (vget "step" (Form r)) = Some step →
  (∀ n, parseLokiTimeToUnixNano n (vget "start" (Form r)) = Some s) →
  (∀ n, parseLokiTimeToUnixNano n (vget "end" (Form r)) = Some e) →
  10 ^ 17 + step ≤ s ≤ MaxInt64 → 10 ^ 17 + step ≤ e ≤ MaxInt64 →
  let r' := alignRangeRequestToStepGrid now now q r in
  ∃ s' e', parseLokiTimeRangeToUnixNano now now (vget "start" (Form r')) (vget "end" (Form r')) =
      (if e' <? s' then None else Some (s', e')) ∧
    (step | s') ∧ s' ≤ s < s' + step ∧ (step | e') ∧ e' ≤ e < e' + step.
Proof.
  intros Hs Hq Hstep Hps Hpe Hrs Hre. unfold alignRangeRequestToStepGrid. rewrite Hstep, Hq.
  rewrite (proj2 (Z.leb_gt step 0)) by done. cbn [negb].
  destruct (alignField_same now now step "start" r s Hs (Hps now) Hrs) as (s' & Hs' & Hs1 & Hs2);
    [intros; by rewrite !Hps|].
  destruct (alignField_same now now step "end" (alignField now step "start" r) e Hs) as (e' & He' & He1 & He2);
    [rewrite alignField_other by done; apply Hpe|done|rewrite alignField_other by done; intros; by rewrite !Hpe|].
  exists s', e'. unfold parseLokiTimeRangeToUnixNano. rewrite (alignField_other now step "end" "start") by done.
  by rewrite Hs', He'.
Qed.

End Parsers.
End Times.

(** ** Instances: integers for floats, no calendar *)

Module TimesDemo.
Import Text Times Filter.FilterDemo.
#[local] Existing Instances ascii_tables ascii_laws integers integer_order.

#[local] Instance plain_clock : Clock := {|
  time_Parse _ _ := None;
  ParseDuration _ := None;
  Fadd := Z.add;
  Fdiv := Z.quot;
  Fabs := Z.abs;
  to_int64 := wrap64;
  Format_f := Itoa
|}.

#[local] Instance plain_clock_laws : ClockLaws.
Proof. by split. Qed.

#[local] Instance no_addresses : Netip := {|
  Addr := unit;
  ParseAddr _ := None;
  ParsePrefixOk _ := false;
  BitLen _ := 0;
  CompareNoZone _ _ := 0
|}.

Definition request (start end_ step : string) : formRequest :=
  mkForm {[ "start" := [start]; "end" := [end_]; "step" := [step] ]} None ∅.

Lemma int_time_exact_witness :
  normalizeLokiIntTimeToUnixNano 1700000000 = 1700000000 * unitOf 1700000000 ↔
  in_int64 (1700000000 * unitOf 1700000000).
Proof. refine (int_time_exact 1700000000 _). vm_compute. split; congruence. Defined.

Lemma bucket_on_grid_witness :
  1700000000 ≤ 1700000060 ≤ 1700000099 ∧ 1700000099 < 1700000060 + 60 ∧ (60 | 1700000060 - 1700000000) ∧
  (1700000060 - 1700000000) / 60 < 11.
Proof.
  refine (bucket_on_grid "1700000000" "1700000600" "60" (mkBuckets 1700000000 1700000600 60 11) 1700000099 1700000060
    _ _ _ _ _); vm_compute; try reflexivity; split; congruence.
Defined.

Lemma request_moved_to_grid_witness :
  let r' := alignRangeRequestToStepGrid 0 0 "1" (request "1700000001" "1700003601" "60") in
  ∃ s' e', parseLokiTimeRangeToUnixNano 0 0 (vget "start" (Form r')) (vget "end" (Form r')) =
      (if e' <? s' then None else Some (s', e')) ∧
    (60000000000 | s') ∧ s' ≤ 1700000001000000000 < s' + 60000000000 ∧
    (60000000000 | e') ∧ e' ≤ 1700003601000000000 < e' + 60000000000.
Proof.
  refine (request_moved_to_grid 0 "1" (request "1700000001" "1700003601" "60") 60000000000 1700000001000000000
    1700003601000000000 _ _ _ _ _ _ _); try (intros n); vm_compute; try reflexivity; split; congruence.
Defined.

(** The new bound is written in nanoseconds and its unit is guessed again: an
    instant before March 1973 comes back as another one. *)
Lemma near_epoch_bound_misread :
  vget "start" (Form (alignRangeRequestToStepGrid 0 0 "1" (request "61" "600" "60"))) = "60000000000" ∧
  parseLokiTimeToUnixNano 0 "61" = Some 61000000000 ∧
  parseLokiTimeToUnixNano 0 "60000000000" = Some (wrap64 (60000000000 * Second)).
Proof. vm_compute. split_and!; reflexivity. Qed.

(** Only the [step] spelling of the named interval variables is resolved. *)
Lemma named_interval_unresolved :
  resolveGrafanaRangeTemplateTokens "rate(x[${__auto_interval_step}])" "0" "60" "30" = "rate(x[30s])" ∧
  resolveGrafanaRangeTemplateTokens "rate(x[${__auto_interval_res}])" "0" "60" "30" = "rate(x[${__auto_interval_res}])".
Proof. vm_compute. split; reflexivity. Qed.

End TimesDemo.
