(* ===== verification/Windowing.v ===== *)
(** * Splitting a range query into windows
      (src/internal/proxy/query_range_windowing.go)

    A log query over a long range is cut into windows that are fetched in batches,
    cached one by one and put together until the limit is reached.  [Win.tiles] is
    what the cut promises; [Win.collect], [Win.retryLoop] and [Win.runWindows] are the
    loop of the handler over a state that every batch changes;
    [Win.fetchQueryRangeWindow] is one fetch with the cache and the circuit breaker of
    [CircuitBreaker.v], [Win.fetchQueryRangeWindowBatch] a batch of them, one after the
    other in any order, and [Win.proxyLogQueryWindowed] the handler from the prefilter to
    the collected rows.  What a batch meets (clocks, backend, the order of its goroutines,
    the end of the context) is an argument, [Win.batchEnv]. *)

From S2P Require Import Prelude GoText Utf8 CircuitBreaker Backend LogqlAst LogqlFilter TimeUtils.

#[local] Open Scope Z_scope.

Module Win.
Import Text.

(** ** Windows *)

Definition maxQueryRangeWindows : Z := 4096.

Record window : Type := mkWindow {
  startNs : Z;
  endNs : Z
}.

Definition wlen (ws : list window) : Z := Z.of_nat (length ws).

(** [windows[len(windows)-1].endNs = e]. *)
Fixpoint extendLast (e : Z) (ws : list window) : list window :=
  match ws with
  | [] => []
  | [w] => [mkWindow (startNs w) e]
  | w :: ws => w :: extendLast e ws
  end.

(** The loop; every round but the last appends a window, so the cap bounds the
    rounds. *)
Fixpoint splitLoop (fuel : nat) (step e cursor : Z) (ws : list window) : list window :=
  match fuel with
  | O => ws
  | S fuel =>
      if (cursor <=? e) && (wlen ws <? maxQueryRangeWindows) then
        if (cursor =? e) && (0 <? wlen ws) then extendLast e ws
        else
          let windowEnd := wrap64 (cursor + step - 1) in
          let windowEnd := if (windowEnd <? cursor) || (e <? windowEnd) then e else windowEnd in
          let ws := ws ++ [mkWindow cursor windowEnd] in
          if windowEnd =? MaxInt64 then ws else splitLoop fuel step e (windowEnd + 1) ws
      else ws
  end.

Definition splitFuel : nat := S (Z.to_nat maxQueryRangeWindows).

Definition orient (direction : string) (ws : list window) : list window :=
  if String.eqb direction "forward" then ws else reverse ws.

(** The short first window that brings the cursor onto the grid. *)
Definition firstWindow (step s e : Z) : option window :=
  let rem := Z.rem s step in
  if rem =? 0 then None
  else
    let rem := if rem <? 0 then rem + step else rem in
    let firstEnd := wrap64 (s + (step - rem) - 1) in
    if s <=? firstEnd then Some (mkWindow s (if e <? firstEnd then e else firstEnd)) else None.

(** The capacity of [make]; a negative one panics. *)
Definition capacity (s e step : Z) : Z :=
  Z.min (wrap64 (Z.quot (wrap64 (e - s)) step + 1)) maxQueryRangeWindows.

(** [Err] is the panic. *)
Definition splitQueryRangeWindowsWithOptions (s e interval : Z) (direction : string) (align : bool)
    : result (list window) :=
  if (interval <=? 0) || (e <? s) then Ok []
  else if capacity s e interval <? 0 then Err "makeslice: cap out of range"
  else
    match (if align then firstWindow interval s e else None) with
    | Some w =>
        if endNs w =? e then Ok (orient direction [w])
        else Ok (orient direction (splitLoop splitFuel interval e (endNs w + 1) [w]))
    | None => Ok (orient direction (splitLoop splitFuel interval e s []))
    end.

Definition splitQueryRangeWindows (s e interval : Z) (direction : string) : result (list window) :=
  splitQueryRangeWindowsWithOptions s e interval direction false.

(** ** What the windows promise *)

(** [ws] covers [s] to [e] without gap or overlap, oldest first. *)
Inductive tiles : Z → Z → list window → Prop :=
| tiles_one s e : s ≤ e → tiles s e [mkWindow s e]
| tiles_cons s m e ws : s ≤ m → tiles (m + 1) e ws → tiles s e (mkWindow s m :: ws).

Lemma tiles_nonempty s e ws : tiles s e ws → ws ≠ [].
Proof. by destruct 1. Qed.

Lemma tiles_le s e ws : tiles s e ws → s ≤ e.
Proof. induction 1; lia. Qed.

Lemma tiles_snoc s m e ws : tiles s m ws → m + 1 ≤ e → tiles s e (ws ++ [mkWindow (m + 1) e]).
Proof.
  induction 1 as [s m Hs|s m m' ws Hs Hw IH]; intros He; cbn [app].
  - apply tiles_cons; [done|]. by apply tiles_one.
  - apply tiles_cons; [done|]. by apply IH.
Qed.

Lemma tiles_extend s m e ws : tiles s m ws → m ≤ e → tiles s e (extendLast e ws).
Proof.
  induction 1 as [s m Hs|s m m' ws Hs Hw IH]; intros He.
  - apply tiles_one. lia.
  - specialize (IH He). pose proof (tiles_nonempty _ _ _ Hw) as Hne. cbn [extendLast]. destruct ws; [done|].
    by apply tiles_cons.
Qed.

Lemma wlen_extend e ws : wlen (extendLast e ws) = wlen ws.
Proof.
  unfold wlen. f_equal. induction ws as [|w ws IH]; [done|]. cbn [extendLast]. destruct ws; [done|]. cbn [length] in *. lia.
Qed.

(** Every instant of the range is in exactly one window. *)
Lemma tiles_cover s e ws t : tiles s e ws → s ≤ t ≤ e →
  ∃ l w r, ws = l ++ w :: r ∧ startNs w ≤ t ≤ endNs w ∧ Forall (λ w, endNs w < t) l ∧ Forall (λ w, t < startNs w) r.
Proof.
  intros Ht. revert t. induction Ht as [s e Hs|s m e ws Hs Hw IH]; intros t Hts.
  - exists [], (mkWindow s e), []. split_and!; [done|cbn; lia..|constructor|constructor].
  - destruct (Z.le_gt_cases t m) as [Hm|Hm].
    + exists [], (mkWindow s m), ws. split_and!; [done|cbn; lia..|constructor|]. clear IH.
      assert (Forall (λ w, m + 1 ≤ startNs w) ws) as Hall.
      { clear Hs Hts Hm. remember (m + 1) as b eqn:Eb. clear Eb. assert (∀ c, c ≤ b → Forall (λ w, c ≤ startNs w) ws) as Hg; [|by apply Hg].
        induction Hw as [b e Hb|b m' e ws Hb Hw IH]; intros c Hc; constructor; cbn; [lia|constructor|lia|]. apply IH. lia. }
      eapply Forall_impl; [exact Hall|]. intros w Hw'. cbn in Hw'. lia.
    + destruct (IH t) as (l & w & r & -> & Hw1 & Hl & Hr); [lia|].
      exists (mkWindow s m :: l), w, r. split_and!; [done|lia..|constructor; [cbn; lia|done]|done].
Qed.

(** The loop from a tiled prefix: [ws] is empty, or it tiles up to the cursor. *)
Definition prefix_ok (s cursor : Z) (ws : list window) : Prop :=
  (ws = [] ∧ s = cursor) ∨ tiles s (cursor - 1) ws.

Lemma wrap64_over z : MaxInt64 < z ≤ 2 ^ 64 + MaxInt64 → wrap64 z = z - 2 ^ 64.
Proof.
  intros Hz. unfold wrap64, MinInt64, MaxInt64 in *.
  rewrite <- (Z.mod_unique_pos (z - -9223372036854775808) (2 ^ 64) 1 (z - -9223372036854775808 - 2 ^ 64)); lia.
Qed.

(** Where a round's window ends: a step later, or at the end of the range. *)
Lemma window_end_spec step e cursor : 0 < step → in_int64 cursor → in_int64 e → in_int64 step → cursor ≤ e →
  let we := if (wrap64 (cursor + step - 1) <? cursor) || (e <? wrap64 (cursor + step - 1)) then e
            else wrap64 (cursor + step - 1) in
  cursor ≤ we ≤ e ∧ we ≤ cursor + step - 1 ∧ (we = e ∨ we = cursor + step - 1 ∧ cursor + step - 1 ≤ MaxInt64).
Proof.
  intros Hstep Hc He Hs Hle. cbv zeta.
  assert (in_int64 (cursor + step - 1) ∨ MaxInt64 < cursor + step - 1) as [Hn|Ho] by (unfold in_int64 in *; lia).
  - rewrite wrap64_id by done. unfold in_int64 in Hn.
    destruct (Z.ltb_spec (cursor + step - 1) cursor); cbn [orb]; [lia|]. destruct (Z.ltb_spec e (cursor + step - 1)); lia.
  - rewrite wrap64_over by (unfold in_int64, MinInt64, MaxInt64 in *; lia).
    rewrite (proj2 (Z.ltb_lt _ _)) by (unfold in_int64, MaxInt64 in *; lia). cbn [orb]. unfold in_int64 in *. lia.
Qed.

Lemma splitLoop_spec step e s fuel cursor ws :
  0 < step → in_int64 cursor → in_int64 e → in_int64 step → cursor ≤ e + 1 → (ws = [] → cursor ≤ e) →
  prefix_ok s cursor ws → cursor - s ≤ wlen ws * step → wlen ws ≤ maxQueryRangeWindows →
  (Z.to_nat (maxQueryRangeWindows - wlen ws) < fuel)%nat →
  ∃ m, tiles s m (splitLoop fuel step e cursor ws) ∧ m ≤ e ∧
    wlen (splitLoop fuel step e cursor ws) ≤ maxQueryRangeWindows ∧
    (wlen (splitLoop fuel step e cursor ws) < maxQueryRangeWindows → m = e) ∧
    m - s ≤ wlen (splitLoop fuel step e cursor ws) * step.
Proof.
  intros Hstep Hc He Hs. revert cursor ws Hc. induction fuel as [|fuel IH]; intros cursor ws Hc Hce Hne Hp Hb Hl Hf; [lia|].
  cbn [splitLoop]. destruct (Z.leb_spec cursor e) as [Hle|Hgt]; cbn [andb].
  2:{ destruct Hp as [[-> _]|Ht]; [specialize (Hne eq_refl); lia|]. exists (cursor - 1).
      split_and!; [done|lia|done|lia|lia]. }
  destruct (Z.ltb_spec (wlen ws) maxQueryRangeWindows) as [Hlt|Hge].
  2:{ destruct Hp as [[-> _]|Ht]; [done|]. exists (cursor - 1). split_and!; [done|lia|lia|lia|lia]. }
  destruct ((cursor =? e) && (0 <? wlen ws)) eqn:Hlast.
  - apply andb_true_iff in Hlast as [->%Z.eqb_eq Hpos%Z.ltb_lt]. destruct Hp as [[-> _]|Ht]; [done|].
    exists e. rewrite wlen_extend. split_and!; [eapply tiles_extend; [done|lia]|lia|lia|done|lia].
  - set (we := if _ || _ then e else _). assert (cursor ≤ we ≤ e ∧ we ≤ cursor + step - 1) as [Hwe Hws].
    { destruct (window_end_spec step e cursor Hstep Hc He Hs Hle) as (Ha & Hb' & _). exact (conj Ha Hb'). }
    clearbody we. cbv zeta. assert (prefix_ok s (we + 1) (ws ++ [mkWindow cursor we])) as Hp'.
    { right. replace (we + 1 - 1) with we by lia. destruct Hp as [[-> ->]|Ht]; [apply tiles_one; lia|].
      replace cursor with (cursor - 1 + 1) by lia. apply tiles_snoc; [done|lia]. }
    assert (wlen (ws ++ [mkWindow cursor we]) = wlen ws + 1) as Hl' by (unfold wlen; rewrite length_app; cbn; lia).
    destruct (Z.eqb_spec we MaxInt64) as [E|E].
    + exists e. assert (we = e) as -> by (unfold in_int64 in *; lia). destruct Hp' as [[? _]|Ht]; [by destruct ws|].
      replace (e + 1 - 1) with e in Ht by lia. split_and!; [done|lia|lia|done|lia].
    + apply IH; [unfold in_int64 in *; lia|lia|by destruct ws|done|lia|lia|lia].
Qed.

Lemma tiles_prefix s cursor w : startNs w = s → s ≤ endNs w → cursor = endNs w + 1 → prefix_ok s cursor [w].
Proof. destruct w as [a b]. cbn. intros -> Hle ->. right. replace (b + 1 - 1) with b by lia. by apply tiles_one. Qed.

Lemma rem_adjust s step : 0 < step →
  (if Z.rem s step <? 0 then Z.rem s step + step else Z.rem s step) = s mod step.
Proof.
  intros Hs. pose proof (Z.quot_rem' s step). assert (- step < Z.rem s step < step) by (pose proof (Z.rem_bound_abs s step); lia).
  zcase; [apply (Z.mod_unique_pos s step (Z.quot s step - 1))|apply (Z.mod_unique_pos s step (Z.quot s step))]; lia.
Qed.

Lemma firstWindow_spec step s e w : 0 < step → in_int64 s → in_int64 step → s ≤ e → firstWindow step s e = Some w →
  startNs w = s ∧ s ≤ endNs w ≤ e ∧ endNs w < s + step.
Proof.
  intros Hstep Hs Hsi Hse. unfold firstWindow. cbv zeta. destruct (_ =? _); [done|]. rewrite rem_adjust by done.
  pose proof (Z.mod_pos_bound s step Hstep). set (fe := wrap64 _).
  assert (fe ≤ s + step - 1 ∨ fe < s) as Hfe.
  { unfold fe. destruct (Z.le_gt_cases (s + (step - s mod step) - 1) MaxInt64).
    - rewrite wrap64_id by (unfold in_int64 in *; lia). lia.
    - rewrite wrap64_over by (unfold in_int64, MinInt64, MaxInt64 in *; lia). unfold in_int64, MaxInt64 in *. lia. }
  clearbody fe. destruct (Z.leb_spec s fe); [|done]. intros [= <-]. cbn. destruct (Z.ltb_spec e fe); lia.
Qed.

Lemma capacity_nonneg s e step : 0 < step → s ≤ e → e - s < MaxInt64 → 0 ≤ capacity s e step.
Proof.
  intros Hstep Hse Hd. unfold capacity, MaxInt64 in *. rewrite (wrap64_id (e - s)) by (unfold in_int64, MinInt64, MaxInt64; lia).
  rewrite Z.quot_div_nonneg by lia.
  assert (0 ≤ (e - s) / step ≤ e - s) by (split; [apply Z.div_pos|apply Z.div_le_upper_bound]; nia).
  rewrite wrap64_id by (unfold in_int64, MinInt64, MaxInt64 in *; lia). unfold maxQueryRangeWindows. lia.
Qed.

(** The result of the split, before it is turned round. *)
Lemma split_spec s e interval direction align :
  in_int64 s → in_int64 e → s ≤ e → 0 < interval ≤ MaxInt64 → e - s < MaxInt64 →
  ∃ ws m, splitQueryRangeWindowsWithOptions s e interval direction align = Ok (orient direction ws) ∧
    tiles s m ws ∧ m ≤ e ∧ wlen ws ≤ maxQueryRangeWindows ∧ (wlen ws < maxQueryRangeWindows → m = e) ∧
    m - s ≤ wlen ws * interval.
Proof.
  intros Hs He Hse Hi Hd. unfold splitQueryRangeWindowsWithOptions.
  rewrite (proj2 (Z.leb_gt interval 0)), (proj2 (Z.ltb_ge e s)) by lia. cbn [orb].
  rewrite (proj2 (Z.ltb_ge (capacity s e interval) 0)) by (apply capacity_nonneg; lia).
  assert (in_int64 interval) as Hii by (unfold in_int64, MinInt64; lia).
  destruct (if align then firstWindow interval s e else None) as [w|] eqn:Hw.
  - destruct align; [|done]. destruct (firstWindow_spec interval s e w) as (Hws & Hwe & Hlen); [lia|done..|].
    pose proof (tiles_prefix s (endNs w + 1) w Hws ltac:(lia) eq_refl) as Hp.
    destruct (Z.eqb_spec (endNs w) e) as [E|E].
    + exists [w], e. destruct w as [a b]. cbn in *. subst. split_and!; [done|apply tiles_one; lia|lia|vm_compute; congruence|done|].
      change (wlen [mkWindow s e]) with 1. lia.
    + destruct (splitLoop_spec interval e s splitFuel (endNs w + 1) [w]) as (m & Hm);
        [lia|unfold in_int64 in *; lia|done|done|lia|done|done|change (wlen [w]) with 1; lia|vm_compute; congruence|vm_compute; lia|].
      exists (splitLoop splitFuel interval e (endNs w + 1) [w]), m. split; [done|exact Hm].
  - destruct (splitLoop_spec interval e s splitFuel s []) as (m & Hm);
      [lia|done|done|done|lia|done|by left|change (wlen []) with 0; lia|vm_compute; congruence|unfold splitFuel; vm_compute; lia|].
    exists (splitLoop splitFuel interval e s []), m. split; [done|exact Hm].
Qed.

(** The windows of a range cover it without gap or overlap, in the order of
    the direction, unless there are 4096 of them; there are never more. *)
Theorem windows_tile_range s e interval direction align :
  in_int64 s → in_int64 e → s ≤ e → 0 < interval ≤ MaxInt64 → e - s < MaxInt64 →
  ∃ ws m, splitQueryRangeWindowsWithOptions s e interval direction align = Ok (orient direction ws) ∧
    tiles s m ws ∧ m ≤ e ∧ wlen ws ≤ maxQueryRangeWindows ∧ (wlen ws < maxQueryRangeWindows → m = e).
Proof.
  intros Hs He Hse Hi Hd. destruct (split_spec s e interval direction align) as (ws & m & Heq & H1 & H2 & H3 & H4 & _);
    [done..|]. by exists ws, m.
Qed.

(** A range longer than 4096 intervals loses its newest end, whatever the
    direction of the query. *)
Theorem window_cap_drops_newest s e interval direction align :
  in_int64 s → in_int64 e → 0 < interval ≤ MaxInt64 → maxQueryRangeWindows * interval < e - s < MaxInt64 →
  ∃ ws m, splitQueryRangeWindowsWithOptions s e interval direction align = Ok (orient direction ws) ∧
    tiles s m ws ∧ m < e.
Proof.
  intros Hs He Hi Hd. destruct (split_spec s e interval direction align) as (ws & m & Heq & H1 & H2 & H3 & H4 & H5);
    [done|done|unfold maxQueryRangeWindows in *; lia|done|lia|].
  exists ws, m. split; [done|]. split; [done|]. nia.
Qed.

(** Bounds so far apart that their distance does not fit into 64 bits make the
    split panic. *)
Theorem range_overflow_panics s e interval direction align :
  in_int64 s → in_int64 e → 0 < interval ≤ MaxInt64 → MaxInt64 < e - s ≤ 2 ^ 64 - 2 * interval →
  splitQueryRangeWindowsWithOptions s e interval direction align = Err "makeslice: cap out of range".
Proof.
  intros Hs He Hi Hd. unfold splitQueryRangeWindowsWithOptions.
  rewrite (proj2 (Z.leb_gt interval 0)), (proj2 (Z.ltb_ge e s)) by (unfold MaxInt64 in *; lia). cbn [orb].
  assert (capacity s e interval < 0) as Hc; [|by rewrite (proj2 (Z.ltb_lt _ _) Hc)].
  unfold capacity. rewrite (wrap64_over (e - s)) by (unfold MaxInt64 in *; lia).
  assert (Z.quot (e - s - 2 ^ 64) interval ≤ -2) as Hq.
  { replace (e - s - 2 ^ 64) with (- (2 ^ 64 - (e - s))) by lia. rewrite Z.quot_opp_l, Z.quot_div_nonneg by lia.
    assert (2 ≤ (2 ^ 64 - (e - s)) / interval) by (apply Z.div_le_lower_bound; lia). lia. }
  assert (MinInt64 ≤ Z.quot (e - s - 2 ^ 64) interval) as Hq'.
  { replace (e - s - 2 ^ 64) with (- (2 ^ 64 - (e - s))) by lia. rewrite Z.quot_opp_l, Z.quot_div_nonneg by lia.
    assert ((2 ^ 64 - (e - s)) / interval ≤ 2 ^ 64 - (e - s)) by (apply Z.div_le_upper_bound; nia).
    unfold MinInt64, MaxInt64 in *. lia. }
  rewrite wrap64_id by (unfold in_int64, MinInt64, MaxInt64 in *; lia). unfold maxQueryRangeWindows. lia.
Qed.

(** What holds of every window the loop starts, and survives the extension of the
    last one, holds of every window. *)
Lemma extendLast_Forall (P Q : window → Prop) e ws : (∀ w, P w → Q w) → (∀ w, P w → Q (mkWindow (startNs w) e)) →
  Forall P ws → Forall Q (extendLast e ws).
Proof.
  intros Hpq Hx. induction 1 as [|w ws Hw Hws IH]; [constructor|]. cbn [extendLast]. destruct ws as [|v ws].
  - constructor; [by apply Hx|constructor].
  - constructor; [by apply Hpq|exact IH].
Qed.

Definition grid (step s : Z) (w : window) : Prop := startNs w = s ∨ (step | startNs w).

Lemma splitLoop_grid step e s fuel cursor ws : 0 < step → in_int64 cursor → in_int64 step → in_int64 e →
  (e < cursor ∨ (step | cursor) ∨ (cursor = s ∧ MaxInt64 < s + step - 1)) →
  Forall (grid step s) ws → Forall (grid step s) (splitLoop fuel step e cursor ws).
Proof.
  intros Hstep Hc Hsi He. revert cursor ws Hc. induction fuel as [|fuel IH]; intros cursor ws Hc Hcur Hws; [done|].
  cbn [splitLoop]. destruct (Z.leb_spec cursor e) as [Hle|Hgt]; cbn [andb]; [|done].
  destruct (wlen ws <? maxQueryRangeWindows); [|done]. destruct ((cursor =? e) && (0 <? wlen ws)).
  { eapply extendLast_Forall; [| |exact Hws]; [done|]. intros w [Hw|Hw]; [by left|by right]. }
  cbv zeta. set (we := if _ || _ then e else _).
  assert (Forall (grid step s) (ws ++ [mkWindow cursor we])) as Hws'.
  { apply Forall_app. split; [done|]. constructor; [|constructor]. destruct Hcur as [?|[Hd|[-> _]]]; [lia|by right|by left]. }
  destruct (Z.eqb_spec we MaxInt64) as [E|E]; [done|].
  assert (cursor ≤ we ≤ e ∧ (we = e ∨ we = cursor + step - 1 ∧ cursor + step - 1 ≤ MaxInt64)) as [Hwe Hcase].
  { destruct (window_end_spec step e cursor Hstep Hc He Hsi Hle) as (Ha & _ & Hb'). exact (conj Ha Hb'). }
  clearbody we. apply IH; [unfold in_int64 in *; lia| |done].
  destruct Hcase as [->|[-> Hmax]]; [left; lia|]. replace (cursor + step - 1 + 1) with (cursor + step) by lia.
  destruct Hcur as [?|[Hd|[-> Hov]]]; [lia| |lia]. right. left. by apply Z.divide_add_r.
Qed.

Lemma rem_zero s step : 0 < step → Z.rem s step = 0 → (step | s).
Proof. intros Hs Hr. exists (Z.quot s step). pose proof (Z.quot_rem' s step). lia. Qed.

Lemma firstWindow_next step s e w : 0 < step → in_int64 s → in_int64 step → firstWindow step s e = Some w → endNs w ≠ e → (step | endNs w + 1).
Proof.
  intros Hstep Hs Hsi. unfold firstWindow. cbv zeta. destruct (Z.eqb_spec (Z.rem s step) 0) as [|Hr]; [done|].
  rewrite rem_adjust by done. destruct (Z.leb_spec s (wrap64 (s + (step - s mod step) - 1))) as [Hle|]; [|done].
  intros [= <-]. cbn. destruct (Z.ltb_spec e (wrap64 (s + (step - s mod step) - 1))); [done|]. intros _.
  assert (in_int64 (s + (step - s mod step) - 1)) as Hin.
  { pose proof (Z.mod_pos_bound s step Hstep). unfold in_int64 in *. split; [lia|]. apply Z.nlt_ge. intros Ho. revert Hle.
    rewrite wrap64_over by (unfold MinInt64, MaxInt64 in *; lia). unfold MaxInt64 in *. lia. }
  rewrite wrap64_id by done. exists (s / step + 1). pose proof (Z.div_mod s step ltac:(lia)). lia.
Qed.

Lemma firstWindow_none step s e : 0 < step → in_int64 s → in_int64 step → firstWindow step s e = None →
  (step | s) ∨ (s = s ∧ MaxInt64 < s + step - 1).
Proof.
  intros Hstep Hs Hsi. unfold firstWindow. cbv zeta. destruct (Z.eqb_spec (Z.rem s step) 0) as [Hr|Hr]; [left; by apply rem_zero|].
  rewrite rem_adjust by done. destruct (Z.leb_spec s (wrap64 (s + (step - s mod step) - 1))) as [|Hgt]; [done|]. intros _. right. split; [done|].
  pose proof (Z.mod_pos_bound s step Hstep). apply Z.nle_gt. intros Hn.
  rewrite wrap64_id in Hgt by (unfold in_int64 in *; lia). lia.
Qed.

(** With alignment every window but the first starts on a multiple of the
    interval, so overlapping requests share their windows. *)
Theorem windows_aligned s e interval direction ws :
  in_int64 s → in_int64 e → s ≤ e → 0 < interval ≤ MaxInt64 →
  splitQueryRangeWindowsWithOptions s e interval direction true = Ok ws →
  ∀ w, w ∈ ws → startNs w = s ∨ (interval | startNs w).
Proof.
  intros Hs He Hse Hi. unfold splitQueryRangeWindowsWithOptions.
  rewrite (proj2 (Z.leb_gt interval 0)), (proj2 (Z.ltb_ge e s)) by lia. cbn [orb].
  destruct (_ <? 0); [done|]. assert (in_int64 interval) as Hii by (unfold in_int64, MinInt64; lia).
  assert (∀ l, Forall (grid interval s) l → Ok (orient direction l) = Ok ws → ∀ w, w ∈ ws → startNs w = s ∨ (interval | startNs w)) as Hfin.
  { intros l Hl [= <-] w Hw. unfold orient in Hw. rewrite Forall_forall in Hl. apply Hl.
    destruct (String.eqb _ _); [done|]. by apply elem_of_reverse. }
  destruct (firstWindow interval s e) as [w|] eqn:Hw.
  - destruct (firstWindow_spec interval s e w) as (Hws & Hwe & Hlen); [lia|done..|].
    assert (Forall (grid interval s) [w]) as Hg by (constructor; [by left|constructor]).
    destruct (Z.eqb_spec (endNs w) e) as [E|E]; [by apply Hfin|]. apply Hfin.
    apply splitLoop_grid; [lia|unfold in_int64 in *; lia|done|done| |done]. right. left.
    apply (firstWindow_next interval s e); [lia|done..].
  - apply Hfin. apply splitLoop_grid; [lia|done|done|done| |constructor]. right.
    apply firstWindow_none in Hw; [|lia|done..]. destruct Hw as [Hd|Ho]; [by left|by right].
Qed.

(** ** Retries *)

Definition queryRangeWindowFetchAttempts : Z := 5.
Definition queryRangeBatchRetryAttempts : Z := 3.
Definition queryRangeRetryMinBackoff : Z := 100 * Millisecond.
Definition queryRangeRetryMaxBackoff : Z := 5 * Second.

Definition retryStatuses : list Z := [429; 500; 502; 503; 504].

Definition retryTexts : list string :=
  ["backend unavailable"; "all the 1 backends"; "connection refused"; "connection reset"; "timeout";
   "temporarily unavailable"].

Definition shouldRetryQueryRangeWindow (err : option Backend.goerr) : bool :=
  match err with
  | None => false
  | Some e =>
      if Backend.isCanceledErr err then false
      else if Backend.is_deadline e then true
      else if Backend.net_timeout e then true
      else if match Backend.as_status e with
              | Some (code, _) => existsb (Z.eqb code) retryStatuses
              | None => false
              end then true
      else
        let lower := ToLower (Backend.text e) in
        if Contains lower "circuit breaker" then false
        else existsb (Contains lower) retryTexts
  end.

Definition queryRangeWindowRetryBackoff (attempt : Z) : Z :=
  let attempt := if attempt <? 1 then 1 else attempt in
  let backoff := wrap64 (Z.shiftl queryRangeRetryMinBackoff (attempt - 1)) in
  if queryRangeRetryMaxBackoff <? backoff then queryRangeRetryMaxBackoff else backoff.

(** ** The handler's loop *)

Section Loop.
Context {E S : Type}.

(** A batch fetch: entries per window in window order or an error, and the state after it;
    whether the request's context ends the wait that follows; the forced backoff of a
    degraded batch; the size of the next batch, given its first window. *)
Variable fetch : S → list window → Z → (list (list E) + Backend.goerr) * S.
Variable waitEnds : S → option Backend.goerr.
Variable degrade : S → S.
Variable parallel : S → window → Z * S.
Variable queryRangePartialResponses : bool.

Inductive batchOutcome : Type :=
| BResults (rs : list (list E))
| BPartial
| BError (e : Backend.goerr)
| BDone (e : Backend.goerr)
| BNoFuel.

Definition retryable (e : Backend.goerr) : bool := shouldRetryQueryRangeWindow (Some e).

(** The inner loop on [windows[i:]]: the outcome, the state and the size of the batch
    at the end. *)
Fixpoint retryLoop (fuel : nat) (st : S) (ws : list window) (limit batchSize attempt : Z) : batchOutcome * S * Z :=
  match fuel with
  | O => (BNoFuel, st, batchSize)
  | Datatypes.S fuel =>
      match fetch st (take (Z.to_nat batchSize) ws) limit with
      | (inl rs, st) => (BResults rs, st, batchSize)
      | (inr e, st) =>
          if retryable e && (1 <? batchSize) then
            let st := degrade st in
            match waitEnds st with
            | Some d => (BDone d, st, batchSize)
            | None => retryLoop fuel st ws limit (Z.max 1 (Z.quot batchSize 2)) (attempt + 1)
            end
          else if retryable e && (batchSize =? 1) && (attempt <? queryRangeBatchRetryAttempts) then
            match waitEnds st with
            | Some d => (BDone d, st, batchSize)
            | None => retryLoop fuel st ws limit batchSize (attempt + 1)
            end
          else if retryable e && queryRangePartialResponses then (BPartial, st, batchSize)
          else (BError e, st, batchSize)
      end
  end.

(** Every round halves the batch or uses up an attempt. *)
Definition retryFuel (batchSize : Z) : nat := (Z.to_nat batchSize + 4)%nat.

(** The entries of a batch, up to the limit. *)
Fixpoint collect (limit : Z) (collected : list E) (results : list (list E)) : list E :=
  match results with
  | [] => collected
  | [] :: results => collect limit collected results
  | r :: results =>
      let collected := collected ++ r in
      if limit <=? Z.of_nat (length collected) then take (Z.to_nat limit) collected
      else collect limit collected results
  end.

Inductive answer : Type :=
| Streams (entries : list E) (partial : bool)
| ErrorAnswer (status : Z) (msg : string)
| NoFuel.

(** The loop over the windows; [partial] is the header of a partial response. *)
Fixpoint runWindows (fuel : nat) (st : S) (ws : list window) (limit : Z) (collected : list E) (partial : bool) : answer * S :=
  match fuel with
  | O => (NoFuel, st)
  | Datatypes.S fuel =>
      let remaining := limit - Z.of_nat (length collected) in
      match ws with
      | [] => (Streams collected partial, st)
      | w :: _ =>
          if remaining <=? 0 then (Streams collected partial, st)
          else
            let '(par, st) := parallel st w in
            let batchSize := Z.min par (wlen ws) in
            let batchSize := if batchSize <=? 0 then 1 else batchSize in
            match retryLoop (retryFuel batchSize) st ws remaining batchSize 0 with
            | (BResults rs, st, batchSize) =>
                runWindows fuel st (drop (Z.to_nat batchSize) ws) limit (collect limit collected rs) partial
            | (BPartial, st, batchSize) =>
                runWindows fuel st (drop (Z.to_nat batchSize) ws) limit collected true
            | (BError e, st, _) => (ErrorAnswer (Backend.statusFromBackendErr (Some e)) (Backend.text e), st)
            | (BDone e, st, _) => (ErrorAnswer 408 (Backend.text e), st)
            | (BNoFuel, st, _) => (NoFuel, st)
            end
      end
  end.

(** Every round takes a window, so their number is enough fuel. *)
Definition proxyWindows (st : S) (ws : list window) (limit : Z) : answer * S :=
  runWindows (Datatypes.S (length ws)) st ws limit [] false.

Lemma retryLoop_enough st ws limit batchSize attempt fuel : 1 ≤ batchSize → 0 ≤ attempt →
  (Z.to_nat (batchSize - 1) + Z.to_nat (queryRangeBatchRetryAttempts - attempt) < fuel)%nat →
  (retryLoop fuel st ws limit batchSize attempt).1.1 ≠ BNoFuel.
Proof.
  revert st batchSize attempt. induction fuel as [|fuel IH]; intros st b a Hb Ha Hf; [lia|]. cbn [retryLoop].
  destruct (fetch _ _ _) as [[rs|e] st1]; [done|]. destruct (retryable e); cbn [andb]; [|done].
  destruct (Z.ltb_spec 1 b) as [H1|H1].
  - destruct (waitEnds _); [done|]. assert (1 ≤ Z.quot b 2 < b) by (rewrite Z.quot_div_nonneg by lia; split; [apply Z.div_le_lower_bound|apply Z.div_lt]; lia).
    apply IH; [lia|lia|]. rewrite Z.max_r by lia. lia.
  - destruct (Z.eqb_spec b 1) as [->|]; [|lia]. cbn [andb].
    destruct (Z.ltb_spec a queryRangeBatchRetryAttempts); [|by destruct queryRangePartialResponses].
    destruct (waitEnds _); [done|]. apply IH; lia.
Qed.

Lemma retryLoop_size st ws limit batchSize attempt fuel : 1 ≤ batchSize →
  1 ≤ (retryLoop fuel st ws limit batchSize attempt).2 ≤ batchSize.
Proof.
  revert st batchSize attempt. induction fuel as [|fuel IH]; intros st b a Hb; [cbn; lia|]. cbn [retryLoop].
  destruct (fetch _ _ _) as [[rs|e] st1]; [cbn; lia|]. destruct (retryable e); cbn [andb]; [|cbn; lia].
  destruct (Z.ltb_spec 1 b) as [H1|H1].
  - destruct (waitEnds _); [cbn; lia|]. assert (1 ≤ Z.quot b 2 < b) by (rewrite Z.quot_div_nonneg by lia; split; [apply Z.div_le_lower_bound|apply Z.div_lt]; lia).
    pose proof (IH (degrade st1) (Z.max 1 (Z.quot b 2)) (a + 1) ltac:(lia)). lia.
  - destruct ((b =? 1) && (a <? queryRangeBatchRetryAttempts)); [|destruct queryRangePartialResponses; cbn; lia].
    destruct (waitEnds _); [cbn; lia|]. by apply IH.
Qed.

Lemma collect_take limit collected rs : Z.of_nat (length collected) < limit →
  collect limit collected rs = take (Z.to_nat limit) (collected ++ concat rs).
Proof.
  revert collected. induction rs as [|r rs IH]; intros c Hc; cbn [collect concat].
  - rewrite app_nil_r, take_ge by lia. done.
  - destruct r as [|x r]; [by apply IH|]. cbv zeta. destruct (Z.leb_spec limit (Z.of_nat (length (c ++ x :: r)))) as [Hl|Hl].
    + change ((x :: r) ++ concat rs) with ((x :: r) ++ concat rs). rewrite (app_assoc c (x :: r)).
      by rewrite (take_app_le (c ++ x :: r)) by lia.
    + rewrite IH by done. by rewrite <- app_assoc.
Qed.

Lemma take_take_app {A} (k : nat) (a b b' : list A) : take (k - length a) b = take (k - length a) b' → take k (a ++ b) = take k (a ++ b').
Proof. intros Hb. by rewrite !take_app, Hb. Qed.

Lemma runWindows_total st ws limit collected partial fuel : (length ws < fuel)%nat →
  (runWindows fuel st ws limit collected partial).1 ≠ NoFuel.
Proof.
  revert st ws collected partial. induction fuel as [|fuel IH]; intros st ws c p Hf; [lia|]. cbn [runWindows].
  destruct ws as [|w ws]; [done|]. destruct (_ <=? 0); [done|]. destruct (parallel st w) as [par st1].
  set (b := if Z.min _ _ <=? 0 then _ else _). assert (1 ≤ b) as Hb by (unfold b; zcase; lia). clearbody b.
  pose proof (retryLoop_enough st1 (w :: ws) (limit - Z.of_nat (length c)) b 0 (retryFuel b) Hb ltac:(lia)
    ltac:(unfold retryFuel, queryRangeBatchRetryAttempts; lia)) as He.
  pose proof (retryLoop_size st1 (w :: ws) (limit - Z.of_nat (length c)) b 0 (retryFuel b) Hb) as Hs.
  destruct (retryLoop _ _ _ _ _ _) as [[o m] b']. cbn [fst snd] in *. destruct o; try done;
    (apply IH; rewrite length_drop; cbn [length] in *; lia).
Qed.

(** ** What the loop collects *)

(** The rows of a window, and what a fetch with a limit may return of them: all,
    or at least the limit from the front. *)
Variable rows : window → list E.

Definition adequate (limit : Z) (w : window) (r : list E) : Prop :=
  r = rows w ∨ (limit ≤ Z.of_nat (length r) ∧ r `prefix_of` rows w).

Lemma adequate_less l l' w r : l' ≤ l → adequate l w r → adequate l' w r.
Proof. intros Hl [->|[H1 H2]]; [by left|right; split; [lia|done]]. Qed.

(** Adequate results have the rows of their windows up to the limit. *)
Lemma adequate_concat limit ws rs k : Forall2 (adequate limit) ws rs → Z.of_nat k ≤ limit →
  take k (concat rs) = take k (concat (map rows ws)).
Proof.
  intros Hr. revert k. induction Hr as [|w r ws rs Hw Hr IH]; intros k Hk; [done|]. cbn [map concat].
  destruct Hw as [->|[Hl [t Ht]]].
  - apply take_take_app, IH. lia.
  - rewrite Ht, <- app_assoc, !take_app_le by lia. done.
Qed.

(** An invariant under which fetches are adequate for the limit they are given. *)
Variable I : Z → S → Prop.
Hypothesis I_less : ∀ l l' st, l' ≤ l → I l st → I l' st.
Hypothesis I_fetch : ∀ st ws l, 0 < l → I l st →
  let '(res, st') := fetch st ws l in
  I l st' ∧ match res with inl rs => Forall2 (adequate l) ws rs | inr _ => True end.
Hypothesis I_degrade : ∀ l st, I l st → I l (degrade st).
Hypothesis I_parallel : ∀ l st w, I l st → I l (parallel st w).2.

Lemma retryLoop_sound st ws limit batchSize attempt fuel : 0 < limit → I limit st →
  let '(o, st', b) := retryLoop fuel st ws limit batchSize attempt in
  I limit st' ∧ match o with BResults rs => Forall2 (adequate limit) (take (Z.to_nat b) ws) rs | _ => True end.
Proof.
  intros Hl. revert st batchSize attempt. induction fuel as [|fuel IH]; intros st bs a Hi; [done|]. cbn [retryLoop].
  pose proof (I_fetch st (take (Z.to_nat bs) ws) limit Hl Hi) as Hf. destruct (fetch _ _ _) as [[rs|e] st1]; [done|]. destruct Hf as [Hi1 _].
  destruct (retryable e && (1 <? bs)). { cbv zeta. destruct (waitEnds _); [by split; [apply I_degrade|]|]. by apply IH, I_degrade. }
  destruct (_ && _ && _). { destruct (waitEnds _); [done|]. by apply IH. }
  by destruct (_ && _).
Qed.

Lemma partial_stays fuel st ws limit collected c : (runWindows fuel st ws limit collected true).1 ≠ Streams c false.
Proof.
  revert st ws collected. induction fuel as [|fuel IH]; intros st l col; [done|]. cbn [runWindows]. destruct l; [done|].
  destruct (_ <=? 0); [done|]. destruct (parallel _ _) as [par st1]. destruct (retryLoop _ _ _ _ _ _) as [[[] ?] ?]; try done; apply IH.
Qed.

Lemma runWindows_sound st ws limit collected done_rows fuel c : I (limit - Z.of_nat (length collected)) st →
  Z.of_nat (length collected) ≤ limit → collected = take (Z.to_nat limit) done_rows →
  (runWindows fuel st ws limit collected false).1 = Streams c false →
  c = take (Z.to_nat limit) (done_rows ++ concat (map rows ws)).
Proof.
  revert st ws collected done_rows. induction fuel as [|fuel IH]; intros st ws col d Hi Hlen Hd; [done|].
  cbn [runWindows]. destruct ws as [|w ws]; [intros [= <-]; cbn; by rewrite app_nil_r|].
  destruct (Z.leb_spec (limit - Z.of_nat (length col)) 0) as [Hz|Hz].
  { intros [= <-]. rewrite Hd in Hz, Hlen |- *. rewrite length_take in Hz. rewrite take_app_le by lia. done. }
  pose proof (I_parallel _ st w Hi) as Hi1. destruct (parallel st w) as [par st1]. cbn [snd] in Hi1.
  set (b := if Z.min _ _ <=? 0 then _ else _). clearbody b.
  pose proof (retryLoop_sound st1 (w :: ws) (limit - Z.of_nat (length col)) b 0 (retryFuel b) Hz Hi1) as Hrl.
  destruct (retryLoop _ _ _ _ _ _) as [[o m] b']. destruct Hrl as [Hi2 Had]. destruct o as [rs| | | |]; try done; [|by intros ?%partial_stays].
  assert (d = col) as ->. { rewrite Hd in Hz |- *. rewrite length_take in Hz. symmetry. apply take_ge. lia. }
  rewrite collect_take by lia. intros Hr.
  apply (IH _ _ _ (col ++ concat (map rows (take (Z.to_nat b') (w :: ws))))) in Hr.
  - rewrite Hr, <- app_assoc, <- concat_app, <- map_app, take_drop. done.
  - eapply I_less; [|exact Hi2]. rewrite length_take, length_app. lia.
  - rewrite length_take. lia.
  - apply take_take_app. apply (adequate_concat _ _ _ _ Had). lia.
Qed.

Lemma retryLoop_partial st ws limit batchSize attempt fuel :
  (retryLoop fuel st ws limit batchSize attempt).1.1 = BPartial → queryRangePartialResponses = true.
Proof.
  revert st batchSize attempt. induction fuel as [|fuel IH]; intros st b a; [done|]. cbn [retryLoop].
  destruct (fetch _ _ _) as [[rs|e] st1]; [done|].
  destruct (retryable e && (1 <? b)). { cbv zeta. destruct (waitEnds _); [done|apply IH]. }
  destruct (retryable e && (b =? 1) && _). { destruct (waitEnds _); [done|apply IH]. }
  destruct (retryable e && queryRangePartialResponses) eqn:Hp; [|done]. by apply andb_true_iff in Hp as [_ ->].
Qed.

Lemma runWindows_partial fuel st ws limit collected partial c :
  (runWindows fuel st ws limit collected partial).1 = Streams c true → partial = true ∨ queryRangePartialResponses = true.
Proof.
  revert st ws collected partial. induction fuel as [|fuel IH]; intros st ws col p; [done|]. cbn [runWindows].
  destruct ws as [|w ws]; [intros [= _ ->]; by left|]. destruct (_ <=? 0); [intros [= _ ->]; by left|].
  destruct (parallel st w) as [par st1]. set (b := if Z.min _ _ <=? 0 then _ else _). clearbody b.
  pose proof (retryLoop_partial st1 (w :: ws) (limit - Z.of_nat (length col)) b 0 (retryFuel b)) as He.
  destruct (retryLoop _ _ _ _ _ _) as [[o m] b']. cbn [fst snd] in He. destruct o; try done; [apply IH|]. intros _. right. by apply He.
Qed.

(** When no fetch fails, the loop answers with rows. *)
Variable Q : S → Prop.
Hypothesis Q_fetch : ∀ st ws l, 0 < l → Q st → ∃ rs st', fetch st ws l = (inl rs, st') ∧ Q st'.
Hypothesis Q_parallel : ∀ st w, Q st → Q (parallel st w).2.

Lemma runWindows_succeeds fuel st ws limit collected : Q st → (length ws < fuel)%nat →
  ∃ c, (runWindows fuel st ws limit collected false).1 = Streams c false.
Proof.
  revert st ws collected. induction fuel as [|fuel IH]; intros st ws col Hq Hf; [lia|]. cbn [runWindows].
  destruct ws as [|w ws]; [by eexists|]. destruct (Z.leb_spec (limit - Z.of_nat (length col)) 0); [by eexists|].
  pose proof (Q_parallel st w Hq) as Hq1. destruct (parallel st w) as [par st1]. cbn [snd] in Hq1.
  set (b := if Z.min _ _ <=? 0 then _ else _). assert (1 ≤ b) as Hb by (unfold b; zcase; lia). clearbody b.
  destruct (Q_fetch st1 (take (Z.to_nat b) (w :: ws)) (limit - Z.of_nat (length col))) as (rs & st2 & Hfe & Hq2); [lia|done|].
  unfold retryFuel. rewrite Nat.add_comm. cbn [Nat.add retryLoop]. rewrite Hfe. apply IH; [done|]. rewrite length_drop. cbn [length] in *. lia.
Qed.

End Loop.

Lemma backoff_bounded attempt : attempt ≤ 37 →
  queryRangeRetryMinBackoff ≤ queryRangeWindowRetryBackoff attempt ≤ queryRangeRetryMaxBackoff.
Proof.
  intros Ha. unfold queryRangeWindowRetryBackoff. cbv zeta. set (a := if attempt <? 1 then 1 else attempt).
  assert (1 ≤ a ≤ 37) as Hr by (unfold a; zcase; lia). clearbody a.
  rewrite Z.shiftl_mul_pow2 by lia.
  assert (1 ≤ 2 ^ (a - 1) ≤ 2 ^ 36) as Hp.
  { split; [|apply Z.pow_le_mono_r; lia]. change 1 with (2 ^ 0). apply Z.pow_le_mono_r; lia. }
  change (2 ^ 36) with 68719476736 in Hp. unfold queryRangeRetryMinBackoff, queryRangeRetryMaxBackoff, Millisecond, Second in *.
  rewrite wrap64_id by (unfold in_int64, MinInt64, MaxInt64; lia). zcase; lia.
Qed.

(** ** Adaptive parallelism *)

Section Adaptive.
Context `{Clock}.

(** The settings and the state under [queryRangeAdaptiveMu]; [None] is the zero
    time. *)
Record adaptive : Type := mkAdaptive {
  queryRangeAdaptiveParallel : bool;
  queryRangeMaxParallel : Z;
  queryRangeParallelMin : Z;
  queryRangeParallelMax : Z;
  queryRangeAdaptiveCooldown : Z;
  queryRangeErrorBackoffThreshold : F;
  queryRangeLatencyBackoff : Z;
  queryRangeLatencyTarget : Z;
  queryRangeParallelCurrent : Z;
  queryRangeLatencyEWMA : Z;
  queryRangeErrorEWMA : F;
  queryRangeAdaptiveLastAdjust : option Z
}.

Definition set_current (n : Z) (last : option Z) (a : adaptive) : adaptive :=
  mkAdaptive (queryRangeAdaptiveParallel a) (queryRangeMaxParallel a) (queryRangeParallelMin a)
    (queryRangeParallelMax a) (queryRangeAdaptiveCooldown a) (queryRangeErrorBackoffThreshold a)
    (queryRangeLatencyBackoff a) (queryRangeLatencyTarget a) n (queryRangeLatencyEWMA a)
    (queryRangeErrorEWMA a) last.

Definition set_ewma (lat : Z) (err : F) (a : adaptive) : adaptive :=
  mkAdaptive (queryRangeAdaptiveParallel a) (queryRangeMaxParallel a) (queryRangeParallelMin a)
    (queryRangeParallelMax a) (queryRangeAdaptiveCooldown a) (queryRangeErrorBackoffThreshold a)
    (queryRangeLatencyBackoff a) (queryRangeLatencyTarget a) (queryRangeParallelCurrent a) lat err
    (queryRangeAdaptiveLastAdjust a).

Definition queryRangeWindowParallelLimit (a : adaptive) : Z * adaptive :=
  if negb (queryRangeAdaptiveParallel a) then
    (if queryRangeMaxParallel a <=? 0 then 1 else queryRangeMaxParallel a, a)
  else
    let cur := queryRangeParallelCurrent a in
    let cur := if (cur <? queryRangeParallelMin a) || (queryRangeParallelMax a <? cur)
               then queryRangeParallelMin a else cur in
    let cur := if cur <=? 0 then 1 else cur in
    (cur, set_current cur (queryRangeAdaptiveLastAdjust a) a).

(** The weights of the moving averages, [alpha] = 1/5. *)
Definition keep_weight : F := Fdiv (Times.ofInt 4) (Times.ofInt 5).
Definition new_weight : F := Fdiv (Times.ofInt 1) (Times.ofInt 5).

Definition halve (a : adaptive) : Z := Z.max (queryRangeParallelMin a) (Z.quot (queryRangeParallelCurrent a) 2).

Definition observeQueryRangeWindowFetch (now latency : Z) (failed : bool) (a : adaptive) : adaptive :=
  if negb (queryRangeAdaptiveParallel a) then a
  else
    let latency := if latency <? 0 then 0 else latency in
    let lat :=
      if queryRangeLatencyEWMA a <=? 0 then latency
      else to_int64 (Fadd (Fmul keep_weight (Times.ofInt (queryRangeLatencyEWMA a)))
                          (Fmul new_weight (Times.ofInt latency))) in
    let err := Fadd (Fmul keep_weight (queryRangeErrorEWMA a))
                    (Fmul new_weight (Times.ofInt (if failed then 1 else 0))) in
    let a := set_ewma lat err a in
    if match queryRangeAdaptiveLastAdjust a with
       | Some t => time_sub now t <? queryRangeAdaptiveCooldown a
       | None => false
       end then a
    else
      let old := queryRangeParallelCurrent a in
      let shouldBackoff :=
        Fle (queryRangeErrorBackoffThreshold a) err || ((0 <? lat) && (queryRangeLatencyBackoff a <=? lat)) in
      let shouldIncrease :=
        Fle err (Fdiv (queryRangeErrorBackoffThreshold a) (Times.ofInt 2)) && (0 <? lat)
        && (lat <=? queryRangeLatencyTarget a) in
      let cur :=
        if shouldBackoff && (queryRangeParallelMin a <? old) then halve a
        else if shouldIncrease && (old <? queryRangeParallelMax a) then old + 1
        else old in
      set_current cur (if cur =? old then queryRangeAdaptiveLastAdjust a else Some now) a.

Definition forceQueryRangeParallelBackoff (now : Z) (a : adaptive) : adaptive :=
  if negb (queryRangeAdaptiveParallel a) then a
  else if queryRangeParallelCurrent a <=? queryRangeParallelMin a then a
  else set_current (halve a) (Some now) a.

Definition DownstreamConnectionPressure (a : adaptive) : bool :=
  if negb (queryRangeAdaptiveParallel a) then false
  else if Flt (Times.ofInt 0) (queryRangeErrorEWMA a)
          && Fle (queryRangeErrorBackoffThreshold a) (queryRangeErrorEWMA a) then true
  else if (0 <? queryRangeLatencyEWMA a) && (queryRangeLatencyBackoff a <=? queryRangeLatencyEWMA a) then true
  else (queryRangeParallelCurrent a <=? queryRangeParallelMin a) && (0 <? queryRangeLatencyEWMA a)
       && (queryRangeLatencyTarget a <=? queryRangeLatencyEWMA a).

(** One critical section by some goroutine. *)
Inductive adjusts : adaptive → adaptive → Prop :=
| adj_limit a : adjusts a (queryRangeWindowParallelLimit a).2
| adj_observe now lat failed a : adjusts a (observeQueryRangeWindowFetch now lat failed a)
| adj_force now a : adjusts a (forceQueryRangeParallelBackoff now a).

Definition bounded (lo hi : Z) (a : adaptive) : Prop :=
  queryRangeParallelMin a = lo ∧ queryRangeParallelMax a = hi ∧ queryRangeAdaptiveParallel a = true ∧
  lo ≤ queryRangeParallelCurrent a ≤ hi.

Lemma adjusts_bounded lo hi a a' : 1 ≤ lo ≤ hi → adjusts a a' → bounded lo hi a → bounded lo hi a'.
Proof.
  intros Hlo Ha (Hmin & Hmax & Hon & Hc). assert (∀ n l, lo ≤ n ≤ hi → bounded lo hi (set_current n l a)) as Hset by done.
  assert (∀ n l x y, lo ≤ n ≤ hi → bounded lo hi (set_current n l (set_ewma x y a))) as Hset' by done.
  assert (lo ≤ halve a ≤ hi) as Hh.
  { unfold halve. rewrite Hmin. assert (Z.quot (queryRangeParallelCurrent a) 2 ≤ queryRangeParallelCurrent a)
      by (rewrite Z.quot_div_nonneg by lia; apply Z.div_le_upper_bound; lia). lia. }
  destruct Ha as [a|now lat failed a|now a].
  - unfold queryRangeWindowParallelLimit. rewrite Hon. cbn [negb snd]. apply Hset. rewrite Hmin, Hmax.
    rewrite (proj2 (Z.ltb_ge (queryRangeParallelCurrent a) lo)), (proj2 (Z.ltb_ge hi _)) by lia. cbn [orb]. zcase; lia.
  - unfold observeQueryRangeWindowFetch. rewrite Hon. cbn [negb]. cbv zeta. case_match; [done|].
    apply Hset'. change (halve (set_ewma _ _ a)) with (halve a).
    cbn [set_ewma queryRangeParallelMin queryRangeParallelMax queryRangeParallelCurrent] in *.
    destruct (_ && (queryRangeParallelMin a <? _)); [done|]. destruct (_ && (_ <? queryRangeParallelMax a)) eqn:Hi; [|done].
    apply andb_true_iff in Hi as [_ Hi%Z.ltb_lt]. lia.
  - unfold forceQueryRangeParallelBackoff. rewrite Hon. cbn [negb]. destruct (_ <=? _); [done|by apply Hset].
Qed.

(** However the fetches turn out, the number of parallel window fetches stays
    between the configured bounds, and a batch is never given another number. *)
Theorem parallelism_bounded lo hi a a' : 1 ≤ lo ≤ hi → bounded lo hi a → rtc adjusts a a' →
  lo ≤ queryRangeParallelCurrent a' ≤ hi ∧ lo ≤ (queryRangeWindowParallelLimit a').1 ≤ hi.
Proof.
  intros Hlo Hb Hr. assert (bounded lo hi a') as (Hmin & Hmax & Hon & Hc).
  { revert Hb. induction Hr as [|a a1 a2 Hs _ IH]; [done|]. intros Hb. apply IH. by eapply adjusts_bounded. }
  split; [done|]. unfold queryRangeWindowParallelLimit. rewrite Hon. cbn [negb fst]. rewrite Hmin, Hmax.
  rewrite (proj2 (Z.ltb_ge (queryRangeParallelCurrent a') lo)), (proj2 (Z.ltb_ge hi _)) by lia. cbn [orb]. zcase; lia.
Qed.

End Adaptive.

(** [queryRangeWindowBatchParallelLimit]: an expensive first window narrows the
    batch. *)
Definition queryRangeWindowKey (w : window) : string := Itoa (startNs w) +:+ ":" +:+ Itoa (endNs w).

Definition queryRangeWindowBatchParallelLimit (parallel : Z) (streamAware : bool) (threshold capParallel : Z)
    (w : window) (estimates : option (gmap string Z)) : Z :=
  if negb streamAware || (parallel <=? 1) then parallel
  else if threshold <=? 0 then parallel
  else
    match estimates ≫= lookup (queryRangeWindowKey w) with
    | None => parallel
    | Some hits =>
        if hits <? threshold then parallel
        else
          let capParallel := if capParallel <=? 0 then 1 else capParallel in
          if capParallel <? parallel then capParallel else parallel
    end.

(** ** One window: cache, breaker, attempts *)

Section Fetch.
Context `{Clock} {E : Type}.

(** The fragment codec (JSON and zstd), the conversion of a response body, and the
    error for an HTTP status. *)
Variable encode : list E → option string.
Variable decode : string → option (list E).
Variable convert : string → list E.
Variable statusError : Z → string → Backend.goerr.

(** What a request fixes for all its windows. *)
Record windowRequest : Type := mkReq {
  orgID : string;
  logsqlQuery : string;
  direction : string;
  queryLimit : string;
  categorizedLabels : bool;
  emitStructuredMetadata : bool;
  fingerprint : string;
  authFingerprint : string
}.

Definition logLineCacheKeyVersion : string := "line-v3".
Definition FormatBool (b : bool) : string := if b then "true" else "false".

Definition queryRangeWindowCacheKey (r : windowRequest) (w : window) : string :=
  Join ":" (["query_range_window"; orgID r; logLineCacheKeyVersion; logsqlQuery r; direction r; queryLimit r;
             Itoa (startNs w); Itoa (endNs w); FormatBool (categorizedLabels r);
             FormatBool (emitStructuredMetadata r); "shape=" +:+ fingerprint r]
            ++ (if String.eqb (authFingerprint r) "" then [] else ["auth:" +:+ authFingerprint r])).

Definition withQueryDirectionSort (q dir : string) : string :=
  if String.eqb dir "forward" then q +:+ " | sort by (_time)" else q +:+ " | sort by (_time desc)".

Definition windowParams (r : windowRequest) (windowLimit : Z) (w : window) : list (string * string) :=
  [("query", withQueryDirectionSort (logsqlQuery r) (direction r)); ("start", Itoa (startNs w));
   ("end", Itoa (endNs w)); ("limit", Itoa windowLimit)].

Definition queryRangeWindowTTL (now freshness history recent windowEndNs : Z) : Z :=
  if windowEndNs <=? wrap64 (now - freshness) then history else recent.

(** One attempt: the call, how long it took, the clock after it, and the context's
    error if it ended the wait before the next one. *)
Record attemptEnv : Type := mkAttempt {
  a_call : Backend.call;
  a_latency : Z;
  a_now : Z;
  a_wait : option Backend.goerr
}.

Record fetchState : Type := mkFetch {
  fs_cache : gmap string string;
  fs_breaker : CB.breaker;
  fs_adaptive : adaptive
}.

Inductive attemptResult : Type :=
| ABody (body : string)
| AFailed (e : Backend.goerr) (c : Backend.call)
| AWait (e : Backend.goerr).

Fixpoint attemptLoop (fuel : nat) (attempt : Z) (env : Z → attemptEnv) (ad : adaptive) : attemptResult * adaptive :=
  let a := env attempt in
  let failed e :=
    let ad := observeQueryRangeWindowFetch (a_now a) (a_latency a) true ad in
    match fuel with
    | O => (AFailed e (a_call a), ad)
    | S fuel =>
        if negb (shouldRetryQueryRangeWindow (Some e)) then (AFailed e (a_call a), ad)
        else
          match a_wait a with
          | Some d => (AWait d, ad)
          | None => attemptLoop fuel (attempt + 1) env ad
          end
    end in
  match Backend.vlPostHTTP (a_call a) with
  | inl (status, body) =>
      if status <? 400 then (ABody body, observeQueryRangeWindowFetch (a_now a) (a_latency a) false ad)
      else failed (statusError status body)
  | inr e => failed e
  end.

(** Attempts after the first. *)
Definition moreAttempts : nat := Z.to_nat (queryRangeWindowFetchAttempts - 1).

(** [live] tells whether the cache still has what was stored under the key, [backend]
    how the backend answers the parameters at each attempt. *)
Definition fetchQueryRangeWindow (r : windowRequest) (windowLimit : Z) (w : window) (live : bool) (ttl allowAt : Z)
    (backend : list (string * string) → Z → attemptEnv) (st : fetchState) : (list E + Backend.goerr) * fetchState :=
  let key := queryRangeWindowCacheKey r w in
  match (if live then fs_cache st !! key ≫= decode else None) with
  | Some entries => (inl entries, st)
  | None =>
      match CB.Allow allowAt (fs_breaker st) with
      | (false, cb) => (inr Backend.breaker_open_err, mkFetch (fs_cache st) cb (fs_adaptive st))
      | (true, cb) =>
          match attemptLoop moreAttempts 1 (backend (windowParams r windowLimit w)) (fs_adaptive st) with
          | (ABody body, ad) =>
              let entries := convert body in
              let cache :=
                if 0 <? ttl then
                  match encode entries with
                  | Some data => <[key := data]> (fs_cache st)
                  | None => fs_cache st
                  end
                else fs_cache st in
              (inl entries, mkFetch cache (CB.RecordSuccess cb) ad)
          | (AFailed e c, ad) =>
              (inr e, mkFetch (fs_cache st)
                        (if Backend.shouldRecordBreakerFailure (Some (Backend.ctx_end c)) (Some e)
                         then CB.RecordFailure (Backend.at_record c) cb else cb) ad)
          | (AWait e, ad) => (inr e, mkFetch (fs_cache st) cb ad)
          end
      end
  end.

Definition missed (live : bool) (r : windowRequest) (w : window) (st : fetchState) : Prop :=
  (if live then fs_cache st !! queryRangeWindowCacheKey r w ≫= decode else None) = None.

(** However often its backend call is repeated, a window fetch that the breaker
    admits reports at most one outcome to it: a success if and only if it returns
    entries. *)
Theorem fetch_reports_once r limit w live ttl t backend st cb : missed live r w st →
  CB.Allow t (fs_breaker st) = (true, cb) →
  let '(res, st') := fetchQueryRangeWindow r limit w live ttl t backend st in
  match res with
  | inl _ => fs_breaker st' = CB.RecordSuccess cb
  | inr _ => fs_breaker st' = cb ∨ ∃ c, fs_breaker st' = CB.RecordFailure (Backend.at_record c) cb
  end.
Proof.
  unfold missed, fetchQueryRangeWindow. intros -> ->. destruct (attemptLoop _ _ _ _) as [[body|e c|e] ad]; [done| |by left].
  cbn [fs_breaker]. destruct (Backend.shouldRecordBreakerFailure _ _); [right; by exists c|by left].
Qed.

Lemma attempts_http fuel k env ad : (∀ j, ∃ s b, Backend.vlPostHTTP (a_call (env j)) = inl (s, b) ∧ 400 ≤ s) →
  (∀ s b, Backend.as_status (statusError s b) ≠ None) →
  match (attemptLoop fuel k env ad).1 with
  | ABody _ => False
  | AFailed e _ => Backend.as_status e ≠ None
  | AWait _ => True
  end.
Proof.
  intros Henv Herr. revert k ad. induction fuel as [|fuel IH]; intros k ad; cbn [attemptLoop];
    destruct (Henv k) as (s & b & -> & Hs); rewrite (proj2 (Z.ltb_ge s 400)) by done; [apply Herr|].
  destruct (negb _); [apply Herr|]. destruct (a_wait _); [done|apply IH].
Qed.

Lemma status_not_recorded ctx e : Backend.as_status e ≠ None → Backend.shouldRecordBreakerFailure ctx (Some e) = false.
Proof.
  intros He. unfold Backend.shouldRecordBreakerFailure. destruct (match ctx with Some _ => _ | None => _ end); [done|].
  by destruct (Backend.as_status e).
Qed.

(** A half-open breaker with one probe left is wedged by a window fetch whose
    backend answers with HTTP errors: the probe is never given back, and every later
    call of the proxy is rejected. *)
Theorem http_errors_wedge_breaker r limit w live ttl t backend st later : missed live r w st →
  CB.state (fs_breaker st) = CB.cbHalfOpen → CB.atomicState (fs_breaker st) = CB.cbHalfOpen →
  CB.halfOpenProbes (fs_breaker st) + 1 = CB.successThreshold (fs_breaker st) →
  (∀ p j, ∃ s b, Backend.vlPostHTTP (a_call (backend p j)) = inl (s, b) ∧ 400 ≤ s) →
  (∀ s b, Backend.as_status (statusError s b) ≠ None) →
  let '(_, st') := fetchQueryRangeWindow r limit w live ttl t backend st in
  Backend.serve later (fs_breaker st') = (map (λ _, inr Backend.breaker_open_err) later, fs_breaker st').
Proof.
  intros Hm Hs Ha Hp Henv Herr. unfold missed, fetchQueryRangeWindow in *. rewrite Hm.
  unfold CB.Allow. rewrite decide_False by (by rewrite Ha). unfold CB.Allow_locked.
  rewrite Hs, (proj2 (Z.ltb_lt _ _)) by lia.
  pose proof (attempts_http moreAttempts 1 (backend (windowParams r limit w)) (fs_adaptive st) (Henv _) Herr) as Hat.
  destruct (attemptLoop _ _ _ _) as [[body|e c|e] ad]; cbn [fst] in Hat; [done| |]; cbn [fs_breaker];
    rewrite ?status_not_recorded by done; apply Backend.wedged_forever; unfold Backend.wedged; cbn; split_and!; done || lia.
Qed.

(** The key of a cached fragment does not name the limit it was fetched with:
    a fragment cut at a small remaining limit answers every later fetch of the
    window, and is not enough for one that asks for more. *)
Theorem cached_fragment_short r w l1 l2 rows full backend t1 t2 ttl1 ttl2 st :
  (encode (take (Z.to_nat l1) full) ≫= decode) = Some (take (Z.to_nat l1) full) → 0 < ttl1 →
  (CB.Allow t1 (fs_breaker st)).1 = true →
  (∃ body, Backend.vlPostHTTP (a_call (backend (windowParams r l1 w) 1)) = inl (200, body) ∧
    convert body = take (Z.to_nat l1) full) →
  rows w = full → 0 ≤ l1 < l2 → l2 ≤ Z.of_nat (length full) →
  let '(_, st1) := fetchQueryRangeWindow r l1 w false ttl1 t1 backend st in
  let '(res, _) := fetchQueryRangeWindow r l2 w true ttl2 t2 backend st1 in
  res = inl (take (Z.to_nat l1) full) ∧ ¬ adequate rows l2 w (take (Z.to_nat l1) full).
Proof.
  intros Hcodec Httl Hallow (body & Hb & Hconv) Hrows Hl Hfull. unfold fetchQueryRangeWindow at 1. cbv iota.
  destruct (CB.Allow t1 (fs_breaker st)) as [ok cb]. cbn [fst] in Hallow. subst ok. unfold moreAttempts.
  change (Z.to_nat (queryRangeWindowFetchAttempts - 1)) with 4%nat. cbn [attemptLoop]. rewrite Hb.
  change (200 <? 400) with true. cbv iota zeta. rewrite (proj2 (Z.ltb_lt 0 ttl1)) by done. rewrite Hconv.
  destruct (encode _) as [data|]; [|done]. cbn in Hcodec.
  unfold fetchQueryRangeWindow. cbn [fs_cache]. rewrite lookup_insert_eq. cbn [mbind option_bind]. rewrite Hcodec.
  split; [done|]. intros [Heq|[Hge _]].
  - rewrite Hrows in Heq. apply (f_equal length) in Heq. rewrite length_take in Heq. lia.
  - rewrite length_take in Hge. lia.
Qed.

End Fetch.

(** ** Grouping into streams *)

Record entry : Type := mkEntry {
  Stream : gmap string string;
  Key : string;
  Ts : string;
  Msg : string;
  SM : gmap string string;
  Parsed : gmap string string
}.

(** [canonicalLabelsKey] (labels.go). *)
Definition labelText (labels : gmap string string) (key : string) : string :=
  key +:+ "=" +:+ String dquote
    (Times.replaceAll (String dquote "") (String bslash (String dquote "")) (default "" (labels !! key))
     +:+ String dquote "").

Definition canonicalLabelsKey (labels : gmap string string) : string :=
  "{" +:+ Join "," (map (labelText labels) (sortStrings (map_to_list labels).*1)) +:+ "}".

Definition entryKey (e : entry) : string :=
  if String.eqb (Key e) "" then canonicalLabelsKey (Stream e) else Key e.

Definition addEntry (streams : gmap string (gmap string string * list entry)) (e : entry)
    : gmap string (gmap string string * list entry) :=
  let k := entryKey e in
  match streams !! k with
  | Some (labels, es) => <[k := (labels, es ++ [e])]> streams
  | None => <[k := (Stream e, [e])]> streams
  end.

Definition before (forward : bool) (a b : entry) : bool :=
  if String.eqb (Ts a) (Ts b) then String.ltb (Msg a) (Msg b)
  else if forward then String.ltb (Ts a) (Ts b) else String.ltb (Ts b) (Ts a).

(** The streams in key order, each with its key, labels and sorted entries. *)
Definition groupStreams (entries : list entry) (direction : string) : list (string * gmap string string * list entry) :=
  let streams := foldl addEntry ∅ entries in
  omap (λ k, option_map (λ s, (k, s.1, SliceStable (before (String.eqb direction "forward")) s.2)) (streams !! k))
    (sortStrings (map_to_list streams).*1).

(** [buildStreamValue]: timestamp, line and, for a categorized request, the
    metadata object (its two optional members). *)
Definition streamValue : Type := string * string * option (option (gmap string string) * option (gmap string string)).

Definition metadataFieldMap (m : gmap string string) : option (gmap string string) :=
  if decide (m = ∅) then None else Some m.

Definition buildStreamValue (e : entry) (emitSM categorized : bool) : streamValue :=
  if negb categorized then (Ts e, Msg e, None)
  else if emitSM then (Ts e, Msg e, Some (metadataFieldMap (SM e), metadataFieldMap (Parsed e)))
  else (Ts e, Msg e, Some (None, None)).

Definition groupQueryRangeWindowEntries (entries : list entry) (direction : string) (emitSM categorized : bool)
    : list (gmap string string * list streamValue) :=
  map (λ s, (s.1.2, map (λ e, buildStreamValue e emitSM categorized) s.2)) (groupStreams entries direction).

Lemma streams_lookup es k :
  foldl addEntry ∅ es !! k =
    match filter (λ e, entryKey e = k) es with
    | [] => None
    | (e :: _) as l => Some (Stream e, l)
    end.
Proof.
  induction es as [|e es IH] using rev_ind; [done|]. rewrite foldl_app, filter_app. cbn [foldl].
  unfold addEntry at 1. rewrite filter_cons, filter_nil. destruct (decide (entryKey e = k)) as [<-|Hk].
  - rewrite IH. destruct (filter _ es) as [|e' l] eqn:El; cbn [app]; by rewrite lookup_insert_eq.
  - rewrite app_nil_r. destruct (foldl addEntry ∅ es !! entryKey e) as [[? ?]|]; (rewrite lookup_insert_ne by done; apply IH).
Qed.

Lemma before_asym f x y : before f x y = true → before f y x = false.
Proof.
  unfold before. rewrite (String.eqb_sym (Ts y)). destruct (String.eqb (Ts x) (Ts y)); [apply ltb_asym|]. destruct f; apply ltb_asym.
Qed.

Lemma not_before_trans f : Transitive (no_greater (before f)).
Proof.
  intros x y z. unfold no_greater, before. intros Hxy Hyz.
  destruct (String.eqb_spec (Ts y) (Ts x)) as [Exy|Nxy]; destruct (String.eqb_spec (Ts z) (Ts y)) as [Eyz|Nyz].
  - rewrite (proj2 (String.eqb_eq _ _)) by congruence. by apply (not_ltb_trans (Msg x) (Msg y) (Msg z)).
  - rewrite (proj2 (String.eqb_neq _ _)) by congruence. by rewrite <- Exy.
  - rewrite (proj2 (String.eqb_neq _ _)) by congruence. by rewrite Eyz.
  - destruct (String.eqb_spec (Ts z) (Ts x)) as [Ezx|Nzx]; [exfalso|destruct f].
    + rewrite Ezx in *. destruct f; [apply Nxy, (ltb_trichotomy (Ts y) (Ts x))|apply Nxy, (ltb_trichotomy (Ts y) (Ts x))]; done.
    + by apply (not_ltb_trans (Ts x) (Ts y) (Ts z)).
    + by apply (not_ltb_trans (Ts z) (Ts y) (Ts x)).
Qed.

Lemma filter_by_key {A} (f : A → string) (ks : list string) (l : list A) : NoDup ks → Forall (λ x, f x ∈ ks) l →
  concat (map (λ k, filter (λ x, f x = k) l) ks) ≡ₚ l.
Proof.
  intros Hnd. revert l. induction Hnd as [|k ks Hk Hnd IH]; intros l Hl.
  - destruct l as [|x l]; [done|]. apply Forall_cons in Hl as [Hx _]. by apply elem_of_nil in Hx.
  - cbn [map concat]. etrans; [|apply (filter_app_complement (λ x, f x = k) l)]. apply Permutation_app; [done|].
    rewrite <- (IH (filter (λ x, f x ≠ k) l)).
    + rewrite (map_ext_in _ (λ k', filter (λ x, f x = k') (filter (λ x, f x ≠ k) l))); [done|].
      intros k' Hk'. rewrite list_filter_filter. apply list_filter_iff. intros x.
      assert (k' ≠ k) by (intros ->; by apply Hk, list_elem_of_In). split; intros; destruct_and?; split_and?; congruence.
    + apply Forall_forall. intros x [Hx Hin]%list_elem_of_filter. rewrite Forall_forall in Hl. specialize (Hl x Hin).
      set_solver.
Qed.

Lemma groupStreams_eq es dir :
  groupStreams es dir =
    map (λ k, (k, default ∅ (Stream <$> head (filter (λ e, entryKey e = k) es)),
               SliceStable (before (String.eqb dir "forward")) (filter (λ e, entryKey e = k) es)))
      (sortStrings (map_to_list (foldl addEntry ∅ es)).*1).
Proof.
  unfold groupStreams. set (m := foldl addEntry ∅ es).
  assert (Forall (λ k, is_Some (m !! k)) (sortStrings (map_to_list m).*1)) as Hk.
  { apply Forall_forall. intros k Hk. unfold sortStrings in Hk. rewrite SliceStable_perm in Hk.
    apply list_elem_of_fmap in Hk as ([k' v] & -> & Hkv%elem_of_map_to_list). by exists v. }
  induction Hk as [|k ks [v Hv] Hks IH]; [done|]. cbn [omap list_omap map]. rewrite Hv. cbn [option_map]. rewrite IH. f_equal.
  unfold m in Hv. rewrite streams_lookup in Hv. destruct (filter _ es) as [|e l]; [done|]. by injection Hv as <-.
Qed.

(** Every entry is in exactly one stream, the one of its key; the streams come
    in strictly increasing key order, and the entries of each in the order of the
    direction, ties by message. *)
Theorem streams_partition_entries es dir :
  let out := groupStreams es dir in
  concat (map snd out) ≡ₚ es ∧
  StronglySorted (λ a b, String.ltb a b = true) (map (λ s, s.1.1) out) ∧
  Forall (λ s, s.2 ≡ₚ filter (λ e, entryKey e = s.1.1) es ∧
               StronglySorted (no_greater (before (String.eqb dir "forward"))) s.2) out.
Proof.
  rewrite groupStreams_eq. set (m := foldl addEntry ∅ es). set (ks := sortStrings (map_to_list m).*1). cbv zeta.
  assert (ks ≡ₚ (map_to_list m).*1) as Hperm by apply SliceStable_perm.
  assert (NoDup ks) as Hnd by (rewrite Hperm; apply NoDup_fst_map_to_list).
  split_and!.
  - rewrite map_map. cbn [snd]. etrans; [|apply (filter_by_key entryKey ks es Hnd)].
    + clear. induction ks as [|k ks IH]; [done|]. cbn [map concat]. by rewrite SliceStable_perm, IH.
    + apply Forall_forall. intros e He. rewrite Hperm. apply list_elem_of_fmap.
      destruct (m !! entryKey e) as [v|] eqn:Hm; [by exists (entryKey e, v); split; [|apply elem_of_map_to_list]|].
      unfold m in Hm. rewrite streams_lookup in Hm. exfalso.
      assert (e ∈ filter (λ e', entryKey e' = entryKey e) es) as Hin by (by apply list_elem_of_filter).
      destruct (filter _ es); [by apply elem_of_nil in Hin|done].
  - rewrite map_map. cbn [fst]. rewrite map_id. unfold ks, sortStrings.
    pose proof (SliceStable_sorted String.ltb ltb_asym not_ltb_trans (map_to_list m).*1) as Hs. fold ks in Hnd.
    unfold ks, sortStrings in Hnd. clearbody m. revert Hnd Hs. generalize (SliceStable String.ltb (map_to_list m).*1) as l.
    intros l Hl Hs. induction Hs as [|k l Hs IH Hk]; [constructor|]. apply NoDup_cons in Hl as [Hn Hl].
    constructor; [by apply IH|]. apply Forall_forall. intros k' Hk'. rewrite Forall_forall in Hk. specialize (Hk k' Hk').
    unfold no_greater in Hk. destruct (String.ltb k k') eqn:E; [done|]. by rewrite (ltb_trichotomy k k' E Hk) in Hn.
  - apply Forall_map, Forall_forall. intros k _. cbn [fst snd]. split; [apply SliceStable_perm|].
    apply SliceStable_sorted; [apply before_asym|apply not_before_trans].
Qed.

(** ** The handler *)

(** The settings of the proxy. *)
Record windowSettings : Type := mkSettings {
  queryRangeWindowing : bool;
  streamResponse : bool;
  queryRangeSplitInterval : Z;
  queryRangeAlignWindows : bool;
  queryRangePartialResponses : bool;
  queryRangePrefilterIndexStats : bool;
  queryRangePrefilterMinWindows : Z;
  queryRangeStreamAwareBatching : bool;
  queryRangeExpensiveWindowHitThreshold : Z;
  queryRangeExpensiveWindowMaxParallel : Z;
  queryRangeFreshness : Z;
  queryRangeHistoryCacheTTL : Z;
  queryRangeRecentCacheTTL : Z
}.

Definition queryRangePrefilterQuery (q : string) : string :=
  let query := TrimSpace q in
  match Cut "|" query with
  | Some (selector, _) =>
      let selector' := TrimSpace selector in
      if String.eqb selector "" || String.eqb selector' "" then query else selector'
  | None => query
  end.

(** The windows with hits. *)
Definition keepWindows (estimate : window → Z) (ws : list window) : list window :=
  filter (λ w, 0 < estimate w) ws.

Lemma prefilter_keeps_rows {E} (rows : window → list E) estimate ws :
  (∀ w, estimate w ≤ 0 → rows w = []) → concat (map rows (keepWindows estimate ws)) = concat (map rows ws).
Proof.
  intros He. unfold keepWindows. induction ws as [|w ws IH]; [done|]. rewrite filter_cons. cbn [map concat].
  case_decide; cbn [map concat]; rewrite IH; [done|]. by rewrite (He w) by lia.
Qed.

Section Handler.
Context `{Clock} {E : Type}.
Variable encode : list E → option string.
Variable decode : string → option (list E).
Variable convert : string → list E.
Variable statusError : Z → string → Backend.goerr.

(** What a batch meets: per window whether its cached fragment is still held, the clock when
    its lifetime is chosen and at the breaker, the backend; the order in which the fetches of
    a number of windows are done; the clock of a forced backoff; whether the context ends the wait after it. *)
Record batchEnv : Type := mkBatch {
  be_live : window → bool;
  be_now : window → Z;
  be_allowAt : window → Z;
  be_backend : list (string * string) → Z → attemptEnv;
  be_order : nat → list nat;
  be_forceAt : Z;
  be_wait : option Backend.goerr
}.

Variable cfg : windowSettings.
Variable env : nat → batchEnv.
Variable r : windowRequest.

Definition fetchAt (e : batchEnv) (limit : Z) (w : window) (st : fetchState) : (list E + Backend.goerr) * fetchState :=
  fetchQueryRangeWindow encode decode convert statusError r limit w (be_live e w)
    (queryRangeWindowTTL (be_now e w) (queryRangeFreshness cfg) (queryRangeHistoryCacheTTL cfg) (queryRangeRecentCacheTTL cfg) (endNs w))
    (be_allowAt e w) (be_backend e) st.

(** The goroutines of the group, by the index of their window. *)
Fixpoint fetchEach (e : batchEnv) (ws : list window) (limit : Z) (order : list nat) (st : fetchState)
    : list (nat * (list E + Backend.goerr)) * fetchState :=
  match order with
  | [] => ([], st)
  | i :: order =>
      match ws !! i with
      | None => fetchEach e ws limit order st
      | Some w =>
          let '(res, st) := fetchAt e limit w st in
          let '(outs, st) := fetchEach e ws limit order st in
          ((i, res) :: outs, st)
      end
  end.

Definition failure (o : nat * (list E + Backend.goerr)) : option Backend.goerr :=
  match o.2 with inr e => Some e | inl _ => None end.

(** [results[i]]. *)
Definition resultAt (outs : list (nat * (list E + Backend.goerr))) (i : nat) : list E :=
  match List.find (λ o, (o.1 =? i)%nat) outs with Some (_, inl rs) => rs | _ => [] end.

(** [errgroup]: the error that came first, or the results in window order. *)
Definition fetchQueryRangeWindowBatch (st : nat * fetchState) (ws : list window) (limit : Z)
    : (list (list E) + Backend.goerr) * (nat * fetchState) :=
  let e := env st.1 in
  let limit := if limit <=? 0 then 1 else limit in
  let '(outs, st') := fetchEach e ws limit (be_order e (length ws)) st.2 in
  (match head (omap failure outs) with
   | Some err => inr err
   | None => inl (map (resultAt outs) (seq 0 (length ws)))
   end, (S st.1, st')).

(** What follows the batch just fetched. *)
Definition waitEnds (st : nat * fetchState) : option Backend.goerr := be_wait (env (pred st.1)).

Definition degrade (st : nat * fetchState) : nat * fetchState :=
  (st.1, mkFetch (fs_cache st.2) (fs_breaker st.2) (forceQueryRangeParallelBackoff (be_forceAt (env (pred st.1))) (fs_adaptive st.2))).

Definition batchParallel (estimates : option (gmap string Z)) (st : nat * fetchState) (w : window) : Z * (nat * fetchState) :=
  let '(par, ad) := queryRangeWindowParallelLimit (fs_adaptive st.2) in
  (queryRangeWindowBatchParallelLimit par (queryRangeStreamAwareBatching cfg) (queryRangeExpensiveWindowHitThreshold cfg)
     (queryRangeExpensiveWindowMaxParallel cfg) w estimates,
   (st.1, mkFetch (fs_cache st.2) (fs_breaker st.2) ad)).

(** [hits]: the hit estimates of the windows, or that they could not be had. *)
Definition prefilterQueryRangeWindowsByHits (hits : result (window → Z)) (ws : list window) (ad : adaptive)
    : list window * option (gmap string Z) * adaptive :=
  if negb (queryRangePrefilterIndexStats cfg) || (wlen ws <? queryRangePrefilterMinWindows cfg) then (ws, None, ad)
  else
    let ad := (queryRangeWindowParallelLimit ad).2 in
    match hits with
    | Err _ => (ws, None, ad)
    | Ok estimate =>
        let kept := keepWindows estimate ws in
        (kept, Some (foldl (λ m w, <[queryRangeWindowKey w := estimate w]> m) ∅ kept), ad)
    end.

Definition limitValue : Z :=
  match Atoi (queryLimit r) with Some n => if n <=? 0 then 1000 else n | None => 1000 end.

(** [Ok None] leaves the request to the unsplit path, [Err] is the panic of the split. *)
Definition proxyLogQueryWindowed (start stop : Z) (hits : result (window → Z)) (st : nat * fetchState)
    : result (option (answer (E := E) * (nat * fetchState))) :=
  if negb (queryRangeWindowing cfg) || streamResponse cfg then Ok None
  else
    match splitQueryRangeWindowsWithOptions start stop (queryRangeSplitInterval cfg) (direction r) (queryRangeAlignWindows cfg) with
    | Err msg => Err msg
    | Ok ws =>
        if wlen ws <=? 1 then Ok None
        else
          let '(ws, estimates, ad) := prefilterQueryRangeWindowsByHits hits ws (fs_adaptive st.2) in
          let st := (st.1, mkFetch (fs_cache st.2) (fs_breaker st.2) ad) in
          match ws with
          | [] => Ok (Some (Streams [] false, st))
          | _ => Ok (Some (proxyWindows fetchQueryRangeWindowBatch waitEnds degrade (batchParallel estimates)
                             (queryRangePartialResponses cfg) st ws limitValue))
          end
    end.

End Handler.

(** ** The windowed query is the unsplit one *)

Lemma Itoa_inj a b : Itoa a = Itoa b → a = b.
Proof.
  assert (∀ n, 0 ≤ n → ∀ c, String "-" c ≠ itoa_pos n) as Hneg.
  { intros n Hn c E. pose proof (Itoa_pos_starts n Hn) as Hs. unfold Itoa in Hs. rewrite (proj2 (Z.ltb_ge n 0)) in Hs by lia. by rewrite <- E in Hs. }
  assert (∀ m n, 0 ≤ m → 0 ≤ n → itoa_pos m = itoa_pos n → m = n) as Hpos.
  { intros m n Hm Hn E. pose proof (scan_itoa_pos m Hm) as H1. rewrite E, scan_itoa_pos in H1 by done. congruence. }
  unfold Itoa. destruct (Z.ltb_spec a 0), (Z.ltb_spec b 0); intros E.
  - injection E as E. apply Hpos in E; lia.
  - by apply Hneg in E.
  - symmetry in E. by apply Hneg in E.
  - by apply Hpos.
Qed.

Definition not_colon (c : Ascii.ascii) : bool := negb (Ascii.eqb c ":").

Lemma Itoa_no_colon n : all_bytes_of not_colon (Itoa n) = true.
Proof.
  assert (∀ s, all_digits s = true → all_bytes_of not_colon s = true) as Hd.
  { induction s as [|c s IH]; [done|]. cbn [all_digits all_bytes_of]. intros [Hc Hs]%andb_true_iff. rewrite (IH Hs), andb_true_r.
    unfold not_colon. destruct (Ascii.eqb_spec c ":") as [->|]; [done|]. done. }
  unfold Itoa, itoa_pos. destruct (Z.ltb_spec n 0); cbn [all_bytes_of]; apply Hd, itoa_all_digits; done || lia.
Qed.

Lemma colon_cut a b x y : all_bytes_of not_colon a = true → all_bytes_of not_colon b = true →
  a +:+ ":" +:+ x = b +:+ ":" +:+ y → a = b ∧ x = y.
Proof.
  revert b. induction a as [|c a IH]; intros [|d b] Ha Hb E; cbn in Ha, Hb.
  - change (String ":" x = String ":" y) in E. by injection E as ->.
  - change (String ":" x = String d (b +:+ ":" +:+ y)) in E. by injection E as <- _.
  - change (String c (a +:+ ":" +:+ x) = String ":" y) in E. by injection E as -> _.
  - apply andb_true_iff in Ha as [_ Ha], Hb as [_ Hb]. change (String c (a +:+ ":" +:+ x) = String d (b +:+ ":" +:+ y)) in E. injection E as -> E.
    destruct (IH b Ha Hb E) as [-> ->]. done.
Qed.

Lemma append_cancel a x y : a +:+ x = a +:+ y → x = y.
Proof. induction a as [|c a IH]; [done|]. intros E. apply IH. change (String c (a +:+ x) = String c (a +:+ y)) in E. by injection E. Qed.

(** Fragments of different windows have different keys. *)
Lemma key_window r w w' : queryRangeWindowCacheKey r w = queryRangeWindowCacheKey r w' → w = w'.
Proof.
  unfold queryRangeWindowCacheKey. set (auth := if String.eqb (authFingerprint r) "" then _ else _). cbn [app Join].
  do 12 (intros E; apply append_cancel in E; revert E). intros E.
  apply colon_cut in E as [E1%Itoa_inj E]; [|apply Itoa_no_colon..]. apply colon_cut in E as [E2%Itoa_inj _]; [|apply Itoa_no_colon..].
  destruct w, w'. cbn in *. by subst.
Qed.

Section Unsplit.
Context `{Clock} {E : Type}.
Context (encode : list E → option string) (decode : string → option (list E)) (convert : string → list E)
  (statusError : Z → string → Backend.goerr) (cfg : windowSettings) (env : nat → batchEnv) (r : windowRequest).

(** The rows the query selects, by time. *)
Context (store : list (Z * E)).

Definition during (w : window) : list (Z * E) := filter (λ te, startNs w ≤ te.1 ≤ endNs w) store.

(** The answer of the backend for a window, without a limit. *)
Definition rowsIn (w : window) : list E :=
  map snd (if String.eqb (direction r) "forward" then during w else reverse (during w)).

(** A successful call returns the first rows of its window, as many as the limit allows,
    each converted into one entry. *)
Definition serves : Prop := ∀ n limit w attempt, 0 < limit →
  match Backend.vlPostHTTP (a_call (be_backend (env n) (windowParams r limit w) attempt)) with
  | inl (status, body) => status < 400 → convert body = take (Z.to_nat limit) (rowsIn w)
  | inr _ => True
  end.

Definition readsBack : Prop := ∀ l data l', encode l = Some data → decode data = Some l' → l' = l.

(** Every goroutine of a group has ended when [Wait] returns. *)
Definition scheduled : Prop := ∀ n k, be_order (env n) k ≡ₚ seq 0 k.

Lemma during_split s m e : StronglySorted (λ a b : Z * E, a.1 ≤ b.1) store → s ≤ m → m + 1 ≤ e →
  during (mkWindow s e) = during (mkWindow s m) ++ during (mkWindow (m + 1) e).
Proof.
  intros Hst Hs He. unfold during. cbn [startNs endNs]. induction Hst as [|x l Hl IH Hx]; [done|]. rewrite !filter_cons.
  destruct (decide (s ≤ x.1 ≤ e)) as [Hp1|Hp1].
  - destruct (decide (s ≤ x.1 ≤ m)) as [Hp2|Hp2].
    + rewrite decide_False by lia. cbn. by rewrite IH.
    + rewrite decide_True by lia. rewrite IH.
      assert (filter (λ te : Z * E, s ≤ te.1 ≤ m) l = []) as ->; [|done].
      apply elem_of_nil_inv. intros y [Hy1 Hy]%list_elem_of_filter. rewrite Forall_forall in Hx. specialize (Hx y Hy). lia.
  - rewrite (decide_False (P := s ≤ x.1 ≤ m)), decide_False by lia. done.
Qed.

Lemma during_tiles s e ws : StronglySorted (λ a b : Z * E, a.1 ≤ b.1) store → tiles s e ws → concat (map during ws) = during (mkWindow s e).
Proof.
  intros Hst Ht. induction Ht as [s e Hs|s m e ws Hs Hw IH]; cbn [map concat]; [by rewrite app_nil_r|].
  rewrite IH. symmetry. apply during_split; [done..|]. by apply tiles_le in Hw.
Qed.

(** Windows that tile a range have its rows. *)
Lemma rows_tiles s e ws : StronglySorted (λ a b : Z * E, a.1 ≤ b.1) store → tiles s e ws →
  concat (map rowsIn (orient (direction r) ws)) = rowsIn (mkWindow s e).
Proof.
  intros Hst Ht. unfold rowsIn, orient. rewrite <- (during_tiles s e ws) by done. destruct (String.eqb (direction r) "forward").
  - clear Ht. induction ws as [|w ws IH]; [done|]. cbn. by rewrite map_app, IH.
  - clear Ht. induction ws as [|w ws IH]; [done|]. cbn [map concat]. rewrite reverse_cons, map_app, concat_app, IH. cbn.
    by rewrite app_nil_r, reverse_app, map_app.
Qed.

Lemma attempts_body fuel k e ad body ad' : attemptLoop statusError fuel k e ad = (ABody body, ad') →
  ∃ j status, Backend.vlPostHTTP (a_call (e j)) = inl (status, body) ∧ status < 400.
Proof.
  revert k ad. induction fuel as [|fuel IH]; intros k ad; cbn [attemptLoop];
    (destruct (Backend.vlPostHTTP (a_call (e k))) as [[status b]|err] eqn:Hv;
     [destruct (Z.ltb_spec status 400) as [Hl|Hl]; [intros [= -> _]; by exists k, status|]|]); try done;
    (destruct (negb _); [done|]; destruct (a_wait _); [done|apply IH]).
Qed.

(** The cached fragments of the query answer a fetch with the limit. *)
Definition holds (limit : Z) (st : fetchState) : Prop := ∀ w frag,
  (fs_cache st !! queryRangeWindowCacheKey r w ≫= decode) = Some frag → adequate rowsIn limit w frag.

Lemma take_adequate limit w : adequate rowsIn limit w (take (Z.to_nat limit) (rowsIn w)).
Proof.
  destruct (Z.le_gt_cases limit (Z.of_nat (length (rowsIn w)))).
  - right. split; [rewrite length_take; lia|]. eexists. symmetry. apply take_drop.
  - left. apply take_ge. lia.
Qed.

Lemma fetchAt_adequate n limit w st : serves → readsBack → 0 < limit → holds limit st →
  let '(res, st') := fetchAt encode decode convert statusError cfg r (env n) limit w st in
  holds limit st' ∧ match res with inl rs => adequate rowsIn limit w rs | inr _ => True end.
Proof.
  intros Hserve Hback Hl Hh. unfold fetchAt, fetchQueryRangeWindow.
  destruct (if be_live (env n) w then _ else None) as [entries|] eqn:Ec.
  { split; [done|]. destruct (be_live (env n) w); [|done]. by apply Hh. }
  destruct (CB.Allow _ _) as [[|] cb]; [|done].
  destruct (attemptLoop _ _ _ _ _) as [[body|e c|e] ad] eqn:Ea; [|done|done].
  apply attempts_body in Ea as (j & status & Hv & Hs). pose proof (Hserve n limit w j Hl) as Hb. rewrite Hv in Hb. specialize (Hb Hs).
  split; [|rewrite Hb; apply take_adequate]. destruct (0 <? _); [|done]. destruct (encode (convert body)) as [data|] eqn:Ee; [|done].
  intros w' frag. cbn [fs_cache]. destruct (decide (queryRangeWindowCacheKey r w = queryRangeWindowCacheKey r w')) as [Ek|Ek].
  - rewrite <- Ek, lookup_insert_eq. cbn [mbind option_bind]. intros Hd. apply key_window in Ek as <-.
    rewrite (Hback _ _ _ Ee Hd), Hb. apply take_adequate.
  - rewrite lookup_insert_ne by done. apply Hh.
Qed.

Lemma fetchEach_adequate n ws limit order st : serves → readsBack → 0 < limit → holds limit st →
  let '(outs, st') := fetchEach encode decode convert statusError cfg r (env n) ws limit order st in
  holds limit st' ∧ Forall (λ o, match o.2 with inl rs => ∃ w, ws !! o.1 = Some w ∧ adequate rowsIn limit w rs | inr _ => True end) outs ∧
  map fst outs = filter (λ i, is_Some (ws !! i)) order.
Proof.
  intros Hserve Hback Hl. revert st. induction order as [|i order IH]; intros st Hh; [done|]. cbn [fetchEach]. rewrite filter_cons.
  destruct (ws !! i) as [w|] eqn:Ew; [|rewrite decide_False by (by intros []); by apply IH].
  rewrite decide_True by done.
  pose proof (fetchAt_adequate n limit w st Hserve Hback Hl Hh) as Hf. destruct (fetchAt _ _ _ _ _ _ _ _ _ _) as [res st1]. destruct Hf as [Hh1 Hr].
  specialize (IH st1 Hh1). destruct (fetchEach _ _ _ _ _ _ _ _ _ _ _) as [outs st2]. destruct IH as (Hp1 & Hp2 & Hp3).
  split; [done|]. split; [|cbn; by rewrite Hp3]. constructor; [|done]. cbn. destruct res; [by exists w|done].
Qed.

Lemma resultAt_adequate limit ws (outs : list (nat * (list E + Backend.goerr))) :
  Forall (λ o, match o.2 with inl rs => ∃ w, ws !! o.1 = Some w ∧ adequate rowsIn limit w rs | inr _ => True end) outs →
  head (omap failure outs) = None → (∀ i, (i < length ws)%nat → i ∈ map fst outs) →
  Forall2 (adequate rowsIn limit) ws (map (resultAt outs) (seq 0 (length ws))).
Proof.
  intros Ho Hf Hi. apply Forall2_same_length_lookup_2; [by rewrite length_map, length_seq|].
  intros i w rs Hw Hrs. rewrite list_lookup_fmap in Hrs. apply fmap_Some in Hrs as (k & Hk & ->). apply lookup_seq in Hk as [-> Hlt].
  specialize (Hi i Hlt). unfold resultAt. destruct (List.find _ outs) as [[j res]|] eqn:Ef.
  - apply List.find_some in Ef as [Hin Hj]. cbn in Hj. apply Nat.eqb_eq in Hj as ->. apply list_elem_of_In in Hin.
    rewrite Forall_forall in Ho. specialize (Ho _ Hin). cbn in Ho. destruct res as [l|e].
    + destruct Ho as (w' & Hw' & Ha). rewrite Hw in Hw'. by injection Hw' as ->.
    + exfalso. destruct (omap failure outs) eqn:Eo; [|done]. assert (e ∈ omap failure outs) as Hc by (apply list_elem_of_omap; by exists (i, inr e)).
      rewrite Eo in Hc. by apply not_elem_of_nil in Hc.
  - exfalso. apply list_elem_of_fmap in Hi as ([j res] & Ej & Hin). cbn in Ej. subst j.
    apply list_elem_of_In in Hin. pose proof (List.find_none _ _ Ef _ Hin) as Hn. cbn in Hn. by rewrite Nat.eqb_refl in Hn.
Qed.

Lemma batch_adequate st ws limit : serves → readsBack → scheduled → 0 < limit → holds limit st.2 →
  let '(res, st') := fetchQueryRangeWindowBatch encode decode convert statusError cfg env r st ws limit in
  holds limit st'.2 ∧ match res with inl rs => Forall2 (adequate rowsIn limit) ws rs | inr _ => True end.
Proof.
  intros Hserve Hback Hsch Hl Hh. unfold fetchQueryRangeWindowBatch. rewrite (proj2 (Z.leb_gt limit 0)) by lia.
  pose proof (fetchEach_adequate st.1 ws limit (be_order (env st.1) (length ws)) st.2 Hserve Hback Hl Hh) as Hf.
  destruct (fetchEach _ _ _ _ _ _ _ _ _ _ _) as [outs st']. destruct Hf as (Hp1 & Hp2 & Hp3). cbn [snd]. split; [done|].
  destruct (head (omap failure outs)) eqn:Eh; [done|]. apply resultAt_adequate; [done..|].
  intros i Hi. rewrite Hp3, list_elem_of_filter. split; [by apply lookup_lt_is_Some|].
  pose proof (Hsch st.1 (length ws)) as Hperm. rewrite Hperm. apply elem_of_seq. lia.
Qed.

(** A backend that answers every first attempt. *)
Definition healthy : Prop := ∀ n limit w, ∃ status body,
  Backend.vlPostHTTP (a_call (be_backend (env n) (windowParams r limit w) 1)) = inl (status, body) ∧ status < 400.

Definition closedBreaker (st : fetchState) : Prop := CB.atomicState (fs_breaker st) = CB.cbClosed.

Lemma fetchAt_succeeds n limit w st : healthy → closedBreaker st →
  ∃ rs st', fetchAt encode decode convert statusError cfg r (env n) limit w st = (inl rs, st') ∧ closedBreaker st'.
Proof.
  intros Hok Hc. unfold fetchAt, fetchQueryRangeWindow. destruct (if be_live (env n) w then _ else None) as [entries|]; [by eexists _, _|].
  unfold CB.Allow. rewrite decide_True by done. destruct (Hok n limit w) as (status & body & Hv & Hs).
  unfold moreAttempts. change (Z.to_nat (queryRangeWindowFetchAttempts - 1)) with 4%nat. cbn [attemptLoop]. rewrite Hv, (proj2 (Z.ltb_lt _ _)) by done.
  eexists _, _. split; [done|]. unfold closedBreaker. cbn [fs_breaker]. unfold CB.RecordSuccess. by rewrite decide_True.
Qed.

Lemma batch_succeeds st ws limit : healthy → closedBreaker st.2 →
  ∃ rs st', fetchQueryRangeWindowBatch encode decode convert statusError cfg env r st ws limit = (inl rs, st') ∧ closedBreaker st'.2.
Proof.
  intros Hok Hc. unfold fetchQueryRangeWindowBatch. set (l := if limit <=? 0 then 1 else limit).
  assert (∀ order st0, closedBreaker st0 →
    let '(outs, st') := fetchEach encode decode convert statusError cfg r (env st.1) ws l order st0 in
    omap failure outs = [] ∧ closedBreaker st') as He.
  { induction order as [|i order IH]; intros st0 Hc0; [done|]. cbn [fetchEach]. destruct (ws !! i) as [w|]; [|by apply IH].
    destruct (fetchAt_succeeds st.1 l w st0 Hok Hc0) as (rs & st1 & -> & Hc1). specialize (IH st1 Hc1).
    by destruct (fetchEach _ _ _ _ _ _ _ _ _ _ _) as [outs st2]. }
  specialize (He (be_order (env st.1) (length ws)) st.2 Hc). destruct (fetchEach _ _ _ _ _ _ _ _ _ _ _) as [outs st']. destruct He as [-> Hc'].
  by eexists _, _.
Qed.

(** A window the estimates skip has no rows. *)
Definition estimated (hits : result (window → Z)) : Prop :=
  match hits with Ok estimate => ∀ w, estimate w ≤ 0 → rowsIn w = [] | Err _ => True end.

Lemma prefilter_rows hits ws ad : estimated hits →
  concat (map rowsIn (prefilterQueryRangeWindowsByHits cfg hits ws ad).1.1) = concat (map rowsIn ws).
Proof.
  intros Hest. unfold prefilterQueryRangeWindowsByHits. destruct (_ || _); [done|]. cbv zeta. destruct hits as [estimate|]; [|done].
  by apply prefilter_keeps_rows.
Qed.

(** The limit of the request. *)
Lemma limit_positive : 0 < limitValue r.
Proof. unfold limitValue. destruct (Atoi _) as [n|]; [|lia]. destruct (Z.leb_spec n 0); lia. Qed.

(** The loop over windows that have the rows of the range. *)
Lemma windows_answer estimates st ws start stop : serves → readsBack → scheduled → holds (limitValue r) st.2 →
  concat (map rowsIn ws) = rowsIn (mkWindow start stop) →
  let a := (proxyWindows (fetchQueryRangeWindowBatch encode decode convert statusError cfg env r) (waitEnds env) (degrade env)
              (batchParallel cfg estimates) (queryRangePartialResponses cfg) st ws (limitValue r)).1 in
  match a with
  | Streams c false => c = take (Z.to_nat (limitValue r)) (rowsIn (mkWindow start stop))
  | Streams _ true => queryRangePartialResponses cfg = true
  | ErrorAnswer _ _ => True
  | NoFuel => False
  end ∧ (healthy → closedBreaker st.2 → ∃ c, a = Streams c false).
Proof.
  intros Hserve Hback Hsch Hh Hrows a. subst a. unfold proxyWindows. pose proof limit_positive as Hlim. split.
  - match goal with |- match ?x with _ => _ end => destruct x as [c [|]| |] eqn:Ea end; [by apply runWindows_partial in Ea as [?|?]| |done|].
    + rewrite <- Hrows. eapply (runWindows_sound _ _ _ _ _ rowsIn (λ l st, holds l st.2)) with (done_rows := []) in Ea; [exact Ea|..].
      * intros l l' st' Hl Hi w frag Hw. eapply adequate_less; [exact Hl|]. by apply Hi.
      * intros st' ws' l Hl Hi. by apply batch_adequate.
      * done.
      * intros l st' w Hi. unfold batchParallel. by destruct (queryRangeWindowParallelLimit _).
      * cbn. by rewrite Z.sub_0_r.
      * cbn. lia.
      * by rewrite take_nil.
    + by apply runWindows_total in Ea; [|lia].
  - intros Hok Hc. eapply (runWindows_succeeds _ _ _ _ _ (λ st, closedBreaker st.2)); [| |done|lia].
    + intros st' ws' l _ Hq. by apply batch_succeeds.
    + intros st' w Hq. unfold batchParallel. by destruct (queryRangeWindowParallelLimit _).
Qed.


End Unsplit.
End Win.

(** ** Instances *)

Module WinDemo.
Import Text Win Filter.FilterDemo TimesDemo.
#[local] Existing Instances integers integer_order plain_clock.

Lemma windows_tile_range_witness :
  ∃ ws m, splitQueryRangeWindowsWithOptions 5 100 30 "backward" true = Ok (orient "backward" ws) ∧
    tiles 5 m ws ∧ m ≤ 100 ∧ wlen ws ≤ maxQueryRangeWindows ∧ (wlen ws < maxQueryRangeWindows → m = 100).
Proof. refine (windows_tile_range 5 100 30 "backward" true _ _ _ _ _); vm_compute; try (split; congruence); congruence. Defined.

Lemma windows_aligned_witness :
  ∀ w, w ∈ [mkWindow 5 29; mkWindow 30 59; mkWindow 60 89; mkWindow 90 100] → startNs w = 5 ∨ (30 | startNs w).
Proof.
  refine (windows_aligned 5 100 30 "forward" _ _ _ _ _ _); try (vm_compute; reflexivity); vm_compute;
    try (split; congruence); congruence.
Defined.

Lemma window_cap_drops_newest_witness :
  ∃ ws m, splitQueryRangeWindowsWithOptions 0 10000 2 "backward" false = Ok (orient "backward" ws) ∧
    tiles 0 m ws ∧ m < 10000.
Proof. refine (window_cap_drops_newest 0 10000 2 "backward" false _ _ _ _); vm_compute; split; congruence. Defined.

Lemma range_overflow_panics_witness :
  splitQueryRangeWindowsWithOptions (-9000000000000000000) 9000000000000000000 3600000000000 "" true =
    Err "makeslice: cap out of range".
Proof.
  refine (range_overflow_panics (-9000000000000000000) 9000000000000000000 3600000000000 "" true _ _ _ _);
    vm_compute; split; congruence.
Defined.

Definition outage : Backend.goerr := Backend.plain "connection refused".
Definition four : list window := [mkWindow 0 9; mkWindow 10 19; mkWindow 20 29; mkWindow 30 39].

(** A partial response goes on after the batch it gave up: the lines of the windows
    in between are missing from the middle of the answer. *)
Definition middle_down (_ : unit) (ws : list window) (limit : Z) : (list (list Z) + Backend.goerr) * unit :=
  (if existsb (λ w, startNs w =? 10) ws then inr outage else inl (map (λ w, [startNs w; endNs w]) ws), tt).

Lemma partial_leaves_a_hole :
  (proxyWindows middle_down (λ _, None) (λ s, s) (λ s _, (1, s)) true tt four 100).1 = Streams [0; 9; 20; 29; 30; 39] true.
Proof. vm_compute. reflexivity. Qed.

Definition settings : adaptive := mkAdaptive true 8 2 8 0 50 1000 500 4 0 0 None.

Lemma parallelism_bounded_witness :
  2 ≤ queryRangeParallelCurrent (forceQueryRangeParallelBackoff 7 settings) ≤ 8 ∧
  2 ≤ (queryRangeWindowParallelLimit (forceQueryRangeParallelBackoff 7 settings)).1 ≤ 8.
Proof.
  refine (parallelism_bounded 2 8 settings (forceQueryRangeParallelBackoff 7 settings) _ _ _); [lia|vm_compute; split_and!; congruence|].
  eapply rtc_l; [apply adj_force|apply rtc_refl].
Defined.

(** A codec over single-byte rows, and a backend with three of them. *)
Definition row : Type := Ascii.ascii.
Fixpoint bytes_of (s : string) : list row := match s with "" => [] | String a s => a :: bytes_of s end.
Fixpoint of_bytes (l : list row) : string := match l with [] => "" | a :: l => String a (of_bytes l) end.

Definition status_err (s : Z) (b : string) : Backend.goerr :=
  Backend.mkErr (Some (s, Backend.vlErrorUnclassified)) false false false false false false false false b.

Definition answering (status : Z) (body : string) : attemptEnv :=
  mkAttempt (Backend.mkCall 0 Backend.CtxLive (Backend.RTResponse status body) (CB.mkReadings 0 0 0)) 5 0 None.

Definition limited (p : list (string * string)) (attempt : Z) : attemptEnv :=
  answering 200 (if existsb (λ kv, String.eqb kv.1 "limit" && String.eqb kv.2 "1") p then "a" else "abc").

Definition req : windowRequest := mkReq "" "*" "forward" "1000" false false "f" "".
Definition closed : fetchState := mkFetch ∅ (CB.NewCircuitBreaker 5 2 10 60) settings.
Definition probing : fetchState := mkFetch ∅ (CB.set_probes 0 1 (CB.set_state CB.cbHalfOpen (CB.NewCircuitBreaker 5 2 10 60))) settings.

Definition get_window := fetchQueryRangeWindow (λ l, Some (of_bytes l)) (λ s, Some (bytes_of s)) bytes_of status_err.

Lemma fetch_reports_once_witness :
  let '(res, st') := get_window req 2 (mkWindow 0 9) true 60 0 limited closed in
  match res with
  | inl _ => fs_breaker st' = CB.RecordSuccess (fs_breaker closed)
  | inr _ => fs_breaker st' = fs_breaker closed ∨
      ∃ c, fs_breaker st' = CB.RecordFailure (Backend.at_record c) (fs_breaker closed)
  end.
Proof.
  refine (fetch_reports_once (λ l, Some (of_bytes l)) (λ s, Some (bytes_of s)) bytes_of status_err req 2 (mkWindow 0 9)
    true 60 0 limited closed (fs_breaker closed) _ _); vm_compute; reflexivity.
Defined.

Definition calls : list (bool * Backend.call) := [(true, a_call (answering 200 ""))].

Lemma http_errors_wedge_breaker_witness :
  let '(_, st') := get_window req 2 (mkWindow 0 9) false 60 0 (λ _ _, answering 422 "no") probing in
  Backend.serve calls (fs_breaker st') = (map (λ _, inr Backend.breaker_open_err) calls, fs_breaker st').
Proof.
  refine (http_errors_wedge_breaker (λ l, Some (of_bytes l)) (λ s, Some (bytes_of s)) bytes_of status_err req 2
    (mkWindow 0 9) false 60 0 (λ _ _, answering 422 "no") probing calls _ _ _ _ _ _); try (vm_compute; reflexivity).
  - intros p j. exists 422, "no". split; [reflexivity|lia].
  - intros s b. discriminate.
Defined.

Lemma cached_fragment_short_witness :
  let '(_, st1) := get_window req 1 (mkWindow 0 9) false 60 0 limited closed in
  let '(res, _) := get_window req 3 (mkWindow 0 9) true 60 0 limited st1 in
  res = inl (take (Z.to_nat 1) (bytes_of "abc")) ∧
  ¬ adequate (λ _, bytes_of "abc") 3 (mkWindow 0 9) (take (Z.to_nat 1) (bytes_of "abc")).
Proof.
  refine (cached_fragment_short (λ l, Some (of_bytes l)) (λ s, Some (bytes_of s)) bytes_of status_err req (mkWindow 0 9)
    1 3 (λ _, bytes_of "abc") (bytes_of "abc") limited 0 0 60 60 closed _ _ _ _ _ _ _);
    try (vm_compute; reflexivity); try lia.
  - exists "a". split; vm_compute; reflexivity.
  - vm_compute. congruence.
Defined.

(** Four rows, a backend that reads its parameters and is down at the first attempt, and
    windows of ten nanoseconds fetched in batches of up to four, the last one first. *)
Definition readZ (s : string) : Z :=
  match s with String "-" t => - (scan_digits 0 t).1 | _ => (scan_digits 0 s).1 end.

Lemma readZ_Itoa n : readZ (Itoa n) = n.
Proof.
  unfold Itoa. destruct (Z.ltb_spec n 0) as [Hn|Hn]; cbn [readZ]; [rewrite scan_itoa_pos by lia; cbn; lia|].
  pose proof (Itoa_pos_starts n Hn) as Hs. unfold Itoa in Hs. rewrite (proj2 (Z.ltb_ge n 0)) in Hs by lia.
  pose proof (scan_itoa_pos n Hn) as Hsc. unfold readZ. destruct (itoa_pos n) as [|c t]; [done|].
  destruct (Ascii.eqb_spec c "-") as [->|Hc]; [done|]. destruct c as [[] [] [] [] [] [] [] []]; try (by rewrite Hsc); done.
Qed.

Lemma bytes_back l : bytes_of (of_bytes l) = l.
Proof. induction l as [|a l IH]; [done|]. cbn. by rewrite IH. Qed.

Definition logged : list (Z * row) := [(5, "a"%char); (15, "b"%char); (16, "c"%char); (35, "d"%char)].

Definition param (k : string) (p : list (string * string)) : Z :=
  readZ (default "" (snd <$> List.find (λ kv, String.eqb kv.1 k) p)).

Definition loggedBackend (p : list (string * string)) (attempt : Z) : attemptEnv :=
  if attempt =? 1 then mkAttempt (Backend.mkCall 0 Backend.CtxLive (Backend.RTTransport outage) (CB.mkReadings 0 0 0)) 5 0 None
  else answering 200 (of_bytes (take (Z.to_nat (param "limit" p)) (rowsIn (mkReq "" "*" "backward" "3" false false "f" "") logged (mkWindow (param "start" p) (param "end" p))))).

Definition loggedRequest : windowRequest := mkReq "" "*" "backward" "3" false false "f" "".
Definition loggedSettings : windowSettings := mkSettings true false 10 true false true 2 false 0 0 0 60 60.
Definition loggedEnv (_ : nat) : batchEnv := mkBatch (λ _, true) (λ _, 0) (λ _, 0) loggedBackend (λ k, reverse (seq 0 k)) 0 None.
Definition loggedHits : result (window → Z) := Ok (λ w, Z.of_nat (length (rowsIn loggedRequest logged w))).

Definition runLogged :=
  proxyLogQueryWindowed (λ l, Some (of_bytes l)) (λ s, Some (bytes_of s)) bytes_of status_err loggedSettings loggedEnv loggedRequest 3 39 loggedHits (0%nat, closed).

Lemma logged_answer : match runLogged with Ok (Some out) => out.1 = Streams ["d"%char; "c"%char; "b"%char] false | _ => False end.
Proof. by vm_compute. Qed.


End WinDemo.
