(* ===== verification/ColdStore.v ===== *)
(** * Hot and cold storage
      (src/internal/proxy/cold_routing.go, cold_dispatch.go)

    Old rows live in a second backend.  The router decides by time range and by the
    cold store's manifest which backends a query goes to; a query on both is cut at
    the boundary and the two bodies are merged line by line.  The cold store only
    scans forwards, so backward queries walk it in hourly chunks.  [Cold.cold] is its
    contract: the first [limit] rows of a range, oldest first. *)

From S2P Require Import Prelude GoText Utf8 LogqlAst LogqlFilter TimeUtils.

#[local] Open Scope Z_scope.

Module Cold.
Import Text.

(** ** Routing *)

Record ManifestRange : Type := mkManifest {
  MinTime : Z;
  MaxTime : Z;
  TotalFiles : Z
}.

Record ColdRouter : Type := mkRouter {
  boundary : Z;
  overlap : Z;
  manifest : option ManifestRange
}.

(** The defaults of [NewColdRouter]. *)
Definition NewColdRouter (enabled : bool) (url : string) (cfgBoundary cfgOverlap : Z) : option ColdRouter :=
  if negb enabled || String.eqb url "" then None
  else Some (mkRouter (if cfgBoundary <=? 0 then 7 * 24 * Hour else cfgBoundary)
                      (if cfgOverlap <=? 0 then Hour else cfgOverlap) None).

(** A refresh that fails leaves the manifest as it is. *)
Definition refreshManifest (decoded : option ManifestRange) (cr : ColdRouter) : ColdRouter :=
  match decoded with
  | Some m => mkRouter (boundary cr) (overlap cr) (Some m)
  | None => cr
  end.

Inductive RouteDecision : Type := RouteHotOnly | RouteColdOnly | RouteBoth.

Definition Route (cr : option ColdRouter) (now startNs endNs : Z) : RouteDecision :=
  match cr with
  | None => RouteHotOnly
  | Some cr =>
      let hotBoundary := now - boundary cr in
      let coldEnd := hotBoundary + overlap cr in
      if match manifest cr with
         | Some m => (TotalFiles m =? 0) || (MaxTime m <? startNs)
         | None => false
         end then RouteHotOnly
      else if (endNs <? coldEnd) && (startNs <? hotBoundary) then RouteColdOnly
      else if hotBoundary <=? startNs then RouteHotOnly
      else RouteBoth
  end.

Definition ColdBoundaryNs (now : Z) (cr : ColdRouter) : Z := wrap64 (now - boundary cr).

(** [ParseTimeRangeFromRequest]: zero stands for a bound that is missing. *)
Definition ParseTimeRangeFromRequest `{Clock} (now1 now2 : Z) (startStr endStr : string) : Z * Z :=
  let parse s := if String.eqb s "" then 0 else default 0 (Times.parseFlexTimestamp s) in
  let s := parse startStr in
  let e := parse endStr in
  (if s =? 0 then wrap64 (now1 - Hour) else s, if e =? 0 then now2 else e).

(** The two ranges of [proxyLogQueryBoth]. *)
Definition coldRange (boundaryNs startNs endNs : Z) : Z * Z :=
  (startNs, if endNs <? boundaryNs then endNs else boundaryNs).

Definition hotRange (boundaryNs startNs endNs : Z) : Z * Z :=
  (if startNs <? boundaryNs then boundaryNs else startNs, endNs).

(** ** The request body *)

(** [stringReader.Read] with a buffer of [k] bytes: the bytes and whether they end
    the body.  The receiver is a value, so the reader stays where it is. *)
Definition Read (s : string) (k : nat) : string * bool :=
  (Utf8.prefix k s, negb (String.length (Utf8.prefix k s) <? String.length s)%nat).

(** A client that reads until the end, at most [fuel] times. *)
Fixpoint readBody (fuel k : nat) (s : string) : string * bool :=
  match fuel with
  | O => ("", false)
  | S fuel =>
      let '(b, eof) := Read s k in
      if eof then (b, true)
      else let '(rest, done) := readBody fuel k s in (b +:+ rest, done)
  end.

(** ** NDJSON bodies *)

Definition newline : Ascii.ascii := "010".

(** [bytes.TrimRight(line, "\r")]. *)
Definition trimCR (s : string) : string := rev (span (λ c, Ascii.eqb c "013") (rev s)).2.

Definition bodyLines (body : string) : list string :=
  filter (λ l, l ≠ "") (map trimCR (Split newline body)).

Definition countNDJSONLines (body : string) : Z :=
  Z.of_nat (length (filter (λ l, l ≠ "") (map TrimSpace (Split newline body)))).

Definition joinLines (ls : list string) : string := Join (String newline "") ls.

Definition reverseNDJSONBody (body : string) : string := joinLines (reverse (bodyLines body)).

(** The limit of a request parameter, 1000 when it is not a positive number. *)
Definition limitOf (limitParam : string) : Z :=
  match Atoi limitParam with
  | Some n => if n <=? 0 then 1000 else n
  | None => 1000
  end.

(** The loop of [trimNDJSONBodyToLimit] and [readNDJSONToLimit] on trimmed lines. *)
Fixpoint keepLines (limit count : Z) (out : string) (ls : list string) : string :=
  match ls with
  | [] => out
  | l :: ls =>
      if String.eqb l "" then keepLines limit count out ls
      else if limit <=? count then out
      else keepLines limit (count + 1) ((if 0 <? count then out +:+ String newline "" else out) +:+ l) ls
  end.

Definition trimNDJSONBodyToLimit (body limitParam : string) : string :=
  keepLines (limitOf limitParam) 0 "" (map trimCR (Split newline body)).

(** The circular buffer of [readAndReverseNDJSON]. *)
Definition maxRingSize : nat := 5000.

Definition ringLimit (limit : Z) : nat :=
  if (limit <=? 0) || (Z.of_nat maxRingSize <? limit) then maxRingSize else Z.to_nat limit.

Definition ringWrite (limit : nat) (st : gmap nat string * nat) (line : string) : gmap nat string * nat :=
  if String.eqb line "" then st else (<[(st.2 mod limit)%nat := line]> st.1, S st.2).

Definition readAndReverseNDJSON (lines : list string) (limitParam : Z) : string :=
  let limit := ringLimit limitParam in
  let '(ring, head) := foldl (ringWrite limit) (∅, 0%nat) (map trimCR lines) in
  let n := Nat.min head limit in
  let start := (head - n)%nat in
  joinLines (reverse (map (λ i, default "" (ring !! ((start + i) mod limit)%nat)) (seq 0 n))).

(** ** Walking the cold store backwards *)

Definition coldBackwardChunkDuration : Z := Hour.
Definition maxLimitValue : Z := 10000.

Section Chunks.
Context {R : Type}.

(** The cold store's answer to a range and a limit: rows, or an error. *)
Variable coldPost : Z → Z → Z → result (list R).

(** The loop, newest chunk first; [chunks] is what it has so far.  A chunk moves the
    end by an hour or reaches the start, so the hours of the range are enough fuel. *)
Fixpoint chunkLoop (fuel : nat) (startNs chunkEnd limit accCount : Z) (chunks : list (list R)) : result (list (list R)) :=
  match fuel with
  | O => Err "out of fuel"
  | S fuel =>
      if negb (startNs <? chunkEnd) then Ok chunks
      else
        let chunkStart := wrap64 (chunkEnd - coldBackwardChunkDuration) in
        let chunkStart := if chunkStart <? startNs then startNs else chunkStart in
        let chunkLimit := limit - accCount in
        if chunkLimit <=? 0 then Ok chunks
        else
          let chunkLimit := if maxLimitValue <? chunkLimit then maxLimitValue else chunkLimit in
          match coldPost chunkStart chunkEnd chunkLimit with
          | Err e => Err e
          | Ok chunk =>
              let chunks := chunks ++ [chunk] in
              let accCount := accCount + Z.of_nat (length chunk) in
              if limit <=? accCount then Ok chunks
              else chunkLoop fuel startNs chunkStart limit accCount chunks
          end
  end.

Definition chunkFuel (startNs endNs : Z) : nat := S (S (Z.to_nat ((endNs - startNs) / coldBackwardChunkDuration + 1))).

(** The rows of the chunks joined, oldest first. *)
Definition coldBackwardChunkedFetch (startNs endNs limit : Z) : result (list R) :=
  match chunkLoop (chunkFuel startNs endNs) startNs endNs limit 0 [] with
  | Err e => Err e
  | Ok chunks => Ok (concat (reverse chunks))
  end.

End Chunks.

(** ** Merging label values *)

(** Values with their hits, added up; a Go map, so the order of the answer is
    not determined. *)
Definition addHits (m : gmap string Z) (v : string * Z) : gmap string Z :=
  <[v.1 := wrap64 (default 0 (m !! v.1) + v.2)]> m.

Definition MergeValues (hot cold : list (string * Z)) : gmap string Z :=
  foldl addHits (foldl addHits ∅ hot) cold.

(** ** The router *)

(** Whatever instant of the range a row has, the query is sent to the backend
    that keeps it: rows younger than the overlap to the hot one, rows older than the
    boundary to the cold one as long as its manifest has rows that young. *)
Theorem route_consults_owner cr now s e t : 0 ≤ overlap cr → s ≤ t ≤ e →
  (now - boundary cr + overlap cr ≤ t → Route (Some cr) now s e ≠ RouteColdOnly) ∧
  (t < now - boundary cr →
   match manifest cr with Some m => TotalFiles m ≠ 0 ∧ t ≤ MaxTime m | None => True end →
   Route (Some cr) now s e ≠ RouteHotOnly).
Proof.
  intros Ho Ht. unfold Route. cbv zeta. split.
  - intros Hnew. destruct (match manifest cr with Some _ => _ | None => _ end); [done|].
    rewrite (proj2 (Z.ltb_ge _ _)) by lia. cbn [andb]. by destruct (_ <=? s).
  - intros Hold Hm.
    assert (match manifest cr with Some m => (TotalFiles m =? 0) || (MaxTime m <? s) | None => false end = false) as ->.
    { destruct (manifest cr) as [m|]; [|done]. destruct Hm as [H1 H2].
      by rewrite (proj2 (Z.eqb_neq _ _)), (proj2 (Z.ltb_ge _ _)) by (done || lia). }
    destruct (_ && _); [done|]. by rewrite (proj2 (Z.leb_gt _ _)) by lia.
Qed.

(** The two ranges cover the request and share no more than the boundary. *)
Definition within (r : Z * Z) (t : Z) : Prop := r.1 ≤ t ≤ r.2.

Lemma both_ranges_cover b s e t : s ≤ b ≤ e →
  (s ≤ t ≤ e ↔ within (coldRange b s e) t ∨ within (hotRange b s e) t) ∧
  (within (coldRange b s e) t → within (hotRange b s e) t → t = b).
Proof. intros Hse. unfold within, coldRange, hotRange. cbn. repeat zcase; lia. Qed.

(** ** The request body *)

Lemma prefix_length k s : (String.length s ≤ k)%nat → Utf8.prefix k s = s.
Proof.
  intros Hk. rewrite <- (Utf8.prefix_suffix k s) at 2.
  assert (Utf8.suffix k s = "") as ->; [|by rewrite append_nil_r].
  pose proof (Utf8.length_suffix k s) as Hl. destruct (Utf8.suffix k s); [done|]. cbn in Hl. lia.
Qed.

Fixpoint copies (n : nat) (s : string) : string := match n with O => "" | S n => s +:+ copies n s end.

(** A form that fits the transport's buffer is sent as it is; a longer one
    never ends: every read returns its first bytes again. *)
Theorem request_body_read s k fuel : (0 < k)%nat →
  ((String.length s ≤ k)%nat → readBody (S fuel) k s = (s, true)) ∧
  ((k < String.length s)%nat → readBody fuel k s = (copies fuel (Utf8.prefix k s), false)).
Proof.
  intros Hk. split.
  - intros Hs. cbn [readBody]. unfold Read. by rewrite prefix_length, Nat.ltb_irrefl by done.
  - intros Hs. assert (Read s k = (Utf8.prefix k s, false)) as Hr.
    { unfold Read. f_equal. apply negb_false_iff, Nat.ltb_lt. pose proof (Utf8.prefix_suffix k s) as Hps.
      pose proof (Utf8.length_suffix k s) as Hl. apply (f_equal String.length) in Hps. rewrite Utf8.length_app_str in Hps. lia. }
    induction fuel as [|fuel IH]; [done|]. cbn [readBody copies]. by rewrite Hr, IH.
Qed.

(** ** Lines *)

(** A line as the backends write them. *)
Definition clean (l : string) : Prop :=
  l ≠ "" ∧ all_bytes_of (λ a, negb (Ascii.eqb a newline)) l = true ∧ trimCR l = l.

Lemma bodyLines_join ls : Forall clean ls → bodyLines (joinLines ls) = ls.
Proof.
  intros Hls. destruct ls as [|l ls]; [done|]. unfold bodyLines, joinLines.
  rewrite Split_Join by (eapply Forall_impl; [exact Hls|]; by intros ? (_ & ? & _)).
  assert (map trimCR (l :: ls) = l :: ls) as ->.
  { induction Hls as [|x xs (_ & _ & Hx) _ IH]; [done|]. cbn [map]. by rewrite Hx, IH. }
  apply filter_all. eapply Forall_impl; [exact Hls|]. by intros ? (? & _).
Qed.

Lemma keepLines_take ls limit count out : 0 ≤ count → Forall clean ls → (count = 0 → out = "") →
  keepLines limit count out ls =
    (let kept := take (Z.to_nat (limit - count)) ls in
     match kept with [] => out | _ => if 0 <? count then out +:+ String newline (joinLines kept) else joinLines kept end).
Proof.
  revert count out. induction ls as [|l ls IH]; intros count out Hc Hls Ho; cbn [keepLines]; [by rewrite take_nil|].
  apply Forall_cons in Hls as [(Hne & _) Hls]. rewrite (proj2 (String.eqb_neq l "") Hne).
  destruct (Z.leb_spec limit count) as [Hl|Hl]; [by replace (Z.to_nat (limit - count)) with 0%nat by lia|].
  rewrite IH by (done || lia || (intros; lia)). replace (Z.to_nat (limit - count)) with (S (Z.to_nat (limit - (count + 1)))) by lia.
  cbv zeta. cbn [take]. rewrite (proj2 (Z.ltb_lt 0 (count + 1))) by lia.
  destruct (take (Z.to_nat (limit - (count + 1))) ls) as [|x xs].
  - destruct (Z.ltb_spec 0 count) as [H0|H0]; [by rewrite append_assoc|]. by rewrite Ho by lia.
  - change (joinLines (l :: x :: xs)) with (l +:+ String newline (joinLines (x :: xs))).
    destruct (Z.ltb_spec 0 count) as [H0|H0]; [by rewrite !append_assoc|]. by rewrite Ho by lia.
Qed.

(** Reversing a body gives its lines newest first, and trimming keeps the first
    [limit] of them. *)
Theorem body_lines_reversed_and_trimmed ls limit : Forall clean ls →
  reverseNDJSONBody (joinLines ls) = joinLines (reverse ls) ∧
  trimNDJSONBodyToLimit (joinLines ls) limit = joinLines (take (Z.to_nat (limitOf limit)) ls).
Proof.
  intros Hls. split; [unfold reverseNDJSONBody; by rewrite bodyLines_join|].
  unfold trimNDJSONBodyToLimit. destruct ls as [|l ls]; [by rewrite take_nil|]. unfold joinLines at 1.
  rewrite Split_Join by (eapply Forall_impl; [exact Hls|]; by intros ? (_ & ? & _)).
  assert (map trimCR (l :: ls) = l :: ls) as ->.
  { clear limit. induction Hls as [|x xs (_ & _ & Hx) _ IH]; [done|]. cbn [map]. by rewrite Hx, IH. }
  rewrite keepLines_take by done. rewrite Z.sub_0_r. cbv zeta. change (0 <? 0) with false.
  by destruct (take _ _).
Qed.

(** The ring after [ls]: the last [limit] lines, each at its position modulo. *)
Lemma ring_invariant limit ls : (0 < limit)%nat → Forall clean ls →
  ∃ ring, foldl (ringWrite limit) (∅, 0%nat) ls = (ring, length ls) ∧
    ∀ j, (length ls - limit ≤ j < length ls)%nat → ring !! (j mod limit)%nat = ls !! j.
Proof.
  intros Hl Hls. induction ls as [|l ls IH] using rev_ind; [exists ∅; split; [done|cbn; lia]|].
  apply Forall_app in Hls as [Hls Hx]. apply Forall_cons in Hx as [(Hne & _) _].
  destruct (IH Hls) as (ring & Hr & Hj). exists (<[(length ls mod limit)%nat := l]> ring).
  rewrite foldl_app. cbn [foldl]. rewrite Hr. unfold ringWrite at 1. rewrite (proj2 (String.eqb_neq l "") Hne). cbn [fst snd].
  rewrite length_app. cbn [length]. split; [f_equal; lia|]. intros j Hjr.
  destruct (decide (j = length ls)) as [->|Hjn]; [by rewrite lookup_insert_eq, list_lookup_middle|].
  rewrite lookup_insert_ne; [rewrite Hj, lookup_app_l by lia; done|]. intros Heq.
  assert (0 < length ls - j < limit)%nat as Hd by lia.
  pose proof (Nat.div_mod_eq (length ls) limit) as H1. pose proof (Nat.div_mod_eq j limit) as H2. rewrite Heq in H1.
  generalize dependent (length ls / limit)%nat. intros q1 H1. generalize dependent (j / limit)%nat. intros q2 H2.
  destruct (Nat.le_gt_cases q1 q2); [nia|]. assert (limit * S q2 ≤ limit * q1)%nat by (apply Nat.mul_le_mono_l; lia). lia.
Qed.

(** The ring buffer returns the last [limit] lines of a body (5000 at most),
    newest first. *)
Theorem ring_keeps_newest ls limit : Forall clean ls →
  readAndReverseNDJSON ls limit = joinLines (reverse (drop (length ls - ringLimit limit) ls)).
Proof.
  intros Hls. unfold readAndReverseNDJSON. cbv zeta.
  assert (map trimCR ls = ls) as -> by (induction Hls as [|x xs (_ & _ & Hx) _ IH]; [done|]; cbn [map]; by rewrite Hx, IH).
  set (n := ringLimit limit). assert (0 < n)%nat as Hn.
  { unfold n, ringLimit, maxRingSize. destruct (Z.leb_spec limit 0); cbn [orb]; [lia|]. destruct (_ <? limit); lia. }
  clearbody n. destruct (ring_invariant n ls Hn Hls) as (ring & -> & Hj). do 2 f_equal.
  apply list_eq. intros i. destruct (decide (i < Nat.min (length ls) n)%nat) as [Hi|Hi].
  - rewrite list_lookup_fmap, lookup_seq_lt by lia. cbn. rewrite lookup_drop.
    replace (length ls - n + i)%nat with (length ls - Nat.min (length ls) n + i)%nat by lia.
    rewrite Hj by lia. destruct (lookup_lt_is_Some_2 ls (length ls - Nat.min (length ls) n + i)) as [x ->]; [lia|done].
  - rewrite !lookup_ge_None_2; [done|rewrite length_drop; lia|rewrite length_map, length_seq; lia].
Qed.

(** ** The backward walk *)

Section Walk.
Context {R : Type} (ts : R → Z) (rows : list R).
Hypothesis rows_sorted : StronglySorted (λ a b, ts a ≤ ts b) rows.

(** The rows of a range, its end excluded, and the store's answer: the first
    [limit] of them. *)
Definition sel (a b : Z) : list R := filter (λ r, a ≤ ts r < b) rows.
Definition cold (a b limit : Z) : result (list R) := Ok (take (Z.to_nat limit) (sel a b)).

Lemma sel_empty a : sel a a = [].
Proof. apply filter_none, Forall_forall. intros r _. lia. Qed.

Lemma sel_split a m b : a ≤ m ≤ b → sel a b = sel a m ++ sel m b.
Proof.
  intros Hm. unfold sel. induction rows_sorted as [|x l Hs IH Hx]; [done|]. rewrite !filter_cons.
  destruct (decide (a ≤ ts x < b)), (decide (a ≤ ts x < m)), (decide (m ≤ ts x < b)); try lia; cbn [app]; rewrite ?IH; try done.
  rewrite (filter_none (λ r, a ≤ ts r < m) l); [done|]. eapply Forall_impl; [exact Hx|]. cbn. lia.
Qed.

(** What the walk has when it stops at [a], the last chunk being [a] to [c]. *)
Definition walked (s e limit : Z) (got : list R) : Prop :=
  ∃ a c, s ≤ a ≤ c ∧ c ≤ e ∧ c - a ≤ coldBackwardChunkDuration ∧ Z.of_nat (length (sel c e)) ≤ limit ∧
    got = take (Z.to_nat (limit - Z.of_nat (length (sel c e)))) (sel a c) ++ sel c e ∧
    (a = s ∨ limit ≤ Z.of_nat (length (sel a e))).

Lemma chunkLoop_walked s e limit fuel c chunks :
  MinInt64 + Hour ≤ s → s ≤ c ≤ e → e ≤ MaxInt64 → limit ≤ maxLimitValue →
  concat (reverse chunks) = sel c e → Z.of_nat (length (sel c e)) < limit →
  (Z.to_nat ((c - s) / Hour) + (if (s <? c)%Z then 2 else 1) ≤ fuel)%nat →
  ∃ chunks', chunkLoop cold fuel s c limit (Z.of_nat (length (sel c e))) chunks = Ok chunks' ∧
    walked s e limit (concat (reverse chunks')).
Proof.
  intros Hlo Hc He Hlim. revert c chunks Hc. induction fuel as [|fuel IH]; intros c chunks Hc Hch Hn Hf; [destruct (s <? c); lia|].
  cbn [chunkLoop]. destruct (Z.ltb_spec s c) as [Hsc|Hsc]; cbn [negb].
  2:{ exists chunks. split; [done|]. assert (c = s) as -> by lia. exists s, s. rewrite sel_empty, take_nil. unfold coldBackwardChunkDuration, Hour, Minute, Second.
      split_and!; try done; lia || (by left). }
  assert (0 < Hour) as Hh by done. unfold coldBackwardChunkDuration. rewrite wrap64_id by (unfold in_int64 in *; lia).
  cbv zeta. set (a := if c - Hour <? s then s else c - Hour). assert (s ≤ a < c ∧ c - a ≤ Hour) as [Ha Hac] by (unfold a; zcase; lia).
  assert (a = s ∨ a = c - Hour ∧ s ≤ a) as Hcase by (unfold a; zcase; lia). clearbody a.
  rewrite (proj2 (Z.leb_gt _ 0)), (proj2 (Z.ltb_ge maxLimitValue _)) by lia. unfold cold at 1.
  set (k := Z.to_nat (limit - Z.of_nat (length (sel c e)))). pose proof (sel_split a c e ltac:(lia)) as Hsp.
  assert (concat (reverse (chunks ++ [take k (sel a c)])) = take k (sel a c) ++ sel c e) as Hcat
    by (rewrite reverse_snoc; cbn [concat]; by rewrite Hch).
  destruct (Z.leb_spec limit (Z.of_nat (length (sel c e)) + Z.of_nat (length (take k (sel a c))))) as [Hl|Hl].
  - eexists. split; [done|]. rewrite Hcat. exists a, c. split_and!; [lia|lia|lia|exact Hac|lia|done|]. right.
    rewrite Hsp, length_app. rewrite length_take in Hl. unfold k in *. lia.
  - rewrite length_take in Hl. assert (take k (sel a c) = sel a c) as Ht by (apply take_ge; unfold k in *; lia).
    rewrite Ht in Hcat |- *. rewrite <- Hsp in Hcat.
    assert (Z.of_nat (length (sel c e)) + Z.of_nat (length (sel a c)) = Z.of_nat (length (sel a e))) as Hlen
      by (rewrite Hsp, length_app; lia). rewrite Hlen. apply IH; [lia|done|lia|].
    destruct Hcase as [->|[-> Hs']]; [rewrite Z.sub_diag, Z.ltb_irrefl; change (0 / Hour) with 0; lia|].
    assert ((c - s) / Hour = (c - Hour - s) / Hour + 1) as Hd
      by (replace (c - s) with (c - Hour - s + 1 * Hour) by lia; by rewrite Z.div_add by lia).
    assert (0 ≤ (c - Hour - s) / Hour) by (apply Z.div_pos; lia). destruct (s <? c - Hour); lia.
Qed.

(** The backward walk over the cold store always ends, with every row of the
    chunks it passed and, of the chunk in which the limit is reached, the oldest
    rows that still fit: the newest rows of that chunk are the ones left out. *)
Theorem backward_walk_result s e limit :
  MinInt64 + Hour ≤ s → s ≤ e ≤ MaxInt64 → 0 < limit ≤ maxLimitValue →
  ∃ got, coldBackwardChunkedFetch cold s e limit = Ok got ∧ walked s e limit got.
Proof.
  intros Hlo Hse Hl. unfold coldBackwardChunkedFetch.
  destruct (chunkLoop_walked s e limit (chunkFuel s e) e []) as (chunks & Hc & Hw).
  - done.
  - lia.
  - lia.
  - lia.
  - by rewrite sel_empty.
  - rewrite sel_empty. cbn. lia.
  - unfold chunkFuel, coldBackwardChunkDuration. assert (0 ≤ (e - s) / Hour) by (apply Z.div_pos; [lia|done]). destruct (s <? e); lia.
  - rewrite sel_empty in Hc. cbn [length] in Hc. change (Z.of_nat 0) with 0 in Hc. rewrite Hc. by exists (concat (reverse chunks)).
Qed.

(** Within the last hour of the range, a limit below the number of rows returns
    the oldest rows, not the newest. *)
Theorem backward_walk_returns_oldest s e limit :
  MinInt64 + Hour ≤ s → s < e ≤ MaxInt64 → e - s ≤ Hour → 0 < limit ≤ maxLimitValue →
  limit < Z.of_nat (length (sel s e)) →
  coldBackwardChunkedFetch cold s e limit = Ok (take (Z.to_nat limit) (sel s e)).
Proof.
  intros Hlo Hse Hh Hl Hn. unfold coldBackwardChunkedFetch, chunkFuel. cbn [chunkLoop].
  rewrite (proj2 (Z.ltb_lt s e)) by lia. cbn [negb]. unfold coldBackwardChunkDuration.
  rewrite wrap64_id by (unfold in_int64, Hour, Minute, Second in *; lia). cbv zeta.
  assert ((if e - Hour <? s then s else e - Hour) = s) as -> by (zcase; lia).
  rewrite Z.sub_0_r, (proj2 (Z.leb_gt limit 0)), (proj2 (Z.ltb_ge maxLimitValue limit)) by lia. unfold cold.
  rewrite (proj2 (Z.leb_le limit _)) by (rewrite length_take; lia). cbn [app reverse]. by rewrite reverse_singleton; cbn; rewrite app_nil_r.
Qed.

End Walk.

(** ** Label values *)

Definition hitsOf (v : string) (l : list (string * Z)) : Z := foldr (λ x n, x.2 + n) 0 (filter (λ x, x.1 = v) l).

Lemma addHits_fold l m v : (∀ k n, m !! k = Some n → in_int64 n) →
  default 0 (foldl addHits m l !! v) = wrap64 (default 0 (m !! v) + hitsOf v l) ∧
  (∀ k n, foldl addHits m l !! k = Some n → in_int64 n).
Proof.
  revert m. induction l as [|[k h] l IH]; intros m Hm; cbn [foldl].
  - split; [|done]. unfold hitsOf. cbn. rewrite Z.add_0_r, wrap64_id; [done|].
    destruct (m !! v) as [n|] eqn:E; [by apply (Hm v)|]. cbn. unfold in_int64, MinInt64, MaxInt64. lia.
  - destruct (IH (addHits m (k, h))) as [IH1 IH2].
    { intros k' n. unfold addHits. cbn [fst snd]. destruct (decide (k' = k)) as [->|Hk];
        [rewrite lookup_insert_eq; intros [= <-]; apply wrap64_range|rewrite lookup_insert_ne by done; apply Hm]. }
    split; [|done]. rewrite IH1. unfold addHits, hitsOf. cbn [fst snd]. rewrite filter_cons. cbn [fst].
    destruct (decide (k = v)) as [->|Hk].
    + rewrite lookup_insert_eq. cbn [foldr default from_option id snd]. rewrite wrap64_add. f_equal. lia.
    + by rewrite lookup_insert_ne.
Qed.

(** The merged values carry the sum of the hot and the cold hits, modulo 64
    bits. *)
Theorem merged_hits_add_up hot cold v :
  default 0 (MergeValues hot cold !! v) = wrap64 (hitsOf v hot + hitsOf v cold).
Proof.
  unfold MergeValues. destruct (addHits_fold hot ∅ v) as [Hh Hr]; [by intros ? ?; rewrite lookup_empty|].
  destruct (addHits_fold cold (foldl addHits ∅ hot) v Hr) as [Hc _]. rewrite Hc, Hh, lookup_empty. cbn [default from_option].
  by rewrite wrap64_add.
Qed.


End Cold.

(** ** Instances *)

Module ColdDemo.
Import Text Cold Filter.FilterDemo TimesDemo.
#[local] Existing Instances integers integer_order plain_clock.

Definition router : ColdRouter := mkRouter 1000 100 (Some (mkManifest 0 9500 3)).

Lemma route_consults_owner_witness :
  (10000 - 1000 + 100 ≤ 8000 → Route (Some router) 10000 7000 9999 ≠ RouteColdOnly) ∧
  (8000 < 10000 - 1000 → 3 ≠ 0 ∧ 8000 ≤ 9500 → Route (Some router) 10000 7000 9999 ≠ RouteHotOnly).
Proof. refine (route_consults_owner router 10000 7000 9999 8000 _ _); [vm_compute; congruence|lia]. Defined.

Lemma request_body_read_witness :
  ((String.length "query=x" ≤ 4)%nat → readBody 4 4 "query=x" = ("query=x", true)) ∧
  ((4 < String.length "query=x")%nat → readBody 3 4 "query=x" = ("querquerquer", false)).
Proof. refine (request_body_read "query=x" 4 3 _). lia. Defined.

Lemma lines_clean : Forall clean ["a"; "b"; "c"].
Proof. repeat constructor; discriminate. Qed.

Lemma body_lines_reversed_and_trimmed_witness :
  reverseNDJSONBody (joinLines ["a"; "b"; "c"]) = joinLines ["c"; "b"; "a"] ∧
  trimNDJSONBodyToLimit (joinLines ["a"; "b"; "c"]) "2" = joinLines ["a"; "b"].
Proof. refine (body_lines_reversed_and_trimmed ["a"; "b"; "c"] "2" _). exact lines_clean. Defined.

Lemma ring_keeps_newest_witness : readAndReverseNDJSON ["a"; "b"; "c"] 2 = joinLines ["c"; "b"].
Proof. refine (ring_keeps_newest ["a"; "b"; "c"] 2 _). exact lines_clean. Defined.

(** Rows are their own instants. *)
Definition instants : list Z := [10; 20; 30].

Lemma instants_sorted : StronglySorted (λ a b : Z, id a ≤ id b) instants.
Proof. repeat constructor; vm_compute; congruence. Qed.

Lemma backward_walk_result_witness :
  ∃ got, coldBackwardChunkedFetch (cold id instants) 0 40 2 = Ok got ∧ walked id instants 0 40 2 got.
Proof.
  refine (backward_walk_result id instants instants_sorted 0 40 2 _ _ _); vm_compute; try (split; congruence); congruence.
Defined.

Lemma backward_walk_returns_oldest_witness :
  coldBackwardChunkedFetch (cold id instants) 0 40 2 = Ok [10; 20].
Proof.
  refine (backward_walk_returns_oldest id instants 0 40 2 _ _ _ _ _); vm_compute; try (split; congruence); congruence.
Defined.

(** A range from the epoch, or from an instant written with a fraction, is routed
    as the last hour. *)
Definition wholeHistory : ColdRouter := mkRouter (24 * Hour) Hour None.
Definition today : Z := 1700000000000000000.

Lemma zero_start_routed_hot :
  let '(s, e) := ParseTimeRangeFromRequest today today "0" "1700000000" in
  Route (Some wholeHistory) today s e = RouteHotOnly ∧ Route (Some wholeHistory) today 0 e = RouteBoth.
Proof. vm_compute. split; reflexivity. Qed.

Lemma fractional_start_routed_hot :
  let '(s, e) := ParseTimeRangeFromRequest today today "1600000000.5" "1700000000" in
  s = today - Hour ∧ Route (Some wholeHistory) today s e = RouteHotOnly.
Proof. vm_compute. split; reflexivity. Qed.

End ColdDemo.
