(* ===== verification/LogqlValidate.v ===== *)
(** * Query validation (src/internal/logql/validate.go, semantic.go, stage_validate.go)

    The proxy answers the queries Loki refuses with Loki's own error instead of
    sending them on.  A Go function that returns a message, empty when the query is
    fine, returns a [string]; one that returns an [error] returns a [result unit].
    Regular expressions, their syntax check and text/template are parameters.  An
    opaque call such as [label_replace] is parsed again to validate its argument;
    that recursion carries fuel, and [validate_total] shows that the length of the
    query is enough. *)

From S2P Require Import Prelude GoText Utf8 LogqlScanner LogqlAst LogqlFilter LogqlPipeline LogqlParser.

#[local] Open Scope Z_scope.

(** regexp/syntax and text/template, as the validator uses them: the error of
    [syntax.Parse] in Perl mode, and of parsing a template with a set of function
    names. *)
Class Checks : Type := {
  syntax_Parse : string → option string;
  template_Parse : list string → string → string → option string
}.

Module Validate.
Import Text Utf8 Scanner Ast Filter Pipe Parser.

#[local] Open Scope Z_scope.

(** ** The lexer of json and logfmt extraction expressions *)

Definition exprEnd : string := "$end".
Definition exprDot : string := "DOT".
Definition exprLSB : string := "LSB".
Definition exprRSB : string := "RSB".
Definition exprString : string := "STRING".
Definition exprField : string := "FIELD".
Definition exprIndex : string := "INDEX".
Definition exprKey : string := "KEY".

(** [[]rune(s)]. *)
Fixpoint runes_loop (fuel : nat) (s : string) : list Z :=
  match fuel with
  | O => []
  | S fuel =>
      match s with
      | "" => []
      | _ => let '(r, w) := DecodeRune s in r :: runes_loop fuel (suffix w s)
      end
  end.

Definition runes (s : string) : list Z := runes_loop (String.length s) s.

Record exprLexer : Type := mkLex {
  lx_runes : list Z;
  lx_pos : nat;
  lastOK : bool
}.

Definition readRune (l : exprLexer) : Z * exprLexer :=
  match lx_runes l !! lx_pos l with
  | None => (0, mkLex (lx_runes l) (lx_pos l) false)
  | Some r => (r, mkLex (lx_runes l) (S (lx_pos l)) true)
  end.

Definition unread (l : exprLexer) : exprLexer :=
  if lastOK l then mkLex (lx_runes l) (pred (lx_pos l)) false else l.

Definition exprWhitespace (r : Z) : bool := (r =? 32) || (r =? 9) || (r =? 10).

Definition exprIdentStart (r : Z) : bool :=
  ((97 <=? r) && (r <=? 122)) || ((65 <=? r) && (r <=? 90)) || (r =? 95).

Definition exprDigit (r : Z) : bool := (48 <=? r) && (r <=? 57).

Fixpoint scanField (fuel : nat) (l : exprLexer) : exprLexer :=
  match fuel with
  | O => l
  | S fuel =>
      let '(r, l) := readRune l in
      if (negb (exprIdentStart r) && negb (exprDigit r)) || (r =? 0) then unread l else scanField fuel l
  end.

Fixpoint strLoop (fuel : nat) (l : exprLexer) : exprLexer :=
  match fuel with
  | O => l
  | S fuel =>
      let '(r, l) := readRune l in
      if (r =? 0) || (r =? 34) || (r =? 93) then l else strLoop fuel l
  end.

Definition scanStr (fuel : nat) (l : exprLexer) : exprLexer := strLoop fuel (snd (readRune l)).

Fixpoint indexLoop `{Unicode} (fuel : nat) (digits : string) (l : exprLexer) : result string * exprLexer :=
  match fuel with
  | O => (Err "fuel", l)
  | S fuel =>
      let '(r, l) := readRune l in
      if (r =? 46) && negb (String.eqb digits "") then (Err "cannot use float as array index", l)
      else if exprWhitespace r || (r =? 46) || (r =? 93) then
        match Atoi digits with
        | Some _ => (Ok exprIndex, unread l)
        | None => (Err ("strconv.Atoi: parsing " +:+ Quote digits +:+ ": value out of range"), unread l)
        end
      else if negb (exprDigit r) then (Err ("non-integer value: " +:+ EncodeRune r), l)
      else indexLoop fuel (digits +:+ EncodeRune r) l
  end.

Definition scanIndex `{Unicode} (fuel : nat) (l : exprLexer) : result string * exprLexer := indexLoop fuel "" l.

(** Rounds for a loop over the runes left. *)
Definition lexFuel (l : exprLexer) : nat := S (S (length (lx_runes l) - lx_pos l)).

(** A token, or the lexer's error. *)
Fixpoint jsonTokenLoop `{Unicode} (fuel : nat) (l : exprLexer) : result string * exprLexer :=
  match fuel with
  | O => (Err "fuel", l)
  | S fuel =>
      let '(r, l1) := readRune l in
      if r =? 0 then (Ok exprEnd, l1)
      else if exprWhitespace r then jsonTokenLoop fuel l1
      else if exprDigit r then let l := unread l1 in scanIndex (lexFuel l) l
      else if r =? 91 then (Ok exprLSB, l1)
      else if r =? 93 then (Ok exprRSB, l1)
      else if r =? 46 then (Ok exprDot, l1)
      else if exprIdentStart r then let l := unread l1 in (Ok exprField, scanField (lexFuel l) l)
      else if r =? 34 then let l := unread l1 in (Ok exprString, scanStr (lexFuel l) l)
      else (Err ("unexpected char " +:+ EncodeRune r), l1)
  end.

Definition jsonToken `{Unicode} (l : exprLexer) : result string * exprLexer := jsonTokenLoop (lexFuel l) l.

Fixpoint logfmtTokenLoop `{Unicode} (fuel : nat) (l : exprLexer) : result string * exprLexer :=
  match fuel with
  | O => (Err "fuel", l)
  | S fuel =>
      let '(r, l1) := readRune l in
      if r =? 0 then (Ok exprEnd, l1)
      else if exprWhitespace r then logfmtTokenLoop fuel l1
      else if exprIdentStart r then let l := unread l1 in (Ok exprKey, scanField (lexFuel l) l)
      else if r =? 34 then let l := unread l1 in (Ok exprString, scanStr (lexFuel l) l)
      else (Err ("unexpected char " +:+ EncodeRune r), l1)
  end.

Definition logfmtToken `{Unicode} (l : exprLexer) : result string * exprLexer := logfmtTokenLoop (lexFuel l) l.

(** ** The two grammars *)

Definition exprSyntaxError (tok expecting : string) : result unit :=
  if String.eqb expecting "" then Err ("syntax error: unexpected " +:+ tok)
  else Err ("syntax error: unexpected " +:+ tok +:+ ", expecting " +:+ expecting).

Inductive jsonState : Type := stateStart | stateBracket | stateCloseBracket | stateDot | stateComplete.

#[global] Instance jsonState_eq_dec : EqDecision jsonState.
Proof. solve_decision. Defined.

(** The transition on a token: the next state, or the result. *)
Definition jsonStep (st : jsonState) (tok : string) : jsonState + result unit :=
  match st with
  | stateStart =>
      if String.eqb tok exprField then inl stateComplete
      else if String.eqb tok exprLSB then inl stateBracket
      else inr (exprSyntaxError tok "LSB or FIELD")
  | stateBracket =>
      if negb (String.eqb tok exprString) && negb (String.eqb tok exprIndex)
      then inr (exprSyntaxError tok "STRING or INDEX") else inl stateCloseBracket
  | stateCloseBracket =>
      if negb (String.eqb tok exprRSB) then inr (exprSyntaxError tok "RSB") else inl stateComplete
  | stateDot =>
      if negb (String.eqb tok exprField) then inr (exprSyntaxError tok "FIELD") else inl stateComplete
  | stateComplete =>
      if String.eqb tok exprEnd then inr (Ok tt)
      else if String.eqb tok exprDot then inl stateDot
      else if String.eqb tok exprLSB then inl stateBracket
      else inr (exprSyntaxError tok "")
  end.

Fixpoint jsonLoop `{Unicode} (fuel : nat) (st : jsonState) (l : exprLexer) : result unit :=
  match fuel with
  | O => Err "fuel"
  | S fuel =>
      let '(t, l) := jsonToken l in
      match t with
      | Err e =>
          if bool_decide (st = stateComplete) then Err e
          else match jsonStep st exprEnd with inl st => jsonLoop fuel st l | inr r => r end
      | Ok tok => match jsonStep st tok with inl st => jsonLoop fuel st l | inr r => r end
      end
  end.

Definition newLexer (expr : string) : exprLexer := mkLex (runes expr) 0 false.

Definition validateJSONExpression `{Unicode} (expr : string) : result unit :=
  let l := newLexer expr in jsonLoop (lexFuel l) stateStart l.

Fixpoint logfmtExprLoop `{Unicode} (fuel : nat) (started : bool) (l : exprLexer) : result unit :=
  match fuel with
  | O => Err "fuel"
  | S fuel =>
      let '(t, l) := logfmtToken l in
      match t, started with
      | Err e, true => Err e
      | _, _ =>
          let tok := match t with Ok tok => tok | Err _ => exprEnd end in
          if String.eqb tok exprEnd && started then Ok tt
          else if String.eqb tok exprEnd then exprSyntaxError tok "STRING or KEY"
          else if String.eqb tok exprKey && started then exprSyntaxError tok ""
          else logfmtExprLoop fuel true l
      end
  end.

Definition validateLogfmtExpression `{Unicode} (expr : string) : result unit :=
  let l := newLexer expr in logfmtExprLoop (lexFuel l) false l.

(** ** Patterns *)

Definition isASCIILetter (c : Ascii.ascii) : bool := within 97 122 c || within 65 90 c.

(** The loop from index 2: the rest of the name up to the closing angle bracket. *)
Fixpoint captureRest (s : string) : option string :=
  match s with
  | "" => None
  | String c s =>
      if Ascii.eqb c ">" then Some ""
      else if isASCIILetter c || Ascii.eqb c "_" || within 48 57 c then
        match captureRest s with
        | Some n => Some (String c n)
        | None => None
        end
      else None
  end.

(** The name and the size of a capture at the start of the text. *)
Definition patternCapture (s : string) : option (string * nat) :=
  match s with
  | String a (String b (String _ _ as r)) =>
      if negb (Ascii.eqb a "<") || (negb (isASCIILetter b) && negb (Ascii.eqb b "_")) then None
      else
        match captureRest r with
        | Some n => Some (String b n, (String.length n + 3)%nat)
        | None => None
        end
  | _ => None
  end.

(** The loop over the pattern: the last capture, the named ones, and the first two
    captures that meet. *)
Fixpoint patternScan (fuel : nat) (s : string) (lastCap : string) (named : list string)
    (prevCapture : bool) (consecutives : string) : list string * string :=
  match fuel with
  | O => (named, consecutives)
  | S fuel =>
      match s with
      | "" => (named, consecutives)
      | _ =>
          match patternCapture s with
          | Some (name, size) =>
              patternScan fuel (suffix size s) name
                (if String.eqb name "_" then named else named ++ [name]) true
                (if prevCapture && String.eqb consecutives ""
                 then "<" +:+ lastCap +:+ "><" +:+ name +:+ ">" else consecutives)
          | None => patternScan fuel (suffix (DecodeRune s).2 s) lastCap named false consecutives
          end
      end
  end.

(** The first name that occurs again, over [seen] before it. *)
Fixpoint firstDuplicate (seen names : list string) : option string :=
  match names with
  | [] => None
  | n :: names => if bool_decide (n ∈ seen) then Some n else firstDuplicate (n :: seen) names
  end.

Definition validatePatternParser (pattern : string) : result unit :=
  if String.eqb pattern ""
  then Err "parse error at line 1, col 1: syntax error: unexpected $end, expecting IDENTIFIER or LITERAL"
  else
    let '(named, consecutives) := patternScan (String.length pattern) pattern "" [] false "" in
    match named with
    | [] => Err "at least one capture is required"
    | _ =>
        if negb (String.eqb consecutives "")
        then Err ("found consecutive capture '" +:+ consecutives +:+ "': invalid expression")
        else
          match firstDuplicate [] named with
          | Some name => Err ("duplicate capture name (" +:+ name +:+ "): invalid expression")
          | None => Ok tt
          end
    end.

(** ** Stages *)

Definition lokiErrorLabel : string := "__error__".

Definition lokiTemplateFunctions : list string :=
  ["ToLower"; "ToUpper"; "Replace"; "Trim"; "TrimLeft"; "TrimRight"; "TrimPrefix"; "TrimSuffix";
   "TrimSpace"; "regexReplaceAll"; "regexReplaceAllLiteral"; "count"; "urldecode"; "urlencode"; "bytes";
   "duration"; "duration_seconds"; "unixEpochMillis"; "unixEpochNanos"; "toDateInZone"; "unixToTime";
   "alignLeft"; "alignRight";
   "b64enc"; "b64dec"; "lower"; "upper"; "title"; "trunc"; "substr"; "contains"; "hasPrefix";
   "hasSuffix"; "indent"; "nindent"; "replace"; "repeat"; "trim"; "trimAll"; "trimSuffix";
   "trimPrefix"; "int"; "float64"; "add"; "sub"; "mul"; "div"; "mod"; "addf"; "subf"; "mulf"; "divf";
   "max"; "min"; "maxf"; "minf"; "ceil"; "floor"; "round"; "fromJson"; "date"; "toDate"; "now";
   "unixEpoch"; "default";
   "__line__"; "__timestamp__"].

Section Stages.
Context `{Numbers} `{!Json} `{Regexps} `{!Captures} `{Unicode} `{Netip} `{Checks}.

Definition validateTemplate (name tmpl : string) : result unit :=
  match template_Parse lokiTemplateFunctions name tmpl with
  | Some e => Err e
  | None => Ok tt
  end.

Definition stageError (stage err : string) : string :=
  newParseError 0 0 ("stage '" +:+ stage +:+ "' : " +:+ err).

(** The loop over the group names, group 0 among them with no name. *)
Fixpoint subexpNames (seen : list string) (names : list string) : result (list string) :=
  match names with
  | [] => Ok seen
  | n :: names =>
      if String.eqb n "" then subexpNames seen names
      else if bool_decide (n ∈ seen) then Err ("duplicate extracted label name '" +:+ n +:+ "'")
      else subexpNames (n :: seen) names
  end.

Definition errMissingNamedCapture : string := "at least one named capture must be supplied".

Definition validateRegexpParser (re : string) : result unit :=
  match re_compile re with
  | Err e => Err e
  | Ok compiled =>
      match subexpNames [] (re_names compiled) with
      | Err e => Err e
      | Ok [] => Err errMissingNamedCapture
      | Ok _ => Ok tt
      end
  end.

Definition extractionStageString (kind : string) (fields : list ExtractionField) : string :=
  "| " +:+ kind +:+ " " +:+ Join "," (map (λ f, ef_Name f +:+ "=" +:+ Quote (ef_Expression f)) fields).

Fixpoint validateFields (kind : string) (validate : string → result unit) (all fields : list ExtractionField)
    : string :=
  match fields with
  | [] => ""
  | f :: fields =>
      match validate (ef_Expression f) with
      | Err e =>
          stageError (extractionStageString kind all)
            ("cannot parse expression [" +:+ ef_Expression f +:+ "]: " +:+ e)
      | Ok _ => validateFields kind validate all fields
      end
  end.

Definition validateParserStage (t : ParserType) (param : string) (fields : list ExtractionField) : string :=
  match t with
  | ParserRegexp =>
      match validateRegexpParser param with
      | Err e => newParseError 0 0 ("invalid regexp parser: " +:+ e)
      | Ok _ => ""
      end
  | ParserPattern =>
      match validatePatternParser param with
      | Err e => newParseError 0 0 ("invalid pattern parser: " +:+ e)
      | Ok _ => ""
      end
  | ParserJSON => validateFields "json" validateJSONExpression fields fields
  | ParserLogfmt => validateFields "logfmt" validateLogfmtExpression fields fields
  | ParserUnpack => ""
  end.

(** The first loop of [validateLabelFormatStage]: the names. *)
Fixpoint formatNames (stage : string) (seen : list string) (formats : list LabelFormat) : string :=
  match formats with
  | [] => ""
  | f :: formats =>
      if String.eqb (lf_Name f) lokiErrorLabel
      then stageError stage (lf_Name f +:+ " cannot be formatted")
      else if bool_decide (lf_Name f ∈ seen)
      then stageError stage ("multiple label name '" +:+ lf_Name f +:+ "' not allowed in a single format operation")
      else formatNames stage (lf_Name f :: seen) formats
  end.

(** The second loop: the templates. *)
Fixpoint formatTemplates (stage : string) (formats : list LabelFormat) : string :=
  match formats with
  | [] => ""
  | f :: formats =>
      if lf_Rename f then formatTemplates stage formats
      else
        match validateTemplate "label" (lf_Value f) with
        | Err e => stageError stage ("invalid template for label '" +:+ lf_Name f +:+ "': " +:+ e)
        | Ok _ => formatTemplates stage formats
        end
  end.

Definition validateLabelFormatStage (formats : list LabelFormat) : string :=
  let part f := lf_Name f +:+ "=" +:+ (if lf_Rename f then lf_Value f else Quote (lf_Value f)) in
  let stage := "| label_format " +:+ Join "," (map part formats) in
  let msg := formatNames stage [] formats in
  if negb (String.eqb msg "") then msg else formatTemplates stage formats.

Definition validateStageSemantics (s : Stage) : string :=
  match s with
  | ParserStage t param fields => validateParserStage t param fields
  | LabelFormatStage _ formats => validateLabelFormatStage formats
  | LineFormatStage tmpl =>
      match validateTemplate "line" tmpl with
      | Err e => stageError ("| line_format " +:+ Quote tmpl) ("invalid line template: " +:+ e)
      | Ok _ => ""
      end
  | _ => ""
  end.

(** ** Selectors and log queries *)

(** [errEmptyCompatibleMatchers]; the message quotes its examples. *)
Definition errEmptyCompatibleMatchers : string :=
  "parse error : queries require at least one regexp or equality matcher that does not have an empty-compatible value. For instance, app=~"
  +:+ String dquote ".*" +:+ String dquote " does not meet this requirement, but app=~"
  +:+ String dquote ".+" +:+ String dquote " will".

Definition invalidRegexPrefix : string := "parse error at line 1, col 1: parse error : invalid regex: ".

Definition invalidRegexMessage (err : string) : string := invalidRegexPrefix +:+ err.

Definition matcherMatchesEmpty (m : LabelMatcher) : result bool :=
  let regexp (positive : bool) :=
    match syntax_Parse (lm_Value m) with
    | Some e => Err e
    | None =>
        match re_compile ("^(?s:" +:+ lm_Value m +:+ ")$") with
        | Err e => Err e
        | Ok re => Ok (Bool.eqb (re_match re "") positive)
        end
    end in
  match lm_Op m with
  | MatchEq => Ok (String.eqb (lm_Value m) "")
  | MatchNeq => Ok (negb (String.eqb (lm_Value m) ""))
  | MatchRe => regexp true
  | MatchNotRe => regexp false
  end.

Fixpoint selectorLoop (selective : bool) (ms : list LabelMatcher) : string :=
  match ms with
  | [] => if selective then "" else errEmptyCompatibleMatchers
  | m :: ms =>
      match matcherMatchesEmpty m with
      | Err e => invalidRegexMessage e
      | Ok matchesEmpty => selectorLoop (selective || negb matchesEmpty) ms
      end
  end.

Definition validateSelectorSemantics (sel : StreamSelector) : string := selectorLoop false sel.

Definition isUnwrap (s : Stage) : bool := match s with UnwrapStage _ _ => true | _ => false end.

Definition lineConsumedLater (stages : list Stage) : bool :=
  existsb (λ s, match s with ParserStage _ _ _ | LineFilterStage _ _ _ _ => true | _ => false end) stages.

Fixpoint stagesLoop (lineIndependent : bool) (stages : list Stage) : string :=
  match stages with
  | [] => ""
  | s :: rest =>
      if match s with LineFormatStage _ => true | _ => false end && lineIndependent && negb (lineConsumedLater rest)
      then stagesLoop lineIndependent rest
      else
        let msg := validateStageSemantics s in
        if negb (String.eqb msg "") then msg else stagesLoop lineIndependent rest
  end.

Definition validateLogQuerySemantics (lq : LogQuery) (lineIndependent : bool) : string :=
  let msg := validateSelectorSemantics (Selector lq) in
  if negb (String.eqb msg "") then msg
  else if (1 <? length (base.filter (λ s, isUnwrap s = true) (Ast.Pipeline lq)))%nat
  then "parse error : syntax error: unexpected unwrap"
  else stagesLoop lineIndependent (Ast.Pipeline lq).

(** ** Expressions *)

#[local] Existing Instance P_ret.
#[local] Existing Instance P_bind.

(** The leading expression argument of an opaque call, if there is one. *)
Definition opaqueFirstArgument (call : string) : outcome (option Expr) :=
  (c ← typ;
   if negb (is_typ c TokIdent) then mret None
   else
     _ ← advance;
     c ← typ;
     if negb (is_typ c TokLParen) then mret None
     else
       _ ← advance;
       inner ← parseExpr (fuelFor call);
       c ← typ;
       if negb (is_typ c TokComma) then mret None else mret (Some inner)) (start call).

(** [errors.As(err, &lokiErr)]: the parser wraps only the errors of [expect], so a
    [*ParseError] is never wrapped, and [newParseError] alone writes this prefix. *)
Definition isParseError (msg : string) : bool := HasPrefix msg "parse error".

Definition rangeQuantile : string := "quantile_over_time".

(** The operand of a range aggregation; [other] is the verdict on an operand that is
    not a log query. *)
Definition validateRangeAggSemantics (op : string) (inner : Expr) (param : F) (hasParam : bool)
    (other : option string) : option string :=
  if String.eqb op rangeQuantile && hasParam && Flt param (Fof_int 0)
  then Some ("parse error at line 1, col 1: invalid parameter for quantile_over_time: expected range [0, 1] but got "
             +:+ FormatFloat_f param)
  else
    match inner with
    | LogQueryExpr lq =>
        if String.eqb op "rate_counter" && negb (existsb isUnwrap (Ast.Pipeline lq))
        then Some "parse error : rate_counter requires | unwrap expression"
        else
          Some (validateLogQuerySemantics lq
                  (negb (String.eqb op "bytes_rate") && negb (String.eqb op "bytes_over_time")))
    | _ => other
    end.

(** [validateSemantics]; [opaque] validates the call of an opaque expression, [None]
    is fuel exhausted. *)
Fixpoint semantics (opaque : string → option string) (e : Expr) : option string :=
  match e with
  | LogQueryExpr q => Some (validateLogQuerySemantics q false)
  | RangeAggregation op inner _ _ param hasParam _ =>
      validateRangeAggSemantics op inner param hasParam (semantics opaque inner)
  | VectorAggregation _ _ _ _ inner => semantics opaque inner
  | BinOpExpr l r _ _ _ =>
      match l, r with
      | LogQueryExpr _, _ | _, LogQueryExpr _ =>
          Some "parse error at line 1, col 1: unexpected expression for binary operation"
      | _, _ =>
          match semantics opaque l with
          | Some "" => semantics opaque r
          | other => other
          end
      end
  | LiteralExpr _ => Some ""
  | OpaqueMetricExpr raw => opaque raw
  end.

Fixpoint opaqueSemantics (fuel : nat) (raw : string) : option string :=
  match fuel with
  | O => None
  | S fuel =>
      match opaqueFirstArgument raw with
      | Done (Some inner) _ => semantics (opaqueSemantics fuel) inner
      | Done None _ => Some ""
      | Fail msg => Some (if isParseError msg then msg else "")
      | NoFuel => None
      end
  end.

Definition validateSemantics (e : Expr) (raw : string) : option string :=
  semantics (opaqueSemantics (S (String.length raw))) e.

(** ** Entry points *)

Definition MaxInputSize : Z := 131072.

Definition InputSizeError (query : string) : string :=
  if MaxInputSize <=? len query
  then "parse error : input size too long (" +:+ Itoa (len query) +:+ " > " +:+ Itoa MaxInputSize +:+ ")"
  else "".

Definition formatParseError (msg : string) : string :=
  if isParseError msg then msg
  else if Contains msg "empty expression" then "parse error : syntax error: unexpected $end"
  else if Contains msg "expected label operator" || Contains msg "expected label value"
  then "parse error at line 1, col 1: syntax error: unexpected }, expecting STRING"
  else if Contains msg "expected '[' for range"
  then "parse error at line 1, col 1: syntax error: unexpected ), expecting RANGE"
  else if Contains msg "unknown pipeline stage" then "parse error : syntax error: unexpected IDENT"
  else if Contains msg "expected stage name after |"
  then "parse error at line 1, col 1: syntax error: unexpected |"
  else if Contains msg "unexpected identifier" then "parse error : syntax error: unexpected IDENT"
  else "parse error : " +:+ msg.

(** The expression, absent for the bare wildcard or with an error, and the message. *)
Definition validateLogQL (query : string) : option (option Expr * string) :=
  let msg := InputSizeError query in
  if negb (String.eqb msg "") then Some (None, msg)
  else
    let query := TrimSpace query in
    if String.eqb query "" then Some (None, "parse error : syntax error: unexpected $end")
    else if HasPrefix query "|" then Some (None, "parse error at line 1, col 1: syntax error: unexpected |")
    else if String.eqb query "*" then Some (None, "")
    else
      match cutAt "<>" query with
      | Some (before, _) =>
          Some (None, "parse error at line 1, col " +:+ Itoa (len before + 2) +:+ ": syntax error: unexpected >")
      | None =>
          match Parse query with
          | Fail msg => Some (None, formatParseError msg)
          | NoFuel => None
          | Done e _ =>
              match validateSemantics e query with
              | None => None
              | Some msg => Some (if String.eqb msg "" then (Some e, "") else (None, msg))
              end
          end
      end.

Definition ValidateLogQL (query : string) : option string := snd <$> validateLogQL query.

Definition errOnlyLabelMatchers : string := "only label matchers are supported".
Definition errOnlyLogSelector : string := "only log selector is supported".

(** A log query with no pipeline. *)
Definition bareSelector (e : Expr) : option StreamSelector :=
  match e with
  | LogQueryExpr q => match Ast.Pipeline q with [] => Some (Selector q) | _ => None end
  | _ => None
  end.

Definition ValidateMatchersQuery (query : string) : option string :=
  if String.eqb (TrimSpace query) "*" then Some ""
  else
    let msg := InputSizeError query in
    if negb (String.eqb msg "") then Some msg
    else
      match Parse query with
      | Fail msg => Some (formatParseError msg)
      | NoFuel => None
      | Done e _ =>
          match bareSelector e with
          | Some sel => Some (validateSelectorSemantics sel)
          | None =>
              match validateSemantics e query with
              | None => None
              | Some msg =>
                  Some (if String.eqb msg errEmptyCompatibleMatchers || HasPrefix msg invalidRegexPrefix
                        then msg else errOnlyLabelMatchers)
              end
          end
      end.

Fixpoint matchersCompile (ms : list LabelMatcher) : result unit :=
  match ms with
  | [] => Ok tt
  | m :: ms =>
      match matcherMatchesEmpty m with
      | Err e => Err (invalidRegexMessage e)
      | Ok _ => matchersCompile ms
      end
  end.

Definition parseMatchersOnly (query : string) : option (result StreamSelector) :=
  let msg := InputSizeError query in
  if negb (String.eqb msg "") then Some (Err msg)
  else
    match Parse query with
    | Fail msg => Some (Err (formatParseError msg))
    | NoFuel => None
    | Done e _ =>
        match bareSelector e with
        | None => Some (Err errOnlyLabelMatchers)
        | Some sel =>
            Some (match matchersCompile sel with
                  | Err msg => Err msg
                  | Ok _ => Ok sel
                  end)
        end
    end.

(** The first loop of [ValidateSeriesMatchers]: every group is a bare selector. *)
Fixpoint seriesGroups (selectors : list StreamSelector) (groups : list string)
    : option (result (list StreamSelector)) :=
  match groups with
  | [] => Some (Ok selectors)
  | g :: groups =>
      if String.eqb (TrimSpace g) "*" then seriesGroups selectors groups
      else
        match parseMatchersOnly g with
        | None => None
        | Some (Err msg) => Some (Err msg)
        | Some (Ok []) => Some (Err ("0 matchers in group: " +:+ g))
        | Some (Ok sel) => seriesGroups (selectors ++ [sel]) groups
        end
  end.

Fixpoint firstMessage (selectors : list StreamSelector) : string :=
  match selectors with
  | [] => ""
  | sel :: selectors =>
      let msg := validateSelectorSemantics sel in
      if negb (String.eqb msg "") then msg else firstMessage selectors
  end.

(** [strings.ReplaceAll(s, " ", "")]. *)
Fixpoint dropSpaces (s : string) : string :=
  match s with
  | "" => ""
  | String c s => if Ascii.eqb c " " then dropSpaces s else String c (dropSpaces s)
  end.

(** The loop that keeps the first of equal groups. *)
Fixpoint dedup (seen : gset string) (groups : list string) : list string :=
  match groups with
  | [] => []
  | g :: groups => if bool_decide (g ∈ seen) then dedup seen groups else g :: dedup ({[ g ]} ∪ seen) groups
  end.

Definition ValidateSeriesMatchers (groups : list string) : option string :=
  let deduped := sortStrings (dedup ∅ groups) in
  let rest :=
    match seriesGroups [] deduped with
    | None => None
    | Some (Err msg) => Some msg
    | Some (Ok selectors) => Some (firstMessage selectors)
    end in
  match deduped with
  | [g] => if String.eqb (dropSpaces g) "{}" then Some "" else rest
  | _ => rest
  end.

Definition ValidateLogSelectorQuery (query : string) : option string :=
  match validateLogQL query with
  | None => None
  | Some (None, msg) => Some msg
  | Some (Some e, msg) =>
      Some (if negb (String.eqb msg "") then msg
            else match e with LogQueryExpr _ => "" | _ => errOnlyLogSelector end)
  end.

End Stages.

(** ** The json grammar *)

Section Grammar.
Context `{Unicode}.

(** The lexer moved forward over the same text. *)
Definition lexed (k : nat) (l l' : exprLexer) : Prop :=
  lx_runes l' = lx_runes l ∧ (lx_pos l + k ≤ lx_pos l' ≤ length (lx_runes l))%nat.

Definition lex_wf (l : exprLexer) : Prop := (lx_pos l ≤ length (lx_runes l))%nat.

Lemma lexed_refl l : lex_wf l → lexed 0 l l.
Proof. unfold lexed, lex_wf. split; [done|lia]. Qed.

Lemma lexed_wf k l l' : lexed k l l' → lex_wf l'.
Proof. unfold lexed, lex_wf. intros [-> ?]. lia. Qed.

Lemma lexed_trans j k l1 l2 l3 : lexed j l1 l2 → lexed k l2 l3 → lexed (j + k) l1 l3.
Proof. unfold lexed. intros [E1 ?] [E2 ?]. rewrite E1 in *. split; [congruence|lia]. Qed.

Lemma lexed_weaken j k l l' : (k ≤ j)%nat → lexed j l l' → lexed k l l'.
Proof. unfold lexed. intros ? [? ?]. split; [done|lia]. Qed.

Lemma readRune_spec l : lex_wf l →
  (readRune l = (0, mkLex (lx_runes l) (lx_pos l) false) ∧ lx_pos l = length (lx_runes l)) ∨
  (∃ r, lx_runes l !! lx_pos l = Some r ∧ readRune l = (r, mkLex (lx_runes l) (S (lx_pos l)) true) ∧
        (lx_pos l < length (lx_runes l))%nat).
Proof.
  unfold lex_wf, readRune. intros Hw. destruct (lx_runes l !! lx_pos l) as [r|] eqn:E.
  - right. exists r. apply lookup_lt_Some in E as Hl. done.
  - left. apply lookup_ge_None in E. split; [done|lia].
Qed.

(** Reading moves forward and unreading goes back to where the read began. *)
Lemma readRune_moves l : lex_wf l →
  lexed 0 l (snd (readRune l)) ∧ lexed 0 l (unread (snd (readRune l))) ∧
  (fst (readRune l) ≠ 0 → lexed 1 l (snd (readRune l)) ∧
     unread (snd (readRune l)) = mkLex (lx_runes l) (lx_pos l) false).
Proof.
  intros Hw. destruct (readRune_spec l Hw) as [[-> E]|(r & _ & -> & E)]; unfold lexed, unread; cbn;
    unfold lex_wf in Hw; split_and!; try lia; try done.
  all: intros; split_and!; try done; lia.
Qed.

Lemma readRune_again l b : readRune (mkLex (lx_runes l) (lx_pos l) b) = readRune l.
Proof. done. Qed.

Lemma scanField_moves fuel l : lex_wf l → lexed 0 l (scanField fuel l).
Proof.
  revert l. induction fuel as [|fuel IH]; intros l Hw; cbn [scanField]; [by apply lexed_refl|].
  destruct (readRune_moves l Hw) as (Hr & Hu & _). destruct (readRune l) as [r l1]. cbn [fst snd] in *.
  destruct (_ || _); [done|]. apply (lexed_trans 0 0 l l1); [done|]. apply IH. by eapply lexed_wf.
Qed.

Lemma strLoop_moves fuel l : lex_wf l → lexed 0 l (strLoop fuel l).
Proof.
  revert l. induction fuel as [|fuel IH]; intros l Hw; cbn [strLoop]; [by apply lexed_refl|].
  destruct (readRune_moves l Hw) as (Hr & _). destruct (readRune l) as [r l1]. cbn [fst snd] in *.
  destruct (_ || _); [done|]. apply (lexed_trans 0 0 l l1); [done|]. apply IH. by eapply lexed_wf.
Qed.

Lemma indexLoop_moves fuel d l t : lex_wf l → fst (indexLoop fuel d l) = Ok t →
  t = exprIndex ∧ lexed 0 l (snd (indexLoop fuel d l)).
Proof.
  revert d l. induction fuel as [|fuel IH]; intros d l Hw; cbn [indexLoop]; [done|].
  destruct (readRune_moves l Hw) as (Hr & Hu & _). destruct (readRune l) as [r l1]. cbn [fst snd] in *.
  destruct (_ && _); [done|]. destruct (exprWhitespace r || _ || _).
  { destruct (Atoi d); [|done]. cbn. intros [= <-]. done. }
  destruct (negb _); [done|]. intros Ht.
  destruct (IH _ l1 (lexed_wf _ _ _ Hr) Ht) as [-> Hm]. split; [done|]. exact (lexed_trans 0 0 l l1 _ Hr Hm).
Qed.

(** An index at a digit takes it. *)
Lemma scanIndex_moves n l t : lex_wf l → exprDigit (fst (readRune l)) = true →
  fst (scanIndex (S n) l) = Ok t → t = exprIndex ∧ lexed 1 l (snd (scanIndex (S n) l)).
Proof.
  intros Hw Hd. unfold scanIndex. cbn [indexLoop].
  destruct (readRune_moves l Hw) as (_ & _ & Hr). destruct (readRune l) as [r l1]. cbn [fst snd] in *.
  assert (48 ≤ r ≤ 57) as Hrange by (unfold exprDigit in Hd; lia). destruct Hr as [Hr _]; [lia|].
  unfold exprWhitespace. rewrite Hd.
  repeat match goal with |- context [r =? ?k] => destruct (Z.eqb_spec r k); [lia|] end. cbn [andb orb negb].
  intros Ht. destruct (indexLoop_moves n _ l1 t (lexed_wf _ _ _ Hr) Ht) as [-> Hm].
  split; [done|]. exact (lexed_trans 1 0 l l1 _ Hr Hm).
Qed.

Lemma scanField_takes n l : lex_wf l → exprIdentStart (fst (readRune l)) = true → lexed 1 l (scanField (S n) l).
Proof.
  intros Hw Hi. cbn [scanField]. destruct (readRune_moves l Hw) as (_ & _ & Hr).
  destruct (readRune l) as [r l1]. cbn [fst snd] in *. rewrite Hi. cbn [negb andb orb].
  assert (r ≠ 0) as Hne by (unfold exprIdentStart in Hi; lia). destruct (Hr Hne) as [Hr1 _].
  destruct (Z.eqb_spec r 0); [done|]. apply (lexed_trans 1 0 l l1); [done|].
  apply scanField_moves. by eapply lexed_wf.
Qed.

Lemma scanStr_takes n l : lex_wf l → fst (readRune l) = 34 → lexed 1 l (scanStr n l).
Proof.
  intros Hw Hq. unfold scanStr. destruct (readRune_moves l Hw) as (_ & _ & Hr).
  destruct (readRune l) as [r l1]. cbn [fst snd] in *. destruct Hr as [Hr _]; [lia|].
  apply (lexed_trans 1 0 l l1); [done|]. apply strLoop_moves. by eapply lexed_wf.
Qed.

(** A token other than the end moves the lexer. *)
Lemma jsonToken_moves l t : lex_wf l → fst (jsonToken l) = Ok t → t ≠ exprEnd → lexed 1 l (snd (jsonToken l)).
Proof.
  unfold jsonToken. generalize (lexFuel l). intros fuel. revert l.
  induction fuel as [|fuel IH]; intros l Hw; cbn [jsonTokenLoop]; [done|].
  pose proof (readRune_moves l Hw) as (Hr & Hu & Hne).
  set (rl := readRune l) in *. destruct rl as [r l1] eqn:Erl. cbn [fst snd] in *. subst rl.
  destruct (Z.eqb_spec r 0) as [|Hr0]; [by intros [= <-]|]. destruct (Hne Hr0) as [Hr1 Hback].
  destruct (exprWhitespace r).
  { intros Ht Hn. eapply (lexed_weaken (0 + 1)); [lia|].
    exact (lexed_trans 0 1 l l1 _ Hr (IH l1 (lexed_wf _ _ _ Hr) Ht Hn)). }
  rewrite Hback. set (l0 := mkLex (lx_runes l) (lx_pos l) false).
  assert (readRune l0 = (r, l1)) as Hr'.
  { unfold l0. by rewrite readRune_again. }
  assert (lex_wf l0) as Hw0 by done.
  assert (∀ l', lexed 1 l0 l' → lexed 1 l l') as Hl0 by done.
  destruct (exprDigit r) eqn:Ed.
  { intros Ht Hn. apply Hl0. unfold lexFuel in *. eapply scanIndex_moves; [done|by rewrite Hr'|done]. }
  destruct (r =? 91); [by intros|]. destruct (r =? 93); [by intros|]. destruct (r =? 46); [by intros|].
  destruct (exprIdentStart r) eqn:Ei.
  { intros _ _. apply Hl0. apply scanField_takes; [done|by rewrite Hr']. }
  destruct (Z.eqb_spec r 34); [|done].
  intros _ _. apply Hl0. apply scanStr_takes; [done|by rewrite Hr'].
Qed.

(** The tokens of a text up to its end, if the lexer accepts all of them. *)
Inductive lexes : exprLexer → list string → Prop :=
| lexes_end l l' : jsonToken l = (Ok exprEnd, l') → lexes l []
| lexes_cons l l' t ts : jsonToken l = (Ok t, l') → t ≠ exprEnd → lexes l' ts → lexes l (t :: ts).

(** Loki's grammar of json expressions, as the comment of [validateJSONExpression]
    gives it: a field or a key or index in brackets, then any number of keys and
    indexes in brackets and of fields after a dot. *)
Inductive values : list string → Prop :=
| values_field : values [exprField]
| values_key : values [exprLSB; exprString; exprRSB]
| values_index : values [exprLSB; exprIndex; exprRSB]
| values_then_key v : values v → values (v ++ [exprLSB; exprString; exprRSB])
| values_then_index v : values v → values (v ++ [exprLSB; exprIndex; exprRSB])
| values_then_field v : values v → values (v ++ [exprDot; exprField]).

Fixpoint accepts (st : jsonState) (ts : list string) : Prop :=
  match ts with
  | [] => st = stateComplete
  | t :: ts =>
      match jsonStep st t with
      | inl st => accepts st ts
      | inr _ => False
      end
  end.

Lemma jsonStep_end st r : jsonStep st exprEnd = inr r → r = Ok tt ↔ st = stateComplete.
Proof. destruct st; cbn; intros [= <-]; done. Qed.

Lemma jsonStep_result st t r : jsonStep st t = inr r → r = Ok tt → t = exprEnd.
Proof.
  unfold jsonStep, exprSyntaxError. intros E ->. destruct st; repeat case_match; simplify_eq; try done.
  by apply String.eqb_eq.
Qed.

Lemma jsonLoop_spec fuel st l : lex_wf l → (length (lx_runes l) - lx_pos l < fuel)%nat →
  jsonLoop fuel st l = Ok tt ↔ ∃ ts, lexes l ts ∧ accepts st ts.
Proof.
  revert st l. induction fuel as [|fuel IH]; intros st l Hw Hf; [lia|]. cbn [jsonLoop].
  destruct (jsonToken l) as [[t|e] l'] eqn:Et.
  2: { split.
    - case_bool_decide as Hst; [done|]. destruct (jsonStep st exprEnd) as [st'|r] eqn:Es; [by destruct st|].
      intros ->. apply jsonStep_end in Es. naive_solver.
    - intros (ts & Hl & _). inversion Hl; congruence. }
  destruct (String.eqb_spec t exprEnd) as [->|Hne].
  - destruct (jsonStep st exprEnd) as [st'|r] eqn:Es; [by destruct st|]. rewrite (jsonStep_end _ _ Es). split.
    + intros ->. exists []. split; [by eapply lexes_end|done].
    + intros (ts & Hl & Ha). inversion Hl; subst; [done|congruence].
  - pose proof (jsonToken_moves l t Hw) as Hm. rewrite Et in Hm. specialize (Hm eq_refl Hne). cbn [snd] in Hm.
    pose proof Hm as [Er Hp]. destruct (jsonStep st t) as [st'|r] eqn:Es.
    + rewrite IH; [|by eapply lexed_wf|rewrite Er; lia]. split.
      * intros (ts & Hl & Ha). exists (t :: ts). split; [by eapply lexes_cons|]. cbn [accepts]. by rewrite Es.
      * intros (ts & Hl & Ha). inversion Hl as [|? ? t' ts' Et' ? Hl']; subst; [congruence|].
        rewrite Et in Et'. injection Et' as <- <-. cbn [accepts] in Ha. rewrite Es in Ha. eauto.
    + split; [intros ->; exfalso; by eapply Hne, jsonStep_result|].
      intros (ts & Hl & Ha). inversion Hl as [|? ? t' ts' Et' ? Hl']; subst; [congruence|].
        rewrite Et in Et'. injection Et' as <- <-. cbn [accepts] in Ha. by rewrite Es in Ha.
Qed.

Lemma accepts_values v w : values v → accepts stateStart (v ++ w) ↔ accepts stateComplete w.
Proof. induction 1 in w |- *; try done; rewrite <- app_assoc, IHvalues; done. Qed.

(** What completes an expression appends brackets and fields to it. *)
Lemma values_append n v w : (length w ≤ n)%nat → values v → accepts stateComplete w → values (v ++ w).
Proof.
  revert v w. induction n as [|n IH]; intros v w Hn Hv Ha; [destruct w; [by rewrite app_nil_r|cbn in Hn; lia]|].
  destruct w as [|t w]; [by rewrite app_nil_r|]. cbn in Ha.
  destruct (String.eqb_spec t exprEnd); [done|].
  destruct (String.eqb_spec t exprDot) as [->|].
  { destruct w as [|t2 w]; [done|]. cbn in Ha. destruct (String.eqb_spec t2 exprField) as [->|]; [|done].
    replace (v ++ exprDot :: exprField :: w) with ((v ++ [exprDot; exprField]) ++ w) by by rewrite <- app_assoc.
    cbn in Hn. apply IH; [lia|by apply values_then_field|done]. }
  destruct (String.eqb_spec t exprLSB) as [->|]; [|done].
  destruct w as [|t2 [|t3 w]]; cbn in Ha; [done|by destruct (negb _ && _)|].
  destruct (negb (String.eqb t2 exprString) && negb (String.eqb t2 exprIndex)) eqn:E2; [done|]. cbn in Ha.
  destruct (String.eqb_spec t3 exprRSB) as [->|]; [|done]. cbn in Ha, Hn.
  replace (v ++ exprLSB :: t2 :: exprRSB :: w) with ((v ++ [exprLSB; t2; exprRSB]) ++ w)
    by by rewrite <- app_assoc.
  apply IH; [lia| |done]. apply andb_false_iff in E2 as [E2|E2]; apply negb_false_iff, String.eqb_eq in E2 as ->.
  - by apply values_then_key.
  - by apply values_then_index.
Qed.

Lemma accepts_start ts : accepts stateStart ts ↔ values ts.
Proof.
  split; [|by intros Hv; rewrite <- (app_nil_r ts); apply accepts_values].
  destruct ts as [|t ts]; [done|]. cbn. destruct (String.eqb_spec t exprField) as [->|].
  { intros Ha. apply (values_append (length ts) [exprField]); [done|constructor|done]. }
  destruct (String.eqb_spec t exprLSB) as [->|]; [|done].
  destruct ts as [|t2 [|t3 ts]]; cbn; [done|by destruct (negb _ && _)|].
  destruct (negb (String.eqb t2 exprString) && negb (String.eqb t2 exprIndex)) eqn:E2; [done|]. cbn.
  destruct (String.eqb_spec t3 exprRSB) as [->|]; [|done]. cbn. intros Ha.
  apply (values_append (length ts) [exprLSB; t2; exprRSB]); [done| |done].
  apply andb_false_iff in E2 as [E2|E2]; apply negb_false_iff, String.eqb_eq in E2 as ->; constructor.
Qed.

Lemma json_grammar expr : validateJSONExpression expr = Ok tt ↔ ∃ ts, lexes (newLexer expr) ts ∧ values ts.
Proof.
  unfold validateJSONExpression. rewrite jsonLoop_spec.
  - by setoid_rewrite accepts_start.
  - unfold lex_wf. cbn. lia.
  - unfold lexFuel. lia.
Qed.

(** C28 The validator of json extraction expressions accepts a text exactly when its
    tokens form an expression of Loki's grammar: the state machine of the code
    implements the grammar its comment gives, and the fuel of the model never cuts
    a text short. *)
Theorem json_expression_grammar expr :
  validateJSONExpression expr = Ok tt ↔ ∃ ts, lexes (newLexer expr) ts ∧ values ts.
Proof. apply json_grammar. Qed.

(** *** Extraction expressions of logfmt *)

Inductive logfmtLexes : exprLexer → list string → Prop :=
| logfmt_end l l' : logfmtToken l = (Ok exprEnd, l') → logfmtLexes l []
| logfmt_cons l l' t ts : logfmtToken l = (Ok t, l') → t ≠ exprEnd → logfmtLexes l' ts → logfmtLexes l (t :: ts).

(** Loki's grammar of logfmt expressions, as the comment of [validateLogfmtExpression]
    gives it: a key or a string, then any number of strings. *)
Inductive keys : list string → Prop :=
| keys_key : keys [exprKey]
| keys_string : keys [exprString]
| keys_then k : keys k → keys (k ++ [exprString]).

Lemma logfmtToken_kind fuel l t l' : logfmtTokenLoop fuel l = (Ok t, l') → t = exprEnd ∨ t = exprKey ∨ t = exprString.
Proof.
  revert l. induction fuel as [|fuel IH]; intros l; [done|]. cbn [logfmtTokenLoop]. destruct (readRune l) as [r l1].
  destruct (r =? 0); [intros [= <- _]; by left|]. destruct (exprWhitespace r); [apply IH|].
  destruct (exprIdentStart r); [intros [= <- _]; tauto|]. destruct (r =? 34); [intros [= <- _]; tauto|done].
Qed.

Lemma logfmtLoop_sound fuel started l : logfmtExprLoop fuel started l = Ok tt →
  ∃ ts, logfmtLexes l ts ∧ (if started then Forall (eq exprString) ts
    else ∃ t ts', ts = t :: ts' ∧ (t = exprKey ∨ t = exprString) ∧ Forall (eq exprString) ts').
Proof.
  revert started l. induction fuel as [|fuel IH]; intros started l; [done|]. cbn [logfmtExprLoop].
  destruct (logfmtToken l) as [[t|e] l'] eqn:Et; [|by destruct started].
  assert (t = exprEnd ∨ t = exprKey ∨ t = exprString) as Hk by (by eapply logfmtToken_kind).
  assert (t ≠ exprEnd → logfmtExprLoop fuel true l' = Ok tt →
    ∃ ts, logfmtLexes l (t :: ts) ∧ Forall (eq exprString) ts) as Hgo.
  { intros Hne (ts & Hl & Hf)%IH. exists ts. split; [by eapply logfmt_cons|done]. }
  destruct started, Hk as [->|[->| ->]]; cbn [andb]; rewrite ?andb_true_r, ?andb_false_r; cbn; try done.
  - intros _. exists []. split; [by eapply logfmt_end|constructor].
  - intros (ts & Hl & Hf)%Hgo; [|done]. exists (exprString :: ts). split; [done|by constructor].
  - intros (ts & Hl & Hf)%Hgo; [|done]. exists (exprKey :: ts). split; [done|]. exists exprKey, ts. tauto.
  - intros (ts & Hl & Hf)%Hgo; [|done]. exists (exprString :: ts). split; [done|]. exists exprString, ts. tauto.
Qed.

Lemma logfmt_grammar expr : validateLogfmtExpression expr = Ok tt → ∃ ts, logfmtLexes (newLexer expr) ts ∧ keys ts.
Proof.
  intros (ts & Hl & t & ts' & -> & Ht & Hf)%logfmtLoop_sound. exists (t :: ts'). split; [done|]. clear Hl.
  induction ts' as [|x ts' IH] using rev_ind; [by destruct Ht as [-> | ->]; constructor|].
  apply Forall_app in Hf as [Hf Hx]. apply Forall_singleton in Hx as <-.
  change (t :: ts' ++ [exprString]) with ((t :: ts') ++ [exprString]). apply keys_then. by apply IH.
Qed.

End Grammar.

(** ** Validated patterns compile *)

Lemma ident_byte_ascii c : isIdentByte c = isASCIILetter c || Ascii.eqb c "_" || within 48 57 c.
Proof. by destruct c as [[] [] [] [] [] [] [] []]. Qed.

Lemma captureRest_span s : captureRest s =
  match strip_prefix ">" (Text.span isIdentByte s).2 with
  | Some _ => Some (Text.span isIdentByte s).1
  | None => None
  end.
Proof.
  induction s as [|c s IH]; [done|]. cbn [captureRest Text.span]. rewrite ident_byte_ascii.
  destruct (Ascii.eqb_spec c ">") as [->|Hc]; [done|].
  destruct (isASCIILetter c || _ || _).
  - rewrite IH. destruct (Text.span isIdentByte s) as [n r]. cbn [fst snd]. by destruct (strip_prefix ">" r).
  - cbn [snd strip_prefix]. destruct (Ascii.eqb_spec ">" c); [congruence|done].
Qed.

(** The validator and the pipeline read the same captures. *)
Lemma patternCapture_at s : patternCapture s =
  match captureAt s with
  | Some (n, _) => Some (n, (String.length n + 2)%nat)
  | None => None
  end.
Proof.
  destruct s as [|a [|b r]]; [done| |].
  { cbn. unfold captureAt. cbn [strip_prefix]. destruct (Ascii.eqb "<" a); [|done]. done. }
  unfold captureAt. cbn [strip_prefix]. rewrite (Ascii.eqb_sym "<" a).
  assert (letter_byte b = isASCIILetter b || Ascii.eqb b "_") as Hb by by destruct b as [[] [] [] [] [] [] [] []].
  destruct r as [|c r].
  { cbn [patternCapture]. destruct (Ascii.eqb a "<"); [|done]. rewrite span_cons.
    destruct (isIdentByte b); [|done]. cbn [Text.span fst snd starts_with strip_prefix]. by destruct (letter_byte b). }
  unfold patternCapture. destruct (Ascii.eqb a "<"); [|done]. cbn [negb orb].
  rewrite span_cons, captureRest_span, ident_byte_ascii, <- negb_orb. destruct (isASCIILetter b || Ascii.eqb b "_"); cbn [negb orb].
  - destruct (Text.span isIdentByte (String c r)) as [n t]. cbn [fst snd starts_with]. rewrite Hb. cbn [orb strip_prefix].
    destruct t as [|d t]; [done|]. destruct (Ascii.eqb ">" d); [|done]. do 2 f_equal. cbn. lia.
  - destruct (within 48 57 b); [|done]. destruct (Text.span isIdentByte (String c r)) as [n t].
    cbn [starts_with]. by rewrite Hb.
Qed.

Lemma captureAt_suffix s n r : captureAt s = Some (n, r) → suffix (String.length n + 2) s = r.
Proof.
  intros [-> _]%captureAt_spec.
  replace ("<" +:+ n +:+ ">" +:+ r) with (("<" +:+ n +:+ ">") +:+ r) by by rewrite !append_assoc.
  replace (String.length n + 2)%nat with (String.length ("<" +:+ n +:+ ">")); [apply suffix_app|].
  rewrite !length_app_str. cbn. lia.
Qed.

(** No capture starts inside a rune. *)
Lemma rune_tail s k : s ≠ "" → (1 ≤ k < (DecodeRune s).2)%nat →
  ∃ c t, suffix k s = String c t ∧ Ascii.eqb "<" c = false.
Proof.
  intros Hne Hk.
  assert (∀ c, cont c = true → Ascii.eqb "<" c = false) as Hcont
    by (intros [[] [] [] [] [] [] [] []]; done).
  assert (∀ lo hi c, 128 ≤ lo → within lo hi c = true → Ascii.eqb "<" c = false) as Hwithin.
  { intros lo hi c Hlo Hw%within_spec. destruct (Ascii.eqb_spec "<" c) as [<-|]; [|done].
    change (b2z "<") with 60 in Hw. lia. }
  unfold DecodeRune in Hk. destruct s as [|a s]; [done|].
  repeat (case_match; cbn [snd] in Hk; try lia); simplify_eq;
    repeat match goal with E : _ && _ = true |- _ => apply andb_true_iff in E as [? ?] end;
    (destruct k as [|[|[|[|k]]]]; try lia; cbn [suffix]; do 2 eexists; (split; [reflexivity|]);
     first [by apply Hcont|eapply Hwithin; [|eassumption]; repeat case_match; lia]).
Qed.

Lemma nextCapture_bytes k s : (k ≤ String.length s)%nat → (∀ j, (j < k)%nat → captureAt (suffix j s) = None) →
  nextCapture s =
  match nextCapture (suffix k s) with
  | Some (lit, n, r) => Some (prefix k s +:+ lit, n, r)
  | None => None
  end.
Proof.
  revert s. induction k as [|k IH]; intros s Hk Hnone; [cbn [suffix]; by destruct (nextCapture s) as [[[]]|]|].
  destruct s as [|c s]; [cbn in Hk; lia|]. pose proof (Hnone 0%nat ltac:(lia)) as H0. cbn [suffix] in H0.
  cbn [nextCapture suffix prefix]. rewrite H0. rewrite (IH s).
  - by destruct (nextCapture (suffix k s)) as [[[]]|].
  - cbn in Hk. lia.
  - intros j Hj. exact (Hnone (S j) ltac:(lia)).
Qed.

(** Skipping a rune that does not start a capture skips no capture. *)
Lemma nextCapture_rune s : s ≠ "" → captureAt s = None →
  nextCapture s =
  match nextCapture (suffix (DecodeRune s).2 s) with
  | Some (lit, n, r) => Some (prefix (DecodeRune s).2 s +:+ lit, n, r)
  | None => None
  end.
Proof.
  intros Hne Hc. destruct (DecodeRune_width s Hne) as [Hw Hl]. apply nextCapture_bytes; [done|].
  intros [|j] Hj; [done|]. destruct (rune_tail s (S j) Hne) as (c & t & -> & Hb); [lia|].
  unfold captureAt. cbn [strip_prefix]. by rewrite Hb.
Qed.

Lemma nextCapture_here s n r : captureAt s = Some (n, r) → nextCapture s = Some ("", n, r).
Proof. intros E. destruct s; cbn [nextCapture]; by rewrite E. Qed.

(** The captures of a text, each with whether it follows another one directly;
    [adj] is whether one ends where the text starts. *)
Inductive captures : bool → string → list (bool * string) → Prop :=
| captures_none adj s : nextCapture s = None → captures adj s []
| captures_some adj s lit n r l : nextCapture s = Some (lit, n, r) → captures true r l →
    captures adj s ((adj && String.eqb lit "", n) :: l).

Definition apart (l : list (bool * string)) : Prop := Forall (λ c, c.1 = false) l.

Definition names (l : list (bool * string)) : list string := base.filter (λ n, n ≠ "_") l.*2.

Lemma captures_total n adj s : (String.length s ≤ n)%nat → ∃ l, captures adj s l.
Proof.
  revert adj s. induction n as [|n IH]; intros adj s Hn.
  all: destruct (nextCapture s) as [[[lit nm] r]|] eqn:E; [|eexists; by constructor].
  all: pose proof (nextCapture_spec _ _ _ _ E) as (_ & _ & Hl); try lia.
  destruct (IH true r) as [l Hc]; [lia|]. eexists. by eapply captures_some.
Qed.

Lemma captures_rune adj s l : s ≠ "" → captureAt s = None → captures adj s l →
  captures false (suffix (DecodeRune s).2 s) l.
Proof.
  intros Hne Hc Hl. pose proof (nextCapture_rune s Hne Hc) as E. destruct (DecodeRune_width s Hne) as [Hw _].
  destruct Hl as [adj s En|adj s lit n r l En Hl]; rewrite En in E.
  - constructor. destruct (nextCapture (suffix _ s)) as [[[]]|]; done.
  - destruct (nextCapture (suffix _ s)) as [[[lit' n'] r']|] eqn:E'; [|done]. injection E as -> -> ->.
    replace (adj && _) with (false && String.eqb lit' ""); [by eapply captures_some|].
    destruct (DecodeRune s).2 as [|w]; [lia|]. destruct s as [|c s]; [done|]. cbn. by rewrite andb_false_r.
Qed.

Lemma names_cons b n l : names ((b, n) :: l) = (if String.eqb n "_" then [] else [n]) ++ names l.
Proof.
  unfold names. cbn [fmap list_fmap snd]. rewrite filter_cons. destruct (String.eqb_spec n "_"), (decide (n ≠ "_")); try done; tauto.
Qed.

Lemma patternScan_spec fuel s lastCap named prev cons l : (String.length s ≤ fuel)%nat → captures prev s l →
  ∃ c, patternScan fuel s lastCap named prev cons = (named ++ names l, c) ∧ (c = "" ↔ cons = "" ∧ apart l).
Proof.
  revert s lastCap named prev cons l. induction fuel as [|fuel IH]; intros s lastCap named prev cons l Hf Hl.
  - destruct s; [|cbn in Hf; lia]. inversion Hl; subst; [|done]. exists cons. cbn. rewrite app_nil_r.
    split; [done|]. split; [by split; [|constructor]|tauto].
  - destruct s as [|a s].
    { inversion Hl; subst; [|done]. exists cons. cbn. rewrite app_nil_r.
      split; [done|]. split; [by split; [|constructor]|tauto]. }
    cbn [patternScan]. rewrite patternCapture_at. destruct (captureAt (String a s)) as [[n r]|] eqn:Ec.
    + rewrite (captureAt_suffix _ _ _ Ec). apply nextCapture_here in Ec.
      pose proof (nextCapture_spec _ _ _ _ Ec) as (_ & _ & Hlen).
      inversion Hl as [|? ? lit0 n0 r0 l' Ec' Hl']; subst; [congruence|].
      rewrite Ec in Ec'. injection Ec' as <- <- <-.
      set (cons' := if prev && String.eqb cons "" then _ else cons).
      destruct (IH r n (if String.eqb n "_" then named else named ++ [n]) true cons' l') as (c & -> & Hc);
        [lia|done|].
      exists c. rewrite names_cons. split.
      * f_equal. destruct (String.eqb n "_"); [done|]. by rewrite <- app_assoc.
      * rewrite Hc. unfold apart. rewrite Forall_cons. cbn. rewrite andb_true_r. unfold cons'.
        destruct prev; cbn; [|naive_solver]. destruct (String.eqb_spec cons ""); naive_solver.
    + destruct (DecodeRune_width (String a s)) as [Hw Hwl]; [done|]. apply IH.
      * rewrite length_suffix. lia.
      * by eapply captures_rune.
Qed.

Lemma firstDuplicate_spec seen l : firstDuplicate seen l = None ↔ NoDup l ∧ (∀ n, n ∈ l → n ∉ seen).
Proof.
  revert seen. induction l as [|n l IH]; intros seen; cbn [firstDuplicate].
  - split; [|done]. intros _. split; [constructor|]. by intros n ?%elem_of_nil.
  - case_bool_decide as Hn.
    + split; [done|]. intros [_ Hx]. by specialize (Hx n ltac:(left)).
    + rewrite IH, NoDup_cons. split.
      * intros [Hd Hx]. split_and!; [|done|].
        -- intros Hin. apply (Hx n Hin). left.
        -- intros m [->|Hm]%elem_of_cons; [done|]. intros Hs. apply (Hx m Hm). by right.
      * intros [[Hnl Hd] Hx]. split; [done|]. intros m Hm [->|Hs]%elem_of_cons; [done|].
        apply (Hx m); [by right|done].
Qed.

Lemma validatePattern_spec pat l : captures false pat l →
  validatePatternParser pat = Ok tt ↔ apart l ∧ NoDup (names l) ∧ names l ≠ [].
Proof.
  intros Hl. unfold validatePatternParser. destruct (String.eqb_spec pat "") as [->|Hne].
  { inversion Hl; subst; [|done]. naive_solver. }
  destruct (patternScan_spec (String.length pat) pat "" [] false "" l) as (c & -> & Hc); [done|done|].
  cbn [app]. destruct (names l) as [|n ns] eqn:En; [naive_solver|]. rewrite <- En in *.
  destruct (String.eqb_spec c "") as [->|Hce]; cbn [negb].
  - pose proof (firstDuplicate_spec [] (names l)) as Hd. destruct (firstDuplicate [] (names l)).
    + split; [done|]. intros (_ & Hnd & _). assert (Some s = None); [|done].
      apply Hd. split; [done|]. by intros m _ ?%elem_of_nil.
    + split; [|done]. intros _. split_and!; [by apply Hc|by apply Hd|by rewrite En].
  - split; [done|]. intros (Ha & _). by destruct Hce; apply Hc.
Qed.

Lemma compilePattern_spec `{Unicode} fuel msg s parts seen l : (String.length s < fuel)%nat →
  captures (last_is_capture parts) s l → NoDup seen →
  (∃ out, patternLoop fuel msg s parts seen = Ok out) ↔
  apart l ∧ NoDup (names l ++ seen) ∧ names l ++ seen ≠ [].
Proof.
  revert s parts seen l. induction fuel as [|fuel IH]; intros s parts seen l Hf Hl Hnd; [lia|].
  cbn [patternLoop]. inversion Hl as [? ? E|? ? lit n r l' E Hl']; subst; rewrite E.
  - cbn. destruct seen; [naive_solver|]. split; [|eauto]. intros _. by split; [constructor|].
  - apply nextCapture_spec in E as (_ & _ & Hlen). rewrite names_cons. unfold apart. rewrite Forall_cons. cbn [fst].
    rewrite andb_comm. destruct (last_is_capture parts && String.eqb lit "") eqn:Ea; [naive_solver|].
    set (parts' := if String.eqb lit "" then parts else _).
    assert (∀ n', last_is_capture (parts' ++ [PCapture n']) = true) as Hlast
      by (intros n'; unfold last_is_capture; by rewrite last_snoc).
    destruct (String.eqb_spec n "_") as [->|Hn]; cbn [app].
    + rewrite (IH r _ seen l'); [|lia|by rewrite Hlast|done]. unfold apart. naive_solver.
    + case_bool_decide as Hin.
      * split; [naive_solver|]. intros (_ & Hd & _). apply NoDup_cons in Hd as [Hd _]. set_solver.
      * rewrite (IH r _ (n :: seen) l'); [|lia|by rewrite Hlast|by constructor].
        assert (NoDup (names l' ++ n :: seen) ↔ NoDup (n :: names l' ++ seen)) as -> by by rewrite Permutation_middle.
        unfold apart. split; [naive_solver|].
        intros ([_ ?] & ? & _). split_and!; [done|done|]. by destruct (names l').
Qed.

Lemma pattern_agrees `{Unicode} pat :
  validatePatternParser pat = Ok tt ↔ ∃ parts, compilePattern pat = Ok parts.
Proof.
  destruct (captures_total (String.length pat) false pat) as [l Hl]; [done|].
  rewrite (validatePattern_spec pat l Hl). unfold compilePattern.
  rewrite (compilePattern_spec _ _ pat [] [] l); [|lia|done|constructor]. by rewrite app_nil_r.
Qed.

(** A pattern passes validation exactly when the pipeline that evaluates it can
    compile it: the validator, which walks the text rune by rune, and the compiler,
    which searches for captures, agree on every pattern, so no accepted query loses
    its pattern stage and no query the pipeline could run is refused. *)
Theorem pattern_validated_iff_compiled `{Unicode} pat :
  validatePatternParser pat = Ok tt ↔ ∃ parts, compilePattern pat = Ok parts.
Proof. apply pattern_agrees. Qed.

(** ** Accepted queries *)

Section Accepted.
Context `{Numbers} `{!Json} `{Regexps} `{!Captures} `{Unicode} `{Netip} `{Checks}.

(** The matchers compile and at least one of them rejects the empty string. *)
Definition selective (sel : StreamSelector) : Prop :=
  Forall (λ m, is_ok (matcherMatchesEmpty m) = true) sel ∧
  Exists (λ m, matcherMatchesEmpty m = Ok false) sel.

Lemma selectorLoop_spec b sel : selectorLoop b sel = "" ↔
  Forall (λ m, is_ok (matcherMatchesEmpty m) = true) sel ∧
  (b = true ∨ Exists (λ m, matcherMatchesEmpty m = Ok false) sel).
Proof.
  revert b. induction sel as [|m sel IH]; intros b; cbn [selectorLoop].
  - rewrite Exists_nil. destruct b; [by intuition|]. split; [done|naive_solver].
  - rewrite Forall_cons, Exists_cons. destruct (matcherMatchesEmpty m) as [e|msg]; cbn [is_ok].
    + rewrite IH. destruct b, e; cbn [negb orb]; naive_solver.
    + split; [done|naive_solver].
Qed.

Lemma selector_spec sel : validateSelectorSemantics sel = "" ↔ selective sel.
Proof. unfold validateSelectorSemantics, selective. rewrite selectorLoop_spec. naive_solver. Qed.

Lemma stagesLoop_spec b stages s : stagesLoop b stages = "" → s ∈ stages →
  match s with LineFormatStage _ => True | _ => validateStageSemantics s = "" end.
Proof.
  induction stages as [|t rest IH]; intros Hs; [by intros ?%elem_of_nil|]. cbn [stagesLoop] in Hs.
  destruct (_ && _ && _) eqn:Eb.
  - intros [->|Hin]%elem_of_cons; [|by apply IH]. by destruct t.
  - destruct (String.eqb_spec (validateStageSemantics t) "") as [Ht|]; [|done]. cbn [negb] in Hs.
    intros [->|Hin]%elem_of_cons; [by destruct t|by apply IH].
Qed.

(** A log query that is fit to run: its selector is selective, it unwraps at most
    once, its regexp and pattern stages compile in the pipeline, and the arguments of its
    json and logfmt stages are expressions of Loki's grammars. *)
Definition runnable (lq : LogQuery) : Prop :=
  selective (Selector lq) ∧
  (length (base.filter (λ s, isUnwrap s = true) (Ast.Pipeline lq)) ≤ 1)%nat ∧
  ∀ t param fields, ParserStage t param fields ∈ Ast.Pipeline lq →
    match t with
    | ParserRegexp => ∃ re, re_compile param = Ok re ∧ Exists (λ n, n ≠ "") (re_names re)
    | ParserPattern => ∃ parts, compilePattern param = Ok parts
    | ParserJSON => Forall (λ f, ∃ ts, lexes (newLexer (ef_Expression f)) ts ∧ values ts) fields
    | ParserLogfmt => Forall (λ f, ∃ ts, logfmtLexes (newLexer (ef_Expression f)) ts ∧ keys ts) fields
    | ParserUnpack => True
    end.

Lemma subexpNames_named seen l r : subexpNames seen l = Ok r → r ≠ seen → Exists (λ n, n ≠ "") l.
Proof.
  revert seen. induction l as [|n l IH]; intros seen; cbn [subexpNames]; [by intros [= ->]|].
  destruct (String.eqb_spec n "") as [->|Hn].
  - intros E Hr. apply Exists_cons. right. by eapply IH.
  - intros _ _. apply Exists_cons. by left.
Qed.

Lemma newParseError_nonempty l c msg : newParseError l c msg ≠ "".
Proof. unfold newParseError. by destruct (_ && _). Qed.

Lemma validateFields_spec kind validate all fields : validateFields kind validate all fields = "" →
  Forall (λ f, validate (ef_Expression f) = Ok tt) fields.
Proof.
  induction fields as [|f fields IH]; cbn [validateFields]; [constructor|].
  destruct (validate (ef_Expression f)) as [[]|e] eqn:E; [intros; constructor; eauto|].
  intros Hn. by apply newParseError_nonempty in Hn.
Qed.

Lemma logQuery_runnable lq b : validateLogQuerySemantics lq b = "" → runnable lq.
Proof.
  unfold validateLogQuerySemantics.
  destruct (String.eqb_spec (validateSelectorSemantics (Selector lq)) "") as [Hs|]; [|done]. cbn [negb].
  destruct (Nat.ltb_spec 1 (length (base.filter (λ s, isUnwrap s = true) (Ast.Pipeline lq)))); [done|].
  intros Hl. split_and!; [by apply selector_spec|done|]. intros t param fields Hin.
  pose proof (stagesLoop_spec _ _ _ Hl Hin) as Hv. cbn in Hv. destruct t; cbn [validateParserStage] in Hv; [..|done].
  - eapply Forall_impl; [by eapply validateFields_spec|]. intros f. apply json_grammar.
  - eapply Forall_impl; [by eapply validateFields_spec|]. intros f. apply logfmt_grammar.
  - unfold validateRegexpParser in Hv. destruct (re_compile param) as [re|e]; [|by apply newParseError_nonempty in Hv].
    exists re. split; [done|]. destruct (subexpNames [] (re_names re)) as [[|n r]|e] eqn:En.
    1,3: by apply newParseError_nonempty in Hv.
    by eapply subexpNames_named.
  - apply pattern_agrees. destruct (validatePatternParser param) as [[]|e]; [done|].
    by apply newParseError_nonempty in Hv.
Qed.

(** The log queries an expression evaluates, those in the argument of an opaque
    call included. *)
Inductive query_of : Expr → LogQuery → Prop :=
| query_log q : query_of (LogQueryExpr q) q
| query_range op inner r o k h g q : query_of inner q → query_of (RangeAggregation op inner r o k h g) q
| query_vector op g k h inner q : query_of inner q → query_of (VectorAggregation op g k h inner) q
| query_left l r op b vm q : query_of l q → query_of (BinOpExpr l r op b vm) q
| query_right l r op b vm q : query_of r q → query_of (BinOpExpr l r op b vm) q
| query_opaque raw inner p q : opaqueFirstArgument raw = Done (Some inner) p → query_of inner q →
    query_of (OpaqueMetricExpr raw) q.

Lemma semantics_binop opaque l r op b vm : semantics opaque (BinOpExpr l r op b vm) = Some "" →
  semantics opaque l = Some "" ∧ semantics opaque r = Some "".
Proof.
  cbn [semantics]. intros E. destruct l, r; try done;
    repeat match goal with
    | E : match ?x with Some _ => _ | None => _ end = _ |- _ => destruct x as [[|]|] eqn:?
    end; done.
Qed.

Lemma semantics_range opaque op inner r o k h g :
  semantics opaque (RangeAggregation op inner r o k h g) = Some "" →
  (∃ lq b, inner = LogQueryExpr lq ∧ validateLogQuerySemantics lq b = "") ∨ semantics opaque inner = Some "".
Proof.
  cbn [semantics]. unfold validateRangeAggSemantics. destruct (_ && _ && _); [done|].
  destruct inner; try (by right). destruct (_ && _); [done|]. intros [= E]. left. eauto.
Qed.

Lemma semantics_sound e q : query_of e q →
  (∀ fuel, semantics (opaqueSemantics fuel) e = Some "" → runnable q).
Proof.
  induction 1 as [q|op inner r o k h g q Hq IH|op g k h inner q Hq IH|l r op b vm q Hq IH
    |l r op b vm q Hq IH|raw inner p q Ho Hq IH]; intros fuel.
  - intros [= E]. by eapply logQuery_runnable.
  - intros [(lq & b & -> & E)|E]%semantics_range; [|by eapply IH].
    inversion Hq; subst. by eapply logQuery_runnable.
  - intros E. by eapply (IH fuel).
  - intros [E _]%semantics_binop. by eapply IH.
  - intros [_ E]%semantics_binop. by eapply IH.
  - cbn [semantics]. destruct fuel as [|fuel]; [done|]. cbn [opaqueSemantics]. rewrite Ho. apply IH.
Qed.


End Accepted.

(** ** The validator ends *)

Section Total.
Context `{Numbers} `{!Json} `{Regexps} `{!Captures} `{Unicode} `{Netip} `{Checks}.

#[local] Existing Instance P_ret.
#[local] Existing Instance P_bind.

(** The argument of an opaque call holds only shorter calls. *)
Lemma opaqueFirstArgument_shrinks raw :
  match opaqueFirstArgument raw with
  | Done (Some inner) _ => (0 < String.length raw)%nat ∧ opaque_le (String.length raw - 1) inner
  | NoFuel => False
  | _ => True
  end.
Proof.
  destruct (start_ends raw) as [Hw Hl]. unfold opaqueFirstArgument. rewrite bind_typ.
  destruct (is_typ (Typ (cur (start raw))) TokIdent) eqn:Ei; cbn [negb]; [|done].
  assert (Typ (cur (start raw)) ≠ TokEOF) as Hc by (apply is_typ_true in Ei; congruence).
  pose proof (left_pos _ Hc). pose proof (advance_tok _ Hw Hc) as Ha.
  unfold mbind at 1, P_bind at 1. destruct (advance (start raw)) as [t1 p1|m|]; [|done|done].
  destruct Ha as [Hw1 Hl1]. rewrite bind_typ.
  destruct (is_typ (Typ (cur p1)) TokLParen); cbn [negb]; [|done].
  pose proof (advance_any p1 Hw1) as Ha2.
  unfold mbind at 1, P_bind at 1. destruct (advance p1) as [t2 p2|m|]; [|done|done].
  destruct Ha2 as [Hw2 Hl2].
  destruct (enough_all (fuelFor raw)) as (NE & _). destruct (bounded_everywhere (fuelFor raw)) as (HE & _).
  assert (4 * left_ p2 + 3 ≤ fuelFor raw)%nat as Hfuel by (unfold fuelFor; lia).
  pose proof (NE p2 Hw2 Hfuel) as Hn. pose proof (HE p2 Hw2 Hfuel) as Hb.
  unfold mbind, P_bind. destruct (parseExpr (fuelFor raw) p2) as [e p3|m|]; [|done|done].
  unfold typ. destruct (is_typ (Typ (cur p3)) TokComma); cbn [negb]; [|done].
  split; [lia|]. eapply opaque_le_mono; [|exact Hb]. lia.
Qed.

Lemma semantics_some opaque n e : (∀ raw, (String.length raw ≤ n)%nat → is_Some (opaque raw)) →
  opaque_le n e → is_Some (semantics opaque e).
Proof.
  intros Ho. induction e as [q|op inner IH r o k h g|op g k h inner IH|l IHl r IHr op b vm|v|raw];
    cbn [opaque_le]; intros Hle.
  - by eexists.
  - cbn [semantics]. unfold validateRangeAggSemantics. destruct (_ && _ && _); [by eexists|].
    destruct inner; try by apply IH. destruct (_ && _); by eexists.
  - by apply IH.
  - destruct Hle as [Hl Hr]. specialize (IHl Hl). specialize (IHr Hr). cbn [semantics].
    destruct IHl as [m El]. destruct l, r; try (by eexists); rewrite El; destruct m; done || by eexists.
  - by eexists.
  - by apply Ho.
Qed.

Lemma opaqueSemantics_some fuel raw : (String.length raw < fuel)%nat → is_Some (opaqueSemantics fuel raw).
Proof.
  revert raw. induction fuel as [|fuel IH]; intros raw Hf; [lia|]. cbn [opaqueSemantics].
  pose proof (opaqueFirstArgument_shrinks raw) as Hs.
  destruct (opaqueFirstArgument raw) as [[inner|] p|m|]; [|by eexists|by eexists|done].
  destruct Hs as [Hp Hle].
  apply (semantics_some _ (String.length raw - 1)); [|done]. intros r Hr. apply IH. lia.
Qed.

Lemma validateSemantics_some s e p : Parse s = Done e p → is_Some (validateSemantics e s).
Proof.
  intros Hp. apply (semantics_some _ (String.length s)); [|by eapply parse_opaque_le].
  intros r Hr. apply opaqueSemantics_some. lia.
Qed.

(** Validation ends on every query with a verdict: although each opaque call is
    parsed again, and its argument may hold further opaque calls, the calls get
    shorter with every level, so the recursion is no deeper than the query is long. *)
Theorem validate_total query : is_Some (ValidateLogQL query) ∧ is_Some (ValidateMatchersQuery query).
Proof.
  split.
  - unfold ValidateLogQL, validateLogQL.
    repeat match goal with |- context [if ?b then _ else _] => destruct b; [by eexists|] end.
    destruct (cutAt _ _) as [[]|]; [by eexists|]. pose proof (parse_ends (TrimSpace query)).
    destruct (Parse (TrimSpace query)) as [e p|m|] eqn:Ep; [|by eexists|done].
    destruct (validateSemantics_some _ _ _ Ep) as [m ->]. by eexists.
  - unfold ValidateMatchersQuery.
    repeat match goal with |- context [if ?b then _ else _] => destruct b; [by eexists|] end.
    pose proof (parse_ends query). destruct (Parse query) as [e p|m|] eqn:Ep; [|by eexists|done].
    destruct (bareSelector e); [by eexists|]. destruct (validateSemantics_some _ _ _ Ep) as [m ->]. by eexists.
Qed.

(** ** Series matchers *)

Lemma elem_of_dedup x seen l : x ∈ dedup seen l ↔ x ∈ l ∧ x ∉ seen.
Proof.
  revert seen. induction l as [|g l IH]; intros seen; cbn [dedup].
  { split; [by intros ?%elem_of_nil|by intros [?%elem_of_nil _]]. }
  case_bool_decide as Hg; rewrite ?elem_of_cons, IH, ?not_elem_of_union, ?not_elem_of_singleton.
  - destruct (decide (x = g)); naive_solver.
  - destruct (decide (x = g)); naive_solver.
Qed.

Lemma NoDup_dedup seen l : NoDup (dedup seen l).
Proof.
  revert seen. induction l as [|g l IH]; intros seen; cbn [dedup]; [constructor|].
  case_bool_decide; [done|]. constructor; [|done]. rewrite elem_of_dedup, not_elem_of_union, not_elem_of_singleton. tauto.
Qed.

(** The verdict on the [match] parameters of a series request depends only on
    which selectors were sent: neither their order nor repetitions change the
    answer or its message. *)
Theorem series_groups_as_set g1 g2 : (∀ x, x ∈ g1 ↔ x ∈ g2) →
  ValidateSeriesMatchers g1 = ValidateSeriesMatchers g2.
Proof.
  intros Hx. unfold ValidateSeriesMatchers. rewrite (sortStrings_unique (dedup ∅ g1) (dedup ∅ g2)); [done|].
  apply NoDup_Permutation; [apply NoDup_dedup..|]. intros x. rewrite !elem_of_dedup, Hx. done.
Qed.

End Total.

(** ** Examples *)

Module ValidateDemo.
Import Filter.FilterDemo Pipe.PipeDemo.
#[local] Existing Instance ascii_tables.
#[local] Existing Instance integers.
#[local] Existing Instance integer_order.
#[local] Existing Instance no_regexps.
#[local] Existing Instance no_json.
#[local] Existing Instance no_captures.

#[local] Instance loopback : Netip := {|
  Addr := unit;
  ParseAddr s := if String.eqb s "127.0.0.1" then Some tt else None;
  ParsePrefixOk s := String.eqb s "10.0.0.0/8";
  BitLen _ := 32;
  CompareNoZone _ _ := 0
|}.

#[local] Instance no_checks : Checks := {|
  syntax_Parse _ := Some "unsupported";
  template_Parse _ _ _ := None
|}.

Definition q (s : string) : string := String dquote s +:+ String dquote "".

(** [label_replace(rate({app="a"} | pattern "<ip> - <_>" [5m]), "x", "$1", "ip", "(.*)")]. *)
Definition nested : string :=
  "label_replace(rate({app=" +:+ q "a" +:+ "} | pattern " +:+ q "<ip> - <_>" +:+ " [5m]), " +:+ q "x" +:+ ", "
  +:+ q "$1" +:+ ", " +:+ q "ip" +:+ ", " +:+ q "(.*)" +:+ ")".

Lemma verdicts :
  ValidateLogQL nested = Some "" ∧
  ValidateLogQL ("{app!=" +:+ q "a" +:+ "}") = Some errEmptyCompatibleMatchers ∧
  ValidateLogQL ("rate_counter({app=" +:+ q "a" +:+ "}[1m])")
    = Some "parse error : rate_counter requires | unwrap expression" ∧
  ValidateMatchersQuery ("{app=" +:+ q "a" +:+ "} | json") = Some errOnlyLabelMatchers ∧
  validateJSONExpression ("a.b[0][" +:+ q "c" +:+ "]") = Ok tt ∧
  validateJSONExpression "a[1.5]" = Err "syntax error: unexpected $end, expecting STRING or INDEX" ∧
  validatePatternParser "<a><b>" = Err "found consecutive capture '<a><b>': invalid expression".
Proof. vm_compute. split_and!; reflexivity. Qed.


Lemma series_groups_as_set_witness :
  ValidateSeriesMatchers ["{b}"; "{a}"; "{b}"] = ValidateSeriesMatchers ["{a}"; "{b}"].
Proof. refine (series_groups_as_set _ _ _). intros x. rewrite !elem_of_cons. naive_solver. Defined.

End ValidateDemo.

End Validate.
