(* ===== verification/JsonText.v ===== *)
(** * JSON texts of strings and label sets

    encoding/json as the proxy uses it for keys and responses: [json.Marshal] of a
    string and of a [map[string]string], whose keys it sorts.  Invalid UTF-8 is
    written as the replacement character itself, as Go 1.27 does.  A quoted text ends
    where its closing quote is, so texts of valid strings decode uniquely, and so do
    texts of label sets: a label set can be a map key through its JSON text. *)

From S2P Require Import Prelude GoText Utf8.

#[local] Open Scope Z_scope.

Module JsonText.
Import Text Utf8.

(** The text of one rune: short escapes, [\u] escapes for the other control bytes,
    for the characters of HTML and for the two line separators, itself otherwise. *)
Definition runeText (r : Z) : string :=
  if (r =? 34) || (r =? 92) then escape (bytes [r])
  else if r =? 8 then escape "b"
  else if r =? 12 then escape "f"
  else if r =? 10 then escape "n"
  else if r =? 13 then escape "r"
  else if r =? 9 then escape "t"
  else if (r <? 32) || (r =? 60) || (r =? 62) || (r =? 38) || (r =? 0x2028) || (r =? 0x2029)
  then escape (String "u" (hex 4 r))
  else EncodeRune r.

Fixpoint text_loop (fuel : nat) (s : string) : string :=
  match fuel with
  | O => ""
  | S fuel =>
      match s with
      | "" => ""
      | _ => let '(r, w) := DecodeRune s in runeText r +:+ text_loop fuel (suffix w s)
      end
  end.

(** [json.Marshal] of a string; every round consumes a byte. *)
Definition MarshalString (s : string) : string :=
  String dquote (text_loop (String.length s) s +:+ String dquote "").

(** The pairs of a label set in the order of their names. *)
Definition pairs (m : gmap string string) : list (string * string) :=
  map (λ k, (k, default "" (m !! k))) (sortStrings (elements (dom m))).

Definition pairText (kv : string * string) : string := MarshalString kv.1 +:+ ":" +:+ MarshalString kv.2.

(** [json.Marshal] of a [map[string]string]. *)
Definition MarshalLabels (m : gmap string string) : string := "{" +:+ Join "," (map pairText (pairs m)) +:+ "}".

(** ** Decoding a text again *)

(** The first rune of a text and what follows it. *)
Definition headRune (s : string) : option (Z * string) :=
  match s with
  | "" => None
  | String a s1 =>
      if Ascii.eqb a bslash then
        match s1 with
        | String b s2 =>
            if Ascii.eqb b "u" then unhexes 4 0 s2
            else if Ascii.eqb b "b" then Some (8, s2)
            else if Ascii.eqb b "f" then Some (12, s2)
            else if Ascii.eqb b "n" then Some (10, s2)
            else if Ascii.eqb b "r" then Some (13, s2)
            else if Ascii.eqb b "t" then Some (9, s2)
            else Some (b2z b, s2)
        | "" => None
        end
      else let '(r, w) := DecodeRune s in Some (r, suffix w s)
  end.

(** The text of a rune is not a quote and gives the rune back. *)
Lemma headRune_text r t : ValidRune r = true → headRune (runeText r +:+ t) = Some (r, t).
Proof.
  intros Hv. pose proof (proj1 (ValidRune_spec r) Hv) as Hr. unfold runeText.
  destruct (Z.eqb_spec r 34) as [->|H1]; [done|]. destruct (Z.eqb_spec r 92) as [->|H2]; [done|]. cbn [orb].
  destruct (Z.eqb_spec r 8) as [->|H3]; [done|]. destruct (Z.eqb_spec r 12) as [->|H4]; [done|].
  destruct (Z.eqb_spec r 10) as [->|H5]; [done|]. destruct (Z.eqb_spec r 13) as [->|H6]; [done|].
  destruct (Z.eqb_spec r 9) as [->|H7]; [done|].
  destruct ((r <? 32) || _ || _ || _ || _ || _) eqn:E.
  - assert (0 ≤ r < 65536) as Hs by (apply orb_true_iff in E; rewrite !orb_true_iff in E; lia).
    unfold escape. rewrite !app_str_cons. change (unhexes 4 0 (hex 4 r +:+ t) = Some (r, t)).
    rewrite unhexes_hex, Z.mod_small by (cbn; lia). by rewrite Z.mul_0_l, Z.add_0_l.
  - clear E. pose proof (decode_encode r t Hv) as Hd.
    destruct (EncodeRune r) as [|a u] eqn:Ee.
    { unfold EncodeRune in Ee. rewrite Hv in Ee. cbv zeta in Ee. repeat case_match; done. }
    assert (Ascii.eqb a bslash = false) as Ha.
    { apply Ascii.eqb_neq. intros ->. destruct (Z.ltb_spec r 0x80) as [Hlt|Hge].
      - rewrite EncodeRune_ascii in Ee by lia. injection Ee as Ez _. apply (f_equal b2z) in Ez.
        rewrite b2z_z2b in Ez by lia. by change (b2z bslash) with 92 in Ez.
      - destruct (EncodeRune_high r Hge) as (c & v & Ec & Hc). rewrite Ec in Ee. injection Ee as -> _.
        change (b2z bslash) with 92 in Hc. lia. }
    rewrite app_str_cons in *. unfold headRune. rewrite Ha, Hd. f_equal. f_equal.
    rewrite <- app_str_cons, <- Ee. apply suffix_app.
Qed.

(** ** Unique texts *)

Lemma suffix_shorter s : s ≠ "" → (String.length (suffix (DecodeRune s).2 s) < String.length s)%nat.
Proof. intros Hs. destruct (DecodeRune_width s Hs) as [Hw Hl]. rewrite length_suffix. lia. Qed.

Lemma text_loop_enough n s : (String.length s ≤ n)%nat → text_loop n s = text_loop (String.length s) s.
Proof.
  revert s. induction n as [n IH] using lt_wf_ind. intros s Hn.
  destruct s as [|a s]; [by destruct n|]. destruct n as [|n]; [cbn in Hn; lia|].
  pose proof (suffix_shorter (String a s) ltac:(done)) as Hs. cbn [text_loop String.length].
  destruct (DecodeRune (String a s)) as [r w]. cbn [snd] in Hs. cbn in Hn, Hs.
  f_equal. rewrite (IH n) by lia. symmetry. destruct (decide (String.length s = n)) as [->|]; [rewrite (IH n) by lia; done|].
  rewrite (IH (String.length s)) by lia. done.
Qed.

Definition text (s : string) : string := text_loop (String.length s) s.

Lemma text_rune s : s ≠ "" → text s = runeText (DecodeRune s).1 +:+ text (suffix (DecodeRune s).2 s).
Proof.
  intros Hs. pose proof (suffix_shorter s Hs) as Hl. unfold text at 1. destruct s as [|a s]; [done|].
  cbn [String.length text_loop]. destruct (DecodeRune (String a s)) as [r w]. cbn [fst snd] in *.
  f_equal. apply text_loop_enough. cbn in Hl. lia.
Qed.

Lemma valid_loop_enough n s : (String.length s ≤ n)%nat → valid_loop n s = ValidString s.
Proof.
  unfold ValidString. revert s. induction n as [n IH] using lt_wf_ind. intros s Hn.
  destruct s as [|a s]; [by destruct n|]. destruct n as [|n]; [cbn in Hn; lia|].
  pose proof (suffix_shorter (String a s) ltac:(done)) as Hs. cbn [valid_loop String.length].
  destruct (DecodeRune (String a s)) as [r w]. cbn [snd] in Hs. cbn in Hn, Hs.
  destruct (_ && _); [done|]. rewrite (IH n) by lia. symmetry.
  destruct (decide (String.length s = n)) as [->|]; [rewrite (IH n) by lia; done|].
  rewrite (IH (String.length s)) by lia. done.
Qed.

(** The first rune of a valid string and the valid rest. *)
Lemma valid_rune s : s ≠ "" → ValidString s = true →
  ValidRune (DecodeRune s).1 = true ∧ s = EncodeRune (DecodeRune s).1 +:+ suffix (DecodeRune s).2 s ∧
  ValidString (suffix (DecodeRune s).2 s) = true.
Proof.
  intros Hs Hv. pose proof (suffix_shorter s Hs) as Hl. pose proof (encode_decode s) as He.
  unfold ValidString in Hv. destruct s as [|a s]; [done|]. cbn [String.length valid_loop] in Hv.
  destruct (DecodeRune (String a s)) as [r w]. cbn [fst snd] in *.
  destruct ((r =? RuneError) && (w =? 1)%nat) eqn:E; [done|]. destruct (He r w eq_refl Hs) as [Hr Heq].
  { intros [-> ->]. by rewrite Z.eqb_refl in E. }
  split; [done|]. split; [by rewrite Heq|]. rewrite <- (valid_loop_enough (String.length s)); [done|]. cbn in Hl. lia.
Qed.

(** The text of a rune does not start with a quote. *)
Lemma runeText_no_quote r t x : ValidRune r = true → runeText r +:+ t ≠ String dquote x.
Proof.
  intros Hv E. pose proof (headRune_text r t Hv) as Hh. rewrite E in Hh.
  change (headRune (String dquote x)) with (Some (34, x)) in Hh. injection Hh as <- <-.
  cbn in E. by injection E.
Qed.

(** A quoted text ends where its string ends. *)
Lemma text_unique n s t x y : (String.length s ≤ n)%nat → ValidString s = true → ValidString t = true →
  text s +:+ String dquote x = text t +:+ String dquote y → s = t ∧ x = y.
Proof.
  revert s t. induction n as [|n IH]; intros s t Hn Hs Ht E.
  all: destruct (decide (s = "")) as [->|Hsn]; [|destruct (decide (t = "")) as [->|Htn]].
  all: try (destruct s; [done|cbn in Hn; lia]).
  1,2: destruct (decide (t = "")) as [->|Htn]; [by injection E as ->|exfalso];
    destruct (valid_rune t Htn Ht) as (Hr & _); rewrite (text_rune t Htn), append_assoc in E;
    symmetry in E; by apply runeText_no_quote in E.
  - exfalso. destruct (valid_rune s Hsn Hs) as (Hr & _). rewrite (text_rune s Hsn), append_assoc in E.
    by apply runeText_no_quote in E.
  - destruct (valid_rune s Hsn Hs) as (Hr & Es & Hs'). destruct (valid_rune t Htn Ht) as (Hr' & Et & Ht').
    pose proof (suffix_shorter s Hsn) as Hl.
    rewrite (text_rune s Hsn), (text_rune t Htn), !append_assoc in E.
    apply (f_equal headRune) in E. rewrite !headRune_text in E by done. injection E as E1 E2.
    apply IH in E2 as [E2 ->]; [|lia|done|done]. split; [|done]. rewrite Es, Et, E1, E2. done.
Qed.

Lemma MarshalString_unique s t x y : ValidString s = true → ValidString t = true →
  MarshalString s +:+ x = MarshalString t +:+ y → s = t ∧ x = y.
Proof.
  intros Hs Ht. unfold MarshalString. fold (text s) (text t). rewrite !app_str_cons, !append_assoc.
  intros [= E]. by eapply text_unique.
Qed.

(** ** Unique label sets *)

Definition valid_pair (kv : string * string) : Prop := ValidString kv.1 = true ∧ ValidString kv.2 = true.

(** Every name and value of the label set is valid UTF-8, as decoded JSON is. *)
Definition valid_labels (m : gmap string string) : Prop :=
  map_Forall (λ k v, ValidString k = true ∧ ValidString v = true) m.

Lemma pairText_unique p q x y : valid_pair p → valid_pair q → pairText p +:+ x = pairText q +:+ y → p = q ∧ x = y.
Proof.
  intros [Hp1 Hp2] [Hq1 Hq2]. unfold pairText. rewrite !append_assoc. intros E.
  apply MarshalString_unique in E as [E1 E]; [|done..]. apply (f_equal (strip_prefix ":")) in E.
  rewrite !strip_prefix_app in E. apply (inj Some) in E. apply MarshalString_unique in E as [E2 ->]; [|done..].
  split; [|done]. destruct p, q. cbn in *. by subst.
Qed.

Lemma pairText_head p x : ∃ y, pairText p +:+ x = String dquote y.
Proof. eexists. unfold pairText, MarshalString. rewrite !append_assoc. done. Qed.

Lemma join_head p l x : ∃ y, Join "," (map pairText (p :: l)) +:+ x = String dquote y.
Proof. destruct l; cbn [map Join]; rewrite ?append_assoc; apply pairText_head. Qed.

Lemma pairs_unique l1 l2 : Forall valid_pair l1 → Forall valid_pair l2 →
  Join "," (map pairText l1) +:+ "}" = Join "," (map pairText l2) +:+ "}" → l1 = l2.
Proof.
  intros H1. revert l2. induction H1 as [|p l1 Hp H1 IH]; intros l2 H2 E.
  - destruct l2 as [|q l2]; [done|]. exfalso. destruct (join_head q l2 "}") as [y Hy]. by rewrite Hy in E.
  - destruct H2 as [|q l2 Hq H2].
    + exfalso. destruct (join_head p l1 "}") as [y Hy]. by rewrite Hy in E.
    + destruct l1 as [|p' l1], l2 as [|q' l2]; cbn [map Join] in E; rewrite ?append_assoc in E;
        apply pairText_unique in E as [-> E]; try done.
      f_equal. apply IH; [done|]. apply (f_equal (strip_prefix ",")) in E.
      rewrite !strip_prefix_app in E. by apply (inj Some).
Qed.

Lemma pairs_valid m : valid_labels m → Forall valid_pair (pairs m).
Proof.
  intros Hm. apply Forall_forall. intros [k v] Hin. unfold pairs in Hin.
  apply list_elem_of_fmap in Hin as (k' & [= -> ->] & Hk). rewrite (sortStrings_perm _) in Hk.
  apply elem_of_elements, elem_of_dom in Hk as [v Hv]. rewrite Hv. by apply Hm.
Qed.

Lemma pairs_inj m1 m2 : pairs m1 = pairs m2 → m1 = m2.
Proof.
  intros E. assert (∀ m k v, (k, v) ∈ pairs m ↔ m !! k = Some v) as Hin.
  { intros m k v. unfold pairs. rewrite list_elem_of_fmap. split.
    - intros (k' & [= -> ->] & Hk). rewrite (sortStrings_perm _) in Hk.
      apply elem_of_elements, elem_of_dom in Hk as [v' Hv]. by rewrite Hv.
    - intros Hv. exists k. rewrite Hv. split; [done|]. rewrite (sortStrings_perm _).
      apply elem_of_elements, elem_of_dom. by eexists. }
  apply map_eq. intros k. apply option_eq. intros v. by rewrite <- !Hin, E.
Qed.

(** Label sets with the same JSON text are the same. *)
Lemma MarshalLabels_inj m1 m2 : valid_labels m1 → valid_labels m2 → MarshalLabels m1 = MarshalLabels m2 → m1 = m2.
Proof.
  intros H1 H2 E. apply pairs_inj, pairs_unique; [by apply pairs_valid..|].
  unfold MarshalLabels in E. by injection E.
Qed.

End JsonText.
