(* ===== verification/BinaryMatch.v ===== *)
(** * Binary operations between metric results
      (src/internal/proxy/binary_matching.go, binary_budget.go, binary_encoding.go,
      binary_logql.go, binary_scalar.go, vector_matching.go, logql_adapter.go)

    The two operands are decoded metric responses.  Samples are joined timestamp by
    timestamp on their matching labels, one side unique, and the joined series are
    encoded again within the byte and sample budgets the whole expression shares.
    The budget is threaded through; a Go error is [Err].  Label sets are keyed by
    their JSON text ([JsonText]).  float64 arithmetic and the decoding of a response
    are parameters; the request's context is not cancelled, and every decoded series
    has a metric object (a missing one is the empty label set). *)

From S2P Require Import Prelude GoText Utf8 LogqlAst LogqlFilter LogqlPipeline JsonText.

#[local] Open Scope Z_scope.
#[local] Open Scope go_scope.

(** float64 arithmetic of package math, and [strconv.ParseFloat] when its error is
    ignored. *)
Class Arithmetic `{Numbers} : Type := {
  Fadd : F → F → F;
  Fsub : F → F → F;
  Fdiv : F → F → F;
  Fmod : F → F → F;
  Fpow : F → F → F;
  ParseFloatValue : string → F
}.

(** A decoded series of a matrix or vector response. *)
Record series `{Floats} : Type := mkSeries {
  sr_Metric : gmap string string;
  sr_Value : list json;
  sr_Values : list (list json)
}.

(** [json.Unmarshal] of a response, and [json.Marshal] of a timestamp. *)
Class Responses `{Floats} : Type := {
  decodeSeries : string → result (list series);
  stampText : F → string
}.

Module Binary.
Import Text Utf8 Ast JsonText.

(** ** Vector matching *)

Record VectorMatchInfo : Type := mkVMI {
  MatchOn : bool;
  vmi_GroupSide : string;
  On : option (list string);
  Ignoring : list string;
  GroupLeft : list string;
  GroupRight : list string
}.

Definition binOpExprToVMInfo (vm : option VectorMatching) : option VectorMatchInfo :=
  match vm with
  | None => None
  | Some vm =>
      let on := String.eqb (Card vm) "on" in
      let ignoring := String.eqb (Card vm) "ignoring" in
      let left := String.eqb (GroupSide vm) "group_left" in
      let right := String.eqb (GroupSide vm) "group_right" in
      Some (mkVMI on
        (if left then "group_left" else if right then "group_right" else "")
        (if on then Some (MatchLabels vm) else None)
        (if ignoring then MatchLabels vm else [])
        (if left then Include vm else [])
        (if right then Include vm else []))
  end.

Definition nonempty {A} (l : list A) : bool := match l with [] => false | _ => true end.

(** The label if it is present and not empty. *)
Definition present (labels : gmap string string) (name : string) : option string :=
  match labels !! name with
  | Some v => if String.eqb v "" then None else Some v
  | None => None
  end.

Definition pickLabels (labels : gmap string string) (names : list string) : gmap string string :=
  foldl (λ m name, match present labels name with Some v => <[name := v]> m | None => m end) ∅ names.

Definition binaryMatchingLabels (labels : gmap string string) (vm : option VectorMatchInfo) : gmap string string :=
  match vm with
  | Some v =>
      if MatchOn v || nonempty (default [] (On v)) then pickLabels labels (default [] (On v))
      else foldl (λ m name, delete (TrimSpace name) m) (filter (λ kv, kv.2 ≠ "") labels) (Ignoring v)
  | None => filter (λ kv, kv.2 ≠ "") labels
  end.

Definition binaryLabelKey (labels : gmap string string) : string := MarshalLabels labels.

Definition grouped (v : VectorMatchInfo) : bool :=
  negb (String.eqb (vmi_GroupSide v) "") || nonempty (GroupLeft v) || nonempty (GroupRight v).

Definition groupsRight (vm : option VectorMatchInfo) : bool :=
  match vm with
  | Some v => String.eqb (vmi_GroupSide v) "group_right" || nonempty (GroupRight v)
  | None => false
  end.

Definition groupsLeft (vm : option VectorMatchInfo) : bool :=
  match vm with
  | Some v => String.eqb (vmi_GroupSide v) "group_left" || nonempty (GroupLeft v)
  | None => false
  end.

Definition binaryResultLabels (many one : gmap string string) (vm : option VectorMatchInfo) : gmap string string :=
  match vm with
  | None => many
  | Some v =>
      if negb (grouped v) then binaryMatchingLabels many vm
      else
        foldl (λ m name, match present one name with Some x => <[name := x]> m | None => delete name m end)
          many (if groupsRight vm then GroupRight v else GroupLeft v)
  end.

(** ** Budgets *)

Definition maxBufferedBackendBodyBytes : Z := 64 * 2 ^ 20.
Definition maxBinaryExecutionBytes : Z := 256 * 2 ^ 20.
Definition maxBinaryExecutionArrays : Z := 2000000.

Record binaryExecutionBudget : Type := mkBudget {
  b_bytes : Z;
  b_arrays : Z;
  b_outputLabels : Z;
  b_outputSamples : Z
}.

(** The budget of a fresh evaluation. *)
Definition binaryEvaluationContext (b : option binaryExecutionBudget) : binaryExecutionBudget :=
  default (mkBudget maxBinaryExecutionBytes maxBinaryExecutionArrays maxBufferedBackendBodyBytes 1000000) b.

Definition checkBinaryOutputSample (b : binaryExecutionBudget) : result binaryExecutionBudget :=
  if b_outputSamples b <=? 0 then Err "binary expression output sample budget exceeded"
  else Ok (mkBudget (b_bytes b) (b_arrays b) (b_outputLabels b) (b_outputSamples b - 1)).

(** The loop over the body: the brackets outside of strings. *)
Fixpoint decodeLoop (quoted escaped : bool) (arrays : Z) (s : string) : result Z :=
  match s with
  | "" => Ok arrays
  | String c s =>
      if quoted then
        if escaped then decodeLoop true false arrays s
        else if Ascii.eqb c bslash then decodeLoop true true arrays s
        else if Ascii.eqb c dquote then decodeLoop false false arrays s
        else decodeLoop true false arrays s
      else if Ascii.eqb c dquote then decodeLoop true escaped arrays s
      else if Ascii.eqb c "[" then
        if arrays <=? 0 then Err "binary expression sample/series budget exceeded"
        else decodeLoop false escaped (arrays - 1) s
      else decodeLoop false escaped arrays s
  end.

Definition checkBinaryDecodeBudget (body : string) (b : binaryExecutionBudget) : result binaryExecutionBudget :=
  if maxBufferedBackendBodyBytes <? len body then Err "binary operand exceeds response byte limit"
  else
    match decodeLoop false false (b_arrays b) body with
    | Ok arrays => Ok (mkBudget (b_bytes b) arrays (b_outputLabels b) (b_outputSamples b))
    | Err e => Err e
    end.

(** The size of a string as JSON, without building it. *)
Fixpoint sizeLoop (fuel : nat) (size : Z) (s : string) : Z :=
  match fuel with
  | O => size
  | S fuel =>
      match s with
      | "" => size
      | String c rest =>
          let b := b2z c in
          if b <? 0x80 then
            let add :=
              if (b =? 34) || (b =? 92) || (b =? 8) || (b =? 12) || (b =? 10) || (b =? 13) || (b =? 9) then 2
              else if (b =? 60) || (b =? 62) || (b =? 38) then 6
              else if b <? 0x20 then 6 else 1 in
            sizeLoop fuel (size + add) rest
          else
            let '(r, n) := DecodeRune s in
            let add :=
              if (r =? RuneError) && (n =? 1)%nat then 3
              else if (r =? 0x2028) || (r =? 0x2029) then 6
              else Z.of_nat n in
            sizeLoop fuel (size + add) (suffix n s)
      end
  end.

Definition binaryJSONStringSize (value : string) : Z := sizeLoop (String.length value) 2 value.

(** The texts of a label set in the order of the range loop. *)
Fixpoint chargeTexts (texts : list string) (b : binaryExecutionBudget) : result binaryExecutionBudget :=
  match texts with
  | [] => Ok b
  | t :: texts =>
      let size := binaryJSONStringSize t in
      if b_outputLabels b <? size then Err "binary expression output label budget exceeded"
      else chargeTexts texts (mkBudget (b_bytes b) (b_arrays b) (b_outputLabels b - size) (b_outputSamples b))
  end.

Definition checkBinaryOutputLabels (labels : gmap string string) (b : binaryExecutionBudget)
    : result binaryExecutionBudget :=
  chargeTexts (map_to_list labels ≫= λ kv, [kv.1; kv.2]) b.

(** ** The writer of a response *)

Record writer : Type := mkWriter {
  w_body : string;
  w_err : option string;
  w_limit : Z;
  w_budget : binaryExecutionBudget
}.

Definition setErr (e : string) (w : writer) : writer := mkWriter (w_body w) (Some e) (w_limit w) (w_budget w).

(** [binaryOperandResponse.Write]. *)
Definition Write (data : string) (w : writer) : writer :=
  match w_err w with
  | Some _ => w
  | None =>
      let b := w_budget w in
      if b_bytes b <? len data then setErr "binary expression exceeds aggregate response byte budget" w
      else if w_limit w - len (w_body w) <? len data
      then setErr ("binary operand response exceeds " +:+ Itoa (w_limit w) +:+ " byte limit") w
      else
        mkWriter (w_body w +:+ data) None (w_limit w)
          (mkBudget (b_bytes b - len data) (b_arrays b) (b_outputLabels b) (b_outputSamples b))
  end.

(** [binaryJSONEncoder.quoted]. *)
Definition quoted (value : string) (w : writer) : writer :=
  match w_err w with
  | Some _ => w
  | None =>
      let size := binaryJSONStringSize value in
      if (w_limit w - len (w_body w) <? size) || (b_bytes (w_budget w) <? size)
      then setErr "binary encoded response exceeds byte budget" w
      else Write (MarshalString value) w
  end.

(** The loop over the sorted names; [first] is index zero. *)
Fixpoint metricLoop (first : bool) (l : list (string * string)) (w : writer) : writer :=
  match l with
  | [] => Write "}" w
  | (k, v) :: l =>
      match w_err w with
      | Some _ => w
      | None =>
          let w := if first then w else Write "," w in
          metricLoop false l (quoted v (Write ":" (quoted k w)))
      end
  end.

Definition metric (labels : gmap string string) (w : writer) : writer :=
  metricLoop true (pairs labels) (Write "{" w).

Section Evaluation.
Context `{Arithmetic} `{!Json} `{!Responses} `{EqDecision F, !Countable F}.

(** ** Samples *)

Record binarySample : Type := mkSample {
  s_labels : gmap string string;
  s_value : F
}.

Definition parsePointValue (raw : json) : F :=
  match raw with
  | JNumber f => f
  | JString s => ParseFloatValue s
  | _ => Fof_int 0
  end.

(** The points of a series: its values, and its single value. *)
Definition points (s : series) : list (list json) :=
  sr_Values s ++ (if (length (sr_Value s) =? 2)%nat then [sr_Value s] else []).

Definition samples : Type := gmap F (list binarySample).

Definition addSample (ts : F) (x : binarySample) (m : samples) : samples :=
  <[ts := default [] (m !! ts) ++ [x]]> m.

Fixpoint pointsLoop (labels : gmap string string) (ps : list (list json)) (count : Z) (m : samples)
    : result (Z * samples) :=
  match ps with
  | [] => Ok (count, m)
  | p :: ps =>
      match p with
      | [ts; v] =>
          match ts with
          | JNumber ts =>
              let count := count + 1 in
              if 1000000 <? count then Err "binary operand exceeds 1000000 sample limit"
              else pointsLoop labels ps count (addSample ts (mkSample labels (parsePointValue v)) m)
          | _ => Err "invalid binary operand timestamp"
          end
      | _ => Err "invalid binary operand sample"
      end
  end.

Fixpoint seriesLoop (l : list series) (count : Z) (m : samples) : result samples :=
  match l with
  | [] => Ok m
  | s :: l =>
      match pointsLoop (sr_Metric s) (points s) count m with
      | Ok (count, m) => seriesLoop l count m
      | Err e => Err e
      end
  end.

Definition binarySamplesByTime (body : string) : result samples :=
  match decodeSeries body with
  | Err e => Err e
  | Ok l => seriesLoop l 0 ∅
  end.

Definition isSet (op : string) : bool := String.eqb op "and" || String.eqb op "or" || String.eqb op "unless".

Definition compares (op : string) (a b : F) : bool :=
  if String.eqb op "==" then Feq a b
  else if String.eqb op "!=" then negb (Feq a b)
  else if String.eqb op ">" then Flt b a
  else if String.eqb op "<" then Flt a b
  else if String.eqb op ">=" then Fle b a
  else if String.eqb op "<=" then Fle a b
  else false.

Definition binarySampleValue (a b : F) (op : string) (returnBool : bool) : F * bool :=
  if String.eqb op "+" then (Fadd a b, true)
  else if String.eqb op "-" then (Fsub a b, true)
  else if String.eqb op "*" then (Fmul a b, true)
  else if String.eqb op "/" then (Fdiv a b, true)
  else if String.eqb op "%" then (Fmod a b, true)
  else if String.eqb op "^" then (Fpow a b, true)
  else
    let m := compares op a b in
    if returnBool then (Fof_int (if m then 1 else 0), true) else (a, m).

(** ** One evaluation *)

Section Emit.
Context {S : Type} (emit : binarySample → S → result S).

Definition matchKey (vm : option VectorMatchInfo) (x : binarySample) : string :=
  binaryLabelKey (binaryMatchingLabels (s_labels x) vm).

Definition errGrouping : string := "multiple matches for labels: grouping labels must ensure unique matches".

(** The loop over the many side; [out] are the keys of the results so far. *)
Fixpoint joinLoop (swap : bool) (one : gmap string binarySample) (op : string) (vm : option VectorMatchInfo)
    (returnBool : bool) (out : gset string) (many : list binarySample) (st : S) : result S :=
  match many with
  | [] => Ok st
  | x :: many =>
      match one !! matchKey vm x with
      | None => joinLoop swap one op vm returnBool out many st
      | Some y =>
          let labels := binaryResultLabels (s_labels x) (s_labels y) vm in
          let key := binaryLabelKey labels in
          if bool_decide (key ∈ out) then Err errGrouping
          else
            let '(a, b) := if swap then (s_value y, s_value x) else (s_value x, s_value y) in
            let '(value, keep) := binarySampleValue a b op returnBool in
            if keep then
              match emit (mkSample labels value) st with
              | Ok st => joinLoop swap one op vm returnBool ({[ key ]} ∪ out) many st
              | Err e => Err e
              end
            else joinLoop swap one op vm returnBool ({[ key ]} ∪ out) many st
      end
  end.

Definition oneSide (vm : option VectorMatchInfo) (rhs : list binarySample) : gmap string binarySample :=
  foldl (λ m x, <[matchKey vm x := x]> m) ∅ rhs.

(** The loop over the left side of a set operation. *)
Fixpoint setLoop (op : string) (vm : option VectorMatchInfo) (rightKeys : gset string) (lhs : list binarySample)
    (st : S) : result S :=
  match lhs with
  | [] => Ok st
  | x :: lhs =>
      let k := bool_decide (matchKey vm x ∈ rightKeys) in
      if String.eqb op "or" || (String.eqb op "and" && k) || (String.eqb op "unless" && negb k) then
        match emit x st with
        | Ok st => setLoop op vm rightKeys lhs st
        | Err e => Err e
        end
      else setLoop op vm rightKeys lhs st
  end.

(** The loop over the right side of [or]. *)
Fixpoint orLoop (vm : option VectorMatchInfo) (leftKeys : gset string) (rhs : list binarySample) (st : S)
    : result S :=
  match rhs with
  | [] => Ok st
  | x :: rhs =>
      if bool_decide (matchKey vm x ∈ leftKeys) then orLoop vm leftKeys rhs st
      else
        match emit x st with
        | Ok st => orLoop vm leftKeys rhs st
        | Err e => Err e
        end
  end.

Definition keySet (vm : option VectorMatchInfo) (l : list binarySample) : gset string :=
  list_to_set (map (matchKey vm) l).

Definition matchBinarySet (lhs rhs : list binarySample) (op : string) (vm : option VectorMatchInfo) (st : S)
    : result S :=
  match setLoop op vm (keySet vm rhs) lhs st with
  | Err e => Err e
  | Ok st => if String.eqb op "or" then orLoop vm (keySet vm lhs) rhs st else Ok st
  end.

Definition matchBinaryEvaluation (lhs rhs : list binarySample) (op : string) (vm : option VectorMatchInfo)
    (returnBool : bool) (st : S) : result S :=
  if isSet op then matchBinarySet lhs rhs op vm st
  else
    let swap := groupsRight vm in
    let '(lhs, rhs) := if swap then (rhs, lhs) else (lhs, rhs) in
    joinLoop swap (oneSide vm rhs) op vm returnBool ∅ lhs st.

End Emit.

(** ** Cardinality *)

Definition counts : Type := gmap (string * F) Z.

Definition countLabels (on : option (list string)) (ignoring : list string) (labels : gmap string string)
    : gmap string string :=
  match on with
  | Some names => pickLabels labels names
  | None => filter (λ kv, kv.1 ∉ ignoring ∧ kv.2 ≠ "") labels
  end.

Definition countPoint (key : string) (m : counts) (p : list json) : counts :=
  match p with
  | [JNumber ts; _] => <[(key, ts) := default 0 (m !! (key, ts)) + 1]> m
  | _ => m
  end.

Definition countSeries (on : option (list string)) (ignoring : list string) (m : counts) (s : series) : counts :=
  foldl (countPoint (MarshalLabels (countLabels on ignoring (sr_Metric s)))) m (points s).

Definition countBody (on : option (list string)) (ignoring : list string) (body : string) : counts :=
  match decodeSeries body with
  | Err _ => ∅
  | Ok l => foldl (countSeries on ignoring) ∅ l
  end.

Definition validateVectorMatchCardinality (left right : string) (on : option (list string)) (ignoring : list string)
    (allowGroupLeft allowGroupRight : bool) : result unit :=
  let leftCounts := countBody on ignoring left in
  let rightCounts := countBody on ignoring right in
  let '(one, side) := if allowGroupRight then (leftCounts, "left") else (rightCounts, "right") in
  if existsb (λ kc, 1 <? kc.2) (map_to_list one)
  then Err ("found duplicate series on the " +:+ side +:+ " hand-side; many-to-many matching not allowed: matching labels must be unique on one side")
  else if negb allowGroupLeft && negb allowGroupRight &&
          existsb (λ kc, (1 <? kc.2) && (0 <? default 0 (rightCounts !! kc.1))) (map_to_list leftCounts)
  then Err "multiple matches for labels: many-to-one matching must be explicit (group_left/group_right)"
  else Ok tt.

Definition validateBinaryVectorCardinality (left right op : string) (vm : option VectorMatchInfo)
    (leftScalar rightScalar : bool) : result unit :=
  if leftScalar || rightScalar || isSet op then Ok tt
  else
    match vm with
    | None => validateVectorMatchCardinality left right None [] false false
    | Some v =>
        let on := match On v with None => if MatchOn v then Some [] else None | on => on end in
        validateVectorMatchCardinality left right on (Ignoring v) (groupsLeft vm) (groupsRight vm)
    end.

(** ** Series *)

Record matchedSeries : Type := mkMatched {
  m_labels : gmap string string;
  m_points : list (F * string)
}.

Definition seriesMap : Type := gmap string matchedSeries.

(** The state of the evaluation: the budget and the series so far. *)
Definition evalState : Type := binaryExecutionBudget * seriesMap.

(** The series of a label set, charged for its labels when it is new. *)
Definition seriesFor (labels : gmap string string) (st : evalState) : result (evalState * matchedSeries) :=
  let '(b, m) := st in
  match m !! binaryLabelKey labels with
  | Some s => Ok ((b, m), s)
  | None =>
      match checkBinaryOutputLabels labels b with
      | Err e => Err e
      | Ok b => Ok ((b, m), mkMatched labels [])
      end
  end.

Definition push (labels : gmap string string) (s : matchedSeries) (ts : F) (value : F) (st : evalState) : evalState :=
  (st.1, <[binaryLabelKey labels := mkMatched (m_labels s) (m_points s ++ [(ts, FormatFloat_f value)])]> st.2).

(** [appendSample] at timestamp [ts]. *)
Definition appendSample (ts : F) (x : binarySample) (st : evalState) : result evalState :=
  match checkBinaryOutputSample st.1 with
  | Err e => Err e
  | Ok b =>
      match seriesFor (s_labels x) (b, st.2) with
      | Err e => Err e
      | Ok (st, s) =>
          if match last (m_points s) with Some p => bool_decide (p.1 = ts) | None => false end
          then Err errGrouping
          else Ok (push (s_labels x) s ts (s_value x) st)
      end
  end.

(** [sort.Float64s] of the timestamps of both sides. *)
Definition axis (lhs rhs : samples) : list F := SliceStable Flt (elements (dom lhs ∪ dom rhs)).

Fixpoint axisLoop (lhs rhs : samples) (op : string) (vm : option VectorMatchInfo) (returnBool : bool)
    (stamps : list F) (st : evalState) : result evalState :=
  match stamps with
  | [] => Ok st
  | ts :: stamps =>
      match matchBinaryEvaluation (appendSample ts) (default [] (lhs !! ts)) (default [] (rhs !! ts)) op vm returnBool st with
      | Err e => Err e
      | Ok st => axisLoop lhs rhs op vm returnBool stamps st
      end
  end.

(** [matchBinaryMetricResultsContext] up to the encoding of the series. *)
Definition matchBinaryMetricResults (left right op : string) (vm : option VectorMatchInfo) (returnBool : bool)
    (b : option binaryExecutionBudget) : result evalState :=
  let! b := checkBinaryDecodeBudget left (binaryEvaluationContext b) in
  let! b := checkBinaryDecodeBudget right b in
  let! _ := validateBinaryVectorCardinality left right op vm false false in
  let! lhs := binarySamplesByTime left in
  let! rhs := binarySamplesByTime right in
  axisLoop lhs rhs op vm returnBool (axis lhs rhs) (b, ∅).

(** ** A vector and a scalar *)

Definition isComparison (op : string) : bool :=
  existsb (String.eqb op) ["=="; "!="; ">"; "<"; ">="; "<="].

Fixpoint scalarLoop (scalar : F) (scalarLeft : bool) (op : string) (returnBool : bool) (ts : F)
    (l : list binarySample) (st : evalState) : result evalState :=
  match l with
  | [] => Ok st
  | x :: l =>
      let '(a, b) := if scalarLeft then (scalar, s_value x) else (s_value x, scalar) in
      let '(value, keep) := binarySampleValue a b op returnBool in
      if negb keep then scalarLoop scalar scalarLeft op returnBool ts l st
      else
        match checkBinaryOutputSample st.1 with
        | Err e => Err e
        | Ok bud =>
            let value := if negb returnBool && isComparison op then s_value x else value in
            match seriesFor (s_labels x) (bud, st.2) with
            | Err e => Err e
            | Ok (st, s) => scalarLoop scalar scalarLeft op returnBool ts l (push (s_labels x) s ts value st)
            end
        end
  end.

Fixpoint scalarAxisLoop (scalar : F) (scalarLeft : bool) (op : string) (returnBool : bool) (m : samples)
    (stamps : list F) (st : evalState) : result evalState :=
  match stamps with
  | [] => Ok st
  | ts :: stamps =>
      match scalarLoop scalar scalarLeft op returnBool ts (default [] (m !! ts)) st with
      | Err e => Err e
      | Ok st => scalarAxisLoop scalar scalarLeft op returnBool m stamps st
      end
  end.

(** [matchBinaryScalarContext] up to the encoding of the series. *)
Definition matchBinaryScalar (body : string) (scalar : F) (scalarLeft : bool) (op : string) (returnBool : bool)
    (b : option binaryExecutionBudget) : result evalState :=
  let! b := checkBinaryDecodeBudget body (binaryEvaluationContext b) in
  let! m := binarySamplesByTime body in
  scalarAxisLoop scalar scalarLeft op returnBool m (axis m ∅) (b, ∅).

(** ** Constant expressions *)

Fixpoint binaryScalarValue (e : Expr) (depth : nat) : option F :=
  if (64 <=? depth)%nat then None
  else
    match e with
    | LiteralExpr v => Some v
    | BinOpExpr l r op _ vm =>
        if match vm with Some _ => true | None => false end || isSet op then None
        else
          match binaryScalarValue l (S depth), binaryScalarValue r (S depth) with
          | Some a, Some b => Some (fst (binarySampleValue a b op true))
          | _, _ => None
          end
    | _ => None
    end.

(** ** Encoding *)

Definition point (p : F * string) (n : Z) (w : writer) : writer * Z :=
  match w_err w with
  | Some _ => (w, n)
  | None =>
      if 1000000 <=? n then (setErr "invalid or excessive binary output samples" w, n)
      else (Write "]" (quoted p.2 (Write "," (Write (stampText p.1) (Write "[" w)))), n + 1)
  end.

(** The loop over the points of a matrix series; an error of the writer ends it. *)
Fixpoint pointsText (first : bool) (l : list (F * string)) (n : Z) (w : writer) : writer * Z :=
  match l with
  | [] => (Write "]" w, n)
  | p :: l =>
      match w_err w with
      | Some _ => (w, n)
      | None => let '(w, n) := point p n (if first then w else Write "," w) in pointsText false l n w
      end
  end.

Definition quoteField (name : string) : string := String dquote name +:+ String dquote ":".

Definition seriesText (matrix : bool) (s : matchedSeries) (n : Z) (w : writer) : writer * Z :=
  let w := metric (m_labels s) (Write ("{" +:+ quoteField "metric") w) in
  if matrix then
    let '(w, n) := pointsText true (m_points s) n (Write ("," +:+ quoteField "values" +:+ "[") w) in
    (Write "}" w, n)
  else
    match m_points s with
    | [] => (setErr "missing binary output sample" w, n)
    | p :: _ => let '(w, n) := point p n (Write ("," +:+ quoteField "value") w) in (Write "}" w, n)
    end.

Fixpoint seriesTexts (matrix first : bool) (l : list matchedSeries) (n : Z) (w : writer) : writer :=
  match l with
  | [] => Write "]}}" w
  | s :: l =>
      match w_err w with
      | Some _ => w
      | None =>
          let '(w, n) := seriesText matrix s n (if first then w else Write "," w) in
          seriesTexts matrix false l n w
      end
  end.

Definition encodeBinarySeries (m : seriesMap) (resultType : string) (limit : Z) (b : binaryExecutionBudget)
    : result string :=
  let w := Write ("{" +:+ quoteField "status" +:+ MarshalString "success" +:+ "," +:+ quoteField "data" +:+ "{"
                  +:+ quoteField "resultType") (mkWriter "" None limit b) in
  let w := Write ("," +:+ quoteField "result" +:+ "[") (quoted resultType w) in
  let w := seriesTexts (String.eqb resultType "matrix") true
             (omap (λ k, m !! k) (sortStrings (elements (dom m)))) 0 w in
  match w_err w with
  | Some e => Err e
  | None => Ok (w_body w)
  end.

(** ** Whole operations *)

(** [matchBinaryMetricResultsContext]. *)
Definition matchBinaryMetricResultsContext (left right op resultType : string) (vm : option VectorMatchInfo)
    (returnBool : bool) (b : option binaryExecutionBudget) : result string :=
  let! (b, m) := matchBinaryMetricResults left right op vm returnBool b in
  encodeBinarySeries m resultType maxBufferedBackendBodyBytes b.

(** [matchBinaryScalarContext]. *)
Definition matchBinaryScalarContext (body : string) (scalar : F) (scalarLeft : bool) (op resultType : string)
    (returnBool : bool) (b : option binaryExecutionBudget) : result string :=
  let! (b, m) := matchBinaryScalar body scalar scalarLeft op returnBool b in
  encodeBinarySeries m resultType maxBufferedBackendBodyBytes b.

(** ** Constants over a range *)

Definition stampOf (ns : Z) : F := Fdiv (Fof_int ns) (Fof_int 1000000000).

(** The loop over the evaluation times. *)
Fixpoint constantLoop (fuel : nat) (ts stop step : Z) (encoded : string) (b : binaryExecutionBudget)
    (points : list (F * string)) : result (binaryExecutionBudget * list (F * string)) :=
  match fuel with
  | O => Err "out of fuel"
  | S fuel =>
      if ts <=? stop then
        match checkBinaryOutputSample b with
        | Err e => Err e
        | Ok b =>
            let points := points ++ [(stampOf ts, encoded)] in
            if wrap64 (stop - ts) <? step then Ok (b, points)
            else constantLoop fuel (wrap64 (ts + step)) stop step encoded b points
        end
      else Ok (b, points)
  end.

Definition constantCount (start stop step : Z) : Z := wrap64 (1 + Z.quot (wrap64 (stop - start)) step).

(** The points of [binaryConstantResponse] for a matrix, from the parsed parameters of the
    request; [None] is the panic of [make] on a negative capacity. *)
Definition constantPoints (start stop step : option Z) (value : F) (b : binaryExecutionBudget)
    : option (result (binaryExecutionBudget * list (F * string))) :=
  match start, stop, step with
  | Some start, Some stop, Some step =>
      if (stop <? start) || (1000000 <=? Z.quot (wrap64 (stop - start)) step)
      then Some (Err "invalid or excessive scalar evaluation range")
      else
        let count := constantCount start stop step in
        if b_outputSamples b <? count then Some (Err "binary expression output sample budget exceeded")
        else if count <? 0 then None
        else Some (constantLoop (S (Z.to_nat count)) start stop step (FormatFloat_f value) b [])
  | _, _, _ => Some (Err "invalid or excessive scalar evaluation range")
  end.

Definition constantSeries (points : list (F * string)) : seriesMap :=
  {[ "{}" := mkMatched ∅ points ]}.

Definition binaryConstantResponse (start stop step : option Z) (value : F) (b : option binaryExecutionBudget)
    : option (result string) :=
  match constantPoints start stop step value (binaryEvaluationContext b) with
  | None => None
  | Some (Err e) => Some (Err e)
  | Some (Ok (b, points)) => Some (encodeBinarySeries (constantSeries points) "matrix" maxBufferedBackendBodyBytes b)
  end.

End Evaluation.
(** ** Sizes *)

Lemma bytes_length l : String.length (bytes l) = length l.
Proof. induction l as [|z l IH]; cbn; [done|]. by rewrite IH. Qed.

Lemma hex_length n z : String.length (hex n z) = n.
Proof. induction n as [|n IH]; cbn; [done|]. by rewrite IH. Qed.

Lemma EncodeRune_length s r w : DecodeRune s = (r, w) → s ≠ "" → ¬ (r = RuneError ∧ w = 1%nat) →
  String.length (EncodeRune r) = w.
Proof.
  intros Hd Hs Hok. destruct (encode_decode s r w Hd Hs Hok) as [_ E].
  destruct (DecodeRune_width s Hs) as [_ Hw]. rewrite Hd in Hw. cbn in Hw.
  apply (f_equal String.length) in E. rewrite length_app_str, length_suffix in E. lia.
Qed.

Lemma decode_ascii c s : b2z c < 0x80 → DecodeRune (String c s) = (b2z c, 1%nat).
Proof. intros Hc. unfold DecodeRune. cbv zeta. by rewrite (proj2 (Z.ltb_lt _ _)). Qed.

Lemma decode_high c s r n : 0x80 ≤ b2z c → DecodeRune (String c s) = (r, n) → 0x80 ≤ r.
Proof.
  intros Hc. unfold DecodeRune. cbv zeta. pose proof (b2z_range c). unfold RuneError, cont.
  repeat case_match; intros [= <- <-]; try lia;
    repeat match goal with E : _ && _ = true |- _ => apply andb_true_iff in E as [? ?] end;
    repeat match goal with E : within _ _ _ = true |- _ => apply within_spec in E end;
    repeat match goal with E : (_ <? _) = _ |- _ => first [apply Z.ltb_lt in E|apply Z.ltb_ge in E] end;
    repeat match goal with E : context [if ?b then _ else _] |- _ => destruct b eqn:? end; try lia.
Qed.

(** The text of a byte of the ASCII range. *)
Lemma runeText_ascii b : 0 ≤ b < 0x80 → len (runeText b) =
  (if (b =? 34) || (b =? 92) || (b =? 8) || (b =? 12) || (b =? 10) || (b =? 13) || (b =? 9) then 2
   else if (b =? 60) || (b =? 62) || (b =? 38) then 6
   else if b <? 0x20 then 6 else 1).
Proof.
  intros Hb. unfold runeText, len, escape.
  destruct (b =? 34) eqn:?, (b =? 92) eqn:?; try (cbn; rewrite ?bytes_length; done).
  destruct (b =? 8) eqn:?; [done|]. destruct (b =? 12) eqn:?; [done|]. destruct (b =? 10) eqn:?; [done|].
  destruct (b =? 13) eqn:?; [done|]. destruct (b =? 9) eqn:?; [done|]. cbn [orb].
  rewrite (proj2 (Z.eqb_neq b 0x2028)), (proj2 (Z.eqb_neq b 0x2029)), !orb_false_r by lia.
  destruct (b <? 32) eqn:?, (b =? 60) eqn:?, (b =? 62) eqn:?, (b =? 38) eqn:?; cbn [orb];
    rewrite ?EncodeRune_ascii by lia; cbn [String.length bytes]; rewrite ?hex_length; done.
Qed.

Lemma sizeLoop_text n size s : (String.length s ≤ n)%nat → sizeLoop n size s = size + len (text s).
Proof.
  revert size s. induction n as [|n IH]; intros size s Hn.
  { destruct s; [unfold len; cbn; lia|cbn in Hn; lia]. }
  destruct s as [|c s]; [unfold len; cbn; lia|]. pose proof (suffix_shorter (String c s) ltac:(done)) as Hsh.
  rewrite text_rune by done. rewrite len_append. cbn [sizeLoop]. pose proof (b2z_range c).
  destruct (Z.ltb_spec (b2z c) 0x80) as [Hlt|Hge].
  - rewrite decode_ascii by done. cbn [fst snd suffix]. rewrite IH by (cbn in Hn; lia).
    rewrite runeText_ascii by lia. lia.
  - destruct (DecodeRune (String c s)) as [r w] eqn:Ed. cbn [fst snd] in *.
    rewrite IH by (cbn in Hn, Hsh; lia). pose proof (decode_high _ _ _ _ Hge Ed) as Hr.
    assert (len (runeText r) = if (r =? 0x2028) || (r =? 0x2029) then 6 else len (EncodeRune r)) as ->.
    { unfold runeText, len, escape.
      repeat match goal with |- context [r =? ?k] => destruct (Z.eqb_spec r k); [try lia|]; cbn [orb] end;
        rewrite ?(proj2 (Z.ltb_ge r 32)) by lia; cbn [orb String.length]; rewrite ?hex_length; try done. }
    destruct ((r =? RuneError) && (w =? 1)%nat) eqn:Ee.
    + apply andb_true_iff in Ee as [->%Z.eqb_eq ->%Nat.eqb_eq].
      change ((RuneError =? 0x2028) || (RuneError =? 0x2029)) with false.
      change (len (EncodeRune RuneError)) with 3. cbv iota. lia.
    + destruct ((r =? 0x2028) || (r =? 0x2029)); [lia|]. unfold len.
      rewrite (EncodeRune_length _ _ _ Ed); [lia|done|].
      intros [-> ->]. by rewrite Z.eqb_refl in Ee.
Qed.

Lemma size_exact s : binaryJSONStringSize s = len (MarshalString s).
Proof.
  unfold binaryJSONStringSize, MarshalString. rewrite sizeLoop_text by done. fold (text s).
  change (String dquote (text s +:+ String dquote "")) with (String dquote "" +:+ (text s +:+ String dquote "")).
  rewrite !len_append. unfold len. cbn [String.length]. lia.
Qed.

(** The size the encoder computes for a string without allocating it is the
    length of the JSON text [json.Marshal] writes, for every byte string: control
    characters, HTML characters, invalid UTF-8 and the line separators included. *)
Theorem json_size_exact value : binaryJSONStringSize value = len (MarshalString value).
Proof. apply size_exact. Qed.

(** ** Writing *)

Definition fits (w : writer) (s : string) : Prop :=
  w_err w = None ∧ len (w_body w) + len s ≤ w_limit w ∧ len s ≤ b_bytes (w_budget w).

Definition written (w : writer) (s : string) : writer :=
  mkWriter (w_body w +:+ s) None (w_limit w)
    (mkBudget (b_bytes (w_budget w) - len s) (b_arrays (w_budget w)) (b_outputLabels (w_budget w))
       (b_outputSamples (w_budget w))).

(** The writer [w'] is [w] with [s] appended when it fits, in error otherwise. *)
Definition appended (w : writer) (s : string) (w' : writer) : Prop :=
  (fits w s ∧ w' = written w s) ∨ (¬ fits w s ∧ w_err w' ≠ None).

Lemma appended_trans w s w1 t w2 : appended w s w1 → appended w1 t w2 → appended w (s +:+ t) w2.
Proof.
  pose proof (len_nonneg s). pose proof (len_nonneg t). intros [[Hs ->]|[Hs E1]] H2.
  - destruct H2 as [[Ht ->]|[Ht E2]].
    + left. unfold fits, written in *. cbn in *. rewrite len_append in *. split; [split; [tauto|lia]|].
      f_equal; [by rewrite append_assoc|]. f_equal. lia.
    + right. split; [|done]. intros [He Hf]. apply Ht. unfold fits, written in *. cbn. rewrite len_append in *.
      split; [done|lia].
  - right. split.
    + intros [He Hf]. apply Hs. rewrite len_append in Hf. split; [done|lia].
    + destruct H2 as [[[Ht _] _]|[_ E2]]; [done|done].
Qed.

Lemma Write_appended s w : appended w s (Write s w).
Proof.
  unfold Write, appended, fits. destruct (w_err w) eqn:E; [right; split; [naive_solver|by rewrite E]|].
  destruct (Z.ltb_spec (b_bytes (w_budget w)) (len s)); [right; split; [lia|done]|].
  destruct (Z.ltb_spec (w_limit w - len (w_body w)) (len s)); [right; split; [lia|done]|].
  left. split; [split; [done|lia]|done].
Qed.

Lemma quoted_appended s w : appended w (MarshalString s) (quoted s w).
Proof.
  unfold quoted. rewrite size_exact. destruct (w_err w) eqn:E.
  { right. unfold fits. split; [naive_solver|by rewrite E]. }
  destruct (_ || _) eqn:Eb; [|apply Write_appended]. right. split; [|done]. unfold fits.
  apply orb_true_iff in Eb. rewrite !Z.ltb_lt in Eb. lia.
Qed.

Lemma appended_err w s t w' : w_err w ≠ None → appended w s w' → appended w t w'.
Proof.
  intros He [[[Hn _] _]|[_ E]]; [done|]. right. split; [|done]. by intros [? _].
Qed.

(** What follows the first element of a list. *)
Definition joinRest (l : list string) : string := match l with [] => "" | _ => "," +:+ Join "," l end.

Lemma Join_rest x l : Join "," (x :: l) = x +:+ joinRest l.
Proof. destruct l; cbn [Join joinRest]; [by rewrite append_nil_r|done]. Qed.

Definition joined (first : bool) (l : list string) : string := if first then Join "," l else joinRest l.

(** An element of a list with its separator, and then the rest. *)
Lemma appended_item (first : bool) x l w w1 w2 t :
  appended (if first then w else Write "," w) x w1 → appended w1 (joined false l +:+ t) w2 →
  appended w (joined first (x :: l) +:+ t) w2.
Proof.
  intros H1 H2. pose proof (appended_trans _ _ _ _ _ H1 H2) as H12. unfold joined in *. destruct first.
  - rewrite Join_rest, append_assoc. done.
  - cbn [joinRest]. rewrite Join_rest, !append_assoc. eapply appended_trans; [apply Write_appended|done].
Qed.

Lemma stopped w s w' : w_err w ≠ None → w' = w → appended w s w'.
Proof. intros He ->. right. split; [|done]. by intros [? _]. Qed.

Lemma pair_appended k v w : appended w (pairText (k, v)) (quoted v (Write ":" (quoted k w))).
Proof.
  unfold pairText. cbn [fst snd]. eapply appended_trans; [apply quoted_appended|].
  eapply appended_trans; [apply Write_appended|apply quoted_appended].
Qed.

Lemma metricLoop_appended first l w : appended w (joined first (map pairText l) +:+ "}") (metricLoop first l w).
Proof.
  revert first w. induction l as [|[k v] l IH]; intros first w; cbn [metricLoop].
  - destruct first; apply Write_appended.
  - destruct (w_err w) eqn:E; [apply stopped; [congruence|done]|].
    eapply appended_item; [|apply IH]. apply pair_appended.
Qed.

Lemma metric_appended labels w : appended w (MarshalLabels labels) (metric labels w).
Proof.
  unfold metric, MarshalLabels. eapply appended_trans; [apply Write_appended|].
  apply (metricLoop_appended true).
Qed.

Section Encoding.
Context `{Arithmetic} `{!Json} `{!Responses} `{EqDecision F, !Countable F}.

Definition pointText (p : F * string) : string :=
  "[" +:+ stampText p.1 +:+ "," +:+ MarshalString p.2 +:+ "]".

(** The JSON text of a series, and of the whole response. *)
Definition seriesJson (matrix : bool) (s : matchedSeries) : string :=
  "{" +:+ quoteField "metric" +:+ MarshalLabels (m_labels s) +:+
  (if matrix then "," +:+ quoteField "values" +:+ "[" +:+ Join "," (map pointText (m_points s)) +:+ "]"
   else "," +:+ quoteField "value" +:+ match m_points s with p :: _ => pointText p | [] => "" end)
  +:+ "}".

Definition seriesOf (m : seriesMap) : list matchedSeries := omap (λ k, m !! k) (sortStrings (elements (dom m))).

Definition responseJson (m : seriesMap) (resultType : string) : string :=
  ("{" +:+ quoteField "status" +:+ MarshalString "success" +:+ "," +:+ quoteField "data" +:+ "{"
   +:+ quoteField "resultType") +:+ MarshalString resultType +:+ ("," +:+ quoteField "result" +:+ "[")
  +:+ Join "," (map (seriesJson (String.eqb resultType "matrix")) (seriesOf m)) +:+ "]}}".

(** The points a series contributes to its text. *)
Definition pointCount (matrix : bool) (s : matchedSeries) : Z :=
  if matrix then Z.of_nat (length (m_points s)) else 1.

Definition totalPoints (matrix : bool) (l : list matchedSeries) : Z :=
  foldr (λ s n, pointCount matrix s + n) 0 l.

Lemma point_appended p n w : n < 1000000 → appended w (pointText p) (point p n w).1 ∧ (point p n w).2 ≤ n + 1.
Proof.
  intros Hn. unfold point. destruct (w_err w) eqn:E; [split; [apply stopped; [congruence|done]|cbn; lia]|].
  destruct (Z.leb_spec 1000000 n); [lia|]. cbn [fst snd]. split; [|lia]. unfold pointText.
  eapply appended_trans; [apply Write_appended|]. eapply appended_trans; [apply Write_appended|].
  eapply appended_trans; [apply Write_appended|]. eapply appended_trans; [apply quoted_appended|apply Write_appended].
Qed.

Lemma pointsText_appended first l n w : n + Z.of_nat (length l) ≤ 1000000 →
  appended w (joined first (map pointText l) +:+ "]") (pointsText first l n w).1 ∧
  (pointsText first l n w).2 ≤ n + Z.of_nat (length l).
Proof.
  revert first n w. induction l as [|p l IH]; intros first n w Hn; cbn [pointsText length] in *.
  - cbn [fst snd]. split; [destruct first; apply Write_appended|lia].
  - destruct (w_err w) eqn:E; [split; [apply stopped; [congruence|done]|cbn; lia]|].
    destruct (point_appended p n (if first then w else Write "," w)) as [Hp Hc]; [lia|].
    destruct (point p n _) as [w1 n1]. cbn [fst snd] in *.
    destruct (IH false n1 w1) as [Hr Hc']; [lia|]. split; [|lia]. by eapply appended_item.
Qed.

Lemma seriesText_appended matrix s n w : n + pointCount matrix s ≤ 1000000 → (matrix = false → m_points s ≠ []) →
  appended w (seriesJson matrix s) (seriesText matrix s n w).1 ∧ (seriesText matrix s n w).2 ≤ n + pointCount matrix s.
Proof.
  intros Hn Hne. unfold seriesText, seriesJson, pointCount in *. cbv zeta.
  assert (∀ w, appended w ("{" +:+ quoteField "metric" +:+ MarshalLabels (m_labels s))
    (metric (m_labels s) (Write ("{" +:+ quoteField "metric") w))) as Hm.
  { intros w'. rewrite <- append_assoc. eapply appended_trans; [apply Write_appended|apply metric_appended]. }
  specialize (Hm w). set (w1 := metric _ _) in *. destruct matrix.
  - set (w2 := Write ("," +:+ quoteField "values" +:+ "[") w1).
    destruct (pointsText_appended true (m_points s) n w2) as [Hp Hc]; [lia|].
    destruct (pointsText _ _ _ _) as [w3 n3]. cbn [fst snd] in *. split; [|lia].
    replace ("{" +:+ quoteField "metric" +:+ _) with
      (("{" +:+ quoteField "metric" +:+ MarshalLabels (m_labels s)) +:+
       (("," +:+ quoteField "values" +:+ "[") +:+ (Join "," (map pointText (m_points s)) +:+ "]") +:+ "}"))
      by (by rewrite !append_assoc).
    eapply appended_trans; [done|]. eapply appended_trans; [apply Write_appended|].
    eapply appended_trans; [exact Hp|apply Write_appended].
  - destruct (m_points s) as [|p l]; [by specialize (Hne eq_refl)|].
    set (w2 := Write ("," +:+ quoteField "value") w1).
    destruct (point_appended p n w2) as [Hp Hc]; [lia|]. destruct (point _ _ _) as [w3 n3]. cbn [fst snd] in *.
    split; [|lia].
    replace ("{" +:+ quoteField "metric" +:+ _) with
      (("{" +:+ quoteField "metric" +:+ MarshalLabels (m_labels s)) +:+
       (("," +:+ quoteField "value") +:+ pointText p +:+ "}")) by (by rewrite !append_assoc).
    eapply appended_trans; [done|]. eapply appended_trans; [apply Write_appended|].
    eapply appended_trans; [exact Hp|apply Write_appended].
Qed.

Lemma seriesTexts_appended matrix first l n w : n + totalPoints matrix l ≤ 1000000 →
  Forall (λ s, matrix = false → m_points s ≠ []) l →
  appended w (joined first (map (seriesJson matrix) l) +:+ "]}}") (seriesTexts matrix first l n w).
Proof.
  revert first n w. induction l as [|s l IH]; intros first n w Hn Hf; cbn [seriesTexts].
  - destruct first; apply Write_appended.
  - apply Forall_cons in Hf as [Hs Hf]. destruct (w_err w) eqn:E; [apply stopped; [congruence|done]|].
    cbn [totalPoints foldr] in Hn. fold (totalPoints matrix l) in Hn.
    assert (0 ≤ totalPoints matrix l) by (clear; induction l as [|s l IH]; cbn; [lia|];
      fold (totalPoints matrix l); unfold pointCount; destruct matrix; lia).
    destruct (seriesText_appended matrix s n (if first then w else Write "," w)) as [Ht Hc]; [lia|done|].
    destruct (seriesText matrix s n _) as [w1 n1]. cbn [fst snd] in *.
    eapply appended_item; [exact Ht|]. apply IH; [lia|done].
Qed.

(** C30 The encoder writes exactly the JSON text of the result: when the text fits the
    response limit and the byte budget it is returned, series in the order of their
    keys, and otherwise the encoder fails; it never returns a truncated response. *)
Theorem encoded_response_exact m resultType limit b :
  let matrix := String.eqb resultType "matrix" in
  totalPoints matrix (seriesOf m) ≤ 1000000 → Forall (λ s, matrix = false → m_points s ≠ []) (seriesOf m) →
  let fit := (len (responseJson m resultType) <=? limit) && (len (responseJson m resultType) <=? b_bytes b) in
  (fit = true → encodeBinarySeries m resultType limit b = Ok (responseJson m resultType)) ∧
  (fit = false → is_ok (encodeBinarySeries m resultType limit b) = false).
Proof.
  intros matrix Hn Hf fit. unfold encodeBinarySeries. fold (seriesOf m). fold matrix.
  set (w := seriesTexts _ _ _ _ _).
  assert (appended (mkWriter "" None limit b) (responseJson m resultType) w) as Ha.
  { unfold responseJson. eapply appended_trans; [apply Write_appended|].
    eapply appended_trans; [apply quoted_appended|]. eapply appended_trans; [apply Write_appended|].
    apply (seriesTexts_appended matrix true); [lia|done]. }
  unfold appended, fits in Ha. cbn [w_err w_body w_limit w_budget] in Ha. change (len "") with 0 in Ha.
  subst fit. destruct Ha as [[(_ & Hl & Hb) ->]|[Hnf He]].
  - split; [done|]. rewrite !(proj2 (Z.leb_le _ _)) by lia. done.
  - split; [|by destruct (w_err w)]. intros [?%Z.leb_le ?%Z.leb_le]%andb_true_iff. destruct Hnf. split; [done|lia].
Qed.

End Encoding.

(** ** Matching *)

Section Matching.
Context `{Arithmetic} `{!Json} `{!Responses} `{EqDecision F, !Countable F}.

Lemma pickLabels_spec labels names k v :
  pickLabels labels names !! k = Some v ↔ k ∈ names ∧ present labels k = Some v.
Proof.
  unfold pickLabels. induction names as [|n names IH] using rev_ind.
  { change (foldl _ _ []) with (∅ : gmap string string). rewrite lookup_empty, elem_of_nil. naive_solver. }
  rewrite foldl_app. cbn [foldl]. rewrite elem_of_app, list_elem_of_singleton.
  destruct (present labels n) as [x|] eqn:E.
  - destruct (decide (n = k)) as [->|]; [rewrite lookup_insert_eq|rewrite lookup_insert_ne by done].
    + rewrite E. naive_solver.
    + rewrite IH. naive_solver.
  - rewrite IH. naive_solver.
Qed.

Lemma present_lookup labels k v : present labels k = Some v → labels !! k = Some v.
Proof. unfold present. destruct (labels !! k) as [x|]; [|done]. by destruct (String.eqb x ""). Qed.

Lemma deletes_subseteq (f : string → string) names (m : gmap string string) :
  foldl (λ m name, delete (f name) m) m names ⊆ m.
Proof.
  revert m. induction names as [|n names IH]; intros m; [done|]. cbn [foldl].
  etrans; [apply IH|apply delete_subseteq].
Qed.

Lemma matching_subseteq labels vm : binaryMatchingLabels labels vm ⊆ labels.
Proof.
  unfold binaryMatchingLabels. destruct vm as [v|]; [|apply map_filter_subseteq].
  destruct (_ || _).
  - apply map_subseteq_spec. intros k x [_ E]%pickLabels_spec. by apply present_lookup.
  - etrans; [apply (deletes_subseteq TrimSpace)|apply map_filter_subseteq].
Qed.

Lemma valid_subseteq m1 m2 : m1 ⊆ m2 → valid_labels m2 → valid_labels m1.
Proof. intros Hs Hv k v E. apply Hv. by eapply lookup_weaken. Qed.

Lemma matching_valid labels vm : valid_labels labels → valid_labels (binaryMatchingLabels labels vm).
Proof. apply valid_subseteq, matching_subseteq. Qed.

Lemma result_valid many one vm : valid_labels many → valid_labels one → valid_labels (binaryResultLabels many one vm).
Proof.
  intros Hm Ho. unfold binaryResultLabels. destruct vm as [v|]; [|done].
  destruct (negb (grouped v)); [by apply matching_valid|].
  generalize (if groupsRight (Some v) then GroupRight v else GroupLeft v). intros names. revert many Hm.
  induction names as [|n names IH]; intros many Hm; [done|]. cbn [foldl]. apply IH.
  destruct (present one n) as [x|] eqn:E.
  - apply map_Forall_insert_2; [|done]. by apply Ho, present_lookup.
  - by apply map_Forall_delete.
Qed.

Definition valid_sample (x : binarySample) : Prop := valid_labels (s_labels x).

(** Two samples match when their matching labels are the same. *)
Definition same (vm : option VectorMatchInfo) (x y : binarySample) : Prop :=
  binaryMatchingLabels (s_labels x) vm = binaryMatchingLabels (s_labels y) vm.

#[global] Instance same_dec vm x y : Decision (same vm x y).
Proof. unfold same. apply _. Defined.

Lemma matchKey_same vm x y : valid_sample x → valid_sample y → matchKey vm x = matchKey vm y ↔ same vm x y.
Proof.
  intros Hx Hy. unfold matchKey, binaryLabelKey, same. split; [|by intros ->].
  apply MarshalLabels_inj; by apply matching_valid.
Qed.

Section Emitting.
Context {S : Type} (emit : binarySample → S → result S).

(** The samples emitted one after the other. *)
Fixpoint emitAll (l : list binarySample) (st : S) : result S :=
  match l with
  | [] => Ok st
  | x :: l => match emit x st with Ok st => emitAll l st | Err e => Err e end
  end.

Lemma emitAll_app l1 l2 st : emitAll (l1 ++ l2) st =
  match emitAll l1 st with Ok st => emitAll l2 st | Err e => Err e end.
Proof. revert st. induction l1 as [|x l1 IH]; intros st; cbn; [done|]. destruct (emit x st); [apply IH|done]. Qed.

(** What LogQL's set operations select at one timestamp. *)
Definition setSpec (op : string) (vm : option VectorMatchInfo) (lhs rhs : list binarySample) : list binarySample :=
  if String.eqb op "and" then filter (λ x, Exists (same vm x) rhs) lhs
  else if String.eqb op "unless" then filter (λ x, ¬ Exists (same vm x) rhs) lhs
  else lhs ++ filter (λ y, ¬ Exists (same vm y) lhs) rhs.

Lemma keySet_spec vm x l : valid_sample x → Forall valid_sample l →
  matchKey vm x ∈ keySet vm l ↔ Exists (same vm x) l.
Proof.
  intros Hx Hl. unfold keySet. rewrite elem_of_list_to_set, Exists_exists. setoid_rewrite list_elem_of_fmap.
  rewrite Forall_forall in Hl. split.
  - intros (y & E & Hy). exists y. split; [done|]. apply matchKey_same; [done|by apply Hl|done].
  - intros (y & Hy & E). exists y. split; [|done]. apply matchKey_same; [done|by apply Hl|done].
Qed.

Lemma setLoop_spec op vm rhs lhs st : Forall valid_sample lhs → Forall valid_sample rhs → isSet op = true →
  setLoop emit op vm (keySet vm rhs) lhs st =
  emitAll (if String.eqb op "and" then filter (λ x, Exists (same vm x) rhs) lhs
           else if String.eqb op "unless" then filter (λ x, ¬ Exists (same vm x) rhs) lhs else lhs) st.
Proof.
  intros Hl Hr Hop. revert st. induction Hl as [|x lhs Hx Hl IH]; intros st.
  { by destruct (String.eqb op "and"), (String.eqb op "unless"). }
  cbn [setLoop]. pose proof (keySet_spec vm x rhs Hx Hr) as Hk. unfold isSet in Hop.
  destruct (String.eqb_spec op "and") as [->|Ha]; [|destruct (String.eqb_spec op "unless") as [->|Hu]].
  - rewrite filter_cons. cbn [String.eqb orb andb negb]. change (String.eqb "and" "or") with false.
    change (String.eqb "and" "and") with true. change (String.eqb "and" "unless") with false. cbn [orb andb].
    case_bool_decide as Hb; rewrite Hk in Hb; [rewrite decide_True by done|rewrite decide_False by done]; cbn [orb emitAll].
    + destruct (emit x st); [apply IH|done].
    + apply IH.
  - rewrite filter_cons. change (String.eqb "unless" "or") with false.
    change (String.eqb "unless" "and") with false. change (String.eqb "unless" "unless") with true. cbn [orb andb].
    case_bool_decide as Hb; rewrite Hk in Hb; [rewrite decide_False by tauto|rewrite decide_True by done]; cbn [negb emitAll].
    + apply IH.
    + destruct (emit x st); [apply IH|done].
  - destruct (String.eqb op "or"); [|done]. cbn [orb emitAll]. destruct (emit x st); [apply IH|done].
Qed.

Lemma orLoop_spec vm lhs rhs st : Forall valid_sample lhs → Forall valid_sample rhs →
  orLoop emit vm (keySet vm lhs) rhs st = emitAll (filter (λ y, ¬ Exists (same vm y) lhs) rhs) st.
Proof.
  intros Hl Hr. revert st. induction Hr as [|y rhs Hy Hr IH]; intros st; [done|]. cbn [orLoop].
  rewrite filter_cons. pose proof (keySet_spec vm y lhs Hy Hl) as Hk.
  case_bool_decide as Hb; rewrite Hk in Hb; [rewrite decide_False by tauto|rewrite decide_True by done]; cbn [emitAll].
  - apply IH.
  - destruct (emit y st); [apply IH|done].
Qed.

(** At every timestamp the set operations select what LogQL defines: [and] the left
    samples with a match on the right, [unless] those without, [or] all left samples
    and the right ones without a match on the left, in that order; the samples are
    compared by their matching labels, not by the text of their keys. *)
Theorem set_operations_select lhs rhs op vm returnBool st :
  Forall valid_sample lhs → Forall valid_sample rhs → isSet op = true →
  matchBinaryEvaluation emit lhs rhs op vm returnBool st = emitAll (setSpec op vm lhs rhs) st.
Proof.
  intros Hl Hr Hop. unfold matchBinaryEvaluation, matchBinarySet, setSpec. rewrite Hop, setLoop_spec by done.
  unfold isSet in Hop. destruct (String.eqb_spec op "and") as [->|Ha].
  { change (String.eqb "and" "or") with false. by destruct (emitAll _ _). }
  destruct (String.eqb_spec op "unless") as [->|Hu].
  { change (String.eqb "unless" "or") with false. by destruct (emitAll _ _). }
  destruct (String.eqb op "or"); [|done]. rewrite emitAll_app.
  destruct (emitAll lhs st); [by apply orLoop_spec|done].
Qed.

(** ** Joins *)

(** The partner of a sample: the last of the one side that matches it. *)
Definition partner (vm : option VectorMatchInfo) (one : list binarySample) (x : binarySample) : option binarySample :=
  last (filter (same vm x) one).

Definition joinPairs (vm : option VectorMatchInfo) (many one : list binarySample) : list (binarySample * binarySample) :=
  omap (λ x, pair x <$> partner vm one x) many.

Definition pairLabels (vm : option VectorMatchInfo) (p : binarySample * binarySample) : gmap string string :=
  binaryResultLabels (s_labels p.1) (s_labels p.2) vm.

(** The result of a pair: its value, unless a comparison filters it out. *)
Definition pairResult (swap : bool) (op : string) (vm : option VectorMatchInfo) (returnBool : bool)
    (p : binarySample * binarySample) : option binarySample :=
  let '(a, b) := if swap then (s_value p.2, s_value p.1) else (s_value p.1, s_value p.2) in
  let '(v, keep) := binarySampleValue a b op returnBool in
  if keep then Some (mkSample (pairLabels vm p) v) else None.

Lemma oneSide_lookup vm one x : valid_sample x → Forall valid_sample one →
  oneSide vm one !! matchKey vm x = partner vm one x.
Proof.
  intros Hx Ho. unfold oneSide, partner. induction one as [|y one IH] using rev_ind; [apply lookup_empty|].
  apply Forall_app in Ho as [Ho Hy]. rewrite Forall_singleton in Hy.
  rewrite foldl_app, filter_app. cbn [foldl]. rewrite filter_cons.
  pose proof (matchKey_same vm x y Hx Hy) as Hk. destruct (decide (same vm x y)) as [Hs|Hs].
  - rewrite (proj2 Hk Hs), lookup_insert_eq. change (filter _ []) with (@nil binarySample). by rewrite last_snoc.
  - rewrite lookup_insert_ne by (intros E; apply Hs, Hk; done). rewrite app_nil_r. by apply IH.
Qed.

Lemma partner_valid vm one x y : Forall valid_sample one → partner vm one x = Some y → valid_sample y.
Proof.
  intros Ho E. unfold partner in E. apply last_Some_elem_of, list_elem_of_filter in E as [_ E].
  by eapply Forall_forall in Ho.
Qed.

Lemma pairLabels_key vm p q : valid_sample p.1 → valid_sample p.2 → valid_sample q.1 → valid_sample q.2 →
  binaryLabelKey (pairLabels vm p) = binaryLabelKey (pairLabels vm q) → pairLabels vm p = pairLabels vm q.
Proof. intros ? ? ? ?. apply MarshalLabels_inj; by apply result_valid. Qed.

Definition outKeys (vm : option VectorMatchInfo) (ps : list (binarySample * binarySample)) : list string :=
  map (λ p, binaryLabelKey (pairLabels vm p)) ps.

Lemma joinLoop_spec swap vm one op returnBool many out st :
  Forall valid_sample one → Forall valid_sample many →
  let ps := joinPairs vm many one in
  (NoDup (outKeys vm ps) ∧ (∀ k, k ∈ outKeys vm ps → k ∉ out) →
     joinLoop emit swap (oneSide vm one) op vm returnBool out many st =
     emitAll (omap (pairResult swap op vm returnBool) ps) st) ∧
  (¬ (NoDup (outKeys vm ps) ∧ (∀ k, k ∈ outKeys vm ps → k ∉ out)) →
     is_ok (joinLoop emit swap (oneSide vm one) op vm returnBool out many st) = false).
Proof.
  intros Ho Hm. revert out st. induction Hm as [|x many Hx Hm IH]; intros out st.
  { cbn. split; [done|]. intros Hn. destruct Hn. split; [constructor|]. by intros k ?%elem_of_nil. }
  cbn [joinLoop]. rewrite oneSide_lookup by done. unfold joinPairs. cbn [omap list_omap].
  destruct (partner vm one x) as [y|] eqn:Ep; cbn [fmap option_fmap option_map]; [|by apply IH].
  fold (joinPairs vm many one). set (ps := joinPairs vm many one) in *.
  set (key := binaryLabelKey (binaryResultLabels (s_labels x) (s_labels y) vm)).
  assert (outKeys vm ((x, y) :: ps) = key :: outKeys vm ps) as -> by done.
  rewrite NoDup_cons. case_bool_decide as Hin.
  { split; [|done]. intros [_ Hd]. by destruct (Hd key ltac:(left)). }
  assert (¬ ((key ∉ outKeys vm ps ∧ NoDup (outKeys vm ps)) ∧ (∀ k, k ∈ key :: outKeys vm ps → k ∉ out)) ↔
          ¬ (NoDup (outKeys vm ps) ∧ (∀ k, k ∈ outKeys vm ps → k ∉ ({[ key ]} ∪ out : gset string)))) as Heq.
  { split; intros Hn [Hnd Hd]; apply Hn.
    - split_and!; [|done|].
      + intros Hk. apply (Hd key Hk). set_solver.
      + intros k [->|Hk]%elem_of_cons; [done|]. specialize (Hd k Hk). set_solver.
    - destruct Hnd as [Hk Hnd]. split; [done|]. intros k Hk'. specialize (Hd k ltac:(by right)).
      intros [->%elem_of_singleton|?]%elem_of_union; done. }
  cbn [omap list_omap]. unfold pairResult at 1. cbn [fst snd].
  destruct (if swap then _ else _) as [a b]. destruct (binarySampleValue a b op returnBool) as [v keep].
  assert (∀ st, ((key ∉ outKeys vm ps ∧ NoDup (outKeys vm ps)) ∧ (∀ k, k ∈ key :: outKeys vm ps → k ∉ out) →
     joinLoop emit swap (oneSide vm one) op vm returnBool ({[ key ]} ∪ out) many st =
     emitAll (omap (pairResult swap op vm returnBool) ps) st)) as Hgood.
  { intros st' [[Hk Hnd] Hd]. apply IH. split; [done|]. intros k Hk'.
    intros [->%elem_of_singleton|?]%elem_of_union; [done|]. by apply (Hd k); [right|]. }
  assert (∀ st, ¬ ((key ∉ outKeys vm ps ∧ NoDup (outKeys vm ps)) ∧ (∀ k, k ∈ key :: outKeys vm ps → k ∉ out)) →
     is_ok (joinLoop emit swap (oneSide vm one) op vm returnBool ({[ key ]} ∪ out) many st) = false) as Hbad.
  { intros st' Hn%Heq. by apply IH. }
  destruct keep; [|split; [apply Hgood|apply Hbad]]. cbn [emitAll].
  unfold pairLabels. cbn [fst snd]. destruct (emit _ st) as [st'|e]; [|done]. split; [apply Hgood|apply Hbad].
Qed.

Definition valid_pair (p : binarySample * binarySample) : Prop := valid_sample p.1 ∧ valid_sample p.2.

Lemma joinPairs_valid vm many one : Forall valid_sample many → Forall valid_sample one →
  Forall valid_pair (joinPairs vm many one).
Proof.
  intros Hm Ho. apply Forall_forall. intros p Hp. apply list_elem_of_omap in Hp as (x & Hx & E).
  destruct (partner vm one x) as [y|] eqn:Ep; [|done]. injection E as <-.
  split; [by eapply Forall_forall in Hm|by eapply partner_valid].
Qed.

Lemma outKeys_NoDup vm ps : Forall valid_pair ps → NoDup (outKeys vm ps) ↔ NoDup (map (pairLabels vm) ps).
Proof.
  intros Hv. induction Hv as [|p ps [Hp1 Hp2] Hv IH]; [split; constructor|]. unfold outKeys. cbn [map]. rewrite !NoDup_cons.
  fold (outKeys vm ps). rewrite IH. unfold outKeys. rewrite !list_elem_of_fmap. rewrite Forall_forall in Hv.
  enough ((∃ y, binaryLabelKey (pairLabels vm p) = binaryLabelKey (pairLabels vm y) ∧ y ∈ ps) ↔
          (∃ y, pairLabels vm p = pairLabels vm y ∧ y ∈ ps)) as Hq by by rewrite Hq.
  split; intros (q & E & Hq); exists q; split; try done.
  - destruct (Hv q Hq). by apply pairLabels_key.
  - by rewrite E.
Qed.

(** The join of two operands: on [group_right] the right side is the many side. *)
Definition joinSpec (vm : option VectorMatchInfo) (lhs rhs : list binarySample) : list (binarySample * binarySample) :=
  if groupsRight vm then joinPairs vm rhs lhs else joinPairs vm lhs rhs.

Lemma evaluation_joins lhs rhs op vm returnBool st :
  Forall valid_sample lhs → Forall valid_sample rhs → isSet op = false →
  (NoDup (map (pairLabels vm) (joinSpec vm lhs rhs)) →
     matchBinaryEvaluation emit lhs rhs op vm returnBool st =
     emitAll (omap (pairResult (groupsRight vm) op vm returnBool) (joinSpec vm lhs rhs)) st) ∧
  (¬ NoDup (map (pairLabels vm) (joinSpec vm lhs rhs)) →
     is_ok (matchBinaryEvaluation emit lhs rhs op vm returnBool st) = false).
Proof.
  intros Hl Hr Hop. unfold matchBinaryEvaluation, joinSpec. rewrite Hop.
  assert (∀ many one, Forall valid_sample many → Forall valid_sample one →
    NoDup (map (pairLabels vm) (joinPairs vm many one)) ↔
    NoDup (outKeys vm (joinPairs vm many one)) ∧ (∀ k, k ∈ outKeys vm (joinPairs vm many one) → k ∉ (∅ : gset string))) as Hn.
  { intros many one Hm Ho. rewrite <- outKeys_NoDup by by apply joinPairs_valid. set_solver. }
  destruct (groupsRight vm); rewrite Hn by done; apply joinLoop_spec; done.
Qed.

(** C8 At every timestamp an arithmetic or comparison operation joins each sample of the
    many side with its partner, the sample of the other side that has the same matching
    labels: when the results have different labels they are emitted in the order of
    the many side, with the operands in the order of the query whichever side is many,
    less the ones a comparison filters out; when two results would have the
    same labels the operation is an error, never a silent overwrite. *)
Theorem join_evaluation lhs rhs op vm returnBool st :
  Forall valid_sample lhs → Forall valid_sample rhs → isSet op = false →
  (NoDup (map (pairLabels vm) (joinSpec vm lhs rhs)) →
     matchBinaryEvaluation emit lhs rhs op vm returnBool st =
     emitAll (omap (pairResult (groupsRight vm) op vm returnBool) (joinSpec vm lhs rhs)) st) ∧
  (¬ NoDup (map (pairLabels vm) (joinSpec vm lhs rhs)) →
     is_ok (matchBinaryEvaluation emit lhs rhs op vm returnBool st) = false).
Proof. apply evaluation_joins. Qed.

End Emitting.

(** ** The cardinality check *)

Section Cardinality.
Context (on : option (list string)) (ignoring : list string).

Definition countKey (x : binarySample) : string := MarshalLabels (countLabels on ignoring (s_labels x)).

(** The samples of a timestamp. *)
Definition samplesAt (m : samples) (ts : F) : list binarySample := default [] (m !! ts).

Definition counted (m : samples) (c : counts) : Prop :=
  ∀ k ts, default 0 (c !! (k, ts)) = Z.of_nat (length (filter (λ x, countKey x = k) (samplesAt m ts))).

Lemma addSample_counted m c ts labels v key : counted m c → key = MarshalLabels (countLabels on ignoring labels) →
  counted (addSample ts (mkSample labels v) m) (<[(key, ts) := default 0 (c !! (key, ts)) + 1]> c).
Proof.
  intros Hc Ek k t. specialize (Hc k t). unfold samplesAt, addSample, samples, counts in *.
  destruct (decide (t = ts)) as [->|Ht].
  - rewrite lookup_insert_eq. cbn [default from_option id]. rewrite filter_app, length_app, filter_cons.
    assert (countKey (mkSample labels v) = key) as Hk by done.
    destruct (decide (countKey _ = k)) as [Hc'|Hc'].
    + assert (key = k) as -> by congruence. rewrite lookup_insert_eq. cbn [default from_option id]. rewrite Hc. cbn. lia.
    + rewrite lookup_insert_ne by congruence. rewrite Hc. cbn. lia.
  - rewrite !lookup_insert_ne by congruence. done.
Qed.

Lemma pointsLoop_counted labels ps n m n' m' c :
  counted m c → pointsLoop labels ps n m = Ok (n', m') →
  counted m' (foldl (countPoint (MarshalLabels (countLabels on ignoring labels))) c ps).
Proof.
  revert n m c. induction ps as [|p ps IH]; intros n m c Hc E; cbn [pointsLoop foldl] in *.
  { by injection E as <- <-. }
  destruct p as [|[]  [|v []]]; try done. destruct (1000000 <? n + 1); [done|].
  eapply IH; [|exact E]. cbn [countPoint]. by apply addSample_counted.
Qed.

Lemma seriesLoop_counted l n m m' c :
  counted m c → seriesLoop l n m = Ok m' → counted m' (foldl (countSeries on ignoring) c l).
Proof.
  revert n m c. induction l as [|s l IH]; intros n m c Hc E; cbn [seriesLoop foldl] in *.
  { by injection E as <-. }
  destruct (pointsLoop _ _ _ _) as [[n1 m1]|] eqn:Ep; [|done].
  eapply IH; [|exact E]. by eapply pointsLoop_counted.
Qed.

(** The counts of the check are the numbers of samples the evaluation joins. *)
Lemma body_counted body m : binarySamplesByTime body = Ok m → counted m (countBody on ignoring body).
Proof.
  unfold binarySamplesByTime, countBody. destruct (decodeSeries body) as [l|]; [|done].
  apply seriesLoop_counted. intros k ts. unfold samplesAt, samples, counts. by rewrite !lookup_empty.
Qed.

Lemma not_many c m k ts : counted m c → existsb (λ kc, 1 <? kc.2) (map_to_list c) = false →
  (length (filter (λ x, countKey x = k) (samplesAt m ts)) ≤ 1)%nat.
Proof.
  intros Hc E. specialize (Hc k ts). destruct (c !! (k, ts)) as [z|] eqn:Ez; cbn in Hc; [|lia].
  enough (z ≤ 1) by lia. destruct (Z.leb_spec z 1); [done|].
  assert (existsb (λ kc, 1 <? kc.2) (map_to_list c) = true) as E'; [|congruence].
  apply existsb_exists. exists ((k, ts), z). split; [|cbn; lia].
  by apply list_elem_of_In, (elem_of_map_to_list (M:=gmap (string * F))).
Qed.

Lemma not_many_to_one cl cr lhs rhs k ts : counted lhs cl → counted rhs cr →
  existsb (λ kc, (1 <? kc.2) && (0 <? default 0 (cr !! kc.1))) (map_to_list cl) = false →
  filter (λ x, countKey x = k) (samplesAt rhs ts) ≠ [] →
  (length (filter (λ x, countKey x = k) (samplesAt lhs ts)) ≤ 1)%nat.
Proof.
  intros Hl Hr E Hne. specialize (Hl k ts). specialize (Hr k ts).
  destruct (cl !! (k, ts)) as [z|] eqn:Ez; cbn in Hl; [|lia].
  enough (z ≤ 1) by lia. destruct (Z.leb_spec z 1); [done|].
  assert (existsb (λ kc, (1 <? kc.2) && (0 <? default 0 (cr !! kc.1))) (map_to_list cl) = true) as E'; [|congruence].
  apply existsb_exists. exists ((k, ts), z). split; [by apply list_elem_of_In, (elem_of_map_to_list (M:=gmap (string * F)))|].
  cbn [fst snd]. rewrite Hr. destruct (filter _ (samplesAt rhs ts)); [done|]. cbn [length].
  apply andb_true_iff. split; apply Z.ltb_lt; lia.
Qed.

End Cardinality.

(** [json.Unmarshal] decodes a JSON string to valid UTF-8: what is not is replaced. *)
Definition decodes_valid : Prop :=
  ∀ body l, decodeSeries body = Ok l → Forall (λ s, valid_labels (sr_Metric s)) l.

Lemma pointsLoop_samples (P : binarySample → Prop) labels ps n m n' m' :
  (∀ v, P (mkSample labels v)) → (∀ ts, Forall P (samplesAt m ts)) →
  pointsLoop labels ps n m = Ok (n', m') → ∀ ts, Forall P (samplesAt m' ts).
Proof.
  intros HP. revert n m. induction ps as [|p ps IH]; intros n m Hm E; cbn [pointsLoop] in E.
  { by injection E as <- <-. }
  destruct p as [|[] [|v []]]; try done. destruct (1000000 <? n + 1); [done|].
  eapply IH; [|exact E]. intros ts. unfold samplesAt, addSample, samples in *.
  destruct (decide (ts = f)) as [->|Hts]; [rewrite lookup_insert_eq|rewrite lookup_insert_ne by done; apply Hm].
  cbn [default from_option id]. apply Forall_app. split; [apply Hm|by constructor].
Qed.

Lemma decoded_valid body m ts : decodes_valid → binarySamplesByTime body = Ok m → Forall valid_sample (samplesAt m ts).
Proof.
  unfold binarySamplesByTime. intros Hd E. destruct (decodeSeries body) as [l|] eqn:El; [|done].
  pose proof (Hd body l El) as Hv. clear El.
  assert (∀ ts, Forall valid_sample (samplesAt (∅ : samples) ts)) as Hm.
  { intros t. unfold samplesAt, samples. rewrite lookup_empty. constructor. }
  revert E Hm. generalize (∅ : samples), 0. revert ts.
  induction Hv as [|s l Hs Hv IH]; intros ts m0 n E Hm; cbn [seriesLoop] in E.
  { injection E as <-. apply Hm. }
  destruct (pointsLoop _ _ _ _) as [[n1 m1]|] eqn:Ep; [|done].
  eapply IH; [exact E|]. eapply pointsLoop_samples; [|exact Hm|exact Ep]. intros v. exact Hs.
Qed.

(** The labels of the check are the matching labels of the evaluation, when the
    matching is the query's and its label names have no space around them. *)
Definition plainNames (vm : option VectorMatching) : Prop :=
  match vm with Some vm => Forall (λ n, TrimSpace n = n) (MatchLabels vm) | None => True end.

Definition checkOn (vm : option VectorMatchInfo) : option (list string) :=
  match vm with
  | Some v => match On v with None => if MatchOn v then Some [] else None | on => on end
  | None => None
  end.

Definition checkIgnoring (vm : option VectorMatchInfo) : list string :=
  match vm with Some v => Ignoring v | None => [] end.

Lemma filter_deletes (names : list string) (m : gmap string string) : Forall (λ n, TrimSpace n = n) names →
  foldl (λ m name, delete (TrimSpace name) m) (filter (λ kv, kv.2 ≠ "") m) names =
  filter (λ kv, kv.1 ∉ names ∧ kv.2 ≠ "") m.
Proof.
  induction names as [|n names IH] using rev_ind; intros Hn.
  - apply map_filter_ext. intros k v _. cbn. set_solver.
  - apply Forall_app in Hn as [Hn Ht]. rewrite Forall_singleton in Ht. rewrite foldl_app, IH by done. cbn [foldl].
    rewrite Ht. apply map_eq. intros k. apply option_eq. intros v.
    rewrite lookup_delete_Some, !map_lookup_filter_Some. cbn [fst snd].
    rewrite elem_of_app, list_elem_of_singleton. naive_solver.
Qed.

Lemma check_labels vm labels : plainNames vm →
  countLabels (checkOn (binOpExprToVMInfo vm)) (checkIgnoring (binOpExprToVMInfo vm)) labels =
  binaryMatchingLabels labels (binOpExprToVMInfo vm).
Proof.
  destruct vm as [vm|]; intros Hp; cbn [binOpExprToVMInfo checkOn checkIgnoring].
  - unfold binaryMatchingLabels, countLabels. cbn [MatchOn On Ignoring].
    destruct (String.eqb_spec (Card vm) "on") as [Eon|Hon]; cbn [orb nonempty default from_option id]; [done|].
    cbn in Hp. destruct (String.eqb (Card vm) "ignoring"); [by rewrite filter_deletes|].
    by rewrite filter_deletes by constructor.
  - unfold countLabels, binaryMatchingLabels. apply map_filter_ext. intros k v _. cbn. set_solver.
Qed.

Lemma check_key vm x : plainNames vm →
  countKey (checkOn (binOpExprToVMInfo vm)) (checkIgnoring (binOpExprToVMInfo vm)) x = matchKey (binOpExprToVMInfo vm) x.
Proof. intros Hp. unfold countKey, matchKey, binaryLabelKey. by rewrite check_labels. Qed.

Lemma filter_same vm x l : valid_sample x → Forall valid_sample l →
  filter (same vm x) l = filter (λ y, matchKey vm y = matchKey vm x) l.
Proof.
  intros Hx Hl. induction Hl as [|y l Hy Hl IH]; [done|]. rewrite !filter_cons, IH.
  pose proof (matchKey_same vm y x Hy Hx) as Hk. unfold same in *.
  destruct (decide (_ = _)), (decide (_ = _)); naive_solver.
Qed.

(** The query has no [group_left] or [group_right]. *)
Definition ungrouped (vm : option VectorMatching) : Prop :=
  match vm with Some vm => GroupSide vm = "" | None => True end.

Lemma ungrouped_info vm : ungrouped vm →
  groupsLeft (binOpExprToVMInfo vm) = false ∧ groupsRight (binOpExprToVMInfo vm) = false.
Proof. destruct vm as [vm|]; [|done]. cbn. by intros ->. Qed.

Lemma result_same vm p q : ungrouped vm →
  pairLabels (binOpExprToVMInfo vm) p = pairLabels (binOpExprToVMInfo vm) q → same (binOpExprToVMInfo vm) p.1 q.1.
Proof.
  intros Hu. destruct vm as [vm|]; cbn [binOpExprToVMInfo]; unfold pairLabels, same, binaryResultLabels; [|by intros ->].
  unfold grouped. cbn [vmi_GroupSide GroupLeft GroupRight]. cbn in Hu. rewrite Hu. done.
Qed.

Lemma join_NoDup vm many one :
  (∀ p q, pairLabels vm p = pairLabels vm q → same vm p.1 q.1) →
  (∀ x, x ∈ many → partner vm one x ≠ None → (length (filter (same vm x) many) ≤ 1)%nat) →
  NoDup (map (pairLabels vm) (joinPairs vm many one)).
Proof.
  intros Hs. induction many as [|x many IH]; intros Hm; [constructor|]. unfold joinPairs. cbn [omap list_omap].
  assert (NoDup (map (pairLabels vm) (joinPairs vm many one))) as Hn.
  { apply IH. intros z Hz Hp. specialize (Hm z ltac:(by right) Hp). rewrite filter_cons in Hm.
    destruct (decide _); cbn in Hm; lia. }
  destruct (partner vm one x) as [y|] eqn:Ep; cbn; [|done]. apply NoDup_cons. split; [|done].
  intros ((x', y') & E & Hq)%list_elem_of_fmap. apply Hs in E. cbn in E.
  apply list_elem_of_omap in Hq as (z & Hz & Ez). destruct (partner vm one z); [|done]. injection Ez as -> _.
  specialize (Hm x ltac:(left) ltac:(by rewrite Ep)). rewrite filter_cons, decide_True in Hm by done.
  assert (x' ∈ filter (same vm x) many) as Hin by by apply list_elem_of_filter.
  destruct (filter (same vm x) many); [by apply not_elem_of_nil in Hin|cbn in Hm; lia].
Qed.

(** What the check promises of the samples at one timestamp. *)
Lemma checked_samples left right op vm lhs rhs ts :
  decodes_valid → plainNames vm → isSet op = false → ungrouped vm →
  validateBinaryVectorCardinality left right op (binOpExprToVMInfo vm) false false = Ok tt →
  binarySamplesByTime left = Ok lhs → binarySamplesByTime right = Ok rhs →
  let vm := binOpExprToVMInfo vm in
  ∀ x, valid_sample x →
    (length (filter (same vm x) (samplesAt rhs ts)) ≤ 1)%nat ∧
    (filter (same vm x) (samplesAt rhs ts) ≠ [] → (length (filter (same vm x) (samplesAt lhs ts)) ≤ 1)%nat).
Proof.
  intros Hd Hp Hop Hu Hv El Er vmi x Hx. destruct (ungrouped_info vm Hu) as [Hgl Hgr]. fold vmi in Hgl, Hgr.
  assert (validateVectorMatchCardinality left right (checkOn vmi) (checkIgnoring vmi) false false = Ok tt) as Hc.
  { rewrite <- Hv. unfold validateBinaryVectorCardinality. rewrite Hop. subst vmi. cbn [orb].
    destruct vm as [vm|]; cbn [binOpExprToVMInfo checkOn checkIgnoring] in *; [|done].
    cbn [binOpExprToVMInfo] in Hgl, Hgr. rewrite Hgl, Hgr. done. }
  unfold validateVectorMatchCardinality in Hc. cbn [negb andb] in Hc.
  destruct (existsb _ (map_to_list (countBody _ _ right))) eqn:E1; [done|].
  destruct (existsb _ (map_to_list (countBody _ _ left))) eqn:E2; [done|]. clear Hc.
  pose proof (body_counted (checkOn vmi) (checkIgnoring vmi) left lhs El) as Cl.
  pose proof (body_counted (checkOn vmi) (checkIgnoring vmi) right rhs Er) as Cr.
  assert (∀ m, Forall valid_sample (samplesAt m ts) → filter (same vmi x) (samplesAt m ts) =
    filter (λ y, countKey (checkOn vmi) (checkIgnoring vmi) y = matchKey vmi x) (samplesAt m ts)) as Hf.
  { intros m Hm. rewrite filter_same by done. apply list_filter_iff. intros y. subst vmi. by rewrite check_key. }
  rewrite !Hf by by eapply decoded_valid.
  split; [by eapply not_many|intros Hne; by eapply not_many_to_one].
Qed.

(** The cardinality check and the evaluation agree: when the check accepts the two
    operands of an operation without grouping, then at every timestamp every left
    sample has at most one right sample with its matching labels, and the evaluation
    never fails with a grouping error: it emits exactly the joined samples. *)
Theorem checked_operands_join {S} (emit : binarySample → S → result S) left right op vm lhs rhs ts returnBool st :
  decodes_valid → plainNames vm → isSet op = false → ungrouped vm →
  validateBinaryVectorCardinality left right op (binOpExprToVMInfo vm) false false = Ok tt →
  binarySamplesByTime left = Ok lhs → binarySamplesByTime right = Ok rhs →
  let vm := binOpExprToVMInfo vm in
  (∀ x, x ∈ samplesAt lhs ts → (length (filter (same vm x) (samplesAt rhs ts)) ≤ 1)%nat) ∧
  matchBinaryEvaluation emit (samplesAt lhs ts) (samplesAt rhs ts) op vm returnBool st =
  emitAll emit (omap (pairResult false op vm returnBool) (joinPairs vm (samplesAt lhs ts) (samplesAt rhs ts))) st.
Proof.
  intros Hd Hp Hop Hu Hv El Er vmi. destruct (ungrouped_info vm Hu) as [_ Hgr]. fold vmi in Hgr.
  pose proof (decoded_valid left lhs ts Hd El) as Hl. pose proof (decoded_valid right rhs ts Hd Er) as Hr.
  pose proof (checked_samples left right op vm lhs rhs ts Hd Hp Hop Hu Hv El Er) as Hs. fold vmi in Hs. cbv zeta in Hs.
  assert (∀ x, x ∈ samplesAt lhs ts → valid_sample x) as Hlv by by apply Forall_forall.
  split; [intros x Hx; by apply Hs, Hlv|].
  destruct (evaluation_joins emit (samplesAt lhs ts) (samplesAt rhs ts) op vmi returnBool st Hl Hr Hop) as [Hj _].
  unfold joinSpec in Hj. rewrite Hgr in Hj. apply Hj, join_NoDup.
  - intros p q. by apply result_same.
  - intros x Hx Hpn. apply Hs; [by apply Hlv|]. intros E. apply Hpn. unfold partner.
    change (λ y, same vmi x y) with (same vmi x). by rewrite E.
Qed.


(** ** The series of the result *)

Section Preserved.
Context {S : Type} (emit : binarySample → S → result S) (P : S → Prop).
Hypothesis emits : ∀ x st st', P st → emit x st = Ok st' → P st'.

Lemma joinLoop_preserves swap one op vm returnBool out many st st' :
  P st → joinLoop emit swap one op vm returnBool out many st = Ok st' → P st'.
Proof.
  revert out st. induction many as [|x many IH]; intros out st Hp E; cbn [joinLoop] in E; [by injection E as <-|].
  destruct (one !! _) as [y|]; [|by eapply IH]. case_bool_decide; [done|].
  destruct (if swap then _ else _) as [a b]. destruct (binarySampleValue _ _ _ _) as [v []]; [|by eapply IH].
  destruct (emit _ st) as [st1|] eqn:Ee; [|done]. eapply IH; [|exact E]. by eapply emits.
Qed.

Lemma setLoop_preserves op vm ks lhs st st' : P st → setLoop emit op vm ks lhs st = Ok st' → P st'.
Proof.
  revert st. induction lhs as [|x lhs IH]; intros st Hp E; cbn [setLoop] in E; [by injection E as <-|].
  destruct (_ || _); [|by eapply IH]. destruct (emit x st) as [st1|] eqn:Ee; [|done]. eapply IH; [|exact E]. by eapply emits.
Qed.

Lemma orLoop_preserves vm ks rhs st st' : P st → orLoop emit vm ks rhs st = Ok st' → P st'.
Proof.
  revert st. induction rhs as [|x rhs IH]; intros st Hp E; cbn [orLoop] in E; [by injection E as <-|].
  destruct (bool_decide _); [by eapply IH|]. destruct (emit x st) as [st1|] eqn:Ee; [|done].
  eapply IH; [|exact E]. by eapply emits.
Qed.

Lemma evaluation_preserves lhs rhs op vm returnBool st st' :
  P st → matchBinaryEvaluation emit lhs rhs op vm returnBool st = Ok st' → P st'.
Proof.
  intros Hp. unfold matchBinaryEvaluation, matchBinarySet. destruct (isSet op).
  - destruct (setLoop _ _ _ _ _ _) as [st1|] eqn:E1; [|done]. apply setLoop_preserves in E1; [|done].
    destruct (String.eqb op "or"); [by apply orLoop_preserves|by intros [= <-]].
  - destruct (groupsRight vm); by apply joinLoop_preserves.
Qed.

End Preserved.

Definition pointTotal (m : gmap string matchedSeries) : Z := map_fold (λ _ s n, Z.of_nat (length (m_points s)) + n) 0 m.

Lemma pointTotal_fresh (m : gmap string matchedSeries) k s : m !! k = None →
  pointTotal (<[k := s]> m) = Z.of_nat (length (m_points s)) + pointTotal m.
Proof. intros E. unfold pointTotal. rewrite map_fold_insert_L; [done|lia|done]. Qed.

Lemma pointTotal_push (m : gmap string matchedSeries) k s p : m !! k = Some s ∨ (m !! k = None ∧ m_points s = []) →
  pointTotal (<[k := mkMatched (m_labels s) (m_points s ++ [p])]> m) = pointTotal m + 1.
Proof.
  intros [E|[E En]].
  - rewrite <- (insert_delete_id m k s E) at 2. rewrite <- insert_delete_eq.
    rewrite !pointTotal_fresh by apply lookup_delete_eq. cbn [m_points]. rewrite length_app. cbn. lia.
  - rewrite pointTotal_fresh by done. rewrite En. cbn. lia.
Qed.

Lemma sublist_last_other (l done_ : list F) ts : l `sublist_of` done_ ++ [ts] → last l ≠ Some ts → l `sublist_of` done_.
Proof.
  intros Hs Hl. apply sublist_app_r in Hs as (l1 & l2 & -> & H1' & H2').
  apply sublist_cons_r in H2' as [H2'|(l3 & -> & H3')].
  - apply sublist_nil_r in H2' as ->. by rewrite app_nil_r.
  - apply sublist_nil_r in H3' as ->. by rewrite last_snoc in Hl.
Qed.

(** The state after the timestamps [seen]: every series is under the key of its labels,
    its points are at some of these timestamps, in their order, and every point has
    been paid from the sample budget [total]. *)
Definition seriesInv (total : Z) (seen : list F) (st : evalState) : Prop :=
  (∀ k s, st.2 !! k = Some s → k = binaryLabelKey (m_labels s) ∧ map fst (m_points s) `sublist_of` seen) ∧
  b_outputSamples st.1 + pointTotal st.2 = total ∧ (0 ≤ total → 0 ≤ b_outputSamples st.1).

Lemma chargeTexts_samples ts b b' : chargeTexts ts b = Ok b' → b_outputSamples b' = b_outputSamples b.
Proof.
  revert b. induction ts as [|t ts IH]; intros b E; cbn [chargeTexts] in E; [by injection E as <-|].
  destruct (_ <? _); [done|]. by apply IH in E.
Qed.

Lemma seriesFor_spec labels st st' s : seriesFor labels st = Ok (st', s) →
  st'.2 = st.2 ∧ b_outputSamples st'.1 = b_outputSamples st.1 ∧
  (st.2 !! binaryLabelKey labels = Some s ∨
   (st.2 !! binaryLabelKey labels = None ∧ m_points s = [] ∧ m_labels s = labels)).
Proof.
  destruct st as [b m]. cbn [seriesFor]. destruct (m !! _) as [s0|] eqn:E.
  - intros [= <- <-]. cbn. tauto.
  - destruct (checkBinaryOutputLabels labels b) as [b1|] eqn:Eb; [|done]. intros [= <- <-].
    apply chargeTexts_samples in Eb. cbn. tauto.
Qed.

Lemma appendSample_inv total seen ts x st st' :
  seriesInv total (seen ++ [ts]) st → appendSample ts x st = Ok st' → seriesInv total (seen ++ [ts]) st'.
Proof.
  intros (Hs & Hb & Hz). unfold appendSample, checkBinaryOutputSample.
  destruct (Z.leb_spec (b_outputSamples st.1) 0) as [|Hpos]; [done|].
  destruct (seriesFor _ _) as [[st1 s]|] eqn:Ef; [|done].
  apply seriesFor_spec in Ef as (E2 & E1 & Ecase). cbn [fst snd b_outputSamples] in *.
  destruct (match last (m_points s) with Some _ => _ | None => _ end) eqn:El; [done|]. intros [= <-].
  unfold push. rewrite E2. unfold seriesInv, seriesMap in *. split; cbn [fst snd].
  - intros k s'. destruct (decide (k = binaryLabelKey (s_labels x))) as [->|Hk];
      [rewrite lookup_insert_eq|rewrite lookup_insert_ne by done; apply Hs].
    intros [= <-]. cbn [m_labels m_points]. rewrite map_app.
    assert (binaryLabelKey (s_labels x) = binaryLabelKey (m_labels s) ∧ map fst (m_points s) `sublist_of` seen ++ [ts]) as [Hk' Hp].
    { destruct Ecase as [E|(E & -> & ->)]; [by apply Hs|]. split; [done|]. apply sublist_nil_l. }
    split; [done|]. apply sublist_app; [|done]. apply (sublist_last_other _ _ ts); [done|].
    change (map fst (m_points s)) with (fst <$> m_points s). rewrite fmap_last.
    destruct (last (m_points s)) as [[t u]|]; [|done]. cbn in *. intros [= ->]. by rewrite bool_decide_eq_true_2 in El.
  - rewrite pointTotal_push; [split; lia|]. naive_solver.
Qed.

Lemma axisLoop_inv total lhs rhs op vm returnBool stamps seen st st' :
  seriesInv total seen st → axisLoop lhs rhs op vm returnBool stamps st = Ok st' →
  seriesInv total (seen ++ stamps) st'.
Proof.
  revert seen st. induction stamps as [|ts stamps IH]; intros seen st Hi E; cbn [axisLoop] in E.
  { injection E as <-. by rewrite app_nil_r. }
  destruct (matchBinaryEvaluation _ _ _ _ _ _ _) as [st1|] eqn:Ee; [|done].
  rewrite (cons_middle ts seen stamps), app_assoc. eapply IH; [|exact E].
  eapply (evaluation_preserves (appendSample ts) (seriesInv total (seen ++ [ts]))); [|  |exact Ee].
  - intros x s s'. apply appendSample_inv.
  - destruct Hi as (Hs & Hb). split; [|done]. intros k s Ek. destruct (Hs k s Ek) as [-> Hp]. split; [done|].
    etrans; [exact Hp|apply sublist_inserts_r; done].
Qed.

Lemma decodeBudget_samples body b b' : checkBinaryDecodeBudget body b = Ok b' → b_outputSamples b' = b_outputSamples b.
Proof.
  unfold checkBinaryDecodeBudget. destruct (_ <? _); [done|]. destruct (decodeLoop _ _ _ _); [|done]. by intros [= <-].
Qed.

(** C29 The series of a binary operation: each is filed under the key of its own labels,
    its points are at timestamps of the operands, each at most once and in the order
    of the axis, and the sample budget pays for every point, so that the result never
    has more points than the budget allows. *)
Theorem binary_result_series left right op vm returnBool b b' m :
  matchBinaryMetricResults left right op vm returnBool b = Ok (b', m) →
  ∃ lhs rhs, binarySamplesByTime left = Ok lhs ∧ binarySamplesByTime right = Ok rhs ∧
  NoDup (axis lhs rhs) ∧ (∀ ts, ts ∈ axis lhs rhs ↔ is_Some (lhs !! ts) ∨ is_Some (rhs !! ts)) ∧
  (∀ k s, m !! k = Some s → k = binaryLabelKey (m_labels s) ∧ map fst (m_points s) `sublist_of` axis lhs rhs) ∧
  b_outputSamples b' + pointTotal m = b_outputSamples (binaryEvaluationContext b) ∧
  (0 ≤ b_outputSamples (binaryEvaluationContext b) → pointTotal m ≤ b_outputSamples (binaryEvaluationContext b)).
Proof.
  unfold matchBinaryMetricResults. intros E.
  destruct (checkBinaryDecodeBudget left _) as [b1|] eqn:E1; [|done]. cbn [rbind] in E.
  destruct (checkBinaryDecodeBudget right _) as [b2|] eqn:E2; [|done]. cbn [rbind] in E.
  destruct (validateBinaryVectorCardinality _ _ _ _ _ _); [|done]. cbn [rbind] in E.
  destruct (binarySamplesByTime left) as [lhs|] eqn:El; [|done]. cbn [rbind] in E.
  destruct (binarySamplesByTime right) as [rhs|] eqn:Er; [|done]. cbn [rbind] in E.
  exists lhs, rhs. split; [done|]. split; [done|]. split; [|split].
  - unfold axis. rewrite SliceStable_perm. apply NoDup_elements.
  - intros ts. unfold axis, samples in *. rewrite SliceStable_perm, elem_of_elements, elem_of_union, !elem_of_dom. done.
  - apply decodeBudget_samples in E1, E2.
    apply (axisLoop_inv (b_outputSamples (binaryEvaluationContext b)) _ _ _ _ _ _ []) in E as (Hs & Hb & Hz).
    + cbn [fst snd app] in *. split; [done|]. split; [done|lia].
    + split; cbn [fst snd]; [intros k s Hk; unfold seriesMap in Hk; by rewrite lookup_empty in Hk|].
      change (pointTotal ∅) with 0. split; lia.
Qed.

(** ** Constants *)

(** The grid of a range: its start and every step up to its end. *)
Definition grid (start step : Z) (n : nat) : list Z := map (λ i, start + Z.of_nat i * step) (seq 0 n).

Lemma grid_S start step n : grid start step (S n) = start :: grid (start + step) step n.
Proof.
  unfold grid. cbn [seq map]. f_equal; [lia|]. rewrite <- seq_shift, map_map. apply map_ext. intros i. lia.
Qed.

Lemma grid_length start step n : length (grid start step n) = n.
Proof. unfold grid. by rewrite length_map, length_seq. Qed.

Lemma constantLoop_grid n ts stop step encoded b points fuel :
  in_int64 ts → in_int64 stop → ts ≤ stop → 0 < step → in_int64 (stop - ts) → (stop - ts) / step = Z.of_nat n →
  Z.of_nat n < b_outputSamples b → (n < fuel)%nat →
  constantLoop fuel ts stop step encoded b points =
  Ok (mkBudget (b_bytes b) (b_arrays b) (b_outputLabels b) (b_outputSamples b - Z.of_nat (S n)),
      points ++ map (λ t, (stampOf t, encoded)) (grid ts step (S n))).
Proof.
  revert ts b points fuel. induction n as [|n IH]; intros ts b points fuel Hts Hst Hle Hs Hd Hn Hb Hf;
    (destruct fuel as [|fuel]; [lia|]); cbn [constantLoop]; rewrite (proj2 (Z.leb_le _ _)) by done;
    unfold checkBinaryOutputSample; rewrite (proj2 (Z.leb_gt _ _)) by lia; rewrite wrap64_id by done.
  - assert (stop - ts < step) by (apply Z.div_small_iff in Hn as [?|?]; lia).
    rewrite (proj2 (Z.ltb_lt _ _)) by done. cbn. by rewrite Z.add_0_r.
  - assert (step ≤ stop - ts) as Hstep by (destruct (Z.le_gt_cases step (stop - ts)); [done|];
      rewrite Z.div_small in Hn; lia).
    rewrite (proj2 (Z.ltb_ge _ _)) by done. rewrite wrap64_id by (unfold in_int64 in *; lia).
    rewrite IH; cbn [b_bytes b_arrays b_outputLabels b_outputSamples]; try done; try (unfold in_int64 in *; lia).
    + rewrite (grid_S ts step (S n)). cbn [map]. rewrite <- app_assoc. cbn [app].
      by replace (b_outputSamples b - 1 - Z.of_nat (S n)) with (b_outputSamples b - Z.of_nat (S (S n))) by lia.
    + unfold in_int64, MinInt64, MaxInt64 in *. lia.
    + replace (stop - ts) with (stop - (ts + step) + 1 * step) in Hn by lia. rewrite Z.div_add in Hn by lia.
      revert Hn. generalize ((stop - (ts + step)) / step). lia.
Qed.

Lemma constant_points start stop step value b : in_int64 start → in_int64 stop → start ≤ stop → 0 < step →
  in_int64 (stop - start) → (stop - start) / step < 1000000 → (stop - start) / step < b_outputSamples b →
  let n := Z.to_nat (1 + (stop - start) / step) in
  constantPoints (Some start) (Some stop) (Some step) value b =
  Some (Ok (mkBudget (b_bytes b) (b_arrays b) (b_outputLabels b) (b_outputSamples b - Z.of_nat n),
        map (λ t, (stampOf t, FormatFloat_f value)) (grid start step n))).
Proof.
  intros Hi1 Hi2 Hle Hs Hd Hm Hb n. unfold constantPoints.
  rewrite wrap64_id by done. rewrite Z.quot_div_nonneg by lia.
  rewrite (proj2 (Z.ltb_ge _ _)), (proj2 (Z.leb_gt _ _)) by lia. cbn [orb].
  assert (0 ≤ (stop - start) / step) by (apply Z.div_pos; lia).
  assert (constantCount start stop step = 1 + (stop - start) / step) as ->.
  { unfold constantCount. rewrite (wrap64_id (stop - start)) by done. rewrite Z.quot_div_nonneg by lia.
    apply wrap64_id. unfold in_int64, MinInt64, MaxInt64. lia. }
  rewrite !(proj2 (Z.ltb_ge _ _)) by lia. subst n.
  set (q := (stop - start) / step) in *. replace (Z.to_nat (1 + q)) with (S (Z.to_nat q)) by lia.
  rewrite (constantLoop_grid (Z.to_nat q)); [done|done|done|done|done|done| | |lia]; subst q; lia.
Qed.

(** A constant over a range is reported at every step of it: when the range does not
    overflow, has at most a million steps and the budget covers them, the response has
    one point at the start and one at each further step up to the end, no more and no
    fewer, and the budget pays for exactly these points. *)
Theorem constant_on_every_step start stop step value b : in_int64 start → in_int64 stop → start ≤ stop → 0 < step →
  in_int64 (stop - start) → (stop - start) / step < 1000000 → (stop - start) / step < b_outputSamples b →
  ∃ b' points, constantPoints (Some start) (Some stop) (Some step) value b = Some (Ok (b', points)) ∧
    points = map (λ t, (stampOf t, FormatFloat_f value)) (grid start step (length points)) ∧
    (∀ t, t ∈ grid start step (length points) ↔ ∃ i, 0 ≤ i ∧ t = start + i * step ∧ t ≤ stop) ∧
    b_outputSamples b' + Z.of_nat (length points) = b_outputSamples b.
Proof.
  intros Hi1 Hi2 Hle Hs Hd Hm Hb. rewrite constant_points by done. eexists _, _. split; [done|].
  set (n := Z.to_nat _). rewrite length_map, grid_length.
  split; [done|]. split; [|cbn; lia]. intros t. unfold grid.
  assert (0 ≤ (stop - start) / step) by (apply Z.div_pos; lia).
  rewrite (list_elem_of_fmap (λ i, start + Z.of_nat i * step)). split.
  - intros (i & -> & Hi%elem_of_seq). exists (Z.of_nat i). split; [lia|]. split; [done|].
    assert (Z.of_nat i ≤ (stop - start) / step) as Hq by lia.
    pose proof (Z.mul_div_le (stop - start) step Hs). nia.
  - intros (i & Hi & -> & Ht). exists (Z.to_nat i). split; [lia|]. apply elem_of_seq.
    assert (i ≤ (stop - start) / step) by (apply Z.div_le_lower_bound; lia). lia.
Qed.

(** When the range overflows, the capacity is negative and [make] panics. *)
Lemma constant_range_overflow value b : 0 ≤ b_outputSamples b →
  constantPoints (Some (- 9 * 10 ^ 18)) (Some (9 * 10 ^ 18)) (Some (60 * 10 ^ 9)) value b = None.
Proof.
  intros Hb. unfold constantPoints.
  change (Z.quot _ (60 * 10 ^ 9)) with (Z.quot (wrap64 (9 * 10 ^ 18 - - 9 * 10 ^ 18)) (60 * 10 ^ 9)).
  change ((9 * 10 ^ 18 <? - 9 * 10 ^ 18) || _) with false. cbv iota zeta.
  change (constantCount _ _ _) with (-7445733). rewrite (proj2 (Z.ltb_ge _ _)) by lia. done.
Qed.

End Matching.

(** ** Witnesses *)

Module BinaryDemo.
Import Filter.FilterDemo Pipe.PipeDemo.
#[local] Existing Instance integers.
#[local] Existing Instance integer_order.
#[local] Existing Instance no_json.

#[local] Instance integer_arithmetic : Arithmetic := {|
  Fadd := Z.add;
  Fsub := Z.sub;
  Fdiv := Z.div;
  Fmod := Z.modulo;
  Fpow := Z.pow;
  ParseFloatValue s := default 0 (Atoi s)
|}.

#[local] Instance integer_dec : EqDecision F := Z.eq_dec.
#[local] Instance integer_countable : Countable F := Z_countable.

Definition metric1 (pod : string) : gmap string string := <["app" := "x"]> (<["pod" := pod]> ∅).

(** Two responses: one series each, at the timestamps 10 and 20, and 20 and 30. *)
#[local] Instance two_responses : Responses := {|
  decodeSeries body :=
    if String.eqb body "left" then
      Ok [mkSeries _ (metric1 "a") [] [[JNumber 10; JString "1"]; [JNumber 20; JString "2"]]]
    else if String.eqb body "right" then
      Ok [mkSeries _ (metric1 "b") [] [[JNumber 20; JString "5"]; [JNumber 30; JString "6"]]]
    else Err "unexpected end of JSON input";
  stampText := Itoa
|}.

Lemma demo_valid pod : ValidString pod = true → valid_labels (metric1 pod).
Proof. intros Hp. repeat (apply map_Forall_insert_2; [by split|]). apply map_Forall_empty. Qed.

Lemma demo_decodes : decodes_valid.
Proof.
  intros body l. cbn. destruct (String.eqb body "left"); [|destruct (String.eqb body "right"); [|done]];
    intros [= <-]; (constructor; [by apply demo_valid|constructor]).
Qed.

Definition onApp : option VectorMatching := Some (mkVM "on" ["app"] "" []).
Definition sampleA : binarySample := mkSample (metric1 "a") 2.
Definition sampleB : binarySample := mkSample (metric1 "b") 5.

Lemma demo_samples : Forall valid_sample [sampleA] ∧ Forall valid_sample [sampleB].
Proof. by split; (constructor; [apply demo_valid|constructor]). Qed.

(** An emitter that collects the samples. *)
Definition collectSample (x : binarySample) (st : list (gmap string string * Z))
    : result (list (gmap string string * Z)) := Ok (st ++ [(s_labels x, s_value x)]).

Lemma set_operations_select_witness :
  matchBinaryEvaluation collectSample [sampleA] [sampleB] "and" (binOpExprToVMInfo onApp) false [] =
  Ok [(metric1 "a", 2)].
Proof.
  etransitivity; [refine (set_operations_select collectSample [sampleA] [sampleB] "and" _ false [] _ _ _)|];
    [exact (proj1 demo_samples)|exact (proj2 demo_samples)|reflexivity|vm_compute; reflexivity].
Defined.

Lemma join_evaluation_witness :
  matchBinaryEvaluation collectSample [sampleA] [sampleB] "+" (binOpExprToVMInfo onApp) false [] =
  Ok [(<["app" := "x"]> ∅, 7)].
Proof.
  etransitivity; [refine (proj1 (join_evaluation collectSample [sampleA] [sampleB] "+" (binOpExprToVMInfo onApp) false [] _ _ _) _)|];
    [exact (proj1 demo_samples)|exact (proj2 demo_samples)|reflexivity| |vm_compute; reflexivity].
  apply NoDup_cons. split; [apply not_elem_of_nil|constructor].
Defined.

Definition decoded (body : string) : samples :=
  match binarySamplesByTime body with Ok m => m | Err _ => ∅ end.

Lemma decoded_ok body : is_ok (binarySamplesByTime body) = true → binarySamplesByTime body = Ok (decoded body).
Proof. unfold decoded. by destruct (binarySamplesByTime body). Qed.

Lemma checked_operands_join_witness :
  matchBinaryEvaluation collectSample (samplesAt (decoded "left") 20) (samplesAt (decoded "right") 20) "/"
    (binOpExprToVMInfo onApp) false [] = Ok [(<["app" := "x"]> ∅, 0)].
Proof.
  etransitivity;
    [refine (proj2 (checked_operands_join collectSample "left" "right" "/" onApp (decoded "left") (decoded "right")
                      20 false [] _ _ _ _ _ _ _))|];
    [exact demo_decodes|by repeat constructor|reflexivity|reflexivity|vm_compute; reflexivity| | |vm_compute; reflexivity].
  all: apply decoded_ok; vm_compute; reflexivity.
Defined.

Definition demoResult : evalState :=
  match matchBinaryMetricResults "left" "right" "-" (binOpExprToVMInfo onApp) false None with
  | Ok st => st
  | Err _ => (binaryEvaluationContext None, ∅)
  end.

Lemma demo_result : matchBinaryMetricResults "left" "right" "-" (binOpExprToVMInfo onApp) false None = Ok (demoResult.1, demoResult.2).
Proof.
  unfold demoResult. destruct (matchBinaryMetricResults _ _ _ _ _ _) as [[b m]|e] eqn:E; [done|].
  assert (is_ok (matchBinaryMetricResults "left" "right" "-" (binOpExprToVMInfo onApp) false None) = true) as Hok
    by (vm_compute; reflexivity).
  by rewrite E in Hok.
Qed.

Lemma binary_result_series_witness :
  pointTotal (snd demoResult) = 1 ∧ b_outputSamples (fst demoResult) = 999999 ∧
  ∃ lhs rhs, binarySamplesByTime "left" = Ok lhs ∧ binarySamplesByTime "right" = Ok rhs ∧ NoDup (axis lhs rhs).
Proof.
  split; [vm_compute; reflexivity|]. split; [vm_compute; reflexivity|].
  destruct (binary_result_series "left" "right" "-" (binOpExprToVMInfo onApp) false None _ _ demo_result)
    as (lhs & rhs & El & Er & Hn & _).
  exists lhs, rhs. split; [exact El|]. split; [exact Er|exact Hn].
Defined.

Lemma encoded_response_exact_witness :
  encodeBinarySeries (snd demoResult) "matrix" 200 (fst demoResult) = Ok (responseJson (snd demoResult) "matrix").
Proof.
  refine (proj1 (encoded_response_exact (snd demoResult) "matrix" 200 (fst demoResult) _ _) _).
  - vm_compute. discriminate.
  - apply Forall_forall. intros s _ E. discriminate E.
  - vm_compute. reflexivity.
Defined.

Lemma constant_on_every_step_witness :
  ∃ b' points, constantPoints (Some 0) (Some 100) (Some 30) (Fof_int 7) (binaryEvaluationContext None) = Some (Ok (b', points)) ∧
    b_outputSamples b' + Z.of_nat (length points) = 1000000.
Proof.
  destruct (constant_on_every_step 0 100 30 (Fof_int 7) (binaryEvaluationContext None)) as (b' & points & E & _ & _ & Hb);
    [vm_compute; intuition discriminate|vm_compute; intuition discriminate|discriminate|reflexivity
    |vm_compute; intuition discriminate|reflexivity|reflexivity|].
  exists b', points. split; [exact E|exact Hb].
Defined.

End BinaryDemo.

End Binary.
