(* ===== verification/RangeMetrics.v ===== *)
(** * Range metrics over log samples
      (src/internal/proxy/range_metric_compat.go, manual_metric_budget.go, and the
      window functions of query_translation.go)

    A range metric the backend cannot compute is evaluated in the proxy: at every step
    [t] the samples of the window (t-window, t] are aggregated.  Three evaluators do
    this, over raw rows with binary search, over raw rows with two moving pointers,
    and over counts per bucket with prefix sums.  Instants are nanoseconds; a
    [time.Time] is not bounded, [UnixNano] wraps.  A Go panic on an index out of range
    is the error [panicIndex]. *)

From S2P Require Import Prelude GoText Utf8 HashRing LogqlAst LogqlFilter LogqlPipeline JsonText BinaryMatch.

#[local] Open Scope Z_scope.
#[local] Open Scope go_scope.

(** Package math: the square root, [int(math.Floor(x))], [int(math.Ceil(x))],
    [int64(math.Round(x))] and the infinities. *)
Class Roots `{Floats} : Type := {
  Fsqrt : F → F;
  floorInt : F → Z;
  ceilInt : F → Z;
  roundInt : F → Z;
  Finf : bool → F
}.

Module RangeMetrics.
Import Text Utf8 JsonText Binary.

Definition panicIndex : string := "runtime error: index out of range".

Section Windows.
Context `{Arithmetic} `{!Json} `{!Roots}.

Record rangeMetricSample : Type := mkRS {
  rs_ts : Z;
  rs_value : F
}.

Definition zero : F := Fof_int 0.

(** [Duration.Seconds]. *)
Definition Seconds (d : Z) : F :=
  Fadd (Fof_int (Z.quot d Second)) (Fdiv (Fof_int (Z.rem d Second)) (Fof_int 1000000000)).

(** ** Window functions *)

Definition outside (windowStart windowEnd ts : Z) : bool := (ts <=? windowStart) || (windowEnd <? ts).

Fixpoint manualWindowValues (samples : list rangeMetricSample) (windowStart windowEnd : Z) : list F :=
  match samples with
  | [] => []
  | s :: samples =>
      if outside windowStart windowEnd (rs_ts s) then manualWindowValues samples windowStart windowEnd
      else rs_value s :: manualWindowValues samples windowStart windowEnd
  end.

Definition sumFloat64 (values : list F) : F := foldl Fadd zero values.

Definition lenF {A} (l : list A) : F := Fof_int (Z.of_nat (length l)).

(** The sum of the squared distances from the mean. *)
Definition squares (mean : F) (values : list F) : F :=
  foldl (λ acc v, Fadd acc (Fmul (Fsub v mean) (Fsub v mean))) zero values.

Definition stddevFloat64 (values : list F) : F :=
  let mean := Fdiv (sumFloat64 values) (lenF values) in
  Fsqrt (Fdiv (squares mean values) (lenF values)).

(** [cmp.Less] of floats, the order of [sort.Float64s]: NaN first. *)
Definition lessF (a b : F) : bool := Flt a b || (negb (Feq a a) && Feq b b).

Definition index (l : list F) (i : Z) : result F :=
  if i <? 0 then Err panicIndex
  else match l !! Z.to_nat i with Some v => Ok v | None => Err panicIndex end.

Definition quantileFloat64 (values : list F) (phi : F) : result F :=
  if Flt phi zero then Ok (Finf false)
  else if Flt (Fof_int 1) phi then Ok (Finf true)
  else
    let ordered := SliceStable lessF values in
    if (length ordered =? 1)%nat then index ordered 0
    else
      let rank := Fmul phi (Fof_int (Z.of_nat (length ordered) - 1)) in
      let lower := floorInt rank in
      let upper := ceilInt rank in
      if lower =? upper then index ordered lower
      else
        let weight := Fsub rank (Fof_int lower) in
        let! l := index ordered lower in
        let! u := index ordered upper in
        Ok (Fadd (Fmul l (Fsub (Fof_int 1) weight)) (Fmul u weight)).

(** The loop over the values after the first. *)
Fixpoint increaseLoop (increase prev : F) (values : list F) : F :=
  match values with
  | [] => increase
  | current :: values =>
      increaseLoop (Fadd increase (if Fle prev current then Fsub current prev else current)) current values
  end.

Definition rateCounterWindow (values : list F) (windowSeconds : F) : result F :=
  match values with
  | [] => Err panicIndex
  | prev :: values => Ok (Fdiv (increaseLoop zero prev values) windowSeconds)
  end.

(** The accumulator of the loop without a slice. *)
Record windowAcc : Type := mkAcc {
  a_count : Z;
  a_sum : F;
  a_min : F;
  a_max : F;
  a_first : F;
  a_last : F;
  a_hasFirst : bool
}.

Definition accStep (windowStart windowEnd : Z) (a : windowAcc) (s : rangeMetricSample) : windowAcc :=
  if outside windowStart windowEnd (rs_ts s) then a
  else
    let v := rs_value s in
    if negb (a_hasFirst a) then mkAcc (a_count a + 1) (Fadd (a_sum a) v) v v v v true
    else
      mkAcc (a_count a + 1) (Fadd (a_sum a) v)
        (if Flt v (a_min a) then v else a_min a) (if Flt (a_max a) v then v else a_max a)
        (a_first a) v true.

Definition isOneOf (s : string) (l : list string) : bool := existsb (String.eqb s) l.

Definition notPositive (f : F) : bool := Fle f zero.

Definition aggregateManualWindow (functionName : string) (quantile : F) (samples : list rangeMetricSample)
    (windowStart windowEnd : Z) (windowSeconds : F) : result (option F) :=
  if isOneOf functionName ["quantile"; "stddev"; "stdvar"; "rate_counter"] then
    let values := manualWindowValues samples windowStart windowEnd in
    if (length values =? 0)%nat then Ok None
    else if String.eqb functionName "quantile" then let! v := quantileFloat64 values quantile in Ok (Some v)
    else if String.eqb functionName "stddev" then Ok (Some (stddevFloat64 values))
    else if String.eqb functionName "stdvar" then
      let v := stddevFloat64 values in Ok (Some (Fmul v v))
    else if notPositive windowSeconds then Ok None
    else if (length values =? 1)%nat then Ok (Some zero)
    else let! v := rateCounterWindow values windowSeconds in Ok (Some v)
  else
    let a := foldl (accStep windowStart windowEnd) (mkAcc 0 zero zero zero zero zero false) samples in
    if a_count a =? 0 then Ok None
    else if String.eqb functionName "count_over_time" then Ok (Some (Fof_int (a_count a)))
    else if String.eqb functionName "rate" then
      if notPositive windowSeconds then Ok None else Ok (Some (Fdiv (Fof_int (a_count a)) windowSeconds))
    else if isOneOf functionName ["bytes_over_time"; "sum"] then Ok (Some (a_sum a))
    else if String.eqb functionName "bytes_rate" then
      if notPositive windowSeconds then Ok None else Ok (Some (Fdiv (a_sum a) windowSeconds))
    else if String.eqb functionName "avg" then Ok (Some (Fdiv (a_sum a) (Fof_int (a_count a))))
    else if String.eqb functionName "min" then Ok (Some (a_min a))
    else if String.eqb functionName "max" then Ok (Some (a_max a))
    else if String.eqb functionName "first" then Ok (Some (a_first a))
    else if String.eqb functionName "last" then Ok (Some (a_last a))
    else Ok None.

(** ** The matrix over raw rows *)

Record manualSeriesSamples : Type := mkMSS {
  ms_Metric : gmap string string;
  ms_Samples : list rangeMetricSample;
  ms_Present : option (list Z)
}.

(** [sort.SliceIsSorted] by timestamp: no sample is before the one preceding it. *)
Fixpoint isSorted (l : list rangeMetricSample) : bool :=
  match l with
  | a :: (b :: _) as l' => negb (rs_ts b <? rs_ts a) && isSorted l'
  | _ => true
  end.

Definition tsAt (l : list rangeMetricSample) (i : nat) : Z := nth i (map rs_ts l) 0.

(** The slice of sorted samples with timestamps in [windowStart, windowEnd]. *)
Definition narrow (samples : list rangeMetricSample) (windowStart windowEnd : Z) : list rangeMetricSample :=
  let lo := Ring.Search (length samples) (λ i, windowStart <=? tsAt samples i) in
  let n := Ring.Search (length samples - lo) (λ i, windowEnd <? tsAt samples (lo + i)) in
  take n (drop lo samples).

(** The instants of the loop [for t := start; !t.After(end); t = t.Add(step)]. *)
Fixpoint timesLoop (fuel : nat) (t stop step : Z) : list Z :=
  match fuel with
  | O => []
  | S fuel => if stop <? t then [] else t :: timesLoop fuel (t + step) stop step
  end.

Definition evalTimes (start stop step : Z) : list Z :=
  timesLoop (S (Z.to_nat ((stop - start) / step))) start stop step.

(** [float64(t.Unix())]. *)
Definition unixF (t : Z) : F := Fof_int (t / Second).

Section Matrix.
Context (functionName : string) (quantile : F) (window : Z).

(** The value of a series at one step, through the narrowed slice when it is sorted. *)
Definition windowValue (e : manualSeriesSamples) (t : Z) : result (option F) :=
  let windowStart := wrap64 (t - window) in
  let windowEnd := wrap64 t in
  let samples :=
    if isSorted (ms_Samples e) then narrow (ms_Samples e) windowStart windowEnd else ms_Samples e in
  aggregateManualWindow functionName quantile samples windowStart windowEnd (Seconds window).

(** One key at one step. *)
Definition evalKey (series : gmap string manualSeriesSamples) (t : Z) (key : string) (st : evalState)
    : result evalState :=
  match series !! key with
  | None => Ok st
  | Some e =>
      let! value := windowValue e t in
      match value with
      | None => Ok st
      | Some value =>
          let! b := checkBinaryOutputSample st.1 in
          match st.2 !! key with
          | Some dst =>
              Ok (b, <[key := mkMatched (m_labels dst) (m_points dst ++ [(unixF t, FormatFloat_f value)])]> st.2)
          | None =>
              let! b := checkBinaryOutputLabels (ms_Metric e) b in
              Ok (b, <[key := mkMatched (ms_Metric e) [(unixF t, FormatFloat_f value)]]> st.2)
          end
      end
  end.

Fixpoint keysLoop (series : gmap string manualSeriesSamples) (t : Z) (keys : list string) (st : evalState)
    : result evalState :=
  match keys with
  | [] => Ok st
  | key :: keys => let! st := evalKey series t key st in keysLoop series t keys st
  end.

Fixpoint stepsLoop (series : gmap string manualSeriesSamples) (keys : list string) (times : list Z) (st : evalState)
    : result evalState :=
  match times with
  | [] => Ok st
  | t :: times => let! st := keysLoop series t keys st in stepsLoop series keys times st
  end.

Definition sortedKeys (series : gmap string manualSeriesSamples) : list string := sortStrings (elements (dom series)).

(** The evaluation of [buildManualRangeMetricMatrixContext]. *)
Definition evaluateMatrix (series : gmap string manualSeriesSamples) (start stop step maxSeries : Z)
    (b : binaryExecutionBudget) : result evalState :=
  if (0 <? maxSeries) && (maxSeries <? Z.of_nat (size series))
  then Err ("manual metric series limit exceeded (" +:+ Itoa maxSeries +:+ "); narrow the query")
  else if stop <? start then Ok (b, ∅)
  else if (step <=? 0) || (1000000 <=? Z.quot (time_sub stop start) step)
  then Err "invalid or excessive manual metric evaluation points"
  else stepsLoop series (sortedKeys series) (evalTimes start stop step) (b, ∅).

Context `{!Responses}.

Definition buildManualRangeMetricMatrixContext (series : gmap string manualSeriesSamples)
    (start stop step maxSeries : Z) (b : option binaryExecutionBudget) : result string :=
  let! (b, m) := evaluateMatrix series start stop step maxSeries (binaryEvaluationContext b) in
  encodeBinarySeries m "matrix" maxBufferedBackendBodyBytes b.

(** One evaluation time: the loop over the keys of [buildManualRangeMetricVectorContext]. *)
Fixpoint vectorLoop (series : gmap string manualSeriesSamples) (t : Z) (keys : list string) (st : evalState)
    : result evalState :=
  match keys with
  | [] => Ok st
  | key :: keys =>
      match series !! key with
      | None => vectorLoop series t keys st
      | Some e =>
          let! value :=
            aggregateManualWindow functionName quantile (ms_Samples e) (wrap64 (t - window)) (wrap64 t) (Seconds window) in
          match value with
          | None => vectorLoop series t keys st
          | Some value =>
              let! b := checkBinaryOutputSample st.1 in
              let! b := checkBinaryOutputLabels (ms_Metric e) b in
              vectorLoop series t keys
                (b, <[key := mkMatched (ms_Metric e) [(unixF t, FormatFloat_f value)]]> st.2)
          end
      end
  end.

Definition buildManualRangeMetricVectorContext (series : gmap string manualSeriesSamples) (evalTime maxSeries : Z)
    (b : option binaryExecutionBudget) : result string :=
  if (0 <? maxSeries) && (maxSeries <? Z.of_nat (size series))
  then Err ("manual metric series limit exceeded (" +:+ Itoa maxSeries +:+ "); narrow the query")
  else
    let! (b, m) := vectorLoop series evalTime (sortedKeys series) (binaryEvaluationContext b, ∅) in
    encodeBinarySeries m "vector" maxBufferedBackendBodyBytes b.

End Matrix.

(** ** The evaluator with two pointers *)

Record bareParserMetricCompatSpec : Type := mkBareSpec {
  bp_funcName : string;
  bp_rangeWindow : Z;
  bp_quantile : F
}.

Definition metricWindowValue (funcName : string) (total : F) (rangeWindow : Z) : F :=
  if isOneOf funcName ["rate"; "bytes_rate"] then
    if rangeWindow <=? 0 then zero else Fdiv total (Seconds rangeWindow)
  else total.

Definition maxLoop (m : F) (values : list F) : F := foldl (λ m v, if Flt m v then v else m) m values.
Definition minLoop (m : F) (values : list F) : F := foldl (λ m v, if Flt v m then v else m) m values.

Definition bareParserMetricWindowValue (funcName : string) (window : list rangeMetricSample)
    (spec : bareParserMetricCompatSpec) : result F :=
  match map rs_value window with
  | [] => Ok zero
  | (first :: rest) as values =>
      let total := sumFloat64 values in
      if isOneOf funcName ["count_over_time"; "rate"; "bytes_over_time"; "bytes_rate"; "sum_over_time"]
      then Ok (metricWindowValue funcName total (bp_rangeWindow spec))
      else if String.eqb funcName "rate_counter" then
        if (length values <? 2)%nat || (bp_rangeWindow spec <=? 0) then Ok zero
        else Ok (Fdiv (increaseLoop zero first rest) (Seconds (bp_rangeWindow spec)))
      else if String.eqb funcName "avg_over_time" then Ok (Fdiv total (lenF values))
      else if String.eqb funcName "max_over_time" then Ok (maxLoop first rest)
      else if String.eqb funcName "min_over_time" then Ok (minLoop first rest)
      else if String.eqb funcName "first_over_time" then Ok first
      else if String.eqb funcName "last_over_time" then Ok (List.last values first)
      else if isOneOf funcName ["stddev_over_time"; "stdvar_over_time"] then
        let variance := Fdiv (squares (Fdiv total (lenF values)) values) (lenF values) in
        Ok (if String.eqb funcName "stddev_over_time" then Fsqrt variance else variance)
      else if String.eqb funcName "quantile_over_time" then
        let ordered := SliceStable lessF values in
        if (length ordered =? 1)%nat then index ordered 0
        else
          let pos := Fmul (bp_quantile spec) (Fof_int (Z.of_nat (length ordered) - 1)) in
          let lower := floorInt pos in
          let upper := ceilInt pos in
          if lower =? upper then index ordered lower
          else
            let! l := index ordered lower in
            let! u := index ordered upper in
            Ok (Fadd l (Fmul (Fsub u l) (Fsub pos (Fof_int lower))))
      else Ok zero
  end.

(** The loop of the right pointer: past every sample at or before [evaluation]. *)
Fixpoint advanceRight (fuel : nat) (samples : list rangeMetricSample) (evaluation : Z) (right : nat) : nat :=
  match fuel with
  | O => right
  | S fuel =>
      if (right <? length samples)%nat && (tsAt samples right <=? evaluation)
      then advanceRight fuel samples evaluation (S right) else right
  end.

(** The loop of the left pointer, which does not pass the right one. *)
Fixpoint advanceLeft (fuel : nat) (samples : list rangeMetricSample) (bound : Z) (left right : nat) : nat :=
  match fuel with
  | O => left
  | S fuel =>
      if (left <? right)%nat && (tsAt samples left <=? bound)
      then advanceLeft fuel samples bound (S left) right else left
  end.

(** The point of the samples between the pointers. *)
Definition bareEmit (spec : bareParserMetricCompatSpec) (samples : list rangeMetricSample) (evaluation : Z)
    (left right : nat) (b : binaryExecutionBudget) (points : list (F * string))
    : result (binaryExecutionBudget * list (F * string)) :=
  if (left <? right)%nat then
    let! b := checkBinaryOutputSample b in
    let! value := bareParserMetricWindowValue (bp_funcName spec) (take (right - left) (drop left samples)) spec in
    Ok (b, points ++ [(Fdiv (Fof_int evaluation) (Fof_int Second), FormatFloat_f value)])
  else Ok (b, points).

(** The loop over the evaluation times of one series. *)
Fixpoint bareLoop (fuel : nat) (spec : bareParserMetricCompatSpec) (samples : list rangeMetricSample)
    (evaluation stop step : Z) (left right : nat) (b : binaryExecutionBudget) (points : list (F * string))
    : result (binaryExecutionBudget * list (F * string)) :=
  match fuel with
  | O => Err "out of fuel"
  | S fuel =>
      if stop <? evaluation then Ok (b, points)
      else
        let right := advanceRight (length samples) samples evaluation right in
        let left := advanceLeft (length samples) samples (wrap64 (evaluation - bp_rangeWindow spec)) left right in
        let! (b, points) := bareEmit spec samples evaluation left right b points in
        if wrap64 (stop - evaluation) <? step then Ok (b, points)
        else bareLoop fuel spec samples (wrap64 (evaluation + step)) stop step left right b points
  end.

Record bareParserMetricSeries : Type := mkBareSeries {
  bs_metric : gmap string string;
  bs_samples : list rangeMetricSample
}.

Fixpoint bareSeriesLoop (spec : bareParserMetricCompatSpec) (start stop step : Z) (i : Z)
    (series : list bareParserMetricSeries) (st : evalState) : result evalState :=
  match series with
  | [] => Ok st
  | entry :: series =>
      let! b := checkBinaryOutputLabels (bs_metric entry) st.1 in
      let! (b, points) :=
        bareLoop (S (S (Z.to_nat ((stop - start) / step)))) spec (bs_samples entry) start stop step 0 0 b [] in
      bareSeriesLoop spec start stop step (i + 1) series
        (b, if (length points =? 0)%nat then st.2 else <[Itoa i := mkMatched (bs_metric entry) points]> st.2)
  end.

(** The evaluation of [buildBoundedBareParserMetric]. *)
Definition evaluateBareParserMetric (series : list bareParserMetricSeries) (start stop step : Z)
    (spec : bareParserMetricCompatSpec) (b : binaryExecutionBudget) : result evalState :=
  let distance := time_sub stop start in
  if (step <=? 0) || (stop <? start) || (distance =? MaxInt64) || (1000000 <=? Z.quot distance step)
  then Err "invalid or excessive manual metric evaluation points"
  else bareSeriesLoop spec start stop step 0 series (b, ∅).

Definition buildBoundedBareParserMetric `{!Responses} (series : list bareParserMetricSeries) (start stop step : Z)
    (spec : bareParserMetricCompatSpec) (isRange : bool) (b : option binaryExecutionBudget) : result string :=
  let! (b, m) := evaluateBareParserMetric series start stop step spec (binaryEvaluationContext b) in
  encodeBinarySeries m (if isRange then "matrix" else "vector") maxBufferedBackendBodyBytes b.

(** ** The evaluator over buckets *)

(** The loop of the greatest common divisor; two rounds halve the remainder, so that
    127 rounds are enough for 64-bit integers. *)
Fixpoint gcdLoop (fuel : nat) (bucket rest : Z) : Z :=
  match fuel with
  | O => bucket
  | S fuel => if 0 <? rest then gcdLoop fuel rest (Z.rem bucket rest) else bucket
  end.

Definition slidingStatsBucket (offsets : bool) (start step window : Z) : option Z :=
  let bucket := gcdLoop 127 step window in
  if bucket <? Millisecond then None
  else if negb offsets && negb (Z.rem (wrap64 (start - window)) bucket =? 0) then None
  else Some bucket.

(** The offset [setSlidingStatsRangeParams] sends, in nanoseconds. *)
Definition slidingOffset (start hitStep : Z) : Z :=
  - Z.rem (Z.rem (wrap64 (start + 1)) hitStep + hitStep) hitStep.

Definition snapSlidingBucketNanos (ts start hitStep : Z) : Z :=
  let offset := wrap64 (wrap64 (ts - start) + Z.quot hitStep 2) in
  let k := Z.quot offset hitStep in
  let k := if Z.rem offset hitStep <? 0 then k - 1 else k in
  wrap64 (start + wrap64 (k * hitStep)).

(** [v.Float64()] is [None] when the value is not a number. *)
Definition snapSlidingBucketTimestamp (v : option F) (start hitStep : Z) : option Z :=
  match v with
  | None => None
  | Some sec =>
      if hitStep <=? 0 then None
      else Some (snapSlidingBucketNanos (roundInt (Fmul sec (Fof_int 1000000000))) start hitStep)
  end.

Definition byTime (a b : rangeMetricSample) : bool := rs_ts a <? rs_ts b.

Fixpoint prefixLoop (acc : F) (samples : list rangeMetricSample) : list F :=
  match samples with
  | [] => []
  | s :: samples => let acc := Fadd acc (rs_value s) in acc :: prefixLoop acc samples
  end.

(** [prefix[i]] is the sum of the first [i] values. *)
Definition prefixSums (samples : list rangeMetricSample) : list F := zero :: prefixLoop zero samples.

(** The value of a window of buckets and whether it holds a line. *)
Definition hitsWindow (samples : list rangeMetricSample) (prefix : list F) (present : option (list Z))
    (windowNS tNS : Z) : F * bool :=
  let windowStartNS := wrap64 (tNS - windowNS) in
  let lo := Ring.Search (length samples) (λ i, windowStartNS <=? tsAt samples i) in
  let hi := Ring.Search (length samples) (λ i, tNS <=? tsAt samples i) in
  let sum := Fsub (nth hi prefix zero) (nth lo prefix zero) in
  let hasLines :=
    match present with
    | None => negb (Feq sum zero)
    | Some present =>
        let pLo := Ring.Search (length present) (λ i, windowStartNS <=? nth i present 0) in
        (pLo <? length present)%nat && (nth pLo present 0 <? tNS)
    end in
  (sum, hasLines).

(** The steps of one series; the first argument is the estimate of the encoded bytes. *)
Fixpoint hitsLoop (manualFunc : string) (samples : list rangeMetricSample) (prefix : list F)
    (present : option (list Z)) (window : Z) (times : list Z) (encodedBytes : Z) (points : list (F * string))
    : result (Z * list (F * string)) :=
  match times with
  | [] => Ok (encodedBytes, points)
  | t :: times =>
      let '(sum, hasLines) := hitsWindow samples prefix present window (wrap64 t) in
      if negb hasLines then hitsLoop manualFunc samples prefix present window times encodedBytes points
      else
        let value := if isOneOf manualFunc ["rate"; "bytes_rate"] then Fdiv sum (Seconds window) else sum in
        let formatted := FormatFloat_f value in
        let encodedBytes := encodedBytes + len formatted + 26 in
        if maxBufferedBackendBodyBytes <? encodedBytes
        then Err ("manual metric response exceeds " +:+ Itoa maxBufferedBackendBodyBytes +:+ " bytes")
        else hitsLoop manualFunc samples prefix present window times encodedBytes (points ++ [(unixF t, formatted)])
  end.

Definition labelBytes (m : gmap string string) : Z :=
  foldr (λ kv n, len kv.1 + len kv.2 + 6 + n) 0 (map_to_list m).

(** [sort.Slice] leaves samples of one timestamp in any order; here they stay in theirs. *)
Definition sortSamples (samples : list rangeMetricSample) : list rangeMetricSample :=
  if isSorted samples then samples else SliceStable byTime samples.

Fixpoint hitsSeries (manualFunc : string) (series : gmap string manualSeriesSamples) (times : list Z) (window : Z)
    (keys : list string) (encodedBytes : Z) : result (list matchedSeries) :=
  match keys with
  | [] => Ok []
  | key :: keys =>
      match series !! key with
      | None => hitsSeries manualFunc series times window keys encodedBytes
      | Some e =>
          let samples := sortSamples (ms_Samples e) in
          let! (encodedBytes, points) :=
            hitsLoop manualFunc samples (prefixSums samples) (ms_Present e) window times
              (encodedBytes + labelBytes (ms_Metric e)) [] in
          let! rest := hitsSeries manualFunc series times window keys encodedBytes in
          Ok (if (length points =? 0)%nat then rest else mkMatched (ms_Metric e) points :: rest)
      end
  end.

(** The series of [buildHitsRangeMetricMatrix]. *)
Definition evaluateHits (manualFunc : string) (series : gmap string manualSeriesSamples) (start stop step window : Z)
    : result (list matchedSeries) :=
  if (stop <? start) || (step <=? 0) then Ok []
  else hitsSeries manualFunc series (evalTimes start stop step) window (sortedKeys series) 0.

(** [shiftSeriesSamples]. *)
Definition shiftSeriesSamples (series : gmap string manualSeriesSamples) (shift : Z) : gmap string manualSeriesSamples :=
  if shift =? 0 then series
  else
    (λ e, mkMSS (ms_Metric e) (map (λ s, mkRS (wrap64 (rs_ts s + shift)) (rs_value s)) (ms_Samples e))
            (map (λ z, wrap64 (z + shift)) <$> ms_Present e)) <$> series.

(** ** The busiest series *)

Definition totalOf (e : manualSeriesSamples) : F := sumFloat64 (map rs_value (ms_Samples e)).

Definition busier (a b : string * F) : bool :=
  if negb (Feq a.2 b.2) then Flt b.2 a.2 else String.ltb a.1 b.1.

(** The keys by total, the busiest first. *)
Definition ranked (series : gmap string manualSeriesSamples) : list (string * F) :=
  SliceStable busier (map (λ ke, (ke.1, totalOf ke.2)) (map_to_list series)).

Definition capSeriesByTotalCount (series : gmap string manualSeriesSamples) (maxSeries : Z)
    : gmap string manualSeriesSamples :=
  if (maxSeries <=? 0) || (Z.of_nat (size series) <=? maxSeries) then series
  else filter (λ ke, ke.1 ∈ map fst (take (Z.to_nat maxSeries) (ranked series))) series.

(** ** Windows as sets of samples *)

Definition inWindow (windowStart windowEnd : Z) (s : rangeMetricSample) : Prop := windowStart < rs_ts s ≤ windowEnd.

#[global] Instance inWindow_dec a b s : Decision (inWindow a b s).
Proof. unfold inWindow. apply _. Defined.

Lemma outside_spec a b s : outside a b (rs_ts s) = if decide (inWindow a b s) then false else true.
Proof.
  unfold outside. destruct (decide (inWindow a b s)) as [Hw|Hw]; unfold inWindow in Hw;
    [apply orb_false_iff; rewrite Z.leb_gt, Z.ltb_ge|apply orb_true_iff; rewrite Z.leb_le, Z.ltb_lt]; lia.
Qed.

Lemma values_filter samples a b :
  manualWindowValues samples a b = map rs_value (filter (inWindow a b) samples).
Proof.
  induction samples as [|s l IH]; [done|]. cbn [manualWindowValues]. rewrite outside_spec, filter_cons, IH.
  by destruct (decide (inWindow a b s)).
Qed.

(** What LogQL defines of the values of a window. *)
Definition aggregate (functionName : string) (quantile : F) (values : list F) (windowSeconds : F) : result (option F) :=
  match values with
  | [] => Ok None
  | v :: vs =>
      if String.eqb functionName "quantile" then let! v := quantileFloat64 values quantile in Ok (Some v)
      else if String.eqb functionName "stddev" then Ok (Some (stddevFloat64 values))
      else if String.eqb functionName "stdvar" then Ok (Some (Fmul (stddevFloat64 values) (stddevFloat64 values)))
      else if String.eqb functionName "rate_counter" then
        if notPositive windowSeconds then Ok None
        else match vs with [] => Ok (Some zero) | _ => Ok (Some (Fdiv (increaseLoop zero v vs) windowSeconds)) end
      else if String.eqb functionName "count_over_time" then Ok (Some (lenF values))
      else if String.eqb functionName "rate" then
        if notPositive windowSeconds then Ok None else Ok (Some (Fdiv (lenF values) windowSeconds))
      else if isOneOf functionName ["bytes_over_time"; "sum"] then Ok (Some (sumFloat64 values))
      else if String.eqb functionName "bytes_rate" then
        if notPositive windowSeconds then Ok None else Ok (Some (Fdiv (sumFloat64 values) windowSeconds))
      else if String.eqb functionName "avg" then Ok (Some (Fdiv (sumFloat64 values) (lenF values)))
      else if String.eqb functionName "min" then Ok (Some (minLoop v vs))
      else if String.eqb functionName "max" then Ok (Some (maxLoop v vs))
      else if String.eqb functionName "first" then Ok (Some v)
      else if String.eqb functionName "last" then Ok (Some (List.last values v))
      else Ok None
  end.

(** The accumulator after some values, the first of them [v]. *)
Lemma acc_values a b c sum mn mx first last samples :
  let vs := map rs_value (filter (inWindow a b) samples) in
  foldl (accStep a b) (mkAcc c sum mn mx first last true) samples =
  mkAcc (c + Z.of_nat (length vs)) (foldl Fadd sum vs) (minLoop mn vs) (maxLoop mx vs) first (List.last vs last) true.
Proof.
  revert c sum mn mx last. induction samples as [|s l IH]; intros c sum mn mx last vs; [cbn; f_equal; lia|].
  subst vs. cbn [foldl]. unfold accStep at 2. rewrite outside_spec, filter_cons.
  destruct (decide (inWindow a b s)); [|apply IH]. cbn [negb a_hasFirst a_count a_sum a_min a_max a_first map length].
  rewrite IH. f_equal; [lia|]. set (vs := map _ _). generalize (rs_value s). intros v.
  clear. revert v. induction vs as [|w vs IH]; intros v; [done|]. cbn [List.last]. destruct vs; [done|]. apply (IH v).
Qed.

Lemma acc_first a b samples :
  foldl (accStep a b) (mkAcc 0 zero zero zero zero zero false) samples =
  match map rs_value (filter (inWindow a b) samples) with
  | [] => mkAcc 0 zero zero zero zero zero false
  | v :: vs => mkAcc (1 + Z.of_nat (length vs)) (foldl Fadd (Fadd zero v) vs) (minLoop v vs) (maxLoop v vs) v (List.last vs v) true
  end.
Proof.
  induction samples as [|s l IH]; [done|]. cbn [foldl]. unfold accStep at 2. rewrite outside_spec, filter_cons.
  destruct (decide (inWindow a b s)); [|apply IH]. cbn [negb a_hasFirst a_count a_sum a_min a_max a_first map].
  rewrite acc_values. f_equal.
Qed.

Lemma last_default {A} (l : list A) (x d : A) : List.last (x :: l) d = List.last l x.
Proof.
  revert x d. induction l as [|y l IH]; intros x d; [done|].
  change (List.last (x :: y :: l) d) with (List.last (y :: l) d). rewrite IH. symmetry. apply IH.
Qed.

Lemma aggregate_window functionName quantile samples a b windowSeconds :
  aggregateManualWindow functionName quantile samples a b windowSeconds =
  aggregate functionName quantile (map rs_value (filter (inWindow a b) samples)) windowSeconds.
Proof.
  unfold aggregateManualWindow. rewrite values_filter, acc_first.
  destruct (map rs_value (filter (inWindow a b) samples)) as [|v vs] eqn:E.
  { cbn [length Nat.eqb a_count Z.eqb aggregate]. by destruct (isOneOf _ _). }
  unfold isOneOf. cbn [existsb aggregate].
  destruct (String.eqb functionName "quantile") eqn:E1; [done|].
  destruct (String.eqb functionName "stddev") eqn:E2; [done|].
  destruct (String.eqb functionName "stdvar") eqn:E3; [done|].
  destruct (String.eqb functionName "rate_counter") eqn:E4.
  { cbn [orb length Nat.eqb]. destruct (notPositive windowSeconds); [done|]. by destruct vs. }
  cbn [orb a_count a_sum a_min a_max a_first a_last].
  rewrite (proj2 (Z.eqb_neq _ _)) by lia. rewrite last_default.
  assert (Fof_int (1 + Z.of_nat (length vs)) = lenF (v :: vs)) as -> by (unfold lenF; f_equal; cbn [length]; lia).
  done.
Qed.

(** The aggregation of a window without a slice is the aggregation of the values in
    (windowStart, windowEnd], for every range function: counts, sums, averages,
    extremes, first and last values, deviations, quantiles and counter rates; a window
    without samples has no value. *)
Theorem window_aggregation functionName quantile samples windowStart windowEnd windowSeconds :
  aggregateManualWindow functionName quantile samples windowStart windowEnd windowSeconds =
  aggregate functionName quantile (map rs_value (filter (inWindow windowStart windowEnd) samples)) windowSeconds.
Proof. apply aggregate_window. Qed.

(** ** Narrowing *)

Definition ordered (l : list rangeMetricSample) : Prop := StronglySorted Z.le (map rs_ts l).

Lemma isSorted_ordered l : isSorted l = true ↔ ordered l.
Proof.
  unfold ordered. induction l as [|a l IH]; [split; [constructor|done]|].
  destruct l as [|b l]; [split; [repeat constructor|done]|].
  change (isSorted (a :: b :: l)) with (negb (rs_ts b <? rs_ts a) && isSorted (b :: l)).
  rewrite andb_true_iff, negb_true_iff, Z.ltb_ge, IH. cbn [map]. split.
  - intros [Hab Hs]. constructor; [done|]. inversion Hs as [|? ? Hs' Hall]; subst. constructor; [done|].
    eapply Forall_impl; [exact Hall|]. intros z Hz. cbn in *. lia.
  - intros Hs. inversion Hs as [|? ? Hs' Hall]; subst. split; [|done]. by inversion Hall.
Qed.

Lemma tsAt_mono l i j : ordered l → (i ≤ j)%nat → (j < length l)%nat → tsAt l i ≤ tsAt l j.
Proof. intros Ho Hij Hj. unfold tsAt. apply Ring.sorted_nth; [done|done|by rewrite length_map]. Qed.

Lemma tsAt_lookup l i s : l !! i = Some s → tsAt l i = rs_ts s.
Proof. intros E. unfold tsAt. apply nth_lookup_Some. by rewrite list_lookup_fmap, E. Qed.

(** Cutting a list where a prefix and a suffix fail the filter. *)
Lemma filter_slice {A} (P : A → Prop) `{!∀ x, Decision (P x)} lo n (l : list A) :
  (∀ i x, l !! i = Some x → (i < lo)%nat → ¬ P x) → (∀ i x, l !! i = Some x → (lo + n ≤ i)%nat → ¬ P x) →
  filter P (take n (drop lo l)) = filter P l.
Proof.
  intros Hlo Hhi. rewrite <- (take_drop lo l) at 2. rewrite <- (take_drop n (drop lo l)) at 2.
  rewrite !filter_app, drop_drop.
  rewrite (filter_none P (take lo l)), (filter_none P (drop (lo + n) l)); [by rewrite app_nil_r|..].
  - apply Forall_lookup. intros i x E. rewrite lookup_drop in E. eapply Hhi; [exact E|lia].
  - apply Forall_lookup. intros i x [E Hi]%lookup_take_Some. by eapply Hlo.
Qed.

Lemma narrow_window samples a b : ordered samples →
  filter (inWindow a b) (narrow samples a b) = filter (inWindow a b) samples.
Proof.
  intros Ho. unfold narrow. cbv zeta.
  destruct (Ring.Search_spec (length samples) (λ i, a <=? tsAt samples i)) as (Hle & Hlo & Hhi).
  { intros i j Hij Hj Hi. apply Z.leb_le in Hi. apply Z.leb_le. pose proof (tsAt_mono samples i j Ho Hij Hj). lia. }
  set (lo := Ring.Search (length samples) _) in *.
  destruct (Ring.Search_spec (length samples - lo) (λ i, b <? tsAt samples (lo + i))) as (Hle' & Hlo' & Hhi').
  { intros i j Hij Hj Hi. apply Z.ltb_lt in Hi. apply Z.ltb_lt.
    pose proof (tsAt_mono samples (lo + i) (lo + j) Ho ltac:(lia) ltac:(lia)). lia. }
  set (n := Ring.Search (length samples - lo) _) in *.
  apply filter_slice; intros i x E Hi.
  - specialize (Hlo i Hi). apply Z.leb_gt in Hlo. rewrite (tsAt_lookup samples i x E) in Hlo. unfold inWindow. lia.
  - pose proof (lookup_lt_Some _ _ _ E) as Hlt. specialize (Hhi' (i - lo)%nat ltac:(lia) ltac:(lia)).
    replace (lo + (i - lo))%nat with i in Hhi' by lia. apply Z.ltb_lt in Hhi'.
    rewrite (tsAt_lookup samples i x E) in Hhi'. unfold inWindow. lia.
Qed.

(** The values of a series at one step: those of the window, whether the series was
    narrowed or not. *)
Lemma windowValue_reference functionName quantile window e t :
  windowValue functionName quantile window e t =
  aggregate functionName quantile
    (map rs_value (filter (inWindow (wrap64 (t - window)) (wrap64 t)) (ms_Samples e))) (Seconds window).
Proof.
  unfold windowValue. cbv zeta. rewrite aggregate_window.
  destruct (isSorted (ms_Samples e)) eqn:Es; [|done].
  rewrite narrow_window by by apply isSorted_ordered. done.
Qed.

(** ** The matrix *)

Lemma timesLoop_grid n fuel t stop step : 0 < step → t ≤ stop → (stop - t) / step = Z.of_nat n → (n < fuel)%nat →
  timesLoop fuel t stop step = grid t step (S n).
Proof.
  intros Hs. revert fuel t. induction n as [|n IH]; intros fuel t Ht Hn Hf; (destruct fuel as [|fuel]; [lia|]);
    cbn [timesLoop]; rewrite (proj2 (Z.ltb_ge _ _)) by lia; rewrite grid_S; f_equal.
  - apply Z.div_small_iff in Hn as [?|?]; [|lia..]. destruct fuel as [|fuel]; [done|]. cbn [timesLoop].
    by rewrite (proj2 (Z.ltb_lt _ _)) by lia.
  - assert (step ≤ stop - t) by (destruct (Z.le_gt_cases step (stop - t)); [done|]; rewrite Z.div_small in Hn; lia).
    apply IH; [lia| |lia]. replace (stop - t) with (stop - (t + step) + 1 * step) in Hn by lia.
    rewrite Z.div_add in Hn by lia. revert Hn. generalize ((stop - (t + step)) / step). lia.
Qed.

Lemma evalTimes_grid start stop step : 0 < step → start ≤ stop →
  evalTimes start stop step = grid start step (S (Z.to_nat ((stop - start) / step))).
Proof.
  intros Hs Hle. apply timesLoop_grid; [done|done| |lia].
  assert (0 ≤ (stop - start) / step) by (apply Z.div_pos; lia). lia.
Qed.

(** The JSON bytes of the texts of a label set. *)
Definition textCost (texts : list string) : Z := foldr (λ t n, binaryJSONStringSize t + n) 0 texts.
Definition labelCost (labels : gmap string string) : Z := textCost (map_to_list labels ≫= λ kv, [kv.1; kv.2]).

Lemma size_positive s : 0 ≤ binaryJSONStringSize s.
Proof. rewrite size_exact. apply len_nonneg. Qed.

Lemma textCost_nonneg texts : 0 ≤ textCost texts.
Proof. induction texts as [|t texts IH]; cbn; [lia|]. pose proof (size_positive t). fold (textCost texts). lia. Qed.

Definition spend (samples labels : Z) (b : binaryExecutionBudget) : binaryExecutionBudget :=
  mkBudget (b_bytes b) (b_arrays b) (b_outputLabels b - labels) (b_outputSamples b - samples).

Lemma spend_0 b : spend 0 0 b = b.
Proof. destruct b. unfold spend. cbn [b_bytes b_arrays b_outputLabels b_outputSamples]. by rewrite !Z.sub_0_r. Qed.

Lemma spend_spend a b c d bud : spend a b (spend c d bud) = spend (c + a) (d + b) bud.
Proof. unfold spend. cbn [b_bytes b_arrays b_outputLabels b_outputSamples]. f_equal; lia. Qed.

Lemma chargeTexts_cost texts b :
  (textCost texts ≤ b_outputLabels b → chargeTexts texts b = Ok (spend 0 (textCost texts) b)) ∧
  (0 ≤ b_outputLabels b < textCost texts → is_ok (chargeTexts texts b) = false).
Proof.
  revert b. induction texts as [|t texts IH]; intros b.
  - cbn [textCost foldr chargeTexts]. split; intros; [by rewrite spend_0|lia].
  - cbn [chargeTexts textCost foldr]. fold (textCost texts). pose proof (textCost_nonneg texts).
    destruct (Z.ltb_spec (b_outputLabels b) (binaryJSONStringSize t)); [split; [lia|done]|].
    replace (mkBudget _ _ _ _) with (spend 0 (binaryJSONStringSize t) b) by (unfold spend; by rewrite Z.sub_0_r).
    destruct (IH (spend 0 (binaryJSONStringSize t) b)) as [Hok Herr]. cbn [b_outputLabels spend] in Hok, Herr.
    split; intros Hc; [by rewrite Hok, spend_spend by lia|apply Herr; lia].
Qed.

Definition labelTotal (m : gmap string matchedSeries) : Z := map_fold (λ _ s n, labelCost (m_labels s) + n) 0 m.

Lemma labelTotal_fresh (m : gmap string matchedSeries) k s : m !! k = None →
  labelTotal (<[k := s]> m) = labelCost (m_labels s) + labelTotal m.
Proof. intros E. unfold labelTotal. rewrite map_fold_insert_L; [done|lia|done]. Qed.

Lemma labelTotal_push (m : gmap string matchedSeries) k s ps : m !! k = Some s →
  labelTotal (<[k := mkMatched (m_labels s) ps]> m) = labelTotal m.
Proof.
  intros E. rewrite <- (insert_delete_id m k s E) at 2. rewrite <- insert_delete_eq.
  rewrite !labelTotal_fresh by apply lookup_delete_eq. done.
Qed.

Section Jobs.
Context (functionName : string) (quantile : F) (window : Z) (series : gmap string manualSeriesSamples).
Context (value : manualSeriesSamples → Z → option F).
Context (instants : list Z).
Hypothesis no_panic : ∀ k e t, series !! k = Some e → t ∈ instants → windowValue functionName quantile window e t = Ok (value e t).

Definition pointAt (e : manualSeriesSamples) (t : Z) : option (F * string) :=
  (λ v, (unixF t, FormatFloat_f v)) <$> value e t.

Fixpoint runJobs (jobs : list (Z * string)) (st : evalState) : result evalState :=
  match jobs with
  | [] => Ok st
  | (t, key) :: jobs => let! st := evalKey functionName quantile window series t key st in runJobs jobs st
  end.

Lemma runJobs_app jobs1 jobs2 st : runJobs (jobs1 ++ jobs2) st = let! st := runJobs jobs1 st in runJobs jobs2 st.
Proof.
  revert st. induction jobs1 as [|[t key] jobs1 IH]; intros st; [done|]. cbn [runJobs app].
  destruct (evalKey _ _ _ _ _ _ _); [apply IH|done].
Qed.

Lemma keysLoop_jobs t keys st : keysLoop functionName quantile window series t keys st = runJobs (map (pair t) keys) st.
Proof.
  revert st. induction keys as [|k keys IH]; intros st; [done|]. cbn [keysLoop map runJobs].
  destruct (evalKey _ _ _ _ _ _ _); [apply IH|done].
Qed.

Lemma stepsLoop_jobs keys times st :
  stepsLoop functionName quantile window series keys times st = runJobs (times ≫= λ t, map (pair t) keys) st.
Proof.
  revert st. induction times as [|t times IH]; intros st; [done|]. cbn [stepsLoop]. rewrite bind_cons, runJobs_app, keysLoop_jobs.
  destruct (runJobs _ st); [apply IH|done].
Qed.

(** One more point of a series. *)
Definition addPoint (m : gmap string matchedSeries) (job : Z * string) : gmap string matchedSeries :=
  match series !! job.2 with
  | None => m
  | Some e =>
      match pointAt e job.1 with
      | None => m
      | Some p =>
          <[job.2 := match m !! job.2 with
                     | Some d => mkMatched (m_labels d) (m_points d ++ [p])
                     | None => mkMatched (ms_Metric e) [p]
                     end]> m
      end
  end.

Lemma addPoint_grows m job : pointTotal m ≤ pointTotal (addPoint m job) ∧ labelTotal m ≤ labelTotal (addPoint m job).
Proof.
  unfold addPoint. destruct (series !! job.2) as [e|]; [|lia]. destruct (pointAt e job.1) as [p|]; [|lia].
  destruct (m !! job.2) as [d|] eqn:E.
  - rewrite pointTotal_push by (by left). rewrite labelTotal_push by done. lia.
  - rewrite pointTotal_fresh, labelTotal_fresh by done. cbn. unfold labelCost. pose proof (textCost_nonneg (map_to_list (ms_Metric e) ≫= λ kv, [kv.1; kv.2])). lia.
Qed.

Lemma jobs_grow jobs m :
  pointTotal m ≤ pointTotal (foldl addPoint m jobs) ∧ labelTotal m ≤ labelTotal (foldl addPoint m jobs).
Proof.
  revert m. induction jobs as [|j jobs IH]; intros m; cbn [foldl]; [lia|].
  destruct (IH (addPoint m j)), (addPoint_grows m j). lia.
Qed.

(** The state after some jobs, with the budget [b0] at the start. *)
Definition after (b0 : binaryExecutionBudget) (m : gmap string matchedSeries) : evalState :=
  (spend (pointTotal m) (labelTotal m) b0, m).

Definition affordable (b0 : binaryExecutionBudget) (m : gmap string matchedSeries) : Prop :=
  pointTotal m ≤ b_outputSamples b0 ∧ labelTotal m ≤ b_outputLabels b0.

Lemma sample_spent b : checkBinaryOutputSample b =
  if b_outputSamples b <=? 0 then Err "binary expression output sample budget exceeded" else Ok (spend 1 0 b).
Proof. unfold checkBinaryOutputSample, spend. by rewrite Z.sub_0_r. Qed.

Lemma evalKey_spec b0 m job : job.1 ∈ instants →
  (affordable b0 (addPoint m job) →
     evalKey functionName quantile window series job.1 job.2 (after b0 m) = Ok (after b0 (addPoint m job))) ∧
  (affordable b0 m → ¬ affordable b0 (addPoint m job) →
     is_ok (evalKey functionName quantile window series job.1 job.2 (after b0 m)) = false).
Proof.
  intros Ht. unfold evalKey, addPoint, after, affordable. destruct (series !! job.2) as [e|] eqn:Ee; [|tauto].
  rewrite (no_panic _ _ _ Ee Ht). unfold pointAt. cbn [rbind]. destruct (value e job.1) as [v|]; cbn [fmap option_fmap option_map]; [|tauto].
  cbn [fst snd]. unfold seriesMap in *. rewrite sample_spent, spend_spend. cbn [b_outputSamples spend].
  destruct (m !! job.2) as [d|] eqn:Ed.
  - rewrite pointTotal_push by (by left). rewrite labelTotal_push by done.
    destruct (Z.leb_spec (b_outputSamples b0 - pointTotal m) 0); cbn [rbind]; [split; [lia|done]|].
    rewrite Z.add_0_r. split; [done|lia].
  - rewrite pointTotal_fresh, labelTotal_fresh by done. cbn [m_points length m_labels].
    destruct (Z.leb_spec (b_outputSamples b0 - pointTotal m) 0); cbn [rbind]; [split; [lia|done]|].
    unfold checkBinaryOutputLabels. rewrite Z.add_0_r.
    destruct (chargeTexts_cost (map_to_list (ms_Metric e) ≫= λ kv, [kv.1; kv.2]) (spend (pointTotal m + 1) (labelTotal m) b0)) as [Hok Herr].
    fold (labelCost (ms_Metric e)) in Hok, Herr. cbn [b_outputLabels spend] in Hok, Herr. split.
    + intros [Hp Hl]. rewrite Hok, spend_spend by lia. cbn [rbind]. do 3 f_equal; lia.
    + intros Ha Hn. destruct (chargeTexts _ _); [|done]. destruct Hn. split; [lia|].
      destruct (Z.le_gt_cases (labelCost (ms_Metric e)) (b_outputLabels b0 - labelTotal m)) as [|Hgt]; [lia|].
      by specialize (Herr ltac:(lia)).
Qed.

Lemma runJobs_spec b0 m jobs : Forall (λ job, job.1 ∈ instants) jobs → affordable b0 m →
  (affordable b0 (foldl addPoint m jobs) → runJobs jobs (after b0 m) = Ok (after b0 (foldl addPoint m jobs))) ∧
  (¬ affordable b0 (foldl addPoint m jobs) → is_ok (runJobs jobs (after b0 m)) = false).
Proof.
  intros Hj. revert m. induction Hj as [|[t k] jobs Ht Hj IH]; intros m Ha; cbn [runJobs foldl]; [done|].
  destruct (evalKey_spec b0 m (t, k) Ht) as [Hok Herr]. cbn [fst snd] in Hok, Herr.
  destruct (jobs_grow jobs (addPoint m (t, k))) as [Hg1 Hg2].
  assert (affordable b0 (addPoint m (t, k)) ∨ ¬ affordable b0 (addPoint m (t, k))) as [Hd|Hd] by (unfold affordable; lia).
  - rewrite Hok by done. cbn [rbind]. by apply IH.
  - split; [intros []; destruct Hd; split; lia|]. intros _. specialize (Herr Ha Hd).
    by destruct (evalKey _ _ _ _ _ _ _).
Qed.

Definition jobPoints (k : string) (e : manualSeriesSamples) (jobs : list (Z * string)) : list (F * string) :=
  omap (λ j, if decide (j.2 = k) then pointAt e j.1 else None) jobs.

Lemma jobs_lookup m jobs k e : series !! k = Some e →
  foldl addPoint m jobs !! k =
  match jobPoints k e jobs, m !! k with
  | [], o => o
  | ps, Some d => Some (mkMatched (m_labels d) (m_points d ++ ps))
  | ps, None => Some (mkMatched (ms_Metric e) ps)
  end.
Proof.
  intros He. revert m. induction jobs as [|[t k'] jobs IH]; intros m; cbn [foldl]; [done|].
  rewrite IH. unfold jobPoints at 2. cbn [omap list_omap fst snd]. fold (jobPoints k e jobs).
  unfold addPoint. cbn [fst snd]. destruct (decide (k' = k)) as [->|Hk].
  - rewrite He. destruct (pointAt e t) as [p|]; [|done]. rewrite lookup_insert_eq.
    destruct (jobPoints k e jobs), (m !! k); cbn [m_points m_labels app]; rewrite <- ?app_assoc; done.
  - destruct (series !! k') as [e'|]; [|done]. destruct (pointAt e' t); [|done]. by rewrite lookup_insert_ne.
Qed.

Lemma jobs_other m jobs k : series !! k = None → foldl addPoint m jobs !! k = m !! k.
Proof.
  intros Hn. revert m. induction jobs as [|[t k'] jobs IH]; intros m; cbn [foldl]; [done|]. rewrite IH.
  unfold addPoint. cbn [fst snd]. destruct (series !! k') as [e'|] eqn:E; [|done]. destruct (pointAt e' t); [|done].
  rewrite lookup_insert_ne; [done|congruence].
Qed.

Lemma jobPoints_keys k e t keys : NoDup keys → k ∈ keys → jobPoints k e (map (pair t) keys) = option_list (pointAt e t).
Proof.
  intros Hn Hk. induction Hn as [|k' keys Hk' Hn IH]; [by apply not_elem_of_nil in Hk|].
  unfold jobPoints. cbn [map omap list_omap fst snd]. fold (jobPoints k e (map (pair t) keys)).
  destruct (decide (k' = k)) as [->|Hne].
  - assert (jobPoints k e (map (pair t) keys) = []) as ->.
    { clear -Hk'. induction keys as [|k' keys IH]; [done|]. unfold jobPoints. cbn [map omap list_omap fst snd].
      rewrite decide_False by set_solver. apply IH. set_solver. }
    by destruct (pointAt e t).
  - apply IH. apply elem_of_cons in Hk as [->|Hk]; done.
Qed.

Lemma jobPoints_app k e jobs1 jobs2 : jobPoints k e (jobs1 ++ jobs2) = jobPoints k e jobs1 ++ jobPoints k e jobs2.
Proof. apply omap_app. Qed.

Lemma jobPoints_times k e keys times : NoDup keys → k ∈ keys →
  jobPoints k e (times ≫= λ t, map (pair t) keys) = omap (pointAt e) times.
Proof.
  intros Hn Hk. induction times as [|t times IH]; [done|]. rewrite bind_cons, jobPoints_app, IH, jobPoints_keys by done.
  cbn [omap list_omap]. by destruct (pointAt e t).
Qed.

(** The series LogQL defines: the points of the steps whose window has a value. *)
Definition matrixSpec (times : list Z) : gmap string matchedSeries :=
  omap (λ e, match omap (pointAt e) times with [] => None | ps => Some (mkMatched (ms_Metric e) ps) end) series.

Lemma sortedKeys_spec : NoDup (sortedKeys series) ∧ ∀ k, k ∈ sortedKeys series ↔ is_Some (series !! k).
Proof.
  unfold sortedKeys. split; [rewrite sortStrings_perm; apply NoDup_elements|].
  intros k. rewrite sortStrings_perm, elem_of_elements. apply elem_of_dom.
Qed.

Lemma jobs_matrix times : foldl addPoint ∅ (times ≫= λ t, map (pair t) (sortedKeys series)) = matrixSpec times.
Proof.
  destruct sortedKeys_spec as [Hn Hk]. apply map_eq. intros k. unfold matrixSpec. rewrite lookup_omap.
  destruct (series !! k) as [e|] eqn:E; cbn [mbind option_bind].
  - rewrite (jobs_lookup _ _ _ e E), lookup_empty, jobPoints_times; [by destruct (omap _ _)|done|]. apply Hk. by rewrite E.
  - rewrite jobs_other by done. apply lookup_empty.
Qed.

End Jobs.

(** ** What LogQL defines *)

(** The values of a series in the window (t-window, t], in the order of time. *)
Definition windowOf (window : Z) (e : manualSeriesSamples) (t : Z) : list F :=
  map rs_value (filter (inWindow (t - window) t) (SliceStable byTime (ms_Samples e))).

Definition total (vs : list F) : F := foldl Fadd (Fof_int 0) vs.
Definition mean (vs : list F) : F := Fdiv (total vs) (Fof_int (Z.of_nat (length vs))).
Definition variance (vs : list F) : F := mean (map (λ v, Fmul (Fsub v (mean vs)) (Fsub v (mean vs))) vs).

(** The increase of a counter that is reset when it falls. *)
Definition increase (vs : list F) : F :=
  total (zip_with (λ before now, if Fle before now then Fsub now before else now) vs (tail vs)).

(** Linear interpolation between the closest ranks. *)
Definition quantileOf (phi : F) (vs : list F) : F :=
  if Flt phi (Fof_int 0) then Finf false
  else if Flt (Fof_int 1) phi then Finf true
  else
    let ordered := SliceStable lessF vs in
    let at_ i := nth (Z.to_nat i) ordered zero in
    let rank := Fmul phi (Fof_int (Z.of_nat (length vs) - 1)) in
    if (length vs =? 1)%nat then at_ 0
    else if floorInt rank =? ceilInt rank then at_ (floorInt rank)
    else
      let weight := Fsub rank (Fof_int (floorInt rank)) in
      Fadd (Fmul (at_ (floorInt rank)) (Fsub (Fof_int 1) weight)) (Fmul (at_ (ceilInt rank)) weight).

Definition perSecond (sec x : F) : option F := if Fle sec (Fof_int 0) then None else Some (Fdiv x sec).

(** The range functions of a window that starts with [v]. *)
Definition rangeFunctions (phi v : F) (rest : list F) (sec : F) : list (string * option F) :=
  let vs := v :: rest in
  let count := Fof_int (Z.of_nat (length vs)) in
  [("count_over_time", Some count);
   ("rate", perSecond sec count);
   ("bytes_over_time", Some (total vs));
   ("bytes_rate", perSecond sec (total vs));
   ("sum", Some (total vs));
   ("avg", Some (mean vs));
   ("min", Some (foldl (λ m x, if Flt x m then x else m) v rest));
   ("max", Some (foldl (λ m x, if Flt m x then x else m) v rest));
   ("first", Some v);
   ("last", last vs);
   ("stddev", Some (Fsqrt (variance vs)));
   ("stdvar", Some (Fmul (Fsqrt (variance vs)) (Fsqrt (variance vs))));
   ("rate_counter", if Fle sec (Fof_int 0) then None
                    else Some (match rest with [] => Fof_int 0 | _ => Fdiv (increase vs) sec end));
   ("quantile", Some (quantileOf phi vs))].

(** A range function of the values of a window; an empty window has no value. *)
Definition rangeFunction (functionName : string) (phi : F) (vs : list F) (sec : F) : option F :=
  match vs with
  | [] => None
  | v :: rest =>
      match List.find (λ f, String.eqb functionName f.1) (rangeFunctions phi v rest sec) with
      | Some (_, value) => value
      | None => None
      end
  end.

Definition logqlValue (functionName : string) (quantile : F) (window : Z) (e : manualSeriesSamples) (t : Z) : option F :=
  rangeFunction functionName quantile (windowOf window e t) (Seconds window).

(** The ranks of a quantile stay among the values, as they do in float64 for a number
    between 0 and 1. *)
Definition ranks_inside (phi : F) : Prop :=
  Flt phi zero = true ∨ Flt (Fof_int 1) phi = true ∨
  ∀ n, 0 ≤ n → 0 ≤ floorInt (Fmul phi (Fof_int n)) ∧ floorInt (Fmul phi (Fof_int n)) ≤ n ∧
    0 ≤ ceilInt (Fmul phi (Fof_int n)) ≤ n.

Lemma squares_variance vs : Fdiv (squares (mean vs) vs) (lenF vs) = variance vs.
Proof.
  unfold variance, mean at 2, total, squares, lenF. rewrite length_map. f_equal.
  unfold zero. generalize (Fof_int 0) as a. generalize (mean vs) as m. intros m. induction vs as [|v vs IH]; intros a; [done|]. cbn. apply IH.
Qed.

Lemma increase_pairs v vs : increaseLoop zero v vs = increase (v :: vs).
Proof.
  unfold increase, total. cbn [tail]. change (Fof_int 0) with zero. generalize zero as a. revert v.
  induction vs as [|w vs IH]; intros v a; [done|]. cbn [increaseLoop zip_with foldl]. apply IH.
Qed.

Lemma index_inside l i : 0 ≤ i < Z.of_nat (length l) → index l i = Ok (nth (Z.to_nat i) l zero).
Proof.
  intros Hi. unfold index. rewrite (proj2 (Z.ltb_ge i 0)) by lia. destruct (lookup_lt_is_Some_2 l (Z.to_nat i)) as [v Hv]; [lia|].
  rewrite Hv. f_equal. symmetry. by apply nth_lookup_Some.
Qed.

Lemma quantile_interpolates phi vs : vs ≠ [] → ranks_inside phi → quantileFloat64 vs phi = Ok (quantileOf phi vs).
Proof.
  intros Hne Hr. unfold quantileFloat64, quantileOf. destruct (Flt phi zero) eqn:E0; unfold zero in E0; rewrite E0; [done|].
  destruct (Flt (Fof_int 1) phi) eqn:E1; [done|]. cbv zeta.
  assert (length (SliceStable lessF vs) = length vs) as Hl by (by rewrite SliceStable_perm). rewrite Hl.
  assert (1 ≤ Z.of_nat (length vs)) by (destruct vs; [done|cbn; lia]).
  destruct (length vs =? 1)%nat; [rewrite index_inside by lia; done|].
  destruct Hr as [Hr|[Hr|Hr]]; [unfold zero in Hr; congruence..|]. specialize (Hr (Z.of_nat (length vs) - 1) ltac:(lia)).
  set (rank := Fmul phi _) in *. destruct (floorInt rank =? ceilInt rank); [rewrite index_inside by lia; done|].
  rewrite !index_inside by lia. done.
Qed.

(** The code's aggregation is the function of LogQL. *)
Lemma aggregate_rangeFunction functionName quantile vs sec : (functionName = "quantile" → ranks_inside quantile) →
  aggregate functionName quantile vs sec = Ok (rangeFunction functionName quantile vs sec).
Proof.
  intros Hq. destruct vs as [|v rest]; [done|]. unfold aggregate, rangeFunction, rangeFunctions, isOneOf, perSecond, notPositive.
  cbn [existsb List.find fst].
  repeat match goal with |- context [String.eqb functionName ?s] =>
    destruct (String.eqb_spec functionName s) as [->|?]; cbn [orb String.eqb Ascii.eqb Bool.eqb]; cbv iota; [try done|] end.
  - by rewrite quantile_interpolates by auto.
  - by rewrite <- squares_variance.
  - by rewrite <- squares_variance.
  - change zero with (Fof_int 0) at 1. destruct (Fle sec (Fof_int 0)); [done|]. destruct rest; [done|]. by rewrite increase_pairs.
  - change zero with (Fof_int 0). by destruct (Fle sec (Fof_int 0)).
  - change zero with (Fof_int 0) at 1. by destruct (Fle sec (Fof_int 0)).
  - do 2 f_equal. symmetry. clear. revert v. induction rest as [|w rest IH]; intros v; [done|].
    change (last (v :: w :: rest)) with (last (w :: rest)). by rewrite IH, !last_default.
  - done.
Qed.

Lemma ordered_sort l : ordered l → SliceStable byTime l = l.
Proof.
  unfold ordered. induction l as [|a l IH]; [done|]. cbn [map]. intros Hs. inversion Hs as [|? ? Hs' Hall]; subst.
  change (insertStable byTime a (SliceStable byTime l) = a :: l). rewrite IH by done. destruct l as [|b l]; [done|]. cbn [insertStable].
  assert (byTime b a = false) as ->; [|done]. apply Z.ltb_ge. by inversion Hall.
Qed.

(** The samples of a series are in the order of time, or the function only counts them. *)
Definition in_order (functionName : string) (e : manualSeriesSamples) : Prop :=
  ordered (ms_Samples e) ∨ functionName = "count_over_time" ∨ functionName = "rate".

Lemma counts_only functionName quantile vs vs' sec : functionName = "count_over_time" ∨ functionName = "rate" → length vs = length vs' →
  rangeFunction functionName quantile vs sec = rangeFunction functionName quantile vs' sec.
Proof. intros Hf Hl. destruct vs, vs'; try done. unfold rangeFunction, rangeFunctions. rewrite Hl. by destruct Hf as [-> | ->]. Qed.

Lemma windowValue_logql functionName quantile window e t : (functionName = "quantile" → ranks_inside quantile) → in_order functionName e →
  in_int64 (t - window) → in_int64 t →
  windowValue functionName quantile window e t = Ok (logqlValue functionName quantile window e t).
Proof.
  intros Hq Ho Ha Hb. rewrite windowValue_reference, aggregate_rangeFunction, !wrap64_id by done. f_equal. unfold logqlValue, windowOf.
  destruct Ho as [Ho|Ho]; [by rewrite ordered_sort|]. apply counts_only; [done|]. rewrite !length_map. by rewrite SliceStable_perm.
Qed.



(** ** Two pointers *)

Lemma advanceRight_spec samples evaluation right fuel : ordered samples →
  (right ≤ length samples)%nat → (length samples ≤ fuel + right)%nat →
  (∀ i, (i < right)%nat → tsAt samples i ≤ evaluation) →
  let r := advanceRight fuel samples evaluation right in
  (right ≤ r ≤ length samples)%nat ∧ (∀ i, (i < r)%nat → tsAt samples i ≤ evaluation) ∧
  (∀ i, (r ≤ i)%nat → (i < length samples)%nat → evaluation < tsAt samples i).
Proof.
  intros Ho. revert right. induction fuel as [|fuel IH]; intros right Hr Hf Hlo; cbn [advanceRight].
  { split; [lia|]. split; [done|]. lia. }
  destruct ((right <? length samples)%nat && (tsAt samples right <=? evaluation)) eqn:E.
  - apply andb_true_iff in E as [E1%Nat.ltb_lt E2%Z.leb_le].
    destruct (IH (S right)) as (Hb & Hl & Hh); [lia|lia| |split; [lia|done]].
    intros i Hi. destruct (decide (i = right)) as [->|]; [done|]. apply Hlo. lia.
  - split; [lia|]. split; [done|]. intros i Hi Hlt. apply andb_false_iff in E as [E%Nat.ltb_ge|E%Z.leb_gt]; [lia|].
    pose proof (tsAt_mono samples right i Ho Hi Hlt). lia.
Qed.

Lemma advanceLeft_spec samples bound left right fuel : ordered samples →
  (left ≤ right ≤ length samples)%nat → (right ≤ fuel + left)%nat →
  (∀ i, (i < left)%nat → tsAt samples i ≤ bound) →
  let l := advanceLeft fuel samples bound left right in
  (left ≤ l ≤ right)%nat ∧ (∀ i, (i < l)%nat → tsAt samples i ≤ bound) ∧
  (∀ i, (l ≤ i < right)%nat → bound < tsAt samples i).
Proof.
  intros Ho. revert left. induction fuel as [|fuel IH]; intros left Hr Hf Hlo; cbn [advanceLeft].
  { split; [lia|]. split; [done|]. lia. }
  destruct ((left <? right)%nat && (tsAt samples left <=? bound)) eqn:E.
  - apply andb_true_iff in E as [E1%Nat.ltb_lt E2%Z.leb_le].
    destruct (IH (S left)) as (Hb & Hl & Hh); [lia|lia| |split; [lia|done]].
    intros i Hi. destruct (decide (i = left)) as [->|]; [done|]. apply Hlo. lia.
  - split; [lia|]. split; [done|]. intros i Hi. apply andb_false_iff in E as [E%Nat.ltb_ge|E%Z.leb_gt]; [lia|].
    pose proof (tsAt_mono samples left i Ho ltac:(lia) ltac:(lia)). lia.
Qed.

(** The slice between the pointers is the window. *)
Lemma slice_window samples bound evaluation l r :
  (∀ i, (i < l)%nat → tsAt samples i ≤ bound) → (∀ i, (l ≤ i < r)%nat → bound < tsAt samples i) →
  (∀ i, (i < r)%nat → tsAt samples i ≤ evaluation) →
  (∀ i, (r ≤ i)%nat → (i < length samples)%nat → evaluation < tsAt samples i) → (l ≤ r)%nat →
  take (r - l) (drop l samples) = filter (inWindow bound evaluation) samples.
Proof.
  intros Hl1 Hl2 Hr1 Hr2 Hlr.
  rewrite <- (filter_slice (inWindow bound evaluation) l (r - l) samples).
  - symmetry. apply filter_all, Forall_lookup. intros i x [E Hi]%lookup_take_Some. rewrite lookup_drop in E.
    pose proof (tsAt_lookup _ _ _ E) as Ht. unfold inWindow. rewrite <- Ht.
    split; [apply Hl2; lia|apply Hr1; lia].
  - intros i x E Hi. specialize (Hl1 i Hi). rewrite (tsAt_lookup _ _ _ E) in Hl1. unfold inWindow. lia.
  - intros i x E Hi. pose proof (lookup_lt_Some _ _ _ E) as Hlt. specialize (Hr2 i ltac:(lia) Hlt).
    rewrite (tsAt_lookup _ _ _ E) in Hr2. unfold inWindow. lia.
Qed.

Section Bare.
Context (spec : bareParserMetricCompatSpec) (samples : list rangeMetricSample) (stop step : Z).
Hypothesis samples_ordered : ordered samples.
Hypothesis not_quantile : bp_funcName spec ≠ "quantile_over_time".
Hypothesis window_positive : 0 ≤ bp_rangeWindow spec.
Hypothesis step_positive : 0 < step.
Hypothesis stop_range : in_int64 stop.

(** The value of a window; only a quantile indexes it. *)
Definition bareValue (w : list rangeMetricSample) : F :=
  match bareParserMetricWindowValue (bp_funcName spec) w spec with Ok v => v | Err _ => zero end.

Lemma bareValue_ok w : bareParserMetricWindowValue (bp_funcName spec) w spec = Ok (bareValue w).
Proof.
  unfold bareValue, bareParserMetricWindowValue. rewrite (proj2 (String.eqb_neq _ _) not_quantile).
  by repeat case_match.
Qed.

(** The point of a step: none when its window is empty. *)
Definition barePoint (t : Z) : option (F * string) :=
  match filter (inWindow (t - bp_rangeWindow spec) t) samples with
  | [] => None
  | w => Some (Fdiv (Fof_int t) (Fof_int Second), FormatFloat_f (bareValue w))
  end.

Definition pointCountOf (ts : list Z) : Z := Z.of_nat (length (omap barePoint ts)).

(** At most one point. *)
Definition pointList (o : option (F * string)) : list (F * string) := match o with Some p => [p] | None => [] end.

(** The outcome of emitting the points [new]. *)
Definition emitted (b : binaryExecutionBudget) (points new : list (F * string))
    (r : result (binaryExecutionBudget * list (F * string))) : Prop :=
  (Z.of_nat (length new) ≤ b_outputSamples b → r = Ok (spend (Z.of_nat (length new)) 0 b, points ++ new)) ∧
  (b_outputSamples b < Z.of_nat (length new) → is_ok r = false).

Lemma omap_cons_point t ts : omap barePoint (t :: ts) = pointList (barePoint t) ++ omap barePoint ts.
Proof. cbn [omap list_omap]. by destruct (barePoint t). Qed.

Lemma bareEmit_spec t l r b points : (l ≤ r ≤ length samples)%nat → 0 ≤ b_outputSamples b →
  take (r - l) (drop l samples) = filter (inWindow (t - bp_rangeWindow spec) t) samples →
  emitted b points (pointList (barePoint t)) (bareEmit spec samples t l r b points).
Proof.
  intros Hlr Hb Hslice. unfold emitted, bareEmit, barePoint. rewrite Hslice, bareValue_ok, sample_spent.
  assert (length (filter (inWindow (t - bp_rangeWindow spec) t) samples) = (r - l)%nat) as Hlen.
  { rewrite <- Hslice, length_take, length_drop. lia. }
  destruct (filter _ samples) as [|x w]; cbn [length] in Hlen.
  - rewrite (proj2 (Nat.ltb_ge l r)) by lia. cbn [pointList length app]. split; [|intros; exfalso; lia].
    intros _. by rewrite spend_0, app_nil_r.
  - rewrite (proj2 (Nat.ltb_lt l r)) by lia. cbn [pointList length app].
    destruct (Z.leb_spec (b_outputSamples b) 0); cbn [rbind]; split; intros Hc; try done; exfalso; lia.
Qed.

Lemma emitted_app b points new1 new2 r (k : binaryExecutionBudget → list (F * string) → result _) :
  emitted b points new1 r →
  (∀ b', 0 ≤ b_outputSamples b' → emitted b' (points ++ new1) new2 (k b' (points ++ new1))) → 0 ≤ b_outputSamples b →
  emitted b points (new1 ++ new2) (let! (b, points) := r in k b points).
Proof.
  intros [Hok Herr] Hk Hb. unfold emitted. rewrite length_app.
  destruct (Z.le_gt_cases (Z.of_nat (length new1)) (b_outputSamples b)) as [Hle|Hgt].
  - rewrite Hok by done. cbn [rbind].
    destruct (Hk (spend (Z.of_nat (length new1)) 0 b)) as [Hok2 Herr2]; cbn [b_outputSamples spend] in *; [lia|].
    split; intros Hc; [|apply Herr2; lia].
    rewrite Hok2, spend_spend, app_assoc by lia. by rewrite Nat2Z.inj_add.
  - split; [intros; exfalso; lia|]. intros _. specialize (Herr Hgt). by destruct r.
Qed.

(** One round: the pointers move to the window of [t], its point is emitted. *)
Lemma bareLoop_round fuel t left right b points :
  in_int64 (t - bp_rangeWindow spec) → t ≤ stop → in_int64 (stop - t) → (left ≤ right ≤ length samples)%nat →
  (∀ i, (i < left)%nat → tsAt samples i ≤ t - bp_rangeWindow spec) → (∀ i, (i < right)%nat → tsAt samples i ≤ t) →
  0 ≤ b_outputSamples b →
  ∃ l r, (l ≤ r ≤ length samples)%nat ∧
    (∀ i, (i < l)%nat → tsAt samples i ≤ t - bp_rangeWindow spec) ∧ (∀ i, (i < r)%nat → tsAt samples i ≤ t) ∧
    emitted b points (pointList (barePoint t)) (bareEmit spec samples t l r b points) ∧
    bareLoop (S fuel) spec samples t stop step left right b points =
    (let! (b, points) := bareEmit spec samples t l r b points in
     if stop - t <? step then Ok (b, points)
     else bareLoop fuel spec samples (wrap64 (t + step)) stop step l r b points).
Proof.
  intros Hw Hle Hd Hlr Hl Hr Hb.
  destruct (advanceRight_spec samples t right (length samples) samples_ordered) as (Hr1 & Hr2 & Hr3); [lia|lia|done|].
  set (r := advanceRight _ _ _ _) in *.
  destruct (advanceLeft_spec samples (t - bp_rangeWindow spec) left r (length samples) samples_ordered) as (Hl1 & Hl2 & Hl3);
    [lia|lia|done|].
  set (l := advanceLeft _ _ _ _ _) in *. exists l, r.
  pose proof (slice_window samples (t - bp_rangeWindow spec) t l r Hl2 Hl3 Hr2 Hr3 ltac:(lia)) as Hslice.
  split; [lia|]. split; [done|]. split; [done|]. split; [by apply bareEmit_spec; [lia|..]|].
  cbn [bareLoop]. rewrite (proj2 (Z.ltb_ge stop t)) by lia. cbv zeta. fold r.
  rewrite (wrap64_id (t - bp_rangeWindow spec)) by done. fold l. rewrite (wrap64_id (stop - t)) by done. done.
Qed.

Lemma bareLoop_spec n fuel t left right b points :
  in_int64 (t - bp_rangeWindow spec) → in_int64 t → t ≤ stop → in_int64 (stop - t) → (stop - t) / step = Z.of_nat n →
  (n < fuel)%nat → (left ≤ right ≤ length samples)%nat →
  (∀ i, (i < left)%nat → tsAt samples i ≤ t - bp_rangeWindow spec) → (∀ i, (i < right)%nat → tsAt samples i ≤ t) →
  0 ≤ b_outputSamples b →
  emitted b points (omap barePoint (grid t step (S n))) (bareLoop fuel spec samples t stop step left right b points).
Proof.
  revert fuel t left right b points.
  induction n as [|n IH]; intros fuel t left right b points Hw Ht Hle Hd Hn Hf Hlr Hl Hr Hb;
    (destruct fuel as [|fuel]; [lia|]);
    destruct (bareLoop_round fuel t left right b points Hw Hle Hd Hlr Hl Hr Hb) as (l & r & Hlr' & Hl' & Hr' & He & ->);
    rewrite grid_S, omap_cons_point; eapply emitted_app; try done; intros b' Hb'.
  - assert (stop - t < step) by (apply Z.div_small_iff in Hn as [?|?]; lia).
    rewrite (proj2 (Z.ltb_lt _ _)) by done. split; cbn [omap list_omap grid map seq length]; intros Hc; [by rewrite spend_0, app_nil_r|exfalso; cbn in Hc; lia].
  - assert (step ≤ stop - t) as Hstep by (destruct (Z.le_gt_cases step (stop - t)); [done|]; rewrite Z.div_small in Hn; lia).
    rewrite (proj2 (Z.ltb_ge _ _)) by done. unfold in_int64 in *.
    rewrite wrap64_id by (unfold in_int64; lia). apply IH; unfold in_int64; try done; try lia.
    + unfold MinInt64, MaxInt64 in *. lia.
    + replace (stop - t) with (stop - (t + step) + 1 * step) in Hn by lia. rewrite Z.div_add in Hn by lia.
      revert Hn. generalize ((stop - (t + step)) / step). lia.
    + intros i Hi. specialize (Hl' i Hi). lia.
    + intros i Hi. specialize (Hr' i Hi). lia.
Qed.

End Bare.

(** The evaluator with two moving pointers: for a series in time order, at every step
    of the range the slice between the pointers is the window (t-window, t], so that
    the points are those of the steps whose window is not empty, each with the value
    of its window; the budget pays for exactly these points, and when it cannot the
    evaluation fails instead of returning fewer. *)
Theorem two_pointers_follow_windows spec samples start stop step b :
  ordered samples → bp_funcName spec ≠ "quantile_over_time" → 0 ≤ bp_rangeWindow spec → 0 < step → start ≤ stop →
  in_int64 start → in_int64 stop → in_int64 (stop - start) → in_int64 (start - bp_rangeWindow spec) →
  0 ≤ b_outputSamples b →
  let n := Z.to_nat ((stop - start) / step) in
  let points := omap (barePoint spec samples) (grid start step (S n)) in
  let r := bareLoop (S (S n)) spec samples start stop step 0 0 b [] in
  (Z.of_nat (length points) ≤ b_outputSamples b → r = Ok (spend (Z.of_nat (length points)) 0 b, points)) ∧
  (b_outputSamples b < Z.of_nat (length points) → is_ok r = false).
Proof.
  intros Ho Hq Hw Hs Hle Hi1 Hi2 Hd Hw' Hb n points r.
  assert (0 ≤ (stop - start) / step) by (apply Z.div_pos; lia).
  apply (bareLoop_spec spec samples stop step); try done; try lia.
Qed.

(** ** Buckets *)

Lemma gcd_rem a b : 0 < a → 0 < b → Z.gcd b (Z.rem a b) = Z.gcd a b.
Proof. intros Ha Hb. rewrite Z.rem_mod_nonneg, Z.gcd_comm, Z.gcd_mod by lia. apply Z.gcd_comm. Qed.

Lemma gcdLoop_gcd n fuel bucket rest : 0 < bucket → 0 ≤ rest < 2 ^ Z.of_nat n → (2 * n + 1 ≤ fuel)%nat →
  gcdLoop fuel bucket rest = Z.gcd bucket rest.
Proof.
  revert fuel bucket rest. induction n as [|n IH]; intros fuel bucket rest Hb Hr Hf.
  - change (2 ^ Z.of_nat 0) with 1 in Hr. destruct fuel as [|fuel]; [lia|]. cbn [gcdLoop].
    rewrite (proj2 (Z.ltb_ge 0 rest)) by lia. replace rest with 0 by lia. rewrite Z.gcd_0_r. lia.
  - rewrite Nat2Z.inj_succ, Z.pow_succ_r in Hr by lia. do 2 (destruct fuel as [|fuel]; [lia|]). cbn [gcdLoop].
    destruct (Z.ltb_spec 0 rest); [|replace rest with 0 by lia; rewrite Z.gcd_0_r; lia].
    rewrite <- (gcd_rem bucket rest) by lia. pose proof (Z.rem_bound_pos_pos bucket rest ltac:(lia) ltac:(lia)) as Hr1.
    set (r1 := Z.rem bucket rest) in *. destruct (Z.ltb_spec 0 r1); [|replace r1 with 0 by lia; rewrite Z.gcd_0_r; lia].
    rewrite <- (gcd_rem rest r1) by lia. pose proof (Z.rem_bound_pos_pos rest r1 ltac:(lia) ltac:(lia)) as Hr2.
    pose proof (Z.quot_rem rest r1 ltac:(lia)) as Hq. assert (1 ≤ Z.quot rest r1) by (apply Z.quot_le_lower_bound; lia).
    apply IH; [lia| |lia]. split; [lia|]. nia.
Qed.

Lemma bucket_divides offsets start step window h : 0 < step → 0 ≤ window < 2 ^ 63 →
  slidingStatsBucket offsets start step window = Some h →
  h = Z.gcd step window ∧ Millisecond ≤ h ∧ (h | step) ∧ (h | window).
Proof.
  intros Hs Hw. unfold slidingStatsBucket. rewrite (gcdLoop_gcd 63) by lia.
  destruct (Z.ltb_spec (Z.gcd step window) Millisecond); [done|]. destruct (negb offsets && _); [done|].
  intros [= <-]. split; [done|]. split; [done|]. split; [apply Z.gcd_divide_l|apply Z.gcd_divide_r].
Qed.

(** Instants from 1970 to the year 2116, in nanoseconds. *)
Definition present (z : Z) : Prop := 0 ≤ z ≤ 2 ^ 62.

(** The labels of buckets around them, far enough from overflow. *)
Definition near (z : Z) : Prop := - 2 ^ 61 ≤ z ≤ 2 ^ 62 + 2 ^ 14.

Lemma near_wrap z : - 2 ^ 62 ≤ z < 2 ^ 63 → wrap64 z = z.
Proof. intros Hz. apply wrap64_id. unfold in_int64, MinInt64, MaxInt64. lia. Qed.

Lemma snap_floor ts start h : near ts → near start → 0 < h ≤ 2 ^ 60 →
  snapSlidingBucketNanos ts start h = wrap64 (start + wrap64 ((ts - start + h / 2) / h * h)).
Proof.
  intros Ht Hs Hh. unfold snapSlidingBucketNanos, near in *. cbv zeta.
  rewrite Z.quot_div_nonneg by lia. assert (0 ≤ h / 2 ≤ h) by (split; [apply Z.div_pos|apply Z.div_le_upper_bound]; lia).
  rewrite (wrap64_id (ts - start)) by (unfold in_int64, MinInt64, MaxInt64; lia).
  rewrite (wrap64_id (ts - start + h / 2)) by (unfold in_int64, MinInt64, MaxInt64; lia).
  set (o := ts - start + h / 2).
  enough ((if Z.rem o h <? 0 then Z.quot o h - 1 else Z.quot o h) = o / h) as -> by reflexivity.
  pose proof (Z.quot_rem o h ltac:(lia)) as Hq. pose proof (Z.div_mod o h ltac:(lia)) as Hd.
  pose proof (Z.mod_pos_bound o h ltac:(lia)) as Hm.
  pose proof (Z.rem_bound_abs o h ltac:(lia)) as Hr.
  destruct (Z.ltb_spec (Z.rem o h) 0) as [Hneg|Hpos]; nia.
Qed.

(** A stamp less than half a bucket from an edge of the grid snaps to the edge. *)
Lemma snap_edge start h k d : near start → Millisecond ≤ h ≤ 2 ^ 60 → near (start + k * h + d) → Z.abs d ≤ 4097 →
  near (start + k * h) → snapSlidingBucketNanos (start + k * h + d) start h = start + k * h.
Proof.
  intros Hs Hh Hn Hd Hk. unfold Millisecond in Hh. rewrite snap_floor; [|exact Hn|exact Hs|lia].
  assert ((start + k * h + d - start + h / 2) / h = k) as ->.
  { pose proof (Z.div_mod h 2 ltac:(lia)). pose proof (Z.mod_pos_bound h 2 ltac:(lia)).
    symmetry. apply (Z.div_unique _ _ _ (d + h / 2)); lia. }
  unfold near in *. rewrite (wrap64_id (k * h)) by (unfold in_int64, MinInt64, MaxInt64; lia).
  apply wrap64_id. unfold in_int64, MinInt64, MaxInt64. lia.
Qed.

(** float64 holds integers up to 2^53 exactly, and adds them exactly. *)
Class ExactIntegers : Prop := {
  add_exact a b : Z.abs a ≤ 2 ^ 53 → Z.abs b ≤ 2 ^ 53 → Z.abs (a + b) ≤ 2 ^ 53 → Fadd (Fof_int a) (Fof_int b) = Fof_int (a + b);
  sub_exact a b : Z.abs a ≤ 2 ^ 53 → Z.abs b ≤ 2 ^ 53 → Z.abs (a - b) ≤ 2 ^ 53 → Fsub (Fof_int a) (Fof_int b) = Fof_int (a - b);
  eq_exact a b : Z.abs a ≤ 2 ^ 53 → Z.abs b ≤ 2 ^ 53 → Feq (Fof_int a) (Fof_int b) = (a =? b)
}.

(** Bucket labels with their counts, as samples. *)
Definition counted (l : list (Z * Z)) : list rangeMetricSample := map (λ tc, mkRS tc.1 (Fof_int tc.2)) l.

Definition sumZ (l : list (Z * Z)) : Z := foldr (λ tc n, tc.2 + n) 0 l.

Lemma sumZ_app l1 l2 : sumZ (l1 ++ l2) = sumZ l1 + sumZ l2.
Proof. induction l1 as [|tc l1 IH]; cbn; [done|]. fold (sumZ l1) (sumZ (l1 ++ l2)). lia. Qed.

Lemma sumZ_nonneg l : Forall (λ tc, 0 ≤ tc.2) l → 0 ≤ sumZ l.
Proof. induction 1 as [|tc l Hx Hl IH]; cbn; [lia|]. fold (sumZ l). lia. Qed.

Lemma sumZ_take n l : Forall (λ tc, 0 ≤ tc.2) l → 0 ≤ sumZ (take n l) ≤ sumZ l.
Proof.
  intros Hl. rewrite <- (take_drop n l) at 3. rewrite sumZ_app.
  pose proof (sumZ_nonneg (take n l) ltac:(by apply Forall_take)).
  pose proof (sumZ_nonneg (drop n l) ltac:(by apply Forall_drop)). lia.
Qed.

Section Exact.
Context `{!ExactIntegers}.

Lemma prefix_tail l a i : Forall (λ tc, 0 ≤ tc.2) l → 0 ≤ a → a + sumZ l ≤ 2 ^ 53 → (i < length l)%nat →
  nth i (prefixLoop (Fof_int a) (counted l)) zero = Fof_int (a + sumZ (take (S i) l)).
Proof.
  intros Hl. revert a i. induction Hl as [|[t c] l Hc Hl IH]; intros a i Ha Hs Hi; cbn [length] in Hi; [lia|].
  cbn in Hc. cbn [counted map prefixLoop rs_value]. fold (counted l). cbn in Hs. fold (sumZ l) in Hs. pose proof (sumZ_nonneg l Hl).
  cbn [fst snd]. rewrite add_exact by lia. destruct i as [|i].
  - cbn [nth take sumZ foldr fst snd]. f_equal. destruct l; cbn [take foldr]; lia.
  - cbn [nth]. rewrite IH by lia. cbn [take sumZ foldr fst snd]. fold (sumZ (take (S i) l)). f_equal. lia.
Qed.

Lemma prefix_sum l i : Forall (λ tc, 0 ≤ tc.2) l → sumZ l ≤ 2 ^ 53 → (i ≤ length l)%nat →
  nth i (prefixSums (counted l)) zero = Fof_int (sumZ (take i l)).
Proof.
  intros Hl Hs Hi. unfold prefixSums. destruct i as [|i]; [done|]. cbn [nth].
  unfold zero at 2. rewrite (prefix_tail l 0); [done|done|lia|lia|lia].
Qed.

Lemma search_count (l : list (Z * Z)) z : StronglySorted Z.le (map fst l) →
  let n := Ring.Search (length (counted l)) (λ i, z <=? tsAt (counted l) i) in
  (n ≤ length l)%nat ∧ take n l = filter (λ tc, tc.1 < z) l.
Proof.
  intros Ho n. assert (length (counted l) = length l) as Hlen by apply length_map.
  assert (ordered (counted l)) as Ho' by (unfold ordered, counted; by rewrite map_map).
  destruct (Ring.Search_spec (length (counted l)) (λ i, z <=? tsAt (counted l) i)) as (Hle & Hlo & Hhi).
  { intros i j Hij Hj Hi. apply Z.leb_le in Hi. apply Z.leb_le. pose proof (tsAt_mono _ i j Ho' Hij Hj). lia. }
  fold n in Hle, Hlo, Hhi. split; [lia|].
  assert (∀ i tc, l !! i = Some tc → tsAt (counted l) i = tc.1) as Hts.
  { intros i tc E. apply (tsAt_lookup _ _ (mkRS tc.1 (Fof_int tc.2))). unfold counted. by rewrite list_lookup_fmap, E. }
  rewrite <- (filter_slice (λ tc : Z * Z, tc.1 < z) 0 n l).
  - rewrite drop_0. symmetry. apply filter_all, Forall_lookup. intros i tc [E Hi]%lookup_take_Some.
    specialize (Hlo i Hi). rewrite (Hts i tc E) in Hlo. lia.
  - intros i tc E Hi. lia.
  - intros i tc E Hi. pose proof (lookup_lt_Some _ _ _ E). specialize (Hhi i ltac:(lia) ltac:(lia)).
    rewrite (Hts i tc E) in Hhi. lia.
Qed.

Lemma sum_below l a b : a ≤ b →
  sumZ (filter (λ tc, tc.1 < b) l) - sumZ (filter (λ tc, tc.1 < a) l) = sumZ (filter (λ tc, a ≤ tc.1 < b) l).
Proof.
  intros Hab. induction l as [|[t c] l IH]; [done|]. rewrite !filter_cons. cbn [fst].
  destruct (decide (t < b)), (decide (t < a)), (decide (a ≤ t < b)); try lia; cbn [sumZ foldr fst snd];
    repeat match goal with |- context [foldr _ _ (filter ?P l)] => fold (sumZ (filter P l)) end; lia.
Qed.

(** The window of the buckets is the sum of their counts. *)
Lemma hitsWindow_counts l window t : Forall (λ tc, 0 ≤ tc.2) l → sumZ l ≤ 2 ^ 53 → StronglySorted Z.le (map fst l) →
  near t → 0 ≤ window ≤ 2 ^ 61 →
  hitsWindow (counted l) (prefixSums (counted l)) None window t =
  (Fof_int (sumZ (filter (λ tc, t - window ≤ tc.1 < t) l)),
   negb (sumZ (filter (λ tc, t - window ≤ tc.1 < t) l) =? 0)).
Proof.
  intros Hl Hs Ho Ht Hw. unfold hitsWindow. unfold near in Ht. rewrite near_wrap by lia. cbv zeta.
  destruct (search_count l (t - window) Ho) as [Hlo Elo]. destruct (search_count l t Ho) as [Hhi Ehi].
  rewrite !prefix_sum by done. rewrite Elo, Ehi.
  pose proof (sumZ_take (Ring.Search (length (counted l)) (λ i, t - window <=? tsAt (counted l) i)) l Hl) as B1.
  pose proof (sumZ_take (Ring.Search (length (counted l)) (λ i, t <=? tsAt (counted l) i)) l Hl) as B2.
  rewrite Elo in B1. rewrite Ehi in B2. pose proof (sum_below l (t - window) t ltac:(lia)) as Hsum.
  rewrite sub_exact by lia. rewrite Hsum. unfold zero. rewrite eq_exact by lia. done.
Qed.

End Exact.

(** *** Buckets of the backend

    The backend counts lines in buckets [T, T+h) whose edges are at k*h-offset. *)

Record bucketing (h offset : Z) (bucketOf : Z → Z) : Prop := mkBucketing {
  bucket_covers ts : bucketOf ts ≤ ts < bucketOf ts + h;
  bucket_edge ts : ∃ k, bucketOf ts = k * h - offset
}.

(** The response carries the edge as float64 seconds.  Up to 2^33 seconds a float64 is
    within 2^-20 s of the number it stands for, so the product with 1e9 is within 4096 ns
    of the edge; a millisecond bucket would still bear a hundred times that. *)
Definition readable (stampOf : Z → F) (T : Z) : Prop :=
  Z.abs (roundInt (Fmul (stampOf T) (Fof_int 1000000000)) - T) ≤ 4096.

Lemma offset_mod anchor h : present anchor → 0 < h → slidingOffset anchor h = - ((anchor + 1) mod h).
Proof.
  intros Ha Hh. unfold slidingOffset, present in *. rewrite near_wrap by lia. f_equal.
  pose proof (Z.rem_bound_abs (anchor + 1) h ltac:(lia)). rewrite Z.rem_mod_nonneg by lia.
  pose proof (Z.quot_rem (anchor + 1) h ltac:(lia)) as Hq.
  replace (Z.rem (anchor + 1) h + h) with (anchor + 1 + (1 - Z.quot (anchor + 1) h) * h) by lia.
  apply Z.mod_add. lia.
Qed.

(** The label of a line's bucket is one nanosecond before its edge, on the grid of the
    anchor, and the line is in (label, label + h]. *)
Lemma bucket_label anchor h bucketOf stampOf ts : present anchor → present ts → Millisecond ≤ h ≤ 2 ^ 60 →
  bucketing h (slidingOffset anchor h) bucketOf → readable stampOf (bucketOf ts) →
  snapSlidingBucketTimestamp (Some (stampOf (bucketOf ts))) anchor h = Some (bucketOf ts - 1) ∧
  ∃ j, bucketOf ts - 1 = anchor + j * h.
Proof.
  intros Ha Ht Hh [Hc He] Hr. unfold Millisecond, present, readable in *. destruct (He ts) as [k Ek]. specialize (Hc ts).
  rewrite offset_mod in Ek by (unfold present; lia). pose proof (Z.div_mod (anchor + 1) h ltac:(lia)) as Hd.
  assert (bucketOf ts = anchor + (k - (anchor + 1) / h) * h + 1) as Ej by lia.
  split; [|exists (k - (anchor + 1) / h); lia]. unfold snapSlidingBucketTimestamp.
  destruct (Z.leb_spec h 0); [lia|]. f_equal.
  set (r := roundInt _) in *. replace r with (anchor + (k - (anchor + 1) / h) * h + (r - bucketOf ts + 1)) by lia.
  rewrite snap_edge; unfold near, Millisecond; lia.
Qed.

Lemma length_filter_split {A} (P Q R : A → Prop) `{!∀ x, Decision (P x), !∀ x, Decision (Q x), !∀ x, Decision (R x)} l :
  (∀ x, P x ↔ Q x ∨ R x) → (∀ x, Q x → R x → False) →
  length (filter P l) = (length (filter Q l) + length (filter R l))%nat.
Proof.
  intros He Hd. induction l as [|x l IH]; [done|]. rewrite !filter_cons. specialize (He x). specialize (Hd x).
  destruct (decide (P x)), (decide (Q x)), (decide (R x)); cbn [length]; try lia; naive_solver.
Qed.

(** Counting the lines bucket by bucket counts every line once. *)
Lemma sum_of_buckets (bucketOf label : Z → Z) (lines edges : list Z) (Q : Z → Prop) `{!∀ z, Decision (Q z)} : NoDup edges →
  sumZ (filter (λ tc, Q tc.1) (map (λ T, (label T, Z.of_nat (length (filter (λ ts, bucketOf ts = T) lines)))) edges)) =
  Z.of_nat (length (filter (λ ts, bucketOf ts ∈ edges ∧ Q (label (bucketOf ts))) lines)).
Proof.
  induction 1 as [|T edges HT Hn IH].
  { cbn [map]. rewrite (filter_none _ lines); [done|]. apply Forall_forall. intros ts _ [Hin _]. by apply not_elem_of_nil in Hin. }
  cbn [map]. rewrite filter_cons. cbn [fst]. destruct (decide (Q (label T))) as [HQ|HQ].
  - cbn [sumZ foldr snd]. fold (sumZ (filter (λ tc, Q tc.1) (map (λ T, (label T, Z.of_nat (length (filter (λ ts, bucketOf ts = T) lines)))) edges))).
    rewrite IH. rewrite (length_filter_split (λ ts, bucketOf ts ∈ T :: edges ∧ Q (label (bucketOf ts))) (λ ts, bucketOf ts = T)
      (λ ts, bucketOf ts ∈ edges ∧ Q (label (bucketOf ts))) lines); [by rewrite Nat2Z.inj_add|..].
    + intros ts. rewrite elem_of_cons. naive_solver.
    + intros ts -> [? _]. done.
  - rewrite IH. do 2 f_equal. apply list_filter_iff. intros ts. rewrite elem_of_cons. naive_solver.
Qed.

Lemma strict_NoDup l : StronglySorted Z.lt l → NoDup l.
Proof.
  induction 1 as [|T l Hs IH Hall]; [constructor|]. apply NoDup_cons. split; [|done].
  intros Hin. rewrite Forall_forall in Hall. specialize (Hall T Hin). lia.
Qed.

Lemma labels_sorted (label : Z → Z) l : StronglySorted Z.lt l → (∀ T, T ∈ l → label T = T - 1) →
  StronglySorted Z.le (map label l).
Proof.
  induction 1 as [|T l Hs IH Hall]; intros Hl; [constructor|]. cbn [map]. constructor.
  - apply IH. intros T' HT'. apply Hl. by right.
  - apply Forall_map. rewrite Forall_forall in *. intros T' HT'. rewrite !Hl; [|by right|by left].
    specialize (Hall T' HT'). lia.
Qed.

(** The buckets the backend reports for some lines, as the proxy labels them. *)
Definition bucketCounts (anchor h : Z) (bucketOf : Z → Z) (stampOf : Z → F) (lines edges : list Z) : list (Z * Z) :=
  omap (λ T, (λ ts, (ts, Z.of_nat (length (filter (λ ts, bucketOf ts = T) lines)))) <$>
             snapSlidingBucketTimestamp (Some (stampOf T)) anchor h) edges.

(** The lines as raw samples. *)
Definition rawSamples (lines : list Z) : list rangeMetricSample := map (λ ts, mkRS ts (Fof_int 1)) lines.

Section Sliding.
Context `{!ExactIntegers} (start step window h : Z) (bucketOf : Z → Z) (stampOf : Z → F) (lines edges : list Z).
Hypothesis step_range : 0 < step ≤ 2 ^ 60.
Hypothesis window_range : 0 < window ≤ 2 ^ 60.
Hypothesis anchor_present : present (start - window).
Hypothesis bucket_size : slidingStatsBucket true start step window = Some h.
Hypothesis backend : bucketing h (slidingOffset (start - window) h) bucketOf.
Hypothesis edges_sorted : StronglySorted Z.lt edges.
Hypothesis edges_hit : ∀ T, T ∈ edges ↔ ∃ ts, ts ∈ lines ∧ bucketOf ts = T.
Hypothesis lines_present : Forall present lines.
Hypothesis stamps : Forall (readable stampOf) edges.
Hypothesis few_lines : Z.of_nat (length lines) ≤ 2 ^ 53.

Let counts := bucketCounts (start - window) h bucketOf stampOf lines edges.

Lemma bucket_range : Millisecond ≤ h ≤ 2 ^ 60 ∧ (h | step) ∧ (h | window).
Proof.
  destruct (bucket_divides true start step window h) as (-> & Hm & Hd1 & Hd2); [lia|lia|done|].
  split; [|done]. split; [done|]. pose proof (Z.divide_pos_le _ step ltac:(lia) Hd1). lia.
Qed.

Lemma edge_label T : T ∈ edges →
  snapSlidingBucketTimestamp (Some (stampOf T)) (start - window) h = Some (T - 1) ∧ ∃ j, T - 1 = start - window + j * h.
Proof.
  intros HT. pose proof (proj1 (Forall_forall _ _) stamps T HT) as Hr. apply edges_hit in HT as (ts & Hts & <-).
  apply bucket_label; [done| |apply bucket_range|done|done]. by eapply Forall_forall in lines_present.
Qed.

Lemma counts_labelled :
  counts = map (λ T, (T - 1, Z.of_nat (length (filter (λ ts, bucketOf ts = T) lines)))) edges.
Proof.
  unfold counts, bucketCounts.
  assert (∀ T, T ∈ edges → snapSlidingBucketTimestamp (Some (stampOf T)) (start - window) h = Some (T - 1)) as He
    by (intros; by apply edge_label).
  revert He. clear. induction edges as [|T l IH]; intros He; [done|]. cbn [omap list_omap map].
  rewrite He by (by left). cbn [fmap option_fmap option_map]. f_equal. apply IH. intros T' HT'. apply He. by right.
Qed.

Lemma counts_sorted : StronglySorted Z.le (map fst counts).
Proof. rewrite counts_labelled, map_map. cbn [fst]. by apply labels_sorted. Qed.

Lemma counts_nonneg : Forall (λ tc, 0 ≤ tc.2) counts.
Proof. rewrite counts_labelled. apply Forall_map, Forall_true. intros T. cbn. lia. Qed.

Lemma counts_of (Q : Z → Prop) `{!∀ z, Decision (Q z)} :
  sumZ (filter (λ tc, Q tc.1) counts) = Z.of_nat (length (filter (λ ts, Q (bucketOf ts - 1)) lines)).
Proof.
  rewrite counts_labelled, (sum_of_buckets bucketOf (λ T, T - 1)) by by apply strict_NoDup. f_equal.
  assert (∀ ts, ts ∈ lines → bucketOf ts ∈ edges) as Hl by (intros ts Hts; apply edges_hit; by exists ts).
  revert Hl. clear. induction lines as [|ts l IH]; intros Hl; [done|]. rewrite !filter_cons.
  specialize (IH ltac:(intros; apply Hl; by right)).
  destruct (decide (_ ∧ _)) as [[_ HQ]|HQ], (decide (Q _)); try tauto; cbn [length]; [by rewrite IH|].
  destruct HQ. split; [apply Hl; by left|done].
Qed.

Lemma counts_total : sumZ counts ≤ 2 ^ 53.
Proof.
  pose proof (counts_of (λ _, True)) as Hc. rewrite !filter_all in Hc by (by apply Forall_true). by rewrite Hc.
Qed.

(** A bucket is in the window of a step exactly when its lines are. *)
Lemma bucket_in_window k ts : let t := start + k * step in
  t - window ≤ bucketOf ts - 1 < t ↔ t - window < ts ≤ t.
Proof.
  intros t. destruct bucket_range as (Hh & [a Ha] & [c Hc]). unfold Millisecond in Hh.
  destruct backend as [Hcov Hedge]. specialize (Hcov ts). destruct (Hedge ts) as [k' Ek].
  assert (∃ j, bucketOf ts - 1 = start - window + j * h) as [j Ej].
  { rewrite offset_mod in Ek by (done || lia). pose proof (Z.div_mod (start - window + 1) h ltac:(lia)).
    exists (k' - (start - window + 1) / h). lia. }
  set (m := k * a). assert (t = start - window + (m + c) * h) as Et by (subst t m; rewrite Ha, Hc; ring).
  assert (t - window = start - window + m * h) as Ew by (rewrite Et, Hc; ring).
  rewrite Ew, Et, Ej. assert (start - window + j * h < ts ≤ start - window + (j + 1) * h) as Hts by lia.
  clear -Hts Hh. split; intros [Hlo Hhi].
  - assert (m * h ≤ j * h) by lia. assert (j < m + c) by (apply (Z.mul_lt_mono_pos_r h); lia).
    assert ((j + 1) * h ≤ (m + c) * h) by (apply Z.mul_le_mono_nonneg_r; lia). lia.
  - assert (m < j + 1) by (apply (Z.mul_lt_mono_pos_r h); lia). assert (j < m + c) by (apply (Z.mul_lt_mono_pos_r h); lia).
    assert (m * h ≤ j * h) by (apply Z.mul_le_mono_nonneg_r; lia).
    assert ((j + 1) * h ≤ (m + c) * h) by (apply Z.mul_le_mono_nonneg_r; lia). lia.
Qed.

Lemma raw_count k : let t := start + k * step in
  map rs_value (filter (inWindow (t - window) t) (rawSamples lines)) =
  replicate (length (filter (λ ts, t - window < ts ≤ t) lines)) (Fof_int 1).
Proof.
  intros t. unfold rawSamples. clear. induction lines as [|ts l IH]; [done|]. cbn [map]. rewrite !filter_cons.
  destruct (decide (inWindow (t - window) t (mkRS ts (Fof_int 1)))) as [Hd|Hd], (decide (t - window < ts ≤ t)) as [Hd'|Hd'];
    unfold inWindow in Hd; cbn [rs_ts] in Hd; try lia; cbn [map rs_value length replicate]; by rewrite ?IH.
Qed.

Lemma hits_equal_rows quantile k : let t := start + k * step in present t →
  let '(value, hasLines) := hitsWindow (counted counts) (prefixSums (counted counts)) None window t in
  aggregateManualWindow "count_over_time" quantile (rawSamples lines) (t - window) t (Seconds window) =
  Ok (if hasLines then Some value else None).
Proof.
  intros t Ht. unfold present in Ht.
  rewrite hitsWindow_counts; [|apply counts_nonneg|apply counts_total|apply counts_sorted|unfold near; lia|lia].
  pose proof (counts_of (λ z, t - window ≤ z < t)) as Hc. cbv beta in Hc. rewrite Hc.
  assert (length (filter (λ ts, t - window ≤ bucketOf ts - 1 < t) lines) = length (filter (λ ts, t - window < ts ≤ t) lines)) as ->.
  { f_equal. apply list_filter_iff. intros ts. apply bucket_in_window. }
  pose proof (raw_count k) as Hr. cbv zeta in Hr. fold t in Hr. rewrite aggregate_window, Hr.
  destruct (length (filter (λ ts, t - window < ts ≤ t) lines)) as [|n]; [done|].
  cbn [replicate aggregate]. unfold lenF. cbn [length]. rewrite length_replicate.
  rewrite (proj2 (Z.eqb_neq _ _)) by lia. done.
Qed.

End Sliding.

(** C9 The evaluator over buckets counts the same lines as the evaluator over raw rows.
    The backend honours the offset the proxy asks for, counts lines in [T, T+h) from
    edges at k*h-offset and reports an edge as float64 seconds that, times 1e9 and
    rounded, are within 4096 ns of it; the window starts, the lines and the step t are
    between 1970 and 2116, the step and the window at most 36 years, the lines at most
    2^53, and float64 adds such integers exactly.  Then, with the bucket size of
    slidingStatsBucket, the labels snapSlidingBucketTimestamp gives put every line into
    exactly the windows (t-window, t] it belongs to, for each step t = start + k*step;
    the difference of the prefix sums is the number of lines of the window, and a step
    without lines is absent on both sides. *)
Theorem buckets_count_the_rows `{!ExactIntegers} (start step window h : Z) (bucketOf : Z → Z) (stampOf : Z → F)
    (lines edges : list Z) quantile k :
  0 < step ≤ 2 ^ 60 → 0 < window ≤ 2 ^ 60 → present (start - window) →
  slidingStatsBucket true start step window = Some h →
  bucketing h (slidingOffset (start - window) h) bucketOf → Forall (readable stampOf) edges →
  StronglySorted Z.lt edges → (∀ T, T ∈ edges ↔ ∃ ts, ts ∈ lines ∧ bucketOf ts = T) →
  Forall present lines → Z.of_nat (length lines) ≤ 2 ^ 53 →
  let t := start + k * step in present t →
  let counts := bucketCounts (start - window) h bucketOf stampOf lines edges in
  let '(value, hasLines) := hitsWindow (counted counts) (prefixSums (counted counts)) None window t in
  aggregateManualWindow "count_over_time" quantile (rawSamples lines) (t - window) t (Seconds window) =
  Ok (if hasLines then Some value else None).
Proof. intros. by apply hits_equal_rows. Qed.

End Windows.

(** ** Witnesses *)

Module RangeDemo.
Import Filter.FilterDemo Pipe.PipeDemo Binary.BinaryDemo.
#[local] Existing Instance integers.
#[local] Existing Instance integer_order.
#[local] Existing Instance no_json.
#[local] Existing Instance integer_arithmetic.

#[local] Instance integer_roots : Roots := {|
  Fsqrt := Z.sqrt;
  floorInt z := z;
  ceilInt z := z;
  roundInt z := z;
  Finf positive := if positive then 10 ^ 400 else - 10 ^ 400
|}.

#[local] Instance integer_exact : ExactIntegers.
Proof. split; done. Qed.

Definition rows : list rangeMetricSample := [mkRS 5 1; mkRS 15 2; mkRS 16 4].
Definition oneSeries : gmap string manualSeriesSamples := {[ "k" := mkMSS (metric1 "a") rows None ]}.
Definition freshBudget : binaryExecutionBudget := binaryEvaluationContext None.


Lemma rows_ordered : ordered rows.
Proof. apply isSorted_ordered. reflexivity. Qed.

Lemma two_pointers_follow_windows_witness :
  let spec := mkBareSpec "sum_over_time" 10 0 in
  bareLoop 3 spec rows 10 20 10 0 0 freshBudget [] =
  Ok (spend 2 0 freshBudget, omap (barePoint spec rows) (grid 10 10 2)).
Proof.
  intros spec.
  refine (proj1 (two_pointers_follow_windows spec rows 10 20 10 freshBudget rows_ordered _ _ _ _ _ _ _ _ _) _);
    try (vm_compute; intuition discriminate); lia.
Defined.

(** 1 January 2026, 00:00:10. *)
Definition demoStart : Z := 1767225610000000000.

Definition second_buckets (ts : Z) : Z := (ts - 1) / 1000000000 * 1000000000 + 1.

Lemma second_bucketing : bucketing 1000000000 (slidingOffset (demoStart - 2000000000) 1000000000) second_buckets.
Proof.
  split; intros ts; unfold second_buckets.
  - pose proof (Z.div_mod (ts - 1) 1000000000 ltac:(lia)). pose proof (Z.mod_pos_bound (ts - 1) 1000000000 ltac:(lia)). lia.
  - exists ((ts - 1) / 1000000000). change (slidingOffset _ _) with (-1). lia.
Qed.

Definition demoLines : list Z := [demoStart - 500000000; demoStart; demoStart + 1].
Definition demoEdges : list Z := [demoStart - 1000000000 + 1; demoStart + 1].

(** The numbers of the demonstration are integers: the seconds lose the nanosecond of
    the shift. *)
Definition demoStamp (T : Z) : Z := T / 1000000000.

Definition demoCounts : list (Z * Z) :=
  bucketCounts (demoStart - 2000000000) 1000000000 second_buckets demoStamp demoLines demoEdges.

Lemma demo_edges T : T ∈ demoEdges ↔ ∃ ts, ts ∈ demoLines ∧ second_buckets ts = T.
Proof.
  unfold demoEdges, demoLines. rewrite !elem_of_cons. split.
  - intros [->|[->|HT]]; [exists demoStart|exists (demoStart + 1)|by apply not_elem_of_nil in HT]; split; try reflexivity;
      rewrite !elem_of_cons; tauto.
  - intros (ts & Hts & <-). rewrite !elem_of_cons in Hts.
    destruct Hts as [->|[->|[->|HT]]]; [left|left|right; left|by apply not_elem_of_nil in HT]; reflexivity.
Qed.

Lemma demo_hits :
  hitsWindow (counted demoCounts) (prefixSums (counted demoCounts)) None 2000000000 (demoStart + 0 * 1000000000) =
  (Fof_int 2, true).
Proof. vm_compute. reflexivity. Qed.

Lemma buckets_count_the_rows_witness :
  aggregateManualWindow "count_over_time" 0 (rawSamples demoLines) (demoStart + 0 * 1000000000 - 2000000000)
    (demoStart + 0 * 1000000000) (Seconds 2000000000) = Ok (Some (Fof_int 2)).
Proof.
  assert (let '(value, hasLines) := hitsWindow (counted demoCounts) (prefixSums (counted demoCounts)) None 2000000000
                                      (demoStart + 0 * 1000000000) in
    aggregateManualWindow "count_over_time" 0 (rawSamples demoLines) (demoStart + 0 * 1000000000 - 2000000000)
      (demoStart + 0 * 1000000000) (Seconds 2000000000) = Ok (if hasLines then Some value else None)) as Hx.
  { refine (buckets_count_the_rows demoStart 1000000000 2000000000 1000000000 second_buckets demoStamp demoLines demoEdges
              0 0 _ _ _ _ second_bucketing _ _ demo_edges _ _ _);
      [lia|lia|split; vm_compute; discriminate|vm_compute; reflexivity|repeat constructor; vm_compute; discriminate
      |repeat constructor|repeat constructor; vm_compute; discriminate
      |vm_compute; discriminate|split; vm_compute; discriminate]. }
  rewrite demo_hits in Hx. exact Hx.
Defined.

End RangeDemo.

End RangeMetrics.
