(* ===== verification/Budgets.v ===== *)
(** * Shared budgets
      (src/internal/proxy/manual_scan_budget.go, backend_budget.go,
      metric_eval_limits.go, limits_enforcement.go)

    Concurrent scans of raw rows draw the samples they keep from one pool, and
    concurrent requests draw backend permits from one channel.  [Scan.step] and
    [Permits.step] interleave the atomic operations of any number of goroutines: the
    load and the compare-and-swap of a reservation, the update of the scan's own
    fields after it, and the two halves of a release are separate steps. *)

From S2P Require Import Prelude GoText.

#[local] Open Scope Z_scope.

(** ** Sums over lists updated at one place *)

Section Sums.
Context {A : Type} (f : A → Z).

Definition sumOf (l : list A) : Z := foldr (λ x n, f x + n) 0 l.

Lemma sumOf_insert l i x y : l !! i = Some x → sumOf (<[i := y]> l) = sumOf l - f x + f y.
Proof.
  revert i. induction l as [|z l IH]; intros i Hi; [done|]. destruct i as [|i]; cbn in Hi.
  - injection Hi as ->. cbn. fold (sumOf l). lia.
  - change (<[S i := y]> (z :: l)) with (z :: <[i := y]> l). cbn [sumOf foldr].
    fold (sumOf l) (sumOf (<[i := y]> l)). rewrite (IH i Hi). lia.
Qed.

Lemma sumOf_app l1 l2 : sumOf (l1 ++ l2) = sumOf l1 + sumOf l2.
Proof. induction l1 as [|x l IH]; cbn; [done|]. fold (sumOf l) (sumOf (l ++ l2)). lia. Qed.

Lemma sumOf_nonneg l : Forall (λ x, 0 ≤ f x) l → 0 ≤ sumOf l.
Proof. induction 1 as [|x l Hx Hl IH]; cbn; [done|]. fold (sumOf l). lia. Qed.

End Sums.

Lemma sumOf_le {A} (f g : A → Z) l : Forall (λ x, f x ≤ g x) l → sumOf f l ≤ sumOf g l.
Proof. induction 1 as [|x l Hx Hl IH]; cbn; [done|]. fold (sumOf f l) (sumOf g l). lia. Qed.

(** ** The pool of retained samples *)

Module Scan.

Definition defaultManualScanSampleBudget : Z := 2000000.
Definition manualScanReservationChunk : Z := 4096.

(** What the goroutine of a scan is doing: nothing, about to load the pool, about to
    swap it, having taken a chunk, having given its slots back. *)
Inductive phase : Type :=
| Idle
| Want
| Loaded (left : Z)
| Won
| Returned.

(** [manualScanReservation]: one scan's draw on the pool. *)
Record manualScanReservation : Type := mkRes {
  held : Z;
  used : Z;
  doing : phase
}.

Record pool : Type := mkPool {
  remaining : Z;
  scans : list manualScanReservation
}.

Definition newManualScanBudget (total : Z) : pool :=
  mkPool (if total <=? 0 then defaultManualScanSampleBudget else total) [].

Definition newManualScanReservation (p : pool) : pool := mkPool (remaining p) (scans p ++ [mkRes 0 0 Idle]).

Definition setScan (i : nat) (r : manualScanReservation) (p : pool) : pool := mkPool (remaining p) (<[i := r]> (scans p)).
Definition addRemaining (d : Z) (p : pool) : pool := mkPool (remaining p + d) (scans p).

(** [account] up to the call of [reserve]. *)
Definition account (i : nat) (r : manualScanReservation) (p : pool) : pool :=
  if used r + 1 <=? held r then setScan i (mkRes (held r) (used r + 1) Idle) p
  else setScan i (mkRes (held r) (used r + 1) Want) p.

(** The load of [reserve]. *)
Definition reserveLoad (i : nat) (r : manualScanReservation) (p : pool) : pool :=
  setScan i (mkRes (held r) (used r) (Loaded (remaining p))) p.

(** The test and the compare-and-swap of [reserve]; on failure [account] takes its
    sample back. *)
Definition reserveSwap (i : nat) (r : manualScanReservation) (left : Z) (p : pool) : pool :=
  if left <? manualScanReservationChunk then setScan i (mkRes (held r) (used r - 1) Idle) p
  else if remaining p =? left
  then setScan i (mkRes (held r) (used r) Won) (addRemaining (- manualScanReservationChunk) p)
  else setScan i (mkRes (held r) (used r) Want) p.

(** The end of a successful [account]. *)
Definition accountWon (i : nat) (r : manualScanReservation) (p : pool) : pool :=
  setScan i (mkRes (held r + manualScanReservationChunk) (used r) Idle) p.

(** The two halves of [release]. *)
Definition releaseAdd (i : nat) (r : manualScanReservation) (p : pool) : pool :=
  setScan i (mkRes (held r) (used r) Returned) (if 0 <? held r then addRemaining (held r) p else p).
Definition releaseClear (i : nat) (p : pool) : pool := setScan i (mkRes 0 0 Idle) p.

Inductive step : pool → pool → Prop :=
| step_new p : step p (newManualScanReservation p)
| step_account i r p : scans p !! i = Some r → doing r = Idle → step p (account i r p)
| step_load i r p : scans p !! i = Some r → doing r = Want → step p (reserveLoad i r p)
| step_swap i r left p : scans p !! i = Some r → doing r = Loaded left → step p (reserveSwap i r left p)
| step_won i r p : scans p !! i = Some r → doing r = Won → step p (accountWon i r p)
| step_release i r p : scans p !! i = Some r → doing r = Idle → step p (releaseAdd i r p)
| step_clear i r p : scans p !! i = Some r → doing r = Returned → step p (releaseClear i p).

(** The slots a scan has out of the pool. *)
Definition out (r : manualScanReservation) : Z :=
  match doing r with
  | Won => held r + manualScanReservationChunk
  | Returned => 0
  | _ => held r
  end.

(** The samples a scan keeps: those [account] said yes to, until the release. *)
Definition kept (r : manualScanReservation) : Z :=
  match doing r with
  | Idle => used r
  | Returned => 0
  | _ => used r - 1
  end.

Record wf (r : manualScanReservation) : Prop := {
  wf_held : 0 ≤ held r;
  wf_used : 0 ≤ kept r ≤ held r;
  wf_full : match doing r with Idle | Returned => True | _ => used r = held r + 1 end
}.

Record inv (total : Z) (p : pool) : Prop := {
  inv_total : remaining p + sumOf out (scans p) = total;
  inv_remaining : 0 ≤ remaining p;
  inv_scans : Forall wf (scans p)
}.

Lemma out_mk h u d : out (mkRes h u d) =
  match d with Won => h + manualScanReservationChunk | Returned => 0 | _ => h end.
Proof. done. Qed.

Lemma out_as r d : doing r = d → out r = match d with Won => held r + manualScanReservationChunk | Returned => 0 | _ => held r end.
Proof. intros <-. done. Qed.

Ltac scan_wf Hw Hd := split; cbn [held used doing kept] in *; destruct Hw as [? ? ?];
  unfold kept in *; rewrite ?Hd in *; cbn in *; lia.

Lemma scan_step_inv total p p' : inv total p → step p p' → inv total p'.
Proof.
  intros [Ht Hr Hw] Hs.
  assert (∀ i r, scans p !! i = Some r → wf r) as Hwf by (intros i r E; by eapply Forall_lookup_1 in Hw).
  assert (∀ i r r', scans p !! i = Some r → wf r' → Forall wf (<[i := r']> (scans p))) as Hins
    by (intros i r r' E Hr'; by apply Forall_insert).
  destruct Hs as [p|i r p E Hd|i r p E Hd|i r left p E Hd|i r p E Hd|i r p E Hd|i r p E Hd].
  - split; cbn [newManualScanReservation remaining scans]; [rewrite sumOf_app; cbn; lia|done|]. apply Forall_app. split; [done|]. repeat constructor; cbn; lia.
  - specialize (Hwf i r E). unfold account. destruct (Z.leb_spec (used r + 1) (held r)); split;
      cbn [remaining scans setScan]; try done; rewrite ?(sumOf_insert out _ _ _ _ E);
      try (eapply Hins; [done|scan_wf Hwf Hd]); rewrite !out_mk; rewrite (out_as _ _ Hd); lia.
  - specialize (Hwf i r E). split; cbn [reserveLoad remaining scans setScan]; try done;
      rewrite ?(sumOf_insert out _ _ _ _ E);
      try (eapply Hins; [done|scan_wf Hwf Hd]); rewrite !out_mk; rewrite (out_as _ _ Hd); lia.
  - specialize (Hwf i r E). unfold reserveSwap. destruct (Z.ltb_spec left manualScanReservationChunk);
      [|destruct (Z.eqb_spec (remaining p) left)]; split;
      cbn [remaining scans setScan addRemaining]; rewrite ?(sumOf_insert out _ _ _ _ E);
      try (eapply Hins; [done|scan_wf Hwf Hd]); rewrite ?out_mk, ?(out_as _ _ Hd); lia.
  - specialize (Hwf i r E). split; cbn [accountWon remaining scans setScan]; try done;
      rewrite ?(sumOf_insert out _ _ _ _ E);
      try (eapply Hins; [done|unfold manualScanReservationChunk; scan_wf Hwf Hd]); rewrite !out_mk; rewrite (out_as _ _ Hd); lia.
  - specialize (Hwf i r E). unfold releaseAdd. destruct (Z.ltb_spec 0 (held r)); split;
      cbn [remaining scans setScan addRemaining]; rewrite ?(sumOf_insert out _ _ _ _ E);
      try (eapply Hins; [done|scan_wf Hwf Hd]); rewrite ?out_mk, ?(out_as _ _ Hd); destruct Hwf; lia.
  - specialize (Hwf i r E). split; cbn [releaseClear remaining scans setScan]; try done;
      rewrite ?(sumOf_insert out _ _ _ _ E);
      try (eapply Hins; [done|repeat constructor; cbn; lia]); rewrite !out_mk; rewrite (out_as _ _ Hd); lia.
Qed.

Lemma pool_reachable total p : rtc step (newManualScanBudget total) p → inv (remaining (newManualScanBudget total)) p.
Proof.
  intros Hr. remember (newManualScanBudget total) as p0 eqn:E.
  assert (inv (remaining p0) p0) as H0.
  { subst p0. split; cbn; [lia| |done]. destruct (Z.leb_spec total 0); unfold defaultManualScanSampleBudget; lia. }
  clear E. revert H0. generalize (remaining p0). intros n. induction Hr as [|x y z Hxy Hyz IH]; intros H0; [done|].
  apply IH. by eapply scan_step_inv.
Qed.

(** C31 However the scans interleave, the samples they keep never exceed the pool: in
    every reachable state the pool has given out no more than it has, every scan keeps
    at most the slots it holds, the kept samples of all scans together are at most
    the pool's size, and when every scan has released, the pool is whole again. *)
Theorem scan_samples_within_pool total p : rtc step (newManualScanBudget total) p →
  0 ≤ remaining p ∧ sumOf kept (scans p) ≤ remaining (newManualScanBudget total) - remaining p ∧
  (Forall (λ r, doing r = Returned ∨ held r = 0 ∧ doing r = Idle) (scans p) →
     remaining p = remaining (newManualScanBudget total)).
Proof.
  intros Hr. destruct (pool_reachable total p Hr) as [Ht Hp Hw]. split; [done|].
  assert (sumOf kept (scans p) ≤ sumOf out (scans p)) as Hk.
  { apply sumOf_le. eapply Forall_impl; [exact Hw|]. intros r [Hh Hu Hf]. unfold out, kept, manualScanReservationChunk in *.
    destruct (doing r); lia. }
  split; [lia|]. intros Hall. enough (sumOf out (scans p) = 0) by lia.
  clear - Hall. induction Hall as [|r l Hr Hl IH]; [done|]. cbn [sumOf foldr]. fold (sumOf out l). rewrite IH.
  unfold out. destruct Hr as [->|[-> ->]]; lia.
Qed.

End Scan.

(** ** Backend permits *)

Module Permits.

(** One backend operation: waiting for a permit, given up, sent, failed, or with a body
    whose [sync.Once] has fired or not. *)
Inductive call : Type :=
| Waiting
| Canceled
| InFlight
| Failed
| Body (released : bool).

(** The channel of the budget: its capacity and the permits in it. *)
Record budget : Type := mkBudget {
  limit : Z;
  taken : Z;
  calls : list call
}.

(** [newBackendBudget]: no channel, no limit. *)
Definition newBackendBudget (n : Z) : option budget :=
  if n <=? 0 then None else Some (mkBudget n 0 []).

Definition setCall (i : nat) (c : call) (d : Z) (b : budget) : budget :=
  mkBudget (limit b) (taken b + d) (<[i := c]> (calls b)).

(** The closure [release]: only its first call receives from the channel. *)
Definition release (i : nat) (released : bool) (b : budget) : budget :=
  setCall i (Body true) (if released then 0 else -1) b.

(** [doBackendRequest] and the body it returns; a read that ends or fails and a close
    both call [release]. *)
Inductive step : budget → budget → Prop :=
| step_call b : step b (mkBudget (limit b) (taken b) (calls b ++ [Waiting]))
| step_acquire i b : calls b !! i = Some Waiting → taken b < limit b → step b (setCall i InFlight 1 b)
| step_canceled i b : calls b !! i = Some Waiting → step b (setCall i Canceled 0 b)
| step_error i b : calls b !! i = Some InFlight → step b (setCall i Failed (-1) b)
| step_response i b : calls b !! i = Some InFlight → step b (setCall i (Body false) 0 b)
| step_read_error i r b : calls b !! i = Some (Body r) → step b (release i r b)
| step_close i r b : calls b !! i = Some (Body r) → step b (release i r b).

(** The permit of an operation. *)
Definition permit (c : call) : Z :=
  match c with InFlight | Body false => 1 | _ => 0 end.

Definition inv (b : budget) : Prop := taken b = sumOf permit (calls b) ∧ taken b ≤ limit b.

Lemma permit_step_inv b b' : inv b → step b b' → inv b'.
Proof.
  intros [Ht Hl] Hs. destruct Hs as [b|i b E Hlt|i b E|i b E|i b E|i r b E|i r b E]; unfold inv, release;
    cbn [taken calls limit setCall].
  - rewrite sumOf_app. cbn. lia.
  - rewrite (sumOf_insert permit _ _ _ _ E). cbn. lia.
  - rewrite (sumOf_insert permit _ _ _ _ E). cbn. lia.
  - rewrite (sumOf_insert permit _ _ _ _ E). cbn. lia.
  - rewrite (sumOf_insert permit _ _ _ _ E). cbn. lia.
  - rewrite (sumOf_insert permit _ _ _ _ E). destruct r; cbn; lia.
  - rewrite (sumOf_insert permit _ _ _ _ E). destruct r; cbn; lia.
Qed.

Lemma permits_nonneg l : 0 ≤ sumOf permit l.
Proof. apply sumOf_nonneg, Forall_true. intros []; cbn; try lia. by destruct released. Qed.

(** At most [limit] backend operations hold a permit at any time, headers and body
    included, however the goroutines interleave; a body that fails, ends or is closed
    gives its permit back exactly once, whichever comes first and however often, and
    when no operation is in progress every permit is back. *)
Theorem permits_returned_once n b0 b : newBackendBudget n = Some b0 → rtc step b0 b →
  taken b = sumOf permit (calls b) ∧ 0 ≤ taken b ≤ n ∧ (Forall (λ c, permit c = 0) (calls b) → taken b = 0).
Proof.
  unfold newBackendBudget. destruct (Z.leb_spec n 0); [done|]. intros [= <-] Hr.
  assert (inv b ∧ limit b = n) as [[Ht Hl] <-].
  { remember (mkBudget n 0 []) as b0 eqn:E. assert (inv b0 ∧ limit b0 = n) as H0 by (subst b0; split; [split; cbn; lia|done]).
    clear E. induction Hr as [|x y z Hxy Hyz IH]; [done|]. apply IH. destruct H0 as [Hi <-].
    split; [by eapply permit_step_inv|]. by destruct Hxy. }
  pose proof (permits_nonneg (calls b)). split; [done|]. split; [lia|]. intros Hall. rewrite Ht.
  clear - Hall. induction Hall as [|c l Hc Hl IH]; [done|]. cbn [sumOf foldr]. fold (sumOf permit l). lia.
Qed.

End Permits.

(** ** Limits of a query *)

Module Limits.

Definition lokiMaxPointsPerSeries : Z := 11000.

(** [metricEvalPointCount]; the instants are not bounded, their difference saturates. *)
Definition metricEvalPointCount (start stop step : Z) : result Z :=
  if (step <=? 0) || (stop <? start) then Err "invalid metric evaluation bounds or step"
  else
    let distance := time_sub stop start in
    if (distance =? MaxInt64) || (lokiMaxPointsPerSeries <? Z.quot distance step)
    then Err "metric evaluation exceeds its point or sample limit"
    else Ok (Z.quot distance step + 1).

(** [checkQueryRangeLength] for a resolved limit: the length and the limit its message
    names when the query is refused. *)
Definition checkQueryRangeLength (maxLen startNs endNs : Z) : option (Z * Z) :=
  if maxLen =? 0 then None
  else
    let rangeNs := wrap64 (endNs - startNs) in
    if rangeNs <=? 0 then None
    else if maxLen <? rangeNs then Some (rangeNs, maxLen)
    else None.

(** The number of evaluation points is exact: a window is accepted exactly when its
    bounds are in order, its length fits a duration and it has at most 11001 points,
    and then the count is the number of instants start, start+step, ... up to the end. *)
Theorem point_count_exact start stop step n : metricEvalPointCount start stop step = Ok n ↔
  0 < step ∧ start ≤ stop ∧ stop - start < MaxInt64 ∧ (stop - start) / step ≤ lokiMaxPointsPerSeries ∧
  n = (stop - start) / step + 1.
Proof.
  unfold metricEvalPointCount. destruct (Z.leb_spec step 0); cbn [orb]; [split; [done|lia]|].
  destruct (Z.ltb_spec stop start); [split; [done|lia]|]. cbv zeta.
  assert (time_sub stop start = Z.min MaxInt64 (stop - start)) as -> by (unfold time_sub, MinInt64, MaxInt64; lia).
  destruct (Z.eqb_spec (Z.min MaxInt64 (stop - start)) MaxInt64); cbn [orb].
  { split; [done|lia]. }
  rewrite Z.min_r by lia. rewrite Z.quot_div_nonneg by lia.
  destruct (Z.ltb_spec lokiMaxPointsPerSeries ((stop - start) / step)); split; try done; try lia.
  - intros [= <-]. lia.
  - intros (_ & _ & _ & _ & ->). done.
Qed.

(** The length check is exact as long as the range does not overflow... *)
Lemma range_length_checked maxLen startNs endNs : maxLen ≠ 0 → 0 < maxLen → startNs ≤ endNs → in_int64 (endNs - startNs) →
  is_Some (checkQueryRangeLength maxLen startNs endNs) ↔ maxLen < endNs - startNs.
Proof.
  intros H0 Hm Hle Hi. unfold checkQueryRangeLength. rewrite (proj2 (Z.eqb_neq _ _)), wrap64_id by done. cbv zeta.
  destruct (Z.leb_spec (endNs - startNs) 0); [split; [by intros []|lia]|].
  destruct (Z.ltb_spec maxLen (endNs - startNs)); split; try done; try lia; by intros [].
Qed.

(** ... and a longer one passes every limit. *)
Lemma overflowing_range_passes maxLen : checkQueryRangeLength maxLen (- 5 * 10 ^ 18) (5 * 10 ^ 18) = None.
Proof. unfold checkQueryRangeLength. by destruct (maxLen =? 0). Qed.

End Limits.

(** ** Witnesses *)

Module BudgetDemo.

(** One scan that took a chunk and kept a sample. *)
Definition scanned : Scan.pool := Scan.mkPool (10000 - 4096) [Scan.mkRes 4096 1 Scan.Idle].

Lemma scanned_reachable : rtc Scan.step (Scan.newManualScanBudget 10000) scanned.
Proof.
  eapply rtc_l; [apply Scan.step_new|].
  eapply rtc_l; [by apply (Scan.step_account 0 (Scan.mkRes 0 0 Scan.Idle))|].
  eapply rtc_l; [by apply (Scan.step_load 0 (Scan.mkRes 0 1 Scan.Want))|].
  eapply rtc_l; [by apply (Scan.step_swap 0 (Scan.mkRes 0 1 (Scan.Loaded 10000)) 10000)|].
  eapply rtc_l; [by apply (Scan.step_won 0 (Scan.mkRes 0 1 Scan.Won))|]. apply rtc_refl.
Qed.

Lemma scan_samples_within_pool_witness : 0 ≤ Scan.remaining scanned ∧ sumOf Scan.kept (Scan.scans scanned) ≤ 10000 - 5904.
Proof.
  destruct (Scan.scan_samples_within_pool 10000 scanned scanned_reachable) as (H1 & H2 & _).
  split; [exact H1|exact H2].
Defined.

(** A response whose body failed and was then closed. *)
Definition closed : Permits.budget := Permits.mkBudget 3 0 [Permits.Body true].

Lemma closed_reachable : rtc Permits.step (Permits.mkBudget 3 0 []) closed.
Proof.
  eapply rtc_l; [apply Permits.step_call|].
  eapply rtc_l; [by apply (Permits.step_acquire 0)|].
  eapply rtc_l; [by apply (Permits.step_response 0)|].
  eapply rtc_l; [by apply (Permits.step_read_error 0 false)|].
  eapply rtc_l; [by apply (Permits.step_close 0 true)|]. apply rtc_refl.
Qed.

Lemma permits_returned_once_witness : Permits.taken closed = 0.
Proof.
  destruct (Permits.permits_returned_once 3 _ closed eq_refl closed_reachable) as (_ & _ & H0).
  apply H0. repeat constructor.
Defined.

End BudgetDemo.
