(* ===== verification/SampleOps.v ===== *)
(** * Binary operations on single samples
      (src/internal/proxy/comparison_semantics.go, and the sample functions of
      metric_binary.go)

    Two evaluators of binary operations live side by side: [binarySampleValue] on
    operators and a [bool] flag, and [evalBinarySample] on operator texts that carry
    the flag as a suffix.  Here the second is modelled and compared with the first. *)

From S2P Require Import Prelude GoText Utf8 LogqlAst LogqlFilter LogqlPipeline BinaryMatch.

#[local] Open Scope Z_scope.

Module SampleOps.
Import Text Binary.

Definition boolModifierSuffix : string := " bool".

Definition withBoolModifier (op : string) (returnBool : bool) : string :=
  if negb returnBool || HasSuffix op boolModifierSuffix then op else op +:+ boolModifierSuffix.

Definition splitBoolModifier (op : string) : string * bool :=
  if HasSuffix op boolModifierSuffix then (TrimSpace (TrimSuffix op boolModifierSuffix), true) else (op, false).

Definition isComparisonOp (op : string) : bool := existsb (String.eqb op) ["=="; "!="; ">"; "<"; ">="; "<="].

Section Samples.
Context `{Arithmetic}.

Definition compareValues (a b : F) (op : string) : bool :=
  if String.eqb op "==" then Feq a b
  else if String.eqb op "!=" then negb (Feq a b)
  else if String.eqb op ">" then Flt b a
  else if String.eqb op "<" then Flt a b
  else if String.eqb op ">=" then Fle b a
  else if String.eqb op "<=" then Fle a b
  else false.

Definition score (m : bool) : F := Fof_int (if m then 1 else 0).

Definition applyOp (a b : F) (op : string) : F :=
  if String.eqb op "/" then if Feq b (Fof_int 0) then Fof_int 0 else Fdiv a b
  else if String.eqb op "*" then Fmul a b
  else if String.eqb op "+" then Fadd a b
  else if String.eqb op "-" then Fsub a b
  else if String.eqb op "%" then if Feq b (Fof_int 0) then Fof_int 0 else Fmod a b
  else if String.eqb op "^" then Fpow a b
  else if isComparisonOp op then score (compareValues a b op)
  else a.

Definition evalBinarySample (a b : F) (op : string) : F * bool :=
  let '(bare, returnBool) := splitBoolModifier op in
  if isComparisonOp bare then
    let m := compareValues a b bare in
    if returnBool then (score m, true) else (a, m)
  else (applyOp a b bare, true).

(** The closure [eval] of [applyScalarToSample]; [reverse] puts the scalar on the left. *)
Definition evalScalarSample (val scalar : F) (op : string) (reverse : bool) : F * bool :=
  let '(bare, returnBool) := splitBoolModifier op in
  if isComparisonOp bare then
    let '(a, b) := if reverse then (scalar, val) else (val, scalar) in
    let m := compareValues a b bare in
    if returnBool then (score m, true) else (val, m)
  else if reverse then (applyOp scalar val bare, true)
  else (applyOp val scalar bare, true).

(** ** Comparison of the two evaluators *)

(** LogQL's arithmetic and comparison operators. *)
Definition operators : list string := ["+"; "-"; "*"; "/"; "%"; "^"; "=="; "!="; ">"; "<"; ">="; "<="].

Definition divides (op : string) : bool := String.eqb op "/" || String.eqb op "%".

Lemma modifier_roundtrip op returnBool : op ∈ operators → splitBoolModifier (withBoolModifier op returnBool) = (op, returnBool).
Proof.
  intros Hop. unfold operators in Hop. rewrite !elem_of_cons, elem_of_nil in Hop.
  destruct returnBool; repeat destruct Hop as [->|Hop]; done.
Qed.

(** The cases of an operator: it compares, or it computes and both evaluators agree
    but for a divisor of zero. *)
Lemma operator_cases op : op ∈ operators →
  (isComparisonOp op = true ∧ divides op = false ∧ ∀ a b returnBool, binarySampleValue a b op returnBool =
     if returnBool then (score (compareValues a b op), true) else (a, compareValues a b op)) ∨
  (isComparisonOp op = false ∧ ∀ a b returnBool,
     ((divides op = true → Feq b (Fof_int 0) = false) → binarySampleValue a b op returnBool = (applyOp a b op, true)) ∧
     (divides op = true → Feq b (Fof_int 0) = true → applyOp a b op = Fof_int 0)).
Proof.
  intros Hop. unfold operators in Hop. rewrite !elem_of_cons, elem_of_nil in Hop.
  repeat destruct Hop as [->|Hop]; [..|done];
    first [left; split; [reflexivity|]; split; [reflexivity|]; intros a b []; reflexivity
          |right; split; [reflexivity|]; intros a b returnBool;
           cbv [binarySampleValue applyOp divides String.eqb Ascii.eqb Bool.eqb orb];
           split; [intros Hz; try (rewrite (Hz eq_refl)); reflexivity|intros Hd Hz; first [discriminate|by rewrite Hz]]].
Qed.

(** The two evaluators of binary operations agree: for every arithmetic and
    comparison operator of LogQL, with or without the bool modifier carried in the
    operator's text, they give the same value and filter out the same samples; the
    only difference is a division or modulo by zero, where this one answers zero and
    the other the float64 quotient. *)
Theorem evaluators_agree a b op returnBool : op ∈ operators →
  ((divides op = true → Feq b (Fof_int 0) = false) →
     evalBinarySample a b (withBoolModifier op returnBool) = binarySampleValue a b op returnBool) ∧
  (divides op = true → Feq b (Fof_int 0) = true →
     evalBinarySample a b (withBoolModifier op returnBool) = (Fof_int 0, true)).
Proof.
  intros Hop. unfold evalBinarySample. rewrite modifier_roundtrip by done.
  destruct (operator_cases op Hop) as [(-> & Hd & Hv)|[-> Hv]].
  - split; [intros _; by rewrite Hv; destruct returnBool|congruence].
  - split; [intros Hz; symmetry; by apply Hv|intros Hd Hz; by rewrite (proj2 (Hv a b returnBool) Hd Hz)].
Qed.

End Samples.

(** ** Witnesses *)

Module SampleDemo.
Import Filter.FilterDemo Binary.BinaryDemo.
#[local] Existing Instance integers.
#[local] Existing Instance integer_order.
#[local] Existing Instance integer_arithmetic.

Lemma evaluators_agree_witness :
  evalBinarySample (Fof_int 6) (Fof_int 3) (withBoolModifier "/" true) =
    binarySampleValue (Fof_int 6) (Fof_int 3) "/" true ∧
  evalBinarySample (Fof_int 6) (Fof_int 0) (withBoolModifier "/" true) = (Fof_int 0, true).
Proof.
  assert ("/" ∈ operators) as Hop by (unfold operators; rewrite !elem_of_cons; tauto).
  split.
  - refine (proj1 (evaluators_agree (Fof_int 6) (Fof_int 3) "/" true Hop) _). intros _. reflexivity.
  - refine (proj2 (evaluators_agree (Fof_int 6) (Fof_int 0) "/" true Hop) _ _); reflexivity.
Defined.

End SampleDemo.

End SampleOps.
