(* ===== verification/LogsqlAst.v ===== *)
(** * The LogsQL syntax tree and its printer (src/internal/logsql/ast.go, builder.go, capabilities.go)

    LogsQL is the query language of the backend.  The Go interfaces [FilterExpr],
    [StatsFunc] and [Pipe] are inductive types with one constructor per implementing
    struct; every [String] method is a function.  The interfaces' marker methods have
    no content.  [Quantile] prints its float64 with [%g], behind [Floats]. *)

From S2P Require Import Prelude GoText Utf8 LogqlAst.

#[local] Open Scope Z_scope.

Module LAst.
Import Text Utf8.

(** ** Quoting *)

(** [strings.ReplaceAll] of a backslash by two and then of a quote by an escaped
    quote: one pass over the bytes, since the second replacement adds no quote the
    first could see and the first no quote at all. *)
Fixpoint escapeLogsQL (s : string) : string :=
  match s with
  | "" => ""
  | String a s =>
      if Ascii.eqb a bslash || Ascii.eqb a dquote then String bslash (String a (escapeLogsQL s))
      else String a (escapeLogsQL s)
  end.

Definition quoted (s : string) : string := String dquote (s +:+ String dquote "").

Definition quoteLogsQL (s : string) : string := quoted (escapeLogsQL s).

Definition QuoteValue (s : string) : string := quoteLogsQL s.

(** ** Filters *)

Inductive FieldOp : Type :=
| FieldOpExact | FieldOpRegexp | FieldOpPrefix | FieldOpSubstring | FieldOpEmpty | FieldOpAny
| FieldOpGT | FieldOpGTE | FieldOpLT | FieldOpLTE | FieldOpRange | FieldOpIn
| FieldOpIPv4Range | FieldOpIPv6Range | FieldOpExactPrefix | FieldOpEqField | FieldOpLeField
| FieldOpStringRange | FieldOpValueType | FieldOpJSONArrayContainsAny
| FieldOpContainsCommonCase | FieldOpEqualsCommonCase.

Record LabelMatcher : Type := mkLabelMatcher {
  lm_Name : string;
  lm_Op : string;
  lm_Value : string
}.

Inductive FilterExpr : Type :=
| Word (Value : string)
| Phrase (Value : string)
| Prefix (Value : string)
| Substring (Value : string)
| Exact (Value : string)
| Regexp (Pattern : string)
| Sequence (Parts : list string)
| CaseInsensitive (Value : string)
| Wildcard
| FieldFilter (Field : string) (Op : FieldOp) (Value : string) (Negate : bool)
| StreamFilter (Matchers : list LabelMatcher)
| TimeFilter (Range : string)
| AndExpr (Left Right : FilterExpr)
| OrExpr (Left Right : FilterExpr)
| NotExpr (Expr : FilterExpr)
| AnyCasePhrase (Value : string)
| AnyCasePrefix (Value : string)
| ExactPrefix (Value : string)
| ContainsAll (Parts : list string)
| ContainsAny (Parts : list string)
| DayRange (Bracket Offset : string)
| WeekRange (Bracket Offset : string)
| LenRange (Field Min Max : string)
| PatternMatch (Field Pattern : string)
| DeferredExpr (Raw : string).

#[export] Instance FieldOp_dec : EqDecision FieldOp.
Proof. solve_decision. Defined.

(** ** Stats functions and pipes *)

Record SortField : Type := mkSortField {
  sf_Field : string;
  sf_Desc : bool
}.

Section Trees.
Context `{Floats} `{Unicode}.

Inductive StatsFunc : Type :=
| Count
| Sum (Field : string)
| Min (Field : string)
| Max (Field : string)
| Avg (Field : string)
| Median (Field : string)
| Quantile (Phi : F) (Field : string)
| Stddev (Field : string)
| Stdvar (Field : string)
| Rate
| RateSum (Field : string)
| CountUniq (Field : string)
| CountUniqHash (Field : string)
| UniqValues (Field : string) (Limit : Z)
| FieldMax (Field : string)
| FieldMin (Field : string)
| JSONValues (Field : string)
| Any (Field : string)
| CountEmpty (Field : string)
| SumLen (Field : string)
| Values (Field : string) (Limit : Z)
| Histogram (Field : string)
| Last (Field : string)
| First (Field : string)
| RowAny (Fields : list string)
| RowMax (By : string) (Fields : list string)
| RowMin (By : string) (Fields : list string)
| JSONValuesSorted (Field : string)
| JSONValuesTopK (Field : string) (Limit : Z)
| DeferredStats (Raw : string).

(** [GroupKey] is a struct around a field name. *)
Definition GroupKey : Type := string.

Record StatsFuncAlias : Type := mkAlias {
  sa_Func : StatsFunc;
  sa_Alias : string
}.

Inductive Pipe : Type :=
| PipeUnpackJSON (From : string) (KeepOriginalFields : bool)
| PipeUnpackLogfmt (From : string) (KeepOriginalFields : bool)
| PipeFilter (Expr : FilterExpr)
| PipeLimit (N : Z)
| PipeExtract (Pattern From If : string)
| PipeExtractRegexp (Pattern From : string)
| PipeFields (Labels : list string)
| PipeDelete (Labels : list string)
| PipeFormat (Template ResultField : string)
| PipeRename (Pairs : list (string * string))
| PipeReplace (Field Old New : string)
| PipeReplaceRegexp (Field Regex Replacement : string)
| PipePackJSON (Fields : list string) (ResultField : string)
| PipePackLogfmt (Fields : list string) (ResultField : string)
| PipeStats (By : list GroupKey) (Funcs : list StatsFuncAlias)
| PipeMath (Expr Alias : string)
| PipeSort (By : list SortField) (Limit : Z)
| PipeTop (N : Z) (By : list string)
| PipeFirst (N : Z) (By : list string)
| PipeLast (N : Z) (By : list string)
| PipeSample (N : Z)
| PipeOffset (N : Z)
| PipeUniq (By : list string)
| PipeFieldNames
| PipeDropEmptyFields
| PipeCopy (Pairs : list (string * string))
| PipeCoalesce (Fields : list string) (Default Result : string)
| PipeCollapseNums (Field : string)
| PipeDecolorize (Field : string)
| PipeFacets (Limit : Z)
| PipeFieldValues (Field : string) (Limit : Z)
| PipeGenerateSequence (Limit : Z)
| PipeHash (Fields : list string) (Result : string)
| PipeJoin (By : list string) (Inner Prefix : string)
| PipeJSONArrayLen (Field Result : string)
| PipeJSONArrayConcat (Delimiter : string) (HasDelimiter : bool) (From As : string)
| PipeLen (Field Result : string)
| PipeQueryStats
| PipeRunningStats (By : list GroupKey) (Funcs : list StatsFuncAlias)
| PipeSetStreamFields (Fields : list string)
| PipeSplit (Separator From As : string)
| PipeStreamContext (Before After : Z)
| PipeTimeAdd (Duration : string)
| PipeTotalStats (By : list GroupKey) (Funcs : list StatsFuncAlias)
| PipeUnion (Inner : string)
| PipeUnpackSyslog
| PipeUnpackWords (From As : string)
| PipeUnroll (Fields : list string)
| PipeUpdate (Field Expr : string).

(** [q.Filter == nil] is [None]. *)
Record Query : Type := mkQuery {
  q_Filter : option FilterExpr;
  q_Pipes : list Pipe
}.

(** ** Printing filters *)

Definition quoteLogsQLPattern (s : string) : string := Quote s.

Definition QuotePattern (s : string) : string := quoteLogsQLPattern s.

(** The text between the field and its value. *)
Definition FieldFilter_core (field : string) (op : FieldOp) (value : string) : string :=
  match op with
  | FieldOpExact => field +:+ ":=" +:+ quoteLogsQL value
  | FieldOpRegexp => field +:+ ":~" +:+ quoteLogsQLPattern value
  | FieldOpPrefix => field +:+ ":" +:+ value +:+ "*"
  | FieldOpSubstring => field +:+ ":*" +:+ value +:+ "*"
  | FieldOpEmpty => field +:+ ":" +:+ quoted ""
  | FieldOpAny => field +:+ ":*"
  | FieldOpGT => field +:+ ":>" +:+ value
  | FieldOpGTE => field +:+ ":>=" +:+ value
  | FieldOpLT => field +:+ ":<" +:+ value
  | FieldOpLTE => field +:+ ":<=" +:+ value
  | FieldOpRange => field +:+ ":range(" +:+ value +:+ ")"
  | FieldOpIn => field +:+ ":in(" +:+ value +:+ ")"
  | FieldOpIPv4Range => field +:+ ":ipv4_range(" +:+ value +:+ ")"
  | FieldOpIPv6Range => field +:+ ":ipv6_range(" +:+ value +:+ ")"
  | FieldOpExactPrefix => field +:+ ":=" +:+ quoteLogsQL value +:+ "*"
  | FieldOpEqField => field +:+ ":eq_field(" +:+ value +:+ ")"
  | FieldOpLeField => field +:+ ":le_field(" +:+ value +:+ ")"
  | FieldOpStringRange => field +:+ ":string_range(" +:+ value +:+ ")"
  | FieldOpValueType => field +:+ ":value_type(" +:+ value +:+ ")"
  | FieldOpJSONArrayContainsAny => field +:+ ":json_array_contains_any(" +:+ value +:+ ")"
  | FieldOpContainsCommonCase => field +:+ ":contains_common_case(" +:+ value +:+ ")"
  | FieldOpEqualsCommonCase => field +:+ ":equals_common_case(" +:+ value +:+ ")"
  end.

Definition FieldFilter_String (field : string) (op : FieldOp) (value : string) (negate : bool) : string :=
  let core := FieldFilter_core field op value in
  if negate then "NOT " +:+ core else core.

Definition LabelMatcher_String (m : LabelMatcher) : string :=
  lm_Name m +:+ lm_Op m +:+ quoteLogsQL (lm_Value m).

Definition is_or (f : FilterExpr) : bool :=
  match f with
  | OrExpr _ _ => true
  | _ => false
  end.

Definition is_and (f : FilterExpr) : bool :=
  match f with
  | AndExpr _ _ => true
  | _ => false
  end.

Definition parens (b : bool) (s : string) : string := if b then "(" +:+ s +:+ ")" else s.

Definition withOffset (s offset : string) : string :=
  if String.eqb offset "" then s else s +:+ " offset " +:+ offset.

Fixpoint Filter_String (f : FilterExpr) : string :=
  match f with
  | Word v => v
  | Phrase v => quoteLogsQL v
  | Prefix v => v +:+ "*"
  | Substring v => "*" +:+ v +:+ "*"
  | Exact v => "=" +:+ quoteLogsQL v
  | Regexp p => "~" +:+ quoteLogsQLPattern p
  | Sequence ps => "seq(" +:+ Join "," (map quoteLogsQL ps) +:+ ")"
  | CaseInsensitive v => "i(" +:+ quoteLogsQL v +:+ ")"
  | Wildcard => "*"
  | FieldFilter field op v negate => FieldFilter_String field op v negate
  | StreamFilter ms => "{" +:+ Join ", " (map LabelMatcher_String ms) +:+ "}"
  | TimeFilter r => "_time:" +:+ r
  | AndExpr l r =>
      parens (is_or l) (Filter_String l) +:+ " AND " +:+ parens (is_or r) (Filter_String r)
  | OrExpr l r => Filter_String l +:+ " OR " +:+ Filter_String r
  | NotExpr e => "NOT " +:+ parens (is_or e || is_and e) (Filter_String e)
  | AnyCasePhrase v => "i(" +:+ quoteLogsQL v +:+ ")"
  | AnyCasePrefix v => "i(" +:+ v +:+ "*)"
  | ExactPrefix v => "=" +:+ quoted v +:+ "*"
  | ContainsAll ps => "contains_all(" +:+ Join "," (map quoted ps) +:+ ")"
  | ContainsAny ps => "contains_any(" +:+ Join "," (map quoted ps) +:+ ")"
  | DayRange b offset => withOffset ("_time:day_range" +:+ b) offset
  | WeekRange b offset => withOffset ("_time:week_range" +:+ b) offset
  | LenRange field min max =>
      let inner := min +:+ ", " +:+ max in
      if String.eqb field "" then "len_range(" +:+ inner +:+ ")"
      else field +:+ ":len_range(" +:+ inner +:+ ")"
  | PatternMatch field pattern =>
      let inner := "pattern(" +:+ quoted pattern +:+ ")" in
      if String.eqb field "" then inner else field +:+ ":" +:+ inner
  | DeferredExpr raw => raw
  end.

(** ** Printing stats functions *)

Definition call (name arg : string) : string := name +:+ "(" +:+ arg +:+ ")".

Definition call2 (name : string) (a b : string) : string := call name (a +:+ ", " +:+ b).

Definition StatsFunc_String (f : StatsFunc) : string :=
  match f with
  | Count => "count()"
  | Sum x => call "sum" x
  | Min x => call "min" x
  | Max x => call "max" x
  | Avg x => call "avg" x
  | Median x => call "median" x
  | Quantile phi x => call2 "quantile" (Format_g phi) x
  | Stddev x => call "stddev" x
  | Stdvar x => call "stdvar" x
  | Rate => "rate()"
  | RateSum x => call "rate_sum" x
  | CountUniq x => call "count_uniq" x
  | CountUniqHash x => call "count_uniq_hash" x
  | UniqValues x n => call2 "uniq_values" x (Itoa n)
  | FieldMax x => call "field_max" x
  | FieldMin x => call "field_min" x
  | JSONValues x => call "json_values" x
  | Any x => call "any" x
  | CountEmpty x => call "count_empty" x
  | SumLen x => call "sum_len" x
  | Values x n => call2 "values" x (Itoa n)
  | Histogram x => call "histogram" x
  | Last x => call "last" x
  | First x => call "first" x
  | RowAny xs => call "row_any" (Join ", " xs)
  | RowMax b xs => call "row_max" (Join ", " (b :: xs))
  | RowMin b xs => call "row_min" (Join ", " (b :: xs))
  | JSONValuesSorted x => call "json_values_sorted" x
  | JSONValuesTopK x n => call2 "json_values_topk" x (Itoa n)
  | DeferredStats raw => raw
  end.

(** ** Printing pipes *)

Definition alias_String (fa : StatsFuncAlias) : string :=
  StatsFunc_String (sa_Func fa) +:+
  (if String.eqb (sa_Alias fa) "" then "" else " as " +:+ sa_Alias fa).

(** A list of fields in a [by] clause, nothing for an empty list. *)
Definition byClause (by_ : list string) : string :=
  match by_ with
  | [] => ""
  | _ => " by (" +:+ Join ", " by_ +:+ ")"
  end.

Definition pipeStatsString (keyword : string) (by_ : list GroupKey) (funcs : list StatsFuncAlias) : string :=
  match funcs with
  | [] => "| " +:+ keyword
  | _ => "| " +:+ keyword +:+ byClause by_ +:+ " " +:+ Join ", " (map alias_String funcs)
  end.

Definition SortField_String (sf : SortField) : string :=
  if sf_Desc sf then sf_Field sf +:+ " desc" else sf_Field sf.

Definition pair_String (pr : string * string) : string := fst pr +:+ " as " +:+ snd pr.

(** An optional word and its argument, and an optional positive number. *)
Definition optWord (kw v : string) : string := if String.eqb v "" then "" else kw +:+ v.
Definition optNum (kw : string) (n : Z) : string := if 0 <? n then kw +:+ Itoa n else "".

Definition backquoted (s : string) : string := "`" +:+ s +:+ "`".

Definition Pipe_String (p : Pipe) : string :=
  match p with
  | PipeUnpackJSON from keep =>
      "| unpack_json" +:+ optWord " from " from +:+ (if keep then " keep_original_fields" else "")
  | PipeUnpackLogfmt from keep =>
      "| unpack_logfmt" +:+ optWord " from " from +:+ (if keep then " keep_original_fields" else "")
  | PipeFilter e => "| filter " +:+ Filter_String e
  | PipeLimit n => "| limit " +:+ Itoa n
  | PipeExtract pat from cond =>
      "| extract " +:+ Quote pat +:+ " from " +:+ from +:+
      (if String.eqb cond "" then "" else " if (" +:+ cond +:+ ")")
  | PipeExtractRegexp pat from => "| extract_regexp " +:+ backquoted pat +:+ " from " +:+ from
  | PipeFields ls => "| fields " +:+ Join ", " ls
  | PipeDelete ls => "| delete " +:+ Join ", " ls
  | PipeFormat t r => "| format " +:+ Quote t +:+ " as " +:+ r
  | PipeRename ps => "| rename " +:+ Join ", " (map pair_String ps)
  | PipeReplace field old new =>
      "| replace (" +:+ Quote old +:+ ", " +:+ Quote new +:+ ") at " +:+ field
  | PipeReplaceRegexp field re new =>
      "| replace_regexp (" +:+ backquoted re +:+ ", " +:+ Quote new +:+ ") at " +:+ field
  | PipePackJSON fs r => "| pack_json fields (" +:+ Join ", " fs +:+ ") as " +:+ r
  | PipePackLogfmt fs r => "| pack_logfmt fields (" +:+ Join ", " fs +:+ ") as " +:+ r
  | PipeStats by_ funcs => pipeStatsString "stats" by_ funcs
  | PipeMath e alias => "| math " +:+ e +:+ " as " +:+ alias
  | PipeSort by_ limit =>
      "| sort by (" +:+ Join ", " (map SortField_String by_) +:+ ")" +:+ optNum " limit " limit
  | PipeTop n by_ => "| top " +:+ Itoa n +:+ byClause by_
  | PipeFirst n by_ => "| first" +:+ optNum " " n +:+ byClause by_
  | PipeLast n by_ => "| last" +:+ optNum " " n +:+ byClause by_
  | PipeSample n => "| sample " +:+ Itoa n
  | PipeOffset n => "| offset " +:+ Itoa n
  | PipeUniq by_ => "| uniq" +:+ byClause by_
  | PipeFieldNames => "| field_names"
  | PipeDropEmptyFields => "| drop_empty_fields"
  | PipeCopy ps => "| copy " +:+ Join ", " (map pair_String ps)
  | PipeCoalesce fs def r =>
      "| coalesce(" +:+ Join ", " fs +:+ ")" +:+
      (if String.eqb def "" then "" else " default " +:+ quoted def) +:+ " as " +:+ r
  | PipeCollapseNums field => "| collapse_nums" +:+ optWord " at " field
  | PipeDecolorize field => "| decolorize" +:+ optWord " " field
  | PipeFacets limit => "| facets" +:+ (if limit =? 0 then "" else " limit " +:+ Itoa limit)
  | PipeFieldValues field limit => "| field_values " +:+ field +:+ optNum " limit " limit
  | PipeGenerateSequence limit => "| generate_sequence limit " +:+ Itoa limit
  | PipeHash fs r => "| hash(" +:+ Join ", " fs +:+ ") as " +:+ r
  | PipeJoin by_ inner prefix =>
      "| join by (" +:+ Join ", " by_ +:+ ") (" +:+ inner +:+ ")" +:+ optWord " prefix " prefix
  | PipeJSONArrayLen field r => "| json_array_len(" +:+ field +:+ ") as " +:+ r
  | PipeJSONArrayConcat d has from as_ =>
      "| json_array_concat" +:+ (if has then " " +:+ quoted d else "") +:+
      optWord " from " from +:+ optWord " as " as_
  | PipeLen field r => "| len(" +:+ field +:+ ") as " +:+ r
  | PipeQueryStats => "| query_stats"
  | PipeRunningStats by_ funcs => pipeStatsString "running_stats" by_ funcs
  | PipeSetStreamFields fs => "| set_stream_fields " +:+ Join ", " fs
  | PipeSplit sep from as_ =>
      "| split " +:+ quoted sep +:+ optWord " from " from +:+ optWord " as " as_
  | PipeStreamContext before after =>
      "| stream_context" +:+ optNum " before " before +:+ optNum " after " after
  | PipeTimeAdd d => "| time_add " +:+ d
  | PipeTotalStats by_ funcs => pipeStatsString "total_stats" by_ funcs
  | PipeUnion inner => "| union (" +:+ inner +:+ ")"
  | PipeUnpackSyslog => "| unpack_syslog"
  | PipeUnpackWords from as_ => "| unpack_words" +:+ optWord " from " from +:+ optWord " as " as_
  | PipeUnroll fs => "| unroll (" +:+ Join ", " fs +:+ ")"
  | PipeUpdate field e => "| update " +:+ field +:+ " = " +:+ e
  end.

(** Every pipe after a space. *)
Fixpoint pipesString (ps : list Pipe) : string :=
  match ps with
  | [] => ""
  | p :: ps => " " +:+ Pipe_String p +:+ pipesString ps
  end.

Definition Query_String (q : Query) : string :=
  match q_Filter q with
  | None => "*"
  | Some f => Filter_String f
  end +:+ pipesString (q_Pipes q).

(** ** The builder *)

Definition BestTopN (k : Z) (field : string) : list Pipe :=
  [PipeSort [mkSortField field true] 0; PipeLimit k].

End Trees.

(** ** Capabilities of a backend version (src/internal/logsql/capabilities.go) *)

Definition MinSupportedMajor : Z := 1.
Definition MinSupportedMinor : Z := 40.

Record Capabilities : Type := mkCaps {
  StatsRateSum : bool;
  FieldIPv4Range : bool;
  MetadataSubstring : bool;
  DensePatternWindowing : bool
}.

Definition noCapabilities : Capabilities := mkCaps false false false false.

(** The digits in front. *)
Definition numericPart (s : string) : string := fst (span (λ a, (48 <=? b2z a) && (b2z a <=? 57)) s).

(** Major and minor version; the patch is read and not used. *)
Definition parseSemver (s : string) : option (Z * Z) :=
  let s := TrimSpace (TrimPrefix s "v") in
  match Cut "." s with
  | None => None
  | Some (major, rest) =>
      let minor := match Cut "." rest with Some (m, _) => m | None => rest end in
      match Atoi (numericPart major), Atoi (numericPart minor) with
      | Some a, Some b => Some (a, b)
      | _, _ => None
      end
  end.

Definition atLeast (maj min wantMaj wantMin : Z) : bool :=
  if negb (maj =? wantMaj) then wantMaj <? maj else wantMin <=? min.

Definition CapabilitiesFor (semver : string) : Capabilities :=
  match parseSemver semver with
  | None => noCapabilities
  | Some (maj, min) =>
      if (maj <? MinSupportedMajor) || ((maj =? MinSupportedMajor) && (min <? MinSupportedMinor))
      then noCapabilities
      else mkCaps (atLeast maj min 1 44) (atLeast maj min 1 45) (atLeast maj min 1 49) (atLeast maj min 1 50)
  end.

Lemma atLeast_spec maj min a b : atLeast maj min a b = true ↔ a < maj ∨ (a = maj ∧ b ≤ min).
Proof. unfold atLeast. destruct (Z.eqb_spec maj a); cbn [negb]; rewrite ?Z.ltb_lt, ?Z.leb_le; lia. Qed.

(** Every capability has the version it came with; a later version keeps it. *)
Lemma capabilities_since semver maj min : parseSemver semver = Some (maj, min) →
  (StatsRateSum (CapabilitiesFor semver) = true ↔ 1 < maj ∨ (1 = maj ∧ 44 ≤ min)) ∧
  (FieldIPv4Range (CapabilitiesFor semver) = true ↔ 1 < maj ∨ (1 = maj ∧ 45 ≤ min)) ∧
  (MetadataSubstring (CapabilitiesFor semver) = true ↔ 1 < maj ∨ (1 = maj ∧ 49 ≤ min)) ∧
  (DensePatternWindowing (CapabilitiesFor semver) = true ↔ 1 < maj ∨ (1 = maj ∧ 50 ≤ min)).
Proof.
  intros E. unfold CapabilitiesFor. rewrite E. rewrite <-!atLeast_spec.
  destruct (_ || _) eqn:Eold; [|done]. cbn. rewrite !atLeast_spec.
  unfold MinSupportedMajor, MinSupportedMinor in Eold.
  apply orb_true_iff in Eold as [?%Z.ltb_lt|[?%Z.eqb_eq ?%Z.ltb_lt]%andb_true_iff];
    repeat split; (done || lia).
Qed.

End LAst.
