(* ===== verification/LogsqlScanner.v ===== *)
(** * The LogsQL scanner (src/internal/logsql/scanner.go)

    The Go struct holds the source and a position and only ever looks forward, so the
    state of the model is [Remaining()], the unconsumed text.  All characters the
    scanner distinguishes are ASCII: the first byte of the text decides every case,
    which [ident_decode] relates to the runes the code decodes.  The second half holds
    what the scanner does on the texts that the printer writes. *)

From S2P Require Import Prelude GoText Utf8 LogqlAst LogsqlAst.

#[local] Open Scope Z_scope.

Module LScan.
Import Text Utf8 LAst.

Inductive TokType : Type :=
| TokEOF | TokError
| TokLBrace | TokRBrace | TokLBracket | TokRBracket | TokLParen | TokRParen
| TokComma | TokPipe | TokStar | TokColon
| TokColonEq | TokColonTilde | TokColonGT | TokColonGTE | TokColonLT | TokColonLTE
| TokEq | TokNeq | TokReMatch | TokReNotMatch
| TokTilde
| TokAnd | TokOr | TokNot
| TokIdent | TokString | TokRawString.

#[export] Instance TokType_dec : EqDecision TokType.
Proof. solve_decision. Defined.

Record Token : Type := mkTok {
  Typ : TokType;
  Val : string
}.

Definition TokType_String (t : TokType) : string :=
  match t with
  | TokEOF => "EOF" | TokError => "Error"
  | TokLBrace => "LBrace" | TokRBrace => "RBrace"
  | TokLBracket => "LBracket" | TokRBracket => "RBracket"
  | TokLParen => "LParen" | TokRParen => "RParen"
  | TokComma => "Comma" | TokPipe => "Pipe" | TokStar => "Star" | TokColon => "Colon"
  | TokColonEq => "ColonEq" | TokColonTilde => "ColonTilde"
  | TokColonGT => "ColonGT" | TokColonGTE => "ColonGTE"
  | TokColonLT => "ColonLT" | TokColonLTE => "ColonLTE"
  | TokEq => "Eq" | TokNeq => "Neq" | TokReMatch => "ReMatch" | TokReNotMatch => "ReNotMatch"
  | TokTilde => "Tilde"
  | TokAnd => "And" | TokOr => "Or" | TokNot => "Not"
  | TokIdent => "Ident" | TokString => "String" | TokRawString => "RawString"
  end.

(** The value of the constant, which [%d] prints. *)
Definition TokType_code (t : TokType) : Z :=
  match t with
  | TokEOF => 0 | TokError => 1
  | TokLBrace => 2 | TokRBrace => 3 | TokLBracket => 4 | TokRBracket => 5
  | TokLParen => 6 | TokRParen => 7 | TokComma => 8 | TokPipe => 9 | TokStar => 10 | TokColon => 11
  | TokColonEq => 12 | TokColonTilde => 13 | TokColonGT => 14 | TokColonGTE => 15
  | TokColonLT => 16 | TokColonLTE => 17
  | TokEq => 18 | TokNeq => 19 | TokReMatch => 20 | TokReNotMatch => 21
  | TokTilde => 22
  | TokAnd => 23 | TokOr => 24 | TokNot => 25
  | TokIdent => 26 | TokString => 27 | TokRawString => 28
  end.

(** ** Character classes *)

Definition isIdentRune (r : Z) : bool :=
  (r =? 95) || (r =? 46) || (r =? 45) || (r =? 47) ||
  ((97 <=? r) && (r <=? 122)) || ((65 <=? r) && (r <=? 90)) || ((48 <=? r) && (r <=? 57)).

Definition ident_byte (a : Ascii.ascii) : bool := isIdentRune (b2z a).

Definition is_space (a : Ascii.ascii) : bool :=
  let c := b2z a in (c =? 32) || (c =? 9) || (c =? 10) || (c =? 13).

Fixpoint skipWS (s : string) : string :=
  match s with
  | "" => ""
  | String a s' => if is_space a then skipWS s' else s
  end.

(** ** Literals *)

(** The body of a double-quoted literal: its value and the text after the closing
    quote.  A backslash that ends the text is an ordinary byte. *)
Fixpoint quotedBody (s : string) : option (string * string) :=
  match s with
  | "" => None
  | String a s' =>
      if Ascii.eqb a dquote then Some ("", s')
      else if Ascii.eqb a bslash then
        match s' with
        | "" => None
        | String c s'' =>
            let out :=
              if Ascii.eqb c "n" then ch 10
              else if Ascii.eqb c "t" then ch 9
              else if Ascii.eqb c dquote then String dquote ""
              else if Ascii.eqb c bslash then String bslash ""
              else String bslash (String c "") in
            match quotedBody s'' with
            | Some (v, r) => Some (out +:+ v, r)
            | None => None
            end
        end
      else
        match quotedBody s' with
        | Some (v, r) => Some (String a v, r)
        | None => None
        end
  end.

Definition scanQuoted (s : string) : Token * string :=
  match quotedBody s with
  | Some (v, r) => (mkTok TokString v, r)
  | None => (mkTok TokError "unterminated string", "")
  end.

(** An unclosed raw string ends at the end of the text. *)
Definition scanRaw (s : string) : Token * string :=
  let '(v, r) := span (λ a, negb (Ascii.eqb a "`")) s in
  (mkTok TokRawString v, match r with String _ r => r | "" => "" end).

Definition scanColon (s : string) : Token * string :=
  match s with
  | String "=" r => (mkTok TokColonEq ":=", r)
  | String "~" r => (mkTok TokColonTilde ":~", r)
  | String ">" (String "=" r) => (mkTok TokColonGTE ":>=", r)
  | String ">" r => (mkTok TokColonGT ":>", r)
  | String "<" (String "=" r) => (mkTok TokColonLTE ":<=", r)
  | String "<" r => (mkTok TokColonLT ":<", r)
  | _ => (mkTok TokColon ":", s)
  end.

Definition keyword (val : string) : TokType :=
  if String.eqb val "AND" then TokAnd
  else if String.eqb val "OR" then TokOr
  else if String.eqb val "NOT" then TokNot
  else TokIdent.

Definition scanIdent (s : string) : Token * string :=
  match span ident_byte s with
  | ("", _) =>
      let w := snd (DecodeRune s) in
      (mkTok TokError ("unexpected character: " +:+ prefix w s), suffix w s)
  | (val, r) => (mkTok (keyword val) val, r)
  end.

(** ** The scanner *)

Definition Next (s : string) : Token * string :=
  let s := skipWS s in
  match s with
  | "" => (mkTok TokEOF "", "")
  | String "{" r => (mkTok TokLBrace "{", r)
  | String "}" r => (mkTok TokRBrace "}", r)
  | String "[" r => (mkTok TokLBracket "[", r)
  | String "]" r => (mkTok TokRBracket "]", r)
  | String "(" r => (mkTok TokLParen "(", r)
  | String ")" r => (mkTok TokRParen ")", r)
  | String "," r => (mkTok TokComma ",", r)
  | String "|" r => (mkTok TokPipe "|", r)
  | String "*" r => (mkTok TokStar "*", r)
  | String "034" r => scanQuoted r
  | String "`" r => scanRaw r
  | String ":" r => scanColon r
  | String "=" (String "~" r) => (mkTok TokReMatch "=~", r)
  | String "=" r => (mkTok TokEq "=", r)
  | String "!" (String "=" r) => (mkTok TokNeq "!=", r)
  | String "!" (String "~" r) => (mkTok TokReNotMatch "!~", r)
  | String "!" r => (mkTok TokError "unexpected !", r)
  | String "~" r => (mkTok TokTilde "~", r)
  | _ => scanIdent s
  end.

(** [AdvanceTo(ch)]; [AdvanceTo(0)] is the end of the text. *)
Definition AdvanceTo (c : Ascii.ascii) (s : string) : string :=
  snd (span (λ a, negb (Ascii.eqb a c)) s).

Definition Skip (n : nat) (s : string) : string := suffix n s.

(** ** The scanner reads runes, the model bytes *)

Lemma ident_decode a s : isIdentRune (fst (DecodeRune (String a s))) = ident_byte a.
Proof.
  assert (∀ r, 0x80 ≤ r → isIdentRune r = false) as Hhi.
  { intros r Hr. unfold isIdentRune. zcases. }
  unfold ident_byte. destruct (Z.ltb_spec (b2z a) 0x80) as [Hlt|Hge].
  - cbn [DecodeRune]. apply Z.ltb_lt in Hlt. by rewrite Hlt.
  - rewrite (Hhi (b2z a)) by lia. apply Hhi.
    destruct (DecodeRune (String a s)) as [r w] eqn:E. cbn [fst].
    destruct (Z.ltb_spec r 0x80) as [Hr|]; [|done]. exfalso.
    unfold DecodeRune in E. pose proof (b2z_range a).
    assert ((b2z a <? 0x80) = false) as Hf by (by apply Z.ltb_ge). rewrite Hf in E.
    repeat match type of E with
    | context [ if ?b then _ else _ ] => destruct b eqn:?
    | context [ match ?s with "" => _ | String _ _ => _ end ] => destruct s
    end; simplify_eq; unfold RuneError in *; try lia;
    unfold cont in *; repeat match goal with
    | H : _ && _ = true |- _ => apply andb_true_iff in H as [? ?]
    | H : within _ _ _ = true |- _ => apply within_spec in H
    | H : (_ <? _) = false |- _ => apply Z.ltb_ge in H
    | H : (_ <? _) = true |- _ => apply Z.ltb_lt in H
    end; repeat case_match; lia.
Qed.

(** ** Progress *)

Lemma skipWS_length s : (String.length (skipWS s) ≤ String.length s)%nat.
Proof. induction s as [|a s IH]; [done|]. cbn. destruct (is_space a); cbn; lia. Qed.

Lemma quotedBody_length s v r : quotedBody s = Some (v, r) → (String.length r < String.length s)%nat.
Proof.
  revert v r. induction s as [s IH] using (induction_ltof1 _ String.length). unfold ltof in IH.
  intros v r. destruct s as [|a s]; [done|]. cbn [quotedBody].
  destruct (Ascii.eqb a dquote); [intros; simplify_eq; cbn; lia|].
  destruct (Ascii.eqb a bslash).
  - destruct s as [|c s]; [done|]. destruct (quotedBody s) as [[v' r']|] eqn:E; [|done].
    intros ?; simplify_eq. apply IH in E; cbn in *; lia.
  - destruct (quotedBody s) as [[v' r']|] eqn:E; [|done].
    intros ?; simplify_eq. apply IH in E; cbn in *; lia.
Qed.

Lemma scanQuoted_length s : (String.length (scanQuoted s).2 ≤ String.length s)%nat.
Proof.
  unfold scanQuoted. destruct (quotedBody s) as [[v r]|] eqn:E; cbn; [|lia].
  apply quotedBody_length in E. lia.
Qed.

Lemma scanRaw_length s : (String.length (scanRaw s).2 ≤ String.length s)%nat.
Proof.
  unfold scanRaw. pose proof (span_length (λ a, negb (Ascii.eqb a "`")) s) as H.
  destruct (span _ s) as [v [|b r]]; cbn in *; lia.
Qed.

Lemma scanColon_length s : (String.length (scanColon s).2 ≤ String.length s)%nat.
Proof. unfold scanColon. repeat case_match; subst; cbn; lia. Qed.

Lemma scanIdent_length s : s ≠ "" → (String.length (scanIdent s).2 < String.length s)%nat.
Proof.
  intros Hs. unfold scanIdent. destruct (span ident_byte s) as [[|a w] r] eqn:E; cbn [snd].
  - rewrite length_suffix. pose proof (DecodeRune_width s Hs). lia.
  - pose proof (span_join ident_byte s) as Hj. rewrite E in Hj. cbn [fst snd] in Hj.
    rewrite <-Hj, length_app_str. cbn. lia.
Qed.

(** A token other than the end of the text consumes at least a byte; the end consumes
    what is left. *)
Lemma Next_progress s :
  if bool_decide (Typ (Next s).1 = TokEOF) then (Next s).2 = ""
  else (String.length (Next s).2 < String.length s)%nat.
Proof.
  pose proof (skipWS_length s) as Hw. unfold Next. cbn zeta. set (u := skipWS s) in *.
  clearbody u. destruct u as [|a r]; [done|].
  assert (∀ x : Token * string, Typ x.1 ≠ TokEOF → (String.length x.2 ≤ String.length r)%nat →
    if bool_decide (Typ x.1 = TokEOF) then x.2 = "" else (String.length x.2 < String.length s)%nat) as Hx.
  { intros x Ht Hl. rewrite bool_decide_false by done. cbn in Hw. lia. }
  assert (∀ t, Typ (mkTok t "") ≠ TokEOF → True) as _ by done.
  pose proof (scanQuoted_length r). pose proof (scanRaw_length r). pose proof (scanColon_length r).
  pose proof (scanIdent_length (String a r) ltac:(done)) as Hi. cbn in Hi.
  assert (Typ (scanQuoted r).1 ≠ TokEOF) by (unfold scanQuoted; repeat case_match; done).
  assert (Typ (scanRaw r).1 ≠ TokEOF) by (unfold scanRaw; repeat case_match; done).
  assert (Typ (scanColon r).1 ≠ TokEOF) by (unfold scanColon; repeat case_match; done).
  assert (Typ (scanIdent (String a r)).1 ≠ TokEOF).
  { unfold scanIdent, keyword. repeat case_match; done. }
  destruct a as [[] [] [] [] [] [] [] []]; first
    [ apply Hx; [done|cbn; lia]
    | destruct r as [|b r']; [apply Hx; [done|cbn; lia]|];
      destruct b as [[] [] [] [] [] [] [] []]; apply Hx; solve [done|cbn; lia] ].
Qed.

End LScan.
