(* ===== verification/LogsqlParser.v ===== *)
(** * The LogsQL parser (src/internal/logsql/parser.go)

    A state monad over the parser struct, the unconsumed text and the one-token
    lookahead buffer, with four outcomes: a value, a Go error, a panic,
    or fuel exhausted.
    The loops and the recursion through parentheses carry fuel; [Parse] and
    [ParseFilter] give them one more than the length of the text, which
    [logsql_parse_total] shows to be enough. *)

From S2P Require Import Prelude GoText Utf8 LogqlAst LogsqlAst LogsqlScanner.

#[local] Open Scope Z_scope.

(** The standard library as the parser uses it beyond [Floats]: the first result of
    [strconv.ParseFloat], whose error is dropped, and [strings.ToLower], whose offsets
    are used in the original text. *)
Class Lenient `{Floats} : Type := {
  ParseFloatValue : string → F;
  lowerString : string → string
}.

Module LParse.
Import Text Utf8 LAst LScan.

(** ** The monad *)

Record parser : Type := mkP {
  sc : string;
  buf : option Token
}.

Definition newParser (input : string) : parser := mkP input None.

Inductive outcome (A : Type) : Type :=
| Done (a : A) (p : parser)
| Fail (msg : string)
| Panic
| NoFuel.
Arguments Done {A} a p.
Arguments Fail {A} msg.
Arguments Panic {A}.
Arguments NoFuel {A}.

Definition P (A : Type) : Type := parser → outcome A.

#[export] Instance P_ret : MRet P := λ A a p, Done a p.

#[export] Instance P_bind : MBind P := λ A B f m p,
  match m p with
  | Done a p => f a p
  | Fail msg => Fail msg
  | Panic => Panic
  | NoFuel => NoFuel
  end.

Definition fail {A} (msg : string) : P A := λ _, Fail msg.
Definition no_fuel {A} : P A := λ _, NoFuel.

(** [fmt.Errorf("...: %w", err)]. *)
Definition errorf {A} (f : string → string) (m : P A) : P A := λ p,
  match m p with
  | Fail msg => Fail (f msg)
  | o => o
  end.

Definition is_typ (a b : TokType) : bool := bool_decide (a = b).

(** ** Tokens *)

Section Parsing.
Context `{Floats} `{!Lenient} `{Unicode}.

Definition peek : P Token := λ p,
  match buf p with
  | Some t => Done t p
  | None => let '(t, s) := Next (sc p) in Done t (mkP s (Some t))
  end.

(** [p.buf = nil]. *)
Definition clearBuf : P () := λ p, Done () (mkP (sc p) None).

Definition advance : P Token := t ← peek; _ ← clearBuf; mret t.

(** The type of the next token, and whether it is the identifier [w]. *)
Definition peekTyp : P TokType := t ← peek; mret (Typ t).

Definition is_word (w : string) (t : Token) : bool := is_typ (Typ t) TokIdent && String.eqb (Val t) w.

Definition peekWord (w : string) : P bool := t ← peek; mret (is_word w t).

(** [p.sc.Remaining()]. *)
Definition Remaining : P string := λ p, Done (sc p) p.

Definition setText (s : string) : P () := λ p, Done () (mkP s (buf p)).

Definition expect (t : TokType) : P Token :=
  tok ← advance;
  if is_typ (Typ tok) t then mret tok
  else fail ("logsql: expected " +:+ TokType_String t +:+ ", got " +:+ Quote (Val tok) +:+
             " (" +:+ TokType_String (Typ tok) +:+ ")").

Definition typed (t : Token) : string := Quote (Val t) +:+ " (type " +:+ Itoa (TokType_code (Typ t)) +:+ ")".

Definition expectIdent : P string :=
  tok ← advance;
  if is_typ (Typ tok) TokIdent then mret (Val tok)
  else fail ("logsql: expected identifier, got " +:+ typed tok).

Definition expectString : P string :=
  tok ← advance;
  if is_typ (Typ tok) TokString then mret (Val tok)
  else fail ("logsql: expected string literal, got " +:+ typed tok).

(** [if p.peek().Typ == TokComma { p.advance() }]. *)
Definition optComma : P () :=
  t ← peekTyp;
  if is_typ t TokComma then _ ← advance; mret () else mret ().

(** ** Raw arguments *)

Fixpoint consumeUntilRParen (fuel : nat) (acc : string) : P string :=
  match fuel with
  | O => no_fuel
  | S fuel =>
      tok ← advance;
      match Typ tok with
      | TokRParen => mret acc
      | TokEOF => fail "logsql: unclosed parenthesis"
      | TokComma => consumeUntilRParen fuel (acc +:+ ",")
      | _ => consumeUntilRParen fuel (acc +:+ Val tok)
      end
  end.

Fixpoint dropSpaces (s : string) : string :=
  match s with
  | "" => ""
  | String a s => if Ascii.eqb a " " then dropSpaces s else String a (dropSpaces s)
  end.

(** The two halves of a [len_range] argument. *)
Definition minMax (raw : string) : string * string :=
  match Cut "," (dropSpaces raw) with
  | Some (min, max) => (min, max)
  | None => (dropSpaces raw, "")
  end.

(** The arguments of [contains_all] and [contains_any]: strings and identifiers are
    kept, everything else is skipped. *)
Fixpoint partsLoop (fuel : nat) (parts : list string) : P (list string) :=
  match fuel with
  | O => no_fuel
  | S fuel =>
      t ← peekTyp;
      match t with
      | TokRParen | TokEOF => mret parts
      | TokString | TokIdent => tok ← advance; partsLoop fuel (parts ++ [Val tok])
      | _ => _ ← advance; partsLoop fuel parts
      end
  end.

(** ** Field filters *)

Definition field (name : string) (op : FieldOp) (v : string) : FilterExpr := FieldFilter name op v false.

(** [field:op(raw)]. *)
Definition rawArg (fuel : nat) (name : string) (op : FieldOp) : P FilterExpr :=
  _ ← expect TokLParen;
  val ← consumeUntilRParen fuel "";
  mret (field name op val).

(** [field:op(ident)]. *)
Definition identArg (name : string) (op : FieldOp) : P FilterExpr :=
  _ ← expect TokLParen;
  other ← expectIdent;
  _ ← expect TokRParen;
  mret (field name op other).

(** The functions with a raw argument after a bare colon. *)
Definition rawOp (ident : string) : option FieldOp :=
  if String.eqb ident "range" then Some FieldOpRange
  else if String.eqb ident "in" then Some FieldOpIn
  else if String.eqb ident "ipv4_range" then Some FieldOpIPv4Range
  else if String.eqb ident "ipv6_range" then Some FieldOpIPv6Range
  else if String.eqb ident "string_range" then Some FieldOpStringRange
  else if String.eqb ident "json_array_contains_any" then Some FieldOpJSONArrayContainsAny
  else if String.eqb ident "contains_common_case" then Some FieldOpContainsCommonCase
  else if String.eqb ident "equals_common_case" then Some FieldOpEqualsCommonCase
  else None.

(** The functions with an identifier for argument. *)
Definition identOp (ident : string) : option FieldOp :=
  if String.eqb ident "eq_field" then Some FieldOpEqField
  else if String.eqb ident "le_field" then Some FieldOpLeField
  else if String.eqb ident "value_type" then Some FieldOpValueType
  else None.

(** The identifier after a bare colon. *)
Definition bareIdent (fuel : nat) (name ident : string) : P FilterExpr :=
  match rawOp ident, identOp ident with
  | Some op, _ => rawArg fuel name op
  | None, Some op => identArg name op
  | None, None =>
      if String.eqb ident "len_range" then
        _ ← expect TokLParen;
        raw ← consumeUntilRParen fuel "";
        let '(min, max) := minMax raw in
        mret (LenRange name min max)
      else if String.eqb ident "pattern" then
        _ ← expect TokLParen;
        raw ← consumeUntilRParen fuel "";
        mret (PatternMatch name raw)
      else
        t ← peekTyp;
        if is_typ t TokStar then _ ← advance; mret (field name FieldOpPrefix ident)
        else mret (field name FieldOpExact ident)
  end.

Definition parseBareCsFilterValue (fuel : nat) (name : string) : P FilterExpr :=
  tok ← peek;
  match Typ tok with
  | TokStar =>
      _ ← advance;
      t ← peekTyp;
      if is_typ t TokIdent then
        word ← advance;
        t ← peekTyp;
        if is_typ t TokStar then _ ← advance; mret (field name FieldOpSubstring (Val word))
        else fail ("logsql: expected * after " +:+ name +:+ ":*" +:+ Val word +:+ " for substring filter")
      else mret (field name FieldOpAny "")
  | TokString =>
      _ ← advance;
      if String.eqb (Val tok) "" then mret (field name FieldOpEmpty "")
      else mret (field name FieldOpExact (Val tok))
  | TokIdent => ident ← advance; bareIdent fuel name (Val ident)
  | _ => fail ("logsql: unexpected token " +:+ Quote (Val tok) +:+ " after field " +:+ Quote name)
  end.

(** ** Time filters *)

(** [strings.TrimLeft(s, " \t")]. *)
Definition trimBlanks (s : string) : string :=
  snd (span (λ a, Ascii.eqb a " " || Ascii.eqb a (Ascii.ascii_of_nat 9)) s).

(** [offset dur], both words optional. *)
Definition parseOffset : P string :=
  w ← peekWord "offset";
  if (w : bool) then
    _ ← advance;
    t ← peekTyp;
    if is_typ t TokIdent then tok ← advance; mret (Val tok) else mret ""
  else mret "".

Definition parseBracketRange (kind : string) : P FilterExpr :=
  _ ← clearBuf;
  text ← Remaining;
  let rest := trimBlanks text in
  if negb (HasPrefix rest "[") then fail ("logsql: expected [ after " +:+ kind)
  else
    match IndexByte "]" rest with
    | None => fail ("logsql: unclosed [ after " +:+ kind)
    | Some e =>
        let bracket := prefix (S e) rest in
        _ ← setText (Skip (String.length text - String.length rest + S e) text);
        offset ← parseOffset;
        mret (if String.eqb kind "day_range" then DayRange bracket offset else WeekRange bracket offset)
    end.

Definition parseTimeFilter : P FilterExpr :=
  tok ← peek;
  if negb (is_typ (Typ tok) TokColon)
  then fail ("logsql: expected ':' after _time, got " +:+ Quote (Val tok))
  else
    _ ← advance;
    range ← peek;
    if negb (is_typ (Typ range) TokIdent)
    then fail ("logsql: expected time range after _time:, got " +:+ Quote (Val range))
    else
      _ ← advance;
      if String.eqb (Val range) "day_range" || String.eqb (Val range) "week_range"
      then parseBracketRange (Val range)
      else mret (TimeFilter (Val range)).

(** ** Stream filters *)

Definition labelOp (t : TokType) : option string :=
  match t with
  | TokEq => Some "="
  | TokNeq => Some "!="
  | TokReMatch => Some "=~"
  | TokReNotMatch => Some "!~"
  | _ => None
  end.

Definition parseLabelMatcher : P LabelMatcher :=
  name ← errorf (λ e, "logsql: expected label name in stream filter: " +:+ e) expectIdent;
  opTok ← advance;
  match labelOp (Typ opTok) with
  | None => fail ("logsql: expected label operator in stream filter, got " +:+ Quote (Val opTok))
  | Some op =>
      val ← errorf (λ e, "logsql: expected label value string in stream filter: " +:+ e) expectString;
      mret (mkLabelMatcher name op val)
  end.

Fixpoint matchersLoop (fuel : nat) (ms : list LabelMatcher) : P (list LabelMatcher) :=
  match fuel with
  | O => no_fuel
  | S fuel =>
      t ← peekTyp;
      match t with
      | TokRBrace => _ ← advance; mret ms
      | TokEOF => fail "logsql: unclosed stream filter {"
      | _ => m ← parseLabelMatcher; _ ← optComma; matchersLoop fuel (ms ++ [m])
      end
  end.

Definition parseStreamFilter (fuel : nat) : P FilterExpr :=
  _ ← advance;
  ms ← matchersLoop fuel [];
  mret (StreamFilter ms).

(** ** Words, functions and field filters *)

(** [i(...)] after its name. *)
Definition parseAnyCase : P FilterExpr :=
  _ ← advance;
  tok ← peek;
  match Typ tok with
  | TokString =>
      val ← advance;
      _ ← expect TokRParen;
      mret (CaseInsensitive (Val val))
  | TokIdent =>
      word ← advance;
      t ← peekTyp;
      if is_typ t TokStar then
        _ ← advance;
        _ ← expect TokRParen;
        mret (AnyCasePrefix (Val word))
      else
        _ ← expect TokRParen;
        mret (CaseInsensitive (Val word))
  | _ => fail ("logsql: unexpected token inside i(): " +:+ Quote (Val tok))
  end.

(** [contains_all(...)] and [contains_any(...)]. *)
Definition parseContains (fuel : nat) (name : string) : P FilterExpr :=
  _ ← advance;
  parts ← partsLoop fuel [];
  _ ← expect TokRParen;
  mret (if String.eqb name "contains_all" then ContainsAll parts else ContainsAny parts).

Definition parseLenRange (fuel : nat) : P FilterExpr :=
  _ ← advance;
  raw ← consumeUntilRParen fuel "";
  let '(min, max) := minMax raw in
  mret (LenRange "" min max).

Definition parsePattern (fuel : nat) : P FilterExpr :=
  _ ← advance;
  raw ← consumeUntilRParen fuel "";
  mret (PatternMatch "" raw).

(** The message filters that look like calls. *)
Definition messageCall (fuel : nat) (name : string) : option (P FilterExpr) :=
  if String.eqb name "i" then Some parseAnyCase
  else if String.eqb name "contains_all" || String.eqb name "contains_any"
  then Some (parseContains fuel name)
  else if String.eqb name "len_range" then Some (parseLenRange fuel)
  else if String.eqb name "pattern" then Some (parsePattern fuel)
  else None.

(** The operators with an identifier for value. *)
Definition orderOp (t : TokType) : option FieldOp :=
  match t with
  | TokColonGT => Some FieldOpGT
  | TokColonGTE => Some FieldOpGTE
  | TokColonLT => Some FieldOpLT
  | TokColonLTE => Some FieldOpLTE
  | _ => None
  end.

(** What may follow a name that is not a call. *)
Definition parseFieldOp (fuel : nat) (name : string) : P FilterExpr :=
  t ← peekTyp;
  match t with
  | TokStar => _ ← advance; mret (Prefix name)
  | TokColonEq => _ ← advance; val ← expectString; mret (field name FieldOpExact val)
  | TokColonTilde => _ ← advance; val ← expectString; mret (field name FieldOpRegexp val)
  | TokColon => _ ← advance; parseBareCsFilterValue fuel name
  | _ =>
      match orderOp t with
      | Some op => _ ← advance; val ← expectIdent; mret (field name op val)
      | None => mret (Word name)
      end
  end.

Definition parseIdentOrFieldFilter (fuel : nat) : P FilterExpr :=
  tok ← advance;
  let name := Val tok in
  if String.eqb name "_time" then parseTimeFilter
  else
    match messageCall fuel name with
    | Some m =>
        t ← peekTyp;
        if is_typ t TokLParen then m else mret (Word name)
    | None => parseFieldOp fuel name
    end.

(** ** The grammar: OR < AND < NOT < primary *)

Definition parseStar : P FilterExpr :=
  _ ← advance;
  t ← peekTyp;
  if is_typ t TokIdent then
    ident ← advance;
    t ← peekTyp;
    if is_typ t TokStar then _ ← advance; mret (Substring (Val ident))
    else fail ("logsql: unrecognised pattern *" +:+ Val ident +:+ " (missing trailing *?)")
  else mret Wildcard.

Definition parseExact : P FilterExpr :=
  _ ← advance;
  val ← expectString;
  t ← peekTyp;
  if is_typ t TokStar then _ ← advance; mret (ExactPrefix val) else mret (Exact val).

(** [rec] parses the expression inside parentheses. *)
Definition parsePrimaryFilter (rec : P FilterExpr) (fuel : nat) : P FilterExpr :=
  tok ← peek;
  match Typ tok with
  | TokLParen =>
      _ ← advance;
      inner ← rec;
      _ ← expect TokRParen;
      mret inner
  | TokLBrace => parseStreamFilter fuel
  | TokStar => parseStar
  | TokString => _ ← advance; mret (Phrase (Val tok))
  | TokEq => parseExact
  | TokTilde => _ ← advance; val ← expectString; mret (Regexp val)
  | TokIdent => parseIdentOrFieldFilter fuel
  | _ => fail ("logsql: unexpected token " +:+ typed tok +:+ " in filter")
  end.

Fixpoint parseNotExpr (rec : P FilterExpr) (fuel : nat) : P FilterExpr :=
  match fuel with
  | O => no_fuel
  | S fuel' =>
      t ← peekTyp;
      if is_typ t TokNot then
        _ ← advance;
        expr ← parseNotExpr rec fuel';
        mret (NotExpr expr)
      else parsePrimaryFilter rec fuel
  end.

Fixpoint andLoop (rec : P FilterExpr) (fuel : nat) (left : FilterExpr) : P FilterExpr :=
  match fuel with
  | O => no_fuel
  | S fuel' =>
      t ← peekTyp;
      if is_typ t TokAnd then
        _ ← advance;
        right ← parseNotExpr rec fuel;
        andLoop rec fuel' (AndExpr left right)
      else mret left
  end.

Definition parseAndExpr (rec : P FilterExpr) (fuel : nat) : P FilterExpr :=
  left ← parseNotExpr rec fuel;
  andLoop rec fuel left.

Fixpoint orLoop (rec : P FilterExpr) (fuel : nat) (left : FilterExpr) : P FilterExpr :=
  match fuel with
  | O => no_fuel
  | S fuel' =>
      t ← peekTyp;
      if is_typ t TokOr then
        _ ← advance;
        right ← parseAndExpr rec fuel;
        orLoop rec fuel' (OrExpr left right)
      else mret left
  end.

Definition parseOrExpr (rec : P FilterExpr) (fuel : nat) : P FilterExpr :=
  left ← parseAndExpr rec fuel;
  orLoop rec fuel left.

Fixpoint parseFilterExpr (fuel : nat) : P FilterExpr :=
  match fuel with
  | O => no_fuel
  | S fuel' => parseOrExpr (parseFilterExpr fuel') fuel
  end.

Definition filterBody (fuel : nat) : P FilterExpr :=
  f ← parseFilterExpr fuel;
  tok ← peek;
  if is_typ (Typ tok) TokEOF then mret f
  else fail ("logsql: unexpected token after filter: " +:+ Quote (Val tok)).

Definition ParseFilter (input : string) : outcome FilterExpr :=
  filterBody (S (String.length input)) (newParser input).

(** ** Arguments of pipes *)

Definition wrap {A} (what : string) (m : P A) : P A :=
  errorf (λ e, "logsql: " +:+ what +:+ ": " +:+ e) m.

(** A sign and digits, whatever their value. *)
Definition integer_text (s : string) : bool :=
  let '(_, r) := split_sign s in starts_digit r && all_digits r.

Definition atoiError (s : string) : string :=
  "strconv.Atoi: parsing " +:+ Quote s +:+
  (if integer_text s then ": value out of range" else ": invalid syntax").

Definition parseInt : P Z :=
  tok ← expect TokIdent;
  match Atoi (Val tok) with
  | Some n => mret n
  | None => fail ("logsql: expected integer, got " +:+ Quote (Val tok) +:+ ": " +:+ atoiError (Val tok))
  end.

(** Identifiers with commas between them, up to the end of the pipe. *)
Fixpoint commaIdents (fuel : nat) (fields : list string) : P (list string) :=
  match fuel with
  | O => no_fuel
  | S fuel =>
      t ← peekTyp;
      if is_typ t TokEOF || is_typ t TokPipe then mret fields
      else
        ident ← expectIdent;
        t ← peekTyp;
        if is_typ t TokComma then _ ← advance; commaIdents fuel (fields ++ [ident])
        else mret (fields ++ [ident])
  end.

Definition parseCommaSeparatedIdents (fuel : nat) : P (list string) := commaIdents fuel [].

(** Items up to the closing parenthesis, with optional commas. *)
Fixpoint itemsLoop {A} (item : P A) (fuel : nat) (acc : list A) : P (list A) :=
  match fuel with
  | O => no_fuel
  | S fuel =>
      t ← peekTyp;
      if is_typ t TokRParen || is_typ t TokEOF then mret acc
      else x ← item; _ ← optComma; itemsLoop item fuel (acc ++ [x])
  end.

Definition parseListInParens {A} (item : P A) (fuel : nat) : P (list A) :=
  _ ← expect TokLParen;
  xs ← itemsLoop item fuel [];
  _ ← expect TokRParen;
  mret xs.

Definition parseIdentListInParens (fuel : nat) : P (list string) := parseListInParens expectIdent fuel.

Definition parseOptionalByClause (fuel : nat) : P (list string) :=
  w ← peekWord "by";
  if (w : bool) then _ ← advance; parseIdentListInParens fuel else mret [].

(** An optional keyword and the argument [m] reads after it. *)
Definition optKeyword {A} (w : string) (dflt : A) (m : P A) : P A :=
  b ← peekWord w;
  if (b : bool) then _ ← advance; m else mret dflt.

(** [as result]. *)
Definition expectAs (msg : string → string) : P string :=
  tok ← advance;
  if is_word "as" tok then expectIdent
  else fail (msg (Quote (Val tok))).

(** ** Stats functions *)

(** Identifiers with optional commas, and an optional closing parenthesis. *)
Fixpoint rowFields (fuel : nat) (fields : list string) : P (list string) :=
  match fuel with
  | O => no_fuel
  | S fuel =>
      t ← peekTyp;
      if is_typ t TokIdent then tok ← advance; _ ← optComma; rowFields fuel (fields ++ [Val tok])
      else mret fields
  end.

Definition rowClose : P () :=
  t ← peekTyp;
  if is_typ t TokRParen then _ ← advance; mret () else mret ().

Definition rowOpen (name : string) : P () :=
  t ← peekTyp;
  if is_typ t TokLParen then _ ← advance; mret () else fail ("logsql: expected ( after " +:+ name).

Definition parseRowAny (fuel : nat) : P StatsFunc :=
  _ ← rowOpen "row_any";
  fields ← rowFields fuel [];
  _ ← rowClose;
  mret (RowAny fields).

Definition parseRowBy (fuel : nat) (name : string) : P StatsFunc :=
  _ ← rowOpen name;
  by_ ← advance;
  _ ← optComma;
  fields ← rowFields fuel [];
  _ ← rowClose;
  mret (if String.eqb name "row_min" then RowMin (Val by_) fields else RowMax (Val by_) fields).

(** The first result of [strconv.Atoi], which the code uses without the error: 0 for a
    text that is no number, the nearest integer for one out of range. *)
Definition AtoiValue (s : string) : Z :=
  match Atoi s with
  | Some n => n
  | None =>
      if integer_text s then (if fst (split_sign s) then MinInt64 else MaxInt64) else 0
  end.

Definition statsWrap {A} (name : string) (m : P A) : P A := wrap ("stats func " +:+ Quote name) m.

(** [name(a, b)]: the values of two tokens. *)
Definition parseTwoArgs (name : string) : P (string * string) :=
  _ ← statsWrap name (expect TokLParen);
  a ← advance;
  _ ← optComma;
  b ← advance;
  _ ← statsWrap name (expect TokRParen);
  mret (Val a, Val b).

(** The functions of one optional field. *)
Definition statsTable : list (string * (string → StatsFunc)) :=
  [("count", λ _, Count); ("sum", Sum); ("min", Min); ("max", Max); ("avg", Avg); ("median", Median);
   ("rate", λ _, Rate); ("rate_sum", RateSum); ("count_uniq", CountUniq);
   ("count_uniq_hash", CountUniqHash); ("field_max", FieldMax); ("field_min", FieldMin);
   ("json_values", JSONValues); ("json_values_sorted", JSONValuesSorted); ("any", Any);
   ("count_empty", CountEmpty); ("sum_len", SumLen); ("histogram", Histogram); ("last", Last);
   ("first", First); ("stddev", Stddev); ("stdvar", Stdvar)].

Fixpoint assoc {A} (name : string) (l : list (string * A)) : option A :=
  match l with
  | [] => None
  | (k, v) :: l => if String.eqb name k then Some v else assoc name l
  end.

(** Any function of one optional field; an unknown name is refused after its
    parentheses. *)
Definition parseFieldFunc (name : string) : P StatsFunc :=
  _ ← statsWrap name (expect TokLParen);
  t ← peekTyp;
  field ← (if is_typ t TokIdent then tok ← advance; mret (Val tok) else mret "");
  _ ← statsWrap name (expect TokRParen);
  match assoc name statsTable with
  | Some f => mret (f field)
  | None => fail ("logsql: unknown stats function " +:+ Quote name)
  end.

Definition parseStatsFunc (fuel : nat) : P StatsFunc :=
  tok ← advance;
  let name := Val tok in
  if String.eqb name "row_any" then parseRowAny fuel
  else if String.eqb name "row_max" || String.eqb name "row_min" then parseRowBy fuel name
  else if String.eqb name "quantile" then
    '(phi, field) ← parseTwoArgs name; mret (Quantile (ParseFloatValue phi) field)
  else if String.eqb name "json_values_topk" then
    '(field, limit) ← parseTwoArgs name; mret (JSONValuesTopK field (AtoiValue limit))
  else if String.eqb name "uniq_values" then
    '(field, limit) ← parseTwoArgs name; mret (UniqValues field (AtoiValue limit))
  else if String.eqb name "values" then
    '(field, limit) ← parseTwoArgs name; mret (Values field (AtoiValue limit))
  else parseFieldFunc name.

Fixpoint funcsLoop (fuel : nat) (keyword : string) (funcs : list StatsFuncAlias) : P (list StatsFuncAlias) :=
  match fuel with
  | O => no_fuel
  | S fuel' =>
      t ← peekTyp;
      if negb (is_typ t TokIdent) then mret funcs
      else
        fn ← parseStatsFunc fuel;
        alias ← expectAs (λ q, "logsql: " +:+ keyword +:+ ": expected 'as' after stats func, got " +:+ q);
        t ← peekTyp;
        if is_typ t TokComma
        then _ ← advance; funcsLoop fuel' keyword (funcs ++ [mkAlias fn alias])
        else mret (funcs ++ [mkAlias fn alias])
  end.

Definition parseStatsBody (fuel : nat) (keyword : string) : P (list GroupKey * list StatsFuncAlias) :=
  byKeys ← parseOptionalByClause fuel;
  funcs ← funcsLoop fuel keyword [];
  match funcs with
  | [] => fail ("logsql: " +:+ keyword +:+ " requires at least one function")
  | _ => mret (byKeys, funcs)
  end.

(** ** Raw text *)

(** The text up to the next pipe symbol; the symbol itself is consumed as well. *)
Definition rawChunk : P string :=
  _ ← clearBuf;
  raw ← Remaining;
  let '(chunk, rest) := span (λ a, negb (Ascii.eqb a "|")) raw in
  _ ← setText rest;
  _ ← advance;
  mret (TrimSpace chunk).

Inductive quoting : Type := Plain | Quoted | Escaped.

(** The offset of the parenthesis that closes [depth] open ones.  Parentheses in a
    double-quoted literal do not count. *)
Fixpoint closing (depth : nat) (m : quoting) (s : string) : option nat :=
  match s with
  | "" => None
  | String a s =>
      match m with
      | Escaped => S <$> closing depth Quoted s
      | Quoted =>
          S <$> closing depth (if Ascii.eqb a dquote then Plain
                               else if Ascii.eqb a bslash then Escaped else Quoted) s
      | Plain =>
          if Ascii.eqb a "(" then S <$> closing (S depth) Plain s
          else if Ascii.eqb a ")" then
            match depth with
            | O | 1%nat => Some 0%nat
            | S depth => S <$> closing depth Plain s
            end
          else S <$> closing depth (if Ascii.eqb a dquote then Quoted else Plain) s
      end
  end.

Definition consumeInnerQuery : P string :=
  _ ← expect TokLParen;
  _ ← clearBuf;
  rest ← Remaining;
  match closing 1 Plain rest with
  | Some pos =>
      _ ← setText (Skip (S pos) rest);
      mret (TrimSpace (prefix pos rest))
  | None => fail "logsql: unclosed ( in inner query"
  end.

Definition containsAny (s chars : string) : bool :=
  negb (all_bytes_of (λ a, negb (ContainsByte a chars)) s).

Fixpoint Index (sub s : string) : option nat :=
  if HasPrefix s sub then Some 0%nat
  else
    match s with
    | "" => None
    | String _ s => S <$> Index sub s
    end.

Fixpoint LastIndex (sub s : string) : option nat :=
  match s with
  | "" => if HasPrefix s sub then Some 0%nat else None
  | String _ s' =>
      match LastIndex sub s' with
      | Some i => Some (S i)
      | None => if HasPrefix s sub then Some 0%nat else None
      end
  end.

Definition tabChar : string := ch 9.

(** [alias:=expr]. *)
Definition mathAssign (chunk : string) : option Pipe :=
  match Index ":=" chunk with
  | Some (S i) =>
      let alias := TrimSpace (prefix (S i) chunk) in
      let expr := TrimSpace (suffix (S i + 2) chunk) in
      if containsAny alias (" " +:+ tabChar +:+ "+-*/()|") || String.eqb expr "" then None
      else Some (PipeMath expr alias)
  | _ => None
  end.

Definition mathError (chunk : string) : string :=
  "logsql: pipe math: expected 'alias:=expr' or 'expr as alias', got " +:+ Quote chunk.

(** [expr as alias], at the last [" as "] of the lower-cased text.  The offset is one of
    the lower-cased text and slices the original, which panics when lower case is
    longer and the offset lies beyond the end. *)
Definition mathAs (chunk : string) : P Pipe :=
  match LastIndex " as " (lowerString chunk) with
  | Some i =>
      if (i + 4 <=? String.length chunk)%nat then
        let expr := TrimSpace (prefix i chunk) in
        let alias := TrimSpace (suffix (i + 4) chunk) in
        if String.eqb expr "" || String.eqb alias "" || containsAny alias (" " +:+ tabChar +:+ "+-*/()")
        then fail (mathError chunk)
        else mret (PipeMath expr alias)
      else λ _, Panic
  | None => fail (mathError chunk)
  end.

Definition parsePipeMath : P Pipe :=
  chunk ← rawChunk;
  match mathAssign chunk with
  | Some p => mret p
  | None => mathAs chunk
  end.

(** ** Pipes *)

Definition sortField : P SortField :=
  ident ← expectIdent;
  w ← peekWord "desc";
  if (w : bool) then _ ← advance; mret (mkSortField ident true) else mret (mkSortField ident false).

Definition expectBy (msg : string) : P () :=
  tok ← advance;
  if is_word "by" tok then mret () else fail msg.

Definition parsePipeSort (fuel : nat) : P Pipe :=
  _ ← expectBy "logsql: expected 'by' after sort";
  fields ← parseListInParens sortField fuel;
  limit ← optKeyword "limit" 0 parseInt;
  mret (PipeSort fields limit).

Definition parsePipeStatsLike (fuel : nat) (keyword : string) : P Pipe :=
  '(by_, funcs) ← parseStatsBody fuel keyword;
  mret (if String.eqb keyword "stats" then PipeStats by_ funcs
        else if String.eqb keyword "running_stats" then PipeRunningStats by_ funcs
        else PipeTotalStats by_ funcs).

Definition parsePipeTopN (fuel : nat) : P Pipe :=
  n ← wrap "pipe top" parseInt;
  by_ ← wrap "pipe top" (parseOptionalByClause fuel);
  mret (PipeTop n by_).

Definition parsePipeFirstLast (fuel : nat) (isLast : bool) : P Pipe :=
  tok ← peek;
  n ← match (if is_typ (Typ tok) TokIdent then Atoi (Val tok) else None) with
      | Some v => _ ← advance; mret v
      | None => mret 0
      end;
  by_ ← wrap "pipe first/last" (parseOptionalByClause fuel);
  mret (if isLast then PipeLast n by_ else PipeFirst n by_).

Definition parsePipeUniq (fuel : nat) : P Pipe :=
  by_ ← wrap "pipe uniq" (parseOptionalByClause fuel); mret (PipeUniq by_).

Fixpoint copyLoop (fuel : nat) (pairs : list (string * string)) : P (list (string * string)) :=
  match fuel with
  | O => no_fuel
  | S fuel =>
      t ← peekTyp;
      if is_typ t TokEOF || is_typ t TokPipe then mret pairs
      else
        src ← wrap "pipe copy" expectIdent;
        tok ← advance;
        if negb (is_word "as" tok)
        then fail ("logsql: pipe copy: expected 'as' after " +:+ Quote src +:+ ", got " +:+ Quote (Val tok))
        else
          dst ← wrap "pipe copy" expectIdent;
          t ← peekTyp;
          if is_typ t TokComma then _ ← advance; copyLoop fuel (pairs ++ [(src, dst)])
          else mret (pairs ++ [(src, dst)])
  end.

Definition parsePipeCopy (fuel : nat) : P Pipe := pairs ← copyLoop fuel []; mret (PipeCopy pairs).

(** [as result] of the pipe [name]. *)
Definition resultOf (name : string) : P string :=
  tok ← advance;
  if is_word "as" tok then wrap ("pipe " +:+ name) expectIdent
  else fail ("logsql: pipe " +:+ name +:+ ": expected 'as', got " +:+ Quote (Val tok)).

Definition parsePipeCoalesce (fuel : nat) : P Pipe :=
  fields ← wrap "pipe coalesce" (parseIdentListInParens fuel);
  def ← optKeyword "default" "" (wrap "pipe coalesce default" expectString);
  result ← resultOf "coalesce";
  mret (PipeCoalesce fields def result).

Definition parsePipeCollapseNums : P Pipe :=
  field ← optKeyword "at" "" (wrap "pipe collapse_nums" expectIdent);
  mret (PipeCollapseNums field).

Definition parsePipeDecolorize : P Pipe :=
  t ← peekTyp;
  if is_typ t TokIdent then tok ← advance; mret (PipeDecolorize (Val tok)) else mret (PipeDecolorize "").

Definition parsePipeFacets : P Pipe :=
  n ← optKeyword "limit" 0 (wrap "pipe facets" parseInt); mret (PipeFacets n).

Definition parsePipeFieldValues : P Pipe :=
  field ← wrap "pipe field_values" expectIdent;
  limit ← optKeyword "limit" 0 (wrap "pipe field_values" parseInt);
  mret (PipeFieldValues field limit).

Definition parsePipeGenerateSequence : P Pipe :=
  _ ← optKeyword "limit" () (mret ());
  n ← wrap "pipe generate_sequence" parseInt;
  mret (PipeGenerateSequence n).

Definition parsePipeHash (fuel : nat) : P Pipe :=
  fields ← wrap "pipe hash" (parseIdentListInParens fuel);
  result ← resultOf "hash";
  mret (PipeHash fields result).

Definition parsePipeJoin (fuel : nat) : P Pipe :=
  _ ← expectBy "logsql: pipe join: expected 'by'";
  by_ ← wrap "pipe join" (parseIdentListInParens fuel);
  inner ← wrap "pipe join" consumeInnerQuery;
  prefix ← optKeyword "prefix" "" (wrap "pipe join" expectIdent);
  mret (PipeJoin by_ inner prefix).

(** [name(field) as result]. *)
Definition parseFieldAs (name : string) : P (string * string) :=
  _ ← wrap ("pipe " +:+ name) (expect TokLParen);
  field ← wrap ("pipe " +:+ name) expectIdent;
  _ ← wrap ("pipe " +:+ name) (expect TokRParen);
  result ← resultOf name;
  mret (field, result).

Definition parsePipeJSONArrayLen : P Pipe :=
  '(field, result) ← parseFieldAs "json_array_len"; mret (PipeJSONArrayLen field result).

Definition parsePipeLen : P Pipe :=
  '(field, result) ← parseFieldAs "len"; mret (PipeLen field result).

(** [[from field] [as result]]. *)
Definition fromAs (name : string) : P (string * string) :=
  from ← optKeyword "from" "" (wrap ("pipe " +:+ name) expectIdent);
  as_ ← optKeyword "as" "" (wrap ("pipe " +:+ name) expectIdent);
  mret (from, as_).

Definition parsePipeJSONArrayConcat : P Pipe :=
  t ← peekTyp;
  let has := is_typ t TokString in
  delim ← (if has then wrap "pipe json_array_concat" expectString else mret "");
  '(from, as_) ← fromAs "json_array_concat";
  mret (PipeJSONArrayConcat delim has from as_).

Definition parsePipeSplit : P Pipe :=
  sep ← wrap "pipe split" expectString;
  '(from, as_) ← fromAs "split";
  mret (PipeSplit sep from as_).

Fixpoint contextLoop (fuel : nat) (before after : Z) : P Pipe :=
  match fuel with
  | O => no_fuel
  | S fuel =>
      tok ← peek;
      if is_word "before" tok then
        _ ← advance; n ← wrap "pipe stream_context" parseInt; contextLoop fuel n after
      else if is_word "after" tok then
        _ ← advance; n ← wrap "pipe stream_context" parseInt; contextLoop fuel before n
      else mret (PipeStreamContext before after)
  end.

Definition parsePipeStreamContext (fuel : nat) : P Pipe := contextLoop fuel 0 0.

Definition parsePipeUnpackWords : P Pipe :=
  '(from, as_) ← fromAs "unpack_words"; mret (PipeUnpackWords from as_).

Definition parsePipeUnroll (fuel : nat) : P Pipe :=
  fields ← wrap "pipe unroll" (parseIdentListInParens fuel); mret (PipeUnroll fields).

Definition parsePipeUpdate : P Pipe :=
  field ← wrap "pipe update" expectIdent;
  _ ← wrap "pipe update: expected '='" (expect TokEq);
  raw ← rawChunk;
  mret (PipeUpdate field raw).

(** The switch of [parsePipe]. *)
Definition pipeTable (fuel : nat) : list (string * P Pipe) :=
  [("unpack_json", mret (PipeUnpackJSON "" false));
   ("unpack_logfmt", mret (PipeUnpackLogfmt "" false));
   ("filter", e ← wrap "pipe filter" (parseFilterExpr fuel); mret (PipeFilter e));
   ("fields", ls ← wrap "pipe fields" (parseCommaSeparatedIdents fuel); mret (PipeFields ls));
   ("delete", ls ← wrap "pipe delete" (parseCommaSeparatedIdents fuel); mret (PipeDelete ls));
   ("limit", n ← wrap "pipe limit" parseInt; mret (PipeLimit n));
   ("sort", parsePipeSort fuel);
   ("stats", parsePipeStatsLike fuel "stats");
   ("math", parsePipeMath);
   ("top", parsePipeTopN fuel);
   ("first", parsePipeFirstLast fuel false);
   ("last", parsePipeFirstLast fuel true);
   ("sample", n ← wrap "pipe sample" parseInt; mret (PipeSample n));
   ("offset", n ← wrap "pipe offset" parseInt; mret (PipeOffset n));
   ("uniq", parsePipeUniq fuel);
   ("field_names", mret PipeFieldNames);
   ("drop_empty_fields", mret PipeDropEmptyFields);
   ("copy", parsePipeCopy fuel);
   ("coalesce", parsePipeCoalesce fuel);
   ("collapse_nums", parsePipeCollapseNums);
   ("decolorize", parsePipeDecolorize);
   ("facets", parsePipeFacets);
   ("field_values", parsePipeFieldValues);
   ("generate_sequence", parsePipeGenerateSequence);
   ("hash", parsePipeHash fuel);
   ("join", parsePipeJoin fuel);
   ("json_array_concat", parsePipeJSONArrayConcat);
   ("json_array_len", parsePipeJSONArrayLen);
   ("len", parsePipeLen);
   ("query_stats", mret PipeQueryStats);
   ("running_stats", parsePipeStatsLike fuel "running_stats");
   ("set_stream_fields",
      ls ← wrap "pipe set_stream_fields" (parseCommaSeparatedIdents fuel); mret (PipeSetStreamFields ls));
   ("split", parsePipeSplit);
   ("stream_context", parsePipeStreamContext fuel);
   ("time_add", d ← wrap "pipe time_add" expectIdent; mret (PipeTimeAdd d));
   ("total_stats", parsePipeStatsLike fuel "total_stats");
   ("union", inner ← wrap "pipe union" consumeInnerQuery; mret (PipeUnion inner));
   ("unpack_syslog", mret PipeUnpackSyslog);
   ("unpack_words", parsePipeUnpackWords);
   ("unroll", parsePipeUnroll fuel);
   ("update", parsePipeUpdate)].

Definition parsePipe (fuel : nat) : P Pipe :=
  tok ← peek;
  if negb (is_typ (Typ tok) TokIdent)
  then fail ("logsql: expected pipe name after |, got " +:+ typed tok)
  else
    name ← advance;
    match assoc (Val name) (pipeTable fuel) with
    | Some m => m
    | None => fail ("logsql: unknown pipe " +:+ Quote (Val name))
    end.

Fixpoint pipesLoop (fuel : nat) (pipes : list Pipe) : P (list Pipe) :=
  match fuel with
  | O => no_fuel
  | S fuel' =>
      t ← peekTyp;
      if is_typ t TokPipe then
        _ ← advance;
        pipe ← parsePipe fuel;
        pipesLoop fuel' (pipes ++ [pipe])
      else mret pipes
  end.

Definition parseQuery (fuel : nat) : P Query :=
  t ← peekTyp;
  if is_typ t TokEOF then fail "logsql: empty query"
  else if is_typ t TokPipe then fail "logsql: query cannot start with pipe"
  else
    filter ← parseFilterExpr fuel;
    pipes ← pipesLoop fuel [];
    tok ← peek;
    if is_typ (Typ tok) TokEOF then mret (mkQuery (Some filter) pipes)
    else fail ("logsql: unexpected token " +:+ Quote (Val tok) +:+ " after query").

Definition Parse (input : string) : outcome Query :=
  parseQuery (S (String.length input)) (newParser input).

(** ** Its one client: src/internal/proxy/stream_processing.go *)

Fixpoint isStatsQueryHeuristic (inQuote : bool) (s : string) : bool :=
  match s with
  | "" => false
  | String a s' =>
      let escaped :=
        match s' with
        | String _ s'' => if inQuote && Ascii.eqb a bslash then Some s'' else None
        | "" => None
        end in
      match escaped with
      | Some _ => match s' with String _ s'' => isStatsQueryHeuristic inQuote s'' | "" => false end
      | None =>
          if Ascii.eqb a dquote then isStatsQueryHeuristic (negb inQuote) s'
          else if inQuote then isStatsQueryHeuristic inQuote s'
          else if HasPrefix s "| stats " || HasPrefix s "| rate(" || HasPrefix s "| count(" then true
          else isStatsQueryHeuristic inQuote s'
      end
  end.

Definition isStatsPipe (p : Pipe) : bool :=
  match p with
  | PipeStats _ _ | PipeRunningStats _ _ | PipeTotalStats _ _ => true
  | _ => false
  end.

(** [None] is a panic. *)
Definition isStatsQuery (query : string) : option bool :=
  match Parse query with
  | Done q _ => Some (existsb isStatsPipe (q_Pipes q) || isStatsQueryHeuristic false query)
  | Fail _ => Some (isStatsQueryHeuristic false query)
  | Panic | NoFuel => None
  end.

(** ** Termination

    [size] bounds the tokens that are left: a byte each, and one for the buffer. *)

Definition pending (o : option Token) : nat :=
  match o with
  | Some t => if is_typ (Typ t) TokEOF then 0%nat else 1%nat
  | None => 0%nat
  end.

Definition size (p : parser) : nat := (String.length (sc p) + pending (buf p))%nat.

(** [m] does not run out of fuel from [p] and ends in [Q]. *)
Definition wp {A} (m : P A) (p : parser) (Q : A → parser → Prop) : Prop :=
  match m p with
  | Done a p' => Q a p'
  | Fail _ | Panic => True
  | NoFuel => False
  end.

Lemma wp_mono {A} (m : P A) p (Q R : A → parser → Prop) :
  wp m p Q → (∀ a p', Q a p' → R a p') → wp m p R.
Proof. unfold wp. destruct (m p); eauto. Qed.

Lemma wp_ret {A} (a : A) p (Q : A → parser → Prop) : Q a p → wp (mret a) p Q.
Proof. done. Qed.

Lemma wp_fail {A} msg p (Q : A → parser → Prop) : wp (fail msg) p Q.
Proof. done. Qed.

Lemma wp_bind {A B} (m : P A) (f : A → P B) p (Q : B → parser → Prop) :
  wp m p (λ a p', wp (f a) p' Q) → wp (m ≫= f) p Q.
Proof. unfold wp. change ((m ≫= f) p) with (P_bind A B f m p). unfold P_bind. by destruct (m p). Qed.

Lemma wp_errorf {A} g (m : P A) p (Q : A → parser → Prop) : wp m p Q → wp (errorf g m) p Q.
Proof. unfold wp, errorf. by destruct (m p). Qed.

Lemma wp_peek p (Q : Token → parser → Prop) :
  (∀ t p', buf p' = Some t → (size p' ≤ size p)%nat → Q t p') → wp peek p Q.
Proof.
  intros HQ. unfold wp, peek. destruct (buf p) as [t|] eqn:E; [by apply HQ|].
  pose proof (Next_progress (sc p)) as Hn. destruct (Next (sc p)) as [t s]. cbn in Hn.
  apply HQ; [done|]. unfold size. cbn [sc buf]. rewrite E. cbn [pending]. unfold is_typ.
  destruct (bool_decide (Typ t = TokEOF)); [subst; cbn|]; lia.
Qed.

(** A token is consumed unless the text has ended; it is the one in the buffer. *)
Lemma wp_advance p (Q : Token → parser → Prop) :
  (∀ t p', buf p' = None → (∀ u, buf p = Some u → t = u) →
     (size p' + pending (Some t) ≤ size p)%nat → Q t p') → wp advance p Q.
Proof.
  intros HQ. unfold advance. apply wp_bind.
  destruct (buf p) as [u|] eqn:E.
  - unfold wp at 1, peek. rewrite E. apply wp_bind. unfold wp, clearBuf. cbn.
    apply HQ; [done|by intros ? [= ->]|]. unfold size. rewrite E. cbn. lia.
  - unfold wp at 1, peek. rewrite E.
    pose proof (Next_progress (sc p)) as Hn. destruct (Next (sc p)) as [t s]. cbn in Hn.
    cbn. apply HQ; [done|done|]. unfold size. cbn [sc buf pending]. rewrite E. cbn [pending]. unfold is_typ.
    destruct (bool_decide (Typ t = TokEOF)); [subst; cbn|]; lia.
Qed.

Lemma pending_ne t k : is_typ (Typ t) k = true → k ≠ TokEOF → pending (Some t) = 1%nat.
Proof. unfold is_typ, pending. intros ->%bool_decide_eq_true ?. unfold is_typ. by rewrite bool_decide_false. Qed.

Lemma wp_peekTyp p (Q : TokType → parser → Prop) :
  (∀ t p', buf p' = Some t → (size p' ≤ size p)%nat → Q (Typ t) p') → wp peekTyp p Q.
Proof. intros HQ. apply wp_bind, wp_peek. intros. by apply wp_ret, HQ. Qed.

Lemma wp_peekWord w p (Q : bool → parser → Prop) :
  (∀ t p', buf p' = Some t → (size p' ≤ size p)%nat → Q (is_word w t) p') → wp (peekWord w) p Q.
Proof. intros HQ. apply wp_bind, wp_peek. intros. by apply wp_ret, HQ. Qed.

(** What consumes at least a token when it succeeds. *)
Definition eats {A} (m : P A) : Prop := ∀ p, wp m p (λ _ p', (size p' < size p)%nat).

(** What never adds to the text. *)
Definition keeps {A} (m : P A) : Prop := ∀ p, wp m p (λ _ p', (size p' ≤ size p)%nat).

Lemma eats_keeps {A} (m : P A) : eats m → keeps m.
Proof. intros Hm p. eapply wp_mono; [apply Hm|]. cbn. lia. Qed.

Lemma advance_keeps : keeps advance.
Proof. intros p. apply wp_advance. lia. Qed.

(** Advancing over a token that was seen not to be the end. *)
Lemma wp_advance_seen p u (Q : Token → parser → Prop) :
  buf p = Some u → Typ u ≠ TokEOF → (∀ p', buf p' = None → (size p' < size p)%nat → Q u p') → wp advance p Q.
Proof.
  intros Hb Hu HQ. apply wp_advance. intros t p' Hn Ht Hs. specialize (Ht _ Hb) as ->.
  apply HQ; [done|]. rewrite (pending_ne u (Typ u)) in Hs; [lia| |done]. unfold is_typ. by apply bool_decide_eq_true.
Qed.

Lemma expect_eats t : t ≠ TokEOF → eats (expect t).
Proof.
  intros Ht p. apply wp_bind, wp_advance. intros tok p' _ _ Hs.
  destruct (is_typ (Typ tok) t) eqn:E; [|apply wp_fail]. apply wp_ret.
  rewrite (pending_ne _ _ E Ht) in Hs. lia.
Qed.

Lemma expectIdent_eats : eats expectIdent.
Proof.
  intros p. apply wp_bind, wp_advance. intros tok p' _ _ Hs.
  destruct (is_typ (Typ tok) TokIdent) eqn:E; [|apply wp_fail]. apply wp_ret.
  rewrite (pending_ne _ _ E ltac:(done)) in Hs. lia.
Qed.

Lemma expectString_eats : eats expectString.
Proof.
  intros p. apply wp_bind, wp_advance. intros tok p' _ _ Hs.
  destruct (is_typ (Typ tok) TokString) eqn:E; [|apply wp_fail]. apply wp_ret.
  rewrite (pending_ne _ _ E ltac:(done)) in Hs. lia.
Qed.

Lemma optComma_keeps : keeps optComma.
Proof.
  intros p. apply wp_bind, wp_peekTyp. intros t p' Hb Hs. destruct (is_typ (Typ t) TokComma).
  - apply wp_bind, wp_advance. intros. apply wp_ret. lia.
  - apply wp_ret. lia.
Qed.

(** The text itself can only be cut. *)
Lemma wp_clearBuf p (Q : () → parser → Prop) :
  (∀ p', buf p' = None → sc p' = sc p → (size p' ≤ size p)%nat → Q () p') → wp clearBuf p Q.
Proof. intros HQ. apply HQ; [done|done|]. unfold size. cbn. lia. Qed.

Lemma wp_Remaining p (Q : string → parser → Prop) : Q (sc p) p → wp Remaining p Q.
Proof. done. Qed.

Lemma wp_setText s p (Q : () → parser → Prop) :
  buf p = None → (String.length s ≤ String.length (sc p))%nat →
  (∀ p', buf p' = None → sc p' = s → (size p' ≤ size p)%nat → Q () p') → wp (setText s) p Q.
Proof. intros Hb Hl HQ. apply HQ; [done|done|]. unfold size. cbn. rewrite Hb. cbn. lia. Qed.

(** Within the fuel [n]. *)
Definition within_fuel {A} (n : nat) (m : P A) : Prop :=
  ∀ p, (size p < n)%nat → wp m p (λ _ p', (size p' ≤ size p)%nat).

Lemma keeps_within {A} n (m : P A) : keeps m → within_fuel n m.
Proof. intros Hm p _. apply Hm. Qed.

Lemma typ_is a b : is_typ a b = true → a = b.
Proof. apply bool_decide_eq_true_1. Qed.

Lemma typ_isnt a b : is_typ a b = false → a ≠ b.
Proof. apply bool_decide_eq_false_1. Qed.

Lemma word_is w t : is_word w t = true → Typ t = TokIdent.
Proof. unfold is_word. intros [E%typ_is _]%andb_true_iff. done. Qed.

Ltac wp_facts :=
  repeat match goal with
  | H : _ || _ = false |- _ => apply orb_false_iff in H as [? ?]
  | H : _ || _ = true |- _ => apply orb_true_iff in H
  | H : negb _ = true |- _ => apply negb_true_iff in H
  | H : negb _ = false |- _ => apply negb_false_iff in H
  | H : is_typ _ _ = true |- _ => apply typ_is in H
  | H : is_typ _ _ = false |- _ => apply typ_isnt in H
  | H : is_word _ _ = true |- _ => apply word_is in H
  end.

(** One step of the parser; what is not a primitive is looked up among the hypotheses
    and the hints. *)
Tactic Notation "wp_use" uconstr(L) := eapply wp_mono; [apply L|cbn beta; intros].

Ltac wp_step :=
  lazymatch goal with
  | |- wp (fail _) _ _ => apply wp_fail
  | |- wp (mret _) _ _ => apply wp_ret
  | |- wp (_ ≫= _) _ _ => apply wp_bind
  | |- wp (errorf _ _) _ _ => apply wp_errorf
  | |- wp (wrap _ _) _ _ => apply wp_errorf
  | |- wp (statsWrap _ _) _ _ => apply wp_errorf
  | |- wp peek _ _ => apply wp_peek; intros ? ? ? ?
  | |- wp peekTyp _ _ => apply wp_peekTyp; intros ? ? ? ?
  | |- wp (peekWord _) _ _ => apply wp_peekWord; intros ? ? ? ?
  | |- wp advance _ _ =>
      first [ eapply wp_advance_seen; [eassumption|congruence|intros ? ? ?]
            | apply wp_advance; intros ? ? ? ? ? ]
  | |- wp (expect _) _ _ => eapply wp_mono; [apply expect_eats; discriminate|cbn beta; intros]
  | |- wp expectIdent _ _ => wp_use expectIdent_eats
  | |- wp expectString _ _ => wp_use expectString_eats
  | |- wp optComma _ _ => wp_use optComma_keeps
  | |- wp clearBuf _ _ => apply wp_clearBuf; intros ? ? ? ?
  | |- wp Remaining _ _ => apply wp_Remaining
  | |- wp (if ?b then _ else _) _ _ => destruct b eqn:?
  | |- wp (match ?x with _ => _ end) _ _ => destruct x eqn:?
  | |- wp (let '_ := ?x in _) _ _ => destruct x eqn:?
  end; cbn beta in *; wp_facts.

Ltac wp_go := repeat wp_step; try solve [lia | done].

(** ** Termination of the filter parser *)

Lemma consume_within n acc : within_fuel n (consumeUntilRParen n acc).
Proof.
  revert acc. induction n as [|n IH]; intros acc p Hp; [lia|]. cbn [consumeUntilRParen].
  apply wp_bind, wp_advance. intros t p' _ _ Hs.
  destruct (is_typ (Typ t) TokEOF) eqn:E.
  - wp_facts. rewrite E. apply wp_fail.
  - cbn [pending] in Hs. rewrite E in Hs.
    destruct (Typ t); first [apply wp_fail|apply wp_ret; lia|wp_use IH; lia].
Qed.

Lemma parts_within n acc : within_fuel n (partsLoop n acc).
Proof.
  revert acc. induction n as [|n IH]; intros acc p Hp; [lia|]. cbn [partsLoop].
  wp_go; wp_use IH; lia.
Qed.

Lemma rawArg_within n name op : within_fuel n (rawArg n name op).
Proof. intros p Hp. unfold rawArg. wp_go. wp_use consume_within; wp_go. Qed.

Lemma identArg_keeps name op : keeps (identArg name op).
Proof. intros p. unfold identArg. wp_go. Qed.

Lemma bareIdent_within n name ident : within_fuel n (bareIdent n name ident).
Proof.
  intros p Hp. unfold bareIdent. wp_go;
    first [wp_use rawArg_within|wp_use identArg_keeps|wp_use consume_within]; wp_go.
Qed.

Lemma bareValue_within n name : within_fuel n (parseBareCsFilterValue n name).
Proof. intros p Hp. unfold parseBareCsFilterValue. wp_go. wp_use bareIdent_within; wp_go. Qed.

Lemma bracket_keeps kind : keeps (parseBracketRange kind).
Proof.
  intros p. unfold parseBracketRange, parseOffset. wp_go.
  apply wp_setText; [done|unfold Skip; rewrite length_suffix; lia|]. intros. cbn. wp_go.
Qed.

Lemma time_keeps : keeps parseTimeFilter.
Proof. intros p. unfold parseTimeFilter. wp_go. wp_use bracket_keeps. lia. Qed.

Lemma labelMatcher_eats : eats parseLabelMatcher.
Proof. intros p. unfold parseLabelMatcher. wp_go. Qed.

Lemma matchers_within n ms : within_fuel n (matchersLoop n ms).
Proof.
  revert ms. induction n as [|n IH]; intros ms p Hp; [lia|]. cbn [matchersLoop].
  wp_go; wp_use labelMatcher_eats; wp_go; wp_use IH; lia.
Qed.

Lemma stream_within n : within_fuel n (parseStreamFilter n).
Proof. intros p Hp. unfold parseStreamFilter. wp_go. wp_use matchers_within; wp_go. Qed.

Lemma anyCase_keeps : keeps parseAnyCase.
Proof. intros p. unfold parseAnyCase. wp_go. Qed.

Lemma messageCall_within n name m : messageCall n name = Some m → within_fuel n m.
Proof.
  unfold messageCall, parseContains, parseLenRange, parsePattern. intros Hm p Hp.
  repeat case_match; simplify_eq; first [apply anyCase_keeps|wp_go];
    first [wp_use parts_within|wp_use consume_within]; wp_go.
Qed.

Lemma fieldOp_within n name : within_fuel n (parseFieldOp n name).
Proof. intros p Hp. unfold parseFieldOp. wp_go; try (wp_use bareValue_within; wp_go). Qed.

Lemma identOrField_within n : within_fuel n (parseIdentOrFieldFilter n).
Proof.
  intros p Hp. unfold parseIdentOrFieldFilter. wp_go.
  - wp_use time_keeps. lia.
  - wp_use (messageCall_within _ _ _ ltac:(eassumption)); lia.
  - wp_use fieldOp_within; lia.
Qed.

(** The grammar, for a parser of parenthesised expressions that gets one unit less. *)
Section Grammar.
Context (rec : P FilterExpr) (k : nat) (Hrec : within_fuel k rec).

Lemma primary_within n : (n ≤ S k)%nat → within_fuel n (parsePrimaryFilter rec n).
Proof.
  intros Hn p Hp. unfold parsePrimaryFilter, parseStar, parseExact. wp_go.
  - wp_use stream_within; wp_go.
  - wp_use Hrec; wp_go.
  - wp_use identOrField_within; wp_go.
Qed.

Lemma not_within n : (n ≤ S k)%nat → within_fuel n (parseNotExpr rec n).
Proof.
  induction n as [|n IH]; intros Hn p Hp; [lia|]. cbn [parseNotExpr]. wp_go.
  - wp_use IH; wp_go.
  - wp_use primary_within; wp_go.
Qed.

Lemma andLoop_within n left : (n ≤ S k)%nat → within_fuel n (andLoop rec n left).
Proof.
  revert left. induction n as [|n IH]; intros left Hn p Hp; [lia|]. cbn [andLoop]. wp_go.
  wp_use not_within; [lia|lia|]. wp_use IH; lia.
Qed.

Lemma and_within n : (n ≤ S k)%nat → within_fuel n (parseAndExpr rec n).
Proof. intros Hn p Hp. apply wp_bind. wp_use not_within; [lia|lia|]. wp_use andLoop_within; lia. Qed.

Lemma orLoop_within n left : (n ≤ S k)%nat → within_fuel n (orLoop rec n left).
Proof.
  revert left. induction n as [|n IH]; intros left Hn p Hp; [lia|]. cbn [orLoop]. wp_go.
  wp_use and_within; [lia|lia|]. wp_use IH; lia.
Qed.

Lemma or_within n : (n ≤ S k)%nat → within_fuel n (parseOrExpr rec n).
Proof. intros Hn p Hp. apply wp_bind. wp_use and_within; [lia|lia|]. wp_use orLoop_within; lia. Qed.

End Grammar.

Lemma filter_within n : within_fuel n (parseFilterExpr n).
Proof.
  induction n as [|n IH]; [intros p Hp; lia|]. cbn [parseFilterExpr]. by eapply or_within.
Qed.

(** ** Termination of the pipe parsers *)

Lemma parseInt_eats : eats parseInt.
Proof. intros p. unfold parseInt. wp_go. Qed.

Lemma commaIdents_within n fs : within_fuel n (commaIdents n fs).
Proof.
  revert fs. induction n as [|n IH]; intros fs p Hp; [lia|]. cbn [commaIdents]. wp_go.
  wp_use IH; lia.
Qed.

Lemma items_within {A} (item : P A) n acc : eats item → within_fuel n (itemsLoop item n acc).
Proof.
  intros Hi. revert acc. induction n as [|n IH]; intros acc p Hp; [lia|]. cbn [itemsLoop]. wp_go.
  wp_use Hi. wp_go. wp_use IH; lia.
Qed.

Lemma listInParens_within {A} (item : P A) n : eats item → within_fuel n (parseListInParens item n).
Proof. intros Hi p Hp. unfold parseListInParens. wp_go. wp_use items_within; wp_go. Qed.

Lemma identList_within n : within_fuel n (parseIdentListInParens n).
Proof. apply listInParens_within, expectIdent_eats. Qed.

Lemma byClause_within n : within_fuel n (parseOptionalByClause n).
Proof. intros p Hp. unfold parseOptionalByClause. wp_go. wp_use identList_within; lia. Qed.

Lemma optKeyword_keeps {A} w (d : A) m : keeps m → keeps (optKeyword w d m).
Proof. intros Hm p. unfold optKeyword. wp_go. wp_use Hm. lia. Qed.

Lemma optKeyword_ident w what : keeps (optKeyword w "" (wrap what expectIdent)).
Proof. apply optKeyword_keeps. intros p. wp_go. Qed.

Lemma expectAs_eats msg : eats (expectAs msg).
Proof. intros p. unfold expectAs. wp_go. Qed.

Lemma rowFields_within n fs : within_fuel n (rowFields n fs).
Proof.
  revert fs. induction n as [|n IH]; intros fs p Hp; [lia|]. cbn [rowFields]. wp_go. wp_use IH; lia.
Qed.

Lemma rowOpen_keeps name : keeps (rowOpen name).
Proof. intros p. unfold rowOpen. wp_go. Qed.

Lemma rowClose_keeps : keeps rowClose.
Proof. intros p. unfold rowClose. wp_go. Qed.

Lemma twoArgs_keeps name : keeps (parseTwoArgs name).
Proof. intros p. unfold parseTwoArgs. wp_go. Qed.

Lemma fieldFunc_keeps name : keeps (parseFieldFunc name).
Proof. intros p. unfold parseFieldFunc. wp_go. Qed.

Lemma statsFunc_within n : within_fuel n (parseStatsFunc n).
Proof.
  intros p Hp. unfold parseStatsFunc, parseRowAny, parseRowBy. wp_go.
  1-2: wp_use rowOpen_keeps; wp_go; wp_use rowFields_within; wp_go; wp_use rowClose_keeps; wp_go.
  all: first [wp_use twoArgs_keeps|wp_use fieldFunc_keeps]; wp_go.
Qed.

Lemma funcs_within n kw fs : within_fuel n (funcsLoop n kw fs).
Proof.
  revert fs. induction n as [|n IH]; intros fs p Hp; [lia|]. cbn [funcsLoop]. wp_go.
  wp_use statsFunc_within; [lia|]. wp_go. wp_use expectAs_eats. wp_go. wp_use IH; lia.
Qed.

Lemma statsBody_within n kw : within_fuel n (parseStatsBody n kw).
Proof.
  intros p Hp. unfold parseStatsBody. wp_go. wp_use byClause_within; [lia|]. wp_go.
  wp_use funcs_within; wp_go.
Qed.

Lemma statsLike_within n kw : within_fuel n (parsePipeStatsLike n kw).
Proof. intros p Hp. unfold parsePipeStatsLike. wp_go. wp_use statsBody_within; wp_go. Qed.

Lemma rawChunk_keeps : keeps rawChunk.
Proof.
  intros p. unfold rawChunk. wp_go.
  match goal with E : span ?f ?s = _ |- _ => pose proof (span_length f s) as Hl; rewrite E in Hl; cbn in Hl end.
  apply wp_setText; [done|done|]. intros. wp_go.
Qed.

Lemma inner_keeps : keeps consumeInnerQuery.
Proof.
  intros p. unfold consumeInnerQuery. wp_go.
  apply wp_setText; [done|unfold Skip; rewrite length_suffix; lia|]. intros. wp_go.
Qed.

Lemma math_keeps : keeps parsePipeMath.
Proof. intros p. unfold parsePipeMath, mathAs. wp_go. wp_use rawChunk_keeps. wp_go. Qed.

Lemma sortField_eats : eats sortField.
Proof. intros p. unfold sortField. wp_go. Qed.

Lemma copy_within n ps : within_fuel n (copyLoop n ps).
Proof.
  revert ps. induction n as [|n IH]; intros ps p Hp; [lia|]. cbn [copyLoop]. wp_go. wp_use IH; lia.
Qed.

Lemma resultOf_keeps name : keeps (resultOf name).
Proof. intros p. unfold resultOf. wp_go. Qed.

Lemma context_within n b a : within_fuel n (contextLoop n b a).
Proof.
  revert b a. induction n as [|n IH]; intros b a p Hp; [lia|]. cbn [contextLoop]. wp_go.
  all: wp_use parseInt_eats; wp_go; wp_use IH; lia.
Qed.

Lemma fromAs_keeps name : keeps (fromAs name).
Proof. intros p. unfold fromAs. wp_go. wp_use optKeyword_ident. wp_go. wp_use optKeyword_ident. wp_go. Qed.

(** Every entry of the switch, unfolded. *)
Ltac wp_pipe :=
  repeat first
    [ progress wp_go
    | wp_use filter_within; [lia|] | wp_use commaIdents_within; [lia|] | wp_use parseInt_eats
    | wp_use listInParens_within; [apply sortField_eats|lia|]
    | wp_use identList_within; [lia|] | wp_use byClause_within; [lia|] | wp_use statsLike_within; [lia|]
    | wp_use math_keeps | wp_use copy_within; [lia|] | wp_use resultOf_keeps | wp_use context_within; [lia|]
    | wp_use fromAs_keeps | wp_use inner_keeps | wp_use rawChunk_keeps
    | wp_use optKeyword_keeps; [intros ?; wp_go; wp_use parseInt_eats; wp_go|] ].

Lemma assoc_Forall {A} (Q : A → Prop) name (l : list (string * A)) v :
  Forall (λ kv, Q kv.2) l → assoc name l = Some v → Q v.
Proof.
  induction 1 as [|[k x] l Hx _ IH]; [done|]. cbn. destruct (String.eqb name k); [by intros [= <-]|done].
Qed.

Lemma pipe_within n : Forall (λ kv, within_fuel n kv.2) (pipeTable n).
Proof.
  unfold pipeTable. repeat apply Forall_cons_2; [..|apply Forall_nil_2]; cbn [snd]; intros p Hp;
    unfold parsePipeSort, parsePipeTopN, parsePipeFirstLast, parsePipeUniq, parsePipeCopy,
      parsePipeCoalesce, parsePipeCollapseNums, parsePipeDecolorize, parsePipeFacets, parsePipeFieldValues,
      parsePipeGenerateSequence, parsePipeHash, parsePipeJoin, parsePipeJSONArrayLen, parsePipeLen,
      parseFieldAs, parsePipeJSONArrayConcat, parsePipeSplit, parsePipeStreamContext, parsePipeUnpackWords,
      parsePipeUnroll, parsePipeUpdate, parseCommaSeparatedIdents, expectBy;
    wp_pipe.
Qed.

Lemma parsePipe_within n : within_fuel n (parsePipe n).
Proof.
  intros p Hp. unfold parsePipe. wp_go.
  match goal with E : assoc _ _ = Some ?m |- _ =>
    pose proof (assoc_Forall (within_fuel n) _ _ _ (pipe_within n) E) as Hm end.
  wp_use Hm; lia.
Qed.

Lemma pipes_within n ps : within_fuel n (pipesLoop n ps).
Proof.
  revert ps. induction n as [|n IH]; intros ps p Hp; [lia|]. cbn [pipesLoop]. wp_go.
  wp_use parsePipe_within; [lia|]. wp_use IH; lia.
Qed.

Lemma query_within n : within_fuel n (parseQuery n).
Proof.
  intros p Hp. unfold parseQuery. wp_go. wp_use filter_within; [lia|]. wp_go.
  wp_use pipes_within; [lia|]. wp_go.
Qed.

Lemma filterBody_within n : within_fuel n (filterBody n).
Proof. intros p Hp. unfold filterBody. wp_go. wp_use filter_within; [lia|]. wp_go. Qed.

Lemma size_new input : size (newParser input) = String.length input.
Proof. unfold size, newParser. cbn. lia. Qed.

Lemma wp_fuel {A} (m : P A) p Q : wp m p Q → m p ≠ NoFuel.
Proof. unfold wp. by destruct (m p). Qed.

(** The LogsQL parser ends on every text: with one unit of fuel more than the text
    has bytes, neither the parser of queries nor the one of filters runs out of fuel.
    Every loop consumes a token per round and every token is at least a byte. *)
Theorem logsql_parse_total (input : string) : Parse input ≠ NoFuel ∧ ParseFilter input ≠ NoFuel.
Proof.
  unfold Parse, ParseFilter. split; (eapply wp_fuel; (apply query_within || apply filterBody_within); rewrite size_new; lia).
Qed.

End Parsing.
End LParse.
