(* ===== verification/LogsqlReading.v ===== *)
(** * Reading printed LogsQL (src/internal/logsql/scanner.go and parser.go on printed texts)

    [reads m s a t] says that the parser [m], at the text [s], gives [a] and leaves [t];
    it composes along [bind].  The lemmas [Next_*] evaluate the scanner on the texts the
    printer writes, and the tactic [rd] runs a parser on them step by step. *)

From S2P Require Import Prelude GoText Utf8 LogqlAst LogsqlAst LogsqlScanner LogsqlParser.

#[local] Open Scope Z_scope.
#[local] Arguments String.append !_ _ /.

Module LRead.
Import Text Utf8 LAst LScan LParse.

Section Reading.
Context `{Floats} `{!Lenient} `{Unicode} `{!UnicodeLaws}.

(** ** The scanner on printed texts *)

Lemma Next_space s : Next (String " " s) = Next s.
Proof. done. Qed.

(** An identifier of the scanner, and one that is no keyword. *)
Definition ident (n : string) : bool := negb (String.eqb n "") && all_bytes_of ident_byte n.
Definition name (n : string) : bool := ident n && is_typ (keyword n) TokIdent.

Lemma ident_not_space a : ident_byte a = true → is_space a = false.
Proof. unfold ident_byte, is_space, isIdentRune. intros Ha. zcases; try done; rewrite ?andb_false_r in Ha; done. Qed.

Lemma ident_head n : ident n = true → ∃ a r, n = String a r ∧ ident_byte a = true ∧ all_bytes_of ident_byte r = true.
Proof.
  destruct n as [|a r]; [done|]. unfold ident. cbn. intros [Ha Hr]%andb_true_iff. eauto.
Qed.

(** A text that starts with an identifier byte is not punctuation. *)
Lemma Next_run a r : ident_byte a = true → Next (String a r) = scanIdent (String a r).
Proof.
  intros Ha. unfold Next. cbn [skipWS]. rewrite (ident_not_space a Ha).
  destruct a as [[] [] [] [] [] [] [] []]; first [discriminate Ha|reflexivity].
Qed.

Lemma Next_ident n t : ident n = true → starts_with ident_byte t = false →
  Next (n +:+ t) = (mkTok (keyword n) n, t).
Proof.
  intros Hn Ht. destruct (ident_head n Hn) as (a & r & -> & Ha & Hr).
  rewrite app_str_cons, Next_run by done. unfold scanIdent.
  rewrite <-app_str_cons, span_app; [done| |done]. cbn. by rewrite Ha.
Qed.

Lemma name_ident n : name n = true → ident n = true ∧ keyword n = TokIdent.
Proof. unfold name. intros [? ?%typ_is]%andb_true_iff. done. Qed.

Lemma Next_name n t : name n = true → starts_with ident_byte t = false →
  Next (n +:+ t) = (mkTok TokIdent n, t).
Proof. intros [Hn Hk]%name_ident Ht. rewrite Next_ident by done. by rewrite Hk. Qed.

Lemma escape_body v t : quotedBody (escapeLogsQL v +:+ String dquote t) = Some (v, t).
Proof.
  induction v as [|a v IH]; [done|]. cbn [escapeLogsQL].
  destruct (Ascii.eqb_spec a bslash) as [->|Hb].
  - cbn [orb]. rewrite !app_str_cons. cbn [quotedBody]. rewrite IH. reflexivity.
  - destruct (Ascii.eqb_spec a dquote) as [->|Hd]; cbn [orb]; rewrite !app_str_cons.
    + cbn [quotedBody]. rewrite IH. reflexivity.
    + cbn [quotedBody]. apply Ascii.eqb_neq in Hb, Hd. by rewrite Hd, Hb, IH.
Qed.

Lemma quoted_app v t : quoted v +:+ t = String dquote (v +:+ String dquote t).
Proof. unfold quoted. rewrite app_str_cons, append_assoc. done. Qed.

Lemma Next_dquote s : Next (String dquote s) = scanQuoted s.
Proof. reflexivity. Qed.

(** Every value survives its quotes. *)
Lemma Next_quote v t : Next (quoteLogsQL v +:+ t) = (mkTok TokString v, t).
Proof.
  unfold quoteLogsQL. rewrite quoted_app, Next_dquote. unfold scanQuoted. by rewrite escape_body.
Qed.

(** The texts that quoting without escapes keeps. *)
Definition verbatim (v : string) : bool :=
  all_bytes_of (λ a, negb (Ascii.eqb a dquote) && negb (Ascii.eqb a bslash)) v.

Lemma verbatim_escape v : verbatim v = true → escapeLogsQL v = v.
Proof.
  induction v as [|a v IH]; [done|]. cbn. intros [[Hd Hb]%andb_true_iff Hv]%andb_true_iff.
  apply negb_true_iff in Hd, Hb. rewrite Hd, Hb. cbn. by rewrite IH.
Qed.

Lemma Next_verbatim v t : verbatim v = true → Next (quoted v +:+ t) = (mkTok TokString v, t).
Proof. intros Hv. rewrite <-(verbatim_escape v) at 1 by done. apply Next_quote. Qed.

(** Printable ASCII, tabs and newlines: what [strconv.Quote] writes in escapes that the
    scanner knows. *)
Definition plain_byte (a : Ascii.ascii) : bool :=
  ((32 <=? b2z a) && (b2z a <=? 126)) || (b2z a =? 9) || (b2z a =? 10).
Definition plain (v : string) : bool := all_bytes_of plain_byte v.

Lemma quoteRune_printable a s : plain_byte a = true →
  quoteRune (String a s) =
    ((if (b2z a =? 34) || (b2z a =? 92) then escape (String a "")
      else if b2z a =? 10 then escape "n" else if b2z a =? 9 then escape "t"
      else String a ""), 1%nat).
Proof.
  unfold plain_byte. intros Ha. assert (0 ≤ b2z a < 128) as Hr by (pose proof (b2z_range a); zcases; done).
  unfold quoteRune. cbn [DecodeRune].
  assert ((b2z a <? 0x80) = true) as -> by (apply Z.ltb_lt; lia).
  assert ((b2z a =? RuneError) = false) as -> by (apply Z.eqb_neq; unfold RuneError; lia).
  rewrite andb_false_r. f_equal. unfold escapedRune. cbn [bytes]. rewrite z2b_b2z.
  rewrite IsPrint_ascii by lia.
  destruct ((b2z a =? 34) || (b2z a =? 92)); [done|].
  destruct ((32 <=? b2z a) && (b2z a <=? 126)) eqn:E.
  - apply andb_true_iff in E as [?%Z.leb_le ?%Z.leb_le].
    assert ((b2z a =? 10) = false) as -> by (apply Z.eqb_neq; lia).
    assert ((b2z a =? 9) = false) as -> by (apply Z.eqb_neq; lia).
    rewrite EncodeRune_ascii by lia. cbn. by rewrite z2b_b2z.
  - cbn in Ha. apply orb_true_iff in Ha as [Ha%Z.eqb_eq|Ha%Z.eqb_eq]; rewrite Ha; reflexivity.
Qed.

Lemma b2z_inj_lit a c : b2z a = b2z c → a = c.
Proof. intros E. by rewrite <-(z2b_b2z a), E, z2b_b2z. Qed.

Lemma plain_body v t : plain v = true →
  quotedBody (quote_loop (String.length v) v +:+ String dquote t) = Some (v, t).
Proof.
  induction v as [|a v IH]; [done|]. cbn [plain all_bytes_of]. intros [Ha Hv]%andb_true_iff.
  specialize (IH Hv). cbn [String.length quote_loop]. rewrite quoteRune_printable by done. cbn [suffix].
  rewrite append_assoc.
  destruct (Z.eqb_spec (b2z a) 34) as [E|E34].
  { apply (b2z_inj_lit a dquote) in E as ->. cbn [orb]. unfold escape. rewrite !app_str_cons. cbn [quotedBody].
    change ("" +:+ ?x) with x. rewrite IH. reflexivity. }
  destruct (Z.eqb_spec (b2z a) 92) as [E|E92].
  { apply (b2z_inj_lit a bslash) in E as ->. cbn [orb]. unfold escape. rewrite !app_str_cons. cbn [quotedBody].
    change ("" +:+ ?x) with x. rewrite IH. reflexivity. }
  cbn [orb]. destruct (Z.eqb_spec (b2z a) 10) as [E|_].
  { apply (b2z_inj_lit a (Ascii.ascii_of_nat 10)) in E as ->. unfold escape. rewrite !app_str_cons.
    cbn [quotedBody]. change ("" +:+ ?x) with x. rewrite IH. reflexivity. }
  destruct (Z.eqb_spec (b2z a) 9) as [E|_].
  { apply (b2z_inj_lit a (Ascii.ascii_of_nat 9)) in E as ->. unfold escape. rewrite !app_str_cons.
    cbn [quotedBody]. change ("" +:+ ?x) with x. rewrite IH. reflexivity. }
  rewrite app_str_cons. cbn [quotedBody]. change ("" +:+ ?x) with x.
  assert (Ascii.eqb a dquote = false) as -> by (apply Ascii.eqb_neq; intros ->; by apply E34).
  assert (Ascii.eqb a bslash = false) as -> by (apply Ascii.eqb_neq; intros ->; by apply E92).
  by rewrite IH.
Qed.

Lemma Next_pattern v t : plain v = true → Next (quoteLogsQLPattern v +:+ t) = (mkTok TokString v, t).
Proof.
  intros Hv. unfold quoteLogsQLPattern, Quote. rewrite app_str_cons, append_assoc, Next_dquote.
  unfold scanQuoted. change (String dquote "" +:+ t) with (String dquote t). by rewrite plain_body.
Qed.

(** ** Reading *)

(** The parser is at the text [s], whether or not it has looked at the next token. *)
Definition at_text (s : string) (p : parser) : Prop :=
  p = mkP s None ∨ ∃ t s', Next s = (t, s') ∧ p = mkP s' (Some t).

Definition reads {A} (m : P A) (s : string) (a : A) (t : string) : Prop :=
  ∀ p, at_text s p → ∃ p', m p = Done a p' ∧ at_text t p'.

Lemma reads_ret {A} (a : A) s : reads (mret a) s a s.
Proof. intros p Hp. by exists p. Qed.

Lemma reads_bind {A B} (m : P A) (f : A → P B) s a t b u :
  reads m s a t → reads (f a) t b u → reads (m ≫= f) s b u.
Proof.
  intros Hm Hf p Hp. destruct (Hm p Hp) as (p1 & E1 & Hp1). destruct (Hf p1 Hp1) as (p2 & E2 & Hp2).
  exists p2. split; [|done]. change ((m ≫= f) p) with (P_bind A B f m p). unfold P_bind. by rewrite E1.
Qed.

Lemma reads_errorf {A} g (m : P A) s a t : reads m s a t → reads (errorf g m) s a t.
Proof.
  intros Hm p Hp. destruct (Hm p Hp) as (p' & E & Hp'). exists p'. split; [|done].
  unfold errorf. by rewrite E.
Qed.

Lemma reads_peek s k s' : Next s = (k, s') → reads peek s k s.
Proof.
  intros Hn p [->|(t & s1 & E & ->)]; unfold peek; cbn [buf sc].
  - rewrite Hn. eexists. split; [done|]. right. eauto.
  - eexists. split; [do 2 f_equal; congruence|]. right. eauto.
Qed.

(** Advancing leaves no lookahead. *)
Lemma advance_at s k s' p : Next s = (k, s') → at_text s p → advance p = Done k (mkP s' None).
Proof.
  intros Hn [->|(t & s1 & E & ->)]; unfold advance, peek, clearBuf, mbind, P_bind, mret, P_ret; cbn [buf sc].
  - by rewrite Hn.
  - assert (t = k ∧ s1 = s') as [-> ->] by (split; congruence). done.
Qed.

(** Texts with the same next token are read alike, but for the end of nothing read. *)
Lemma reads_at {A} (f : Token → P A) s s' b u :
  Next s = Next s' → reads (advance ≫= f) s' b u → reads (advance ≫= f) s b u.
Proof.
  intros Hn Hr p Hp. destruct (Next s') as [k r] eqn:E'.
  assert (∀ p, at_text s' p → (advance ≫= f) p = f k (mkP r None)) as Hs'.
  { intros q Hq. change ((advance ≫= f) q) with (P_bind _ A f advance q). unfold P_bind.
    by rewrite (advance_at s' k r q). }
  change ((advance ≫= f) p) with (P_bind _ A f advance p). unfold P_bind.
  rewrite (advance_at s k r p) by done. rewrite <-(Hs' (mkP s' None)) by (by left). apply Hr. by left.
Qed.

Lemma reads_advance s k s' : Next s = (k, s') → reads advance s k s'.
Proof. intros Hn p Hp. exists (mkP s' None). split; [by eapply advance_at|by left]. Qed.

(** What follows an advance may look at the text. *)
Lemma reads_advance_raw {B} (f : Token → P B) s k s' b u :
  Next s = (k, s') → (∃ p', f k (mkP s' None) = Done b p' ∧ at_text u p') → reads (advance ≫= f) s b u.
Proof.
  intros Hn (p' & E & Hp') p Hp. exists p'. split; [|done].
  change ((advance ≫= f) p) with (P_bind _ B f advance p). unfold P_bind. by erewrite advance_at.
Qed.

(** What starts by looking at a token does not see spaces before it. *)
Lemma peek_at_space s p : at_text (String " " s) p → ∃ q, at_text s q ∧ peek p = peek q.
Proof.
  intros [->|(t & s' & E & ->)]; [exists (mkP s None)|exists (mkP s' (Some t))]; (split; [|done]).
  - by left.
  - right. eauto.
Qed.

Lemma reads_peek_space {B} (f : TokType → P B) s b u :
  reads (peekTyp ≫= f) s b u → reads (peekTyp ≫= f) (String " " s) b u.
Proof.
  intros Hr p Hp. destruct (peek_at_space s p Hp) as (q & Hq & E). destruct (Hr q Hq) as (p' & E' & Hp').
  exists p'. split; [|done]. rewrite <-E'.
  unfold peekTyp, mbind, P_bind. by rewrite E.
Qed.

Lemma reads_peekTyp s k s' : Next s = (k, s') → reads peekTyp s (Typ k) s.
Proof. intros Hn. eapply reads_bind; [by eapply reads_peek|]. apply reads_ret. Qed.

Lemma reads_peekWord w s k s' : Next s = (k, s') → reads (peekWord w) s (is_word w k) s.
Proof. intros Hn. eapply reads_bind; [by eapply reads_peek|]. apply reads_ret. Qed.

Lemma is_typ_refl t : is_typ t t = true.
Proof. unfold is_typ. by apply bool_decide_eq_true. Qed.

Lemma reads_expect k v s s' : Next s = (mkTok k v, s') → reads (expect k) s (mkTok k v) s'.
Proof.
  intros Hn. eapply reads_bind; [by eapply reads_advance|]. cbn [Typ]. rewrite is_typ_refl. apply reads_ret.
Qed.

Lemma reads_expectIdent v s s' : Next s = (mkTok TokIdent v, s') → reads expectIdent s v s'.
Proof. intros Hn. eapply reads_bind; [by eapply reads_advance|]. apply (reads_ret v). Qed.

Lemma reads_expectString v s s' : Next s = (mkTok TokString v, s') → reads expectString s v s'.
Proof. intros Hn. eapply reads_bind; [by eapply reads_advance|]. apply (reads_ret v). Qed.

Lemma reads_comma s s' : Next s = (mkTok TokComma ",", s') → reads optComma s () s'.
Proof.
  intros Hn. eapply reads_bind; [by eapply reads_peekTyp|]. cbn.
  eapply reads_bind; [by eapply reads_advance|]. apply reads_ret.
Qed.

Lemma reads_no_comma s k s' : Next s = (k, s') → Typ k ≠ TokComma → reads optComma s () s.
Proof.
  intros Hn Hk. eapply reads_bind; [by eapply reads_peekTyp|]. unfold is_typ.
  rewrite bool_decide_false by done. apply reads_ret.
Qed.

(** A bare colon before a value. *)
Lemma Next_colon n t : ident n = true → Next (String ":" (n +:+ t)) = (mkTok TokColon ":", n +:+ t).
Proof.
  intros Hn. destruct (ident_head n Hn) as (a & r & -> & Ha & _). rewrite app_str_cons.
  change (Next (String ":" ?x)) with (scanColon x).
  destruct a as [[] [] [] [] [] [] [] []]; first [discriminate Ha|reflexivity].
Qed.

(** [:>] and [:<] before a value. *)
Lemma Next_gt n t : ident n = true → Next (String ":" (String ">" (n +:+ t))) = (mkTok TokColonGT ":>", n +:+ t).
Proof.
  intros Hn. destruct (ident_head n Hn) as (a & r & -> & Ha & _). rewrite app_str_cons.
  change (Next (String ":" ?x)) with (scanColon x).
  destruct a as [[] [] [] [] [] [] [] []]; first [discriminate Ha|reflexivity].
Qed.

Lemma Next_lt n t : ident n = true → Next (String ":" (String "<" (n +:+ t))) = (mkTok TokColonLT ":<", n +:+ t).
Proof.
  intros Hn. destruct (ident_head n Hn) as (a & r & -> & Ha & _). rewrite app_str_cons.
  change (Next (String ":" ?x)) with (scanColon x).
  destruct a as [[] [] [] [] [] [] [] []]; first [discriminate Ha|reflexivity].
Qed.

(** [=] before a quoted value. *)
Lemma Next_eq v t : Next (String "=" (quoted v +:+ t)) = (mkTok TokEq "=", quoted v +:+ t).
Proof. reflexivity. Qed.

Lemma Next_eq_quote v t : Next (String "=" (quoteLogsQL v +:+ t)) = (mkTok TokEq "=", quoteLogsQL v +:+ t).
Proof. reflexivity. Qed.

Lemma Next_nil : Next "" = (mkTok TokEOF "", "").
Proof. reflexivity. Qed.

End Reading.

(** ** Automation *)

(** The part of a text after its literal head. *)
Ltac tail_of s :=
  lazymatch s with
  | String _ ?r => tail_of r
  | _ => s
  end.

(** The scanner on a literal head is evaluated with the tail abstracted. *)
Ltac lex_literal :=
  lazymatch goal with
  | |- Next ?s = _ =>
      let x := tail_of s in
      lazymatch s with x => fail | _ => idtac end;
      lazymatch eval pattern x in (Next s) with
      | ?f _ =>
          let g := eval vm_compute in f in
          lazymatch g with
          | (λ y, (mkTok ?k ?v, @?r y)) =>
              let r' := eval cbv beta in (r x) in
              exact (eq_refl (mkTok k v, r'))
          end
      end
  end.

Ltac name_hyp :=
  first [eassumption | match goal with H : name ?n = true |- ident ?n = true => apply (name_ident n H) end].

Ltac lexes :=
  rewrite ?append_assoc; cbn [String.append];
  first
  [ eassumption
  | apply Next_nil
  | apply Next_quote
  | apply Next_verbatim; eassumption
  | apply Next_pattern; eassumption
  | apply Next_name; [eassumption|first [reflexivity|eassumption]]
  | apply Next_eq
  | apply Next_eq_quote
  | apply Next_colon; name_hyp
  | apply Next_gt; name_hyp
  | apply Next_lt; name_hyp
  | lex_literal
  | rewrite Next_space; lexes ].

Ltac literal s :=
  lazymatch s with
  | "" => idtac
  | String _ ?r => literal r
  end.

(** Decide the tests on known tokens. *)
Ltac known :=
  unfold is_word; cbn [Typ Val fst snd];
  repeat match goal with
  | |- context [is_typ ?a ?b] =>
      let r := eval vm_compute in (is_typ a b) in
      lazymatch r with true => idtac | false => idtac end;
      change (is_typ a b) with r
  | |- context [String.eqb ?a ?b] =>
      literal a; literal b;
      let r := eval vm_compute in (String.eqb a b) in change (String.eqb a b) with r
  end;
  cbv beta iota; cbn [negb andb orb orderOp labelOp].

Ltac rd_prim :=
  lazymatch goal with
  | |- reads (mret _) _ _ _ => apply reads_ret
  | |- reads (errorf _ _) _ _ _ => apply reads_errorf; rd_prim
  | |- reads (wrap _ _) _ _ _ => apply reads_errorf; rd_prim
  | |- reads (statsWrap _ _) _ _ _ => apply reads_errorf; rd_prim
  | |- reads peek _ _ _ => eapply reads_peek; lexes
  | |- reads peekTyp _ _ _ => eapply reads_peekTyp; lexes
  | |- reads (peekWord _) _ _ _ => eapply reads_peekWord; lexes
  | |- reads advance _ _ _ => eapply reads_advance; lexes
  | |- reads (expect _) _ _ _ => eapply reads_expect; lexes
  | |- reads expectIdent _ _ _ => eapply reads_expectIdent; lexes
  | |- reads expectString _ _ _ => eapply reads_expectString; lexes
  | |- reads optComma _ _ _ =>
      first [eapply reads_comma; lexes | eapply reads_no_comma; [lexes|discriminate]]
  end.

Ltac rd :=
  repeat (lazymatch goal with
  | |- reads (mret _) _ _ _ => apply reads_ret
  | |- reads (_ ≫= _) _ _ _ => eapply reads_bind; [rd_prim|]
  | |- reads _ _ _ _ => rd_prim
  end; known).

End LRead.
