(* ===== verification/LogsqlRoundtrip.v ===== *)
(** * Round trip of LogsQL filters (src/internal/logsql/ast.go against parser.go)

    What the printer writes for a filter, the parser reads back, up to the grouping of
    chains of AND and OR, which the printed text does not show. *)

From S2P Require Import Prelude GoText Utf8 LogqlAst LogsqlAst LogsqlScanner LogsqlParser LogsqlReading.

#[local] Open Scope Z_scope.
#[local] Arguments String.append !_ _ /.

Module LRound.
Import Text Utf8 LAst LScan LParse LRead.

(** ** What may follow a filter *)

Definition closes (k : TokType) : bool :=
  match k with
  | TokEOF | TokAnd | TokOr | TokRParen | TokPipe => true
  | _ => false
  end.

Definition follow (t : string) : Prop :=
  starts_with ident_byte t = false ∧ ∃ k v s', Next t = (mkTok k v, s') ∧ closes k = true.

Lemma follow_nil : follow "".
Proof. split; [done|]. by exists TokEOF, "", "". Qed.

Lemma follow_rparen t : follow (String ")" t).
Proof. split; [done|]. by exists TokRParen, ")", t. Qed.

Lemma follow_and t : follow (" AND " +:+ t).
Proof. split; [done|]. eexists TokAnd, "AND", _. split; [lexes|done]. Qed.

Lemma follow_or t : follow (" OR " +:+ t).
Proof. split; [done|]. eexists TokOr, "OR", _. split; [lexes|done]. Qed.

Lemma follow_pipe t : follow (" | " +:+ t).
Proof. split; [done|]. eexists TokPipe, "|", _. split; [lexes|done]. Qed.

(** The five cases. *)
Ltac on_follow Hf :=
  let k := fresh "k" in let v := fresh "v" in let s' := fresh "s'" in
  let Hs := fresh "Hs" in let Hn := fresh "Hn" in let Hk := fresh "Hk" in
  destruct Hf as [Hs (k & v & s' & Hn & Hk)]; destruct k; try discriminate Hk; clear Hk.

(** Split the conjunctions of a check. *)
Ltac checks :=
  repeat match goal with
  | H : _ && _ = true |- _ => apply andb_true_iff in H as [? ?]
  | H : negb _ = true |- _ => apply negb_true_iff in H
  end.

Section Roundtrip.
Context `{Floats} `{!Lenient} `{Unicode} `{!UnicodeLaws}.

(** ** The filters that are read back *)

(** Names that start a call or a time filter instead of a field filter. *)
Definition reserved (n : string) : bool :=
  existsb (String.eqb n) ["_time"; "i"; "contains_all"; "contains_any"; "len_range"; "pattern"].

Definition fieldName (n : string) : bool := name n && negb (reserved n).

(** Values after a bare colon that are not calls. *)
Definition prefixValue (v : string) : bool :=
  match rawOp v, identOp v with
  | None, None => name v && negb (String.eqb v "len_range") && negb (String.eqb v "pattern")
  | _, _ => false
  end.

Definition arg_byte (a : Ascii.ascii) : bool := ident_byte a || Ascii.eqb a ",".

(** Identifiers and commas. *)
Definition arguments (v : string) : bool := all_bytes_of arg_byte v.

(** The operators printed as a call with a raw and with an identifier argument. *)
Definition rawCall (op : FieldOp) : option string :=
  match op with
  | FieldOpRange => Some "range"
  | FieldOpIn => Some "in"
  | FieldOpIPv4Range => Some "ipv4_range"
  | FieldOpIPv6Range => Some "ipv6_range"
  | FieldOpStringRange => Some "string_range"
  | FieldOpJSONArrayContainsAny => Some "json_array_contains_any"
  | FieldOpContainsCommonCase => Some "contains_common_case"
  | FieldOpEqualsCommonCase => Some "equals_common_case"
  | _ => None
  end.

Definition field_ok (op : FieldOp) (v : string) : bool :=
  match op with
  | FieldOpExact => true
  | FieldOpRegexp => plain v
  | FieldOpPrefix => prefixValue v
  | FieldOpSubstring => name v
  | FieldOpEmpty | FieldOpAny => String.eqb v ""
  | FieldOpGT | FieldOpGTE | FieldOpLT | FieldOpLTE => name v
  | FieldOpEqField | FieldOpLeField | FieldOpValueType => name v
  | FieldOpExactPrefix => false
  | _ => arguments v
  end.

Definition matcher_ok (m : LabelMatcher) : bool :=
  name (lm_Name m) && existsb (String.eqb (lm_Op m)) ["="; "!="; "=~"; "!~"].

(** Text in one pair of brackets. *)
Definition brackets (b : string) : bool :=
  match b with
  | String "[" r =>
      match IndexByte "]" r with
      | Some i => (S i =? String.length r)%nat
      | None => false
      end
  | _ => false
  end.

Definition opt_name (s : string) : bool := String.eqb s "" || name s.
Definition opt_field (s : string) : bool := String.eqb s "" || fieldName s.

Fixpoint filter_ok (f : FilterExpr) : bool :=
  match f with
  | Word v => name v && negb (String.eqb v "_time")
  | Phrase _ | Exact _ | CaseInsensitive _ | AnyCasePhrase _ | Wildcard => true
  | Prefix v => fieldName v
  | Substring v | AnyCasePrefix v => name v
  | Regexp p => plain p
  | FieldFilter field op v _ => fieldName field && field_ok op v
  | StreamFilter ms => forallb matcher_ok ms
  | TimeFilter r => name r && negb (String.eqb r "day_range") && negb (String.eqb r "week_range")
  | AndExpr l r | OrExpr l r => filter_ok l && filter_ok r
  | NotExpr e => filter_ok e
  | ExactPrefix v => verbatim v
  | ContainsAll ps | ContainsAny ps => forallb verbatim ps
  | DayRange b offset | WeekRange b offset => brackets b && opt_name offset
  | LenRange field min max =>
      opt_field field && all_bytes_of ident_byte min && all_bytes_of ident_byte max
  | PatternMatch field pattern => opt_field field && verbatim pattern
  | Sequence _ | DeferredExpr _ => false
  end.

(** ** What they are read as

    A chain of ANDs or ORs is grouped to the left; a negated field filter is a
    negation; the two spellings of a case-insensitive phrase are one. *)

Fixpoint joinAnd (l r : FilterExpr) : FilterExpr :=
  match r with
  | AndExpr r1 r2 => AndExpr (joinAnd l r1) r2
  | _ => AndExpr l r
  end.

Fixpoint joinOr (l r : FilterExpr) : FilterExpr :=
  match r with
  | OrExpr r1 r2 => OrExpr (joinOr l r1) r2
  | _ => OrExpr l r
  end.

Fixpoint regroup (f : FilterExpr) : FilterExpr :=
  match f with
  | FieldFilter field op v true => NotExpr (FieldFilter field op v false)
  | AnyCasePhrase v => CaseInsensitive v
  | AndExpr l r => joinAnd (regroup l) (regroup r)
  | OrExpr l r => joinOr (regroup l) (regroup r)
  | NotExpr e => NotExpr (regroup e)
  | f => f
  end.

(** The meaning of a filter on a row, given the meaning of its atoms. *)
Fixpoint holds (atom : FilterExpr → bool) (f : FilterExpr) : bool :=
  match f with
  | AndExpr l r => holds atom l && holds atom r
  | OrExpr l r => holds atom l || holds atom r
  | NotExpr e => negb (holds atom e)
  | FieldFilter field op v negate => xorb negate (atom (FieldFilter field op v false))
  | AnyCasePhrase v => atom (CaseInsensitive v)
  | f => atom f
  end.

Lemma holds_joinAnd atom l r : holds atom (joinAnd l r) = holds atom l && holds atom r.
Proof. revert l. induction r; intros l; try done. cbn. by rewrite IHr1, andb_assoc. Qed.

Lemma holds_joinOr atom l r : holds atom (joinOr l r) = holds atom l || holds atom r.
Proof. revert l. induction r; intros l; try done. cbn. by rewrite IHr1, orb_assoc. Qed.

Lemma holds_regroup atom f : holds atom (regroup f) = holds atom f.
Proof.
  induction f; try done; cbn.
  - by destruct Negate; cbn; rewrite ?xorb_false_l.
  - by rewrite holds_joinAnd, IHf1, IHf2.
  - by rewrite holds_joinOr, IHf1, IHf2.
  - by rewrite IHf.
Qed.

Lemma regroup_is_or f : is_or (regroup f) = is_or f.
Proof.
  destruct f; try done; cbn.
  - by destruct Negate.
  - generalize (regroup f1). induction (regroup f2); done.
  - generalize (regroup f1). induction (regroup f2); done.
Qed.

Lemma regroup_is_and f : is_and (regroup f) = is_and f.
Proof.
  destruct f; try done; cbn.
  - by destruct Negate.
  - generalize (regroup f1). induction (regroup f2); done.
  - generalize (regroup f1). induction (regroup f2); done.
Qed.

(** The regrouped filter prints as the original. *)
Lemma joinAnd_string l r :
  Filter_String (joinAnd l r) =
    parens (is_or l) (Filter_String l) +:+ " AND " +:+ parens (is_or r) (Filter_String r).
Proof.
  revert l. induction r; intros l; try done. cbn [joinAnd Filter_String is_or].
  assert (is_or (joinAnd l r1) = false) as -> by (by destruct r1).
  cbn [parens]. rewrite IHr1, !append_assoc. done.
Qed.

Lemma joinOr_string l r :
  Filter_String (joinOr l r) = Filter_String l +:+ " OR " +:+ Filter_String r.
Proof.
  revert l. induction r; intros l; try done. cbn [joinOr Filter_String].
  rewrite IHr1, !append_assoc. done.
Qed.

Lemma regroup_string f : Filter_String (regroup f) = Filter_String f.
Proof.
  induction f; try done; cbn [regroup].
  - by destruct Negate.
  - rewrite joinAnd_string, !regroup_is_or, IHf1, IHf2. done.
  - rewrite joinOr_string, IHf1, IHf2. done.
  - cbn [Filter_String]. rewrite regroup_is_or, regroup_is_and, IHf. done.
Qed.

(** ** Arguments *)

Lemma keyword_cases w : keyword w = TokIdent ∨ keyword w = TokAnd ∨ keyword w = TokOr ∨ keyword w = TokNot.
Proof. unfold keyword. repeat case_match; eauto. Qed.

(** One identifier of an argument, keywords included. *)
Lemma consume_ident n acc w s b u :
  ident w = true → starts_with ident_byte s = false →
  reads (consumeUntilRParen n (acc +:+ w)) s b u → reads (consumeUntilRParen (S n) acc) (w +:+ s) b u.
Proof.
  intros Hw Hs Hr. cbn [consumeUntilRParen]. eapply reads_bind; [by eapply reads_advance, Next_ident|].
  cbn [Typ Val]. by destruct (keyword_cases w) as [->|[->|[->| ->]]].
Qed.

Lemma span_arguments v t : arguments v = true → starts_with ident_byte t = false →
  ∃ w r, span ident_byte (v +:+ t) = (w, r +:+ t) ∧ v = w +:+ r ∧ all_bytes_of ident_byte w = true ∧
    arguments r = true ∧ starts_with ident_byte r = false.
Proof.
  induction v as [|a v IH]; intros Hv Ht.
  - exists "", "". repeat split; try done. apply (span_app ident_byte "" t); done.
  - cbn in Hv. apply andb_true_iff in Hv as [Ha Hv]. destruct (ident_byte a) eqn:Ei.
    + destruct (IH Hv Ht) as (w & r & E & -> & Hw & Hr & Hs). exists (String a w), r.
      cbn [String.append span all_bytes_of]. rewrite Ei, E, Hw. done.
    + exists "", (String a v). cbn [String.append span starts_with]. rewrite Ei. repeat split; try done.
      unfold arguments. cbn. by rewrite Ha, Hv.
Qed.

Lemma consume_reads n v acc t : arguments v = true → (String.length v < n)%nat →
  reads (consumeUntilRParen n acc) (v +:+ String ")" t) (acc +:+ v) t.
Proof.
  revert v acc. induction n as [|n IH]; intros v acc Hv Hn; [lia|]. cbn [consumeUntilRParen].
  destruct v as [|a v].
  { rewrite str_app_nil_r. cbn [String.append]. rd. }
  destruct (ident_byte a) eqn:Ei.
  - destruct (span_arguments (String a v) (String ")" t) Hv ltac:(done)) as (w & r & E & Ev & Hw & Hr & Hs).
    rewrite Ev in *. destruct w as [|b w]; [cbn in Ev; rewrite <-Ev in Hs; cbn in Hs; congruence|].
    assert (ident (String b w) = true) as Hid by (unfold ident; cbn in Hw |- *; done).
    rewrite append_assoc. apply consume_ident; [done|by destruct r|].
    rewrite <-append_assoc. rewrite length_app_str in Hn. cbn [String.length] in Hn. apply IH; [done|lia].
  - cbn in Hv. apply andb_true_iff in Hv as [Ha Hv]. unfold arg_byte in Ha. rewrite Ei in Ha.
    cbn [orb] in Ha. apply Ascii.eqb_eq in Ha as ->.
    cbn [String.append]. eapply reads_bind; [rd_prim|]. cbn [Typ Val].
    replace (acc +:+ String "," v) with ((acc +:+ ",") +:+ v) by (by rewrite append_assoc).
    apply IH; [done|]. cbn in Hn. lia.
Qed.

(** Spaces between the tokens of an argument are dropped. *)
Lemma consume_pair n min max t :
  all_bytes_of ident_byte min = true → all_bytes_of ident_byte max = true →
  (String.length min + 3 + String.length max < n)%nat →
  reads (consumeUntilRParen n "") (min +:+ ", " +:+ max +:+ String ")" t) (min +:+ "," +:+ max) t.
Proof.
  intros Hmin Hmax Hn.
  assert (∀ k acc, (0 < k)%nat → reads (consumeUntilRParen k acc) (String ")" t) acc t) as Hend.
  { intros [|k] acc Hk; [lia|]. cbn [consumeUntilRParen]. rd. }
  assert (∀ k, (1 < k)%nat → reads (consumeUntilRParen (S k) min) (", " +:+ max +:+ String ")" t)
    (min +:+ "," +:+ max) t) as Hcomma.
  { intros [|k] Hk; [lia|]. cbn [String.append]. cbn [consumeUntilRParen]. eapply reads_bind; [rd_prim|].
    cbn [Typ Val]. change (String "," max) with ("," +:+ max). rewrite <-append_assoc. destruct max as [|a max].
    - rewrite str_app_nil_r. cbn [String.append consumeUntilRParen]. rd.
    - eapply reads_at; [apply Next_space|]. apply consume_ident; [done|done|]. apply Hend. lia. }
  destruct n as [|n]; [lia|]. destruct min as [|a min]; [apply Hcomma; lia|].
  apply consume_ident; [done|done|]. destruct n as [|n]; [lia|]. apply Hcomma. lia.
Qed.

(** ** Atoms *)

Lemma fieldName_spec f : fieldName f = true →
  name f = true ∧ String.eqb f "_time" = false ∧ ∀ n, messageCall n f = None.
Proof.
  unfold fieldName, reserved. cbn [existsb]. intros [Hn Hr]%andb_true_iff. apply negb_true_iff in Hr.
  repeat (apply orb_false_iff in Hr as [? Hr]). repeat split; [done|done|].
  intros n. unfold messageCall.
  repeat match goal with E : String.eqb f _ = false |- _ => rewrite E; clear E end. done.
Qed.

(** A primary expression that starts with an identifier. *)
Lemma primary_ident rec n v t a u : name v = true → starts_with ident_byte t = false →
  reads (if String.eqb v "_time" then parseTimeFilter
         else match messageCall n v with
              | Some m => t ← peekTyp; if is_typ t TokLParen then m else mret (Word v)
              | None => parseFieldOp n v
              end) t a u →
  reads (parsePrimaryFilter rec n) (v +:+ t) a u.
Proof.
  intros Hv Ht Hr. unfold parsePrimaryFilter. eapply reads_bind; [rd_prim|]. cbn [Typ].
  unfold parseIdentOrFieldFilter. eapply reads_bind; [rd_prim|]. exact Hr.
Qed.

Lemma primary_field rec n f t a u : fieldName f = true → starts_with ident_byte t = false →
  reads (parseFieldOp n f) t a u → reads (parsePrimaryFilter rec n) (f +:+ t) a u.
Proof.
  intros (Hf & Ht' & Hc)%fieldName_spec Ht Hr. apply primary_ident; [done|done|]. by rewrite Ht', Hc.
Qed.

Lemma word_reads rec n v t : name v = true → String.eqb v "_time" = false → follow t →
  reads (parsePrimaryFilter rec n) (v +:+ t) (Word v) t.
Proof.
  intros Hv Ht Hf. apply primary_ident; [done|apply Hf|]. rewrite Ht.
  on_follow Hf; destruct (messageCall n v); unfold parseFieldOp; rd.
Qed.

Lemma rawCall_inv op c : rawCall op = Some c → rawOp c = Some op ∧ name c = true.
Proof. destruct op; cbn; intros [= <-]; done. Qed.

(** [field:call(arguments)]. *)
Lemma rawCall_reads n f op c v t : rawCall op = Some c → arguments v = true → (String.length v < n)%nat →
  reads (parseFieldOp n f) (":" +:+ c +:+ "(" +:+ v +:+ ")" +:+ t) (field f op v) t.
Proof.
  intros [Hc Hn]%rawCall_inv Hv Hl. unfold parseFieldOp.
  eapply reads_bind; [rd_prim|]. known. eapply reads_bind; [rd_prim|].
  unfold parseBareCsFilterValue. eapply reads_bind; [rd_prim|]. known. eapply reads_bind; [rd_prim|].
  cbn [Val]. unfold bareIdent. rewrite Hc. unfold rawArg. eapply reads_bind; [rd_prim|].
  eapply reads_bind; [by apply consume_reads|]. apply reads_ret.
Qed.

Lemma identCall_reads n f op c v t : identOp c = Some op → rawOp c = None → name c = true → name v = true →
  reads (parseFieldOp n f) (":" +:+ c +:+ "(" +:+ v +:+ ")" +:+ t) (field f op v) t.
Proof.
  intros Hc Hr Hn Hv. unfold parseFieldOp.
  eapply reads_bind; [rd_prim|]. known. eapply reads_bind; [rd_prim|].
  unfold parseBareCsFilterValue. eapply reads_bind; [rd_prim|]. known. eapply reads_bind; [rd_prim|].
  cbn [Val]. unfold bareIdent. rewrite Hc, Hr. unfold identArg. rd.
Qed.

Lemma prefixValue_spec v : prefixValue v = true →
  name v = true ∧ rawOp v = None ∧ identOp v = None ∧
  String.eqb v "len_range" = false ∧ String.eqb v "pattern" = false.
Proof.
  unfold prefixValue. intros E. destruct (rawOp v), (identOp v); try done.
  apply andb_true_iff in E as [[E1 E2]%andb_true_iff E3]. apply negb_true_iff in E2, E3. done.
Qed.

(** The call of an operator with a raw argument as it is printed. *)
Lemma rawCall_core f op c v : rawCall op = Some c →
  FieldFilter_core f op v = f +:+ ":" +:+ c +:+ "(" +:+ v +:+ ")" ∧ field_ok op v = arguments v.
Proof. destruct op; cbn; intros [= <-]; done. Qed.

(** A quoted value, a value after an order sign, and the forms after a bare colon. *)
Ltac field_start Hf :=
  rewrite ?append_assoc; apply primary_field; [done|done|]; unfold parseFieldOp;
  eapply reads_bind; [rd_prim|]; known.

Lemma field_reads rec n f op v t : fieldName f = true → field_ok op v = true → follow t →
  (String.length (FieldFilter_core f op v) < n)%nat →
  reads (parsePrimaryFilter rec n) (FieldFilter_core f op v +:+ t) (field f op v) t.
Proof.
  intros Hf Hv Ht Hl. pose proof (proj1 Ht) as Hs.
  destruct (rawCall op) as [c|] eqn:Ec.
  { destruct (rawCall_core f op c v Ec) as [E' E]. rewrite E' in *. rewrite E in Hv. rewrite !append_assoc.
    apply primary_field; [done|done|]. apply rawCall_reads; [done|done|]. rewrite !length_app_str in Hl. lia. }
  destruct op; try discriminate Ec; cbn [FieldFilter_core field_ok] in *; try discriminate Hv.
  - field_start Hf. rd.
  - field_start Hf. rd.
  - apply prefixValue_spec in Hv as (Hn & H1' & H2' & H3' & H4'). field_start Hf.
    eapply reads_bind; [rd_prim|]. unfold parseBareCsFilterValue. eapply reads_bind; [rd_prim|]. known.
    eapply reads_bind; [rd_prim|]. cbn [Val]. unfold bareIdent. rewrite H1', H2', H3', H4'. rd.
  - field_start Hf. eapply reads_bind; [rd_prim|]. unfold parseBareCsFilterValue. rd.
  - apply String.eqb_eq in Hv as ->. rewrite !append_assoc, (quoted_app "" t). field_start Hf.
    eapply reads_bind; [rd_prim|]. unfold parseBareCsFilterValue. rd.
  - apply String.eqb_eq in Hv as ->. field_start Hf. eapply reads_bind; [rd_prim|].
    unfold parseBareCsFilterValue. on_follow Ht; rd.
  - field_start Hf. rd.
  - field_start Hf. rd.
  - field_start Hf. rd.
  - field_start Hf. rd.
  - rewrite !append_assoc. apply primary_field; [done|done|].
    exact (identCall_reads n f FieldOpEqField "eq_field" v t eq_refl eq_refl eq_refl Hv).
  - rewrite !append_assoc. apply primary_field; [done|done|].
    exact (identCall_reads n f FieldOpLeField "le_field" v t eq_refl eq_refl eq_refl Hv).
  - rewrite !append_assoc. apply primary_field; [done|done|].
    exact (identCall_reads n f FieldOpValueType "value_type" v t eq_refl eq_refl eq_refl Hv).
Qed.

(** ** Lists *)

Lemma Join_cons sep x y l : Join sep (x :: y :: l) = x +:+ sep +:+ Join sep (y :: l).
Proof. done. Qed.

Lemma matcher_reads m s : matcher_ok m = true → reads parseLabelMatcher (LabelMatcher_String m +:+ s) m s.
Proof.
  destruct m as [n op v]. unfold matcher_ok, LabelMatcher_String. cbn [lm_Name lm_Op lm_Value existsb].
  intros [Hn Ho]%andb_true_iff. unfold parseLabelMatcher.
  repeat (apply orb_true_iff in Ho as [->%String.eqb_eq|Ho]); [..|done]; rewrite !append_assoc; rd.
Qed.

Lemma matcher_head m s : matcher_ok m = true →
  ∃ k, Next (LabelMatcher_String m +:+ s) = (mkTok TokIdent (lm_Name m), k).
Proof.
  destruct m as [n op v]. unfold matcher_ok, LabelMatcher_String. cbn [lm_Name lm_Op lm_Value existsb].
  intros [Hn Ho]%andb_true_iff.
  repeat (apply orb_true_iff in Ho as [->%String.eqb_eq|Ho]); [..|done];
    rewrite !append_assoc; eexists; apply Next_name; done.
Qed.

Lemma matchers_reads n ms acc t : forallb matcher_ok ms = true → (length ms < n)%nat →
  reads (matchersLoop n acc) (Join ", " (map LabelMatcher_String ms) +:+ "}" +:+ t) (acc ++ ms) t.
Proof.
  revert ms acc. induction n as [|n IH]; intros ms acc Hms Hn; [lia|]. cbn [matchersLoop].
  destruct ms as [|m ms].
  { rewrite app_nil_r. cbn [map Join String.append]. rd. }
  cbn [forallb] in Hms. apply andb_true_iff in Hms as [Hm Hms]. cbn [map].
  replace (acc ++ m :: ms) with ((acc ++ [m]) ++ ms) by (by rewrite <-app_assoc).
  destruct ms as [|m' ms].
  - cbn [map Join]. destruct (matcher_head m ("}" +:+ t) Hm) as [k Hk].
    eapply reads_bind; [eapply reads_peekTyp; exact Hk|]. known.
    eapply reads_bind; [by apply matcher_reads|]. eapply reads_bind; [rd_prim|].
    specialize (IH [] (acc ++ [m]) eq_refl). cbn [map Join String.append] in IH. apply IH. cbn [length] in *. lia.
  - cbn [map]. rewrite Join_cons, !append_assoc.
    match goal with |- reads _ (_ +:+ ?s) _ _ => destruct (matcher_head m s Hm) as [k Hk] end.
    eapply reads_bind; [eapply reads_peekTyp; exact Hk|]. known.
    eapply reads_bind; [by apply matcher_reads|]. eapply reads_bind; [rd_prim|].
    specialize (IH (m' :: ms) (acc ++ [m]) Hms). cbn [map] in IH.
    cbn [length] in *. destruct n as [|n]; [lia|]. cbn [matchersLoop] in *.
    apply reads_peek_space. apply IH. lia.
Qed.

Lemma parts_reads ps n acc t : forallb verbatim ps = true → (2 * length ps < n)%nat →
  reads (partsLoop n acc) (Join "," (map quoted ps) +:+ ")" +:+ t) (acc ++ ps) (")" +:+ t).
Proof.
  revert n acc. induction ps as [|v ps IH]; intros n acc Hps Hn; (destruct n as [|n]; [lia|]); cbn [partsLoop].
  { rewrite app_nil_r. cbn [map Join String.append]. rd. }
  cbn [forallb] in Hps. apply andb_true_iff in Hps as [Hv Hps]. cbn [map length] in *.
  replace (acc ++ v :: ps) with ((acc ++ [v]) ++ ps) by (by rewrite <-app_assoc).
  destruct ps as [|v' ps].
  - cbn [map Join]. eapply reads_bind; [rd_prim|]. known. eapply reads_bind; [rd_prim|]. cbn [Val].
    apply (IH n (acc ++ [v]) eq_refl). cbn [length]. lia.
  - cbn [map] in *. rewrite Join_cons, !append_assoc.
    eapply reads_bind; [rd_prim|]. known. eapply reads_bind; [rd_prim|]. cbn [Val].
    cbn [length] in *. destruct n as [|n]; [lia|]. cbn [partsLoop String.append].
    eapply reads_bind; [eapply reads_peekTyp; lex_literal|]. known.
    eapply reads_bind; [eapply reads_advance; lex_literal|]. apply IH; [done|lia].
Qed.

(** ** Time filters *)

Lemma IndexByte_app c s t i : IndexByte c s = Some i → IndexByte c (s +:+ t) = Some i.
Proof.
  revert i. induction s as [|a s IH]; intros i; [done|]. cbn [IndexByte String.append].
  destruct (Ascii.eqb a c); [done|]. destruct (IndexByte c s) as [j|]; [|done].
  intros [= <-]. by rewrite (IH j eq_refl).
Qed.

Lemma brackets_spec b : brackets b = true → ∃ r, b = String "[" r ∧ ∀ t, IndexByte "]" (b +:+ t) = Some (String.length r).
Proof.
  destruct b as [|a r]; [done|]. unfold brackets.
  destruct a as [[] [] [] [] [] [] [] []]; try done.
  destruct (IndexByte "]" r) as [i|] eqn:E; [|done]. intros Hi%Nat.eqb_eq. exists r. split; [done|]. intros t.
  cbn [String.append]. cbn [IndexByte]. change (Ascii.eqb "[" "]") with false. cbv iota.
  rewrite (IndexByte_app _ _ t _ E). cbn. by rewrite Hi.
Qed.

Lemma bracket_at kind b offset t : brackets b = true → opt_name offset = true → follow t →
  ∃ p', parseBracketRange kind (mkP (b +:+ withOffset "" offset +:+ t) None) =
          Done (if String.eqb kind "day_range" then DayRange b offset else WeekRange b offset) p' ∧
        at_text t p'.
Proof.
  intros (r & Eb & Hi)%brackets_spec Ho Hf. pose proof (proj1 Hf) as Hs.
  unfold parseBracketRange, clearBuf, Remaining, setText. unfold mbind, P_bind. cbn [sc buf].
  set (x := withOffset "" offset +:+ t).
  assert (trimBlanks (b +:+ x) = b +:+ x) as -> by (rewrite Eb; reflexivity).
  assert (HasPrefix (b +:+ x) "[" = true) as -> by (rewrite Eb; reflexivity). cbn [negb].
  rewrite Hi. assert (S (String.length r) = String.length b) as -> by (by rewrite Eb).
  rewrite prefix_app, Nat.sub_diag. cbn [Nat.add]. unfold Skip. rewrite suffix_app.
  cbn [buf]. assert (reads parseOffset x offset t) as Hr; [|destruct (Hr (mkP x None)) as (p' & -> & Hp'); [by left|by exists p']].
  unfold parseOffset.
  subst x. unfold withOffset, opt_name in *. destruct (String.eqb_spec offset "") as [->|Hne].
  - cbn [String.append]. on_follow Hf; rd.
  - cbn [orb] in Ho. cbn [String.append]. rd.
Qed.

(** A bracketed range after [_time:]. *)
Lemma range_reads rec n kind b offset t : kind = "day_range" ∨ kind = "week_range" →
  brackets b = true → opt_name offset = true → follow t →
  reads (parsePrimaryFilter rec n) (withOffset ("_time:" +:+ kind +:+ b) offset +:+ t)
    (if String.eqb kind "day_range" then DayRange b offset else WeekRange b offset) t.
Proof.
  intros Hk Hb Ho Hf.
  assert (withOffset ("_time:" +:+ kind +:+ b) offset +:+ t = "_time" +:+ ":" +:+ kind +:+ b +:+ withOffset "" offset +:+ t) as ->.
  { unfold withOffset. destruct (String.eqb offset ""); rewrite !append_assoc; reflexivity. }
  apply primary_ident; [done|done|]. cbv iota beta. change (String.eqb "_time" "_time") with true. cbv iota.
  unfold parseTimeFilter.
  destruct (brackets_spec b Hb) as (r & Er & _).
  assert (name kind = true) as Hn by (destruct Hk as [-> | ->]; done).
  assert (starts_with ident_byte (b +:+ withOffset "" offset +:+ t) = false) as Hs by (by rewrite Er).
  eapply reads_bind; [rd_prim|]. known. eapply reads_bind; [rd_prim|]. eapply reads_bind; [rd_prim|]. known.
  eapply reads_advance_raw; [lexes|]. cbn [Val].
  assert (String.eqb kind "day_range" || String.eqb kind "week_range" = true) as ->
    by (destruct Hk as [-> | ->]; done).
  by apply bracket_at.
Qed.

Lemma time_reads rec n r t : name r = true → String.eqb r "day_range" = false → String.eqb r "week_range" = false →
  follow t → reads (parsePrimaryFilter rec n) ("_time:" +:+ r +:+ t) (TimeFilter r) t.
Proof.
  intros Hn Hd Hw Hf. pose proof (proj1 Hf) as Hs. apply (primary_ident rec n "_time" (":" +:+ r +:+ t)); [done|done|].
  change (String.eqb "_time" "_time") with true. cbv iota. unfold parseTimeFilter.
  eapply reads_bind; [rd_prim|]. known. eapply reads_bind; [rd_prim|]. eapply reads_bind; [rd_prim|]. known.
  eapply reads_bind; [rd_prim|]. cbn [Val]. rewrite Hd, Hw. known. rd.
Qed.

(** ** Lengths and calls *)

Lemma dropSpaces_ident s : all_bytes_of ident_byte s = true → dropSpaces s = s.
Proof.
  induction s as [|a s IH]; [done|]. cbn. intros [Ha Hs]%andb_true_iff.
  destruct (Ascii.eqb_spec a " ") as [->|_]; [done|]. by rewrite IH.
Qed.

Lemma dropSpaces_app a b : dropSpaces (a +:+ b) = dropSpaces a +:+ dropSpaces b.
Proof. induction a as [|c a IH]; [done|]. cbn. rewrite IH. by destruct (Ascii.eqb c " "). Qed.

Lemma Cut_comma a b : all_bytes_of ident_byte a = true → Cut "," (a +:+ "," +:+ b) = Some (a, b).
Proof.
  induction a as [|c a IH]; [done|]. cbn [all_bytes_of]. intros [Hc Ha]%andb_true_iff.
  cbn [String.append]. cbn [Cut]. destruct (Ascii.eqb_spec c ",") as [->|_]; [done|].
  cbn [String.append] in IH. by rewrite IH.
Qed.

Lemma minMax_pair min max : all_bytes_of ident_byte min = true → all_bytes_of ident_byte max = true →
  minMax (min +:+ "," +:+ max) = (min, max).
Proof.
  intros Hmin Hmax. unfold minMax. rewrite !dropSpaces_app, (dropSpaces_ident min), (dropSpaces_ident max) by done.
  change (dropSpaces ",") with ",". by rewrite Cut_comma.
Qed.

Lemma consume_quoted n acc v t : verbatim v = true → (1 < n)%nat →
  reads (consumeUntilRParen n acc) (quoted v +:+ ")" +:+ t) (acc +:+ v) t.
Proof.
  intros Hv Hn. destruct n as [|[|n]]; [lia|lia|]. cbn [consumeUntilRParen].
  eapply reads_bind; [rd_prim|]. cbn [Typ Val]. rd.
Qed.

(** The name of a call, its parenthesis and its arguments. *)
Lemma call_reads rec n c m s a t : name c = true → String.eqb c "_time" = false → messageCall n c = Some m →
  reads m (String "(" s) a t → reads (parsePrimaryFilter rec n) (c +:+ String "(" s) a t.
Proof.
  intros Hc Ht Hm Hr. apply primary_ident; [done|done|]. rewrite Ht, Hm.
  eapply reads_bind; [rd_prim|]. known. exact Hr.
Qed.

(** [field:call(...)] for the calls that are not field operators. *)
Lemma bareCall_reads rec n f c s a t : fieldName f = true → name c = true → starts_with ident_byte s = false →
  reads (bareIdent n f c) s a t → reads (parsePrimaryFilter rec n) (f +:+ ":" +:+ c +:+ s) a t.
Proof.
  intros Hf Hc Hs Hr. apply primary_field; [done|done|]. unfold parseFieldOp.
  eapply reads_bind; [rd_prim|]. known. eapply reads_bind; [rd_prim|].
  unfold parseBareCsFilterValue. eapply reads_bind; [rd_prim|]. known. eapply reads_bind; [rd_prim|]. exact Hr.
Qed.

Lemma Join_length sep k (l : list string) : Forall (λ s, k ≤ String.length s)%nat l →
  (k * length l ≤ String.length (Join sep l))%nat.
Proof.
  induction 1 as [|x l Hx Hl IH]; [cbn; lia|]. destruct l as [|y l]; [cbn in *; lia|].
  rewrite Join_cons, !length_app_str. cbn [length] in *. lia.
Qed.

Definition atomic (f : FilterExpr) : bool :=
  match f with
  | AndExpr _ _ | OrExpr _ _ | NotExpr _ | FieldFilter _ _ _ true => false
  | _ => true
  end.

Lemma quoted_length v : (2 ≤ String.length (quoted v))%nat.
Proof. unfold quoted. cbn. rewrite length_app_str. cbn. lia. Qed.

Lemma contains_reads rec n (all : bool) ps t : forallb verbatim ps = true →
  (String.length (Join "," (map quoted ps)) < n)%nat →
  reads (parsePrimaryFilter rec n)
    ((if all then "contains_all" else "contains_any") +:+ String "(" (Join "," (map quoted ps) +:+ ")" +:+ t))
    (if all then ContainsAll ps else ContainsAny ps) t.
Proof.
  intros Hps Hn. apply (call_reads rec n _ (parseContains n (if all then "contains_all" else "contains_any"))); try (by destruct all).
  unfold parseContains. eapply reads_bind; [rd_prim|].
  eapply reads_bind; [apply parts_reads; [done|]|].
  - assert (2 * length (map quoted ps) ≤ String.length (Join "," (map quoted ps)))%nat as Hl.
    { apply Join_length. apply Forall_map, Forall_forall. intros v _. apply quoted_length. }
    rewrite length_map in Hl. lia.
  - cbn [app]. eapply reads_bind; [rd_prim|]. by destruct all; apply reads_ret.
Qed.

Lemma stream_reads rec n ms t : forallb matcher_ok ms = true →
  (String.length (Join ", " (map LabelMatcher_String ms)) < n)%nat →
  reads (parsePrimaryFilter rec n) (String "{" (Join ", " (map LabelMatcher_String ms) +:+ "}" +:+ t)) (StreamFilter ms) t.
Proof.
  intros Hms Hn. unfold parsePrimaryFilter. eapply reads_bind; [rd_prim|]. known.
  unfold parseStreamFilter. eapply reads_bind; [rd_prim|].
  eapply reads_bind; [apply (matchers_reads n ms []); [done|]|apply reads_ret].
  assert (1 * length (map LabelMatcher_String ms) ≤ String.length (Join ", " (map LabelMatcher_String ms)))%nat as Hl.
  { apply Join_length. apply Forall_map, Forall_forall. intros m _. unfold LabelMatcher_String.
    rewrite !length_app_str. pose proof (quoted_length (escapeLogsQL (lm_Value m))). unfold quoteLogsQL. lia. }
  rewrite length_map in Hl. lia.
Qed.

Lemma lenRange_reads rec n f min max t : opt_field f = true →
  all_bytes_of ident_byte min = true → all_bytes_of ident_byte max = true →
  (String.length min + 3 + String.length max < n)%nat →
  reads (parsePrimaryFilter rec n) (Filter_String (LenRange f min max) +:+ t) (LenRange f min max) t.
Proof.
  intros Hf Hmin Hmax Hn. cbn [Filter_String]. unfold opt_field in Hf.
  destruct (String.eqb_spec f "") as [->|_]; rewrite !append_assoc.
  - apply (call_reads rec n "len_range" (parseLenRange n)); [done|done|done|].
    unfold parseLenRange. eapply reads_bind; [rd_prim|].
    eapply reads_bind; [by apply consume_pair|]. rewrite minMax_pair by done. apply reads_ret.
  - cbn [orb] in Hf. apply (bareCall_reads rec n f "len_range" ("(" +:+ _)); [done|done|done|].
    unfold bareIdent. cbn [String.append]. eapply reads_bind; [rd_prim|].
    eapply reads_bind; [by apply consume_pair|]. rewrite minMax_pair by done. apply reads_ret.
Qed.

Lemma pattern_reads rec n f v t : opt_field f = true → verbatim v = true → (1 < n)%nat →
  reads (parsePrimaryFilter rec n) (Filter_String (PatternMatch f v) +:+ t) (PatternMatch f v) t.
Proof.
  intros Hf Hv Hn. cbn [Filter_String]. unfold opt_field in Hf.
  destruct (String.eqb_spec f "") as [->|_]; rewrite !append_assoc.
  - apply (call_reads rec n "pattern" (parsePattern n)); [done|done|done|].
    unfold parsePattern. eapply reads_bind; [rd_prim|].
    eapply reads_bind; [by apply consume_quoted|]. apply reads_ret.
  - cbn [orb] in Hf. apply (bareCall_reads rec n f "pattern" ("(" +:+ _)); [done|done|done|].
    unfold bareIdent. cbn [String.append]. eapply reads_bind; [rd_prim|].
    eapply reads_bind; [by apply consume_quoted|]. apply reads_ret.
Qed.

Lemma atom_reads rec n f t : atomic f = true → filter_ok f = true → follow t →
  (String.length (Filter_String f) < n)%nat →
  reads (parsePrimaryFilter rec n) (Filter_String f +:+ t) (regroup f) t.
Proof.
  intros Ha Hok Hf Hn. pose proof (proj1 Hf) as Hs.
  destruct f; try discriminate Ha; cbn [filter_ok] in Hok; checks; cbn [regroup].
  - by apply word_reads.
  - cbn [Filter_String]. unfold parsePrimaryFilter. rd.
  - cbn [Filter_String]. rewrite append_assoc. apply primary_field; [done|done|]. unfold parseFieldOp. rd.
  - cbn [Filter_String]. unfold parsePrimaryFilter, parseStar. rd.
  - cbn [Filter_String]. unfold parsePrimaryFilter, parseExact. on_follow Hf; rd.
  - cbn [Filter_String]. unfold parsePrimaryFilter. rd.
  - done.
  - cbn [Filter_String]. rewrite !append_assoc. apply (call_reads rec n "i" parseAnyCase); [done|done|done|].
    unfold parseAnyCase. rd.
  - cbn [Filter_String String.append]. unfold parsePrimaryFilter, parseStar. on_follow Hf; rd.
  - destruct Negate; [done|]. by apply field_reads.
  - cbn [Filter_String] in *. rewrite !append_assoc. apply stream_reads; [done|].
    rewrite !length_app_str in Hn. lia.
  - cbn [Filter_String]. rewrite !append_assoc. by apply time_reads.
  - cbn [Filter_String]. rewrite !append_assoc. apply (call_reads rec n "i" parseAnyCase); [done|done|done|].
    unfold parseAnyCase. rd.
  - cbn [Filter_String]. rewrite !append_assoc. apply (call_reads rec n "i" parseAnyCase); [done|done|done|].
    unfold parseAnyCase. rd.
  - cbn [Filter_String]. unfold parsePrimaryFilter, parseExact. rd.
  - cbn [Filter_String] in *. rewrite !append_assoc. apply (contains_reads rec n true); [done|].
    rewrite !length_app_str in Hn. lia.
  - cbn [Filter_String] in *. rewrite !append_assoc. apply (contains_reads rec n false); [done|].
    rewrite !length_app_str in Hn. lia.
  - apply (range_reads rec n "day_range"); eauto.
  - apply (range_reads rec n "week_range"); eauto.
  - apply lenRange_reads; [done|done|done|]. cbn [Filter_String] in Hn.
    destruct (String.eqb Field ""); rewrite !length_app_str in Hn; cbn in Hn; lia.
  - apply pattern_reads; [done|done|]. cbn [Filter_String] in Hn.
    destruct (String.eqb Field ""); rewrite !length_app_str in Hn; cbn in Hn; lia.
  - done.
Qed.

(** ** The grammar *)

(** Code that starts by looking at the next token does not see spaces before it. *)
Definition looks {A} (m : P A) : Prop := ∀ p q, peek p = peek q → m p = m q.

Lemma looks_peekTyp {A} (f : TokType → P A) : looks (peekTyp ≫= f).
Proof. intros p q E. unfold peekTyp, mbind, P_bind. by rewrite E. Qed.

Lemma looks_bind {A B} (m : P A) (f : A → P B) : looks m → looks (m ≫= f).
Proof. intros Hm p q E. unfold mbind, P_bind. by rewrite (Hm p q E). Qed.

Lemma looks_space {A} (m : P A) s b u : looks m → reads m s b u → reads m (String " " s) b u.
Proof.
  intros Hm Hr p Hp. destruct (peek_at_space s p Hp) as (q & Hq & E). rewrite (Hm p q E). by apply Hr.
Qed.

Lemma not_looks rec n : looks (parseNotExpr rec (S n)).
Proof. apply looks_peekTyp. Qed.

(** What may follow a whole filter. *)
Definition stop (t : string) : Prop :=
  starts_with ident_byte t = false ∧
  ∃ k v s', Next t = (mkTok k v, s') ∧ closes k = true ∧ k ≠ TokAnd ∧ k ≠ TokOr.

Lemma stop_follow t : stop t → follow t.
Proof. intros (Hs & k & v & s' & Hn & Hk & _). split; [done|]. by exists k, v, s'. Qed.

Lemma stop_rparen t : stop (String ")" t).
Proof. split; [done|]. by exists TokRParen, ")", t. Qed.

Lemma stop_nil : stop "".
Proof. split; [done|]. by exists TokEOF, "", "". Qed.

Lemma stop_pipe t : stop (" | " +:+ t).
Proof. split; [done|]. eexists TokPipe, "|", _. split; [lexes|done]. Qed.

(** A primary expression does not start with NOT. *)
Lemma not_of_primary rec n s a u :
  reads (parsePrimaryFilter rec (S n)) s a u → reads (parseNotExpr rec (S n)) s a u.
Proof.
  intros Hr. destruct (Next s) as [k s'] eqn:E. cbn [parseNotExpr].
  eapply reads_bind; [by eapply reads_peekTyp|]. destruct (is_typ (Typ k) TokNot) eqn:Ek; [|done].
  apply typ_is in Ek. destruct (Hr (mkP s None)) as (p' & Ep & _); [by left|].
  unfold parsePrimaryFilter, peek, mbind, P_bind in Ep. cbn [buf sc] in Ep. rewrite E, Ek in Ep. done.
Qed.

Lemma joinAnd_assoc a b c : joinAnd (joinAnd a b) c = joinAnd a (joinAnd b c).
Proof. induction c; try done. cbn [joinAnd]. by rewrite IHc1. Qed.

Lemma joinOr_assoc a b c : joinOr (joinOr a b) c = joinOr a (joinOr b c).
Proof. induction c; try done. cbn [joinOr]. by rewrite IHc1. Qed.

Lemma joinAnd_single a f : is_and f = false → joinAnd a (regroup f) = AndExpr a (regroup f).
Proof. rewrite <-regroup_is_and. by destruct (regroup f). Qed.

Lemma joinOr_single a f : is_or f = false → joinOr a (regroup f) = OrExpr a (regroup f).
Proof. rewrite <-regroup_is_or. by destruct (regroup f). Qed.

Section Chains.
Context (rec : P FilterExpr) (k : nat).
Hypothesis Hrec : ∀ f t, filter_ok f = true → stop t → (String.length (Filter_String f +:+ t) < k)%nat →
  reads rec (Filter_String f +:+ t) (regroup f) t.

Lemma parens_reads n f t : filter_ok f = true → (String.length (Filter_String f +:+ ")" +:+ t) < k)%nat →
  reads (parsePrimaryFilter rec n) ("(" +:+ Filter_String f +:+ ")" +:+ t) (regroup f) t.
Proof.
  intros Hok Hl. unfold parsePrimaryFilter. eapply reads_bind; [rd_prim|]. known.
  eapply reads_bind; [rd_prim|]. cbn [String.append].
  eapply reads_bind; [apply Hrec; [done|apply stop_rparen|done]|]. rd.
Qed.

(** The operand of NOT or AND, in parentheses where it must be. *)
Lemma operand_reads f n b t : b = true ∨ is_or f || is_and f = false → filter_ok f = true → follow t →
  (String.length (parens b (Filter_String f) +:+ t) < n ≤ S k)%nat →
  reads (parseNotExpr rec n) (parens b (Filter_String f) +:+ t) (regroup f) t.
Proof.
  revert n b. induction f as [f IH] using (induction_ltof1 _ (λ f, String.length (Filter_String f))). unfold ltof in IH.
  intros n b Hb Hok Hf [Hl Hn]. destruct n as [|n]; [lia|].
  destruct b; cbn [parens] in *.
  { rewrite !append_assoc in *. apply not_of_primary, parens_reads; [done|].
    rewrite !length_app_str in *. cbn in *. lia. }
  destruct Hb as [Hb|Hb]; [done|]. destruct (atomic f) eqn:Ha.
  { apply not_of_primary, atom_reads; [done|done|done|]. rewrite length_app_str in Hl. lia. }
  destruct f; try discriminate Ha; try discriminate Hb.
  - destruct Negate; [|done]. cbn [filter_ok] in Hok. checks.
    cbn [Filter_String regroup] in *. unfold FieldFilter_String in *. rewrite !append_assoc in *.
    cbn [parseNotExpr String.append]. eapply reads_bind; [rd_prim|]. known. eapply reads_bind; [rd_prim|].
    rewrite !length_app_str in Hl. cbn in Hl. destruct n as [|n]; [lia|].
    eapply reads_bind; [|apply reads_ret]. apply looks_space; [apply not_looks|].
    apply not_of_primary, field_reads; [done|done|done|lia].
  - cbn [filter_ok] in Hok. cbn [Filter_String regroup] in *. rewrite !append_assoc in *.
    cbn [parseNotExpr String.append]. eapply reads_bind; [rd_prim|]. known. eapply reads_bind; [rd_prim|].
    rewrite !length_app_str in *. cbn in Hl. destruct n as [|n]; [lia|].
    eapply reads_bind; [|apply reads_ret]. apply looks_space; [apply not_looks|].
    apply IH; [|destruct (is_or f || is_and f); eauto|done|done|rewrite length_app_str; lia].
    unfold parens. destruct (is_or f || is_and f); cbn; rewrite ?length_app_str; lia.
Qed.

(** ** Chains of AND *)

Definition conjunct (f : FilterExpr) : string := parens (is_or f) (Filter_String f).

Lemma conjunct_reads f n t : is_and f = false → filter_ok f = true → follow t →
  (String.length (conjunct f +:+ t) < n ≤ S k)%nat → reads (parseNotExpr rec n) (conjunct f +:+ t) (regroup f) t.
Proof. intros Ha Hok Hf Hl. apply operand_reads; [rewrite Ha, orb_false_r; by destruct (is_or f); eauto|done..]. Qed.

(** Reading on with [l] to the left, for any fuel that the rest of the text needs. *)
Definition and_rest (n : nat) (l : FilterExpr) (t : string) (g : FilterExpr) (u : string) : Prop :=
  ∀ m, (String.length t < m ≤ n)%nat → reads (andLoop rec m l) t g u.

Definition and_next (n : nat) (l : FilterExpr) : P FilterExpr :=
  right ← parseNotExpr rec (S n); andLoop rec n (AndExpr l right).

(** The loop, at an AND. *)
Lemma and_step n l s g u : reads (and_next n l) s g u → reads (andLoop rec (S n) l) (" AND " +:+ s) g u.
Proof.
  intros Hr. cbn [andLoop String.append]. eapply reads_bind; [rd_prim|]. known.
  eapply reads_bind; [rd_prim|]. apply looks_space; [|done]. apply looks_bind, not_looks.
Qed.

(** [f] as the first element of a chain and as a later one. *)
Definition and_chain (f : FilterExpr) : Prop :=
  (∀ n t g u, filter_ok f = true → follow t → (String.length (conjunct f +:+ t) < n ≤ S k)%nat →
     and_rest n (regroup f) t g u → reads (parseAndExpr rec n) (conjunct f +:+ t) g u) ∧
  (∀ n l t g u, filter_ok f = true → follow t → (String.length (conjunct f +:+ t) < n ≤ k)%nat →
     and_rest n (joinAnd l (regroup f)) t g u → reads (and_next n l) (conjunct f +:+ t) g u).

Lemma and_chain_one f : is_and f = false → and_chain f.
Proof.
  intros Ha. split.
  - intros n t g u Hok Hf Hl Hr. eapply reads_bind; [by apply conjunct_reads|]. apply Hr.
    rewrite length_app_str in Hl. lia.
  - intros n l t g u Hok Hf Hl Hr. eapply reads_bind; [apply conjunct_reads; [done|done|done|lia]|].
    rewrite <-joinAnd_single by done. apply Hr. rewrite length_app_str in Hl. lia.
Qed.

(** After the left element of an AND, the loop reads the right one. *)
Lemma and_then f l n t g u : and_chain f → filter_ok f = true → follow t → (n ≤ S k)%nat →
  and_rest n (joinAnd l (regroup f)) t g u → and_rest n l (" AND " +:+ conjunct f +:+ t) g u.
Proof.
  intros [_ Hc] Hok Hf Hn Hr [|m] Hm; [lia|]. apply and_step.
  rewrite length_app_str in Hm. cbn [String.length] in Hm. apply Hc; [done|done|lia|].
  intros j Hj. apply Hr. lia.
Qed.

Lemma and_chain_all f : and_chain f.
Proof.
  induction f as [| | | | | | | | | | | |l [IHl1 IHl2] r IHr| | | | | | | | | | | |]; try (by apply and_chain_one).
  assert (∀ t, conjunct (AndExpr l r) +:+ t = conjunct l +:+ (" AND " +:+ conjunct r +:+ t)) as Hc.
  { intros t. unfold conjunct. cbn [is_or parens Filter_String]. by rewrite !append_assoc. }
  split.
  - intros n t g u Hok Hf Hl Hr. cbn [filter_ok] in Hok. checks. rewrite Hc in *. cbn [regroup] in Hr.
    apply IHl1; [done|apply follow_and|done|]. by apply and_then; [| | |lia|].
  - intros n a t g u Hok Hf Hl Hr. cbn [filter_ok] in Hok. checks. rewrite Hc in *. cbn [regroup] in Hr.
    apply IHl2; [done|apply follow_and|done|]. apply and_then; [done|done|done|lia|]. by rewrite joinAnd_assoc.
Qed.

(** A chain of ANDs up to something else. *)
Lemma and_reads f n t : filter_ok f = true → follow t → (∀ v s', Next t ≠ (mkTok TokAnd v, s')) →
  (String.length (conjunct f +:+ t) < n ≤ S k)%nat → reads (parseAndExpr rec n) (conjunct f +:+ t) (regroup f) t.
Proof.
  intros Hok Hf Ht Hl. apply and_chain_all; [done|done|done|].
  intros [|m] Hm; [lia|]. cbn [andLoop]. on_follow Hf; first [exfalso; by eapply Ht|rd].
Qed.

(** ** Chains of OR *)

Definition or_rest (n : nat) (l : FilterExpr) (t : string) (g : FilterExpr) (u : string) : Prop :=
  ∀ m, (String.length t < m ≤ n)%nat → reads (orLoop rec m l) t g u.

Definition or_next (n : nat) (l : FilterExpr) : P FilterExpr :=
  right ← parseAndExpr rec (S n); orLoop rec n (OrExpr l right).

Lemma or_step n l s g u : reads (or_next n l) s g u → reads (orLoop rec (S n) l) (" OR " +:+ s) g u.
Proof.
  intros Hr. cbn [orLoop String.append]. eapply reads_bind; [rd_prim|]. known.
  eapply reads_bind; [rd_prim|]. apply looks_space; [|done]. apply looks_bind, looks_bind, not_looks.
Qed.

(** What may follow an element of a chain of ORs. *)
Definition or_follow (t : string) : Prop := follow t ∧ ∀ v s', Next t ≠ (mkTok TokAnd v, s').

Lemma or_follow_or t : or_follow (" OR " +:+ t).
Proof.
  split; [apply follow_or|]. intros v s'.
  assert (Next (" OR " +:+ t) = (mkTok TokOr "OR", String " " t)) as -> by lexes. done.
Qed.

Definition or_chain (f : FilterExpr) : Prop :=
  (∀ n t g u, filter_ok f = true → or_follow t → (String.length (Filter_String f +:+ t) < n ≤ S k)%nat →
     or_rest n (regroup f) t g u → reads (parseOrExpr rec n) (Filter_String f +:+ t) g u) ∧
  (∀ n l t g u, filter_ok f = true → or_follow t → (String.length (Filter_String f +:+ t) < n ≤ k)%nat →
     or_rest n (joinOr l (regroup f)) t g u → reads (or_next n l) (Filter_String f +:+ t) g u).

Lemma or_chain_one f : is_or f = false → or_chain f.
Proof.
  intros Ha. assert (conjunct f = Filter_String f) as Ec by (unfold conjunct; by rewrite Ha). split.
  - intros n t g u Hok [Hf Ht] Hl Hr. rewrite <-Ec in *. eapply reads_bind; [by apply and_reads|]. apply Hr.
    rewrite length_app_str in Hl. lia.
  - intros n l t g u Hok [Hf Ht] Hl Hr. rewrite <-Ec in *.
    eapply reads_bind; [apply and_reads; [done|done|done|lia]|].
    rewrite <-joinOr_single by done. apply Hr. rewrite length_app_str in Hl. lia.
Qed.

Lemma or_then f l n t g u : or_chain f → filter_ok f = true → or_follow t → (n ≤ S k)%nat →
  or_rest n (joinOr l (regroup f)) t g u → or_rest n l (" OR " +:+ Filter_String f +:+ t) g u.
Proof.
  intros [_ Hc] Hok Hf Hn Hr [|m] Hm; [lia|]. apply or_step.
  rewrite length_app_str in Hm. cbn [String.length] in Hm. apply Hc; [done|done|lia|].
  intros j Hj. apply Hr. lia.
Qed.

Lemma or_chain_all f : or_chain f.
Proof.
  induction f as [| | | | | | | | | | | | |l [IHl1 IHl2] r IHr| | | | | | | | | | |]; try (by apply or_chain_one).
  assert (∀ t, Filter_String (OrExpr l r) +:+ t = Filter_String l +:+ (" OR " +:+ Filter_String r +:+ t)) as Hc.
  { intros t. cbn [Filter_String]. by rewrite !append_assoc. }
  split.
  - intros n t g u Hok Hf Hl Hr. cbn [filter_ok] in Hok. checks. rewrite Hc in *. cbn [regroup] in Hr.
    apply IHl1; [done|apply or_follow_or|done|]. by apply or_then; [| | |lia|].
  - intros n a t g u Hok Hf Hl Hr. cbn [filter_ok] in Hok. checks. rewrite Hc in *. cbn [regroup] in Hr.
    apply IHl2; [done|apply or_follow_or|done|]. apply or_then; [done|done|done|lia|]. by rewrite joinOr_assoc.
Qed.

Lemma or_reads f n t : filter_ok f = true → stop t → (String.length (Filter_String f +:+ t) < n ≤ S k)%nat →
  reads (parseOrExpr rec n) (Filter_String f +:+ t) (regroup f) t.
Proof.
  intros Hok Ht Hl. pose proof (stop_follow t Ht) as Hf. destruct Ht as (_ & c & v & s' & Hn & _ & Hna & Hno).
  apply or_chain_all; [done| |done|].
  - split; [done|]. intros v' s1. rewrite Hn. congruence.
  - intros [|m] Hm; [lia|]. cbn [orLoop]. eapply reads_bind; [by eapply reads_peekTyp|].
    cbn [Typ]. unfold is_typ. rewrite bool_decide_false by done. apply reads_ret.
Qed.

End Chains.

(** A printed filter is read back with its chains regrouped. *)
Lemma printed_filter_reads n f t : filter_ok f = true → stop t → (String.length (Filter_String f +:+ t) < n)%nat →
  reads (parseFilterExpr n) (Filter_String f +:+ t) (regroup f) t.
Proof.
  revert f t. induction n as [|n IH]; intros f t Hok Ht Hl; [lia|]. cbn [parseFilterExpr].
  by apply (or_reads _ n); [intros; apply IH| | |lia].
Qed.

Lemma parse_printed f : filter_ok f = true → ∃ p, ParseFilter (Filter_String f) = Done (regroup f) p.
Proof.
  intros Hok.
  assert (reads (filterBody (S (String.length (Filter_String f)))) (Filter_String f) (regroup f) "") as Hr.
  { eapply reads_bind.
    - rewrite <-(append_nil_r (Filter_String f)) at 2. apply printed_filter_reads; [done|apply stop_nil|].
      rewrite append_nil_r. lia.
    - rd. }
  destruct (Hr (newParser (Filter_String f))) as (p & E & _); [by left|]. by exists p.
Qed.

(** C21 What the printer writes for a filter that [filter_ok] describes, the parser reads
    back as the same filter up to [regroup]: chains of ANDs and of ORs are grouped to the
    left, a negated field filter is a negation, and the two spellings of a case-insensitive
    phrase are one.  Parentheses are written exactly where the grammar needs them, AND binds
    tighter than OR and NOT tighter than both; the filter that is read selects the same
    rows, whatever the atoms mean, and prints as the same text.  The atoms are phrases, exact
    values and case-insensitive phrases with any text; words, prefixes and substrings that
    are identifiers and no keywords; regular expressions of printable ASCII, tab and line
    feed; field filters on a name that is an identifier and not reserved
    ([reserved_field_refused]), by any operator but the exact prefix, with an argument that
    can be read; stream filters; time filters; day and week ranges; length ranges; and
    patterns, exact prefixes and contains lists without quotes and backslashes
    ([unescaped_refused], [pattern_escape_kept]).  Sequences and deferred expressions are
    not among them. *)
Theorem logsql_filter_roundtrip (f : FilterExpr) : filter_ok f = true →
  (∃ p, ParseFilter (Filter_String f) = Done (regroup f) p) ∧
  (∀ atom, holds atom (regroup f) = holds atom f) ∧
  Filter_String (regroup f) = Filter_String f.
Proof.
  intros Hok. split; [by apply parse_printed|]. split; [intros; apply holds_regroup|apply regroup_string].
Qed.

End Roundtrip.
End LRound.
