(* ===== verification/LogsqlQuery.v ===== *)
(** * Round trip of LogsQL queries (src/internal/logsql/ast.go against parser.go)

    The pipes that the parser knows are read back as they were printed, so a printed
    query is classified by [isStatsQuery] from its pipes.  [pipe_ok] lists the pipes and
    the arguments for which this holds. *)

From S2P Require Import Prelude GoText Utf8 LogqlAst LogsqlAst LogsqlScanner LogsqlParser LogsqlReading LogsqlRoundtrip.

#[local] Open Scope Z_scope.
#[local] Arguments String.append !_ _ /.

(** The shortest text of a float64 is read as the same float64. *)
Class LenientLaws `{Lenient} : Prop := {
  ParseFloatValue_Format x : ParseFloatValue (Format_g x) = x
}.

Module LQuery.
Import Text Utf8 LAst LScan LParse LRead LRound.

(** ** What may follow a pipe *)

Definition ends (t : string) : Prop :=
  starts_with ident_byte t = false ∧
  ∃ k v s', Next t = (mkTok k v, s') ∧ (k = TokEOF ∨ k = TokPipe).

Lemma ends_nil : ends "".
Proof. split; [done|]. exists TokEOF, "", "". by eauto. Qed.

Lemma ends_pipe t : ends (" | " +:+ t).
Proof. split; [done|]. eexists TokPipe, "|", _. split; [lexes|by eauto]. Qed.

Lemma ends_stop t : ends t → stop t.
Proof. intros (Hs & k & v & s' & Hn & [-> | ->]); (split; [done|]); eexists _, v, s'; done. Qed.

(** The two cases. *)
Ltac on_ends Ht :=
  let k := fresh "k" in let v := fresh "v" in let s' := fresh "s'" in
  let Hs := fresh "Hs" in let Hn := fresh "Hn" in
  destruct Ht as (Hs & k & v & s' & Hn & [-> | ->]).

Section Queries.
Context `{Floats} `{!Lenient} `{!LenientLaws} `{Unicode} `{!UnicodeLaws}.

(** ** Numbers *)

Definition count_ok (n : Z) : bool := (0 <=? n) && (n <=? MaxInt64).

Lemma digits_ident s : all_digits s = true → all_bytes_of ident_byte s = true.
Proof.
  induction s as [|a s IH]; [done|]. cbn [all_digits all_bytes_of]. intros [Ha Hs]%andb_true_iff.
  rewrite IH by done. rewrite andb_true_r. apply digit_byte in Ha. unfold ident_byte, isIdentRune.
  assert (48 ≤ b2z a ≤ 57) as Hr.
  { unfold b2z, byte_of, Ascii.nat_of_ascii in *. lia. }
  assert ((48 <=? b2z a) = true) as -> by (apply Z.leb_le; lia).
  assert ((b2z a <=? 57) = true) as -> by (apply Z.leb_le; lia). by rewrite orb_true_r.
Qed.

Lemma Itoa_name n : 0 ≤ n → name (Itoa n) = true.
Proof.
  intros Hn. pose proof (Itoa_pos_starts n Hn) as Hs.
  assert (all_digits (Itoa n) = true) as Hd.
  { unfold Itoa. rewrite (proj2 (Z.ltb_ge _ _)) by lia. by apply itoa_all_digits. }
  destruct (Itoa n) as [|a s]; [done|]. unfold name, ident. cbn [String.eqb negb andb].
  rewrite digits_ident by done. cbn [andb]. unfold keyword.
  assert (∀ w, starts_digit w = false → String.eqb (String a s) w = false) as Hw.
  { intros w Hw. apply String.eqb_neq. intros <-. congruence. }
  by rewrite !Hw.
Qed.

Lemma count_spec n : count_ok n = true → name (Itoa n) = true ∧ Atoi (Itoa n) = Some n ∧ AtoiValue (Itoa n) = n.
Proof.
  unfold count_ok. intros [?%Z.leb_le ?%Z.leb_le]%andb_true_iff.
  assert (Atoi (Itoa n) = Some n) as E by (by apply Atoi_Itoa).
  unfold AtoiValue. rewrite E. split; [by apply Itoa_name|done].
Qed.

Lemma parseInt_reads n s : count_ok n = true → starts_with ident_byte s = false →
  reads parseInt (Itoa n +:+ s) n s.
Proof.
  intros (Hn & Ha & _)%count_spec Hs. unfold parseInt. eapply reads_bind; [rd_prim|]. cbn [Val].
  rewrite Ha. apply reads_ret.
Qed.

(** ** Lists *)

(** [expect] and the like advance first, so they do not see spaces. *)
Lemma looks_advance {A} (f : Token → P A) : looks (advance ≫= f).
Proof. intros p q E. unfold advance, mbind, P_bind. by rewrite E. Qed.

Lemma looks_expectIdent : looks expectIdent.
Proof. apply looks_advance. Qed.

(** A token in front of a list of items is no closing parenthesis. *)
Definition opens (s : string) : Prop := ∃ k s', Next s = (k, s') ∧ Typ k ≠ TokRParen ∧ Typ k ≠ TokEOF.

Lemma items_reads {A} (item : P A) (str : A → string) (good : A → bool) l n acc t :
  (∀ x s, good x = true → (∃ r, s = ", " +:+ r) ∨ s = ")" +:+ t → reads item (str x +:+ s) x s ∧ opens (str x +:+ s)) →
  forallb good l = true → (length l < n)%nat →
  reads (itemsLoop item n acc) (Join ", " (map str l) +:+ ")" +:+ t) (acc ++ l) (")" +:+ t).
Proof.
  intros Hitem. revert n acc. induction l as [|x l IH]; intros n acc Hl Hn; (destruct n as [|n]; [cbn in Hn; lia|]); cbn [itemsLoop].
  { rewrite app_nil_r. cbn [map Join String.append]. rd. }
  cbn [forallb] in Hl. apply andb_true_iff in Hl as [Hx Hl]. cbn [map length] in *.
  replace (acc ++ x :: l) with ((acc ++ [x]) ++ l) by (by rewrite <-app_assoc).
  destruct l as [|y l].
  - cbn [map Join]. destruct (Hitem x (")" +:+ t) Hx ltac:(by right)) as [Hr (k & s' & Hk & Hk1 & Hk2)].
    eapply reads_bind; [eapply reads_peekTyp; exact Hk|]. unfold is_typ. rewrite !bool_decide_false by done. cbn [orb].
    eapply reads_bind; [exact Hr|]. eapply reads_bind; [rd_prim|]. apply (IH n (acc ++ [x]) eq_refl). cbn [length] in *. lia.
  - cbn [map] in *. rewrite Join_cons, !append_assoc.
    match goal with |- reads _ (_ +:+ ?s) _ _ => destruct (Hitem x s Hx ltac:(by left; eauto)) as [Hr (k & s' & Hk & Hk1 & Hk2)] end.
    eapply reads_bind; [eapply reads_peekTyp; exact Hk|]. unfold is_typ at 1 2. rewrite !bool_decide_false by done. cbn [orb].
    eapply reads_bind; [exact Hr|]. eapply reads_bind; [rd_prim|].
    destruct n as [|n]; [cbn [length] in *; lia|]. apply looks_space; [apply looks_peekTyp|]. apply IH; [done|cbn [length] in *; lia].
Qed.

Lemma ident_item x s : name x = true → starts_with ident_byte s = false →
  reads expectIdent (x +:+ s) x s ∧ opens (x +:+ s).
Proof. intros Hx Hs. split; [rd_prim|]. eexists _, _. split; [by apply Next_name|done]. Qed.

(** What follows an item does not continue an identifier. *)
Lemma item_end s t : (∃ r, s = ", " +:+ r) ∨ s = ")" +:+ t → starts_with ident_byte s = false.
Proof. intros [[r ->] | ->]; done. Qed.

Lemma idents_reads n l t : forallb name l = true → (length l < n)%nat →
  reads (parseIdentListInParens n) ("(" +:+ Join ", " l +:+ ")" +:+ t) l t.
Proof.
  intros Hl Hn. unfold parseIdentListInParens, parseListInParens. eapply reads_bind; [rd_prim|].
  rewrite <-(map_id l) at 1.
  eapply reads_bind; [apply (items_reads expectIdent (λ x, x) name l n []); [|done|done]|].
  - intros x s Hx Hs. apply ident_item; [done|by eapply item_end].
  - cbn [app]. rd.
Qed.

Lemma names_length l : forallb name l = true → (length l ≤ String.length (Join ", " l))%nat.
Proof.
  intros Hl. cut (1 * length l ≤ String.length (Join ", " l))%nat; [lia|]. apply Join_length.
  induction l as [|x l IH]; [constructor|]. cbn in Hl. apply andb_true_iff in Hl as [Hx Hl].
  constructor; [|by apply IH]. destruct x; [done|]. cbn [String.length]. lia.
Qed.

(** The absence of a keyword. *)
Definition no_word (w : string) (t : string) : Prop := ∃ k s', Next t = (k, s') ∧ is_word w k = false.

Lemma ends_no_word w t : ends t → no_word w t.
Proof. intros (_ & k & v & s' & Hn & [-> | ->]); eexists _, s'; done. Qed.

Lemma by_reads n by_ t : forallb name by_ = true → no_word "by" t → (String.length (byClause by_) < n)%nat →
  reads (parseOptionalByClause n) (byClause by_ +:+ t) by_ t.
Proof.
  intros Hb (k & s' & Hn & Hw) Hl. unfold parseOptionalByClause. destruct by_ as [|x l].
  - cbn [byClause String.append]. eapply reads_bind; [by eapply reads_peekWord|]. rewrite Hw. apply reads_ret.
  - unfold byClause in *. set (xs := x :: l) in *. rewrite !append_assoc. cbn [String.append].
    eapply reads_bind; [rd_prim|]. known. eapply reads_bind; [rd_prim|].
    apply looks_space; [apply looks_bind, looks_advance|].
    apply (idents_reads n xs t Hb). pose proof (names_length xs Hb) as Hx.
    rewrite !length_app_str in Hl. lia.
Qed.

Lemma opt_reads {A} (w : string) (d a : A) (m : P A) s t : name w = true → starts_with ident_byte s = false →
  reads m s a t → reads (optKeyword w d m) (" " +:+ w +:+ s) a t.
Proof.
  intros Hw Hs Hm. unfold optKeyword. cbn [String.append]. eapply reads_bind; [rd_prim|].
  unfold is_word. cbn [Typ Val]. rewrite is_typ_refl, String.eqb_refl. cbn [andb].
  eapply reads_bind; [rd_prim|]. exact Hm.
Qed.

Lemma opt_absent {A} (w : string) (d : A) (m : P A) t : no_word w t → reads (optKeyword w d m) t d t.
Proof.
  intros (k & s' & Hn & Hw). unfold optKeyword. eapply reads_bind; [by eapply reads_peekWord|].
  rewrite Hw. apply reads_ret.
Qed.

(** An optional word with an identifier, and one with a number. *)
Lemma optWord_reads w what v t : name w = true → opt_name v = true → no_word w t → starts_with ident_byte t = false →
  reads (optKeyword w "" (wrap what expectIdent)) (optWord (" " +:+ w +:+ " ") v +:+ t) v t.
Proof.
  intros Hw Hv Ht Hs. unfold optWord, opt_name in *. destruct (String.eqb_spec v "") as [->|_].
  - by apply opt_absent.
  - cbn [orb] in Hv. rewrite !append_assoc. apply opt_reads; [done|done|]. rd_prim.
Qed.

Lemma optNum_reads w m n t : (∀ s b u, reads parseInt s b u → reads m s b u) →
  name w = true → count_ok n = true → no_word w t → starts_with ident_byte t = false →
  reads (optKeyword w 0 m) (optNum (" " +:+ w +:+ " ") n +:+ t) n t.
Proof.
  intros Hm Hw Hc Ht Hs. unfold optNum. destruct (Z.ltb_spec 0 n) as [Hn|Hn].
  - rewrite !append_assoc. apply opt_reads; [done|done|]. apply Hm.
    apply looks_space; [apply looks_bind, looks_advance|]. by apply parseInt_reads.
  - assert (n = 0) as -> by (unfold count_ok in Hc; apply andb_true_iff in Hc as [?%Z.leb_le _]; lia).
    by apply opt_absent.
Qed.

(** [as result]. *)
Lemma result_reads nm r t : name r = true → starts_with ident_byte t = false →
  reads (resultOf nm) (" as " +:+ r +:+ t) r t.
Proof. intros Hr Hs. unfold resultOf. rd. Qed.

Lemma commaIdents_reads l n acc t : forallb name l = true → ends t → (length l < n)%nat →
  reads (commaIdents n acc) (Join ", " l +:+ t) (acc ++ l) t.
Proof.
  intros Hl Ht. revert n acc. induction l as [|x l IH]; intros n acc Hn; (destruct n as [|n]; [cbn in Hn; lia|]); cbn [commaIdents].
  { rewrite app_nil_r. cbn [Join String.append]. on_ends Ht; rd. }
  cbn [forallb] in Hl. apply andb_true_iff in Hl as [Hx Hl]. pose proof (proj1 Ht) as Hs.
  destruct l as [|y l].
  - cbn [Join]. clear IH. on_ends Ht; rd.
  - rewrite Join_cons, !append_assoc. eapply reads_bind; [rd_prim|]. known. eapply reads_bind; [rd_prim|].
    eapply reads_bind; [rd_prim|]. known. eapply reads_bind; [rd_prim|].
    replace (acc ++ x :: y :: l) with ((acc ++ [x]) ++ y :: l) by (by rewrite <-app_assoc).
    cbn [length] in *. destruct n as [|n]; [lia|]. apply looks_space; [apply looks_peekTyp|].
    apply IH; [done|lia].
Qed.

Lemma idents_end n l t : forallb name l = true → ends t → (String.length (Join ", " l) < n)%nat →
  reads (parseCommaSeparatedIdents n) (" " +:+ Join ", " l +:+ t) l t.
Proof.
  intros Hl Ht Hn. pose proof (names_length l Hl). destruct n as [|n]; [lia|].
  apply looks_space; [apply looks_peekTyp|]. apply (commaIdents_reads l (S n) [] t Hl Ht). lia.
Qed.

Definition pair_ok (pr : string * string) : bool := name (fst pr) && name (snd pr).

Lemma copy_reads l n acc t : forallb pair_ok l = true → ends t → (length l < n)%nat →
  reads (copyLoop n acc) (Join ", " (map pair_String l) +:+ t) (acc ++ l) t.
Proof.
  intros Hl Ht. revert n acc. induction l as [|[a b] l IH]; intros n acc Hn; (destruct n as [|n]; [cbn in Hn; lia|]); cbn [copyLoop].
  { rewrite app_nil_r. cbn [map Join String.append]. on_ends Ht; rd. }
  cbn [forallb] in Hl. apply andb_true_iff in Hl as [[Ha Hb]%andb_true_iff Hl]. pose proof (proj1 Ht) as Hs.
  cbn [fst snd] in Ha, Hb. cbn [map]. unfold pair_String at 1. cbn [fst snd].
  destruct l as [|y l].
  - cbn [map Join]. clear IH. on_ends Ht; rd.
  - cbn [map]. rewrite Join_cons, !append_assoc. eapply reads_bind; [rd_prim|]. known. eapply reads_bind; [rd_prim|].
    eapply reads_bind; [rd_prim|]. known. eapply reads_bind; [rd_prim|]. eapply reads_bind; [rd_prim|]. known.
    eapply reads_bind; [rd_prim|].
    replace (acc ++ (a, b) :: y :: l) with ((acc ++ [(a, b)]) ++ y :: l) by (by rewrite <-app_assoc).
    cbn [length] in *. destruct n as [|n]; [lia|]. apply looks_space; [apply looks_peekTyp|].
    apply IH; [done|lia].
Qed.

(** ** Stats functions *)

Definition func_ok (f : StatsFunc) : bool :=
  match f with
  | Count | Rate => true
  | Sum x | Min x | Max x | Avg x | Median x | Stddev x | Stdvar x | RateSum x | CountUniq x
  | CountUniqHash x | FieldMax x | FieldMin x | JSONValues x | Any x | CountEmpty x | SumLen x
  | Histogram x | Last x | First x | JSONValuesSorted x => opt_name x
  | Quantile phi x => name (Format_g phi) && name x
  | UniqValues x n | Values x n | JSONValuesTopK x n => name x && count_ok n
  | RowAny xs => forallb name xs
  | RowMax b xs | RowMin b xs => name b && forallb name xs
  | DeferredStats _ => false
  end.

Definition alias_ok (fa : StatsFuncAlias) : bool := func_ok (sa_Func fa) && name (sa_Alias fa).

Lemma fieldFunc_reads nm g x t : assoc nm statsTable = Some g → opt_name x = true →
  reads (parseFieldFunc nm) (String "(" (x +:+ String ")" t)) (g x) t.
Proof.
  intros Hg Hx. unfold parseFieldFunc, opt_name in *. rewrite Hg. destruct (String.eqb_spec x "") as [->|_].
  - cbn [String.append]. eapply reads_bind; [rd_prim|]. eapply reads_bind; [rd_prim|]. known. rd.
  - cbn [orb] in Hx. eapply reads_bind; [rd_prim|]. eapply reads_bind; [rd_prim|]. known.
    eapply reads_bind; [eapply reads_bind; [rd_prim|apply reads_ret]|]. rd.
Qed.

Lemma twoArgs_reads nm a b t : name a = true → name b = true →
  reads (parseTwoArgs nm) (String "(" (a +:+ String "," (String " " (b +:+ String ")" t)))) (a, b) t.
Proof. intros Ha Hb. unfold parseTwoArgs. rd. Qed.

Lemma row_reads l n acc t : forallb name l = true → (length l < n)%nat →
  reads (rowFields n acc) (Join ", " l +:+ ")" +:+ t) (acc ++ l) (")" +:+ t).
Proof.
  intros Hl. revert n acc. induction l as [|x l IH]; intros n acc Hn; (destruct n as [|n]; [cbn in Hn; lia|]); cbn [rowFields].
  { rewrite app_nil_r. cbn [Join String.append]. rd. }
  cbn [forallb] in Hl. apply andb_true_iff in Hl as [Hx Hl].
  replace (acc ++ x :: l) with ((acc ++ [x]) ++ l) by (by rewrite <-app_assoc). cbn [length] in *.
  destruct l as [|y l].
  - cbn [Join]. eapply reads_bind; [rd_prim|]. known. eapply reads_bind; [rd_prim|]. eapply reads_bind; [rd_prim|].
    apply (IH eq_refl n (acc ++ [x])). cbn [length]. lia.
  - rewrite Join_cons, !append_assoc. eapply reads_bind; [rd_prim|]. known. eapply reads_bind; [rd_prim|].
    eapply reads_bind; [rd_prim|]. destruct n as [|n]; [lia|]. apply looks_space; [apply looks_peekTyp|].
    apply IH; [done|]. cbn [length] in *. lia.
Qed.

Lemma rowBy_reads (min : bool) n b xs t : name b = true → forallb name xs = true → (length xs < n)%nat →
  reads (parseRowBy n (if min then "row_min" else "row_max")) ("(" +:+ Join ", " (b :: xs) +:+ ")" +:+ t)
    (if min then RowMin b xs else RowMax b xs) t.
Proof.
  intros Hb Hx Hn. unfold parseRowBy.
  eapply reads_bind; [unfold rowOpen; eapply reads_bind; [rd_prim|]; known; eapply reads_bind; [rd_prim|apply reads_ret]|].
  destruct xs as [|x xs].
  - cbn [Join]. eapply reads_bind; [rd_prim|]. eapply reads_bind; [rd_prim|].
    eapply reads_bind; [apply (row_reads [] n [] t eq_refl Hn)|].
    eapply reads_bind; [unfold rowClose; rd|]. by destruct min; apply reads_ret.
  - rewrite Join_cons, !append_assoc. eapply reads_bind; [rd_prim|]. eapply reads_bind; [rd_prim|].
    destruct n as [|n]; [cbn in Hn; lia|].
    eapply reads_bind; [apply looks_space; [apply looks_peekTyp|]; by apply (row_reads (x :: xs) (S n) [] t Hx)|].
    eapply reads_bind; [unfold rowClose; rd|]. by destruct min; apply reads_ret.
Qed.

(** The name of the function and what its dispatch does. *)
Lemma func_head f s : func_ok f = true →
  ∃ v s', Next (StatsFunc_String f +:+ s) = (mkTok TokIdent v, s') ∧ String.eqb v "by" = false.
Proof.
  intros Hf. destruct f; try discriminate Hf; unfold StatsFunc_String, call2, call; rewrite ?append_assoc;
    eexists _, _; (split; [lexes|reflexivity]).
Qed.

Lemma func_reads n f t : func_ok f = true → (String.length (StatsFunc_String f) < n)%nat →
  reads (parseStatsFunc n) (StatsFunc_String f +:+ t) f t.
Proof.
  intros Hf Hn. unfold parseStatsFunc.
  destruct f; try discriminate Hf; cbn [func_ok] in Hf; unfold StatsFunc_String, call2, call in *;
    rewrite ?append_assoc; (eapply reads_bind; [rd_prim|]; known).
  all: try (eapply fieldFunc_reads; [reflexivity|assumption]).
  all: try exact (fieldFunc_reads "count" (λ _, Count) "" t eq_refl eq_refl).
  all: try exact (fieldFunc_reads "rate" (λ _, Rate) "" t eq_refl eq_refl).
  all: checks.
  - eapply reads_bind; [by apply twoArgs_reads|]. cbv beta iota. rewrite ParseFloatValue_Format. apply reads_ret.
  - pose proof (count_spec Limit ltac:(done)) as (Hc & _ & Ea).
    eapply reads_bind; [by apply twoArgs_reads|]. cbv beta iota. rewrite Ea. apply reads_ret.
  - pose proof (count_spec Limit ltac:(done)) as (Hc & _ & Ea).
    eapply reads_bind; [by apply twoArgs_reads|]. cbv beta iota. rewrite Ea. apply reads_ret.
  - unfold parseRowAny, rowOpen. pose proof (names_length Fields Hf).
    eapply reads_bind; [eapply reads_bind; [rd_prim|]; known; eapply reads_bind; [rd_prim|apply reads_ret]|].
    eapply reads_bind; [apply (row_reads Fields n [] t Hf); rewrite !length_app_str in Hn; lia|].
    eapply reads_bind; [unfold rowClose; rd|apply reads_ret].
  - apply (rowBy_reads false); [done|done|].
    pose proof (names_length (By :: Fields)) as Hl. cbn [forallb length] in Hl.
    rewrite !length_app_str in Hn. specialize (Hl ltac:(by apply andb_true_iff)). lia.
  - apply (rowBy_reads true); [done|done|].
    pose proof (names_length (By :: Fields)) as Hl. cbn [forallb length] in Hl.
    rewrite !length_app_str in Hn. specialize (Hl ltac:(by apply andb_true_iff)). lia.
  - pose proof (count_spec Limit ltac:(done)) as (Hc & _ & Ea).
    eapply reads_bind; [by apply twoArgs_reads|]. cbv beta iota. rewrite Ea. apply reads_ret.
Qed.

Lemma alias_string fa : alias_ok fa = true → alias_String fa = StatsFunc_String (sa_Func fa) +:+ " as " +:+ sa_Alias fa.
Proof.
  unfold alias_ok, alias_String. intros [_ Ha]%andb_true_iff.
  destruct (String.eqb_spec (sa_Alias fa) "") as [E|_]; [by rewrite E in Ha|done].
Qed.

Lemma funcs_reads l n kw acc t : forallb alias_ok l = true → ends t → l ≠ [] →
  (String.length (Join ", " (map alias_String l)) < n)%nat →
  reads (funcsLoop n kw acc) (Join ", " (map alias_String l) +:+ t) (acc ++ l) t.
Proof.
  intros Hl Ht. revert n acc. induction l as [|x l IH]; intros n acc Hne Hn; [done|]. clear Hne.
  cbn [forallb] in Hl. apply andb_true_iff in Hl as [Hx Hl]. cbn [map] in *.
  pose proof (proj1 Ht) as Hs. rewrite (alias_string x Hx) in *.
  pose proof Hx as [Hf Ha]%andb_true_iff. destruct x as [f a]. cbn [sa_Func sa_Alias] in *.
  destruct n as [|n]; [lia|]. cbn [funcsLoop].
  destruct l as [|y l].
  - cbn [map Join] in *. rewrite !append_assoc in *.
    destruct (func_head f (" as " +:+ a +:+ t) Hf) as (v & s' & Hh & _).
    eapply reads_bind; [eapply reads_peekTyp; exact Hh|]. known.
    eapply reads_bind; [apply func_reads; [done|rewrite !length_app_str in Hn; lia]|].
    eapply reads_bind; [unfold expectAs; rd|]. clear Hh IH Hn. on_ends Ht; rd.
  - cbn [map] in *. rewrite Join_cons, !append_assoc in *.
    match goal with |- reads _ (_ +:+ ?s) _ _ => destruct (func_head f s Hf) as (v & s' & Hh & _) end.
    eapply reads_bind; [eapply reads_peekTyp; exact Hh|]. known. clear Hh.
    eapply reads_bind; [apply func_reads; [done|rewrite !length_app_str in Hn; lia]|].
    eapply reads_bind; [unfold expectAs; rd|]. eapply reads_bind; [rd_prim|]. known. eapply reads_bind; [rd_prim|].
    replace (acc ++ mkAlias f a :: y :: l) with ((acc ++ [mkAlias f a]) ++ y :: l) by (by rewrite <-app_assoc).
    rewrite !length_app_str in Hn. cbn [String.length] in Hn. destruct n as [|n]; [lia|].
    apply looks_space; [apply looks_peekTyp|]. apply IH; [done|done|lia].
Qed.

(** ** Inner queries *)

(** Text without white space at its ends whose parentheses are balanced. *)
Definition inner_ok (s : string) : bool :=
  String.eqb (TrimSpace s) s &&
  match closing 1 Plain (s +:+ ")") with
  | Some i => (i =? String.length s)%nat
  | None => false
  end.

Lemma closing_app d m s t i : closing d m s = Some i → closing d m (s +:+ t) = Some i.
Proof.
  revert d m i. induction s as [|a s IH]; intros d m i; [done|]. cbn [closing String.append].
  assert (∀ d m, S <$> closing d m s = Some i → S <$> closing d m (s +:+ t) = Some i) as Hs.
  { intros d' m'. destruct (closing d' m' s) as [j|] eqn:E; [|done]. intros [= <-]. by rewrite (IH _ _ _ E). }
  destruct m; [|by apply Hs|by apply Hs].
  destruct (Ascii.eqb a "("); [apply Hs|]. destruct (Ascii.eqb a ")"); [|apply Hs].
  destruct d as [|[|d]]; [done|done|apply Hs].
Qed.

(** What follows [expect] may look at the text. *)
Lemma expect_raw {B} (f : Token → P B) k v s s' b u : Next s = (mkTok k v, s') →
  (∃ p', f (mkTok k v) (mkP s' None) = Done b p' ∧ at_text u p') → reads (expect k ≫= f) s b u.
Proof.
  intros Hn (p' & E & Hp') p Hp. exists p'. split; [|done].
  assert (expect k p = Done (mkTok k v) (mkP s' None)) as Ee.
  { unfold expect, mbind, P_bind. rewrite (advance_at s (mkTok k v) s' p) by done. cbn [Typ]. by rewrite is_typ_refl. }
  change ((expect k ≫= f) p) with (P_bind _ B f (expect k) p). unfold P_bind. by rewrite Ee.
Qed.

Lemma inner_reads s t : inner_ok s = true → reads consumeInnerQuery (" (" +:+ s +:+ ")" +:+ t) s t.
Proof.
  unfold inner_ok. intros [Ht%String.eqb_eq Hc]%andb_true_iff.
  destruct (closing 1 Plain (s +:+ ")")) as [i|] eqn:E; [|done]. apply Nat.eqb_eq in Hc as ->.
  apply (closing_app _ _ _ t) in E. rewrite append_assoc in E.
  unfold consumeInnerQuery. eapply (expect_raw _ TokLParen "("); [lexes|]. exists (mkP t None). split; [|by left].
  unfold mbind, P_bind, mret, P_ret, clearBuf, Remaining, setText. cbn [sc buf].
  cbn [String.append] in E. rewrite E. unfold Skip. rewrite prefix_app, Ht. f_equal. f_equal.
  change (S (String.length s)) with (1 + String.length s)%nat. rewrite Nat.add_comm, <-suffix_suffix, suffix_app. done.
Qed.

(** ** Pipes *)

Definition sort_ok (sf : SortField) : bool := name (sf_Field sf).

Definition stats_ok (by_ : list GroupKey) (funcs : list StatsFuncAlias) : bool :=
  forallb name by_ && forallb alias_ok funcs && negb (bool_decide (length funcs = 0%nat)).

Definition pipe_ok (p : Pipe) : bool :=
  match p with
  | PipeUnpackJSON from keep | PipeUnpackLogfmt from keep => String.eqb from "" && negb keep
  | PipeFilter e => filter_ok e
  | PipeLimit n | PipeSample n | PipeOffset n | PipeFacets n | PipeGenerateSequence n => count_ok n
  | PipeFields ls | PipeDelete ls | PipeSetStreamFields ls | PipeUniq ls | PipeUnroll ls => forallb name ls
  | PipeStats by_ fs | PipeRunningStats by_ fs | PipeTotalStats by_ fs => stats_ok by_ fs
  | PipeSort by_ n => forallb sort_ok by_ && count_ok n
  | PipeTop n by_ | PipeFirst n by_ | PipeLast n by_ => count_ok n && forallb name by_
  | PipeFieldNames | PipeDropEmptyFields | PipeQueryStats | PipeUnpackSyslog => true
  | PipeCopy ps => forallb pair_ok ps
  | PipeCoalesce fs def r => forallb name fs && verbatim def && name r
  | PipeCollapseNums f | PipeDecolorize f => opt_name f
  | PipeFieldValues f n => name f && count_ok n
  | PipeHash fs r => forallb name fs && name r
  | PipeJoin by_ inner prefix => forallb name by_ && inner_ok inner && opt_name prefix
  | PipeJSONArrayLen f r | PipeLen f r => name f && name r
  | PipeJSONArrayConcat d has from as_ =>
      (if has : bool then verbatim d else String.eqb d "") && opt_name from && opt_name as_
  | PipeSplit sep from as_ => verbatim sep && opt_name from && opt_name as_
  | PipeStreamContext b a => count_ok b && count_ok a
  | PipeTimeAdd d => name d
  | PipeUnion inner => inner_ok inner
  | PipeUnpackWords from as_ => opt_name from && opt_name as_
  | PipeMath _ _ | PipeUpdate _ _ | PipeExtract _ _ _ | PipeExtractRegexp _ _ | PipeFormat _ _
  | PipeRename _ | PipeReplace _ _ _ | PipeReplaceRegexp _ _ _ | PipePackJSON _ _ | PipePackLogfmt _ _ => false
  end.

(** Only the filter of a pipe is regrouped. *)
Definition regroupPipe (p : Pipe) : Pipe :=
  match p with
  | PipeFilter e => PipeFilter (regroup e)
  | p => p
  end.

(** The name of a pipe selects its parser. *)
Lemma pipe_call n nm m s p t : name nm = true → assoc nm (pipeTable n) = Some m → starts_with ident_byte s = false →
  reads m s p t → reads (parsePipe n) (" " +:+ nm +:+ s) p t.
Proof.
  intros Hn Hm Hs Hr. unfold parsePipe. cbn [String.append]. eapply reads_bind; [rd_prim|]. known.
  eapply reads_bind; [rd_prim|]. cbn [Val]. by rewrite Hm.
Qed.

Lemma int_arg what n s : count_ok n = true → starts_with ident_byte s = false →
  reads (wrap what parseInt) (" " +:+ Itoa n +:+ s) n s.
Proof.
  intros Hn Hs. apply reads_errorf, looks_space; [apply looks_bind, looks_advance|]. by apply parseInt_reads.
Qed.

Lemma stats_reads n kw by_ fs t : kw = "stats" ∨ kw = "running_stats" ∨ kw = "total_stats" →
  stats_ok by_ fs = true → ends t → (String.length (pipeStatsString kw by_ fs) < n)%nat →
  reads (parsePipeStatsLike n kw) (suffix (2 + String.length kw) (pipeStatsString kw by_ fs) +:+ t)
    (if String.eqb kw "stats" then PipeStats by_ fs
     else if String.eqb kw "running_stats" then PipeRunningStats by_ fs else PipeTotalStats by_ fs) t.
Proof.
  intros Hk Hok Ht Hn. unfold stats_ok in Hok.
  apply andb_true_iff in Hok as [[Hb Hfs]%andb_true_iff Hne%negb_true_iff]. apply bool_decide_eq_false_1 in Hne.
  destruct fs as [|f fs]; [done|]. set (l := f :: fs) in *.
  assert (pipeStatsString kw by_ l = "| " +:+ kw +:+ byClause by_ +:+ " " +:+ Join ", " (map alias_String l)) as E by done.
  assert (suffix (2 + String.length kw) (pipeStatsString kw by_ l) = byClause by_ +:+ " " +:+ Join ", " (map alias_String l)) as ->.
  { rewrite E, <-suffix_suffix. change (suffix 2 ("| " +:+ ?x)) with x. apply suffix_app. }
  rewrite E, !length_app_str in Hn. rewrite !append_assoc. unfold parsePipeStatsLike.
  assert (no_word "by" (" " +:+ Join ", " (map alias_String l) +:+ t)) as Hw.
  { subst l. cbn [forallb map] in *. checks. unfold no_word. cbn [String.append]. rewrite Next_space.
    rewrite (alias_string f) by done. destruct (map alias_String fs) as [|y ys]; cbn [Join]; rewrite ?append_assoc;
    match goal with |- context [StatsFunc_String ?g +:+ ?s] =>
      destruct (func_head g s ltac:(unfold alias_ok in *; checks; done)) as (v & s' & Hh & Hv) end;
    eexists _, _; (split; [exact Hh|]); unfold is_word; cbn [Typ Val]; by rewrite Hv, andb_false_r. }
  eapply reads_bind.
  - unfold parseStatsBody. eapply reads_bind; [apply by_reads; [done|exact Hw|lia]|].
    eapply reads_bind.
    + destruct n as [|n]; [lia|]. apply looks_space; [apply looks_peekTyp|].
      apply (funcs_reads l (S n) kw [] t); [done|done|done|lia].
    + subst l. cbn [app]. apply reads_ret.
  - cbv beta iota. destruct Hk as [-> | [-> | ->]]; apply reads_ret.
Qed.

Lemma sort_reads n by_ t : forallb sort_ok by_ = true → (String.length (Join ", " (map SortField_String by_)) < n)%nat →
  reads (parseListInParens sortField n) ("(" +:+ Join ", " (map SortField_String by_) +:+ ")" +:+ t) by_ t.
Proof.
  intros Hl Hn. unfold parseListInParens. eapply reads_bind; [rd_prim|].
  eapply reads_bind; [apply (items_reads sortField SortField_String sort_ok by_ n []); [|done|]|].
  - intros [f d] s Hx Hs. unfold sort_ok, SortField_String in *. cbn [sf_Field sf_Desc] in *.
    assert (starts_with ident_byte s = false) as Hi by (by eapply item_end).
    split.
    + unfold sortField. destruct d; destruct Hs as [[r ->] | ->]; rewrite ?append_assoc; rd.
    + destruct d; rewrite ?append_assoc; (eexists (mkTok TokIdent f), _; split; [by apply Next_name|done]).
  - assert (1 * length (map SortField_String by_) ≤ String.length (Join ", " (map SortField_String by_)))%nat as Hx.
    { apply Join_length. clear Hn. induction by_ as [|[f d] l IH]; [constructor|]. cbn [forallb] in Hl.
      apply andb_true_iff in Hl as [Hf Hl]. cbn [map]. constructor; [|by apply IH].
      unfold sort_ok, SortField_String in *. cbn in *. destruct f; [done|]. destruct d; cbn; lia. }
    rewrite length_map in Hx. lia.
  - cbn [app]. rd.
Qed.

(** [from field] and [as result]. *)
Lemma fromAs_reads what from as_ t : opt_name from = true → opt_name as_ = true → ends t →
  reads (fromAs what) (optWord " from " from +:+ optWord " as " as_ +:+ t) (from, as_) t.
Proof.
  intros Hf Ha Ht. pose proof (proj1 Ht) as Hs. unfold fromAs.
  eapply reads_bind; [apply (optWord_reads "from" ("pipe " +:+ what) from (optWord " as " as_ +:+ t)); [done|done| |]|].
  - unfold optWord, opt_name in *. destruct (String.eqb as_ ""); [by apply ends_no_word|].
    eexists _, _. split; [lexes|done].
  - unfold optWord. by destruct (String.eqb as_ "").
  - eapply reads_bind; [apply (optWord_reads "as" ("pipe " +:+ what) as_ t); [done|done|by apply ends_no_word|done]|].
    apply reads_ret.
Qed.

Lemma firstLast_reads n (last : bool) m by_ t : count_ok m = true → forallb name by_ = true → ends t →
  (String.length (byClause by_) < n)%nat →
  reads (parsePipeFirstLast n last) (optNum " " m +:+ byClause by_ +:+ t) (if last then PipeLast m by_ else PipeFirst m by_) t.
Proof.
  intros Hm Hb Ht Hn. pose proof (proj1 Ht) as Hs. unfold parsePipeFirstLast, optNum.
  assert (starts_with ident_byte (byClause by_ +:+ t) = false) as Hi by (by destruct by_).
  destruct (Z.ltb_spec 0 m) as [Hpos|Hz].
  - destruct (count_spec m Hm) as (Hc & Ha & _). rewrite append_assoc. cbn [String.append].
    eapply reads_bind; [rd_prim|]. known. rewrite Ha. eapply reads_bind; [eapply reads_bind; [rd_prim|apply reads_ret]|].
    eapply reads_bind; [apply reads_errorf, by_reads; [done|by apply ends_no_word|done]|]. by destruct last; apply reads_ret.
  - assert (m = 0) as -> by (unfold count_ok in Hm; apply andb_true_iff in Hm as [?%Z.leb_le _]; lia).
    cbn [String.append].
    assert (∃ k s', Next (byClause by_ +:+ t) = (k, s') ∧ (if is_typ (Typ k) TokIdent then Atoi (Val k) else None) = None)
      as (k & s' & Hk & Ek).
    { destruct by_ as [|x l].
      - cbn [byClause String.append]. on_ends Ht; eexists _, _; (split; [eassumption|done]).
      - unfold byClause. set (j := Join ", " (x :: l)). clearbody j. rewrite !append_assoc.
        eexists _, _. split; [lexes|done]. }
    eapply reads_bind; [eapply reads_peek; exact Hk|]. rewrite Ek. eapply reads_bind; [apply reads_ret|].
    eapply reads_bind; [apply reads_errorf, by_reads; [done|by apply ends_no_word|done]|]. by destruct last; apply reads_ret.
Qed.

Lemma context_reads n b a t : count_ok b = true → count_ok a = true → ends t → (2 < n)%nat →
  reads (parsePipeStreamContext n) (optNum " before " b +:+ optNum " after " a +:+ t) (PipeStreamContext b a) t.
Proof.
  intros Hb Ha Ht Hn. pose proof (proj1 Ht) as Hs. unfold parsePipeStreamContext.
  assert (∀ m b a, (0 < m)%nat → reads (contextLoop m b a) t (PipeStreamContext b a) t) as Hend.
  { intros m b' a' Hm. destruct m; [lia|]. cbn [contextLoop]. on_ends Ht; rd. }
  assert (∀ m, (1 < m)%nat → reads (contextLoop m b 0) (optNum " after " a +:+ t) (PipeStreamContext b a) t) as Hafter.
  { intros m Hm. unfold optNum. destruct (Z.ltb_spec 0 a).
    - destruct m as [|m]; [lia|]. cbn [contextLoop]. rewrite append_assoc. eapply reads_bind; [rd_prim|]. known.
      eapply reads_bind; [rd_prim|]. eapply reads_bind; [by apply int_arg|]. apply Hend. lia.
    - assert (a = 0) as -> by (unfold count_ok in Ha; apply andb_true_iff in Ha as [?%Z.leb_le _]; lia).
      apply Hend. lia. }
  unfold optNum at 1. destruct (Z.ltb_spec 0 b).
  - destruct n as [|n]; [lia|]. cbn [contextLoop]. rewrite append_assoc. eapply reads_bind; [rd_prim|]. known.
    eapply reads_bind; [rd_prim|]. eapply reads_bind; [apply int_arg; [done|]|].
    + unfold optNum. by destruct (0 <? a).
    + apply Hafter. lia.
  - assert (b = 0) as -> by (unfold count_ok in Hb; apply andb_true_iff in Hb as [?%Z.leb_le _]; lia).
    apply Hafter. lia.
Qed.

(** The text of a pipe after its symbol. *)
Definition pipeBody (p : Pipe) : string := suffix 1 (Pipe_String p).

Lemma by_start by_ t : ends t → starts_with ident_byte (byClause by_ +:+ t) = false.
Proof. intros [Hs _]. by destruct by_. Qed.

Lemma optWord_start w v t : starts_with ident_byte t = false → starts_with ident_byte (optWord (" " +:+ w) v +:+ t) = false.
Proof. intros Hs. unfold optWord. by destruct (String.eqb v ""). Qed.

Lemma optNum_start w v t : starts_with ident_byte t = false → starts_with ident_byte (optNum (" " +:+ w) v +:+ t) = false.
Proof. intros Hs. unfold optNum. by destruct (0 <? v). Qed.

(** The pipes whose arguments are names and numbers up to the end of the pipe. *)
Lemma simple_pipe_reads n p t : pipe_ok p = true → ends t → (String.length (Pipe_String p) < n)%nat →
  match p with
  | PipeUnpackJSON _ _ | PipeUnpackLogfmt _ _ | PipeFieldNames | PipeDropEmptyFields | PipeQueryStats
  | PipeUnpackSyslog | PipeLimit _ | PipeSample _ | PipeOffset _ | PipeTimeAdd _ | PipeGenerateSequence _
  | PipeFields _ | PipeDelete _ | PipeSetStreamFields _ => true
  | _ => false
  end = true →
  reads (parsePipe n) (pipeBody p +:+ t) p t.
Proof.
  intros Hok Ht Hn Hp. pose proof (proj1 Ht) as Hs.
  destruct p; try discriminate Hp; clear Hp; cbn [pipe_ok] in Hok; unfold pipeBody; cbn [Pipe_String] in *.
  - checks. destruct KeepOriginalFields; [done|].
    match goal with E : String.eqb _ "" = true |- _ => apply String.eqb_eq in E as -> end.
    exact (pipe_call n "unpack_json" _ t _ t eq_refl eq_refl Hs (reads_ret _ _)).
  - checks. destruct KeepOriginalFields; [done|].
    match goal with E : String.eqb _ "" = true |- _ => apply String.eqb_eq in E as -> end.
    exact (pipe_call n "unpack_logfmt" _ t _ t eq_refl eq_refl Hs (reads_ret _ _)).
  - eapply (pipe_call n "limit" _ (" " +:+ Itoa N +:+ t)); [done|reflexivity|done|].
    eapply reads_bind; [by apply int_arg|apply reads_ret].
  - eapply (pipe_call n "fields" _ (" " +:+ Join ", " Labels +:+ t)); [done|reflexivity|done|].
    rewrite length_app_str in Hn.
    eapply reads_bind; [apply reads_errorf, idents_end; [done|done|lia]|apply reads_ret].
  - eapply (pipe_call n "delete" _ (" " +:+ Join ", " Labels +:+ t)); [done|reflexivity|done|].
    rewrite length_app_str in Hn.
    eapply reads_bind; [apply reads_errorf, idents_end; [done|done|lia]|apply reads_ret].
  - eapply (pipe_call n "sample" _ (" " +:+ Itoa N +:+ t)); [done|reflexivity|done|].
    eapply reads_bind; [by apply int_arg|apply reads_ret].
  - eapply (pipe_call n "offset" _ (" " +:+ Itoa N +:+ t)); [done|reflexivity|done|].
    eapply reads_bind; [by apply int_arg|apply reads_ret].
  - exact (pipe_call n "field_names" _ t _ t eq_refl eq_refl Hs (reads_ret _ _)).
  - exact (pipe_call n "drop_empty_fields" _ t _ t eq_refl eq_refl Hs (reads_ret _ _)).
  - eapply (pipe_call n "generate_sequence" _ (" limit " +:+ Itoa Limit +:+ t)); [done|reflexivity|done|].
    unfold parsePipeGenerateSequence.
    eapply reads_bind; [apply (opt_reads "limit" () () (mret ()) (" " +:+ Itoa Limit +:+ t)); [done|done|apply reads_ret]|].
    eapply reads_bind; [by apply int_arg|apply reads_ret].
  - exact (pipe_call n "query_stats" _ t _ t eq_refl eq_refl Hs (reads_ret _ _)).
  - eapply (pipe_call n "set_stream_fields" _ (" " +:+ Join ", " Fields +:+ t)); [done|reflexivity|done|].
    rewrite length_app_str in Hn.
    eapply reads_bind; [apply reads_errorf, idents_end; [done|done|lia]|apply reads_ret].
  - eapply (pipe_call n "time_add" _ (" " +:+ Duration +:+ t)); [done|reflexivity|done|].
    eapply reads_bind; [rd_prim|apply reads_ret].
  - exact (pipe_call n "unpack_syslog" _ t _ t eq_refl eq_refl Hs (reads_ret _ _)).
Qed.

Lemma idents_length l n : forallb name l = true → (String.length (Join ", " l) < n)%nat → (length l < n)%nat.
Proof. intros Hl Hn. pose proof (names_length l Hl). lia. Qed.

(** A pipe by the text of its arguments. *)
Lemma pipe_at n nm m s p t : pipeBody p +:+ t = " " +:+ nm +:+ s →
  name nm = true → assoc nm (pipeTable n) = Some m → starts_with ident_byte s = false →
  reads m s p t → reads (parsePipe n) (pipeBody p +:+ t) p t.
Proof. intros -> Hn Hm Hs Hr. by eapply pipe_call. Qed.

Ltac same_text := unfold pipeBody; cbn [Pipe_String String.append suffix]; do 3 (rewrite ?append_assoc; cbn [String.append]); reflexivity.

Ltac pipe nm s := eapply (pipe_at _ nm _ s); [same_text|reflexivity|reflexivity|try done|].

Lemma clause_pipe_reads n p t : pipe_ok p = true → ends t → (String.length (Pipe_String p) < n)%nat →
  match p with
  | PipeSort _ _ | PipeTop _ _ | PipeFirst _ _ | PipeLast _ _ | PipeUniq _ | PipeUnroll _ | PipeHash _ _
  | PipeCoalesce _ _ _ | PipeJoin _ _ _ | PipeUnion _ | PipeCopy _ => true
  | _ => false
  end = true →
  reads (parsePipe n) (pipeBody p +:+ t) p t.
Proof.
  intros Hok Ht Hn Hp. pose proof (proj1 Ht) as Hs.
  destruct p; try discriminate Hp; clear Hp; cbn [pipe_ok] in Hok; cbn [Pipe_String] in *; checks;
    rewrite ?length_app_str in Hn.
  - pipe "sort" (" by (" +:+ Join ", " (map SortField_String By) +:+ ")" +:+ optNum " limit " Limit +:+ t).
    unfold parsePipeSort, expectBy. eapply reads_bind; [rd|].
    eapply reads_bind; [apply looks_space; [apply looks_bind, looks_advance|]; apply sort_reads; [done|lia]|].
    eapply reads_bind; [apply (optNum_reads "limit"); [done|done|done|by apply ends_no_word|done]|]. apply reads_ret.
  - pipe "top" (" " +:+ Itoa N +:+ byClause By +:+ t). unfold parsePipeTopN.
    eapply reads_bind; [apply int_arg; [done|by apply by_start]|].
    eapply reads_bind; [apply reads_errorf, by_reads; [done|by apply ends_no_word|lia]|]. apply reads_ret.
  - pipe "first" (optNum " " N +:+ byClause By +:+ t); [apply (optNum_start ""), by_start, Ht|].
    apply (firstLast_reads n false); [done|done|done|lia].
  - pipe "last" (optNum " " N +:+ byClause By +:+ t); [apply (optNum_start ""), by_start, Ht|].
    apply (firstLast_reads n true); [done|done|done|lia].
  - pipe "uniq" (byClause By +:+ t); [by apply by_start|]. unfold parsePipeUniq.
    eapply reads_bind; [apply reads_errorf, by_reads; [done|by apply ends_no_word|lia]|]. apply reads_ret.
  - pipe "copy" (" " +:+ Join ", " (map pair_String Pairs) +:+ t). unfold parsePipeCopy. destruct n as [|n]; [lia|].
    eapply reads_bind; [|apply reads_ret]. apply looks_space; [apply looks_peekTyp|].
    apply (copy_reads Pairs (S n) []); [done|done|].
    assert (1 * length (map pair_String Pairs) ≤ String.length (Join ", " (map pair_String Pairs)))%nat as Hl.
    { apply Join_length, Forall_map, Forall_forall. intros x _. unfold pair_String. rewrite !length_app_str. cbn. lia. }
    rewrite length_map in Hl. lia.
  - pipe "coalesce" ("(" +:+ Join ", " Fields +:+ ")" +:+ (if String.eqb Default "" then "" else " default " +:+ quoted Default) +:+
      " as " +:+ Result +:+ t). unfold parsePipeCoalesce.
    eapply reads_bind; [apply reads_errorf, idents_reads; [done|apply idents_length; [done|lia]]|].
    eapply (reads_bind _ _ _ Default); [|eapply reads_bind; [by apply result_reads|apply reads_ret]].
    destruct (String.eqb_spec Default "") as [->|_].
    + apply opt_absent. eexists _, _. split; [lexes|done].
    + rewrite append_assoc. apply (opt_reads "default" "" Default _ (" " +:+ quoted Default +:+ _)); [done|done|]. rd_prim.
  - pipe "hash" ("(" +:+ Join ", " Fields +:+ ")" +:+ " as " +:+ Result +:+ t). unfold parsePipeHash.
    eapply reads_bind; [apply reads_errorf, idents_reads; [done|apply idents_length; [done|lia]]|].
    eapply reads_bind; [by apply result_reads|apply reads_ret].
  - pipe "join" (" by (" +:+ Join ", " By +:+ ")" +:+ " (" +:+ Inner +:+ ")" +:+ optWord " prefix " Prefix0 +:+ t).
    unfold parsePipeJoin, expectBy. eapply reads_bind; [rd|].
    eapply reads_bind; [apply reads_errorf, looks_space; [apply looks_bind, looks_advance|];
      apply idents_reads; [done|apply idents_length; [done|lia]]|].
    eapply reads_bind; [by apply reads_errorf, inner_reads|].
    eapply reads_bind; [by apply (optWord_reads "prefix"); [| |apply ends_no_word|]|apply reads_ret].
  - pipe "union" (" (" +:+ Inner +:+ ")" +:+ t).
    eapply reads_bind; [by apply reads_errorf, inner_reads|apply reads_ret].
  - pipe "unroll" (" (" +:+ Join ", " Fields +:+ ")" +:+ t). unfold parsePipeUnroll.
    eapply reads_bind; [apply reads_errorf, looks_space; [apply looks_bind, looks_advance|];
      apply idents_reads; [done|apply idents_length; [done|lia]]|]. apply reads_ret.
Qed.

Lemma fieldAs_reads nm f r t : name f = true → name r = true → starts_with ident_byte t = false →
  reads (parseFieldAs nm) ("(" +:+ f +:+ ")" +:+ " as " +:+ r +:+ t) (f, r) t.
Proof.
  intros Hf Hr Hs. unfold parseFieldAs. do 3 (eapply reads_bind; [rd_prim|]).
  eapply reads_bind; [by apply result_reads|apply reads_ret].
Qed.

Lemma field_pipe_reads n p t : pipe_ok p = true → ends t → (String.length (Pipe_String p) < n)%nat →
  match p with
  | PipeCollapseNums _ | PipeDecolorize _ | PipeFacets _ | PipeFieldValues _ _ | PipeJSONArrayLen _ _
  | PipeJSONArrayConcat _ _ _ _ | PipeLen _ _ | PipeSplit _ _ _ | PipeStreamContext _ _ | PipeUnpackWords _ _ => true
  | _ => false
  end = true →
  reads (parsePipe n) (pipeBody p +:+ t) p t.
Proof.
  intros Hok Ht Hn Hp. pose proof (proj1 Ht) as Hs.
  destruct p; try discriminate Hp; clear Hp; cbn [pipe_ok] in Hok; cbn [Pipe_String] in *; checks;
    rewrite ?length_app_str in Hn.
  - pipe "collapse_nums" (optWord " at " Field +:+ t); [by apply (optWord_start "at ")|].
    unfold parsePipeCollapseNums.
    eapply reads_bind; [by apply (optWord_reads "at"); [| |apply ends_no_word|]|apply reads_ret].
  - pipe "decolorize" (optWord " " Field +:+ t); [by apply (optWord_start "")|].
    unfold parsePipeDecolorize, optWord, opt_name in *. destruct (String.eqb_spec Field "") as [->|_].
    + cbn [String.append]. on_ends Ht; rd.
    + cbn [orb] in Hok. rewrite append_assoc. rd.
  - assert ((if Limit =? 0 then "" else " limit " +:+ Itoa Limit) = optNum " limit " Limit) as El.
    { unfold optNum, count_ok in *. apply andb_true_iff in Hok as [?%Z.leb_le _].
      destruct (Z.eqb_spec Limit 0), (Z.ltb_spec 0 Limit); done || lia. }
    eapply (pipe_at _ "facets" _ (optNum " limit " Limit +:+ t)); [|done|done|by apply (optNum_start "limit ")|].
    { rewrite <-El. same_text. }
    unfold parsePipeFacets.
    eapply reads_bind; [apply (optNum_reads "limit"); [intros; by apply reads_errorf|done|done|by apply ends_no_word|done]|].
    apply reads_ret.
  - pipe "field_values" (" " +:+ Field +:+ optNum " limit " Limit +:+ t). unfold parsePipeFieldValues.
    pose proof (optNum_start "limit " Limit t Hs).
    eapply reads_bind; [rd_prim|].
    eapply reads_bind; [apply (optNum_reads "limit"); [intros; by apply reads_errorf|done|done|by apply ends_no_word|done]|].
    apply reads_ret.
  - pipe "json_array_len" ("(" +:+ Field +:+ ")" +:+ " as " +:+ Result +:+ t).
    eapply reads_bind; [by apply fieldAs_reads|apply reads_ret].
  - eapply (pipe_at _ "json_array_concat" _
      ((if HasDelimiter then " " +:+ quoted Delimiter else "") +:+ optWord " from " From +:+ optWord " as " As +:+ t));
      [same_text|done|done| |].
    { destruct HasDelimiter; [done|]. by apply (optWord_start "from "), (optWord_start "as "). }
    unfold parsePipeJSONArrayConcat. destruct HasDelimiter.
    + rewrite append_assoc. eapply reads_bind; [rd_prim|]. known. eapply reads_bind; [rd_prim|].
      eapply reads_bind; [by apply fromAs_reads|apply reads_ret].
    + match goal with E : String.eqb Delimiter "" = true |- _ => apply String.eqb_eq in E as -> end. cbn [String.append].
      assert (∃ k s', Next (optWord " from " From +:+ optWord " as " As +:+ t) = (k, s') ∧ Typ k ≠ TokString) as (k & s' & Hk & Ek).
      { unfold optWord. destruct (String.eqb From ""); [destruct (String.eqb As "")|]; cbn [String.append].
        - on_ends Ht; eexists _, _; (split; [eassumption|done]).
        - eexists _, _; split; [lexes|done].
        - eexists _, _; split; [lexes|done]. }
      eapply reads_bind; [eapply reads_peekTyp; exact Hk|]. unfold is_typ. rewrite bool_decide_false by done.
      eapply reads_bind; [apply reads_ret|]. eapply reads_bind; [by apply fromAs_reads|apply reads_ret].
  - pipe "len" ("(" +:+ Field +:+ ")" +:+ " as " +:+ Result +:+ t).
    eapply reads_bind; [by apply fieldAs_reads|apply reads_ret].
  - pipe "split" (" " +:+ quoted Separator +:+ optWord " from " From +:+ optWord " as " As +:+ t).
    unfold parsePipeSplit. eapply reads_bind; [rd_prim|]. eapply reads_bind; [by apply fromAs_reads|apply reads_ret].
  - pipe "stream_context" (optNum " before " Before +:+ optNum " after " After +:+ t);
      [by apply (optNum_start "before "), (optNum_start "after ")|]. apply context_reads; [done|done|done|].
    cbn [String.length] in Hn. lia.
  - pipe "unpack_words" (optWord " from " From +:+ optWord " as " As +:+ t);
      [by apply (optWord_start "from "), (optWord_start "as ")|].
    unfold parsePipeUnpackWords. eapply reads_bind; [by apply fromAs_reads|apply reads_ret].
Qed.

Lemma stats_at n kw by_ fs p t : kw = "stats" ∨ kw = "running_stats" ∨ kw = "total_stats" →
  p = (if String.eqb kw "stats" then PipeStats by_ fs
       else if String.eqb kw "running_stats" then PipeRunningStats by_ fs else PipeTotalStats by_ fs) →
  stats_ok by_ fs = true → ends t → (String.length (Pipe_String p) < n)%nat →
  reads (parsePipe n) (pipeBody p +:+ t) p t.
Proof.
  intros Hk Hp Hok Ht Hn.
  assert (Pipe_String p = pipeStatsString kw by_ fs) as Es by (destruct Hk as [-> | [-> | ->]]; by rewrite Hp).
  assert (∃ s, pipeStatsString kw by_ fs = "| " +:+ kw +:+ s ∧ starts_with ident_byte (s +:+ t) = false) as (s & E & Hs).
  { unfold pipeStatsString. destruct fs as [|f fs]; [unfold stats_ok in Hok; checks; done|].
    exists (byClause by_ +:+ " " +:+ Join ", " (map alias_String (f :: fs))). split; [done|]. by destruct by_. }
  assert (pipeBody p +:+ t = " " +:+ kw +:+ s +:+ t) as -> by (unfold pipeBody; rewrite Es, E; cbn; by rewrite append_assoc).
  assert (s = suffix (2 + String.length kw) (pipeStatsString kw by_ fs)) as ->.
  { rewrite E, <-suffix_suffix. change (suffix 2 ("| " +:+ ?x)) with x. by rewrite suffix_app. }
  eapply pipe_call; [by destruct Hk as [-> | [-> | ->]]| |done|subst p; rewrite Es in Hn; by apply stats_reads].
  by destruct Hk as [-> | [-> | ->]].
Qed.

Lemma pipe_reads n p t : pipe_ok p = true → ends t → (String.length (Pipe_String p +:+ t) < n)%nat →
  reads (parsePipe n) (pipeBody p +:+ t) (regroupPipe p) t.
Proof.
  intros Hok Ht Hn. pose proof Hn as Hn'. rewrite length_app_str in Hn'.
  assert (String.length (Pipe_String p) < n)%nat as Hp by lia.
  destruct p; cbn [regroupPipe];
    first [ discriminate Hok | by apply simple_pipe_reads | by apply clause_pipe_reads | by apply field_pipe_reads
          | by eapply (stats_at _ "stats"); [eauto|done|..] | by eapply (stats_at _ "running_stats"); [eauto|done|..]
          | by eapply (stats_at _ "total_stats"); [eauto|done|..] | idtac ].
  cbn [pipe_ok Pipe_String] in *.
  rewrite append_assoc, !length_app_str in Hn. cbn [String.length] in Hn. destruct n as [|n]; [lia|].
  apply (pipe_call (S n) "filter" (e ← wrap "pipe filter" (parseFilterExpr (S n)); mret (PipeFilter e))
    (" " +:+ Filter_String Expr +:+ t)); [done|done|done|].
  eapply reads_bind; [|apply reads_ret]. apply reads_errorf, looks_space.
  - cbn [parseFilterExpr]. apply looks_bind, looks_bind, not_looks.
  - apply printed_filter_reads; [done|by apply ends_stop|]. rewrite length_app_str. lia.
Qed.

(** ** Queries *)

Definition query_ok (q : Query) : bool :=
  match q_Filter q with
  | None => true
  | Some f => filter_ok f
  end && forallb pipe_ok (q_Pipes q).

(** No filter reads as a wildcard. *)
Definition filterOf (q : Query) : FilterExpr := default Wildcard (q_Filter q).

Definition regroupQuery (q : Query) : Query :=
  mkQuery (Some (regroup (filterOf q))) (map regroupPipe (q_Pipes q)).

Lemma Pipe_bar p : Pipe_String p = String "|" (pipeBody p).
Proof. unfold pipeBody. destruct p; try reflexivity; cbn [Pipe_String]; unfold pipeStatsString; by destruct Funcs. Qed.

Lemma pipe_blank p : pipe_ok p = true → ∃ s, pipeBody p = String " " s.
Proof. intros _. unfold pipeBody. destruct p; try (by eexists); cbn [Pipe_String]; unfold pipeStatsString; destruct Funcs; by eexists. Qed.

Lemma ends_pipes ps : forallb pipe_ok ps = true → ends (pipesString ps).
Proof.
  destruct ps as [|p ps]; [intros _; apply ends_nil|]. cbn [forallb]. intros [Hp _]%andb_true_iff.
  cbn [pipesString]. rewrite Pipe_bar. destruct (pipe_blank p Hp) as [s ->]. cbn [String.append]. apply ends_pipe.
Qed.

Lemma pipes_reads ps n acc : forallb pipe_ok ps = true → (String.length (pipesString ps) < n)%nat →
  reads (pipesLoop n acc) (pipesString ps) (acc ++ map regroupPipe ps) "".
Proof.
  revert n acc. induction ps as [|p ps IH]; intros n acc Hps Hn; (destruct n as [|n]; [lia|]); cbn [pipesLoop].
  { cbn [pipesString map]. rewrite app_nil_r. rd. }
  cbn [forallb] in Hps. apply andb_true_iff in Hps as [Hp Hps]. cbn [map].
  replace (acc ++ regroupPipe p :: map regroupPipe ps) with ((acc ++ [regroupPipe p]) ++ map regroupPipe ps)
    by (by rewrite <-app_assoc).
  cbn [pipesString] in *. rewrite Pipe_bar in *. cbn [String.append String.length] in *.
  eapply reads_bind; [rd_prim|]. known. eapply reads_bind; [rd_prim|].
  eapply reads_bind.
  - apply pipe_reads; [done|by apply ends_pipes|]. rewrite Pipe_bar. cbn [String.append String.length]. lia.
  - apply IH; [done|]. rewrite length_app_str in Hn. lia.
Qed.

(** A filter does not start at the end of the text nor with a pipe. *)
Lemma not_fails rec n s k v s' : Next s = (mkTok k v, s') → k = TokEOF ∨ k = TokPipe →
  ∃ msg, parseNotExpr rec (S n) (mkP s None) = Fail msg.
Proof.
  intros E Hk. cbn [parseNotExpr]. unfold peekTyp, mbind, P_bind, peek, mret, P_ret. cbn [buf sc]. rewrite E.
  destruct Hk as [-> | ->]; eexists; reflexivity.
Qed.

Lemma filter_start n s a u : reads (parseFilterExpr (S n)) s a u →
  Typ (Next s).1 ≠ TokEOF ∧ Typ (Next s).1 ≠ TokPipe.
Proof.
  intros Hr. destruct (Next s) as [[k v] s'] eqn:E. cbn [fst Typ].
  assert (¬ (k = TokEOF ∨ k = TokPipe)) as Hn; [|tauto]. intros Hk.
  destruct (not_fails (parseFilterExpr n) n s k v s' E Hk) as [msg Em].
  destruct (Hr (mkP s None)) as (p' & Ep & _); [by left|].
  cbn [parseFilterExpr] in Ep. unfold parseOrExpr, parseAndExpr, mbind in Ep. unfold P_bind in Ep.
  by rewrite Em in Ep.
Qed.

Lemma query_reads q : query_ok q = true →
  reads (parseQuery (S (String.length (Query_String q)))) (Query_String q) (regroupQuery q) "".
Proof.
  unfold query_ok. intros [Hf Hp]%andb_true_iff.
  assert (Query_String q = Filter_String (filterOf q) +:+ pipesString (q_Pipes q)) as Eq.
  { unfold Query_String, filterOf. by destruct (q_Filter q). }
  assert (filter_ok (filterOf q) = true) as Hok by (unfold filterOf; by destruct (q_Filter q)).
  set (n := String.length (Query_String q)).
  assert (reads (parseFilterExpr (S n)) (Query_String q) (regroup (filterOf q)) (pipesString (q_Pipes q))) as Hr.
  { subst n. rewrite Eq. apply printed_filter_reads; [done|by apply ends_stop, ends_pipes|lia]. }
  destruct (filter_start _ _ _ _ Hr) as [H1' H2']. unfold parseQuery.
  destruct (Next (Query_String q)) as [k s'] eqn:E. cbn [fst] in *.
  eapply reads_bind; [by eapply reads_peekTyp|]. unfold is_typ at 1 2. rewrite !bool_decide_false by done.
  eapply reads_bind; [exact Hr|].
  eapply reads_bind; [apply (pipes_reads _ _ []); [done|]|].
  - subst n. rewrite Eq, length_app_str. lia.
  - cbn [app]. rd.
Qed.

Lemma stats_regroup ps : existsb isStatsPipe (map regroupPipe ps) = existsb isStatsPipe ps.
Proof. induction ps as [|x l IH]; [done|]. cbn. rewrite IH. by destruct x. Qed.

(** C20 A printed query that [query_ok] describes is read back: its filter (one of
    [filter_ok], or none, which is read as a wildcard) up to the grouping of its chains, and
    every pipe as it was, with the filter of a filter pipe regrouped.  [isStatsQuery] then
    sees a stats pipe among them.  Covered are the pipes whose fields, aliases and durations
    are identifiers that are no keywords, whose counts fit an int64 and whose quoted texts
    need no escape: filter, limit, offset, sample, facets, generate_sequence, fields,
    delete, set_stream_fields, uniq, unroll, stats, running_stats and total_stats with at
    least one function, sort, top, first, last, copy, coalesce, collapse_nums, decolorize,
    field_names, field_values, drop_empty_fields, query_stats, hash, join and union with
    balanced parentheses, len, json_array_len, json_array_concat, split, stream_context,
    time_add, unpack_words, unpack_syslog, and unpack_json and unpack_logfmt without
    options.  Not covered are math ([pipe_after_math_refused], [stats_after_math_missed]),
    update, extract, extract_regexp, format, rename, replace, replace_regexp, pack_json,
    pack_logfmt and deferred stats functions. *)
Theorem logsql_query_roundtrip (q : Query) : query_ok q = true →
  (∃ p, Parse (Query_String q) = Done (regroupQuery q) p) ∧
  (existsb isStatsPipe (q_Pipes q) = true → isStatsQuery (Query_String q) = Some true).
Proof.
  intros Hq. destruct (query_reads q Hq (newParser (Query_String q))) as (p & E & _); [by left|].
  change (Parse (Query_String q) = Done (regroupQuery q) p) in E. split; [by exists p|].
  intros Hs. unfold isStatsQuery. rewrite E. cbn [q_Pipes regroupQuery].
  by rewrite stats_regroup, Hs.
Qed.

End Queries.
End LQuery.

(** ** Concrete queries *)

Module LDemo.
Import Text Utf8 LAst LScan LParse LRead LRound LQuery.

(** float64 as its text. *)
#[local] Instance texts : Floats :=
  {| F := string; ParseFloat := Ok; Fneg x := "-" +:+ x; Fof_int := Itoa; Format_g x := x |}.

(** Lower case of ASCII and of U+023A, which is two bytes and lowers to the three bytes
    of U+2C65. *)
Fixpoint lowered (s : string) : string :=
  match s with
  | "" => ""
  | String a s' =>
      match s' with
      | String b s'' =>
          if (b2z a =? 0xC8) && (b2z b =? 0xBA) then bytes [0xE2; 0xB1; 0xA5] +:+ lowered s''
          else String (lower_byte a) (lowered s')
      | "" => String (lower_byte a) ""
      end
  end.

#[local] Instance lenient : Lenient := {| ParseFloatValue s := s; lowerString := lowered |}.

#[local] Instance lenient_laws : LenientLaws.
Proof. constructor. done. Qed.

#[local] Instance ascii_unicode : Unicode :=
  {| IsLetter r := ((65 <=? r) && (r <=? 90)) || ((97 <=? r) && (r <=? 122));
     IsDigit r := (48 <=? r) && (r <=? 57);
     IsPrint r := (32 <=? r) && (r <=? 126) |}.

#[local] Instance ascii_laws : UnicodeLaws.
Proof.
  constructor; try done. intros r. cbn.
  rewrite orb_true_iff, !andb_true_iff, !Z.leb_le, andb_false_iff, !Z.leb_gt. lia.
Qed.

(** A quote and a backslash in a value, an OR inside an AND, a negated field. *)
Definition demoFilter : FilterExpr :=
  AndExpr (FieldFilter "app" FieldOpExact (String dquote (String bslash "x")) false)
    (AndExpr (OrExpr (Phrase "a b") (NotExpr (OrExpr (Word "err") (Prefix "warn"))))
       (FieldFilter "level" FieldOpRegexp "^(?:inf.*)$" true)).

Lemma logsql_filter_roundtrip_witness :
  filter_ok demoFilter = true ∧
  ((∃ p, ParseFilter (Filter_String demoFilter) = Done (regroup demoFilter) p) ∧
   (∀ atom, holds atom (regroup demoFilter) = holds atom demoFilter) ∧
   Filter_String (regroup demoFilter) = Filter_String demoFilter).
Proof. split; [vm_compute; reflexivity|]. apply (logsql_filter_roundtrip demoFilter). vm_compute. reflexivity. Defined.

Definition demoQuery : Query :=
  mkQuery (Some demoFilter)
    [PipeUnpackJSON "" false; PipeFilter (FieldFilter "status" FieldOpGTE "500" false);
     PipeStats ["app"; "level"] [mkAlias Count "c"; mkAlias (Quantile "0.99" "duration") "p99"];
     PipeSort [mkSortField "c" true] 10; PipeLimit 5].

Lemma logsql_query_roundtrip_witness :
  query_ok demoQuery = true ∧
  ((∃ p, Parse (Query_String demoQuery) = Done (regroupQuery demoQuery) p) ∧
   (existsb isStatsPipe (q_Pipes demoQuery) = true → isStatsQuery (Query_String demoQuery) = Some true)).
Proof. split; [vm_compute; reflexivity|]. apply (logsql_query_roundtrip demoQuery). vm_compute. reflexivity. Defined.

(** ** What is not read back *)

(** A pipe after [math] is refused: the symbol in front of it is consumed with the
    expression. *)
Lemma pipe_after_math_refused : ∃ msg, Parse "* | math a as b | limit 5" = Fail msg.
Proof. eexists. vm_compute. reflexivity. Qed.

(** So the stats pipe of a query with [math] is not seen unless it is called [stats]. *)
Lemma stats_after_math_missed :
  isStatsQuery "* | math a as b | running_stats sum(b) as c" = Some false ∧
  isStatsQuery "* | running_stats sum(b) as c" = Some true.
Proof. split; vm_compute; reflexivity. Qed.

(** Lower case is longer than the text, and the offset of [" as "] in it lies beyond
    the end of the text. *)
Lemma math_lower_case_panics :
  Parse ("* | math " +:+ bytes [0xC8; 0xBA; 0xC8; 0xBA; 0xC8; 0xBA] +:+ " as x") = Panic.
Proof. vm_compute. reflexivity. Qed.

(** Values printed without escapes. *)
Lemma unescaped_refused : ∃ msg,
  ParseFilter (Filter_String (ExactPrefix (String dquote "x"))) = Fail msg.
Proof. eexists. vm_compute. reflexivity. Qed.

(** Fields with the name of a message filter. *)
Lemma reserved_field_refused : ∃ msg,
  ParseFilter (Filter_String (FieldFilter "pattern" FieldOpExact "x" false)) = Fail msg.
Proof. eexists. vm_compute. reflexivity. Qed.

(** The prefix of a field value is printed in a form the parser does not know. *)
Lemma exact_prefix_refused : ∃ msg,
  ParseFilter (Filter_String (FieldFilter "app" FieldOpExactPrefix "x" false)) = Fail msg.
Proof. eexists. vm_compute. reflexivity. Qed.

(** An error of the scanner inside an argument becomes part of the value. *)
Lemma scan_error_in_value : ∃ p,
  ParseFilter "size:range(1+2)" = Done (FieldFilter "size" FieldOpRange "1unexpected character: +2" false) p.
Proof. eexists. vm_compute. reflexivity. Qed.

(** An escape of [strconv.Quote] that the scanner does not undo: a carriage return in a
    regular expression is read as a backslash and a letter. *)
Lemma pattern_escape_kept : ∃ p,
  ParseFilter (Filter_String (Regexp (ch 13))) = Done (Regexp (String bslash "r")) p.
Proof. eexists. vm_compute. reflexivity. Qed.

End LDemo.
