(* ===== verification/LogsqlBridge.v ===== *)
(** * Translated matchers under the LogsQL parser

    The translator writes LogsQL text (src/internal/translator/translator.go), the parser
    of src/internal/logsql reads such text back to classify queries.  A translated stream
    matcher is read as the field filter it stands for when it is positive; a negated one,
    written with a minus sign, is read as a positive filter on another field, because the
    scanner counts the sign among the identifier characters. *)

From S2P Require Import Prelude GoText Utf8 LogqlAst LogqlFilter LogqlPipeline Translator LogsqlAst LogsqlScanner LogsqlParser LogsqlReading LogsqlRoundtrip.

#[local] Open Scope Z_scope.
#[local] Arguments String.append !_ _ /.

Module LBridge.
Import Text Utf8 LAst LScan LParse LRead LRound.

Section Bridge.
Context `{Floats} `{!Lenient} `{Unicode} `{!UnicodeLaws}.

(** The two models of the same quoting function. *)
Lemma quote_same v : Logsql.quoteLogsQL v = quoteLogsQL v.
Proof.
  unfold Logsql.quoteLogsQL, quoteLogsQL, quoted. do 2 f_equal.
  induction v as [|a v IH]; [done|]. cbn [Logsql.replaceByte escapeLogsQL].
  destruct (Ascii.eqb_spec a bslash) as [->|Hb].
  - cbn. f_equal. f_equal. exact IH.
  - cbn [String.append]. cbn [Logsql.replaceByte]. destruct (Ascii.eqb_spec a dquote) as [->|Hd].
    + cbn. f_equal. f_equal. exact IH.
    + cbn. f_equal. exact IH.
Qed.

(** The field and the test of a matcher. *)
Definition matcherField (m : Ast.LabelMatcher) : string := Ast.lm_Name m.

Definition matcherTest (m : Ast.LabelMatcher) : FieldOp * string :=
  match Ast.lm_Op m with
  | Ast.MatchEq | Ast.MatchNeq => (FieldOpExact, Ast.lm_Value m)
  | Ast.MatchRe | Ast.MatchNotRe => (FieldOpRegexp, Logsql.AnchorLabelMatcherRegex (Ast.lm_Value m))
  end.

Definition positive (m : Ast.LabelMatcher) : bool :=
  match Ast.lm_Op m with
  | Ast.MatchEq | Ast.MatchRe => true
  | Ast.MatchNeq | Ast.MatchNotRe => false
  end.

(** The text is that of a field filter, whose field starts with the sign when the
    matcher is negated. *)
Lemma translated_text m : positive m || negb (String.eqb (matcherTest m).2 "") = true →
  Tr.fieldFilter m =
    Filter_String (FieldFilter ((if positive m then "" else "-") +:+ matcherField m)
                     (matcherTest m).1 (matcherTest m).2 false).
Proof.
  destruct m as [n op v]. unfold Tr.fieldFilter, matcherTest, matcherField, positive.
  cbn [Ast.lm_Name Ast.lm_Op Ast.lm_Value]. intros Hv.
  destruct op; cbn [fst snd] in *; rewrite ?quote_same; try done.
  cbn [orb] in Hv. apply negb_true_iff in Hv. by rewrite Hv.
Qed.

(** C32 The text the translator writes, without renaming of labels, for a positive stream
    matcher is read by the LogsQL parser as the field filter on the same field with the same
    value, the regular expression anchored on both sides.  The label is a plain name other
    than service_name, detected_level and level, and one the LogsQL parser takes for a field;
    the quoted value holds no text of an operator the translator looks for first
    ([operator_in_value_misread] is one that does); and an anchored regular expression is
    printable ASCII, tab and line feed. *)
Theorem translated_matcher_read (m : Ast.LabelMatcher) :
  Tr.ordinary (Ast.lm_Name m) → Tr.unshadowed m → positive m = true →
  fieldName (matcherField m) = true → field_ok (matcherTest m).1 (matcherTest m).2 = true →
  ∃ p, ParseFilter (Tr.streamMatcherToFieldFilter Tr.plain_naming (Ast.LabelMatcher_String m)) =
    Done (FieldFilter (matcherField m) (matcherTest m).1 (matcherTest m).2 false) p.
Proof.
  intros Ho Hu Hp Hn Hv. rewrite Tr.matcher_field_filter by done.
  rewrite translated_text by (by rewrite Hp). rewrite Hp. cbn [String.append].
  apply (parse_printed (FieldFilter _ _ _ false)). cbn [filter_ok]. by rewrite Hn.
Qed.

(** A negated matcher is read as a positive filter on a field that no row has. *)
Lemma negated_matcher_misread (m : Ast.LabelMatcher) :
  Tr.ordinary (Ast.lm_Name m) → Tr.unshadowed m → positive m = false → (matcherTest m).2 ≠ "" →
  fieldName ("-" +:+ matcherField m) = true → field_ok (matcherTest m).1 (matcherTest m).2 = true →
  ∃ p, ParseFilter (Tr.streamMatcherToFieldFilter Tr.plain_naming (Ast.LabelMatcher_String m)) =
    Done (FieldFilter ("-" +:+ matcherField m) (matcherTest m).1 (matcherTest m).2 false) p.
Proof.
  intros Ho Hu Hp Hne Hn Hv. rewrite Tr.matcher_field_filter by done.
  rewrite translated_text by (rewrite Hp; cbn [orb]; by apply negb_true_iff, String.eqb_neq). rewrite Hp.
  apply (parse_printed (FieldFilter _ _ _ false)). cbn [filter_ok]. by rewrite Hn.
Qed.

End Bridge.
End LBridge.

(** A concrete reading of a translated regular-expression matcher. *)
Module LBridgeDemo.
Import Text Utf8 LAst LScan LParse LRead LRound LBridge Filter.FilterDemo.
#[local] Existing Instances ascii_tables ascii_laws.

(** float64 as its text. *)
#[local] Instance texts : Floats :=
  {| F := string; ParseFloat := Ok; Fneg x := "-" +:+ x; Fof_int := Itoa; Format_g x := x |}.

#[local] Instance lenient : Lenient := {| ParseFloatValue s := s; lowerString s := s |}.

Lemma translated_matcher_read_witness :
  ∃ p, ParseFilter (Tr.streamMatcherToFieldFilter Tr.plain_naming
                      (Ast.LabelMatcher_String (Ast.mkLM "app" Ast.MatchRe "a.*"))) =
    Done (FieldFilter "app" FieldOpRegexp "^(?:a.*)$" false) p.
Proof.
  refine (translated_matcher_read (Ast.mkLM "app" Ast.MatchRe "a.*") _ _ _ _ _).
  - split_and!; [split; [discriminate|vm_compute; reflexivity]|discriminate..].
  - repeat constructor.
  - reflexivity.
  - vm_compute. reflexivity.
  - vm_compute. reflexivity.
Defined.

End LBridgeDemo.
