(* ===== verification/LabelIndex.v ===== *)
(** * The label values index (src/internal/proxy/label_index.go)

    Per tenant and label the proxy remembers which values it has seen, how often and
    when, and answers value listings from this index, most frequent first.  The index is
    bounded, persisted to a file, restored from it or from the peers at startup, and read
    and written by the handlers of label_handlers.go and label_metadata.go.

    A map of Go is a [gmap]; its iteration order is that of [map_to_list], and
    [ranking_unique] shows that the order of the answer does not depend on it. *)

From S2P Require Import Prelude GoText Utf8 Sha256 ColdStore.

#[local] Open Scope Z_scope.

(** [strings.ToLower]. *)
Class Casing : Type := lower : string → string.

Module LIdx.
Import Text Utf8.

(** ** Data (src/internal/proxy/proxy.go) *)

Record labelValueIndexEntry : Type := mkEntry {
  SeenCount : Z;
  LastSeen : Z
}.

Definition zeroEntry : labelValueIndexEntry := mkEntry 0 0.

Abbreviation values_map := (gmap string labelValueIndexEntry).

Record labelValuesIndexState : Type := mkState {
  entries : values_map;
  dirty : bool;
  ordered : list string
}.

Record labelValuesIndexSnapshot : Type := mkSnapshot {
  Version : Z;
  SavedAtUnixNano : Z;
  StatesByKey : gmap string values_map
}.

(** The settings of the index. *)
Record config : Type := mkConfig {
  indexedCache : bool;
  hotLimit : Z;
  maxEntries : Z;
  persistPath : string;
  persistInterval : Z;
  startupStale : Z
}.

(** The fields of the proxy that the index uses: the map, the flag that asks for a
    write, and the digest of the file as it was last written or read. *)
Record Proxy : Type := mkProxy {
  labelValuesIndex : gmap string labelValuesIndexState;
  persistDirty : bool;
  persistDigest : option (list Z)
}.

(** ** Parameters of a request *)

Definition parsePositiveInt (raw : string) (fallback : Z) : Z :=
  let value := TrimSpace raw in
  if String.eqb value "" then fallback
  else match Atoi value with
       | Some n => if n <=? 0 then fallback else n
       | None => fallback
       end.

Definition parseNonNegativeInt (raw : string) (fallback : Z) : Z :=
  let value := TrimSpace raw in
  if String.eqb value "" then fallback
  else match Atoi value with
       | Some n => if n <? 0 then fallback else n
       | None => fallback
       end.

Definition labelValuesBrowseMode (rawQuery : string) : bool :=
  let trimmed := TrimSpace rawQuery in
  String.eqb trimmed "" || String.eqb trimmed "*".

Definition cap (limit : Z) : Z := if Cold.maxLimitValue <? limit then Cold.maxLimitValue else limit.

Definition defaultLabelValuesLimit (c : config) (limitRaw : string) : Z :=
  if negb (String.eqb (TrimSpace limitRaw) "") then cap (parsePositiveInt limitRaw (hotLimit c))
  else cap (if hotLimit c <=? 0 then 200 else hotLimit c).

(** encoding/json on snapshots. *)
Class SnapshotJson : Type := {
  marshal : labelValuesIndexSnapshot → result string;
  unmarshal : string → result labelValuesIndexSnapshot
}.

(** The snapshots encoding/json writes and reads back unchanged: texts are valid UTF-8 and
    numbers fit their types. *)
Definition entry_fits (e : labelValueIndexEntry) : Prop :=
  0 ≤ SeenCount e ≤ 4294967295 ∧ in_int64 (LastSeen e).

Definition textual (s : labelValuesIndexSnapshot) : Prop :=
  in_int64 (Version s) ∧ in_int64 (SavedAtUnixNano s) ∧
  map_Forall (λ k m, ValidString k = true ∧ map_Forall (λ v e, ValidString v = true ∧ entry_fits e) m)
    (StatesByKey s).

Class SnapshotJsonLaws `{SnapshotJson} : Prop :=
  marshal_unmarshal s : textual s → ∃ t, marshal s = Ok t ∧ unmarshal t = Ok s.

Section Index.
Context `{Casing}.

Definition normalizeLabelValueSearch (raw : string) : string := lower (TrimSpace raw).

Definition labelValuesIndexKey (orgID labelName : string) : string :=
  orgID +:+ "|" +:+ lower (TrimSpace labelName).

(** ** The order of the answer *)

Definition labelValueIndexLess (aName : string) (a : labelValueIndexEntry) (bName : string)
    (b : labelValueIndexEntry) : bool :=
  if negb (SeenCount a =? SeenCount b) then SeenCount b <? SeenCount a
  else if negb (LastSeen a =? LastSeen b) then LastSeen b <? LastSeen a
  else String.ltb aName bName.

(** [index.entries[v]]: the zero entry when the value is absent. *)
Definition entryOf (m : values_map) (v : string) : labelValueIndexEntry := default zeroEntry (m !! v).

Definition before (m : values_map) (a b : string) : bool :=
  labelValueIndexLess a (entryOf m a) b (entryOf m b).

Definition keys (m : values_map) : list string := (map_to_list m).*1.

Definition ranking (m : values_map) : list string := SliceStable (before m) (keys m).

Definition labelValueIndexEnsureOrderedLocked (s : labelValuesIndexState) : labelValuesIndexState :=
  if negb (dirty s) && (0 <? length (ordered s))%nat then s
  else mkState (entries s) false (ranking (entries s)).

(** ** Recording values *)

(** [^uint32(0)]. *)
Definition maxSeen : Z := 4294967295.

Definition touch (now : Z) (e : labelValueIndexEntry) : labelValueIndexEntry :=
  mkEntry (if SeenCount e <? maxSeen then SeenCount e + 1 else SeenCount e) now.

Fixpoint observe (now : Z) (values : list string) (m : values_map) (structuralChange : bool) :
    values_map * bool :=
  match values with
  | [] => (m, structuralChange)
  | value :: values =>
      observe now values (<[value := touch now (entryOf m value)]> m)
        (structuralChange || bool_decide (m !! value = None))
  end.

(** The entries of the values kept. *)
Definition pick (m : values_map) (keep : list string) : values_map :=
  foldl (λ acc v, <[v := entryOf m v]> acc) ∅ keep.

Definition prune (maxEntries : Z) (s : labelValuesIndexState) : labelValuesIndexState :=
  let keep := take (Z.to_nat maxEntries) (ordered s) in
  mkState (pick (entries s) keep) false keep.

Definition setDirty (b : bool) (p : Proxy) : Proxy :=
  mkProxy (labelValuesIndex p) (persistDirty p || b) (persistDigest p).

Definition setIndex (key : string) (s : labelValuesIndexState) (p : Proxy) : Proxy :=
  mkProxy (<[key := s]> (labelValuesIndex p)) (persistDirty p) (persistDigest p).

Definition updateLabelValuesIndex (c : config) (now : Z) (orgID labelName : string)
    (values : list string) (p : Proxy) : Proxy :=
  if negb (indexedCache c) || (length values =? 0)%nat then p
  else
    let key := labelValuesIndexKey orgID labelName in
    let '(index, structuralChange) :=
      match labelValuesIndex p !! key with
      | Some index => (index, false)
      | None => (mkState ∅ false [], true)
      end in
    let '(m, structuralChange) := observe now values (entries index) structuralChange in
    let index := mkState m true (ordered index) in
    if (maxEntries c <=? 0) || (Z.of_nat (size m) <=? maxEntries c)
    then setDirty structuralChange (setIndex key index p)
    else
      let index := labelValueIndexEnsureOrderedLocked index in
      if Z.of_nat (length (ordered index)) <=? maxEntries c
      then setDirty structuralChange (setIndex key index p)
      else setDirty true (setIndex key (prune (maxEntries c) index) p).

(** ** Reading a page *)

Definition wanted (search value : string) : bool :=
  String.eqb search "" || Contains (lower value) search.

Fixpoint pageLoop (search : string) (offset limit seen : Z) (out : list string)
    (candidates : list string) : list string :=
  match candidates with
  | [] => out
  | candidate :: candidates =>
      if negb (wanted search candidate) then pageLoop search offset limit seen out candidates
      else if seen <? offset then pageLoop search offset limit (seen + 1) out candidates
      else
        let out := out ++ [candidate] in
        if limit <=? Z.of_nat (length out) then out
        else pageLoop search offset limit seen out candidates
  end.

Definition selectLabelValuesWindow (values : list string) (search : string) (offset limit : Z) :
    list string :=
  let limit := cap (if limit <=? 0 then Cold.maxLimitValue else limit) in
  let offset := if offset <? 0 then 0 else offset in
  pageLoop (normalizeLabelValueSearch search) offset limit 0 [] values.

(** The limit of a read of the index. *)
Definition indexLimit (c : config) (limit : Z) : Z :=
  let limit := if limit <=? 0 then hotLimit c else limit in
  cap (if limit <=? 0 then 200 else limit).

Definition selectLabelValuesFromIndex (c : config) (orgID labelName search : string)
    (offset limit : Z) (p : Proxy) : option (list string) * Proxy :=
  if negb (indexedCache c) then (None, p)
  else
    let limit := indexLimit c limit in
    let offset := if offset <? 0 then 0 else offset in
    let key := labelValuesIndexKey orgID labelName in
    let search := normalizeLabelValueSearch search in
    match labelValuesIndex p !! key with
    | None => (None, p)
    | Some index =>
        if (size (entries index) =? 0)%nat then (None, p)
        else
          let index := labelValueIndexEnsureOrderedLocked index in
          let p := setIndex key index p in
          if (length (ordered index) =? 0)%nat then (None, p)
          else (Some (pageLoop search offset limit 0 [] (ordered index)), p)
    end.

(** [ReloadTenantMap] and [ReloadFieldMappings]: the index is emptied. *)
Definition reload (p : Proxy) : Proxy := mkProxy ∅ true (persistDigest p).

(** ** Snapshots *)

Definition nonempty (m : values_map) : option values_map := if decide (m = ∅) then None else Some m.

Definition buildLabelValuesIndexSnapshot (now : Z) (p : Proxy) : labelValuesIndexSnapshot :=
  mkSnapshot 1 now (omap (λ s, nonempty (entries s)) (labelValuesIndex p)).

Definition blank (v : string) : bool := String.eqb (TrimSpace v) "".

(** The values that are not blank. *)
Definition solidValues (m : values_map) : values_map := filter (λ ve, blank ve.1 = false) m.

Definition restoredState (m : values_map) : option labelValuesIndexState :=
  option_map (λ m, mkState m true []) (nonempty (solidValues m)).

Definition applyLabelValuesIndexSnapshot (s : labelValuesIndexSnapshot) (p : Proxy) : Proxy :=
  mkProxy (omap restoredState (StatesByKey s)) false (persistDigest p).

Definition labelValuesIndexCardinality (p : Proxy) : nat * nat :=
  map_fold (λ _ s sv, if (size (entries s) =? 0)%nat then sv else (S sv.1, sv.2 + size (entries s))%nat)
    (0, 0)%nat (labelValuesIndex p).

Definition mergeLabelValuesIndexEntry (existing incoming : labelValueIndexEntry) : labelValueIndexEntry :=
  mkEntry (if SeenCount existing <? SeenCount incoming then SeenCount incoming else SeenCount existing)
          (if LastSeen existing <? LastSeen incoming then LastSeen incoming else LastSeen existing).

(** The values of one key. *)
Definition mergeValues (dst src : values_map) : values_map :=
  union_with (λ x y, Some (mergeLabelValuesIndexEntry x y)) dst (solidValues src).

(** One key of the destination under the same key of the source. *)
Definition mergeKey (dst src : option values_map) : option values_map :=
  match src with
  | None => dst
  | Some entries => if decide (entries = ∅) then dst else Some (mergeValues (default ∅ dst) entries)
  end.

Definition mergeLabelValuesIndexSnapshot (dst src : labelValuesIndexSnapshot) : labelValuesIndexSnapshot :=
  mkSnapshot (Version dst)
    (if SavedAtUnixNano dst <? SavedAtUnixNano src then SavedAtUnixNano src else SavedAtUnixNano dst)
    (merge mergeKey (StatesByKey dst) (StatesByKey src)).

(** ** Peers

    A peer answers with an error, with nothing or with a snapshot; the answers that arrive
    before the deadline are folded in the order in which they arrive. *)

Definition usable (minSavedAt : Z) (answer : option labelValuesIndexSnapshot) : option labelValuesIndexSnapshot :=
  match answer with
  | Some s => if (size (StatesByKey s) =? 0)%nat || (SavedAtUnixNano s <=? minSavedAt) then None else Some s
  | None => None
  end.

(** The merged snapshot, its time and whether a newer one was seen. *)
Record warming : Type := mkWarming {
  merged : labelValuesIndexSnapshot;
  mergedSavedAt : Z;
  sawNewer : bool
}.

Definition receive (minSavedAt : Z) (w : warming) (answer : option labelValuesIndexSnapshot) : warming :=
  match usable minSavedAt answer with
  | None => w
  | Some s =>
      mkWarming (mergeLabelValuesIndexSnapshot (merged w) s)
        (if mergedSavedAt w <? SavedAtUnixNano s then SavedAtUnixNano s else mergedSavedAt w) true
  end.

Definition restoreLabelValuesIndexFromPeers (c : config) (now minSavedAt : Z) (peers : nat)
    (arrived : list (option labelValuesIndexSnapshot)) (p : Proxy) : (bool * Z) * Proxy :=
  if negb (indexedCache c) || (peers =? 0)%nat then ((false, 0), p)
  else
    let w := foldl (receive minSavedAt)
               (mkWarming (buildLabelValuesIndexSnapshot now p) minSavedAt false) arrived in
    if sawNewer w then ((true, mergedSavedAt w), applyLabelValuesIndexSnapshot (merged w) p)
    else ((false, mergedSavedAt w), p).

(** ** The file

    A write to the file fails with an error or replaces its content. *)

Context `{SnapshotJson}.

Definition contentOf (s : labelValuesIndexSnapshot) : labelValuesIndexSnapshot :=
  mkSnapshot (Version s) 0 (StatesByKey s).

(** [sha256.Sum256(mustMarshalSnapshot(...))]; [None] is the panic. *)
Definition snapshotDigest (s : labelValuesIndexSnapshot) : option (list Z) :=
  match marshal (contentOf s) with
  | Ok text => Some (Sha256.sum_words text)
  | Err _ => None
  end.

(** [writeSnapshotFileIfChanged] (src/internal/proxy/patterns_persistence.go); [fault] is
    the error of the file system, if any. *)
Definition writeSnapshotFileIfChanged (fault : option string) (data : string) (digest : list Z)
    (p : Proxy) (disk : option string) : result (Proxy * option string) :=
  if bool_decide (persistDigest p = Some digest) then Ok (p, disk)
  else match fault with
       | Some e => Err e
       | None => Ok (mkProxy (labelValuesIndex p) (persistDirty p) (Some digest), Some data)
       end.

Definition persistable (c : config) : bool := indexedCache c && negb (blank (persistPath c)).

(** Whether a call has anything to do. *)
Definition persistWanted (c : config) (reason : string) (p : Proxy) : bool :=
  persistable c && (negb (String.eqb reason "periodic") || persistDirty p).

(** From the snapshot to the file. *)
Definition writeSnapshot (fault : option string) (s : labelValuesIndexSnapshot) (p : Proxy)
    (disk : option string) : result (Proxy * option string) :=
  match marshal s with
  | Err e => Err ("marshal label index snapshot: " +:+ e)
  | Ok data =>
      match snapshotDigest s with
      | None => Err "panic"
      | Some digest =>
          match writeSnapshotFileIfChanged fault data digest p disk with
          | Err e => Err ("persist label index snapshot: " +:+ e)
          | Ok r => Ok r
          end
      end
  end.

(** [p.labelValuesIndexPersistDirty.Store(false)]. *)
Definition clearDirty (p : Proxy) : Proxy := mkProxy (labelValuesIndex p) false (persistDigest p).

Definition persistLabelValuesIndexNow (c : config) (reason : string) (now : Z) (fault : option string)
    (p : Proxy) (disk : option string) : result (Proxy * option string) :=
  if negb (persistWanted c reason p) then Ok (p, disk)
  else match writeSnapshot fault (buildLabelValuesIndexSnapshot now p) p disk with
       | Err e => Err e
       | Ok (p, disk) => Ok (clearDirty p, disk)
       end.

(** The content of the file: absent, unreadable or a text. *)
Inductive file : Type :=
| NotExist
| Unreadable (err : string)
| Content (data : string).

Definition fileOf (disk : option string) : file :=
  match disk with
  | None => NotExist
  | Some data => Content data
  end.

Definition restoreLabelValuesIndexFromDisk (c : config) (f : file) (p : Proxy) : result ((bool * Z) * Proxy) :=
  if negb (persistable c) then Ok ((false, 0), p)
  else
    match f with
    | NotExist => Ok ((false, 0), p)
    | Unreadable e => Err ("read label index snapshot: " +:+ e)
    | Content data =>
        match unmarshal data with
        | Err e => Err ("decode label index snapshot: " +:+ e)
        | Ok s =>
            if negb (Version s =? 1)
            then Err ("unsupported label index snapshot version: " +:+ Itoa (Version s))
            else if SavedAtUnixNano s <=? 0
            then Err ("invalid label index snapshot timestamp: " +:+ Itoa (SavedAtUnixNano s))
            else
              let p := mkProxy (labelValuesIndex p) (persistDirty p) (snapshotDigest s) in
              Ok ((true, SavedAtUnixNano s), applyLabelValuesIndexSnapshot s p)
        end
    end.

(** How long the snapshot is kept for the peers in the local cache. *)
Definition snapshotTTL (c : config) : Z :=
  let ttl := wrap64 (startupStale c * 3) in
  let minTTL := wrap64 (persistInterval c * 2) in
  let ttl := if ttl <? minTTL then minTTL else ttl in
  if ttl <=? 0 then 5 * Minute else ttl.

(** [warmLabelValuesIndexOnStartup]: the file first, the peers when it is missing or
    stale, and a write of what the peers gave.  [arrived] is what [peers] peers sent
    before the deadline. *)
Definition warmLabelValuesIndexOnStartup (c : config) (now : Z) (f : file) (fault : option string)
    (peers : nat) (arrived : list (option labelValuesIndexSnapshot)) (p : Proxy)
    (disk : option string) : Proxy * option string :=
  let '(loaded, diskSavedAt, p) :=
    match restoreLabelValuesIndexFromDisk c f p with
    | Ok ((true, savedAt), p) => (true, savedAt, p)
    | Ok ((false, _), p) => (false, 0, p)
    | Err _ => (false, 0, p)
    end in
  if loaded && (time_sub now diskSavedAt <=? startupStale c) then (p, disk)
  else
    let '((ok, _), p) := restoreLabelValuesIndexFromPeers c now diskSavedAt peers arrived p in
    if ok then
      match persistLabelValuesIndexNow c "startup_peer_warm" now fault p disk with
      | Ok r => r
      | Err _ => (p, disk)
      end
    else (p, disk).

(** ** The handlers (src/internal/proxy/label_handlers.go, label_metadata.go)

    [fetch label query limit search] is the backend's answer; for [service_name] the
    limit and the search are not passed on. *)

Record valuesRequest : Type := mkRequest {
  rq_org : string;
  rq_label : string;
  rq_query : string;
  rq_limit : string;
  rq_offset : string;
  rq_search : string;
  rq_q : string
}.

Section Handlers.
Context (c : config) (fetch : string → string → string → string → result (list string)).

Definition searchOf (r : valuesRequest) : string :=
  if String.eqb (TrimSpace (rq_search r)) "" then rq_q r else rq_search r.

Definition limitOf (r : valuesRequest) : Z :=
  if String.eqb (rq_limit r) "" && negb (labelValuesBrowseMode (rq_query r)) then Cold.maxLimitValue
  else defaultLabelValuesLimit c (rq_limit r).

Definition fetchValues (r : valuesRequest) : result (list string) :=
  if String.eqb (rq_label r) "service_name" then fetch "service_name" (rq_query r) "" ""
  else fetch (rq_label r) (rq_query r) (rq_limit r) (searchOf r).

(** After the fetch: the page of the index in browse mode, the page of the values
    otherwise. *)
Definition pageOf (r : valuesRequest) (values : list string) (p : Proxy) : list string * Proxy :=
  let offset := parseNonNegativeInt (rq_offset r) 0 in
  if labelValuesBrowseMode (rq_query r) then
    match selectLabelValuesFromIndex c (rq_org r) (rq_label r) (searchOf r) offset (limitOf r) p with
    | (Some indexed, p) => (indexed, p)
    | (None, p) => (selectLabelValuesWindow values (searchOf r) offset (limitOf r), p)
    end
  else if String.eqb (rq_label r) "service_name" then (values, p)
  else if negb (String.eqb (searchOf r) "") || (0 <? offset) || negb (String.eqb (rq_limit r) "")
  then (selectLabelValuesWindow values (searchOf r) offset (limitOf r), p)
  else (values, p).

(** [handleLabelValues] once the response cache has missed; an error may still be answered
    from a stale entry of that cache. *)
Definition handleLabelValues (now : Z) (r : valuesRequest) (p : Proxy) : result (list string) * Proxy :=
  let offset := parseNonNegativeInt (rq_offset r) 0 in
  let '(indexed, p) :=
    if labelValuesBrowseMode (rq_query r)
    then selectLabelValuesFromIndex c (rq_org r) (rq_label r) (searchOf r) offset (limitOf r) p
    else (None, p) in
  match indexed with
  | Some values => (Ok values, p)
  | None =>
      match fetchValues r with
      | Err e => (Err e, p)
      | Ok values =>
          let p := updateLabelValuesIndex c now (rq_org r) (rq_label r) values p in
          let '(values, p) := pageOf r values p in
          (Ok values, p)
      end
  end.

(** [refreshLabelValuesCacheAsync]: what it stores under the key of the request, if
    anything. *)
Definition refreshLabelValuesCacheAsync (now : Z) (r : valuesRequest) (p : Proxy) :
    option (list string) * Proxy :=
  match fetchValues r with
  | Err _ => (None, p)
  | Ok values =>
      let p := updateLabelValuesIndex c now (rq_org r) (rq_label r) values p in
      let '(values, p) :=
        if labelValuesBrowseMode (rq_query r) then
          match selectLabelValuesFromIndex c (rq_org r) (rq_label r) "" 0
                  (defaultLabelValuesLimit c (rq_limit r)) p with
          | (Some indexed, p) => (indexed, p)
          | (None, p) => (values, p)
          end
        else (values, p) in
      (if (0 <? length values)%nat then Some values else None, p)
  end.

End Handlers.

(** ** The ranking *)

Lemma rank_asym m a b : before m a b = true → before m b a = false.
Proof.
  unfold before, labelValueIndexLess. zcases; cbn; try lia; try done.
  apply ltb_asym.
Qed.

Lemma before_total m a b : before m a b = false → before m b a = false → a = b.
Proof.
  unfold before, labelValueIndexLess. zcases; cbn; try lia; try done.
  apply ltb_trichotomy.
Qed.

Lemma rank_not_trans m : Transitive (no_greater (before m)).
Proof.
  intros a b c. unfold no_greater, before, labelValueIndexLess. zcases; cbn; try lia; try done.
  apply not_ltb_trans.
Qed.

Lemma keys_nodup (m : values_map) : NoDup (keys m).
Proof. apply NoDup_fst_map_to_list. Qed.

Lemma elem_of_keys (m : values_map) v : v ∈ keys m ↔ is_Some (m !! v).
Proof.
  unfold keys. rewrite list_elem_of_fmap. split.
  - intros ([w e] & -> & Hw%elem_of_map_to_list). by exists e.
  - intros [e He]. exists (v, e). split; [done|]. by apply elem_of_map_to_list.
Qed.

Lemma keys_length (m : values_map) : length (keys m) = size m.
Proof. unfold keys. by rewrite length_fmap, length_map_to_list. Qed.

Lemma ranking_perm m : ranking m ≡ₚ keys m.
Proof. apply SliceStable_perm. Qed.

Lemma ranking_sorted m : StronglySorted (no_greater (before m)) (ranking m).
Proof. apply SliceStable_sorted; [apply rank_asym|apply rank_not_trans]. Qed.

(** The ranking is the one sorted list of the values, in whatever order the map is
    walked. *)
Lemma ranking_unique m l : StronglySorted (no_greater (before m)) l → l ≡ₚ keys m → l = ranking m.
Proof.
  intros Hs Hp. apply (StronglySorted_unique_strong (no_greater (before m))).
  - intros x y _ _ Hx Hy. by apply (before_total m).
  - done.
  - apply ranking_sorted.
  - by rewrite Hp, ranking_perm.
Qed.

Lemma ranking_length m : length (ranking m) = size m.
Proof. by rewrite ranking_perm, keys_length. Qed.

Lemma ranking_nodup m : NoDup (ranking m).
Proof. rewrite ranking_perm. apply keys_nodup. Qed.

Lemma elem_of_ranking m v : v ∈ ranking m ↔ is_Some (m !! v).
Proof. by rewrite ranking_perm, elem_of_keys. Qed.

(** ** Pruning *)

Lemma pick_onto m keep (acc : values_map) v :
  foldl (λ acc v, <[v := entryOf m v]> acc) acc keep !! v =
    if decide (v ∈ keep) then Some (entryOf m v) else acc !! v.
Proof.
  revert acc. induction keep as [|w keep IH]; intros acc; cbn; [done|]. rewrite IH.
  destruct (decide (v = w)) as [->|Hne].
  - rewrite lookup_insert_eq. repeat case_decide; set_solver.
  - rewrite lookup_insert_ne by done. repeat case_decide; set_solver.
Qed.

Lemma pick_lookup m keep v :
  pick m keep !! v = if decide (v ∈ keep) then Some (entryOf m v) else None.
Proof. unfold pick. rewrite pick_onto. by rewrite lookup_empty. Qed.

Lemma entryOf_pick m keep v : v ∈ keep → entryOf (pick m keep) v = entryOf m v.
Proof. intros Hv. unfold entryOf at 1. rewrite pick_lookup. by rewrite decide_True. Qed.

Lemma keys_pick m keep : NoDup keep → keys (pick m keep) ≡ₚ keep.
Proof.
  intros Hk. apply NoDup_Permutation; [apply keys_nodup|done|]. intros v.
  rewrite elem_of_keys, pick_lookup. case_decide; split; try done; by intros [??].
Qed.

Lemma sorted_agree m m' l : Forall (λ v, entryOf m' v = entryOf m v) l →
  StronglySorted (no_greater (before m)) l → StronglySorted (no_greater (before m')) l.
Proof.
  intros Ha. induction 1 as [|v l Hs IH Hv]; [constructor|]. apply Forall_cons in Ha as [Ea Ha].
  constructor; [by apply IH|]. apply Forall_forall. intros w Hw. rewrite Forall_forall in Ha, Hv.
  specialize (Hv w Hw). unfold no_greater, before in *. by rewrite (Ha w Hw), Ea.
Qed.

Lemma sorted_take {A} (R : A → A → Prop) n l : StronglySorted R l → StronglySorted R (take n l).
Proof.
  intros Hs. revert n. induction Hs as [|x l Hs IH Hx]; intros [|n]; cbn; try constructor; [done|].
  by apply Forall_take.
Qed.

(** The values kept are ranked as before. *)
Lemma ranking_prune m n : ranking (pick m (take n (ranking m))) = take n (ranking m).
Proof.
  symmetry. assert (NoDup (take n (ranking m))) as Hnd.
  { eapply sublist_NoDup; [apply ranking_nodup|apply sublist_take]. }
  apply ranking_unique.
  - apply (sorted_agree m); [|apply sorted_take, ranking_sorted].
    apply Forall_forall. intros v Hv. by apply entryOf_pick.
  - by rewrite keys_pick.
Qed.

(** ** Pages *)

Lemma pageLoop_spec search offset limit seen out cands :
  0 ≤ offset → 0 ≤ seen ≤ offset → Z.of_nat (length out) < limit →
  pageLoop search offset limit seen out cands =
    out ++ take (Z.to_nat limit - length out)
             (drop (Z.to_nat (offset - seen)) (filter (λ v, wanted search v = true) cands)).
Proof.
  intros Ho. revert seen out. induction cands as [|v cands IH]; intros seen out Hs Hl; cbn [pageLoop].
  { by rewrite filter_nil, drop_nil, take_nil, app_nil_r. }
  rewrite filter_cons. destruct (wanted search v) eqn:E; cbn [negb].
  - rewrite decide_True by done. zcase.
    + rewrite IH by lia. by replace (Z.to_nat (offset - seen)) with (S (Z.to_nat (offset - (seen + 1)))) by lia.
    + replace (Z.to_nat (offset - seen)) with O by lia. rewrite drop_0. rewrite length_app. cbn [length].
      zcase.
      * replace (Z.to_nat limit - length out)%nat with 1%nat by lia. by cbn.
      * rewrite IH by (rewrite ?length_app; cbn [length]; lia).
        replace (Z.to_nat (offset - seen)) with O by lia. rewrite drop_0, length_app. cbn [length].
        replace (Z.to_nat limit - length out)%nat with (S (Z.to_nat limit - (length out + 1)))%nat by lia.
        cbn [take]. by rewrite <-app_assoc.
  - rewrite decide_False by done. by apply IH.
Qed.

(** The page a request asks for. *)
Definition page (search : string) (offset limit : Z) (l : list string) : list string :=
  take (Z.to_nat limit) (drop (Z.to_nat offset) (filter (λ v, wanted search v = true) l)).

Lemma cap_pos limit : 0 < limit → 0 < cap limit ≤ Cold.maxLimitValue.
Proof. unfold cap, Cold.maxLimitValue. intros. zcase; lia. Qed.

Lemma indexLimit_pos c limit : 0 < indexLimit c limit ≤ Cold.maxLimitValue.
Proof. apply cap_pos. zcases. Qed.

Lemma pageLoop_page search offset limit cands : 0 < limit →
  pageLoop search (if offset <? 0 then 0 else offset) limit 0 [] cands = page search offset limit cands.
Proof.
  intros Hl. rewrite pageLoop_spec by (cbn; zcases). unfold page. cbn [length app]. rewrite Nat.sub_0_r.
  do 2 f_equal. zcases.
Qed.

Lemma window_page values search offset limit :
  selectLabelValuesWindow values search offset limit =
  page (normalizeLabelValueSearch search) offset (cap (if limit <=? 0 then Cold.maxLimitValue else limit)) values.
Proof. unfold selectLabelValuesWindow. apply pageLoop_page, cap_pos. unfold Cold.maxLimitValue. zcases. Qed.

(** ** The invariant

    Counters fit a uint32, and an order that is not marked dirty is the ranking. *)

Definition entry_ok (e : labelValueIndexEntry) : Prop := 0 ≤ SeenCount e ≤ maxSeen.

Definition state_ok (s : labelValuesIndexState) : Prop :=
  map_Forall (λ _ e, entry_ok e) (entries s) ∧
  (dirty s = false → ordered s ≠ [] → ordered s = ranking (entries s)).

Definition index_ok (p : Proxy) : Prop := map_Forall (λ _ s, state_ok s) (labelValuesIndex p).

Definition snapshot_ok (s : labelValuesIndexSnapshot) : Prop :=
  map_Forall (λ _ m, map_Forall (λ _ e, entry_ok e) m) (StatesByKey s).

Lemma ensureOrdered_ok s : state_ok s → state_ok (labelValueIndexEnsureOrderedLocked s).
Proof.
  intros [He Ho]. unfold labelValueIndexEnsureOrderedLocked. destruct (_ && _); [by split|]. by split.
Qed.

(** Once ordered, the order is the ranking. *)
Lemma ensureOrdered_ranking s : state_ok s →
  labelValueIndexEnsureOrderedLocked s =
    mkState (entries s) false (ranking (entries s)).
Proof.
  intros [_ Ho]. unfold labelValueIndexEnsureOrderedLocked. destruct (_ && _) eqn:E; [|done].
  apply andb_true_iff in E as [Ed%negb_true_iff El%Nat.ltb_lt]. destruct s as [m d o]; cbn in *. subst d.
  rewrite Ho; [done|done|]. by destruct o; [cbn in El; lia|].
Qed.

Lemma touch_ok now e : entry_ok e → entry_ok (touch now e).
Proof. unfold entry_ok, touch, maxSeen. cbn. intros. zcases. Qed.

Lemma entryOf_ok m v : map_Forall (λ _ e, entry_ok e) m → entry_ok (entryOf m v).
Proof.
  intros Hm. unfold entryOf. destruct (m !! v) as [e|] eqn:E; cbn; [by eapply Hm|].
  unfold entry_ok, maxSeen. cbn. lia.
Qed.

Lemma observe_ok now values m b : map_Forall (λ _ e, entry_ok e) m →
  map_Forall (λ _ e, entry_ok e) (observe now values m b).1.
Proof.
  revert m b. induction values as [|v values IH]; intros m b Hm; cbn [observe]; [done|].
  apply IH, map_Forall_insert_2; [|done]. by apply touch_ok, entryOf_ok.
Qed.

Lemma pick_ok m keep : map_Forall (λ _ e, entry_ok e) m → map_Forall (λ _ e, entry_ok e) (pick m keep).
Proof.
  intros Hm v e. rewrite pick_lookup. case_decide; [|done]. intros [= <-]. by apply entryOf_ok.
Qed.

Lemma prune_ok n m : map_Forall (λ _ e, entry_ok e) m →
  state_ok (prune n (mkState m false (ranking m))).
Proof.
  intros Hm. split; cbn; [by apply pick_ok|]. intros _ _. by rewrite ranking_prune.
Qed.

Lemma setIndex_ok key st p : state_ok st → index_ok p → index_ok (setIndex key st p).
Proof. intros Hs Hp. by apply map_Forall_insert_2. Qed.

Lemma setDirty_ok b p : index_ok (setDirty b p) ↔ index_ok p.
Proof. done. Qed.

Lemma dirty_ok m o : map_Forall (λ _ e, entry_ok e) m → state_ok (mkState m true o).
Proof. by split. Qed.

(** The state a key starts an update with. *)
Definition stateAt (key : string) (p : Proxy) : labelValuesIndexState :=
  default (mkState ∅ false []) (labelValuesIndex p !! key).

Lemma stateAt_ok key p : index_ok p → state_ok (stateAt key p).
Proof.
  intros Hp. unfold stateAt. destruct (labelValuesIndex p !! key) as [s|] eqn:E; cbn; [by eapply Hp|].
  split; [apply map_Forall_empty|done].
Qed.

(** What an update makes of the entries of its key: all of them, or the best. *)
Definition kept (c : config) (m : values_map) : values_map :=
  if (maxEntries c <=? 0) || (Z.of_nat (size m) <=? maxEntries c) then m
  else pick m (take (Z.to_nat (maxEntries c)) (ranking m)).

Lemma update_state c now org label values p : indexedCache c = true → values ≠ [] →
  ∃ st b, updateLabelValuesIndex c now org label values p =
    setDirty b (setIndex (labelValuesIndexKey org label) st p) ∧
  entries st = kept c (observe now values (entries (stateAt (labelValuesIndexKey org label) p)) false).1 ∧
  (map_Forall (λ _ e, entry_ok e) (entries (stateAt (labelValuesIndexKey org label) p)) → state_ok st).
Proof.
  intros Hc Hv. unfold updateLabelValuesIndex, stateAt. rewrite Hc. destruct values as [|v0 values]; [done|].
  cbn [length negb orb Nat.eqb]. set (key := labelValuesIndexKey org label). set (vs := v0 :: values).
  set (start := match labelValuesIndex p !! key with Some _ => _ | None => _ end).
  assert (start = (default (mkState ∅ false []) (labelValuesIndex p !! key), start.2)) as ->.
  { unfold start. by destruct (labelValuesIndex p !! key). }
  set (m0 := entries _).
  assert (∀ b, observe now vs m0 b = ((observe now vs m0 false).1, (observe now vs m0 b).2)) as ->.
  { clearbody m0 vs. intros b. rewrite (surjective_pairing (observe now vs m0 b)) at 1. f_equal.
    generalize false as b'. revert m0 b. induction vs as [|v vs IH]; intros; cbn; [done|apply IH]. }
  unfold kept. set (m := (observe now vs m0 false).1).
  assert (map_Forall (λ _ e, entry_ok e) m0 → map_Forall (λ _ e, entry_ok e) m) as Hm by apply observe_ok.
  destruct (_ || _) eqn:E.
  { eexists _, _. split; [done|]. split; [done|]. intros Ho. by apply dirty_ok, Hm. }
  cbn [labelValueIndexEnsureOrderedLocked dirty negb andb entries ordered]. rewrite ranking_length.
  apply orb_false_iff in E as [_ E]. rewrite E.
  eexists _, _. split; [done|]. split; [done|]. intros Ho. by apply prune_ok, Hm.
Qed.

Lemma update_ok c now org label values p : index_ok p →
  index_ok (updateLabelValuesIndex c now org label values p).
Proof.
  intros Hp. destruct (indexedCache c) eqn:Hc; [|unfold updateLabelValuesIndex; by rewrite Hc].
  destruct (decide (values = [])) as [->|Hv]; [unfold updateLabelValuesIndex; by rewrite Hc|].
  destruct (update_state c now org label values p Hc Hv) as (st & b & -> & _ & Hst).
  apply setDirty_ok, setIndex_ok; [|done]. by apply Hst, (stateAt_ok _ _ Hp).
Qed.

Lemma select_ok c org label search offset limit p : index_ok p →
  index_ok (selectLabelValuesFromIndex c org label search offset limit p).2.
Proof.
  intros Hp. unfold selectLabelValuesFromIndex. destruct (indexedCache c); cbn [negb]; [|done].
  destruct (labelValuesIndex p !! _) as [s|] eqn:E; [|done]. destruct (_ =? _)%nat; [done|].
  assert (index_ok (setIndex (labelValuesIndexKey org label) (labelValueIndexEnsureOrderedLocked s) p)) as Hi.
  { apply setIndex_ok; [|done]. apply ensureOrdered_ok. by eapply Hp. }
  by destruct (_ =? _)%nat.
Qed.

Lemma solid_ok (m : values_map) : map_Forall (λ _ e, entry_ok e) m → map_Forall (λ _ e, entry_ok e) (solidValues m).
Proof. intros Hm v e [He _]%map_lookup_filter_Some. by eapply Hm. Qed.

Lemma apply_ok s p : snapshot_ok s → index_ok (applyLabelValuesIndexSnapshot s p).
Proof.
  intros Hs key st. cbn. rewrite lookup_omap. destruct (StatesByKey s !! key) as [m|] eqn:E; cbn; [|done].
  unfold restoredState, nonempty. case_decide; [done|]. intros [= <-]. apply dirty_ok, solid_ok. by eapply Hs.
Qed.

(** ** Reachable states

    The handlers and the loops of the proxy, one critical section each. *)

Inductive step (c : config) : Proxy → Proxy → Prop :=
| step_update now org label values p :
    step c p (updateLabelValuesIndex c now org label values p)
| step_select org label search offset limit p :
    step c p (selectLabelValuesFromIndex c org label search offset limit p).2
| step_reload p : step c p (reload p)
| step_apply s p : snapshot_ok s → step c p (applyLabelValuesIndexSnapshot s p)
| step_clear p : step c p (clearDirty p)
| step_digest d p : step c p (mkProxy (labelValuesIndex p) (persistDirty p) d).

Definition fresh : Proxy := mkProxy ∅ false None.

Lemma step_ok c p p' : step c p p' → index_ok p → index_ok p'.
Proof.
  destruct 1; intros Hp; [by apply update_ok|by apply select_ok|apply map_Forall_empty|by apply apply_ok|done..].
Qed.

Lemma reachable_ok c p : rtc (step c) fresh p → index_ok p.
Proof.
  intros Hr. cut (index_ok fresh); [|apply map_Forall_empty]. induction Hr as [|x y z Hxy _ IH]; [done|].
  intros Hx. by apply IH, (step_ok c x).
Qed.

(** The values recorded for a label. *)
Definition recorded (org label : string) (p : Proxy) : values_map :=
  entries (stateAt (labelValuesIndexKey org label) p).

Lemma select_page c org label search offset limit p : index_ok p → indexedCache c = true →
  (selectLabelValuesFromIndex c org label search offset limit p).1 =
    if decide (recorded org label p = ∅) then None
    else Some (page (normalizeLabelValueSearch search) offset (indexLimit c limit) (ranking (recorded org label p))).
Proof.
  intros Hp Hc. unfold selectLabelValuesFromIndex, recorded, stateAt. rewrite Hc. cbn [negb].
  destruct (labelValuesIndex p !! _) as [s|] eqn:E; cbn [default from_option id]; [|by rewrite decide_True].
  destruct (Nat.eqb_spec (size (entries s)) 0) as [Hz|Hz].
  { rewrite decide_True; [done|]. by apply map_size_empty_iff. }
  rewrite decide_False by (intros He; rewrite He, map_size_empty in Hz; done).
  rewrite ensureOrdered_ranking by (by eapply Hp). cbn [ordered]. rewrite ranking_length.
  rewrite (proj2 (Nat.eqb_neq _ _)) by done. cbn [fst]. f_equal. apply pageLoop_page, indexLimit_pos.
Qed.

(** Reading changes no entry. *)
Lemma select_keeps c org label search offset limit p key :
  entries (stateAt key (selectLabelValuesFromIndex c org label search offset limit p).2) = entries (stateAt key p).
Proof.
  unfold selectLabelValuesFromIndex. destruct (indexedCache c); cbn [negb]; [|done].
  destruct (labelValuesIndex p !! _) as [s|] eqn:E; [|done]. destruct (_ =? _)%nat; [done|].
  set (q := setIndex _ _ p). assert (entries (stateAt key q) = entries (stateAt key p)) as Hq.
  { unfold q, stateAt. cbn. destruct (decide (labelValuesIndexKey org label = key)) as [<-|Hne].
    - rewrite lookup_insert_eq, E. cbn. unfold labelValueIndexEnsureOrderedLocked. by destruct (_ && _).
    - by rewrite lookup_insert_ne. }
  by destruct (_ =? _)%nat.
Qed.

(** C33 Whatever updates, reads, reloads, restores and writes came before, in any order, a
    read of the index returns the page that was asked for of the recorded values, ranked
    by how often and how lately they were seen and then by name; the cached order is never
    stale, and reading changes nothing that is recorded. *)
Theorem index_reads_ranking (c : config) (p : Proxy) (org label search : string) (offset limit : Z) :
  indexedCache c = true → rtc (step c) fresh p →
  (selectLabelValuesFromIndex c org label search offset limit p).1 =
    (if decide (recorded org label p = ∅) then None
     else Some (page (normalizeLabelValueSearch search) offset (indexLimit c limit) (ranking (recorded org label p)))) ∧
  (∀ org' label', recorded org' label' (selectLabelValuesFromIndex c org label search offset limit p).2 =
                  recorded org' label' p).
Proof.
  intros Hc Hr. split; [apply select_page; [by eapply reachable_ok|done]|]. intros. apply select_keeps.
Qed.

(** ** The bound *)

Lemma recorded_update c now org label values p : indexedCache c = true → values ≠ [] →
  recorded org label (updateLabelValuesIndex c now org label values p) =
  kept c (observe now values (recorded org label p) false).1.
Proof.
  intros Hc Hv. destruct (update_state c now org label values p Hc Hv) as (st & b & -> & He & _).
  unfold recorded, stateAt at 1. cbn. rewrite lookup_insert_eq. exact He.
Qed.

Lemma pick_subseteq m n : pick m (take n (ranking m)) ⊆ m.
Proof.
  apply map_subseteq_spec. intros v e. rewrite pick_lookup. case_decide as Hv; [|done].
  assert (v ∈ ranking m) as [e' He']%elem_of_ranking.
  { rewrite <-(take_drop n (ranking m)). set_solver. }
  unfold entryOf. rewrite He'. cbn. by intros [= ->].
Qed.

Lemma pick_size m keep : NoDup keep → size (pick m keep) = length keep.
Proof. intros Hk. by rewrite <-keys_length, keys_pick. Qed.

(** Whatever is dropped ranks behind whatever is kept. *)
Lemma prefix_best m n v w : v ∈ take n (ranking m) → w ∈ ranking m → w ∉ take n (ranking m) →
  before m v w = true.
Proof.
  intros Hv Hw Hn. pose proof (ranking_sorted m) as Hs. rewrite <-(take_drop n (ranking m)) in Hs, Hw.
  assert (w ∈ drop n (ranking m)) as Hd by set_solver.
  pose proof (StronglySorted_app_1_elem_of _ _ _ v w Hs Hv Hd) as Hg. unfold no_greater in Hg.
  destruct (before m v w) eqn:E; [done|]. by rewrite (before_total m v w E Hg) in Hv.
Qed.

Lemma update_best (c : config) (now : Z) (org label : string) (values : list string) (p : Proxy) :
  indexedCache c = true → values ≠ [] → 0 < maxEntries c →
  let m := (observe now values (recorded org label p) false).1 in
  let m' := recorded org label (updateLabelValuesIndex c now org label values p) in
  m' ⊆ m ∧ Z.of_nat (size m') = Z.min (Z.of_nat (size m)) (maxEntries c) ∧
  (∀ v w, is_Some (m' !! v) → is_Some (m !! w) → m' !! w = None → before m v w = true).
Proof.
  intros Hc Hv Hb m m'. unfold m'. rewrite recorded_update by done. fold m. unfold kept.
  rewrite (proj2 (Z.leb_gt (maxEntries c) 0)) by lia. cbn [orb]. zcase.
  { split; [done|]. split; [lia|]. intros v w _ [e He] Hn. congruence. }
  split; [apply pick_subseteq|]. assert (NoDup (take (Z.to_nat (maxEntries c)) (ranking m))) as Hnd.
  { eapply sublist_NoDup; [apply ranking_nodup|apply sublist_take]. }
  split.
  - rewrite pick_size, length_take, ranking_length by done. lia.
  - intros v w [e He] Hw Hn. rewrite pick_lookup in He, Hn. repeat case_decide; try done.
    eapply prefix_best; [done|by apply elem_of_ranking|done].
Qed.

(** A full index whose values have all been seen twice admits no new value, however often
    it is seen: a new value has a count of one, is dropped at once, and starts again. *)
Lemma full_index_admits_nothing (c : config) (now : Z) (org label v : string) (p : Proxy) :
  indexedCache c = true → 0 < maxEntries c → Z.of_nat (size (recorded org label p)) = maxEntries c →
  map_Forall (λ _ e, 2 ≤ SeenCount e) (recorded org label p) → recorded org label p !! v = None →
  recorded org label (updateLabelValuesIndex c now org label [v] p) = recorded org label p.
Proof.
  intros Hc Hb Hf H2 Hv. set (m := recorded org label p) in *.
  destruct (update_best c now org label [v] p Hc ltac:(done) Hb) as (Hsub & Hsz & Hbest).
  fold m in Hsub, Hsz, Hbest. cbn in Hsub, Hsz, Hbest. set (m' := recorded _ _ (updateLabelValuesIndex _ _ _ _ _ _)) in *.
  unfold entryOf in *. rewrite Hv in *. cbn in *. set (m1 := <[v:=_]> m) in *.
  assert (size m1 = S (size m)) as Hs1 by (by apply map_size_insert_None).
  assert (m' !! v = None) as Hvn.
  { destruct (m' !! v) as [e|] eqn:E; [|done]. exfalso.
    assert (∃ w, is_Some (m !! w) ∧ m' !! w = None) as (w & [ew Hw] & Hn).
    { destruct (decide (map_Forall (λ w _, is_Some (m' !! w)) m)) as [Hall|Hex].
      - exfalso. assert (dom m1 ⊆ dom m') as Hd.
        { intros w. rewrite !elem_of_dom. unfold m1. intros [e' He'].
          destruct (decide (v = w)) as [<-|Hne]; [by exists e|]. rewrite lookup_insert_ne in He' by done.
          by eapply Hall. }
        apply subseteq_size in Hd. rewrite !size_dom in Hd. lia.
      - apply map_not_Forall in Hex as (w & e' & He' & Hn); [|apply _].
        exists w. split; [by exists e'|]. by apply eq_None_not_Some. }
    assert (v ≠ w) as Hne by congruence.
    specialize (Hbest v w). unfold before, labelValueIndexLess, entryOf in Hbest.
    unfold m1 in Hbest. rewrite lookup_insert_eq, lookup_insert_ne, Hw in Hbest by done. cbn in Hbest.
    specialize (H2 w ew Hw). cbn in H2.
    specialize (Hbest ltac:(by exists e) ltac:(by exists ew) Hn). 
    rewrite (proj2 (Z.eqb_neq _ _)) in Hbest by lia. cbn [negb] in Hbest. apply Z.ltb_lt in Hbest. lia. }
  assert (m' ⊆ m) as Hsub'.
  { apply map_subseteq_spec. intros w e Hw. destruct (decide (v = w)) as [<-|Hne]; [congruence|].
    apply (lookup_weaken _ m1) in Hw; [|done]. unfold m1 in Hw. by rewrite lookup_insert_ne in Hw. }
  apply map_subseteq_size_eq; [done|]. lia.
Qed.

(** An update keeps the index within its bound: with room for all, every value is kept;
    otherwise exactly the bound is kept, the entries are those of the update, and every
    value kept ranks before every value dropped. *)
Theorem update_keeps_best (c : config) (now : Z) (org label : string) (values : list string) (p : Proxy) :
  indexedCache c = true → values ≠ [] → 0 < maxEntries c →
  let m := (observe now values (recorded org label p) false).1 in
  let m' := recorded org label (updateLabelValuesIndex c now org label values p) in
  m' ⊆ m ∧ Z.of_nat (size m') = Z.min (Z.of_nat (size m)) (maxEntries c) ∧
  (∀ v w, is_Some (m' !! v) → is_Some (m !! w) → m' !! w = None → before m v w = true).
Proof. apply update_best. Qed.

(** ** Merging *)

Lemma mergeEntry_max x y :
  mergeLabelValuesIndexEntry x y =
  mkEntry (Z.max (SeenCount x) (SeenCount y)) (Z.max (LastSeen x) (LastSeen y)).
Proof. unfold mergeLabelValuesIndexEntry. f_equal; zcases. Qed.

Lemma mergeValues_lookup dst src v :
  mergeValues dst src !! v =
    union_with (λ x y, Some (mergeLabelValuesIndexEntry x y)) (dst !! v) (solidValues src !! v).
Proof. unfold mergeValues. by rewrite lookup_union_with. Qed.

Lemma mergeValues_comm d a b : mergeValues (mergeValues d a) b = mergeValues (mergeValues d b) a.
Proof.
  apply map_eq. intros v. rewrite !mergeValues_lookup.
  destruct (d !! v), (solidValues a !! v), (solidValues b !! v); cbn; try done;
    rewrite !mergeEntry_max; cbn; do 2 f_equal; lia.
Qed.

Lemma mergeKey_comm d a b : mergeKey (mergeKey d a) b = mergeKey (mergeKey d b) a.
Proof.
  unfold mergeKey. destruct a as [a|], b as [b|]; try done; repeat case_decide; try done.
  f_equal. cbn. apply mergeValues_comm.
Qed.

Lemma merge_lookup (d a : gmap string values_map) k : merge mergeKey d a !! k = mergeKey (d !! k) (a !! k).
Proof. rewrite lookup_merge. by destruct (d !! k), (a !! k). Qed.

Lemma mergeSnapshot_comm d a b :
  mergeLabelValuesIndexSnapshot (mergeLabelValuesIndexSnapshot d a) b =
  mergeLabelValuesIndexSnapshot (mergeLabelValuesIndexSnapshot d b) a.
Proof.
  unfold mergeLabelValuesIndexSnapshot. cbn. f_equal; [zcases|]. apply map_eq. intros k.
  rewrite !merge_lookup. apply mergeKey_comm.
Qed.

Lemma receive_comm min w a b : receive min (receive min w a) b = receive min (receive min w b) a.
Proof.
  unfold receive. destruct (usable min a), (usable min b); try done. cbn. f_equal; [|zcases].
  apply mergeSnapshot_comm.
Qed.

(** Every entry is still there, with counters at least as high. *)
Definition grown (m m' : values_map) : Prop := ∀ v e, m !! v = Some e →
  ∃ e', m' !! v = Some e' ∧ SeenCount e ≤ SeenCount e' ∧ LastSeen e ≤ LastSeen e'.

Definition covers (src dst : labelValuesIndexSnapshot) : Prop := ∀ k m, StatesByKey src !! k = Some m →
  m ≠ ∅ → ∃ m', StatesByKey dst !! k = Some m' ∧ grown (solidValues m) m'.

Lemma merged_left d a : ∀ v e, d !! v = Some e → ∃ e', mergeValues d a !! v = Some e' ∧
  SeenCount e ≤ SeenCount e' ∧ LastSeen e ≤ LastSeen e'.
Proof.
  intros v e He. rewrite mergeValues_lookup, He. destruct (solidValues a !! v); cbn; [|by eexists].
  eexists. split; [done|]. rewrite mergeEntry_max. cbn. lia.
Qed.

Lemma merged_right d a : grown (solidValues a) (mergeValues d a).
Proof.
  intros v e He. rewrite mergeValues_lookup, He. destruct (d !! v); cbn; [|by eexists].
  eexists. split; [done|]. rewrite mergeEntry_max. cbn. lia.
Qed.

Lemma merge_covers_src d a : covers a (mergeLabelValuesIndexSnapshot d a).
Proof.
  intros k m Hm Hne. cbn. rewrite merge_lookup, Hm. cbn. rewrite decide_False by done.
  eexists. split; [done|]. apply merged_right.
Qed.

Lemma merge_covers_dst x d a : covers x d → covers x (mergeLabelValuesIndexSnapshot d a).
Proof.
  intros Hc k m Hm Hne. destruct (Hc k m Hm Hne) as (m' & Hm' & Hg). cbn. rewrite merge_lookup, Hm'. unfold mergeKey.
  destruct (StatesByKey a !! k) as [ma|]; [case_decide|]; try by exists m'.
  eexists. split; [done|]. intros v e He. destruct (Hg v e He) as (e1 & He1 & ? & ?).
  destruct (merged_left m' ma v e1 He1) as (e2 & He2 & ? & ?). exists e2. cbn. split; [done|]. lia.
Qed.

Lemma received_covers min arrived w x :
  covers x (merged w) ∨ (∃ a, a ∈ arrived ∧ usable min a = Some x) →
  covers x (merged (foldl (receive min) w arrived)).
Proof.
  revert w. induction arrived as [|a arrived IH]; intros w [Hx|(a' & Ha & Hu)]; cbn; [done|set_solver| |].
  - apply IH. left. unfold receive. destruct (usable min a); [|done]. by apply merge_covers_dst.
  - apply IH. apply elem_of_cons in Ha as [->|Ha]; [|by right; exists a']. left. unfold receive. rewrite Hu.
    apply merge_covers_src.
Qed.

Lemma sawNewer_iff min arrived w :
  sawNewer (foldl (receive min) w arrived) = sawNewer w || existsb (λ a, bool_decide (is_Some (usable min a))) arrived.
Proof.
  revert w. induction arrived as [|a arrived IH]; intros w; cbn; [by rewrite orb_false_r|]. rewrite IH.
  unfold receive. destruct (usable min a) as [x|]; cbn; [|done]. by rewrite orb_true_r.
Qed.

Lemma restored_lookup s p k m : StatesByKey s !! k = Some m → solidValues m ≠ ∅ →
  labelValuesIndex (applyLabelValuesIndexSnapshot s p) !! k = Some (mkState (solidValues m) true []).
Proof.
  intros Hm Hne. cbn. rewrite lookup_omap, Hm. cbn. unfold restoredState, nonempty. by rewrite decide_False.
Qed.

(** C34 Warming the index from the peers does not depend on the order in which their answers
    arrive, and loses nothing: every value that is not blank of every snapshot newer than
    the own file is afterwards in the index, with a count and a time no lower than the
    snapshot's. *)
Theorem peers_any_order (c : config) (now minSavedAt : Z) (peers : nat)
    (arrived arrived' : list (option labelValuesIndexSnapshot)) (p : Proxy) :
  indexedCache c = true → (0 < peers)%nat → arrived ≡ₚ arrived' →
  restoreLabelValuesIndexFromPeers c now minSavedAt peers arrived p =
    restoreLabelValuesIndexFromPeers c now minSavedAt peers arrived' p ∧
  (∀ s k m v e, Some s ∈ arrived → usable minSavedAt (Some s) = Some s →
     StatesByKey s !! k = Some m → m !! v = Some e → blank v = false →
     ∃ st e', labelValuesIndex (restoreLabelValuesIndexFromPeers c now minSavedAt peers arrived p).2 !! k = Some st ∧
       entries st !! v = Some e' ∧ SeenCount e ≤ SeenCount e' ∧ LastSeen e ≤ LastSeen e').
Proof.
  intros Hc Hn Hp. unfold restoreLabelValuesIndexFromPeers. rewrite Hc, (proj2 (Nat.eqb_neq _ _)) by lia.
  cbn [negb orb]. split; [by rewrite (foldl_comm _ arrived arrived' (receive_comm minSavedAt) Hp)|].
  intros s k m v e Hin Hu Hm Hv Hb. set (w := foldl _ _ _).
  assert (sawNewer w = true) as ->.
  { unfold w. rewrite sawNewer_iff. cbn. apply existsb_exists. exists (Some s). rewrite Hu.
    split; [by apply list_elem_of_In|]. by apply bool_decide_eq_true. }
  assert (covers s (merged w)) as Hcov by (apply received_covers; right; by exists (Some s)).
  destruct (Hcov k m Hm) as (m' & Hm' & Hg). { intros ->. by rewrite lookup_empty in Hv. }
  destruct (Hg v e) as (e' & He' & ? & ?). { by apply map_lookup_filter_Some. }
  assert (solidValues m' !! v = Some e') as Hs by (by apply map_lookup_filter_Some).
  exists (mkState (solidValues m') true []), e'. cbn [snd]. split; [|done]. apply restored_lookup; [done|].
  intros He. by rewrite He, lookup_empty in Hs.
Qed.

(** ** The file *)

Section File.
Context `{!SnapshotJsonLaws}.

Lemma textual_content s : textual s → textual (contentOf s).
Proof. intros (Hv & _ & Hm). split; [done|]. split; [|done]. unfold in_int64, MinInt64, MaxInt64. cbn. lia. Qed.

Lemma recorded_restored now p q org label :
  recorded org label (applyLabelValuesIndexSnapshot (buildLabelValuesIndexSnapshot now p) q) =
  solidValues (recorded org label p).
Proof.
  unfold recorded, stateAt. cbn. rewrite !lookup_omap. set (key := labelValuesIndexKey org label).
  destruct (labelValuesIndex p !! key) as [st|]; cbn; [|done]. unfold nonempty. case_decide as He; cbn.
  { by rewrite He. }
  unfold restoredState, nonempty. by case_decide as Hs; cbn.
Qed.

(** A file with a snapshot, read by a fresh process. *)
Lemma restore_snapshot c t s : persistable c = true → unmarshal t = Ok s → Version s = 1 → 0 < SavedAtUnixNano s →
  restoreLabelValuesIndexFromDisk c (Content t) fresh =
    Ok ((true, SavedAtUnixNano s), applyLabelValuesIndexSnapshot s (mkProxy ∅ false (snapshotDigest s))).
Proof.
  intros Hc Ht Hv Hs. unfold restoreLabelValuesIndexFromDisk. rewrite Hc, Ht, Hv. cbn [negb Z.eqb Pos.eqb].
  by rewrite (proj2 (Z.leb_gt _ _)).
Qed.

(** The digest in memory is that of the file. *)
Definition disk_matches (p : Proxy) (disk : option string) : Prop := ∀ d, persistDigest p = Some d →
  ∃ t s, disk = Some t ∧ unmarshal t = Ok s ∧ Version s = 1 ∧ 0 < SavedAtUnixNano s ∧
    textual s ∧ snapshotDigest s = Some d.

(** The two contents compared by their digests are no SHA-256 collision. *)
Definition no_collision (s : labelValuesIndexSnapshot) (disk : option string) : Prop := ∀ t old t1 t2,
  disk = Some t → unmarshal t = Ok old → marshal (contentOf old) = Ok t1 → marshal (contentOf s) = Ok t2 →
  Sha256.sum_words t1 = Sha256.sum_words t2 → t1 = t2.

(** The file holds the content of [s]. *)
Definition holds_content (s : labelValuesIndexSnapshot) (disk : option string) : Prop := ∃ t s',
  disk = Some t ∧ unmarshal t = Ok s' ∧ Version s' = 1 ∧ 0 < SavedAtUnixNano s' ∧
  StatesByKey s' = StatesByKey s.

Lemma write_holds s p disk : textual s → Version s = 1 → 0 < SavedAtUnixNano s →
  disk_matches p disk → no_collision s disk →
  ∃ p1 disk1, writeSnapshot None s p disk = Ok (p1, disk1) ∧ labelValuesIndex p1 = labelValuesIndex p ∧
    holds_content s disk1 ∧ disk_matches p1 disk1.
Proof.
  intros Ht Hv Hs Hd Hn. unfold writeSnapshot. destruct (marshal_unmarshal s Ht) as (t & E & Eu).
  destruct (marshal_unmarshal _ (textual_content s Ht)) as (t2 & E2 & E2u). rewrite E.
  assert (snapshotDigest s = Some (Sha256.sum_words t2)) as Hdig by (unfold snapshotDigest; by rewrite E2).
  rewrite Hdig. unfold writeSnapshotFileIfChanged. case_bool_decide as Hp.
  - destruct (Hd _ Hp) as (t0 & old & -> & Eold & Hvo & Hso & Hto & Hdo).
    eexists p, _. split; [done|]. split; [done|]. split; [|exact Hd].
    exists t0, old. split_and!; try done. unfold snapshotDigest in Hdo.
    destruct (marshal_unmarshal _ (textual_content old Hto)) as (t1 & E1 & E1u). rewrite E1 in Hdo.
    injection Hdo as Hsum. pose proof (Hn t0 old t1 t2 eq_refl Eold E1 E2 Hsum) as <-.
    rewrite E1u in E2u. by injection E2u.
  - eexists _, _. split; [done|]. split; [done|]. split; [by exists t, s|].
    intros d [= <-]. by exists t, s.
Qed.

Lemma content_restored c now p disk org label : persistable c = true →
  holds_content (buildLabelValuesIndexSnapshot now p) disk →
  ∃ savedAt p2, restoreLabelValuesIndexFromDisk c (fileOf disk) fresh = Ok ((true, savedAt), p2) ∧
    recorded org label p2 = solidValues (recorded org label p).
Proof.
  intros Hc (t & s & -> & Eu & Hv & Hs & Hst). eexists _, _. split; [by apply restore_snapshot|].
  rewrite <-(recorded_restored now p fresh). unfold recorded, stateAt. cbn. by rewrite Hst.
Qed.

(** A write of the index followed by a restart brings the index back: the write clears
    the request for a write and leaves the index alone, the file is read back by a fresh
    process, and for every tenant and label the values recorded are the ones written,
    blank ones apart.  This holds also when the write is skipped because the digest of the
    content is the one of the file. *)
Theorem index_persist_roundtrip (c : config) (reason : string) (now : Z) (p : Proxy) (disk : option string) :
  persistWanted c reason p = true → 0 < now → textual (buildLabelValuesIndexSnapshot now p) →
  disk_matches p disk → no_collision (buildLabelValuesIndexSnapshot now p) disk →
  ∃ p1 disk1, persistLabelValuesIndexNow c reason now None p disk = Ok (p1, disk1) ∧
    persistDirty p1 = false ∧ labelValuesIndex p1 = labelValuesIndex p ∧ disk_matches p1 disk1 ∧
    ∀ org label, ∃ savedAt p2,
      restoreLabelValuesIndexFromDisk c (fileOf disk1) fresh = Ok ((true, savedAt), p2) ∧
      recorded org label p2 = solidValues (recorded org label p).
Proof.
  intros Hw Hnow Ht Hd Hn. unfold persistLabelValuesIndexNow. rewrite Hw. cbn [negb].
  destruct (write_holds _ p disk Ht eq_refl Hnow Hd Hn) as (p1 & disk1 & -> & Hi & Hh & Hd1).
  eexists (clearDirty p1), disk1. split_and!; [done..|]. intros org label.
  eapply content_restored; [|done]. by apply andb_true_iff in Hw as [? _].
Qed.

(** An update between the snapshot and the end of the write is not in the file, and the
    request for a write that it made is cleared: the next periodic write does nothing. *)
Lemma update_during_write_lost (c : config) (now now' : Z) (org label : string) (values : list string)
    (p p1 : Proxy) (disk disk1 : option string) :
  persistable c = true → persistDigest p = None → 0 < now → textual (buildLabelValuesIndexSnapshot now p) →
  writeSnapshot None (buildLabelValuesIndexSnapshot now p)
    (updateLabelValuesIndex c now' org label values p) disk = Ok (p1, disk1) →
  labelValuesIndex (clearDirty p1) = labelValuesIndex (updateLabelValuesIndex c now' org label values p) ∧
  persistWanted c "periodic" (clearDirty p1) = false ∧
  ∃ savedAt p2, restoreLabelValuesIndexFromDisk c (fileOf disk1) fresh = Ok ((true, savedAt), p2) ∧
    recorded org label p2 = solidValues (recorded org label p).
Proof.
  intros Hc Hd Hnow Ht Hw.
  assert (persistDigest (updateLabelValuesIndex c now' org label values p) = None) as Hd'.
  { destruct (indexedCache c) eqn:Hi; [|unfold updateLabelValuesIndex; by rewrite Hi].
    destruct (decide (values = [])) as [->|Hv]; [unfold updateLabelValuesIndex; by rewrite Hi|].
    by destruct (update_state c now' org label values p Hi Hv) as (st & b & -> & _ & _). }
  assert (disk_matches (updateLabelValuesIndex c now' org label values p) None) as Hm by (intros d; congruence).
  assert (no_collision (buildLabelValuesIndexSnapshot now p) None) as Hn by done.
  destruct (write_holds _ _ None Ht eq_refl Hnow Hm Hn) as (q & dq & Eq & Hi & Hh & _).
  assert ((p1, disk1) = (q, dq)) as [= -> ->].
  { unfold writeSnapshot, writeSnapshotFileIfChanged in *. rewrite Hd' in *.
    destruct (marshal _); [|done]. destruct (snapshotDigest _); [|done]. rewrite bool_decide_eq_false_2 in * by done. congruence. }
  split; [done|]. split; [unfold persistWanted; by rewrite Hc|]. by eapply content_restored.
Qed.

End File.

End Index.
End LIdx.

(** ** Concrete runs *)

Module LIdxDemo.
Import Text Utf8 LIdx.

#[local] Instance ascii_case : Casing := ToLower.

(** A text form of snapshots that can be read back: the digits of a number that encodes
    the snapshot. *)
Fixpoint digits (p : positive) : string :=
  match p with
  | xH => ""
  | xO p => String "0" (digits p)
  | xI p => String "1" (digits p)
  end.

Fixpoint number (s : string) : positive :=
  match s with
  | "" => xH
  | String a s => if Ascii.eqb a "0" then xO (number s) else xI (number s)
  end.

Lemma number_digits p : number (digits p) = p.
Proof. induction p as [p IH|p IH|]; cbn; by rewrite ?IH. Qed.

Definition content : Type := Z * Z * gmap string (gmap string (Z * Z)).

Definition flatValues (m : gmap string labelValueIndexEntry) : gmap string (Z * Z) :=
  (λ e, (SeenCount e, LastSeen e)) <$> m.

Definition unflatValues (m : gmap string (Z * Z)) : gmap string labelValueIndexEntry :=
  (λ e, mkEntry e.1 e.2) <$> m.

Definition flat (s : labelValuesIndexSnapshot) : content :=
  (Version s, SavedAtUnixNano s, flatValues <$> StatesByKey s).

Definition unflat (x : content) : labelValuesIndexSnapshot := mkSnapshot x.1.1 x.1.2 (unflatValues <$> x.2).

Lemma unflat_values m : unflatValues (flatValues m) = m.
Proof.
  apply map_eq. intros v. unfold unflatValues, flatValues. rewrite !lookup_fmap.
  by destruct (m !! v) as [[]|].
Qed.

Lemma unflat_flat s : unflat (flat s) = s.
Proof.
  destruct s as [v t m]. unfold unflat, flat. cbn. f_equal. apply map_eq. intros k. rewrite !lookup_fmap.
  destruct (m !! k); cbn; by rewrite ?unflat_values.
Qed.

#[local] Instance encoded : SnapshotJson :=
  {| marshal s := Ok (digits (encode (flat s)));
     unmarshal t := match decode (number t) with Some x => Ok (unflat x) | None => Err "syntax" end |}.

#[local] Instance encoded_laws : SnapshotJsonLaws.
Proof. intros s _. eexists. split; [done|]. cbn. by rewrite number_digits, countable.decode_encode, unflat_flat. Qed.

Definition cfg : config := mkConfig true 200 2 "/data/index.json" Minute Hour.

(** Two values, one of them seen twice; a third that has to go. *)
Definition seen : Proxy := updateLabelValuesIndex cfg 7 "t" "pod" ["b"; "a"; "c"; "b"] fresh.

Lemma index_reads_ranking_witness :
  ((selectLabelValuesFromIndex cfg "t" "pod" "" 0 0 seen).1 =
     (if decide (recorded "t" "pod" seen = ∅) then None
      else Some (page (normalizeLabelValueSearch "") 0 (indexLimit cfg 0) (ranking (recorded "t" "pod" seen)))) ∧
   (∀ org' label', recorded org' label' (selectLabelValuesFromIndex cfg "t" "pod" "" 0 0 seen).2 =
                   recorded org' label' seen)) ∧
  (selectLabelValuesFromIndex cfg "t" "pod" "" 0 0 seen).1 = Some ["b"; "a"].
Proof.
  split; [|vm_compute; reflexivity].
  refine (index_reads_ranking cfg seen "t" "pod" "" 0 0 eq_refl _).
  eapply rtc_l; [apply step_update|apply rtc_refl].
Defined.

Lemma update_keeps_best_witness :
  let m := (observe 9 ["c"; "c"; "c"] (recorded "t" "pod" seen) false).1 in
  let m' := recorded "t" "pod" (updateLabelValuesIndex cfg 9 "t" "pod" ["c"; "c"; "c"] seen) in
  m' ⊆ m ∧ Z.of_nat (size m') = Z.min (Z.of_nat (size m)) (maxEntries cfg) ∧
  (∀ v w, is_Some (m' !! v) → is_Some (m !! w) → m' !! w = None → before m v w = true).
Proof. refine (update_keeps_best cfg 9 "t" "pod" ["c"; "c"; "c"] seen eq_refl _ _); [discriminate|reflexivity]. Defined.

(** A snapshot of a peer, with a value that is blank. *)
Definition peerSnapshot : labelValuesIndexSnapshot :=
  mkSnapshot 1 50 {[ "t|pod" := {[ "a" := mkEntry 9 3; " " := mkEntry 1 1 ]} ]}.

Lemma peers_any_order_witness :
  restoreLabelValuesIndexFromPeers cfg 60 10 2 [Some peerSnapshot; None] seen =
    restoreLabelValuesIndexFromPeers cfg 60 10 2 [None; Some peerSnapshot] seen ∧
  (∀ s k m v e, Some s ∈ [Some peerSnapshot; None] → usable 10 (Some s) = Some s →
     StatesByKey s !! k = Some m → m !! v = Some e → blank v = false →
     ∃ st e', labelValuesIndex (restoreLabelValuesIndexFromPeers cfg 60 10 2 [Some peerSnapshot; None] seen).2 !! k = Some st ∧
       entries st !! v = Some e' ∧ SeenCount e ≤ SeenCount e' ∧ LastSeen e ≤ LastSeen e').
Proof.
  refine (peers_any_order cfg 60 10 2 [Some peerSnapshot; None] [None; Some peerSnapshot] seen eq_refl _ _).
  - lia.
  - apply perm_swap.
Defined.

Lemma index_persist_roundtrip_witness :
  ∃ p1 disk1, persistLabelValuesIndexNow cfg "periodic" 60 None seen None = Ok (p1, disk1) ∧
    persistDirty p1 = false ∧ labelValuesIndex p1 = labelValuesIndex seen ∧ disk_matches p1 disk1 ∧
    ∀ org label, ∃ savedAt p2,
      restoreLabelValuesIndexFromDisk cfg (fileOf disk1) fresh = Ok ((true, savedAt), p2) ∧
      recorded org label p2 = solidValues (recorded org label seen).
Proof.
  refine (index_persist_roundtrip cfg "periodic" 60 seen None _ _ _ _ _).
  - vm_compute. reflexivity.
  - reflexivity.
  - unfold textual, entry_fits, in_int64. apply (bool_decide_unpack _). vm_compute. exact I.
  - intros d Hd. vm_compute in Hd. discriminate Hd.
  - intros t old t1 t2 Hd. discriminate Hd.
Defined.

(** ** What the handlers do with it *)

(** A backend with two pods, one of them in the selector's scope. *)
Definition pods (label query limit search : string) : result (list string) :=
  if String.eqb query "" then Ok ["web-1"; "db-1"] else Ok ["web-1"].

Definition browse (search : string) : valuesRequest := mkRequest "t" "pod" "" "" "" search "".
Definition scoped : valuesRequest := mkRequest "t" "pod" "{app=web}" "" "" "" "".

(** A request with a selector fills the index with the values of the selector; from then on
    a request without one is answered from the index, with these values only. *)
Lemma scoped_request_hides_values :
  let p := (handleLabelValues cfg pods 5 scoped fresh).2 in
  (handleLabelValues cfg pods 6 (browse "") p).1 = Ok ["web-1"] ∧
  (handleLabelValues cfg pods 6 (browse "") fresh).1 = Ok ["db-1"; "web-1"].
Proof. split; vm_compute; reflexivity. Qed.

(** The background refresh of a searched page stores the first page without the search
    under the key of the request. *)
Lemma refresh_replaces_page :
  let p := (handleLabelValues cfg pods 5 (browse "db") fresh).2 in
  (handleLabelValues cfg pods 5 (browse "db") fresh).1 = Ok ["db-1"] ∧
  (refreshLabelValuesCacheAsync cfg pods 6 (browse "db") p).1 = Some ["db-1"; "web-1"].
Proof. split; vm_compute; reflexivity. Qed.

End LIdxDemo.
