(* ===== verification/LogLine.v ===== *)
(** * The log line of a row
      (src/internal/proxy/log_line.go, loki_record.go, regexp_capture_fields.go,
       src/internal/translator/record.go)

    Loki stored the line the collector shipped; VictoriaLogs stores its fields.  A row
    without a message gets its line rebuilt as a JSON object of its fields; the size Loki
    counted for a row is re-derived either by the proxy, from the fields it reads, or by
    the backend, with a chain of pipes; exact duplicates are dropped as Loki's ingester
    drops them.

    A row of the fastjson parser is the list of its members in their order; a decoded row
    is a map.  A JSON value that is neither a string nor null is given by the texts the
    two libraries write for it. *)

From stdpp Require Import gmultiset.
From S2P Require Import Prelude GoText Utf8 LogqlScanner LogqlAst LogqlFilter LogqlPipeline LogqlParser.

#[local] Open Scope Z_scope.
#[local] Arguments String.append !_ _ /.

Module Line.
Import Text Utf8.

(** ** Rows *)

(** [Other plain text]: [plain] is fastjson's [MarshalTo], [text] what the stringify
    functions return ([String] of a number, encoding/json of a nested value). *)
Inductive value : Type :=
| Null
| Str (s : string)
| Other (plain text : string).

Definition row : Type := list (string * value).

Definition stringifyFJValue (v : value) : option string :=
  match v with
  | Null => None
  | Str s => Some s
  | Other _ text => Some text
  end.

(** [row.GetStringBytes("_msg")]: the first member of that name, when it is a string. *)
Fixpoint member (k : string) (r : row) : option value :=
  match r with
  | [] => None
  | (k', v) :: r => if String.eqb k' k then Some v else member k r
  end.

Definition msgOf (r : row) : string :=
  match member "_msg" r with
  | Some (Str s) => s
  | _ => ""
  end.

(** ** The rebuilt line *)

Definition vlDefaultMsgValue : string :=
  "missing _msg field; see https://docs.victoriametrics.com/victorialogs/keyconcepts/#message-field".

Definition isVLMissingMsg (msg defaultMsgValue : string) : bool :=
  String.eqb msg "" || String.eqb msg vlDefaultMsgValue ||
  (negb (String.eqb defaultMsgValue "") && String.eqb msg defaultMsgValue).

Definition lineWrittenByPipeline : string := "_msg".

Definition internalField (key : string) : bool :=
  String.eqb key "_time" || String.eqb key "_msg" || String.eqb key "_stream" || String.eqb key "_stream_id".

Definition skipLogLineField (key : string) (streamLabels : gmap string string) (pipelineFields : gset string) : bool :=
  internalField key || bool_decide (is_Some (streamLabels !! key)) || bool_decide (key ∈ pipelineFields).

(** One byte of a JSON string. *)
Definition jsonByte (a : Ascii.ascii) : string :=
  let c := b2z a in
  if (32 <=? c) && negb (Ascii.eqb a dquote) && negb (Ascii.eqb a bslash) then String a ""
  else if Ascii.eqb a dquote || Ascii.eqb a bslash then String bslash (String a "")
  else if c =? 10 then String bslash "n"
  else if c =? 13 then String bslash "r"
  else if c =? 9 then String bslash "t"
  else String bslash ("u00" +:+ hex 2 c).

Fixpoint jsonBytes (s : string) : string :=
  match s with
  | "" => ""
  | String a s => jsonByte a +:+ jsonBytes s
  end.

Definition appendLogLineJSONString (s : string) : string := String dquote (jsonBytes s +:+ String dquote "").

Definition pairText (kv : string * string) : string :=
  appendLogLineJSONString kv.1 +:+ ":" +:+ appendLogLineJSONString kv.2.

Definition encodeLogLine (fields : list (string * string)) : string :=
  match fields with
  | [] => ""
  | _ => "{" +:+ Join "," (map pairText fields) +:+ "}"
  end.

Definition byKey (a b : string * string) : bool := String.ltb a.1 b.1.

(** The text of a value in a rebuilt line. *)
Definition plainText (v : value) : string :=
  match v with
  | Null => ""
  | Str s => s
  | Other plain _ => plain
  end.

Definition lineField (streamLabels : gmap string string) (pipelineFields : gset string)
    (text : value → string) (kv : string * value) : option (string * string) :=
  if skipLogLineField kv.1 streamLabels pipelineFields then None
  else if String.eqb (text kv.2) "" then None
  else Some (kv.1, text kv.2).

Definition storedLogLineFromFJ (r : row) (streamLabels : gmap string string) (pipelineFields : gset string)
    (defaultMsgValue : string) : string :=
  let msg := msgOf r in
  if negb (isVLMissingMsg msg defaultMsgValue) || bool_decide (lineWrittenByPipeline ∈ pipelineFields) then msg
  else encodeLogLine (SliceStable byKey (omap (lineField streamLabels pipelineFields plainText) r)).

(** The text of a value of a decoded row; null counts as absent. *)
Definition entryText (v : value) : string := default "" (stringifyFJValue v).

Definition storedLogLineFromEntry (msg : string) (entry : gmap string value) (streamLabels : gmap string string)
    (pipelineFields : gset string) (defaultMsgValue : string) : string :=
  if negb (isVLMissingMsg msg defaultMsgValue) || bool_decide (lineWrittenByPipeline ∈ pipelineFields) then msg
  else encodeLogLine (SliceStable byKey (omap (lineField streamLabels pipelineFields entryText) (map_to_list entry))).

(** ** The fields a pipeline writes *)

Section Written.
Context `{Captures}.

(** The names a regexp stage captures. *)
Definition regexpNames (param : string) : list string :=
  match re_compile param with
  | Ok re => filter (λ n, n ≠ "") (re_names re)
  | Err _ => []
  end.

Definition pipelineRegexpCaptureFields (pipeline : list Ast.Stage) : gset string :=
  list_to_set (concat (map (λ st, match st with
                                  | Ast.ParserStage Ast.ParserRegexp param _ => regexpNames param
                                  | _ => []
                                  end) pipeline)).

Definition identStart (a : Ascii.ascii) : bool :=
  let c := b2z a in ((65 <=? c) && (c <=? 90)) || ((97 <=? c) && (c <=? 122)) || (c =? 95).

Definition identByte (a : Ascii.ascii) : bool := identStart a || ((48 <=? b2z a) && (b2z a <=? 57)).

(** A capture at the front of a text that follows [<]. *)
Definition captureAt (s : string) : option string :=
  match s with
  | "" => None
  | String a _ =>
      let '(name, rest) := span identByte s in
      if identStart a && starts_with (Ascii.eqb ">") rest then Some name else None
  end.

(** The identifiers between angle brackets ([patternCaptureRE]), from the left: a match
    contains no second opening bracket, so the search may go on behind its first byte. *)
Fixpoint patternCaptures (s : string) : list string :=
  match s with
  | "" => []
  | String a s =>
      match (if Ascii.eqb a "<" then captureAt s else None) with
      | Some name => name :: patternCaptures s
      | None => patternCaptures s
      end
  end.

Definition stageFields (st : Ast.Stage) : list string :=
  match st with
  | Ast.LineFormatStage _ | Ast.DecolorizeStage => [lineWrittenByPipeline]
  | Ast.ParserStage t param fields =>
      (match t with Ast.ParserPattern => patternCaptures param | _ => [] end) ++ map Ast.ef_Name fields
  | Ast.LabelFormatStage _ formats => map Ast.lf_Name formats
  | _ => []
  end.

Definition pipelineLineFields (pipeline : list Ast.Stage) : gset string :=
  pipelineRegexpCaptureFields pipeline ∪
  list_to_set (filter (λ n, n ≠ "" ∧ n ≠ "_") (concat (map stageFields pipeline))).

End Written.

(** ** The size of the stored line *)

Definition RecordWrapperBytes : Z := 88.
Definition RecordBytesField : string := "__lvp_bytes".
Definition RecordInternalFields : list string := ["_time"; "_stream"; "_stream_id"].

(** One pattern of the configured exclusions. *)
Definition excludes (pat key : string) : bool :=
  if HasSuffix pat "*" then HasPrefix key (prefix (String.length pat - 1) pat) else String.eqb key pat.

Definition recordFieldExcluded (key : string) (exclude : list string) : bool :=
  String.eqb key "_time" || String.eqb key "_stream" || String.eqb key "_stream_id" ||
  existsb (λ pat, excludes pat key) exclude.

(** The bytes a byte takes. *)
Definition quotedByteLen (a : Ascii.ascii) : Z :=
  let c := b2z a in
  if Ascii.eqb a dquote || Ascii.eqb a bslash || (c =? 10) || (c =? 13) || (c =? 9) || (c =? 8) || (c =? 12) then 2
  else if c <? 32 then 6
  else 1.

Fixpoint jsonQuotedLoop (s : string) : Z :=
  match s with
  | "" => 2
  | String a s => quotedByteLen a + jsonQuotedLoop s
  end.

Definition jsonQuotedLen (s : string) : Z := jsonQuotedLoop s.

Definition msgIsJSONLine (msg : string) : bool := starts_with (Ascii.eqb "{") msg.

Definition recordFieldLen (key value : string) : Z :=
  let key := if String.eqb key "_msg" then "message" else key in
  jsonQuotedLen key + 1 + jsonQuotedLen value.

Definition recordLineTotal (fieldBytes count : Z) : Z :=
  if count =? 0 then 0 else 2 + fieldBytes + (count - 1) + (RecordWrapperBytes - 3 - 1).

(** The fields that were in the line, with their texts. *)
Definition recordField (exclude : list string) (kv : string * value) : option (string * string) :=
  if recordFieldExcluded kv.1 exclude then None
  else option_map (λ s, (kv.1, s)) (stringifyFJValue kv.2).

Definition recordSum (fields : list (string * string)) : Z :=
  foldr (λ kv n, recordFieldLen kv.1 kv.2 + n) 0 fields.

Definition lokiRecordLineLenFJ (r : row) (exclude : list string) : Z :=
  if msgIsJSONLine (msgOf r) then len (msgOf r)
  else
    let fields := omap (recordField exclude) r in
    recordLineTotal (recordSum fields) (Z.of_nat (length fields)).

Definition lokiRecordLineLenMap (entry : gmap string value) (exclude : list string) : Z :=
  let msg := entryText (default Null (entry !! "_msg")) in
  if msgIsJSONLine msg then len msg
  else
    let fields := omap (recordField exclude) (map_to_list entry) in
    recordLineTotal (recordSum fields) (Z.of_nat (length fields)).

Record settings : Type := mkSettings {
  bytesSourceRecord : bool;
  recordExcludeFields : list string;
  lokiMaxLineSize : Z;
  dedupeExactDuplicates : bool
}.

(** The sample value of a bytes function, before it becomes a float64. *)
Definition rowLineBytesFJ (p : settings) (r : row) : Z :=
  if bytesSourceRecord p then lokiRecordLineLenFJ r (recordExcludeFields p) else len (msgOf r).

Definition rowOverMaxLineSizeFJ (p : settings) (r : row) : bool :=
  (0 <? lokiMaxLineSize p) && (lokiMaxLineSize p <? lokiRecordLineLenFJ r (recordExcludeFields p)).

(** ** The pipes that compute it *)

Definition RecordBytesPipes (exclude : list string) : string :=
  "| pack_json as __lvp_l | pack_json fields (" +:+ Join ", " (RecordInternalFields ++ exclude) +:+ ") as __lvp_x" +:+
  " | len(__lvp_l) as __lvp_a | len(__lvp_x) as __lvp_b" +:+
  " | math __lvp_a - __lvp_b + " +:+ Itoa RecordWrapperBytes +:+ " as " +:+ RecordBytesField +:+
  " | len(_msg) as __lvp_m | format if (_msg:~" +:+ String dquote "^[{]" +:+ String dquote ") " +:+
  String dquote "<__lvp_m>" +:+ String dquote " as " +:+ RecordBytesField +:+
  " | delete __lvp_l, __lvp_x, __lvp_a, __lvp_b, __lvp_m".

(** The end of the stream selector, or of the text. *)
Fixpoint selectorEnd (quote : option Ascii.ascii) (q : string) : nat :=
  match q with
  | "" => O
  | String c q' =>
      match quote with
      | Some e =>
          if Ascii.eqb c bslash && negb (Ascii.eqb e "`")
          then match q' with
               | "" => 1%nat
               | String _ q'' => S (S (selectorEnd quote q''))
               end
          else S (selectorEnd (if Ascii.eqb c e then None else quote) q')
      | None =>
          if Ascii.eqb c dquote || Ascii.eqb c "`" then S (selectorEnd (Some c) q')
          else if Ascii.eqb c "}" then 1%nat
          else S (selectorEnd None q')
      end
  end.

Definition queryScansRows (logql : string) : bool :=
  let q := TrimSpace logql in
  let q := if HasPrefix q "{" then suffix (selectorEnd None q) q else q in
  ContainsByte "|" q || Contains q "!=" || Contains q "!~".

(** The mapping options that count here. *)
Record recordOptions : Type := mkRecordOptions {
  BytesSource : string;
  RecordExcludeFields : list string;
  LokiMaxLineSize : Z
}.

Definition recordPipes (m : option recordOptions) (isBytes : bool) (logql : string) : string * bool :=
  match m with
  | None => ("", false)
  | Some m =>
      let bytesOn := isBytes && String.eqb (BytesSource m) "record" in
      let sizeOn := (0 <? LokiMaxLineSize m) && queryScansRows logql in
      if negb bytesOn && negb sizeOn then ("", false)
      else
        (RecordBytesPipes (RecordExcludeFields m) +:+
         (if sizeOn then " | filter " +:+ RecordBytesField +:+ ":<=" +:+ Itoa (LokiMaxLineSize m) else "") +:+
         (if bytesOn then "" else " | delete " +:+ RecordBytesField), bytesOn)
  end.

Definition ingestEmulationNeedsRows (p : settings) (pushedPipes : string) : bool :=
  (0 <? lokiMaxLineSize p) && negb (Contains pushedPipes ("| filter " +:+ RecordBytesField +:+ ":<=")).

(** ** Exact duplicates

    [h key value] is the 64-bit hash of a field; a row is known by the sum of the hashes of
    its fields. *)

Section Dedup.
Context (h : string → string → Z).

Definition hashAdd (a b : Z) : Z := (a + b) mod 2 ^ 64.

Definition dedupField (kv : string * value) : option (string * string) :=
  if String.eqb kv.1 "_stream_id" then None else option_map (λ s, (kv.1, s)) (stringifyFJValue kv.2).

Definition rowKey (r : row) : Z :=
  foldl (λ k kv, hashAdd k (h kv.1 kv.2)) 0 (omap dedupField r).

(** [record]: whether the key was seen, and the keys seen after it. *)
Definition record (k : Z) (seen : gset Z) : bool * gset Z :=
  if decide (k ∈ seen) then (true, seen) else (false, {[k]} ∪ seen).

(** [newRowDedup] gives no table when duplicates are kept. *)
Definition newRowDedup (p : settings) : option (gset Z) := if dedupeExactDuplicates p then Some ∅ else None.

Definition dupFJ (d : option (gset Z)) (r : row) : bool * option (gset Z) :=
  match d with
  | None => (false, None)
  | Some seen => let '(dup, seen) := record (rowKey r) seen in (dup, Some seen)
  end.

(** A scan that keeps the rows that are no duplicates. *)
Fixpoint scan (d : option (gset Z)) (rows : list row) : list row :=
  match rows with
  | [] => []
  | r :: rows => let '(dup, d) := dupFJ d r in if dup then scan d rows else r :: scan d rows
  end.

End Dedup.

(** ** Reading a rebuilt line

    The JSON grammar as far as the line uses it. *)

Definition shortEscape (e : Ascii.ascii) : option Ascii.ascii :=
  if Ascii.eqb e dquote || Ascii.eqb e bslash then Some e
  else if Ascii.eqb e "n" then Some (z2b 10)
  else if Ascii.eqb e "r" then Some (z2b 13)
  else if Ascii.eqb e "t" then Some (z2b 9)
  else None.

Definition consByte (a : Ascii.ascii) (x : option (string * string)) : option (string * string) :=
  option_map (λ sr, (String a sr.1, sr.2)) x.

(** The bytes up to the closing quote, and what follows it. *)
Fixpoint readJson (s : string) : option (string * string) :=
  match s with
  | "" => None
  | String a s1 =>
      if Ascii.eqb a dquote then Some ("", s1)
      else if Ascii.eqb a bslash then
        match s1 with
        | "" => None
        | String e s2 =>
            match shortEscape e with
            | Some b => consByte b (readJson s2)
            | None =>
                match s2 with
                | String _ (String _ (String x (String y s6))) =>
                    match unhex x, unhex y with
                    | Some u, Some v => consByte (z2b (16 * u + v)) (readJson s6)
                    | _, _ => None
                    end
                | _ => None
                end
            end
        end
      else consByte a (readJson s1)
  end.

Definition readPair (s : string) : option ((string * string) * string) :=
  match s with
  | String _ s =>
      match readJson s with
      | Some (k, String _ (String _ s)) =>
          match readJson s with
          | Some (v, r) => Some ((k, v), r)
          | None => None
          end
      | _ => None
      end
  | "" => None
  end.

Fixpoint readFields (fuel : nat) (s : string) : option (list (string * string)) :=
  match fuel with
  | O => None
  | S fuel =>
      match readPair s with
      | Some (kv, String c r) =>
          if Ascii.eqb c "," then option_map (cons kv) (readFields fuel r)
          else if String.eqb r "" then Some [kv] else None
      | _ => None
      end
  end.

Definition readLine (s : string) : option (list (string * string)) :=
  match s with
  | String _ s => readFields (String.length s) s
  | "" => None
  end.

Lemma readJson_byte a s : readJson (jsonByte a +:+ s) = consByte a (readJson s).
Proof. destruct a as [[] [] [] [] [] [] [] []]; reflexivity. Qed.

Lemma readJson_bytes s t : readJson (jsonBytes s +:+ String dquote t) = Some (s, t).
Proof.
  induction s as [|a s IH]; [done|]. cbn [jsonBytes]. rewrite append_assoc, readJson_byte.
  by rewrite IH.
Qed.

Lemma readPair_text kv t : readPair (pairText kv +:+ t) = Some (kv, t).
Proof.
  destruct kv as [k v]. unfold pairText, appendLogLineJSONString. cbn [fst snd String.append readPair].
  rewrite !append_assoc. cbn [String.append]. rewrite readJson_bytes. cbn [String.append].
  rewrite append_assoc. cbn [String.append]. by rewrite readJson_bytes.
Qed.

Lemma readFields_text n kv l : (length l < n)%nat →
  readFields n (Join "," (map pairText (kv :: l)) +:+ "}") = Some (kv :: l).
Proof.
  revert n kv. induction l as [|kv' l IH]; intros [|n] kv Hn; try (cbn in Hn; lia).
  - cbn [map Join readFields]. by rewrite readPair_text.
  - change (Join "," (map pairText (kv :: kv' :: l)))
      with (pairText kv +:+ "," +:+ Join "," (map pairText (kv' :: l))).
    cbn [readFields]. rewrite !append_assoc, readPair_text.
    change ("," +:+ (Join "," (map pairText (kv' :: l)) +:+ "}"))
      with (String "," (Join "," (map pairText (kv' :: l)) +:+ "}")).
    cbn [Ascii.eqb]. rewrite IH by (cbn in Hn; lia). done.
Qed.

Lemma fields_shorter l : (length l ≤ String.length (Join "," (map pairText l)))%nat.
Proof.
  induction l as [|kv [|kv' l] IH]; [done|cbn; lia|].
  change (Join "," (map pairText (kv :: kv' :: l)))
    with (pairText kv +:+ "," +:+ Join "," (map pairText (kv' :: l))).
  rewrite !length_app_str. cbn [length String.length] in *. lia.
Qed.

Lemma readLine_encoded l : l ≠ [] → readLine (encodeLogLine l) = Some l.
Proof.
  destruct l as [|kv l]; [done|]. intros _. unfold encodeLogLine. cbn [String.append readLine].
  apply readFields_text. rewrite length_app_str. pose proof (fields_shorter (kv :: l)).
  cbn [String.length length] in *. lia.
Qed.

(** ** The order of the fields *)

Lemma byKey_asym a b : byKey a b = true → byKey b a = false.
Proof. apply ltb_asym. Qed.

Lemma not_byKey_trans : Transitive (no_greater byKey).
Proof. intros a b c. apply (not_ltb_trans a.1 b.1 c.1). Qed.

Lemma sorted_by_key l : StronglySorted (no_greater byKey) (SliceStable byKey l).
Proof. apply SliceStable_sorted; [apply byKey_asym|apply not_byKey_trans]. Qed.

(** With distinct keys the order is strict and there is one. *)
Lemma key_unique (l : list (string * string)) x y : NoDup l.*1 → x ∈ l → y ∈ l → x.1 = y.1 → x = y.
Proof.
  intros Hn Hx Hy E. destruct x as [k v], y as [k' v']. cbn in E. subst k'. f_equal.
  apply list_elem_of_lookup in Hx as [i Hi], Hy as [j Hj].
  assert (i = j) as ->; [|congruence]. eapply NoDup_lookup; [exact Hn|rewrite list_lookup_fmap, Hi; done|].
  by rewrite list_lookup_fmap, Hj.
Qed.

Lemma sort_unique l1 l2 : NoDup l1.*1 → l1 ≡ₚ l2 → SliceStable byKey l1 = SliceStable byKey l2.
Proof.
  intros Hn Hp. apply (StronglySorted_unique_strong (no_greater byKey)).
  - intros x y Hx Hy Hxy Hyx. rewrite SliceStable_perm in Hx. rewrite SliceStable_perm, <-Hp in Hy.
    apply (key_unique l1); [done..|]. by apply ltb_trichotomy.
  - apply sorted_by_key.
  - apply sorted_by_key.
  - by rewrite !SliceStable_perm.
Qed.

Lemma lineField_key labels pf text kv f : lineField labels pf text kv = Some f → f.1 = kv.1.
Proof. unfold lineField. destruct (skipLogLineField _ _ _); [done|]. destruct (String.eqb _ _); [done|]. by intros [= <-]. Qed.

Lemma omap_keys {A} (f : string * A → option (string * string)) (r : list (string * A)) :
  (∀ kv x, f kv = Some x → x.1 = kv.1) → NoDup r.*1 → NoDup (omap f r).*1.
Proof.
  intros Hf. induction r as [|kv r IH]; intros Hn; cbn; [constructor|].
  cbn in Hn. apply NoDup_cons in Hn as [Hk Hn]. destruct (f kv) as [x|] eqn:E; cbn; [|by apply IH].
  apply NoDup_cons. split; [|by apply IH]. rewrite (Hf kv x E). intros Hin. apply Hk.
  apply list_elem_of_fmap in Hin as (y & Ey & Hy). apply list_elem_of_omap in Hy as (z & Hz & Ez).
  rewrite Ey, (Hf z y Ez). by apply list_elem_of_fmap_2.
Qed.

(** Values as VictoriaLogs sends them: strings; other values are written alike by the two
    libraries. *)
Definition plain_row (r : row) : Prop := Forall (λ kv, plainText kv.2 = entryText kv.2) r.

Lemma fields_agree labels pf r : plain_row r →
  omap (lineField labels pf plainText) r = omap (lineField labels pf entryText) r.
Proof.
  induction 1 as [|kv r Hkv _ IH]; [done|]. cbn. rewrite IH. unfold lineField. by rewrite Hkv.
Qed.

(** C35 The line rebuilt for a row without a message is empty when the row has no field of
    its own, and otherwise a JSON object that is read back, byte for byte, as exactly the
    fields that are neither internal, stream labels, written by the pipeline nor empty, in
    the order of their keys.  The path over parsed bytes and the path over decoded rows
    give the same line. *)
Theorem rebuilt_line (r : row) (labels : gmap string string) (pf : gset string) (dflt : string) :
  isVLMissingMsg (msgOf r) dflt = true → lineWrittenByPipeline ∉ pf → NoDup r.*1 →
  let fields := omap (lineField labels pf plainText) r in
  let line := storedLogLineFromFJ r labels pf dflt in
  (fields = [] → line = "") ∧
  (fields ≠ [] → ∃ l, readLine line = Some l ∧ l ≡ₚ fields ∧ StronglySorted (no_greater byKey) l) ∧
  (plain_row r → storedLogLineFromEntry (msgOf r) (list_to_map r) labels pf dflt = line).
Proof.
  intros Hm Hp Hn fields line. unfold line, storedLogLineFromFJ, storedLogLineFromEntry. rewrite Hm.
  rewrite bool_decide_eq_false_2 by done. cbn [negb orb]. fold fields. split_and!.
  - by intros ->.
  - intros Hf. eexists. split; [apply readLine_encoded|].
    { intros E. apply Hf. apply Permutation_nil_r. by rewrite <-E, SliceStable_perm. }
    split; [apply SliceStable_perm|apply sorted_by_key].
  - intros Hr. f_equal. unfold fields. rewrite fields_agree by done. symmetry. apply sort_unique.
    + apply omap_keys; [apply lineField_key|done].
    + by rewrite map_to_list_to_map.
Qed.

(** ** The stored line *)

(** A byte as serde_json writes it. *)
Definition serdeByte (a : Ascii.ascii) : string :=
  if b2z a =? 8 then String bslash "b" else if b2z a =? 12 then String bslash "f" else jsonByte a.

Fixpoint serdeBytes (s : string) : string :=
  match s with
  | "" => ""
  | String a s => serdeByte a +:+ serdeBytes s
  end.

Definition serdeString (s : string) : string := String dquote (serdeBytes s +:+ String dquote "").

Definition serdePair (kv : string * string) : string := serdeString kv.1 +:+ ":" +:+ serdeString kv.2.

(** The object the collector shipped. *)
Definition serdeObject (l : list (string * string)) : string := "{" +:+ Join "," (map serdePair l) +:+ "}".

Definition renamed (kv : string * string) : string * string :=
  (if String.eqb kv.1 "_msg" then "message" else kv.1, kv.2).

Definition wrapper (timestamp : string) : list (string * string) :=
  [("path", "/"); ("source_type", "http_server"); ("timestamp", timestamp)].

Lemma len_cons a s : len (String a s) = 1 + len s.
Proof. unfold len. cbn [String.length]. lia. Qed.

Lemma serdeByte_len a : len (serdeByte a) = quotedByteLen a.
Proof. destruct a as [[] [] [] [] [] [] [] []]; reflexivity. Qed.

Lemma serdeString_len s : len (serdeString s) = jsonQuotedLen s.
Proof.
  unfold serdeString, jsonQuotedLen. rewrite len_cons, len_append. cbn. induction s as [|a s IH]; [done|].
  cbn [serdeBytes jsonQuotedLoop]. rewrite len_append, serdeByte_len. cbn in IH. lia.
Qed.

Definition pairLen (kv : string * string) : Z := jsonQuotedLen kv.1 + 1 + jsonQuotedLen kv.2.

Lemma serdePair_len kv : len (serdePair kv) = pairLen kv.
Proof. unfold serdePair, pairLen. rewrite !len_append, !serdeString_len. change (len ":") with 1. lia. Qed.

Definition sumLen (l : list (string * string)) : Z := foldr (λ kv n, pairLen kv + n) 0 l.

Lemma Join_pairs_len l : l ≠ [] → len (Join "," (map serdePair l)) = sumLen l + Z.of_nat (length l) - 1.
Proof.
  induction l as [|kv [|kv' l] IH]; intros Hne; [done|cbn [map Join]; rewrite serdePair_len; unfold sumLen; cbn [foldr length]; lia|].
  change (Join "," (map serdePair (kv :: kv' :: l)))
    with (serdePair kv +:+ "," +:+ Join "," (map serdePair (kv' :: l))).
  rewrite !len_append, IH, serdePair_len by done. unfold sumLen. cbn [foldr length]. unfold len. cbn [String.length]. lia.
Qed.

Lemma serdeObject_len l : l ≠ [] → len (serdeObject l) = 1 + sumLen l + Z.of_nat (length l).
Proof. intros Hl. unfold serdeObject. rewrite !len_append, Join_pairs_len by done. unfold len. cbn [String.length]. lia. Qed.

Lemma sumLen_perm l1 l2 : l1 ≡ₚ l2 → sumLen l1 = sumLen l2.
Proof. unfold sumLen. induction 1; cbn; lia. Qed.

Lemma sumLen_app l1 l2 : sumLen (l1 ++ l2) = sumLen l1 + sumLen l2.
Proof. unfold sumLen. induction l1 as [|x l1 IH]; cbn; lia. Qed.

Lemma recordSum_renamed l : recordSum l = sumLen (map renamed l).
Proof. unfold recordSum, sumLen. induction l as [|kv l IH]; [done|]. cbn. rewrite IH. unfold recordFieldLen, pairLen. by cbn. Qed.

(** The timestamp is written with nine digits: 30 bytes that need no escape. *)
Definition timestampText (ts : string) : Prop := jsonQuotedLen ts = 32.

(** The size the proxy computes for a row is the length of the line the collector
    shipped: the JSON object of the fields that are not excluded, the message under its
    collector name, with the three members of the wrapper, in any order of the members. *)
Theorem record_size_exact (r : row) (exclude : list string) (ts : string) (l : list (string * string)) :
  msgIsJSONLine (msgOf r) = false → omap (recordField exclude) r ≠ [] → timestampText ts →
  l ≡ₚ map renamed (omap (recordField exclude) r) ++ wrapper ts →
  len (serdeObject l) = lokiRecordLineLenFJ r exclude.
Proof.
  intros Hm Hf Hts Hp. unfold lokiRecordLineLenFJ, recordLineTotal. rewrite Hm.
  set (fs := omap (recordField exclude) r) in *.
  assert (Z.of_nat (length fs) ≠ 0) as Hn by (destruct fs; [done|cbn; lia]).
  rewrite (proj2 (Z.eqb_neq _ _)) by done. rewrite serdeObject_len.
  - rewrite (sumLen_perm _ _ Hp), (Permutation_length Hp), sumLen_app, length_app, length_map, recordSum_renamed.
    unfold wrapper, sumLen at 2, pairLen, RecordWrapperBytes. cbn [fst snd foldr length]. unfold timestampText in Hts. rewrite Hts.
    change (jsonQuotedLen "path") with 6. change (jsonQuotedLen "/") with 3.
    change (jsonQuotedLen "source_type") with 13. change (jsonQuotedLen "http_server") with 13.
    change (jsonQuotedLen "timestamp") with 11. lia.
  - intros ->. apply Permutation_nil_l in Hp. by destruct fs.
Qed.

(** ** The pipes of the chain *)

Inductive recordPipe : Type :=
| PackAll (res : string)
| PackFields (pats : list string) (res : string)
| LenOf (field res : string)
| MathDiff (a b : string) (n : Z) (res : string)
| FormatIfJSON (src res : string)
| Delete (fields : list string).

Definition recordPipe_String (p : recordPipe) : string :=
  match p with
  | PackAll res => "| pack_json as " +:+ res
  | PackFields pats res => "| pack_json fields (" +:+ Join ", " pats +:+ ") as " +:+ res
  | LenOf f res => "| len(" +:+ f +:+ ") as " +:+ res
  | MathDiff a b n res => "| math " +:+ a +:+ " - " +:+ b +:+ " + " +:+ Itoa n +:+ " as " +:+ res
  | FormatIfJSON src res =>
      "| format if (_msg:~" +:+ String dquote ("^[{]" +:+ String dquote (") " +:+ String dquote ("<" +:+ src +:+ ">"))) +:+
      String dquote " as " +:+ res
  | Delete fs => "| delete " +:+ Join ", " fs
  end.

Definition recordProgram (exclude : list string) : list recordPipe :=
  [PackAll "__lvp_l"; PackFields (RecordInternalFields ++ exclude) "__lvp_x"; LenOf "__lvp_l" "__lvp_a";
   LenOf "__lvp_x" "__lvp_b"; MathDiff "__lvp_a" "__lvp_b" RecordWrapperBytes RecordBytesField;
   LenOf "_msg" "__lvp_m"; FormatIfJSON "__lvp_m" RecordBytesField;
   Delete ["__lvp_l"; "__lvp_x"; "__lvp_a"; "__lvp_b"; "__lvp_m"]].

(** The text the translator appends is this program. *)
Lemma program_text exclude :
  RecordBytesPipes exclude = Join " " (map recordPipe_String (recordProgram exclude)).
Proof.
  unfold RecordBytesPipes, recordProgram. cbn [map Join recordPipe_String]. rewrite !append_assoc.
  cbn [String.append]. rewrite ?append_assoc. reflexivity.
Qed.

(** VictoriaLogs on a row of string fields: the text of pack_json, and the row a pipe
    makes of a row. *)
Class VictoriaPipes : Type := {
  pack : gmap string string → string;
  runPipe : recordPipe → gmap string string → gmap string string
}.

Definition packedLen (m : gmap string string) : Z :=
  if decide (m = ∅) then 2 else len (serdeObject (map_to_list m)).

Definition fieldOf (m : gmap string string) (f : string) : string := default "" (m !! f).

Definition matchesAny (pats : list string) (k : string) : bool := existsb (λ p, excludes p k) pats.

(** What its documentation says of the pipes the chain uses: pack_json writes a JSON
    object of all fields, or of the ones a list of names and prefixes matches, as long as
    serde_json's; len is the number of bytes; math computes with numbers, exactly on
    integers a float64 holds; format with an if writes where the filter matches; delete
    removes fields. *)
Class PipeLaws `{VictoriaPipes} : Prop := {
  pack_len m : len (pack m) = packedLen m;
  run_pack_all res m : runPipe (PackAll res) m = <[res := pack m]> m;
  run_pack_fields pats res m :
    runPipe (PackFields pats res) m = <[res := pack (filter (λ kv, matchesAny pats kv.1 = true) m)]> m;
  run_len f res m : runPipe (LenOf f res) m = <[res := Itoa (len (fieldOf m f))]> m;
  run_math a b n res m x y : Atoi (fieldOf m a) = Some x → Atoi (fieldOf m b) = Some y →
    0 ≤ y ≤ x → x ≤ 2 ^ 52 → 0 ≤ n ≤ 2 ^ 52 → runPipe (MathDiff a b n res) m = <[res := Itoa (x - y + n)]> m;
  run_format src res m : runPipe (FormatIfJSON src res) m =
    (if msgIsJSONLine (fieldOf m "_msg") then <[res := fieldOf m src]> m else m);
  run_delete fs m : runPipe (Delete fs) m = foldl (λ m f, delete f m) m fs
}.

Section Pipes.
Context `{PipeLaws}.

(** The members of a row of strings. *)
Definition rowOf (m : gmap string string) : row := map (λ kv, (kv.1, Str kv.2)) (map_to_list m).

Lemma matchesAny_excluded exclude k :
  matchesAny (RecordInternalFields ++ exclude) k = recordFieldExcluded k exclude.
Proof.
  unfold matchesAny, recordFieldExcluded. rewrite existsb_app. cbn [existsb RecordInternalFields].
  unfold excludes at 1 2 3. cbn [HasSuffix]. rewrite orb_false_r, !orb_assoc. reflexivity.
Qed.

Lemma member_rowOf m k : member k (rowOf m) = option_map Str (m !! k).
Proof.
  assert (NoDup (map_to_list m).*1) as Hn by apply NoDup_fst_map_to_list.
  rewrite <-(list_to_map_to_list m) at 2. unfold rowOf. induction (map_to_list m) as [|[k' v] l IH]; [done|].
  cbn in Hn. apply NoDup_cons in Hn as [_ Hn]. cbn [map member fst snd list_to_map foldr curry uncurry].
  destruct (String.eqb_spec k' k) as [->|Hne]; cbn.
  - by rewrite lookup_insert_eq.
  - rewrite lookup_insert_ne by done. by apply IH.
Qed.

Lemma msgOf_rowOf m : msgOf (rowOf m) = fieldOf m "_msg".
Proof. unfold msgOf, fieldOf. rewrite member_rowOf. by destruct (m !! "_msg"). Qed.

(** The fields kept and the fields excluded make up the row. *)
Lemma kept_fields exclude l :
  omap (recordField exclude) (map (λ kv, (kv.1, Str kv.2)) l) =
  filter (λ kv, recordFieldExcluded kv.1 exclude = false) l.
Proof.
  induction l as [|[k v] l IH]; [done|]. rewrite filter_cons, <-IH. cbn [map omap list_omap fst].
  unfold recordField at 1. cbn [fst snd stringifyFJValue option_map].
  by destruct (recordFieldExcluded k exclude); case_decide.
Qed.

Lemma sumLen_split exclude l :
  sumLen l = sumLen (filter (λ kv, recordFieldExcluded kv.1 exclude = false) l) +
             sumLen (filter (λ kv, recordFieldExcluded kv.1 exclude = true) l) ∧
  length l = (length (filter (λ kv, recordFieldExcluded kv.1 exclude = false) l) +
              length (filter (λ kv, recordFieldExcluded kv.1 exclude = true) l))%nat.
Proof.
  unfold sumLen. induction l as [|kv l [IH1 IH2]]; [done|]. rewrite !filter_cons. cbn [foldr length].
  destruct (recordFieldExcluded kv.1 exclude) eqn:E.
  - rewrite decide_False, decide_True by done. cbn [foldr length]. lia.
  - rewrite decide_True, decide_False by done. cbn [foldr length]. lia.
Qed.

Lemma filter_to_list (P : string * string → Prop) `{∀ x, Decision (P x)} (m : gmap string string) :
  map_to_list (filter P m) ≡ₚ filter P (map_to_list m).
Proof.
  apply NoDup_Permutation.
  - apply NoDup_map_to_list.
  - apply NoDup_filter, NoDup_map_to_list.
  - intros [k v]. rewrite elem_of_map_to_list, map_lookup_filter_Some, list_elem_of_filter, elem_of_map_to_list. tauto.
Qed.

(** Renaming the message makes the line three bytes longer, when there is one. *)
Lemma renamed_sum l : NoDup l.*1 →
  sumLen (map renamed l) = sumLen l + (if decide ("_msg" ∈ l.*1) then 3 else 0).
Proof.
  unfold sumLen. induction l as [|[k v] l IH]; intros Hn; [done|]. cbn in Hn. apply NoDup_cons in Hn as [Hk Hn].
  cbn [map foldr fmap list_fmap fst]. specialize (IH Hn). unfold renamed at 1. cbn [fst snd].
  destruct (String.eqb_spec k "_msg") as [->|Hne].
  - rewrite decide_False in IH by done. rewrite decide_True by (by left). unfold pairLen in *. cbn [fst snd] in *.
    change (jsonQuotedLen "message") with 9. change (jsonQuotedLen "_msg") with 6. lia.
  - rewrite IH. destruct (decide ("_msg" ∈ l.*1)).
    + rewrite decide_True by (by right). unfold pairLen. cbn [fst snd]. lia.
    + rewrite decide_False by (rewrite not_elem_of_cons; split; [congruence|done]). unfold pairLen. cbn [fst snd]. lia.
Qed.

Lemma filter_keys (P : string * string → Prop) `{∀ x, Decision (P x)} (l : list (string * string)) :
  NoDup l.*1 → NoDup (filter P l).*1.
Proof.
  induction l as [|kv l IH]; [done|]. rewrite fmap_cons, NoDup_cons, filter_cons. intros [Hk Hn].
  case_decide; [|by apply IH]. rewrite fmap_cons. apply NoDup_cons. split; [|by apply IH].
  intros Hin. apply Hk. apply list_elem_of_fmap in Hin as (x & -> & [_ Hx]%list_elem_of_filter).
  by apply list_elem_of_fmap_2.
Qed.

(** The difference the math pipe computes. *)
Lemma packed_difference m exclude :
  (∃ k, is_Some (m !! k) ∧ recordFieldExcluded k exclude = true) →
  (∃ k, is_Some (m !! k) ∧ recordFieldExcluded k exclude = false) →
  packedLen m - packedLen (filter (λ kv, recordFieldExcluded kv.1 exclude = true) m) + RecordWrapperBytes =
    recordLineTotal (recordSum (omap (recordField exclude) (rowOf m)))
      (Z.of_nat (length (omap (recordField exclude) (rowOf m)))) +
    (if decide (is_Some (m !! "_msg") ∧ recordFieldExcluded "_msg" exclude = false) then 0 else 3).
Proof.
  intros (ke & [ve He] & Hke) (kk & [vk Hk] & Hkk). unfold rowOf. rewrite kept_fields.
  set (l := map_to_list m). set (kept := filter (λ kv, recordFieldExcluded kv.1 exclude = false) l).
  set (ex := filter (λ kv, recordFieldExcluded kv.1 exclude = true) m).
  assert ((ke, ve) ∈ filter (λ kv : string * string, recordFieldExcluded kv.1 exclude = true) l) as Hin.
  { apply list_elem_of_filter. split; [done|]. by apply elem_of_map_to_list. }
  assert ((kk, vk) ∈ kept) as Hkin.
  { apply list_elem_of_filter. split; [done|]. by apply elem_of_map_to_list. }
  assert (map_to_list ex ≡ₚ filter (λ kv, recordFieldExcluded kv.1 exclude = true) l) as Hex by apply filter_to_list.
  destruct (sumLen_split exclude l) as [Hs Hl]. fold kept in Hs, Hl.
  assert (packedLen m = 1 + sumLen l + Z.of_nat (length l)) as ->.
  { unfold packedLen. rewrite decide_False by (intros ->; by rewrite lookup_empty in He). apply serdeObject_len.
    fold l. intros E. fold l in Hkin. unfold kept in Hkin. rewrite E in Hkin. by apply elem_of_nil in Hkin. }
  assert (packedLen ex = 1 + sumLen (filter (λ kv, recordFieldExcluded kv.1 exclude = true) l) +
            Z.of_nat (length (filter (λ kv, recordFieldExcluded kv.1 exclude = true) l))) as ->.
  { unfold packedLen. rewrite decide_False.
    - rewrite serdeObject_len; [by rewrite (sumLen_perm _ _ Hex), (Permutation_length Hex)|].
      intros E. rewrite E in Hex. apply Permutation_nil_l in Hex. rewrite <-Hex in Hin. by apply elem_of_nil in Hin.
    - intros E. rewrite E, map_to_list_empty in Hex. apply Permutation_nil_l in Hex.
      rewrite <-Hex in Hin. by apply elem_of_nil in Hin. }
  assert (Z.of_nat (length kept) ≠ 0) as Hnz by (destruct kept; [by apply elem_of_nil in Hkin|cbn; lia]).
  unfold recordLineTotal. rewrite (proj2 (Z.eqb_neq _ _)) by done.
  rewrite recordSum_renamed, renamed_sum.
  2: { apply filter_keys, NoDup_fst_map_to_list. }
  assert ("_msg" ∈ kept.*1 ↔ is_Some (m !! "_msg") ∧ recordFieldExcluded "_msg" exclude = false) as Hiff.
  { rewrite list_elem_of_fmap. split.
    - intros ([k v] & -> & Hx). apply list_elem_of_filter in Hx as [Hf Hx]. apply elem_of_map_to_list in Hx. split; [by exists v|done].
    - intros [[v Hv] Hf]. exists ("_msg", v). split; [done|]. apply list_elem_of_filter. split; [done|]. by apply elem_of_map_to_list. }
  unfold RecordWrapperBytes. destruct (decide ("_msg" ∈ kept.*1)) as [Hy|Hno].
  - rewrite decide_True by (by apply Hiff). lia.
  - rewrite decide_False by (by rewrite <-Hiff). lia.
Qed.

Lemma jsonQuotedLen_ge s : 2 ≤ jsonQuotedLen s.
Proof.
  unfold jsonQuotedLen. induction s as [|a s IH]; [done|]. cbn [jsonQuotedLoop]. unfold quotedByteLen.
  destruct (_ || _); [lia|]. destruct (_ <? _); lia.
Qed.

Lemma recordSum_ge l : 5 * Z.of_nat (length l) ≤ recordSum l.
Proof.
  unfold recordSum. induction l as [|kv l IH]; [done|]. cbn [foldr length]. unfold recordFieldLen at 1.
  pose proof (jsonQuotedLen_ge (if String.eqb kv.1 "_msg" then "message" else kv.1)).
  pose proof (jsonQuotedLen_ge kv.2). lia.
Qed.

Lemma recordTotal_ge l : l ≠ [] → RecordWrapperBytes ≤ recordLineTotal (recordSum l) (Z.of_nat (length l)).
Proof.
  intros Hl. pose proof (recordSum_ge l). assert (0 < Z.of_nat (length l)) by (destruct l; [done|cbn; lia]).
  unfold recordLineTotal, RecordWrapperBytes. rewrite (proj2 (Z.eqb_neq _ _)) by lia. lia.
Qed.

(** The rows the chain is run on: a message and a time, no field of the chain's own, and
    no exclusion that takes the message or the packed row. *)
Record chain_row (m : gmap string string) (exclude : list string) : Prop := {
  cr_msg : is_Some (m !! "_msg");
  cr_time : is_Some (m !! "_time");
  cr_own : ∀ k, HasPrefix k "__lvp_" = true → m !! k = None;
  cr_keep : recordFieldExcluded "_msg" exclude = false;
  cr_packed : recordFieldExcluded "__lvp_l" exclude = false;
  cr_short : len (pack m) ≤ 2 ^ 52
}.

Definition excludedOf (exclude : list string) (m : gmap string string) : gmap string string :=
  filter (λ kv, recordFieldExcluded kv.1 exclude = true) m.

Lemma excluded_unpacked exclude m v : recordFieldExcluded "__lvp_l" exclude = false → m !! "__lvp_l" = None →
  filter (λ kv, matchesAny (RecordInternalFields ++ exclude) kv.1 = true) (<["__lvp_l" := v]> m) = excludedOf exclude m.
Proof.
  intros Hx Hn. apply map_eq. intros k. apply option_eq. intros x. unfold excludedOf.
  rewrite !map_lookup_filter_Some. cbn [fst]. rewrite matchesAny_excluded. destruct (decide (k = "__lvp_l")) as [->|Hne].
  - rewrite Hx, Hn. split; intros [? ?]; done.
  - by rewrite lookup_insert_ne.
Qed.

(** The difference, on such a row. *)
Lemma chain_difference m exclude : chain_row m exclude →
  len (pack m) - len (pack (excludedOf exclude m)) + RecordWrapperBytes =
    recordLineTotal (recordSum (omap (recordField exclude) (rowOf m)))
      (Z.of_nat (length (omap (recordField exclude) (rowOf m)))) ∧
  0 ≤ len (pack (excludedOf exclude m)) ≤ len (pack m).
Proof.
  intros [Hm Ht Ho Hk Hp Hs]. rewrite !pack_len in *.
  assert (packedLen m - packedLen (excludedOf exclude m) + RecordWrapperBytes =
    recordLineTotal (recordSum (omap (recordField exclude) (rowOf m)))
      (Z.of_nat (length (omap (recordField exclude) (rowOf m))))) as E.
  { unfold excludedOf. rewrite packed_difference; [|by exists "_time"|by exists "_msg"].
    rewrite decide_True by done. lia. }
  split; [exact E|]. split; [rewrite <-pack_len; unfold len; lia|].
  assert (omap (recordField exclude) (rowOf m) ≠ []) as Hne.
  { unfold rowOf. rewrite kept_fields. destruct Hm as [v Hv]. intros E0.
    assert (("_msg", v) ∈ filter (λ kv, recordFieldExcluded kv.1 exclude = false) (map_to_list m)) as Hin.
    { apply list_elem_of_filter. split; [done|]. by apply elem_of_map_to_list. }
    rewrite E0 in Hin. by apply elem_of_nil in Hin. }
  pose proof (recordTotal_ge _ Hne). lia.
Qed.

Lemma fieldOf_ne m k k' v : k ≠ k' → fieldOf (<[k := v]> m) k' = fieldOf m k'.
Proof. intros. unfold fieldOf. by rewrite lookup_insert_ne. Qed.

Lemma fieldOf_eq m k v : fieldOf (<[k := v]> m) k = v.
Proof. unfold fieldOf. by rewrite lookup_insert_eq. Qed.


(** Without a message the chain counts three bytes more than the proxy: the difference
    between the names [_msg] and [message] is part of its constant. *)
Lemma no_message_differs m exclude :
  m !! "_msg" = None → is_Some (m !! "_time") → (∃ k, is_Some (m !! k) ∧ recordFieldExcluded k exclude = false) →
  len (pack m) - len (pack (excludedOf exclude m)) + RecordWrapperBytes =
    lokiRecordLineLenFJ (rowOf m) exclude + 3.
Proof.
  intros Hm Ht Hk. rewrite !pack_len. unfold excludedOf, lokiRecordLineLenFJ.
  rewrite packed_difference; [|by exists "_time"|done]. rewrite msgOf_rowOf. unfold fieldOf. rewrite Hm. cbn [default msgIsJSONLine starts_with].
  rewrite decide_False; [done|]. intros [[v Hv] _]. congruence.
Qed.

End Pipes.

(** ** Exact duplicates *)

Section Duplicates.
Context (h : string → string → Z).

(** What a row consists of, in any order, its stream id apart. *)
Definition content (r : row) : gmultiset (string * string) := list_to_set_disj (omap dedupField r).

(** The reference: a row is dropped when an earlier one had the same content. *)
Fixpoint firsts (seen : list (gmultiset (string * string))) (rows : list row) : list row :=
  match rows with
  | [] => []
  | r :: rows =>
      if decide (content r ∈ seen) then firsts seen rows else r :: firsts (content r :: seen) rows
  end.

Lemma hash_comm (k : Z) (a b : string * string) :
  hashAdd (hashAdd k (h a.1 a.2)) (h b.1 b.2) = hashAdd (hashAdd k (h b.1 b.2)) (h a.1 a.2).
Proof. unfold hashAdd. rewrite !Zplus_mod_idemp_l. f_equal. lia. Qed.

Lemma elements_of_list (l : list (string * string)) : elements (list_to_set_disj l : gmultiset _) ≡ₚ l.
Proof.
  induction l as [|x l IH]; [done|]. cbn [list_to_set_disj foldr].
  by rewrite gmultiset_elements_disj_union, gmultiset_elements_singleton, IH.
Qed.

Lemma rowKey_content r1 r2 : content r1 = content r2 → rowKey h r1 = rowKey h r2.
Proof.
  intros E. apply (foldl_comm (λ k kv, hashAdd k (h kv.1 kv.2))); [apply hash_comm|].
  unfold content in E. by rewrite <-(elements_of_list (omap _ r1)), E, elements_of_list.
Qed.

(** No two rows of the scan with different contents have the same key. *)
Definition collision_free (rows : list row) : Prop :=
  ∀ r1 r2, r1 ∈ rows → r2 ∈ rows → rowKey h r1 = rowKey h r2 → content r1 = content r2.

Lemma scan_firsts all rows seen seenKeys : collision_free all → rows ⊆ all →
  (∀ k, k ∈ seenKeys ↔ ∃ r, r ∈ all ∧ content r ∈ seen ∧ rowKey h r = k) →
  (∀ c, c ∈ seen → ∃ r, r ∈ all ∧ content r = c) →
  scan h (Some seenKeys) rows = firsts seen rows.
Proof.
  intros Hc. revert seen seenKeys. induction rows as [|r rows IH]; intros seen seenKeys Hsub Hk Hs; [done|].
  assert (r ∈ all) as Hr by set_solver. assert (rows ⊆ all) as Hrows by set_solver.
  cbn [scan firsts dupFJ]. unfold record.
  assert (rowKey h r ∈ seenKeys ↔ content r ∈ seen) as Hiff.
  { rewrite Hk. split.
    - intros (r' & Hr' & Hin & E). by rewrite (Hc r r' Hr Hr' (eq_sym E)).
    - intros Hin. by exists r. }
  destruct (decide (content r ∈ seen)) as [Hin|Hout].
  - rewrite decide_True by (by apply Hiff). by apply IH.
  - rewrite decide_False by (by rewrite Hiff). f_equal. apply IH; [done| |].
    + intros k. rewrite elem_of_union, elem_of_singleton, Hk. split.
      * intros [->|(r' & ? & ? & ?)]; [exists r; split; [done|split; [by left|done]]|].
        exists r'. split; [done|]. split; [by right|done].
      * intros (r' & Hr' & [E|Hin]%elem_of_cons & <-); [left; by apply rowKey_content|right; by exists r'].
    + intros c [->|Hin]%elem_of_cons; [by exists r|by apply Hs].
Qed.

(** With deduplication on, a scan keeps exactly the first row of each content: rows with
    the same fields and values, in whatever order the members come, count once, and every
    other row is kept, as long as no two rows of the scan collide in the 64-bit hash. With
    deduplication off every row is kept. *)
Theorem duplicates_dropped_once (p : settings) (rows : list row) :
  collision_free rows →
  scan h (newRowDedup p) rows = if dedupeExactDuplicates p then firsts [] rows else rows.
Proof.
  intros Hc. unfold newRowDedup. destruct (dedupeExactDuplicates p).
  - apply (scan_firsts rows); [done|done|set_solver|set_solver].
  - induction rows as [|r rows IH]; [done|]. cbn. f_equal. apply IH. intros r1 r2 H1 H2. apply Hc; by right.
Qed.

End Duplicates.

End Line.

(** ** Concrete rows *)

Module LineDemo.
Import Text Utf8 Line.

(** A row without a message, with a stream label and a control byte. *)
Definition unpacked : row :=
  [("_time", Str "t"); ("app", Str "web"); ("z", Str (bytes [1; 34])); ("_msg", Str ""); ("a", Str "1"); ("n", Null)].

Lemma rebuilt_line_witness :
  let labels : gmap string string := {["app" := "web"]} in
  let fields := omap (lineField labels ∅ plainText) unpacked in
  let line := storedLogLineFromFJ unpacked labels ∅ "" in
  (fields = [] → line = "") ∧
  (fields ≠ [] → ∃ l, readLine line = Some l ∧ l ≡ₚ fields ∧ StronglySorted (no_greater byKey) l) ∧
  (plain_row unpacked → storedLogLineFromEntry (msgOf unpacked) (list_to_map unpacked) labels ∅ "" = line).
Proof.
  refine (rebuilt_line unpacked {["app" := "web"]} ∅ "" eq_refl _ _); [set_solver|].
  apply (bool_decide_unpack _). vm_compute. exact I.
Defined.

Definition shipped : row := [("_time", Str "t"); ("_msg", Str "hi"); ("level", Str "info"); ("kubernetes.pod", Str "p")].

Definition stamp : string := "2026-09-16T12:34:56.123456789Z".

Lemma record_size_exact_witness :
  let l := [("level", "info"); ("message", "hi"); ("path", "/"); ("source_type", "http_server"); ("timestamp", stamp)] in
  len (serdeObject l) = lokiRecordLineLenFJ shipped ["kubernetes.*"].
Proof.
  refine (record_size_exact shipped ["kubernetes.*"] stamp _ eq_refl _ eq_refl _); [discriminate|].
  exact (perm_swap _ _ _).
Defined.

#[local] Instance pipes : VictoriaPipes :=
  let pack m := if decide (m = ∅) then "{}" else serdeObject (map_to_list m) in {|
  pack := pack;
  runPipe p m :=
    match p with
    | PackAll res => <[res := pack m]> m
    | PackFields pats res => <[res := pack (filter (λ kv, matchesAny pats kv.1 = true) m)]> m
    | LenOf f res => <[res := Itoa (len (fieldOf m f))]> m
    | MathDiff a b n res =>
        match Atoi (fieldOf m a), Atoi (fieldOf m b) with
        | Some x, Some y => <[res := Itoa (x - y + n)]> m
        | _, _ => m
        end
    | FormatIfJSON src res => if msgIsJSONLine (fieldOf m "_msg") then <[res := fieldOf m src]> m else m
    | Delete fs => foldl (λ m f, delete f m) m fs
    end
|}.

#[local] Instance pipe_laws : PipeLaws.
Proof.
  split; try done.
  - intros m. unfold packedLen. cbn. by case_decide.
  - intros a b n res m x y Hx Hy _ _ _. cbn. by rewrite Hx, Hy.
Qed.

Definition stored : gmap string string :=
  {["_time" := "t"; "_msg" := "hi"; "level" := "info"; "kubernetes.pod" := "p"]}.


(** The same members in another order, and another row. *)
Definition again : row := List.rev shipped.

Definition fieldHash (k v : string) : Z := len k * 1000 + len v.

Lemma duplicates_dropped_once_witness :
  scan fieldHash (newRowDedup (mkSettings true [] 0 true)) [shipped; unpacked; again] =
  (if dedupeExactDuplicates (mkSettings true [] 0 true) then firsts [] [shipped; unpacked; again]
   else [shipped; unpacked; again]) ∧
  scan fieldHash (newRowDedup (mkSettings true [] 0 true)) [shipped; unpacked; again] = [shipped; unpacked].
Proof.
  split; [|vm_compute; reflexivity].
  refine (duplicates_dropped_once fieldHash (mkSettings true [] 0 true) [shipped; unpacked; again] _).
  assert (content again = content shipped) as Ea.
  { unfold content, again. apply (bool_decide_unpack _). vm_compute. exact I. }
  assert (rowKey fieldHash again = rowKey fieldHash shipped) as Ek by (vm_compute; reflexivity).
  assert (rowKey fieldHash unpacked ≠ rowKey fieldHash shipped) as En by (vm_compute; discriminate).
  intros r1 r2 H1 H2. repeat setoid_rewrite elem_of_cons in H1. repeat setoid_rewrite elem_of_cons in H2.
  destruct H1 as [->|[->|[->|H1]]]; [..|by apply elem_of_nil in H1];
    destruct H2 as [->|[->|[->|H2]]]; try (by apply elem_of_nil in H2); congruence.
Defined.

End LineDemo.
