(* ===== verification/Tenants.v ===== *)
(** * Tenants
      (src/internal/proxy/middleware.go, request_scope.go, multitenant.go)

    The tenant of a request is the X-Scope-OrgID header.  [validateTenantHeader] admits
    it, [setResolvedTenantHeaders] and [scopedTenantParams] turn it into the scope of the
    backend call, and a header with several tenants is fanned out: matchers on
    [__tenant_id__] choose among the tenants, each of them is asked on its own, and the
    answers are merged under their tenants' names.  Module [Tenants] holds the routing and
    the choice of tenants, module [Fanout] the fan-out and the merges.

    [resolve] is the resolution order of the configuration manual. *)

From S2P Require Import Prelude GoText Utf8 JsonText LogqlScanner LogqlAst LogqlFilter LogqlLexing LogqlPipeline Translator LogsqlReading.

#[local] Open Scope Z_scope.
#[local] Arguments String.append !_ _ /.

Module Tenants.
Import Text Utf8 Ast.

(** ** Admission *)

Record TenantMapping : Type := mkMapping {
  AccountID : string;
  ProjectID : string
}.

(** The routing a request keeps across reloads; the label translator and the cache
    namespace have no part in it. *)
Record requestRouting : Type := mkRouting {
  tenants : gmap string TenantMapping;
  label : string
}.

Record Proxy : Type := mkProxy {
  authEnabled : bool;
  requireTenantHeader : bool;
  allowGlobalTenant : bool;
  forwardTenantHeader : bool
}.

Record requestPolicyError : Type := mkPolicy {
  status : Z;
  msg : string
}.

Definition isDefaultTenantAlias (orgID : string) : bool :=
  String.eqb orgID "0" || String.eqb orgID "fake" || String.eqb orgID "default".

(** The parts that were not seen before, without blank ones. *)
Fixpoint freshParts (seen : gset string) (parts : list string) : list string :=
  match parts with
  | [] => []
  | part :: parts =>
      let part := TrimSpace part in
      if String.eqb part "" then freshParts seen parts
      else if decide (part ∈ seen) then freshParts seen parts
      else part :: freshParts ({[part]} ∪ seen) parts
  end.

Definition splitMultiTenantOrgIDs (orgID : string) : list string := freshParts ∅ (Split "|" orgID).

Definition hasMultiTenantOrgID (orgID : string) : bool := ContainsByte "|" orgID.

Definition multiTenantQueryPaths : list string :=
  ["/loki/api/v1/query"; "/loki/api/v1/query_range"; "/loki/api/v1/series"; "/loki/api/v1/labels";
   "/loki/api/v1/index/stats"; "/loki/api/v1/index/volume"; "/loki/api/v1/index/volume_range";
   "/loki/api/v1/detected_fields"; "/loki/api/v1/detected_labels"; "/loki/api/v1/patterns"].

Definition isMultiTenantQueryPath (path : string) : bool :=
  bool_decide (path ∈ multiTenantQueryPaths) ||
  HasPrefix path "/loki/api/v1/label/" || HasPrefix path "/loki/api/v1/detected_field/".

(** Newline, carriage return, NUL: bytes that are no part of another rune. *)
Definition unsafeByte (c : Ascii.ascii) : bool := (b2z c =? 10) || (b2z c =? 13) || (b2z c =? 0).

Section Routing.
Context `{Unicode}.

Definition validateSingleTenantOrgIDWithRouting (p : Proxy) (orgID : string) (routing : requestRouting) :
    option requestPolicyError :=
  match tenants routing !! orgID with
  | Some _ => None
  | None =>
      if String.eqb orgID "*" then
        if allowGlobalTenant p then None
        else Some (mkPolicy 403 ("global tenant bypass (" +:+ String dquote "*" +:+ String dquote ") is disabled"))
      else if negb (String.eqb (label routing) "") then
        if all_bytes_of (λ c, negb (unsafeByte c)) orgID then None
        else Some (mkPolicy 400 "invalid character in X-Scope-OrgID for tenant-label mode")
      else if isDefaultTenantAlias orgID then None
      else
        match Atoi orgID with
        | Some _ => None
        | None => Some (mkPolicy 403 ("unknown tenant " +:+ Quote orgID))
        end
  end.

(** The loop over the tenants of a header: the first error counts. *)
Fixpoint validateEach (p : Proxy) (routing : requestRouting) (tenantIDs : list string) : option requestPolicyError :=
  match tenantIDs with
  | [] => None
  | tenantID :: rest =>
      if String.eqb tenantID "*" then
        Some (mkPolicy 400 ("wildcard " +:+ String dquote "*" +:+ String dquote
                            " is not supported inside multi-tenant X-Scope-OrgID values"))
      else
        match validateSingleTenantOrgIDWithRouting p tenantID routing with
        | Some err => Some err
        | None => validateEach p routing rest
        end
  end.

Definition validateTenantHeader (p : Proxy) (routing : requestRouting) (path header : string) :
    option requestPolicyError :=
  let orgID := TrimSpace header in
  if String.eqb orgID "" then
    if authEnabled p || requireTenantHeader p then Some (mkPolicy 401 "missing X-Scope-OrgID header") else None
  else if ContainsByte "|" orgID then
    if negb (isMultiTenantQueryPath path) then
      Some (mkPolicy 400 "multi-tenant X-Scope-OrgID values are only supported on query endpoints")
    else
      let tenantIDs := splitMultiTenantOrgIDs orgID in
      if (length tenantIDs <? 2)%nat then
        Some (mkPolicy 400 "multi-tenant X-Scope-OrgID must include at least two tenant IDs")
      else validateEach p routing tenantIDs
  else validateSingleTenantOrgIDWithRouting p orgID routing.

(** ** The scope of a backend call

    [orgID] is the header as the context keeps it. *)

Definition setResolvedTenantHeaders (routing : requestRouting) (orgID : string) (forwardOrg : bool)
    (headers : gmap string string) : gmap string string :=
  if String.eqb orgID "" then headers
  else
    let headers := if forwardOrg then <["X-Scope-OrgID" := orgID]> headers else headers in
    match tenants routing !! orgID with
    | Some mapping => <["ProjectID" := ProjectID mapping]> (<["AccountID" := AccountID mapping]> headers)
    | None =>
        if negb (String.eqb (label routing) "") || isDefaultTenantAlias orgID || String.eqb orgID "*" then headers
        else
          match Atoi orgID with
          | Some _ => <["ProjectID" := "0"]> (<["AccountID" := orgID]> headers)
          | None => headers
          end
    end.

Definition mapped (routing : requestRouting) (orgID : string) : bool := bool_decide (is_Some (tenants routing !! orgID)).

Definition forwardTenantHeaders (p : Proxy) (routing : requestRouting) (orgID : string)
    (headers : gmap string string) : gmap string string :=
  let headers := setResolvedTenantHeaders routing orgID false headers in
  if forwardTenantHeader p && negb (mapped routing orgID) && String.eqb (label routing) "" &&
     negb (String.eqb orgID "") && negb (isDefaultTenantAlias orgID) && negb (String.eqb orgID "*")
  then <["X-Scope-OrgID" := orgID]> headers
  else headers.

Definition values : Type := gmap string (list string).

Definition injectTenantLabelFilter (params : values) (lbl orgID : string) : values :=
  <["extra_stream_filters" := [JsonText.MarshalLabels {[lbl := orgID]}]]> params.

Definition scopedTenantParams (routing : requestRouting) (orgID : string) (params : values) : values :=
  if negb (mapped routing orgID) && negb (String.eqb (label routing) "") && negb (String.eqb orgID "") &&
     negb (isDefaultTenantAlias orgID) && negb (String.eqb orgID "*")
  then injectTenantLabelFilter params (label routing) orgID
  else params.

(** ** The documented resolution order *)

Inductive route : Type :=
| DefaultTenant
| MappedTenant (m : TenantMapping)
| AccountTenant (orgID : string)
| ScopedTenant (lbl orgID : string)
| Refused (code : Z).

Definition resolve (p : Proxy) (routing : requestRouting) (orgID : string) : route :=
  match tenants routing !! orgID with
  | Some m => MappedTenant m
  | None =>
      if isDefaultTenantAlias orgID then DefaultTenant
      else if String.eqb orgID "*" then (if allowGlobalTenant p then DefaultTenant else Refused 403)
      else if negb (String.eqb (label routing) "") then
        (if all_bytes_of (λ c, negb (unsafeByte c)) orgID then ScopedTenant (label routing) orgID else Refused 400)
      else if bool_decide (is_Some (Atoi orgID)) then AccountTenant orgID
      else Refused 403
  end.

(** What the backend is told: account and project, or a constraint on the streams. *)
Definition scopeOf (r : route) (headers : gmap string string) (params : values) : gmap string string * values :=
  match r with
  | MappedTenant m => (<["ProjectID" := ProjectID m]> (<["AccountID" := AccountID m]> headers), params)
  | AccountTenant orgID => (<["ProjectID" := "0"]> (<["AccountID" := orgID]> headers), params)
  | ScopedTenant lbl orgID => (headers, injectTenantLabelFilter params lbl orgID)
  | DefaultTenant | Refused _ => (headers, params)
  end.

(** The backend proper is also told the name of a tenant that is its account, unless
    forwarding is switched off. *)
Definition hotScope (p : Proxy) (r : route) (headers : gmap string string) (params : values) :
    gmap string string * values :=
  let '(headers, params) := scopeOf r headers params in
  match r with
  | AccountTenant orgID => (if forwardTenantHeader p then <["X-Scope-OrgID" := orgID]> headers else headers, params)
  | _ => (headers, params)
  end.

(** The cold backend is always told the name. *)
Definition coldScope (orgID : string) (r : route) (headers : gmap string string) (params : values) :
    gmap string string * values :=
  scopeOf r (<["X-Scope-OrgID" := orgID]> headers) params.

Definition refusal (r : route) : option Z :=
  match r with
  | Refused code => Some code
  | _ => None
  end.

End Routing.
(** ** Choosing tenants in the query *)

(** The brace that closes the first one; only double quotes count as quotes. *)
Fixpoint findBraceLocal (inQuote : bool) (depth : Z) (i : nat) (s : string) : option nat :=
  match s with
  | "" => None
  | String c r =>
      if Ascii.eqb c bslash then
        match r with
        | "" => None
        | String _ r' => if inQuote then findBraceLocal inQuote depth (S (S i)) r' else findBraceLocal inQuote depth (S i) r
        end
      else if Ascii.eqb c dquote then findBraceLocal (negb inQuote) depth (S i) r
      else if Ascii.eqb c "{" then findBraceLocal inQuote (if inQuote then depth else depth + 1) (S i) r
      else if Ascii.eqb c "}" then
        if inQuote then findBraceLocal inQuote depth (S i) r
        else if depth - 1 =? 0 then Some i else findBraceLocal inQuote (depth - 1) (S i) r
      else findBraceLocal inQuote depth (S i) r
  end.

Definition findMatchingBraceLocal (s : string) : option nat := findBraceLocal false 0 0 s.

(** The pieces between commas; [cur] is the text since the last one. *)
Fixpoint matcherPieces (inQuote : bool) (cur s : string) : list string :=
  match s with
  | "" => [cur]
  | String c r =>
      if Ascii.eqb c bslash then
        match r with
        | String e r' =>
            if inQuote then matcherPieces inQuote (cur +:+ String c (String e "")) r'
            else matcherPieces inQuote (cur +:+ String c "") r
        | "" => [cur +:+ String c ""]
        end
      else if Ascii.eqb c dquote then matcherPieces (negb inQuote) (cur +:+ String c "") r
      else if Ascii.eqb c "," && negb inQuote then cur :: matcherPieces inQuote "" r
      else matcherPieces inQuote (cur +:+ String c "") r
  end.

Definition splitSelectorMatchers (s : string) : list string :=
  filter (λ part, part ≠ "") (map TrimSpace (matcherPieces false "" s)).

Definition splitLeadingSelector (query : string) : option (string * string) :=
  let query := TrimSpace query in
  if starts_with (Ascii.eqb "{") query then
    match findMatchingBraceLocal query with
    | Some e => Some (prefix (S e) query, TrimSpace (suffix (S e) query))
    | None => None
    end
  else None.

(** [strings.Trim] with a set of bytes. *)
Definition TrimBytes (p : Ascii.ascii → bool) (s : string) : string := rev (span p (rev (span p s).2)).2.

Section Matching.
Context `{Regexps}.

(** The tenants remaining, or [None] when the matcher is none of the tenants. *)
Definition applyTenantMatch (tenantIDs : list string) (op raw : string) : result (option (list string)) :=
  if String.eqb op "=" then Ok (Some (filter (λ t, t = raw) tenantIDs))
  else if String.eqb op "!=" then Ok (Some (filter (λ t, t ≠ raw) tenantIDs))
  else if String.eqb op "=~" then
    match re_compile raw with
    | Err e => Err ("invalid __tenant_id__ regex: " +:+ e)
    | Ok re => Ok (Some (filter (λ t, re_match re t = true) tenantIDs))
    end
  else if String.eqb op "!~" then
    match re_compile raw with
    | Err e => Err ("invalid __tenant_id__ regex: " +:+ e)
    | Ok re => Ok (Some (filter (λ t, re_match re t = false) tenantIDs))
    end
  else Ok None.

Fixpoint filterByOp (ops : list string) (tenantIDs : list string) (matcher : string) : result (option (list string)) :=
  match ops with
  | [] => Ok None
  | op :: ops =>
      match Pipe.cutAt op matcher with
      | Some (before, after) =>
          if String.eqb before "" then filterByOp ops tenantIDs matcher
          else if negb (String.eqb (TrimSpace before) "__tenant_id__") then Ok None
          else applyTenantMatch tenantIDs op (TrimBytes Tr.quote_byte (TrimSpace after))
      | None => filterByOp ops tenantIDs matcher
      end
  end.

Definition filterTenantsByMatcher (tenantIDs : list string) (matcher : string) : result (option (list string)) :=
  filterByOp ["!~"; "=~"; "!="; "="] tenantIDs matcher.

(** The loop over the matchers of the selector. *)
Fixpoint narrow (matchers kept tenantIDs : list string) : result (list string * list string) :=
  match matchers with
  | [] => Ok (kept, tenantIDs)
  | matcher :: rest =>
      match filterTenantsByMatcher tenantIDs matcher with
      | Err e => Err e
      | Ok (Some next) => narrow rest kept next
      | Ok None => narrow rest (kept ++ [matcher]) tenantIDs
      end
  end.

Definition rebuild (matchers : list string) (rest : string) : string :=
  let rest := TrimSpace rest in
  match matchers with
  | [] => if String.eqb rest "" then "*" else "* " +:+ rest
  | _ =>
      let selector := "{" +:+ Join "," matchers +:+ "}" in
      if String.eqb rest "" then selector else selector +:+ " " +:+ rest
  end.

Definition filterTenantMatchers (query : string) (tenantIDs : list string) : result (string * list string) :=
  let query := TrimSpace query in
  if String.eqb query "" then Ok (query, tenantIDs)
  else
    match splitLeadingSelector query with
    | None => Ok (query, tenantIDs)
    | Some (selector, rest) =>
        let inner := prefix (String.length selector - 2) (suffix 1 selector) in
        match narrow (splitSelectorMatchers inner) [] tenantIDs with
        | Err e => Err e
        | Ok (matchers, remaining) => Ok (TrimSpace (rebuild matchers rest), remaining)
        end
    end.

(** ** Requests *)

(** [OrgID] is the header, [Params] the values of the URL. *)
Record request : Type := mkRequest {
  Method : string;
  Path : string;
  OrgID : string;
  Params : values
}.

Definition Get (params : values) (key : string) : string :=
  match params !! key with
  | Some (v :: _) => v
  | _ => ""
  end.

Fixpoint filterEach (exprs : list string) (tenantIDs : list string) : result (list string * list string) :=
  match exprs with
  | [] => Ok ([], tenantIDs)
  | expr :: exprs =>
      match filterTenantMatchers expr tenantIDs with
      | Err e => Err e
      | Ok (updated, narrowed) =>
          match filterEach exprs narrowed with
          | Err e => Err e
          | Ok (rest, remaining) => Ok (updated :: rest, remaining)
          end
      end
  end.

Definition applyTenantSelectorFilter (r : request) (tenantIDs : list string) : result (request * list string) :=
  let filtered params remaining := (mkRequest (Method r) (Path r) (Join "|" remaining) params, remaining) in
  if negb (String.eqb (Get (Params r) "query") "") then
    match filterTenantMatchers (Get (Params r) "query") tenantIDs with
    | Err e => Err e
    | Ok (query, remaining) => Ok (filtered (<["query" := [query]]> (Params r)) remaining)
    end
  else
    match Params r !! "match[]" with
    | Some (expr :: exprs) =>
        match filterEach (expr :: exprs) tenantIDs with
        | Err e => Err e
        | Ok (updated, remaining) => Ok (filtered (<["match[]" := updated]> (Params r)) remaining)
        end
    | _ => Ok (r, tenantIDs)
    end.

End Matching.
End Tenants.

Module TenantLaws.
Import Text Utf8 Ast Tenants.

Section Routing.
Context `{Unicode}.

(** ** Resolution *)

Lemma alias_safe orgID : isDefaultTenantAlias orgID = true → all_bytes_of (λ c, negb (unsafeByte c)) orgID = true.
Proof.
  unfold isDefaultTenantAlias. rewrite !orb_true_iff, !String.eqb_eq. by intros [[-> | ->] | ->].
Qed.

Lemma alias_no_wildcard orgID : isDefaultTenantAlias orgID = true → String.eqb orgID "*" = false.
Proof.
  unfold isDefaultTenantAlias. rewrite !orb_true_iff, !String.eqb_eq. by intros [[-> | ->] | ->].
Qed.

Lemma single_resolves p routing orgID :
  option_map status (validateSingleTenantOrgIDWithRouting p orgID routing) = refusal (resolve p routing orgID).
Proof.
  unfold validateSingleTenantOrgIDWithRouting, resolve. destruct (tenants routing !! orgID); [done|].
  destruct (isDefaultTenantAlias orgID) eqn:Ha.
  - rewrite alias_no_wildcard, alias_safe by done. by destruct (String.eqb (label routing) "").
  - destruct (String.eqb orgID "*"); [by destruct (allowGlobalTenant p)|].
    destruct (String.eqb (label routing) ""); cbn [negb]; [by destruct (Atoi orgID)|].
    by destruct (all_bytes_of _ orgID).
Qed.

Lemma scope_resolved p routing orgID headers params : orgID ≠ "" → refusal (resolve p routing orgID) = None →
  (setResolvedTenantHeaders routing orgID false headers, scopedTenantParams routing orgID params) =
    scopeOf (resolve p routing orgID) headers params.
Proof.
  intros Hne. unfold setResolvedTenantHeaders, scopedTenantParams, resolve, mapped.
  rewrite (proj2 (String.eqb_neq orgID "")) by done. cbn [negb].
  destruct (tenants routing !! orgID) as [m|]; [done|].
  rewrite (bool_decide_eq_false_2 (is_Some None)) by (by intros []). cbn [negb andb].
  destruct (isDefaultTenantAlias orgID) eqn:Ha; [by rewrite !orb_true_r, !andb_false_r|].
  destruct (String.eqb orgID "*") eqn:Hs; [rewrite !orb_true_r, !andb_false_r; by destruct (allowGlobalTenant p)|].
  destruct (String.eqb (label routing) ""); cbn [negb orb andb].
  - destruct (Atoi orgID); [done|]. by rewrite bool_decide_eq_false_2 by (by intros []).
  - by destruct (all_bytes_of _ orgID).
Qed.

Lemma scope_forwarded p routing orgID headers params : orgID ≠ "" → refusal (resolve p routing orgID) = None →
  (forwardTenantHeaders p routing orgID headers, scopedTenantParams routing orgID params) =
    hotScope p (resolve p routing orgID) headers params.
Proof.
  intros Hne Hr. pose proof (scope_resolved p routing orgID headers params Hne Hr) as Hs. unfold hotScope.
  rewrite <- Hs. unfold forwardTenantHeaders. rewrite (proj2 (String.eqb_neq orgID "")) by done. revert Hr.
  unfold resolve, mapped. destruct (tenants routing !! orgID) as [m|] eqn:Em.
  { rewrite bool_decide_eq_true_2 by eauto. by rewrite andb_false_r. }
  rewrite (bool_decide_eq_false_2 (is_Some None)) by (by intros []). cbn [negb].
  destruct (isDefaultTenantAlias orgID); [by rewrite !andb_false_r|].
  destruct (String.eqb orgID "*"); [rewrite andb_false_r; by destruct (allowGlobalTenant p)|].
  destruct (String.eqb (label routing) ""); cbn [negb].
  - rewrite !andb_true_r. case_bool_decide; [|done]. by destruct (forwardTenantHeader p).
  - rewrite !andb_false_r. by destruct (all_bytes_of _ orgID).
Qed.

Lemma scope_cold p routing orgID headers params : orgID ≠ "" → refusal (resolve p routing orgID) = None →
  (setResolvedTenantHeaders routing orgID true headers, scopedTenantParams routing orgID params) =
    coldScope orgID (resolve p routing orgID) headers params.
Proof.
  intros Hne Hr. unfold coldScope. rewrite <- scope_resolved by done.
  unfold setResolvedTenantHeaders. by rewrite (proj2 (String.eqb_neq orgID "")).
Qed.

(** C14 The tenant of a header without a vertical bar, white space around it removed, is
    admitted exactly when the documented resolution order finds it a tenant, with the
    documented status otherwise; an empty one is a 401 when a tenant is required and
    admitted when not.  An admitted request whose header has no white space around it
    (one that has is [untrimmed_header_unscoped]) reaches the backend under exactly the
    scope of that order, X-Scope-OrgID included: the mapped account and project, the
    numeric account with the forwarded header, the constraint on the tenant's streams,
    or the backend's default tenant; the cold backend is told the same scope and always
    the name.  A request without the header is sent without a scope. *)
Theorem resolution_order p routing path header : ContainsByte "|" (TrimSpace header) = false →
  option_map status (validateTenantHeader p routing path header) =
    (if String.eqb (TrimSpace header) "" then if authEnabled p || requireTenantHeader p then Some 401 else None
     else refusal (resolve p routing (TrimSpace header))) ∧
  (validateTenantHeader p routing path header = None → TrimSpace header = header → header ≠ "" → ∀ headers params,
   (forwardTenantHeaders p routing header headers, scopedTenantParams routing header params) =
     hotScope p (resolve p routing header) headers params ∧
   (setResolvedTenantHeaders routing header true headers, scopedTenantParams routing header params) =
     coldScope header (resolve p routing header) headers params) ∧
  (∀ headers params, forwardTenantHeaders p routing "" headers = headers ∧ scopedTenantParams routing "" params = params).
Proof.
  intros Hone. unfold validateTenantHeader. rewrite Hone. split; [|split].
  - destruct (String.eqb_spec (TrimSpace header) "") as [_|Hne]; [by destruct (_ || _)|]. apply single_resolves.
  - intros Hv Et Hne headers params. rewrite Et, (proj2 (String.eqb_neq header "")) in Hv by done.
    assert (refusal (resolve p routing header) = None) as Hr by (by rewrite <- single_resolves, Hv).
    split; [by apply scope_forwarded|by apply scope_cold].
  - intros headers params. unfold forwardTenantHeaders, scopedTenantParams. cbn [String.eqb negb].
    by rewrite !andb_false_r.
Qed.

(** ** Several tenants *)

Lemma freshParts_spec seen parts : NoDup (freshParts seen parts) ∧
  ∀ t, t ∈ freshParts seen parts ↔ t ≠ "" ∧ t ∉ seen ∧ t ∈ map TrimSpace parts.
Proof.
  revert seen. induction parts as [|x parts IH]; intros seen; cbn [freshParts map].
  { split; [constructor|]. set_solver. }
  destruct (String.eqb_spec (TrimSpace x) "") as [Hb|Hb].
  { destruct (IH seen) as [Hn He]. split; [done|]. intros t. rewrite He, Hb. set_solver. }
  destruct (decide (TrimSpace x ∈ seen)) as [Hs|Hs].
  { destruct (IH seen) as [Hn He]. split; [done|]. intros t. rewrite He. set_solver. }
  destruct (IH ({[TrimSpace x]} ∪ seen)) as [Hn He]. split.
  - constructor; [|done]. rewrite He. set_solver.
  - intros t. rewrite elem_of_cons, He, elem_of_cons, not_elem_of_union, not_elem_of_singleton.
    destruct (decide (t = TrimSpace x)) as [->|]; tauto.
Qed.

Lemma validateEach_all p routing ids : validateEach p routing ids = None →
  Forall (λ t, t ≠ "*" ∧ refusal (resolve p routing t) = None) ids.
Proof.
  induction ids as [|t ids IH]; [constructor|]. cbn [validateEach].
  destruct (String.eqb_spec t "*") as [|Hw]; [done|].
  destruct (validateSingleTenantOrgIDWithRouting p t routing) eqn:E; [done|]. intros Hv.
  constructor; [|auto]. split; [done|]. by rewrite <- single_resolves, E.
Qed.

End Routing.
(** ** Walking over a selector

    [walks sep q s q'] : a scanner that knows double quotes only goes over [s] from state
    [q] to state [q'] and meets no byte of [sep] outside quotes. *)
Inductive walks (sep : Ascii.ascii → bool) : bool → string → bool → Prop :=
| walks_nil q : walks sep q "" q
| walks_esc e s q : walks sep true s q → walks sep true (String bslash (String e s)) q
| walks_quote b s q : walks sep (negb b) s q → walks sep b (String dquote s) q
| walks_in c s q : c ≠ dquote → c ≠ bslash → walks sep true s q → walks sep true (String c s) q
| walks_out c s q : c ≠ dquote → c ≠ bslash → sep c = false → walks sep false s q → walks sep false (String c s) q.

Lemma walks_app sep q1 s q2 t q3 : walks sep q1 s q2 → walks sep q2 t q3 → walks sep q1 (s +:+ t) q3.
Proof. induction 1; intros Ht; rewrite ?app_str_cons; [done|by constructor; auto..]. Qed.

Lemma walks_inert sep s t q : all_bytes_of Tr.inert s = true → walks sep true t q → walks sep true (s +:+ t) q.
Proof.
  intros Hs Ht. induction s as [|c s IH]; [done|]. cbn [all_bytes_of] in Hs. apply andb_true_iff in Hs as [Hc Hs].
  unfold Tr.inert in Hc. apply andb_true_iff in Hc as [Hd%negb_true_iff Hb%negb_true_iff].
  rewrite app_str_cons. apply walks_in; [by intros ->|by intros ->|auto].
Qed.

Lemma walks_body sep s t q : Lexing.qbody s → walks sep true t q → walks sep true (s +:+ t) q.
Proof.
  intros Hs Ht. induction Hs as [|r s Hv H1 H2 _ IH|c s Hc _ IH]; [done| |].
  - rewrite append_assoc. apply walks_inert; [by apply Tr.EncodeRune_inert|done].
  - rewrite app_str_cons, append_assoc, EncodeRune_ascii by lia. cbn [bytes]. rewrite app_str_cons.
    by apply walks_esc.
Qed.

(** One round on a byte that is no quote and starts no escape. *)
Lemma findBraceLocal_plain q depth i c r : c ≠ dquote → c ≠ bslash → (q = true ∨ Tr.brace_byte c = false) →
  findBraceLocal q depth i (String c r) = findBraceLocal q depth (S i) r.
Proof.
  intros Hd%Ascii.eqb_neq Hb%Ascii.eqb_neq Hq. cbn [findBraceLocal]. rewrite Hb, Hd.
  destruct Hq as [->|Hs]; [by destruct (Ascii.eqb c "{"), (Ascii.eqb c "}")|].
  unfold Tr.brace_byte in Hs. apply orb_false_iff in Hs as [-> ->]. done.
Qed.

Lemma findBraceLocal_walks q s q' : walks Tr.brace_byte q s q' → ∀ depth i t,
  findBraceLocal q depth i (s +:+ t) = findBraceLocal q' depth (i + String.length s) t.
Proof.
  induction 1 as [q|e s q _ IH|b s q _ IH|c s q Hd Hb _ IH|c s q Hd Hb Hs _ IH]; intros depth i t;
    rewrite ?app_str_cons; cbn [String.length].
  - by rewrite Nat.add_0_r.
  - transitivity (findBraceLocal true depth (S (S i)) (s +:+ t)); [done|]. rewrite IH. f_equal. lia.
  - transitivity (findBraceLocal (negb b) depth (S i) (s +:+ t)); [done|]. rewrite IH. f_equal. lia.
  - rewrite findBraceLocal_plain, IH by auto. f_equal. lia.
  - rewrite findBraceLocal_plain, IH by auto. f_equal. lia.
Qed.

Lemma matcherPieces_plain q cur c r : c ≠ dquote → c ≠ bslash → (q = true ∨ Tr.comma_byte c = false) →
  matcherPieces q cur (String c r) = matcherPieces q (cur +:+ String c "") r.
Proof.
  intros Hd%Ascii.eqb_neq Hb%Ascii.eqb_neq Hq. cbn [matcherPieces]. rewrite Hb, Hd.
  destruct Hq as [->|Hs]; [by rewrite andb_false_r|]. unfold Tr.comma_byte in Hs. by rewrite Hs.
Qed.

Lemma matcherPieces_walks q s q' : walks Tr.comma_byte q s q' → ∀ cur t,
  matcherPieces q cur (s +:+ t) = matcherPieces q' (cur +:+ s) t.
Proof.
  induction 1 as [q|e s q _ IH|b s q _ IH|c s q Hd Hb _ IH|c s q Hd Hb Hs _ IH]; intros cur t; rewrite ?app_str_cons.
  - by rewrite append_nil_r.
  - transitivity (matcherPieces true (cur +:+ String bslash (String e "")) (s +:+ t)); [done|].
    by rewrite IH, append_assoc.
  - transitivity (matcherPieces (negb b) (cur +:+ String dquote "") (s +:+ t)); [done|]. by rewrite IH, append_assoc.
  - by rewrite matcherPieces_plain, IH, append_assoc by auto.
  - by rewrite matcherPieces_plain, IH, append_assoc by auto.
Qed.

Section Selector.
Context `{Unicode}.

Lemma walks_Quote sep v : walks sep false (Quote v) false.
Proof.
  unfold Quote. apply walks_quote. cbn [negb]. apply walks_body; [apply Lexing.qbody_quote|].
  apply walks_quote. constructor.
Qed.

Lemma name_no_quote c : Filter.name_byte c = true → c ≠ dquote ∧ c ≠ bslash.
Proof. intros Hc. by split; intros ->. Qed.

Lemma matcher_walks sep m : Tr.op_free sep → Filter.good_name (lm_Name m) →
  walks sep false (LabelMatcher_String m) false.
Proof.
  intros (H1 & H2 & H3 & Hn) [_ Hname]. unfold LabelMatcher_String. eapply walks_app with (q2 := false).
  - induction (lm_Name m) as [|c n IH]; [constructor|]. cbn in Hname. apply andb_true_iff in Hname as [Hc Hname].
    destruct (name_no_quote c Hc). apply walks_out; auto.
  - eapply walks_app; [|apply walks_Quote].
    destruct (lm_Op m); cbn [MatchOp_String]; repeat (apply walks_out; [done|done|done|]); constructor.
Qed.

Lemma walks_join sep l : walks sep false ", " false → Forall (λ x, walks sep false x false) l →
  walks sep false (Join ", " l) false.
Proof.
  intros Hs. induction 1 as [|x l Hx Hl IH]; [constructor|]. destruct l as [|y l]; [done|].
  change (Join ", " (x :: y :: l)) with (x +:+ ", " +:+ Join ", " (y :: l)).
  eapply walks_app; [done|]. by eapply walks_app.
Qed.

Lemma matcherPieces_join l x cur : Forall (λ x, walks Tr.comma_byte false x false) (x :: l) →
  matcherPieces false cur (Join ", " (x :: l)) = (cur +:+ x) :: map (λ y, " " +:+ y) l.
Proof.
  revert x cur. induction l as [|y l IH]; intros x cur Hl; apply Forall_cons in Hl as [Hx Hl].
  - change (Join ", " [x]) with x. rewrite <- (append_nil_r x) at 1. by rewrite (matcherPieces_walks _ _ _ Hx).
  - change (Join ", " (x :: y :: l)) with (x +:+ ", " +:+ Join ", " (y :: l)).
    rewrite (matcherPieces_walks _ _ _ Hx), app_str_cons. cbn [matcherPieces].
    change (Ascii.eqb "," bslash) with false. change (Ascii.eqb "," dquote) with false.
    change (Ascii.eqb "," ",") with true. cbn [negb andb]. f_equal.
    change ("" +:+ String " " ?z) with (String " " z). change (" " +:+ ?z) with (String " " z).
    rewrite matcherPieces_plain by auto. by rewrite IH.
Qed.

Lemma split_printed ms : Forall (λ m, Filter.good_name (lm_Name m)) ms →
  splitSelectorMatchers (Join ", " (map LabelMatcher_String ms)) = map LabelMatcher_String ms.
Proof.
  intros Hms. unfold splitSelectorMatchers. destruct ms as [|m ms]; [done|]. cbn [map].
  assert (Forall (λ x, walks Tr.comma_byte false x false) (map LabelMatcher_String (m :: ms))) as Hw.
  { apply Forall_map. eapply Forall_impl; [exact Hms|]. intros y Hy. by apply matcher_walks; [apply Tr.comma_op_free|]. }
  rewrite matcherPieces_join by exact Hw.
  apply Forall_cons in Hms as [Hm Hms]. change ("" +:+ ?z) with z. cbn [map]. rewrite Tr.matcher_trim by done.
  assert (map TrimSpace (map (λ y, " " +:+ y) (map LabelMatcher_String ms)) = map LabelMatcher_String ms) as ->.
  { clear Hw. induction Hms as [|x l Hx Hl IH]; [done|]. cbn [map]. rewrite IH. f_equal.
    change (" " +:+ ?z) with (String " " z). by rewrite TrimSpace_blank, Tr.matcher_trim. }
  apply filter_all. change (Forall (λ x, x ≠ "") (map LabelMatcher_String (m :: ms))).
  apply Forall_map, Forall_forall. intros y _. cbn. unfold LabelMatcher_String, Quote.
  intros E. apply (f_equal String.length) in E. rewrite !length_app_str in E. cbn in E. lia.
Qed.

End Selector.
(** ** Reading one matcher *)

Lemma all_bytes_rev p s : all_bytes_of p (rev s) = all_bytes_of p s.
Proof.
  induction s as [|c s IH]; [done|]. change (String c s) with (String c "" +:+ s) at 1.
  unfold rev. rewrite rev_onto_app, rev_onto_rev, all_bytes_of_app. fold (rev s). rewrite IH. cbn.
  rewrite andb_true_r. apply andb_comm.
Qed.

Lemma strip_all_bytes p fuel ps s : forallb (all_bytes_of p) ps = true →
  all_bytes_of p (strip_all fuel ps s) = all_bytes_of p s.
Proof.
  intros Hps. revert s. induction fuel as [|fuel IH]; intros s; [done|]. cbn [strip_all].
  destruct (strip_any ps s) as [r|] eqn:E; [|done]. rewrite IH. clear IH.
  induction ps as [|x ps IHp]; [done|]. cbn in E, Hps. apply andb_true_iff in Hps as [Hx Hps].
  destruct (strip_prefix x s) eqn:Ex; [|auto]. injection E as <-. apply strip_prefix_spec in Ex as ->.
  by rewrite all_bytes_of_app, Hx.
Qed.

(** Trimming removes no byte that is in no space. *)
Lemma TrimSpace_bytes p s : forallb (all_bytes_of p) spaces = true → forallb (all_bytes_of p) (map rev spaces) = true →
  all_bytes_of p (TrimSpace s) = all_bytes_of p s.
Proof.
  intros H1 H2. unfold TrimSpace, TrimRightSpace, TrimLeftSpace.
  by rewrite all_bytes_rev, strip_all_bytes, all_bytes_rev, strip_all_bytes.
Qed.

Definition no_quote (s : string) : bool := all_bytes_of (λ c, negb (Ascii.eqb c dquote)) s.

Lemma trim_no_quote s : no_quote (TrimSpace s) = no_quote s.
Proof. apply TrimSpace_bytes; vm_compute; reflexivity. Qed.

(** The first occurrence of a text whose first byte is not in [n] is behind [n]. *)
Lemma cutAt_skip a p n s : all_bytes_of (λ c, negb (Ascii.eqb a c)) n = true →
  Pipe.cutAt (String a p) (n +:+ s) = option_map (λ br, (n +:+ br.1, br.2)) (Pipe.cutAt (String a p) s).
Proof.
  induction n as [|c n IH]; intros Hn.
  - change ("" +:+ s) with s. by destruct (Pipe.cutAt _ s) as [[]|].
  - cbn [all_bytes_of] in Hn. apply andb_true_iff in Hn as [Hc%negb_true_iff Hn]. rewrite app_str_cons.
    cbn [Pipe.cutAt strip_prefix]. rewrite Hc, IH by done. by destruct (Pipe.cutAt _ s) as [[]|].
Qed.

Lemma cutAt_absent a p s : all_bytes_of (λ c, negb (Ascii.eqb a c)) s = true → Pipe.cutAt (String a p) s = None.
Proof. intros Hs. by rewrite <- (append_nil_r s), cutAt_skip by done. Qed.

Lemma name_free a n : Filter.name_byte a = false → all_bytes_of Filter.name_byte n = true →
  all_bytes_of (λ c, negb (Ascii.eqb a c)) n = true.
Proof.
  intros Ha. apply all_bytes_of_impl. intros c Hc. destruct (Ascii.eqb_spec a c) as [->|]; [|done]. by rewrite Hc in Ha.
Qed.

Definition tenantOps : list string := ["!~"; "=~"; "!="; "="].

(** [hits op w] : the place where the matcher is cut, behind its name, and the operator it
    is cut at; an operator inside the value comes first when it is tried earlier. *)
Fixpoint hits (ops : list string) (op w : string) : option (string * string * string) :=
  match ops with
  | [] => None
  | p :: ops =>
      match Pipe.cutAt p (op +:+ String dquote w) with
      | Some (b, r) => Some (p, b, r)
      | None => hits ops op w
      end
  end.

Section OneMatcher.
Context `{Unicode} `{Regexps}.

Lemma filterByOp_name ops ids n op w : Filter.good_name n →
  Forall (λ p, ∃ a q, p = String a q ∧ Filter.name_byte a = false) ops →
  filterByOp ops ids (n +:+ op +:+ String dquote w) =
    match hits ops op w with
    | Some (p, b, r) =>
        if negb (String.eqb (TrimSpace (n +:+ b)) "__tenant_id__") then Ok None
        else applyTenantMatch ids p (TrimBytes Tr.quote_byte (TrimSpace r))
    | None => Ok None
    end.
Proof.
  intros [Hne Hn]. induction 1 as [|p ops (a & q & -> & Ha) _ IH]; [done|]. cbn [filterByOp hits].
  rewrite cutAt_skip by (by apply name_free). destruct (Pipe.cutAt _ _) as [[b r]|]; cbn [option_map fst snd]; [|done].
  destruct (String.eqb_spec (n +:+ b) "") as [E|_]; [|done]. by destruct n.
Qed.

Lemma tenantOps_heads : Forall (λ p, ∃ a q, p = String a q ∧ Filter.name_byte a = false) tenantOps.
Proof. repeat constructor; by eexists _, _. Qed.

(** Where a printed matcher is cut: at its own operator or inside its value. *)
Lemma hits_cases o w : ∃ p b r, hits tenantOps (MatchOp_String o) w = Some (p, b, r) ∧
  ((b = "" ∧ p = MatchOp_String o ∧ r = String dquote w) ∨ no_quote b = false).
Proof.
  destruct o; cbn [MatchOp_String tenantOps hits].
  all: cbn -[Pipe.cutAt]; repeat (cbn [Pipe.cutAt strip_prefix Ascii.eqb Bool.eqb]).
  all: repeat match goal with |- context [match Pipe.cutAt ?p ?x with _ => _ end] => destruct (Pipe.cutAt p x) as [[? ?]|] end.
  all: eexists _, _, _; split; [reflexivity|].
  all: first [by left | by right].
Qed.

Lemma name_no_quotes n : all_bytes_of Filter.name_byte n = true → no_quote n = true.
Proof. apply all_bytes_of_impl. intros c Hc. destruct (Ascii.eqb_spec c dquote) as [->|]; [|done]. done. Qed.

Lemma name_trim n : Filter.good_name n → TrimSpace n = n.
Proof.
  intros [_ Hn]. apply TrimSpace_solid; unfold soft_start.
  - destruct n as [|c n]; [done|]. cbn in Hn |- *. apply andb_true_iff in Hn as [Hc _].
    by rewrite (proj2 (proj2 (proj2 (Tr.name_byte_plain c Hc)))).
  - rewrite <- all_bytes_rev in Hn. destruct (rev n) as [|c m]; [done|]. cbn in Hn |- *.
    apply andb_true_iff in Hn as [Hc _]. by rewrite (proj2 (proj2 (proj2 (Tr.name_byte_plain c Hc)))).
Qed.

(** A matcher on another label is left alone, whatever its value contains. *)
Lemma other_matcher ids m : Filter.good_name (lm_Name m) → lm_Name m ≠ "__tenant_id__" →
  filterTenantsByMatcher ids (LabelMatcher_String m) = Ok None.
Proof.
  intros Hn Ht. unfold filterTenantsByMatcher, LabelMatcher_String, Quote.
  rewrite (filterByOp_name _ _ _ _ _ Hn tenantOps_heads).
  edestruct (hits_cases (lm_Op m)) as (p & b & r & -> & Hb).
  destruct (String.eqb_spec (TrimSpace (lm_Name m +:+ b)) "__tenant_id__") as [E|]; [exfalso|done].
  destruct Hb as [(-> & _)|Hb].
  - rewrite append_nil_r, name_trim in E by done. done.
  - apply (f_equal no_quote) in E. rewrite trim_no_quote in E. unfold no_quote in *.
    by rewrite all_bytes_of_app, Hb, andb_false_r in E.
Qed.

End OneMatcher.
(** ** The tenants a selector asks for *)

(** Bytes of a tenant pattern: printable, no quote, no backslash, no byte of an operator. *)
Definition tenant_byte (c : Ascii.ascii) : bool :=
  (32 <=? b2z c) && (b2z c <=? 126) && negb (b2z c =? 34) && negb (b2z c =? 92) && negb (b2z c =? 96) &&
  negb (b2z c =? 33) && negb (b2z c =? 61) && negb (b2z c =? 126).

Definition onTenant (m : LabelMatcher) : bool := String.eqb (lm_Name m) "__tenant_id__".

Section Narrowing.
Context `{UnicodeLaws} `{Regexps}.

(** LogQL's anchored reading of a pattern: it has to match the whole value. *)
Definition wholeMatch (pattern value : string) : bool :=
  match re_compile ("^(?:" +:+ pattern +:+ ")$") with
  | Ok re => re_match re value
  | Err _ => false
  end.

(** Whether LogQL lets a matcher accept a tenant. *)
Definition accepts (m : LabelMatcher) (tenantID : string) : bool :=
  let v := lm_Value m in
  match lm_Op m with
  | MatchEq => String.eqb tenantID v
  | MatchNeq => negb (String.eqb tenantID v)
  | MatchRe => wholeMatch v tenantID
  | MatchNotRe => negb (wholeMatch v tenantID)
  end.

(** A pattern whose own anchors make a search for it a match of the whole value. *)
Definition anchored (pattern : string) : Prop :=
  ∃ re, re_compile pattern = Ok re ∧ ∀ value, re_match re value = wholeMatch pattern value.

(** A matcher that can be printed and, on the tenant, read again. *)
Definition readable (m : LabelMatcher) : Prop :=
  Filter.good_name (lm_Name m) ∧
  (onTenant m = true →
   all_bytes_of tenant_byte (lm_Value m) = true ∧
   (lm_Op m = MatchRe ∨ lm_Op m = MatchNotRe → anchored (lm_Value m))).

Lemma Quote_tenant v : all_bytes_of tenant_byte v = true → Quote v = String dquote (v +:+ String dquote "").
Proof.
  intros Hv. unfold Quote. f_equal. f_equal. induction v as [|a v IH]; [done|].
  cbn [all_bytes_of] in Hv. apply andb_true_iff in Hv as [Ha Hv]. cbn [String.length quote_loop].
  unfold tenant_byte in Ha. rewrite !andb_true_iff, !negb_true_iff in Ha. destruct Ha as ((((((Hr & H34) & H92) & _) & _) & _) & _).
  rewrite LRead.quoteRune_printable by (unfold LRead.plain_byte; rewrite !orb_true_iff, !andb_true_iff; tauto).
  rewrite H34, H92. cbn [orb]. destruct Hr as [Hlo%Z.leb_le Hhi].
  rewrite (proj2 (Z.eqb_neq (b2z a) 10)), (proj2 (Z.eqb_neq (b2z a) 9)) by lia. cbn [suffix]. by rewrite IH.
Qed.

Lemma tenant_free a v : (b2z a = 33 ∨ b2z a = 61) → all_bytes_of tenant_byte v = true →
  all_bytes_of (λ c, negb (Ascii.eqb a c)) (v +:+ String dquote "") = true.
Proof.
  intros Ha Hv. rewrite all_bytes_of_app. apply andb_true_iff. split.
  - eapply all_bytes_of_impl; [|exact Hv]. intros c Hc. destruct (Ascii.eqb_spec a c) as [->|]; [|done].
    unfold tenant_byte in Hc. destruct Ha as [Ha|Ha]; rewrite Ha in Hc; done.
  - cbn. destruct (Ascii.eqb_spec a dquote) as [->|]; [|done]. by destruct Ha.
Qed.

(** The operator the matcher is cut at is its own. *)
Lemma hits_tenant o v : all_bytes_of tenant_byte v = true →
  hits tenantOps (MatchOp_String o) (v +:+ String dquote "") =
    Some (MatchOp_String o, "", String dquote (v +:+ String dquote "")).
Proof.
  intros Hv.
  assert (∀ p, Pipe.cutAt (String "!" p) (v +:+ String dquote "") = None) as Hbang
    by (intros p; apply cutAt_absent, tenant_free; auto).
  assert (∀ p, Pipe.cutAt (String "=" p) (v +:+ String dquote "") = None) as Heq
    by (intros p; apply cutAt_absent, tenant_free; auto).
  destruct o; cbn [MatchOp_String tenantOps hits]; cbn; rewrite ?Hbang, ?Heq; reflexivity.
Qed.

Lemma TrimBytes_quoted v : all_bytes_of tenant_byte v = true →
  TrimBytes Tr.quote_byte (String dquote (v +:+ String dquote "")) = v.
Proof.
  intros Hv. assert (all_bytes_of (λ c, negb (Tr.quote_byte c)) v = true) as Hq.
  { eapply all_bytes_of_impl; [|exact Hv]. intros c Hc. unfold Tr.quote_byte.
    destruct (Ascii.eqb_spec c dquote) as [->|]; [done|]. by destruct (Ascii.eqb_spec c "`") as [->|]. }
  unfold TrimBytes. destruct v as [|a v]; [reflexivity|].
  rewrite span_cons. change (Tr.quote_byte dquote) with true. cbv iota.
  assert (∀ x, span Tr.quote_byte (String a x) = ("", String a x)) as Hs.
  { intros x. rewrite span_cons. cbn in Hq. apply andb_true_iff in Hq as [Ha%negb_true_iff _]. by rewrite Ha. }
  rewrite app_str_cons, Hs. cbn [snd]. change (String a (v +:+ String dquote "")) with (String a v +:+ String dquote "").
  rewrite rev_snoc, span_cons. change (Tr.quote_byte dquote) with true. cbv iota.
  rewrite <- all_bytes_rev in Hq. destruct (rev (String a v)) as [|c x] eqn:E.
  - apply (f_equal String.length) in E. by rewrite length_rev in E.
  - cbn in Hq. apply andb_true_iff in Hq as [Hc%negb_true_iff _]. rewrite span_cons, Hc. cbn [snd].
    by rewrite <- E, rev_rev.
Qed.

Lemma tenant_matcher ids m : readable m → onTenant m = true →
  filterTenantsByMatcher ids (LabelMatcher_String m) = Ok (Some (filter (λ t, accepts m t = true) ids)).
Proof.
  intros [Hn Hv] Ht. destruct (Hv Ht) as [Hb Hre]. unfold filterTenantsByMatcher, LabelMatcher_String.
  rewrite Quote_tenant, (filterByOp_name _ _ _ _ _ Hn tenantOps_heads) by done.
  rewrite hits_tenant by done. rewrite append_nil_r, name_trim by done. unfold onTenant in Ht. rewrite Ht. cbn [negb].
  rewrite TrimSpace_solid, TrimBytes_quoted; [|done|done|].
  2:{ change (String dquote (?a +:+ ?b)) with ((String dquote a) +:+ b). by rewrite rev_snoc. }
  unfold accepts. destruct (lm_Op m) eqn:Eo; cbn [MatchOp_String]; unfold applyTenantMatch; cbn [String.eqb Ascii.eqb Bool.eqb].
  - do 2 f_equal. apply list_filter_iff. intros t. symmetry. apply String.eqb_eq.
  - do 2 f_equal. apply list_filter_iff. intros t. by rewrite negb_true_iff, String.eqb_neq.
  - destruct Hre as (re & -> & Hw); [auto|]. do 2 f_equal. apply list_filter_iff. intros t. by rewrite Hw.
  - destruct Hre as (re & -> & Hw); [auto|]. do 2 f_equal. apply list_filter_iff. intros t. by rewrite negb_true_iff, Hw.
Qed.

Definition others (ms : list LabelMatcher) : list LabelMatcher := filter (λ m, onTenant m = false) ms.

(** The tenants every matcher accepts. *)
Definition chosen (ms : list LabelMatcher) (ids : list string) : list string :=
  filter (λ t, forallb (λ m, negb (onTenant m) || accepts m t) ms = true) ids.

Lemma narrow_printed ms kept ids : Forall readable ms →
  narrow (map LabelMatcher_String ms) kept ids = Ok (kept ++ map LabelMatcher_String (others ms), chosen ms ids).
Proof.
  intros Hms. revert kept ids. induction Hms as [|m ms Hm _ IH]; intros kept ids; cbn [map narrow].
  - rewrite app_nil_r. do 2 f_equal. symmetry. apply filter_all. by apply Forall_forall.
  - destruct (onTenant m) eqn:Ht.
    + rewrite tenant_matcher, IH by done. unfold others, chosen. rewrite filter_cons_False by congruence.
      do 2 f_equal. rewrite list_filter_filter. apply list_filter_iff. intros t. cbn [forallb]. rewrite Ht. cbn.
      rewrite andb_true_iff. tauto.
    + rewrite other_matcher, IH by (apply Hm || by apply String.eqb_neq). unfold others, chosen.
      rewrite filter_cons_True by done. cbn [map]. rewrite <- app_assoc. do 2 f_equal.
      apply list_filter_iff. intros t. cbn [forallb]. by rewrite Ht.
Qed.

(** A query: a selector and, behind a space, its pipeline. *)
Definition solid_ends (s : string) : Prop := soft_start s = false ∧ soft_start (rev s) = false.

Definition behind (pipeline : string) : string := if String.eqb pipeline "" then "" else " " +:+ pipeline.

(** A text between solid bytes, with a pipeline behind it. *)
Lemma trim_query c x d pipeline : solid c = true → solid d = true → solid_ends pipeline →
  TrimSpace (String c x +:+ String d "" +:+ behind pipeline) = String c x +:+ String d "" +:+ behind pipeline.
Proof.
  intros Hc Hd [_ Hp]. apply TrimSpace_solid; unfold soft_start; [cbn; by rewrite Hc|].
  unfold behind. destruct (String.eqb_spec pipeline "") as [_|Hne].
  - rewrite append_nil_r, rev_snoc. cbn. by rewrite Hd.
  - rewrite !rev_app_str, !append_assoc. change (starts_with _ ?x) with (soft_start x).
    rewrite soft_app; [done|]. by intros ?%rev_nil_iff.
Qed.

Lemma trim_behind pipeline : solid_ends pipeline → TrimSpace (behind pipeline) = pipeline.
Proof.
  intros [H1' H2']. unfold behind. destruct (String.eqb_spec pipeline "") as [->|_]; [done|].
  change (" " +:+ pipeline) with (String " " pipeline). rewrite TrimSpace_blank. by apply TrimSpace_solid.
Qed.

Lemma split_query ms pipeline : Forall (λ m, Filter.good_name (lm_Name m)) ms → solid_ends pipeline →
  splitLeadingSelector (StreamSelector_String ms +:+ behind pipeline) = Some (StreamSelector_String ms, pipeline).
Proof.
  intros Hms Hp. set (inner := Join ", " (map LabelMatcher_String ms)).
  assert (StreamSelector_String ms +:+ behind pipeline = String "{" inner +:+ String "}" "" +:+ behind pipeline) as E
    by (unfold StreamSelector_String; by rewrite !append_assoc).
  assert (walks Tr.brace_byte false inner false) as Hw.
  { apply walks_join; [repeat (apply walks_out; [done|done|done|]); constructor|].
    apply Forall_map. eapply Forall_impl; [exact Hms|]. intros m Hm. by apply matcher_walks; [apply Tr.brace_op_free|]. }
  assert (findMatchingBraceLocal (StreamSelector_String ms +:+ behind pipeline) = Some (S (String.length inner))) as Hf.
  { rewrite E, app_str_cons. unfold findMatchingBraceLocal. cbn [findBraceLocal].
    change (Ascii.eqb "{" bslash) with false. change (Ascii.eqb "{" dquote) with false. change (Ascii.eqb "{" "{") with true.
    cbv iota. by rewrite (findBraceLocal_walks _ _ _ Hw). }
  unfold splitLeadingSelector. assert (TrimSpace (StreamSelector_String ms +:+ behind pipeline) = StreamSelector_String ms +:+ behind pipeline) as ->
    by (rewrite E; by apply trim_query).
  rewrite Hf. change (starts_with _ (StreamSelector_String ms +:+ behind pipeline)) with true. cbv iota.
  assert (S (S (String.length inner)) = String.length (StreamSelector_String ms)) as ->
    by (unfold StreamSelector_String; fold inner; rewrite !length_app_str; cbn [String.length]; lia).
  by rewrite prefix_app, suffix_app, trim_behind.
Qed.

Lemma inner_text ms :
  prefix (String.length (StreamSelector_String ms) - 2) (suffix 1 (StreamSelector_String ms)) =
    Join ", " (map LabelMatcher_String ms).
Proof.
  unfold StreamSelector_String. set (inner := Join _ _). change (suffix 1 ("{" +:+ ?x)) with x.
  rewrite !length_app_str. cbn [String.length].
  replace (1 + (String.length inner + 1) - 2)%nat with (String.length inner) by lia. apply prefix_app.
Qed.

Lemma trim_rebuilt matchers pipeline : solid_ends pipeline → TrimSpace (rebuild matchers pipeline) = rebuild matchers pipeline.
Proof.
  intros Hp. pose proof Hp as [H1' H2']. unfold rebuild. rewrite (TrimSpace_solid pipeline) by done.
  assert (∀ x, (if String.eqb pipeline "" then x else x +:+ " " +:+ pipeline) = x +:+ behind pipeline) as Hb.
  { intros x. unfold behind. destruct (String.eqb pipeline ""); [by rewrite append_nil_r|done]. }
  destruct matchers as [|m ms].
  - change "* "%string with ("*" +:+ " "). rewrite append_assoc, Hb. unfold behind.
    destruct (String.eqb_spec pipeline ""); [done|]. apply TrimSpace_solid; [done|].
    rewrite !rev_app_str, append_assoc, soft_app; [done|]. by intros ?%rev_nil_iff.
  - rewrite Hb. set (x := Join _ _). assert (("{" +:+ x +:+ "}") +:+ behind pipeline = String "{" x +:+ String "}" "" +:+ behind pipeline) as ->
      by (by rewrite !append_assoc). by apply trim_query.
Qed.

(** C37 For a query that is a printed selector, with a pipeline behind a space or none, the
    tenants it is fanned out to are, in the order of the header, exactly the ones that
    every matcher of the selector on [__tenant_id__] accepts in LogQL; the query sent to
    them is the same query without those matchers.  The values of these matchers are
    printable ASCII without quotes, backslashes and the bytes of operators
    ([operator_in_value_hides], [raw_string_hides] are what other values do), and their
    patterns are written with their own anchors, so that a search is a match of the whole
    name ([tenant_pattern_unanchored] is a pattern that is not). *)
Theorem tenants_chosen ms pipeline ids : Forall readable ms → solid_ends pipeline →
  filterTenantMatchers (StreamSelector_String ms +:+ behind pipeline) ids =
    Ok (rebuild (map LabelMatcher_String (others ms)) pipeline, chosen ms ids).
Proof.
  intros Hms Hp. assert (Forall (λ m, Filter.good_name (lm_Name m)) ms) as Hn
    by (eapply Forall_impl; [exact Hms|]; by intros m []).
  unfold filterTenantMatchers. assert (TrimSpace (StreamSelector_String ms +:+ behind pipeline) = StreamSelector_String ms +:+ behind pipeline) as ->.
  { unfold StreamSelector_String. set (inner := Join _ _).
      assert (("{" +:+ inner +:+ "}") +:+ behind pipeline = String "{" inner +:+ String "}" "" +:+ behind pipeline) as ->
        by (by rewrite !append_assoc). by apply trim_query. }
  rewrite (proj2 (String.eqb_neq _ "")) by done.
  by rewrite split_query, inner_text, split_printed, narrow_printed, trim_rebuilt.
Qed.

End Narrowing.
End TenantLaws.

(** ** Instances *)

Module TenantDemo.
Import Text Utf8 Ast Tenants TenantLaws Filter.FilterDemo.
#[local] Existing Instances ascii_tables ascii_laws.

Definition between (p q s : string) : option string :=
  if HasPrefix s p && HasSuffix s q
  then Some (prefix (String.length s - String.length p - String.length q) (suffix (String.length p) s)) else None.

(** Patterns whose only metacharacters are anchors: found anywhere in the text, or all
    of it. *)
#[local] Instance literals : Regexps := {|
  RE := string;
  re_compile s := Ok s;
  re_match re s :=
    match between "^(?:" ")$" re with
    | Some re => String.eqb s (default re (between "^" "$" re))
    | None => match between "^" "$" re with Some re => String.eqb s re | None => Contains s re end
    end
|}.

Definition strict : Proxy := mkProxy true true false true.
Definition routes : requestRouting := mkRouting {["team-a" := mkMapping "7" "1"]} "".
Definition scoped : requestRouting := mkRouting ∅ "tenant".

Lemma resolution_order_witness :
  option_map status (validateTenantHeader strict routes "/loki/api/v1/tail" "42") = None ∧
  (forwardTenantHeaders strict routes "42" ∅, scopedTenantParams routes "42" ∅) =
    (<["X-Scope-OrgID" := "42"]> (<["ProjectID" := "0"]> (<["AccountID" := "42"]> ∅)), ∅).
Proof.
  destruct (resolution_order strict routes "/loki/api/v1/tail" "42" ltac:(vm_compute; reflexivity)) as (Ha & Hs & _).
  split; [exact Ha|]. refine (proj1 (Hs _ _ _ ∅ ∅)); [vm_compute; reflexivity|vm_compute; reflexivity|discriminate].
Defined.

Definition sel : list LabelMatcher :=
  [mkLM "app" MatchEq "a, __tenant_id__=b"; mkLM "__tenant_id__" MatchNotRe "^team-c$"; mkLM "__tenant_id__" MatchNeq "team-b"].

Lemma tenants_chosen_witness :
  filterTenantMatchers (StreamSelector_String sel +:+ behind "| json") ["team-c"; "team-b"; "team-cc"; "team-a"] =
    Ok ("{app=" +:+ Quote "a, __tenant_id__=b" +:+ "} | json", ["team-cc"; "team-a"]).
Proof.
  refine (tenants_chosen sel "| json" ["team-c"; "team-b"; "team-cc"; "team-a"] _ _); [|by split].
  apply Forall_cons; split; [by split|]. apply Forall_cons; split; [split; [by split|]|].
  - intros _. split; [reflexivity|]. intros _. exists "^team-c$". split; reflexivity.
  - apply Forall_cons; split; [split; [by split|]|constructor].
    intros _. split; [reflexivity|]. intros [?|?]; discriminate.
Defined.

(** A header with a no-break space behind the tenant is admitted as that tenant, but the
    context keeps the untrimmed text and the backend gets no tenant at all. *)
Lemma untrimmed_header_unscoped :
  let header := "7" +:+ str_of [194; 160]%nat in
  validateTenantHeader strict routes "/loki/api/v1/query" header = None ∧
  setResolvedTenantHeaders routes header false ∅ = ∅ ∧ scopedTenantParams routes header ∅ = ∅ ∧
  resolve strict routes "7" = AccountTenant "7".
Proof. vm_compute. split_and!; reflexivity. Qed.

(** With label routing an unmapped default alias is admitted and sent without the
    constraint on the tenant's streams. *)
Lemma alias_unscoped p routing orgID params : tenants routing !! orgID = None → label routing ≠ "" →
  isDefaultTenantAlias orgID = true →
  validateSingleTenantOrgIDWithRouting p orgID routing = None ∧ scopedTenantParams routing orgID params = params.
Proof.
  intros Hm Hl Ha. unfold validateSingleTenantOrgIDWithRouting, scopedTenantParams.
  rewrite Hm, alias_no_wildcard, alias_safe, (proj2 (String.eqb_neq (label routing) "")), Ha by done.
  cbn [negb]. by rewrite !andb_false_r.
Qed.

(** Label matchers of LogQL are anchored; the pattern on the tenant is searched for. *)
Lemma tenant_pattern_unanchored :
  filterTenantMatchers (StreamSelector_String [mkLM "__tenant_id__" MatchRe "a"]) ["a"; "team"] = Ok ("*", ["a"; "team"]).
Proof. vm_compute. reflexivity. Qed.

(** An operator inside the value hides a matcher on the tenant. *)
Lemma operator_in_value_hides :
  filterTenantMatchers (StreamSelector_String [mkLM "__tenant_id__" MatchEq "a!=b"]) ["a!=b"; "c"] =
    Ok (StreamSelector_String [mkLM "__tenant_id__" MatchEq "a!=b"], ["a!=b"; "c"]).
Proof. vm_compute. reflexivity. Qed.

(** So does a double quote in the raw string of another matcher. *)
Lemma raw_string_hides :
  let other := "app=`" +:+ String dquote "`" in
  let query := "{" +:+ other +:+ ",__tenant_id__=" +:+ Quote "a" +:+ "}" in
  filterTenantMatchers query ["a"; "b"] = Ok (query, ["a"; "b"]).
Proof. vm_compute. reflexivity. Qed.

End TenantDemo.
