(* ===== verification/Fanout.v ===== *)
(** * One request, several tenants
      (src/internal/proxy/multitenant.go)

    A header with several tenants is answered by asking each chosen tenant on its own and
    merging the answers.  The answer of a single tenant, [serveEndpoint], is any answer the
    single-tenant handlers may give to its request (what they keep in the cache themselves is
    not modelled); encoding/json is the class [Bodies], whose values are
    the interface{} values of Go. *)

From S2P Require Import Prelude GoText Utf8 JsonText LogqlAst LogqlFilter LogqlPipeline TimeUtils Backend Translator Windowing Tenants.

#[local] Open Scope Z_scope.
#[local] Arguments String.append !_ _ /.

(** ** Values *)

(** An interface{} value.  Decoded JSON has no [Int] and no [Strs]; the keys of an [Obj]
    are distinct. *)
Inductive any `{Floats} : Type :=
| Nil
| Bool (b : bool)
| Num (f : F)
| Int (n : Z)
| Str (s : string)
| Strs (l : list string)
| Arr (l : list any)
| Obj (m : list (string * any)).

Section Records.
Context `{Floats}.

Record lokiStreamResult : Type := mkStream { Stream : gmap string string; Values : list (list any) }.
Record lokiVectorResult : Type := mkVector { v_Metric : gmap string string; Value : list any }.
Record lokiMatrixResult : Type := mkMatrix { m_Metric : gmap string string; m_Values : list (list any) }.

(** [lokiQueryResponse]; the result is decoded once its type is known. *)
Record lokiQueryResponse : Type := mkQuery {
  ResultType : string;
  Result : string;
  Stats : string;
  EncodingFlags : list string
}.

Inductive resultBody : Type :=
| Streams (l : list lokiStreamResult)
| Vectors (l : list lokiVectorResult)
| Matrixes (l : list lokiMatrixResult)
| NoResult.

(** The merged answer; empty stats stand for an empty object, no flags for no member. *)
Record mergedQuery : Type := mkMerged {
  mergedType : string;
  mergedResult : resultBody;
  mergedStats : string;
  mergedFlags : list string
}.

Record detectedFieldRecord : Type := mkField {
  df_Label : string;
  df_Type : string;
  df_Cardinality : Z;
  df_Parsers : list string;
  df_JSONPath : list any
}.

Record patternResultEntry : Type := mkPattern {
  Pattern : string;
  Level : string;
  Samples : list (list any)
}.

End Records.

(** encoding/json on the response types, [fmt.Sprintf] with %v, the conversion of a float64
    to an int. *)
Class Bodies `{Floats} : Type := {
  decodeList : string → result (list string);
  decodeSeries : string → result (list (gmap string string));
  decodeQuery : string → result lokiQueryResponse;
  decodeStreams : string → result (list lokiStreamResult);
  decodeVectors : string → result (list lokiVectorResult);
  decodeMatrixes : string → result (list lokiMatrixResult);
  decodeStats : string → result (gmap string any);
  decodeFields : string → result (list detectedFieldRecord);
  decodeValues : string → result (list string);
  decodeLabels : string → result (list (string * Z));
  decodePatterns : string → result (list patternResultEntry);
  decodeError : string → option string;
  encodeList : list string → string;
  encodeSeries : list (gmap string string) → string;
  encodeQuery : mergedQuery → string;
  encodeStats : gmap string Z → string;
  encodeFields : list detectedFieldRecord → option Z → string;
  encodeValues : list string → string;
  encodeLabels : list (string * Z) → option Z → string;
  encodePatterns : list patternResultEntry → string;
  sprint : any → string;
  truncInt : F → Z
}.

Module Fanout.
Import Text Utf8 Tenants.

Section Merging.
Context `{Bodies} `{Unicode}.

(** ** Labels and stream metadata *)

Definition injectTenantLabel (labels : gmap string string) (tenantID : string) : gmap string string :=
  let labels :=
    match labels !! "__tenant_id__" with
    | Some existing =>
        match labels !! "original___tenant_id__" with
        | None => <["original___tenant_id__" := existing]> labels
        | Some _ => labels
        end
    | None => labels
    end in
  <["__tenant_id__" := tenantID]> labels.

Definition uniqueSortedStrings (values : list string) : list string :=
  sortStrings (elements (list_to_set (filter (λ v, v ≠ "") values) : gset string)).

Fixpoint member (key : string) (m : list (string * any)) : option any :=
  match m with
  | [] => None
  | (k, v) :: m => if String.eqb k key then Some v else member key m
  end.

Definition normalizeMetadataStringValue (raw : any) : string :=
  match raw with
  | Nil => ""
  | _ => sprint raw
  end.

(** One item of a metadata array. *)
Definition metadataItem (out : gmap string string) (item : any) : gmap string string :=
  match item with
  | Arr (k :: v :: _) =>
      let key := sprint k in
      if String.eqb (TrimSpace key) "" then out else <[key := sprint v]> out
  | Obj members =>
      let name := TrimSpace (sprint (default Nil (member "name" members))) in
      if String.eqb name "" then out
      else <[name := normalizeMetadataStringValue (default Nil (member "value" members))]> out
  | _ => out
  end.

Definition metadataMember (out : gmap string string) (kv : string * any) : gmap string string :=
  let trimmed := TrimSpace kv.1 in
  if String.eqb trimmed "" then out else <[trimmed := normalizeMetadataStringValue kv.2]> out.

Definition normalizeMetadataPairs (raw : any) : gmap string string :=
  match raw with
  | Arr items => foldl metadataItem ∅ items
  | Obj m => foldl metadataMember ∅ (SliceStable (λ a b, String.ltb a.1 b.1) m)
  | _ => ∅
  end.

Definition setMember (key : string) (v : any) (m : list (string * any)) : list (string * any) :=
  map (λ kv, if String.eqb kv.1 key then (kv.1, v) else kv) m.

Definition dropMember (key : string) (m : list (string * any)) : list (string * any) :=
  filter (λ kv, kv.1 ≠ key) m.

Definition stringsObj (m : gmap string string) : any := Obj (map (λ kv, (kv.1, Str kv.2)) (map_to_list m)).

Definition normalizeMember (key : string) (meta : list (string * any)) : list (string * any) :=
  match member key meta with
  | None => meta
  | Some raw =>
      let normalized := normalizeMetadataPairs raw in
      if decide (normalized = ∅) then dropMember key meta else setMember key (stringsObj normalized) meta
  end.

Definition normalizeTuple (tuple : list any) : list any :=
  match tuple with
  | ts :: line :: Obj (x :: meta) :: rest =>
      ts :: line :: Obj (normalizeMember "parsed" (normalizeMember "structuredMetadata" (x :: meta))) :: rest
  | _ => tuple
  end.

Definition normalizeMetadataPairTuples (values : list (list any)) : list (list any) := map normalizeTuple values.

Definition streamValuesHaveCategorizedMetadata (values : list (list any)) : bool :=
  existsb (λ tuple, match tuple with _ :: _ :: Obj _ :: _ => true | _ => false end) values.

Definition latestStreamTimestampStrings (values : list (list any)) : string :=
  match values with
  | (ts :: _) :: _ => sprint ts
  | _ => ""
  end.

(** ** Queries *)

Record mergeState : Type := mkMergeState {
  resultType : string;
  stats : string;
  streams : list lokiStreamResult;
  vectors : list lokiVectorResult;
  matrixes : list lokiMatrixResult;
  encodingFlagsSet : gset string
}.

Definition emptyMerge : mergeState := mkMergeState "" "" [] [] [] ∅.

Definition tenantStream (tenantID : string) (item : lokiStreamResult) : lokiStreamResult :=
  mkStream (injectTenantLabel (Stream item) tenantID) (normalizeMetadataPairTuples (Values item)).

Definition tenantVector (tenantID : string) (item : lokiVectorResult) : lokiVectorResult :=
  mkVector (injectTenantLabel (v_Metric item) tenantID) (Value item).

Definition tenantMatrix (tenantID : string) (item : lokiMatrixResult) : lokiMatrixResult :=
  mkMatrix (injectTenantLabel (m_Metric item) tenantID) (m_Values item).

(** The flags of a response, and the one its tuples ask for. *)
Definition flagsOf (resp : lokiQueryResponse) : gset string :=
  list_to_set (filter (λ f, f ≠ "") (map TrimSpace (EncodingFlags resp))).

Definition tupleFlags (items : list lokiStreamResult) : gset string :=
  if existsb (λ s, streamValuesHaveCategorizedMetadata (Values s)) items then {["categorize-labels"]} else ∅.

(** One tenant's answer. *)
Definition mergeOne (st : mergeState) (tenantID body : string) : result mergeState :=
  match decodeQuery body with
  | Err e => Err e
  | Ok resp =>
      let flags := encodingFlagsSet st ∪ flagsOf resp in
      let rt := if negb (String.eqb (ResultType resp) "") && String.eqb (resultType st) "" then ResultType resp else resultType st in
      let sts := if String.eqb (Stats resp) "" then stats st else Stats resp in
      if String.eqb (ResultType resp) "streams" then
        match decodeStreams (Result resp) with
        | Err e => Err e
        | Ok items =>
            let items := map (tenantStream tenantID) items in
            Ok (mkMergeState rt sts (streams st ++ items) (vectors st) (matrixes st) (flags ∪ tupleFlags items))
        end
      else if String.eqb (ResultType resp) "vector" then
        match decodeVectors (Result resp) with
        | Err e => Err e
        | Ok items => Ok (mkMergeState rt sts (streams st) (vectors st ++ map (tenantVector tenantID) items) (matrixes st) flags)
        end
      else if String.eqb (ResultType resp) "matrix" then
        match decodeMatrixes (Result resp) with
        | Err e => Err e
        | Ok items => Ok (mkMergeState rt sts (streams st) (vectors st) (matrixes st ++ map (tenantMatrix tenantID) items) flags)
        end
      else Ok (mkMergeState rt sts (streams st) (vectors st) (matrixes st) flags)
  end.

Fixpoint mergeAll (st : mergeState) (answers : list (string * string)) : result mergeState :=
  match answers with
  | [] => Ok st
  | (tenantID, body) :: answers =>
      match mergeOne st tenantID body with
      | Err e => Err e
      | Ok st => mergeAll st answers
      end
  end.

(** A vector among matrixes becomes a matrix of one sample. *)
Definition promote (v : lokiVectorResult) : lokiMatrixResult := mkMatrix (v_Metric v) [Value v].

Definition newestFirst (a b : lokiStreamResult) : bool :=
  String.ltb (latestStreamTimestampStrings (Values b)) (latestStreamTimestampStrings (Values a)).

Definition finishMerge (st : mergeState) : mergedQuery :=
  let promoted := (0 <? length (matrixes st))%nat && (String.eqb (resultType st) "vector" || (0 <? length (vectors st))%nat) in
  let ms := if promoted then matrixes st ++ map promote (vectors st) else matrixes st in
  let rt := if promoted then "matrix" else resultType st in
  let body :=
    if String.eqb rt "streams" then Streams (SliceStable newestFirst (streams st))
    else if String.eqb rt "vector" then Vectors (vectors st)
    else if String.eqb rt "matrix" then Matrixes ms
    else NoResult in
  mkMerged rt body (stats st) (sortStrings (elements (encodingFlagsSet st))).

Definition mergeLokiQueryResponses (answers : list (string * string)) : result mergedQuery :=
  match mergeAll emptyMerge answers with
  | Err e => Err e
  | Ok st => Ok (finishMerge st)
  end.

(** ** Lists, series, statistics *)

(** The values of every answer, one after another. *)
Fixpoint decodeEach {A} (decode : string → result (list A)) (bodies : list string) : result (list A) :=
  match bodies with
  | [] => Ok []
  | body :: bodies =>
      match decode body with
      | Err e => Err e
      | Ok l =>
          match decodeEach decode bodies with
          | Err e => Err e
          | Ok rest => Ok (l ++ rest)
          end
      end
  end.

Fixpoint seriesEach (answers : list (string * string)) (seen : gmap string (gmap string string)) :
    result (gmap string (gmap string string)) :=
  match answers with
  | [] => Ok seen
  | (tenantID, body) :: answers =>
      match decodeSeries body with
      | Err e => Err e
      | Ok items =>
          seriesEach answers
            (foldl (λ seen item, let labels := injectTenantLabel item tenantID in
                                 <[Win.canonicalLabelsKey labels := labels]> seen) seen items)
      end
  end.

Definition mergeSeriesResponses (answers : list (string * string)) : result (list (gmap string string)) :=
  match seriesEach answers ∅ with
  | Err e => Err e
  | Ok seen => Ok (omap (λ k, seen !! k) (sortStrings (elements (dom seen))))
  end.

Definition statKeys : list string := ["streams"; "chunks"; "bytes"; "entries"].

Definition addStat (resp : gmap string any) (key : string) (total : Z) : Z :=
  match resp !! key with
  | Some (Num f) => wrap64 (total + truncInt f)
  | Some (Int n) => wrap64 (total + n)
  | _ => total
  end.

Fixpoint statsEach (bodies : list string) (totals : gmap string Z) : result (gmap string Z) :=
  match bodies with
  | [] => Ok totals
  | body :: bodies =>
      match decodeStats body with
      | Err e => Err e
      | Ok resp => statsEach bodies (map_imap (λ k n, Some (addStat resp k n)) totals)
      end
  end.

Definition mergeIndexStatsResponses (bodies : list string) : result (gmap string Z) :=
  statsEach bodies (list_to_map (map (λ k, (k, 0)) statKeys)).

Definition mergeDetectedFieldValuesResponses (bodies : list string) : result (list string) :=
  match decodeEach decodeValues bodies with
  | Err e => Err e
  | Ok values => Ok (uniqueSortedStrings values)
  end.

(** ** Detected fields and labels *)

Record mergedField : Type := mkMergedField {
  mf_Type : string;
  mf_Cardinality : Z;
  mf_Parsers : gset string;
  mf_JSONPath : list any
}.

Definition addField (merged : gmap string mergedField) (item : detectedFieldRecord) : gmap string mergedField :=
  if String.eqb (df_Label item) "" then merged
  else
    let mf := default (mkMergedField (df_Type item) 0 ∅ (df_JSONPath item)) (merged !! df_Label item) in
    <[df_Label item := mkMergedField (mf_Type mf) (wrap64 (mf_Cardinality mf + df_Cardinality item))
                         (mf_Parsers mf ∪ list_to_set (df_Parsers item)) (mf_JSONPath mf)]> merged.

Definition fieldList (merged : gmap string mergedField) : list detectedFieldRecord :=
  omap (λ label, option_map (λ mf, mkField label (mf_Type mf) (mf_Cardinality mf)
                                     (sortStrings (elements (mf_Parsers mf))) (mf_JSONPath mf)) (merged !! label))
    (sortStrings (elements (dom merged))).

Definition mergeDetectedFieldsResponses (bodies : list string) : result (list detectedFieldRecord) :=
  match decodeEach decodeFields bodies with
  | Err e => Err e
  | Ok items => Ok (fieldList (foldl addField ∅ items))
  end.

(** [service_name] comes first. *)
Definition labelBefore (a b : string) : bool :=
  if String.eqb a "service_name" then true
  else if String.eqb b "service_name" then false
  else String.ltb a b.

Definition addCardinality (cardinality : gmap string Z) (item : string * Z) : gmap string Z :=
  if String.eqb item.1 "" then cardinality
  else <[item.1 := wrap64 (default 0 (cardinality !! item.1) + item.2)]> cardinality.

Definition mergeDetectedLabelsResponses (tenantIDs bodies : list string) : result (list (string * Z)) :=
  match decodeEach decodeLabels bodies with
  | Err e => Err e
  | Ok items =>
      let cardinality := foldl addCardinality {["__tenant_id__" := Z.of_nat (length tenantIDs)]} items in
      Ok (map (λ l, (l, default 0 (cardinality !! l))) (SliceStable labelBefore (elements (dom cardinality))))
  end.

(** ** Patterns *)

Record bucket : Type := mkBucket {
  b_level : string;
  b_pattern : string;
  b_samples : gmap Z Z;
  b_total : Z
}.

Definition numberToInt64 (v : any) : option Z :=
  match v with
  | Num f => Some (truncInt f)
  | Int n => Some n
  | _ => None
  end.

Definition addSample (b : bucket) (sample : list any) : bucket :=
  match sample with
  | t :: c :: _ =>
      match numberToInt64 t, numberToInt64 c with
      | Some ts, Some count =>
          mkBucket (b_level b) (b_pattern b)
            (<[ts := wrap64 (default 0 (b_samples b !! ts) + count)]> (b_samples b)) (wrap64 (b_total b + count))
      | _, _ => b
      end
  | _ => b
  end.

Definition patternKey (item : patternResultEntry) : string := Level item +:+ ch 0 +:+ Pattern item.

Definition addPattern (merged : gmap string bucket) (item : patternResultEntry) : gmap string bucket :=
  let b := default (mkBucket (Level item) (Pattern item) ∅ 0) (merged !! patternKey item) in
  <[patternKey item := foldl addSample b (Samples item)]> merged.

Definition bucketEntry (b : bucket) : patternResultEntry :=
  mkPattern (b_pattern b) (b_level b)
    (map (λ ts, [Int ts; Int (default 0 (b_samples b !! ts))]) (SliceStable Z.ltb (elements (dom (b_samples b))))).

(** Among equal totals the order is that of the map. *)
Definition mergePatternsResponses (bodies : list string) : result (list patternResultEntry) :=
  match decodeEach decodePatterns bodies with
  | Err e => Err e
  | Ok items =>
      let merged := foldl addPattern ∅ items in
      Ok (map bucketEntry (SliceStable (λ a b, b_total b <? b_total a) (map_to_list merged).*2))
  end.

(** ** The endpoints *)

Definition mapOk {A} (f : A → string) (r : result A) : result string :=
  match r with
  | Ok a => Ok (f a)
  | Err e => Err e
  end.

Definition mergeMultiTenantResponses (endpoint : string) (answers : list (string * string)) : result string :=
  let tenantIDs := answers.*1 in
  let bodies := answers.*2 in
  if String.eqb endpoint "labels" then
    mapOk (λ values, encodeList (uniqueSortedStrings (values ++ ["__tenant_id__"]))) (decodeEach decodeList bodies)
  else if String.eqb endpoint "label_values" then
    mapOk (λ values, encodeList (uniqueSortedStrings values)) (decodeEach decodeList bodies)
  else if String.eqb endpoint "series" then mapOk encodeSeries (mergeSeriesResponses answers)
  else if bool_decide (endpoint ∈ ["query"; "query_range"; "volume"; "volume_range"]) then
    mapOk encodeQuery (mergeLokiQueryResponses answers)
  else if String.eqb endpoint "index_stats" then mapOk encodeStats (mergeIndexStatsResponses bodies)
  else if String.eqb endpoint "detected_fields" then
    mapOk (λ l, encodeFields l None) (mergeDetectedFieldsResponses bodies)
  else if String.eqb endpoint "detected_field_values" then mapOk encodeValues (mergeDetectedFieldValuesResponses bodies)
  else if String.eqb endpoint "detected_labels" then
    mapOk (λ l, encodeLabels l None) (mergeDetectedLabelsResponses tenantIDs bodies)
  else if String.eqb endpoint "patterns" then mapOk encodePatterns (mergePatternsResponses bodies)
  else Err ("unsupported multi-tenant endpoint " +:+ Quote endpoint).

End Merging.
(** ** Answers *)

(** What a handler wrote: the status, the body and the headers the fan-out reads. *)
Record recorder : Type := mkRec {
  Code : Z;
  Body : string;
  ContentType : string;
  StaleHeader : string;
  PartialStatus : string;
  UpstreamError : string
}.

Definition jsonAnswer (code : Z) (body : string) : recorder := mkRec code body "application/json" "" "" "".

(** A JSON text, with apostrophes for its quotes. *)
Definition js (s : string) : string := Logsql.replaceByte "'" (String dquote "") s.

Definition lokiErrorType (code : Z) : string :=
  if code =? 400 then "bad_data"
  else if code =? 404 then "not_found"
  else if code =? 406 then "not_acceptable"
  else if code =? 422 then "execution"
  else if code =? 499 then "canceled"
  else if code =? 500 then "internal"
  else if code =? 502 then "unavailable"
  else if code =? 503 then "timeout"
  else if code =? 504 then "timeout"
  else if (400 <=? code) && (code <? 500) then "bad_data"
  else "internal".

Definition errorEnvelope (code : Z) (msg : string) : gmap string string :=
  <["status" := "error"]> (<["errorType" := lokiErrorType code]> {["error" := msg]}).

Definition writeError (code : Z) (msg : string) : recorder :=
  jsonAnswer code (JsonText.MarshalLabels (errorEnvelope code msg) +:+ ch 10).

Definition emptyMultiTenantResponse (endpoint : string) : string :=
  if bool_decide (endpoint ∈ ["labels"; "label_values"; "series"; "patterns"]) then js "{'data':[],'status':'success'}"
  else if bool_decide (endpoint ∈ ["query"; "query_range"]) then
    js "{'data':{'result':[],'resultType':'streams','stats':{}},'status':'success'}"
  else if String.eqb endpoint "index_stats" then js "{'bytes':0,'chunks':0,'entries':0,'streams':0}"
  else if bool_decide (endpoint ∈ ["volume"; "volume_range"]) then
    js "{'data':{'result':[],'resultType':'vector'},'status':'success'}"
  else if String.eqb endpoint "detected_fields" then js "{'data':[],'fields':[],'status':'success'}"
  else if String.eqb endpoint "detected_field_values" then js "{'data':[],'status':'success','values':[]}"
  else if String.eqb endpoint "detected_labels" then js "{'data':[],'detectedLabels':[],'status':'success'}"
  else js "{'status':'success'}".

Definition multiTenantSubRequestFailure (rec : recorder) : Z :=
  if 400 <=? Code rec then Code rec
  else if negb (String.eqb (PartialStatus rec) "") then
    match Atoi (PartialStatus rec) with
    | Some code => if 400 <=? code then code else 502
    | None => 502
    end
  else 0.

Definition multiTenantFailureStatus (code : Z) : Z :=
  if (code <? 500) || (code =? 504) then code else 500.

Definition metadataListPayloadEmpty (body : string) : bool :=
  if 64 <? len body then false else Contains body (js "'data':[]") || Contains body (js "'data':null").

Definition maxMultiTenantFanout : nat := 64.
Definition maxMultiTenantMergedResponseBytes : Z := 32 * 2 ^ 20.

Definition detectedFieldValuesDefaultLimit : Z := 100.

Definition positiveOr (value : string) (limit : Z) : Z :=
  let value := TrimSpace value in
  if String.eqb value "" then limit
  else match Atoi value with Some n => if 0 <? n then n else limit | None => limit end.

Definition parseDetectedLineLimit (r : request) : Z :=
  positiveOr (Get (Params r) "limit") (positiveOr (Get (Params r) "line_limit") detectedFieldValuesDefaultLimit).

(** The request on behalf of one tenant. *)
Definition forTenant (r : request) (tenantID : string) : request :=
  mkRequest (Method r) (Path r) tenantID (Params r).

(** The failure that is reported: a 400 if there is one, else the first. *)
Definition worse (failed : option (recorder * Z)) (rec : recorder) : option (recorder * Z) :=
  let status := multiTenantSubRequestFailure rec in
  if status =? 0 then failed
  else
    match failed with
    | None => Some (rec, status)
    | Some (_, before) => if (status =? 400) && negb (before =? 400) then Some (rec, status) else failed
    end.

Definition failedOf (recs : list recorder) : option (recorder * Z) := foldl worse None recs.

Section Handler.
Context `{Bodies} `{Unicode} `{Regexps}.

Definition writeMultiTenantFailure (failed : recorder) (failureStatus : Z) : recorder :=
  let code := multiTenantFailureStatus failureStatus in
  if code =? Code failed then mkRec code (Body failed) (ContentType failed) "" "" ""
  else
    let msg :=
      if 400 <=? Code failed then
        match decodeError (Body failed) with
        | Some e => if String.eqb e "" then TrimSpace (Body failed) else e
        | None => TrimSpace (Body failed)
        end
      else UpstreamError failed in
    writeError code (if String.eqb msg "" then "multi-tenant sub-request failed" else msg).

(** What the proxy around the fan-out supplies: the single-tenant handlers, the detection
    calls, the canonical cache key, the raw query text, the cache and its lifetimes. *)
Context {C : Type} (cache_get : string → C → option string * C) (cache_set : string → string → Z → C → C)
  (serveEndpoint : string → request → recorder)
  (detectFields : request → Z → (list (gmap string any) * gmap string (list string)) + Backend.goerr)
  (detectLabels : request → Z → gmap string (string * gset string) + Backend.goerr)
  (canonicalReadCacheKey : string → string → request → list string → string)
  (rawQuery : request → string) (tupleModeCacheKey : request → string)
  (CacheTTLs : string → Z) (metadataNegativeTTL : Z).

Definition cachedEndpoints : list string :=
  ["patterns"; "index_stats"; "volume"; "volume_range"; "detected_labels"; "detected_fields"; "detected_field_values";
   "series"; "labels"; "label_values"; "query"; "query_range"].

Fixpoint afterPart (part : string) (parts : list string) : option string :=
  match parts with
  | p :: rest =>
      match rest with
      | next :: _ => if String.eqb p part then Some next else afterPart part rest
      | [] => None
      end
  | [] => None
  end.

Definition multiTenantCacheKey (r : request) (endpoint : string) : option string :=
  if negb (String.eqb (Method r) "GET") then None
  else if bool_decide (endpoint ∈ cachedEndpoints) then
    let canonical extra := "mt:" +:+ canonicalReadCacheKey endpoint (OrgID r) r extra in
    let plain := "mt:" +:+ endpoint +:+ ":" +:+ OrgID r +:+ ":" +:+ rawQuery r in
    let parts := Split "/" (Path r) in
    Some
      (if String.eqb endpoint "label_values" then
         (if (7 <=? length parts)%nat then canonical [default "" (parts !! 5%nat)] else plain)
       else if String.eqb endpoint "detected_field_values" then
         match afterPart "detected_field" parts with
         | Some name => canonical [name]
         | None => plain
         end
       else if bool_decide (endpoint ∈ ["query"; "query_range"]) then canonical [tupleModeCacheKey r]
       else canonical [])
  else None.

Definition setMultiTenantMergeCache (endpoint cacheKey body : string) (c : C) : C :=
  let ttl :=
    if bool_decide (endpoint ∈ ["labels"; "label_values"]) && metadataListPayloadEmpty body then metadataNegativeTTL
    else CacheTTLs endpoint in
  cache_set cacheKey body ttl c.

Definition writeMultiTenantMerged (r : request) (endpoint body : string) (stale : bool) (c : C) : recorder * C :=
  let answer := mkRec 200 body "application/json" (if stale then "true" else "") "" "" in
  if stale then (answer, c)
  else
    match multiTenantCacheKey r endpoint with
    | Some key => (answer, setMultiTenantMergeCache endpoint key body c)
    | None => (answer, c)
    end.

(** Detected fields are merged by their values; [card] is the greatest count a tenant gave. *)
Record detectedField : Type := mkDetected {
  d_Type : string;
  d_Parsers : gset string;
  d_JSONPath : list any;
  d_Values : gset string;
  d_CardinalityFloor : Z
}.

Definition addDetected (fieldValues : gmap string (list string)) (merged : gmap string detectedField)
    (item : gmap string any) : gmap string detectedField :=
  match item !! "label" with
  | Some (Str label) =>
      if String.eqb label "" then merged
      else
        let mf :=
          default (mkDetected (sprint (default Nil (item !! "type"))) ∅
                     (match item !! "jsonPath" with Some (Arr jp) => jp | _ => [] end) ∅ 0) (merged !! label) in
        let floor :=
          match numberToInt64 (default Nil (item !! "cardinality")) with
          | Some card => if d_CardinalityFloor mf <? card then card else d_CardinalityFloor mf
          | None => d_CardinalityFloor mf
          end in
        let parsers := match item !! "parsers" with Some (Arr ps) => list_to_set (map sprint ps) | _ => ∅ end in
        <[label := mkDetected (d_Type mf) (d_Parsers mf ∪ parsers) (d_JSONPath mf)
                     (d_Values mf ∪ list_to_set (default [] (fieldValues !! label))) floor]> merged
  | _ => merged
  end.

(** The loop over the tenants; a rejected query ends it. *)
Fixpoint detectEach {A B} (detect : request → Z → B + Backend.goerr) (add : string → A → B → A)
    (r : request) (lineLimit : Z) (tenantIDs : list string) (merged : A) (tenantErr : option Backend.goerr) :
    A + Backend.goerr :=
  match tenantIDs with
  | [] => match tenantErr with None => inl merged | Some e => inr e end
  | tenantID :: rest =>
      match detect (forTenant r tenantID) lineLimit with
      | inr e =>
          if Backend.isUpstreamQueryRejected (Some e) then inr e
          else detectEach detect add r lineLimit rest merged (Some (default e tenantErr))
      | inl found =>
          match tenantErr with
          | Some _ => detectEach detect add r lineLimit rest merged tenantErr
          | None => detectEach detect add r lineLimit rest (add tenantID merged found) None
          end
      end
  end.

Definition detectedRecord (label : string) (mf : detectedField) : detectedFieldRecord :=
  mkField label (d_Type mf) (Z.max (d_CardinalityFloor mf) (Z.of_nat (size (d_Values mf))))
    (sortStrings (elements (d_Parsers mf))) (d_JSONPath mf).

Definition multiTenantDetectedFieldsResponse (r : request) (tenantIDs : list string) : string + Backend.goerr :=
  let lineLimit := parseDetectedLineLimit r in
  match detectEach detectFields (λ _ merged found, foldl (addDetected found.2) merged found.1) r lineLimit tenantIDs ∅ None with
  | inr e => inr e
  | inl merged =>
      inl (encodeFields (omap (λ l, option_map (detectedRecord l) (merged !! l)) (sortStrings (elements (dom merged))))
             (Some lineLimit))
  end.

(** The values a label has with any tenant. *)
Definition addSummaries (tenantID : string) (merged : gmap string (string * gset string))
    (summaries : gmap string (string * gset string)) : gmap string (string * gset string) :=
  union_with (λ a b, Some (a.1, a.2 ∪ b.2))
    (alter (λ s, (s.1, {[tenantID]} ∪ s.2)) "__tenant_id__" merged) summaries.

Definition formatDetectedLabelSummaries (summaries : gmap string (string * gset string)) : list (string * Z) :=
  let entry l := option_map (λ s, (s.1, Z.of_nat (size s.2))) (summaries !! l) in
  omap entry ["service_name"] ++
  omap entry (sortStrings (filter (λ l, l ≠ "service_name") (elements (dom summaries)))).

Definition multiTenantDetectedLabelsResponse (r : request) (tenantIDs : list string) : string + Backend.goerr :=
  let lineLimit := parseDetectedLineLimit r in
  match detectEach detectLabels addSummaries r lineLimit tenantIDs {["__tenant_id__" := ("__tenant_id__", ∅)]} None with
  | inr e => inr e
  | inl merged => inl (encodeLabels (formatDetectedLabelSummaries merged) (Some lineLimit))
  end.

(** ** The fan-out *)

(** Every tenant is asked on its own; the answers are kept in the order of the tenants. *)
Definition askTenants (endpoint : string) (r : request) (tenantIDs : list string) : list (string * recorder) :=
  map (λ t, (t, serveEndpoint endpoint (forTenant r t))) tenantIDs.

Definition mergeAnswers (endpoint : string) (r : request) (answers : list (string * recorder)) (c : C) : recorder * C :=
  match failedOf answers.*2 with
  | Some (failed, status) => (writeMultiTenantFailure failed status, c)
  | None =>
      let stale := existsb (λ a, negb (String.eqb (StaleHeader a.2) "")) answers in
      match mergeMultiTenantResponses endpoint (map (λ a, (a.1, Body a.2)) answers) with
      | Err e => (writeError 500 ("failed to merge multi-tenant response: " +:+ e), c)
      | Ok body =>
          if maxMultiTenantMergedResponseBytes <? len body
          then (writeError 413 "multi-tenant merged response exceeds configured safety limit", c)
          else writeMultiTenantMerged r endpoint body stale c
      end
  end.

Definition mergeDetected (endpoint : string) (r : request) (tenantIDs : list string) (c : C) : recorder * C :=
  match (if String.eqb endpoint "detected_labels" then multiTenantDetectedLabelsResponse r tenantIDs
         else multiTenantDetectedFieldsResponse r tenantIDs) with
  | inr e => (writeError (multiTenantFailureStatus (Backend.statusFromUpstreamErr (Some e))) (Backend.text e), c)
  | inl body => writeMultiTenantMerged r endpoint body false c
  end.

Definition cacheLookup (key : option string) (c : C) : option string * C :=
  match key with
  | Some key => cache_get key c
  | None => (None, c)
  end.

(** [None]: the request is not one for several tenants. *)
Definition handleMultiTenantFanout (r : request) (endpoint : string) (c : C) : option recorder * C :=
  let orgID := TrimSpace (OrgID r) in
  if negb (hasMultiTenantOrgID orgID) then (None, c)
  else
    let tenantIDs := splitMultiTenantOrgIDs orgID in
    if (length tenantIDs <? 2)%nat then (None, c)
    else if (maxMultiTenantFanout <? length tenantIDs)%nat then
      (Some (writeError 400 "multi-tenant fanout exceeds limit of 64 tenants"), c)
    else
      match applyTenantSelectorFilter r tenantIDs with
      | Err e => (Some (writeError 400 e), c)
      | Ok (_, []) => (Some (jsonAnswer 200 (emptyMultiTenantResponse endpoint +:+ ch 10)), c)
      | Ok (filtered, chosen) =>
          let '(hit, c) := cacheLookup (multiTenantCacheKey filtered endpoint) c in
          match hit with
          | Some cached => (Some (jsonAnswer 200 cached), c)
          | None =>
              let '(answer, c) :=
                if bool_decide (endpoint ∈ ["detected_fields"; "detected_labels"])
                then mergeDetected endpoint filtered chosen c
                else mergeAnswers endpoint filtered (askTenants endpoint filtered chosen) c in
              (Some answer, c)
          end
      end.

End Handler.
End Fanout.

Module FanoutLaws.
Import Text Utf8 Tenants TenantLaws Fanout.

(** ** Choosing only narrows *)

Section Narrowing.
Context `{Regexps}.

Lemma applyTenantMatch_sub ids op raw next : applyTenantMatch ids op raw = Ok (Some next) → next `sublist_of` ids.
Proof.
  unfold applyTenantMatch. intros E. dmatches E; apply sublist_filter.
Qed.

Lemma filterByOp_sub ops ids m next : filterByOp ops ids m = Ok (Some next) → next `sublist_of` ids.
Proof.
  induction ops as [|op ops IH]; [done|]. cbn [filterByOp]. destruct (Pipe.cutAt op m) as [[b a]|]; [|done].
  destruct (String.eqb b ""); [done|]. destruct (negb _); [done|]. apply applyTenantMatch_sub.
Qed.

Lemma narrow_sub ms kept ids kept' next : narrow ms kept ids = Ok (kept', next) → next `sublist_of` ids.
Proof.
  revert kept ids. induction ms as [|m ms IH]; intros kept ids; cbn [narrow]; [by intros [= _ ->]|].
  destruct (filterTenantsByMatcher ids m) as [[l|]|] eqn:E; [|apply IH|done].
  intros Hn%IH. apply filterByOp_sub in E. by etrans.
Qed.

Lemma filterTenantMatchers_sub q ids q' next : filterTenantMatchers q ids = Ok (q', next) → next `sublist_of` ids.
Proof.
  unfold filterTenantMatchers. destruct (String.eqb _ ""); [by intros [= _ ->]|].
  destruct (splitLeadingSelector _) as [[s rest]|]; [|by intros [= _ ->]].
  destruct (narrow _ _ _) as [[l r]|] eqn:E; [|done]. intros [= _ <-]. by eapply narrow_sub.
Qed.

Lemma filterEach_sub exprs ids out next : filterEach exprs ids = Ok (out, next) → next `sublist_of` ids.
Proof.
  revert ids out. induction exprs as [|e exprs IH]; intros ids out; cbn [filterEach]; [by intros [= _ ->]|].
  destruct (filterTenantMatchers e ids) as [[u l]|] eqn:E; [|done].
  destruct (filterEach exprs l) as [[rest r]|] eqn:Er; [|done]. intros [= _ <-].
  apply IH in Er. apply filterTenantMatchers_sub in E. by etrans.
Qed.

Lemma applyTenantSelectorFilter_sub r ids filtered next :
  applyTenantSelectorFilter r ids = Ok (filtered, next) → next `sublist_of` ids.
Proof.
  unfold applyTenantSelectorFilter. destruct (negb _).
  - destruct (filterTenantMatchers _ ids) as [[q l]|] eqn:E; [|done]. intros [= _ <-]. by eapply filterTenantMatchers_sub.
  - destruct (Params r !! "match[]") as [[|e exprs]|]; [by intros [= _ <-]| |by intros [= _ <-]].
    destruct (filterEach _ ids) as [[u l]|] eqn:E; [|done]. intros [= _ <-]. by eapply filterEach_sub.
Qed.

End Narrowing.

(** ** What an answer depends on *)

Section Isolation.
Context `{Bodies} `{Unicode} `{Regexps}.
Context {C : Type} (cache_get : string → C → option string * C) (cache_set : string → string → Z → C → C)
  (canonicalReadCacheKey : string → string → request → list string → string)
  (rawQuery : request → string) (tupleModeCacheKey : request → string)
  (CacheTTLs : string → Z) (metadataNegativeTTL : Z).

Lemma detectEach_agree {A B} (d1 d2 : request → Z → B + Backend.goerr) (add : string → A → B → A) r n ids acc err :
  Forall (λ t, d1 (forTenant r t) n = d2 (forTenant r t) n) ids →
  detectEach d1 add r n ids acc err = detectEach d2 add r n ids acc err.
Proof.
  intros Hd. revert acc err. induction Hd as [|t ids Ht _ IH]; intros acc err; [done|]. cbn [detectEach]. rewrite Ht.
  destruct (d2 (forTenant r t) n) as [found|e]; [by destruct err; apply IH|].
  destruct (Backend.isUpstreamQueryRejected (Some e)); [done|apply IH].
Qed.

(** A header for several tenants that was admitted. *)
Definition admitted (p : Proxy) (routing : requestRouting) (r : request) : Prop :=
  validateTenantHeader p routing (Path r) (OrgID r) = None.

(** A tenant named in the header, with a place in the resolution order. *)
Definition named (p : Proxy) (routing : requestRouting) (r : request) (t : string) : Prop :=
  t ∈ splitMultiTenantOrgIDs (TrimSpace (OrgID r)) ∧ t ≠ "*" ∧ refusal (resolve p routing t) = None.

Lemma chosen_named p routing r filtered next : admitted p routing r →
  (2 ≤ length (splitMultiTenantOrgIDs (TrimSpace (OrgID r))))%nat → hasMultiTenantOrgID (TrimSpace (OrgID r)) = true →
  applyTenantSelectorFilter r (splitMultiTenantOrgIDs (TrimSpace (OrgID r))) = Ok (filtered, next) →
  NoDup next ∧ Forall (named p routing r) next.
Proof.
  intros Hv Hlen Hmulti Hf. apply applyTenantSelectorFilter_sub in Hf.
  split; [eapply sublist_NoDup; [apply freshParts_spec|exact Hf]|].
  unfold admitted, validateTenantHeader in Hv. unfold hasMultiTenantOrgID in Hmulti. rewrite Hmulti in Hv.
  destruct (String.eqb_spec (TrimSpace (OrgID r)) "") as [E|_]; [by rewrite E in Hmulti|].
  destruct (negb (isMultiTenantQueryPath (Path r))); [done|]. cbv zeta in Hv.
  rewrite (proj2 (Nat.ltb_ge _ 2)) in Hv by done. apply validateEach_all in Hv.
  rewrite Forall_forall in Hv |- *. intros t Ht. pose proof (elem_of_sublist _ _ _ Ht Hf) as Hin.
  split; [done|]. by apply Hv.
Qed.

(** C13 What a client is answered does not depend on any tenant outside its header: if the
    single-tenant handlers and the detection calls agree on the requests for the tenants
    that the header names and the resolution order admits, the whole answer and the cache
    after it are the same. *)
Theorem tenants_isolated p routing r endpoint c serve1 serve2 fields1 fields2 labels1 labels2 :
  admitted p routing r →
  (∀ q, named p routing r (OrgID q) → serve1 endpoint q = serve2 endpoint q) →
  (∀ q n, named p routing r (OrgID q) → fields1 q n = fields2 q n) →
  (∀ q n, named p routing r (OrgID q) → labels1 q n = labels2 q n) →
  handleMultiTenantFanout cache_get cache_set serve1 fields1 labels1 canonicalReadCacheKey rawQuery
    tupleModeCacheKey CacheTTLs metadataNegativeTTL r endpoint c =
  handleMultiTenantFanout cache_get cache_set serve2 fields2 labels2 canonicalReadCacheKey rawQuery
    tupleModeCacheKey CacheTTLs metadataNegativeTTL r endpoint c.
Proof.
  intros Hv Hserve Hfields Hlabels. unfold handleMultiTenantFanout.
  destruct (hasMultiTenantOrgID (TrimSpace (OrgID r))) eqn:Hm; [cbn [negb]|done].
  destruct (Nat.ltb_spec (length (splitMultiTenantOrgIDs (TrimSpace (OrgID r)))) 2) as [|Hl]; [done|].
  destruct (maxMultiTenantFanout <? _)%nat; [done|].
  destruct (applyTenantSelectorFilter r _) as [[filtered [|t ids]]|] eqn:Hf; [done| |done].
  destruct (chosen_named p routing r filtered (t :: ids) Hv Hl Hm Hf) as [_ Hn]. revert Hn. generalize (t :: ids). intros l Hn.
  destruct (cacheLookup _ _) as [[hit|] c']; [done|].
  destruct (bool_decide (endpoint ∈ _)).
  - unfold mergeDetected, multiTenantDetectedLabelsResponse, multiTenantDetectedFieldsResponse.
    rewrite (detectEach_agree labels1 labels2), (detectEach_agree fields1 fields2); [done|..].
    all: eapply Forall_impl; [exact Hn|]; intros u Hu; auto.
  - assert (askTenants serve1 endpoint filtered l = askTenants serve2 endpoint filtered l) as ->; [|done].
    unfold askTenants. apply map_ext_in. intros u Hu%list_elem_of_In. rewrite Forall_forall in Hn. f_equal. apply Hserve. cbn. by apply Hn.
Qed.

End Isolation.
(** ** Failures *)

Lemma failure_range rec : multiTenantSubRequestFailure rec = 0 ∨ 400 ≤ multiTenantSubRequestFailure rec.
Proof.
  unfold multiTenantSubRequestFailure. destruct (Z.leb_spec 400 (Code rec)); [by right|].
  destruct (negb _); [|by left]. destruct (Atoi (PartialStatus rec)) as [n|]; [|by right].
  destruct (Z.leb_spec 400 n); by right.
Qed.

Lemma failureStatus_range s : 400 ≤ s → 400 ≤ multiTenantFailureStatus s.
Proof. unfold multiTenantFailureStatus. intros Hs. destruct ((s <? 500) || (s =? 504)); lia. Qed.

(** The failure found so far: a failed answer, a 400 if one was seen. *)
Definition found (recs : list recorder) (failed : option (recorder * Z)) : Prop :=
  match failed with
  | None => Forall (λ rec, multiTenantSubRequestFailure rec = 0) recs
  | Some (rec, s) =>
      rec ∈ recs ∧ multiTenantSubRequestFailure rec = s ∧ s ≠ 0 ∧
      (Exists (λ rec, multiTenantSubRequestFailure rec = 400) recs → s = 400)
  end.

Lemma worse_found recs failed rec : found recs failed → found (recs ++ [rec]) (worse failed rec).
Proof.
  unfold worse. destruct (Z.eqb_spec (multiTenantSubRequestFailure rec) 0) as [E|E].
  - destruct failed as [[r s]|]; cbn.
    + intros (Hin & Hs & Hne & H4). split_and!; [set_solver|done|done|]. rewrite Exists_app.
      intros [?|Hx]; [auto|]. apply Exists_cons in Hx as [?|Hx]; [lia|]. by apply Exists_nil in Hx.
    + intros Hall. apply Forall_app. split; [done|]. by constructor.
  - destruct failed as [[r s]|]; cbn.
    + intros (Hin & Hs & Hne & H4).
      destruct (Z.eqb_spec (multiTenantSubRequestFailure rec) 400) as [E4|E4], (Z.eqb_spec s 400) as [Es|Es];
        cbn; split_and!; try done; try set_solver.
      rewrite Exists_app. intros [?|Hx]; [auto|]. apply Exists_cons in Hx as [?|Hx]; [done|]. by apply Exists_nil in Hx.
    + intros Hall. split_and!; [set_solver|done|done|]. rewrite Exists_app. intros [Hx|Hx].
      * apply Exists_exists in Hx as (x & Hx & Ex). rewrite Forall_forall in Hall. rewrite (Hall x Hx) in Ex. lia.
      * apply Exists_cons in Hx as [?|Hx]; [done|]. by apply Exists_nil in Hx.
Qed.

Lemma failedOf_found recs : found recs (failedOf recs).
Proof.
  unfold failedOf. induction recs as [|rec recs IH] using rev_ind; [constructor|].
  rewrite foldl_app. cbn. by apply worse_found.
Qed.

(** The loop over the detections: their first error, a rejected query first of all. *)
Lemma detectEach_outcome {A B} (detect : request → Z → B + Backend.goerr) (add : string → A → B → A) r n ids acc err :
  match detectEach detect add r n ids acc err with
  | inl _ => err = None ∧ Forall (λ t, ∃ b, detect (forTenant r t) n = inl b) ids
  | inr e => (err = Some e ∨ ∃ t, t ∈ ids ∧ detect (forTenant r t) n = inr e) ∧
      ((∃ t e', t ∈ ids ∧ detect (forTenant r t) n = inr e' ∧ Backend.isUpstreamQueryRejected (Some e') = true) →
       Backend.isUpstreamQueryRejected (Some e) = true)
  end.
Proof.
  revert acc err. induction ids as [|t ids IH]; intros acc err; cbn [detectEach].
  { destruct err as [e|]; [|by split]. split; [by left|]. intros (t & e' & Ht & _). by apply elem_of_nil in Ht. }
  destruct (detect (forTenant r t) n) as [b|e] eqn:E.
  - set (acc' := match err with Some _ => acc | None => add t acc b end).
    specialize (IH acc' err). assert (match err with
      | Some _ => detectEach detect add r n ids acc err | None => detectEach detect add r n ids (add t acc b) None end =
      detectEach detect add r n ids acc' err) as -> by (unfold acc'; by destruct err).
    destruct (detectEach detect add r n ids acc' err) as [m|e].
    + destruct IH as [-> IH]. split; [done|]. constructor; [eauto|done].
    + destruct IH as [Hfrom Hrej]. split; [destruct Hfrom as [?|(u & Hu & Eu)]; [by left|right; exists u; set_solver]|].
      intros (u & e' & Hu & Eu & Er). apply Hrej. apply elem_of_cons in Hu as [->|Hu]; [congruence|eauto].
  - destruct (Backend.isUpstreamQueryRejected (Some e)) eqn:Er.
    { split; [right; exists t; set_solver|done]. }
    specialize (IH acc (Some (default e err))).
    destruct (detectEach detect add r n ids acc _) as [m|e1]; [by destruct IH|].
    destruct IH as [Hfrom Hrej]. split.
    + destruct Hfrom as [[= <-]|(u & Hu & Eu)]; [|right; exists u; set_solver].
      destruct err as [e0|]; [by left|right; exists t; set_solver].
    + intros (u & e' & Hu & Eu & Er'). apply Hrej. apply elem_of_cons in Hu as [->|Hu]; [congruence|eauto].
Qed.

Lemma upstream_range e : 400 ≤ Backend.statusFromUpstreamErr (Some e).
Proof. unfold Backend.statusFromUpstreamErr. cbv zeta. repeat case_match; lia. Qed.

Section Outcome.
Context `{Bodies} `{Unicode} `{Regexps}.
Context {C : Type} (cache_get : string → C → option string * C) (cache_set : string → string → Z → C → C)
  (serveEndpoint : string → request → recorder)
  (detectFields : request → Z → (list (gmap string any) * gmap string (list string)) + Backend.goerr)
  (detectLabels : request → Z → gmap string (string * gset string) + Backend.goerr)
  (canonicalReadCacheKey : string → string → request → list string → string)
  (rawQuery : request → string) (tupleModeCacheKey : request → string)
  (CacheTTLs : string → Z) (metadataNegativeTTL : Z).

Lemma failure_code failed s : Code (writeMultiTenantFailure failed s) = multiTenantFailureStatus s.
Proof. unfold writeMultiTenantFailure. by destruct (Z.eqb_spec (multiTenantFailureStatus s) (Code failed)). Qed.

Definition detecting (endpoint : string) : bool := bool_decide (endpoint ∈ ["detected_fields"; "detected_labels"]).

(** How a tenant fails: its status, and whether it rejects the query. *)
Definition errorFailure {A} (answer : A + Backend.goerr) : option (Z * bool) :=
  match answer with
  | inl _ => None
  | inr e => Some (Backend.statusFromUpstreamErr (Some e), Backend.isUpstreamQueryRejected (Some e))
  end.

Definition answerFailure (rec : recorder) : option (Z * bool) :=
  let status := multiTenantSubRequestFailure rec in
  if status =? 0 then None else Some (status, status =? 400).

Definition tenantFailure (endpoint : string) (r : request) (t : string) : option (Z * bool) :=
  if detecting endpoint then
    if String.eqb endpoint "detected_labels" then errorFailure (detectLabels (forTenant r t) (parseDetectedLineLimit r))
    else errorFailure (detectFields (forTenant r t) (parseDetectedLineLimit r))
  else answerFailure (serveEndpoint endpoint (forTenant r t)).

Definition staleTenant (endpoint : string) (r : request) (t : string) : bool :=
  negb (detecting endpoint) && negb (String.eqb (StaleHeader (serveEndpoint endpoint (forTenant r t))) "").

(** The merge of all tenants' answers, when there is one within the limit. *)
Definition mergedBody (endpoint : string) (r : request) (ids : list string) : option string :=
  if detecting endpoint then
    match (if String.eqb endpoint "detected_labels" then multiTenantDetectedLabelsResponse detectLabels r ids
           else multiTenantDetectedFieldsResponse detectFields r ids) with
    | inl body => Some body
    | inr _ => None
    end
  else
    match mergeMultiTenantResponses endpoint (map (λ t, (t, Body (serveEndpoint endpoint (forTenant r t)))) ids) with
    | Ok body => if maxMultiTenantMergedResponseBytes <? len body then None else Some body
    | Err _ => None
    end.

(** The merge, cached when it may be. *)
Definition mergedAnswer (endpoint : string) (r : request) (ids : list string) (answer : recorder) (c c' : C) : Prop :=
  match mergedBody endpoint r ids with
  | Some body =>
      Code answer = 200 ∧ Body answer = body ∧
      c' = (if existsb (staleTenant endpoint r) ids then c
            else match multiTenantCacheKey canonicalReadCacheKey rawQuery tupleModeCacheKey r endpoint with
                 | Some key => setMultiTenantMergeCache cache_set CacheTTLs metadataNegativeTTL endpoint key body c
                 | None => c
                 end)
  | None => 400 ≤ Code answer ∧ c' = c
  end.

(** All or nothing, of an answer and the caches before and after it. *)
Definition allOrNothing (endpoint : string) (r : request) (ids : list string) (answer : recorder) (c c' : C) : Prop :=
  (Exists (λ t, tenantFailure endpoint r t ≠ None) ids →
   c' = c ∧ 400 ≤ Code answer ∧
   (∃ t f, t ∈ ids ∧ tenantFailure endpoint r t = Some f ∧ Code answer = multiTenantFailureStatus f.1) ∧
   (∀ t s, t ∈ ids → tenantFailure endpoint r t = Some (s, true) → Code answer = 400)) ∧
  (Forall (λ t, tenantFailure endpoint r t = None) ids → mergedAnswer endpoint r ids answer c c').

Lemma failed_all endpoint r ids answer c : 
  (∃ t f, t ∈ ids ∧ tenantFailure endpoint r t = Some f ∧ Code answer = multiTenantFailureStatus f.1 ∧ 400 ≤ f.1 ∧
     ((∃ u s, u ∈ ids ∧ tenantFailure endpoint r u = Some (s, true)) → f.1 = 400)) →
  allOrNothing endpoint r ids answer c c.
Proof.
  intros (t & f & Ht & Hf & Hc & Hr & H4). split.
  - intros _. rewrite Hc. split_and!; [done|by apply failureStatus_range|by exists t, f|].
    intros u s Hu Es. by rewrite H4 by eauto.
  - intros Hall. rewrite Forall_forall in Hall. by rewrite (Hall t Ht) in Hf.
Qed.

Lemma merged_all endpoint r ids answer c c' : Forall (λ t, tenantFailure endpoint r t = None) ids →
  mergedAnswer endpoint r ids answer c c' →
  allOrNothing endpoint r ids answer c c'.
Proof.
  intros Hall Hm. split; [|done]. intros (t & Ht & Hne)%Exists_exists. rewrite Forall_forall in Hall. by destruct (Hne (Hall t Ht)).
Qed.

Lemma answers_all endpoint r ids c : detecting endpoint = false →
  let '(answer, c') := mergeAnswers cache_set canonicalReadCacheKey rawQuery tupleModeCacheKey CacheTTLs
                         metadataNegativeTTL endpoint r (askTenants serveEndpoint endpoint r ids) c in
  allOrNothing endpoint r ids answer c c'.
Proof.
  intros Hd. unfold mergeAnswers. set (serve t := serveEndpoint endpoint (forTenant r t)).
  change (askTenants serveEndpoint endpoint r ids) with (map (λ t, (t, serve t)) ids).
  assert (∀ t, tenantFailure endpoint r t = answerFailure (serve t)) as Ht by (intros t; unfold tenantFailure; by rewrite Hd).
  assert ((map (λ t, (t, serve t)) ids).*2 = map serve ids) as -> by (rewrite <- list_fmap_compose; done).
  pose proof (failedOf_found (map serve ids)) as Hf. destruct (failedOf (map serve ids)) as [[failed s]|]; cbn [found] in Hf.
  - destruct Hf as (Hin & Hs & Hne & H4). apply list_elem_of_fmap in Hin as (t & -> & Hin). apply failed_all.
    exists t, (s, s =? 400). rewrite Ht, failure_code. unfold answerFailure. rewrite Hs, (proj2 (Z.eqb_neq s 0)) by done.
    split_and!; [done|done|done|cbn; destruct (failure_range (serve t)); lia|]. intros (u & s' & Hu & Eu). apply H4.
    rewrite Ht in Eu. unfold answerFailure in Eu. apply Exists_exists. exists (serve u). split; [by apply list_elem_of_fmap_2|].
    destruct (Z.eqb_spec (multiTenantSubRequestFailure (serve u)) 0); [done|]. injection Eu as _ E4. by apply Z.eqb_eq.
  - assert (Forall (λ t, tenantFailure endpoint r t = None) ids) as Hall.
    { apply Forall_map in Hf. eapply Forall_impl; [exact Hf|]. intros t E. rewrite Ht. unfold answerFailure. by rewrite E. }
    assert (∀ b, existsb (λ a : string * recorder, negb (String.eqb (StaleHeader a.2) "")) (map (λ t, (t, serve t)) ids) = b →
      existsb (staleTenant endpoint r) ids = b) as Hst.
    { intros b <-. clear -Hd. induction ids as [|t ids IH]; [done|]. cbn [existsb map]. unfold staleTenant at 1. by rewrite Hd, IH. }
    assert (mergedBody endpoint r ids = match mergeMultiTenantResponses endpoint (map (λ t, (t, Body (serve t))) ids) with
      | Ok body => if maxMultiTenantMergedResponseBytes <? len body then None else Some body | Err _ => None end) as Hb
      by (unfold mergedBody; by rewrite Hd).
    rewrite map_map. cbn [fst snd]. destruct (mergeMultiTenantResponses _ _) as [body|e] eqn:Em.
    2:{ apply merged_all; [done|]. unfold mergedAnswer. by rewrite Hb. }
    destruct (maxMultiTenantMergedResponseBytes <? len body).
    { apply merged_all; [done|]. unfold mergedAnswer. by rewrite Hb. }
    destruct (writeMultiTenantMerged _ _ _ _ _ _ _ _ _ _ _) as [answer c'] eqn:Ew. apply merged_all; [done|].
    unfold mergedAnswer. rewrite Hb. unfold writeMultiTenantMerged in Ew. rewrite (Hst _ eq_refl).
    destruct (existsb _ (map _ ids)); [|destruct (multiTenantCacheKey _ _ _ _ _)]; by injection Ew as <- <-.
Qed.

Lemma errors_none {B} (detect : request → Z → B + Backend.goerr) r n ids {A} (err : option A) :
  err = None ∧ Forall (λ t, ∃ b, detect (forTenant r t) n = inl b) ids → Forall (λ t, errorFailure (detect (forTenant r t) n) = None) ids.
Proof. intros [_ Hall]. eapply Forall_impl; [exact Hall|]. intros t [b E]. by rewrite E. Qed.

Lemma errors_some {B} (detect : request → Z → B + Backend.goerr) r n (ids : list string) e :
  (@None Backend.goerr = Some e ∨ ∃ t, t ∈ ids ∧ detect (forTenant r t) n = inr e) ∧
  ((∃ t e', t ∈ ids ∧ detect (forTenant r t) n = inr e' ∧ Backend.isUpstreamQueryRejected (Some e') = true) →
   Backend.isUpstreamQueryRejected (Some e) = true) →
  (∃ t, t ∈ ids ∧ errorFailure (detect (forTenant r t) n) = errorFailure (inr (A := unit) e)) ∧
  ((∃ t s, t ∈ ids ∧ errorFailure (detect (forTenant r t) n) = Some (s, true)) → Backend.isUpstreamQueryRejected (Some e) = true).
Proof.
  intros [Hfrom Hrej]. split.
  - destruct Hfrom as [?|(t & Ht & E)]; [done|]. exists t. by rewrite E.
  - intros (t & s & Ht & E). apply Hrej. unfold errorFailure in E. destruct (detect (forTenant r t) n) as [b|e'] eqn:Ed; [done|].
    injection E as _ Er. eauto.
Qed.

Lemma detected_all endpoint r ids c : detecting endpoint = true →
  let '(answer, c') := mergeDetected cache_set detectFields detectLabels canonicalReadCacheKey rawQuery tupleModeCacheKey CacheTTLs
                         metadataNegativeTTL endpoint r ids c in
  allOrNothing endpoint r ids answer c c'.
Proof.
  intros Hd. unfold mergeDetected.
  set (ask := λ t, if String.eqb endpoint "detected_labels" then errorFailure (detectLabels (forTenant r t) (parseDetectedLineLimit r))
                   else errorFailure (detectFields (forTenant r t) (parseDetectedLineLimit r))).
  assert (∀ t, tenantFailure endpoint r t = ask t) as Ht by (intros t; unfold tenantFailure; by rewrite Hd).
  set (merged := if String.eqb endpoint "detected_labels" then multiTenantDetectedLabelsResponse detectLabels r ids
                 else multiTenantDetectedFieldsResponse detectFields r ids).
  assert (match merged with
    | inl _ => Forall (λ t, ask t = None) ids
    | inr e => (∃ t, t ∈ ids ∧ ask t = errorFailure (inr (A := unit) e)) ∧
        ((∃ t s, t ∈ ids ∧ ask t = Some (s, true)) → Backend.isUpstreamQueryRejected (Some e) = true)
    end) as Hm.
  { unfold merged, ask. destruct (String.eqb endpoint "detected_labels").
    - unfold multiTenantDetectedLabelsResponse.
      pose proof (detectEach_outcome detectLabels addSummaries r (parseDetectedLineLimit r) ids {["__tenant_id__" := ("__tenant_id__", ∅)]} None) as Ho.
      destruct (detectEach detectLabels _ _ _ _ _ _) as [m|e]; [by eapply errors_none|by apply errors_some].
    - unfold multiTenantDetectedFieldsResponse.
      pose proof (detectEach_outcome detectFields (λ _ merged found, foldl (addDetected found.2) merged found.1) r
        (parseDetectedLineLimit r) ids ∅ None) as Ho.
      destruct (detectEach detectFields _ _ _ _ _ _) as [m|e]; [by eapply errors_none|by apply errors_some]. }
  destruct merged as [body|e] eqn:Em.
  - destruct (writeMultiTenantMerged _ _ _ _ _ _ _ _ _ _ _) as [answer c'] eqn:Ew. apply merged_all.
    { eapply Forall_impl; [exact Hm|]. intros t E. by rewrite Ht. }
    unfold mergedAnswer, mergedBody. rewrite Hd. fold merged. rewrite Em. unfold writeMultiTenantMerged in Ew. cbv zeta iota in Ew.
    assert (existsb (staleTenant endpoint r) ids = false) as ->.
    { clear -Hd. induction ids as [|t ids IH]; [done|]. cbn [existsb]. unfold staleTenant at 1. by rewrite Hd, IH. }
    destruct (multiTenantCacheKey _ _ _ _ _); by injection Ew as <- <-.
  - destruct Hm as [(t & Hin & Et) Hrej]. apply failed_all.
    exists t, (Backend.statusFromUpstreamErr (Some e), Backend.isUpstreamQueryRejected (Some e)).
    split_and!; [done|by rewrite Ht, Et|done|apply upstream_range|]. intros (u & s & Hu & Eu). rewrite Ht in Eu.
    cbn [fst]. unfold Backend.statusFromUpstreamErr. by rewrite Hrej by eauto.
Qed.

(** C38 A request for two to 64 tenants whose merged answer is not in the cache is answered
    all or nothing, on every endpoint.  One failed tenant (of the ones the query chose)
    fails the whole request: the answer has Loki's status for the failure of one of the
    tenants, 400 when any tenant rejected the query, and nothing is cached.  When no
    tenant failed, the answer is the merge of all of them in the order of the tenants,
    cached exactly when the request is cacheable (a GET of a cached endpoint) and no
    tenant's answer was stale; answers that do not merge, or merge to more than the
    limit, are an error and not cached. *)
Theorem fanout_all_or_nothing endpoint r filtered ids c c1 :
  let named := splitMultiTenantOrgIDs (TrimSpace (OrgID r)) in
  hasMultiTenantOrgID (TrimSpace (OrgID r)) = true → (2 ≤ length named ≤ maxMultiTenantFanout)%nat →
  applyTenantSelectorFilter r named = Ok (filtered, ids) → ids ≠ [] →
  cacheLookup cache_get (multiTenantCacheKey canonicalReadCacheKey rawQuery tupleModeCacheKey filtered endpoint) c = (None, c1) →
  ∃ answer c', handleMultiTenantFanout cache_get cache_set serveEndpoint detectFields detectLabels canonicalReadCacheKey rawQuery
      tupleModeCacheKey CacheTTLs metadataNegativeTTL r endpoint c = (Some answer, c') ∧
    allOrNothing endpoint filtered ids answer c1 c'.
Proof.
  intros named Hm [Hlo Hhi] Hf Hne Hc. unfold handleMultiTenantFanout. fold named.
  rewrite Hm, (proj2 (Nat.ltb_ge _ _) Hlo), (proj2 (Nat.ltb_ge _ _) Hhi), Hf. cbn [negb].
  destruct ids as [|t ids]; [done|]. rewrite Hc. fold (detecting endpoint). destruct (detecting endpoint) eqn:Hd.
  - pose proof (detected_all endpoint filtered (t :: ids) c1 Hd) as Ha. destruct (mergeDetected _ _ _ _ _ _ _ _ _ _ _ _) as [answer c'].
    by exists answer, c'.
  - pose proof (answers_all endpoint filtered (t :: ids) c1 Hd) as Ha. destruct (mergeAnswers _ _ _ _ _ _ _ _ _ _) as [answer c'].
    by exists answer, c'.
Qed.

End Outcome.
(** ** The merge, seen by one tenant *)

Section Merge.
Context `{Bodies} `{Unicode}.

(** A tenant's own items, as its answer decodes. *)
Definition own {A} (kind : string) (decode : string → result (list A)) (body : string) : list A :=
  match decodeQuery body with
  | Ok resp => if String.eqb (ResultType resp) kind then match decode (Result resp) with Ok l => l | Err _ => [] end else []
  | Err _ => []
  end.

Definition ownStreams (t body : string) : list lokiStreamResult := map (tenantStream t) (own "streams" decodeStreams body).
Definition ownVectors (t body : string) : list lokiVectorResult := map (tenantVector t) (own "vector" decodeVectors body).
Definition ownMatrixes (t body : string) : list lokiMatrixResult := map (tenantMatrix t) (own "matrix" decodeMatrixes body).

Definition gather {A} (f : string → string → list A) (answers : list (string * string)) : list A :=
  concat (map (λ tb, f tb.1 tb.2) answers).

Lemma mergeOne_items st t body st' : mergeOne st t body = Ok st' →
  streams st' = streams st ++ ownStreams t body ∧ vectors st' = vectors st ++ ownVectors t body ∧
  matrixes st' = matrixes st ++ ownMatrixes t body.
Proof.
  unfold mergeOne, ownStreams, ownVectors, ownMatrixes, own. destruct (decodeQuery body) as [resp|]; [|done]. cbv zeta.
  destruct (String.eqb_spec (ResultType resp) "streams") as [E|_];
    [|destruct (String.eqb_spec (ResultType resp) "vector") as [E|_];
      [|destruct (String.eqb_spec (ResultType resp) "matrix") as [E|_]]].
  1-3: rewrite ?E; first [destruct (decodeStreams _)|destruct (decodeVectors _)|destruct (decodeMatrixes _)]; [|done].
  all: intros [= <-]; cbn; by rewrite ?app_nil_r.
Qed.

Lemma mergeAll_items st answers st' : mergeAll st answers = Ok st' →
  streams st' = streams st ++ gather ownStreams answers ∧ vectors st' = vectors st ++ gather ownVectors answers ∧
  matrixes st' = matrixes st ++ gather ownMatrixes answers.
Proof.
  revert st. induction answers as [|[t b] answers IH]; intros st; cbn [mergeAll].
  { intros [= <-]. by rewrite !app_nil_r. }
  destruct (mergeOne st t b) as [st1|] eqn:E; [|done]. intros (-> & -> & ->)%IH.
  apply mergeOne_items in E as (-> & -> & ->). unfold gather. cbn. by rewrite !app_assoc.
Qed.

(** The items of one tenant in a gathering of items that carry their tenants' names. *)
Lemma gather_tenant {A} (tag : A → option string) (f : string → string → list A) answers t body :
  (∀ t b, Forall (λ x, tag x = Some t) (f t b)) → NoDup answers.*1 → (t, body) ∈ answers →
  filter (λ x, tag x = Some t) (gather f answers) = f t body.
Proof.
  intros Htag. induction answers as [|[u b] answers IH]; cbn [fmap list_fmap]; intros Hnd Hin; [by apply elem_of_nil in Hin|].
  apply NoDup_cons in Hnd as [Hu Hnd]. unfold gather. cbn [map concat fst snd]. rewrite filter_app.
  apply elem_of_cons in Hin as [[= -> ->]|Hin].
  - rewrite (filter_all _ (f u b)) by apply Htag. rewrite (filter_none _ (concat _)); [by rewrite app_nil_r|].
    apply Forall_forall. intros x Hx. apply list_elem_of_In, in_concat in Hx as (l & Hl & Hx).
    apply in_map_iff in Hl as ([u' b'] & <- & Hl). intros Ex.
    pose proof (proj1 (Forall_forall _ _) (Htag u' b') x (proj2 (list_elem_of_In _ _) Hx)) as Ex'. cbn in Ex'.
    rewrite Ex in Ex'. injection Ex' as ->. apply Hu, list_elem_of_fmap. exists (u', b'). split; [done|]. by apply list_elem_of_In.
  - rewrite (filter_none _ (f u b)); [by apply IH|]. eapply Forall_impl; [apply Htag|]. intros x Ex Ex'. rewrite Ex in Ex'.
    injection Ex' as ->. apply Hu, list_elem_of_fmap. by exists (t, body).
Qed.

Lemma inject_tenant labels t : injectTenantLabel labels t !! "__tenant_id__" = Some t.
Proof. apply lookup_insert_eq. Qed.

Definition streamTenant (s : lokiStreamResult) : option string := Stream s !! "__tenant_id__".
Definition vectorTenant (v : lokiVectorResult) : option string := v_Metric v !! "__tenant_id__".
Definition matrixTenant (m : lokiMatrixResult) : option string := m_Metric m !! "__tenant_id__".

Lemma newest_asym a b : newestFirst a b = true → newestFirst b a = false.
Proof. apply ltb_asym. Qed.

Lemma newest_trans : Transitive (no_greater newestFirst).
Proof. intros a b c Hab Hbc. by eapply not_ltb_trans. Qed.

Lemma streams_of answers t body : NoDup answers.*1 → (t, body) ∈ answers →
  filter (λ s, streamTenant s = Some t) (SliceStable newestFirst (gather ownStreams answers)) =
    SliceStable newestFirst (ownStreams t body).
Proof.
  intros Hnd Hin. rewrite SliceStable_filter by (apply newest_asym || apply newest_trans). f_equal.
  apply gather_tenant; [|done|done]. intros u b. apply Forall_map, Forall_forall. intros x _. apply inject_tenant.
Qed.

Lemma vectors_of answers t body : NoDup answers.*1 → (t, body) ∈ answers →
  filter (λ v, vectorTenant v = Some t) (gather ownVectors answers) = ownVectors t body.
Proof.
  intros Hnd Hin. apply gather_tenant; [|done|done]. intros u b. apply Forall_map, Forall_forall. intros x _. apply inject_tenant.
Qed.

Lemma matrixes_of answers t body : NoDup answers.*1 → (t, body) ∈ answers →
  filter (λ m, matrixTenant m = Some t) (gather ownMatrixes answers) = ownMatrixes t body.
Proof.
  intros Hnd Hin. apply gather_tenant; [|done|done]. intros u b. apply Forall_map, Forall_forall. intros x _. apply inject_tenant.
Qed.

Lemma promoted_of l t : filter (λ m, matrixTenant m = Some t) (map promote l) = map promote (filter (λ v, vectorTenant v = Some t) l).
Proof.
  induction l as [|v l IH]; [done|]. cbn [map]. rewrite !filter_cons, IH.
  unfold matrixTenant, promote at 1, vectorTenant. cbn [m_Metric]. by destruct (decide (_ = _)).
Qed.

(** C15 Seen by one tenant, the merged answer to a query is that tenant's own answer: the
    items that carry its name are exactly the items it returned, relabelled, with streams
    newest first and, among matrixes, vectors as matrixes of one sample.  Nothing of a
    tenant is lost to, or mixed with, another. *)
Theorem merged_by_tenant answers m t body : mergeLokiQueryResponses answers = Ok m →
  NoDup answers.*1 → (t, body) ∈ answers →
  match mergedResult m with
  | Streams l => filter (λ s, streamTenant s = Some t) l = SliceStable newestFirst (ownStreams t body)
  | Vectors l => filter (λ v, vectorTenant v = Some t) l = ownVectors t body
  | Matrixes l => l ≠ [] → filter (λ m, matrixTenant m = Some t) l = ownMatrixes t body ++ map promote (ownVectors t body)
  | NoResult => True
  end.
Proof.
  unfold mergeLokiQueryResponses. destruct (mergeAll emptyMerge answers) as [st|] eqn:E; [|done]. intros [= <-] Hnd Hin.
  apply mergeAll_items in E as (Es & Ev & Em). cbn [emptyMerge streams vectors matrixes app] in Es, Ev, Em.
  unfold finishMerge. cbv zeta.
  set (b := (0 <? length (matrixes st))%nat && (String.eqb (resultType st) "vector" || (0 <? length (vectors st))%nat)).
  assert (b = false → matrixes st ≠ [] → vectors st = []) as Hb.
  { unfold b. destruct (matrixes st); [done|]. destruct (vectors st); [done|]. cbn. by rewrite orb_true_r. }
  clearbody b. set (rt := if b then "matrix" else resultType st). cbn [mergedResult].
  destruct (String.eqb rt "streams"); [rewrite Es; by apply streams_of|].
  destruct (String.eqb rt "vector"); [rewrite Ev; by apply vectors_of|].
  destruct (String.eqb rt "matrix"); [|done]. intros Hl. destruct b.
  - by rewrite filter_app, promoted_of, Em, Ev, (matrixes_of answers t body), (vectors_of answers t body).
  - specialize (Hb eq_refl Hl).
    rewrite Em, (matrixes_of answers t body) by done. rewrite <- (vectors_of answers t body), <- Ev, Hb by done. by rewrite app_nil_r.
Qed.

End Merge.
End FanoutLaws.

(** ** Instances *)

Module FanoutDemo.
Import Text Utf8 Tenants TenantLaws Fanout FanoutLaws TenantDemo Filter.FilterDemo.
#[local] Existing Instances ascii_tables ascii_laws integers literals.

(** Bodies that are their own value; a query answers one stream named by its body. *)
#[local] Instance bodies : Bodies := {|
  decodeList s := Ok [s];
  decodeSeries s := Ok [{["app" := s]}];
  decodeQuery s := Ok (mkQuery "streams" s "" []);
  decodeStreams s := Ok [mkStream {["app" := s]} [[Str s; Str "line"]]];
  decodeVectors _ := Err "not a vector";
  decodeMatrixes _ := Err "not a matrix";
  decodeStats _ := Ok ∅;
  decodeFields _ := Ok [];
  decodeValues s := Ok [s];
  decodeLabels s := Ok [(s, 1)];
  decodePatterns _ := Ok [];
  decodeError _ := None;
  encodeList l := Join "," l;
  encodeSeries _ := "series";
  encodeQuery m := match mergedResult m with Streams l => Join "," (map (λ s, default "" (Stream s !! "app")) l) | _ => "" end;
  encodeStats _ := "stats";
  encodeFields _ _ := "fields";
  encodeValues l := Join "," l;
  encodeLabels _ _ := "labels";
  encodePatterns _ := "patterns";
  sprint v := match v with Str s => s | _ => "" end;
  truncInt f := f
|}.

Definition ask : request := mkRequest "GET" "/loki/api/v1/query" "team-a|5|team-a"
  {["query" := ["{__tenant_id__=" +:+ String dquote "5" +:+ String dquote "}"]]}.

Definition served (secret : string) (_ : string) (q : request) : recorder :=
  jsonAnswer 200 (if String.eqb (OrgID q) "team-c" then secret else OrgID q).

Definition nothing {A} (q : request) (n : Z) : A + Backend.goerr := inr (Backend.plain "off").

Definition handle (secret : string) : option recorder * list string :=
  handleMultiTenantFanout (λ _ (c : list string), (None, c)) (λ k v _ c, k :: v :: c) (served secret) nothing nothing
    (λ e o _ _, e +:+ ":" +:+ o) (λ _, "") (λ _, "") (λ _, 10) 30 ask "query" [].

Lemma tenants_isolated_witness : handle "x" = handle "y" ∧ handle "x" = (Some (jsonAnswer 200 "5"), ["mt:query:5"; "5"]).
Proof.
  split; [|vm_compute; reflexivity].
  refine (tenants_isolated _ _ _ _ _ _ _ strict routes ask "query" [] (served "x") (served "y") nothing nothing nothing nothing _ _ _ _);
    [vm_compute; reflexivity| |done|done].
  intros q [Hq _]. unfold served. destruct (String.eqb_spec (OrgID q) "team-c") as [E|]; [|done]. exfalso.
  rewrite E in Hq. assert (bool_decide ("team-c" ∈ splitMultiTenantOrgIDs (TrimSpace (OrgID ask))) = false) as Hno
    by (vm_compute; reflexivity). by apply bool_decide_eq_false_1 in Hno.
Defined.

(** One tenant of two is unreachable. *)
Definition both : request := mkRequest "GET" "/loki/api/v1/labels" "team-a|5" ∅.

Definition halfDown (_ : string) (q : request) : recorder :=
  if String.eqb (OrgID q) "5" then jsonAnswer 502 "down" else jsonAnswer 200 (OrgID q).

Lemma fanout_all_or_nothing_witness : ∃ answer,
  handleMultiTenantFanout (λ _ (c : list string), (None, c)) (λ k v _ c, k :: v :: c) halfDown nothing nothing
    (λ e o _ _, e +:+ ":" +:+ o) (λ _, "") (λ _, "") (λ _, 10) 30 both "labels" [] = (Some answer, []) ∧ Code answer = 500.
Proof.
  destruct (fanout_all_or_nothing (λ _ (c : list string), (None, c)) (λ k v _ c, k :: v :: c) halfDown nothing nothing
    (λ e o _ _, e +:+ ":" +:+ o) (λ _, "") (λ _, "") (λ _, 10) 30 "labels" both both ["team-a"; "5"] [] [])
    as (answer & c' & E & Hfail & _); [reflexivity|by vm_compute; split; lia|vm_compute; reflexivity|discriminate|reflexivity|].
  destruct Hfail as (-> & _ & (t & f & Ht & Hf & Hcode) & _); [right; left; vm_compute; discriminate|].
  exists answer. split; [exact E|]. rewrite Hcode. apply elem_of_cons in Ht as [->|[->|Ht]%elem_of_cons].
  - vm_compute in Hf. discriminate.
  - vm_compute in Hf. injection Hf as <-. reflexivity.
  - destruct (not_elem_of_nil _ Ht).
Defined.

Lemma merged_by_tenant_witness :
  ∃ m, mergeLokiQueryResponses [("a", "1"); ("b", "2")] = Ok m ∧
    match mergedResult m with
    | Streams l => filter (λ s, streamTenant s = Some "b") l = SliceStable newestFirst (ownStreams "b" "2")
    | _ => False
    end.
Proof.
  eexists. split; [reflexivity|].
  refine (merged_by_tenant [("a", "1"); ("b", "2")] _ "b" "2" eq_refl _ _); [|right; left].
  apply NoDup_cons. split; [by intros ?%list_elem_of_singleton|apply NoDup_singleton].
Defined.

(** Fields detected by a scan carry their parsers as a []string, fields read back from the
    cache as a []interface{}; only the latter are merged. *)
Lemma fresh_parsers_lost values :
  let item ps : gmap string any := <["parsers" := ps]> {["label" := Str "status"]} in
  (d_Parsers <$> (addDetected values ∅ (item (Strs ["json"])) !! "status")) = Some ∅ ∧
  (d_Parsers <$> (addDetected values ∅ (item (Arr [Str "json"])) !! "status")) = Some {["json"]}.
Proof. split; [vm_compute; reflexivity|]. vm_compute. reflexivity. Qed.

End FanoutDemo.
