(* ===== verification/Burst.v ===== *)
(** * Bursts of per-field queries
      (src/internal/proxy/drilldown_burst_coalescer.go)

    A page of Grafana Drilldown asks for the presence of some thirty fields at once.  The
    coalescer gathers the queries that share everything but the field, waits for a window
    and answers all of them from one fused query.  Modelled are the recognition of such a
    query, the groups with their timers as a step relation over the critical sections of
    [Submit] and [fire], the fused query and the distribution of its answer. *)

From S2P Require Import Prelude GoText Utf8 LogqlAst LogqlFilter LogqlPipeline Translator.

#[local] Open Scope Z_scope.
#[local] Arguments String.append !_ _ /.

Module Burst.
Import Text Utf8.

(** ** Recognising the query *)

Definition isLogsQLIdentChar (c : Ascii.ascii) : bool :=
  within 97 122 c || within 65 90 c || within 48 57 c || Ascii.eqb c "_".

(** A rune outside ASCII has no byte of an identifier. *)
Definition quoteLogsQLIdent (name : string) : string :=
  if all_bytes_of isLogsQLIdentChar name then name
  else "`" +:+ Logsql.replaceByte "`" (String bslash "`") name +:+ "`".

(** White space of a regular expression. *)
Definition re_space (c : Ascii.ascii) : bool :=
  (b2z c =? 9) || (b2z c =? 10) || (b2z c =? 12) || (b2z c =? 13) || (b2z c =? 32).

Definition skipRe (s : string) : string := (span re_space s).2.

Definition emptyText : string := String dquote (String dquote "").

(** The tail of [drilldownFieldFilterRE]. *)
Definition notEmpty (s : string) : option string :=
  match strip_prefix "!=" (skipRe s) with
  | Some r => match strip_prefix emptyText (skipRe r) with Some t => Some t | None => strip_prefix (":!" +:+ emptyText) s end
  | None => strip_prefix (":!" +:+ emptyText) s
  end.

(** The field, quoted or not, and what follows the filter. *)
Definition existenceField (s : string) : option (string * string) :=
  match s with
  | String c r =>
      if Ascii.eqb c dquote then
        let '(name, r) := span (λ c, negb (Ascii.eqb c dquote)) r in
        match r with
        | String _ r => if String.eqb name "" then None else option_map (λ t, (name, t)) (notEmpty r)
        | "" => None
        end
      else
        let '(name, r) := span Filter.name_byte s in
        if String.eqb name "" then None else option_map (λ t, (name, t)) (notEmpty r)
  | "" => None
  end.

(** [drilldownFieldFilterRE] behind a pipe symbol. *)
Definition filterAt (s : string) : option (string * string) :=
  match strip_prefix "filter" (skipRe s) with
  | Some r => if starts_with re_space r then existenceField (skipRe r) else None
  | None => None
  end.

(** Its first match: the text before it, the field, the text behind it. *)
Fixpoint findFilter (s : string) : option (string * string * string) :=
  match s with
  | "" => None
  | String c r =>
      match (if Ascii.eqb c "|" then filterAt r else None) with
      | Some (field, t) => Some ("", field, t)
      | None => option_map (λ x, (String c x.1.1, x.1.2, x.2)) (findFilter r)
      end
  end.

Definition wordEnd (s : string) : bool := negb (starts_with isLogsQLIdentChar s).

(** [drilldownParserPipeRE] behind a pipe symbol: the rest at the next one. *)
Fixpoint parserAt (names : list string) (s : string) : option string :=
  match names with
  | [] => None
  | name :: names =>
      match strip_prefix name s with
      | Some r => if wordEnd r then Some (span (λ c, negb (Ascii.eqb c "|")) r).2 else parserAt names s
      | None => parserAt names s
      end
  end.

Definition parserPipes : list string := ["unpack_json"; "unpack_logfmt"; "json"; "logfmt"].

(** [ReplaceAllString(prefix, "")]; every round consumes a byte. *)
Fixpoint dropParsers (fuel : nat) (s : string) : string :=
  match fuel with
  | O => s
  | S fuel =>
      match s with
      | "" => ""
      | String c r =>
          match (if Ascii.eqb c "|" then parserAt parserPipes (skipRe r) else None) with
          | Some t => dropParsers fuel t
          | None => String c (dropParsers fuel r)
          end
      end
  end.

Definition extractCommonBase (baseQuery : string) : option (string * string) :=
  match findFilter baseQuery with
  | None => None
  | Some (before, field, _) => Some (TrimSpace (dropParsers (String.length before) before), field)
  end.

Definition extractStreamSelectorOnly (query : string) : string :=
  let q := TrimSpace query in
  match IndexByte "|" q with
  | Some (S i) => TrimSpace (prefix (S i) q)
  | _ => q
  end.

(** ** The fused query *)

Definition alias (i : nat) : string := "_f" +:+ Itoa (Z.of_nat i).

Definition fusedQuery (commonBase : string) (fields : list string) : string :=
  commonBase +:+ " | stats " +:+
  Join ", " (imap (λ i f, "count() if (" +:+ quoteLogsQLIdent f +:+ ":*) as " +:+ alias i) fields).

Definition aliasToField (fields : list string) : gmap string string := list_to_map (imap (λ i f, (alias i, f)) fields).

Section Coalescer.
Context `{Unicode} {V : Type}.

(** A response is a list of series, each under its alias. *)
Definition collect (fields : list string) (response : list (string * V)) : gmap string V :=
  foldl (λ out item, match aliasToField fields !! item.1 with Some f => <[f := item.2]> out | None => out end) ∅ response.

(** What [fireFn] returns: an error, or the results by field. *)
Definition fused (fields : list string) (answer : result (list (string * V))) : result (gmap string V) :=
  match fields, answer with
  | [], _ => Ok ∅
  | _, Err e => Err e
  | _, Ok response => Ok (collect fields response)
  end.

(** ** Groups *)

Record burstGroup : Type := mkGroup {
  g_key : string;
  members : list (string * nat)
}.

(** The timer runs; the fused query runs; it was answered. *)
Inductive phase : Type :=
| Armed
| Running
| Answered (results : result (gmap string V)).

Record state : Type := mkState {
  pending : gmap string nat;
  groups : gmap nat (burstGroup * phase);
  chans : gmap nat (result V);
  next : nat
}.

Definition newDrilldownBurstCoalescer : state := mkState ∅ ∅ ∅ 0.

Definition maxFieldsOf (maxFields : Z) : nat := Z.to_nat (if maxFields <=? 0 then 30 else maxFields).

(** The pending group of a key, unless it is full. *)
Definition openGroup (maxFields : nat) (key : string) (st : state) : option (nat * (burstGroup * phase)) :=
  match pending st !! key with
  | Some g =>
      match groups st !! g with
      | Some gp => if (maxFields <=? length (members gp.1))%nat then None else Some (g, gp)
      | None => None
      end
  | None => None
  end.

(** The critical section of [Submit]; the caller is known by its channel. *)
Definition Submit (maxFields : nat) (caller : nat) (key field : string) (st : state) : state :=
  match openGroup maxFields key st with
  | Some (g, (grp, ph)) =>
      mkState (pending st) (<[g := (mkGroup (g_key grp) (members grp ++ [(field, caller)]), ph)]> (groups st))
        (chans st) (next st)
  | None =>
      mkState (<[key := next st]> (pending st)) (<[next st := (mkGroup key [(field, caller)], Armed)]> (groups st))
        (chans st) (S (next st))
  end.

(** The critical section of [fire]. *)
Definition fireBegin (g : nat) (grp : burstGroup) (st : state) : state :=
  mkState (if decide (pending st !! g_key grp = Some g) then delete (g_key grp) (pending st) else pending st)
    (<[g := (grp, Running)]> (groups st)) (chans st) (next st).

Definition outcome (results : result (gmap string V)) (field : string) : result V :=
  match results with
  | Err e => Err ("burst coalescer fused query: " +:+ e)
  | Ok rs =>
      match rs !! field with
      | Some r => Ok r
      | None => Err ("burst coalescer: no result for field " +:+ Quote field)
      end
  end.

(** The rest of [fire]: every channel gets the result of its field. *)
Definition fireEnd (g : nat) (grp : burstGroup) (results : result (gmap string V)) (st : state) : state :=
  mkState (pending st) (<[g := (grp, Answered results)]> (groups st))
    (foldl (λ m fc, <[fc.2 := outcome results fc.1]> m) (chans st) (members grp)) (next st).

Definition submitted (caller : nat) (st : state) : Prop :=
  ∃ g grp ph f, groups st !! g = Some (grp, ph) ∧ (f, caller) ∈ members grp.

(** The timers and the backend; a caller that stops waiting changes nothing here. *)
Inductive fires : state → state → Prop :=
| fires_begin g grp st : groups st !! g = Some (grp, Armed) → fires st (fireBegin g grp st)
| fires_end g grp answer st : groups st !! g = Some (grp, Running) →
    fires st (fireEnd g grp (fused (members grp).*1 answer) st).

Inductive step (maxFields : nat) : state → state → Prop :=
| step_submit c k f st : ¬ submitted c st → step maxFields st (Submit maxFields c k f st)
| step_fires st st' : fires st st' → step maxFields st st'.

Definition reachable (maxFields : nat) (st : state) : Prop := rtc (step maxFields) newDrilldownBurstCoalescer st.

End Coalescer.
End Burst.

Module BurstLaws.
Import Text Utf8 Burst.

(** ** The groups *)

Section Groups.
Context `{Unicode} {V : Type} (maxFields : nat) (Hmax : (0 < maxFields)%nat).
Implicit Types (st : state (V := V)).

(** What holds between two critical sections. *)
Record inv st : Prop := mkInv {
  inv_pending k g : pending st !! k = Some g → ∃ grp, groups st !! g = Some (grp, Armed) ∧ g_key grp = k;
  inv_size g grp ph : groups st !! g = Some (grp, ph) → (g < next st)%nat ∧ (1 ≤ length (members grp) ≤ maxFields)%nat;
  inv_full g grp : groups st !! g = Some (grp, Armed) →
    pending st !! g_key grp = Some g ∨ length (members grp) = maxFields;
  inv_nodup g grp ph : groups st !! g = Some (grp, ph) → NoDup (members grp).*2;
  inv_once g1 g2 grp1 grp2 ph1 ph2 f1 f2 c : groups st !! g1 = Some (grp1, ph1) → groups st !! g2 = Some (grp2, ph2) →
    (f1, c) ∈ members grp1 → (f2, c) ∈ members grp2 → g1 = g2;
  inv_chans c r : chans st !! c = Some r ↔
    ∃ g grp rs f, groups st !! g = Some (grp, Answered rs) ∧ (f, c) ∈ members grp ∧ r = outcome rs f
}.

Lemma burst_new_inv : inv newDrilldownBurstCoalescer.
Proof. split; cbn; intros *; rewrite ?lookup_empty; try done. split; [done|]. intros (g & grp & rs & f & E & _). done. Qed.

Lemma openGroup_spec k st g gp : openGroup maxFields k st = Some (g, gp) →
  pending st !! k = Some g ∧ groups st !! g = Some gp ∧ (length (members gp.1) < maxFields)%nat.
Proof.
  unfold openGroup. destruct (pending st !! k) as [g'|]; [|done]. destruct (groups st !! g') as [gp'|] eqn:E; [|done].
  destruct (Nat.leb_spec maxFields (length (members gp'.1))); [done|]. by intros [= -> ->].
Qed.

(** A key without an open group has a full one, or none. *)
Lemma openGroup_none k st g grp : openGroup maxFields k st = None → pending st !! k = Some g →
  groups st !! g = Some (grp, Armed) → (maxFields ≤ length (members grp))%nat.
Proof.
  unfold openGroup. intros Ho Hp Eg. rewrite Hp, Eg in Ho. cbn in Ho.
  destruct (Nat.leb_spec maxFields (length (members grp))); [done|done].
Qed.

Lemma join_inv c f k st g grp : inv st → ¬ submitted c st → openGroup maxFields k st = Some (g, (grp, Armed)) →
  inv (mkState (pending st) (<[g := (mkGroup (g_key grp) (members grp ++ [(f, c)]), Armed)]> (groups st)) (chans st) (next st)).
Proof.
  intros Hi Hc Ho. apply openGroup_spec in Ho as (Hp & Hg & Hlen). cbn in Hlen.
  assert (∀ g' grp' ph f', groups st !! g' = Some (grp', ph) → (f', c) ∈ members grp' → False) as Hnew.
  { intros g' grp' ph f' E Hin. apply Hc. by exists g', grp', ph, f'. }
  split; cbn.
  - intros k' g' E. apply (inv_pending _ Hi) in E as (grp' & E & Ek). destruct (decide (g' = g)) as [->|Hne].
    + rewrite lookup_insert_eq. rewrite Hg in E. injection E as <-. eauto.
    + rewrite lookup_insert_ne by done. eauto.
  - intros g' grp' ph [[-> E]|[Hne E]]%lookup_insert_Some; [|by eapply inv_size].
    injection E as <- <-. cbn. rewrite length_app. cbn. destruct (inv_size _ Hi _ _ _ Hg). lia.
  - intros g' grp' [[-> E]|[Hne E]]%lookup_insert_Some; [|by eapply inv_full].
    injection E as <-. cbn. left. destruct (inv_pending _ Hi _ _ Hp) as (grp' & E & <-). rewrite Hg in E. by injection E as <-.
  - intros g' grp' ph [[-> E]|[Hne E]]%lookup_insert_Some; [|by eapply inv_nodup].
    injection E as <- <-. cbn. rewrite fmap_app. apply NoDup_app. split; [by eapply inv_nodup|]. split; [|apply NoDup_singleton].
    intros x Hx Hc'%list_elem_of_singleton. cbn in Hc'. subst x. apply list_elem_of_fmap in Hx as ([f' c'] & Ec & Hin).
    cbn in Ec. subst c'. by eapply Hnew.
  - intros g1 g2 grp1 grp2 ph1 ph2 f1 f2 c' [[<- E1]|[Hn1 E1]]%lookup_insert_Some [[<- E2]|[Hn2 E2]]%lookup_insert_Some H1 H2;
      [done| | |by eapply (inv_once _ Hi g1 g2)].
    + injection E1 as <- <-. cbn in H1. apply elem_of_app in H1 as [H1|[= -> ->]%list_elem_of_singleton].
      * by eapply (inv_once _ Hi g g2).
      * exfalso. by eapply Hnew.
    + injection E2 as <- <-. cbn in H2. apply elem_of_app in H2 as [H2|[= -> ->]%list_elem_of_singleton].
      * by eapply (inv_once _ Hi g1 g).
      * exfalso. by eapply Hnew.
  - intros c' r. rewrite (inv_chans _ Hi). split; intros (g' & grp' & rs & f' & E & Hin & ->).
    + exists g', grp', rs, f'. rewrite lookup_insert_ne; [done|]. intros ->. by rewrite Hg in E.
    + apply lookup_insert_Some in E as [[<- E]|[Hne E]]; [done|]. by exists g', grp', rs, f'.
Qed.

Lemma open_inv c f k st : inv st → ¬ submitted c st → openGroup maxFields k st = None →
  inv (mkState (<[k := next st]> (pending st)) (<[next st := (mkGroup k [(f, c)], Armed)]> (groups st)) (chans st) (S (next st))).
Proof.
  intros Hi Hc Ho.
  assert (∀ g' grp' ph, groups st !! g' = Some (grp', ph) → g' ≠ next st) as Hfresh.
  { intros g' grp' ph E ->. destruct (inv_size _ Hi _ _ _ E). lia. }
  assert (∀ g' grp' ph f', groups st !! g' = Some (grp', ph) → (f', c) ∈ members grp' → False) as Hnew.
  { intros g' grp' ph f' E Hin. apply Hc. by exists g', grp', ph, f'. }
  split; cbn.
  - intros k' g' [[-> <-]|[Hne E]]%lookup_insert_Some; [rewrite lookup_insert_eq; eauto|].
    apply (inv_pending _ Hi) in E as (grp' & E & Ek). exists grp'. rewrite lookup_insert_ne; [done|]. symmetry. by eapply Hfresh.
  - intros g' grp' ph [[<- E]|[Hne E]]%lookup_insert_Some; [injection E as <- <-; cbn; lia|].
    destruct (inv_size _ Hi _ _ _ E). lia.
  - intros g' grp' [[<- E]|[Hne E]]%lookup_insert_Some; [injection E as <-; left; apply lookup_insert_eq|].
    destruct (inv_full _ Hi _ _ E) as [Hp|]; [|by right]. destruct (decide (g_key grp' = k)) as [<-|Hk].
    + right. pose proof (openGroup_none _ _ _ _ Ho Hp E). destruct (inv_size _ Hi _ _ _ E). lia.
    + left. by rewrite lookup_insert_ne.
  - intros g' grp' ph [[<- E]|[Hne E]]%lookup_insert_Some; [|by eapply inv_nodup]. injection E as <- <-. apply NoDup_singleton.
  - intros g1 g2 grp1 grp2 ph1 ph2 f1 f2 c' [[<- E1]|[Hn1 E1]]%lookup_insert_Some [[<- E2]|[Hn2 E2]]%lookup_insert_Some H1 H2;
      [done| | |by eapply (inv_once _ Hi g1 g2)].
    + injection E1 as <- <-. apply list_elem_of_singleton in H1 as [= -> ->]. exfalso. by eapply Hnew.
    + injection E2 as <- <-. apply list_elem_of_singleton in H2 as [= -> ->]. exfalso. by eapply Hnew.
  - intros c' r. rewrite (inv_chans _ Hi). split; intros (g' & grp' & rs & f' & E & Hin & ->).
    + exists g', grp', rs, f'. rewrite lookup_insert_ne; [done|]. symmetry. by eapply Hfresh.
    + apply lookup_insert_Some in E as [[<- E]|[Hne E]]; [done|]. by exists g', grp', rs, f'.
Qed.

Lemma submit_inv c k f st : inv st → ¬ submitted c st → inv (Submit maxFields c k f st).
Proof.
  intros Hi Hc. unfold Submit. destruct (openGroup maxFields k st) as [[g [grp ph]]|] eqn:Ho; [|by apply open_inv].
  pose proof (openGroup_spec _ _ _ _ Ho) as (Hp & Hg & _). destruct (inv_pending _ Hi _ _ Hp) as (grp' & E & _).
  rewrite Hg in E. injection E as -> ->. by eapply join_inv.
Qed.

Lemma begin_inv g grp st : inv st → groups st !! g = Some (grp, Armed) → inv (fireBegin g grp st).
Proof.
  intros Hi Hg.
  assert (∀ k g', pending (fireBegin g grp st) !! k = Some g' ↔ pending st !! k = Some g' ∧ g' ≠ g) as Hp.
  { intros k g'. cbn. assert (pending st !! k = Some g → k = g_key grp) as Hk.
    { intros E. destruct (inv_pending _ Hi _ _ E) as (grp' & E' & <-). rewrite Hg in E'. by injection E' as <-. }
    destruct (decide (pending st !! g_key grp = Some g)) as [E|E].
    - destruct (decide (k = g_key grp)) as [->|Hne]; [rewrite lookup_delete_eq, E; naive_solver|].
      rewrite lookup_delete_ne by done. naive_solver.
    - split; [|by intros []]. intros E'. split; [done|]. intros ->. by rewrite (Hk E') in E'. }
  split.
  - intros k g' [E Hne]%Hp. destruct (inv_pending _ Hi _ _ E) as (grp' & E' & Ek). exists grp'. cbn. by rewrite lookup_insert_ne.
  - cbn. intros g' grp' ph [[<- E]|[Hne E]]%lookup_insert_Some; [|by eapply inv_size]. injection E as <- <-. by eapply inv_size.
  - intros g' grp' E'. rewrite Hp. cbn [fireBegin groups] in E'. apply lookup_insert_Some in E' as [[<- E]|[Hne E]]; [done|]. destruct (inv_full _ Hi _ _ E); [left|by right]. by split.
  - cbn. intros g' grp' ph [[<- E]|[Hne E]]%lookup_insert_Some; [|by eapply inv_nodup]. injection E as <- <-. by eapply inv_nodup.
  - cbn. intros g1 g2 grp1 grp2 ph1 ph2 f1 f2 c [[<- E1]|[Hn1 E1]]%lookup_insert_Some [[<- E2]|[Hn2 E2]]%lookup_insert_Some H1 H2;
      [done|injection E1 as <- <-|injection E2 as <- <-|]; by eapply inv_once.
  - cbn. intros c r. rewrite (inv_chans _ Hi). split; intros (g' & grp' & rs & f' & E & Hin & ->).
    + exists g', grp', rs, f'. rewrite lookup_insert_ne; [done|]. intros ->. by rewrite Hg in E.
    + apply lookup_insert_Some in E as [[<- E]|[Hne E]]; [done|]. by exists g', grp', rs, f'.
Qed.

Lemma deliver_lookup rs (l : list (string * nat)) (m : gmap nat (result V)) c r : NoDup l.*2 →
  foldl (λ m fc, <[fc.2 := outcome rs fc.1]> m) m l !! c = Some r ↔
  (∃ f, (f, c) ∈ l ∧ r = outcome rs f) ∨ (m !! c = Some r ∧ c ∉ l.*2).
Proof.
  revert m. induction l as [|[f0 c0] l IH]; intros m; cbn [foldl fmap list_fmap]; intros Hnd.
  { split; [intros E; right; split; [done|apply not_elem_of_nil]|]. intros [(f & Hf & _)|[E _]]; [by apply elem_of_nil in Hf|done]. }
  apply NoDup_cons in Hnd as [Hc0 Hnd]. rewrite IH by done. cbn [fst snd]. split.
  - intros [(f & Hf & ->)|[E Hnin]]; [left; exists f; split; [by right|done]|].
    apply lookup_insert_Some in E as [[-> <-]|[Hne E]]; [left; exists f0; split; [left|done]|].
    right. split; [done|]. by apply not_elem_of_cons.
  - intros [(f & [[= -> ->]|Hf]%elem_of_cons & ->)|[E [Hne Hnin]%not_elem_of_cons]].
    + right. split; [by rewrite lookup_insert_eq|done].
    + left. by exists f.
    + right. split; [by rewrite lookup_insert_ne|done].
Qed.

Lemma end_inv g grp rs st : inv st → groups st !! g = Some (grp, Running) → inv (fireEnd g grp rs st).
Proof.
  intros Hi Hg. split; cbn.
  - intros k g' E. destruct (inv_pending _ Hi _ _ E) as (grp' & E' & Ek). exists grp'. rewrite lookup_insert_ne; [done|].
    intros ->. by rewrite Hg in E'.
  - intros g' grp' ph [[<- E]|[Hne E]]%lookup_insert_Some; [|by eapply inv_size]. injection E as <- <-. by eapply inv_size.
  - intros g' grp' [[<- E]|[Hne E]]%lookup_insert_Some; [done|by eapply inv_full].
  - intros g' grp' ph [[<- E]|[Hne E]]%lookup_insert_Some; [|by eapply inv_nodup]. injection E as <- <-. by eapply inv_nodup.
  - intros g1 g2 grp1 grp2 ph1 ph2 f1 f2 c [[<- E1]|[Hn1 E1]]%lookup_insert_Some [[<- E2]|[Hn2 E2]]%lookup_insert_Some H1 H2;
      [done|injection E1 as <- <-|injection E2 as <- <-|]; by eapply inv_once.
  - intros c r. rewrite deliver_lookup by (by eapply inv_nodup). rewrite (inv_chans _ Hi). split.
    + intros [(f & Hf & ->)|[(g' & grp' & rs' & f' & E & Hin & ->) _]].
      * exists g, grp, rs, f. by rewrite lookup_insert_eq.
      * exists g', grp', rs', f'. rewrite lookup_insert_ne; [done|]. intros ->. by rewrite Hg in E.
    + intros (g' & grp' & rs' & f' & [[<- E]|[Hne E]]%lookup_insert_Some & Hin & ->).
      * injection E as <- <-. left. by exists f'.
      * right. split; [by exists g', grp', rs', f'|]. intros ([f c'] & -> & Hf)%list_elem_of_fmap. cbn in Hin.
        apply Hne. by eapply (inv_once _ Hi g g').
Qed.

Lemma burst_step_inv st st' : step maxFields st st' → inv st → inv st'.
Proof.
  intros [c k f st0 Hc|st0 st0' [g grp st1 Hg|g grp answer st1 Hg]] Hi;
    [by apply submit_inv|by apply begin_inv|by apply end_inv].
Qed.

Lemma burst_reachable_inv st : reachable maxFields st → inv st.
Proof.
  unfold reachable. intros Hr. pose proof burst_new_inv as Hi. induction Hr as [|x y z Hs _ IH]; [done|]. apply IH. by eapply burst_step_inv.
Qed.

(** ** The fused answer *)

Lemma alias_inj i j : (Z.of_nat i ≤ MaxInt64) → (Z.of_nat j ≤ MaxInt64) → alias i = alias j → i = j.
Proof.
  intros Hi Hj E. unfold alias in E. injection E as E. apply (f_equal Atoi) in E.
  rewrite !Atoi_Itoa in E by lia. injection E. lia.
Qed.

(** Fewer fields than an int can count. *)
Definition countable_fields (fields : list string) : Prop := Z.of_nat (length fields) ≤ MaxInt64.

Lemma aliases_nodup fields : countable_fields fields → NoDup (imap (λ i f, (alias i, f)) fields).*1.
Proof.
  unfold countable_fields. intros Hn. apply NoDup_alt. intros i j x. rewrite !list_lookup_fmap, !list_lookup_imap.
  destruct (fields !! i) as [f|] eqn:Ei, (fields !! j) as [f'|] eqn:Ej; try done. cbn [fmap option_fmap option_map fst]. intros E1 E2.
  apply lookup_lt_Some in Ei, Ej. apply alias_inj; [lia..|]. congruence.
Qed.

Lemma aliasToField_spec fields i f : countable_fields fields → fields !! i = Some f → aliasToField fields !! alias i = Some f.
Proof.
  intros Hn Hf. unfold aliasToField. apply elem_of_list_to_map; [by apply aliases_nodup|].
  apply list_elem_of_lookup. exists i. by rewrite list_lookup_imap, Hf.
Qed.

(** A backend that answers, for each alias of the fused query, the counts of its field. *)
Definition faithful (count : string → V) (fields : list string) (response : list (string * V)) : Prop :=
  (∀ i f, fields !! i = Some f → (alias i, count f) ∈ response) ∧
  (∀ name v f, (name, v) ∈ response → aliasToField fields !! name = Some f → v = count f).

Lemma collect_faithful count fields response f : countable_fields fields → faithful count fields response → f ∈ fields →
  collect fields response !! f = Some (count f).
Proof.
  intros Hn [Hall Hown] Hf. apply list_elem_of_lookup in Hf as [i Hi].
  pose proof (aliasToField_spec _ _ _ Hn Hi) as Ha. specialize (Hall i f Hi). clear Hi. unfold collect.
  assert (∀ (out : gmap string V), out !! f = Some (count f) ∨ (alias i, count f) ∈ response →
    foldl (λ out item, match aliasToField fields !! item.1 with Some f => <[f := item.2]> out | None => out end) out response !! f
      = Some (count f)) as Hgen; [|by apply Hgen; right].
  clear Hall. induction response as [|[name v] response IH]; intros out Ho; cbn [foldl fst snd].
  { destruct Ho as [Ho|Ho]; [done|]. by apply elem_of_nil in Ho. }
  apply IH; [intros name' v' f' Hin; apply Hown; by right|].
  destruct Ho as [Ho|[[= <- <-]|Ho]%elem_of_cons]; [|rewrite Ha; left; by rewrite lookup_insert_eq|by right].
  left. destruct (aliasToField fields !! name) as [f'|] eqn:E; [|done].
  destruct (decide (f' = f)) as [->|Hne]; [|by rewrite lookup_insert_ne]. rewrite lookup_insert_eq. f_equal.
  eapply Hown; [left|done].
Qed.

(** C16 However submissions, timers and backend answers interleave: no fused query asks for
    more fields than the limit, and a second group waits for the same key only when the
    ones before it are full; a caller is in one group only, and what it receives is the
    result of its own field in that group's one query, which is the count of the field
    whenever the backend answers the aliases of the query. *)
Theorem burst_answers_own_field st : reachable maxFields st →
  (∀ g grp ph, groups st !! g = Some (grp, ph) → (1 ≤ length (members grp) ≤ maxFields)%nat) ∧
  (∀ g1 g2 grp1 grp2, groups st !! g1 = Some (grp1, Armed) → groups st !! g2 = Some (grp2, Armed) →
     g_key grp1 = g_key grp2 → g1 ≠ g2 → length (members grp1) = maxFields ∨ length (members grp2) = maxFields) ∧
  (∀ c r, chans st !! c = Some r → ∃ g grp rs f, groups st !! g = Some (grp, Answered rs) ∧
     (f, c) ∈ members grp ∧ r = outcome rs f ∧
     (∀ g' grp' ph' f', groups st !! g' = Some (grp', ph') → (f', c) ∈ members grp' → g' = g) ∧
     (∀ count response, countable_fields (members grp).*1 → faithful count (members grp).*1 response →
        rs = fused (members grp).*1 (Ok response) → r = Ok (count f))).
Proof.
  intros Hi%burst_reachable_inv. split_and!.
  - intros g grp ph E. by apply (inv_size _ Hi g grp ph).
  - intros g1 g2 grp1 grp2 E1 E2 Hk Hne. destruct (inv_full _ Hi _ _ E1) as [H1|]; [|by left].
    destruct (inv_full _ Hi _ _ E2) as [H2|]; [|by right]. rewrite Hk, H2 in H1. by injection H1.
  - intros c r (g & grp & rs & f & E & Hin & ->)%(inv_chans _ Hi). exists g, grp, rs, f. split_and!; [done..| |].
    + intros g' grp' ph' f' E' Hin'. by eapply (inv_once _ Hi g' g).
    + intros count response Hn Hfa ->. assert (f ∈ (members grp).*1) as Hf by (apply list_elem_of_fmap; by exists (f, c)).
      unfold fused. destruct ((members grp).*1) as [|x l] eqn:El; [by apply elem_of_nil in Hf|]. unfold outcome.
      by rewrite (collect_faithful count).
Qed.

(** C39 No caller is stranded: from every reachable state the timers and the backend alone
    lead to a state where a caller that was submitted has its answer. *)
Theorem burst_all_answered st c : reachable maxFields st → submitted c st →
  ∃ st', rtc fires st st' ∧ is_Some (chans st' !! c).
Proof.
  intros Hi%burst_reachable_inv (g & grp & ph & f & Hg & Hin).
  assert (∀ st, inv st → groups st !! g = Some (grp, Running) → ∃ st', rtc fires st st' ∧ is_Some (chans st' !! c)) as Hrun.
  { intros st1 Hi1 Hg1. pose proof (fires_end g grp (Err "") st1 Hg1) as Hs. eexists. split; [by eapply rtc_once|].
    eexists. cbn. apply deliver_lookup; [by eapply inv_nodup|]. left. by exists f. }
  destruct ph as [| |rs]; [|by apply Hrun|].
  - destruct (Hrun (fireBegin g grp st)) as (st' & Hr & Hc).
    + by apply begin_inv.
    + apply lookup_insert_eq.
    + exists st'. split; [|done]. eapply rtc_l; [by apply fires_begin|done].
  - exists st. split; [done|]. eexists. apply (inv_chans _ Hi). by exists g, grp, rs, f.
Qed.

End Groups.
End BurstLaws.

(** ** Instances *)

Module BurstDemo.
Import Text Utf8 Burst BurstLaws Filter.FilterDemo.
#[local] Existing Instance ascii_tables.

Lemma maxFieldsOf_pos n : (0 < maxFieldsOf n)%nat.
Proof. unfold maxFieldsOf. destruct (Z.leb_spec n 0); lia. Qed.

(** Two callers share a group, a third opens the next one; the first group is answered. *)
Definition start : state (V := Z) := newDrilldownBurstCoalescer.
Definition s1 : state := Submit 2 0%nat "k" "a" start.
Definition s2 : state := Submit 2 1%nat "k" "b" s1.
Definition s3 : state := Submit 2 2%nat "k" "c" s2.
Definition g0 : burstGroup := mkGroup "k" [("a", 0%nat); ("b", 1%nat)].
Definition response : list (string * Z) := [("_f1", 7); ("_f0", 5); ("_x", 9)].
Definition s4 : state := fireBegin 0 g0 s3.
Definition s5 : state := fireEnd 0 g0 (fused ["a"; "b"] (Ok response)) s4.

Lemma new_caller (st : state (V := Z)) c :
  forallb (λ x, negb (bool_decide (c ∈ (members x.2.1).*2))) (map_to_list (groups st)) = true → ¬ submitted c st.
Proof.
  intros Hall (g & grp & ph & f & Hg & Hin). rewrite forallb_forall in Hall.
  specialize (Hall (g, (grp, ph))). cbn in Hall. apply negb_true_iff, bool_decide_eq_false_1 in Hall.
  - apply Hall, list_elem_of_fmap. by exists (f, c).
  - by apply list_elem_of_In, elem_of_map_to_list.
Qed.

Lemma s5_reachable : reachable 2 s5.
Proof.
  unfold reachable. change start with (newDrilldownBurstCoalescer (V := Z)).
  eapply rtc_l; [apply (step_submit 2 0%nat "k" "a" start), new_caller; reflexivity|].
  eapply rtc_l; [apply (step_submit 2 1%nat "k" "b" s1), new_caller; reflexivity|].
  eapply rtc_l; [apply (step_submit 2 2%nat "k" "c" s2), new_caller; reflexivity|].
  eapply rtc_l; [apply step_fires, (fires_begin 0%nat g0 s3); reflexivity|].
  eapply rtc_l; [apply step_fires, (fires_end 0%nat g0 (Ok response) s4); reflexivity|]. apply rtc_refl.
Qed.

Lemma burst_answers_own_field_witness :
  reachable 2 s5 ∧ chans s5 !! 1%nat = Some (Ok 7) ∧
  ∃ g grp rs f, groups s5 !! g = Some (grp, Answered rs) ∧ (f, 1%nat) ∈ members grp ∧ Ok 7 = outcome rs f.
Proof.
  split; [exact s5_reachable|]. split; [reflexivity|].
  destruct (proj2 (proj2 (burst_answers_own_field 2 ltac:(lia) s5 s5_reachable)) 1%nat (Ok 7) eq_refl)
    as (g & grp & rs & f & Hg & Hin & Hr & _). by exists g, grp, rs, f.
Defined.

Lemma burst_all_answered_witness : ∃ st', rtc fires s5 st' ∧ is_Some (chans st' !! 2%nat).
Proof.
  refine (burst_all_answered 2 ltac:(lia) s5 2%nat s5_reachable _).
  exists 1%nat, (mkGroup "k" [("c", 2%nat)]), Armed, "c". split; [reflexivity|left].
Defined.

(** What stands behind the first existence filter is not part of the fused query. *)
Lemma later_filters_dropped rest :
  extractCommonBase ("app:=x | unpack_json | filter a:!" +:+ emptyText +:+ rest) = Some ("app:=x", "a").
Proof. vm_compute. reflexivity. Qed.

End BurstDemo.
