(* ===== verification/PostAgg.v ===== *)
(** * Aggregations the proxy applies to an answer
      (src/internal/proxy/metric_agg.go, the topk functions of metric_binary.go and the
      resolution check of proxy.go)

    The backend has no sort, topk, stddev over series and no constant vector.  The proxy
    recognises them around a query, answers the query inside, and ranks, aggregates or
    fills the decoded answer.  encoding/json and fastjson are the class [Answers]; what
    [sort.Slice] does with equal elements is left open by [Sorter]. *)

From S2P Require Import Prelude GoText Utf8 LogqlAst LogqlFilter LogqlPipeline LogqlScanner LogqlParser TimeUtils BinaryMatch RangeMetrics Translator Burst Fanout.

#[local] Open Scope Z_scope.
#[local] Arguments String.append !_ _ /.

(** ** Answers *)

Section Records.
Context `{Floats}.

(** A nil map and a nil slice are [None]. *)
Record anyVector : Type := mkAnyVector { av_Metric : option (gmap string any); av_Value : list any }.
Record anyMatrix : Type := mkAnyMatrix { am_Metric : option (gmap string any); am_Values : list (list any) }.

Record answer (A : Type) : Type := mkAnswer { Status : string; AnswerType : string; Items : option (list A) }.

End Records.

Arguments mkAnswer {A}.
Arguments Status {A}.
Arguments AnswerType {A}.
Arguments Items {A}.

(** encoding/json on the answers of this file, fastjson, [fmt.Sprintf] with %v. *)
Class Answers `{Floats} : Type := {
  decodeVector : string → result (answer anyVector);
  encodeVector : answer anyVector → string;
  decodeMatrix : string → result (answer anyMatrix);
  encodeMatrix : answer anyMatrix → string;
  decodeTree : string → result any;
  encodeTree : any → string;
  fj_Parse : string → result any;
  fj_Marshal : any → string;
  sprintV : any → string
}.

(** [sort.Slice]: some permutation in which nothing precedes a smaller element. *)
Class Sorter : Type := sortSlice : ∀ A, (A → A → bool) → list A → list A.
Arguments sortSlice {_ A} less l.

Class SorterLaws `{Sorter} : Prop := {
  sortSlice_perm {A} (less : A → A → bool) l : sortSlice less l ≡ₚ l;
  sortSlice_sorted {A} (less : A → A → bool) l : (∀ x y, less x y = true → less y x = false) →
    Transitive (no_greater less) → StronglySorted (no_greater less) (sortSlice less l)
}.

Module PostAgg.
Import Text Utf8 Fanout.

(** ** The query around the query *)

Record instantMetricPostAgg : Type := mkPostAgg { agg_name : string; inner : string; agg_k : Z }.

(** [strings.TrimSpace(logql[len(prefix):len(logql)-1])] when the text has the prefix and
    ends in a parenthesis. *)
Definition callBody (name logql : string) : option string :=
  match strip_prefix (name +:+ "(") logql with
  | Some r => if HasSuffix logql ")" then Some (TrimSpace (TrimSuffix r ")")) else None
  | None => None
  end.

(** The loop of [topLevelCommaIndex] from byte [i]; only ASCII is compared. *)
Fixpoint commaFrom (depth : Z) (inQuote : bool) (i : nat) (s : string) : option nat :=
  match s with
  | "" => None
  | String c r =>
      if Ascii.eqb c dquote then commaFrom depth (negb inQuote) (S i) r
      else if Ascii.eqb c "(" then commaFrom (if inQuote then depth else depth + 1) inQuote (S i) r
      else if Ascii.eqb c ")" then commaFrom (if negb inQuote && (0 <? depth) then depth - 1 else depth) inQuote (S i) r
      else if Ascii.eqb c "," && negb inQuote && (depth =? 0) then Some i
      else commaFrom depth inQuote (S i) r
  end.

Definition topLevelCommaIndex (s : string) : option nat := commaFrom 0 false 0 s.

Definition unranked (name body : string) : option instantMetricPostAgg :=
  if String.eqb body "" then None else Some (mkPostAgg name body 0).

Definition rankedCall (name args : string) : option instantMetricPostAgg :=
  match topLevelCommaIndex args with
  | Some (S comma) =>
      match Atoi (TrimSpace (prefix (S comma) args)) with
      | None => None
      | Some k =>
          if k <=? 0 then None
          else
            let inner := TrimSpace (suffix (S (S comma)) args) in
            if String.eqb inner "" then None else Some (mkPostAgg name inner k)
      end
  | _ => None
  end.

(** The first name that fits decides. *)
Fixpoint firstCall (names : list (string * bool)) (logql : string) : option instantMetricPostAgg :=
  match names with
  | [] => None
  | (name, ranks) :: names =>
      match callBody name logql with
      | Some body => if ranks : bool then rankedCall name body else unranked name body
      | None => firstCall names logql
      end
  end.

Definition postAggNames : list (string * bool) :=
  [("sort_desc", false); ("sort", false); ("stddev", false); ("stdvar", false); ("topk", true); ("bottomk", true)].

Definition parseInstantMetricPostAggQuery (logql : string) : option instantMetricPostAgg :=
  firstCall postAggNames (TrimSpace logql).

Definition bareMetricPrefixes : list string :=
  ["rate("; "rate_counter("; "count_over_time("; "bytes_over_time("; "bytes_rate("; "sum_over_time("; "avg_over_time(";
   "max_over_time("; "min_over_time("; "first_over_time("; "last_over_time("; "stddev_over_time("; "stdvar_over_time(";
   "absent_over_time("; "quantile_over_time("].

Definition isBareMetricFunctionQuery (logql : string) : bool := existsb (HasPrefix logql) bareMetricPrefixes.

(** ** Constant vectors *)

(** [vector\(\s*([^)]+?)\s*\)] at the start of [s]: the group, trimmed, and what follows. *)
Definition vectorAt (s : string) : option (string * string) :=
  match strip_prefix "vector(" s with
  | None => None
  | Some r =>
      let '(body, r) := span (λ c, negb (Ascii.eqb c ")")) r in
      match r with
      | "" => None
      | String _ r => if String.eqb body "" then None else Some (TrimSpace body, r)
      end
  end.

(** [vectorLiteralRE]. *)
Definition vectorLiteral (s : string) : option string :=
  match vectorAt (Burst.skipRe s) with
  | Some (v, r) => if String.eqb (Burst.skipRe r) "" then Some v else None
  | None => None
  end.

Definition is_arith (c : Ascii.ascii) : bool := existsb (Ascii.eqb c) ["+"; "-"; "*"; "/"]%char.

(** [vectorBinaryRE]. *)
Definition vectorBinary (s : string) : option (string * string * string) :=
  match vectorAt (Burst.skipRe s) with
  | Some (l, r) =>
      match Burst.skipRe r with
      | String c r =>
          if is_arith c then
            match vectorAt (Burst.skipRe r) with
            | Some (v, r) => if String.eqb (Burst.skipRe r) "" then Some (l, String c "", v) else None
            | None => None
            end
          else None
      | "" => None
      end
  | None => None
  end.

Section Evaluation.
Context `{HN : Numbers} {HA : @Arithmetic _ HN} {HC : @Clock _ HN} {HR : Roots} {HB : Answers} {HS : Sorter}.

Definition zero : F := Fof_int 0.

Definition applyConstantBinaryOp (left right : F) (op : string) : option F :=
  if String.eqb op "+" then Some (Fadd left right)
  else if String.eqb op "-" then Some (Fsub left right)
  else if String.eqb op "*" then Some (Fmul left right)
  else if String.eqb op "/" then if Feq right zero then None else Some (Fdiv left right)
  else None.

Definition parseInstantVectorTime (now : Z) (timeParam : string) : Z :=
  if String.eqb timeParam "" then now
  else
    match time_Parse Times.RFC3339Nano timeParam with
    | Some t => Times.UnixNano t
    | None =>
        match Atoi timeParam with
        | Some i => if i <? 1000000000000 then wrap64 (i * Second) else i
        | None =>
            match ParseFloat timeParam with
            | Ok f => if Flt f (Fof_int 1000000000000) then to_int64 (Fmul f (Fof_int Second)) else to_int64 f
            | Err _ => now
            end
        end
    end.

(** The timestamp and the value of the only point. *)
Definition constantPoint (now : Z) (timeParam : string) (value : F) : list any :=
  [Int (parseInstantVectorTime now timeParam); Str (Format_f value)].

Definition buildConstantVectorResponse (now : Z) (timeParam : string) (value : F) : string :=
  encodeTree (Obj [("status", Str "success");
    ("data", Obj [("resultType", Str "vector");
                  ("result", Arr [Obj [("metric", Obj []); ("value", Arr (constantPoint now timeParam value))]]);
                  ("stats", Obj [])])]).

Definition parseLiteral (s : string) : option F :=
  match ParseFloat (TrimSpace s) with Ok v => Some v | Err _ => None end.

Definition constantQueryValue (expr : string) : option F :=
  match vectorLiteral expr with
  | Some v => parseLiteral v
  | None =>
      match vectorBinary expr with
      | Some (l, op, r) =>
          match parseLiteral l, parseLiteral r with
          | Some l, Some r => applyConstantBinaryOp l r op
          | _, _ => None
          end
      | None => None
      end
  end.

Definition evaluateConstantInstantVectorQuery (now : Z) (expr timeParam : string) : option string :=
  let expr := TrimSpace expr in
  if String.eqb expr "" then None
  else option_map (buildConstantVectorResponse now timeParam) (constantQueryValue expr).

Definition constantVectorValue (expr : string) : option F :=
  match vectorLiteral expr with Some v => parseLiteral v | None => None end.

(** ** Points *)

Definition parseFloat (v : any) : result F :=
  match v with
  | Num f => Ok f
  | Str s => ParseFloat s
  | _ => Err "not a number"
  end.

Definition parsePointValue (raw : any) : F :=
  match raw with
  | Num f => f
  | Str s => ParseFloatValue s
  | _ => zero
  end.

Definition vectorPointValue (value : list any) : F :=
  match value with
  | _ :: raw :: _ => parsePointValue raw
  | _ => zero
  end.

Definition metricKey (metric : option (gmap string any)) : string :=
  match metric with
  | None => "{}"
  | Some m => Join "," (sortStrings (map (λ kv, kv.1 +:+ "=" +:+ sprintV kv.2) (map_to_list m)))
  end.

(** [math.IsNaN]. *)
Definition IsNaN (f : F) : bool := negb (Feq f f).

(** ** Standard deviation *)

Definition populationStddev (vals : list F) : F :=
  let n := Fof_int (Z.of_nat (length vals)) in
  if Feq n zero then zero
  else
    let mean := Fdiv (foldl Fadd zero vals) n in
    let variance := foldl (λ acc v, let d := Fsub v mean in Fadd acc (Fmul d d)) zero vals in
    Fsqrt (Fdiv variance n).

Definition populationVariance (vals : list F) : F := let d := populationStddev vals in Fmul d d.

Definition deviation (funcName : string) (vals : list F) : F :=
  if String.eqb funcName "stdvar" then populationVariance vals else populationStddev vals.

Definition usable {A} (kind : string) (r : result (answer A)) : option (answer A) :=
  match r with
  | Ok resp => if String.eqb (Status resp) "success" && String.eqb (AnswerType resp) kind then Some resp else None
  | Err _ => None
  end.

Definition items {A} (resp : answer A) : list A := default [] (Items resp).

(** The map of the values by timestamp with the timestamps in the order of their first value. *)
Fixpoint addValue (ts val : F) (groups : list (F * list F)) : list (F * list F) :=
  match groups with
  | [] => [(ts, [val])]
  | (t, vals) :: groups => if Feq t ts then (t, vals ++ [val]) :: groups else (t, vals) :: addValue ts val groups
  end.

Definition readPair (v : list any) : option (F * F) :=
  match v with
  | t :: x :: _ =>
      match parseFloat t, parseFloat x with
      | Ok ts, Ok val => Some (ts, val)
      | _, _ => None
      end
  | _ => None
  end.

Definition valuesByTime (pairs : list (F * F)) : list (F * list F) :=
  foldl (λ groups p, addValue p.1 p.2 groups) [] pairs.

Definition deviationPoints (funcName : string) (series : list anyMatrix) : list (F * F) :=
  let groups := valuesByTime (concat (map (λ s, omap readPair (am_Values s)) series)) in
  map (λ g, (g.1, deviation funcName g.2)) (sortSlice (λ a b, Flt a.1 b.1) groups).

Definition matrixOf (values : list (list any)) : string :=
  encodeMatrix (mkAnswer "success" "matrix" (Some [mkAnyMatrix (Some ∅) values])).

Definition applyMatrixStddevAgg (body funcName : string) : string :=
  match usable "matrix" (decodeMatrix body) with
  | None => body
  | Some resp => matrixOf (map (λ p, [Num p.1; Str (Format_f p.2)]) (deviationPoints funcName (items resp)))
  end.

(** The value of every series that has one; the timestamp is that of the first series. *)
Definition vectorValues (series : list anyVector) : list F :=
  omap (λ s, match av_Value s with _ :: x :: _ => match parseFloat x with Ok v => Some v | Err _ => None end | _ => None end) series.

Definition firstStamp (series : list anyVector) : F :=
  match series with
  | s :: _ => match av_Value s with t :: _ :: _ => parsePointValue t | _ => zero end
  | [] => zero
  end.

Definition emptyVector : string := encodeVector (mkAnswer "success" "vector" (Some [])).

Definition applyInstantStddevAgg (body funcName : string) : string :=
  match usable "vector" (decodeVector body) with
  | None => body
  | Some resp =>
      match vectorValues (items resp) with
      | [] => emptyVector
      | vals => encodeVector (mkAnswer "success" "vector"
          (Some [mkAnyVector (Some ∅) [Num (firstStamp (items resp)); Str (Format_f (deviation funcName vals))]]))
      end
  end.

(** ** Sorting *)

Definition ascending (name : string) : bool := String.eqb name "sort" || String.eqb name "bottomk".

Definition vectorLess (name : string) (a b : anyVector) : bool :=
  let left := vectorPointValue (av_Value a) in
  let right := vectorPointValue (av_Value b) in
  if Feq left right then String.ltb (metricKey (av_Metric a)) (metricKey (av_Metric b))
  else if ascending name then Flt left right else Flt right left.

Definition cutsSeries (name : string) : bool := String.eqb name "topk" || String.eqb name "bottomk".

Definition sortedVector (postAgg : instantMetricPostAgg) (series : list anyVector) : list anyVector :=
  let sorted := SliceStable (vectorLess (agg_name postAgg)) series in
  if cutsSeries (agg_name postAgg) && (agg_k postAgg <? Z.of_nat (length sorted))
  then take (Z.to_nat (agg_k postAgg)) sorted else sorted.

Definition applyInstantSortTopkAgg (body : string) (postAgg : instantMetricPostAgg) : string :=
  match usable "vector" (decodeVector body) with
  | None => body
  | Some resp => encodeVector (mkAnswer (Status resp) (AnswerType resp) (option_map (sortedVector postAgg) (Items resp)))
  end.

Definition applyInstantVectorPostAggregation (body : string) (postAgg : instantMetricPostAgg) : string :=
  if String.eqb (agg_name postAgg) "stddev" || String.eqb (agg_name postAgg) "stdvar"
  then applyInstantStddevAgg body (agg_name postAgg)
  else applyInstantSortTopkAgg body postAgg.

(** The value a series of a matrix is ranked by. *)
Definition lastValue (s : anyMatrix) : F :=
  match last (am_Values s) with
  | Some (_ :: x :: _) => match parseFloat x with Ok v => v | Err _ => zero end
  | _ => zero
  end.

Definition rankLess (name : string) (a b : nat * F) : bool :=
  if Feq a.2 b.2 then (a.1 <? b.1)%nat
  else if ascending name then Flt a.2 b.2 else Flt b.2 a.2.

Definition preallocSize : nat := Z.to_nat 10000.

Definition sortedMatrix (name : string) (series : list anyMatrix) : list anyMatrix :=
  let ranks := SliceStable (rankLess name) (imap (λ i s, (i, lastValue s)) series) in
  take preallocSize (omap (λ r, series !! r.1) ranks).

Definition applyMatrixSort (body : string) (postAgg : instantMetricPostAgg) : string :=
  match usable "matrix" (decodeMatrix body) with
  | None => body
  | Some resp => encodeMatrix (mkAnswer (Status resp) (AnswerType resp) (Some (sortedMatrix (agg_name postAgg) (items resp))))
  end.

(** ** topk at every step *)

(** fastjson: [Get] on anything but an object that has the key is nil. *)
Definition get (key : string) (v : any) : option any :=
  match v with Obj m => member key m | _ => None end.

Definition arrayOf (v : option any) : list any := match v with Some (Arr l) => l | _ => [] end.
Definition stringOf (v : option any) : string := match v with Some (Str s) => s | _ => "" end.

(** A key of a map is set: replaced where it is, or added. *)
Definition putMember (key : string) (v : any) (m : list (string * any)) : list (string * any) :=
  match member key m with
  | Some _ => setMember key v m
  | None => m ++ [(key, v)]
  end.

Definition put (key : string) (x : any) (v : any) : any :=
  match v with Obj m => Obj (putMember key x m) | _ => v end.

Fixpoint indexed {A} (i : nat) (l : list A) : list (nat * A) :=
  match l with
  | [] => []
  | x :: l => (i, x) :: indexed (S i) l
  end.

Record ranked : Type := mkRanked { rk_time : F; rk_value : F; rk_series : nat; rk_pos : nat }.

Definition readPoint (point : any) : option (F * F) :=
  match point with
  | Arr [Num ts; v] => match ParseFloat (stringOf (Some v)) with Ok x => Some (ts, x) | Err _ => None end
  | _ => None
  end.

Definition pointsOf (series : any) : list any := arrayOf (get "values" series).

Definition ranksOfSeries (i : nat) (series : any) : option (list ranked) :=
  mapM (λ jp, option_map (λ tv, mkRanked tv.1 tv.2 i jp.1) (readPoint jp.2)) (indexed 0 (pointsOf series)).

(** The points of all series, or nothing when one of them cannot be read. *)
Definition collectRanks (series : list any) : option (list ranked) :=
  option_map (@List.concat _) (mapM (λ e, ranksOfSeries e.1 e.2) (indexed 0 series)).

Definition rankedLess (descending : bool) (a b : ranked) : bool :=
  if IsNaN (rk_value a) then false
  else if IsNaN (rk_value b) then true
  else if Feq (rk_value a) (rk_value b) then (rk_series a <? rk_series b)%nat
  else if descending then Flt (rk_value b) (rk_value a) else Flt (rk_value a) (rk_value b).

Definition atTime (ts : F) (r : ranked) : bool := Feq (rk_time r) ts.

(** The points selected at one timestamp. *)
Definition winners (k : Z) (descending : bool) (ranks : list ranked) (ts : F) : list ranked :=
  let step := sortSlice (rankedLess descending) (List.filter (atTime ts) ranks) in
  take (Nat.min (Z.to_nat (Z.max k 0)) (length step)) step.

Definition samePoint (a b : ranked) : bool := (rk_series a =? rk_series b)%nat && (rk_pos a =? rk_pos b)%nat.

Definition selected (k : Z) (descending : bool) (ranks : list ranked) (i j : nat) : bool :=
  existsb (λ r, (rk_series r =? i)%nat && (rk_pos r =? j)%nat &&
    existsb (samePoint r) (winners k descending ranks (rk_time r))) ranks.

Definition keptPoints (sel : nat → nat → bool) (i : nat) (series : any) : list any :=
  omap (λ jp, if sel i jp.1 then Some jp.2 else None) (indexed 0 (pointsOf series)).

Definition filteredSeries (sel : nat → nat → bool) (series : list any) : list any :=
  omap (λ e, match keptPoints sel e.1 e.2 with
              | [] => None
              | values => Some (put "values" (Arr values) e.2)
              end) (indexed 0 series).

Definition applyTopKToMatrix (body : string) (k : Z) (descending : bool) : string :=
  match fj_Parse body with
  | Err _ => body
  | Ok v =>
      if negb (String.eqb (stringOf (get "status" v)) "success") ||
         negb (String.eqb (stringOf (get "data" v ≫= get "resultType")) "matrix") then body
      else
        let series := arrayOf (get "data" v ≫= get "result") in
        if Z.of_nat (length series) <=? k then body
        else
          match get "data" v with
          | None => body
          | Some data =>
              match collectRanks series with
              | None => body
              | Some ranks =>
                  let filtered := filteredSeries (selected k descending ranks) series in
                  fj_Marshal (put "data" (put "result" (Arr filtered) data) v)
              end
          end
  end.

Definition applyMatrixSortTopkAgg (body : string) (postAgg : instantMetricPostAgg) : string :=
  if cutsSeries (agg_name postAgg) then applyTopKToMatrix body (agg_k postAgg) (String.eqb (agg_name postAgg) "topk")
  else applyMatrixSort body postAgg.

Definition applyMatrixPostAggregation (body : string) (postAgg : instantMetricPostAgg) : string :=
  if String.eqb (agg_name postAgg) "stddev" || String.eqb (agg_name postAgg) "stdvar"
  then applyMatrixStddevAgg body (agg_name postAgg)
  else applyMatrixSortTopkAgg body postAgg.

Definition parseFloat64Bytes (b : string) : F := if String.eqb b "" then zero else ParseFloatValue b.

Definition vectorRank (s : any) : F :=
  match arrayOf (get "value" s) with
  | _ :: x :: _ => parseFloat64Bytes (stringOf (Some x))
  | _ => zero
  end.

Definition topKVectorLess (descending : bool) (a b : nat * F) : bool :=
  if descending then Flt b.2 a.2 else Flt a.2 b.2.

(** The indices of the samples kept, ascending. *)
Definition keptIndices (k : nat) (descending : bool) (series : list any) : list nat :=
  let ranks := sortSlice (topKVectorLess descending) (imap (λ i s, (i, vectorRank s)) series) in
  SliceStable Nat.ltb (map fst (take k ranks)).

Definition quotedText (s : string) : string := String dquote s +:+ String dquote "".

Definition rebuildMatrixOrVector (resultType : string) (series : list any) (keep : list nat) : string :=
  "{" +:+ quotedText "status" +:+ ":" +:+ quotedText "success" +:+ "," +:+ quotedText "data" +:+ ":" +:+
  "{" +:+ quotedText "resultType" +:+ ":" +:+ quotedText resultType +:+ "," +:+ quotedText "result" +:+ ":" +:+
  "[" +:+ Join "," (map fj_Marshal (omap (λ i, series !! i) keep)) +:+ "]}}".

(** [None] is the panic of a negative k. *)
Definition applyTopKToVector (body : string) (k : Z) (descending : bool) : option string :=
  match fj_Parse body with
  | Err _ => Some body
  | Ok v =>
      let series := arrayOf (get "data" v ≫= get "result") in
      if Z.of_nat (length series) <=? k then Some body
      else if k <? 0 then None
      else Some (rebuildMatrixOrVector "vector" series (keptIndices (Z.to_nat k) descending series))
  end.

(** ** [or vector(N)] *)

Definition lokiMaxPointsPerSeries : Z := 11000.

(** The bounds of a range request; [None] when one cannot be read. *)
Definition requestEnd (now : Z) (form : gmap string (list string)) : option Z :=
  let raw := TrimSpace (Times.vget "end" form) in
  if String.eqb raw "" then Some now else Times.parseLokiTimeToUnixNano now raw.

Definition requestSince (form : gmap string (list string)) : option Z :=
  let raw := TrimSpace (Times.vget "since" form) in
  if String.eqb raw "" then Some Hour else Times.parsePositiveStepDuration raw.

Definition requestStart (now : Z) (form : gmap string (list string)) (stop : Z) : option Z :=
  let raw := TrimSpace (Times.vget "start" form) in
  if String.eqb raw "" then option_map (λ since, Z.min stop now - since) (requestSince form)
  else Times.parseLokiTimeToUnixNano now raw.

Definition exceedsLokiRangeResolution (now : Z) (form : gmap string (list string)) : bool :=
  match Times.parsePositiveStepDuration (Times.vget "step" form) with
  | None => false
  | Some step =>
      match requestEnd now form with
      | None => false
      | Some stop =>
          match requestStart now form stop with
          | None => false
          | Some start => (start <? stop) && (lokiMaxPointsPerSeries <? Z.quot (time_sub stop start) step)
          end
      end
  end.

(** The loop [for ts := startNs; ts <= endNs; ts += step]; [None] when the fuel does not
    suffice. *)
Fixpoint gridLoop (fuel : nat) (ts endNs step : Z) : option (list Z) :=
  if ts <=? endNs then
    match fuel with
    | O => None
    | S fuel => option_map (cons (Z.quot ts Second)) (gridLoop fuel (wrap64 (ts + step)) endNs step)
    end
  else Some [].

Definition maxGridSteps : Z := 100000.

(** The outer option is the fuel, the inner one the second result. *)
Definition rangeStepGridSeconds (fuel : nat) (now : Z) (form : gmap string (list string)) : option (option (list Z)) :=
  match Times.parseLokiTimeToUnixNano now (Times.vget "start" form),
        Times.parseLokiTimeToUnixNano now (Times.vget "end" form),
        Times.parsePositiveStepDuration (Times.vget "step" form) with
  | Some startNs, Some endNs, Some step =>
      if (step <=? 0) || (endNs <? startNs) then Some None
      else if maxGridSteps <? Z.quot (wrap64 (endNs - startNs)) step then Some None
      else option_map Some (gridLoop fuel startNs endNs step)
  | _, _, _ => Some None
  end.

Definition gridFuel : nat := Z.to_nat (maxGridSteps + 1).

(** The members of a series that is an object; [sm["metric"]] of anything else is nil. *)
Definition membersOf (s : any) : list (string * any) := match s with Obj m => m | _ => [] end.

Definition isUnlabelled (s : any) : bool :=
  match member "metric" (membersOf s) with Some (Obj (_ :: _)) => false | _ => true end.

(** The first series without labels and its place; a place with no object is a nil map. *)
Fixpoint findUnlabelled (series : list any) : option (nat * list (string * any)) :=
  match series with
  | [] => None
  | s :: series =>
      if isUnlabelled s then match s with Obj m => Some (O, m) | _ => None end
      else option_map (λ im, (S im.1, im.2)) (findUnlabelled series)
  end.

(** The points of the series that have a timestamp. *)
Definition wellFormed (points : list any) : list any :=
  List.filter (λ p, match p with Arr (_ :: _) => true | _ => false end) points.

Definition pointStamp (p : any) : F := match p with Arr (t :: _) => parsePointValue t | _ => zero end.

Definition constantFill (formatted : string) (ts : Z) : any := Arr [Int ts; Str formatted].

(** The timestamps the loop writes are integers; in the comparison an [int64] is no number
    [parsePointValue] knows. *)
Definition filledValues (formatted : string) (grid : list Z) (existing : list any) : list any :=
  let kept := wellFormed existing in
  let have := map (λ p, to_int64 (pointStamp p)) kept in
  let values := kept ++ map (constantFill formatted) (List.filter (λ ts, negb (existsb (Z.eqb ts) have)) grid) in
  sortSlice (λ a b, Flt (pointStamp a) (pointStamp b)) values.

Definition withResult (resp : list (string * any)) (data : list (string * any)) (series : list any) : list (string * any) :=
  putMember "data" (Obj (putMember "result" (Arr series) data)) resp.

(** An instant answer with the constant when no series without labels is there. *)
Definition fillInstant (resp data : list (string * any)) (series : list any) (value : F) (now : Z) (form : gmap string (list string)) : any :=
  let ts := Z.quot (parseInstantVectorTime now (Times.vget "time" form)) Second in
  Obj (withResult resp data (series ++ [Obj [("metric", Obj []); ("value", Arr [Int ts; Str (Format_f value)])]])).

Definition fillRange (resp data : list (string * any)) (series : list any) (value : F) (grid : list Z) : any :=
  let formatted := Format_f value in
  let series :=
    match findUnlabelled series with
    | Some (i, m) =>
        <[i := Obj (putMember "values" (Arr (filledValues formatted grid (arrayOf (member "values" m)))) m)]> series
    | None => series ++ [Obj [("metric", Obj []); ("values", Arr (filledValues formatted grid []))]]
    end in
  let data := match member "resultType" data with None | Some Nil => putMember "resultType" (Str "matrix") data | _ => data end in
  Obj (withResult resp data series).

(** [None] when the grid runs out of fuel. *)
Definition fillOrVectorConstant (fuel : nat) (body : string) (value : F) (now : Z) (form : gmap string (list string)) (isRange : bool)
    : option string :=
  match decodeTree body with
  | Ok (Obj resp) =>
      match member "data" resp with
      | Some (Obj data) =>
          let series := arrayOf (member "result" data) in
          if isRange then
            match rangeStepGridSeconds fuel now form with
            | None => None
            | Some None => Some body
            | Some (Some grid) => Some (encodeTree (fillRange resp data series value grid))
            end
          else
            match findUnlabelled series with
            | Some _ => Some body
            | None => Some (encodeTree (fillInstant resp data series value now form))
            end
      | _ => Some body
      end
  | _ => Some body
  end.

(** ** The empty grouping *)

Import Ast.

Context `{HU : Unicode} `{HP : Netip}.

Definition emptyWithout (op : string) (g : option Grouping) : bool :=
  match g with
  | Some g => String.eqb op "sum" && Without g && negb (Binary.nonempty (g_Labels g))
  | None => false
  end.

(** The operand under the wrappers, and their number. *)
Fixpoint peelWithout (e : Expr) : Expr * nat :=
  match e with
  | VectorAggregation op g _ _ e' => if emptyWithout op g then let '(r, n) := peelWithout e' in (r, S n) else (e, O)
  | _ => (e, O)
  end.

(** Parsing ends ([Parser.parse_total]), so the last case does not arise. *)
Definition unwrapEmptySumWithout (query : string) : option (Expr * nat) :=
  match Parser.Parse query with
  | Parser.Done e _ => match peelWithout e with (_, O) => None | r => Some r end
  | _ => None
  end.

End Evaluation.
End PostAgg.

(** ** Laws *)

(** The order of float64: equality and less-than on numbers that are not NaN. *)
Class FloatOrder `{Numbers} : Prop := {
  Feq_sym a b : Feq a b = true → Feq b a = true;
  Feq_trans a b c : Feq a b = true → Feq b c = true → Feq a c = true;
  Flt_trans a b c : Flt a b = true → Flt b c = true → Flt a c = true;
  Flt_irrefl a : Flt a a = false;
  Flt_l a b c : Feq a b = true → Flt a c = Flt b c;
  Flt_r a b c : Feq a b = true → Flt c a = Flt c b;
  Flt_total a b : Feq a a = true → Feq b b = true → Flt a b = false → Flt b a = false → Feq a b = true
}.

Module PostAggLaws.
Import Text Utf8 Ast Fanout PostAgg.

Section Lexicographic.
Context `{HN : Numbers} {HO : FloatOrder} {A : Type} (val : A → F) (tie : A → A → bool) (descending : bool).

Definition before (a b : F) : bool := if descending then Flt b a else Flt a b.

(** Values in the order asked for, NaN last, equal values by [tie]. *)
Definition lexLess (a b : A) : bool :=
  if IsNaN (val a) then false
  else if IsNaN (val b) then true
  else if Feq (val a) (val b) then tie a b
  else before (val a) (val b).

Hypothesis tie_asym : ∀ x y, tie x y = true → tie y x = false.
Hypothesis tie_trans : Transitive (no_greater tie).

Lemma value_before_asym a b : before a b = true → before b a = false.
Proof.
  unfold before. intros Hab. destruct descending.
  - destruct (Flt a b) eqn:Hba; [|done]. pose proof (Flt_trans _ _ _ Hab Hba). by rewrite Flt_irrefl in *.
  - destruct (Flt b a) eqn:Hba; [|done]. pose proof (Flt_trans _ _ _ Hab Hba). by rewrite Flt_irrefl in *.
Qed.

Lemma value_before_trans a b c : before a b = true → before b c = true → before a c = true.
Proof. unfold before. destruct descending; intros; by eapply Flt_trans. Qed.

Lemma value_before_neq a b : before a b = true → Feq a b = false.
Proof.
  unfold before. intros Hab. destruct (Feq a b) eqn:E; [|done]. destruct descending.
  - by rewrite (Flt_r a b b E), Flt_irrefl in Hab.
  - by rewrite (Flt_l a b b E), Flt_irrefl in Hab.
Qed.

Lemma value_before_l a b c : Feq a b = true → before a c = before b c.
Proof. unfold before. intros E. destruct descending; [by apply Flt_r|by apply Flt_l]. Qed.

Lemma value_before_r a b c : Feq a b = true → before c a = before c b.
Proof. unfold before. intros E. destruct descending; [by apply Flt_l|by apply Flt_r]. Qed.

Lemma value_before_total a b : IsNaN a = false → IsNaN b = false → before a b = false → Feq a b = false → before b a = true.
Proof.
  unfold IsNaN, before. rewrite !negb_false_iff. intros Ha Hb Hab En.
  destruct descending; match goal with |- ?g = true => destruct g eqn:E end; [done| |done|]; exfalso;
    rewrite (Flt_total a b) in En; done.
Qed.

Lemma lexLess_asym x y : lexLess x y = true → lexLess y x = false.
Proof.
  unfold lexLess. destruct (IsNaN (val x)) eqn:Hx; [done|]. destruct (IsNaN (val y)) eqn:Hy; [done|].
  destruct (Feq (val x) (val y)) eqn:E.
  - rewrite (Feq_sym _ _ E). apply tie_asym.
  - intros Hb. rewrite (value_before_asym _ _ Hb). destruct (Feq (val y) (val x)) eqn:E'; [|done].
    by rewrite (Feq_sym _ _ E') in E.
Qed.

Lemma lexLess_trans : Transitive (no_greater lexLess).
Proof.
  intros x y z. unfold no_greater, lexLess. destruct (IsNaN (val z)) eqn:Hz; [by intros|].
  destruct (IsNaN (val y)) eqn:Hy; [done|]. destruct (IsNaN (val x)) eqn:Hx; [done|].
  destruct (Feq (val y) (val x)) eqn:Eyx; destruct (Feq (val z) (val y)) eqn:Ezy; intros H1 H2.
  - rewrite (Feq_trans _ _ _ Ezy Eyx). by apply (tie_trans x y z).
  - destruct (Feq (val z) (val x)) eqn:Ezx.
    + by rewrite (Feq_trans _ _ _ Ezx (Feq_sym _ _ Eyx)) in Ezy.
    + by rewrite <- (value_before_r _ _ _ Eyx).
  - destruct (Feq (val z) (val x)) eqn:Ezx.
    + by rewrite (Feq_trans _ _ _ (Feq_sym _ _ Ezy) Ezx) in Eyx.
    + by rewrite (value_before_l _ _ _ Ezy).
  - pose proof (value_before_total _ _ Hy Hx H1 Eyx) as Hxy. pose proof (value_before_total _ _ Hz Hy H2 Ezy) as Hyz.
    pose proof (value_before_trans _ _ _ Hxy Hyz) as Hxz.
    destruct (Feq (val z) (val x)) eqn:Ezx; [|by apply value_before_asym].
    apply value_before_neq in Hxz. by rewrite (Feq_sym _ _ Ezx) in Hxz.
Qed.

End Lexicographic.

Lemma nat_ltb_trans : Transitive (no_greater Nat.ltb).
Proof. intros x y z. unfold no_greater. rewrite !Nat.ltb_ge. lia. Qed.

Lemma nat_ltb_asym x y : Nat.ltb x y = true → Nat.ltb y x = false.
Proof. rewrite Nat.ltb_lt, Nat.ltb_ge. lia. Qed.

(** ** topk *)

Section TopK.
Context `{HN : Numbers} {HO : FloatOrder} {HA : @Arithmetic _ HN} {HB : Answers} {HS : Sorter} {HSL : SorterLaws}.
Context (k : Z) (descending : bool).

Definition ranksAbove (a b : F) : bool :=
  negb (IsNaN a) && (IsNaN b || before descending a b).

Lemma rankedLess_lex : rankedLess descending = lexLess rk_value (λ a b, (rk_series a <? rk_series b)%nat) descending.
Proof. done. Qed.

Lemma ranked_sorted l : StronglySorted (no_greater (rankedLess descending)) (sortSlice (rankedLess descending) l).
Proof.
  rewrite rankedLess_lex. apply sortSlice_sorted.
  - apply lexLess_asym. intros x y. apply nat_ltb_asym.
  - apply lexLess_trans. intros x y z. apply nat_ltb_trans.
Qed.

Lemma not_above x y : rankedLess descending y x = false → ranksAbove (rk_value y) (rk_value x) = false.
Proof.
  unfold rankedLess, ranksAbove. destruct (IsNaN (rk_value y)); [done|]. destruct (IsNaN (rk_value x)); [done|]. cbn.
  destruct (before descending (rk_value y) (rk_value x)) eqn:E; [|done].
  rewrite (value_before_neq _ _ _ E). unfold before in E. by rewrite E.
Qed.

Definition place (r : ranked) : nat * nat := (rk_series r, rk_pos r).

Lemma samePoint_place a b : samePoint a b = true ↔ place a = place b.
Proof. unfold samePoint, place. rewrite andb_true_iff, !Nat.eqb_eq. split; [by intros [-> ->]|by intros [= -> ->]]. Qed.

Definition rankAt (i : nat) (jp : nat * any) : option ranked :=
  option_map (λ tv, mkRanked tv.1 tv.2 i jp.1) (readPoint jp.2).

Lemma series_places i j pts rs : mapM (rankAt i) (indexed j pts) = Some rs → map place rs = map (pair i) (seq j (length pts)).
Proof.
  revert j rs. induction pts as [|p pts IH]; intros j rs; cbn [indexed mapM length seq map].
  { by intros [= <-]. }
  intros (r & Hr & (rs' & E & [= <-])%bind_Some)%bind_Some. cbn [map]. rewrite (IH _ _ E). f_equal.
  unfold rankAt in Hr. cbn in Hr. destruct (readPoint p); [|done]. by injection Hr as <-.
Qed.

Lemma all_places i series rss : mapM (λ e, ranksOfSeries e.1 e.2) (indexed i series) = Some rss →
  Forall (λ p, i ≤ p.1)%nat (map place (List.concat rss)) ∧ NoDup (map place (List.concat rss)).
Proof.
  revert i rss. induction series as [|s series IH]; intros i rss; cbn [indexed mapM].
  { intros [= <-]. split; constructor. }
  intros (rs & E & (rss' & E' & [= <-])%bind_Some)%bind_Some. cbn [List.concat fst snd] in *. unfold ranksOfSeries in E.
  apply (series_places i) in E. destruct (IH _ _ E') as [Hf Hn]. rewrite map_app, E. split.
  - apply Forall_app. split; [|by eapply Forall_impl; [exact Hf|]; cbn; lia].
    apply Forall_forall. intros p Hp. apply list_elem_of_fmap in Hp as (m & -> & _). done.
  - apply NoDup_app. split; [apply NoDup_fmap; [by intros ?? [=]|apply NoDup_ListNoDup, seq_NoDup]|]. split; [|done].
    intros p Hp Hp'. apply list_elem_of_fmap in Hp as (m & -> & _). rewrite Forall_forall in Hf.
    apply Hf in Hp'. cbn in Hp'. lia.
Qed.

Section Selection.
Context (ranks : list ranked) (Hplaces : NoDup (map place ranks)).

#[local] Abbreviation atStep ts := (List.filter (atTime ts) ranks).

Lemma place_inj a b : a ∈ ranks → b ∈ ranks → place a = place b → a = b.
Proof.
  intros Ha Hb E. apply list_elem_of_lookup in Ha as [i Hi]. apply list_elem_of_lookup in Hb as [j Hj].
  assert (i = j) as ->; [|congruence]. eapply NoDup_lookup; [exact Hplaces| |]; rewrite list_lookup_fmap.
  - by rewrite Hi.
  - rewrite Hj. cbn. by rewrite <- E.
Qed.

Lemma elem_filter {A} (f : A → bool) l x : x ∈ List.filter f l ↔ x ∈ l ∧ f x = true.
Proof. rewrite !list_elem_of_In. apply filter_In. Qed.

Lemma winners_sub ts r : r ∈ winners k descending ranks ts → r ∈ atStep ts.
Proof.
  unfold winners. intros Hr. rewrite <- (sortSlice_perm (rankedLess descending) (atStep ts)).
  revert Hr. apply sublist_subseteq, sublist_take.
Qed.

Lemma same_step r ts : Feq (rk_time r) ts = true → atStep (rk_time r) = atStep ts.
Proof.
  intros E. apply List.filter_ext. intros x. unfold atTime. apply eq_bool_prop_intro. split; intros Hx%Is_true_eq_true; apply Is_true_eq_left.
  - by eapply Feq_trans.
  - eapply Feq_trans; [exact Hx|]. by apply Feq_sym.
Qed.

(** A point is selected when it is among the winners of its timestamp. *)
Lemma selected_winner r ts : r ∈ atStep ts →
  selected k descending ranks (rk_series r) (rk_pos r) = true ↔ r ∈ winners k descending ranks ts.
Proof.
  intros [Hr Ht]%elem_filter. unfold selected. rewrite existsb_exists. split.
  - intros (r' & Hin%list_elem_of_In & Hb). rewrite !andb_true_iff, !Nat.eqb_eq in Hb. destruct Hb as [[E1 E2] Hw].
    assert (r' = r) as -> by (apply place_inj; [done|done|unfold place; congruence]).
    apply existsb_exists in Hw as (w & Hw%list_elem_of_In & E%samePoint_place).
    unfold winners in Hw |- *. rewrite (same_step r ts Ht) in Hw.
    enough (w = r) as -> by done. symmetry. apply place_inj; [done| |done].
    by pose proof (winners_sub ts w Hw) as [? _]%elem_filter.
  - intros Hw. exists r. split; [by apply list_elem_of_In|]. rewrite !Nat.eqb_refl. cbn. apply existsb_exists. exists r.
    split; [|by apply samePoint_place]. apply list_elem_of_In. unfold winners in Hw |- *. by rewrite (same_step r ts Ht).
Qed.

Definition sel (r : ranked) : bool := selected k descending ranks (rk_series r) (rk_pos r).

Lemma ranks_nodup : NoDup ranks.
Proof. by eapply NoDup_fmap_1. Qed.

Lemma filter_nodup {A} (f : A → bool) l : NoDup l → NoDup (List.filter f l).
Proof. rewrite !NoDup_ListNoDup. apply List.NoDup_filter. Qed.

Lemma kept_winners ts : List.filter sel (atStep ts) ≡ₚ winners k descending ranks ts.
Proof.
  apply NoDup_Permutation.
  - by apply filter_nodup, filter_nodup, ranks_nodup.
  - unfold winners. eapply sublist_NoDup; [|apply sublist_take].
    rewrite sortSlice_perm. by apply filter_nodup, ranks_nodup.
  - intros r. rewrite elem_filter. split.
    + intros [Hr Hs]. by apply (selected_winner r ts Hr).
    + intros Hw. pose proof (winners_sub ts r Hw). split; [done|]. by apply (selected_winner r ts).
Qed.

Lemma kept_length ts : length (List.filter sel (atStep ts)) = Nat.min (Z.to_nat (Z.max k 0)) (length (atStep ts)).
Proof.
  rewrite kept_winners. unfold winners. rewrite length_take. rewrite (sortSlice_perm (rankedLess descending)). lia.
Qed.

Lemma kept_not_worse ts x y : x ∈ atStep ts → y ∈ atStep ts → sel x = true → sel y = false →
  ranksAbove (rk_value y) (rk_value x) = false.
Proof.
  intros Hx Hy Hsx Hsy. apply not_above.
  apply (selected_winner x ts Hx) in Hsx. unfold winners in Hsx. set (n := Nat.min _ _) in Hsx.
  refine (sorted_take_drop (no_greater (rankedLess descending)) n _ x y (ranked_sorted (atStep ts)) Hsx _).
  assert (y ∉ winners k descending ranks ts) as Hn.
  { intros Hw%(selected_winner y ts Hy). unfold sel in Hsy. congruence. }
  rewrite <- (sortSlice_perm (rankedLess descending)) in Hy.
  rewrite <- (take_drop n (sortSlice _ _)) in Hy. apply elem_of_app in Hy as [Hy|Hy]; [|done]. exfalso. apply Hn. exact Hy.
Qed.

End Selection.

(** The samples of an answer at a timestamp, with the labels of their series. *)
Definition sampleAt (ts : F) (metric : option any) (point : any) : option (option any * F) :=
  match readPoint point with
  | Some (t, x) => if Feq t ts then Some (metric, x) else None
  | None => None
  end.

Definition stepSamples (ts : F) (series : list any) : list (option any * F) :=
  List.concat (map (λ s, omap (sampleAt ts (get "metric" s)) (pointsOf s)) series).

Definition pick (f : nat → bool) (jp : nat * any) : option any := if f jp.1 then Some jp.2 else None.

Lemma omap_cons_some {A B} (f : A → option B) x l : omap f (x :: l) = match f x with Some y => y :: omap f l | None => omap f l end.
Proof. done. Qed.

Lemma series_samples ts metric (f : nat → bool) i j pts rs : mapM (rankAt i) (indexed j pts) = Some rs →
  omap (sampleAt ts metric) (omap (pick f) (indexed j pts)) =
  map (λ r, (metric, rk_value r)) (List.filter (λ r, atTime ts r && f (rk_pos r)) rs).
Proof.
  revert j rs. induction pts as [|p pts IH]; intros j rs; cbn [indexed mapM]. { by intros [= <-]. }
  intros (r & Hr & (rs' & E & [= <-])%bind_Some)%bind_Some. specialize (IH _ _ E).
  unfold rankAt in Hr. cbn in Hr. destruct (readPoint p) as [[t x]|] eqn:Hp; [|done]. injection Hr as <-.
  rewrite omap_cons_some. unfold pick at 1. cbn [fst snd List.filter rk_pos].
  change (atTime ts (mkRanked t x i j)) with (Feq t ts). destruct (f j).
  - rewrite omap_cons_some. unfold sampleAt at 1. rewrite Hp, andb_true_r. destruct (Feq t ts); cbn; by rewrite IH.
  - by rewrite andb_false_r.
Qed.

Lemma pick_all j pts : omap (pick (λ _, true)) (indexed j pts) = pts.
Proof. revert j. induction pts as [|p pts IH]; intros j; [done|]. cbn [indexed]. rewrite omap_cons_some. cbn. by rewrite IH. Qed.

Lemma member_set key key' v m : member key (setMember key' v m) =
  if String.eqb key' key then option_map (λ _, v) (member key m) else member key m.
Proof.
  induction m as [|[k' x] m IH]; [by destruct (String.eqb key' key)|]. cbn. destruct (String.eqb_spec k' key') as [->|Hk]; cbn.
  - destruct (String.eqb_spec key' key); [done|]. exact IH.
  - destruct (String.eqb_spec k' key) as [->|]; [|exact IH]. by rewrite (proj2 (String.eqb_neq key' key)).
Qed.

Lemma member_put key key' v m : member key (putMember key' v m) = if String.eqb key' key then Some v else member key m.
Proof.
  unfold putMember. destruct (member key' m) as [x|] eqn:E.
  - rewrite member_set. destruct (String.eqb_spec key' key) as [<-|]; [by rewrite E|done].
  - assert (∀ k m', member k (m' ++ [(key', v)]) = match member k m' with Some x => Some x | None => if String.eqb key' k then Some v else None end) as Ha.
    { intros k' m'. induction m' as [|[a b] m' IH]; [done|]. cbn. by destruct (String.eqb a k'). }
    rewrite Ha. destruct (String.eqb_spec key' key) as [<-|]; [by rewrite E|by destruct (member key m)].
Qed.

(** A series whose points are replaced keeps its labels. *)
Lemma put_points s p pts : pointsOf s = p :: pts → ∀ values,
  pointsOf (put "values" (Arr values) s) = values ∧ get "metric" (put "values" (Arr values) s) = get "metric" s.
Proof.
  unfold pointsOf, arrayOf, get. destruct s; try done. intros _ values. cbn [put]. by rewrite !member_put.
Qed.

Lemma filtered_samples ts (f : nat → nat → bool) i series rss : mapM (λ e, ranksOfSeries e.1 e.2) (indexed i series) = Some rss →
  stepSamples ts (omap (λ e, match keptPoints f e.1 e.2 with [] => None | values => Some (put "values" (Arr values) e.2) end) (indexed i series)) =
  List.concat (zip_with (λ s rs, map (λ r, (get "metric" s, rk_value r)) (List.filter (λ r, atTime ts r && f (rk_series r) (rk_pos r)) rs)) series rss).
Proof.
  revert i rss. induction series as [|s series IH]; intros i rss; cbn [indexed mapM]. { by intros [= <-]. }
  intros (rs & E & (rss' & E' & [= <-])%bind_Some)%bind_Some. specialize (IH _ _ E'). cbn [fst snd] in *.
  change (mapM (rankAt i) (indexed 0 (pointsOf s)) = Some rs) in E. pose proof (series_samples ts (get "metric" s) (f i) _ _ _ _ E) as Hs.
  assert (List.filter (λ r, atTime ts r && f (rk_series r) (rk_pos r)) rs = List.filter (λ r, atTime ts r && f i (rk_pos r)) rs) as Hf.
  { apply List.filter_ext_in. intros r Hr%list_elem_of_In. pose proof (series_places _ _ _ _ E) as Hp.
    assert (place r ∈ map place rs) as Hin by by apply list_elem_of_fmap_2. rewrite Hp in Hin.
    apply list_elem_of_fmap in Hin as (m & [= -> _] & _). done. }
  cbn [zip_with List.concat]. rewrite Hf, <- Hs, <- IH. rewrite omap_cons_some. cbn [fst snd].
  change (keptPoints f i s) with (omap (pick (f i)) (indexed 0 (pointsOf s))).
  destruct (omap (pick (f i)) (indexed 0 (pointsOf s))) as [|q qs] eqn:Hk; [done|].
  destruct (pointsOf s) as [|p pts] eqn:Hpts; [done|]. destruct (put_points s p pts Hpts (q :: qs)) as [H1 H2].
  unfold stepSamples. cbn [map List.concat]. by rewrite H1, H2.
Qed.

Lemma all_samples ts i series rss : mapM (λ e, ranksOfSeries e.1 e.2) (indexed i series) = Some rss →
  stepSamples ts series =
  List.concat (zip_with (λ s rs, map (λ r, (get "metric" s, rk_value r)) (List.filter (atTime ts) rs)) series rss).
Proof.
  revert i rss. induction series as [|s series IH]; intros i rss; cbn [indexed mapM]. { by intros [= <-]. }
  intros (rs & E & (rss' & E' & [= <-])%bind_Some)%bind_Some. specialize (IH _ _ E'). cbn [fst snd] in *.
  change (mapM (rankAt i) (indexed 0 (pointsOf s)) = Some rs) in E.
  pose proof (series_samples ts (get "metric" s) (λ _, true) _ _ _ _ E) as Hs. rewrite pick_all in Hs.
  unfold stepSamples in *. cbn [map List.concat zip_with]. rewrite IH, Hs. do 2 f_equal. apply List.filter_ext. intros r. apply andb_true_r.
Qed.

(** All points with the labels of their series. *)
Definition labelled (series : list any) (rss : list (list ranked)) : list (option any * ranked) :=
  List.concat (zip_with (λ s rs, map (pair (get "metric" s)) rs) series rss).

Lemma labelled_filter (f : ranked → bool) series rss :
  List.concat (zip_with (λ s rs, map (λ r, (get "metric" s, rk_value r)) (List.filter f rs)) series rss) =
  map (λ x, (x.1, rk_value x.2)) (List.filter (λ x, f x.2) (labelled series rss)).
Proof.
  revert rss. induction series as [|s series IH]; intros [|rs rss]; [done..|]. unfold labelled in *. cbn [zip_with List.concat].
  rewrite List.filter_app, map_app, <- IH. f_equal. induction rs as [|r rs IHr]; [done|]. cbn. destruct (f r); cbn; by rewrite IHr.
Qed.

Lemma labelled_ranks i series rss : mapM (λ e, ranksOfSeries e.1 e.2) (indexed i series) = Some rss →
  map snd (labelled series rss) = List.concat rss.
Proof.
  revert i rss. induction series as [|s series IH]; intros i rss; cbn [indexed mapM]. { by intros [= <-]. }
  intros (rs & E & (rss' & E' & [= <-])%bind_Some)%bind_Some. specialize (IH _ _ E'). unfold labelled in *. cbn [zip_with List.concat].
  rewrite map_app, IH, map_map. cbn. by rewrite map_id.
Qed.

Lemma filter_map_snd {A B} (f : B → bool) (l : list (A * B)) : map snd (List.filter (λ x, f x.2) l) = List.filter f (map snd l).
Proof. induction l as [|[a b] l IH]; [done|]. cbn. destruct (f b); cbn; by rewrite IH. Qed.

Lemma filter_split {A} (f : A → bool) l : l ≡ₚ List.filter f l ++ List.filter (λ x, negb (f x)) l.
Proof.
  induction l as [|x l IH]; [done|]. cbn. destruct (f x); cbn; [by rewrite <- IH|].
  rewrite <- Permutation_middle. by rewrite <- IH.
Qed.

Lemma filter_filter {A} (f g : A → bool) l : List.filter f (List.filter g l) = List.filter (λ x, g x && f x) l.
Proof. induction l as [|x l IH]; [done|]. cbn. destruct (g x); cbn; [destruct (f x)|]; by rewrite IH. Qed.

(** The selection at every timestamp of an answer. *)
Lemma topk_selection series ranks ts : collectRanks series = Some ranks →
  let out := filteredSeries (selected k descending ranks) series in
  ∃ dropped, stepSamples ts series ≡ₚ stepSamples ts out ++ dropped ∧
    length (stepSamples ts out) = Nat.min (Z.to_nat (Z.max k 0)) (length (stepSamples ts series)) ∧
    ∀ x y, x ∈ stepSamples ts out → y ∈ dropped → ranksAbove y.2 x.2 = false.
Proof.
  unfold collectRanks. destruct (mapM _ _) as [rss|] eqn:E; [|done]. intros [= <-]. destruct (all_places _ _ _ E) as [_ Hn].
  cbv zeta. unfold filteredSeries. rewrite (filtered_samples ts _ _ _ _ E), (all_samples ts _ _ _ E).
  set (ranks := List.concat rss) in *. set (f := selected k descending ranks).
  rewrite (labelled_filter (atTime ts)), (labelled_filter (λ r, atTime ts r && f (rk_series r) (rk_pos r))).
  pose proof (labelled_ranks _ _ _ E) as HL. fold ranks in HL. set (L := labelled series rss) in *.
  set (G := List.filter (λ x, atTime ts x.2) L). assert (map snd G = List.filter (atTime ts) ranks) as HG by (unfold G; by rewrite filter_map_snd, HL).
  assert (List.filter (λ x, atTime ts x.2 && f (rk_series x.2) (rk_pos x.2)) L = List.filter (λ x, sel ranks x.2) G) as ->.
  { unfold G. by rewrite filter_filter. }
  exists (map (λ x, (x.1, rk_value x.2)) (List.filter (λ x, negb (sel ranks x.2)) G)). split_and!.
  - rewrite <- map_app. apply fmap_Permutation, filter_split.
  - rewrite !length_map. transitivity (length (map snd (List.filter (λ x, sel ranks x.2) G))); [by rewrite length_map|].
    rewrite filter_map_snd, HG, (kept_length ranks Hn), <- HG. by rewrite length_map.
  - intros x y Hx Hy. apply list_elem_of_fmap in Hx as (a & -> & [Ha Hsa]%elem_filter).
    apply list_elem_of_fmap in Hy as (b & -> & [Hb Hsb]%elem_filter). cbn [fst snd].
    apply (kept_not_worse ranks Hn ts); [rewrite <- HG; by apply list_elem_of_fmap_2..|done|by apply negb_true_iff].
Qed.

End TopK.

Section Results.
Context `{HN : Numbers} {HO : FloatOrder} {HA : @Arithmetic _ HN} {HC : @Clock _ HN} {HR : Roots} {HB : Answers} {HS : Sorter} {HSL : SorterLaws}.

(** C17 topk and bottomk over a range select at every timestamp on their own: as many samples
    as asked for, or all there are, each with its value and the labels of its series, and
    no sample left out ranks above one that is kept (NaN ranks last). *)
Theorem topk_each_step body v data series ranks k descending :
  fj_Parse body = Ok v → get "status" v = Some (Str "success") → get "data" v = Some data →
  get "resultType" data = Some (Str "matrix") → get "result" data = Some (Arr series) →
  0 ≤ k < Z.of_nat (length series) → collectRanks series = Some ranks →
  ∃ out, applyTopKToMatrix body k descending = fj_Marshal (put "data" (put "result" (Arr out) data) v) ∧
    ∀ ts, ∃ dropped, stepSamples ts series ≡ₚ stepSamples ts out ++ dropped ∧
      Z.of_nat (length (stepSamples ts out)) = Z.min k (Z.of_nat (length (stepSamples ts series))) ∧
      ∀ x y, x ∈ stepSamples ts out → y ∈ dropped → ranksAbove descending y.2 x.2 = false.
Proof.
  intros Hp Hs Hd Ht Hr Hk Hc. exists (filteredSeries (selected k descending ranks) series). split.
  - unfold applyTopKToMatrix. rewrite Hp, Hs, Hd. cbn [mbind option_bind]. rewrite Ht, Hr. cbn.
    by rewrite (proj2 (Z.leb_gt _ _)) by lia; rewrite Hc.
  - intros ts. destruct (topk_selection k descending series ranks ts Hc) as (dropped & H1 & H2 & H3).
    exists dropped. split; [done|]. split; [rewrite H2; lia|done].
Qed.

(** ** Sorting *)

Lemma insertStable_ext {A} (less less' : A → A → bool) x l : (∀ y, y ∈ l → less y x = less' y x) →
  insertStable less x l = insertStable less' x l.
Proof.
  induction l as [|y l IH]; intros Hl; [done|]. cbn. rewrite (Hl y) by left. destruct (less' y x); [|done].
  rewrite IH; [done|]. intros z Hz. apply Hl. by right.
Qed.

Lemma SliceStable_ext {A} (less less' : A → A → bool) l : (∀ x y, x ∈ l → y ∈ l → less x y = less' x y) →
  SliceStable less l = SliceStable less' l.
Proof.
  induction l as [|x l IH]; intros Hl; [done|]. cbn [SliceStable foldr]. fold (SliceStable less l) (SliceStable less' l).
  rewrite IH by (intros; apply Hl; by right). apply insertStable_ext. intros y Hy. rewrite SliceStable_perm in Hy.
  apply Hl; [by right|by left].
Qed.

Lemma lex_no_nan {A} (val : A → F) tie d (a b : A) : IsNaN (val a) = false → IsNaN (val b) = false →
  lexLess val tie d a b = if Feq (val a) (val b) then tie a b else before d (val a) (val b).
Proof. unfold lexLess. by intros -> ->. Qed.

(** A value is above another under [sort_desc] and [topk] when it is greater, under [sort]
    and [bottomk] when it is less. *)
Definition descends (name : string) : bool := negb (ascending name).

Lemma vectorLess_lex name a b : IsNaN (vectorPointValue (av_Value a)) = false → IsNaN (vectorPointValue (av_Value b)) = false →
  vectorLess name a b = lexLess (λ s, vectorPointValue (av_Value s)) (λ a b, String.ltb (metricKey (av_Metric a)) (metricKey (av_Metric b))) (descends name) a b.
Proof. intros Ha Hb. rewrite lex_no_nan by done. unfold vectorLess, before, descends. by destruct (ascending name). Qed.

Lemma rankLess_lex name a b : IsNaN a.2 = false → IsNaN b.2 = false →
  rankLess name a b = lexLess snd (λ a b : nat * F, (a.1 <? b.1)%nat) (descends name) a b.
Proof. intros Ha Hb. rewrite lex_no_nan by done. unfold rankLess, before, descends. by destruct (ascending name). Qed.

Lemma lex_not_above {A} (val : A → F) tie d x y : no_greater (lexLess val tie d) x y → ranksAbove d (val y) (val x) = false.
Proof.
  unfold no_greater, lexLess, ranksAbove. destruct (IsNaN (val y)); [done|]. destruct (IsNaN (val x)); [done|]. cbn.
  destruct (before d (val y) (val x)) eqn:E; [|done]. by rewrite (value_before_neq _ _ _ E).
Qed.

Lemma sorted_weaken {A} (R S : A → A → Prop) l : (∀ x y, R x y → S x y) → StronglySorted R l → StronglySorted S l.
Proof. intros HRS. induction 1 as [|x l Hs IH Hx]; constructor; [done|]. eapply Forall_impl; [exact Hx|apply HRS]. Qed.

(** The samples of an instant answer in the order of their values. *)
Lemma vector_sorted name series : Forall (λ s, IsNaN (vectorPointValue (av_Value s)) = false) series →
  StronglySorted (λ x y, ranksAbove (descends name) (vectorPointValue (av_Value y)) (vectorPointValue (av_Value x)) = false)
    (SliceStable (vectorLess name) series).
Proof.
  intros Hf. rewrite Forall_forall in Hf.
  rewrite (SliceStable_ext _ _ _ (λ x y Hx Hy, vectorLess_lex name x y (Hf x Hx) (Hf y Hy))).
  eapply sorted_weaken; [|apply SliceStable_sorted].
  - intros x y. apply (lex_not_above (λ s, vectorPointValue (av_Value s))).
  - apply lexLess_asym. intros x y. apply ltb_asym.
  - apply lexLess_trans. intros x y z. apply not_ltb_trans.
Qed.

Lemma sortedVector_front postAgg series : let sorted := SliceStable (vectorLess (agg_name postAgg)) series in
  sortedVector postAgg series ++ drop (length (sortedVector postAgg series)) sorted = sorted.
Proof.
  cbv zeta. unfold sortedVector. set (sorted := SliceStable _ _). destruct (_ && _); [|by rewrite drop_all, app_nil_r].
  rewrite length_take. destruct (Nat.min_spec (Z.to_nat (agg_k postAgg)) (length sorted)) as [[? ->]|[? ->]]; [apply take_drop|].
  rewrite drop_ge, app_nil_r by lia. apply take_ge. lia.
Qed.

(** An instant answer without NaN is sorted by value in the direction asked for; topk and
    bottomk keep the first k of it, so that what is left out is no better than what is kept,
    and sort and sort_desc keep every sample. *)
Theorem instant_ranking body resp series postAgg : decodeVector body = Ok resp → Status resp = "success" →
  AnswerType resp = "vector" → Items resp = Some series → 0 ≤ agg_k postAgg →
  Forall (λ s, IsNaN (vectorPointValue (av_Value s)) = false) series →
  ∃ out dropped, applyInstantSortTopkAgg body postAgg = encodeVector (mkAnswer "success" "vector" (Some out)) ∧
    series ≡ₚ out ++ dropped ∧
    Z.of_nat (length out) = (if cutsSeries (agg_name postAgg) then Z.min (agg_k postAgg) (Z.of_nat (length series)) else Z.of_nat (length series)) ∧
    StronglySorted (λ x y, ranksAbove (descends (agg_name postAgg)) (vectorPointValue (av_Value y)) (vectorPointValue (av_Value x)) = false) (out ++ dropped).
Proof.
  intros Hd Hs Ht Hi Hk Hf. set (sorted := SliceStable (vectorLess (agg_name postAgg)) series).
  assert (length sorted = length series) as Hl by (unfold sorted; by rewrite SliceStable_perm).
  exists (sortedVector postAgg series), (drop (length (sortedVector postAgg series)) sorted). split_and!.
  - unfold applyInstantSortTopkAgg, usable. rewrite Hd, Hs, Ht. cbn. by rewrite Hs, Ht, Hi.
  - unfold sorted. rewrite sortedVector_front. by rewrite SliceStable_perm.
  - unfold sortedVector. fold sorted. destruct (cutsSeries _); cbn [andb]; [|lia]. zcase; [rewrite length_take; lia|lia].
  - unfold sorted. rewrite sortedVector_front. by apply vector_sorted.
Qed.

Definition ranksFor (series : list anyMatrix) : list (nat * F) := imap (λ i s, (i, lastValue s)) series.

(** Every rank is read off the series it points to. *)
Definition points (series : list anyMatrix) (r : nat * F) (s : anyMatrix) : Prop := series !! r.1 = Some s ∧ lastValue s = r.2.

Lemma ranks_point series r : r ∈ ranksFor series → ∃ s, points series r s.
Proof.
  intros [i Hi]%list_elem_of_lookup. unfold ranksFor in Hi. rewrite list_lookup_imap in Hi.
  apply fmap_Some in Hi as (s & Hs & ->). by exists s.
Qed.

Lemma omap_points series ranks : Forall (λ r, ∃ s, points series r s) ranks →
  Forall2 (points series) ranks (omap (λ r, series !! r.1) ranks).
Proof.
  induction 1 as [|r ranks (s & Hs & Hv) _ IH]; [constructor|]. rewrite omap_cons_some, Hs. by constructor.
Qed.

Lemma omap_ranks series : omap (λ r, series !! r.1) (ranksFor series) = series.
Proof.
  assert (∀ l pre, series = pre ++ l → omap (λ r, series !! r.1) (imap (λ i s, ((length pre + i)%nat, lastValue s)) l) = l) as Hl.
  { induction l as [|s l IH]; intros pre E; [done|]. cbn [imap]. rewrite omap_cons_some, Nat.add_0_r. cbn [fst].
    rewrite E at 1. rewrite lookup_app_r, Nat.sub_diag by done. cbn. f_equal. rewrite <- (IH (pre ++ [s])) at 2 by by rewrite <- app_assoc.
    f_equal. apply imap_ext. intros i x _. cbn. rewrite length_app. cbn. f_equal. lia. }
  by apply (Hl series []).
Qed.

Lemma omap_perm {A B} (f : A → option B) l l' : l ≡ₚ l' → omap f l ≡ₚ omap f l'.
Proof.
  induction 1 as [|x l l' _ IH|x y l|l1 l2 l3 _ IH1 _ IH2]; [done| | |by rewrite IH1].
  - rewrite !omap_cons_some. destruct (f x); [by constructor|done].
  - rewrite !omap_cons_some. destruct (f x), (f y); try done. constructor.
Qed.

Lemma sorted_points series ranks out (R : F → F → Prop) : Forall2 (points series) ranks out →
  StronglySorted (λ a b, R a.2 b.2) ranks → StronglySorted (λ a b, R (lastValue a) (lastValue b)) out.
Proof.
  intros H2 Hs. revert out H2. induction Hs as [|r ranks Hs IH Hr]; intros out H2; inversion H2 as [|? s ? out' [_ Hv] H2']; subst; constructor.
  - by apply IH.
  - rewrite Hv. clear -Hr H2'. induction H2' as [|r' s' ranks out' [_ Hv'] _ IH]; [constructor|].
    inversion Hr; subst. constructor; [by rewrite Hv'|by apply IH].
Qed.

Lemma sorted_front {A} (R : A → A → Prop) l l' : StronglySorted R (l ++ l') → StronglySorted R l.
Proof.
  induction l as [|x l IH]; [constructor|]. inversion 1 as [|? ? Hl Hx]; subst. constructor; [by apply IH|].
  by apply Forall_app in Hx as [? _].
Qed.

(** sort and sort_desc over a range order the series by their last value; every series is
    there as long as there are at most 10,000 of them, and 10,000 are there if there are more. *)
Theorem matrix_sort name series : Forall (λ s, IsNaN (lastValue s) = false) series →
  let out := sortedMatrix name series in
  StronglySorted (λ x y, ranksAbove (descends name) (lastValue y) (lastValue x) = false) out ∧
  (∃ dropped, series ≡ₚ out ++ dropped) ∧ Z.of_nat (length out) = Z.min 10000 (Z.of_nat (length series)).
Proof.
  intros Hf. cbv zeta. unfold sortedMatrix. fold (ranksFor series). set (ranks := SliceStable _ _).
  assert (ranks ≡ₚ ranksFor series) as Hp by apply SliceStable_perm.
  assert (omap (λ r, series !! r.1) ranks ≡ₚ series) as Ho.
  { transitivity (omap (λ r, series !! r.1) (ranksFor series)); [by apply omap_perm|by rewrite omap_ranks]. }
  assert (StronglySorted (λ a b, ranksAbove (descends name) b.2 a.2 = false) ranks) as Hs.
  { unfold ranks. rewrite (SliceStable_ext _ (lexLess snd (λ a b : nat * F, (a.1 <? b.1)%nat) (descends name))).
    - eapply sorted_weaken; [|apply SliceStable_sorted].
      + intros x y. apply lex_not_above.
      + apply lexLess_asym. intros x y. apply nat_ltb_asym.
      + apply lexLess_trans. intros x y z. apply nat_ltb_trans.
    - intros x y (sx & Hx & Hvx)%ranks_point (sy & Hy & Hvy)%ranks_point. rewrite Forall_forall in Hf.
      apply rankLess_lex; [rewrite <- Hvx|rewrite <- Hvy]; apply Hf; by eapply list_elem_of_lookup_2. }
  assert (Forall2 (points series) ranks (omap (λ r, series !! r.1) ranks)) as H2.
  { apply omap_points. apply Forall_forall. intros r Hr. rewrite Hp in Hr. by apply ranks_point. }
  pose proof (sorted_points series ranks _ (λ a b, ranksAbove (descends name) b a = false) H2 Hs) as Hso.
  split_and!.
  - rewrite <- (take_drop preallocSize (omap (λ r, series !! r.1) ranks)) in Hso. by eapply sorted_front.
  - exists (drop preallocSize (omap (λ r, series !! r.1) ranks)). by rewrite take_drop.
  - rewrite length_take, Ho. unfold preallocSize. lia.
Qed.

(** ** The step grid *)

Lemma gridLoop_spec fuel ts endNs step : 0 < step → 0 ≤ ts → endNs + step ≤ MaxInt64 → (endNs - ts) / step < Z.of_nat fuel →
  gridLoop fuel ts endNs step = Some (map (λ i, (ts + Z.of_nat i * step) / Second) (seq 0 (Z.to_nat ((endNs - ts) / step + 1)))).
Proof.
  intros Hs. revert ts. induction fuel as [|fuel IH]; intros ts Ht He Hf; cbn [gridLoop].
  - destruct (Z.leb_spec ts endNs); [|assert ((endNs - ts) / step < 0) by (apply Z.div_lt_upper_bound; lia)].
    + assert (0 ≤ (endNs - ts) / step) by (apply Z.div_pos; lia). lia.
    + by replace (Z.to_nat ((endNs - ts) / step + 1)) with O by lia.
  - destruct (Z.leb_spec ts endNs) as [Hle|Hgt].
    + rewrite wrap64_id by (unfold in_int64, MinInt64, MaxInt64 in *; lia).
      assert ((endNs - (ts + step)) / step = (endNs - ts) / step - 1) as E.
      { replace (endNs - (ts + step)) with ((endNs - ts) + (-1) * step) by lia. rewrite Z.div_add by lia. lia. }
      assert (0 ≤ (endNs - ts) / step) by (apply Z.div_pos; lia).
      rewrite IH, E by lia. cbn [option_map]. f_equal.
      replace (Z.to_nat ((endNs - ts) / step + 1)) with (S (Z.to_nat ((endNs - ts) / step - 1 + 1))) by lia. cbn [seq map]. f_equal.
      * rewrite Z.quot_div_nonneg by (unfold Second; lia). f_equal. lia.
      * rewrite <- seq_shift, map_map. apply map_ext. intros i. f_equal. lia.
    + assert ((endNs - ts) / step < 0) by (apply Z.div_lt_upper_bound; lia).
      by replace (Z.to_nat ((endNs - ts) / step + 1)) with O by lia.
Qed.

(** The seconds of the evaluation instants of a range request. *)
Definition gridSeconds (start stop step : Z) : list Z :=
  map (λ i, (start + Z.of_nat i * step) / Second) (seq 0 (Z.to_nat ((stop - start) / step + 1))).

Definition rangeRequest (now : Z) (form : gmap string (list string)) (start stop step : Z) : Prop :=
  Times.parseLokiTimeToUnixNano now (Times.vget "start" form) = Some start ∧
  Times.parseLokiTimeToUnixNano now (Times.vget "end" form) = Some stop ∧
  Times.parsePositiveStepDuration (Times.vget "step" form) = Some step ∧
  0 < step ∧ 0 ≤ start ≤ stop ∧ stop + step ≤ MaxInt64.

Lemma grid_complete now form start stop step : rangeRequest now form start stop step → (stop - start) / step ≤ maxGridSteps →
  rangeStepGridSeconds gridFuel now form = Some (Some (gridSeconds start stop step)).
Proof.
  intros (Hs & He & Hst & Hp & Hr & Ho) Hm. unfold rangeStepGridSeconds. rewrite Hs, He, Hst.
  rewrite (proj2 (Z.leb_gt step 0)), (proj2 (Z.ltb_ge stop start)) by lia. cbn [orb].
  rewrite wrap64_id by (unfold in_int64, MinInt64, MaxInt64 in *; lia). rewrite Z.quot_div_nonneg by lia.
  rewrite (proj2 (Z.ltb_ge _ _)) by lia. rewrite gridLoop_spec; [done|lia..|].
  unfold gridFuel, maxGridSteps in *. lia.
Qed.

(** The guard on the number of points of a request keeps the grid within its own bound. *)
Lemma resolution_bounds_grid now form start stop step : rangeRequest now form start stop step → TrimSpace (Times.vget "end" form) ≠ "" →
  TrimSpace (Times.vget "start" form) ≠ "" → exceedsLokiRangeResolution now form = false →
  Times.parseLokiTimeToUnixNano now (TrimSpace (Times.vget "end" form)) = Some stop →
  Times.parseLokiTimeToUnixNano now (TrimSpace (Times.vget "start" form)) = Some start →
  (stop - start) / step ≤ lokiMaxPointsPerSeries.
Proof.
  intros (_ & _ & Hst & Hp & Hr & Ho) Hne Hns Hx He Hs. unfold exceedsLokiRangeResolution, requestEnd, requestStart in Hx. rewrite Hst in Hx.
  rewrite (proj2 (String.eqb_neq _ _) Hne), (proj2 (String.eqb_neq _ _) Hns), He, Hs in Hx.
  apply andb_false_iff in Hx as [Hx%Z.ltb_ge|Hx%Z.ltb_ge].
  - replace stop with start by lia. rewrite Z.sub_diag, Z.div_0_l by lia. unfold lokiMaxPointsPerSeries. lia.
  - unfold time_sub in Hx. rewrite Z.min_r, Z.max_r in Hx by (unfold MinInt64, MaxInt64 in *; lia).
    by rewrite Z.quot_div_nonneg in Hx by lia.
Qed.

(** A step of a second or more visits no second twice. *)
Lemma grid_nodup start stop step : Second ≤ step → 0 ≤ start → NoDup (gridSeconds start stop step).
Proof.
  intros Hs Hst. unfold gridSeconds. apply NoDup_fmap_2_strong; [|apply NoDup_ListNoDup, seq_NoDup]. intros i j _ _ E.
  assert (∀ a b : nat, (a < b)%nat → (start + Z.of_nat a * step) / Second < (start + Z.of_nat b * step) / Second) as Hlt.
  { intros a b Hab. unfold Second in *. apply Z.lt_le_trans with ((start + Z.of_nat a * step + 1000000000) / 1000000000).
    - replace (start + Z.of_nat a * step + 1000000000) with (start + Z.of_nat a * step + 1 * 1000000000) by lia.
      rewrite Z.div_add by lia. lia.
    - apply Z.div_le_mono; nia. }
  destruct (Nat.lt_trichotomy i j) as [Hij|[->|Hij]]; [|done|]; apply Hlt in Hij; lia.
Qed.

(** ** [or vector(N)] *)

(** The second a point of the answer is at. *)
Definition pointSecond (p : any) : Z :=
  match p with
  | Arr (Int t :: _) => t
  | _ => to_int64 (pointStamp p)
  end.

Definition isObj (s : any) : bool := match s with Obj _ => true | _ => false end.

(** The points of the series without labels. *)
Definition unlabelledPoints (series : list any) : list any :=
  match findUnlabelled series with
  | Some (_, m) => wellFormed (arrayOf (member "values" m))
  | None => []
  end.

Lemma wellFormed_idem l : wellFormed (wellFormed l) = wellFormed l.
Proof. unfold wellFormed. rewrite filter_filter. apply List.filter_ext. intros x. apply andb_diag. Qed.

(** The seconds of the grid at which none of the points is. *)
Definition missing (points : list any) (grid : list Z) : list Z :=
  filter (λ ts, ts ∉ map (λ p, to_int64 (pointStamp p)) points) grid.

Lemma filled_perm formatted grid existing :
  filledValues formatted grid existing ≡ₚ wellFormed existing ++ map (constantFill formatted) (missing (wellFormed existing) grid).
Proof.
  unfold filledValues, missing. rewrite sortSlice_perm. apply Permutation_app_head, Permutation_refl'. f_equal.
  induction grid as [|ts grid IH]; [done|]. rewrite filter_cons. cbn [List.filter]. rewrite IH.
  destruct (decide (ts ∉ _)) as [Hn|Hn], (existsb (Z.eqb ts) _) eqn:E; cbn [negb]; try done.
  - apply existsb_exists in E as (x & Hx%list_elem_of_In & ->%Z.eqb_eq). done.
  - destruct Hn. intros Hin. enough (existsb (Z.eqb ts) (map (λ p, to_int64 (pointStamp p)) (wellFormed existing)) = true) by congruence.
    apply existsb_exists. exists ts. split; [by apply list_elem_of_In|apply Z.eqb_refl].
Qed.

Lemma filled_wellFormed formatted grid existing : wellFormed (filledValues formatted grid existing) = filledValues formatted grid existing.
Proof.
  assert (Forall (λ p, match p with Arr (_ :: _) => true | _ => false end = true) (filledValues formatted grid existing)) as Ha.
  { rewrite filled_perm. apply Forall_app. split; [|by apply Forall_map, Forall_true].
    apply Forall_forall. intros p Hp. unfold wellFormed in Hp. by apply elem_filter in Hp as [_ Hp]. }
  unfold wellFormed. induction Ha as [|p l Hp Ha IH]; [done|]. cbn [List.filter]. by rewrite Hp, IH.
Qed.

Lemma find_insert series i m values : findUnlabelled series = Some (i, m) →
  findUnlabelled (<[i := Obj (putMember "values" values m)]> series) = Some (i, putMember "values" values m) ∧
  List.filter (λ s, negb (isUnlabelled s)) (<[i := Obj (putMember "values" values m)]> series) = List.filter (λ s, negb (isUnlabelled s)) series.
Proof.
  assert (isUnlabelled (Obj m) = true → isUnlabelled (Obj (putMember "values" values m)) = true) as Hu.
  { unfold isUnlabelled. cbn [membersOf]. by rewrite member_put. }
  revert i. induction series as [|s series IH]; intros i; [done|]. cbn [findUnlabelled]. destruct (isUnlabelled s) eqn:E.
  - destruct s; try done. intros [= <- ->]. cbn [insert list_insert findUnlabelled List.filter]. by rewrite (Hu E), E.
  - destruct (findUnlabelled series) as [[j m']|] eqn:Ef; [|done]. cbn [option_map fst snd]. intros [= <- ->].
    destruct (IH j eq_refl) as [H1 H2]. change (<[S j := ?x]> (s :: series)) with (s :: <[j := x]> series).
    cbn [findUnlabelled List.filter]. rewrite E. cbn [negb]. split; [by rewrite H1|by f_equal].
Qed.

Lemma find_append series s m : Forall (λ s, isObj s = true) series → findUnlabelled series = None → s = Obj m → isUnlabelled s = true →
  findUnlabelled (series ++ [s]) = Some (length series, m) ∧
  List.filter (λ s, negb (isUnlabelled s)) (series ++ [s]) = List.filter (λ s, negb (isUnlabelled s)) series.
Proof.
  intros Hf Hn -> Hu. split.
  - induction Hf as [|x series Hx Hf IH]; cbn [app findUnlabelled length]; [by rewrite Hu|]. cbn [findUnlabelled] in Hn.
    destruct (isUnlabelled x) eqn:E; [by destruct x|]. destruct (findUnlabelled series); [done|]. by rewrite (IH eq_refl).
  - rewrite List.filter_app. cbn. rewrite Hu. cbn. by rewrite app_nil_r.
Qed.

Definition withType (data : list (string * any)) : list (string * any) :=
  match member "resultType" data with None | Some Nil => putMember "resultType" (Str "matrix") data | _ => data end.

Lemma fillRange_series resp data series value grid : Forall (λ s, isObj s = true) series →
  ∃ out, fillRange resp data series value grid = Obj (withResult resp (withType data) out) ∧
    List.filter (λ s, negb (isUnlabelled s)) out = List.filter (λ s, negb (isUnlabelled s)) series ∧
    unlabelledPoints out ≡ₚ unlabelledPoints series ++ map (constantFill (Format_f value)) (missing (unlabelledPoints series) grid).
Proof.
  intros Hf. unfold fillRange. fold (withType data). eexists. split; [reflexivity|].
  unfold unlabelledPoints at 2 3. destruct (findUnlabelled series) as [[i m]|] eqn:E.
  - destruct (find_insert series i m (Arr (filledValues (Format_f value) grid (arrayOf (member "values" m)))) E) as [H1 H2].
    split; [done|]. unfold unlabelledPoints. rewrite H1, member_put. cbn [String.eqb Ascii.eqb Bool.eqb arrayOf].
    rewrite filled_wellFormed. apply filled_perm.
  - destruct (find_append series (Obj [("metric", Obj []); ("values", Arr (filledValues (Format_f value) grid []))]) _ Hf E eq_refl eq_refl) as [H1 H2].
    split; [done|]. unfold unlabelledPoints. rewrite H1. cbn [member String.eqb Ascii.eqb Bool.eqb arrayOf].
    rewrite filled_wellFormed. apply filled_perm.
Qed.

(** C40 A range answer of at most 100,000 steps, all of whose series are objects, is filled
    with the constant: the points of the series without labels are, up to their order, its
    well-formed points and one constant for every instant start + i*step up to the end at
    whose second none of those points is, and nothing else; the series with labels are as
    they were. *)
Theorem or_vector_fills body resp data series value now form start stop step :
  decodeTree body = Ok (Obj resp) → member "data" resp = Some (Obj data) → member "result" data = Some (Arr series) →
  Forall (λ s, isObj s = true) series → rangeRequest now form start stop step → (stop - start) / step ≤ maxGridSteps →
  ∃ out, fillOrVectorConstant gridFuel body value now form true = Some (encodeTree (Obj (withResult resp (withType data) out))) ∧
    List.filter (λ s, negb (isUnlabelled s)) out = List.filter (λ s, negb (isUnlabelled s)) series ∧
    unlabelledPoints out ≡ₚ unlabelledPoints series ++
      map (constantFill (Format_f value)) (missing (unlabelledPoints series) (gridSeconds start stop step)).
Proof.
  intros Hd Hdata Hres Hf Hr Hm. unfold fillOrVectorConstant. rewrite Hd, Hdata, Hres, (grid_complete now form start stop step Hr Hm).
  cbn [arrayOf]. destruct (fillRange_series resp data series value (gridSeconds start stop step) Hf) as (out & -> & Hl & Hp).
  by exists out.
Qed.

(** ** The text of an aggregation *)

Lemma commaFrom_digits depth q i w t : all_digits w = true →
  commaFrom depth q i (w +:+ t) = commaFrom depth q (String.length w + i) t.
Proof.
  revert i. induction w as [|c w IH]; intros i; [done|]. cbn [all_digits String.length]. intros [Hc Hw]%andb_true_iff.
  change (String c w +:+ t) with (String c (w +:+ t)). apply digit_byte in Hc.
  assert (∀ d, Ascii.eqb c d = true → (48 ≤ byte_of d ≤ 57)%nat) as Hd by (intros d E%Ascii.eqb_eq; by subst).
  assert (commaFrom depth q i (String c (w +:+ t)) = commaFrom depth q (S i) (w +:+ t)) as ->.
  { cbn [commaFrom]. repeat match goal with |- context [Ascii.eqb c ?d] => destruct (Ascii.eqb c d) eqn:E; [apply Hd in E; cbv in E; lia|clear E] end. done. }
  rewrite IH by done. f_equal. lia.
Qed.

Definition printAgg (p : instantMetricPostAgg) : string :=
  agg_name p +:+ "(" +:+ (if cutsSeries (agg_name p) then Itoa (agg_k p) +:+ ", " else "") +:+ inner p +:+ ")".

(** Text with no white space at either end. *)
Definition tight (s : string) : Prop := s ≠ "" ∧ soft_start s = false ∧ soft_start (rev s) = false.

Lemma tight_trim s : tight s → TrimSpace s = s.
Proof. intros (_ & H1 & H2). by apply TrimSpace_solid. Qed.

Lemma tight_app s t : s ≠ "" → soft_start s = false → tight t → tight (s +:+ t).
Proof.
  intros Hs Hss (Ht & _ & Hr). split; [by destruct s|]. split; [by rewrite soft_app|].
  rewrite rev_app_str, soft_app; [done|]. intros E. by apply rev_nil_iff in E.
Qed.

Lemma tight_call name s : name ≠ "" → soft_start name = false → tight (name +:+ "(" +:+ s +:+ ")").
Proof.
  intros Hn Hs. split; [by destruct name|]. split; [by rewrite soft_app|]. by rewrite <- !append_assoc, rev_app_str.
Qed.

Lemma callBody_print name s : tight s → callBody name (name +:+ "(" +:+ s +:+ ")") = Some s.
Proof.
  intros Hs. unfold callBody. rewrite <- (append_assoc name "("), strip_prefix_app.
  rewrite <- append_assoc, HasSuffix_app, TrimSuffix_app. by rewrite tight_trim.
Qed.

Lemma rankedCall_print name k s : 0 < k ≤ MaxInt64 → tight s → rankedCall name (Itoa k +:+ ", " +:+ s) = Some (mkPostAgg name s k).
Proof.
  intros Hk Hs. unfold rankedCall, topLevelCommaIndex. pose proof (Itoa_pos_starts k ltac:(lia)) as Hst.
  assert (all_digits (Itoa k) = true) as Hd.
  { unfold Itoa in *. destruct (Z.ltb_spec k 0); [lia|]. unfold itoa_pos. apply itoa_all_digits; [lia|done]. }
  rewrite commaFrom_digits by done.
  change (commaFrom 0 false (String.length (Itoa k) + 0) (", " +:+ s)) with (Some (String.length (Itoa k) + 0)%nat). rewrite Nat.add_0_r.
  destruct (String.length (Itoa k)) as [|n] eqn:El; [by destruct (Itoa k)|]. rewrite <- El.
  rewrite prefix_app, TrimSpace_Itoa, Atoi_Itoa by lia. rewrite (proj2 (Z.leb_gt k 0)) by lia.
  replace (S (String.length (Itoa k))) with (String.length (Itoa k +:+ ",")) by (rewrite length_app_str; cbn; lia).
  replace (Itoa k +:+ ", " +:+ s) with ((Itoa k +:+ ",") +:+ String " " s) by by rewrite append_assoc.
  rewrite suffix_app, TrimSpace_blank, tight_trim by done. by rewrite (proj2 (String.eqb_neq _ _) (proj1 Hs)).
Qed.

Lemma tight_ranked k s : 0 < k → tight s → tight (Itoa k +:+ ", " +:+ s).
Proof.
  intros Hk Hs. pose proof (Itoa_pos_starts k ltac:(lia)) as Hst. rewrite <- append_assoc. apply tight_app; [by destruct (Itoa k)| |done].
  rewrite soft_app by by destruct (Itoa k). destruct (Itoa k) as [|c r]; [done|].
  assert (48 ≤ byte_of c ≤ 57)%nat as Hc by by apply digit_byte.
  unfold soft_start. cbn. apply negb_false_iff. unfold solid. rewrite andb_true_iff, !Nat.leb_le. lia.
Qed.

(** The text of an aggregation around a query is recognised as that aggregation of that
    query, with its k. *)
Theorem postagg_recognised p : agg_name p ∈ map fst postAggNames → tight (inner p) →
  (if cutsSeries (agg_name p) then 0 < agg_k p ≤ MaxInt64 else agg_k p = 0) →
  parseInstantMetricPostAggQuery (printAgg p) = Some p.
Proof.
  destruct p as [name s k]. unfold parseInstantMetricPostAggQuery, printAgg. cbn [agg_name inner agg_k]. intros Hn Hs Hk.
  assert (String.eqb s "" = false) as Hne by (apply String.eqb_neq, Hs).
  cbn in Hn. rewrite !elem_of_cons, elem_of_nil in Hn.
  repeat destruct Hn as [->|Hn]; [..|done]; cbn [cutsSeries String.eqb Ascii.eqb Bool.eqb orb] in *;
    try (rewrite (append_assoc (Itoa k) ", "), <- (append_assoc ", " s ")"), <- (append_assoc (Itoa k) _ ")"));
    change ("" +:+ ?t) with t;
    rewrite tight_trim by (by apply tight_call); cbn [postAggNames firstCall];
    repeat (match goal with |- context [callBody ?n ?t] => change (callBody n t) with (@None string) end; cbn iota);
    rewrite callBody_print by first [done|apply tight_ranked; [lia|done]];
    cbn iota; first [rewrite rankedCall_print by done; done|unfold unranked; rewrite Hne, Hk; done].
Qed.

(** ** Sums without labels *)

(** A sum that keeps all labels, around an expression; the parameter is not read. *)
Definition sumAll (w : string * option Grouping * F * bool) (e : Expr) : Expr :=
  VectorAggregation w.1.1.1 w.1.1.2 w.1.2 w.2 e.

Definition keepsLabels (w : string * option Grouping * F * bool) : Prop := emptyWithout w.1.1.1 w.1.1.2 = true.

(** The operand and the number of wrappers rebuild the query, and the operand is no wrapper. *)
Lemma peel_rebuilds e : ∃ ws, length ws = (peelWithout e).2 ∧ Forall keepsLabels ws ∧ e = foldr sumAll (peelWithout e).1 ws ∧
  ∀ op g param has inner, (peelWithout e).1 = VectorAggregation op g param has inner → emptyWithout op g = false.
Proof.
  induction e as [| |op g param has e IH| | |]; try by exists []. cbn [peelWithout]. destruct (emptyWithout op g) eqn:E.
  - destruct (peelWithout e) as [r n]. cbn [fst snd] in *. destruct IH as (ws & Hl & Hf & -> & Hr).
    exists ((op, g, param, has) :: ws). split; [cbn; by rewrite Hl|]. split; [by constructor|]. by split.
  - exists []. split; [done|]. split; [constructor|]. split; [done|]. cbn. by intros ????? [= <- <- _ _ _].
Qed.

End Results.
End PostAggLaws.

(** ** Witnesses: integers and NaN for floats *)

Module PostAggDemo.
Import Text Utf8 PostAgg PostAggLaws.

#[local] Instance nan_floats : Floats := {|
  F := option Z;
  ParseFloat s := if String.eqb s "NaN" then Ok None else match Atoi s with Some z => Ok (Some z) | None => Err "invalid syntax" end;
  Fneg := option_map Z.opp;
  Fof_int z := Some z;
  Format_g f := match f with Some z => Itoa z | None => "NaN" end
|}.

Definition num2 (f : Z → Z → Z) (a b : option Z) : option Z := match a, b with Some a, Some b => Some (f a b) | _, _ => None end.
Definition cmp2 (f : Z → Z → bool) (a b : option Z) : bool := match a, b with Some a, Some b => f a b | _, _ => false end.

#[local] Instance nan_order : Numbers := {|
  Fmul := num2 Z.mul;
  Flt := cmp2 Z.ltb;
  Fle := cmp2 Z.leb;
  Feq := cmp2 Z.eqb;
  ParseSeconds s := None
|}.

#[local] Instance nan_laws : FloatOrder.
Proof.
  split; intros; repeat match goal with f : F |- _ => destruct f end; cbn in *; try done;
    rewrite ?Z.eqb_eq, ?Z.ltb_lt, ?Z.ltb_ge, ?Z.ltb_irrefl in *; subst; try done; lia.
Qed.

#[local] Instance nan_arithmetic : Arithmetic := {|
  BinaryMatch.Fadd := num2 Z.add;
  Fsub := num2 Z.sub;
  BinaryMatch.Fdiv := num2 Z.quot;
  Fmod := num2 Z.rem;
  Fpow := num2 Z.pow;
  ParseFloatValue s := match ParseFloat s with Ok f => f | Err _ => Some 0 end
|}.

#[local] Instance nan_clock : Clock := {|
  time_Parse _ _ := None;
  ParseDuration _ := None;
  TimeUtils.Fadd := num2 Z.add;
  TimeUtils.Fdiv := num2 Z.quot;
  Fabs := option_map Z.abs;
  to_int64 f := wrap64 (default 0 f);
  Format_f f := Format_g f
|}.

#[local] Instance stable_sorter : Sorter := @SliceStable.

#[local] Instance stable_laws : SorterLaws.
Proof. split; [intros; apply SliceStable_perm|intros; by apply SliceStable_sorted]. Qed.

Definition point (t : Z) (x : string) : any := Arr [Num (Some t); Str x].
Definition series1 (app : string) (pts : list any) : any := Obj [("metric", Obj [("app", Str app)]); ("values", Arr pts)].

Definition threeSeries : list any :=
  [series1 "a" [point 10 "1"; point 20 "NaN"]; series1 "b" [point 10 "5"; point 20 "2"]; series1 "c" [point 20 "7"]].

Definition matrixData (series : list any) : list (string * any) := [("resultType", Str "matrix"); ("result", Arr series)].
Definition matrixTree (series : list any) : any := Obj [("status", Str "success"); ("data", Obj (matrixData series))].

Definition sample1 (app x : string) : anyVector := mkAnyVector (Some {[ "app" := Str app ]}) [Num (Some 10); Str x].
Definition threeSamples : list anyVector := [sample1 "a" "1"; sample1 "b" "5"; sample1 "c" "3"].
Definition nanSamples : list anyVector := [sample1 "a" "1"; sample1 "b" "NaN"; sample1 "c" "3"].

(** A dashboard series without labels that has a point at the first of three steps. *)
Definition gappySeries : list any := [Obj [("metric", Obj []); ("values", Arr [point 100 "5"])]].

#[local] Instance answers : Answers := {|
  decodeVector body := if String.eqb body "samples" then Ok (mkAnswer "success" "vector" (Some threeSamples)) else Err "json";
  encodeVector resp := "vector";
  decodeMatrix body := Err "json";
  encodeMatrix resp := "matrix";
  decodeTree body := if String.eqb body "gappy" then Ok (matrixTree gappySeries) else Err "json";
  encodeTree v := "tree";
  fj_Parse body := if String.eqb body "three" then Ok (matrixTree threeSeries) else Err "json";
  fj_Marshal v := "tree";
  sprintV v := match v with Str s => s | _ => "?" end
|}.

Lemma topk_each_step_witness : ∃ out, applyTopKToMatrix "three" 1 true =
    fj_Marshal (put "data" (put "result" (Arr out) (Obj (matrixData threeSeries))) (matrixTree threeSeries)) ∧
  ∀ ts, ∃ dropped, stepSamples ts threeSeries ≡ₚ stepSamples ts out ++ dropped ∧
    Z.of_nat (length (stepSamples ts out)) = Z.min 1 (Z.of_nat (length (stepSamples ts threeSeries))) ∧
    ∀ x y, x ∈ stepSamples ts out → y ∈ dropped → ranksAbove true y.2 x.2 = false.
Proof. by eapply (topk_each_step "three" (matrixTree threeSeries) (Obj (matrixData threeSeries)) threeSeries). Defined.

(** Both timestamps have their own winner, and the series that loses everywhere is gone. *)
Lemma topk_example :
  option_map (λ ranks, filteredSeries (selected 1 true ranks) threeSeries) (collectRanks threeSeries) =
  Some [series1 "b" [point 10 "5"]; series1 "c" [point 20 "7"]].
Proof. reflexivity. Qed.

Lemma instant_ranking_witness : ∃ out dropped,
  applyInstantSortTopkAgg "samples" (mkPostAgg "topk" "q" 2) = encodeVector (mkAnswer "success" "vector" (Some out)) ∧
  threeSamples ≡ₚ out ++ dropped ∧ Z.of_nat (length out) = 2 ∧
  StronglySorted (λ x y, ranksAbove true (vectorPointValue (av_Value y)) (vectorPointValue (av_Value x)) = false) (out ++ dropped).
Proof. eapply (instant_ranking "samples" _ threeSamples (mkPostAgg "topk" "q" 2)); try done. repeat constructor. Defined.

Lemma matrix_sort_witness : let out := sortedMatrix "sort" [mkAnyMatrix None [[Num (Some 1); Str "4"]]; mkAnyMatrix None []] in
  StronglySorted (λ x y, ranksAbove false (lastValue y) (lastValue x) = false) out ∧
  (∃ dropped, [mkAnyMatrix None [[Num (Some 1); Str "4"]]; mkAnyMatrix None []] ≡ₚ out ++ dropped) ∧ Z.of_nat (length out) = 2.
Proof. apply (matrix_sort "sort"). repeat constructor. Defined.

Definition rangeForm : gmap string (list string) := {[ "start" := ["100"]; "end" := ["130"]; "step" := ["15"] ]}.

Lemma range_request : rangeRequest 0 rangeForm (100 * Second) (130 * Second) (15 * Second).
Proof. split_and!; try (by vm_compute); unfold Second, MaxInt64; lia. Qed.

Lemma or_vector_fills_witness : ∃ out,
  fillOrVectorConstant gridFuel "gappy" (Some 0) 0 rangeForm true =
    Some (encodeTree (Obj (withResult [("status", Str "success"); ("data", Obj (matrixData gappySeries))] (withType (matrixData gappySeries)) out))) ∧
  List.filter (λ s, negb (isUnlabelled s)) out = List.filter (λ s, negb (isUnlabelled s)) gappySeries ∧
  unlabelledPoints out ≡ₚ unlabelledPoints gappySeries ++
    map (constantFill (Format_f (Some 0))) (missing (unlabelledPoints gappySeries) (gridSeconds (100 * Second) (130 * Second) (15 * Second))).
Proof.
  apply (or_vector_fills "gappy" [("status", Str "success"); ("data", Obj (matrixData gappySeries))] (matrixData gappySeries) gappySeries (Some 0) 0 rangeForm (100 * Second) (130 * Second) (15 * Second));
    [reflexivity|reflexivity|reflexivity|repeat constructor|exact range_request|by vm_compute].
Defined.

Lemma postagg_recognised_witness : parseInstantMetricPostAggQuery (printAgg (mkPostAgg "topk" "rate({a=1}[5m])" 3)) = Some (mkPostAgg "topk" "rate({a=1}[5m])" 3).
Proof. by apply postagg_recognised; [vm_compute; set_solver|split_and!; vm_compute|]. Defined.

(** ** What the code does *)

(** A NaN stops the sort of an instant answer: the greatest sample is not the first. *)
Lemma nan_breaks_topk : sortedVector (mkPostAgg "topk" "q" 1) nanSamples = [sample1 "a" "1"] ∧
  ranksAbove true (vectorPointValue (av_Value (sample1 "c" "3"))) (vectorPointValue (av_Value (sample1 "a" "1"))) = true.
Proof. split; reflexivity. Qed.

(** Two calls side by side are taken for one call around the text between them. *)
Lemma two_calls_taken_for_one : parseInstantMetricPostAggQuery "sort(rate({a=1}[5m])) + sort(rate({b=1}[5m]))" =
  Some (mkPostAgg "sort" "rate({a=1}[5m])) + sort(rate({b=1}[5m])" 0).
Proof. reflexivity. Qed.

(** The constants are sorted as if they were at time zero, before every point of the series. *)
Lemma fill_out_of_order : filledValues "0" [100; 115; 130] [point 100 "5"] = [constantFill "0" 115; constantFill "0" 130; point 100 "5"].
Proof. reflexivity. Qed.

(** A step below a second fills the same second twice. *)
Lemma subsecond_duplicates : gridSeconds 0 Second (Second / 2) = [0; 0; 1].
Proof. reflexivity. Qed.

(** The loop never ends when its last instant is the last one there is. *)
Lemma grid_never_ends fuel ts step : in_int64 ts → gridLoop fuel ts MaxInt64 step = None.
Proof.
  revert ts. induction fuel as [|fuel IH]; intros ts Ht; cbn [gridLoop];
    rewrite (proj2 (Z.leb_le ts MaxInt64)) by (unfold in_int64 in Ht; lia); [done|].
  by rewrite IH by apply wrap64_range.
Qed.

(** The point of a constant query is stamped in nanoseconds, that of the fallback in seconds. *)
Lemma constant_in_nanoseconds : constantPoint 0 "1700000000" (Some 1) = [Int (1700000000 * Second); Str "1"] ∧
  Z.quot (parseInstantVectorTime 0 "1700000000") Second = 1700000000.
Proof. split; reflexivity. Qed.

End PostAggDemo.
