(* ===== verification/Regroup.v ===== *)
(** * Grouping and labels of a finished answer
      (src/internal/proxy/vector_matching.go, the last part of the query handlers of
      proxy.go, and extractWithoutLabels of translator.go)

    without() is taken out of a query before it is translated; the answer is regrouped by
    the labels that are left.  group(), label_replace() and label_join() work on the answer
    as well, and an offset moves its timestamps back to the client's.  Modelled are these
    functions and the order in which the two query handlers apply them; every series of an
    answer has a metric object. *)

From S2P Require Import Prelude GoText Utf8 LogqlAst LogqlFilter LogqlPipeline TimeUtils BinaryMatch Burst Translator Fanout PostAgg.

#[local] Open Scope Z_scope.
#[local] Arguments String.append !_ _ /.

(** encoding/json on answers with string labels; the first decoding reads only the status
    and the type. *)
Class LabelAnswers `{Floats} : Type := {
  decodeHead : string → result (string * string);
  decodeLabelVector : string → result (answer lokiVectorResult);
  decodeLabelMatrix : string → result (answer lokiMatrixResult);
  encodeLabelVector : answer lokiVectorResult → string;
  encodeLabelMatrix : answer lokiMatrixResult → string
}.

(** The order in which a map is ranged over. *)
Class MapOrder : Type := rangeOver : ∀ A, list A → list A.
Arguments rangeOver {_ A} l.

Class MapOrderLaws `{MapOrder} : Prop := rangeOver_perm : ∀ A (l : list A), rangeOver l ≡ₚ l.
Arguments rangeOver_perm {_ _ A} l.

(** [ReplaceAllString] of package regexp. *)
Class Replacing `{Regexps} : Type := re_ReplaceAll : RE → string → string → string.

Module Regroup.
Import Text Utf8 Fanout PostAgg.

(** ** without() in the query *)

(** [without\s*\(([^)]+)\)] at the start of [s]: the group, and what follows. *)
Definition withoutAt (s : string) : option (string * string) :=
  match strip_prefix "without" s with
  | None => None
  | Some r =>
      match strip_prefix "(" (Burst.skipRe r) with
      | None => None
      | Some r =>
          let '(body, r) := span (λ c, negb (Ascii.eqb c ")")) r in
          match r with
          | String _ r => if String.eqb body "" then None else Some (body, r)
          | "" => None
          end
      end
  end.

(** A match begins at a word boundary; [word] tells whether a word byte precedes. *)
Fixpoint findWithout (word : bool) (s : string) : option string :=
  match s with
  | "" => None
  | String c r =>
      match (if word then None else withoutAt s) with
      | Some (body, _) => Some body
      | None => findWithout (Burst.isLogsQLIdentChar c) r
      end
  end.

(** [ReplaceAllString(logql, "")]; a match ends in a parenthesis, so the next text starts
    at a word boundary.  Every round consumes a byte. *)
Fixpoint removeWithout (fuel : nat) (word : bool) (s : string) : string :=
  match fuel with
  | O => s
  | S fuel =>
      match s with
      | "" => ""
      | String c r =>
          match (if word then None else withoutAt s) with
          | Some (_, t) => removeWithout fuel false t
          | None => String c (removeWithout fuel (Burst.isLogsQLIdentChar c) r)
          end
      end
  end.

(** [for strings.Contains(cleaned, "  ")]; every round shortens the text. *)
Fixpoint collapseBlanks (fuel : nat) (s : string) : string :=
  match fuel with
  | O => s
  | S fuel => if Contains s "  " then collapseBlanks fuel (Times.replaceAll "  " " " s) else s
  end.

Definition labelList (s : string) : list string := filter (λ l, l ≠ "") (map TrimSpace (Split "," s)).

Definition extractWithoutLabels (logql : string) : string * list string :=
  match findWithout false logql with
  | None => (logql, [])
  | Some body =>
      let cleaned := removeWithout (String.length logql) false logql in
      (collapseBlanks (String.length cleaned) cleaned, labelList body)
  end.

(** ** Regrouping *)

Section Regrouping.
Context `{HN : Numbers} {HA : @Arithmetic _ HN} {HC : @Clock _ HN} {HL : LabelAnswers} {HB : Answers} {HM : MapOrder}.

Definition metricKeyStr (metric : gmap string string) : string :=
  Join "," (sortStrings (map (λ kv, kv.1 +:+ "=" +:+ kv.2) (map_to_list metric))).

Definition restrict (exclude : gset string) (metric : gmap string string) : gmap string string :=
  filter (λ kv, kv.1 ∉ exclude) metric.

Record groupEntry : Type := mkGroup { g_metric : gmap string string; g_value : F; g_ts : any }.

Definition vectorSample (s : lokiVectorResult) : F * any :=
  match Value s with
  | t :: x :: _ => (match x with Str v => ParseFloatValue v | _ => zero end, t)
  | _ => (zero, Nil)
  end.

Definition addVector (exclude : gset string) (groups : gmap string groupEntry) (s : lokiVectorResult) : gmap string groupEntry :=
  let filtered := restrict exclude (v_Metric s) in
  let key := metricKeyStr filtered in
  let '(val, ts) := vectorSample s in
  match groups !! key with
  | Some g => <[key := mkGroup (g_metric g) (Fadd (g_value g) val) (g_ts g)]> groups
  | None => <[key := mkGroup filtered val ts]> groups
  end.

Definition vectorGroups (exclude : gset string) (series : list lokiVectorResult) : gmap string groupEntry :=
  foldl (addVector exclude) ∅ series.

(** A nil slice when nothing was appended. *)
Definition appended {A} (l : list A) : option (list A) := match l with [] => None | _ => Some l end.

Definition regroupedVector (exclude : gset string) (series : list lokiVectorResult) : list lokiVectorResult :=
  map (λ g, mkVector (g_metric g.2) [g_ts g.2; Str (Format_f (g_value g.2))])
    (rangeOver (map_to_list (vectorGroups exclude series))).

Definition applyWithoutVector (body : string) (exclude : gset string) : string :=
  match decodeLabelVector body with
  | Err _ => body
  | Ok resp => encodeLabelVector (mkAnswer "success" "vector" (appended (regroupedVector exclude (items resp))))
  end.

Record groupedSeries : Type := mkGrouped { gs_metric : gmap string string; gs_values : gmap string F; gs_order : gmap string any }.

Definition addPoint (g : groupedSeries) (p : list any) : groupedSeries :=
  match p with
  | t :: x :: _ =>
      let tsKey := sprintV t in
      let order := <[tsKey := t]> (gs_order g) in
      let plus v := <[tsKey := Fadd (default zero (gs_values g !! tsKey)) v]> (gs_values g) in
      match x with
      | Str s => mkGrouped (gs_metric g) (plus (ParseFloatValue s)) order
      | Num f => mkGrouped (gs_metric g) (plus f) order
      | _ => mkGrouped (gs_metric g) (gs_values g) order
      end
  | _ => g
  end.

Definition addMatrix (exclude : gset string) (groups : gmap string groupedSeries) (s : lokiMatrixResult) : gmap string groupedSeries :=
  let filtered := restrict exclude (m_Metric s) in
  let key := metricKeyStr filtered in
  let group := default (mkGrouped filtered ∅ ∅) (groups !! key) in
  <[key := foldl addPoint group (m_Values s)]> groups.

Definition matrixGroups (exclude : gset string) (series : list lokiMatrixResult) : gmap string groupedSeries :=
  foldl (addMatrix exclude) ∅ series.

(** The timestamps are sorted as the texts they are printed as. *)
Definition groupPoints (g : groupedSeries) : list (list any) :=
  map (λ ts, [default Nil (gs_order g !! ts); Str (Format_f (default zero (gs_values g !! ts)))])
    (sortStrings (map fst (map_to_list (gs_values g)))).

Definition regroupedMatrix (exclude : gset string) (series : list lokiMatrixResult) : list lokiMatrixResult :=
  map (λ g, mkMatrix (gs_metric g.2) (groupPoints g.2)) (rangeOver (map_to_list (matrixGroups exclude series))).

Definition applyWithoutMatrix (body : string) (exclude : gset string) : string :=
  match decodeLabelMatrix body with
  | Err _ => body
  | Ok resp => encodeLabelMatrix (mkAnswer "success" "matrix" (appended (regroupedMatrix exclude (items resp))))
  end.

Definition applyWithoutGrouping (body : string) (excludeLabels : list string) : string :=
  match decodeHead body with
  | Ok (status, kind) =>
      if negb (String.eqb status "success") then body
      else
        let exclude : gset string := list_to_set (map TrimSpace excludeLabels) in
        if String.eqb kind "vector" then applyWithoutVector body exclude
        else if String.eqb kind "matrix" then applyWithoutMatrix body exclude
        else body
  | Err _ => body
  end.

(** ** Values and labels *)

Definition matrixOnly (body : string) (f : lokiMatrixResult → lokiMatrixResult) : string :=
  match decodeLabelMatrix body with
  | Ok resp =>
      if String.eqb (AnswerType resp) "matrix"
      then encodeLabelMatrix (mkAnswer (Status resp) (AnswerType resp) (option_map (map f) (Items resp))) else body
  | Err _ => body
  end.

Definition groupPoint (p : list any) : list any := match p with t :: _ :: r => t :: Str "1" :: r | _ => p end.

Definition applyGroupNormalization (body : string) : string :=
  matrixOnly body (λ s, mkMatrix (m_Metric s) (map groupPoint (m_Values s))).

Record LabelReplaceSpec : Type := mkReplace { DstLabel : string; Replacement : string; SrcLabel : string; Regex : string }.
Record LabelJoinSpec : Type := mkJoin { j_DstLabel : string; Separator : string; SrcLabels : list string }.

Context `{HRe : Regexps} {HRp : Replacing}.

(** A missing label is the empty string. *)
Definition labelOf (metric : gmap string string) (name : string) : string := default "" (metric !! name).

Definition replaceLabel (re : RE) (spec : LabelReplaceSpec) (metric : gmap string string) : gmap string string :=
  let src := labelOf metric (SrcLabel spec) in
  if re_match re src then
    let newVal := re_ReplaceAll re src (Replacement spec) in
    if String.eqb newVal "" then delete (DstLabel spec) metric else <[DstLabel spec := newVal]> metric
  else metric.

Definition anchored (regex : string) : string := "^(?:" +:+ regex +:+ ")$".

Definition applyLabelReplace (body : string) (spec : LabelReplaceSpec) : string :=
  match re_compile (anchored (Regex spec)) with
  | Err _ => body
  | Ok re => matrixOnly body (λ s, mkMatrix (replaceLabel re spec (m_Metric s)) (m_Values s))
  end.

Definition joinedLabel (spec : LabelJoinSpec) (metric : gmap string string) : gmap string string :=
  <[j_DstLabel spec := Join (Separator spec) (filter (λ v, v ≠ "") (map (labelOf metric) (SrcLabels spec)))]> metric.

Definition applyLabelJoin (body : string) (spec : LabelJoinSpec) : string :=
  matrixOnly body (λ s, mkMatrix (joinedLabel spec (m_Metric s)) (m_Values s)).

(** ** Offsets *)

Definition shiftPoint (shift : F) (pt : any) : any :=
  match pt with
  | Arr (Num ts :: r) => Arr (Num (Fadd ts shift) :: r)
  | _ => pt
  end.

Definition shiftSeries (shift : F) (s : any) : any :=
  match s with
  | Obj m =>
      let m := match member "values" m with Some (Arr l) => setMember "values" (Arr (map (shiftPoint shift) l)) m | _ => m end in
      Obj (match member "value" m with Some v => setMember "value" (shiftPoint shift v) m | None => m end)
  | _ => s
  end.

(** [offset.Seconds()]. *)
Definition offsetSeconds (d : Z) : F :=
  Fadd (Fof_int (Z.quot d Second)) (Fdiv (Fof_int (Z.rem d Second)) (Fof_int 1000000000)).

Definition shiftMetricTimestamps (body : string) (offset : Z) : string :=
  match decodeTree body with
  | Ok (Obj resp) =>
      match member "data" resp with
      | Some (Obj data) =>
          let kind := stringOf (member "resultType" data) in
          if String.eqb kind "matrix" || String.eqb kind "vector" then
            let data := match member "result" data with
                        | Some (Arr l) => setMember "result" (Arr (map (shiftSeries (offsetSeconds offset)) l)) data
                        | _ => data
                        end in
            encodeTree (Obj (setMember "data" (Obj data) resp))
          else body
      | _ => body
      end
  | _ => body
  end.

Definition clientTimeCopy (body : string) (offset : Z) : string :=
  if offset =? 0 then body else shiftMetricTimestamps body offset.

(** The status (0 when none was set) and the body that reach the client. *)
Definition flush (offset : Z) (code : Z) (body : string) : Z * string :=
  if (code =? 0) || (code =? 200) then (200, shiftMetricTimestamps body offset) else (code, body).

(** ** The end of the query handlers *)

Record transforms : Type := mkTransforms {
  withoutLabels : list string;
  isGroupQuery : bool;
  labelReplaceSpecs : list LabelReplaceSpec;
  labelJoinSpec : option LabelJoinSpec
}.

Definition needsCapture (t : transforms) : bool :=
  Binary.nonempty (withoutLabels t) || isGroupQuery t || Binary.nonempty (labelReplaceSpecs t) ||
  match labelJoinSpec t with Some _ => true | None => false end.

Definition transformed (t : transforms) (body : string) : string :=
  let body := if Binary.nonempty (withoutLabels t) then applyWithoutGrouping body (withoutLabels t) else body in
  let body := if isGroupQuery t then applyGroupNormalization body else body in
  let body := foldl applyLabelReplace body (labelReplaceSpecs t) in
  match labelJoinSpec t with Some spec => applyLabelJoin body spec | None => body end.

Context (writeError : Z → string → string) (redactBackendError : string → string).

(** What the client of a range query gets for the captured status and body. *)
Definition finishRange (t : transforms) (code : Z) (body : string) : Z * string :=
  let out := transformed t body in
  if code =? 200 then (200, out) else (code, writeError code (redactBackendError out)).

(** And of an instant query, whose captured status is recorded and not written. *)
Definition finishInstant (t : transforms) (code : Z) (body : string) : Z * string := (200, transformed t body).

End Regrouping.
End Regroup.

Module RegroupLaws.
Import Text Utf8 Fanout PostAgg PostAggLaws Regroup.

(** ** Keys of label sets *)

Definition nameByte (c : Ascii.ascii) : bool := negb (Ascii.eqb c ",") && negb (Ascii.eqb c "=").
Definition valueByte (c : Ascii.ascii) : bool := negb (Ascii.eqb c ",").

(** Label names without comma and equals sign, values without comma. *)
Definition clean (m : gmap string string) : Prop :=
  map_Forall (λ k v, all_bytes_of nameByte k = true ∧ all_bytes_of valueByte v = true) m.

Definition part (kv : string * string) : string := kv.1 +:+ "=" +:+ kv.2.

Lemma Cut_part k v : all_bytes_of nameByte k = true → Cut "=" (part (k, v)) = Some (k, v).
Proof.
  unfold part. cbn [fst snd]. induction k as [|c k IH]; [done|]. cbn [all_bytes_of]. intros [Hc Hk]%andb_true_iff.
  change (String c k +:+ "=" +:+ v) with (String c (k +:+ "=" +:+ v)). cbn [Cut].
  apply andb_true_iff in Hc as [_ Hc%negb_true_iff]. rewrite Hc, (IH Hk). done.
Qed.

Lemma part_bytes m : clean m → Forall (λ s, all_bytes_of (λ a, negb (Ascii.eqb a ",")) s = true) (map part (map_to_list m)).
Proof.
  intros Hm. apply Forall_forall. intros s ([k v] & -> & Hkv%elem_of_map_to_list)%list_elem_of_fmap.
  destruct (Hm _ _ Hkv) as [Hk Hv]. unfold part. rewrite !all_bytes_of_app. cbn [fst snd].
  apply andb_true_iff. split; [|exact Hv]. eapply all_bytes_of_impl; [|exact Hk]. intros c [? _]%andb_true_iff. done.
Qed.

Lemma parts_back m : clean m → omap (Cut "=") (map part (map_to_list m)) = map_to_list m.
Proof.
  intros Hm. assert (Forall (λ kv, all_bytes_of nameByte kv.1 = true) (map_to_list m)) as Hf.
  { apply Forall_forall. intros [k v] Hkv%elem_of_map_to_list. by destruct (Hm _ _ Hkv). }
  induction Hf as [|[k v] l Hk _ IH]; [done|]. cbn [map]. rewrite omap_cons_some, Cut_part by done. by rewrite IH.
Qed.

Lemma key_parts m : clean m → sortStrings (map part (map_to_list m)) = match metricKeyStr m with "" => [] | s => Split "," s end.
Proof.
  intros Hm. unfold metricKeyStr. fold part. change (map (λ kv, kv.1 +:+ "=" +:+ kv.2) (map_to_list m)) with (map part (map_to_list m)).
  assert (Forall (λ s, all_bytes_of (λ a, negb (Ascii.eqb a ",")) s = true) (sortStrings (map part (map_to_list m)))) as Hf
    by (rewrite sortStrings_perm; by apply part_bytes).
  assert (Forall (λ s, s ≠ "") (sortStrings (map part (map_to_list m)))) as Hn.
  { rewrite sortStrings_perm. apply Forall_forall. intros s ([k v] & -> & _)%list_elem_of_fmap. unfold part. by destruct k. }
  destruct (sortStrings (map part (map_to_list m))) as [|x l]; [done|].
  pose proof (Split_Join "," x l Hf) as Hs. inversion Hn as [|? ? Hx _]; subst.
  destruct (Join "," (x :: l)) as [|c r] eqn:E; [|by rewrite <- Hs].
  exfalso. destruct x as [|c x]; [done|]. destruct l; cbn in E; done.
Qed.

(** Clean label sets with one key are one label set. *)
Lemma key_injective m1 m2 : clean m1 → clean m2 → metricKeyStr m1 = metricKeyStr m2 → m1 = m2.
Proof.
  intros H1 H2 E. pose proof (key_parts m1 H1) as K1. rewrite E, <- (key_parts m2 H2) in K1.
  apply map_to_list_inj. rewrite <- (parts_back m1 H1), <- (parts_back m2 H2). apply omap_perm.
  by rewrite <- (sortStrings_perm (map part (map_to_list m1))), K1, sortStrings_perm.
Qed.

Lemma clean_restrict exclude m : clean m → clean (restrict exclude m).
Proof. intros Hm k v [Hkv _]%map_lookup_filter_Some. by apply (Hm k v). Qed.

(** ** Sums over the members of a group *)

Section Sums.
Context `{HN : Numbers} {HA : @Arithmetic _ HN} {HC : @Clock _ HN} {HL : LabelAnswers} {HB : Answers} {HM : MapOrder} {HML : MapOrderLaws}.
Context (exclude : gset string).

Definition keyOf (metric : gmap string string) : string := metricKeyStr (restrict exclude metric).

(** The group of a list of series with one key. *)
Definition vectorSummary (members : list lokiVectorResult) : option groupEntry :=
  match members with
  | [] => None
  | s :: rest =>
      Some (mkGroup (restrict exclude (v_Metric s)) (foldl Fadd (vectorSample s).1 (map (λ s, (vectorSample s).1) rest)) (vectorSample s).2)
  end.

Lemma vectorGroups_lookup series key :
  vectorGroups exclude series !! key = vectorSummary (filter (λ s, keyOf (v_Metric s) = key) series).
Proof.
  unfold vectorGroups. induction series as [|s series IH] using rev_ind; [done|].
  rewrite foldl_app, filter_app. cbn [foldl]. unfold addVector at 1. fold (keyOf (v_Metric s)).
  destruct (vectorSample s) as [val ts] eqn:Es. rewrite filter_cons, filter_nil.
  destruct (decide (keyOf (v_Metric s) = key)) as [Hk|Hk].
  - rewrite Hk, IH. destruct (filter _ series) as [|s0 rest]; cbn [vectorSummary app]; rewrite lookup_insert_eq, ?Es; [done|].
    rewrite map_app, foldl_app. cbn. by rewrite Es.
  - rewrite app_nil_r, <- IH. destruct (foldl _ ∅ series !! keyOf (v_Metric s)); by rewrite lookup_insert_ne.
Qed.

Definition asVector (g : groupEntry) : lokiVectorResult := mkVector (g_metric g) [g_ts g; Str (Format_f (g_value g))].

Lemma regrouped_elem series o : o ∈ regroupedVector exclude series ↔
  ∃ key g, vectorGroups exclude series !! key = Some g ∧ o = asVector g.
Proof.
  unfold regroupedVector. rewrite list_elem_of_fmap. setoid_rewrite rangeOver_perm. split.
  - intros ([key g] & -> & Hg%elem_of_map_to_list). by exists key, g.
  - intros (key & g & Hg & ->). exists (key, g). split; [done|]. by apply elem_of_map_to_list.
Qed.

Lemma summary_metric key series g : vectorSummary (filter (λ s, keyOf (v_Metric s) = key) series) = Some g →
  ∃ s, s ∈ series ∧ keyOf (v_Metric s) = key ∧ g_metric g = restrict exclude (v_Metric s).
Proof.
  destruct (filter (λ s, keyOf (v_Metric s) = key) series) as [|s rest] eqn:E; [done|]. intros [= <-]. exists s.
  assert (s ∈ filter (λ s, keyOf (v_Metric s) = key) series) as [Hk Hs]%list_elem_of_filter by (rewrite E; left). done.
Qed.

(** Members of a group: the labels that are left are the same. *)
Lemma members_by_labels {A} (metricOf : A → gmap string string) series m : Forall (λ s, clean (metricOf s)) series → clean m →
  filter (λ s, keyOf (metricOf s) = metricKeyStr m) series = filter (λ s, restrict exclude (metricOf s) = m) series.
Proof.
  intros Hf Hm. induction Hf as [|s series Hs _ IH]; [done|]. rewrite !filter_cons, IH.
  destruct (decide (keyOf (metricOf s) = metricKeyStr m)) as [E|E], (decide (restrict exclude (metricOf s) = m)) as [E'|E']; try done.
  - exfalso. apply E', key_injective; [by apply clean_restrict|done|done].
  - exfalso. apply E. unfold keyOf. by rewrite E'.
Qed.

(** without() over an instant answer: the answer has one sample for every set of labels that
    is left, and its value is the sum of the samples with these labels, in their order and
    at the timestamp of the first.  Label names have no comma and no equals sign, values no
    comma. *)
Theorem without_sums series : Forall (λ s, clean (v_Metric s)) series →
  NoDup (map v_Metric (regroupedVector exclude series)) ∧
  ∀ o, o ∈ regroupedVector exclude series ↔
    ∃ s rest, filter (λ s, restrict exclude (v_Metric s) = v_Metric o) series = s :: rest ∧
      o = mkVector (v_Metric o) [(vectorSample s).2; Str (Format_f (foldl Fadd (vectorSample s).1 (map (λ s, (vectorSample s).1) rest)))].
Proof.
  intros Hc.
  assert (∀ key g, vectorGroups exclude series !! key = Some g → clean (g_metric g) ∧ key = metricKeyStr (g_metric g)) as Hg.
  { intros key g Hg. rewrite vectorGroups_lookup in Hg. apply summary_metric in Hg as (s & Hs & <- & ->).
    split; [|done]. apply clean_restrict. rewrite Forall_forall in Hc. by apply Hc. }
  split.
  - unfold regroupedVector. rewrite map_map. cbn [v_Metric].
    rewrite (rangeOver_perm (map_to_list (vectorGroups exclude series))).
    apply NoDup_fmap_2_strong; [|apply NoDup_map_to_list].
    intros [k1 g1] [k2 g2] H1%elem_of_map_to_list H2%elem_of_map_to_list E. cbn in E.
    destruct (Hg _ _ H1) as [_ ->], (Hg _ _ H2) as [_ E2]. rewrite <- E in E2. subst k2. rewrite H1 in H2. by injection H2 as ->.
  - intros o. rewrite regrouped_elem. split.
    + intros (key & g & Hk & ->). destruct (Hg _ _ Hk) as [Hm ->]. cbn [asVector v_Metric].
      rewrite vectorGroups_lookup, (members_by_labels v_Metric) in Hk by done.
      destruct (filter _ series) as [|s rest]; [done|]. exists s, rest. split; [done|]. by injection Hk as <-.
    + intros (s & rest & Hs & Ho).
      assert (s ∈ filter (λ s, restrict exclude (v_Metric s) = v_Metric o) series) as [Hr Hin]%list_elem_of_filter by (rewrite Hs; left).
      assert (clean (v_Metric o)) as Hm by (rewrite <- Hr; apply clean_restrict; rewrite Forall_forall in Hc; by apply Hc).
      exists (metricKeyStr (v_Metric o)). rewrite vectorGroups_lookup, (members_by_labels v_Metric) by done. rewrite Hs. cbn [vectorSummary].
      eexists. split; [reflexivity|]. rewrite Ho. unfold asVector. cbn [g_metric g_value g_ts]. by rewrite Hr.
Qed.

(** *** Over a range *)

(** The timestamp and the value of a point that prints its timestamp as [ts]. *)
Definition stampOf (ts : string) (p : list any) : option any :=
  match p with t :: _ :: _ => if String.eqb (sprintV t) ts then Some t else None | _ => None end.

Definition valueOf (ts : string) (p : list any) : option F :=
  match p with
  | t :: x :: _ =>
      if String.eqb (sprintV t) ts then
        match x with Str v => Some (ParseFloatValue v) | Num f => Some f | _ => None end
      else None
  | _ => None
  end.

Lemma omap_snoc {A B} (f : A → option B) l x : omap f (l ++ [x]) = omap f l ++ match f x with Some y => [y] | None => [] end.
Proof. by rewrite omap_app. Qed.

Lemma points_lookup m pts ts :
  gs_metric (foldl addPoint (mkGrouped m ∅ ∅) pts) = m ∧
  gs_order (foldl addPoint (mkGrouped m ∅ ∅) pts) !! ts = last (omap (stampOf ts) pts) ∧
  gs_values (foldl addPoint (mkGrouped m ∅ ∅) pts) !! ts =
    match omap (valueOf ts) pts with [] => None | l => Some (foldl Fadd zero l) end.
Proof.
  induction pts as [|p pts IH] using rev_ind; [done|]. rewrite foldl_app, !omap_snoc. cbn [foldl].
  set (g := foldl addPoint (mkGrouped m ∅ ∅) pts) in *. destruct IH as (Hm & Ho & Hv).
  assert (∀ v, match omap (valueOf ts) pts ++ [v] with [] => None | l => Some (foldl Fadd zero l) end =
    Some (Fadd (default zero (gs_values g !! ts)) v)) as Hplus.
  { intros v. rewrite Hv. destruct (omap (valueOf ts) pts) as [|a l]; [done|]. cbn [app foldl]. by rewrite foldl_app. }
  destruct p as [|t [|x r]]; cbn [addPoint stampOf valueOf]; rewrite ?app_nil_r; [done..|].
  destruct (String.eqb_spec (sprintV t) ts) as [<-|Hne].
  - rewrite last_snoc. destruct x; cbn [gs_metric gs_order gs_values]; rewrite ?lookup_insert_eq, ?app_nil_r; split_and!; try done; by rewrite Hplus.
  - rewrite !app_nil_r. destruct x; cbn [gs_metric gs_order gs_values]; rewrite ?lookup_insert_ne by done; done.
Qed.

Definition matrixSummary (members : list lokiMatrixResult) : option groupedSeries :=
  match members with
  | [] => None
  | s :: _ => Some (foldl addPoint (mkGrouped (restrict exclude (m_Metric s)) ∅ ∅) (List.concat (map m_Values members)))
  end.

Lemma matrixGroups_lookup series key :
  matrixGroups exclude series !! key = matrixSummary (filter (λ s, keyOf (m_Metric s) = key) series).
Proof.
  unfold matrixGroups. induction series as [|s series IH] using rev_ind; [done|].
  rewrite foldl_app, filter_app. cbn [foldl]. unfold addMatrix at 1. fold (keyOf (m_Metric s)).
  rewrite filter_cons, filter_nil. destruct (decide (keyOf (m_Metric s) = key)) as [Hk|Hk].
  - rewrite Hk, lookup_insert_eq, IH. destruct (filter _ series) as [|s0 rest]; cbn [matrixSummary app default from_option id].
    + cbn. by rewrite app_nil_r.
    + change (s0 :: rest ++ [s]) with ((s0 :: rest) ++ [s]). rewrite map_app, List.concat_app, foldl_app. cbn. by rewrite app_nil_r.
  - by rewrite app_nil_r, lookup_insert_ne.
Qed.

(** The points of the members of a group, added up: one for every text of a timestamp. *)
Definition addedUp (pts : list (list any)) (out : list (list any)) : Prop :=
  ∃ texts, NoDup texts ∧ StronglySorted (no_greater String.ltb) texts ∧ (∀ ts, ts ∈ texts ↔ omap (valueOf ts) pts ≠ []) ∧
    out = map (λ ts, [default Nil (last (omap (stampOf ts) pts)); Str (Format_f (foldl Fadd zero (omap (valueOf ts) pts)))]) texts.

Lemma group_added_up m pts : addedUp pts (groupPoints (foldl addPoint (mkGrouped m ∅ ∅) pts)).
Proof.
  set (g := foldl addPoint (mkGrouped m ∅ ∅) pts). exists (sortStrings (map fst (map_to_list (gs_values g)))).
  assert (∀ ts, ts ∈ map fst (map_to_list (gs_values g)) ↔ omap (valueOf ts) pts ≠ []) as Hin.
  { intros ts. destruct (points_lookup m pts ts) as (_ & _ & Hv). fold g in Hv. split.
    - intros ([k v] & -> & Hkv%elem_of_map_to_list)%list_elem_of_fmap. cbn in *. rewrite Hv in Hkv. intros E. by rewrite E in Hkv.
    - intros Hne. destruct (omap (valueOf ts) pts); [done|]. apply list_elem_of_fmap. eexists (ts, _). split; [done|]. by apply elem_of_map_to_list. }
  split; [rewrite sortStrings_perm; apply NoDup_fst_map_to_list|]. split; [apply sortStrings_sorted|].
  split; [intros ts; rewrite sortStrings_perm; apply Hin|].
  unfold groupPoints. apply map_ext_in. intros ts Hts%list_elem_of_In. rewrite sortStrings_perm in Hts. apply Hin in Hts.
  destruct (points_lookup m pts ts) as (_ & Ho & Hv). fold g in Ho, Hv. rewrite Ho, Hv. by destruct (omap (valueOf ts) pts).
Qed.

(** C19 without() over a range, for series whose label names have no comma and no equals
    sign and whose label values have no comma ([comma_merges_series] is what a comma does):
    the answer has one series for every set of labels that is left, and its point at every
    timestamp is the sum of the points of the series with these labels that print the
    timestamp the same way. *)
Theorem without_sums_range series : Forall (λ s, clean (m_Metric s)) series →
  NoDup (map m_Metric (regroupedMatrix exclude series)) ∧
  (∀ o, o ∈ regroupedMatrix exclude series →
     addedUp (List.concat (map m_Values (filter (λ s, restrict exclude (m_Metric s) = m_Metric o) series))) (m_Values o)) ∧
  ∀ m, m ∈ map m_Metric (regroupedMatrix exclude series) ↔ ∃ s, s ∈ series ∧ restrict exclude (m_Metric s) = m.
Proof.
  intros Hc. rewrite Forall_forall in Hc.
  assert (∀ key g, matrixGroups exclude series !! key = Some g → ∃ s, s ∈ series ∧ key = keyOf (m_Metric s) ∧ gs_metric g = restrict exclude (m_Metric s)) as Hg.
  { intros key g Hg. rewrite matrixGroups_lookup in Hg. destruct (filter (λ s, keyOf (m_Metric s) = key) series) as [|s rest] eqn:E; [done|].
    assert (s ∈ filter (λ s, keyOf (m_Metric s) = key) series) as [Hk Hs]%list_elem_of_filter by (rewrite E; left).
    injection Hg as <-. exists s. split; [done|]. split; [done|]. exact (proj1 (points_lookup _ _ "")). }
  assert (∀ o, o ∈ regroupedMatrix exclude series ↔ ∃ key g, matrixGroups exclude series !! key = Some g ∧ o = mkMatrix (gs_metric g) (groupPoints g)) as Ho.
  { intros o. unfold regroupedMatrix. rewrite list_elem_of_fmap. setoid_rewrite rangeOver_perm. split.
    - intros ([key g] & -> & Hk%elem_of_map_to_list). by exists key, g.
    - intros (key & g & Hk & ->). exists (key, g). split; [done|]. by apply elem_of_map_to_list. }
  split_and!.
  - unfold regroupedMatrix. rewrite map_map. cbn [m_Metric]. rewrite (rangeOver_perm (map_to_list (matrixGroups exclude series))).
    apply NoDup_fmap_2_strong; [|apply NoDup_map_to_list]. intros [k1 g1] [k2 g2] H1%elem_of_map_to_list H2%elem_of_map_to_list E. cbn in E.
    destruct (Hg _ _ H1) as (s1 & _ & -> & E1), (Hg _ _ H2) as (s2 & _ & E2 & E3). unfold keyOf in *. rewrite <- E3, <- E, E1 in E2. subst k2.
    rewrite H1 in H2. by injection H2 as ->.
  - intros o (key & g & Hk & ->)%Ho. cbn [m_Metric m_Values]. destruct (Hg _ _ Hk) as (s & Hs & -> & Em).
    assert (clean (gs_metric g)) as Hm by (rewrite Em; by apply clean_restrict, Hc).
    unfold keyOf at 1 in Hk. rewrite matrixGroups_lookup, <- Em, (members_by_labels m_Metric) in Hk by (done || by apply Forall_forall).
    destruct (filter (λ s, restrict exclude (m_Metric s) = gs_metric g) series) as [|s0 rest]; [done|].
    injection Hk as Hk. rewrite <- Hk. apply group_added_up.
  - intros m. rewrite list_elem_of_fmap. split.
    + intros (o & -> & (key & g & Hk & ->)%Ho). destruct (Hg _ _ Hk) as (s & Hs & _ & Em). by exists s.
    + intros (s & Hs & <-). pose proof (matrixGroups_lookup series (keyOf (m_Metric s))) as Hk.
      assert (s ∈ filter (λ s', keyOf (m_Metric s') = keyOf (m_Metric s)) series) as Hin by by apply list_elem_of_filter.
      destruct (filter _ series) as [|s0 rest] eqn:E; [by apply elem_of_nil in Hin|]. cbn [matrixSummary] in Hk.
      eexists. split; [|apply Ho; eexists _, _; split; [exact Hk|reflexivity]]. cbn [m_Metric].
      destruct (Hg _ _ Hk) as (s' & Hs' & Ek & Em). rewrite Em. apply key_injective; [by apply clean_restrict, Hc..|exact Ek].
Qed.

End Sums.
(** ** The end of the handlers *)

Section Finishing.
Context `{HN : Numbers} {HA : @Arithmetic _ HN} {HC : @Clock _ HN} {HL : LabelAnswers} {HB : Answers} {HM : MapOrder}.
Context `{HRe : Regexps} {HRp : Replacing} (writeError : Z → string → string) (redactBackendError : string → string).

(** The answer stored for an offset query is the one its client got. *)
Lemma cached_as_answered offset body : offset ≠ 0 → (flush offset 200 body).2 = clientTimeCopy body offset.
Proof. intros Ho. unfold flush, clientTimeCopy. cbn. by rewrite (proj2 (Z.eqb_neq offset 0)). Qed.

(** group(), label_replace() and label_join() leave every answer that is not a matrix as it
    is, the answers of instant queries among them. *)
Lemma vector_untouched body resp t : decodeLabelMatrix body = Ok resp → AnswerType resp ≠ "matrix" → withoutLabels t = [] →
  transformed t body = body.
Proof.
  intros Hd Ht Hw. assert (∀ f, matrixOnly body f = body) as Hm.
  { intros f. unfold matrixOnly. rewrite Hd. by rewrite (proj2 (String.eqb_neq _ _) Ht). }
  unfold transformed. rewrite Hw. cbn [Binary.nonempty].
  assert ((if isGroupQuery t then applyGroupNormalization body else body) = body) as -> by (destruct (isGroupQuery t); [apply Hm|done]).
  assert (foldl applyLabelReplace body (labelReplaceSpecs t) = body) as ->.
  { induction (labelReplaceSpecs t) as [|spec specs IH]; [done|]. cbn [foldl]. unfold applyLabelReplace at 2.
    destruct (re_compile _); [by rewrite Hm|done]. }
  destruct (labelJoinSpec t); [apply Hm|done].
Qed.

(** A range query that fails keeps its status; an instant query whose answer is transformed
    is answered with status 200 whatever happened. *)
Lemma instant_error_as_success t code body : code ≠ 200 →
  (finishRange writeError redactBackendError t code body).1 = code ∧ (finishInstant t code body).1 = 200.
Proof. intros Hc. unfold finishRange. by rewrite (proj2 (Z.eqb_neq code 200)). Qed.

End Finishing.

End RegroupLaws.

(** ** Witnesses *)

Module RegroupDemo.
Import Text Utf8 Fanout PostAgg PostAggLaws PostAggDemo Regroup RegroupLaws.
#[local] Existing Instances nan_floats nan_order nan_arithmetic nan_clock.

#[local] Instance list_order : MapOrder := λ _ l, l.
#[local] Instance list_order_laws : MapOrderLaws.
Proof. by intros A l. Qed.

Fixpoint trimZeros (s : string) : string :=
  match s with
  | String "0" r => trimZeros r
  | _ => s
  end.

(** [%v] of a float64 that is a positive integer below 10^100: from seven digits on the
    shortest mantissa with an exponent. *)
Definition sprintFloat (z : Z) : string :=
  let digits := Itoa z in
  let e := len digits - 1 in
  if e <? 6 then digits
  else
    let m := rev (trimZeros (rev digits)) in
    prefix 1 m +:+ (if len m =? 1 then "" else "." +:+ suffix 1 m) +:+ "e+" +:+ (if e <? 10 then "0" else "") +:+ Itoa e.

#[local] Instance printing : Answers := {|
  decodeVector _ := Err "json";
  encodeVector _ := "";
  decodeMatrix _ := Err "json";
  encodeMatrix _ := "";
  decodeTree _ := Err "json";
  encodeTree _ := "";
  fj_Parse _ := Err "json";
  fj_Marshal _ := "";
  sprintV v := match v with Num (Some z) => sprintFloat z | Str s => s | _ => "?" end
|}.

Definition pods (app pod : string) : gmap string string := {[ "app" := app; "pod" := pod ]}.
Definition sampleOf (app pod x : string) : lokiVectorResult := mkVector (pods app pod) [Num (Some 10); Str x].
Definition twoPods : list lokiVectorResult := [sampleOf "a" "p1" "2"; sampleOf "b" "p2" "7"; sampleOf "a" "p3" "3"].
Definition seriesOf (app pod : string) (pts : list (list any)) : lokiMatrixResult := mkMatrix (pods app pod) pts.
Definition rangePods : list lokiMatrixResult :=
  [seriesOf "a" "p1" [[Num (Some 10); Str "2"]]; seriesOf "a" "p2" [[Num (Some 10); Str "3"]; [Num (Some 20); Str "4"]]].

Lemma pods_clean app pod : all_bytes_of valueByte app = true → all_bytes_of valueByte pod = true → clean (pods app pod).
Proof. intros Ha Hp k v. unfold pods. rewrite lookup_insert_Some, lookup_singleton_Some. by intros [[<- <-]|[_ [<- <-]]]. Qed.

Lemma without_sums_witness : NoDup (map v_Metric (regroupedVector {[ "pod" ]} twoPods)) ∧
  ∀ o, o ∈ regroupedVector {[ "pod" ]} twoPods ↔
    ∃ s rest, filter (λ s, restrict {[ "pod" ]} (v_Metric s) = v_Metric o) twoPods = s :: rest ∧
      o = mkVector (v_Metric o) [(vectorSample s).2; Str (Format_f (foldl Fadd (vectorSample s).1 (map (λ s, (vectorSample s).1) rest)))].
Proof. apply without_sums. repeat (apply Forall_cons_2; [by apply pods_clean|]). apply Forall_nil_2. Defined.

Lemma without_sums_range_witness : NoDup (map m_Metric (regroupedMatrix {[ "pod" ]} rangePods)) ∧
  (∀ o, o ∈ regroupedMatrix {[ "pod" ]} rangePods →
     addedUp (List.concat (map m_Values (filter (λ s, restrict {[ "pod" ]} (m_Metric s) = m_Metric o) rangePods))) (m_Values o)) ∧
  ∀ m, m ∈ map m_Metric (regroupedMatrix {[ "pod" ]} rangePods) ↔ ∃ s, s ∈ rangePods ∧ restrict {[ "pod" ]} (m_Metric s) = m.
Proof. apply without_sums_range. repeat (apply Forall_cons_2; [by apply pods_clean|]). apply Forall_nil_2. Defined.

Lemma without_example : map m_Values (regroupedMatrix {[ "pod" ]} rangePods) = [[[Num (Some 10); Str "5"]; [Num (Some 20); Str "4"]]].
Proof. reflexivity. Qed.

(** ** What the code does *)

(** A comma in a value makes two label sets one, and their samples are added up. *)
Lemma comma_merges_series :
  let one := mkVector {[ "a" := "1,b=2" ]} [Num (Some 10); Str "2"] in
  let two := mkVector {[ "a" := "1"; "b" := "2" ]} [Num (Some 10); Str "3"] in
  v_Metric one ≠ v_Metric two ∧ map Value (regroupedVector ∅ [one; two]) = [[Num (Some 10); Str "5"]].
Proof. split; [by intros E; apply (f_equal (lookup "b")) in E|reflexivity]. Qed.

(** Timestamps are sorted as text: a round one comes after those that follow it. *)
Lemma range_out_of_order : map m_Values (regroupedMatrix {[ "pod" ]}
    [seriesOf "a" "p1" [[Num (Some 1700000100); Str "1"]; [Num (Some 1700000115); Str "2"]; [Num (Some 1700000130); Str "3"]]]) =
  [[[Num (Some 1700000115); Str "2"]; [Num (Some 1700000130); Str "3"]; [Num (Some 1700000100); Str "1"]]].
Proof. reflexivity. Qed.

(** An empty answer is regrouped to one whose result is null. *)
Lemma empty_becomes_null : appended (regroupedVector ∅ []) = None.
Proof. reflexivity. Qed.

(** The text of a line filter is taken for a grouping and cut out of the query. *)
Lemma filter_text_removed :
  extractWithoutLabels ("{app=`x`} |= `started without (tls) enabled`") = ("{app=`x`} |= `started enabled`", ["tls"]).
Proof. reflexivity. Qed.

(** Of two groupings only the first is kept. *)
Lemma second_without_lost :
  extractWithoutLabels "sum without(a) (rate({x=`1`}[5m])) / sum without(b) (rate({x=`1`}[5m]))" =
    ("sum (rate({x=`1`}[5m])) / sum (rate({x=`1`}[5m]))", ["a"]).
Proof. reflexivity. Qed.

End RegroupDemo.
