(* ===== verification/Compress.v ===== *)
(** * Compressed responses
      (src/internal/middleware/compress.go)

    The middleware negotiates an encoding, holds back the first bytes of a response until it
    is known to be worth compressing, and then either compresses it or passes it through.
    The server's response writer ([under]) keeps the headers of the moment the status is
    sent, as net/http does; the gzip writer is the class [GzipStream].  Buffers and gzip
    writers come from pools: the writer counts those it holds.  Headers are ASCII text and
    the connection does not fail. *)

From S2P Require Import Prelude GoText Utf8.

#[local] Open Scope Z_scope.
#[local] Arguments String.append !_ _ /.

(** A gzip writer: what it emits for a write, a flush and the end, and the reader. *)
Class GzipStream : Type := {
  gz : Type;
  gz_new : gz;
  gz_Write : gz → string → gz * string;
  gz_Flush : gz → gz * string;
  gz_Close : gz → string;
  gunzip : string → option string
}.

Module Compress.
Import Text Utf8.

(** ** Negotiation *)

Inductive responseCompressionMode : Type := ResponseCompressionNone | ResponseCompressionAuto | ResponseCompressionGzip.

Definition normalizeCompressionMode (mode : string) : responseCompressionMode :=
  let m := ToLower (TrimSpace mode) in
  if String.eqb m "" || String.eqb m "auto" then ResponseCompressionAuto
  else if String.eqb m "none" then ResponseCompressionNone
  else if String.eqb m "gzip" || String.eqb m "zstd" then ResponseCompressionGzip
  else ResponseCompressionAuto.

(** The part before the first semicolon. *)
Definition codingOf (part : string) : string :=
  match Cut ";" part with Some (l, _) => TrimSpace l | None => TrimSpace part end.

Definition acceptsEncoding (header encoding : string) : bool :=
  existsb (λ part, let token := codingOf part in String.eqb token encoding || String.eqb token "*") (Split "," (ToLower header)).

Definition negotiateResponseEncoding (acceptEncoding : string) (mode : responseCompressionMode) : string :=
  match mode with
  | ResponseCompressionGzip | ResponseCompressionAuto => if acceptsEncoding acceptEncoding "gzip" then "gzip" else ""
  | ResponseCompressionNone => ""
  end.

Definition isControlPlanePath (path : string) : bool :=
  existsb (String.eqb path) ["/alive"; "/livez"; "/health"; "/healthz"; "/ready"; "/config"; "/loki/api/v1/status/buildinfo"].

Definition isPrimaryReadPath (path : string) : bool :=
  existsb (String.eqb path) ["/loki/api/v1/query"; "/loki/api/v1/query_range"].

Definition isMetadataReadPath (path : string) : bool :=
  HasPrefix path "/loki/api/v1/label/" || String.eqb path "/loki/api/v1/labels" || String.eqb path "/loki/api/v1/series" ||
  HasPrefix path "/loki/api/v1/index/" || HasPrefix path "/loki/api/v1/detected_" || String.eqb path "/loki/api/v1/patterns".

Definition scaleMinBytes (baseMinBytes factor : Z) : Z :=
  if (baseMinBytes <=? 0) || (factor <=? 1) then baseMinBytes else wrap64 (baseMinBytes * factor).

Definition compressionPolicyForPath (path : string) (mode : responseCompressionMode) (minBytes : Z) : responseCompressionMode * Z :=
  let base := if minBytes <? 0 then 0 else minBytes in
  match mode with
  | ResponseCompressionNone => (ResponseCompressionNone, 0)
  | _ =>
      if isControlPlanePath path then (ResponseCompressionNone, 0)
      else if isPrimaryReadPath path then (mode, base)
      else if isMetadataReadPath path then (mode, scaleMinBytes base 4)
      else (mode, scaleMinBytes base 2)
  end.

Definition isNone (m : responseCompressionMode) : bool := match m with ResponseCompressionNone => true | _ => false end.

(** ** Headers *)

#[local] Abbreviation header := (gmap string (list string)).

Definition Get (k : string) (h : header) : string := default "" (h !! k ≫= head).
Definition Set_ (k v : string) (h : header) : header := <[k := [v]]> h.
Definition Add (k v : string) (h : header) : header := <[k := default [] (h !! k) ++ [v]]> h.

Definition blank (s : string) : bool := String.eqb (TrimSpace s) "".

Definition setDefault (k v : string) (h : header) : header := if blank (Get k h) then Set_ k v h else h.

Definition ensureSafeResponseHeaders (h : header) : header :=
  setDefault "Content-Type" "text/plain; charset=utf-8" (setDefault "X-Content-Type-Options" "nosniff" h).

Definition EqualFold (a b : string) : bool := String.eqb (ToLower a) (ToLower b).

Definition addVaryHeader (h : header) (value : string) : header :=
  if existsb (λ existing, existsb (λ token, EqualFold (TrimSpace token) value) (Split "," existing)) (default [] (h !! "Vary"))
  then h else Add "Vary" value h.

(** The parts of a request the plan reads. *)
Record request : Type := mkRequest { r_Path : string; r_Method : string; r_Header : header }.

Definition isWebSocketUpgrade (r : request) : bool :=
  Contains (ToLower (Get "Connection" (r_Header r))) "upgrade" && EqualFold (Get "Upgrade" (r_Header r)) "websocket".

Definition PlanResponseCompression (r : request) (mode : string) (minBytes : Z) : string * Z :=
  let '(m, min) := compressionPolicyForPath (r_Path r) (normalizeCompressionMode mode) minBytes in
  if isNone m || isWebSocketUpgrade r || String.eqb (r_Method r) "HEAD" then ("", min)
  else (negotiateResponseEncoding (Get "Accept-Encoding" (r_Header r)) m, min).

(** ** The writer *)

Definition responseStatusAllowsBody (statusCode : Z) : bool :=
  if statusCode =? 0 then true
  else negb ((100 <=? statusCode) && (statusCode <? 200)) && negb (statusCode =? 204) && negb (statusCode =? 304).

(** The server's writer: the headers of the handler, the status with the headers it was sent
    with, the bytes of the body. *)
Record under : Type := mkUnder { hdr : header; wrote : option (Z * header); out : string }.

Definition uHeader (f : header → header) (u : under) : under := mkUnder (f (hdr u)) (wrote u) (out u).

(** The first final status (200 and up) is sent. *)
Definition uWriteHeader (code : Z) (u : under) : under :=
  match wrote u with Some _ => u | None => mkUnder (hdr u) (Some (code, hdr u)) (out u) end.

(** A status without body drops what is written. *)
Definition uWrite (b : string) (u : under) : under :=
  let u := uWriteHeader 200 u in
  if responseStatusAllowsBody (match wrote u with Some (code, _) => code | None => 0 end)
  then mkUnder (hdr u) (wrote u) (out u +:+ b) else u.

Definition uFlush (u : under) : under := uWriteHeader 200 u.

(** What the client has when the handler has returned. *)
Definition response (u : under) : Z * header * string :=
  match wrote u with Some (code, h) => (code, h, out u) | None => (200, hdr u, out u) end.

Section Writer.
Context `{GzipStream}.

Record compressedResponseWriter : Type := mkW {
  ResponseWriter : under;
  encoding : string;
  minBytes : Z;
  writer : option gz;
  statusCode : Z;
  started : bool;
  bypass : bool;
  buf : option string;
  capture : option string;
  captured : option string;
  heldBufs : Z;
  heldWriters : Z
}.

Definition setUnder (u : under) (w : compressedResponseWriter) : compressedResponseWriter :=
  mkW u (encoding w) (minBytes w) (writer w) (statusCode w) (started w) (bypass w) (buf w) (capture w) (captured w) (heldBufs w) (heldWriters w).

Definition setStatus (code : Z) (w : compressedResponseWriter) : compressedResponseWriter :=
  mkW (ResponseWriter w) (encoding w) (minBytes w) (writer w) code (started w) (bypass w) (buf w) (capture w) (captured w) (heldBufs w) (heldWriters w).

Definition setBuf (b : option string) (held : Z) (w : compressedResponseWriter) : compressedResponseWriter :=
  mkW (ResponseWriter w) (encoding w) (minBytes w) (writer w) (statusCode w) (started w) (bypass w) b (capture w) (captured w) held (heldWriters w).

(** The gzip writer after an operation; what it emits goes to the client and to the capture. *)
Definition emit (g : gz * string) (w : compressedResponseWriter) : compressedResponseWriter :=
  mkW (uWrite g.2 (ResponseWriter w)) (encoding w) (minBytes w) (Some g.1) (statusCode w) (started w) (bypass w) (buf w)
    (option_map (λ c, c +:+ g.2) (capture w)) (captured w) (heldBufs w) (heldWriters w).

Definition releaseHoldBuf (w : compressedResponseWriter) : compressedResponseWriter :=
  match buf w with None => w | Some _ => setBuf None (heldBufs w - 1) w end.

Definition shouldBypassCompression (w : compressedResponseWriter) : bool :=
  String.eqb (encoding w) "" || negb (responseStatusAllowsBody (statusCode w)) ||
  negb (blank (Get "Content-Encoding" (hdr (ResponseWriter w)))).

Definition sendStatus (w : compressedResponseWriter) : compressedResponseWriter :=
  if statusCode w =? 0 then w else setUnder (uWriteHeader (statusCode w) (ResponseWriter w)) w.

Definition compressedHeaders (enc : string) (h : header) : header :=
  delete "Content-Length" (Set_ "Content-Encoding" enc (addVaryHeader h "Accept-Encoding")).

Definition startCompression (w : compressedResponseWriter) : compressedResponseWriter :=
  if started w then w
  else
    let w := mkW (uHeader (compressedHeaders (encoding w)) (ResponseWriter w)) (encoding w) (minBytes w) (Some gz_new) (statusCode w)
      true (bypass w) (buf w) (capture w) (captured w) (heldBufs w) (heldWriters w + 1) in
    let w := sendStatus w in
    let w := match buf w with None | Some "" => w | Some b => emit (gz_Write gz_new b) w end in
    releaseHoldBuf w.

Definition startBypass (w : compressedResponseWriter) : compressedResponseWriter :=
  if started w then w
  else
    let w := mkW (ResponseWriter w) (encoding w) (minBytes w) (writer w) (statusCode w)
      true true (buf w) (capture w) (captured w) (heldBufs w) (heldWriters w) in
    let w := sendStatus w in
    let w := match buf w with None | Some "" => w | Some b => setUnder (uWrite b (ResponseWriter w)) w end in
    releaseHoldBuf w.

Definition safeHeaders (w : compressedResponseWriter) : compressedResponseWriter :=
  setUnder (uHeader ensureSafeResponseHeaders (ResponseWriter w)) w.

(** [w.writer.Write(b)]. *)
Definition compress (b : string) (w : compressedResponseWriter) : compressedResponseWriter :=
  match writer w with Some g => emit (gz_Write g b) w | None => w end.

Definition passThrough (b : string) (w : compressedResponseWriter) : compressedResponseWriter :=
  setUnder (uWrite b (uHeader ensureSafeResponseHeaders (ResponseWriter w))) w.

Definition acquireHoldBuf (w : compressedResponseWriter) : compressedResponseWriter :=
  match buf w with Some _ => w | None => setBuf (Some "") (heldBufs w + 1) w end.

Definition Write (b : string) (w : compressedResponseWriter) : compressedResponseWriter :=
  let w := safeHeaders w in
  if started w then if bypass w then passThrough b w else compress b w
  else
    let w := if statusCode w =? 0 then setStatus 200 w else w in
    if shouldBypassCompression w then passThrough b (startBypass w)
    else if minBytes w <=? 0 then compress b (startCompression w)
    else
      let w := acquireHoldBuf w in
      let held := default "" (buf w) +:+ b in
      let w := setBuf (Some held) (heldBufs w) w in
      if minBytes w <=? len held then startCompression w else w.

Definition WriteHeader (code : Z) (w : compressedResponseWriter) : compressedResponseWriter :=
  let w := safeHeaders w in
  if started w then w
  else
    match writer w with
    | Some _ => setUnder (uWriteHeader code (uHeader (delete "Content-Length") (ResponseWriter w))) (setStatus code w)
    | None => setStatus code w
    end.

Definition Flush (w : compressedResponseWriter) : compressedResponseWriter :=
  let w := if started w then w else if shouldBypassCompression w then startBypass w else startCompression w in
  let w := if bypass w then w else match writer w with Some g => emit (gz_Flush g) w | None => w end in
  setUnder (uFlush (ResponseWriter w)) w.

Definition registerEncodedResponseCapture (enc : string) (w : compressedResponseWriter) : compressedResponseWriter * bool :=
  let enc := ToLower (TrimSpace enc) in
  if started w || String.eqb enc "" || negb (String.eqb enc (encoding w)) then (w, false)
  else (mkW (ResponseWriter w) (encoding w) (minBytes w) (writer w) (statusCode w) (started w) (bypass w) (buf w) (Some "") (captured w) (heldBufs w) (heldWriters w), true).

(** The callback gets the captured bytes. *)
Definition finalizeEncodedCapture (w : compressedResponseWriter) : compressedResponseWriter :=
  match capture w with
  | None | Some "" => w
  | Some c => mkW (ResponseWriter w) (encoding w) (minBytes w) (writer w) (statusCode w) (started w) (bypass w) (buf w) None (Some c) (heldBufs w) (heldWriters w)
  end.

Definition closeWriter (w : compressedResponseWriter) : compressedResponseWriter :=
  if bypass w then w
  else match writer w with Some g => emit (g, gz_Close g) w | None => w end.

(** The gzip writer goes back to its pool once. *)
Definition releaseCompressor (w : compressedResponseWriter) : compressedResponseWriter :=
  mkW (ResponseWriter w) (encoding w) (minBytes w) (writer w) (statusCode w) (started w) (bypass w) (buf w) (capture w) (captured w) (heldBufs w)
    (match writer w with Some _ => heldWriters w - 1 | None => heldWriters w end).

Definition finish (w : compressedResponseWriter) : compressedResponseWriter :=
  let w :=
    if started w then w
    else if shouldBypassCompression w || (len (default "" (buf w)) <? minBytes w) then startBypass w else startCompression w in
  releaseCompressor (releaseHoldBuf (finalizeEncodedCapture (closeWriter w))).

(** The encoded variant a cache stores. *)
Definition EncodeResponseBody (enc body : string) : option string :=
  let e := ToLower (TrimSpace enc) in
  if String.eqb e "" || String.eqb e "identity" then Some body
  else if String.eqb e "gzip" then let '(g, s) := gz_Write gz_new body in Some (s +:+ gz_Close g)
  else None.

(** ** A handler behind the middleware *)

(** What a handler does to its writer. *)
Inductive op : Type :=
| OpHeader (k v : string)
| OpStatus (code : Z)
| OpWrite (b : string)
| OpFlush
| OpCapture (enc : string).

Definition act (w : compressedResponseWriter) (o : op) : compressedResponseWriter :=
  match o with
  | OpHeader k v => setUnder (uHeader (Set_ k v) (ResponseWriter w)) w
  | OpStatus code => WriteHeader code w
  | OpWrite b => Write b w
  | OpFlush => Flush w
  | OpCapture enc => (registerEncodedResponseCapture enc w).1
  end.

(** The same handler on the server's own writer. *)
Definition direct (u : under) (o : op) : under :=
  match o with
  | OpHeader k v => uHeader (Set_ k v) u
  | OpStatus code => uWriteHeader code u
  | OpWrite b => uWrite b u
  | OpFlush => uFlush u
  | OpCapture _ => u
  end.

Definition newWriter (u : under) (enc : string) (min : Z) : compressedResponseWriter :=
  mkW u enc min None 0 false false None None None 0 0.

Definition fresh : under := mkUnder (ensureSafeResponseHeaders ∅) None "".

(** The middleware around a handler. *)
Definition CompressionHandlerWithOptions (mode : string) (minBytes : Z) (r : request) (handler : list op) : under :=
  if isNone (normalizeCompressionMode mode) then foldl direct (mkUnder ∅ None "") handler
  else
    let '(enc, min) := PlanResponseCompression r mode minBytes in
    if String.eqb enc "" then foldl direct fresh handler
    else ResponseWriter (finish (foldl act (newWriter fresh enc min) handler)).

End Writer.
End Compress.

Module CompressLaws.
Import Text Utf8 Compress.

(** ** Pools *)

Section Pools.
Context `{GzipStream}.

Definition count {A} (o : option A) : Z := match o with Some _ => 1 | None => 0 end.

(** The writer holds the buffer and the gzip writer it has, and no other. *)
Definition balanced (w : compressedResponseWriter) : Prop :=
  heldBufs w = count (buf w) ∧ heldWriters w = count (writer w) ∧ (started w = false → writer w = None).

Lemma releaseHoldBuf_balanced w : balanced w → balanced (releaseHoldBuf w).
Proof. intros (H1 & H2 & H3). unfold releaseHoldBuf, balanced. destruct (buf w) eqn:E; cbn in *; rewrite ?E; split_and!; try done; lia. Qed.

Lemma sendStatus_fields w : buf (sendStatus w) = buf w ∧ heldBufs (sendStatus w) = heldBufs w ∧ writer (sendStatus w) = writer w ∧
  heldWriters (sendStatus w) = heldWriters w ∧ started (sendStatus w) = started w.
Proof. unfold sendStatus. by destruct (statusCode w =? 0). Qed.

Lemma startCompression_balanced w : balanced w → balanced (startCompression w).
Proof.
  intros Hw. unfold startCompression. destruct (started w) eqn:Es; [done|]. destruct Hw as (H1 & H2 & H3). specialize (H3 Es).
  apply releaseHoldBuf_balanced. match goal with |- context [sendStatus ?x] => destruct (sendStatus_fields x) as (E1 & E2 & E3 & E4 & E5) end.
  cbn in *. rewrite H3 in H2. cbn in H2.
  rewrite !E1. destruct (buf w) as [[|]|] eqn:Eb; unfold balanced; cbn; rewrite ?E1, ?E2, ?E3, ?E4, ?E5, ?H1, ?H2, ?H3, ?Eb; done.
Qed.

Lemma startBypass_balanced w : balanced w → balanced (startBypass w).
Proof.
  intros Hw. unfold startBypass. destruct (started w) eqn:Es; [done|]. destruct Hw as (H1 & H2 & H3). specialize (H3 Es).
  apply releaseHoldBuf_balanced. match goal with |- context [sendStatus ?x] => destruct (sendStatus_fields x) as (E1 & E2 & E3 & E4 & E5) end.
  cbn in *.
  rewrite !E1. destruct (buf w) as [[|]|] eqn:Eb; unfold balanced; cbn; rewrite ?E1, ?E2, ?E3, ?E4, ?E5, ?H1, ?H2, ?H3, ?Eb; done.
Qed.

Lemma emit_balanced g w : writer w ≠ None → balanced w → balanced (emit g w).
Proof. intros Hw (H1 & H2 & H3). unfold balanced, emit. cbn. destruct (writer w); [|done]. split_and!; try done. intros E. by apply H3 in E. Qed.

Lemma setUnder_balanced u w : balanced w → balanced (setUnder u w).
Proof. done. Qed.

Lemma compress_balanced b w : balanced w → balanced (compress b w).
Proof. intros Hw. unfold compress. destruct (writer w) eqn:E; [|done]. apply emit_balanced; [by rewrite E|done]. Qed.

Lemma act_balanced w o : balanced w → balanced (act w o).
Proof.
  intros Hw. destruct o; cbn [act].
  - done.
  - unfold WriteHeader. destruct (started (safeHeaders w)); [done|]. by destruct (writer (safeHeaders w)).
  - unfold Write. assert (balanced (safeHeaders w)) as Hs by done. generalize dependent (safeHeaders w). clear w Hw. intros w Hw.
    destruct (started w) eqn:Es; [destruct (bypass w); [done|by apply compress_balanced]|].
    set (w' := if statusCode w =? 0 then setStatus 200 w else w). assert (balanced w') as Hw' by (unfold w'; by destruct (statusCode w =? 0)).
    destruct (shouldBypassCompression w'); [by apply setUnder_balanced, startBypass_balanced|].
    destruct (minBytes w' <=? 0); [by apply compress_balanced, startCompression_balanced|].
    set (w2 := setBuf _ _ (acquireHoldBuf w')). assert (balanced w2) as H2.
    { unfold w2, acquireHoldBuf. destruct Hw' as (H1 & H2 & H3). destruct (buf w') eqn:E; unfold balanced; cbn in *; rewrite ?E; split_and!; try done; cbn in *; lia. }
    destruct (minBytes w2 <=? _); [by apply startCompression_balanced|done].
  - unfold Flush. apply setUnder_balanced. set (w' := if started w then w else _).
    assert (balanced w') as Hw'.
    { unfold w'. destruct (started w); [done|]. destruct (shouldBypassCompression w); [by apply startBypass_balanced|by apply startCompression_balanced]. }
    destruct (bypass w'); [done|]. destruct (writer w') eqn:E; [|done]. apply emit_balanced; [by rewrite E|done].
  - unfold registerEncodedResponseCapture. by destruct (_ || _).
Qed.

(** Whatever the handler does with its writer, when the response is finished the held-back
    bytes and the gzip writer are back in their pools, each returned once. *)
Theorem pools_balanced u enc min ops : let w := finish (foldl act (newWriter u enc min) ops) in heldBufs w = 0 ∧ heldWriters w = 0.
Proof.
  cbv zeta. assert (balanced (foldl act (newWriter u enc min) ops)) as Hw.
  { assert (balanced (newWriter u enc min)) as H0 by done. revert H0. generalize (newWriter u enc min).
    induction ops as [|o ops IH]; intros w Hw; [done|]. apply IH. by apply act_balanced. }
  generalize dependent (foldl act (newWriter u enc min) ops). intros w Hw. unfold finish.
  set (w1 := if started w then w else _). assert (balanced w1) as H1.
  { unfold w1. destruct (started w); [done|]. destruct (_ || _); [by apply startBypass_balanced|by apply startCompression_balanced]. }
  set (w2 := closeWriter w1). assert (balanced w2) as H2.
  { unfold w2, closeWriter. destruct (bypass w1); [done|]. destruct (writer w1) eqn:E; [|done]. apply emit_balanced; [by rewrite E|done]. }
  set (w3 := finalizeEncodedCapture w2). assert (balanced w3) as H3 by (unfold w3, finalizeEncodedCapture; by destruct (capture w2) as [[|]|]).
  destruct (releaseHoldBuf_balanced w3 H3) as (Hb & Hg & _). unfold releaseCompressor. cbn. rewrite Hb, Hg. split.
  - unfold releaseHoldBuf. by destruct (buf w3) eqn:E; [|rewrite E].
  - by destruct (writer (releaseHoldBuf w3)).
Qed.

End Pools.
(** ** The content a client gets *)

(** A sequence of writes ([Some]) and flushes ([None]) on a gzip writer, with what it emits. *)
Definition gz_step `{GzipStream} (st : gz * string) (o : option string) : gz * string :=
  let '(g, e) := match o with Some b => gz_Write st.1 b | None => gz_Flush st.1 end in (g, st.2 +:+ e).

Definition gz_run `{GzipStream} (ops : list (option string)) : gz * string := foldl gz_step (gz_new, "") ops.

Definition written (ops : list (option string)) : string := foldr (λ o acc, default "" o +:+ acc) "" ops.

(** What was written is read back from what was emitted, whatever the flushes in between. *)
Class GzipStreamLaws `{GzipStream} : Prop :=
  gunzip_run ops : gunzip ((gz_run ops).2 +:+ gz_Close (gz_run ops).1) = Some (written ops).

Lemma written_snoc ops o : written (ops ++ [o]) = written ops +:+ default "" o.
Proof.
  induction ops as [|x ops IH]; cbn [written foldr app]; [by rewrite append_nil_r|].
  change (foldr _ "" (ops ++ [o])) with (written (ops ++ [o])). change (foldr _ "" ops) with (written ops). by rewrite IH, append_assoc.
Qed.

Lemma gz_run_snoc `{GzipStream} ops o : gz_run (ops ++ [o]) = gz_step (gz_run ops) o.
Proof. unfold gz_run. by rewrite foldl_app. Qed.

Section Content.
Context `{GzipStreamLaws} (enc : string) (min : Z) (Henc : enc ≠ "").

(** Headers compression changes. *)
Definition ownHeaders : list string := ["Content-Encoding"; "Content-Length"; "Vary"].

Definition similar (h h' : gmap string (list string)) : Prop := ∀ k, k ∉ ownHeaders → h !! k = h' !! k.

Lemma setDefault_other k v k' h : k ≠ k' → setDefault k v h !! k' = h !! k'.
Proof. intros Hk. unfold setDefault, Set_. destruct (blank _); [by rewrite lookup_insert_ne|done]. Qed.

Lemma compressed_similar h h' : similar h h' → similar (compressedHeaders enc h) h'.
Proof.
  intros Hs k Hk. unfold ownHeaders in Hk. unfold compressedHeaders, Set_, addVaryHeader, Add.
  rewrite lookup_delete_ne, lookup_insert_ne by set_solver. destruct (existsb _ _); [by apply Hs|].
  rewrite lookup_insert_ne by set_solver. by apply Hs.
Qed.

Lemma compressed_encoding h : Get "Content-Encoding" (compressedHeaders enc h) = enc.
Proof. unfold Get, compressedHeaders, Set_. by rewrite lookup_delete_ne, lookup_insert_eq. Qed.

(** A header with a type and the sniffing option. *)
Definition safe (h : gmap string (list string)) : Prop :=
  blank (Get "Content-Type" h) = false ∧ blank (Get "X-Content-Type-Options" h) = false.

Lemma safe_kept h : safe h → ensureSafeResponseHeaders h = h.
Proof. intros [H1 H2]. unfold ensureSafeResponseHeaders. unfold setDefault at 2. rewrite H2. unfold setDefault. by rewrite H1. Qed.

(** The handler's headers, the status it gives (0: none), whether it flushes and whether it
    captures. *)
Context (h0 : gmap string (list string)) (status : Z) (flushes : Prop) (cap : bool).
Context (Hsafe : safe h0).

Lemma similar_safe h : similar h h0 → ensureSafeResponseHeaders h = h.
Proof. intros Hs. apply safe_kept. unfold safe, Get. rewrite !Hs by (by apply (bool_decide_unpack _)). exact Hsafe. Qed.

Definition code : Z := if status =? 0 then 200 else status.

(** The client has status, headers and bytes, or nothing yet but will have them. *)
Definition has (u : under) (ce body : string) : Prop :=
  match wrote u with
  | Some (c, h) => c = code ∧ similar h h0 ∧ Get "Content-Encoding" h = ce ∧ out u = body
  | None => status = 0 ∧ similar (hdr u) h0 ∧ Get "Content-Encoding" (hdr u) = ce ∧ out u = "" ∧ body = ""
  end.

Definition plainCE : string := Get "Content-Encoding" h0.
Definition bodyOf (b : string) : string := if responseStatusAllowsBody code then b else "".
Definition unused (c : option string) : Prop := c = None ∨ c = Some "".

Definition statusOf (w : compressedResponseWriter) : Prop := statusCode w = status ∨ status = 0 ∧ statusCode w = 200.

(** Bytes are held back. *)
Definition ready (w : compressedResponseWriter) (b : string) : Prop :=
  started w = false ∧ bypass w = false ∧ writer w = None ∧ wrote (ResponseWriter w) = None ∧ out (ResponseWriter w) = "" ∧
  similar (hdr (ResponseWriter w)) h0 ∧ Get "Content-Encoding" (hdr (ResponseWriter w)) = plainCE ∧
  statusOf w ∧ default "" (buf w) = b ∧ capture w = (if cap then Some "" else None) ∧ captured w = None.

(** And they are fewer than the minimum. *)
Definition holding (w : compressedResponseWriter) (b : string) : Prop := ready w b ∧ (b = "" ∨ len b < min).

Definition passing (w : compressedResponseWriter) (b : string) : Prop :=
  started w = true ∧ bypass w = true ∧ has (ResponseWriter w) plainCE (bodyOf b) ∧ unused (capture w) ∧ captured w = None.

(** Compression is right: nothing else has encoded the body, and it is long or wanted at once. *)
Definition worth (b : string) : Prop := blank plainCE = true ∧ responseStatusAllowsBody code = true ∧ (flushes ∨ min ≤ len b).

Definition compressing (w : compressedResponseWriter) (b : string) : Prop :=
  started w = true ∧ bypass w = false ∧ worth b ∧
  ∃ ops, writer w = Some (gz_run ops).1 ∧ written ops = b ∧ has (ResponseWriter w) enc (gz_run ops).2 ∧
    capture w = (if cap then Some (gz_run ops).2 else None) ∧ captured w = None.

(** The settings of the writer. *)
Definition configured (w : compressedResponseWriter) : Prop := encoding w = enc ∧ minBytes w = min.

Definition inv (w : compressedResponseWriter) (b : string) : Prop := configured w ∧ (holding w b ∨ passing w b ∨ compressing w b).

Lemma has_write u ce body b : responseStatusAllowsBody code = true → has u ce body → has (uWrite b u) ce (body +:+ b).
Proof.
  intros Ha Hu. unfold has, uWrite, uWriteHeader in *. destruct (wrote u) as [[c h]|] eqn:E.
  - destruct Hu as (-> & H1 & H2 & <-). rewrite ?E, ?Ha. cbn. by rewrite ?E.
  - destruct Hu as (Hs & H1 & H2 & H3 & ->). unfold code. rewrite Hs. cbn. rewrite H3. done.
Qed.

Lemma has_drop u ce b : responseStatusAllowsBody code = false → has u ce "" → has (uWrite b u) ce "".
Proof.
  intros Ha Hu. unfold has, uWrite, uWriteHeader in *. destruct (wrote u) as [[c h]|] eqn:E.
  - destruct Hu as (-> & H1 & H2 & H3). rewrite ?E, ?Ha. by rewrite ?E.
  - destruct Hu as (Hs & _). unfold code in Ha. by rewrite Hs in Ha.
Qed.

Lemma has_bodyOf u b b' : has u plainCE (bodyOf b) → has (uWrite b' u) plainCE (bodyOf (b +:+ b')).
Proof. unfold bodyOf. destruct (responseStatusAllowsBody code) eqn:E; intros Hu; [by apply has_write|by apply has_drop]. Qed.

Lemma has_flush u ce body : has u ce body → has (uFlush u) ce body.
Proof.
  unfold has, uFlush, uWriteHeader. destruct (wrote u) as [[c h]|] eqn:E; [by rewrite ?E|]. cbn.
  intros (Hs & H1 & H2 & H3 & ->). unfold code. by rewrite Hs.
Qed.

Lemma has_safe u ce body : has u ce body → has (uHeader ensureSafeResponseHeaders u) ce body.
Proof.
  unfold has. cbn. destruct (wrote u) as [[c h]|]; [done|]. intros (Hs & H1 & H2 & H3). rewrite similar_safe by done. done.
Qed.

Lemma has_sent w ce : wrote (ResponseWriter w) = None → out (ResponseWriter w) = "" → similar (hdr (ResponseWriter w)) h0 →
  Get "Content-Encoding" (hdr (ResponseWriter w)) = ce → statusOf w → has (ResponseWriter (sendStatus w)) ce "".
Proof.
  intros Hw Ho Hs Hc Hst. unfold sendStatus, has, uWriteHeader, code. destruct (Z.eqb_spec (statusCode w) 0) as [E|E]; cbn; rewrite Hw; cbn.
  - split; [|done]. destruct Hst as [<- | [-> _]]; done.
  - split; [|done]. destruct Hst as [<- | [-> ->]]; [|done]. by rewrite (proj2 (Z.eqb_neq _ _)).
Qed.

Lemma sendStatus_same w : encoding (sendStatus w) = encoding w ∧ minBytes (sendStatus w) = minBytes w ∧ bypass (sendStatus w) = bypass w ∧
  capture (sendStatus w) = capture w ∧ captured (sendStatus w) = captured w.
Proof. unfold sendStatus. by destruct (statusCode w =? 0). Qed.

Lemma release_same w : let w' := releaseHoldBuf w in encoding w' = encoding w ∧ minBytes w' = minBytes w ∧ started w' = started w ∧ bypass w' = bypass w ∧
  writer w' = writer w ∧ ResponseWriter w' = ResponseWriter w ∧ capture w' = capture w ∧ captured w' = captured w.
Proof. cbv zeta. unfold releaseHoldBuf. by destruct (buf w). Qed.

Lemma bodyOf_empty : bodyOf "" = "".
Proof. unfold bodyOf. by destruct (responseStatusAllowsBody code). Qed.

Lemma startBypass_passing w b : configured w → ready w b → configured (startBypass w) ∧ passing (startBypass w) b.
Proof.
  intros [He Hm] (Hst & Hb & Hw & Hwr & Ho & Hs & Hc & Hsc & Hbuf & Hcap & Hcd). unfold startBypass. rewrite Hst.
  set (w1 := mkW _ _ _ _ _ true true _ _ _ _ _).
  assert (has (ResponseWriter (sendStatus w1)) plainCE "") as Hh by (by apply has_sent).
  destruct (sendStatus_fields w1) as (E1 & _ & _ & _ & E5). destruct (sendStatus_same w1) as (F1 & F2 & F3 & F4 & F5).
  match goal with |- configured (releaseHoldBuf ?x) ∧ _ => set (w2 := x) end.
  assert (configured w2 ∧ passing w2 b) as [G1 G2].
  { unfold w2. rewrite E1. cbn [buf w1]. destruct (buf w) as [[|c r]|] eqn:Eb; cbn in Hbuf; subst b; unfold configured, passing, unused;
      cbn [setUnder encoding minBytes started bypass ResponseWriter capture captured];
      rewrite F1, F2, F3, F4, F5, E5; cbn; rewrite Hcap; split_and!; try done; rewrite ?bodyOf_empty; try done; try (destruct cap; [by right|by left]).
    change (String c r) with ("" +:+ String c r) at 2. apply has_bodyOf. by rewrite bodyOf_empty. }
  destruct (release_same w2) as (R1 & R2 & R3 & R4 & _ & R6 & R7 & R8). unfold configured, passing. by rewrite R1, R2, R3, R4, R6, R7, R8.
Qed.

Lemma startCompression_compressing w b : configured w → ready w b → worth b → configured (startCompression w) ∧ compressing (startCompression w) b.
Proof.
  intros [He Hm] (Hst & Hb & Hw & Hwr & Ho & Hs & Hc & Hsc & Hbuf & Hcap & Hcd) Hwo. unfold startCompression. rewrite Hst.
  set (w1 := mkW _ _ _ _ _ true _ _ _ _ _ _).
  assert (has (ResponseWriter (sendStatus w1)) enc "") as Hh.
  { apply has_sent; [done|done| | |done]; cbn; rewrite He; [by apply compressed_similar|apply compressed_encoding]. }
  destruct (sendStatus_fields w1) as (E1 & _ & E3 & _ & E5). destruct (sendStatus_same w1) as (F1 & F2 & F3 & F4 & F5).
  match goal with |- configured (releaseHoldBuf ?x) ∧ _ => set (w2 := x) end.
  assert (configured w2 ∧ compressing w2 b) as [G1 G2].
  { unfold w2. rewrite E1. cbn [buf w1]. destruct (buf w) as [[|c r]|] eqn:Eb; cbn in Hbuf; subst b; unfold configured, compressing;
      cbn [emit encoding minBytes started bypass ResponseWriter capture captured writer];
      rewrite F1, F2, F3, F4, F5, E5, ?E3; cbn [w1 encoding minBytes started bypass capture captured writer]; rewrite Hcap;
      (split; [done|]; split; [done|]; split; [done|]; split; [done|]).
    - exists []. done.
    - exists [Some (String c r)]. unfold gz_run. cbn [foldl]. unfold gz_step. cbn [fst snd]. destruct (gz_Write gz_new (String c r)) as [g e] eqn:Eg. cbn [fst snd].
      split_and!; try done; [cbn; by rewrite append_nil_r|by apply has_write, Hh; destruct Hwo as (_ & ? & _)|by destruct cap].
    - exists []. done. }
  destruct (release_same w2) as (R1 & R2 & R3 & R4 & R5 & R6 & R7 & R8). unfold configured, compressing. by rewrite R1, R2, R3, R4, R5, R6, R7, R8.
Qed.

Lemma passing_write w b s : passing w b → passing (passThrough s w) (b +:+ s).
Proof. intros (H1 & H2 & H3 & H4). unfold passThrough, passing. cbn. split; [done|]. split; [done|]. split; [by apply has_bodyOf, has_safe|done]. Qed.

Lemma worth_more b s : worth b → worth (b +:+ s).
Proof. intros (H1 & H2 & H3). split_and!; [done|done|]. destruct H3 as [?|?]; [by left|right]. rewrite len_append. pose proof (len_nonneg s). lia. Qed.

(** One more operation on the gzip writer. *)
Lemma compressing_emit w b o : compressing w b →
  ∃ g, writer w = Some g ∧ compressing (emit (match o with Some s => gz_Write g s | None => gz_Flush g end) w) (b +:+ default "" o).
Proof.
  intros (H1 & H2 & H3 & ops & H4 & H5 & H6 & H7 & H8). exists (gz_run ops).1. split; [done|].
  unfold compressing, emit. cbn [started bypass writer ResponseWriter capture captured]. split; [done|]. split; [done|]. split; [by apply worth_more|].
  exists (ops ++ [o]). rewrite gz_run_snoc, written_snoc, H5, H7. unfold gz_step.
  assert (responseStatusAllowsBody code = true) as Ha by (by destruct H3 as (_ & ? & _)).
  destruct (gz_run ops) as [g e]. cbn [fst snd] in *. destruct (match o with Some _ => _ | None => _ end) as [g' e']. cbn [fst snd].
  split; [done|]. split; [done|]. split; [by apply has_write|]. split; [by destruct cap|done].
Qed.

Lemma compressing_write w b s : compressing w b → compressing (compress s w) (b +:+ s).
Proof. intros Hw. destruct (compressing_emit w b (Some s) Hw) as (g & Hg & Hc). unfold compress. by rewrite Hg. Qed.

Lemma status_allows w : statusOf w → responseStatusAllowsBody (statusCode w) = responseStatusAllowsBody code.
Proof. unfold code. intros [-> | [-> ->]]; [|done]. by destruct (Z.eqb_spec status 0) as [-> |]. Qed.

(** The decision at the start. *)
Lemma decided w b : configured w → ready w b →
  if shouldBypassCompression w then True else blank plainCE = true ∧ responseStatusAllowsBody code = true.
Proof.
  intros [He _] (_ & _ & _ & _ & _ & _ & Hc & Hst & _). unfold shouldBypassCompression. rewrite He, Hc, status_allows by done.
  rewrite (proj2 (String.eqb_neq enc "") Henc). cbn. by destruct (responseStatusAllowsBody code), (blank plainCE).
Qed.

Lemma ready_safe w b : ready w b → ready (safeHeaders w) b.
Proof. unfold ready, safeHeaders. cbn. intros (? & ? & ? & ? & ? & Hs & ?). by rewrite similar_safe. Qed.

Lemma safe_inv w b : inv w b → inv (safeHeaders w) b.
Proof.
  intros [Hset [[Hr Hl]|[Hp|Hc]]]; (split; [exact Hset|]).
  - left. split; [by apply ready_safe|done].
  - right. left. destruct Hp as (? & ? & ? & ?). unfold passing. cbn. split; [done|]. split; [done|]. split; [by apply has_safe|done].
  - right. right. destruct Hc as (? & ? & ? & ops & ? & ? & ? & ? & ?). unfold compressing. cbn. split; [done|]. split; [done|]. split; [done|].
    exists ops. split_and!; try done. by apply has_safe.
Qed.

Lemma ready_status w b : ready w b → ready (if statusCode w =? 0 then setStatus 200 w else w) b.
Proof.
  intros Hr. destruct (Z.eqb_spec (statusCode w) 0) as [E|]; [|done]. destruct Hr as (? & ? & ? & ? & ? & ? & ? & Hs & ?).
  unfold ready, statusOf. cbn. repeat (split; [done|]). split; [|done]. right. destruct Hs as [<- | [? ?]]; lia.
Qed.

Lemma Write_inv w b s : inv w b → inv (Write s w) (b +:+ s).
Proof.
  intros Hw%safe_inv. unfold Write. generalize dependent (safeHeaders w). clear w. intros w [Hset Hw].
  destruct Hw as [[Hr Hl]|[Hp|Hc]].
  2: { destruct Hp as (Hs & Hb & Hp). rewrite Hs, Hb. split; [done|]. right. left. by apply passing_write. }
  2: { split; [|right; right]; destruct Hc as (Hs & Hb & Hc); rewrite Hs, Hb; [unfold compress; by destruct (writer w)|by apply compressing_write]. }
  rewrite (proj1 Hr). set (w1 := if statusCode w =? 0 then setStatus 200 w else w).
  assert (configured w1) as Hset1 by (unfold w1; by destruct (statusCode w =? 0)). assert (ready w1 b) as Hr1 by (by apply ready_status).
  pose proof (decided w1 b Hset1 Hr1) as Hd. destruct (shouldBypassCompression w1).
  { destruct (startBypass_passing w1 b Hset1 Hr1) as [H1 H2]. split; [done|]. right. left. by apply passing_write. }
  rewrite (proj2 Hset1). destruct (Z.leb_spec min 0) as [Hm|Hm].
  { destruct (startCompression_compressing w1 b Hset1 Hr1) as [H1 H2]; [pose proof (len_nonneg b); split_and!; try apply Hd; right; lia|].
    split; [unfold compress; by destruct (writer _)|]. right. right. by apply compressing_write. }
  set (w2 := setBuf _ _ (acquireHoldBuf w1)). assert (configured w2) as Hset2 by (unfold w2, acquireHoldBuf; by destruct (buf w1)).
  assert (ready w2 (b +:+ s)) as Hr2.
  { destruct Hr1 as (? & ? & ? & ? & ? & ? & ? & ? & <- & ?). unfold w2, acquireHoldBuf, ready. destruct (buf w1) eqn:Eb; cbn; rewrite ?Eb; done. }
  assert (default "" (buf (acquireHoldBuf w1)) +:+ s = b +:+ s) as Eb.
  { unfold acquireHoldBuf. destruct Hr1 as (_ & _ & _ & _ & _ & _ & _ & _ & <- & _). destruct (buf w1) eqn:E; cbn; by rewrite ?E. }
  rewrite (proj2 Hset2), Eb. destruct (Z.leb_spec min (len (b +:+ s))) as [Hm2|Hm2].
  - destruct (startCompression_compressing w2 (b +:+ s) Hset2 Hr2) as [H1 H2]; [split_and!; try apply Hd; by right|]. split; [done|]. by right; right.
  - split; [done|]. left. split; [done|]. by right.
Qed.

Lemma Flush_inv w b : flushes → inv w b → inv (Flush w) b.
Proof.
  intros Hf [Hset Hw]. unfold Flush. set (w1 := if started w then w else _).
  assert (configured w1 ∧ (passing w1 b ∨ compressing w1 b)) as [H1 H2].
  { unfold w1. destruct Hw as [[Hr Hl]|[Hp|Hc]].
    - rewrite (proj1 Hr). pose proof (decided w b Hset Hr) as Hd. destruct (shouldBypassCompression w).
      + destruct (startBypass_passing w b Hset Hr). auto.
      + destruct (startCompression_compressing w b Hset Hr); [split_and!; try apply Hd; by left|auto].
    - rewrite (proj1 Hp). auto.
    - rewrite (proj1 Hc). auto. }
  destruct H2 as [Hp|Hc].
  - rewrite (proj1 (proj2 Hp)). split; [done|]. right. left. destruct Hp as (? & ? & ? & ?). unfold passing. cbn.
    split; [done|]. split; [done|]. split; [by apply has_flush|done].
  - rewrite (proj1 (proj2 Hc)). destruct (compressing_emit w1 b None Hc) as (g & Hg & Hc2). rewrite Hg. cbn in Hc2. rewrite append_nil_r in Hc2.
    split; [done|]. right. right. destruct Hc2 as (? & ? & ? & ops & ? & ? & ? & ?). unfold compressing.
    split; [done|]. split; [done|]. split; [done|]. exists ops. split; [done|]. split; [done|]. split; [by apply has_flush|done].
Qed.

(** What the client has at the end. *)
Lemma finish_result w b : inv w b →
  has (ResponseWriter (finish w)) plainCE (bodyOf b) ∧ captured (finish w) = None ∨
  worth b ∧ ∃ body, has (ResponseWriter (finish w)) enc body ∧ gunzip body = Some b ∧
    captured (finish w) = (if cap && negb (String.eqb body "") then Some body else None).
Proof.
  intros [Hset Hw]. unfold finish. set (w1 := if started w then w else _).
  assert (configured w1 ∧ (passing w1 b ∨ compressing w1 b)) as [_ H2].
  { unfold w1. destruct Hw as [[Hr Hl]|[Hp|Hc]].
    - rewrite (proj1 Hr). pose proof (decided w b Hset Hr) as Hd. destruct (shouldBypassCompression w); cbn.
      { destruct (startBypass_passing w b Hset Hr). auto. }
      assert (default "" (buf w) = b) as -> by apply Hr. rewrite (proj2 Hset). destruct (Z.ltb_spec (len b) min).
      + destruct (startBypass_passing w b Hset Hr). auto.
      + destruct (startCompression_compressing w b Hset Hr); [split_and!; try apply Hd; by right|auto].
    - rewrite (proj1 Hp). auto.
    - rewrite (proj1 Hc). auto. }
  generalize dependent w1. intros w1 Hw1. cbn.
  match goal with |- context [releaseHoldBuf ?x] => destruct (release_same x) as (_ & _ & _ & _ & _ & R6 & _ & R8) end. rewrite R6, R8.
  unfold finalizeEncodedCapture, closeWriter. destruct Hw1 as [(H1 & H2 & H3 & H4 & H5)|(H1 & H2 & H3 & ops & H4 & <- & H6 & H7 & H8)]; rewrite H2.
  - left. by destruct H4 as [-> | ->].
  - rewrite H4. right. split; [done|]. exists ((gz_run ops).2 +:+ gz_Close (gz_run ops).1). cbn [emit capture]. rewrite H7.
    split; [|split; [apply gunzip_run|]]; destruct cap; cbn [option_map fst snd]; try destruct ((gz_run ops).2 +:+ _) eqn:Eo;
      cbn [ResponseWriter captured]; try done; rewrite <- ?Eo; apply has_write; try done; apply H3.
Qed.

End Content.

(** ** The handlers of the proxy *)

(** Before the status: headers with a value and captures. *)
Definition heading (o : op) : bool :=
  match o with OpHeader _ v => negb (blank v) | OpCapture _ => true | _ => false end.

(** After it: the body. *)
Definition sending (o : op) : bool := match o with OpWrite _ | OpFlush => true | _ => false end.

Definition captures (enc : string) (o : op) : bool := match o with OpCapture e => String.eqb (ToLower (TrimSpace e)) enc | _ => false end.

Definition content (body : list op) : string := foldr (λ o acc, match o with OpWrite b => b +:+ acc | _ => acc end) "" body.

Definition handlerOf (pre : list op) (status : Z) (body : list op) : list op :=
  pre ++ (if status =? 0 then [] else [OpStatus status]) ++ body.

Section Handlers.
Context `{GzipStreamLaws}.

Definition headersOf (pre : list op) : gmap string (list string) := hdr (foldl direct fresh pre).

Lemma Get_Set k v k' h : Get k' (Set_ k v h) = if decide (k = k') then v else Get k' h.
Proof. unfold Get, Set_. destruct (decide (k = k')) as [->|Hk]; [by rewrite lookup_insert_eq|by rewrite lookup_insert_ne]. Qed.

Lemma headers_safe pre : Forall (λ o, heading o = true) pre → safe (headersOf pre).
Proof.
  intros Hp. unfold headersOf. assert (safe (hdr fresh)) as Hs by (by vm_compute). revert Hp Hs. generalize fresh.
  induction pre as [|o pre IH]; intros u Hp Hs; [done|]. apply Forall_cons in Hp as [Ho Hp]. cbn. apply IH; [done|].
  destruct o as [k v| | | |]; try done. cbn in *. apply negb_true_iff in Ho. destruct Hs as [H1 H2]. split; rewrite Get_Set; by destruct (decide _).
Qed.

(** The state of both writers before the status. *)
Lemma heading_direct pre : Forall (λ o, heading o = true) pre → foldl direct fresh pre = mkUnder (headersOf pre) None "".
Proof.
  intros Hp. unfold headersOf. assert (wrote fresh = None ∧ out fresh = "") as Hs by done. revert Hp Hs. generalize fresh.
  induction pre as [|o pre IH]; intros u Hp [H1 H2]; cbn; [destruct u; cbn in *; by subst|]. apply Forall_cons in Hp as [Ho Hp].
  apply IH; [done|]. by destruct o.
Qed.

Lemma heading_act enc min pre : enc ≠ "" → Forall (λ o, heading o = true) pre →
  foldl act (newWriter fresh enc min) pre =
  mkW (foldl direct fresh pre) enc min None 0 false false None (if existsb (captures enc) pre then Some "" else None) None 0 0.
Proof.
  intros He. induction pre as [|o pre IH] using rev_ind; intros Hp; [done|]. apply Forall_app in Hp as [Hp [Ho _]%Forall_cons].
  rewrite !foldl_app, IH, existsb_app by done. cbn [foldl existsb]. destruct o as [k v| | | |e]; try done; cbn [act direct captures].
  - by rewrite orb_false_r.
  - unfold registerEncodedResponseCapture. cbn [started encoding]. rewrite orb_false_r. cbn [orb].
    destruct (String.eqb_spec (ToLower (TrimSpace e)) enc) as [->|Hne]; [|by rewrite orb_true_r, orb_false_r].
    rewrite (proj2 (String.eqb_neq enc "") He), orb_true_r. done.
Qed.

Lemma content_snoc body o : content (body ++ [o]) = content body +:+ match o with OpWrite b => b | _ => "" end.
Proof.
  induction body as [|x body IH]; cbn [content foldr app]; [by destruct o; rewrite ?append_nil_r|].
  change (foldr _ "" (body ++ [o])) with (content (body ++ [o])). change (foldr _ "" body) with (content body). rewrite IH.
  destruct x; by rewrite ?append_assoc.
Qed.

(** The server's own writer during the body. *)
Definition plain (h0 : gmap string (list string)) (status : Z) (u : under) (b : string) : Prop :=
  match wrote u with Some (c, h) => c = code status ∧ h = h0 | None => status = 0 ∧ b = "" end ∧ hdr u = h0 ∧ out u = bodyOf status b.

Lemma direct_status h0 status : plain h0 status (foldl direct (mkUnder h0 None "") (if status =? 0 then [] else [OpStatus status])) "".
Proof.
  unfold plain. rewrite bodyOf_empty. destruct (Z.eqb_spec status 0) as [->|Hs]; cbn; [done|]. unfold code. by rewrite (proj2 (Z.eqb_neq _ _) Hs).
Qed.

Lemma direct_body h0 status body u b : Forall (λ o, sending o = true) body → plain h0 status u b →
  plain h0 status (foldl direct u body) (b +:+ content body).
Proof.
  intros Hb Hu. induction body as [|o body IH] using rev_ind; [by rewrite append_nil_r|]. apply Forall_app in Hb as [Hb [Ho _]%Forall_cons].
  rewrite foldl_app, content_snoc, <- append_assoc. specialize (IH Hb). cbn [foldl]. generalize dependent (foldl direct u body).
  generalize (b +:+ content body). clear u b Hb Hu. intros b u (Hw & Hh & Ho').
  destruct o; try done; cbn [direct]; [|rewrite append_nil_r]; unfold plain, uWrite, uFlush, uWriteHeader;
    destruct (wrote u) as [[c h]|] eqn:Ew; rewrite ?Ew; cbn.
  - destruct Hw as [-> ->]. unfold bodyOf in *. destruct (responseStatusAllowsBody (code status)); cbn; rewrite ?Ew; [by rewrite Ho'|done].
  - destruct Hw as [-> ->]. rewrite Hh, Ho'. done.
  - done.
  - destruct Hw as [-> ->]. rewrite Hh, Ho'. done.
Qed.

Lemma plain_response h0 status u b : plain h0 status u b → response u = (code status, h0, bodyOf status b).
Proof. unfold plain, response. destruct (wrote u) as [[c h]|]; [by intros [[-> ->] [_ ->]]|]. by intros [[-> _] [-> ->]]. Qed.

Lemma has_response h0 status u ce body : has h0 status u ce body →
  ∃ h, response u = (code status, h, body) ∧ similar h h0 ∧ Get "Content-Encoding" h = ce.
Proof.
  unfold has, response. destruct (wrote u) as [[c h]|]; [intros (-> & ? & ? & ->); by exists h|].
  intros (-> & ? & ? & -> & ->). by exists (hdr u).
Qed.

Lemma status_inv enc min pre status flushes : enc ≠ "" → Forall (λ o, heading o = true) pre →
  inv enc min (headersOf pre) status flushes (existsb (captures enc) pre)
    (foldl act (newWriter fresh enc min) (pre ++ if status =? 0 then [] else [OpStatus status])) "".
Proof.
  intros He Hp. rewrite foldl_app, heading_act, heading_direct by done. split; [by destruct (status =? 0)|]. left. split; [|by left].
  unfold ready, statusOf. destruct (Z.eqb_spec status 0) as [->|Hs]; cbn; [by split_and!; try (by left)|].
  rewrite safe_kept by (by apply headers_safe). split_and!; try done. by left.
Qed.

Lemma body_inv enc min h0 status cap body w b : enc ≠ "" → safe h0 → Forall (λ o, sending o = true) body →
  inv enc min h0 status (OpFlush ∈ body) cap w b → inv enc min h0 status (OpFlush ∈ body) cap (foldl act w body) (b +:+ content body).
Proof.
  intros He Hs. generalize (eq_refl (OpFlush ∈ body)). generalize (OpFlush ∈ body) at 1 3 4. intros P HP Hb.
  assert (OpFlush ∈ body → P) as HfP by (by rewrite HP). clear HP. revert w b. induction body as [|o body IH]; intros w b Hw; [by rewrite append_nil_r|].
  apply Forall_cons in Hb as [Ho Hb]. cbn [foldl content foldr]. change (foldr _ "" body) with (content body).
  destruct o; try done; cbn [act].
  - rewrite <- append_assoc. apply IH; [done|set_solver|]. by apply Write_inv.
  - apply IH; [done|set_solver|]. apply Flush_inv; [done|apply HfP; set_solver|done].
Qed.

(** C18 A handler that first sets headers with values that are not blank and registers
    captures, then gives at most one status, and then writes and flushes its body answers
    the same through the compressing writer: the status is the same, so is every header but
    Content-Encoding, Content-Length and Vary, and either the body is the handler's with the
    handler's encoding, or its encoding is the negotiated one and it unpacks to the handler's.
    Only a body without an encoding of its own that reaches the minimum size, or that is
    flushed, is compressed; and a registered capture gets exactly the bytes sent.  A status
    given after the first bytes of the body is not among these handlers and is answered
    differently ([late_status_wins]). *)
Theorem compression_transparent enc min pre status body :
  enc ≠ "" → Forall (λ o, heading o = true) pre → Forall (λ o, sending o = true) body →
  let handler := handlerOf pre status body in
  let w := finish (foldl act (newWriter fresh enc min) handler) in
  let '(c, h, b) := response (foldl direct fresh handler) in
  let '(c', h', b') := response (ResponseWriter w) in
  c' = c ∧ similar h' h ∧
  (Get "Content-Encoding" h' = Get "Content-Encoding" h ∧ b' = b ∧ captured w = None ∨
   Get "Content-Encoding" h' = enc ∧ gunzip b' = Some b ∧ blank (Get "Content-Encoding" h) = true ∧ (OpFlush ∈ body ∨ min ≤ len b) ∧
   captured w = (if existsb (captures enc) pre && negb (String.eqb b' "") then Some b' else None)).
Proof.
  intros He Hp Hb. cbv zeta. unfold handlerOf. rewrite app_assoc, !foldl_app.
  pose proof (headers_safe pre Hp) as Hs. pose proof (direct_body _ status body _ _ Hb (direct_status (headersOf pre) status)) as Hd.
  rewrite <- heading_direct in Hd by done. apply plain_response in Hd. rewrite Hd. cbn [String.append].
  pose proof (body_inv enc min _ status _ body _ _ He Hs Hb (status_inv enc min pre status (OpFlush ∈ body) He Hp)) as Hi.
  apply finish_result in Hi; [|done..]. rewrite foldl_app in Hi. cbn [String.append] in Hi.
  destruct Hi as [[(h & -> & H1 & H2)%has_response Hc]|((Hbl & Ha & Hl) & z & (h & -> & H1 & H2)%has_response & Hg & Hc)].
  - by split_and!; [done|done|left].
  - split_and!; [done|done|right]. unfold bodyOf. rewrite Ha. done.
Qed.

(** An encoded variant unpacks to the body. *)
Lemma encoded_variant body z : EncodeResponseBody "gzip" body = Some z → gunzip z = Some body.
Proof.
  unfold EncodeResponseBody. cbn [String.eqb orb]. pose proof (gunzip_run [Some body]) as Hr. unfold gz_run in Hr. cbn [foldl] in Hr.
  unfold gz_step, written in Hr. cbn [fst snd foldr default] in Hr. rewrite append_nil_r in Hr. vm_compute (_ || _). vm_compute (String.eqb _ "gzip").
  destruct (gz_Write gz_new body) as [g s]. cbn in Hr. intros [= <-]. exact Hr.
Qed.

End Handlers.
End CompressLaws.

Module CompressDemo.
Import Text Utf8 Compress CompressLaws.

(** A packer that keeps everything to the end. *)
#[local] Instance packer : GzipStream := {|
  gz := string;
  gz_new := "";
  gz_Write g b := (g +:+ b, "");
  gz_Flush g := (g, "");
  gz_Close g := String "z" g;
  gunzip s := match s with String "z" r => Some r | _ => None end
|}.

#[local] Instance packer_laws : GzipStreamLaws.
Proof.
  intros ops. assert (gz_run ops = (written ops, "")) as ->; [|done].
  induction ops as [|o ops IH] using rev_ind; [done|]. rewrite gz_run_snoc, IH, written_snoc. destruct o; cbn; by rewrite ?append_nil_r.
Qed.

Definition answer : list op := handlerOf [OpHeader "Content-Type" "application/json"; OpCapture "GZIP"] 404 [OpWrite "{}"; OpWrite "[]"].

Lemma compression_transparent_witness :
  let w := finish (foldl act (newWriter fresh "gzip" 4) answer) in
  ((response (ResponseWriter w)).1.1, (response (ResponseWriter w)).2, captured w) = (404, "z{}[]", Some "z{}[]") ∧
  (let '(c, h, b) := response (foldl direct fresh answer) in
   let '(c', h', b') := response (ResponseWriter w) in
   c' = c ∧ similar h' h ∧
   (Get "Content-Encoding" h' = Get "Content-Encoding" h ∧ b' = b ∧ captured w = None ∨
    Get "Content-Encoding" h' = "gzip" ∧ gunzip b' = Some b ∧ blank (Get "Content-Encoding" h) = true ∧
    (OpFlush ∈ [OpWrite "{}"; OpWrite "[]"] ∨ 4 ≤ len b) ∧
    captured w = (if existsb (captures "gzip") [OpHeader "Content-Type" "application/json"; OpCapture "GZIP"] && negb (String.eqb b' "") then Some b' else None))).
Proof.
  split; [vm_compute; reflexivity|].
  apply (compression_transparent "gzip" 4 [OpHeader "Content-Type" "application/json"; OpCapture "GZIP"] 404 [OpWrite "{}"; OpWrite "[]"]); [done|by repeat constructor|by repeat constructor].
Defined.

(** A coding the client refuses is taken as accepted: its weight is not read. *)
Lemma refused_coding_accepted : negotiateResponseEncoding "gzip;q=0, identity" ResponseCompressionAuto = "gzip".
Proof. by vm_compute. Qed.

(** A status given after bytes that are still held back is sent, where the server's own writer
    has already sent 200. *)
Lemma late_status_wins :
  let handler := [OpWrite "ok"; OpStatus 500] in
  (response (foldl direct fresh handler)).1.1 = 200 ∧
  (response (ResponseWriter (finish (foldl act (newWriter fresh "gzip" 4096) handler)))).1.1 = 500.
Proof. by vm_compute. Qed.

End CompressDemo.
